(* ===== verification/_CoqProject ===== *)
-Q . S2P
Prelude.v
CString.v
Ast.v
SimValue.v
SimBits.v
Digits.v
SimArith.v
SimBitwise.v
SimWf.v
SimOrder.v
SimSpec.v
Util.v
IR.v
SimState.v
SimEval.v
SimDeps.v
SimExec.v
SimExecInv.v
SimSettle.v
SimChunks.v
SimFixpoint.v
SimWrite.v
SimLiveness.v
SimInit.v
SimIntrinsics.v
SimMono.v
SimTyping.v
SimEvalSpec.v
SimRunSpec.v
ConstEval.v
ConstEvalTotal.v
ConstEvalGrammar.v
ConstEvalSpec.v
SymTab.v
TbState.v
TbExpr.v
TbDecls.v
SimEngine.v
SimEdge.v
TbInv.v
TbSpec.v
DivGuard.v
DivSound.v
PathSecurity.v
PathSpec.v
Types.v
TypeSpec.v
Literal.v
LitSpec.v
Lexer.v
LexPos.v
LexSpec.v
LexRound.v
ParseCore.v
ParseExpr.v
ParseStmt.v
ParseGrammar.v
ParseLogic.v
ParseSound.v
ParseComplete.v
ParsePrint.v
ParseSpec.v
ParseBlocks.v
ParseStmtSpec.v
Repeat.v
RepeatSpec.v
NetGraph.v
NetSpec.v
Comb.v
CombGraph.v
CombPaths.v
CombSummary.v
CombMemo.v
CombSpec.v
Excl.v
ExclWays.v
ExclSpec.v
DeadCode.v
Template.v
TemplateSpec.v
