(* ===== verification/Prelude.v ===== *)
(** * A model of the JZ-HDL simulator, its test benches and compiler checks

    JZ-HDL is a hardware description language; its compiler, written in C under
    [compiler/], parses a design, checks it, lowers it to an intermediate
    representation (IR), and emits Verilog or RTLIL or simulates the IR.  This
    library models the part that gives a design its meaning when it runs (the
    simulator, the IR it executes, and the engine that runs test benches on
    it), the evaluators that give literals, constants and types their meaning
    at compile time, the lexer and the parser of expressions and statements,
    static checks (of divisors in the IR; of combinational loops, of exclusive
    assignments and of dead code in the syntax tree), and the sandbox every file
    access goes through.

    ** The program's parts

    - [include/ir.h], [include/ast.h]: the IR, and the syntax tree.
    - [src/sim/sim_value.c]: vectors of up to 256 four-state bits (0, 1, x, z),
      held in three arrays of four 64-bit words.
    - [src/sim/sim_state.c]: the state of a module instance (signals, memories,
      dirty flags), its creation with random register contents, the read and
      write sets of asynchronous statements, the commit of register updates.
    - [src/sim/sim_eval.c], [sim_exec.c]: expressions, statements, propagation
      through instance ports, settling of asynchronous logic, clock domains.
    - [src/sim/sim_engine.c]: test benches.  Wires and clocks are declared and
      bound to the ports of a design; directives set wires, advance clocks and
      compare values.
    - [src/sem/const_eval.c]: lexer, parser and evaluator of constant
      expressions, and of lists of named constants that refer to each other;
      [driver.c] calls it with the project's CONFIG entries.
    - [src/repeat_expand.c]: repetition of source text, before the lexer.
    - [src/lexer.c]: the lexer, from source text to tokens with locations.
    - [src/parser/parser_core.c], [parser_expressions.c], [parser_statements.c],
      [parser_template.c], [src/ast/ast.c]: from tokens to the syntax tree of
      expressions, statements and templates.
    - [src/sem/literal.c], [type.c], with parts of [driver.c],
      [driver_literal.c], [driver_operators.c] and [ir_build_expr.c]: widths of
      literals, types of operators, decoding of literals.
    - [src/sem/template_expand.c]: the expansion of templates on the syntax tree.
    - [src/sem/driver_net.c]: the nets of a module, signals that alias
      statements connect, with what drives and reads them.
    - [src/sem/driver_comb.c]: the search for combinational loops along the
      paths of asynchronous blocks, with summaries of instantiated modules.
    - [src/sem/driver_flow.c]: the check that no bit is assigned twice on a way
      through a block, that observed nets have a driver, and that no code is
      dead; with the resolution of BUS signals of [driver.c].
    - [src/ir/ir_div_guard.c]: the check that divisors are guarded.
    - [src/path_security.c]: the check that paths stay in the sandbox.
    - [src/util.c]: limits, depth counters, overflow-checked sizes, which the
      others call.

    A simulation creates a context ([sim_ctx_create]), settles it
    ([sim_settle_combinational]), and then, at each clock edge, executes the
    domain ([sim_exec_sync_domain_with_children]), commits
    ([sim_ctx_apply_nba]) and settles again.  A test does this through
    [sim_run_test]: it copies wires to input ports, settles, copies output
    ports back, and evaluates its expectations on the wires.  The checks run
    long before, on the tree the parser built: [sem_build_net_graphs] builds the
    graph of each module and hands it to the loop check.

    ** How the model corresponds to the code

    One definition per C function, under the C name; a large function is cut
    into named pieces along its cases and loops.
    - [Prelude] (this file): wrap-around of C integers, arrays read and written
      by index ([aget], [aset]), C loops ([for_up], [for_down] for loops that
      run to the end, [ret_up], [ret_down] for loops that return early).
      [CString] has the functions of the C library on strings, [Digits] the
      digit loops that three readers of literals share.
    - [Util], [IR], [Ast], [SimValue], [SimState], [SimEval], [SimExec],
      [ConstEval], [Repeat], [Lexer], [DivGuard], [PathSecurity] model the files of the
      same names, [ParseCore], [ParseExpr] and [ParseStmt] those of the parser;
      [Literal] and [Types] the files about literals and types, [SymTab]
      the project's symbols; [TbState], [TbExpr], [TbDecls] and [SimEngine] the
      test benches of [sim_engine.c].  [NetGraph] models [driver_net.c] and the
      collectors of [driver_comb.c], [Comb] its paths and searches,
      [CombSummary] its cache of summaries and the check of all modules.
      [Excl] models the exclusive assignments of [driver_flow.c], [DeadCode] its
      dead code, [Template] the file [template_expand.c].
    - The C context with its pointers becomes [SimModuleState], the state of
      one instance, and [SimContext], a state with the contexts of its
      children; pointers into a signal table are indices.  Everything mutable
      is passed as a value, which is faithful because no two contexts share a
      table.  The evaluator threads the error flag ([EvalM]), the parser its
      state ([PM]), a test its [SimTestState] with the design inside, the
      sandbox its globals ([PathSecurity]), the loop check its cache ([CM]).
      Where the code keeps an address into a block that may move, the model
      records the block ([Repeat], [CombSummary]).  Where the code compares
      pointers to nodes of the tree, the model compares their positions in it
      ([SymTab.Address]).  Where it changes a tree that others point to, the
      definitions of templates, the model writes each change back to where they
      look it up ([Template.update_definition]).
    - A C function that returns a status and writes through a pointer returns
      an option.  Signed overflow, undefined in C, raises a flag of the constant
      evaluator; out-of-range word indices, which the callers exclude by the
      width limit, read zero and write nothing.
    - The operating system is a parameter: [realpath], [getcwd], [lstat],
      [open] and [fstat] in [PathSecurity]; so are the constant evaluation in a
      module's scope in [Literal], the allocator's choice to move a growing
      block in [CombSummary], [rand] in [Template], and the inference of widths and the tests for
      memory ports in [Excl] and [DeadCode].  Diagnostics and failure texts are values.

    ** What is proved

    Values.  [SimBits] reads a value as its four-state bits ([bit_at]) and as a
    number ([sv_uint], [sv_sint]); [is_num r w n] says that [r] is a known
    well-formed value of width [w] and number [n].  [SimBits], [SimArith],
    [SimBitwise] and [SimWf] prove each operation against this reading, [SimOrder] against the information order [⊑v] (unknown below
    known); [SimSpec] states the results: arithmetic is modular arithmetic,
    division is Euclidean, logic follows the four-state tables, nothing claims
    more than its operands justify.

    Expressions.  [SimTyping] infers widths and [SimMono] shows, case by case,
    that evaluation respects widths and the information order; [SimDeps] that
    [collect_expr_reads] finds every signal an expression depends on;
    [SimIntrinsics] computes the intrinsics as functions on numbers.
    [SimEvalSpec] states the results.  [SignalStore] is the interface between
    the evaluator and the state: the evaluator's theorems hold for any store.

    Execution and settling.  [SimExecInv] reduces invariants of [sim_exec_stmt]
    to assignments and memory writes; the end of [SimTyping] preserves types.
    [SimSettle] reads an asynchronous statement as equations ([stmt_holds]) and
    works up to the error flag ([≡e]); [SimChunks] gives statements their read
    and write footprints; [SimFixpoint] has the invariant [skip_ok] behind the
    dirty flags and shows that settling ends in a state where all equations
    hold, for asynchronous logic that writes no memory and drives each signal in
    one place ([async_ok]); [SimLiveness] that it ends, for acyclic logic;
    [SimInit] that creation yields consistent states; [SimWrite] treats
    part-select writes.  [SimRunSpec] states the results, with the two cases
    found where settling reports success too early (a child below a quiet
    root, a memory word written behind an asynchronous read).

    Test benches.  [SimEdge] gives an abstract synchronous machine and shows
    that firing the domains of an edge refines it; [TbInv] has the invariants
    of propagation and assignment and counts expectations.  [TbSpec]
    states the results: simultaneous register update, simultaneous
    assignment at the declared widths, transfer through ports, and that a test
    succeeds exactly if each of its expectations holds where it stands.  Its end states where the engine falls short of the language:
    operator names the evaluator does not know, instances that follow the
    root's clock, resets that wait for an edge.

    Constants, literals, types.  [ConstEvalTotal] shows that evaluation never
    runs out of fuel; [ConstEvalGrammar] gives expressions as trees a value and
    a printer and shows that the evaluator inverts the printer.  The precedences
    are those of the comment in [const_eval.c].
    [ConstEvalSpec] shows that a list of definitions with a solution is solved
    and states the results.  [LitSpec] gives the literals of tests their
    numbers and shows that the analysis accepts what fits and that the decoder
    agrees with the tests; [TypeSpec] that the types of
    operators are the widths the simulator computes, the product excepted.

    Source text.  [RepeatSpec] shows that the frame stack of the repetition
    ends on every source, and computes a recursive reference unless it uses an
    address that is no longer valid, which needs a block that moves and eight
    open directives; and that structured sources are expanded to what they stand
    for.  [LexPos] says what it means that tokens spell a text, blanks
    and comments aside; [LexSpec] shows that the tokens of any source spell it,
    up to reported errors, and [LexRound] that separated tokens are lexed to
    themselves.  The end of [LexRound] has what the lexer gets wrong: literals
    of imported files, operators that take a letter, strings without an end.

    Syntax.  [ParseGrammar] has the grammar of expressions as a relation
    between tokens and trees ([spells]), [ParseBlocks] that of statements
    ([block]).  [ParseLogic] and the first part of [ParseBlocks] are program logics
    for parser computations, without and with recovery from errors.  [ParseSound] shows
    that the parser terminates and accepts only the grammar, [ParseComplete]
    that it accepts every phrase, [ParsePrint] that it inverts a printer with
    minimal parentheses, [ParseStmtSpec] that statements are sound.  All this is for
    the precedences of the code, in which shifts bind less tightly than binary +
    and -.  Section 3.3 of [jz-hdl-specification.md] has it the other way round:
    [ParseSpec.operators_group] compares the two tables.
    [ParseSpec] and [ParseStmtSpec] state the results and where the code
    differs from its comments: replications are concatenations, signs nest
    without limit, a counter is not restored.

    Nets and loops.  [NetSpec] shows that the nets of a module are the classes
    of its signals that alias statements connect, whatever the order of the
    statements.  [CombGraph] proves the two searches (the arrays of the
    adjacency, the depth-first search with colours, reachability) against the
    transitive closure of the edges.  [CombPaths] says what a way through a
    block is, independently of the walk, and shows that the recorded paths cover
    every way, and are the ways themselves as long as there are at most 256.
    [CombMemo] replaces the cache by plain recursion over the modules: as long
    as no slot moves while it is in use, the cached check reports what the plain
    one does.  [CombSpec] states the results: the verdict of a block, the
    summary of a module without instances, and what the check misses (signals a
    condition reads, an address of the cache kept while it grows).

    Exclusive assignments.  [ExclWays] says what a way through a block assigns,
    independently of the analysis, and shows by one composition lemma per form
    of statement that the analysis, which merges the branches into one set of
    records, is exact for the ways.  [ExclSpec] states it bit by bit: nothing is
    reported exactly if no bit is assigned twice on a way; a net reported
    without a driver has a way without one.  It ends with the blocks the checks
    let pass: partial branches, empty DEFAULT bodies, an ELSE under a CASE.
    [DeadCode] shows that what is reported as dead cannot be chosen.

    Templates.  [TemplateSpec] bounds the expansion by the growth it counts, so
    that it ends for recursive templates too, unless a count asks for [clog2] of
    more than 2^62, whose loop never ends (the outcome [Endless]); gives every scratch wire a key
    (template, call site, iteration) that its name spells, so that names differ, and finds the wires in the first WIRE block;
    and reads a text as words and characters between them, of which substitution
    replaces the parameters at once where names do not clash.  It ends with what
    expansion gets wrong: bases of literals, applications left in the tree,
    definitions that are expanded themselves.

    Checks.  [DivSound] shows that a design the division guard accepts divides
    by no zero; [PathSpec] that a validated path lies in the sandbox.

    ** Bounds and fuel

    Loops of the C code with a counter use their trip count.  [from_index_loop],
    [clog2_loop] and [count_bits] get as many rounds as the integer has bits.
    The constant parser gets 513 levels, one more than
    [JZ_LIMIT_CONST_EVAL_DEPTH], and one round of a loop per remaining
    character; definitions get one level each ([ConstEvalTotal] proves all of
    these enough).  [sim_ctx_create] gets one unit per level of the hierarchy:
    enough for any design whose instances do not nest cyclically, as
    [SimRunSpec] proves (the C code recurses without end on the others).  Clock
    execution gets the height of the context.  The
    repetition gets two rounds per character and one.  The lexer gets one round per
    character, for its loop and for the comments before a token; [LexSpec]
    proves both enough.  The parser gets as many levels of expressions, levels
    of statements and rounds of each loop as there are tokens, and one more;
    [ParseSpec] and [ParseStmtSpec] prove this enough.  The loop check gets two rounds
    per net and one for its depth-first search, one round per net for
    reachability, and as many levels of summaries as the depth counter allows
    ([CombGraph] and [CombMemo] prove these enough).  The expansion of templates
    gets, for the children of a node, a round per child and one per statement
    that the growth still allows ([TemplateSpec] proves this enough); a count
    expression one level per character.  Strings and trees are
    recursed on structurally, the exclusive assignments and templates with the
    levels of the code's own depth counter.

    ** What is not modelled

    Printing of diagnostics and of messages, allocation failure, freeing,
    performance counters.  Of [sim_value.c], decimal formatting.  Of
    [sim_engine.c], [@print] and the continuous simulations with their
    jittered clocks, traces and waveform files.  Of [path_security.c], the
    branches for Windows.  The parser of declarations,
    modules, projects and tests, the lowering to
    IR, the back ends, reports, chip data and the language server.  Of
    [driver_net.c], the rules checked on the finished graph; the other rule
    checks of [src/sem/]. *)

From stdpp Require Export base list numbers option strings.
From Stdlib Require Export Ascii ZArith Lia Btauto.

#[global] Set Default Proof Using "Type".

Declare Scope jz_scope.
Delimit Scope jz_scope with jz.
Local Open Scope Z_scope.

(** ** C machine integers *)

(** [UINT64_MAX] and the wrap-around of the three integer types the modelled
    code uses. *)
Definition UINT64_MAX : Z := 18446744073709551615.
Definition INT32_MAX : Z := 2147483647.
Definition LLONG_MAX : Z := 9223372036854775807.

Definition u64 (x : Z) : Z := x mod 2 ^ 64.
Definition u32 (x : Z) : Z := x mod 2 ^ 32.

(** Two's-complement wrap of a signed [w]-bit integer. *)
Definition swrap (w x : Z) : Z := (x + 2 ^ (w - 1)) mod 2 ^ w - 2 ^ (w - 1).
Definition i32 (x : Z) : Z := swrap 32 x.
Definition i64 (x : Z) : Z := swrap 64 x.

(** Unsigned 64-bit operators, with the wrap-around written out. *)
Definition add64 (a b : Z) : Z := u64 (a + b).
Definition sub64 (a b : Z) : Z := u64 (a - b).
Definition not64 (a : Z) : Z := Z.lxor a UINT64_MAX.
Definition shl64 (a s : Z) : Z := u64 (Z.shiftl a s).
Definition shr64 (a s : Z) : Z := Z.shiftr a s.

Notation "a '.&' b" := (Z.land a b) (at level 40, left associativity) : jz_scope.
Notation "a '.|' b" := (Z.lor a b) (at level 50, left associativity) : jz_scope.
Notation "a '.^' b" := (Z.lxor a b) (at level 45, left associativity) : jz_scope.
Notation "'.~' a" := (not64 a) (at level 35, right associativity) : jz_scope.
Notation "a '.<<' s" := (shl64 a s) (at level 36, left associativity) : jz_scope.
Notation "a '.>>' s" := (shr64 a s) (at level 36, left associativity) : jz_scope.

(** ** C arrays: fixed-length lists indexed by [Z]

    A read outside the array yields the default and a write outside it is
    dropped; both are undefined in C, and the theorems of the development
    carry the preconditions that exclude them. *)
Definition aget {A} (d : A) (l : list A) (i : Z) : A :=
  if i <? 0 then d else nth (Z.to_nat i) l d.
Definition aset {A} (l : list A) (i : Z) (x : A) : list A :=
  if i <? 0 then l else <[Z.to_nat i := x]> l.

(** ** C loops *)

(** [for (i = 0; i < n; i++) s = f i s]. *)
Fixpoint for_up {S} (n : nat) (f : Z -> S -> S) (s : S) : S :=
  match n with
  | O => s
  | Datatypes.S k => f (Z.of_nat k) (for_up k f s)
  end.

(** [for (i = n - 1; i >= 0; i--) s = f i s]. *)
Fixpoint for_down {S} (n : nat) (f : Z -> S -> S) (s : S) : S :=
  match n with
  | O => s
  | Datatypes.S k => for_down k f (f (Z.of_nat k) s)
  end.

(** A loop that only searches, and returns from the function when [f i] is
    [Some r]: ascending and descending. *)
Fixpoint ret_up {R} (n : nat) (f : Z -> option R) : option R :=
  match n with
  | O => None
  | Datatypes.S k =>
      match ret_up k f with Some r => Some r | None => f (Z.of_nat k) end
  end.

Fixpoint ret_down {R} (n : nat) (f : Z -> option R) : option R :=
  match n with
  | O => None
  | Datatypes.S k =>
      match f (Z.of_nat k) with Some r => Some r | None => ret_down k f end
  end.

Definition bool_to_int (b : bool) : Z := if b then 1 else 0.

(** * Lemmas *)

(** ** Arrays *)

Lemma aget_nil {A} (d : A) i : aget d [] i = d.
Proof. unfold aget. destruct (i <? 0); [done|]. by destruct (Z.to_nat i). Qed.

Lemma length_aset {A} (l : list A) i x : length (aset l i x) = length l.
Proof. unfold aset. destruct (i <? 0); [done | apply length_insert]. Qed.

Lemma aget_aset {A} (d : A) l i j x :
  aget d (aset l i x) j =
  if (0 <=? i) && (i <? Z.of_nat (length l)) && (i =? j) then x else aget d l j.
Proof.
  unfold aget, aset.
  destruct (Z.ltb_spec i 0), (Z.leb_spec 0 i); try lia; [done|]; simpl.
  destruct (Z.ltb_spec j 0).
  { destruct (Z.eqb_spec i j); [lia|]. by rewrite andb_false_r. }
  rewrite !nth_lookup.
  destruct (Z.ltb_spec i (Z.of_nat (length l))) as [Hl|Hl]; simpl.
  - destruct (Z.eqb_spec i j) as [->|Hne].
    + rewrite list_lookup_insert_eq by lia. done.
    + rewrite list_lookup_insert_ne by lia. done.
  - by rewrite list_insert_ge by lia.
Qed.

Lemma aget_out {A} (d : A) l i :
  ~ (0 <= i < Z.of_nat (length l)) -> aget d l i = d.
Proof.
  intros H. unfold aget. destruct (Z.ltb_spec i 0); [done|].
  apply nth_overflow. lia.
Qed.

Lemma aget_replicate {A} (d : A) n i : aget d (replicate n d) i = d.
Proof. unfold aget. destruct (i <? 0); [done|]. 
  generalize (Z.to_nat i). induction n as [|n IH]; intros [|k]; simpl; auto. Qed.

Lemma list_eq_aget {A} (d : A) l1 l2 :
  length l1 = length l2 ->
  (forall i, 0 <= i < Z.of_nat (length l1) -> aget d l1 i = aget d l2 i) ->
  l1 = l2.
Proof.
  intros Hlen H. apply (nth_ext _ _ d d); [done|]. intros n Hn.
  specialize (H (Z.of_nat n) ltac:(lia)). unfold aget in H.
  destruct (Z.ltb_spec (Z.of_nat n) 0); [lia|]. by rewrite Nat2Z.id in H.
Qed.

(** ** Loops *)

Lemma for_up_ext {S} n (f g : Z -> S -> S) s :
  (forall i t, 0 <= i < Z.of_nat n -> f i t = g i t) -> for_up n f s = for_up n g s.
Proof.
  induction n as [|n IH]; intros H; simpl; [done|].
  rewrite IH by (intros; apply H; lia). apply H. lia.
Qed.

(** The loop rule: an invariant indexed by the number of iterations done. *)
Lemma for_up_ind {S} (P : nat -> S -> Prop) n (f : Z -> S -> S) s :
  P O s ->
  (forall k t, (k < n)%nat -> P k t -> P (Datatypes.S k) (f (Z.of_nat k) t)) ->
  P n (for_up n f s).
Proof.
  intros H0 HS. induction n as [|n IH]; simpl; [done|].
  apply HS; [lia|]. apply IH. intros; apply HS; [lia | done].
Qed.

(** The descending loop: [P k] holds when [k] iterations are left. *)
Lemma for_down_ind {S} (P : nat -> S -> Prop) n (f : Z -> S -> S) s :
  P n s ->
  (forall k t, (k < n)%nat -> P (Datatypes.S k) t -> P k (f (Z.of_nat k) t)) ->
  P O (for_down n f s).
Proof.
  revert s. induction n as [|n IH]; intros s H0 HS; simpl; [done|].
  apply IH; [apply HS; [lia | done]|]. intros; apply HS; [lia | done].
Qed.

Lemma ret_up_None {R} n (f : Z -> option R) :
  ret_up n f = None <-> (forall i, 0 <= i < Z.of_nat n -> f i = None).
Proof.
  induction n as [|n IH]; simpl.
  - split; [intros _ i; lia | done].
  - destruct (ret_up n f) eqn:E.
    + split; [done|]. intros H. apply IH. intros; apply H; lia.
    + split; [|intros H; apply H; lia]. intros H i Hi.
      destruct (decide (i = Z.of_nat n)) as [->|]; [done|].
      apply IH; [done | lia].
Qed.

Lemma ret_up_Some {R} n (f : Z -> option R) r :
  ret_up n f = Some r ->
  exists i, 0 <= i < Z.of_nat n /\ f i = Some r
            /\ forall j, 0 <= j < i -> f j = None.
Proof.
  induction n as [|n IH]; simpl; [done|].
  destruct (ret_up n f) eqn:E; intros H.
  - destruct (IH H) as (i & ? & ? & ?). exists i. split; [lia | done].
  - exists (Z.of_nat n). split; [lia|]. split; [done|].
    by apply ret_up_None.
Qed.

Lemma ret_up_first {R} n (f : Z -> option R) i r :
  0 <= i < Z.of_nat n -> f i = Some r -> (forall j, 0 <= j < i -> f j = None) ->
  ret_up n f = Some r.
Proof.
  intros Hi Hr Hmin. destruct (ret_up n f) as [r'|] eqn:E.
  - apply ret_up_Some in E as (j & Hj & Hr' & Hmin').
    destruct (Z.lt_trichotomy i j) as [H|[->|H]]; [|congruence|].
    + rewrite Hmin' in Hr by lia. done.
    + rewrite Hmin in Hr' by lia. done.
  - rewrite (proj1 (ret_up_None n f) E i Hi) in Hr. done.
Qed.

Lemma ret_down_None {R} n (f : Z -> option R) :
  ret_down n f = None <-> (forall i, 0 <= i < Z.of_nat n -> f i = None).
Proof.
  induction n as [|n IH]; simpl.
  - split; [intros _ i; lia | done].
  - destruct (f (Z.of_nat n)) eqn:E.
    + split; [done|]. intros H. rewrite (H (Z.of_nat n)) in E by lia. done.
    + rewrite IH. split; intros H i Hi; [|apply H; lia].
      destruct (decide (i = Z.of_nat n)) as [->|]; [done|]. apply H. lia.
Qed.

Lemma ret_down_Some {R} n (f : Z -> option R) r :
  ret_down n f = Some r ->
  exists i, 0 <= i < Z.of_nat n /\ f i = Some r
            /\ forall j, i < j < Z.of_nat n -> f j = None.
Proof.
  induction n as [|n IH]; simpl; [done|].
  destruct (f (Z.of_nat n)) eqn:E; intros H.
  - exists (Z.of_nat n). split; [lia|]. split; [congruence|]. intros; lia.
  - destruct (IH H) as (i & ? & ? & Hj). exists i. split; [lia|]. split; [done|].
    intros j ?. destruct (decide (j = Z.of_nat n)) as [->|]; [done|].
    apply Hj. lia.
Qed.

(** ** Bits of the C operators *)

Lemma testbit_u64 x k : Z.testbit (u64 x) k = (k <? 64) && Z.testbit x k.
Proof.
  unfold u64. destruct (Z.ltb_spec k 64).
  - by rewrite Z.mod_pow2_bits_low by lia.
  - by rewrite Z.mod_pow2_bits_high by lia.
Qed.

Lemma testbit_ones n k :
  0 <= n -> Z.testbit (Z.ones n) k = (0 <=? k) && (k <? n).
Proof.
  intros Hn. destruct (Z.leb_spec 0 k); simpl.
  - destruct (Z.ltb_spec k n); [by apply Z.ones_spec_low; lia|].
    by apply Z.ones_spec_high; lia.
  - by apply Z.testbit_neg_r.
Qed.

Lemma testbit_UINT64_MAX k :
  Z.testbit UINT64_MAX k = (0 <=? k) && (k <? 64).
Proof. change UINT64_MAX with (Z.ones 64). by apply testbit_ones. Qed.

Lemma testbit_not64 a k :
  Z.testbit (not64 a) k = xorb (Z.testbit a k) ((0 <=? k) && (k <? 64)).
Proof. unfold not64. by rewrite Z.lxor_spec, testbit_UINT64_MAX. Qed.

Lemma testbit_shl64 a s k :
  0 <= s -> Z.testbit (shl64 a s) k = (k <? 64) && Z.testbit a (k - s).
Proof.
  intros Hs. unfold shl64. rewrite testbit_u64.
  destruct (Z.ltb_spec k 0).
  - rewrite !(Z.testbit_neg_r _ _) by lia. by rewrite !andb_false_r.
  - by rewrite Z.shiftl_spec by lia.
Qed.

Lemma testbit_shr64 a s k :
  0 <= k -> Z.testbit (shr64 a s) k = Z.testbit a (k + s).
Proof. intros. by apply Z.shiftr_spec. Qed.

#[export] Hint Rewrite testbit_u64 testbit_not64 testbit_UINT64_MAX
  Z.land_spec Z.lor_spec Z.lxor_spec Z.testbit_0_l : zbits.
#[export] Hint Rewrite testbit_shl64 testbit_shr64 using lia : zbits.

(** Unsigned 64-bit words. *)
Definition is_u64 (x : Z) : Prop := 0 <= x < 2 ^ 64.

Lemma is_u64_bits x :
  is_u64 x <-> 0 <= x /\ (forall k, 64 <= k -> Z.testbit x k = false).
Proof.
  unfold is_u64. split.
  - intros [H1 H2]. split; [done|]. apply Z.bounded_iff_bits_nonneg; lia.
  - intros [H1 H2]. split; [done|]. apply Z.bounded_iff_bits_nonneg; [lia..|done].
Qed.

Lemma is_u64_0 : is_u64 0.
Proof. unfold is_u64. lia. Qed.
Lemma is_u64_1 : is_u64 1.
Proof. unfold is_u64. lia. Qed.
Lemma is_u64_max : is_u64 UINT64_MAX.
Proof. unfold is_u64, UINT64_MAX. lia. Qed.
Lemma is_u64_u64 x : is_u64 (u64 x).
Proof. unfold is_u64, u64. by apply Z.mod_pos_bound. Qed.
Lemma is_u64_add64 x y : is_u64 (add64 x y).
Proof. apply is_u64_u64. Qed.
Lemma is_u64_sub64 x y : is_u64 (sub64 x y).
Proof. apply is_u64_u64. Qed.
Lemma is_u64_shl64 x s : is_u64 (shl64 x s).
Proof. apply is_u64_u64. Qed.
Lemma is_u64_shr64 x s : 0 <= s -> is_u64 x -> is_u64 (shr64 x s).
Proof.
  rewrite !is_u64_bits. intros Hs [H1 H2]. split; [by apply Z.shiftr_nonneg|].
  intros k Hk. rewrite testbit_shr64 by lia. apply H2. lia.
Qed.
Lemma is_u64_land_r x y : is_u64 y -> is_u64 (Z.land x y).
Proof.
  rewrite !is_u64_bits. intros [H1 H2]. split; [apply Z.land_nonneg; auto|].
  intros k Hk. by rewrite Z.land_spec, H2, andb_false_r.
Qed.
Lemma is_u64_land_l x y : is_u64 x -> is_u64 (Z.land x y).
Proof. rewrite Z.land_comm. apply is_u64_land_r. Qed.
Lemma is_u64_lor x y : is_u64 x -> is_u64 y -> is_u64 (Z.lor x y).
Proof.
  rewrite !is_u64_bits. intros [H1 H2] [H3 H4].
  split; [by apply Z.lor_nonneg|]. intros k Hk. by rewrite Z.lor_spec, H2, H4.
Qed.
Lemma is_u64_lxor x y : is_u64 x -> is_u64 y -> is_u64 (Z.lxor x y).
Proof.
  rewrite !is_u64_bits. intros [H1 H2] [H3 H4].
  split; [by apply Z.lxor_nonneg; split|]. intros k Hk.
  by rewrite Z.lxor_spec, H2, H4.
Qed.
Lemma is_u64_not64 x : is_u64 x -> is_u64 (not64 x).
Proof. intros. apply is_u64_lxor; [done | apply is_u64_max]. Qed.

Create HintDb u64.
#[export] Hint Resolve is_u64_0 is_u64_1 is_u64_max is_u64_u64 is_u64_add64
  is_u64_sub64 is_u64_shl64 is_u64_lor is_u64_lxor is_u64_not64 : u64.
#[export] Hint Resolve is_u64_land_r is_u64_land_l | 3 : u64.
#[export] Hint Extern 2 (is_u64 (shr64 _ _)) => (apply is_u64_shr64; [lia|]) : u64.

(** ** Word arrays as bit vectors *)

Definition words_ok (n : nat) (l : list Z) : Prop :=
  length l = n /\ Forall is_u64 l.

(** Bit [k] of the array, counted from the least significant bit of word 0. *)
Definition wbit (l : list Z) (k : Z) : bool :=
  Z.testbit (aget 0 l (k / 64)) (k mod 64).

(** The unsigned number the array denotes. *)
Fixpoint words_to_Z (l : list Z) : Z :=
  match l with
  | [] => 0
  | w :: l' => w + 2 ^ 64 * words_to_Z l'
  end.

Lemma words_ok_aget n l i : words_ok n l -> is_u64 (aget 0 l i).
Proof.
  intros [_ H]. unfold aget. destruct (i <? 0); [apply is_u64_0|].
  rewrite nth_lookup. destruct (l !! Z.to_nat i) eqn:E; [|apply is_u64_0].
  simpl. by eapply Forall_lookup_1.
Qed.

Lemma words_ok_aset n l i w : words_ok n l -> is_u64 w -> words_ok n (aset l i w).
Proof.
  intros [H1 H2] Hw. split; [by rewrite length_aset|].
  unfold aset. destruct (i <? 0); [done|]. by apply Forall_insert.
Qed.

Lemma words_ok_replicate n : words_ok n (replicate n 0).
Proof.
  split; [apply length_replicate|]. apply Forall_replicate, is_u64_0.
Qed.

#[export] Hint Resolve words_ok_aget words_ok_aset words_ok_replicate : u64.

Lemma words_to_Z_nonneg n l : words_ok n l -> 0 <= words_to_Z l.
Proof.
  intros [_ H]. induction H as [|w l Hw _ IH]; simpl; [lia|].
  unfold is_u64 in Hw. lia.
Qed.

Lemma testbit_words_to_Z n l k :
  words_ok n l -> 0 <= k -> Z.testbit (words_to_Z l) k = wbit l k.
Proof.
  intros [_ H] Hk. revert k Hk.
  induction H as [|w l Hw _ IH]; intros k Hk; unfold wbit; simpl.
  { by rewrite aget_nil, !Z.testbit_0_l. }
  assert (w + 2 ^ 64 * words_to_Z l = Z.lor w (Z.shiftl (words_to_Z l) 64)) as ->.
  { rewrite Z.mul_comm, <- Z.shiftl_mul_pow2 by lia.
    rewrite <- Z.add_lor_land.
    replace (Z.land w (Z.shiftl (words_to_Z l) 64)) with 0; [lia|].
    apply Z.bits_inj'. intros j Hj. apply is_u64_bits in Hw as [? Hw].
    rewrite Z.testbit_0_l, Z.land_spec, Z.shiftl_spec by lia.
    destruct (Z.lt_ge_cases j 64).
    - by rewrite (Z.testbit_neg_r _ (j - 64)), andb_false_r by lia.
    - by rewrite Hw by lia. }
  rewrite Z.lor_spec, Z.shiftl_spec by lia. apply is_u64_bits in Hw as [? Hw].
  destruct (Z.lt_ge_cases k 64).
  - rewrite (Z.testbit_neg_r _ (k - 64)), orb_false_r by lia.
    by rewrite Z.div_small, Z.mod_small by lia.
  - rewrite Hw, IH by lia. unfold wbit. simpl.
    replace (k - 64) with (k + -1 * 64) by lia.
    rewrite Z.div_add, Z.mod_add by lia. f_equal.
    assert (0 < k / 64) by (apply Z.div_str_pos; lia).
    unfold aget. destruct (Z.ltb_spec (k / 64 + -1) 0); [lia|].
    destruct (Z.ltb_spec (k / 64) 0); [lia|].
    replace (Z.to_nat (k / 64)) with (S (Z.to_nat (k / 64 + -1))) by lia. done.
Qed.

(** Word index and bit index of a position. *)
Lemma div_word i j : 0 <= j < 64 -> (64 * i + j) / 64 = i.
Proof. intros. symmetry. apply Z.div_unique with j; lia. Qed.
Lemma mod_word i j : 0 <= j < 64 -> (64 * i + j) mod 64 = j.
Proof. intros. symmetry. apply Z.mod_unique with i; lia. Qed.

Lemma words_eq_bits n l1 l2 :
  words_ok n l1 -> words_ok n l2 ->
  (forall k, 0 <= k < 64 * Z.of_nat n -> wbit l1 k = wbit l2 k) -> l1 = l2.
Proof.
  intros H1 H2 H. apply (list_eq_aget 0).
  { by rewrite (proj1 H1), (proj1 H2). }
  rewrite (proj1 H1). intros i Hi. apply Z.bits_inj'. intros j Hj.
  destruct (Z.lt_ge_cases j 64).
  - specialize (H (64 * i + j) ltac:(lia)). unfold wbit in H.
    by rewrite div_word, mod_word in H by lia.
  - pose proof (words_ok_aget _ _ i H1) as [_ A]%is_u64_bits.
    pose proof (words_ok_aget _ _ i H2) as [_ B]%is_u64_bits.
    by rewrite A, B by lia.
Qed.
