(* ===== verification/CString.v ===== *)
(** * C strings

    Character classes of the C locale and the functions of the C library the
    modelled code calls on strings.  [long] has 64 bits. *)

From S2P Require Import Prelude.

Local Open Scope Z_scope.

(** ** Characters, as classified in the C locale *)

Definition code (c : ascii) : Z := Z.of_nat (nat_of_ascii c).
Definition in_codes (lo hi : Z) (c : ascii) : bool := (lo <=? code c) && (code c <=? hi).

Definition isspace (c : ascii) : bool := (code c =? 32) || in_codes 9 13 c.
Definition isdigit (c : ascii) : bool := in_codes 48 57 c.
Definition isalpha (c : ascii) : bool := in_codes 65 90 c || in_codes 97 122 c.
Definition isalnum (c : ascii) : bool := isalpha c || isdigit c.

(** [c == 'a' || c == 'A'] for a lower-case letter [a]. *)
Definition is_letter (a c : ascii) : bool := (code c =? code a) || (code c =? code a - 32).

(** The first [n] characters. *)
Fixpoint truncate (n : nat) (s : string) : string :=
  match n, s with
  | S n', String c s' => String c (truncate n' s')
  | _, _ => EmptyString
  end.

Lemma truncate_short n s : (String.length s <= n)%nat -> truncate n s = s.
Proof.
  revert n. induction s as [|c s IH]; intros [|n] H; simpl in *; try done; [lia|].
  by rewrite IH by lia.
Qed.

Definition is_empty_string (s : string) : bool :=
  match s with EmptyString => true | String _ _ => false end.

Fixpoint string_forall (f : ascii -> bool) (s : string) : bool :=
  match s with String c s' => f c && string_forall f s' | EmptyString => true end.

(** ** Searching *)

(** What follows the first character satisfying [f]. *)
Fixpoint after (f : ascii -> bool) (s : string) : option string :=
  match s with
  | EmptyString => None
  | String c s' => if f c then Some s' else after f s'
  end.

(** What precedes the first character satisfying [f]. *)
Fixpoint before (f : ascii -> bool) (s : string) : string :=
  match s with
  | EmptyString => EmptyString
  | String c s' => if f c then EmptyString else String c (before f s')
  end.

(** [strchr(s, c)], as the parts before and after the character. *)
Definition split_at (c : ascii) (s : string) : option (string * string) :=
  option_map (fun r => (before (Ascii.eqb c) s, r)) (after (Ascii.eqb c) s).

(** Drop the characters at the front that satisfy [f]. *)
Fixpoint drop_while (f : ascii -> bool) (s : string) : string :=
  match s with
  | String c s' => if f c then drop_while f s' else s
  | EmptyString => s
  end.

(** The characters at the front that satisfy [f]. *)
Definition take_while (f : ascii -> bool) : string -> string := before (fun c => negb (f c)).

Fixpoint drop_text (n : nat) (s : string) : string :=
  match n, s with Datatypes.S n', String _ s' => drop_text n' s' | _, _ => s end.

(** [strncmp(s, p, strlen(p)) == 0]: what follows the prefix [p] of [s]. *)
Fixpoint strip_prefix (p s : string) : option string :=
  match p, s with
  | EmptyString, _ => Some s
  | String a p', String b s' => if Ascii.eqb a b then strip_prefix p' s' else None
  | String _ _, EmptyString => None
  end.

(** ** Numbers *)

(** The value of the decimal digits at the front, added to [10 * v]. *)
Fixpoint digits_value (s : string) (v : Z) : Z :=
  match s with
  | String c s' => if isdigit c then digits_value s' (10 * v + (code c - 48)) else v
  | EmptyString => v
  end.

(** An optional sign: whether it is a minus, and what follows. *)
Definition sign_prefix (s : string) : bool * string :=
  match s with
  | String c s' =>
      if Ascii.eqb c "-" then (true, s') else if Ascii.eqb c "+" then (false, s') else (false, s)
  | EmptyString => (false, s)
  end.

(** [strtol(s, NULL, 10)]: the value is clamped to the range of [long]. *)
Definition strtol10 (s : string) : Z :=
  let '(neg, s) := sign_prefix (drop_while isspace s) in
  let v := digits_value s 0 in
  Z.max (- LLONG_MAX - 1) (Z.min LLONG_MAX (if neg then - v else v)).

(** Whether it reports [ERANGE]. *)
Definition strtol_erange (s : string) : bool :=
  let '(neg, s) := sign_prefix (drop_while isspace s) in
  (if neg then LLONG_MAX + 1 else LLONG_MAX) <? digits_value s 0.

(** [strtoul(s, NULL, 10)] and [strtoull]: clamped to [ULONG_MAX], and a minus
    sign negates modulo 2^64. *)
Definition strtoul10 (s : string) : Z :=
  let '(neg, s) := sign_prefix (drop_while isspace s) in
  let v := digits_value s 0 in
  if UINT64_MAX <? v then UINT64_MAX else if neg then u64 (- v) else v.

(** [%d] of a non-negative number. *)
Fixpoint decimal_digits (fuel : nat) (n : Z) (acc : string) : string :=
  match fuel with
  | O => acc
  | S fuel' =>
      let acc := String (ascii_of_nat (Z.to_nat (48 + n mod 10))) acc in
      if n <? 10 then acc else decimal_digits fuel' (n / 10) acc
  end.
Definition print_decimal (n : Z) : string := decimal_digits (Z.to_nat (Z.log2 n) + 1) n "".

(** The [%d] conversion of [sscanf], with the rest of the input; the value is
    clamped as by [strtol] and converted to [int]. *)
Definition scan_int (s : string) : option (Z * string) :=
  let s := drop_while isspace s in
  let '(_, digits) := sign_prefix s in
  match digits with
  | String c _ => if isdigit c then Some (i32 (strtol10 s), drop_while isdigit digits) else None
  | EmptyString => None
  end.

Fixpoint rev_append (s acc : string) : string :=
  match s with
  | EmptyString => acc
  | String c s' => rev_append s' (String c acc)
  end.
Definition string_rev (s : string) : string := rev_append s EmptyString.

(** ** Concatenation *)

Lemma append_cons c s t : (String c s ++ t)%string = String c (s ++ t).
Proof. done. Qed.

Lemma append_empty t : ("" ++ t)%string = t.
Proof. done. Qed.

Lemma append_nil_r s : (s ++ "")%string = s.
Proof. induction s as [|c s IH]; [done|]. by rewrite append_cons, IH. Qed.

Lemma length_append s t : String.length (s ++ t) = (String.length s + String.length t)%nat.
Proof. induction s as [|c s IH]; [done|]. rewrite append_cons. cbn. by rewrite IH. Qed.
Lemma append_assoc s t u : ((s ++ t) ++ u)%string = (s ++ (t ++ u))%string.
Proof. induction s as [|c s IH]; [done|]. by rewrite !append_cons, IH. Qed.

Lemma strip_prefix_spec p s r : strip_prefix p s = Some r <-> s = (p ++ r)%string.
Proof.
  revert s. induction p as [|a p IH]; intros s; cbn [strip_prefix].
  - rewrite append_empty. split; [by intros [= ->]|by intros ->].
  - rewrite append_cons. destruct s as [|b s]; [done|]. destruct (Ascii.eqb a b) eqn:E.
    + apply Ascii.eqb_eq in E as ->. rewrite IH. split; [by intros ->|by intros [= ->]].
    + apply Ascii.eqb_neq in E. split; [done|]. by intros [= -> _].
Qed.
