(* ===== verification/Ast.v ===== *)
(** * The abstract syntax tree: [compiler/include/ast.h]

    The node types are those of the C enumeration.  An optional string field
    is [None] when the C pointer is [NULL].  The child array has no [NULL]
    entry, since [jz_ast_add_child] refuses one, so it is a list of nodes. *)

From S2P Require Import Prelude.

Inductive JZASTNodeType :=
  | JZ_AST_MODULE | JZ_AST_PROJECT | JZ_AST_BLOCK | JZ_AST_BLACKBOX | JZ_AST_INSTANTIATION
  | JZ_AST_RAW_TEXT | JZ_AST_FEATURE_GUARD | JZ_AST_CHECK | JZ_AST_TEMPLATE_DEF
  | JZ_AST_TEMPLATE_PARAM | JZ_AST_TEMPLATE_APPLY | JZ_AST_SCRATCH_DECL | JZ_AST_CONST_BLOCK
  | JZ_AST_PORT_BLOCK | JZ_AST_WIRE_BLOCK | JZ_AST_REGISTER_BLOCK | JZ_AST_LATCH_BLOCK
  | JZ_AST_MEM_BLOCK | JZ_AST_MUX_BLOCK | JZ_AST_BUS_BLOCK | JZ_AST_CONFIG_BLOCK
  | JZ_AST_GLOBAL_BLOCK | JZ_AST_CLOCKS_BLOCK | JZ_AST_IN_PINS_BLOCK | JZ_AST_OUT_PINS_BLOCK
  | JZ_AST_INOUT_PINS_BLOCK | JZ_AST_MAP_BLOCK | JZ_AST_CLOCK_GEN_BLOCK | JZ_AST_CLOCK_GEN_UNIT
  | JZ_AST_CLOCK_GEN_IN | JZ_AST_CLOCK_GEN_OUT | JZ_AST_CLOCK_GEN_WIRE | JZ_AST_CLOCK_GEN_CONFIG
  | JZ_AST_MODULE_INSTANCE | JZ_AST_PROJECT_TOP_INSTANCE | JZ_AST_CONST_DECL | JZ_AST_PORT_DECL
  | JZ_AST_WIRE_DECL | JZ_AST_REGISTER_DECL | JZ_AST_LATCH_DECL | JZ_AST_MEM_DECL
  | JZ_AST_MEM_PORT | JZ_AST_MUX_DECL | JZ_AST_BUS_DECL | JZ_AST_CDC_DECL | JZ_AST_WIDTH_EXPR
  | JZ_AST_MEM_DEPTH_EXPR | JZ_AST_SYNC_PARAM | JZ_AST_STMT_ASSIGN | JZ_AST_STMT_IF
  | JZ_AST_STMT_ELIF | JZ_AST_STMT_ELSE | JZ_AST_STMT_SELECT | JZ_AST_STMT_CASE
  | JZ_AST_STMT_DEFAULT | JZ_AST_EXPR_LITERAL | JZ_AST_EXPR_IDENTIFIER
  | JZ_AST_EXPR_QUALIFIED_IDENTIFIER | JZ_AST_EXPR_BUS_ACCESS | JZ_AST_EXPR_INDEXED_MEMBER_ACCESS
  | JZ_AST_EXPR_INSTANCE_PORT_ACCESS | JZ_AST_EXPR_UNARY | JZ_AST_EXPR_BINARY
  | JZ_AST_EXPR_TERNARY | JZ_AST_EXPR_CONCAT | JZ_AST_EXPR_SLICE | JZ_AST_EXPR_BUILTIN_CALL
  | JZ_AST_EXPR_SPECIAL_DRIVER | JZ_AST_TESTBENCH | JZ_AST_TB_TEST | JZ_AST_TB_CLOCK_BLOCK
  | JZ_AST_TB_CLOCK_DECL | JZ_AST_TB_WIRE_BLOCK | JZ_AST_TB_WIRE_DECL | JZ_AST_TB_SETUP
  | JZ_AST_TB_UPDATE | JZ_AST_TB_CLOCK_ADV | JZ_AST_TB_EXPECT_EQ | JZ_AST_TB_EXPECT_NEQ
  | JZ_AST_TB_EXPECT_TRI | JZ_AST_SIMULATION | JZ_AST_SIM_CLOCK_BLOCK | JZ_AST_SIM_CLOCK_DECL
  | JZ_AST_SIM_TAP_BLOCK | JZ_AST_SIM_TAP_DECL | JZ_AST_SIM_RUN | JZ_AST_SIM_RUN_UNTIL
  | JZ_AST_SIM_RUN_WHILE | JZ_AST_PRINT | JZ_AST_PRINT_IF | JZ_AST_SIM_TRACE | JZ_AST_SIM_SELECT
  | JZ_AST_SIM_MARK | JZ_AST_SIM_MARK_IF | JZ_AST_SIM_ALERT | JZ_AST_SIM_ALERT_IF
  | JZ_AST_SIM_MONITOR_BLOCK.

#[export] Instance JZASTNodeType_eq_dec : EqDecision JZASTNodeType.
Proof. solve_decision. Defined.

Record JZLocation := mkLoc { loc_line : Z; loc_column : Z }.

Inductive JZASTNode := mkNode {
  ast_type : JZASTNodeType;
  ast_loc : JZLocation;
  ast_name : option string;
  ast_block_kind : option string;
  ast_text : option string;
  ast_width : option string;
  ast_children : list JZASTNode
}.

(** [node->type == t]. *)
Definition node_is (t : JZASTNodeType) (n : JZASTNode) : bool := bool_decide (ast_type n = t).

(** [strcmp(s, t) == 0] for a pointer [s] that may be [NULL]. *)
Definition field_is (t : string) (s : option string) : bool :=
  match s with Some u => String.eqb u t | None => false end.

(** Induction under the child list. *)
Section NodeInd.
Variable P : JZASTNode -> Prop.
Hypothesis Hnode : forall ty loc name bk text width cs,
  Forall P cs -> P (mkNode ty loc name bk text width cs).

Fixpoint JZASTNode_ind' (n : JZASTNode) : P n :=
  match n with
  | mkNode ty loc name bk text width cs =>
      Hnode ty loc name bk text width cs
        ((fix go cs : Forall P cs :=
            match cs with
            | [] => List.Forall_nil P
            | c :: cs' => @List.Forall_cons _ P c cs' (JZASTNode_ind' c) (go cs')
            end) cs)
  end.
End NodeInd.

(** A loop over the children, which are numbered from [i]. *)
Section EachChild.
Context {S : Type} (f : nat -> JZASTNode -> S -> S).

Fixpoint each_child (i : nat) (cs : list JZASTNode) (s : S) : S :=
  match cs with
  | [] => s
  | c :: cs => each_child (Datatypes.S i) cs (f i c s)
  end.
End EachChild.

Lemma each_child_ext {S} (f h : nat -> JZASTNode -> S -> S) cs : forall i s,
  (forall i c s, c ∈ cs -> f i c s = h i c s) -> each_child f i cs s = each_child h i cs s.
Proof.
  induction cs as [|c cs IH]; intros i s H; [done|]. cbn.
  rewrite (H i c) by left. apply IH. intros. apply H. by right.
Qed.
