(* ===== verification/SimValue.v ===== *)
(** * Four-state values: the operations of [compiler/src/sim/sim_value.c]

    One definition per C function, over the record of [sim_value.h].  The
    three word arrays are lists of [SIM_VAL_WORDS] unsigned 64-bit words, word
    0 least significant.  Loops are the [for_up]/[for_down] of the prelude. *)

From S2P Require Import Prelude.

Local Open Scope Z_scope.
Local Open Scope jz_scope.

Definition SIM_VAL_WORDS : Z := 4.

Record SimValue := mkSimValue {
  sv_val : list Z;
  sv_xmask : list Z;
  sv_zmask : list Z;
  sv_width : Z
}.

(** C struct assignments [v.val[i] = w], [v.xmask[i] = w], [v.zmask[i] = w]
    and [v.width = w]. *)
Definition set_val (i w : Z) (v : SimValue) : SimValue :=
  mkSimValue (aset (sv_val v) i w) (sv_xmask v) (sv_zmask v) (sv_width v).
Definition set_xmask (i w : Z) (v : SimValue) : SimValue :=
  mkSimValue (sv_val v) (aset (sv_xmask v) i w) (sv_zmask v) (sv_width v).
Definition set_zmask (i w : Z) (v : SimValue) : SimValue :=
  mkSimValue (sv_val v) (sv_xmask v) (aset (sv_zmask v) i w) (sv_width v).
Definition set_width (w : Z) (v : SimValue) : SimValue :=
  mkSimValue (sv_val v) (sv_xmask v) (sv_zmask v) w.

Definition vget (v : SimValue) (i : Z) : Z := aget 0 (sv_val v) i.
Definition xget (v : SimValue) (i : Z) : Z := aget 0 (sv_xmask v) i.
Definition zget (v : SimValue) (i : Z) : Z := aget 0 (sv_zmask v) i.

(** ** Word masks *)

Definition num_words (w : Z) : Z := if w <=? 0 then 1 else (w + 63) / 64.

Definition top_word_mask (w : Z) : Z :=
  if w <=? 0 then 0
  else
    let bits_in_top := (w - 1) mod 64 + 1 in
    if bits_in_top =? 64 then UINT64_MAX else sub64 (1 .<< bits_in_top) 1.

Definition word_mask (w wi : Z) : Z :=
  let nw := num_words w in
  if (wi <? 0) || (nw <=? wi) then 0
  else if wi <? nw - 1 then UINT64_MAX
  else top_word_mask w.

(** The loop bound [num_words w] as a count of iterations. *)
Definition nwords (w : Z) : nat := Z.to_nat (num_words w).

(** ** Construction *)

Definition zero_words : list Z := replicate (Z.to_nat SIM_VAL_WORDS) 0.

Definition sim_val_zero (width : Z) : SimValue :=
  mkSimValue zero_words zero_words zero_words width.

(** [for (i = 0; i < nw - 1; i++) a[i] = UINT64_MAX; a[nw-1] = top_word_mask]. *)
Definition fill_mask (width : Z) (set : Z -> Z -> SimValue -> SimValue)
    (v : SimValue) : SimValue :=
  let nw := num_words width in
  let v := for_up (Z.to_nat (nw - 1)) (fun i => set i UINT64_MAX) v in
  if 0 <? nw then set (nw - 1) (top_word_mask width) v else v.

Definition sim_val_ones (width : Z) : SimValue :=
  fill_mask width set_val (sim_val_zero width).
Definition sim_val_all_x (width : Z) : SimValue :=
  fill_mask width set_xmask (sim_val_zero width).
Definition sim_val_all_z (width : Z) : SimValue :=
  fill_mask width set_zmask (sim_val_zero width).

Definition sim_val_from_uint (val width : Z) : SimValue :=
  let v := sim_val_zero width in
  if (0 <? width) && (width <=? 64) then
    let m := if width =? 64 then UINT64_MAX else sub64 (1 .<< width) 1 in
    set_val 0 (val .& m) v
  else set_val 0 val v.

Definition sim_val_mask (v : SimValue) : SimValue :=
  let nw := num_words (sv_width v) in
  let v :=
    if 0 <? nw then
      let m := top_word_mask (sv_width v) in
      let v := set_val (nw - 1) (vget v (nw - 1) .& m) v in
      let v := set_xmask (nw - 1) (xget v (nw - 1) .& m) v in
      set_zmask (nw - 1) (zget v (nw - 1) .& m) v
    else v in
  (* clear words above the used ones: i = nw .. SIM_VAL_WORDS - 1 *)
  for_up (Z.to_nat (SIM_VAL_WORDS - nw))
    (fun i v => set_zmask (nw + i) 0 (set_xmask (nw + i) 0 (set_val (nw + i) 0 v)))
    v.

Definition sim_val_from_words (words : list Z) (nw width : Z) : SimValue :=
  let copy := if nw <? SIM_VAL_WORDS then nw else SIM_VAL_WORDS in
  sim_val_mask
    (for_up (Z.to_nat copy) (fun i => set_val i (aget 0 words i))
       (sim_val_zero width)).

(** ** Per-bit access *)

Definition sim_val_get_bit (v : SimValue) (bit : Z) : Z :=
  if (bit <? 0) || (sv_width v <=? bit) then 0
  else
    let wi := bit / 64 in
    let bi := bit mod 64 in
    (vget v wi .>> bi) .& 1.

Definition sim_val_set_bit (v : SimValue) (bit b : Z) : SimValue :=
  if (bit <? 0) || (sv_width v <=? bit) then v
  else
    let wi := bit / 64 in
    let bi := bit mod 64 in
    let mask := 1 .<< bi in
    if negb (b =? 0) then set_val wi (vget v wi .| mask) v
    else set_val wi (vget v wi .& .~ mask) v.

(** ** Queries *)

Definition sim_val_has_xz (v : SimValue) : bool :=
  match
    ret_up (nwords (sv_width v)) (fun i =>
      let m := word_mask (sv_width v) i in
      if negb (((xget v i .| zget v i) .& m) =? 0) then Some true else None)
  with Some r => r | None => false end.

Definition sim_val_is_all_z (v : SimValue) : bool :=
  match
    ret_up (nwords (sv_width v)) (fun i =>
      let m := word_mask (sv_width v) i in
      if negb ((zget v i .& m) =? m) then Some false
      else if negb ((xget v i .& m) =? 0) then Some false
      else None)
  with Some r => r | None => true end.

(** [1] true, [0] false, [-1] when any active bit is [x] or [z]. *)
Definition sim_val_is_true (v : SimValue) : Z :=
  let '(has_xz, has_val) :=
    for_up (nwords (sv_width v)) (fun i '(has_xz, has_val) =>
      let m := word_mask (sv_width v) i in
      (has_xz || negb (((xget v i .| zget v i) .& m) =? 0),
       has_val || negb ((vget v i .& m) =? 0))) (false, false) in
  if has_xz then -1 else if has_val : bool then 1 else 0.

Definition sim_val_equal (a b : SimValue) : bool :=
  if negb (sv_width a =? sv_width b) then false
  else
    match
      ret_up (nwords (sv_width a)) (fun i =>
        let m := word_mask (sv_width a) i in
        if negb ((vget a i .& m) =? (vget b i .& m)) then Some false
        else if negb ((xget a i .& m) =? (xget b i .& m)) then Some false
        else if negb ((zget a i .& m) =? (zget b i .& m)) then Some false
        else None)
    with Some r => r | None => true end.

(** ** Bitwise operators (four-state truth tables) *)

Definition max_width (a b : SimValue) : Z :=
  if sv_width b <? sv_width a then sv_width a else sv_width b.

Definition sim_val_and (a b : SimValue) : SimValue :=
  let rw := max_width a b in
  for_up (nwords rw) (fun i r =>
    let m := word_mask rw i in
    let a_xz := (xget a i .| zget a i) .& m in
    let b_xz := (xget b i .| zget b i) .& m in
    let a_known_zero := (.~ vget a i .& .~ a_xz) .& m in
    let b_known_zero := (.~ vget b i .& .~ b_xz) .& m in
    let force_zero := a_known_zero .| b_known_zero in
    let result_val := vget a i .& vget b i .& m in
    let result_x := ((a_xz .| b_xz) .& .~ force_zero) .& m in
    set_xmask i result_x (set_val i (result_val .& .~ result_x) r))
  (sim_val_zero rw).

Definition sim_val_or (a b : SimValue) : SimValue :=
  let rw := max_width a b in
  for_up (nwords rw) (fun i r =>
    let m := word_mask rw i in
    let a_xz := (xget a i .| zget a i) .& m in
    let b_xz := (xget b i .| zget b i) .& m in
    let a_known_one := (vget a i .& .~ a_xz) .& m in
    let b_known_one := (vget b i .& .~ b_xz) .& m in
    let force_one := a_known_one .| b_known_one in
    let result_val := (vget a i .| vget b i) .& m in
    let result_x := ((a_xz .| b_xz) .& .~ force_one) .& m in
    set_xmask i result_x
      (set_val i ((result_val .| force_one) .& .~ result_x) r))
  (sim_val_zero rw).

Definition sim_val_xor (a b : SimValue) : SimValue :=
  let rw := max_width a b in
  for_up (nwords rw) (fun i r =>
    let m := word_mask rw i in
    let a_xz := (xget a i .| zget a i) .& m in
    let b_xz := (xget b i .| zget b i) .& m in
    let any_xz := (a_xz .| b_xz) .& m in
    set_xmask i any_xz
      (set_val i ((vget a i .^ vget b i) .& m .& .~ any_xz) r))
  (sim_val_zero rw).

Definition sim_val_not (a : SimValue) : SimValue :=
  for_up (nwords (sv_width a)) (fun i r =>
    let m := word_mask (sv_width a) i in
    let xz := (xget a i .| zget a i) .& m in
    set_xmask i xz (set_val i ((.~ vget a i .& m) .& .~ xz) r))
  (sim_val_zero (sv_width a)).

(** ** Comparison *)

Definition cmp_result (result_bit : bool) : SimValue :=
  set_val 0 (bool_to_int result_bit) (sim_val_zero 1).

Definition cmp_x : SimValue := sim_val_all_x 1.

(** Three-way unsigned comparison of the low [width] bits: -1, 0 or 1. *)
Definition sim_val_ucmp (a b : SimValue) (width : Z) : Z :=
  match
    ret_down (nwords width) (fun i =>
      let m := word_mask width i in
      let av := vget a i .& m in
      let bv := vget b i .& m in
      if av <? bv then Some (-1) else if bv <? av then Some 1 else None)
  with Some r => r | None => 0 end.

Definition sim_val_eq (a b : SimValue) : SimValue :=
  if sim_val_has_xz a || sim_val_has_xz b then cmp_x
  else
    let w := max_width a b in
    match
      ret_up (nwords w) (fun i =>
        let m := word_mask w i in
        if negb ((vget a i .& m) =? (vget b i .& m))
        then Some (cmp_result false) else None)
    with Some r => r | None => cmp_result true end.

Definition sim_val_neq (a b : SimValue) : SimValue :=
  if sim_val_has_xz a || sim_val_has_xz b then cmp_x
  else
    let w := max_width a b in
    match
      ret_up (nwords w) (fun i =>
        let m := word_mask w i in
        if negb ((vget a i .& m) =? (vget b i .& m))
        then Some (cmp_result true) else None)
    with Some r => r | None => cmp_result false end.

Definition sim_val_lt (a b : SimValue) : SimValue :=
  if sim_val_has_xz a || sim_val_has_xz b then cmp_x
  else
    let w := max_width a b in
    let a := set_width w a in
    let b := set_width w b in
    cmp_result (sim_val_ucmp a b w <? 0).

Definition sim_val_gt (a b : SimValue) : SimValue := sim_val_lt b a.

Definition sim_val_lte (a b : SimValue) : SimValue :=
  if sim_val_has_xz a || sim_val_has_xz b then cmp_x
  else
    let w := max_width a b in
    let a := set_width w a in
    let b := set_width w b in
    cmp_result (sim_val_ucmp a b w <=? 0).

Definition sim_val_gte (a b : SimValue) : SimValue := sim_val_lte b a.

(** ** Logical operators on the three-valued truth of [sim_val_is_true] *)

Definition sim_val_logical_and (a b : SimValue) : SimValue :=
  let ta := sim_val_is_true a in
  let tb := sim_val_is_true b in
  if (ta =? 0) || (tb =? 0) then cmp_result false
  else if (ta =? -1) || (tb =? -1) then cmp_x
  else cmp_result true.

Definition sim_val_logical_or (a b : SimValue) : SimValue :=
  let ta := sim_val_is_true a in
  let tb := sim_val_is_true b in
  if (ta =? 1) || (tb =? 1) then cmp_result true
  else if (ta =? -1) || (tb =? -1) then cmp_x
  else cmp_result false.

Definition sim_val_logical_not (a : SimValue) : SimValue :=
  let ta := sim_val_is_true a in
  if ta =? -1 then cmp_x else cmp_result (ta =? 0).

(** ** Shifts *)

(** The C function returns a status and writes [*out]: [None] is the -1. *)
Definition sim_val_to_small_uint (v : SimValue) : option Z :=
  if sim_val_has_xz v then None
  else
    match
      ret_up (nwords (sv_width v) - 1) (fun i =>
        if negb (vget v (i + 1) =? 0) then Some tt else None)
    with Some _ => None | None => Some (vget v 0) end.

Definition sim_val_shl (a b : SimValue) : SimValue :=
  if sim_val_has_xz a || sim_val_has_xz b then sim_val_all_x (sv_width a)
  else
    match sim_val_to_small_uint b with
    | None => sim_val_zero (sv_width a)
    | Some shift =>
        if u64 (sv_width a) <=? shift then sim_val_zero (sv_width a)
        else
          let nw := num_words (sv_width a) in
          let word_shift := shift / 64 in
          let bit_shift := shift mod 64 in
          sim_val_mask
            (for_down (nwords (sv_width a)) (fun i r =>
               let src_lo := i - word_shift in
               let src_hi := i - word_shift - 1 in
               let lo_part :=
                 if (0 <=? src_lo) && (src_lo <? nw) then vget a src_lo else 0 in
               let hi_part :=
                 if (0 <=? src_hi) && (src_hi <? nw) then vget a src_hi else 0 in
               if bit_shift =? 0 then set_val i lo_part r
               else set_val i ((lo_part .<< bit_shift)
                                 .| (hi_part .>> (64 - bit_shift))) r)
               (sim_val_zero (sv_width a)))
    end.

Definition sim_val_shr (a b : SimValue) : SimValue :=
  if sim_val_has_xz a || sim_val_has_xz b then sim_val_all_x (sv_width a)
  else
    match sim_val_to_small_uint b with
    | None => sim_val_zero (sv_width a)
    | Some shift =>
        if u64 (sv_width a) <=? shift then sim_val_zero (sv_width a)
        else
          let am := sim_val_mask a in
          let nw := num_words (sv_width a) in
          let word_shift := shift / 64 in
          let bit_shift := shift mod 64 in
          sim_val_mask
            (for_up (nwords (sv_width a)) (fun i r =>
               let src_lo := i + word_shift in
               let src_hi := i + word_shift + 1 in
               let lo_part :=
                 if (0 <=? src_lo) && (src_lo <? nw) then vget am src_lo else 0 in
               let hi_part :=
                 if (0 <=? src_hi) && (src_hi <? nw) then vget am src_hi else 0 in
               if bit_shift =? 0 then set_val i lo_part r
               else set_val i ((lo_part .>> bit_shift)
                                 .| (hi_part .<< (64 - bit_shift))) r)
               (sim_val_zero (sv_width a)))
    end.

Definition sim_val_ashr (a b : SimValue) : SimValue :=
  if sim_val_has_xz a || sim_val_has_xz b then sim_val_all_x (sv_width a)
  else
    let sign_bit := sim_val_get_bit a (sv_width a - 1) in
    match sim_val_to_small_uint b with
    | None =>
        if negb (sign_bit =? 0) then sim_val_ones (sv_width a)
        else sim_val_zero (sv_width a)
    | Some shift =>
        if u64 (sv_width a) <=? shift then
          if negb (sign_bit =? 0) then sim_val_ones (sv_width a)
          else sim_val_zero (sv_width a)
        else
          let r := sim_val_shr a b in
          if negb (sign_bit =? 0) && (0 <? shift) then
            (* bit = a.width - s .. a.width - 1 *)
            for_up (Z.to_nat shift)
              (fun i r => sim_val_set_bit r (sv_width a - shift + i) 1) r
          else r
    end.

(** ** Arithmetic *)

(** [Some x]: the all-[x] result; [None]: the C sentinel of width [-1]. *)
Definition arith_xz_check (a b : SimValue) (rw : Z) : option SimValue :=
  if sim_val_has_xz a || sim_val_has_xz b then Some (sim_val_all_x rw) else None.

Definition sim_val_add (a b : SimValue) : SimValue :=
  let rw := max_width a b in
  match arith_xz_check a b rw with
  | Some x => x
  | None =>
      sim_val_mask
        (fst (for_up (nwords rw) (fun i '(r, carry) =>
           let av := vget a i .& word_mask rw i in
           let bv := vget b i .& word_mask rw i in
           let sum := add64 av bv in
           let sum2 := add64 sum carry in
           let carry_out := bool_to_int ((sum <? av) || (sum2 <? sum)) in
           (set_val i sum2 r, carry_out)) (sim_val_zero rw, 0)))
  end.

Definition sim_val_sub (a b : SimValue) : SimValue :=
  let rw := max_width a b in
  match arith_xz_check a b rw with
  | Some x => x
  | None =>
      sim_val_mask
        (fst (for_up (nwords rw) (fun i '(r, borrow) =>
           let av := vget a i .& word_mask rw i in
           let bv := vget b i .& word_mask rw i in
           let subtrahend := add64 bv borrow in
           let borrow_out :=
             bool_to_int ((subtrahend <? bv) || (av <? subtrahend)) in
           (set_val i (sub64 av subtrahend) r, borrow_out)) (sim_val_zero rw, 0)))
  end.

Definition sim_val_shift_left_bits (v : SimValue) (shift width : Z) : SimValue :=
  let shift_amt := sim_val_from_uint (u64 shift) 32 in
  sim_val_shl (set_width width v) shift_amt.

Definition sim_val_mul (a b : SimValue) : SimValue :=
  let rw := max_width a b in
  match arith_xz_check a b rw with
  | Some x => x
  | None =>
      sim_val_mask (set_width rw
        (for_up (Z.to_nat rw) (fun bit r =>
           if negb (sim_val_get_bit b bit =? 0) then
             sim_val_add r (sim_val_shift_left_bits a bit rw)
           else r) (sim_val_zero rw)))
  end.

Definition sim_val_unsigned_divmod (a b : SimValue) (width : Z)
    (want_remainder : bool) : SimValue :=
  let '(quotient, remainder) :=
    for_down (Z.to_nat width) (fun bit '(quotient, remainder) =>
      let remainder := sim_val_shift_left_bits remainder 1 width in
      let remainder := sim_val_set_bit remainder 0 (sim_val_get_bit a bit) in
      if 0 <=? sim_val_ucmp remainder b width then
        let remainder := sim_val_mask (set_width width (sim_val_sub remainder b)) in
        (sim_val_set_bit quotient bit 1, remainder)
      else (quotient, remainder))
    (sim_val_zero width, sim_val_zero width) in
  if want_remainder then sim_val_mask (set_width width remainder)
  else sim_val_mask (set_width width quotient).

Definition sim_val_div (a b : SimValue) : SimValue :=
  let rw := max_width a b in
  match arith_xz_check a b rw with
  | Some x => x
  | None =>
      let a := set_width rw a in
      let b := set_width rw b in
      if sim_val_ucmp (sim_val_mask b) (sim_val_zero rw) rw =? 0
      then sim_val_all_x rw
      else sim_val_unsigned_divmod (sim_val_mask a) (sim_val_mask b) rw false
  end.

Definition sim_val_mod (a b : SimValue) : SimValue :=
  let rw := max_width a b in
  match arith_xz_check a b rw with
  | Some x => x
  | None =>
      let a := set_width rw a in
      let b := set_width rw b in
      if sim_val_ucmp (sim_val_mask b) (sim_val_zero rw) rw =? 0
      then sim_val_all_x rw
      else sim_val_unsigned_divmod (sim_val_mask a) (sim_val_mask b) rw true
  end.

Definition sim_val_neg (a : SimValue) : SimValue :=
  if sim_val_has_xz a then sim_val_all_x (sv_width a)
  else
    let inv := sim_val_not a in
    let one := set_val 0 1 (sim_val_zero (sv_width a)) in
    sim_val_add inv one.

(** ** Concatenation and slicing *)

(** One pass of the inner loop of [sim_val_concat]: word [si] of operand [o],
    placed at bit [shift + 64 * si] of the result. *)
Definition concat_word (o : SimValue) (shift si : Z) (r : SimValue) : SimValue :=
  let w := sv_width o in
  let m := word_mask w si in
  let vb := vget o si .& m in
  let xb := xget o si .& m in
  let zb := zget o si .& m in
  let bit_base := shift + si * 64 in
  let dst_wi := bit_base / 64 in
  let dst_bi := bit_base mod 64 in
  let r :=
    if dst_wi <? SIM_VAL_WORDS then
      set_zmask dst_wi (zget r dst_wi .| (zb .<< dst_bi))
        (set_xmask dst_wi (xget r dst_wi .| (xb .<< dst_bi))
           (set_val dst_wi (vget r dst_wi .| (vb .<< dst_bi)) r))
    else r in
  if (0 <? dst_bi) && (dst_wi + 1 <? SIM_VAL_WORDS) then
    set_zmask (dst_wi + 1) (zget r (dst_wi + 1) .| (zb .>> (64 - dst_bi)))
      (set_xmask (dst_wi + 1) (xget r (dst_wi + 1) .| (xb .>> (64 - dst_bi)))
         (set_val (dst_wi + 1) (vget r (dst_wi + 1) .| (vb .>> (64 - dst_bi))) r))
  else r.

(** [vals[0]] is the most significant operand; the C loop runs from the last
    operand (the least significant) to the first. *)
Definition sim_val_concat (vals : list SimValue) : SimValue :=
  let total_width := foldl (fun t v => t + sv_width v) 0 vals in
  let max_w := SIM_VAL_WORDS * 64 in
  let total_width := if max_w <? total_width then max_w else total_width in
  let '(r, _) :=
    foldl (fun '(r, shift) o =>
      (for_up (nwords (sv_width o)) (concat_word o shift) r, shift + sv_width o))
      (sim_val_zero total_width, 0) (rev vals) in
  sim_val_mask r.

(** [/] and [%] of C truncate towards zero; [lsb] may be any [int]. *)
Definition sim_val_slice (v : SimValue) (msb lsb : Z) : SimValue :=
  let rw := msb - lsb + 1 in
  if rw <=? 0 then sim_val_zero 1
  else
    sim_val_mask
      (for_up (nwords rw) (fun ri r =>
         let src_bit := lsb + ri * 64 in
         let src_wi := Z.quot src_bit 64 in
         let src_bi := Z.rem src_bit 64 in
         let r :=
           if src_wi <? SIM_VAL_WORDS then
             set_zmask ri (zget v src_wi .>> src_bi)
               (set_xmask ri (xget v src_wi .>> src_bi)
                  (set_val ri (vget v src_wi .>> src_bi) r))
           else r in
         if (0 <? src_bi) && (src_wi + 1 <? SIM_VAL_WORDS) then
           set_zmask ri (zget r ri .| (zget v (src_wi + 1) .<< (64 - src_bi)))
             (set_xmask ri (xget r ri .| (xget v (src_wi + 1) .<< (64 - src_bi)))
                (set_val ri (vget r ri .| (vget v (src_wi + 1) .<< (64 - src_bi))) r))
         else r)
         (sim_val_zero rw)).

(** ** Ternary select *)

Definition sim_val_ternary (cond t f : SimValue) : SimValue :=
  let tc := sim_val_is_true cond in
  if tc =? 1 then t
  else if tc =? 0 then f
  else
    let rw := max_width t f in
    for_up (nwords rw) (fun i r =>
      let m := word_mask rw i in
      let differ :=
        ((vget t i .^ vget f i) .| xget t i .| xget f i .| zget t i .| zget f i)
          .& m in
      set_xmask i differ (set_val i (vget t i .& .~ differ) r))
      (sim_val_zero rw).

(** ** Extension *)

Definition sim_val_zext (v : SimValue) (new_width : Z) : SimValue :=
  if new_width <=? sv_width v then v else set_width new_width v.

Definition sim_val_sext (v : SimValue) (new_width : Z) : SimValue :=
  if new_width <=? sv_width v then v
  else
    let sign_bit := sim_val_get_bit v (sv_width v - 1) in
    let sign_x :=
      if 0 <? sv_width v then
        let wi := (sv_width v - 1) / 64 in
        let bi := (sv_width v - 1) mod 64 in
        (xget v wi .>> bi) .& 1
      else 0 in
    let count := Z.to_nat (new_width - sv_width v) in
    let r := set_width new_width v in
    let r :=
      if negb (sign_bit =? 0) then
        for_up count (fun i r => sim_val_set_bit r (sv_width v + i) 1) r
      else r in
    if negb (sign_x =? 0) then
      for_up count (fun i r =>
        let bit := sv_width v + i in
        let wi := bit / 64 in
        let bi := bit mod 64 in
        set_xmask wi (xget r wi .| (1 .<< bi)) r) r
    else r.

(** ** Formatting

    The text the C functions leave in [buf] before its terminator; a buffer of
    [buflen] bytes holds [buflen - 1] characters. *)

Definition hex_digit (n : Z) : ascii :=
  aget "0"%char
    ["0";"1";"2";"3";"4";"5";"6";"7";"8";"9";"a";"b";"c";"d";"e";"f"]%char n.

Definition hex_nibble (v : SimValue) (i : Z) : ascii :=
  let bit_lo := i * 4 in
  let wi := bit_lo / 64 in
  let bi := bit_lo mod 64 in
  let in_words := wi <? SIM_VAL_WORDS in
  let cross := (60 <? bi) && (wi + 1 <? SIM_VAL_WORDS) in
  let nibble (get : SimValue -> Z -> Z) :=
    let n := if in_words then (get v wi .>> bi) .& 15 else 0 in
    if cross then n .| ((get v (wi + 1) .<< (64 - bi)) .& 15) else n in
  let nibble_val := nibble vget in
  let nibble_x := nibble xget in
  let nibble_z := nibble zget in
  if nibble_x =? 15 then "x"%char
  else if nibble_z =? 15 then "z"%char
  else if negb (nibble_x =? 0) || negb (nibble_z =? 0) then "X"%char
  else hex_digit nibble_val.

(** [for (i = n - 1; i >= 0 && pos < buflen - 1; i--) buf[pos++] = f i]. *)
Definition fill_buf (n : nat) (f : Z -> ascii) (buflen : Z) : list ascii :=
  take (Z.to_nat (buflen - 1))
    (for_up n (fun i buf => f i :: buf) []).

Definition sim_val_to_hex (v : SimValue) (buflen : Z) : list ascii :=
  if buflen <? 2 then []
  else
    let nib_count := Z.quot (sv_width v + 3) 4 in
    let nib_count := if nib_count =? 0 then 1 else nib_count in
    fill_buf (Z.to_nat nib_count) (hex_nibble v) buflen.

Definition bin_digit (v : SimValue) (i : Z) : ascii :=
  let wi := i / 64 in
  let bi := i mod 64 in
  let in_words := wi <? SIM_VAL_WORDS in
  let bit (get : SimValue -> Z -> Z) :=
    if in_words then (get v wi .>> bi) .& 1 else 0 in
  if negb (bit xget =? 0) then "x"%char
  else if negb (bit zget =? 0) then "z"%char
  else if bit vget =? 0 then "0"%char else "1"%char.

Definition sim_val_to_bin (v : SimValue) (buflen : Z) : list ascii :=
  if buflen <? 2 then []
  else fill_buf (Z.to_nat (sv_width v)) (bin_digit v) buflen.
