(* ===== verification/SimBits.v ===== *)
(** * Four-state values as bit vectors

    The abstract reading of a [SimValue]: the four-state bit at each position
    ([bit_at]), the number a fully known value denotes ([sv_uint]) and the
    representation invariant [wf] of [sim_value.h].  The lemmas reduce word
    loops to one equation per bit; the files that specify the operations are
    written against them.  Construction, masking, single bits and queries
    follow, each bit by bit. *)

From S2P Require Import Prelude SimValue.


Local Open Scope Z_scope.
Local Open Scope jz_scope.

(** ** The abstract bit *)

(** The encoding table of [sim_value.h]. *)
Inductive Bit4 := B0 | B1 | BX | BZ.

#[export] Instance Bit4_eq_dec : EqDecision Bit4.
Proof. solve_decision. Defined.

Definition vbit (v : SimValue) (k : Z) : bool := wbit (sv_val v) k.
Definition xbit (v : SimValue) (k : Z) : bool := wbit (sv_xmask v) k.
Definition zbit (v : SimValue) (k : Z) : bool := wbit (sv_zmask v) k.

Definition bit4 (x z b : bool) : Bit4 :=
  if x then BX else if z then BZ else if b then B1 else B0.

Definition bit_at (v : SimValue) (k : Z) : Bit4 :=
  bit4 (xbit v k) (zbit v k) (vbit v k).

Definition is_unknown (b : Bit4) : bool :=
  match b with BX | BZ => true | _ => false end.

(** The number denoted by the value bits. *)
Definition sv_uint (v : SimValue) : Z := words_to_Z (sv_val v).

(** No active bit is [x] or [z]. *)
Definition known (v : SimValue) : Prop :=
  forall k, 0 <= k < sv_width v -> is_unknown (bit_at v k) = false.

(** ** The representation invariant *)

Record wf (v : SimValue) : Prop := {
  wf_width : 0 < sv_width v <= 256;
  wf_val : words_ok 4 (sv_val v);
  wf_xmask : words_ok 4 (sv_xmask v);
  wf_zmask : words_ok 4 (sv_zmask v);
  wf_high : forall k, sv_width v <= k ->
    vbit v k = false /\ xbit v k = false /\ zbit v k = false;
  wf_excl : forall k, 0 <= k ->
    (xbit v k = true -> vbit v k = false /\ zbit v k = false) /\
    (zbit v k = true -> vbit v k = false)
}.

(** What the word-level proofs need: arrays in shape, width in bounds. *)
Record shaped (v : SimValue) : Prop := {
  sh_width : 0 < sv_width v <= 256;
  sh_val : words_ok 4 (sv_val v);
  sh_xmask : words_ok 4 (sv_xmask v);
  sh_zmask : words_ok 4 (sv_zmask v)
}.

Lemma wf_shaped v : wf v -> shaped v.
Proof. intros []. by constructor. Qed.
#[export] Hint Resolve wf_shaped : jz.

Lemma shaped_vget v i : shaped v -> is_u64 (vget v i).
Proof. intros []. unfold vget. eauto with u64. Qed.
Lemma shaped_xget v i : shaped v -> is_u64 (xget v i).
Proof. intros []. unfold xget. eauto with u64. Qed.
Lemma shaped_zget v i : shaped v -> is_u64 (zget v i).
Proof. intros []. unfold zget. eauto with u64. Qed.
#[export] Hint Resolve shaped_vget shaped_xget shaped_zget : u64.

(** ** Word masks *)

Lemma num_words_pos w : 0 < w -> num_words w = (w + 63) / 64.
Proof. intros. unfold num_words. by destruct (Z.leb_spec w 0); [lia|]. Qed.

Lemma num_words_bounds w :
  0 < w -> 64 * (num_words w - 1) < w <= 64 * num_words w.
Proof.
  intros. rewrite num_words_pos by done.
  pose proof (Z.div_mod (w + 63) 64 ltac:(lia)).
  pose proof (Z.mod_pos_bound (w + 63) 64 ltac:(lia)). lia.
Qed.

Lemma num_words_ge1 w : 1 <= num_words w.
Proof.
  unfold num_words. destruct (Z.leb_spec w 0); [lia|].
  apply Z.div_le_lower_bound; lia.
Qed.

Lemma num_words_le4 w : w <= 256 -> num_words w <= 4.
Proof.
  intros. unfold num_words. destruct (Z.leb_spec w 0); [lia|].
  apply Z.lt_succ_r, Z.div_lt_upper_bound; lia.
Qed.

Lemma nwords_num w : Z.of_nat (nwords w) = num_words w.
Proof. unfold nwords. pose proof (num_words_ge1 w). lia. Qed.

Lemma nwords_le4 w : w <= 256 -> (nwords w <= 4)%nat.
Proof. intros. pose proof (num_words_le4 w). pose proof (nwords_num w). lia. Qed.

Lemma top_word_mask_ones w :
  0 < w -> top_word_mask w = Z.ones ((w - 1) mod 64 + 1).
Proof.
  intros. unfold top_word_mask. destruct (Z.leb_spec w 0); [lia|].
  pose proof (Z.mod_pos_bound (w - 1) 64 ltac:(lia)).
  set (b := (w - 1) mod 64 + 1) in *.
  destruct (Z.eqb_spec b 64) as [->|]; [done|].
  unfold sub64, shl64. rewrite Z.ones_equiv, Z.shiftl_mul_pow2, Z.mul_1_l by lia.
  assert (0 < 2 ^ b < 2 ^ 64).
  { split; [by apply Z.pow_pos_nonneg; lia|]. apply Z.pow_lt_mono_r; lia. }
  unfold u64. rewrite (Z.mod_small (2 ^ b)) by lia.
  rewrite Z.mod_small by lia. lia.
Qed.

Lemma testbit_word_mask w i j :
  0 < w -> 0 <= i -> 0 <= j < 64 ->
  Z.testbit (word_mask w i) j = (64 * i + j <? w).
Proof.
  intros Hw Hi Hj. pose proof (num_words_bounds w Hw).
  unfold word_mask. destruct (Z.ltb_spec i 0); [lia|]. simpl.
  destruct (Z.leb_spec (num_words w) i).
  { rewrite Z.testbit_0_l. symmetry. apply Z.ltb_ge. lia. }
  destruct (Z.ltb_spec i (num_words w - 1)).
  { rewrite testbit_UINT64_MAX.
    destruct (Z.leb_spec 0 j), (Z.ltb_spec j 64), (Z.ltb_spec (64 * i + j) w);
      done || lia. }
  rewrite top_word_mask_ones, testbit_ones by (try apply Z.add_nonneg_nonneg;
    try apply Z.mod_pos_bound; lia).
  assert ((w - 1) mod 64 = w - 1 - 64 * i) as ->.
  { symmetry. apply Z.mod_unique with i; lia. }
  destruct (Z.leb_spec 0 j); [|lia].
  destruct (Z.ltb_spec j (w - 1 - 64 * i + 1)), (Z.ltb_spec (64 * i + j) w);
    done || lia.
Qed.

Lemma word_index k : 64 * (k / 64) + k mod 64 = k.
Proof. symmetry. apply Z.div_mod. lia. Qed.

Lemma bit_index_bounds k : 0 <= k mod 64 < 64.
Proof. by apply Z.mod_pos_bound. Qed.

Lemma word_index_nonneg k : 0 <= k -> 0 <= k / 64.
Proof. intros. apply Z.div_pos; lia. Qed.

Lemma word_index_lt k n : k < 64 * n <-> k / 64 < n.
Proof.
  pose proof (word_index k). pose proof (bit_index_bounds k). lia.
Qed.

Lemma word_mask_bit w k :
  0 < w -> 0 <= k -> Z.testbit (word_mask w (k / 64)) (k mod 64) = (k <? w).
Proof.
  intros. rewrite testbit_word_mask;
    [by rewrite word_index | done | by apply word_index_nonneg
    | apply bit_index_bounds].
Qed.

Lemma is_u64_word_mask w i : is_u64 (word_mask w i).
Proof.
  apply is_u64_bits. unfold word_mask.
  destruct (_ || _). { split; [done | intros; apply Z.testbit_0_l]. }
  destruct (_ <? _); [by apply is_u64_bits, is_u64_max|].
  destruct (Z.leb_spec w 0).
  { unfold top_word_mask. destruct (Z.leb_spec w 0); [|lia].
    split; [done | intros; apply Z.testbit_0_l]. }
  rewrite top_word_mask_ones by done.
  pose proof (bit_index_bounds (w - 1)).
  split; [rewrite Z.ones_equiv; pose proof (Z.pow_pos_nonneg 2 ((w - 1) mod 64 + 1)); lia|].
  intros k Hk. apply Z.ones_spec_high. lia.
Qed.
#[export] Hint Resolve is_u64_word_mask : u64.

(** ** Reading back a store *)

(** [r] has arrays in shape and, on the four words, exactly the given
    contents. *)
Record denotes (r : SimValue) (w : Z) (fv fx fz : Z -> Z) : Prop := {
  den_width : sv_width r = w;
  den_val : words_ok 4 (sv_val r);
  den_xmask : words_ok 4 (sv_xmask r);
  den_zmask : words_ok 4 (sv_zmask r);
  den_get : forall i, 0 <= i < 4 ->
    vget r i = fv i /\ xget r i = fx i /\ zget r i = fz i
}.

Lemma get_aset_4 l i j w :
  length l = 4%nat -> 0 <= i < 4 ->
  aget 0 (aset l i w) j = if i =? j then w else aget 0 l j.
Proof.
  intros Hl Hi. rewrite aget_aset, Hl.
  destruct (Z.leb_spec 0 i), (Z.ltb_spec i (Z.of_nat 4)); try lia. done.
Qed.

Lemma denotes_zero w : denotes (sim_val_zero w) w (fun _ => 0) (fun _ => 0) (fun _ => 0).
Proof.
  constructor; try apply words_ok_replicate; [done|].
  intros. repeat split; apply (aget_replicate 0 4).
Qed.

(** A loop body that stores word [i] of each array, and nothing else, when
    word [i] has not been touched yet. *)
Definition stores (g : Z -> SimValue -> SimValue) (n : nat) (fv fx fz : Z -> Z) : Prop :=
  forall i r w f1 f2 f3,
    0 <= i < Z.of_nat n -> denotes r w f1 f2 f3 ->
    vget r i = 0 -> xget r i = 0 -> zget r i = 0 ->
    denotes (g i r) w
      (fun j => if i =? j then fv i else f1 j)
      (fun j => if i =? j then fx i else f2 j)
      (fun j => if i =? j then fz i else f3 j).

Definition upto (n : nat) (f : Z -> Z) (i : Z) : Z :=
  if i <? Z.of_nat n then f i else 0.

Lemma denotes_ext r w f1 f2 f3 g1 g2 g3 :
  denotes r w f1 f2 f3 ->
  (forall i, 0 <= i < 4 -> f1 i = g1 i /\ f2 i = g2 i /\ f3 i = g3 i) ->
  denotes r w g1 g2 g3.
Proof.
  intros [] H. constructor; try done. intros i Hi.
  destruct (H i Hi) as (<- & <- & <-). auto.
Qed.

Lemma denotes_for_up g n w fv fx fz :
  (n <= 4)%nat -> stores g n fv fx fz ->
  denotes (for_up n g (sim_val_zero w)) w (upto n fv) (upto n fx) (upto n fz).
Proof.
  intros Hn Hg.
  apply (for_up_ind (fun k r => denotes r w (upto k fv) (upto k fx) (upto k fz))).
  { eapply denotes_ext; [apply denotes_zero|]. intros i Hi. unfold upto.
    by destruct (Z.ltb_spec i (Z.of_nat 0)); [lia|]. }
  intros k r Hk Hr.
  destruct (den_get _ _ _ _ _ Hr (Z.of_nat k) ltac:(lia)) as (E1 & E2 & E3).
  unfold upto in E1, E2, E3.
  destruct (Z.ltb_spec (Z.of_nat k) (Z.of_nat k)); [lia|].
  eapply denotes_ext; [eapply (Hg (Z.of_nat k)); [lia | done..]|].
  intros i Hi. unfold upto.
  destruct (Z.eqb_spec (Z.of_nat k) i), (Z.ltb_spec i (Z.of_nat k)),
    (Z.ltb_spec i (Z.of_nat (S k))); subst; done || lia.
Qed.

Lemma denotes_for_down g n w fv fx fz :
  (n <= 4)%nat -> stores g n fv fx fz ->
  denotes (for_down n g (sim_val_zero w)) w (upto n fv) (upto n fx) (upto n fz).
Proof.
  intros Hn Hg.
  set (from := fun (k : nat) (f : Z -> Z) (i : Z) =>
    if (Z.of_nat k <=? i) && (i <? Z.of_nat n) then f i else 0).
  assert (denotes (for_down n g (sim_val_zero w)) w (from 0%nat fv) (from 0%nat fx)
    (from 0%nat fz)) as H.
  { apply (for_down_ind (fun k r => denotes r w (from k fv) (from k fx) (from k fz))).
    { eapply denotes_ext; [apply denotes_zero|]. intros i Hi. unfold from.
      by destruct (Z.leb_spec (Z.of_nat n) i), (Z.ltb_spec i (Z.of_nat n)); try lia. }
    intros k r Hk Hr.
    destruct (den_get _ _ _ _ _ Hr (Z.of_nat k) ltac:(lia)) as (E1 & E2 & E3).
    unfold from in E1, E2, E3.
    destruct (Z.leb_spec (Z.of_nat (S k)) (Z.of_nat k)); [lia|].
    eapply denotes_ext; [eapply (Hg (Z.of_nat k)); [lia | done..]|].
    intros i Hi. unfold from.
    destruct (Z.eqb_spec (Z.of_nat k) i), (Z.leb_spec (Z.of_nat k) i),
      (Z.leb_spec (Z.of_nat (S k)) i), (Z.ltb_spec i (Z.of_nat n));
      subst; done || lia. }
  eapply denotes_ext; [exact H|]. intros i Hi. unfold from, upto.
  by destruct (Z.leb_spec (Z.of_nat 0) i); [|lia].
Qed.

(** Stores into one array. *)
Lemma denotes_set_val r w f1 f2 f3 i x :
  denotes r w f1 f2 f3 -> 0 <= i < 4 -> is_u64 x ->
  denotes (set_val i x r) w (fun j => if i =? j then x else f1 j) f2 f3.
Proof.
  intros [H1 H2 H3 H4 H5] Hi Hx. constructor; try done; simpl; [eauto with u64|].
  intros j Hj. unfold vget, set_val; simpl.
  rewrite get_aset_4 by (apply H2 || done). destruct (H5 j Hj) as (<- & ? & ?).
  done.
Qed.

Lemma denotes_set_xmask r w f1 f2 f3 i x :
  denotes r w f1 f2 f3 -> 0 <= i < 4 -> is_u64 x ->
  denotes (set_xmask i x r) w f1 (fun j => if i =? j then x else f2 j) f3.
Proof.
  intros [H1 H2 H3 H4 H5] Hi Hx. constructor; try done; simpl; [eauto with u64|].
  intros j Hj. unfold xget, set_xmask; simpl.
  rewrite get_aset_4 by (apply H3 || done). destruct (H5 j Hj) as (? & <- & ?).
  done.
Qed.

Lemma denotes_set_zmask r w f1 f2 f3 i x :
  denotes r w f1 f2 f3 -> 0 <= i < 4 -> is_u64 x ->
  denotes (set_zmask i x r) w f1 f2 (fun j => if i =? j then x else f3 j).
Proof.
  intros [H1 H2 H3 H4 H5] Hi Hx. constructor; try done; simpl; [eauto with u64|].
  intros j Hj. unfold zget, set_zmask; simpl.
  rewrite get_aset_4 by (apply H4 || done). destruct (H5 j Hj) as (? & ? & <-).
  done.
Qed.

(** The two loop bodies of the bitwise operators and of the shifts. *)
Lemma stores_val_xmask n fv fx :
  (n <= 4)%nat -> (forall i, is_u64 (fv i)) -> (forall i, is_u64 (fx i)) ->
  stores (fun i r => set_xmask i (fx i) (set_val i (fv i) r)) n fv fx (fun _ => 0).
Proof.
  intros Hn Hv Hx i r w f1 f2 f3 Hi Hr E1 E2 E3.
  eapply denotes_ext.
  - apply denotes_set_xmask; [apply denotes_set_val; [done|lia|done]|lia|done].
  - intros j Hj. repeat split. destruct (Z.eqb_spec i j) as [<-|]; [|done].
    destruct Hr as [_ _ _ _ Hg]. destruct (Hg i Hj) as (_ & _ & <-). done.
Qed.

Lemma stores_val n fv :
  (n <= 4)%nat -> (forall i, is_u64 (fv i)) ->
  stores (fun i r => set_val i (fv i) r) n fv (fun _ => 0) (fun _ => 0).
Proof.
  intros Hn Hv i r w f1 f2 f3 Hi Hr E1 E2 E3.
  eapply denotes_ext; [apply denotes_set_val; [done|lia|done]|].
  intros j Hj. destruct Hr as [_ _ _ _ Hg]. destruct (Hg j Hj) as (_ & Hx & Hz).
  destruct (Z.eqb_spec i j) as [<-|]; [|done]. by rewrite <- Hx, <- Hz, E2, E3.
Qed.

Lemma denotes_shaped r w fv fx fz :
  denotes r w fv fx fz -> 0 < w <= 256 -> shaped r.
Proof. intros [<- ? ? ? ?] ?. by constructor. Qed.

(** Bits of a value whose words are known. *)
Section DenotedBits.
Context {r : SimValue} {w : Z} {fv fx fz : Z -> Z}.
Context (Hr : denotes r w fv fx fz).

Lemma denotes_wbit l (f : Z -> Z) k :
  words_ok 4 l -> (forall i, 0 <= i < 4 -> aget 0 l i = f i) -> 0 <= k ->
  wbit l k = if k <? 256 then Z.testbit (f (k / 64)) (k mod 64) else false.
Proof using Type.
  intros [Hl _] Hf Hk. unfold wbit.
  pose proof (word_index_nonneg k Hk). pose proof (word_index_lt k 4).
  destruct (Z.ltb_spec k 256).
  - by rewrite Hf by lia.
  - rewrite aget_out by lia. apply Z.testbit_0_l.
Qed.

Lemma denotes_vbit k : 0 <= k ->
  vbit r k = if k <? 256 then Z.testbit (fv (k / 64)) (k mod 64) else false.
Proof using Hr. destruct Hr. intros. apply denotes_wbit; [done| |done]. apply den_get0. Qed.

Lemma denotes_xbit k : 0 <= k ->
  xbit r k = if k <? 256 then Z.testbit (fx (k / 64)) (k mod 64) else false.
Proof using Hr. destruct Hr. intros. apply denotes_wbit; [done| |done]. apply den_get0. Qed.

Lemma denotes_zbit k : 0 <= k ->
  zbit r k = if k <? 256 then Z.testbit (fz (k / 64)) (k mod 64) else false.
Proof using Hr. destruct Hr. intros. apply denotes_wbit; [done| |done]. apply den_get0. Qed.
End DenotedBits.

(** Words past [nwords w] are zero and so are bits past [w]. *)
Lemma upto_bit w f g k :
  0 < w <= 256 -> 0 <= k ->
  Z.testbit (f (k / 64)) (k mod 64) = (k <? w) && g ->
  (if k <? 256 then Z.testbit (upto (nwords w) f (k / 64)) (k mod 64) else false)
  = (k <? w) && g.
Proof.
  intros Hw Hk Hf. unfold upto. rewrite nwords_num.
  pose proof (num_words_bounds w ltac:(lia)).
  pose proof (word_index_lt k (num_words w)).
  destruct (Z.ltb_spec k 256).
  - destruct (Z.ltb_spec (k / 64) (num_words w)); [done|].
    rewrite Z.testbit_0_l. destruct (Z.ltb_spec k w); [lia | done].
  - destruct (Z.ltb_spec k w); [lia | done].
Qed.

(** The loops of the bitwise operators: one equation per bit. *)
Lemma bitwise_loop w fv fx :
  0 < w <= 256 -> (forall i, is_u64 (fv i)) -> (forall i, is_u64 (fx i)) ->
  let r := for_up (nwords w)
    (fun i r => set_xmask i (fx i) (set_val i (fv i) r)) (sim_val_zero w) in
  shaped r /\ sv_width r = w /\
  forall k, 0 <= k ->
    (forall g, Z.testbit (fv (k / 64)) (k mod 64) = (k <? w) && g ->
       vbit r k = (k <? w) && g) /\
    (forall g, Z.testbit (fx (k / 64)) (k mod 64) = (k <? w) && g ->
       xbit r k = (k <? w) && g) /\
    zbit r k = false.
Proof.
  intros Hw Hv Hx r.
  pose proof (nwords_le4 w ltac:(lia)) as Hn.
  pose proof (denotes_for_up _ _ w _ _ _ Hn (stores_val_xmask _ fv fx Hn Hv Hx)) as D.
  split; [by eapply denotes_shaped|]. split; [by destruct D|].
  intros k Hk. split_and!.
  - intros g Hg. rewrite (denotes_vbit D) by done. by apply upto_bit.
  - intros g Hg. rewrite (denotes_xbit D) by done. by apply upto_bit.
  - rewrite (denotes_zbit D) by done. unfold upto.
    destruct (k <? 256); [|done]. destruct (_ <? _); apply Z.testbit_0_l.
Qed.

(** ** Extensionality *)

Lemma wf_ext a b :
  wf a -> wf b -> sv_width a = sv_width b ->
  (forall k, 0 <= k < sv_width a -> bit_at a k = bit_at b k) -> a = b.
Proof.
  intros Ha Hb Hw H.
  assert (forall k, 0 <= k ->
    vbit a k = vbit b k /\ xbit a k = xbit b k /\ zbit a k = zbit b k) as Hbits.
  { intros k Hk. destruct (Z.lt_ge_cases k (sv_width a)) as [Hlt|Hge].
    - specialize (H k ltac:(lia)). unfold bit_at, bit4 in H.
      destruct (wf_excl _ Ha k Hk) as [A1 A2], (wf_excl _ Hb k Hk) as [B1' B2].
      destruct (xbit a k), (xbit b k), (zbit a k), (zbit b k), (vbit a k), (vbit b k);
        simpl in H; try discriminate H; intuition congruence.
    - destruct (wf_high _ Ha k) as (-> & -> & ->); [done|].
      destruct (wf_high _ Hb k) as (-> & -> & ->); [lia|]. done. }
  destruct a as [va xa za wa], b as [vb xb zb wb]; simpl in *.
  destruct Ha, Hb; simpl in *. subst. f_equal; apply (words_eq_bits 4); try done;
    intros k Hk; apply (Hbits k); lia.
Qed.

Lemma bit_at_high v k : wf v -> sv_width v <= k -> bit_at v k = B0.
Proof. intros Hv Hk. destruct (wf_high v Hv k Hk) as (E1 & E2 & E3). unfold bit_at.
  by rewrite E1, E2, E3. Qed.

(** * Construction, masking, single-bit access and queries, bit by bit

    The bits of the constructors of [sim_value.c], of [sim_val_mask], of
    [sim_val_get_bit]/[sim_val_set_bit], and the meaning of the queries
    [sim_val_has_xz], [sim_val_is_all_z], [sim_val_is_true], [sim_val_equal]. *)


Local Open Scope Z_scope.
Local Open Scope jz_scope.

(** ** Constant fills *)

Inductive field := FVal | FX | FZ.

Definition set_field (s : field) : Z -> Z -> SimValue -> SimValue :=
  match s with FVal => set_val | FX => set_xmask | FZ => set_zmask end.

Definition pick (s t : field) (f : Z -> Z) (i : Z) : Z :=
  match s, t with
  | FVal, FVal | FX, FX | FZ, FZ => f i
  | _, _ => 0
  end.

Lemma denotes_set_field s r w f1 f2 f3 i x :
  denotes r w f1 f2 f3 -> 0 <= i < 4 -> is_u64 x ->
  denotes (set_field s i x r) w
    (fun j => if i =? j then match s with FVal => x | _ => f1 j end else f1 j)
    (fun j => if i =? j then match s with FX => x | _ => f2 j end else f2 j)
    (fun j => if i =? j then match s with FZ => x | _ => f3 j end else f3 j).
Proof.
  intros Hr Hi Hx. destruct s; simpl.
  - eapply denotes_ext; [by apply denotes_set_val|].
    intros j _; cbv beta. by destruct (i =? j).
  - eapply denotes_ext; [by apply denotes_set_xmask|].
    intros j _; cbv beta. by destruct (i =? j).
  - eapply denotes_ext; [by apply denotes_set_zmask|].
    intros j _; cbv beta. by destruct (i =? j).
Qed.

Lemma fill_mask_denotes s w :
  0 < w <= 256 ->
  denotes (fill_mask w (set_field s) (sim_val_zero w)) w
    (pick s FVal (word_mask w)) (pick s FX (word_mask w)) (pick s FZ (word_mask w)).
Proof.
  intros Hw. unfold fill_mask.
  pose proof (num_words_ge1 w). pose proof (num_words_le4 w ltac:(lia)).
  destruct (Z.ltb_spec 0 (num_words w)); [|lia].
  assert (denotes (for_up (Z.to_nat (num_words w - 1))
    (fun i => set_field s i UINT64_MAX) (sim_val_zero w)) w
    (upto (Z.to_nat (num_words w - 1)) (pick s FVal (fun _ => UINT64_MAX)))
    (upto (Z.to_nat (num_words w - 1)) (pick s FX (fun _ => UINT64_MAX)))
    (upto (Z.to_nat (num_words w - 1)) (pick s FZ (fun _ => UINT64_MAX)))) as D.
  { apply denotes_for_up; [lia|]. intros i r w' f1 f2 f3 Hi Hr E1 E2 E3.
    destruct (den_get _ _ _ _ _ Hr i ltac:(lia)) as (G1 & G2 & G3).
    eapply denotes_ext; [by apply denotes_set_field; [|lia|auto with u64]|].
    intros j _; cbv beta. destruct (Z.eqb_spec i j) as [<-|]; [|done].
    destruct s; simpl; split_and!; congruence. }
  assert (is_u64 (top_word_mask w)).
  { pose proof (is_u64_word_mask w (num_words w - 1)) as U. unfold word_mask in U.
    destruct (Z.ltb_spec (num_words w - 1) 0), (Z.leb_spec (num_words w) (num_words w - 1)),
      (Z.ltb_spec (num_words w - 1) (num_words w - 1)); try lia. done. }
  eapply denotes_ext; [apply denotes_set_field; [exact D|lia|done]|].
  intros i Hi; cbv beta. unfold upto. rewrite Z2Nat.id by lia.
  assert (pick s FVal (word_mask w) i = match s with FVal => word_mask w i | _ => 0 end
    /\ pick s FX (word_mask w) i = match s with FX => word_mask w i | _ => 0 end
    /\ pick s FZ (word_mask w) i = match s with FZ => word_mask w i | _ => 0 end)
    as (-> & -> & ->) by (by destruct s).
  unfold word_mask.
  destruct (Z.eqb_spec (num_words w - 1) i), (Z.ltb_spec i (num_words w - 1)),
    (Z.ltb_spec i 0), (Z.leb_spec (num_words w) i); try lia;
    destruct s; simpl; done.
Qed.

Lemma fill_bits s w (r := fill_mask w (set_field s) (sim_val_zero w)) k :
  0 < w <= 256 -> 0 <= k ->
  vbit r k = match s with FVal => k <? w | _ => false end /\
  xbit r k = match s with FX => k <? w | _ => false end /\
  zbit r k = match s with FZ => k <? w | _ => false end.
Proof.
  intros Hw Hk. pose proof (fill_mask_denotes s w Hw) as D.
  rewrite (denotes_vbit D), (denotes_xbit D), (denotes_zbit D) by done.
  unfold pick.
  destruct s; rewrite ?Z.testbit_0_l, ?word_mask_bit by lia;
    destruct (Z.ltb_spec k 256), (Z.ltb_spec k w); done || lia.
Qed.

Lemma fill_wf s w : 0 < w <= 256 -> wf (fill_mask w (set_field s) (sim_val_zero w)).
Proof.
  intros Hw. pose proof (fill_mask_denotes s w Hw) as D.
  destruct (denotes_shaped _ _ _ _ _ D Hw) as [H1 H2 H3 H4].
  constructor; try done.
  - intros k Hk. rewrite (den_width _ _ _ _ _ D) in Hk.
    destruct (fill_bits s w k Hw ltac:(lia)) as (-> & -> & ->).
    destruct (Z.ltb_spec k w); [lia|]. by destruct s.
  - intros k Hk. destruct (fill_bits s w k Hw Hk) as (-> & -> & ->).
    destruct s, (k <? w); done.
Qed.

Lemma fill_width s w : 0 < w <= 256 ->
  sv_width (fill_mask w (set_field s) (sim_val_zero w)) = w.
Proof. intros Hw. by destruct (fill_mask_denotes s w Hw). Qed.

Lemma sim_val_ones_wf w : 0 < w <= 256 -> wf (sim_val_ones w).
Proof. apply (fill_wf FVal). Qed.
Lemma sim_val_all_x_wf w : 0 < w <= 256 -> wf (sim_val_all_x w).
Proof. apply (fill_wf FX). Qed.
Lemma sim_val_all_z_wf w : 0 < w <= 256 -> wf (sim_val_all_z w).
Proof. apply (fill_wf FZ). Qed.

Lemma sim_val_zero_bits w k :
  0 <= k -> vbit (sim_val_zero w) k = false /\ xbit (sim_val_zero w) k = false
            /\ zbit (sim_val_zero w) k = false.
Proof.
  intros Hk. pose proof (denotes_zero w) as D.
  rewrite (denotes_vbit D), (denotes_xbit D), (denotes_zbit D) by done.
  rewrite Z.testbit_0_l. by destruct (k <? 256).
Qed.

Lemma sim_val_zero_wf w : 0 < w <= 256 -> wf (sim_val_zero w).
Proof.
  intros Hw. constructor; try apply words_ok_replicate; [done|..].
  - intros k Hk. simpl in Hk. apply sim_val_zero_bits. lia.
  - intros k Hk. by destruct (sim_val_zero_bits w k Hk) as (-> & -> & ->).
Qed.

#[export] Hint Resolve sim_val_zero_wf sim_val_ones_wf sim_val_all_x_wf
  sim_val_all_z_wf : jz.

Lemma sim_val_zero_bit_at w k : 0 <= k -> bit_at (sim_val_zero w) k = B0.
Proof.
  intros Hk. unfold bit_at. by destruct (sim_val_zero_bits w k Hk) as (-> & -> & ->).
Qed.

Lemma sim_val_ones_bit_at w k : 0 < w <= 256 -> 0 <= k < w -> bit_at (sim_val_ones w) k = B1.
Proof.
  intros Hw Hk. unfold bit_at, sim_val_ones.
  destruct (fill_bits FVal w k Hw ltac:(lia)) as (E1 & E2 & E3). simpl in *.
  rewrite E1, E2, E3. destruct (Z.ltb_spec k w); [done|lia].
Qed.
Lemma sim_val_all_x_bit_at w k : 0 < w <= 256 -> 0 <= k < w -> bit_at (sim_val_all_x w) k = BX.
Proof.
  intros Hw Hk. unfold bit_at, sim_val_all_x.
  destruct (fill_bits FX w k Hw ltac:(lia)) as (E1 & E2 & E3). simpl in *.
  rewrite E1, E2, E3. destruct (Z.ltb_spec k w); [done|lia].
Qed.
Lemma sim_val_all_z_bit_at w k : 0 < w <= 256 -> 0 <= k < w -> bit_at (sim_val_all_z w) k = BZ.
Proof.
  intros Hw Hk. unfold bit_at, sim_val_all_z.
  destruct (fill_bits FZ w k Hw ltac:(lia)) as (E1 & E2 & E3). simpl in *.
  rewrite E1, E2, E3. destruct (Z.ltb_spec k w); [done|lia].
Qed.

(** ** Masking *)

Lemma denotes_self v :
  shaped v -> denotes v (sv_width v) (vget v) (xget v) (zget v).
Proof. intros []. by constructor. Qed.

Lemma land_UINT64_MAX x : is_u64 x -> x .& UINT64_MAX = x.
Proof. intros H. change UINT64_MAX with (Z.ones 64). rewrite Z.land_ones by lia.
  by apply Z.mod_small. Qed.

Lemma word_mask_cases w i :
  word_mask w i =
  if (i <? 0) || (num_words w <=? i) then 0
  else if i =? num_words w - 1 then top_word_mask w else UINT64_MAX.
Proof.
  unfold word_mask.
  destruct (Z.ltb_spec i 0), (Z.leb_spec (num_words w) i),
    (Z.ltb_spec i (num_words w - 1)), (Z.eqb_spec i (num_words w - 1)); done || lia.
Qed.

Lemma sim_val_mask_denotes v :
  shaped v ->
  denotes (sim_val_mask v) (sv_width v)
    (fun i => vget v i .& word_mask (sv_width v) i)
    (fun i => xget v i .& word_mask (sv_width v) i)
    (fun i => zget v i .& word_mask (sv_width v) i).
Proof.
  intros Hv. pose proof (denotes_self v Hv) as D0.
  assert (0 < sv_width v <= 256) as Hw by apply Hv.
  set (w := sv_width v) in *. set (nw := num_words w) in *.
  assert (1 <= nw <= 4) as Hnw.
  { pose proof (num_words_ge1 w). pose proof (num_words_le4 w). lia. }
  set (m := top_word_mask w).
  unfold sim_val_mask. fold w nw m. destruct (Z.ltb_spec 0 nw) as [_|]; [|lia].
  match goal with |- denotes (for_up _ _ ?u) _ _ _ _ => set (t := u) end.
  assert (denotes t w
      (fun i => if nw - 1 =? i then vget v i .& m else vget v i)
      (fun i => if nw - 1 =? i then xget v i .& m else xget v i)
      (fun i => if nw - 1 =? i then zget v i .& m else zget v i)) as D1.
  { assert (is_u64 m) as Hm.
    { pose proof (is_u64_word_mask w (nw - 1)) as U. rewrite word_mask_cases in U.
      fold nw in U. destruct (Z.ltb_spec (nw - 1) 0), (Z.leb_spec nw (nw - 1)),
        (Z.eqb_spec (nw - 1) (nw - 1)); try lia. exact U. }
    eapply denotes_ext;
      [apply denotes_set_zmask, is_u64_land_r, Hm; [apply denotes_set_xmask,
        is_u64_land_r, Hm; [apply denotes_set_val, is_u64_land_r, Hm; [exact D0|lia]
        |lia]|lia]|].
    intros i Hi; cbv beta. by destruct (Z.eqb_spec (nw - 1) i) as [<-|]. }
  clearbody t.
  set (clr := fun (k : nat) (f : Z -> Z) (i : Z) =>
    if (nw <=? i) && (i <? nw + Z.of_nat k) then 0
    else if nw - 1 =? i then f i .& m else f i).
  assert (denotes (for_up (Z.to_nat (SIM_VAL_WORDS - nw)) (fun i v =>
      set_zmask (nw + i) 0 (set_xmask (nw + i) 0 (set_val (nw + i) 0 v))) t) w
    (clr (Z.to_nat (SIM_VAL_WORDS - nw)) (vget v))
    (clr (Z.to_nat (SIM_VAL_WORDS - nw)) (xget v))
    (clr (Z.to_nat (SIM_VAL_WORDS - nw)) (zget v))) as D2.
  { apply (for_up_ind (fun k r => denotes r w (clr k (vget v)) (clr k (xget v))
      (clr k (zget v)))).
    - eapply denotes_ext; [exact D1|]. intros i Hi. unfold clr.
      by destruct (Z.leb_spec nw i), (Z.ltb_spec i (nw + Z.of_nat 0)); try lia.
    - unfold SIM_VAL_WORDS. intros k r Hk Hr. eapply denotes_ext;
      [apply denotes_set_zmask, is_u64_0; [apply denotes_set_xmask, is_u64_0;
        [apply denotes_set_val, is_u64_0; [exact Hr|lia]|lia]|lia]|].
      intros i Hi; cbv beta. unfold clr.
      destruct (Z.eqb_spec (nw + Z.of_nat k) i), (Z.leb_spec nw i),
        (Z.ltb_spec i (nw + Z.of_nat k)), (Z.ltb_spec i (nw + Z.of_nat (S k)));
        done || lia. }
  eapply denotes_ext; [exact D2|]. intros i Hi. unfold clr, SIM_VAL_WORDS.
  rewrite word_mask_cases. fold nw m. rewrite (Z.eqb_sym i).
  destruct (Z.ltb_spec i 0), (Z.leb_spec nw i),
    (Z.ltb_spec i (nw + Z.of_nat (Z.to_nat (4 - nw)))), (Z.eqb_spec (nw - 1) i);
    try lia; simpl; rewrite ?Z.land_0_r, ?land_UINT64_MAX by auto with u64; done.
Qed.

Lemma sim_val_mask_bits v k :
  shaped v -> 0 <= k ->
  vbit (sim_val_mask v) k = (k <? sv_width v) && vbit v k /\
  xbit (sim_val_mask v) k = (k <? sv_width v) && xbit v k /\
  zbit (sim_val_mask v) k = (k <? sv_width v) && zbit v k.
Proof.
  intros Hv Hk. assert (0 < sv_width v <= 256) as Hw by apply Hv.
  pose proof (sim_val_mask_denotes v Hv) as D.
  pose proof (denotes_self v Hv) as D0.
  rewrite (denotes_vbit D), (denotes_xbit D), (denotes_zbit D) by done.
  rewrite (denotes_vbit D0), (denotes_xbit D0), (denotes_zbit D0) by done.
  rewrite !Z.land_spec, word_mask_bit by lia.
  destruct (k <? 256), (k <? sv_width v); rewrite ?andb_true_r, ?andb_false_r; done.
Qed.

Lemma sim_val_mask_width v : shaped v -> sv_width (sim_val_mask v) = sv_width v.
Proof. intros Hv. by destruct (sim_val_mask_denotes v Hv). Qed.

(** Masking turns a value in shape, with exclusive masks, into a well-formed
    one. *)
Definition exclusive (v : SimValue) : Prop :=
  forall k, 0 <= k < sv_width v ->
    (xbit v k = true -> vbit v k = false /\ zbit v k = false) /\
    (zbit v k = true -> vbit v k = false).

Lemma wf_exclusive v : wf v -> exclusive v.
Proof. intros H k Hk. apply (wf_excl v H). lia. Qed.

Lemma sim_val_mask_shaped v : shaped v -> shaped (sim_val_mask v).
Proof.
  intros Hv. eapply denotes_shaped; [by apply sim_val_mask_denotes | apply Hv].
Qed.

Lemma sim_val_mask_wf v : shaped v -> exclusive v -> wf (sim_val_mask v).
Proof.
  intros Hv He. destruct (sim_val_mask_shaped v Hv).
  constructor; try done.
  - rewrite sim_val_mask_width by done. intros k Hk. destruct Hv.
    destruct (sim_val_mask_bits v k) as (-> & -> & ->); [by constructor|lia|].
    by destruct (Z.ltb_spec k (sv_width v)); [lia|].
  - intros k Hk. destruct (sim_val_mask_bits v k Hv Hk) as (-> & -> & ->).
    destruct (Z.ltb_spec k (sv_width v)); simpl; [apply He; lia | done].
Qed.

Lemma sim_val_mask_bit_at v k :
  shaped v -> 0 <= k < sv_width v -> bit_at (sim_val_mask v) k = bit_at v k.
Proof.
  intros Hv Hk. unfold bit_at.
  destruct (sim_val_mask_bits v k Hv) as (-> & -> & ->); [lia|].
  by destruct (Z.ltb_spec k (sv_width v)); [|lia].
Qed.

#[export] Hint Resolve sim_val_mask_shaped sim_val_mask_wf wf_exclusive : jz.

(** Masking a well-formed value changes nothing. *)
Lemma sim_val_mask_id v : wf v -> sim_val_mask v = v.
Proof.
  intros Hv. apply wf_ext; auto with jz.
  - by apply sim_val_mask_width, wf_shaped.
  - rewrite sim_val_mask_width by auto with jz. intros.
    by apply sim_val_mask_bit_at; auto with jz.
Qed.

(** ** Single bits *)

Lemma testbit_land1 x s : 0 <= s -> (x .>> s) .& 1 = bool_to_int (Z.testbit x s).
Proof.
  intros Hs. unfold shr64. change 1 with (Z.ones 1).
  rewrite Z.land_ones by lia. rewrite Z.shiftr_div_pow2 by lia.
  change (2 ^ 1) with 2. rewrite <- Z.testbit_spec' by lia. by destruct (Z.testbit x s).
Qed.

Lemma sim_val_get_bit_spec v k :
  sim_val_get_bit v k = bool_to_int ((0 <=? k) && (k <? sv_width v) && vbit v k).
Proof.
  unfold sim_val_get_bit. destruct (Z.ltb_spec k 0), (Z.leb_spec 0 k); try lia; [done|].
  destruct (Z.leb_spec (sv_width v) k), (Z.ltb_spec k (sv_width v)); try lia; [done|].
  simpl. rewrite testbit_land1 by apply bit_index_bounds. done.
Qed.

Lemma sim_val_get_bit_wf v k :
  wf v -> 0 <= k -> sim_val_get_bit v k = bool_to_int (vbit v k).
Proof.
  intros Hv Hk. rewrite sim_val_get_bit_spec.
  destruct (Z.leb_spec 0 k); [|lia].
  destruct (Z.ltb_spec k (sv_width v)); [done|].
  by destruct (wf_high v Hv k) as (-> & _).
Qed.

Lemma bool_to_int_eqb0 b : (bool_to_int b =? 0) = negb b.
Proof. by destruct b. Qed.

Lemma wbit_aset l i x k :
  length l = 4%nat -> 0 <= i < 4 -> 0 <= k ->
  wbit (aset l i x) k = if i =? k / 64 then Z.testbit x (k mod 64) else wbit l k.
Proof.
  intros. unfold wbit. rewrite get_aset_4 by done. by destruct (i =? k / 64).
Qed.

Lemma testbit_1_shl s j : 0 <= s -> 0 <= j < 64 -> Z.testbit (1 .<< s) j = (j =? s).
Proof.
  intros Hs Hj. rewrite testbit_shl64 by lia.
  destruct (Z.ltb_spec j 64); [|lia]. simpl.
  destruct (Z.eqb_spec j s) as [->|]; [by rewrite Z.sub_diag|].
  destruct (Z.lt_ge_cases j s); [apply Z.testbit_neg_r; lia|].
  apply (Z.testbit_ones_nonneg 1 (j - s)) || idtac.
  change 1 with (2 ^ 0). apply Z.pow2_bits_false. lia.
Qed.

(** Position equality, word by word. *)
Lemma word_pos_eq k bit :
  (bit / 64 =? k / 64) && (k mod 64 =? bit mod 64) = (k =? bit).
Proof.
  pose proof (word_index k). pose proof (word_index bit).
  destruct (Z.eqb_spec (bit / 64) (k / 64)), (Z.eqb_spec (k mod 64) (bit mod 64)),
    (Z.eqb_spec k bit); subst; done || lia.
Qed.

Lemma sim_val_set_bit_spec v bit b :
  shaped v -> 0 <= bit < sv_width v ->
  shaped (sim_val_set_bit v bit b) /\
  sv_width (sim_val_set_bit v bit b) = sv_width v /\
  forall k, 0 <= k ->
    vbit (sim_val_set_bit v bit b) k =
      (if k =? bit then negb (b =? 0) else vbit v k) /\
    xbit (sim_val_set_bit v bit b) k = xbit v k /\
    zbit (sim_val_set_bit v bit b) k = zbit v k.
Proof.
  intros Hv Hb. assert (0 < sv_width v <= 256) as Hw by apply Hv.
  assert (0 <= bit / 64 < 4) as Hi.
  { pose proof (word_index_nonneg bit). pose proof (word_index_lt bit 4). lia. }
  pose proof (bit_index_bounds bit).
  unfold sim_val_set_bit.
  destruct (Z.ltb_spec bit 0), (Z.leb_spec (sv_width v) bit); try lia. simpl.
  assert (forall x, is_u64 x -> shaped (set_val (bit / 64) x v)) as Hsh.
  { intros x Hx. destruct Hv. constructor; try done. simpl. auto with u64. }
  split_and!.
  - destruct (negb (b =? 0)); apply Hsh; auto with u64.
  - by destruct (negb (b =? 0)).
  - intros k Hk. pose proof (bit_index_bounds k) as Hj.
    unfold vbit. rewrite <- (word_pos_eq k bit).
    destruct (negb (b =? 0)); (split; [|done]); simpl;
      rewrite wbit_aset by (apply Hv || done);
      destruct (Z.eqb_spec (bit / 64) (k / 64)) as [E|]; try done;
      unfold wbit, vget; rewrite <- E;
      rewrite ?Z.lor_spec, ?Z.land_spec, ?testbit_not64, testbit_1_shl by lia;
      destruct (Z.leb_spec 0 (k mod 64)), (Z.ltb_spec (k mod 64) 64); try lia;
      destruct (k mod 64 =? bit mod 64), (Z.testbit _ (k mod 64)); done.
Qed.

Lemma sim_val_set_bit_out v bit b :
  ~ (0 <= bit < sv_width v) -> sim_val_set_bit v bit b = v.
Proof.
  intros. unfold sim_val_set_bit.
  by destruct (Z.ltb_spec bit 0), (Z.leb_spec (sv_width v) bit); try lia.
Qed.

(** ** Queries *)

Lemma masked_zero a w i :
  0 < w -> 0 <= i ->
  (a .& word_mask w i =? 0) = true <->
  (forall j, 0 <= j < 64 -> 64 * i + j < w -> Z.testbit a j = false).
Proof.
  intros Hw Hi. rewrite Z.eqb_eq. split.
  - intros E j Hj Hlt. pose proof (f_equal (fun x => Z.testbit x j) E) as Ej.
    cbv beta in Ej. rewrite Z.land_spec, testbit_word_mask, Z.testbit_0_l in Ej by done.
    destruct (Z.ltb_spec (64 * i + j) w); [|lia]. by rewrite andb_true_r in Ej.
  - intros H. apply Z.bits_inj'. intros j Hj. rewrite Z.land_spec, Z.testbit_0_l.
    destruct (Z.lt_ge_cases j 64).
    + rewrite testbit_word_mask by lia. destruct (Z.ltb_spec (64 * i + j) w).
      * by rewrite H by lia.
      * apply andb_false_r.
    + pose proof (is_u64_word_mask w i) as [_ U]%is_u64_bits.
      by rewrite U, andb_false_r by lia.
Qed.

(** The scan of the active words of an array expression [f]. *)
Lemma scan_zero w (f : Z -> Z) :
  0 < w ->
  (forall i, 0 <= i < num_words w -> (f i .& word_mask w i =? 0) = true) <->
  (forall k, 0 <= k < w -> Z.testbit (f (k / 64)) (k mod 64) = false).
Proof.
  intros Hw. pose proof (num_words_bounds w Hw). split.
  - intros H0 k Hk. pose proof (word_index_nonneg k). pose proof (word_index k).
    pose proof (bit_index_bounds k).
    apply (proj1 (masked_zero (f (k / 64)) w (k / 64) Hw ltac:(lia)));
      [apply H0; lia|lia|lia].
  - intros H0 i Hi. apply masked_zero; [lia..|]. intros j Hj Hlt.
    specialize (H0 (64 * i + j) ltac:(lia)).
    by rewrite div_word, mod_word in H0 by lia.
Qed.

Lemma bit_at_unknown v k : is_unknown (bit_at v k) = xbit v k || zbit v k.
Proof. unfold bit_at. by destruct (xbit v k), (zbit v k), (vbit v k). Qed.

Lemma sim_val_has_xz_false v :
  0 < sv_width v -> sim_val_has_xz v = false <-> known v.
Proof.
  intros Hw. unfold sim_val_has_xz, known.
  transitivity (forall i, 0 <= i < num_words (sv_width v) ->
    ((xget v i .| zget v i) .& word_mask (sv_width v) i =? 0) = true).
  - destruct (ret_up _ _) as [r|] eqn:E.
    + destruct (ret_up_Some _ _ _ E) as (i & Hi & Hr & _).
      rewrite nwords_num in Hi. cbv beta in Hr.
      destruct (_ =? 0) eqn:E0 in Hr; simpl in Hr; [done|]. injection Hr as <-.
      split; [done|]. intros H. by rewrite H in E0.
    + rewrite ret_up_None in E. split; [|done]. intros _ i Hi.
      specialize (E i). rewrite nwords_num in E. specialize (E Hi). cbv beta in E.
      by destruct (_ =? 0).
  - rewrite (scan_zero _ (fun i => xget v i .| zget v i)) by done.
    apply forall_proper; intros k. apply forall_proper; intros Hk.
    by rewrite bit_at_unknown, Z.lor_spec.
Qed.

Lemma sim_val_has_xz_true v :
  0 < sv_width v ->
  sim_val_has_xz v = true <->
  exists k, 0 <= k < sv_width v /\ is_unknown (bit_at v k) = true.
Proof.
  intros Hw. pose proof (sim_val_has_xz_false v Hw) as H. unfold known in H.
  split.
  - intros E.
    destruct (decide (Exists (fun k => is_unknown (bit_at v k) = true)
      (seqZ 0 (sv_width v)))) as [Y|N].
    + apply Exists_exists in Y as (k & Hk & Y).
      apply elem_of_seqZ in Hk. exists k. split; [lia | done].
    + exfalso. rewrite (proj2 H) in E; [done|]. intros k Hk.
      apply not_true_is_false. intros Y. apply N.
      apply Exists_exists. exists k. split; [apply elem_of_seqZ; lia | done].
  - intros (k & Hk & E). apply not_false_is_true. intros F.
    by rewrite (proj1 H F k Hk) in E.
Qed.

(** The decision form used by the operations: unknown inputs or known ones. *)
Lemma has_xz_cases v :
  0 < sv_width v ->
  (sim_val_has_xz v = true /\
     exists k, 0 <= k < sv_width v /\ is_unknown (bit_at v k) = true) \/
  (sim_val_has_xz v = false /\ known v).
Proof.
  intros Hw. destruct (sim_val_has_xz v) eqn:E; [left|right]; split; try done.
  - by apply sim_val_has_xz_true.
  - by apply sim_val_has_xz_false.
Qed.

(** The two tests of [sim_val_is_all_z] on one word are one masked test. *)
Lemma masked_all_z z x m :
  is_u64 m ->
  ((.~ z .| x) .& m =? 0) = (z .& m =? m) && (x .& m =? 0).
Proof.
  intros [_ Um]%is_u64_bits.
  assert ((.~ z .| x) .& m = 0 <-> z .& m = m /\ x .& m = 0) as Hiff.
  { split.
    - intros E. split; apply Z.bits_inj'; intros j Hj;
        pose proof (f_equal (fun x => Z.testbit x j) E) as Ej; cbv beta in Ej;
        rewrite Z.land_spec, Z.lor_spec, testbit_not64, Z.testbit_0_l in Ej;
        rewrite ?Z.land_spec, ?Z.testbit_0_l;
        destruct (Z.leb_spec 0 j), (Z.ltb_spec j 64); try lia;
        rewrite ?Um by lia;
        destruct (Z.testbit z j), (Z.testbit x j), (Z.testbit m j); done.
    - intros [E1 E2]. apply Z.bits_inj'. intros j Hj.
      pose proof (f_equal (fun x => Z.testbit x j) E1) as E1j.
      pose proof (f_equal (fun x => Z.testbit x j) E2) as E2j.
      cbv beta in E1j, E2j. rewrite Z.land_spec in E1j, E2j.
      rewrite Z.testbit_0_l in E2j.
      rewrite Z.land_spec, Z.lor_spec, testbit_not64, Z.testbit_0_l.
      destruct (Z.leb_spec 0 j), (Z.ltb_spec j 64); try lia; rewrite ?(Um j) by lia;
        destruct (Z.testbit z j), (Z.testbit x j), (Z.testbit m j); done. }
  destruct (Z.eqb_spec ((.~ z .| x) .& m) 0), (Z.eqb_spec (z .& m) m),
    (Z.eqb_spec (x .& m) 0); simpl; tauto.
Qed.

Lemma sim_val_is_all_z_spec v :
  0 < sv_width v ->
  sim_val_is_all_z v = true <->
  forall k, 0 <= k < sv_width v -> bit_at v k = BZ.
Proof.
  intros Hw. unfold sim_val_is_all_z.
  transitivity (forall i, 0 <= i < num_words (sv_width v) ->
    ((.~ zget v i .| xget v i) .& word_mask (sv_width v) i =? 0) = true).
  - setoid_rewrite masked_all_z; [|apply is_u64_word_mask].
    destruct (ret_up _ _) as [r|] eqn:E.
    + destruct (ret_up_Some _ _ _ E) as (i & Hi & Hr & _).
      rewrite nwords_num in Hi. cbv beta zeta in Hr.
      assert (r = false) as -> by
        (destruct (zget v i .& _ =? _), (xget v i .& _ =? 0); simpl in Hr; congruence).
      split; [done|]. intros H. specialize (H i Hi). apply andb_true_iff in H as [H1 H2].
      by rewrite H1, H2 in Hr.
    + rewrite ret_up_None, nwords_num in E. split; [|done]. intros _ i Hi.
      specialize (E i Hi). cbv beta zeta in E.
      by destruct (zget v i .& _ =? _), (xget v i .& _ =? 0).
  - rewrite (scan_zero _ (fun i => .~ zget v i .| xget v i)) by done.
    apply forall_proper; intros k. apply forall_proper; intros Hk.
    rewrite Z.lor_spec, testbit_not64. pose proof (bit_index_bounds k).
    destruct (Z.leb_spec 0 (k mod 64)), (Z.ltb_spec (k mod 64) 64); try lia.
    unfold bit_at, xbit, zbit, wbit, xget, zget.
    by destruct (Z.testbit (aget 0 (sv_xmask v) _) _),
      (Z.testbit (aget 0 (sv_zmask v) _) _), (vbit v k).
Qed.

(** [sim_val_is_true]: the loop computes two disjunctions. *)
Lemma is_true_loop n (fx fv : Z -> bool) :
  let '(hx, hv) :=
    for_up n (fun i '(hx, hv) => (hx || negb (fx i), hv || negb (fv i)))
      (false, false) in
  (hx = false <-> forall i, 0 <= i < Z.of_nat n -> fx i = true) /\
  (hv = false <-> forall i, 0 <= i < Z.of_nat n -> fv i = true).
Proof.
  assert (forall m (f : Z -> bool) b,
    (b = false <-> forall i, 0 <= i < Z.of_nat m -> f i = true) ->
    (b || negb (f (Z.of_nat m)) = false <->
       forall i, 0 <= i < Z.of_nat (S m) -> f i = true)) as Hstep.
  { intros m f b IH. rewrite orb_false_iff, IH, negb_false_iff. split.
    - intros [H1 H2] i Hi. destruct (decide (i = Z.of_nat m)) as [->|]; [done|].
      apply H1. lia.
    - intros H. split; [intros; apply H; lia | apply H; lia]. }
  induction n as [|n IH]; simpl.
  { split; (split; [intros _ i; lia | done]). }
  destruct (for_up n _ _) as [hx hv]. destruct IH. split; by apply Hstep.
Qed.

Definition truth (v : SimValue) : option bool :=
  if sim_val_has_xz v then None
  else Some (negb (forallb (fun k => negb (vbit v k)) (seqZ 0 (sv_width v)))).

Lemma forallb_seqZ (p : Z -> bool) w :
  forallb p (seqZ 0 w) = true <-> forall k, 0 <= k < w -> p k = true.
Proof.
  rewrite forallb_forall. split; intros H k Hk.
  - apply H, list_elem_of_In, elem_of_seqZ. lia.
  - apply list_elem_of_In, elem_of_seqZ in Hk. apply H. lia.
Qed.

Lemma sim_val_is_true_truth v :
  0 < sv_width v ->
  sim_val_is_true v =
  match truth v with None => -1 | Some b => bool_to_int b end.
Proof.
  intros Hw. unfold sim_val_is_true, truth.
  set (fx := fun i => ((xget v i .| zget v i) .& word_mask (sv_width v) i =? 0)).
  set (fv := fun i => (vget v i .& word_mask (sv_width v) i =? 0)).
  pose proof (is_true_loop (nwords (sv_width v)) fx fv) as HL.
  change (for_up _ _ _) with (for_up (nwords (sv_width v))
    (fun i '(hx, hv) => (hx || negb (fx i), hv || negb (fv i))) (false, false)).
  destruct (for_up _ _ _) as [hx hv]. rewrite !nwords_num in HL.
  unfold fx, fv in HL.
  rewrite (scan_zero _ (fun i => xget v i .| zget v i)), (scan_zero _ (vget v)) in HL
    by done.
  destruct HL as [HX HV].
  assert (hx = sim_val_has_xz v) as ->.
  { destruct hx, (sim_val_has_xz v) eqn:E; try done; exfalso.
    - apply sim_val_has_xz_false in E; [|done]. enough (true = false) by done.
      apply HX. intros k Hk. specialize (E k Hk). rewrite bit_at_unknown in E.
      rewrite Z.lor_spec. exact E.
    - apply sim_val_has_xz_true in E as (k & Hk & E); [|done].
      rewrite bit_at_unknown in E. pose proof (proj1 HX eq_refl k Hk) as F.
      rewrite Z.lor_spec in F. unfold xbit, zbit, wbit in E.
      unfold xget, zget in F. congruence. }
  destruct (sim_val_has_xz v); [done|].
  pose proof (forallb_seqZ (fun k => negb (vbit v k)) (sv_width v)) as HF.
  destruct hv, (forallb _ _); try done; exfalso.
  - enough (true = false) by done. apply HV. intros k Hk.
    pose proof (proj1 HF eq_refl k Hk) as F. cbv beta in F. by apply negb_true_iff in F.
  - enough (false = true) by done. apply HF. intros k Hk. cbv beta.
    apply negb_true_iff, (proj1 HV eq_refl k Hk).
Qed.

Lemma truth_cases v :
  0 < sv_width v ->
  (truth v = None /\ sim_val_has_xz v = true) \/
  (truth v = Some false /\ known v /\ forall k, 0 <= k < sv_width v -> vbit v k = false) \/
  (truth v = Some true /\ known v /\ exists k, 0 <= k < sv_width v /\ vbit v k = true).
Proof.
  intros Hw. unfold truth.
  destruct (has_xz_cases v Hw) as [[-> _]|[-> Hk]]; [by left | right].
  pose proof (forallb_seqZ (fun k => negb (vbit v k)) (sv_width v)) as HF.
  destruct (forallb _ _) eqn:E; [left|right]; split_and!; try done.
  - intros k Hk'. apply negb_true_iff, (proj1 HF eq_refl k Hk').
  - destruct (decide (Exists (fun k => vbit v k = true) (seqZ 0 (sv_width v)))) as [Y|N].
    + apply Exists_exists in Y as (k & Hk' & Y). apply elem_of_seqZ in Hk'.
      exists k. split; [lia | done].
    + enough (false = true) by done. apply HF. intros k Hk'. apply negb_true_iff.
      apply not_true_is_false. intros Y. apply N, Exists_exists. exists k.
      split; [apply elem_of_seqZ; lia | done].
Qed.

(** Equality of the active bits of a word pair. *)
Lemma masked_eq a b w i :
  0 < w -> 0 <= i ->
  (a .& word_mask w i =? b .& word_mask w i) = true <->
  (forall j, 0 <= j < 64 -> 64 * i + j < w -> Z.testbit a j = Z.testbit b j).
Proof.
  intros Hw Hi. rewrite Z.eqb_eq. split.
  - intros E j Hj Hlt. pose proof (f_equal (fun x => Z.testbit x j) E) as Ej.
    cbv beta in Ej. rewrite !Z.land_spec, testbit_word_mask in Ej by done.
    destruct (Z.ltb_spec (64 * i + j) w); [|lia]. by rewrite !andb_true_r in Ej.
  - intros H. apply Z.bits_inj'. intros j Hj. rewrite !Z.land_spec.
    destruct (Z.lt_ge_cases j 64).
    + rewrite testbit_word_mask by lia. destruct (Z.ltb_spec (64 * i + j) w).
      * by rewrite H by lia.
      * by rewrite !andb_false_r.
    + pose proof (is_u64_word_mask w i) as [_ U]%is_u64_bits.
      by rewrite U, !andb_false_r by lia.
Qed.

Lemma scan_eq w (f g : Z -> Z) :
  0 < w ->
  (forall i, 0 <= i < num_words w ->
     (f i .& word_mask w i =? g i .& word_mask w i) = true) <->
  (forall k, 0 <= k < w ->
     Z.testbit (f (k / 64)) (k mod 64) = Z.testbit (g (k / 64)) (k mod 64)).
Proof.
  intros Hw. pose proof (num_words_bounds w Hw). split.
  - intros H0 k Hk. pose proof (word_index_nonneg k). pose proof (word_index k).
    pose proof (bit_index_bounds k).
    apply (proj1 (masked_eq (f (k / 64)) (g (k / 64)) w (k / 64) Hw ltac:(lia)));
      [apply H0; lia|lia|lia].
  - intros H0 i Hi. apply masked_eq; [lia..|]. intros j Hj Hlt.
    specialize (H0 (64 * i + j) ltac:(lia)).
    by rewrite div_word, mod_word in H0 by lia.
Qed.

Lemma sim_val_equal_bits a b :
  0 < sv_width a -> sv_width a = sv_width b ->
  sim_val_equal a b = true <->
  (forall k, 0 <= k < sv_width a ->
     vbit a k = vbit b k /\ xbit a k = xbit b k /\ zbit a k = zbit b k).
Proof.
  intros Hw Heq. unfold sim_val_equal. rewrite Heq, Z.eqb_refl. simpl.
  rewrite <- Heq.
  transitivity (forall i, 0 <= i < num_words (sv_width a) ->
    let m := word_mask (sv_width a) i in
    (vget a i .& m =? vget b i .& m) = true /\
    (xget a i .& m =? xget b i .& m) = true /\
    (zget a i .& m =? zget b i .& m) = true).
  - destruct (ret_up _ _) as [r|] eqn:E.
    + destruct (ret_up_Some _ _ _ E) as (i & Hi & Hr & _).
      rewrite nwords_num in Hi. cbv beta zeta in Hr.
      assert (r = false) as -> by (repeat case_match; congruence).
      split; [done|]. intros H. destruct (H i Hi) as (H1 & H2 & H3).
      by rewrite H1, H2, H3 in Hr.
    + rewrite ret_up_None, nwords_num in E. split; [|done]. intros _ i Hi m.
      specialize (E i Hi). cbv beta zeta in E. fold m in E.
      by destruct (vget a i .& m =? _), (xget a i .& m =? _), (zget a i .& m =? _).
  - pose proof (scan_eq (sv_width a) (vget a) (vget b) Hw) as SV.
    pose proof (scan_eq (sv_width a) (xget a) (xget b) Hw) as SX.
    pose proof (scan_eq (sv_width a) (zget a) (zget b) Hw) as SZ.
    split.
    + intros H k Hk. split_and!; [apply SV|apply SX|apply SZ]; try done;
        intros i Hi; by destruct (H i Hi) as (? & ? & ?).
    + intros H i Hi m. split_and!; [apply SV|apply SX|apply SZ]; try done;
        intros k Hk; by destruct (H k Hk) as (? & ? & ?).
Qed.

(** On well-formed values it decides equality. *)
Lemma sim_val_equal_wf a b :
  wf a -> wf b -> sim_val_equal a b = true <-> a = b.
Proof.
  intros Ha Hb. pose proof (wf_width _ Ha). pose proof (wf_width _ Hb).
  destruct (decide (sv_width a = sv_width b)) as [Heq|Hne].
  - rewrite sim_val_equal_bits by lia. split.
    + intros H1. apply wf_ext; [done..|]. intros k Hk. unfold bit_at.
      by destruct (H1 k Hk) as (-> & -> & ->).
    + by intros ->.
  - split; [|by intros ->]. unfold sim_val_equal.
    by destruct (Z.eqb_spec (sv_width a) (sv_width b)).
Qed.

(** ** The number a value denotes *)

Lemma sv_uint_testbit v k :
  shaped v -> 0 <= k -> Z.testbit (sv_uint v) k = vbit v k.
Proof. intros Hv Hk. apply (testbit_words_to_Z 4); [apply Hv | done]. Qed.

Lemma sv_uint_bounds v : wf v -> 0 <= sv_uint v < 2 ^ sv_width v.
Proof.
  intros Hv. pose proof (wf_width v Hv).
  assert (0 <= sv_uint v) by (eapply words_to_Z_nonneg, Hv).
  split; [done|]. apply Z.bounded_iff_bits_nonneg; [lia..|].
  intros k Hk. rewrite sv_uint_testbit by (auto with jz || lia).
  apply (wf_high v Hv). lia.
Qed.

Lemma known_bit_at v k :
  wf v -> known v -> 0 <= k ->
  bit_at v k = if Z.testbit (sv_uint v) k then B1 else B0.
Proof.
  intros Hv Hk H0. rewrite sv_uint_testbit by auto with jz.
  destruct (Z.lt_ge_cases k (sv_width v)) as [Hlt|Hge].
  - specialize (Hk k ltac:(lia)). rewrite bit_at_unknown in Hk.
    apply orb_false_iff in Hk as [Hx Hz]. unfold bit_at. by rewrite Hx, Hz.
  - destruct (wf_high v Hv k Hge) as (E & _). rewrite E. by apply bit_at_high.
Qed.

Lemma known_xz_false v :
  wf v -> known v -> forall k, 0 <= k -> xbit v k = false /\ zbit v k = false.
Proof.
  intros Hv Hk k H0. destruct (Z.lt_ge_cases k (sv_width v)) as [Hlt|Hge].
  - specialize (Hk k ltac:(lia)). rewrite bit_at_unknown in Hk.
    by apply orb_false_iff in Hk.
  - by destruct (wf_high v Hv k Hge) as (_ & ? & ?).
Qed.

(** A known well-formed value is its width and its number. *)
Lemma known_ext a b :
  wf a -> wf b -> known a -> known b ->
  sv_width a = sv_width b -> sv_uint a = sv_uint b -> a = b.
Proof.
  intros Ha Hb Ka Kb Hw Hu. apply wf_ext; [done..|]. intros k Hk.
  rewrite !known_bit_at by (done || lia). by rewrite Hu.
Qed.

(** The values the arithmetic operations build: no mask set, number [n]. *)
Record is_num (v : SimValue) (w n : Z) : Prop := {
  in_wf : wf v;
  in_known : known v;
  in_width : sv_width v = w;
  in_uint : sv_uint v = n
}.

Lemma is_num_self v : wf v -> known v -> is_num v (sv_width v) (sv_uint v).
Proof. by constructor. Qed.

Lemma sv_uint_bits_eq v n :
  shaped v -> 0 <= n -> (forall k, 0 <= k -> vbit v k = Z.testbit n k) -> sv_uint v = n.
Proof.
  intros Hv Hn H. apply Z.bits_inj'. intros k Hk. by rewrite sv_uint_testbit, H.
Qed.

(** A masked value without [x]/[z] denotes its number modulo [2^width]. *)
Lemma mask_is_num v :
  shaped v -> (forall k, 0 <= k -> xbit v k = false /\ zbit v k = false) ->
  is_num (sim_val_mask v) (sv_width v) (sv_uint v mod 2 ^ sv_width v).
Proof.
  intros Hv Hxz. assert (0 < sv_width v <= 256) as Hw by apply Hv.
  constructor.
  - apply sim_val_mask_wf; [done|]. intros k Hk.
    by destruct (Hxz k ltac:(lia)) as [-> ->].
  - intros k Hk. rewrite sim_val_mask_width in Hk by done.
    rewrite bit_at_unknown. destruct (sim_val_mask_bits v k Hv) as (_ & -> & ->); [lia|].
    destruct (Hxz k ltac:(lia)) as [-> ->]. by rewrite andb_false_r.
  - by apply sim_val_mask_width.
  - apply sv_uint_bits_eq; [by apply sim_val_mask_shaped | apply Z.mod_pos_bound; lia|].
    intros k Hk. destruct (sim_val_mask_bits v k Hv Hk) as (-> & _ & _).
    destruct (Z.ltb_spec k (sv_width v)).
    + by rewrite Z.mod_pow2_bits_low, sv_uint_testbit by (done || lia).
    + by rewrite Z.mod_pow2_bits_high by lia.
Qed.

Lemma zero_is_num w : 0 < w <= 256 -> is_num (sim_val_zero w) w 0.
Proof.
  intros Hw. constructor; [by apply sim_val_zero_wf| |done..].
  intros k Hk. by rewrite sim_val_zero_bit_at by lia.
Qed.

(** The value of literal words. *)
Lemma from_words_is_num words w :
  words_ok 4 words -> 0 < w <= 256 ->
  is_num (sim_val_from_words words SIM_VAL_WORDS w) w (words_to_Z words mod 2 ^ w).
Proof.
  intros [Hlen Hws] Hw. destruct words as [|a [|b [|c [|d [|]]]]]; try done.
  change (sim_val_from_words [a; b; c; d] SIM_VAL_WORDS w)
    with (sim_val_mask (mkSimValue [a; b; c; d] zero_words zero_words w)).
  set (v := mkSimValue _ _ _ _).
  assert (shaped v) as Hs by (constructor; [done|by split|apply (words_ok_replicate 4)..]).
  apply (mask_is_num v Hs). intros k Hk. split; apply (sim_val_zero_bits w k Hk).
Qed.
