(* ===== verification/Digits.v ===== *)
(** * Digit strings and the words they fill

    The readers of sized literals (the tests', the IR builder's) share their
    inner loops; this file has these pieces and the numbers they compute. *)

From S2P Require Import Prelude CString SimValue SimBits.

Local Open Scope Z_scope.
Local Open Scope jz_scope.

(** The value of a hexadecimal digit. *)
Definition nibble_of (c : ascii) : option Z :=
  if isdigit c then Some (code c - 48)
  else if in_codes 97 102 c then Some (10 + (code c - 97))
  else if in_codes 65 70 c then Some (10 + (code c - 65))
  else None.

Definition put_nibble (idx nibble : Z) (words : list Z) : list Z :=
  if 0 <=? idx then
    let bit_base := idx * 4 in
    let wi := bit_base / 64 in
    let bi := bit_base mod 64 in
    if wi <? SIM_VAL_WORDS then
      let words := aset words wi (aget 0 words wi .| (nibble .<< bi)) in
      if (60 <? bi) && (wi + 1 <? SIM_VAL_WORDS)
      then aset words (wi + 1) (aget 0 words (wi + 1) .| (nibble .>> (64 - bi)))
      else words
    else words
  else words.

(** The number of characters other than [_]. *)
Fixpoint count_digits (digits : string) : Z :=
  match digits with
  | EmptyString => 0
  | String c digits' =>
      (if Ascii.eqb c "_" then 0 else 1) + count_digits digits'
  end.

(** ** The number a digit string denotes *)

(** [digit] is the digit value of a character, [None] if it is no digit; [_]
    separates. *)
Section Digits.
Context (base : Z) (digit : ascii -> option Z).

Fixpoint digits_ok (s : string) : bool :=
  match s with
  | EmptyString => true
  | String c s' =>
      (Ascii.eqb c "_" || match digit c with Some _ => true | None => false end) && digits_ok s'
  end.

(** The most significant digit comes first. *)
Fixpoint digits_num (s : string) : Z :=
  match s with
  | EmptyString => 0
  | String c s' =>
      (if Ascii.eqb c "_" then 0 else default 0 (digit c) * base ^ count_digits s') + digits_num s'
  end.

Lemma count_digits_nonneg s : 0 <= count_digits s.
Proof. induction s as [|c s IH]; cbn; [done|]. destruct (Ascii.eqb c "_"); lia. Qed.

Lemma digits_num_bounds s :
  0 < base -> (forall c n, digit c = Some n -> 0 <= n < base) ->
  0 <= digits_num s < base ^ count_digits s.
Proof using Type.
  intros Hb Hd. induction s as [|c s IH]; cbn [digits_num count_digits]; [lia|].
  pose proof (count_digits_nonneg s). destruct (Ascii.eqb c "_"); [by rewrite !Z.add_0_l|].
  replace (1 + count_digits s) with (Z.succ (count_digits s)) by lia. rewrite Z.pow_succ_r by lia.
  assert (0 < base ^ count_digits s) by (apply Z.pow_pos_nonneg; lia).
  generalize dependent (base ^ count_digits s). intros P IH HP.
  destruct (digit c) as [n|] eqn:E; cbn [default id]; [|nia]. specialize (Hd c n E).
  assert ((n + 1) * P <= base * P) by (apply Z.mul_le_mono_nonneg_r; lia). nia.
Qed.
End Digits.

Definition binary_digit (c : ascii) : option Z :=
  if Ascii.eqb c "0" then Some 0 else if Ascii.eqb c "1" then Some 1 else None.

Lemma nibble_bounds c n : nibble_of c = Some n -> 0 <= n < 16.
Proof.
  unfold nibble_of, isdigit, in_codes.
  destruct ((48 <=? code c) && (code c <=? 57)) eqn:E1; [intros [= <-]; lia|].
  destruct ((97 <=? code c) && (code c <=? 102)) eqn:E2; [intros [= <-]; lia|].
  destruct ((65 <=? code c) && (code c <=? 70)) eqn:E3; [intros [= <-]; lia|done].
Qed.

Lemma binary_bounds c n : binary_digit c = Some n -> 0 <= n < 2.
Proof.
  unfold binary_digit. destruct (Ascii.eqb c "0"); [intros [= <-]; lia|].
  destruct (Ascii.eqb c "1"); [intros [= <-]; lia|done].
Qed.

(** The value of a decimal digit. *)
Definition decimal_digit (c : ascii) : option Z := if isdigit c then Some (code c - 48) else None.

Lemma decimal_bounds c n : decimal_digit c = Some n -> 0 <= n < 10.
Proof. unfold decimal_digit, isdigit, in_codes. destruct (_ && _) eqn:E; [intros [= <-]; lia|done]. Qed.

(** ** Filling the words *)

(** Bit [k] of a digit [n] above [m] lower bits holding [r]. *)
Lemma testbit_digit n m r k :
  0 <= m -> 0 <= r < 2 ^ m -> 0 <= k ->
  Z.testbit (n * 2 ^ m + r) k = if k <? m then Z.testbit r k else Z.testbit n (k - m).
Proof.
  intros Hm Hr Hk. destruct (Z.ltb_spec k m).
  - rewrite <- (Z.mod_pow2_bits_low (n * 2 ^ m + r) m k) by lia.
    rewrite Z.add_comm, Z.mod_add by lia. by rewrite Z.mod_small.
  - replace k with (k - m + m) at 1 by lia. rewrite <- Z.div_pow2_bits by lia.
    rewrite Z.add_comm, Z.div_add by lia. by rewrite Z.div_small.
Qed.

(** Or-ing a number of [j] bits into the words at a position where it does not
    cross a word boundary. *)
Lemma or_at_spec pos n j words :
  words_ok 4 words -> 0 <= pos < 256 -> 0 <= n < 2 ^ j -> 0 < j -> pos mod 64 + j <= 64 ->
  words_ok 4 (aset words (pos / 64) (aget 0 words (pos / 64) .| (n .<< (pos mod 64)))) /\
  forall k, 0 <= k < 256 ->
    wbit (aset words (pos / 64) (aget 0 words (pos / 64) .| (n .<< (pos mod 64)))) k =
    wbit words k || (pos <=? k) && Z.testbit n (k - pos).
Proof.
  intros Hw Hp Hn Hj Hfit.
  assert (forall i, j <= i -> Z.testbit n i = false) as Hhigh.
  { intros i Hi. destruct (decide (n = 0)) as [->|]; [apply Z.testbit_0_l|].
    apply Z.bits_above_log2; [lia|]. apply Z.log2_lt_pow2; [lia|].
    apply Z.lt_le_trans with (2 ^ j); [lia|]. apply Z.pow_le_mono_r; lia. }
  pose proof (Z.mod_pos_bound pos 64 ltac:(lia)).
  assert (0 <= pos / 64 < 4) by (split; [apply Z.div_pos|apply Z.div_lt_upper_bound]; lia).
  split; [apply words_ok_aset; [done|]; apply is_u64_lor; eauto with u64|].
  intros k Hk. rewrite wbit_aset by (apply Hw || lia).
  pose proof (Z.div_mod k 64 ltac:(lia)). pose proof (Z.mod_pos_bound k 64 ltac:(lia)).
  pose proof (Z.div_mod pos 64 ltac:(lia)).
  destruct (Z.eqb_spec (pos / 64) (k / 64)) as [E|Hne].
  - rewrite Z.lor_spec. unfold wbit. rewrite E. f_equal. rewrite testbit_shl64 by lia.
    destruct (Z.ltb_spec (k mod 64) 64); [|lia]. cbn [andb].
    replace (k mod 64 - pos mod 64) with (k - pos) by lia.
    destruct (Z.leb_spec pos k); [done|]. apply Z.testbit_neg_r. lia.
  - destruct (Z.leb_spec pos k); [|by rewrite orb_false_r].
    rewrite Hhigh; [by rewrite orb_false_r|]. nia.
Qed.

Lemma put_nibble_spec idx n words :
  words_ok 4 words -> 0 <= idx -> 0 <= n < 16 ->
  words_ok 4 (put_nibble idx n words) /\
  forall k, 0 <= k < 256 ->
    wbit (put_nibble idx n words) k =
    wbit words k || (4 * idx <=? k) && Z.testbit n (k - 4 * idx).
Proof.
  intros Hw Hi Hn. unfold put_nibble. cbv zeta. destruct (Z.leb_spec 0 idx); [|lia].
  assert ((idx * 4) mod 64 = 4 * (idx mod 16)) as Em.
  { replace 64 with (16 * 4) by lia. rewrite Z.mul_mod_distr_r by lia. lia. }
  pose proof (Z.mod_pos_bound idx 16 ltac:(lia)) as Hm. change SIM_VAL_WORDS with 4.
  destruct (Z.ltb_spec 60 ((idx * 4) mod 64)); [lia|]. cbn [andb].
  replace (4 * idx) with (idx * 4) by lia.
  destruct (Z.ltb_spec (idx * 4 / 64) 4) as [Hlt|Hge].
  - apply (or_at_spec (idx * 4) n 4); [done|split; [lia|]|done|lia..].
    pose proof (Z.mul_succ_div_gt (idx * 4) 64 ltac:(lia)). lia.
  - split; [done|]. intros k Hk. assert (256 <= idx * 4) by (pose proof (Z.mul_div_le (idx * 4) 64); lia).
    destruct (Z.leb_spec (idx * 4) k); [lia|]. by rewrite orb_false_r.
Qed.

(** What a fill of the words with the number [n] leaves. *)
Record filled (words words' : list Z) (n : Z) : Prop := {
  filled_ok : words_ok 4 words';
  filled_bits k : 0 <= k < 256 -> wbit words' k = wbit words k || Z.testbit n k
}.

Lemma filled_zero words : words_ok 4 words -> filled words words 0.
Proof. intros H. constructor; [done|]. intros k _. by rewrite Z.testbit_0_l, orb_false_r. Qed.

(** A digit above the rest. *)
Lemma filled_digit w0 w1 w2 n m r :
  0 <= m -> 0 <= r < 2 ^ m ->
  (forall k, 0 <= k < 256 -> wbit w1 k = wbit w0 k || (m <=? k) && Z.testbit n (k - m)) ->
  filled w1 w2 r -> filled w0 w2 (n * 2 ^ m + r).
Proof.
  intros Hm Hr H1 [Hok H2]. constructor; [done|]. intros k Hk.
  rewrite H2, H1, testbit_digit by lia.
  destruct (Z.leb_spec m k), (Z.ltb_spec k m); try lia; cbn [andb].
  - enough (Z.testbit r k = false) as -> by by rewrite orb_false_r.
    destruct (decide (r = 0)) as [->|]; [apply Z.testbit_0_l|].
    apply Z.bits_above_log2; [lia|]. apply Z.log2_lt_pow2; [lia|].
    apply Z.lt_le_trans with (2 ^ m); [lia|]. apply Z.pow_le_mono_r; lia.
  - by rewrite orb_false_r.
Qed.

Lemma put_bit_spec idx n words :
  words_ok 4 words -> 0 <= idx < 256 -> 0 <= n < 2 ->
  words_ok 4 (aset words (idx / 64) (aget 0 words (idx / 64) .| (n .<< (idx mod 64)))) /\
  forall k, 0 <= k < 256 ->
    wbit (aset words (idx / 64) (aget 0 words (idx / 64) .| (n .<< (idx mod 64)))) k =
    wbit words k || (idx <=? k) && Z.testbit n (k - idx).
Proof.
  intros Hw Hi Hn. pose proof (Z.mod_pos_bound idx 64 ltac:(lia)).
  apply (or_at_spec idx n 1); done || lia.
Qed.

(** ** The value of the words *)

Lemma from_words_bits words w n :
  words_ok 4 words -> (forall k, 0 <= k < 256 -> wbit words k = Z.testbit n k) ->
  0 <= n -> 0 < w <= 256 ->
  is_num (sim_val_from_words words SIM_VAL_WORDS w) w (n mod 2 ^ w).
Proof.
  intros Hok Hb Hn Hw. replace (n mod 2 ^ w) with (words_to_Z words mod 2 ^ w);
    [by apply from_words_is_num|].
  apply Z.bits_inj'. intros k Hk. destruct (Z.lt_ge_cases k w).
  - rewrite !Z.mod_pow2_bits_low by lia.
    rewrite <- Hb by lia. by apply (testbit_words_to_Z 4).
  - by rewrite !Z.mod_pow2_bits_high by lia.
Qed.

Lemma zero_words_wbit k : 0 <= k -> wbit zero_words k = false.
Proof. intros Hk. apply (sim_val_zero_bits 1 k Hk). Qed.

(** ** Decimal prefixes *)

Fixpoint all_digits (s : string) : bool :=
  match s with
  | EmptyString => true
  | String c s' => isdigit c && all_digits s'
  end.

Lemma digits_value_num s v :
  all_digits s = true ->
  digits_ok decimal_digit s = true /\
  digits_value s v = v * 10 ^ count_digits s + digits_num 10 decimal_digit s.
Proof.
  revert v. induction s as [|c s IH]; intros v Hs; cbn [all_digits digits_ok digits_value count_digits digits_num] in *;
    [split; [done|change (10 ^ 0) with 1; lia]|].
  apply andb_true_iff in Hs as [Hc Hs]. rewrite Hc. destruct (IH (10 * v + (code c - 48)) Hs) as [Hok ->].
  assert (Ascii.eqb c "_" = false) as -> by (apply Ascii.eqb_neq; intros ->; done).
  assert (decimal_digit c = Some (code c - 48)) as -> by (unfold decimal_digit; by rewrite Hc).
  split; [done|]. change (default 0 (Some (code c - 48))) with (code c - 48).
  pose proof (count_digits_nonneg s).
  replace (1 + count_digits s) with (Z.succ (count_digits s)) by lia. rewrite Z.pow_succ_r by lia.
  ring.
Qed.

Lemma digits_value_app s c rest v :
  all_digits s = true -> isdigit c = false ->
  digits_value (s ++ String c rest) v = digits_value s v.
Proof.
  intros Hs Hc. revert v. induction s as [|d s IH]; intros v; rewrite ?append_cons, ?append_empty; cbn [all_digits digits_value] in *; [by rewrite Hc|].
  apply andb_true_iff in Hs as [-> Hs]. by apply IH.
Qed.

Lemma digit_plain c : isdigit c = true ->
  isspace c = false /\ Ascii.eqb c "-" = false /\ Ascii.eqb c "+" = false /\ Ascii.eqb c "'" = false.
Proof.
  unfold isdigit, isspace, in_codes. intros H. split; [lia|].
  split_and!; apply Ascii.eqb_neq; intros ->; cbn in H; done.
Qed.

Lemma strtol10_width s c rest :
  all_digits s = true -> isdigit c = false -> 0 < digits_value s 0 <= LLONG_MAX ->
  strtol10 (s ++ String c rest) = digits_value s 0.
Proof.
  intros Hs Hc Hv. destruct s as [|d s]; [cbn in Hv; lia|].
  pose proof Hs as Hs0. cbn [all_digits] in Hs. apply andb_true_iff in Hs as [Hd Hs].
  destruct (digit_plain d Hd) as (H1 & H2 & H3 & _).
  unfold strtol10. rewrite append_cons. cbn [drop_while]. rewrite H1. cbn [sign_prefix]. rewrite H2, H3.
  change (String d (s ++ String c rest)) with (String d s ++ String c rest)%string.
  rewrite digits_value_app by done. unfold LLONG_MAX in *. lia.
Qed.

Lemma split_at_width s rest :
  all_digits s = true -> split_at "'" (s ++ String "'" rest) = Some (s, rest).
Proof.
  unfold split_at. induction s as [|d s IH]; intros Hs; [done|].
  cbn [all_digits] in Hs. apply andb_true_iff in Hs as [Hd Hs]. specialize (IH Hs).
  destruct (digit_plain d Hd) as (_ & _ & _ & H4). rewrite append_cons. cbn [after before].
  rewrite Ascii.eqb_sym, H4. destruct (after (Ascii.eqb "'") (s ++ String "'" rest)); [|done].
  cbn in *. by injection IH as -> ->.
Qed.
