(* ===== verification/SimArith.v ===== *)
(** * Arithmetic, comparison and shifts on known values

    Every operation of [sim_value.c] that works on numbers, shown to compute
    the corresponding operation on [Z] modulo [2^width] when no input bit is
    [x] or [z], and an all-[x] value otherwise: first sums, comparison and
    shifts, then multiplication and division. *)

From S2P Require Import Prelude SimValue SimBits.


Local Open Scope Z_scope.
Local Open Scope jz_scope.

(** ** Word sums *)

(** The number denoted by the first [n] words of [f]. *)
Fixpoint psum (f : Z -> Z) (n : nat) : Z :=
  match n with
  | O => 0
  | S m => psum f m + f (Z.of_nat m) * 2 ^ (64 * Z.of_nat m)
  end.

Lemma psum_ext f g n :
  (forall i, 0 <= i < Z.of_nat n -> f i = g i) -> psum f n = psum g n.
Proof.
  induction n as [|n IH]; intros H; simpl; [done|].
  rewrite IH by (intros; apply H; lia). by rewrite (H (Z.of_nat n)) by lia.
Qed.

Lemma psum_zero_tail f n m :
  (n <= m)%nat -> (forall i, Z.of_nat n <= i < Z.of_nat m -> f i = 0) ->
  psum f m = psum f n.
Proof.
  intros Hnm H. induction m as [|m IH]; [by replace n with O by lia|].
  destruct (decide (n = S m)) as [->|]; [done|]. simpl.
  rewrite IH by (lia || (intros; apply H; lia)). rewrite (H (Z.of_nat m)) by lia. lia.
Qed.

Lemma psum_shift f n : psum f (S n) = f 0 + 2 ^ 64 * psum (fun i => f (i + 1)) n.
Proof.
  induction n as [|n IH]; [cbn [psum]; change (Z.of_nat 0) with 0; lia|].
  change (psum f (S (S n))) with
    (psum f (S n) + f (Z.of_nat (S n)) * 2 ^ (64 * Z.of_nat (S n))).
  rewrite IH. simpl psum.
  replace (64 * Z.of_nat (S n)) with (64 + 64 * Z.of_nat n) by lia.
  rewrite Z.pow_add_r by lia. replace (Z.of_nat (S n)) with (Z.of_nat n + 1) by lia. ring.
Qed.

Lemma words_to_Z_psum l : words_to_Z l = psum (aget 0 l) (length l).
Proof.
  induction l as [|w l IH]; [done|].
  change (length (w :: l)) with (S (length l)). rewrite psum_shift. simpl.
  rewrite IH. do 2 f_equal. apply psum_ext. intros i Hi.
  unfold aget. destruct (Z.ltb_spec i 0), (Z.ltb_spec (i + 1) 0); try lia.
  replace (Z.to_nat (i + 1)) with (S (Z.to_nat i)) by lia. done.
Qed.

Lemma sv_uint_psum v : shaped v -> sv_uint v = psum (vget v) 4.
Proof. intros [_ [Hl _] _ _]. unfold sv_uint. by rewrite words_to_Z_psum, Hl. Qed.

(** The masked words the loops read are the words of the operand. *)
Lemma masked_word v w i :
  wf v -> sv_width v <= w -> 0 <= i -> vget v i .& word_mask w i = vget v i.
Proof.
  intros Hv Hw Hi. pose proof (wf_width v Hv).
  apply Z.bits_inj'. intros j Hj. rewrite Z.land_spec.
  destruct (Z.lt_ge_cases j 64).
  - rewrite testbit_word_mask by lia. destruct (Z.ltb_spec (64 * i + j) w); [by rewrite andb_true_r|].
    destruct (wf_high v Hv (64 * i + j)) as (E & _); [lia|].
    unfold vbit, wbit in E. rewrite div_word, mod_word in E by lia.
    unfold vget. by rewrite E.
  - pose proof (shaped_vget v i (wf_shaped v Hv)) as [_ U]%is_u64_bits. by rewrite U by lia.
Qed.

Lemma high_word v w i :
  wf v -> sv_width v <= w -> num_words w <= i -> vget v i = 0.
Proof.
  intros Hv Hw Hi. pose proof (num_words_ge1 w).
  rewrite <- (masked_word v w i) by (done || lia).
  rewrite word_mask_cases. destruct (Z.ltb_spec i 0), (Z.leb_spec (num_words w) i); try lia.
  apply Z.land_0_r.
Qed.

Lemma sv_uint_words v w :
  wf v -> sv_width v <= w <= 256 ->
  sv_uint v = psum (fun i => vget v i .& word_mask w i) (nwords w).
Proof.
  intros Hv Hw. rewrite sv_uint_psum by auto with jz.
  pose proof (nwords_le4 w ltac:(lia)).
  rewrite (psum_zero_tail (vget v) (nwords w) 4) by
    (lia || (intros i; rewrite nwords_num; intros; apply (high_word v w); done || lia)).
  apply psum_ext. intros. symmetry. apply masked_word; done || lia.
Qed.

Lemma max_width_bounds a b :
  wf a -> wf b ->
  sv_width a <= max_width a b <= 256 /\ sv_width b <= max_width a b /\ 0 < max_width a b.
Proof.
  intros Ha Hb. pose proof (wf_width a Ha). pose proof (wf_width b Hb).
  unfold max_width. destruct (Z.ltb_spec (sv_width b) (sv_width a)); lia.
Qed.

Lemma max_width_max a b : max_width a b = Z.max (sv_width a) (sv_width b).
Proof. unfold max_width. destruct (Z.ltb_spec (sv_width b) (sv_width a)); lia. Qed.

(** The [x]/[z] check of the arithmetic operations. *)
Lemma known_has_xz v : wf v -> known v -> sim_val_has_xz v = false.
Proof. intros Hv. apply sim_val_has_xz_false. apply Hv. Qed.

Lemma arith_known a b rw :
  wf a -> wf b -> known a -> known b -> arith_xz_check a b rw = None.
Proof.
  intros. unfold arith_xz_check. by rewrite !known_has_xz by done.
Qed.

(** ** Carry and borrow chains *)

Lemma add_carry_step av bv c :
  is_u64 av -> is_u64 bv -> 0 <= c <= 1 ->
  let sum := add64 av bv in
  let sum2 := add64 sum c in
  let co := bool_to_int ((sum <? av) || (sum2 <? sum)) in
  0 <= co <= 1 /\ sum2 + co * 2 ^ 64 = av + bv + c.
Proof.
  unfold is_u64, add64, u64. intros Ha Hb Hc. cbv zeta.
  assert ((av + bv) mod 2 ^ 64 = if av + bv <? 2 ^ 64 then av + bv else av + bv - 2 ^ 64) as ->.
  { destruct (Z.ltb_spec (av + bv) (2 ^ 64)); [apply Z.mod_small; lia|].
    symmetry. apply Z.mod_unique with 1; lia. }
  set (s := if av + bv <? 2 ^ 64 then _ else _).
  assert ((s + c) mod 2 ^ 64 = if s + c <? 2 ^ 64 then s + c else s + c - 2 ^ 64) as ->.
  { subst s. destruct (Z.ltb_spec (av + bv) (2 ^ 64));
    match goal with |- _ = if ?x <? _ then _ else _ =>
      destruct (Z.ltb_spec x (2 ^ 64)); [apply Z.mod_small; lia|
      symmetry; apply Z.mod_unique with 1; lia] end. }
  subst s. destruct (Z.ltb_spec (av + bv) (2 ^ 64));
    match goal with |- context [if ?x <? 2 ^ 64 then _ else _] =>
      destruct (Z.ltb_spec x (2 ^ 64)) end;
    repeat match goal with |- context [?x <? ?y] => destruct (Z.ltb_spec x y) end;
    simpl; lia.
Qed.

Lemma sub_borrow_step av bv c :
  is_u64 av -> is_u64 bv -> 0 <= c <= 1 ->
  let st := add64 bv c in
  let bo := bool_to_int ((st <? bv) || (av <? st)) in
  0 <= bo <= 1 /\ sub64 av st - bo * 2 ^ 64 = av - bv - c.
Proof.
  unfold is_u64, add64, sub64, u64. intros Ha Hb Hc. cbv zeta.
  assert ((bv + c) mod 2 ^ 64 = if bv + c <? 2 ^ 64 then bv + c else 0) as ->.
  { destruct (Z.ltb_spec (bv + c) (2 ^ 64)); [apply Z.mod_small; lia|].
    symmetry. apply Z.mod_unique with 1; lia. }
  set (s := if bv + c <? 2 ^ 64 then _ else _).
  assert ((av - s) mod 2 ^ 64 = if av <? s then av - s + 2 ^ 64 else av - s) as ->.
  { subst s. destruct (Z.ltb_spec (bv + c) (2 ^ 64));
    match goal with |- _ = if ?x <? ?y then _ else _ =>
      destruct (Z.ltb_spec x y); [symmetry; apply Z.mod_unique with (-1); lia|
      apply Z.mod_small; lia] end. }
  subst s. destruct (Z.ltb_spec (bv + c) (2 ^ 64));
    repeat match goal with |- context [?x <? ?y] => destruct (Z.ltb_spec x y) end;
    simpl; lia.
Qed.

(** A result under construction: [k] words stored, masks clear. *)
Definition numeric (r : SimValue) (w : Z) (k : nat) : Prop :=
  denotes r w (upto k (vget r)) (fun _ => 0) (fun _ => 0).

Lemma numeric_zero w : numeric (sim_val_zero w) w 0.
Proof.
  eapply denotes_ext; [apply denotes_zero|]. intros i Hi. unfold upto.
  by destruct (Z.ltb_spec i (Z.of_nat 0)); [lia|].
Qed.

Lemma vget_set_val r w f1 f2 f3 i x j :
  denotes r w f1 f2 f3 -> 0 <= i < 4 ->
  vget (set_val i x r) j = if i =? j then x else vget r j.
Proof.
  intros [_ [Hl _] _ _ _] Hi. unfold vget, set_val. simpl. by apply get_aset_4.
Qed.

Lemma numeric_step r w k x :
  numeric r w k -> (k < 4)%nat -> is_u64 x ->
  numeric (set_val (Z.of_nat k) x r) w (S k) /\
  psum (vget (set_val (Z.of_nat k) x r)) (S k)
    = psum (vget r) k + x * 2 ^ (64 * Z.of_nat k).
Proof.
  intros Hr Hk Hx.
  assert (forall j, vget (set_val (Z.of_nat k) x r) j =
    if Z.of_nat k =? j then x else vget r j) as Hget.
  { intros j. eapply vget_set_val; [exact Hr|lia]. }
  split.
  - eapply denotes_ext; [apply denotes_set_val; [exact Hr|lia|done]|].
    intros i Hi; cbv beta. unfold upto. rewrite Hget.
    destruct (Z.eqb_spec (Z.of_nat k) i), (Z.ltb_spec i (Z.of_nat k)),
      (Z.ltb_spec i (Z.of_nat (S k))); done || lia.
  - cbn [psum]. rewrite Hget, Z.eqb_refl. f_equal. apply psum_ext.
    intros i Hi. rewrite Hget. destruct (Z.eqb_spec (Z.of_nat k) i); [lia | done].
Qed.

Lemma numeric_uint r w k :
  numeric r w k -> (k <= 4)%nat -> 0 < w <= 256 -> sv_uint r = psum (vget r) k.
Proof.
  intros Hr Hk Hw. pose proof (denotes_shaped _ _ _ _ _ Hr Hw) as Hs.
  rewrite sv_uint_psum by done. apply psum_zero_tail; [done|]. intros i Hi.
  destruct (den_get _ _ _ _ _ Hr i ltac:(lia)) as (E & _). unfold upto in E.
  rewrite E. by destruct (Z.ltb_spec i (Z.of_nat k)); [lia|].
Qed.

Lemma numeric_mask r w k :
  numeric r w k -> (k <= 4)%nat -> 0 < w <= 256 ->
  is_num (sim_val_mask r) w (psum (vget r) k mod 2 ^ w).
Proof.
  intros Hr Hk Hw. pose proof (denotes_shaped _ _ _ _ _ Hr Hw) as Hs.
  assert (sv_width r = w) as <- by apply Hr.
  replace (psum (vget r) k) with (sv_uint r) by (by apply numeric_uint with (w := sv_width r)).
  apply mask_is_num; [done|]. intros j Hj.
  rewrite (denotes_xbit Hr), (denotes_zbit Hr), Z.testbit_0_l by done.
  by destruct (j <? 256).
Qed.

(** When the words already fit the width no masking is needed. *)
Lemma numeric_num r w k :
  numeric r w k -> (k <= 4)%nat -> 0 < w <= 256 -> psum (vget r) k < 2 ^ w ->
  is_num r w (psum (vget r) k).
Proof.
  intros Hr Hk Hw Hlt. pose proof (denotes_shaped _ _ _ _ _ Hr Hw) as Hs.
  pose proof (numeric_uint _ _ _ Hr Hk Hw) as Hu.
  assert (sv_width r = w) as Hwr by apply Hr.
  assert (forall j, 0 <= j -> xbit r j = false /\ zbit r j = false) as Hxz.
  { intros j Hj. rewrite (denotes_xbit Hr), (denotes_zbit Hr), Z.testbit_0_l by done.
    by destruct (j <? 256). }
  pose proof (words_to_Z_nonneg 4 _ (sh_val _ Hs)). fold (sv_uint r) in *.
  constructor; [|..]; try done.
  - destruct Hs. constructor; try done.
    + intros j Hj. destruct (Hxz j) as [-> ->]; [lia|]. split; [|done].
      rewrite <- sv_uint_testbit by (lia || by constructor).
      apply Z.bounded_iff_bits_nonneg with w; lia.
    + intros j Hj. by destruct (Hxz j Hj) as [-> ->].
  - intros j Hj. rewrite bit_at_unknown. by destruct (Hxz j ltac:(lia)) as [-> ->].
Qed.

Lemma set0_is_num w x :
  0 < w <= 256 -> is_u64 x -> x < 2 ^ w -> is_num (set_val 0 x (sim_val_zero w)) w x.
Proof.
  intros Hw Hx Hlt. destruct (numeric_step (sim_val_zero w) w 0 x) as [N1 N2];
    [apply numeric_zero|lia|done|].
  change (Z.of_nat 0) with 0 in *.
  assert (psum (vget (set_val 0 x (sim_val_zero w))) 1 = x) as E
    by (rewrite N2; change (2 ^ (64 * 0)) with 1; cbn [psum]; lia).
  pose proof (numeric_num _ _ _ N1 ltac:(lia) Hw) as H. rewrite E in H. by apply H.
Qed.

Lemma from_uint_num x w :
  0 < w <= 256 -> is_u64 x -> is_num (sim_val_from_uint x w) w (x mod 2 ^ w).
Proof.
  intros Hw Hx. unfold sim_val_from_uint.
  destruct (Z.ltb_spec 0 w); [|lia]. simpl.
  assert (0 < 2 ^ w) by (apply Z.pow_pos_nonneg; lia).
  destruct (Z.leb_spec w 64).
  - assert ((if w =? 64 then UINT64_MAX else sub64 (1 .<< w) 1) = Z.ones w) as ->.
    { pose proof (top_word_mask_ones w ltac:(lia)) as E. unfold top_word_mask in E.
      destruct (Z.leb_spec w 0); [lia|].
      rewrite (Z.mod_small (w - 1) 64) in E by lia.
      replace (w - 1 + 1) with w in E by lia. exact E. }
    rewrite Z.land_ones by lia. pose proof (Z.mod_pos_bound x (2 ^ w) ltac:(lia)).
    apply set0_is_num; [lia| |lia].
    split; [lia|]. apply Z.le_lt_trans with x; [|apply Hx].
    apply Z.mod_le; [apply Hx|lia].
  - assert (2 ^ 64 <= 2 ^ w) by (apply Z.pow_le_mono_r; lia). destruct Hx.
    rewrite Z.mod_small by lia. apply set0_is_num; [lia|done|lia].
Qed.

(** Words past the width vanish modulo [2^w]. *)
Lemma mod_words w x c :
  0 < w -> (x - c * 2 ^ (64 * Z.of_nat (nwords w))) mod 2 ^ w = x mod 2 ^ w.
Proof.
  intros Hw. rewrite nwords_num. pose proof (num_words_bounds w Hw).
  replace (64 * num_words w) with ((64 * num_words w - w) + w) by lia.
  rewrite Z.pow_add_r by lia.
  replace (x - c * (2 ^ (64 * num_words w - w) * 2 ^ w))
    with (x + (- c * 2 ^ (64 * num_words w - w)) * 2 ^ w) by ring.
  apply Z.mod_add. lia.
Qed.

Lemma add_known a b :
  wf a -> wf b -> known a -> known b ->
  is_num (sim_val_add a b) (max_width a b)
    ((sv_uint a + sv_uint b) mod 2 ^ max_width a b).
Proof.
  intros Ha Hb Ka Kb. pose proof (max_width_bounds a b Ha Hb) as Hw.
  unfold sim_val_add. set (rw := max_width a b) in *.
  rewrite arith_known by done.
  set (av := fun i => vget a i .& word_mask rw i).
  set (bv := fun i => vget b i .& word_mask rw i).
  match goal with |- context [for_up (nwords rw) ?f ?s] =>
    assert (let '(r, c) := for_up (nwords rw) f s in
      numeric r rw (nwords rw) /\ 0 <= c <= 1 /\
      psum (vget r) (nwords rw) + c * 2 ^ (64 * Z.of_nat (nwords rw))
        = psum av (nwords rw) + psum bv (nwords rw)) as HL end.
  { apply (for_up_ind (fun k '(r, c) => numeric r rw k /\ 0 <= c <= 1 /\
      psum (vget r) k + c * 2 ^ (64 * Z.of_nat k) = psum av k + psum bv k)).
    { split; [apply numeric_zero|]. simpl. lia. }
    intros k [r c] Hk (Hr & Hc & HS). pose proof (nwords_le4 rw ltac:(lia)).
    destruct (add_carry_step (av (Z.of_nat k)) (bv (Z.of_nat k)) c) as [C1 C2];
      [apply is_u64_land_r; auto with u64 ..|done|].
    fold (av (Z.of_nat k)) (bv (Z.of_nat k)).
    edestruct (numeric_step r rw k) as [N1 N2]; [done|lia| |split; [exact N1|]];
      [apply is_u64_add64|]. split; [exact C1|]. rewrite N2. cbn [psum].
    replace (64 * Z.of_nat (S k)) with (64 * Z.of_nat k + 64) by lia.
    rewrite Z.pow_add_r by lia. nia. }
  destruct (for_up _ _ _) as [r c]. destruct HL as (Hr & Hc & HS). simpl fst.
  rewrite (sv_uint_words a rw), (sv_uint_words b rw) by (done || lia).
  fold av bv. rewrite <- HS. rewrite <- (mod_words rw _ c) by lia.
  rewrite Z.add_simpl_r.
  apply numeric_mask; [done|apply nwords_le4; lia|lia].
Qed.

Lemma sub_known a b :
  wf a -> wf b -> known a -> known b ->
  is_num (sim_val_sub a b) (max_width a b)
    ((sv_uint a - sv_uint b) mod 2 ^ max_width a b).
Proof.
  intros Ha Hb Ka Kb. pose proof (max_width_bounds a b Ha Hb) as Hw.
  unfold sim_val_sub. set (rw := max_width a b) in *.
  rewrite arith_known by done.
  set (av := fun i => vget a i .& word_mask rw i).
  set (bv := fun i => vget b i .& word_mask rw i).
  match goal with |- context [for_up (nwords rw) ?f ?s] =>
    assert (let '(r, c) := for_up (nwords rw) f s in
      numeric r rw (nwords rw) /\ 0 <= c <= 1 /\
      psum (vget r) (nwords rw) - c * 2 ^ (64 * Z.of_nat (nwords rw))
        = psum av (nwords rw) - psum bv (nwords rw)) as HL end.
  { apply (for_up_ind (fun k '(r, c) => numeric r rw k /\ 0 <= c <= 1 /\
      psum (vget r) k - c * 2 ^ (64 * Z.of_nat k) = psum av k - psum bv k)).
    { split; [apply numeric_zero|]. simpl. lia. }
    intros k [r c] Hk (Hr & Hc & HS). pose proof (nwords_le4 rw ltac:(lia)).
    destruct (sub_borrow_step (av (Z.of_nat k)) (bv (Z.of_nat k)) c) as [C1 C2];
      [apply is_u64_land_r; auto with u64 ..|done|].
    fold (av (Z.of_nat k)) (bv (Z.of_nat k)).
    edestruct (numeric_step r rw k) as [N1 N2]; [done|lia| |split; [exact N1|]];
      [apply is_u64_sub64|]. split; [exact C1|]. rewrite N2. cbn [psum].
    replace (64 * Z.of_nat (S k)) with (64 * Z.of_nat k + 64) by lia.
    rewrite Z.pow_add_r by lia. nia. }
  destruct (for_up _ _ _) as [r c]. destruct HL as (Hr & Hc & HS). simpl fst.
  rewrite (sv_uint_words a rw), (sv_uint_words b rw) by (done || lia).
  fold av bv. rewrite <- HS. rewrite <- (mod_words rw _ (- c)) by lia.
  match goal with |- is_num _ _ (?x mod _) =>
    replace x with (psum (vget r) (nwords rw)) by ring end.
  apply numeric_mask; [done|apply nwords_le4; lia|lia].
Qed.

(** ** Comparison *)

Definition cmp_int (c : comparison) : Z :=
  match c with Lt => -1 | Eq => 0 | Gt => 1 end.

Lemma psum_bounds f n :
  (forall i, is_u64 (f i)) -> 0 <= psum f n < 2 ^ (64 * Z.of_nat n).
Proof.
  intros Hf. induction n as [|n IH]; [simpl; lia|]. cbn [psum].
  replace (64 * Z.of_nat (S n)) with (64 * Z.of_nat n + 64) by lia.
  rewrite Z.pow_add_r by lia. pose proof (Hf (Z.of_nat n)) as Hn.
  unfold is_u64 in Hn. nia.
Qed.

Lemma psum_zero f n i :
  (forall i, is_u64 (f i)) -> psum f n = 0 -> 0 <= i < Z.of_nat n -> f i = 0.
Proof.
  intros Hf. induction n as [|n IH]; [lia|]. cbn [psum]. intros Hs Hi.
  pose proof (psum_bounds f n Hf). pose proof (Hf (Z.of_nat n)) as [Hn _].
  assert (0 < 2 ^ (64 * Z.of_nat n)) by (apply Z.pow_pos_nonneg; lia).
  destruct (decide (i = Z.of_nat n)) as [->|]; [nia|]. apply IH; [nia|lia].
Qed.

Lemma word_compare f g n :
  (forall i, is_u64 (f i)) -> (forall i, is_u64 (g i)) ->
  match ret_down n (fun i => if f i <? g i then Some (-1)
                             else if g i <? f i then Some 1 else None)
  with Some r => r | None => 0 end = cmp_int (psum f n ?= psum g n).
Proof.
  intros Hf Hg. induction n as [|n IH]; [done|]. cbn [ret_down psum].
  pose proof (psum_bounds f n Hf). pose proof (psum_bounds g n Hg).
  assert (0 < 2 ^ (64 * Z.of_nat n)) by (apply Z.pow_pos_nonneg; lia).
  destruct (Z.ltb_spec (f (Z.of_nat n)) (g (Z.of_nat n))).
  { rewrite (proj2 (Z.compare_lt_iff _ _)); [done|nia]. }
  destruct (Z.ltb_spec (g (Z.of_nat n)) (f (Z.of_nat n))).
  { rewrite (proj2 (Z.compare_gt_iff _ _)); [done|nia]. }
  rewrite IH. replace (f (Z.of_nat n)) with (g (Z.of_nat n)) by lia. f_equal.
  destruct (Z.compare_spec (psum f n) (psum g n)) as [E|E|E]; symmetry.
  - apply Z.compare_eq_iff. lia.
  - apply Z.compare_lt_iff. lia.
  - apply Z.compare_gt_iff. lia.
Qed.

Lemma sim_val_ucmp_spec a b w :
  wf a -> wf b -> sv_width a <= w <= 256 -> sv_width b <= w ->
  sim_val_ucmp a b w = cmp_int (sv_uint a ?= sv_uint b).
Proof.
  intros Ha Hb Hwa Hwb. unfold sim_val_ucmp.
  rewrite (sv_uint_words a w), (sv_uint_words b w) by (done || lia).
  apply word_compare; intros i; apply is_u64_land_r; auto with u64.
Qed.

Lemma cmp_result_num b : is_num (cmp_result b) 1 (bool_to_int b).
Proof.
  assert (shaped (cmp_result b)) as Hs.
  { constructor; [done|..]; try apply words_ok_replicate.
    simpl. apply words_ok_aset; [apply (words_ok_replicate 4)|].
    destruct b; unfold is_u64; simpl; lia. }
  assert (forall k, 0 <= k -> xbit (cmp_result b) k = false /\ zbit (cmp_result b) k = false)
    as Hxz by (intros k Hk; apply (sim_val_zero_bits 1 k Hk)).
  assert (sv_uint (cmp_result b) = bool_to_int b) as Hu by (by destruct b).
  assert (cmp_result b = sim_val_mask (cmp_result b)) as -> by (by destruct b).
  pose proof (mask_is_num _ Hs Hxz) as H. rewrite Hu in H.
  change (sv_width (cmp_result b)) with 1 in H.
  rewrite Z.mod_small in H by (destruct b; simpl; lia). exact H.
Qed.

Lemma cmp_x_wf : wf cmp_x.
Proof. apply sim_val_all_x_wf. lia. Qed.
Lemma cmp_result_wf b : wf (cmp_result b).
Proof. by destruct (cmp_result_num b). Qed.
#[export] Hint Resolve cmp_x_wf cmp_result_wf : jz.

(** The equality scan of [sim_val_eq] and [sim_val_neq]. *)
Lemma scan_eq_uint a b :
  wf a -> wf b ->
  (forall i, 0 <= i < num_words (max_width a b) ->
     (vget a i .& word_mask (max_width a b) i =?
      vget b i .& word_mask (max_width a b) i) = true) <->
  sv_uint a = sv_uint b.
Proof.
  intros Ha Hb. pose proof (max_width_bounds a b Ha Hb) as Hw.
  rewrite scan_eq by lia. split.
  - intros H. apply Z.bits_inj'. intros k Hk.
    rewrite !sv_uint_testbit by auto with jz.
    destruct (Z.lt_ge_cases k (max_width a b)) as [Hlt|Hge].
    + apply H. lia.
    + destruct (wf_high a Ha k) as (-> & _); [lia|].
      destruct (wf_high b Hb k) as (-> & _); [lia|]. done.
  - intros H k Hk. change (vbit a k = vbit b k).
    rewrite <- !sv_uint_testbit by (auto with jz || lia). by rewrite H.
Qed.

Lemma eq_known a b :
  wf a -> wf b -> known a -> known b ->
  sim_val_eq a b = cmp_result (sv_uint a =? sv_uint b).
Proof.
  intros Ha Hb Ka Kb. unfold sim_val_eq. rewrite !known_has_xz by done.
  cbv beta zeta. simpl orb. pose proof (scan_eq_uint a b Ha Hb) as HS.
  destruct (ret_up _ _) as [r|] eqn:E; symmetry.
  - destruct (ret_up_Some _ _ _ E) as (i & Hi & Hr & _). rewrite nwords_num in Hi.
    destruct (_ =? _) eqn:Ei in Hr; simpl in Hr; [done|]. injection Hr as <-.
    f_equal. apply Z.eqb_neq. intros Heq. by rewrite (proj2 HS Heq i Hi) in Ei.
  - rewrite ret_up_None, nwords_num in E. f_equal. apply Z.eqb_eq, HS.
    intros i Hi. specialize (E i Hi). by destruct (_ =? _) in E |- *.
Qed.

Lemma neq_known a b :
  wf a -> wf b -> known a -> known b ->
  sim_val_neq a b = cmp_result (negb (sv_uint a =? sv_uint b)).
Proof.
  intros Ha Hb Ka Kb. unfold sim_val_neq. rewrite !known_has_xz by done.
  cbv beta zeta. simpl orb. pose proof (scan_eq_uint a b Ha Hb) as HS.
  destruct (ret_up _ _) as [r|] eqn:E; symmetry.
  - destruct (ret_up_Some _ _ _ E) as (i & Hi & Hr & _). rewrite nwords_num in Hi.
    destruct (_ =? _) eqn:Ei in Hr; simpl in Hr; [done|]. injection Hr as <-.
    f_equal. apply negb_true_iff, Z.eqb_neq. intros Heq.
    by rewrite (proj2 HS Heq i Hi) in Ei.
  - rewrite ret_up_None, nwords_num in E. f_equal. apply negb_false_iff, Z.eqb_eq, HS.
    intros i Hi. specialize (E i Hi). by destruct (_ =? _) in E |- *.
Qed.

Lemma lt_known a b :
  wf a -> wf b -> known a -> known b ->
  sim_val_lt a b = cmp_result (sv_uint a <? sv_uint b).
Proof.
  intros Ha Hb Ka Kb. pose proof (max_width_bounds a b Ha Hb) as Hw.
  unfold sim_val_lt. rewrite !known_has_xz by done. simpl orb. cbv beta zeta.
  change (sim_val_ucmp _ _ _) with (sim_val_ucmp a b (max_width a b)).
  rewrite sim_val_ucmp_spec by (done || lia). f_equal. unfold Z.ltb.
  by destruct (sv_uint a ?= sv_uint b).
Qed.

Lemma lte_known a b :
  wf a -> wf b -> known a -> known b ->
  sim_val_lte a b = cmp_result (sv_uint a <=? sv_uint b).
Proof.
  intros Ha Hb Ka Kb. pose proof (max_width_bounds a b Ha Hb) as Hw.
  unfold sim_val_lte. rewrite !known_has_xz by done. simpl orb. cbv beta zeta.
  change (sim_val_ucmp _ _ _) with (sim_val_ucmp a b (max_width a b)).
  rewrite sim_val_ucmp_spec by (done || lia). f_equal. unfold Z.leb.
  by destruct (sv_uint a ?= sv_uint b).
Qed.

(** The six comparisons at once. *)
Lemma compare_known a b :
  wf a -> wf b -> known a -> known b ->
  sim_val_eq a b = cmp_result (sv_uint a =? sv_uint b) /\
  sim_val_neq a b = cmp_result (negb (sv_uint a =? sv_uint b)) /\
  sim_val_lt a b = cmp_result (sv_uint a <? sv_uint b) /\
  sim_val_gt a b = cmp_result (sv_uint b <? sv_uint a) /\
  sim_val_lte a b = cmp_result (sv_uint a <=? sv_uint b) /\
  sim_val_gte a b = cmp_result (sv_uint b <=? sv_uint a).
Proof.
  intros. split_and!; [by apply eq_known | by apply neq_known | by apply lt_known
    | by apply lt_known | by apply lte_known | by apply lte_known].
Qed.

(** ** Shifts *)

(** The shift amount read from [b], or [None] when it does not fit a word. *)
Lemma sim_val_to_small_uint_spec b :
  wf b -> known b ->
  sim_val_to_small_uint b =
  if sv_uint b <? 2 ^ 64 then Some (sv_uint b) else None.
Proof.
  intros Hb Kb. unfold sim_val_to_small_uint. rewrite known_has_xz by done.
  pose proof (wf_width b Hb). pose proof (num_words_ge1 (sv_width b)).
  pose proof (shaped_vget b 0 (wf_shaped b Hb)) as [H0a H0b].
  assert (sv_uint b = vget b 0 + 2 ^ 64 * psum (fun i => vget b (i + 1)) 3) as Hu.
  { rewrite sv_uint_psum by auto with jz. apply psum_shift. }
  pose proof (psum_bounds (fun i => vget b (i + 1)) 3
    (fun i => shaped_vget b (i + 1) (wf_shaped b Hb))) as Hp.
  destruct (ret_up _ _) as [[]|] eqn:E.
  - destruct (ret_up_Some _ _ _ E) as (i & Hi & Hr & _).
    rewrite Nat2Z.inj_sub, nwords_num in Hi by (pose proof (nwords_num (sv_width b)); lia).
    destruct (Z.eqb_spec (vget b (i + 1)) 0) as [|Hne]; [done|].
    destruct (Z.ltb_spec (sv_uint b) (2 ^ 64)) as [Hlt|]; [|done]. exfalso.
    assert (psum (fun i => vget b (i + 1)) 3 = 0) as Hz by nia.
    pose proof (num_words_le4 (sv_width b) ltac:(lia)).
    apply Hne, (psum_zero (fun i => vget b (i + 1)) 3); [|done|lia].
    intros k. apply shaped_vget. auto with jz.
  - rewrite ret_up_None in E.
    rewrite (psum_zero_tail _ 0) in Hu.
    + cbn [psum] in Hu. destruct (Z.ltb_spec (sv_uint b) (2 ^ 64)); [f_equal; lia | lia].
    + lia.
    + intros i Hi. destruct (Z.lt_ge_cases (i + 1) (num_words (sv_width b))).
      * specialize (E i). rewrite Nat2Z.inj_sub, nwords_num in E
          by (pose proof (nwords_num (sv_width b)); lia).
        specialize (E ltac:(lia)). by destruct (Z.eqb_spec (vget b (i + 1)) 0).
      * apply (high_word b (sv_width b)); [done|lia|lia].
Qed.

Lemma vbit_neg v k : k < 0 -> vbit v k = false.
Proof.
  intros. unfold vbit, wbit, aget.
  destruct (Z.ltb_spec (k / 64) 0); [apply Z.testbit_0_l|].
  pose proof (word_index k). pose proof (bit_index_bounds k). lia.
Qed.

(** A word fetched through the bounds test of the shift loops. *)
Definition fetch (v : SimValue) (i : Z) : Z :=
  if (0 <=? i) && (i <? num_words (sv_width v)) then vget v i else 0.

Lemma fetch_bit v i j :
  wf v -> 0 <= j < 64 -> Z.testbit (fetch v i) j = vbit v (64 * i + j).
Proof.
  intros Hv Hj. unfold fetch. destruct (Z.leb_spec 0 i); simpl.
  - destruct (Z.ltb_spec i (num_words (sv_width v))).
    + unfold vbit, wbit, vget. by rewrite div_word, mod_word by lia.
    + rewrite Z.testbit_0_l. pose proof (wf_width v Hv).
      pose proof (num_words_bounds (sv_width v) ltac:(lia)).
      destruct (wf_high v Hv (64 * i + j)) as (-> & _); [lia | done].
  - rewrite Z.testbit_0_l. symmetry. apply vbit_neg. lia.
Qed.

Lemma fetch_high v i j : wf v -> 64 <= j -> Z.testbit (fetch v i) j = false.
Proof.
  intros Hv Hj. unfold fetch. destruct (_ && _); [|apply Z.testbit_0_l].
  pose proof (shaped_vget v i (wf_shaped v Hv)) as [_ U]%is_u64_bits. by apply U.
Qed.

Lemma is_u64_fetch v i : wf v -> is_u64 (fetch v i).
Proof. intros. unfold fetch. destruct (_ && _); auto with u64 jz. Qed.
#[export] Hint Resolve is_u64_fetch : u64.

(** The word the left shift by [s] stores at index [i]. *)
Definition shl_word (v : SimValue) (s i : Z) : Z :=
  if s mod 64 =? 0 then fetch v (i - s / 64)
  else (fetch v (i - s / 64) .<< (s mod 64))
         .| (fetch v (i - s / 64 - 1) .>> (64 - s mod 64)).

Lemma shl_word_bit v s i j :
  wf v -> 0 <= s -> 0 <= j < 64 ->
  Z.testbit (shl_word v s i) j = vbit v (64 * i + j - s).
Proof.
  intros Hv Hs Hj. unfold shl_word.
  pose proof (bit_index_bounds s). pose proof (word_index s).
  destruct (Z.eqb_spec (s mod 64) 0).
  - rewrite fetch_bit by done. f_equal. lia.
  - rewrite Z.lor_spec, testbit_shl64, testbit_shr64 by lia.
    destruct (Z.ltb_spec j 64); [|lia]. simpl.
    destruct (Z.le_gt_cases (s mod 64) j).
    + rewrite fetch_bit by (done || lia). rewrite fetch_high by (done || lia).
      rewrite orb_false_r. f_equal. lia.
    + rewrite Z.testbit_neg_r by lia. rewrite fetch_bit by (done || lia). simpl.
      f_equal. lia.
Qed.

(** The word the right shift stores at index [i]. *)
Definition shr_word (v : SimValue) (s i : Z) : Z :=
  if s mod 64 =? 0 then fetch v (i + s / 64)
  else (fetch v (i + s / 64) .>> (s mod 64))
         .| (fetch v (i + s / 64 + 1) .<< (64 - s mod 64)).

Lemma shr_word_bit v s i j :
  wf v -> 0 <= s -> 0 <= j < 64 ->
  Z.testbit (shr_word v s i) j = vbit v (64 * i + j + s).
Proof.
  intros Hv Hs Hj. unfold shr_word.
  pose proof (bit_index_bounds s). pose proof (word_index s).
  destruct (Z.eqb_spec (s mod 64) 0).
  - rewrite fetch_bit by done. f_equal. lia.
  - rewrite Z.lor_spec, testbit_shl64, testbit_shr64 by lia.
    destruct (Z.ltb_spec j 64); [|lia]. simpl.
    destruct (Z.lt_ge_cases (j + s mod 64) 64).
    + rewrite fetch_bit by (done || lia). rewrite Z.testbit_neg_r by lia.
      rewrite orb_false_r. f_equal. lia.
    + rewrite fetch_high by (done || lia). rewrite fetch_bit by (done || lia). simpl.
      f_equal. lia.
Qed.

(** A masked value that stores [f i] into word [i], by bits. *)
Lemma val_words_num (loop : SimValue) w f n :
  denotes loop w (upto (nwords w) f) (upto (nwords w) (fun _ => 0))
    (upto (nwords w) (fun _ => 0)) ->
  0 < w <= 256 -> 0 <= n ->
  (forall k, 0 <= k < w -> Z.testbit (f (k / 64)) (k mod 64) = Z.testbit n k) ->
  is_num (sim_val_mask loop) w (n mod 2 ^ w).
Proof.
  intros D Hw Hn Hf. pose proof (denotes_shaped _ _ _ _ _ D Hw) as Hs.
  assert (sv_width loop = w) as HwE by apply D.
  assert (forall k, 0 <= k -> xbit loop k = false /\ zbit loop k = false) as Hxz.
  { intros k Hk. rewrite (denotes_xbit D), (denotes_zbit D) by done. unfold upto.
    destruct (k <? 256), (k / 64 <? Z.of_nat (nwords w)); rewrite ?Z.testbit_0_l; done. }
  destruct (mask_is_num loop Hs Hxz) as [M1 M2 M3 M4]. rewrite HwE in *.
  constructor; try done. rewrite M4. apply Z.bits_inj'. intros k Hk.
  destruct (Z.lt_ge_cases k w).
  - rewrite !Z.mod_pow2_bits_low by lia. rewrite sv_uint_testbit by done.
    rewrite (denotes_vbit D) by done. rewrite <- Hf by lia. unfold upto.
    rewrite nwords_num. pose proof (num_words_bounds w ltac:(lia)).
    pose proof (word_index_lt k (num_words w)).
    destruct (Z.ltb_spec k 256), (Z.ltb_spec (k / 64) (num_words w)); done || lia.
  - by rewrite !Z.mod_pow2_bits_high by lia.
Qed.

Lemma u64_width v : wf v -> u64 (sv_width v) = sv_width v.
Proof. intros Hv. pose proof (wf_width v Hv). apply Z.mod_small. lia. Qed.

Lemma nwords_stores_val w f :
  0 < w <= 256 -> (forall i, is_u64 (f i)) ->
  stores (fun i r => set_val i (f i) r) (nwords w) f (fun _ => 0) (fun _ => 0).
Proof. intros Hw Hf. apply stores_val; [apply nwords_le4; lia | done]. Qed.

Lemma is_u64_shl_word v s i : wf v -> is_u64 (shl_word v s i).
Proof.
  intros. unfold shl_word. pose proof (bit_index_bounds s).
  destruct (_ =? _); auto with u64.
Qed.
Lemma is_u64_shr_word v s i : wf v -> is_u64 (shr_word v s i).
Proof.
  intros. unfold shr_word. pose proof (bit_index_bounds s).
  destruct (_ =? _); auto with u64.
Qed.

(** The loops store exactly those words. *)
Lemma shl_loop_words v s :
  for_down (nwords (sv_width v)) (fun i r =>
    let src_lo := i - s / 64 in
    let src_hi := i - s / 64 - 1 in
    let lo_part :=
      if (0 <=? src_lo) && (src_lo <? num_words (sv_width v)) then vget v src_lo else 0 in
    let hi_part :=
      if (0 <=? src_hi) && (src_hi <? num_words (sv_width v)) then vget v src_hi else 0 in
    if s mod 64 =? 0 then set_val i lo_part r
    else set_val i ((lo_part .<< (s mod 64)) .| (hi_part .>> (64 - s mod 64))) r)
    (sim_val_zero (sv_width v))
  = for_down (nwords (sv_width v)) (fun i r => set_val i (shl_word v s i) r)
      (sim_val_zero (sv_width v)).
Proof.
  generalize (sim_val_zero (sv_width v)). induction (nwords (sv_width v)) as [|n IH];
    intros r; cbn [for_down]; [done|]. rewrite IH. f_equal. cbv zeta.
  unfold shl_word, fetch. by destruct (s mod 64 =? 0).
Qed.

Lemma shr_loop_words v s :
  for_up (nwords (sv_width v)) (fun i r =>
    let src_lo := i + s / 64 in
    let src_hi := i + s / 64 + 1 in
    let lo_part :=
      if (0 <=? src_lo) && (src_lo <? num_words (sv_width v)) then vget v src_lo else 0 in
    let hi_part :=
      if (0 <=? src_hi) && (src_hi <? num_words (sv_width v)) then vget v src_hi else 0 in
    if s mod 64 =? 0 then set_val i lo_part r
    else set_val i ((lo_part .>> (s mod 64)) .| (hi_part .<< (64 - s mod 64))) r)
    (sim_val_zero (sv_width v))
  = for_up (nwords (sv_width v)) (fun i r => set_val i (shr_word v s i) r)
      (sim_val_zero (sv_width v)).
Proof.
  apply for_up_ext. intros i r _. cbv zeta. unfold shr_word, fetch.
  by destruct (s mod 64 =? 0).
Qed.

Lemma testbit_uint_shl a s k :
  wf a -> 0 <= s -> 0 <= k -> Z.testbit (sv_uint a * 2 ^ s) k = vbit a (k - s).
Proof.
  intros Ha Hs Hk. rewrite <- Z.shiftl_mul_pow2, Z.shiftl_spec by lia.
  destruct (Z.lt_ge_cases k s).
  - by rewrite Z.testbit_neg_r, vbit_neg by lia.
  - apply sv_uint_testbit; [auto with jz | lia].
Qed.

Lemma testbit_uint_shr a s k :
  wf a -> 0 <= s -> 0 <= k -> Z.testbit (sv_uint a / 2 ^ s) k = vbit a (k + s).
Proof.
  intros Ha Hs Hk. rewrite <- Z.shiftr_div_pow2, Z.shiftr_spec by lia.
  apply sv_uint_testbit; [auto with jz | lia].
Qed.

Lemma shl_known a b :
  wf a -> wf b -> known a -> known b ->
  is_num (sim_val_shl a b) (sv_width a)
    ((sv_uint a * 2 ^ sv_uint b) mod 2 ^ sv_width a).
Proof.
  intros Ha Hb Ka Kb. pose proof (wf_width a Ha). pose proof (sv_uint_bounds b Hb).
  pose proof (sv_uint_bounds a Ha).
  assert (sv_width a <= sv_uint b ->
    (sv_uint a * 2 ^ sv_uint b) mod 2 ^ sv_width a = 0) as Hover.
  { intros Hge. replace (sv_uint b) with ((sv_uint b - sv_width a) + sv_width a) by lia.
    rewrite Z.pow_add_r, Z.mul_assoc by lia. apply Z.mod_mul. lia. }
  unfold sim_val_shl. rewrite !known_has_xz by done. simpl orb. cbv iota.
  rewrite sim_val_to_small_uint_spec by done.
  destruct (Z.ltb_spec (sv_uint b) (2 ^ 64)).
  - rewrite u64_width by done. destruct (Z.leb_spec (sv_width a) (sv_uint b)).
    + rewrite Hover by done. by apply zero_is_num.
    + cbv zeta. rewrite shl_loop_words. apply val_words_num with (f := shl_word a (sv_uint b)).
      * apply denotes_for_down; [apply nwords_le4; lia|].
        apply nwords_stores_val; [done|]. intros. by apply is_u64_shl_word.
      * done.
      * apply Z.mul_nonneg_nonneg; lia.
      * intros k Hk. rewrite shl_word_bit by (done || lia || apply bit_index_bounds).
        rewrite word_index. by rewrite testbit_uint_shl by (done || lia).
  - rewrite Hover by lia. by apply zero_is_num.
Qed.

Lemma shr_known a b :
  wf a -> wf b -> known a -> known b ->
  is_num (sim_val_shr a b) (sv_width a) (sv_uint a / 2 ^ sv_uint b).
Proof.
  intros Ha Hb Ka Kb. pose proof (wf_width a Ha). pose proof (sv_uint_bounds b Hb).
  pose proof (sv_uint_bounds a Ha) as Ba.
  assert (sv_width a <= sv_uint b -> sv_uint a / 2 ^ sv_uint b = 0) as Hover.
  { intros Hge. apply Z.div_small. split; [lia|].
    apply Z.lt_le_trans with (2 ^ sv_width a); [lia|]. apply Z.pow_le_mono_r; lia. }
  unfold sim_val_shr. rewrite !known_has_xz by done. simpl orb. cbv iota.
  rewrite sim_val_to_small_uint_spec by done.
  destruct (Z.ltb_spec (sv_uint b) (2 ^ 64)).
  - rewrite u64_width by done. destruct (Z.leb_spec (sv_width a) (sv_uint b)).
    + rewrite Hover by done. by apply zero_is_num.
    + cbv zeta. rewrite (sim_val_mask_id a) by done. rewrite shr_loop_words.
      rewrite <- (Z.mod_small (sv_uint a / 2 ^ sv_uint b) (2 ^ sv_width a)).
      2:{ split; [apply Z.div_pos; lia|].
          apply Z.le_lt_trans with (sv_uint a); [|lia].
          apply Z.div_le_upper_bound; [lia|].
          assert (0 < 2 ^ sv_uint b) by (apply Z.pow_pos_nonneg; lia). nia. }
      apply val_words_num with (f := shr_word a (sv_uint b)).
      * apply denotes_for_up; [apply nwords_le4; lia|].
        apply nwords_stores_val; [done|]. intros. by apply is_u64_shr_word.
      * done.
      * apply Z.div_pos; lia.
      * intros k Hk. rewrite shr_word_bit by (done || lia || apply bit_index_bounds).
        rewrite word_index. by rewrite testbit_uint_shr by (done || lia).
  - rewrite Hover by lia. by apply zero_is_num.
Qed.

(** * Multiplication, division and arithmetic shift

    The shift-and-add loop of [sim_val_mul], the restoring division of
    [sim_val_unsigned_divmod] and the sign fill of [sim_val_ashr], shown to
    compute the operations of [Z]. *)


Local Open Scope Z_scope.
Local Open Scope jz_scope.

(** ** Widening without moving bits *)

Lemma set_width_wf v w :
  wf v -> sv_width v <= w <= 256 -> wf (set_width w v).
Proof.
  intros Hv Hw. destruct Hv as [H1 H2 H3 H4 H5 H6].
  constructor; simpl; [lia|done|done|done| |exact H6].
  intros k Hk. apply H5. lia.
Qed.

Lemma set_width_known v w :
  wf v -> sv_width v <= w -> known v -> known (set_width w v).
Proof.
  intros Hv Hw Hk k Hk'. change (bit_at (set_width w v) k) with (bit_at v k).
  destruct (Z.lt_ge_cases k (sv_width v)); [apply Hk; lia|].
  by rewrite bit_at_high.
Qed.

Lemma set_width_num v w n w' :
  is_num v w n -> w <= w' <= 256 -> is_num (set_width w' v) w' n.
Proof.
  intros [H1 H2 <- <-] Hw.
  constructor; [apply set_width_wf | apply set_width_known| |]; done || lia.
Qed.

Lemma set_width_same v : set_width (sv_width v) v = v.
Proof. by destruct v. Qed.

Lemma mask_num v w n : is_num v w n -> sim_val_mask v = v.
Proof. intros []. by apply sim_val_mask_id. Qed.

(** ** Reading and writing one bit of a number *)

Lemma get_bit_num v w n k :
  is_num v w n -> 0 <= k -> sim_val_get_bit v k = bool_to_int (Z.testbit n k).
Proof.
  intros [H1 H2 <- <-] Hk. rewrite sim_val_get_bit_wf by done.
  by rewrite sv_uint_testbit by auto with jz.
Qed.

Lemma set_bit_num v w n bit b :
  is_num v w n -> 0 <= bit < w -> Z.testbit n bit = false ->
  is_num (sim_val_set_bit v bit b) w (n + if b =? 0 then 0 else 2 ^ bit).
Proof.
  intros [H1 H2 <- <-] Hbit Hn.
  destruct (sim_val_set_bit_spec v bit b (wf_shaped v H1) Hbit) as (S1 & S2 & S3).
  assert (forall k, 0 <= k ->
    xbit (sim_val_set_bit v bit b) k = false /\ zbit (sim_val_set_bit v bit b) k = false) as Hxz.
  { intros k Hk. destruct (S3 k Hk) as (_ & -> & ->). by apply known_xz_false. }
  constructor; [|..].
  - destruct (S1). constructor; try done.
    + intros k Hk. rewrite S2 in Hk. destruct (Hxz k) as [-> ->]; [lia|].
      split; [|done]. destruct (S3 k) as (-> & _ & _); [lia|].
      destruct (Z.eqb_spec k bit); [lia|]. by apply (wf_high v H1).
    + intros k Hk. by destruct (Hxz k Hk) as [-> ->].
  - intros k Hk. rewrite bit_at_unknown. by destruct (Hxz k ltac:(lia)) as [-> ->].
  - done.
  - pose proof (sv_uint_bounds v H1).
    assert (0 < 2 ^ bit) by (apply Z.pow_pos_nonneg; lia).
    rewrite sv_uint_testbit in Hn by (auto with jz || lia).
    apply sv_uint_bits_eq; [done|destruct (b =? 0); lia|].
    intros k Hk. destruct (S3 k Hk) as (-> & _ & _).
    destruct (b =? 0); simpl negb.
    + rewrite Z.add_0_r, sv_uint_testbit by (auto with jz || lia).
      by destruct (Z.eqb_spec k bit) as [->|].
    + rewrite Z.add_nocarry_lxor.
      * rewrite Z.lxor_spec, sv_uint_testbit, Z.pow2_bits_eqb by (auto with jz || lia).
        rewrite (Z.eqb_sym bit). destruct (Z.eqb_spec k bit) as [->|].
        { by rewrite Hn. }
        by rewrite xorb_false_r.
      * apply Z.bits_inj'. intros j Hj.
        rewrite Z.land_spec, sv_uint_testbit, Z.pow2_bits_eqb, Z.testbit_0_l
          by (auto with jz || lia).
        destruct (Z.eqb_spec bit j) as [<-|]; [by rewrite Hn | apply andb_false_r].
Qed.

(** ** Multiplication *)

Lemma shift_left_bits_num v w n s :
  is_num v w n -> w <= 256 -> 0 <= s < 2 ^ 32 -> forall w', w <= w' <= 256 ->
  is_num (sim_val_shift_left_bits v s w') w' ((n * 2 ^ s) mod 2 ^ w').
Proof.
  intros Hv Hw256 Hs w' Hw. unfold sim_val_shift_left_bits.
  destruct (set_width_num _ _ _ _ Hv Hw) as [A1 A2 A3 A4].
  assert (u64 s = s) as -> by (apply Z.mod_small; lia).
  destruct (from_uint_num s 32) as [B1' B2 B3 B4]; [lia|unfold is_u64; lia|].
  pose proof (shl_known _ _ A1 B1' A2 B2) as H. rewrite A3, A4, B4 in H.
  by rewrite (Z.mod_small s) in H by lia.
Qed.

Lemma mod_pow2_succ n k :
  0 <= k -> n mod 2 ^ (k + 1) = n mod 2 ^ k + bool_to_int (Z.testbit n k) * 2 ^ k.
Proof.
  intros Hk. assert (0 < 2 ^ k) by (apply Z.pow_pos_nonneg; lia).
  rewrite Z.pow_add_r by lia. change (2 ^ 1) with 2. rewrite Z.rem_mul_r by lia.
  rewrite <- Z.testbit_spec' by lia. change Z.b2z with bool_to_int. lia.
Qed.

Lemma mul_known a b :
  wf a -> wf b -> known a -> known b ->
  is_num (sim_val_mul a b) (max_width a b)
    ((sv_uint a * sv_uint b) mod 2 ^ max_width a b).
Proof.
  intros Ha Hb Ka Kb. pose proof (max_width_bounds a b Ha Hb) as Hw.
  unfold sim_val_mul. set (rw := max_width a b) in *. rewrite arith_known by done.
  match goal with |- context [for_up (Z.to_nat rw) ?f ?s] =>
    assert (is_num (for_up (Z.to_nat rw) f s) rw
      ((sv_uint a * (sv_uint b mod 2 ^ Z.of_nat (Z.to_nat rw))) mod 2 ^ rw)) as HL end.
  { apply (for_up_ind (fun k r => is_num r rw
      ((sv_uint a * (sv_uint b mod 2 ^ Z.of_nat k)) mod 2 ^ rw))).
    { simpl Z.of_nat. rewrite Z.pow_0_r, Z.mod_1_r, Z.mul_0_r, Z.mod_0_l by lia.
      apply zero_is_num. lia. }
    intros k r Hk Hr.
    replace (Z.of_nat (S k)) with (Z.of_nat k + 1) by lia.
    rewrite mod_pow2_succ by lia.
    rewrite (get_bit_num b _ _ _ (is_num_self b Hb Kb)) by lia.
    rewrite bool_to_int_eqb0, negb_involutive.
    destruct (Z.testbit (sv_uint b) (Z.of_nat k)); simpl bool_to_int.
    - destruct (shift_left_bits_num a _ _ (Z.of_nat k) (is_num_self a Ha Ka)
        ltac:(lia) ltac:(lia) rw ltac:(lia)) as [C1 C2 C3 C4].
      destruct Hr as [R1 R2 R3 R4].
      pose proof (add_known _ _ R1 C1 R2 C2) as H.
      rewrite max_width_max, R3, C3, Z.max_id, R4, C4 in H.
      rewrite <- Z.add_mod in H by lia.
      replace (sv_uint a * (sv_uint b mod 2 ^ Z.of_nat k + 1 * 2 ^ Z.of_nat k))
        with (sv_uint a * (sv_uint b mod 2 ^ Z.of_nat k) + sv_uint a * 2 ^ Z.of_nat k)
        by ring. exact H.
    - by rewrite Z.mul_0_l, Z.add_0_r. }
  pose proof (sv_uint_bounds b Hb).
  rewrite Z2Nat.id, (Z.mod_small (sv_uint b)) in HL.
  2:{ split; [lia|]. apply Z.lt_le_trans with (2 ^ sv_width b); [lia|].
      apply Z.pow_le_mono_r; lia. }
  2:{ lia. }
  assert (sv_width (for_up (Z.to_nat rw) (fun bit r =>
    if negb (sim_val_get_bit b bit =? 0)
    then sim_val_add r (sim_val_shift_left_bits a bit rw) else r) (sim_val_zero rw)) = rw)
    as E by apply HL.
  rewrite <- E at 1. rewrite set_width_same. by rewrite (mask_num _ _ _ HL).
Qed.

(** ** Division *)

Lemma div_pow2_succ n k :
  0 <= k ->
  n / 2 ^ k = 2 * (n / 2 ^ (k + 1)) + bool_to_int (Z.testbit n k).
Proof.
  intros Hk. assert (0 < 2 ^ k) by (apply Z.pow_pos_nonneg; lia).
  rewrite Z.pow_add_r, <- Z.div_div by lia. change (2 ^ 1) with 2.
  rewrite (Z.div_mod (n / 2 ^ k) 2) at 1 by lia.
  rewrite <- Z.testbit_spec' by lia. by change Z.b2z with bool_to_int.
Qed.

(** One step of restoring division on numbers. *)
Lemma restoring_step p n q r b :
  0 < n -> p = n * q + r -> 0 <= r < n -> 0 <= b <= 1 ->
  (2 * p + b) / n = 2 * q + (if n <=? 2 * r + b then 1 else 0) /\
  (2 * p + b) mod n = (if n <=? 2 * r + b then 2 * r + b - n else 2 * r + b).
Proof.
  intros Hn Hp Hr Hb.
  destruct (Z.leb_spec n (2 * r + b)); split; symmetry.
  - apply Z.div_unique with (2 * r + b - n); lia.
  - apply Z.mod_unique with (2 * q + 1); lia.
  - apply Z.div_unique with (2 * r + b); lia.
  - apply Z.mod_unique with (2 * q); lia.
Qed.

Section Restoring.
Context (a b : SimValue) (w A B : Z).
Context (Ha : is_num a w A) (Hb : is_num b w B) (HB : 0 < B) (Hw : 0 < w <= 256).

Local Lemma A_bounds : 0 <= A < 2 ^ w.
Proof using Ha.
  destruct Ha as [H _ H1 H2]. rewrite <- H1, <- H2. by apply sv_uint_bounds.
Qed.

(** The quotient and remainder of the dividend's prefix above bit [k]. *)
Definition div_inv (k : nat) (s : SimValue * SimValue) : Prop :=
  is_num (fst s) w (A / 2 ^ Z.of_nat k / B * 2 ^ Z.of_nat k) /\
  is_num (snd s) w (A / 2 ^ Z.of_nat k mod B).

Definition div_body (bit : Z) (s : SimValue * SimValue) : SimValue * SimValue :=
  let '(quotient, remainder) := s in
  let remainder := sim_val_shift_left_bits remainder 1 w in
  let remainder := sim_val_set_bit remainder 0 (sim_val_get_bit a bit) in
  if 0 <=? sim_val_ucmp remainder b w then
    let remainder := sim_val_mask (set_width w (sim_val_sub remainder b)) in
    (sim_val_set_bit quotient bit 1, remainder)
  else (quotient, remainder).

(** Shifting the next dividend bit into the remainder loses nothing: the
    remainder is at most the prefix, which is below [2^(w-1)]. *)
Lemma shift_in k r bit :
  is_num r w (A / 2 ^ (k + 1) mod B) -> 0 <= k < w -> 0 <= bit <= 1 ->
  is_num (sim_val_set_bit (sim_val_shift_left_bits r 1 w) 0 bit) w
    (2 * (A / 2 ^ (k + 1) mod B) + bit).
Proof using Ha HB Hw.
  pose proof A_bounds as HA0.
  intros Hr Hk Hbit. set (p := A / 2 ^ (k + 1)) in *.
  assert (0 <= p < 2 ^ (w - 1)) as Hp.
  { split; [apply Z.div_pos; lia|]. apply Z.div_lt_upper_bound; [lia|].
    apply Z.lt_le_trans with (2 ^ w); [lia|]. rewrite <- Z.pow_add_r by lia.
    apply Z.pow_le_mono_r; lia. }
  assert (0 <= p mod B < 2 ^ (w - 1)) as Hm.
  { pose proof (Z.mod_pos_bound p B HB). pose proof (Z.mod_le p B). lia. }
  assert (2 ^ w = 2 * 2 ^ (w - 1)) as Hpow.
  { rewrite <- Z.pow_succ_r by lia. f_equal. lia. }
  pose proof (shift_left_bits_num r w _ 1 Hr ltac:(lia) ltac:(lia) w ltac:(lia)) as Hs.
  rewrite Z.mod_small in Hs by (change (2 ^ 1) with 2; lia).
  pose proof (set_bit_num _ _ _ 0 bit Hs ltac:(lia)) as H.
  assert (p mod B * 2 ^ 1 + (if bit =? 0 then 0 else 2 ^ 0) = 2 * (p mod B) + bit) as E.
  { change (2 ^ 1) with 2. change (2 ^ 0) with 1. destruct (Z.eqb_spec bit 0); lia. }
  rewrite E in H. apply H. change (2 ^ 1) with 2.
  rewrite Z.mul_comm. apply Z.testbit_even_0.
Qed.

Lemma ucmp_num r n :
  is_num r w n -> (0 <=? sim_val_ucmp r b w) = (B <=? n).
Proof using Hb HB Hw.
  intros [R1 R2 R3 <-]. destruct Hb as [B1' B2 B3 <-].
  rewrite sim_val_ucmp_spec by (done || lia). unfold Z.leb at 2.
  rewrite (Z.compare_antisym (sv_uint r)). by destruct (sv_uint r ?= sv_uint b).
Qed.

Lemma sub_num r n :
  is_num r w n -> B <= n ->
  is_num (sim_val_mask (set_width w (sim_val_sub r b))) w (n - B).
Proof using Hb HB Hw.
  intros [R1 R2 R3 <-] HBn. destruct Hb as [B1' B2 B3 E4].
  pose proof (sub_known r b R1 B1' R2 B2) as H.
  rewrite max_width_max, R3, B3, Z.max_id, E4 in H.
  pose proof (sv_uint_bounds r R1) as Hr. rewrite R3 in Hr.
  pose proof (sv_uint_bounds b B1') as Hb'. rewrite E4 in Hb'.
  rewrite Z.mod_small in H by lia.
  pose proof (set_width_num _ _ _ w H ltac:(lia)) as Hs.
  by rewrite (mask_num _ _ _ Hs).
Qed.

Lemma div_step k s :
  (k < Z.to_nat w)%nat -> div_inv (S k) s -> div_inv k (div_body (Z.of_nat k) s).
Proof using Ha Hb HB Hw.
  pose proof A_bounds as HA0.
  intros Hk [HQ HR]. destruct s as [q r]. simpl fst in HQ. simpl snd in HR.
  replace (Z.of_nat (S k)) with (Z.of_nat k + 1) in * by lia.
  unfold div_body. rewrite (get_bit_num a w A _ Ha) by lia.
  set (bt := bool_to_int (Z.testbit A (Z.of_nat k))).
  assert (0 <= bt <= 1) as Hbt by (subst bt; destruct (Z.testbit _ _); simpl; lia).
  pose proof (shift_in (Z.of_nat k) r bt HR ltac:(lia) Hbt) as Hr'.
  pose proof (div_pow2_succ A (Z.of_nat k) ltac:(lia)) as HA. fold bt in HA.
  set (p := A / 2 ^ (Z.of_nat k + 1)) in *.
  destruct (restoring_step p B (p / B) (p mod B) bt) as [D1 D2];
    [done|apply Z.div_mod; lia|by apply Z.mod_pos_bound|done|].
  assert (0 < 2 ^ Z.of_nat k) as Hpk by (apply Z.pow_pos_nonneg; lia).
  assert (p / B * 2 ^ (Z.of_nat k + 1) = 2 * (p / B) * 2 ^ Z.of_nat k) as HQ2.
  { rewrite Z.pow_add_r by lia. change (2 ^ 1) with 2. ring. }
  rewrite HQ2 in HQ.
  unfold div_inv. rewrite HA, D1, D2. rewrite (ucmp_num _ _ Hr').
  destruct (Z.leb_spec B (2 * (p mod B) + bt)) as [Hge|Hlt]; cbn [fst snd].
  - split; [|by apply sub_num].
    replace ((2 * (p / B) + 1) * 2 ^ Z.of_nat k)
      with (2 * (p / B) * 2 ^ Z.of_nat k + (if 1 =? 0 then 0 else 2 ^ Z.of_nat k))
      by (simpl Z.eqb; cbv iota; ring).
    apply set_bit_num; [done|lia|].
    rewrite <- Z.shiftl_mul_pow2, Z.shiftl_spec, Z.sub_diag by lia.
    apply Z.testbit_even_0.
  - by rewrite Z.add_0_r.
Qed.

Lemma divmod_num want_remainder :
  is_num (sim_val_unsigned_divmod a b w want_remainder) w
    (if want_remainder then A mod B else A / B).
Proof using Ha Hb HB Hw.
  pose proof A_bounds as HA0.
  assert (div_inv 0 (for_down (Z.to_nat w) div_body (sim_val_zero w, sim_val_zero w)))
    as [HQ HR].
  { apply (for_down_ind div_inv); [|apply div_step].
    unfold div_inv. rewrite Z2Nat.id by lia. rewrite (Z.div_small A) by lia.
    rewrite Z.div_0_l, Z.mod_0_l, Z.mul_0_l by lia. split; by apply zero_is_num. }
  simpl Z.of_nat in HQ, HR. rewrite Z.pow_0_r, !Z.div_1_r in HQ, HR.
  rewrite Z.mul_1_r in HQ. unfold sim_val_unsigned_divmod.
  change (for_down _ _ _) with
    (for_down (Z.to_nat w) div_body (sim_val_zero w, sim_val_zero w)).
  destruct (for_down _ _ _) as [q r]. cbn [fst snd] in HQ, HR.
  destruct want_remainder.
  - pose proof (set_width_num _ _ _ w HR ltac:(lia)) as H. by rewrite (mask_num _ _ _ H).
  - pose proof (set_width_num _ _ _ w HQ ltac:(lia)) as H. by rewrite (mask_num _ _ _ H).
Qed.
End Restoring.

(** Division and remainder on known operands. *)
Lemma divmod_known a b (rem : bool) :
  wf a -> wf b -> known a -> known b ->
  let w := max_width a b in
  let r := if rem then sim_val_mod a b else sim_val_div a b in
  (sv_uint b = 0 -> r = sim_val_all_x w) /\
  (sv_uint b <> 0 ->
     is_num r w (if rem then sv_uint a mod sv_uint b else sv_uint a / sv_uint b)).
Proof.
  intros Ha Hb Ka Kb w r. pose proof (max_width_bounds a b Ha Hb) as Hw. fold w in Hw.
  pose proof (set_width_num a _ _ w (is_num_self a Ha Ka) ltac:(lia)) as Na.
  pose proof (set_width_num b _ _ w (is_num_self b Hb Kb) ltac:(lia)) as Nb.
  pose proof (zero_is_num w ltac:(lia)) as [Z1 Z2 Z3 Z4].
  assert (r = if sim_val_ucmp (set_width w b) (sim_val_zero w) w =? 0
    then sim_val_all_x w
    else sim_val_unsigned_divmod (set_width w a) (set_width w b) w rem) as ->.
  { subst r. unfold sim_val_mod, sim_val_div. fold w. rewrite arith_known by done.
    cbv zeta. rewrite (mask_num _ _ _ Na), (mask_num _ _ _ Nb). by destruct rem. }
  destruct (Nb) as [N1 N2 N3 N4].
  rewrite sim_val_ucmp_spec, N4, Z4 by (done || lia).
  pose proof (sv_uint_bounds b Hb). split; intros E.
  - by rewrite E.
  - rewrite (proj2 (Z.compare_gt_iff _ _)) by lia. simpl.
    apply divmod_num; done || lia.
Qed.

(** ** Arithmetic shift right *)

(** Two's-complement reading of a known value. *)
Definition sint (w n : Z) : Z := if Z.testbit n (w - 1) then n - 2 ^ w else n.
Definition sv_sint (v : SimValue) : Z := sint (sv_width v) (sv_uint v).

(** A loop that sets [n] consecutive value bits from [base]. *)
Lemma set_bits_loop r base n :
  shaped r -> 0 <= base -> base + Z.of_nat n <= sv_width r ->
  let r' := for_up n (fun i r => sim_val_set_bit r (base + i) 1) r in
  shaped r' /\ sv_width r' = sv_width r /\
  forall k, 0 <= k ->
    vbit r' k = ((base <=? k) && (k <? base + Z.of_nat n)) || vbit r k /\
    xbit r' k = xbit r k /\ zbit r' k = zbit r k.
Proof.
  intros Hr Hb. cbv zeta. induction n as [|n IH]; intros Hn.
  { simpl for_up. split_and!; [done..|]. intros k Hk. split_and!; [|done..].
    destruct (Z.leb_spec base k), (Z.ltb_spec k (base + Z.of_nat 0)); done || lia. }
  destruct IH as (S1 & S2 & S3); [lia|]. cbn [for_up].
  set (t := for_up n _ r) in *.
  destruct (sim_val_set_bit_spec t (base + Z.of_nat n) 1 S1 ltac:(lia)) as (T1 & T2 & T3).
  split; [done|]. split; [by rewrite T2|]. intros k Hk.
  destruct (T3 k Hk) as (-> & -> & ->). destruct (S3 k Hk) as (-> & -> & ->).
  split_and!; [|done..]. simpl negb.
  destruct (Z.eqb_spec k (base + Z.of_nat n)), (Z.leb_spec base k),
    (Z.ltb_spec k (base + Z.of_nat n)), (Z.ltb_spec k (base + Z.of_nat (S n)));
    done || lia.
Qed.

Lemma ones_num w : 0 < w <= 256 -> is_num (sim_val_ones w) w (2 ^ w - 1).
Proof.
  intros Hw. pose proof (sim_val_ones_wf w Hw) as Hwf.
  pose proof (fill_width FVal w Hw) as Ew. change (sv_width (sim_val_ones w) = w) in Ew.
  constructor; [done| |done|].
  - intros k Hk. rewrite Ew in Hk.
    by rewrite sim_val_ones_bit_at.
  - apply sv_uint_bits_eq; [auto with jz|lia|]. intros k Hk.
    replace (2 ^ w - 1) with (Z.ones w) by (rewrite Z.ones_equiv; lia).
    rewrite testbit_ones by lia. destruct (fill_bits FVal w k Hw Hk) as (E & _).
    unfold sim_val_ones. cbn [set_field] in E. rewrite E.
    destruct (Z.leb_spec 0 k); [done|lia].
Qed.

Lemma testbit_minus_pow2 w n j :
  0 <= n < 2 ^ w -> 0 <= w -> 0 <= j ->
  Z.testbit (n - 2 ^ w) j = if j <? w then Z.testbit n j else true.
Proof.
  intros Hn Hw Hj. destruct (Z.ltb_spec j w).
  - rewrite <- (Z.mod_pow2_bits_low (n - 2 ^ w) w j) by lia.
    replace (n - 2 ^ w) with (n + -1 * 2 ^ w) by ring.
    rewrite Z.mod_add by lia. by rewrite Z.mod_pow2_bits_low by lia.
  - replace (n - 2 ^ w) with (Z.lnot (2 ^ w - 1 - n)) by (unfold Z.lnot; lia).
    rewrite Z.lnot_spec by lia. apply negb_true_iff.
    apply Z.bounded_iff_bits_nonneg with w; lia.
Qed.

(** Setting the top [s] bits of the logical shift of a negative number. *)
Lemma sign_fill v w n s :
  is_num v w (n / 2 ^ s) -> 0 < w <= 256 -> 0 <= n < 2 ^ w -> 0 < s <= w ->
  is_num (for_up (Z.to_nat s) (fun i r => sim_val_set_bit r (w - s + i) 1) v) w
    ((n - 2 ^ w) / 2 ^ s mod 2 ^ w).
Proof.
  intros [R1 R2 R3 R4] Hw Hn Hs.
  destruct (set_bits_loop v (w - s) (Z.to_nat s)) as (S1 & S2 & S3);
    [auto with jz|lia|lia|].
  set (r := for_up _ _ _) in *. rewrite Z2Nat.id in S3 by lia.
  replace (w - s + s) with w in S3 by ring.
  assert (forall k, 0 <= k -> xbit r k = false /\ zbit r k = false) as Hxz.
  { intros k Hk. destruct (S3 k Hk) as (_ & -> & ->). by apply known_xz_false. }
  assert (sim_val_mask r = r) as Em.
  { apply sim_val_mask_id. destruct (S1). constructor; try done.
    - intros k Hk. rewrite S2, R3 in Hk. destruct (Hxz k) as [-> ->]; [lia|].
      split; [|done]. destruct (S3 k) as (-> & _); [lia|].
      destruct (Z.ltb_spec k w); [lia|]. rewrite andb_false_r. simpl.
      apply (wf_high _ R1). lia.
    - intros k Hk. by destruct (Hxz k Hk) as [-> ->]. }
  pose proof (mask_is_num r S1 Hxz) as [M1 M2 M3 M4].
  rewrite Em, S2, R3 in *. constructor; try done. rewrite M4.
  apply Z.bits_inj'. intros k Hk. destruct (Z.lt_ge_cases k w).
  2:{ by rewrite !Z.mod_pow2_bits_high by lia. }
  rewrite !Z.mod_pow2_bits_low by lia. rewrite sv_uint_testbit by done.
  destruct (S3 k Hk) as (-> & _ & _).
  rewrite <- (sv_uint_testbit v), R4 by auto with jz.
  rewrite <- !Z.shiftr_div_pow2, !Z.shiftr_spec by lia.
  rewrite testbit_minus_pow2 by lia.
  destruct (Z.leb_spec (w - s) k), (Z.ltb_spec k w), (Z.ltb_spec (k + s) w); done || lia.
Qed.

Lemma ashr_known a b :
  wf a -> wf b -> known a -> known b ->
  is_num (sim_val_ashr a b) (sv_width a)
    ((sv_sint a / 2 ^ sv_uint b) mod 2 ^ sv_width a).
Proof.
  intros Ha Hb Ka Kb. pose proof (wf_width a Ha) as Hw.
  pose proof (sv_uint_bounds a Ha) as Ba. pose proof (sv_uint_bounds b Hb) as Bb.
  set (w := sv_width a) in *. set (s := sv_uint b) in *.
  assert (0 < 2 ^ s) as Hps by (apply Z.pow_pos_nonneg; lia).
  pose proof (shr_known a b Ha Hb Ka Kb) as Hshr. fold w s in Hshr.
  unfold sim_val_ashr. rewrite !known_has_xz by done. simpl orb. cbv iota zeta.
  rewrite (get_bit_num a w (sv_uint a)) by (by apply is_num_self || lia).
  rewrite bool_to_int_eqb0, negb_involutive.
  rewrite sim_val_to_small_uint_spec by done. fold w s.
  replace (u64 w) with w by (symmetry; by apply u64_width). unfold sv_sint, sint. fold w.
  destruct (Z.testbit (sv_uint a) (w - 1)) eqn:Sg; simpl andb.
  - assert (w <= s -> (sv_uint a - 2 ^ w) / 2 ^ s mod 2 ^ w = 2 ^ w - 1) as Hover.
    { intros Hge. assert (2 ^ w <= 2 ^ s) by (apply Z.pow_le_mono_r; lia).
      assert ((sv_uint a - 2 ^ w) / 2 ^ s = -1) as ->.
      { symmetry. apply Z.div_unique with (sv_uint a - 2 ^ w + 2 ^ s); lia. }
      symmetry. apply Z.mod_unique with (-1); lia. }
    destruct (Z.ltb_spec s (2 ^ 64)).
    2:{ rewrite Hover by lia. by apply ones_num. }
    destruct (Z.leb_spec w s). { rewrite Hover by lia. by apply ones_num. }
    destruct (Z.ltb_spec 0 s) as [Hs|Hs].
    2:{ assert (s = 0) as E0 by lia. rewrite E0, Z.pow_0_r, Z.div_1_r in *.
        replace (sv_uint a - 2 ^ w) with (sv_uint a + -1 * 2 ^ w) by ring.
        rewrite Z.mod_add, Z.mod_small by lia. exact Hshr. }
    apply sign_fill; done || lia.
  - rewrite (Z.mod_small (sv_uint a / 2 ^ s)).
    2:{ split; [apply Z.div_pos; lia|]. apply Z.le_lt_trans with (sv_uint a); [|lia].
        apply Z.div_le_upper_bound; nia. }
    assert (w <= s -> sv_uint a / 2 ^ s = 0) as Hover.
    { intros. apply Z.div_small. assert (2 ^ w <= 2 ^ s) by (apply Z.pow_le_mono_r; lia). lia. }
    destruct (Z.ltb_spec s (2 ^ 64)); [|rewrite Hover by lia; by apply zero_is_num].
    destruct (Z.leb_spec w s); [rewrite Hover by lia; by apply zero_is_num|]. done.
Qed.
