(* ===== verification/SimBitwise.v ===== *)
(** * Bitwise operators and the ternary select against four-state truth tables

    [and4], [or4], [xor4], [not4] and [merge4] are the truth tables; each word
    loop of [sim_value.c] is shown to apply its table at every bit position.
    Then concatenation, slices and extension. *)

From S2P Require Import Prelude SimValue SimBits SimArith.


Local Open Scope Z_scope.
Local Open Scope jz_scope.

(** ** Truth tables *)

Definition and4 (a b : Bit4) : Bit4 :=
  match a, b with B0, _ | _, B0 => B0 | B1, B1 => B1 | _, _ => BX end.
Definition or4 (a b : Bit4) : Bit4 :=
  match a, b with B1, _ | _, B1 => B1 | B0, B0 => B0 | _, _ => BX end.
Definition xor4 (a b : Bit4) : Bit4 :=
  match a, b with
  | B0, B0 | B1, B1 => B0
  | B0, B1 | B1, B0 => B1
  | _, _ => BX
  end.
Definition not4 (a : Bit4) : Bit4 :=
  match a with B0 => B1 | B1 => B0 | _ => BX end.
(** Both branches of a select whose condition is unknown. *)
Definition merge4 (a b : Bit4) : Bit4 :=
  match a, b with B0, B0 => B0 | B1, B1 => B1 | _, _ => BX end.

(** ** The loop rule *)

Lemma bitwise_spec w fv fx (gv gx : Z -> bool) :
  0 < w <= 256 -> (forall i, is_u64 (fv i)) -> (forall i, is_u64 (fx i)) ->
  (forall k, 0 <= k -> Z.testbit (fv (k / 64)) (k mod 64) = (k <? w) && gv k) ->
  (forall k, 0 <= k -> Z.testbit (fx (k / 64)) (k mod 64) = (k <? w) && gx k) ->
  (forall k, 0 <= k -> gv k && gx k = false) ->
  let r := for_up (nwords w)
    (fun i r => set_xmask i (fx i) (set_val i (fv i) r)) (sim_val_zero w) in
  wf r /\ sv_width r = w /\
  forall k, 0 <= k -> bit_at r k = if k <? w then bit4 (gx k) false (gv k) else B0.
Proof.
  intros Hw Uv Ux Hv Hx He r.
  destruct (bitwise_loop w fv fx Hw Uv Ux) as (Hs & Hwr & Hb). fold r in Hs, Hwr, Hb.
  assert (forall k, 0 <= k -> vbit r k = (k <? w) && gv k
    /\ xbit r k = (k <? w) && gx k /\ zbit r k = false) as Hbits.
  { intros k Hk. destruct (Hb k Hk) as (B1' & B2 & B3).
    split_and!; [apply B1', Hv, Hk | apply B2, Hx, Hk | done]. }
  split; [|split; [done|]].
  - destruct Hs. constructor; try done.
    + intros k Hk. destruct (Hbits k) as (-> & -> & ->); [lia|].
      by destruct (Z.ltb_spec k w); [lia|].
    + intros k Hk. destruct (Hbits k Hk) as (-> & -> & ->).
      specialize (He k Hk). destruct (k <? w), (gv k), (gx k); done.
  - intros k Hk. unfold bit_at. destruct (Hbits k Hk) as (-> & -> & ->).
    by destruct (k <? w).
Qed.

Lemma vget_bit v k : Z.testbit (vget v (k / 64)) (k mod 64) = vbit v k.
Proof. done. Qed.
Lemma xget_bit v k : Z.testbit (xget v (k / 64)) (k mod 64) = xbit v k.
Proof. done. Qed.
Lemma zget_bit v k : Z.testbit (zget v (k / 64)) (k mod 64) = zbit v k.
Proof. done. Qed.

Lemma in_word k : (0 <=? k mod 64) && (k mod 64 <? 64) = true.
Proof.
  pose proof (bit_index_bounds k).
  by destruct (Z.leb_spec 0 (k mod 64)), (Z.ltb_spec (k mod 64) 64); try lia.
Qed.

(** Read one bit of a word expression built from operand words and the mask. *)
Ltac table_cases :=
  repeat match goal with
  | |- context [vbit ?v ?k] => destruct (vbit v k)
  | |- context [xbit ?v ?k] => destruct (xbit v k)
  | |- context [zbit ?v ?k] => destruct (zbit v k)
  end.

Ltac expose := repeat match goal with x := _ : Z -> bool |- _ => subst x end; cbv beta.

Definition unk (v : SimValue) (k : Z) : bool := xbit v k || zbit v k.

Ltac word_bit w :=
  let k := fresh "k" in let Hk := fresh "Hk" in
  intros k Hk; cbv beta zeta;
  autorewrite with zbits; rewrite ?in_word;
  rewrite ?vget_bit, ?xget_bit, ?zget_bit, ?(word_mask_bit w k) by lia;
  expose; unfold unk; destruct (k <? w); table_cases; reflexivity.

(** Instantiate the loop rule at the bits [gv] and [gx] of the result. *)
Ltac by_bits w gv gx :=
  apply (bitwise_spec w _ _ gv gx); cbv beta zeta;
  [ lia
  | intros; auto 14 with u64 jz
  | intros; auto 14 with u64 jz
  | word_bit w
  | word_bit w
  | let k := fresh "k" in intros k _; expose; unfold unk; table_cases; reflexivity ].

Section Binary.
Context (a b : SimValue) (Ha : wf a) (Hb : wf b).
Let w := max_width a b.

Local Lemma w_bounds : 0 < w <= 256.
Proof using Ha Hb. pose proof (max_width_bounds a b Ha Hb). lia. Qed.

(** From the bits of the loop to the truth table; past the width both
    operands read 0. *)
Local Lemma table_of_bits (r : SimValue) (gv gx : Z -> bool) (t : Bit4 -> Bit4 -> Bit4) :
  wf r /\ sv_width r = w /\
  (forall k, 0 <= k -> bit_at r k = if k <? w then bit4 (gx k) false (gv k) else B0) ->
  t B0 B0 = B0 ->
  (forall k, 0 <= k -> bit4 (gx k) false (gv k) = t (bit_at a k) (bit_at b k)) ->
  wf r /\ sv_width r = w /\
  (forall k, 0 <= k -> bit_at r k = t (bit_at a k) (bit_at b k)).
Proof using Ha Hb.
  intros (W1 & W2 & W3) H0 Ht. split_and!; [done..|]. intros k Hk.
  rewrite W3 by done. destruct (Z.ltb_spec k w) as [|Hge]; [by apply Ht|].
  pose proof (max_width_bounds a b Ha Hb).
  rewrite !bit_at_high by (done || lia). done.
Qed.

Lemma sim_val_and_bits :
  wf (sim_val_and a b) /\ sv_width (sim_val_and a b) = w /\
  forall k, 0 <= k -> bit_at (sim_val_and a b) k = and4 (bit_at a k) (bit_at b k).
Proof using Ha Hb.
  pose proof w_bounds.
  set (fz := fun k => negb (vbit a k) && negb (unk a k)
                      || negb (vbit b k) && negb (unk b k)).
  set (gx := fun k => (unk a k || unk b k) && negb (fz k)).
  apply (table_of_bits _ (fun k => vbit a k && vbit b k && negb (gx k)) gx).
  - unfold sim_val_and. fold w. by_bits w
      (fun k => vbit a k && vbit b k && negb (gx k)) gx.
  - done.
  - intros k Hk. unfold gx, fz, unk, bit_at.
    destruct (wf_excl a Ha k Hk), (wf_excl b Hb k Hk).
    table_cases; naive_solver.
Qed.

Lemma sim_val_or_bits :
  wf (sim_val_or a b) /\ sv_width (sim_val_or a b) = w /\
  forall k, 0 <= k -> bit_at (sim_val_or a b) k = or4 (bit_at a k) (bit_at b k).
Proof using Ha Hb.
  pose proof w_bounds.
  set (fo := fun k => vbit a k && negb (unk a k) || vbit b k && negb (unk b k)).
  set (gx := fun k => (unk a k || unk b k) && negb (fo k)).
  set (gv := fun k => (vbit a k || vbit b k) && negb (gx k)).
  apply (table_of_bits _ gv gx).
  - unfold sim_val_or. fold w. by_bits w gv gx.
  - done.
  - intros k Hk. unfold gv, gx, fo, unk, bit_at.
    destruct (wf_excl a Ha k Hk), (wf_excl b Hb k Hk).
    table_cases; naive_solver.
Qed.

Lemma sim_val_xor_bits :
  wf (sim_val_xor a b) /\ sv_width (sim_val_xor a b) = w /\
  forall k, 0 <= k -> bit_at (sim_val_xor a b) k = xor4 (bit_at a k) (bit_at b k).
Proof using Ha Hb.
  pose proof w_bounds.
  set (gx := fun k => unk a k || unk b k).
  set (gv := fun k => xorb (vbit a k) (vbit b k) && negb (gx k)).
  apply (table_of_bits _ gv gx).
  - unfold sim_val_xor. fold w. by_bits w gv gx.
  - done.
  - intros k Hk. unfold gv, gx, unk, bit_at. by table_cases.
Qed.

(** Both branches of a select on an unknown condition. *)
Lemma ternary_merge_bits cond :
  truth cond = None -> 0 < sv_width cond ->
  wf (sim_val_ternary cond a b) /\ sv_width (sim_val_ternary cond a b) = w /\
  forall k, 0 <= k ->
    bit_at (sim_val_ternary cond a b) k = merge4 (bit_at a k) (bit_at b k).
Proof using Ha Hb.
  intros Hc Hcw. pose proof w_bounds.
  pose proof (max_width_bounds a b Ha Hb).
  set (gx := fun k => xorb (vbit a k) (vbit b k) || unk a k || unk b k).
  set (gv := fun k => vbit a k && negb (gx k)).
  apply (table_of_bits _ gv gx).
  - unfold sim_val_ternary. fold w. rewrite sim_val_is_true_truth, Hc by done.
    simpl Z.eqb. cbv iota.
    apply (bitwise_spec w _ _ gv gx); cbv beta zeta.
    + lia.
    + intros; auto 14 with u64 jz.
    + intros; auto 14 with u64 jz.
    + intros k Hk. autorewrite with zbits. rewrite ?in_word.
      rewrite ?vget_bit, ?xget_bit, ?zget_bit, ?word_mask_bit by lia.
      expose. unfold unk. destruct (Z.ltb_spec k w); [by table_cases|].
      by destruct (wf_high a Ha k) as (-> & _); [lia|].
    + word_bit w.
    + intros k _. expose. unfold unk. by table_cases.
  - done.
  - intros k Hk. unfold gv, gx, unk, bit_at. by table_cases.
Qed.
End Binary.

Lemma sim_val_not_bits a :
  wf a ->
  wf (sim_val_not a) /\ sv_width (sim_val_not a) = sv_width a /\
  forall k, 0 <= k < sv_width a -> bit_at (sim_val_not a) k = not4 (bit_at a k).
Proof.
  intros Ha. pose proof (wf_width a Ha).
  set (gv := fun k => negb (vbit a k) && negb (unk a k)).
  destruct (bitwise_spec (sv_width a)
    (fun i => (.~ vget a i .& word_mask (sv_width a) i)
       .& .~ ((xget a i .| zget a i) .& word_mask (sv_width a) i))
    (fun i => (xget a i .| zget a i) .& word_mask (sv_width a) i) gv (unk a))
    as (W1 & W2 & W3);
    [ lia | intros; auto 14 with u64 jz | intros; auto 14 with u64 jz
    | word_bit (sv_width a) | word_bit (sv_width a)
    | intros k _; unfold gv, unk; by table_cases |].
  split_and!; [done..|]. intros k Hk. change (sim_val_not a) with
    (for_up (nwords (sv_width a)) (fun i r =>
       set_xmask i ((xget a i .| zget a i) .& word_mask (sv_width a) i)
         (set_val i ((.~ vget a i .& word_mask (sv_width a) i)
            .& .~ ((xget a i .| zget a i) .& word_mask (sv_width a) i)) r))
       (sim_val_zero (sv_width a))).
  rewrite W3 by lia. destruct (Z.ltb_spec k (sv_width a)); [|lia].
  unfold gv, unk, bit_at. by table_cases.
Qed.

(** ** Negation *)

Lemma not_known a :
  wf a -> known a -> is_num (sim_val_not a) (sv_width a) (2 ^ sv_width a - 1 - sv_uint a).
Proof.
  intros Ha Ka. destruct (sim_val_not_bits a Ha) as (W1 & W2 & W3).
  pose proof (wf_width a Ha). pose proof (sv_uint_bounds a Ha).
  assert (known (sim_val_not a)) as Kn.
  { intros k Hk. rewrite W2 in Hk. rewrite W3 by done.
    specialize (Ka k Hk). by destruct (bit_at a k). }
  constructor; [done..|]. apply sv_uint_bits_eq; [auto with jz|lia|]. intros k Hk.
  replace (2 ^ sv_width a - 1 - sv_uint a) with (Z.ones (sv_width a) - sv_uint a)
    by (rewrite Z.ones_equiv; lia).
  assert (forall j, 0 <= j ->
    Z.testbit (sv_uint a) j = (j <? sv_width a) && vbit a j) as Hu.
  { intros j Hj. rewrite sv_uint_testbit by auto with jz.
    destruct (Z.ltb_spec j (sv_width a)); [done|]. by apply (wf_high a Ha). }
  rewrite Z.sub_nocarry_ldiff.
  - rewrite Z.ldiff_spec, testbit_ones, Hu by lia.
    destruct (Z.leb_spec 0 k), (Z.ltb_spec k (sv_width a)); try lia; simpl.
    + specialize (W3 k ltac:(lia)). specialize (Ka k ltac:(lia)). revert W3 Ka.
      unfold bit_at. by destruct (vbit a k), (xbit a k), (zbit a k),
        (vbit (sim_val_not a) k), (xbit (sim_val_not a) k), (zbit (sim_val_not a) k).
    + apply (wf_high _ W1). lia.
  - apply Z.bits_inj'. intros j Hj.
    rewrite Z.ldiff_spec, testbit_ones, Hu, Z.testbit_0_l by lia.
    destruct (Z.leb_spec 0 j), (j <? sv_width a), (vbit a j); done || lia.
Qed.

Lemma one_is_num w : 0 < w <= 256 -> is_num (set_val 0 1 (sim_val_zero w)) w 1.
Proof.
  intros Hw. apply set0_is_num; [done|auto with u64|]. apply Z.pow_gt_1; lia.
Qed.

Lemma neg_known a :
  wf a -> known a ->
  is_num (sim_val_neg a) (sv_width a) ((- sv_uint a) mod 2 ^ sv_width a).
Proof.
  intros Ha Ka. pose proof (wf_width a Ha) as Hw.
  unfold sim_val_neg. rewrite known_has_xz by done.
  destruct (not_known a Ha Ka) as [N1 N2 N3 N4].
  destruct (one_is_num (sv_width a) Hw) as [O1 O2 O3 O4].
  pose proof (add_known _ _ N1 O1 N2 O2) as H.
  rewrite max_width_max, N3, O3, Z.max_id, N4, O4 in H.
  replace (2 ^ sv_width a - 1 - sv_uint a + 1)
    with (- sv_uint a + 1 * 2 ^ sv_width a) in H by lia.
  rewrite Z.mod_add in H by lia. exact H.
Qed.

(** * Concatenation, slicing and extension, bit by bit *)


Local Open Scope Z_scope.
Local Open Scope jz_scope.

(** ** Slices *)

(** The word [sim_val_slice] assembles at index [ri] from one array. *)
Definition slice_word (get : Z -> Z) (lsb ri : Z) : Z :=
  let wi := (lsb + ri * 64) / 64 in
  let bi := (lsb + ri * 64) mod 64 in
  (if wi <? SIM_VAL_WORDS then get wi .>> bi else 0)
    .| (if (0 <? bi) && (wi + 1 <? SIM_VAL_WORDS)
        then get (wi + 1) .<< (64 - bi) else 0).

Lemma words_bit l i j :
  words_ok 4 l -> 0 <= j < 64 ->
  Z.testbit (aget 0 l i) j = wbit l (64 * i + j).
Proof. intros Hl Hj. unfold wbit. by rewrite div_word, mod_word by done. Qed.

Lemma words_out l i : words_ok 4 l -> 4 <= i -> aget 0 l i = 0.
Proof. intros [Hl _] Hi. apply aget_out. rewrite Hl. lia. Qed.

Lemma slice_word_bit l lsb i j :
  words_ok 4 l -> 0 <= j < 64 -> 0 <= lsb -> 0 <= i ->
  Z.testbit (slice_word (aget 0 l) lsb i) j = wbit l (lsb + 64 * i + j).
Proof.
  intros Hl Hj Hlsb Hi. unfold slice_word, SIM_VAL_WORDS.
  set (wi := (lsb + i * 64) / 64). set (bi := (lsb + i * 64) mod 64).
  assert (lsb + 64 * i = 64 * wi + bi) as E
    by (subst wi bi; rewrite word_index; lia).
  assert (0 <= bi < 64) as Hbi by apply bit_index_bounds.
  assert (0 <= wi) as Hwi by (apply word_index_nonneg; lia).
  rewrite E, Z.lor_spec. clearbody wi bi.
  assert (Z.testbit (if wi <? 4 then aget 0 l wi .>> bi else 0) j
    = if j + bi <? 64 then wbit l (64 * wi + bi + j) else false) as ->.
  { pose proof (words_ok_aget 4 l wi Hl) as [_ U]%is_u64_bits.
    destruct (Z.ltb_spec wi 4).
    - rewrite testbit_shr64 by lia. destruct (Z.ltb_spec (j + bi) 64).
      + rewrite words_bit by (done || lia). f_equal. lia.
      + apply U. lia.
    - rewrite Z.testbit_0_l. destruct (Z.ltb_spec (j + bi) 64); [|done].
      rewrite <- Z.add_assoc, (Z.add_comm bi), <- words_bit by (done || lia).
      by rewrite words_out, Z.testbit_0_l by (done || lia). }
  destruct (Z.ltb_spec (j + bi) 64).
  - destruct ((0 <? bi) && _); [|by rewrite Z.testbit_0_l, orb_false_r].
    rewrite testbit_shl64, (Z.testbit_neg_r _ (j - (64 - bi))) by lia.
    by rewrite andb_false_r, orb_false_r.
  - simpl. destruct (Z.ltb_spec 0 bi); [|lia]. simpl.
    assert (wbit l (64 * wi + bi + j) = Z.testbit (aget 0 l (wi + 1)) (j + bi - 64)) as ->.
    { rewrite words_bit by (done || lia). f_equal. lia. }
    destruct (Z.ltb_spec (wi + 1) 4).
    + rewrite testbit_shl64 by lia. destruct (Z.ltb_spec j 64); [|lia].
      simpl. f_equal. lia.
    + by rewrite words_out, !Z.testbit_0_l by (done || lia).
Qed.

Lemma is_u64_slice_word l lsb i : words_ok 4 l -> is_u64 (slice_word (aget 0 l) lsb i).
Proof.
  intros Hl. unfold slice_word. pose proof (bit_index_bounds (lsb + i * 64)).
  apply is_u64_lor.
  - destruct (_ <? _); auto with u64.
    apply is_u64_shr64; [lia|]. eauto with u64.
  - destruct (_ && _); auto with u64.
Qed.

(** One iteration of the loop of [sim_val_slice]. *)
Definition slice_body (v : SimValue) (lsb ri : Z) (r : SimValue) : SimValue :=
  let src_bit := lsb + ri * 64 in
  let src_wi := Z.quot src_bit 64 in
  let src_bi := Z.rem src_bit 64 in
  let r :=
    if src_wi <? SIM_VAL_WORDS then
      set_zmask ri (zget v src_wi .>> src_bi)
        (set_xmask ri (xget v src_wi .>> src_bi)
           (set_val ri (vget v src_wi .>> src_bi) r))
    else r in
  if (0 <? src_bi) && (src_wi + 1 <? SIM_VAL_WORDS) then
    set_zmask ri (zget r ri .| (zget v (src_wi + 1) .<< (64 - src_bi)))
      (set_xmask ri (xget r ri .| (xget v (src_wi + 1) .<< (64 - src_bi)))
         (set_val ri (vget r ri .| (vget v (src_wi + 1) .<< (64 - src_bi))) r))
  else r.

Lemma denotes_set_all r w f1 f2 f3 i x y z :
  denotes r w f1 f2 f3 -> 0 <= i < 4 -> is_u64 x -> is_u64 y -> is_u64 z ->
  denotes (set_zmask i z (set_xmask i y (set_val i x r))) w
    (fun j => if i =? j then x else f1 j)
    (fun j => if i =? j then y else f2 j)
    (fun j => if i =? j then z else f3 j).
Proof.
  intros. apply denotes_set_zmask; [|done..]. apply denotes_set_xmask; [|done..].
  by apply denotes_set_val.
Qed.

Lemma stores_slice v lsb n :
  shaped v -> 0 <= lsb -> (n <= 4)%nat ->
  stores (slice_body v lsb) n (slice_word (vget v) lsb) (slice_word (xget v) lsb)
    (slice_word (zget v) lsb).
Proof.
  intros Hv Hlsb Hn i r w f1 f2 f3 Hi Hr E1 E2 E3. unfold slice_body, slice_word.
  rewrite Z.quot_div_nonneg, Z.rem_mod_nonneg by lia.
  set (wi := (lsb + i * 64) / 64). set (bi := (lsb + i * 64) mod 64).
  assert (0 <= bi < 64) as Hbi by apply bit_index_bounds. clearbody wi bi.
  cbv zeta. unfold SIM_VAL_WORDS.
  destruct (den_get _ _ _ _ _ Hr i ltac:(lia)) as (G1 & G2 & G3).
  assert (forall g : SimValue -> Z -> Z, is_u64 (g v wi) -> is_u64 (g v wi .>> bi)) as Us
    by (intros; apply is_u64_shr64; [lia|done]).
  destruct (Z.ltb_spec wi 4).
  - pose proof (denotes_set_all r w f1 f2 f3 i (vget v wi .>> bi) (xget v wi .>> bi)
      (zget v wi .>> bi) Hr ltac:(lia) (Us vget (shaped_vget _ _ Hv))
      (Us xget (shaped_xget _ _ Hv)) (Us zget (shaped_zget _ _ Hv))) as D1.
    destruct (den_get _ _ _ _ _ D1 i ltac:(lia)) as (H1 & H2 & H3).
    rewrite !Z.eqb_refl in H1, H2, H3.
    destruct (_ && _).
    + rewrite H1, H2, H3. eapply denotes_ext; [apply denotes_set_all;
        [exact D1|lia|apply is_u64_lor; auto with u64..]|].
      intros j Hj; cbv beta. by destruct (Z.eqb_spec i j) as [<-|].
    + eapply denotes_ext; [exact D1|]. intros j Hj; cbv beta. rewrite !Z.lor_0_r.
      by destruct (Z.eqb_spec i j) as [<-|].
  - destruct (_ && _) eqn:Eb.
    + apply andb_true_iff in Eb as [_ Eb%Z.ltb_lt]. lia.
    + eapply denotes_ext; [exact Hr|]. intros j Hj; cbv beta. rewrite !Z.lor_0_r.
      destruct (Z.eqb_spec i j) as [<-|]; [|done]. split_and!; congruence.
Qed.

Lemma sim_val_slice_bits v msb lsb :
  wf v -> 0 <= lsb <= msb -> msb - lsb + 1 <= 256 ->
  wf (sim_val_slice v msb lsb) /\
  sv_width (sim_val_slice v msb lsb) = msb - lsb + 1 /\
  forall k, 0 <= k < msb - lsb + 1 -> bit_at (sim_val_slice v msb lsb) k = bit_at v (lsb + k).
Proof.
  intros Hv Hl Hw. unfold sim_val_slice. set (rw := msb - lsb + 1) in *.
  destruct (Z.leb_spec rw 0); [lia|].
  change (for_up (nwords rw) _ _) with
    (for_up (nwords rw) (slice_body v lsb) (sim_val_zero rw)).
  pose proof (denotes_for_up _ _ rw _ _ _ (nwords_le4 rw Hw)
    (stores_slice v lsb _ (wf_shaped v Hv) ltac:(lia) (nwords_le4 rw Hw))) as D.
  set (r := for_up _ _ _) in *.
  pose proof (denotes_shaped _ _ _ _ _ D ltac:(lia)) as Hs.
  assert (sv_width r = rw) as Hwr by apply D.
  pose proof (num_words_bounds rw ltac:(lia)) as Hnw.
  assert (forall k, 0 <= k < rw -> vbit r k = vbit v (lsb + k) /\
    xbit r k = xbit v (lsb + k) /\ zbit r k = zbit v (lsb + k)) as Hb.
  { intros k Hk. rewrite (denotes_vbit D), (denotes_xbit D), (denotes_zbit D) by lia.
    unfold upto. rewrite nwords_num. pose proof (word_index_lt k (num_words rw)).
    destruct (Z.ltb_spec k 256), (Z.ltb_spec (k / 64) (num_words rw)); try lia.
    pose proof (word_index_nonneg k ltac:(lia)). pose proof (word_index k).
    destruct Hv. unfold vbit, xbit, zbit, vget, xget, zget.
    rewrite !slice_word_bit by (done || lia || apply bit_index_bounds).
    by replace (lsb + 64 * (k / 64) + k mod 64) with (lsb + k) by lia. }
  split_and!.
  - apply sim_val_mask_wf; [done|]. intros k Hk. rewrite Hwr in Hk.
    destruct (Hb k Hk) as (-> & -> & ->). apply (wf_excl v Hv). lia.
  - by rewrite sim_val_mask_width.
  - intros k Hk. rewrite sim_val_mask_bit_at by (done || lia). unfold bit_at.
    by destruct (Hb k Hk) as (-> & -> & ->).
Qed.

(** ** Concatenation *)

(** The effect of [concat_word] on one array. *)
Definition or_word (l : list Z) (x wi bi : Z) : list Z :=
  let l := if wi <? SIM_VAL_WORDS then aset l wi (aget 0 l wi .| (x .<< bi)) else l in
  if (0 <? bi) && (wi + 1 <? SIM_VAL_WORDS)
  then aset l (wi + 1) (aget 0 l (wi + 1) .| (x .>> (64 - bi))) else l.

Lemma concat_word_arrays o shift si r :
  let wi := (shift + si * 64) / 64 in
  let bi := (shift + si * 64) mod 64 in
  let m := word_mask (sv_width o) si in
  concat_word o shift si r =
  mkSimValue (or_word (sv_val r) (vget o si .& m) wi bi)
    (or_word (sv_xmask r) (xget o si .& m) wi bi)
    (or_word (sv_zmask r) (zget o si .& m) wi bi) (sv_width r).
Proof.
  cbv zeta. unfold concat_word, or_word. cbv zeta.
  generalize ((shift + si * 64) / 64), ((shift + si * 64) mod 64). intros wi bi.
  destruct (wi <? SIM_VAL_WORDS), ((0 <? bi) && (wi + 1 <? SIM_VAL_WORDS));
    destruct r; reflexivity.
Qed.

Lemma or_word_ok l x wi bi :
  words_ok 4 l -> is_u64 x -> 0 <= bi < 64 -> words_ok 4 (or_word l x wi bi).
Proof.
  intros Hl Hx Hbi. unfold or_word.
  assert (words_ok 4 (if wi <? SIM_VAL_WORDS
    then aset l wi (aget 0 l wi .| (x .<< bi)) else l)) as H1
    by (destruct (_ <? _); eauto with u64).
  destruct (_ && _); [|done].
  apply words_ok_aset; [done|]. apply is_u64_lor; [eauto with u64|].
  apply is_u64_shr64; [lia|done].
Qed.

(** It adds the 64 bits of [x] at position [p]; bits past the array vanish. *)
Lemma or_word_bit l x p k :
  words_ok 4 l -> is_u64 x -> 0 <= p -> 0 <= k < 256 ->
  wbit (or_word l x (p / 64) (p mod 64)) k = wbit l k || Z.testbit x (k - p).
Proof.
  intros Hl Hx Hp Hk. unfold or_word, SIM_VAL_WORDS.
  pose proof (bit_index_bounds p) as Hbi. pose proof (word_index p) as Ep.
  pose proof (word_index_nonneg p Hp) as Hwi.
  set (wi := p / 64) in *. set (bi := p mod 64) in *. clearbody wi bi.
  pose proof (bit_index_bounds k) as Hj. pose proof (word_index k) as Ek.
  pose proof (word_index_nonneg k ltac:(lia)) as Hi.
  apply is_u64_bits in Hx as [_ Hx].
  set (l1 := if wi <? 4 then aset l wi (aget 0 l wi .| (x .<< bi)) else l).
  assert (length l1 = 4%nat) as Hl1.
  { unfold l1. destruct (_ <? _); rewrite ?length_aset; apply Hl. }
  assert (wbit l1 k = wbit l k || ((k / 64 =? wi) && Z.testbit x (k - p))) as E1.
  { unfold l1. destruct (Z.ltb_spec wi 4).
    - rewrite wbit_aset by (apply Hl || lia).
      rewrite (Z.eqb_sym wi). destruct (Z.eqb_spec (k / 64) wi) as [<-|].
      + rewrite Z.lor_spec, testbit_shl64 by lia. unfold wbit.
        destruct (Z.ltb_spec (k mod 64) 64); [|lia]. simpl. do 2 f_equal. lia.
      + by rewrite orb_false_r.
    - destruct (Z.eqb_spec (k / 64) wi); [lia|]. by rewrite orb_false_r. }
  assert (wbit (if (0 <? bi) && (wi + 1 <? 4)
      then aset l1 (wi + 1) (aget 0 l1 (wi + 1) .| (x .>> (64 - bi))) else l1) k
    = wbit l1 k || ((k / 64 =? wi + 1) && (0 <? bi) && Z.testbit x (k - p))) as ->.
  { destruct (Z.ltb_spec 0 bi); simpl; [|by rewrite andb_false_r, orb_false_r].
    rewrite andb_true_r. destruct (Z.ltb_spec (wi + 1) 4).
    - rewrite wbit_aset by (done || lia).
      rewrite (Z.eqb_sym (wi + 1)). destruct (Z.eqb_spec (k / 64) (wi + 1)) as [E|].
      + rewrite <- E, Z.lor_spec, testbit_shr64 by lia. unfold wbit.
        replace (k mod 64 + (64 - bi)) with (k - p); [done|]. rewrite E in Ek. lia.
      + by rewrite orb_false_r.
    - destruct (Z.eqb_spec (k / 64) (wi + 1)); [lia|]. by rewrite orb_false_r. }
  rewrite E1, <- orb_assoc. f_equal.
  destruct (Z.eqb_spec (k / 64) wi), (Z.eqb_spec (k / 64) (wi + 1)),
    (Z.ltb_spec 0 bi); try lia; simpl; rewrite ?orb_false_r; try done;
    symmetry; destruct (Z.lt_ge_cases k p); (apply Z.testbit_neg_r; lia) || (apply Hx; lia).
Qed.

(** The inner loop over the words of one operand. *)
Definition concat_inner (o : SimValue) (shift : Z) (n : nat) (r : SimValue) : SimValue :=
  for_up n (concat_word o shift) r.

Section ConcatOperand.
Context (o : SimValue) (shift : Z).
Context (Ho : wf o) (Hshift : 0 <= shift).

Let below (m : nat) (k : Z) : bool :=
  (shift <=? k) && (k <? shift + 64 * Z.of_nat m).

(** Adding word [m] of one array extends the part already copied. *)
Local Lemma concat_word_bit (l : list Z) (m : nat) (b0 : bool) k :
  words_ok 4 l -> 0 <= k < 256 ->
  (forall j, sv_width o <= j -> wbit l j = false) ->
  b0 || (below m k && wbit l (k - shift))
    || Z.testbit (aget 0 l (Z.of_nat m) .& word_mask (sv_width o) (Z.of_nat m))
         (k - (shift + Z.of_nat m * 64))
  = b0 || (below (S m) k && wbit l (k - shift)).
Proof using Ho Hshift.
  intros Hl Hk Hh. rewrite <- orb_assoc. f_equal. unfold below.
  pose proof (wf_width o Ho). pose proof (words_ok_aget 4 l (Z.of_nat m) Hl) as HU.
  apply is_u64_bits in HU as [_ HU]. rewrite Z.land_spec.
  destruct (Z.lt_ge_cases k (shift + Z.of_nat m * 64)) as [Hlt|Hge].
  - rewrite Z.testbit_neg_r, andb_false_l, orb_false_r by lia.
    destruct (Z.leb_spec shift k), (Z.ltb_spec k (shift + 64 * Z.of_nat m)),
      (Z.ltb_spec k (shift + 64 * Z.of_nat (S m))); done || lia.
  - destruct (Z.lt_ge_cases (k - (shift + Z.of_nat m * 64)) 64).
    + rewrite words_bit, testbit_word_mask by (done || lia).
      replace (64 * Z.of_nat m + (k - (shift + Z.of_nat m * 64)))
        with (k - shift) by lia.
      destruct (Z.leb_spec shift k), (Z.ltb_spec k (shift + 64 * Z.of_nat m)),
        (Z.ltb_spec k (shift + 64 * Z.of_nat (S m))); try lia. simpl.
      destruct (Z.ltb_spec (k - shift) (sv_width o)); [apply andb_true_r|].
      by rewrite Hh by lia.
    + rewrite HU, orb_false_r by lia.
      destruct (Z.leb_spec shift k), (Z.ltb_spec k (shift + 64 * Z.of_nat m)),
        (Z.ltb_spec k (shift + 64 * Z.of_nat (S m))); done || lia.
Qed.

Local Lemma concat_inner_bits n r :
  shaped r ->
  let t := concat_inner o shift n r in
  shaped t /\ sv_width t = sv_width r /\
  forall k, 0 <= k < 256 ->
    vbit t k = vbit r k || (below n k && vbit o (k - shift)) /\
    xbit t k = xbit r k || (below n k && xbit o (k - shift)) /\
    zbit t k = zbit r k || (below n k && zbit o (k - shift)).
Proof using Ho Hshift.
  intros Hr. induction n as [|m IH].
  { simpl. split_and!; [done..|]. intros k Hk. unfold below.
    destruct (Z.leb_spec shift k), (Z.ltb_spec k (shift + 64 * Z.of_nat 0)); try lia;
      by rewrite !orb_false_r. }
  destruct IH as (S1 & S2 & S3). cbv zeta. unfold concat_inner in *. cbn [for_up].
  set (t := for_up m (concat_word o shift) r) in *.
  rewrite concat_word_arrays.
  pose proof (bit_index_bounds (shift + Z.of_nat m * 64)).
  destruct S1 as [T1 T2 T3 T4]. destruct Ho as [O1 O2 O3 O4 O5 O6].
  assert (forall l, words_ok 4 l ->
    is_u64 (aget 0 l (Z.of_nat m) .& word_mask (sv_width o) (Z.of_nat m))) as HU
    by eauto with u64.
  split_and!; [constructor; [done|..]; apply or_word_ok; done || by apply HU|done|].
  intros k Hk. unfold vbit at 1, xbit at 1, zbit at 1. cbn [sv_val sv_xmask sv_zmask].
  rewrite !or_word_bit by (done || lia || by apply HU).
  destruct (S3 k Hk) as (E1 & E2 & E3). unfold vbit, xbit, zbit in *.
  rewrite E1, E2, E3. split_and!; apply concat_word_bit; try done; intros j Hj;
    apply (O5 j Hj).
Qed.
End ConcatOperand.

Lemma concat_operand o shift r :
  wf o -> shaped r -> 0 <= shift ->
  let t := for_up (nwords (sv_width o)) (concat_word o shift) r in
  shaped t /\ sv_width t = sv_width r /\
  forall k, 0 <= k < 256 ->
    vbit t k = vbit r k || ((shift <=? k) && vbit o (k - shift)) /\
    xbit t k = xbit r k || ((shift <=? k) && xbit o (k - shift)) /\
    zbit t k = zbit r k || ((shift <=? k) && zbit o (k - shift)).
Proof.
  intros Ho Hr Hs t. pose proof (wf_width o Ho).
  destruct (concat_inner_bits o shift Ho Hs (nwords (sv_width o)) r Hr) as (S1 & S2 & S3).
  split_and!; [done..|]. intros k Hk. destruct (S3 k Hk) as (E1 & E2 & E3).
  pose proof (num_words_bounds (sv_width o) ltac:(lia)).
  rewrite nwords_num in E1, E2, E3.
  unfold t. change (for_up _ _ r) with (concat_inner o shift (nwords (sv_width o)) r).
  rewrite E1, E2, E3.
  destruct (Z.ltb_spec k (shift + 64 * num_words (sv_width o))).
  - by rewrite !andb_true_r.
  - destruct (wf_high o Ho (k - shift) ltac:(lia)) as (-> & -> & ->).
    by rewrite !andb_false_r.
Qed.

(** Bit [k] of the operands [vs], the least significant operand first. *)
Fixpoint cat_at {A} (d : A) (bit : SimValue -> Z -> A) (vs : list SimValue) (k : Z) : A :=
  match vs with
  | [] => d
  | v :: vs' =>
      if k <? sv_width v then bit v k else cat_at d bit vs' (k - sv_width v)
  end.

Definition cat_width (vs : list SimValue) : Z :=
  foldr (fun v t => sv_width v + t) 0 vs.

Lemma foldl_width vs t :
  foldl (fun t v => t + sv_width v) t vs = t + cat_width vs.
Proof.
  revert t. induction vs as [|v vs IH]; intros t; simpl; [lia|]. rewrite IH. lia.
Qed.

Lemma cat_width_app vs ws : cat_width (vs ++ ws) = cat_width vs + cat_width ws.
Proof. induction vs as [|v vs IH]; simpl; [done|]. rewrite IH. lia. Qed.

Lemma cat_width_rev vs : cat_width (rev vs) = cat_width vs.
Proof.
  induction vs as [|v vs IH]; simpl; [done|]. rewrite cat_width_app, IH. simpl. lia.
Qed.

Lemma cat_width_nonneg vs : Forall wf vs -> 0 <= cat_width vs.
Proof.
  induction 1 as [|v vs Hv _ IH]; simpl; [lia|]. pose proof (wf_width v Hv). lia.
Qed.

Lemma cat_at_bit4 vs k :
  bit4 (cat_at false xbit vs k) (cat_at false zbit vs k) (cat_at false vbit vs k)
  = cat_at B0 bit_at vs k.
Proof.
  revert k. induction vs as [|v vs IH]; intros k; simpl; [done|].
  by destruct (_ <? _).
Qed.

Lemma cat_at_app {A} (d : A) bit xs ys k :
  Forall wf xs -> 0 <= k ->
  cat_at d bit (xs ++ ys) k =
  if k <? cat_width xs then cat_at d bit xs k else cat_at d bit ys (k - cat_width xs).
Proof.
  intros H. revert k. induction H as [|v vs Hv Hvs IH]; intros k Hk; simpl.
  { destruct (Z.ltb_spec k 0); [lia|]. f_equal. lia. }
  pose proof (wf_width v Hv). pose proof (cat_width_nonneg vs Hvs).
  destruct (Z.ltb_spec k (sv_width v)).
  - destruct (Z.ltb_spec k (sv_width v + cat_width vs)); [done|lia].
  - rewrite IH by lia.
    destruct (Z.ltb_spec (k - sv_width v) (cat_width vs)),
      (Z.ltb_spec k (sv_width v + cat_width vs)); try lia; [done|]. f_equal. lia.
Qed.

(** The fold of [sim_val_concat] over its operands. *)
Definition concat_step : SimValue * Z -> SimValue -> SimValue * Z := fun '(r, shift) o =>
  (for_up (nwords (sv_width o)) (concat_word o shift) r, shift + sv_width o).

Lemma concat_fold vs r shift :
  Forall wf vs -> shaped r -> 0 <= shift ->
  (forall k, shift <= k < 256 -> vbit r k = false /\ xbit r k = false /\ zbit r k = false) ->
  let t := fst (foldl concat_step (r, shift) vs) in
  shaped t /\ sv_width t = sv_width r /\
  forall k, 0 <= k < 256 ->
    vbit t k = (if k <? shift then vbit r k else cat_at false vbit vs (k - shift)) /\
    xbit t k = (if k <? shift then xbit r k else cat_at false xbit vs (k - shift)) /\
    zbit t k = (if k <? shift then zbit r k else cat_at false zbit vs (k - shift)).
Proof.
  intros Hvs. revert r shift.
  induction Hvs as [|o vs Ho Hvs IH]; intros r shift Hr Hs Hhigh.
  { simpl. split_and!; [done..|]. intros k Hk. destruct (Z.ltb_spec k shift); [done|].
    apply Hhigh. lia. }
  destruct (concat_operand o shift r Ho Hr Hs) as (S1 & S2 & S3).
  pose proof (wf_width o Ho) as Hw. cbv zeta. simpl foldl.
  set (r1 := for_up _ _ r) in *.
  destruct (IH r1 (shift + sv_width o)) as (T1 & T2 & T3); [done|lia| |].
  { intros k Hk. destruct (S3 k ltac:(lia)) as (-> & -> & ->).
    destruct (Hhigh k ltac:(lia)) as (-> & -> & ->).
    destruct (wf_high o Ho (k - shift) ltac:(lia)) as (-> & -> & ->).
    by rewrite !andb_false_r. }
  split_and!; [done|by rewrite T2|]. intros k Hk.
  destruct (T3 k Hk) as (-> & -> & ->). destruct (S3 k Hk) as (-> & -> & ->). simpl.
  destruct (Z.ltb_spec k shift).
  - destruct (Z.ltb_spec k (shift + sv_width o)), (Z.leb_spec shift k); try lia.
    by rewrite !orb_false_r.
  - destruct (Hhigh k ltac:(lia)) as (-> & -> & ->).
    destruct (Z.leb_spec shift k), (Z.ltb_spec k (shift + sv_width o)),
      (Z.ltb_spec (k - shift) (sv_width o)); try lia; [done|].
    by replace (k - (shift + sv_width o)) with (k - shift - sv_width o) by lia.
Qed.

Lemma cat_at_excl vs k :
  Forall wf vs -> 0 <= k ->
  (cat_at false xbit vs k = true -> cat_at false vbit vs k = false /\ cat_at false zbit vs k = false)
  /\ (cat_at false zbit vs k = true -> cat_at false vbit vs k = false).
Proof.
  intros H. revert k. induction H as [|v vs Hv _ IH]; intros k Hk; simpl; [done|].
  destruct (Z.ltb_spec k (sv_width v)); [by apply wf_excl|]. apply IH. lia.
Qed.

Lemma sim_val_concat_bits vals :
  Forall wf vals -> vals <> [] ->
  wf (sim_val_concat vals) /\
  sv_width (sim_val_concat vals) = Z.min 256 (cat_width vals) /\
  forall k, 0 <= k < Z.min 256 (cat_width vals) ->
    bit_at (sim_val_concat vals) k = cat_at B0 bit_at (rev vals) k.
Proof.
  intros Hv Hne. unfold sim_val_concat. cbv zeta. rewrite foldl_width, Z.add_0_l.
  assert ((if SIM_VAL_WORDS * 64 <? cat_width vals then SIM_VAL_WORDS * 64
    else cat_width vals) = Z.min 256 (cat_width vals)) as ->.
  { unfold SIM_VAL_WORDS. destruct (Z.ltb_spec (4 * 64) (cat_width vals)); lia. }
  assert (0 < cat_width vals) as Hpos.
  { destruct Hv as [|v vs Hv Hvs]; [done|]. simpl.
    pose proof (cat_width_nonneg vs Hvs). pose proof (wf_width v Hv). lia. }
  set (w := Z.min 256 (cat_width vals)).
  change (foldl _ _ (rev vals)) with (foldl concat_step (sim_val_zero w, 0) (rev vals)).
  assert (Forall wf (rev vals)) as Hrev by (by apply Forall_rev).
  destruct (concat_fold (rev vals) (sim_val_zero w) 0 Hrev) as (S1 & S2 & S3).
  { apply wf_shaped, sim_val_zero_wf. lia. }
  { done. }
  { intros k Hk. split_and!; apply sim_val_zero_bits; lia. }
  destruct (foldl _ _ _) as [t sh]. simpl in *.
  assert (sv_width t = w) as Hw by exact S2.
  split_and!.
  - apply sim_val_mask_wf; [done|]. intros k Hk. rewrite Hw in Hk.
    destruct (S3 k ltac:(lia)) as (-> & -> & ->).
    destruct (Z.ltb_spec k 0); [lia|]. apply cat_at_excl; [done|lia].
  - by rewrite sim_val_mask_width.
  - intros k Hk. rewrite sim_val_mask_bit_at by (done || lia). unfold bit_at.
    destruct (S3 k ltac:(lia)) as (-> & -> & ->).
    destruct (Z.ltb_spec k 0); [lia|]. rewrite Z.sub_0_r. apply cat_at_bit4.
Qed.

(** ** Extension *)

Lemma sim_val_zext_bits v w :
  wf v -> w <= 256 ->
  wf (sim_val_zext v w) /\ sv_width (sim_val_zext v w) = Z.max (sv_width v) w /\
  forall k, 0 <= k -> bit_at (sim_val_zext v w) k = bit_at v k.
Proof.
  intros Hv Hw. unfold sim_val_zext. destruct (Z.leb_spec w (sv_width v)).
  - split_and!; [done|lia|done].
  - split_and!; [apply set_width_wf; done || lia|simpl; lia|done].
Qed.

(** The bit that sign extension repeats. *)
Definition sign4 (b : Bit4) : Bit4 := match b with BX => BX | B1 => B1 | _ => B0 end.

(** Or-ing one bit into [xmask]. *)
Definition or_x (bit : Z) (r : SimValue) : SimValue :=
  set_xmask (bit / 64) (xget r (bit / 64) .| (1 .<< (bit mod 64))) r.

Lemma or_x_spec r bit :
  shaped r -> 0 <= bit < 256 ->
  shaped (or_x bit r) /\ sv_width (or_x bit r) = sv_width r /\
  forall k, 0 <= k ->
    vbit (or_x bit r) k = vbit r k /\
    xbit (or_x bit r) k = (k =? bit) || xbit r k /\
    zbit (or_x bit r) k = zbit r k.
Proof.
  intros Hr Hb. pose proof (bit_index_bounds bit).
  assert (0 <= bit / 64 < 4) as Hi.
  { pose proof (word_index_nonneg bit). pose proof (word_index_lt bit 4). lia. }
  unfold or_x. split_and!.
  - pose proof (shaped_xget r (bit / 64) Hr). destruct Hr.
    constructor; try done. simpl. auto with u64.
  - done.
  - intros k Hk. pose proof (bit_index_bounds k). split_and!; [done| |done].
    unfold xbit at 1. simpl. rewrite wbit_aset by (apply Hr || lia).
    rewrite <- (word_pos_eq k bit).
    destruct (Z.eqb_spec (bit / 64) (k / 64)) as [E|]; [|done].
    unfold xbit, wbit, xget. rewrite <- E, Z.lor_spec, testbit_1_shl by lia.
    by rewrite orb_comm.
Qed.

Lemma or_x_loop r base n :
  shaped r -> 0 <= base -> base + Z.of_nat n <= sv_width r ->
  let r' := for_up n (fun i r => or_x (base + i) r) r in
  shaped r' /\ sv_width r' = sv_width r /\
  forall k, 0 <= k ->
    vbit r' k = vbit r k /\
    xbit r' k = ((base <=? k) && (k <? base + Z.of_nat n)) || xbit r k /\
    zbit r' k = zbit r k.
Proof.
  intros Hr Hb. cbv zeta. induction n as [|n IH]; intros Hn.
  { simpl for_up. split_and!; [done..|]. intros k Hk. split_and!; [done| |done].
    destruct (Z.leb_spec base k), (Z.ltb_spec k (base + Z.of_nat 0)); done || lia. }
  destruct IH as (S1 & S2 & S3); [lia|]. cbn [for_up].
  set (t := for_up n _ r) in *. pose proof (sh_width r Hr).
  destruct (or_x_spec t (base + Z.of_nat n) S1 ltac:(lia)) as (T1 & T2 & T3).
  split; [done|]. split; [by rewrite T2|]. intros k Hk.
  destruct (T3 k Hk) as (-> & -> & ->). destruct (S3 k Hk) as (-> & -> & ->).
  split_and!; [done| |done].
  destruct (Z.eqb_spec k (base + Z.of_nat n)), (Z.leb_spec base k),
    (Z.ltb_spec k (base + Z.of_nat n)), (Z.ltb_spec k (base + Z.of_nat (S n)));
    done || lia.
Qed.

Lemma set_width_shaped v w : shaped v -> 0 < w <= 256 -> shaped (set_width w v).
Proof. intros [] ?. by constructor. Qed.

(** The three arrays of a sign extension. *)
Lemma sext_bits v w (s := sv_width v - 1) :
  wf v -> sv_width v < w <= 256 ->
  let r := sim_val_sext v w in
  shaped r /\ sv_width r = w /\
  forall k, 0 <= k ->
    let fill := (sv_width v <=? k) && (k <? w) in
    vbit r k = (fill && vbit v s) || vbit v k /\
    xbit r k = (fill && xbit v s) || xbit v k /\ zbit r k = zbit v k.
Proof.
  intros Hv Hw. pose proof (wf_width v Hv) as Hwv. cbv zeta. unfold sim_val_sext.
  destruct (Z.leb_spec w (sv_width v)); [lia|]. cbv zeta.
  rewrite sim_val_get_bit_wf by (done || lia).
  destruct (Z.ltb_spec 0 (sv_width v)); [|lia].
  rewrite testbit_land1 by apply bit_index_bounds. rewrite !bool_to_int_eqb0, !negb_involutive.
  change (Z.testbit (xget v ((sv_width v - 1) / 64)) ((sv_width v - 1) mod 64)) with (xbit v s).
  fold s. set (n := Z.to_nat (w - sv_width v)).
  assert (Z.of_nat n = w - sv_width v) as En by lia.
  set (r0 := set_width w v).
  assert (shaped r0) as S0 by (apply set_width_shaped; [auto with jz|lia]).
  destruct (set_bits_loop r0 (sv_width v) n S0 ltac:(lia)) as (S1 & S2 & S3); [simpl; lia|].
  set (r1 := if vbit v s then _ else r0).
  assert (shaped r1 /\ sv_width r1 = w /\ forall k, 0 <= k ->
    vbit r1 k = ((sv_width v <=? k) && (k <? w) && vbit v s) || vbit v k /\
    xbit r1 k = xbit v k /\ zbit r1 k = zbit v k) as (T1 & T2 & T3).
  { subst r1. destruct (vbit v s).
    - split_and!; [done..|]. intros k Hk. destruct (S3 k Hk) as (-> & -> & ->).
      rewrite En, andb_true_r. replace (sv_width v + (w - sv_width v)) with w by lia. done.
    - split_and!; [done..|]. intros k Hk. by rewrite andb_false_r. }
  clearbody r1. destruct (xbit v s).
  - destruct (or_x_loop r1 (sv_width v) n T1 ltac:(lia)) as (U1 & U2 & U3); [lia|].
    split_and!; [exact U1|by etrans; [exact U2|]|]. intros k Hk.
    destruct (U3 k Hk) as (V1 & V2 & V3). unfold or_x in V1, V2, V3.
    rewrite V1, V2, V3. destruct (T3 k Hk) as (-> & -> & ->).
    rewrite En, andb_true_r. replace (sv_width v + (w - sv_width v)) with w by lia. done.
  - split_and!; [done..|]. intros k Hk. destruct (T3 k Hk) as (-> & -> & ->).
    by rewrite !andb_false_r.
Qed.

Lemma sim_val_sext_bits v w :
  wf v -> w <= 256 ->
  wf (sim_val_sext v w) /\ sv_width (sim_val_sext v w) = Z.max (sv_width v) w /\
  forall k, 0 <= k < Z.max (sv_width v) w ->
    bit_at (sim_val_sext v w) k =
    if k <? sv_width v then bit_at v k else sign4 (bit_at v (sv_width v - 1)).
Proof.
  intros Hv Hw. pose proof (wf_width v Hv) as Hwv.
  destruct (Z.le_gt_cases w (sv_width v)) as [Hle|Hgt].
  { unfold sim_val_sext. destruct (Z.leb_spec w (sv_width v)); [|lia].
    split_and!; [done|lia|]. intros k Hk. destruct (Z.ltb_spec k (sv_width v)); done || lia. }
  destruct (sext_bits v w Hv) as (S1 & S2 & S3); [lia|].
  set (s := sv_width v - 1) in *. pose proof (wf_excl v Hv s) as Es.
  split_and!.
  - destruct S1. constructor; try done.
    + rewrite S2. intros k Hk. destruct (S3 k ltac:(lia)) as (-> & -> & ->).
      destruct (wf_high v Hv k) as (-> & -> & ->); [lia|].
      destruct (Z.ltb_spec k w); [lia|]. by rewrite !andb_false_r.
    + intros k Hk. destruct (S3 k Hk) as (-> & -> & ->).
      destruct (Z.leb_spec (sv_width v) k); simpl; [|by apply (wf_excl v Hv)].
      destruct (wf_high v Hv k) as (-> & -> & ->); [done|]. rewrite !orb_false_r.
      destruct (k <? w), (xbit v s), (vbit v s); simpl; try done. lia || (destruct Es as [A _]; [lia|]; by destruct (A eq_refl)).
  - lia.
  - intros k Hk. unfold bit_at. destruct (S3 k ltac:(lia)) as (-> & -> & ->).
    destruct (Z.leb_spec (sv_width v) k), (Z.ltb_spec k (sv_width v)),
      (Z.ltb_spec k w); try lia; simpl; [|done..].
    destruct (wf_high v Hv k) as (-> & -> & ->); [done|]. rewrite !orb_false_r.
    destruct Es as [_ A]; [lia|].
    destruct (xbit v s), (zbit v s), (vbit v s); simpl; try done. by discriminate A.
Qed.

(** Adding the ones of positions [v .. w - 1] to a [v]-bit number. *)
Lemma testbit_add_ones n v w k :
  0 <= n < 2 ^ v -> 0 <= v <= w -> 0 <= k ->
  Z.testbit (n + (2 ^ w - 2 ^ v)) k = ((v <=? k) && (k <? w)) || Z.testbit n k.
Proof.
  intros Hn Hv Hk.
  assert (2 ^ w - 2 ^ v = Z.shiftl (Z.ones (w - v)) v) as ->.
  { rewrite Z.shiftl_mul_pow2, Z.ones_equiv by lia.
    replace w with ((w - v) + v) at 1 by lia. rewrite Z.pow_add_r by lia. lia. }
  assert (forall j, v <= j -> Z.testbit n j = false) as Hh.
  { intros j Hj. apply Z.bounded_iff_bits_nonneg with v; lia. }
  assert (n + Z.shiftl (Z.ones (w - v)) v = Z.lor n (Z.shiftl (Z.ones (w - v)) v)) as ->.
  { rewrite <- Z.add_lor_land. replace (Z.land n (Z.shiftl (Z.ones (w - v)) v)) with 0; [lia|].
    apply Z.bits_inj'. intros j Hj. rewrite Z.testbit_0_l, Z.land_spec, Z.shiftl_spec by lia.
    destruct (Z.lt_ge_cases j v).
    - by rewrite (Z.testbit_neg_r _ (j - v)), andb_false_r by lia.
    - by rewrite Hh by lia. }
  rewrite Z.lor_spec, Z.shiftl_spec by lia.
  destruct (Z.leb_spec v k); simpl.
  - rewrite Hh, testbit_ones by lia. simpl. rewrite orb_false_r.
    destruct (Z.leb_spec 0 (k - v)), (Z.ltb_spec (k - v) (w - v)), (Z.ltb_spec k w); done || lia.
  - by rewrite (Z.testbit_neg_r _ (k - v)), orb_false_r by lia.
Qed.

(** Sign extension keeps the signed number. *)
Lemma sext_sint v w :
  wf v -> known v -> sv_width v <= w <= 256 ->
  sv_sint (sim_val_sext v w) = sv_sint v.
Proof.
  intros Hv Hk Hw. pose proof (wf_width v Hv) as Hwv.
  destruct (Z.eq_dec (sv_width v) w) as [<-|Hne].
  { unfold sim_val_sext. destruct (Z.leb_spec (sv_width v) (sv_width v)); [done|lia]. }
  destruct (sext_bits v w Hv) as (S1 & S2 & S3); [lia|].
  set (r := sim_val_sext v w) in *. set (s := sv_width v - 1) in *.
  assert (sv_uint r = if Z.testbit (sv_uint v) s then sv_uint v + (2 ^ w - 2 ^ sv_width v)
    else sv_uint v) as Hr.
  { pose proof (sv_uint_bounds v Hv).
    assert (2 ^ sv_width v <= 2 ^ w) by (apply Z.pow_le_mono_r; lia).
    apply sv_uint_bits_eq; [done|destruct (Z.testbit _ _); lia|].
    intros k Hk'. destruct (S3 k Hk') as (-> & _ & _).
    rewrite <- !(sv_uint_testbit v) by (solve [auto with jz] || (subst s; lia) || lia).
    destruct (Z.testbit (sv_uint v) s); [|by rewrite andb_false_r].
    rewrite andb_true_r. symmetry. apply testbit_add_ones; lia. }
  unfold sv_sint, sint. rewrite S2, Hr.
  assert (Z.testbit (sv_uint r) (w - 1) = Z.testbit (sv_uint v) s) as Es.
  { rewrite !sv_uint_testbit by (solve [auto with jz] || (subst s; lia) || lia).
    destruct (S3 (w - 1) ltac:(lia)) as (-> & _ & _).
    destruct (Z.leb_spec (sv_width v) (w - 1)), (Z.ltb_spec (w - 1) w); try lia.
    destruct (wf_high v Hv (w - 1)) as (-> & _); [lia|]. by rewrite orb_false_r. }
  rewrite <- Hr, Es, Hr. fold s. destruct (Z.testbit (sv_uint v) s); lia.
Qed.
