(* ===== verification/SimWf.v ===== *)
(** * Well-formedness and strictness of every value operation

    [shape r w] says that a result is well formed and has width [w].  The
    operators that reject [x] and [z] ("strict" ones) are described by two
    equations each: all [x] when an operand has an unknown bit, a number
    otherwise.  At the end, sample values for the witnesses of other files. *)

From S2P Require Import Prelude SimValue SimBits SimArith SimBitwise.


Local Open Scope Z_scope.
Local Open Scope jz_scope.

Definition shape (r : SimValue) (w : Z) : Prop := wf r /\ sv_width r = w.

Lemma is_num_shape r w n : is_num r w n -> shape r w.
Proof. by intros []. Qed.

Lemma all_x_shape w : 0 < w <= 256 -> shape (sim_val_all_x w) w.
Proof. intros. split; [by apply sim_val_all_x_wf | by apply (fill_width FX)]. Qed.

Lemma all_z_shape w : 0 < w <= 256 -> shape (sim_val_all_z w) w.
Proof. intros. split; [by apply sim_val_all_z_wf | by apply (fill_width FZ)]. Qed.

Lemma ones_shape w : 0 < w <= 256 -> shape (sim_val_ones w) w.
Proof. intros. split; [by apply sim_val_ones_wf | by apply (fill_width FVal)]. Qed.

Lemma zero_shape w : 0 < w <= 256 -> shape (sim_val_zero w) w.
Proof. intros. split; [by apply sim_val_zero_wf | done]. Qed.

Lemma cmp_x_shape : shape cmp_x 1.
Proof. by apply all_x_shape. Qed.

Lemma cmp_result_shape b : shape (cmp_result b) 1.
Proof. eapply is_num_shape, cmp_result_num. Qed.

#[export] Hint Resolve all_x_shape all_z_shape ones_shape zero_shape cmp_x_shape
  cmp_result_shape is_num_shape : jz.

Lemma wf_pos v : wf v -> 0 < sv_width v.
Proof. intros []. lia. Qed.
#[export] Hint Resolve wf_pos wf_width : jz.

Lemma wf_has_xz v : wf v -> sim_val_has_xz v = true \/ (sim_val_has_xz v = false /\ known v).
Proof.
  intros Hv. destruct (has_xz_cases v (wf_pos v Hv)) as [[? _]|[? ?]]; auto.
Qed.

Lemma max_width_range a b : wf a -> wf b -> 0 < max_width a b <= 256.
Proof. intros Ha Hb. pose proof (max_width_bounds a b Ha Hb). lia. Qed.
#[export] Hint Resolve max_width_range : jz.

(** ** Strict operators *)

Definition has_xz2 (a b : SimValue) : bool := sim_val_has_xz a || sim_val_has_xz b.

(** Split on whether both operands are known. *)
Lemma known_cases a b :
  wf a -> wf b -> has_xz2 a b = true \/ (has_xz2 a b = false /\ known a /\ known b).
Proof.
  intros Ha Hb. unfold has_xz2.
  destruct (wf_has_xz a Ha) as [-> | [-> ?]]; [by left|].
  destruct (wf_has_xz b Hb) as [-> | [-> ?]]; [by left|]. by right.
Qed.

(** Operators that return all [x] of width [w] on an unknown bit. *)
Definition strict (f : SimValue -> SimValue -> SimValue) (w : SimValue -> SimValue -> Z) : Prop :=
  forall a b, wf a -> wf b -> has_xz2 a b = true -> f a b = sim_val_all_x (w a b).

Ltac strictness :=
  intros a b Ha Hb H; unfold has_xz2 in H;
  match goal with |- ?f a b = _ => unfold f end;
  unfold arith_xz_check; rewrite ?H; try reflexivity.

Lemma add_strict : strict sim_val_add max_width.
Proof. strictness. Qed.
Lemma sub_strict : strict sim_val_sub max_width.
Proof. strictness. Qed.
Lemma mul_strict : strict sim_val_mul max_width.
Proof. strictness. Qed.
Lemma div_strict : strict sim_val_div max_width.
Proof. strictness. Qed.
Lemma mod_strict : strict sim_val_mod max_width.
Proof. strictness. Qed.
Lemma shl_strict : strict sim_val_shl (fun a _ => sv_width a).
Proof. strictness. Qed.
Lemma shr_strict : strict sim_val_shr (fun a _ => sv_width a).
Proof. strictness. Qed.
Lemma ashr_strict : strict sim_val_ashr (fun a _ => sv_width a).
Proof. strictness. Qed.
Lemma eq_strict : strict sim_val_eq (fun _ _ => 1).
Proof. strictness. Qed.
Lemma neq_strict : strict sim_val_neq (fun _ _ => 1).
Proof. strictness. Qed.
Lemma lt_strict : strict sim_val_lt (fun _ _ => 1).
Proof. strictness. Qed.
Lemma lte_strict : strict sim_val_lte (fun _ _ => 1).
Proof. strictness. Qed.
Lemma gt_strict : strict sim_val_gt (fun _ _ => 1).
Proof. strictness. rewrite orb_comm in H. by apply lt_strict. Qed.
Lemma gte_strict : strict sim_val_gte (fun _ _ => 1).
Proof. strictness. rewrite orb_comm in H. by apply lte_strict. Qed.

(** A strict operator is well formed when it is on known operands. *)
Lemma strict_shape f w a b :
  strict f w -> wf a -> wf b -> 0 < w a b <= 256 ->
  (known a -> known b -> shape (f a b) (w a b)) -> shape (f a b) (w a b).
Proof.
  intros Hs Ha Hb Hw Hk. destruct (known_cases a b Ha Hb) as [H|(H & H1 & H2)].
  - rewrite Hs by done. by apply all_x_shape.
  - by apply Hk.
Qed.

Section Shapes.
Context (a b : SimValue) (Ha : wf a) (Hb : wf b).
#[local] Hint Resolve Ha Hb : jz.

Lemma add_shape : shape (sim_val_add a b) (max_width a b).
Proof using Ha Hb. apply strict_shape; eauto using add_strict, add_known with jz. Qed.
Lemma sub_shape : shape (sim_val_sub a b) (max_width a b).
Proof using Ha Hb. apply strict_shape; eauto using sub_strict, sub_known with jz. Qed.
Lemma mul_shape : shape (sim_val_mul a b) (max_width a b).
Proof using Ha Hb. apply strict_shape; eauto using mul_strict, mul_known with jz. Qed.

Lemma divmod_shape (rem : bool) :
  shape (if rem then sim_val_mod a b else sim_val_div a b) (max_width a b).
Proof using Ha Hb.
  pose proof (max_width_range a b Ha Hb) as Hw.
  destruct (known_cases a b Ha Hb) as [H|(_ & H1 & H2)].
  - destruct rem; rewrite ?mod_strict, ?div_strict by done; by apply all_x_shape.
  - destruct (divmod_known a b rem Ha Hb H1 H2) as [E0 En].
    destruct (Z.eq_dec (sv_uint b) 0) as [E|E].
    + rewrite E0 by done. by apply all_x_shape.
    + eapply is_num_shape, En, E.
Qed.

Lemma div_shape : shape (sim_val_div a b) (max_width a b).
Proof using Ha Hb. apply (divmod_shape false). Qed.
Lemma mod_shape : shape (sim_val_mod a b) (max_width a b).
Proof using Ha Hb. apply (divmod_shape true). Qed.

Lemma shl_shape : shape (sim_val_shl a b) (sv_width a).
Proof using Ha Hb.
  apply (strict_shape _ (fun a _ => sv_width a)); eauto using shl_strict, shl_known with jz.
Qed.
Lemma shr_shape : shape (sim_val_shr a b) (sv_width a).
Proof using Ha Hb.
  apply (strict_shape _ (fun a _ => sv_width a)); eauto using shr_strict, shr_known with jz.
Qed.
Lemma ashr_shape : shape (sim_val_ashr a b) (sv_width a).
Proof using Ha Hb.
  apply (strict_shape _ (fun a _ => sv_width a)); eauto using ashr_strict, ashr_known with jz.
Qed.

Lemma and_shape : shape (sim_val_and a b) (max_width a b).
Proof using Ha Hb. by destruct (sim_val_and_bits a b Ha Hb) as (? & ? & _). Qed.
Lemma or_shape : shape (sim_val_or a b) (max_width a b).
Proof using Ha Hb. by destruct (sim_val_or_bits a b Ha Hb) as (? & ? & _). Qed.
Lemma xor_shape : shape (sim_val_xor a b) (max_width a b).
Proof using Ha Hb. by destruct (sim_val_xor_bits a b Ha Hb) as (? & ? & _). Qed.
Lemma not_shape : shape (sim_val_not a) (sv_width a).
Proof using Ha. by destruct (sim_val_not_bits a Ha) as (? & ? & _). Qed.

Lemma neg_shape : shape (sim_val_neg a) (sv_width a).
Proof using Ha.
  destruct (wf_has_xz a Ha) as [H | [_ H]].
  - unfold sim_val_neg. rewrite H. apply all_x_shape. auto with jz.
  - eapply is_num_shape, neg_known; done.
Qed.
End Shapes.

(** Comparisons and logical operators always give one bit. *)
Ltac one_bit :=
  intros; repeat first
    [ apply cmp_x_shape | apply cmp_result_shape
    | match goal with
      | |- shape (if ?c then _ else _) 1 => destruct c
      | |- shape (match ret_up _ ?f with _ => _ end) 1 => destruct (ret_up _ f) eqn:E
      end ].

Lemma eq_shape a b : shape (sim_val_eq a b) 1.
Proof.
  unfold sim_val_eq. one_bit. apply ret_up_Some in E as (i & _ & E & _).
  destruct (negb _); [|done]. injection E as <-. apply cmp_result_shape.
Qed.
Lemma neq_shape a b : shape (sim_val_neq a b) 1.
Proof.
  unfold sim_val_neq. one_bit. apply ret_up_Some in E as (i & _ & E & _).
  destruct (negb _); [|done]. injection E as <-. apply cmp_result_shape.
Qed.
Lemma lt_shape a b : shape (sim_val_lt a b) 1.
Proof. unfold sim_val_lt. one_bit. Qed.
Lemma lte_shape a b : shape (sim_val_lte a b) 1.
Proof. unfold sim_val_lte. one_bit. Qed.
Lemma gt_shape a b : shape (sim_val_gt a b) 1.
Proof. apply lt_shape. Qed.
Lemma gte_shape a b : shape (sim_val_gte a b) 1.
Proof. apply lte_shape. Qed.
Lemma land_shape a b : shape (sim_val_logical_and a b) 1.
Proof. unfold sim_val_logical_and. one_bit. Qed.
Lemma lor_shape a b : shape (sim_val_logical_or a b) 1.
Proof. unfold sim_val_logical_or. one_bit. Qed.
Lemma lnot_shape a : shape (sim_val_logical_not a) 1.
Proof. unfold sim_val_logical_not. one_bit. Qed.

(** ** The structural operators *)

Lemma mask_set_width_shape v w :
  wf v -> 0 < w <= 256 -> shape (sim_val_mask (set_width w v)) w.
Proof.
  intros Hv Hw. assert (shaped (set_width w v)) as Hs
    by (apply set_width_shaped; auto with jz).
  split; [|by rewrite sim_val_mask_width].
  apply sim_val_mask_wf; [done|]. intros k Hk. apply (wf_excl v Hv k). lia.
Qed.

Lemma mask_set_width_bit v w k :
  wf v -> 0 < w <= 256 -> 0 <= k < w ->
  bit_at (sim_val_mask (set_width w v)) k = bit_at v k.
Proof.
  intros. by rewrite sim_val_mask_bit_at by (done || apply set_width_shaped; auto with jz).
Qed.

Lemma ternary_shape c a b :
  wf c -> wf a -> wf b -> sv_width a = sv_width b -> shape (sim_val_ternary c a b) (sv_width a).
Proof.
  intros Hc Ha Hb Hw. pose proof (sim_val_is_true_truth c (wf_pos c Hc)) as Ht.
  destruct (truth c) as [[]|] eqn:E.
  - unfold sim_val_ternary. by rewrite Ht.
  - unfold sim_val_ternary. rewrite Ht. by split.
  - destruct (ternary_merge_bits a b Ha Hb c E (wf_pos c Hc)) as (? & ? & _).
    split; [done|]. rewrite max_width_max in *. lia.
Qed.

Lemma slice_shape v msb lsb :
  wf v -> 0 <= lsb <= msb -> msb - lsb + 1 <= 256 ->
  shape (sim_val_slice v msb lsb) (msb - lsb + 1).
Proof. intros. by destruct (sim_val_slice_bits v msb lsb) as (? & ? & _). Qed.

Lemma zext_shape v w : wf v -> w <= 256 -> shape (sim_val_zext v w) (Z.max (sv_width v) w).
Proof. intros. by destruct (sim_val_zext_bits v w) as (? & ? & _). Qed.

Lemma sext_shape v w : wf v -> w <= 256 -> shape (sim_val_sext v w) (Z.max (sv_width v) w).
Proof. intros. by destruct (sim_val_sext_bits v w) as (? & ? & _). Qed.

Lemma concat_shape vs :
  Forall wf vs -> vs <> [] -> shape (sim_val_concat vs) (Z.min 256 (cat_width vs)).
Proof. intros. by destruct (sim_val_concat_bits vs) as (? & ? & _). Qed.

Lemma set_bit_shape v k b : wf v -> (xbit v k = false /\ zbit v k = false \/ b = 0) ->
  shape (sim_val_set_bit v k b) (sv_width v).
Proof.
  intros Hv Hxz. destruct (decide (0 <= k < sv_width v)) as [Hk|Hk];
    [|by rewrite sim_val_set_bit_out].
  destruct (sim_val_set_bit_spec v k b) as (S1 & S2 & S3); [auto with jz|done|].
  split; [|done]. destruct S1. constructor; try done.
  - rewrite S2. intros j Hj. destruct (S3 j) as (-> & -> & ->); [lia|].
    destruct (Z.eqb_spec j k); [lia|]. by apply wf_high.
  - intros j Hj. destruct (S3 j Hj) as (-> & -> & ->).
    destruct (Z.eqb_spec j k) as [->|]; [|by apply wf_excl].
    destruct Hxz as [[-> ->]| ->]; simpl; [done|].
    split; [intros Hx; split; [done|] | done].
    by apply (wf_excl v Hv).
Qed.

(** * Sample values for the witnesses: known and unknown operands of any width *)


Local Open Scope Z_scope.

Lemma sample_wf x w : 0 < w <= 256 -> is_u64 x -> wf (sim_val_from_uint x w).
Proof. intros. eapply in_wf, from_uint_num; done. Qed.
Lemma sample_known x w : 0 < w <= 256 -> is_u64 x -> known (sim_val_from_uint x w).
Proof. intros. eapply in_known, from_uint_num; done. Qed.
Lemma sample_shape x w : 0 < w <= 256 -> is_u64 x -> shape (sim_val_from_uint x w) w.
Proof. intros. eapply is_num_shape, from_uint_num; done. Qed.

(** Side conditions of a witness about sample values. *)
Ltac sample := first
  [ apply sample_wf; unfold is_u64; lia
  | apply sample_known; unfold is_u64; lia
  | apply sample_shape; unfold is_u64; lia
  | apply all_x_shape; lia | apply all_z_shape; lia ].
