(* ===== verification/SimOrder.v ===== *)
(** * The information order on four-state values

    [a ⊑ b]: both values are well formed, have the same width, and every bit
    [a] knows has the same value in [b] — an unknown bit may stand for any
    bit.  An operator that is [Proper] for the order never turns a lack of
    information into a wrong answer: whatever it claims to know about the
    result of unknown inputs holds for every completion of these inputs. *)

From S2P Require Import Prelude SimValue SimBits SimArith SimBitwise SimWf.
From Stdlib Require Import Morphisms.

Local Open Scope Z_scope.

Definition le4 (a b : Bit4) : Prop := is_unknown a = true \/ a = b.

#[export] Instance le4_dec a b : Decision (le4 a b).
Proof. unfold le4. apply _. Defined.

#[export] Instance le4_preorder : PreOrder le4.
Proof.
  split; [by right|]. intros x y z [H| ->]; [by left|]. done.
Qed.

Record refines (a b : SimValue) : Prop := {
  ref_wf_l : wf a;
  ref_wf_r : wf b;
  ref_width : sv_width a = sv_width b;
  ref_bits : forall k, 0 <= k < sv_width a -> le4 (bit_at a k) (bit_at b k)
}.

Declare Scope refines_scope.
Infix "⊑v" := refines (at level 70) : refines_scope.
Local Open Scope refines_scope.

Lemma refines_refl a : wf a -> a ⊑v a.
Proof. intros. by constructor. Qed.

#[export] Instance refines_trans : Transitive refines.
Proof.
  intros a b c [A1 A2 A3 A4] [B1 B2 B3 B4]. constructor; [done|done|lia|].
  intros k Hk. etrans; [by apply A4 | apply B4; lia].
Qed.

(** A known value has no proper refinement. *)
Lemma refines_known a b : a ⊑v b -> known a -> a = b.
Proof.
  intros [H1 H2 H3 H4] Hk. apply wf_ext; try done. intros k Hb.
  destruct (H4 k Hb) as [Hu|]; [|done]. by rewrite Hk in Hu.
Qed.

Lemma refines_known_r a b : a ⊑v b -> known a -> known b.
Proof. intros H Hk. by rewrite <- (refines_known a b). Qed.

(** [all_x] is the least value of its width. *)
Lemma all_x_least w r : shape r w -> 0 < w <= 256 -> sim_val_all_x w ⊑v r.
Proof.
  intros [Hr <-] Hw. destruct (all_x_shape (sv_width r) Hw) as [H1 H2].
  constructor; [done|done|done|]. rewrite H2. intros k Hk. left.
  by rewrite sim_val_all_x_bit_at.
Qed.

Lemma max_width_refines a b c d : a ⊑v b -> c ⊑v d -> max_width a c = max_width b d.
Proof. intros [_ _ H _] [_ _ H' _]. rewrite !max_width_max. by rewrite H, H'. Qed.

(** Strict operators are monotone. *)
Lemma strict_mono f (w : SimValue -> SimValue -> Z) :
  strict f w ->
  (forall a b, wf a -> wf b -> shape (f a b) (w a b)) ->
  (forall a b, wf a -> wf b -> 0 < w a b <= 256) ->
  (forall a b c d, a ⊑v b -> c ⊑v d -> w a c = w b d) ->
  Proper (refines ==> refines ==> refines) f.
Proof.
  intros Hs Hsh Hw Hww a b Hab c d Hcd.
  destruct (known_cases a c (ref_wf_l _ _ Hab) (ref_wf_l _ _ Hcd)) as [H|(_ & H1 & H2)].
  - rewrite Hs by (done || apply Hab || apply Hcd).
    rewrite (Hww a b c d) by done.
    apply all_x_least; [apply Hsh | apply Hw]; apply Hab || apply Hcd.
  - rewrite (refines_known a b), (refines_known c d) by done.
    apply refines_refl, Hsh; apply Hab || apply Hcd.
Qed.

Lemma width_fst_refines a b c d :
  a ⊑v b -> c ⊑v d -> (fun x _ : SimValue => sv_width x) a c = (fun x _ => sv_width x) b d.
Proof. intros [_ _ H _] _. exact H. Qed.

Ltac strict_mono_max lem sh :=
  apply (strict_mono _ max_width); [apply lem | apply sh | auto with jz | apply max_width_refines].
Ltac strict_mono_fst lem sh :=
  apply (strict_mono _ (fun a _ => sv_width a));
    [apply lem | apply sh | auto with jz | apply width_fst_refines].
Ltac strict_mono_one lem sh :=
  apply (strict_mono _ (fun _ _ => 1)); [apply lem | intros; apply sh | lia | done].

#[export] Instance add_mono : Proper (refines ==> refines ==> refines) sim_val_add.
Proof. strict_mono_max add_strict add_shape. Qed.
#[export] Instance sub_mono : Proper (refines ==> refines ==> refines) sim_val_sub.
Proof. strict_mono_max sub_strict sub_shape. Qed.
#[export] Instance mul_mono : Proper (refines ==> refines ==> refines) sim_val_mul.
Proof. strict_mono_max mul_strict mul_shape. Qed.
#[export] Instance div_mono : Proper (refines ==> refines ==> refines) sim_val_div.
Proof. strict_mono_max div_strict div_shape. Qed.
#[export] Instance mod_mono : Proper (refines ==> refines ==> refines) sim_val_mod.
Proof. strict_mono_max mod_strict mod_shape. Qed.
#[export] Instance shl_mono : Proper (refines ==> refines ==> refines) sim_val_shl.
Proof. strict_mono_fst shl_strict shl_shape. Qed.
#[export] Instance shr_mono : Proper (refines ==> refines ==> refines) sim_val_shr.
Proof. strict_mono_fst shr_strict shr_shape. Qed.
#[export] Instance ashr_mono : Proper (refines ==> refines ==> refines) sim_val_ashr.
Proof. strict_mono_fst ashr_strict ashr_shape. Qed.
#[export] Instance eq_mono : Proper (refines ==> refines ==> refines) sim_val_eq.
Proof. strict_mono_one eq_strict eq_shape. Qed.
#[export] Instance neq_mono : Proper (refines ==> refines ==> refines) sim_val_neq.
Proof. strict_mono_one neq_strict neq_shape. Qed.
#[export] Instance lt_mono : Proper (refines ==> refines ==> refines) sim_val_lt.
Proof. strict_mono_one lt_strict lt_shape. Qed.
#[export] Instance gt_mono : Proper (refines ==> refines ==> refines) sim_val_gt.
Proof. strict_mono_one gt_strict gt_shape. Qed.
#[export] Instance lte_mono : Proper (refines ==> refines ==> refines) sim_val_lte.
Proof. strict_mono_one lte_strict lte_shape. Qed.
#[export] Instance gte_mono : Proper (refines ==> refines ==> refines) sim_val_gte.
Proof. strict_mono_one gte_strict gte_shape. Qed.

#[export] Instance neg_mono : Proper (refines ==> refines) sim_val_neg.
Proof.
  intros a b Hab. pose proof (ref_wf_l _ _ Hab) as Ha. pose proof (ref_wf_r _ _ Hab) as Hb.
  destruct (wf_has_xz a Ha) as [H|[_ H]].
  - unfold sim_val_neg at 1. rewrite H, (ref_width _ _ Hab).
    apply all_x_least; [by apply neg_shape | by apply wf_width].
  - rewrite (refines_known a b) by done. apply refines_refl. by apply neg_shape.
Qed.

(** ** Bitwise operators: the truth tables are monotone *)

Ltac le4_cases :=
  unfold le4 in *; cbn in *; intros; repeat match goal with H : _ \/ _ |- _ => destruct H end;
  try discriminate; (left; reflexivity) || (right; reflexivity).
Ltac table2 :=
  let a := fresh in let b := fresh in let c := fresh in let d := fresh in
  intros a b ? c d ?; destruct a, b, c, d; le4_cases.

Lemma and4_mono : Proper (le4 ==> le4 ==> le4) and4.
Proof. table2. Qed.
Lemma or4_mono : Proper (le4 ==> le4 ==> le4) or4.
Proof. table2. Qed.
Lemma xor4_mono : Proper (le4 ==> le4 ==> le4) xor4.
Proof. table2. Qed.
Lemma not4_mono : Proper (le4 ==> le4) not4.
Proof. intros a b H; destruct a, b; revert H; le4_cases. Qed.

Lemma refines_all_bits a b k : a ⊑v b -> 0 <= k -> le4 (bit_at a k) (bit_at b k).
Proof.
  intros [H1 H2 H3 H4] Hk. destruct (Z.lt_ge_cases k (sv_width a)); [by apply H4|].
  rewrite !bit_at_high by (done || lia). by right.
Qed.

Lemma table_mono f (t : Bit4 -> Bit4 -> Bit4) :
  (forall a b, wf a -> wf b ->
     wf (f a b) /\ sv_width (f a b) = max_width a b /\
     forall k, 0 <= k -> bit_at (f a b) k = t (bit_at a k) (bit_at b k)) ->
  Proper (le4 ==> le4 ==> le4) t -> Proper (refines ==> refines ==> refines) f.
Proof.
  intros Hf Ht a b Hab c d Hcd.
  destruct (Hf a c) as (F1 & F2 & F3); [apply Hab | apply Hcd|].
  destruct (Hf b d) as (G1 & G2 & G3); [apply Hab | apply Hcd|].
  constructor; [done|done| |].
  - rewrite F2, G2. by apply max_width_refines.
  - intros k Hk. rewrite F3, G3 by lia. apply Ht; (apply refines_all_bits; [assumption|lia]).
Qed.

#[export] Instance and_mono : Proper (refines ==> refines ==> refines) sim_val_and.
Proof. apply (table_mono _ and4); [apply sim_val_and_bits | apply and4_mono]. Qed.
#[export] Instance or_mono : Proper (refines ==> refines ==> refines) sim_val_or.
Proof. apply (table_mono _ or4); [apply sim_val_or_bits | apply or4_mono]. Qed.
#[export] Instance xor_mono : Proper (refines ==> refines ==> refines) sim_val_xor.
Proof. apply (table_mono _ xor4); [apply sim_val_xor_bits | apply xor4_mono]. Qed.

#[export] Instance not_mono : Proper (refines ==> refines) sim_val_not.
Proof.
  intros a b Hab. destruct (sim_val_not_bits a) as (F1 & F2 & F3); [apply Hab|].
  destruct (sim_val_not_bits b) as (G1 & G2 & G3); [apply Hab|].
  pose proof (ref_width _ _ Hab). constructor; [done|done|lia|].
  intros k Hk. rewrite F3, G3 by lia. apply not4_mono, Hab. lia.
Qed.

(** ** Truth values, logical operators, selection *)

(** More information only decides an undecided condition. *)
Lemma truth_refines a b : a ⊑v b -> truth a = None \/ truth a = truth b.
Proof.
  intros H. destruct (truth_cases a) as [[E _]|[(_ & E & _)|(_ & E & _)]];
    [apply wf_pos, H|by left|right|right]; by rewrite (refines_known a b).
Qed.

Lemma is_true_refines a b :
  a ⊑v b -> sim_val_is_true a = -1 \/ sim_val_is_true a = sim_val_is_true b.
Proof.
  intros H. rewrite !sim_val_is_true_truth by (apply wf_pos, H).
  destruct (truth_refines a b H) as [E|E]; rewrite E; [by left|by right].
Qed.

Lemma is_true_range a : wf a ->
  sim_val_is_true a = -1 \/ sim_val_is_true a = 0 \/ sim_val_is_true a = 1.
Proof.
  intros H. rewrite sim_val_is_true_truth by auto with jz.
  destruct (truth a) as [[]|]; simpl; auto.
Qed.

Lemma cmp_x_least r : shape r 1 -> cmp_x ⊑v r.
Proof. intros. by apply all_x_least. Qed.

Lemma cmp_result_refl b : cmp_result b ⊑v cmp_result b.
Proof. apply refines_refl, cmp_result_shape. Qed.

(** The three-valued tables of the logical operators, case by case. *)
Ltac logical_cases a b Hab :=
  let E := fresh "E" in
  destruct (is_true_refines a b Hab) as [E|E];
  [ rewrite E; destruct (is_true_range b (ref_wf_r _ _ Hab)) as [-> | [-> | ->]]
  | rewrite E; destruct (is_true_range b (ref_wf_r _ _ Hab)) as [-> | [-> | ->]] ].

Ltac logical_done :=
  simpl; try apply cmp_result_refl; apply cmp_x_least;
  (apply cmp_x_shape || apply cmp_result_shape).

#[export] Instance logical_and_mono : Proper (refines ==> refines ==> refines) sim_val_logical_and.
Proof.
  intros a b Hab c d Hcd. unfold sim_val_logical_and.
  logical_cases a b Hab; logical_cases c d Hcd; logical_done.
Qed.
#[export] Instance logical_or_mono : Proper (refines ==> refines ==> refines) sim_val_logical_or.
Proof.
  intros a b Hab c d Hcd. unfold sim_val_logical_or.
  logical_cases a b Hab; logical_cases c d Hcd; logical_done.
Qed.
#[export] Instance logical_not_mono : Proper (refines ==> refines) sim_val_logical_not.
Proof.
  intros a b Hab. unfold sim_val_logical_not. logical_cases a b Hab; logical_done.
Qed.

Lemma merge4_lower a b : le4 (merge4 a b) a /\ le4 (merge4 a b) b.
Proof. destruct a, b; split; le4_cases. Qed.

Lemma merge4_mono : Proper (le4 ==> le4 ==> le4) merge4.
Proof. table2. Qed.

(** Selection is monotone when the two branches have the same width. *)
Lemma ternary_mono c d t t' f f' :
  c ⊑v d -> t ⊑v t' -> f ⊑v f' -> sv_width t = sv_width f ->
  sim_val_ternary c t f ⊑v sim_val_ternary d t' f'.
Proof.
  intros Hc Ht Hf Hw. pose proof (ref_wf_l _ _ Hc) as Wc. pose proof (ref_wf_r _ _ Hc) as Wd.
  pose proof (ref_width _ _ Ht) as Wt. pose proof (ref_width _ _ Hf) as Wf.
  assert (truth d <> None -> sim_val_ternary d t' f' =
    if match truth d with Some b => b | None => false end then t' else f') as Hd.
  { intros N. unfold sim_val_ternary. rewrite sim_val_is_true_truth by auto with jz.
    by destruct (truth d) as [[]|]. }
  destruct (truth_refines c d Hc) as [E|E]; [|destruct (truth c) as [b|] eqn:Ec].
  - destruct (ternary_merge_bits t f (ref_wf_l _ _ Ht) (ref_wf_l _ _ Hf) c E)
      as (M1 & M2 & M3); [auto with jz|]. rewrite max_width_max in M2.
    destruct (truth d) as [b|] eqn:Ed.
    + rewrite Hd by done. constructor; [done|destruct b; apply Ht || apply Hf|destruct b; lia|].
      intros k Hk. rewrite M3 by lia. destruct (merge4_lower (bit_at t k) (bit_at f k)) as [L1 L2].
      destruct b; [rewrite L1|rewrite L2]; (apply refines_all_bits; [assumption|lia]).
    + destruct (ternary_merge_bits t' f' (ref_wf_r _ _ Ht) (ref_wf_r _ _ Hf) d Ed)
        as (N1 & N2 & N3); [auto with jz|]. rewrite max_width_max in N2.
      constructor; [done|done|lia|]. intros k Hk. rewrite M3, N3 by lia.
      apply merge4_mono; (apply refines_all_bits; [assumption|lia]).
  - rewrite Hd, <- E by (by rewrite <- E). unfold sim_val_ternary.
    rewrite sim_val_is_true_truth, Ec by auto with jz. by destruct b.
  - destruct (ternary_merge_bits t f (ref_wf_l _ _ Ht) (ref_wf_l _ _ Hf) c Ec)
      as (M1 & M2 & M3); [auto with jz|]. rewrite max_width_max in M2.
    destruct (ternary_merge_bits t' f' (ref_wf_r _ _ Ht) (ref_wf_r _ _ Hf) d (eq_sym E))
      as (N1 & N2 & N3); [auto with jz|]. rewrite max_width_max in N2.
    constructor; [done|done|lia|]. intros k Hk. rewrite M3, N3 by lia.
    apply merge4_mono; (apply refines_all_bits; [assumption|lia]).
Qed.

(** ** Structural operators *)

Lemma slice_mono a b msb lsb :
  a ⊑v b -> 0 <= lsb <= msb -> msb - lsb + 1 <= 256 ->
  sim_val_slice a msb lsb ⊑v sim_val_slice b msb lsb.
Proof.
  intros H Hl Hw. destruct (sim_val_slice_bits a msb lsb) as (A1 & A2 & A3); try done; [apply H|].
  destruct (sim_val_slice_bits b msb lsb) as (C1 & C2 & C3); try done; [apply H|].
  constructor; [done|done|lia|]. intros k Hk. rewrite A3, C3 by lia.
  apply refines_all_bits; [done|lia].
Qed.

Lemma mask_width_mono a b w :
  a ⊑v b -> 0 < w <= 256 ->
  sim_val_mask (set_width w a) ⊑v sim_val_mask (set_width w b).
Proof.
  intros H Hw. destruct (mask_set_width_shape a w) as [A1 A2]; [apply H|done|].
  destruct (mask_set_width_shape b w) as [C1 C2]; [apply H|done|].
  constructor; [done|done|lia|]. rewrite A2. intros k Hk.
  rewrite !mask_set_width_bit by (done || apply H). apply refines_all_bits; [done|lia].
Qed.

Lemma zext_mono a b w : a ⊑v b -> w <= 256 -> sim_val_zext a w ⊑v sim_val_zext b w.
Proof.
  intros H Hw. destruct (sim_val_zext_bits a w) as (A1 & A2 & A3); [apply H|done|].
  destruct (sim_val_zext_bits b w) as (C1 & C2 & C3); [apply H|done|].
  pose proof (ref_width _ _ H). constructor; [done|done|lia|]. intros k Hk.
  rewrite A3, C3 by lia. apply refines_all_bits; [done|lia].
Qed.

Lemma cat_mono vs ws k :
  Forall2 refines vs ws -> 0 <= k ->
  le4 (cat_at B0 bit_at vs k) (cat_at B0 bit_at ws k).
Proof.
  intros H. revert k. induction H as [|v w vs ws Hvw _ IH]; intros k Hk; simpl; [by right|].
  rewrite <- (ref_width _ _ Hvw). destruct (Z.ltb_spec k (sv_width v)).
  - by apply refines_all_bits.
  - apply IH. lia.
Qed.

Lemma cat_width_mono vs ws : Forall2 refines vs ws -> cat_width vs = cat_width ws.
Proof. induction 1 as [|v w vs ws [_ _ H _] _ IH]; simpl; [done|lia]. Qed.

Lemma concat_mono vs ws :
  Forall2 refines vs ws -> vs <> [] -> sim_val_concat vs ⊑v sim_val_concat ws.
Proof.
  intros H Hne. assert (Forall wf vs) as Hv.
  { eapply Forall2_Forall_l; [exact H|]. apply Forall_true. intros x y Hxy; apply Hxy. }
  assert (Forall wf ws) as Hw.
  { eapply Forall2_Forall_r; [exact H|]. apply Forall_true. intros x y Hxy; apply Hxy. }
  assert (ws <> []) as Hne' by (intros ->; by apply Forall2_nil_inv_r in H).
  destruct (sim_val_concat_bits vs Hv Hne) as (A1 & A2 & A3).
  destruct (sim_val_concat_bits ws Hw Hne') as (C1 & C2 & C3).
  pose proof (cat_width_mono vs ws H) as Ew. rewrite Ew in A2, A3.
  constructor; [done|done|lia|]. intros k Hk. rewrite A3, C3 by lia.
  apply cat_mono; [|lia].
  clear -H. induction H as [|v w vs ws Hvw _ IH]; simpl; [constructor|].
  apply Forall2_app; [done|]. constructor; [done|constructor].
Qed.
