(* ===== verification/SimSpec.v ===== *)
(** * What the value operations of [sim_value.c] promise

    The properties of the four-state value layer.  Each theorem quantifies
    over all well-formed operands ([SimBits.wf]: width 1 to 256, words of 64
    bits, nothing above the width, [x] and [z] exclusive). *)

From S2P Require Import Prelude SimValue SimBits SimArith SimBitwise SimWf SimOrder.
From Stdlib Require Import Morphisms.

Local Open Scope Z_scope.
Local Open Scope refines_scope.

(** On known operands, addition, subtraction and negation compute the
    two's-complement result modulo two to the result width, the maximum of
    the operand widths, through the carry chain over 64-bit words. *)
Theorem sim_val_add_sub_neg_correct a b (w := max_width a b) :
  wf a -> wf b -> known a -> known b ->
  is_num (sim_val_add a b) w ((sv_uint a + sv_uint b) mod 2 ^ w) /\
  is_num (sim_val_sub a b) w ((sv_uint a - sv_uint b) mod 2 ^ w) /\
  is_num (sim_val_neg a) (sv_width a) ((- sv_uint a) mod 2 ^ sv_width a).
Proof.
  intros. split_and!; [by apply add_known | by apply sub_known | by apply neg_known].
Qed.

Lemma sim_val_add_sub_neg_witness :
  let a := sim_val_from_uint 250 8 in
  let b := sim_val_from_uint 10 8 in
  is_num (sim_val_add a b) (max_width a b) ((sv_uint a + sv_uint b) mod 2 ^ max_width a b).
Proof. apply sim_val_add_sub_neg_correct; sample. Defined.

(** The shift-and-add loop multiplies: on known operands the product is
    exact modulo two to the result width. *)
Theorem sim_val_mul_correct a b (w := max_width a b) :
  wf a -> wf b -> known a -> known b ->
  is_num (sim_val_mul a b) w ((sv_uint a * sv_uint b) mod 2 ^ w).
Proof. apply mul_known. Qed.

Lemma sim_val_mul_witness :
  let a := sim_val_from_uint 200 8 in
  let b := sim_val_from_uint 7 16 in
  is_num (sim_val_mul a b) (max_width a b) ((sv_uint a * sv_uint b) mod 2 ^ max_width a b).
Proof. apply sim_val_mul_correct; sample. Defined.

(** C29: restoring division returns the quotient and the remainder of unsigned
    division, related by [a = q * b + r] with [r < b]; a zero divisor gives
    all [x] for both. *)
Theorem sim_val_divmod_correct a b (w := max_width a b) :
  wf a -> wf b -> known a -> known b ->
  (sv_uint b = 0 ->
     sim_val_div a b = sim_val_all_x w /\ sim_val_mod a b = sim_val_all_x w) /\
  (sv_uint b <> 0 ->
     is_num (sim_val_div a b) w (sv_uint a / sv_uint b) /\
     is_num (sim_val_mod a b) w (sv_uint a mod sv_uint b) /\
     sv_uint a = sv_uint (sim_val_div a b) * sv_uint b + sv_uint (sim_val_mod a b) /\
     0 <= sv_uint (sim_val_mod a b) < sv_uint b).
Proof.
  intros Ha Hb Ka Kb.
  destruct (divmod_known a b false Ha Hb Ka Kb) as [D0 D1].
  destruct (divmod_known a b true Ha Hb Ka Kb) as [M0 M1].
  split; [by auto|]. intros E. specialize (D1 E). specialize (M1 E).
  pose proof (in_uint _ _ _ D1) as Ud. pose proof (in_uint _ _ _ M1) as Um. cbv beta iota in Ud, Um.
  split_and!; try done.
  - rewrite Ud, Um. pose proof (Z.div_mod (sv_uint a) (sv_uint b) E). lia.
  - rewrite Um. apply Z.mod_pos_bound. pose proof (sv_uint_bounds b Hb). lia.
  - rewrite Um. apply Z.mod_pos_bound. pose proof (sv_uint_bounds b Hb). lia.
Qed.

Lemma sim_val_divmod_witness :
  let a := sim_val_from_uint 200 8 in
  let b := sim_val_from_uint 7 8 in
  is_num (sim_val_div a b) (max_width a b) (sv_uint a / sv_uint b).
Proof.
  intros a b. refine (proj1 (proj2 (sim_val_divmod_correct a b _ _ _ _) _)); subst a b;
    first [sample | vm_compute; discriminate].
Defined.

(** The shifts, for every shift amount (also one past the width, or past
    64 bits): left multiplies by a power of two modulo the width, right
    divides the unsigned value, arithmetic right divides the signed value
    rounding down. *)
Theorem sim_val_shift_correct a b :
  wf a -> wf b -> known a -> known b ->
  let w := sv_width a in
  is_num (sim_val_shl a b) w ((sv_uint a * 2 ^ sv_uint b) mod 2 ^ w) /\
  is_num (sim_val_shr a b) w (sv_uint a / 2 ^ sv_uint b) /\
  is_num (sim_val_ashr a b) w ((sv_sint a / 2 ^ sv_uint b) mod 2 ^ w).
Proof.
  intros. split_and!; [by apply shl_known | by apply shr_known | by apply ashr_known].
Qed.

Lemma sim_val_shift_witness :
  let a := sim_val_from_uint 200 8 in
  let b := sim_val_from_uint 3 4 in
  is_num (sim_val_shl a b) (sv_width a) ((sv_uint a * 2 ^ sv_uint b) mod 2 ^ sv_width a).
Proof.
  intros a b. refine (proj1 (sim_val_shift_correct a b _ _ _ _)); subst a b; sample.
Defined.

(** On known operands of any widths the six comparisons decide the
    comparison of the unsigned numbers. *)
Theorem sim_val_compare_correct a b :
  wf a -> wf b -> known a -> known b ->
  sim_val_eq a b = cmp_result (sv_uint a =? sv_uint b) /\
  sim_val_neq a b = cmp_result (negb (sv_uint a =? sv_uint b)) /\
  sim_val_lt a b = cmp_result (sv_uint a <? sv_uint b) /\
  sim_val_gt a b = cmp_result (sv_uint b <? sv_uint a) /\
  sim_val_lte a b = cmp_result (sv_uint a <=? sv_uint b) /\
  sim_val_gte a b = cmp_result (sv_uint b <=? sv_uint a).
Proof. exact (compare_known a b). Qed.

Lemma sim_val_compare_witness :
  let a := sim_val_from_uint 200 8 in
  let b := sim_val_from_uint 3 4 in
  sim_val_eq a b = cmp_result (sv_uint a =? sv_uint b).
Proof. intros a b. apply (sim_val_compare_correct a b); sample. Defined.

(** And, or, xor and not apply the four-state truth table at every bit;
    the narrower operand is read with zeros above its width. *)
Theorem sim_val_bitwise_tables a b :
  wf a -> wf b ->
  (forall k, 0 <= k ->
     bit_at (sim_val_and a b) k = and4 (bit_at a k) (bit_at b k) /\
     bit_at (sim_val_or a b) k = or4 (bit_at a k) (bit_at b k) /\
     bit_at (sim_val_xor a b) k = xor4 (bit_at a k) (bit_at b k)) /\
  (forall k, 0 <= k < sv_width a -> bit_at (sim_val_not a) k = not4 (bit_at a k)).
Proof.
  intros Ha Hb. destruct (sim_val_and_bits a b Ha Hb) as (_ & _ & H1).
  destruct (sim_val_or_bits a b Ha Hb) as (_ & _ & H2).
  destruct (sim_val_xor_bits a b Ha Hb) as (_ & _ & H3).
  destruct (sim_val_not_bits a Ha) as (_ & _ & H4). auto.
Qed.

Lemma sim_val_bitwise_witness :
  bit_at (sim_val_not (sim_val_all_z 8)) 3 = not4 (bit_at (sim_val_all_z 8) 3).
Proof.
  refine (proj2 (sim_val_bitwise_tables (sim_val_all_z 8) (sim_val_all_x 4) _ _) 3 _);
    [sample|sample|vm_compute; by split].
Defined.

(** Every operation returns a well-formed value of the documented width,
    whatever [x] and [z] the operands hold. *)
Theorem sim_val_ops_well_formed a b (w := max_width a b) :
  wf a -> wf b ->
  (shape (sim_val_add a b) w /\ shape (sim_val_sub a b) w /\ shape (sim_val_mul a b) w /\
   shape (sim_val_div a b) w /\ shape (sim_val_mod a b) w) /\
  (shape (sim_val_and a b) w /\ shape (sim_val_or a b) w /\ shape (sim_val_xor a b) w) /\
  (shape (sim_val_not a) (sv_width a) /\ shape (sim_val_neg a) (sv_width a)) /\
  (shape (sim_val_shl a b) (sv_width a) /\ shape (sim_val_shr a b) (sv_width a) /\
   shape (sim_val_ashr a b) (sv_width a)) /\
  (shape (sim_val_eq a b) 1 /\ shape (sim_val_lt a b) 1 /\ shape (sim_val_lte a b) 1 /\
   shape (sim_val_logical_and a b) 1 /\ shape (sim_val_logical_or a b) 1) /\
  (forall n, n <= 256 -> shape (sim_val_zext a n) (Z.max (sv_width a) n) /\
                        shape (sim_val_sext a n) (Z.max (sv_width a) n)) /\
  (forall n, 0 < n <= 256 -> shape (sim_val_mask (set_width n a)) n).
Proof.
  intros. split_and!; auto using add_shape, sub_shape, mul_shape, div_shape, mod_shape,
    and_shape, or_shape, xor_shape, not_shape, neg_shape, shl_shape, shr_shape, ashr_shape,
    eq_shape, lt_shape, lte_shape, land_shape, lor_shape, zext_shape, sext_shape,
    mask_set_width_shape.
Qed.

Lemma sim_val_ops_well_formed_witness :
  shape (sim_val_add (sim_val_all_x 200) (sim_val_from_uint 3 4)) 200.
Proof. apply sim_val_ops_well_formed; sample. Defined.

(** An unknown bit in either operand of an arithmetic, shift or comparison
    operator makes the whole result [x]. *)
Theorem sim_val_x_contagion a b (w := max_width a b) :
  wf a -> wf b -> ~ (known a /\ known b) ->
  sim_val_add a b = sim_val_all_x w /\ sim_val_sub a b = sim_val_all_x w /\
  sim_val_mul a b = sim_val_all_x w /\ sim_val_div a b = sim_val_all_x w /\
  sim_val_mod a b = sim_val_all_x w /\ sim_val_shl a b = sim_val_all_x (sv_width a) /\
  sim_val_shr a b = sim_val_all_x (sv_width a) /\
  sim_val_ashr a b = sim_val_all_x (sv_width a) /\
  sim_val_eq a b = cmp_x /\ sim_val_neq a b = cmp_x /\ sim_val_lt a b = cmp_x /\
  sim_val_gt a b = cmp_x /\ sim_val_lte a b = cmp_x /\ sim_val_gte a b = cmp_x.
Proof.
  intros Ha Hb Hn. destruct (known_cases a b Ha Hb) as [H|(_ & ? & ?)]; [|by destruct Hn].
  split_and!; [apply add_strict | apply sub_strict | apply mul_strict | apply div_strict
    | apply mod_strict | apply shl_strict | apply shr_strict | apply ashr_strict
    | apply eq_strict | apply neq_strict | apply lt_strict | apply gt_strict
    | apply lte_strict | apply gte_strict]; done.
Qed.

Lemma sim_val_x_contagion_witness :
  sim_val_add (sim_val_all_z 8) (sim_val_from_uint 3 4) = sim_val_all_x 8.
Proof.
  apply sim_val_x_contagion; [sample..|]. intros [H _].
  specialize (H 0). vm_compute in H. discriminate H; split; [discriminate|reflexivity].
Defined.

(** No operator ever claims more than its operands justify: with unknown
    bits ordered below known ones, every binary and unary operator is
    monotone, so a known result bit is right for every completion of the
    unknown input bits. *)
Theorem sim_val_ops_monotone a a' b b' :
  a ⊑v a' -> b ⊑v b' ->
  Forall (fun f => f a b ⊑v f a' b')
    [sim_val_add; sim_val_sub; sim_val_mul; sim_val_div; sim_val_mod;
     sim_val_and; sim_val_or; sim_val_xor; sim_val_shl; sim_val_shr; sim_val_ashr;
     sim_val_eq; sim_val_neq; sim_val_lt; sim_val_gt; sim_val_lte; sim_val_gte;
     sim_val_logical_and; sim_val_logical_or] /\
  Forall (fun f => f a ⊑v f a') [sim_val_not; sim_val_neg; sim_val_logical_not].
Proof.
  intros Ha Hb. split; repeat first [apply Forall_nil_2 | apply Forall_cons_2].
  all: first [apply add_mono | apply sub_mono | apply mul_mono | apply div_mono
    | apply mod_mono | apply and_mono | apply or_mono | apply xor_mono | apply shl_mono
    | apply shr_mono | apply ashr_mono | apply eq_mono | apply neq_mono | apply lt_mono
    | apply gt_mono | apply lte_mono | apply gte_mono | apply logical_and_mono
    | apply logical_or_mono | apply not_mono | apply neg_mono | apply logical_not_mono];
    assumption.
Qed.

Lemma sim_val_ops_monotone_witness :
  Forall (fun f => f (sim_val_all_x 8) ⊑v f (sim_val_from_uint 5 8))
    [sim_val_not; sim_val_neg; sim_val_logical_not].
Proof.
  apply (sim_val_ops_monotone _ _ (sim_val_from_uint 1 8) (sim_val_from_uint 1 8)).
  - apply all_x_least; [split; [sample|reflexivity] | lia].
  - apply refines_refl. sample.
Defined.

(** [sim_val_equal] decides equality of four-state values, and a
    comparison with [sim_val_eq] is 1 exactly on equal numbers. *)
Theorem sim_val_equal_decides a b :
  wf a -> wf b ->
  (sim_val_equal a b = true <-> a = b) /\
  (sim_val_is_true (sim_val_eq a b) = 1 <-> known a /\ known b /\ sv_uint a = sv_uint b).
Proof.
  intros Ha Hb. split; [by apply sim_val_equal_wf|].
  destruct (known_cases a b Ha Hb) as [H|(_ & Ka & Kb)].
  - rewrite eq_strict by done. split; [vm_compute; discriminate|].
    intros (Ka & Kb & _). unfold has_xz2 in H. by rewrite !known_has_xz in H.
  - rewrite eq_known by done. destruct (Z.eqb_spec (sv_uint a) (sv_uint b)).
    + split; [done|]. intros _. vm_compute. reflexivity.
    + split; [vm_compute; discriminate|]. by intros (_ & _ & ?).
Qed.

Lemma sim_val_equal_decides_witness :
  sim_val_equal (sim_val_all_z 8) (sim_val_all_x 8) = true <-> sim_val_all_z 8 = sim_val_all_x 8.
Proof. apply sim_val_equal_decides; sample. Defined.

(** Slicing undoes concatenation: each operand is read back from the bits
    it was placed at (the last operand lowest), and two adjacent slices
    concatenate to the slice that spans them. *)
Theorem sim_val_slice_concat xs v ys :
  Forall wf xs -> wf v -> Forall wf ys -> cat_width (xs ++ v :: ys) <= 256 ->
  sim_val_slice (sim_val_concat (xs ++ v :: ys))
    (cat_width ys + sv_width v - 1) (cat_width ys) = v /\
  (forall msb mid lsb, 0 <= lsb <= mid -> mid < msb -> msb - lsb < 256 ->
     sim_val_concat [sim_val_slice v msb (mid + 1); sim_val_slice v mid lsb]
     = sim_val_slice v msb lsb).
Proof.
  intros Hx Hv Hy Hw. pose proof (wf_width v Hv) as Hwv. split.
  - assert (Forall wf (xs ++ v :: ys)) as Hall by (apply Forall_app; auto).
    destruct (sim_val_concat_bits _ Hall) as (C1 & C2 & C3); [by destruct xs|].
    rewrite cat_width_app in *. simpl in Hw, C2, C3.
    pose proof (cat_width_nonneg xs Hx). pose proof (cat_width_nonneg ys Hy).
    set (c := sim_val_concat _) in *.
    destruct (sim_val_slice_bits c (cat_width ys + sv_width v - 1) (cat_width ys))
      as (S1 & S2 & S3); [done|lia|lia|].
    apply wf_ext; [done|done|lia|]. intros k Hk. rewrite S3, C3 by lia.
    rewrite rev_app_distr. simpl rev. rewrite <- app_assoc. simpl app.
    rewrite cat_at_app by (by apply Forall_rev || lia). rewrite cat_width_rev.
    destruct (Z.ltb_spec (cat_width ys + k) (cat_width ys)); [lia|]. simpl.
    replace (cat_width ys + k - cat_width ys) with k by lia.
    destruct (Z.ltb_spec k (sv_width v)); [done|lia].
  - intros msb mid lsb H1 H2 H3.
    destruct (sim_val_slice_bits v msb (mid + 1)) as (A1 & A2 & A3); [done|lia..|].
    destruct (sim_val_slice_bits v mid lsb) as (B1' & B2 & B3); [done|lia..|].
    destruct (sim_val_slice_bits v msb lsb) as (S1 & S2 & S3); [done|lia..|].
    destruct (sim_val_concat_bits [sim_val_slice v msb (mid + 1); sim_val_slice v mid lsb])
      as (C1 & C2 & C3); [repeat (apply Forall_cons_2; [done|]); apply Forall_nil_2|done|].
    simpl in C2, C3. apply wf_ext; [done|done|lia|]. intros k Hk.
    rewrite C3, S3 by lia. destruct (Z.ltb_spec k (sv_width (sim_val_slice v mid lsb))).
    + rewrite B3 by lia. done.
    + destruct (Z.ltb_spec (k - sv_width (sim_val_slice v mid lsb))
        (sv_width (sim_val_slice v msb (mid + 1)))); [|lia].
      rewrite A3 by lia. f_equal. lia.
Qed.

Lemma sim_val_slice_concat_witness :
  sim_val_slice (sim_val_concat [sim_val_all_x 3; sim_val_from_uint 5 70; sim_val_all_z 9])
    (9 + 70 - 1) 9 = sim_val_from_uint 5 70.
Proof.
  apply (sim_val_slice_concat [sim_val_all_x 3] (sim_val_from_uint 5 70) [sim_val_all_z 9]);
    [apply Forall_cons_2; [sample|apply Forall_nil_2]|sample|apply Forall_cons_2; [sample|apply Forall_nil_2]|vm_compute; discriminate].
Defined.

(** Selection: a known condition picks a branch unchanged; an unknown one
    keeps the bits on which both branches agree and makes the others [x]. *)
Theorem sim_val_ternary_selects c t f :
  wf c -> wf t -> wf f ->
  (truth c = Some true -> sim_val_ternary c t f = t) /\
  (truth c = Some false -> sim_val_ternary c t f = f) /\
  (truth c = None ->
     shape (sim_val_ternary c t f) (max_width t f) /\
     forall k, 0 <= k ->
       bit_at (sim_val_ternary c t f) k = merge4 (bit_at t k) (bit_at f k)).
Proof.
  intros Hc Ht Hf. split_and!.
  - intros E. unfold sim_val_ternary. by rewrite sim_val_is_true_truth, E by auto with jz.
  - intros E. unfold sim_val_ternary. by rewrite sim_val_is_true_truth, E by auto with jz.
  - intros E. by destruct (ternary_merge_bits t f Ht Hf c E) as (? & ? & ?); [auto with jz|].
Qed.

Lemma sim_val_ternary_selects_witness :
  sim_val_ternary (sim_val_from_uint 2 3) (sim_val_all_z 8) (sim_val_all_x 8) = sim_val_all_z 8.
Proof. apply sim_val_ternary_selects; [sample..|vm_compute; reflexivity]. Defined.

(** Zero extension keeps the unsigned number and sign extension the
    signed one; an [x] sign bit is extended with [x] but a [z] sign bit is
    extended with zeros. *)
Theorem sim_val_extend_correct v w :
  wf v -> sv_width v <= w <= 256 ->
  (known v ->
     is_num (sim_val_zext v w) w (sv_uint v) /\
     known (sim_val_sext v w) /\ sv_sint (sim_val_sext v w) = sv_sint v) /\
  (forall k, sv_width v <= k < w ->
     (bit_at v (sv_width v - 1) = BX -> bit_at (sim_val_sext v w) k = BX) /\
     (bit_at v (sv_width v - 1) = BZ -> bit_at (sim_val_sext v w) k = B0)).
Proof.
  intros Hv Hw. pose proof (wf_width v Hv) as Hwv.
  destruct (sim_val_sext_bits v w Hv) as (S1 & S2 & S3); [lia|].
  rewrite Z.max_r in S2, S3 by lia.
  destruct (sim_val_zext_bits v w Hv) as (Z1 & Z2 & Z3); [lia|].
  split.
  - intros Hk. split_and!.
    + unfold sim_val_zext. destruct (Z.leb_spec w (sv_width v)).
      * replace w with (sv_width v) by lia. by apply is_num_self.
      * eapply set_width_num; [by apply is_num_self | lia].
    + intros k Hk'. rewrite S2 in Hk'. rewrite S3 by lia.
      destruct (Z.ltb_spec k (sv_width v)); [apply Hk; lia|].
      pose proof (Hk (sv_width v - 1) ltac:(lia)) as E.
      by destruct (bit_at v (sv_width v - 1)).
    + by apply sext_sint.
  - intros k Hk. rewrite S3 by lia. destruct (Z.ltb_spec k (sv_width v)); [lia|].
    by split; intros ->.
Qed.

Lemma sim_val_extend_witness :
  let v := sim_val_from_uint 200 8 in
  is_num (sim_val_zext v 100) 100 (sv_uint v) /\
     known (sim_val_sext v 100) /\ sv_sint (sim_val_sext v 100) = sv_sint v.
Proof.
  intros v. apply (sim_val_extend_correct v 100); subst v;
    [sample|vm_compute; split; discriminate|sample].
Defined.

(** The logical operators are Kleene's three-valued connectives on the
    truth of their operands: a decided operand that settles the result wins
    over an undecided one. *)
Theorem sim_val_logical_kleene a b :
  wf a -> wf b ->
  let tri (t : option bool) := match t with Some r => cmp_result r | None => cmp_x end in
  sim_val_logical_and a b = tri
    (match truth a, truth b with
     | Some false, _ | _, Some false => Some false
     | Some true, Some true => Some true | _, _ => None end) /\
  sim_val_logical_or a b = tri
    (match truth a, truth b with
     | Some true, _ | _, Some true => Some true
     | Some false, Some false => Some false | _, _ => None end) /\
  sim_val_logical_not a = tri (negb <$> truth a).
Proof.
  intros Ha Hb tri. unfold sim_val_logical_and, sim_val_logical_or, sim_val_logical_not.
  rewrite !sim_val_is_true_truth by auto with jz.
  destruct (truth a) as [[]|], (truth b) as [[]|]; done.
Qed.

Lemma sim_val_logical_kleene_witness :
  sim_val_logical_not (sim_val_all_z 8) = cmp_x.
Proof.
  refine (proj2 (proj2 (sim_val_logical_kleene (sim_val_all_z 8) (sim_val_all_z 8) _ _))); sample.
Defined.
