(* ===== verification/Util.v ===== *)
(** * Checked arithmetic and limits: [compiler/src/util.c]

    [size_t] is 64 bits wide.  A function that returns a status and writes
    [*out] returns an option, [None] being the C [-1]; the [NULL] output
    pointer is not modelled. *)

From S2P Require Import Prelude.

Local Open Scope Z_scope.

Definition SIZE_MAX : Z := UINT64_MAX.

Inductive JZInputLimitKind :=
  | JZ_LIMIT_SOURCE_FILE_BYTES | JZ_LIMIT_SOURCE_TOKENS | JZ_LIMIT_IMPORT_DEPTH
  | JZ_LIMIT_IMPORT_RETAINED_SOURCE_BYTES | JZ_LIMIT_IMPORT_RETAINED_TOKEN_BYTES
  | JZ_LIMIT_CHIP_JSON_BYTES | JZ_LIMIT_CHIP_JSON_TOKENS | JZ_LIMIT_CHIP_JSON_NESTING_DEPTH
  | JZ_LIMIT_MEM_INIT_FILE_BYTES | JZ_LIMIT_MEM_INIT_MIF_DEPTH
  | JZ_LIMIT_PARSER_EXPR_DEPTH | JZ_LIMIT_PARSER_STATEMENT_DEPTH | JZ_LIMIT_CONST_EVAL_DEPTH
  | JZ_LIMIT_IR_EXPR_DEPTH | JZ_LIMIT_IR_STATEMENT_DEPTH | JZ_LIMIT_AST_DEPTH
  | JZ_LIMIT_TEMPLATE_EXPAND_DEPTH | JZ_LIMIT_TRISTATE_DEPTH | JZ_LIMIT_SEM_RECURSION_DEPTH
  | JZ_LIMIT_REPORT_RECURSION_DEPTH | JZ_LIMIT_CHIP_VARIANT_TUPLES | JZ_LIMIT_IR_EXPANDED_ITEMS
  | JZ_LIMIT_SEM_BRANCH_STATES | JZ_LIMIT_SIM_INSTANCE_DEPTH | JZ_LIMIT_SIM_MEMORY_DEPTH
  | JZ_LIMIT_SIM_MEMORY_OBJECT_BYTES | JZ_LIMIT_EMITTED_TRACE_BYTES
  | JZ_LIMIT_RTLIL_MEM_INIT_EMIT_BYTES.

Definition jz_input_limit_value (kind : JZInputLimitKind) : Z :=
  match kind with
  | JZ_LIMIT_SOURCE_FILE_BYTES => 16 * 1024 * 1024
  | JZ_LIMIT_SOURCE_TOKENS => 1024 * 1024
  | JZ_LIMIT_IMPORT_DEPTH => 64
  | JZ_LIMIT_IMPORT_RETAINED_SOURCE_BYTES => 16 * 1024 * 1024
  | JZ_LIMIT_IMPORT_RETAINED_TOKEN_BYTES => 64 * 1024 * 1024
  | JZ_LIMIT_CHIP_JSON_BYTES => 4 * 1024 * 1024
  | JZ_LIMIT_CHIP_JSON_TOKENS => 256 * 1024
  | JZ_LIMIT_CHIP_JSON_NESTING_DEPTH => 128
  | JZ_LIMIT_MEM_INIT_FILE_BYTES => 64 * 1024 * 1024
  | JZ_LIMIT_MEM_INIT_MIF_DEPTH => 1024 * 1024
  | JZ_LIMIT_PARSER_EXPR_DEPTH => 512
  | JZ_LIMIT_PARSER_STATEMENT_DEPTH => 512
  | JZ_LIMIT_CONST_EVAL_DEPTH => 512
  | JZ_LIMIT_IR_EXPR_DEPTH => 512
  | JZ_LIMIT_IR_STATEMENT_DEPTH => 512
  | JZ_LIMIT_AST_DEPTH => 4096
  | JZ_LIMIT_TEMPLATE_EXPAND_DEPTH => 1024
  | JZ_LIMIT_TRISTATE_DEPTH => 1024
  | JZ_LIMIT_SEM_RECURSION_DEPTH => 1024
  | JZ_LIMIT_REPORT_RECURSION_DEPTH => 1024
  | JZ_LIMIT_CHIP_VARIANT_TUPLES => 1024 * 1024
  | JZ_LIMIT_IR_EXPANDED_ITEMS => 1024 * 1024
  | JZ_LIMIT_SEM_BRANCH_STATES => 64 * 1024
  | JZ_LIMIT_SIM_INSTANCE_DEPTH => 1024
  | JZ_LIMIT_SIM_MEMORY_DEPTH => 1024 * 1024
  | JZ_LIMIT_SIM_MEMORY_OBJECT_BYTES => 128 * 1024 * 1024
  | JZ_LIMIT_EMITTED_TRACE_BYTES => 64 * 1024 * 1024
  | JZ_LIMIT_RTLIL_MEM_INIT_EMIT_BYTES => 64 * 1024 * 1024
  end.

(** [Some d] is the incremented counter, [None] the refusal. *)
Definition jz_depth_enter_checked (depth : Z) (kind : JZInputLimitKind) : option Z :=
  let limit := jz_input_limit_value kind in
  if (limit =? 0) || (limit <=? depth) then None else Some (depth + 1).

Definition jz_depth_leave (depth : Z) : Z := if 0 <? depth then depth - 1 else depth.

Definition jz_size_add_checked (a b : Z) : option Z :=
  if SIZE_MAX - b <? a then None else Some (a + b).

Definition jz_size_mul_checked (a b : Z) : option Z :=
  if negb (a =? 0) && (SIZE_MAX / a <? b) then None else Some (a * b).

Definition jz_size_mul_add_checked (a b c : Z) : option Z :=
  match jz_size_mul_checked a b with
  | None => None
  | Some product => jz_size_add_checked product c
  end.

Definition jz_size_align_up_checked (size alignment : Z) : option Z :=
  if alignment =? 0 then None
  else if negb (Z.land alignment (alignment - 1) =? 0) then None
  else
    match jz_size_add_checked size (alignment - 1) with
    | None => None
    | Some rounded => Some (Z.land rounded (not64 (alignment - 1)))
    end.

(** The doubling loop; [fuel] bounds the number of doublings, and 64 are
    enough ([grow_loop_enough]). *)
Fixpoint grow_loop (fuel : nat) (grown minimum : Z) : option Z :=
  match fuel with
  | O => None
  | S fuel' =>
      if grown <? minimum then
        if SIZE_MAX / 2 <? grown then Some minimum
        else
          match jz_size_add_checked grown grown with
          | None => Some minimum
          | Some next => grow_loop fuel' next minimum
          end
      else Some grown
  end.

Definition jz_size_grow_doubling_checked (current minimum initial : Z) : option Z :=
  if minimum =? 0 then Some current
  else
    let grown := if negb (current =? 0) then current else initial in
    let grown := if grown =? 0 then 1 else grown in
    match grow_loop 65 grown minimum with
    | None => None
    | Some grown => if grown <? minimum then None else Some grown
    end.

Definition jz_size_from_int_checked (value : Z) : option Z :=
  if value <? 0 then None else Some value.

(** * Properties *)

Definition is_size (x : Z) : Prop := 0 <= x <= SIZE_MAX.

Lemma size_add_spec a b :
  is_size a -> is_size b ->
  jz_size_add_checked a b = if a + b <=? SIZE_MAX then Some (a + b) else None.
Proof.
  unfold is_size, jz_size_add_checked. intros.
  destruct (Z.ltb_spec (SIZE_MAX - b) a), (Z.leb_spec (a + b) SIZE_MAX); done || lia.
Qed.

Lemma size_mul_spec a b :
  is_size a -> is_size b ->
  jz_size_mul_checked a b = if a * b <=? SIZE_MAX then Some (a * b) else None.
Proof.
  unfold is_size, jz_size_mul_checked. intros Ha Hb.
  destruct (Z.eqb_spec a 0) as [->|Hne]; simpl.
  { by destruct (Z.leb_spec (0 * b) SIZE_MAX); [|lia]. }
  pose proof (Z.mul_div_le SIZE_MAX a ltac:(lia)).
  pose proof (Z.mul_succ_div_gt SIZE_MAX a ltac:(lia)).
  destruct (Z.ltb_spec (SIZE_MAX / a) b), (Z.leb_spec (a * b) SIZE_MAX); try done; nia.
Qed.

Lemma grow_loop_enough fuel g m :
  0 < g <= SIZE_MAX -> is_size m -> 2 ^ 64 <= g * 2 ^ Z.of_nat fuel ->
  exists r, grow_loop (S fuel) g m = Some r /\ m <= r <= SIZE_MAX /\
            (g <= r \/ r = m).
Proof.
  intros Hg Hm. revert g Hg. induction fuel as [|fuel IH]; intros g Hg Hf.
  { unfold is_size in *. change (2 ^ Z.of_nat 0) with 1 in Hf.
    unfold SIZE_MAX, UINT64_MAX in *. lia. }
  cbn [grow_loop]. unfold is_size in Hm. destruct (Z.ltb_spec g m).
  - destruct (Z.ltb_spec (SIZE_MAX / 2) g); [exists m; split_and!; try done; try lia; auto|].
    rewrite size_add_spec by (unfold is_size; lia).
    assert (SIZE_MAX / 2 = 9223372036854775807) as E by done.
    assert (SIZE_MAX = 18446744073709551615) as E' by done.
    destruct (Z.leb_spec (g + g) SIZE_MAX); [|lia].
    destruct (IH (g + g)) as (r & Hr & ? & ?); [lia| |].
    { rewrite Nat2Z.inj_succ, Z.pow_succ_r in Hf by lia. lia. }
    exists r. split; [exact Hr|]. split; [done|]. lia.
  - exists g. split_and!; [done|lia..|left; lia].
Qed.

(** The checked size operations are exact: they succeed exactly when the
    mathematical result fits [size_t], and capacity growth always yields a
    capacity at least the requested minimum. *)
Theorem jz_size_checked_exact a b c :
  is_size a -> is_size b -> is_size c ->
  jz_size_add_checked a b = (if a + b <=? SIZE_MAX then Some (a + b) else None) /\
  jz_size_mul_checked a b = (if a * b <=? SIZE_MAX then Some (a * b) else None) /\
  jz_size_mul_add_checked a b c =
    (if a * b + c <=? SIZE_MAX then Some (a * b + c) else None) /\
  (0 < b -> exists r, jz_size_grow_doubling_checked a b c = Some r /\ b <= r <= SIZE_MAX).
Proof.
  intros Ha Hb Hc. split_and!; [by apply size_add_spec | by apply size_mul_spec | |].
  - unfold jz_size_mul_add_checked. rewrite size_mul_spec by done. unfold is_size in *.
    destruct (Z.leb_spec (a * b) SIZE_MAX).
    + rewrite size_add_spec by (unfold is_size; nia). done.
    + destruct (Z.leb_spec (a * b + c) SIZE_MAX); [lia|done].
  - intros Hpos. unfold jz_size_grow_doubling_checked. unfold is_size in *.
    destruct (Z.eqb_spec b 0); [lia|].
    set (g := if negb (a =? 0) then a else c).
    set (g' := if g =? 0 then 1 else g).
    assert (0 < g' <= SIZE_MAX) as Hg.
    { subst g' g. destruct (Z.eqb_spec a 0); simpl;
        [destruct (Z.eqb_spec c 0)|destruct (Z.eqb_spec a 0)]; lia. }
    destruct (grow_loop_enough 64 g' b) as (r & Hr & ? & _); [done|unfold is_size; lia|lia|].
    rewrite Hr. destruct (Z.ltb_spec r b); [lia|]. eauto.
Qed.

Lemma jz_size_checked_exact_witness :
  jz_size_mul_checked (2 ^ 40) (2 ^ 24) =
  (if 2 ^ 40 * 2 ^ 24 <=? SIZE_MAX then Some (2 ^ 40 * 2 ^ 24) else None).
Proof.
  apply (jz_size_checked_exact (2 ^ 40) (2 ^ 24) 0);
    (split; [vm_compute; discriminate|vm_compute; discriminate]).
Defined.
