(* ===== verification/IR.v ===== *)
(** * The intermediate representation the simulator runs: [compiler/include/ir.h]

    Enumerations are inductive types with the source's constructors.  The
    discriminated unions of expressions and statements become one constructor
    per payload layout, the kinds that share a layout being an enumeration of
    their own.  A C pointer to a node that may be [NULL] is a node of type
    [IR_Expr] or [IR_Stmt] whose [NULL] case is [NullExpr] or [NullStmt].
    C arrays with their element count are lists. *)

From S2P Require Import Prelude.

Local Open Scope Z_scope.

Inductive IR_SignalKind := SIG_PORT | SIG_NET | SIG_REGISTER | SIG_LATCH.
Inductive IR_PortDirection := PORT_IN | PORT_OUT | PORT_INOUT.

Definition IR_LIT_WORDS : Z := 4.

Record IR_Literal := mkLiteral {
  lit_words : list Z;
  lit_width : Z;
  lit_is_z : bool
}.

(** The union of [IR_Signal] is flattened: [sig_direction] is the port member,
    [sig_reset_value] and [sig_home_domain] the register member. *)
Record IR_Signal := mkSignal {
  sig_id : Z;
  sig_name : string;
  sig_kind : IR_SignalKind;
  sig_width : Z;
  sig_owner_module_id : Z;
  sig_source_line : Z;
  sig_can_be_z : bool;
  sig_iob : bool;
  sig_direction : IR_PortDirection;
  sig_reset_value : IR_Literal;
  sig_home_domain : Z
}.

(** Kinds with the [unary] layout. *)
Inductive IR_UnaryKind := EXPR_UNARY_NOT | EXPR_UNARY_NEG | EXPR_LOGICAL_NOT.

(** Kinds with the [binary] layout. *)
Inductive IR_BinaryKind :=
  | EXPR_BINARY_ADD | EXPR_BINARY_SUB | EXPR_BINARY_MUL | EXPR_BINARY_DIV | EXPR_BINARY_MOD
  | EXPR_BINARY_AND | EXPR_BINARY_OR | EXPR_BINARY_XOR
  | EXPR_BINARY_SHL | EXPR_BINARY_SHR | EXPR_BINARY_ASHR
  | EXPR_BINARY_EQ | EXPR_BINARY_NEQ | EXPR_BINARY_LT | EXPR_BINARY_GT
  | EXPR_BINARY_LTE | EXPR_BINARY_GTE
  | EXPR_LOGICAL_AND | EXPR_LOGICAL_OR
  | EXPR_INTRINSIC_USUB | EXPR_INTRINSIC_SSUB
  | EXPR_INTRINSIC_UMIN | EXPR_INTRINSIC_UMAX | EXPR_INTRINSIC_SMIN | EXPR_INTRINSIC_SMAX.

(** Kinds with the [intrinsic] layout. *)
Inductive IR_IntrinsicKind :=
  | EXPR_INTRINSIC_UADD | EXPR_INTRINSIC_SADD | EXPR_INTRINSIC_UMUL | EXPR_INTRINSIC_SMUL
  | EXPR_INTRINSIC_GBIT | EXPR_INTRINSIC_SBIT | EXPR_INTRINSIC_GSLICE | EXPR_INTRINSIC_SSLICE
  | EXPR_INTRINSIC_OH2B | EXPR_INTRINSIC_B2OH | EXPR_INTRINSIC_PRIENC | EXPR_INTRINSIC_LZC
  | EXPR_INTRINSIC_ABS | EXPR_INTRINSIC_POPCOUNT | EXPR_INTRINSIC_REVERSE
  | EXPR_INTRINSIC_BSWAP
  | EXPR_INTRINSIC_REDUCE_AND | EXPR_INTRINSIC_REDUCE_OR | EXPR_INTRINSIC_REDUCE_XOR.

(** The first [Z] of each constructor is the node's [width]. *)
Inductive IR_Expr :=
  | NullExpr
  | ExprLiteral (width : Z) (literal : IR_Literal)
  | ExprSignalRef (width signal_id : Z)
  | ExprUnary (kind : IR_UnaryKind) (width : Z) (operand : IR_Expr)
  | ExprBinary (kind : IR_BinaryKind) (width : Z) (left right : IR_Expr)
  | ExprTernary (width : Z) (condition true_val false_val : IR_Expr)
  | ExprConcat (width : Z) (operands : list IR_Expr)
  | ExprSlice (width signal_id : Z) (base_expr : IR_Expr) (msb lsb : Z)
  | ExprIntrinsic (kind : IR_IntrinsicKind) (width : Z)
      (source index value : IR_Expr) (element_width : Z)
  | ExprMemRead (width : Z) (memory_name port_name : string) (address : IR_Expr).

Inductive IR_AssignmentKind :=
  | ASSIGN_ALIAS | ASSIGN_ALIAS_ZEXT | ASSIGN_ALIAS_SEXT
  | ASSIGN_DRIVE | ASSIGN_DRIVE_ZEXT | ASSIGN_DRIVE_SEXT
  | ASSIGN_RECEIVE | ASSIGN_RECEIVE_ZEXT | ASSIGN_RECEIVE_SEXT.

Record IR_Assignment := mkAssignment {
  asgn_id : Z;
  asgn_lhs_signal_id : Z;
  asgn_rhs : IR_Expr;
  asgn_kind : IR_AssignmentKind;
  asgn_is_sliced : bool;
  asgn_lhs_msb : Z;
  asgn_lhs_lsb : Z;
  asgn_source_line : Z
}.

(** A select case is a case value ([NullExpr] for DEFAULT) and a body. *)
Inductive IR_Stmt :=
  | NullStmt
  | StmtAssignment (assign : IR_Assignment)
  | StmtIf (condition : IR_Expr) (then_block elif_chain else_block : IR_Stmt)
  | StmtSelect (selector : IR_Expr) (cases : list (IR_Expr * IR_Stmt))
  | StmtBlock (stmts : list IR_Stmt)
  | StmtMemWrite (memory_name port_name : string) (address data : IR_Expr).

Inductive IR_ClockEdge := EDGE_RISING | EDGE_FALLING | EDGE_BOTH.
Inductive IR_ResetPolarity := RESET_ACTIVE_HIGH | RESET_ACTIVE_LOW.
Inductive IR_ResetType := RESET_IMMEDIATE | RESET_CLOCKED.

Record IR_ClockDomain := mkClockDomain {
  cd_id : Z;
  cd_clock_signal_id : Z;
  cd_edge : IR_ClockEdge;
  cd_register_ids : list Z;
  cd_reset_signal_id : Z;
  cd_reset_sync_signal_id : Z;
  cd_reset_active : IR_ResetPolarity;
  cd_reset_type : IR_ResetType;
  cd_statements : IR_Stmt
}.

Inductive IR_MemoryInitKind := MEM_INIT_NONE | MEM_INIT_LITERAL | MEM_INIT_FILE | MEM_INIT_BLOB.

(** Of the [init] union the literal member is kept; the file path and the
    blob of lowered bytes are not read by the modelled code. *)
Record IR_Memory := mkMemory {
  mem_id : Z;
  mem_name : string;
  mem_word_width : Z;
  mem_depth : Z;
  mem_address_width : Z;
  mem_init_kind : IR_MemoryInitKind;
  mem_init_literal : IR_Literal
}.

(** [conn_const_expr] is [None] when the C field is [NULL]. *)
Record IR_InstanceConnection := mkConnection {
  conn_parent_signal_id : Z;
  conn_child_port_id : Z;
  conn_parent_msb : Z;
  conn_parent_lsb : Z;
  conn_const_expr : option string
}.

Record IR_Instance := mkInstance {
  inst_id : Z;
  inst_name : string;
  inst_child_module_id : Z;
  inst_connections : list IR_InstanceConnection
}.

Record IR_Module := mkModule {
  mod_id : Z;
  mod_name : string;
  mod_signals : list IR_Signal;
  mod_clock_domains : list IR_ClockDomain;
  mod_instances : list IR_Instance;
  mod_memories : list IR_Memory;
  mod_async_block : IR_Stmt;
  mod_eliminated : bool
}.

Record IR_Design := mkDesign {
  design_name : string;
  design_modules : list IR_Module
}.

(** ** Null tests and sizes *)

Definition expr_is_null (e : IR_Expr) : bool :=
  match e with NullExpr => true | _ => false end.

Definition stmt_is_null (s : IR_Stmt) : bool :=
  match s with NullStmt => true | _ => false end.

(** ** Induction principles that go under the lists *)

Section ExprInd.
Variable P : IR_Expr -> Prop.
Hypothesis Hnull : P NullExpr.
Hypothesis Hlit : forall w l, P (ExprLiteral w l).
Hypothesis Hsig : forall w i, P (ExprSignalRef w i).
Hypothesis Hun : forall k w e, P e -> P (ExprUnary k w e).
Hypothesis Hbin : forall k w l r, P l -> P r -> P (ExprBinary k w l r).
Hypothesis Hter : forall w c t f, P c -> P t -> P f -> P (ExprTernary w c t f).
Hypothesis Hcat : forall w es, Forall P es -> P (ExprConcat w es).
Hypothesis Hsl : forall w i b m l, P b -> P (ExprSlice w i b m l).
Hypothesis Hint : forall k w s i v ew, P s -> P i -> P v -> P (ExprIntrinsic k w s i v ew).
Hypothesis Hmem : forall w m p a, P a -> P (ExprMemRead w m p a).

Fixpoint IR_Expr_ind' (e : IR_Expr) : P e :=
  match e with
  | NullExpr => Hnull
  | ExprLiteral w l => Hlit w l
  | ExprSignalRef w i => Hsig w i
  | ExprUnary k w e => Hun k w e (IR_Expr_ind' e)
  | ExprBinary k w l r => Hbin k w l r (IR_Expr_ind' l) (IR_Expr_ind' r)
  | ExprTernary w c t f =>
      Hter w c t f (IR_Expr_ind' c) (IR_Expr_ind' t) (IR_Expr_ind' f)
  | ExprConcat w es =>
      Hcat w es
        ((fix go es : Forall P es :=
            match es with
            | [] => List.Forall_nil P
            | e :: es' => @List.Forall_cons _ P e es' (IR_Expr_ind' e) (go es')
            end) es)
  | ExprSlice w i b m l => Hsl w i b m l (IR_Expr_ind' b)
  | ExprIntrinsic k w s i v ew =>
      Hint k w s i v ew (IR_Expr_ind' s) (IR_Expr_ind' i) (IR_Expr_ind' v)
  | ExprMemRead w m p a => Hmem w m p a (IR_Expr_ind' a)
  end.
End ExprInd.

Section StmtInd.
Variable P : IR_Stmt -> Prop.
Hypothesis Hnull : P NullStmt.
Hypothesis Hasgn : forall a, P (StmtAssignment a).
Hypothesis Hif : forall c t el els, P t -> P el -> P els -> P (StmtIf c t el els).
Hypothesis Hsel : forall s cs, Forall (fun c => P c.2) cs -> P (StmtSelect s cs).
Hypothesis Hblk : forall ss, Forall P ss -> P (StmtBlock ss).
Hypothesis Hmem : forall m p a d, P (StmtMemWrite m p a d).

Fixpoint IR_Stmt_ind' (s : IR_Stmt) : P s :=
  match s with
  | NullStmt => Hnull
  | StmtAssignment a => Hasgn a
  | StmtIf c t el els => Hif c t el els (IR_Stmt_ind' t) (IR_Stmt_ind' el) (IR_Stmt_ind' els)
  | StmtSelect s cs =>
      Hsel s cs
        ((fix go cs : Forall (fun c => P c.2) cs :=
            match cs with
            | [] => List.Forall_nil _
            | c :: cs' => @List.Forall_cons _ (fun c => P c.2) c cs' (IR_Stmt_ind' c.2) (go cs')
            end) cs)
  | StmtBlock ss =>
      Hblk ss
        ((fix go ss : Forall P ss :=
            match ss with
            | [] => List.Forall_nil P
            | s :: ss' => @List.Forall_cons _ P s ss' (IR_Stmt_ind' s) (go ss')
            end) ss)
  | StmtMemWrite m p a d => Hmem m p a d
  end.
End StmtInd.
