(* ===== verification/SimState.v ===== *)
(** * Simulation contexts: the definitions of [sim_state.h] and [sim_state.c]

    [SimContext] of the C code is split in two: [SimModuleState] holds the
    fields of one module instance, and [SimContext] adds the child instances,
    so that recursion over the hierarchy is structural.  A pointer into a
    signal table is the index of the entry.  The array counts are the list
    lengths, and allocation is assumed to succeed. *)

From S2P Require Import Prelude SimValue IR Util.

Local Open Scope Z_scope.

(** ** Data *)

Record SimSignalEntry := mkEntry {
  se_signal_id : Z;
  se_current : SimValue;
  se_next : SimValue;
  se_has_pending : bool
}.

Record SimMemEntry := mkMemEntry {
  me_mem_id : Z;
  me_cells : list SimValue;
  me_word_width : Z;
  me_depth : Z
}.

(** [pm_parent_entry] and [pm_child_entry] index the two signal tables. *)
Record SimPortMapping := mkPortMapping {
  pm_parent_entry : Z;
  pm_child_entry : Z;
  pm_parent_msb : Z;
  pm_parent_lsb : Z;
  pm_child_width : Z;
  pm_is_inout : bool
}.

Record SimAsyncChunk := mkChunk {
  ac_stmt : IR_Stmt;
  ac_read_indices : list Z;
  ac_write_indices : list Z
}.

(** The per-instance fields of the C [SimContext]. *)
Record SimModuleState := mkState {
  ctx_module : IR_Module;
  ctx_signals : list SimSignalEntry;
  ctx_sig_id_map : list Z;
  ctx_max_sig_id : Z;
  ctx_memories : list SimMemEntry;
  ctx_rng_state : Z;
  ctx_runtime_error : bool;
  ctx_settle_dirty : bool;
  ctx_async_chunks : list SimAsyncChunk;
  ctx_sig_dirty : list bool
}.

(** A child instance, for contexts of type [C]; [None] is a [NULL] pointer. *)
Record SimChildInstance (C : Type) := mkChild {
  ci_ctx : option C;
  ci_inst : IR_Instance;
  ci_child_module : option IR_Module;
  ci_input_maps : list SimPortMapping;
  ci_output_maps : list SimPortMapping
}.
Arguments mkChild {C}.
Arguments ci_ctx {C}.
Arguments ci_inst {C}.
Arguments ci_child_module {C}.
Arguments ci_input_maps {C}.
Arguments ci_output_maps {C}.

Inductive SimContext := mkContext {
  ctx_state : SimModuleState;
  ctx_children : list (SimChildInstance SimContext)
}.

(** Field updates. *)
Definition set_signals (l : list SimSignalEntry) (s : SimModuleState) : SimModuleState :=
  mkState (ctx_module s) l (ctx_sig_id_map s) (ctx_max_sig_id s) (ctx_memories s)
    (ctx_rng_state s) (ctx_runtime_error s) (ctx_settle_dirty s) (ctx_async_chunks s)
    (ctx_sig_dirty s).
Definition set_memories (l : list SimMemEntry) (s : SimModuleState) : SimModuleState :=
  mkState (ctx_module s) (ctx_signals s) (ctx_sig_id_map s) (ctx_max_sig_id s) l
    (ctx_rng_state s) (ctx_runtime_error s) (ctx_settle_dirty s) (ctx_async_chunks s)
    (ctx_sig_dirty s).
Definition set_runtime_error (b : bool) (s : SimModuleState) : SimModuleState :=
  mkState (ctx_module s) (ctx_signals s) (ctx_sig_id_map s) (ctx_max_sig_id s)
    (ctx_memories s) (ctx_rng_state s) b (ctx_settle_dirty s) (ctx_async_chunks s)
    (ctx_sig_dirty s).
Definition set_settle_dirty (b : bool) (s : SimModuleState) : SimModuleState :=
  mkState (ctx_module s) (ctx_signals s) (ctx_sig_id_map s) (ctx_max_sig_id s)
    (ctx_memories s) (ctx_rng_state s) (ctx_runtime_error s) b (ctx_async_chunks s)
    (ctx_sig_dirty s).
Definition set_sig_dirty (l : list bool) (s : SimModuleState) : SimModuleState :=
  mkState (ctx_module s) (ctx_signals s) (ctx_sig_id_map s) (ctx_max_sig_id s)
    (ctx_memories s) (ctx_rng_state s) (ctx_runtime_error s) (ctx_settle_dirty s)
    (ctx_async_chunks s) l.
Definition set_async_chunks (l : list SimAsyncChunk) (s : SimModuleState) : SimModuleState :=
  mkState (ctx_module s) (ctx_signals s) (ctx_sig_id_map s) (ctx_max_sig_id s)
    (ctx_memories s) (ctx_rng_state s) (ctx_runtime_error s) (ctx_settle_dirty s) l
    (ctx_sig_dirty s).

(** [ctx->settle_dirty = 1; ctx->sig_dirty[i] = 1]. *)
Definition mark_dirty (i : Z) (s : SimModuleState) : SimModuleState :=
  set_sig_dirty (aset (ctx_sig_dirty s) i true) (set_settle_dirty true s).

Definition set_current (v : SimValue) (e : SimSignalEntry) : SimSignalEntry :=
  mkEntry (se_signal_id e) v (se_next e) (se_has_pending e).
Definition set_next (v : SimValue) (e : SimSignalEntry) : SimSignalEntry :=
  mkEntry (se_signal_id e) (se_current e) v (se_has_pending e).
Definition set_pending (b : bool) (e : SimSignalEntry) : SimSignalEntry :=
  mkEntry (se_signal_id e) (se_current e) (se_next e) b.

Definition null_entry : SimSignalEntry := mkEntry 0 (sim_val_zero 0) (sim_val_zero 0) false.
Definition entry_at (s : SimModuleState) (i : Z) : SimSignalEntry :=
  aget null_entry (ctx_signals s) i.
Definition update_entry (i : Z) (f : SimSignalEntry -> SimSignalEntry)
    (s : SimModuleState) : SimModuleState :=
  set_signals (aset (ctx_signals s) i (f (entry_at s i))) s.

(** ** Pseudo-random numbers *)

(** The new state, which is also the result. *)
Definition sim_rng_next (state : Z) : Z :=
  let x := state in
  let x := if x =? 0 then 1 else x in
  let x := Z.lxor x (u32 (Z.shiftl x 13)) in
  let x := Z.lxor x (Z.shiftr x 17) in
  Z.lxor x (u32 (Z.shiftl x 5)).

(** ** Lookup *)

(** The index of the entry, in place of a pointer to it. *)
Definition sim_ctx_lookup (s : SimModuleState) (signal_id : Z) : option Z :=
  if (0 <=? signal_id) && (signal_id <=? ctx_max_sig_id s) then
    let idx := aget (-1) (ctx_sig_id_map s) signal_id in
    if 0 <=? idx then Some idx else None
  else None.

(** The index of the memory named [name] in the module of the context. *)
Fixpoint find_memory (mems : list IR_Memory) (name : string) : option nat :=
  match mems with
  | [] => None
  | m :: ms =>
      if String.eqb (mem_name m) name then Some O
      else option_map S (find_memory ms name)
  end.

Definition sim_ctx_lookup_mem (s : SimModuleState) (name : string) : option nat :=
  find_memory (take (length (ctx_memories s)) (mod_memories (ctx_module s))) name.

(** ** Dependency analysis *)

(** A set of signal ids is a duplicate-free list in insertion order. *)
Definition sigset_add (s : list Z) (id : Z) : list Z :=
  if existsb (Z.eqb id) s then s else s ++ [id].

Fixpoint collect_expr_reads (expr : IR_Expr) (reads : list Z) : list Z :=
  match expr with
  | NullExpr => reads
  | ExprLiteral _ _ => reads
  | ExprSignalRef _ signal_id => sigset_add reads signal_id
  | ExprUnary _ _ operand => collect_expr_reads operand reads
  | ExprBinary _ _ lhs rhs => collect_expr_reads rhs (collect_expr_reads lhs reads)
  | ExprTernary _ condition true_val false_val =>
      collect_expr_reads false_val
        (collect_expr_reads true_val (collect_expr_reads condition reads))
  | ExprConcat _ operands =>
      fold_left (fun acc e => collect_expr_reads e acc) operands reads
  | ExprSlice _ signal_id base_expr _ _ =>
      if negb (expr_is_null base_expr) then collect_expr_reads base_expr reads
      else sigset_add reads signal_id
  | ExprIntrinsic _ _ source index value _ =>
      collect_expr_reads value (collect_expr_reads index (collect_expr_reads source reads))
  | ExprMemRead _ _ _ address => collect_expr_reads address reads
  end.

(** Reads and writes of a statement tree. *)
Fixpoint collect_stmt_deps (stmt : IR_Stmt) (rw : list Z * list Z) : list Z * list Z :=
  let '(reads, writes) := rw in
  match stmt with
  | NullStmt => (reads, writes)
  | StmtAssignment a =>
      (collect_expr_reads (asgn_rhs a) reads, sigset_add writes (asgn_lhs_signal_id a))
  | StmtIf condition then_block elif_chain else_block =>
      collect_stmt_deps else_block
        (collect_stmt_deps elif_chain
           (collect_stmt_deps then_block (collect_expr_reads condition reads, writes)))
  | StmtSelect selector cases =>
      fold_left (fun acc c =>
          let '(case_value, body) := c in
          collect_stmt_deps body (collect_expr_reads case_value acc.1, acc.2))
        cases (collect_expr_reads selector reads, writes)
  | StmtBlock stmts => fold_left (fun acc s => collect_stmt_deps s acc) stmts (reads, writes)
  | StmtMemWrite _ _ address data =>
      (collect_expr_reads data (collect_expr_reads address reads), writes)
  end.

Definition sigids_to_indices (s : SimModuleState) (ids : list Z) : list Z :=
  fold_left (fun indices sig_id =>
    match sim_ctx_lookup s sig_id with
    | Some idx => if existsb (Z.eqb idx) indices then indices else indices ++ [idx]
    | None => indices
    end) ids [].

Definition make_chunk (s : SimModuleState) (stmt : IR_Stmt) : SimAsyncChunk :=
  let '(reads, writes) := collect_stmt_deps stmt ([], []) in
  mkChunk stmt (sigids_to_indices s reads) (sigids_to_indices s writes).

Definition build_async_chunks (s : SimModuleState) : SimModuleState :=
  match mod_async_block (ctx_module s) with
  | NullStmt => set_async_chunks [] s
  | StmtBlock stmts => set_async_chunks (map (make_chunk s) stmts) s
  | async => set_async_chunks [make_chunk s async] s
  end.

(** ** Context creation *)

Definition max_sim_width : Z := SIM_VAL_WORDS * 64.

(** [sizeof(SimValue)]: twelve 64-bit words and an [int], padded. *)
Definition sizeof_SimValue : Z := 104.

Definition signal_accepted (sig : IR_Signal) : bool := sig_width sig <=? max_sim_width.

(** The conversions [(unsigned)mem->depth] and [(size_t)mem->depth] wrap. *)
Definition memory_accepted (mem : IR_Memory) : bool :=
  if max_sim_width <? mem_word_width mem then false
  else if jz_input_limit_value JZ_LIMIT_SIM_MEMORY_DEPTH <? u32 (mem_depth mem) then false
  else
    match jz_size_mul_checked (u64 (mem_depth mem)) sizeof_SimValue with
    | None => false
    | Some mem_bytes =>
        mem_bytes <=? jz_input_limit_value JZ_LIMIT_SIM_MEMORY_OBJECT_BYTES
    end.

(** A random value of [width] bits and the new generator state. *)
Definition random_value (width rng : Z) : SimValue * Z :=
  let rv := sim_rng_next rng in
  let rng := rv in
  if 32 <? width then
    let hi := sim_rng_next rng in
    (sim_val_from_uint (Z.lor rv (shl64 hi 32)) width, hi)
  else (sim_val_from_uint rv width, rng).

Definition init_signal (sig : IR_Signal) (rng : Z) : SimSignalEntry * Z :=
  let '(current, rng) :=
    match sig_kind sig with
    | SIG_REGISTER | SIG_LATCH => random_value (sig_width sig) rng
    | _ => (sim_val_zero (sig_width sig), rng)
    end in
  (mkEntry (sig_id sig) current (sim_val_zero (sig_width sig)) false, rng).

(** Thread the generator through a list of initialisers. *)
Definition init_list {A B} (f : A -> Z -> B * Z) (l : list A) (rng : Z) : list B * Z :=
  fold_left (fun acc a => let '(bs, rng) := acc in
                          let '(b, rng) := f a rng in (bs ++ [b], rng)) l ([], rng).

Definition max_signal_id (sigs : list IR_Signal) : Z :=
  fold_left (fun m sig => if m <? sig_id sig then sig_id sig else m) sigs (-1).

(** [sig_id_map]: all [-1], then one store per signal, later ones winning. *)
Definition build_id_map (sigs : list IR_Signal) (max_id : Z) : list Z :=
  (fold_left (fun acc sig => let '(m, i) := acc in
      ((if (0 <=? sig_id sig) && (sig_id sig <=? max_id) then aset m (sig_id sig) i else m),
       i + 1)) sigs (replicate (Z.to_nat (max_id + 1)) (-1), 0)).1.

Definition init_cell (mem : IR_Memory) (rng : Z) : SimValue * Z :=
  match mem_init_kind mem with
  | MEM_INIT_FILE | MEM_INIT_BLOB => (sim_val_zero (mem_word_width mem), rng)
  | _ => random_value (mem_word_width mem) rng
  end.

Definition init_memory (mem : IR_Memory) (rng : Z) : SimMemEntry * Z :=
  let '(cells, rng) :=
    init_list (fun _ rng => init_cell mem rng) (replicate (Z.to_nat (mem_depth mem)) tt) rng in
  (mkMemEntry (mem_id mem) cells (mem_word_width mem) (mem_depth mem), rng).

Definition init_state (module : IR_Module) (rng_seed : Z) : SimModuleState :=
  let sigs := mod_signals module in
  let max_id := max_signal_id sigs in
  let '(signals, rng) := init_list init_signal sigs rng_seed in
  let '(memories, rng) := init_list init_memory (mod_memories module) rng in
  mkState module signals (build_id_map sigs max_id) max_id memories rng false false []
    (replicate (length sigs) true).

(** The port mappings of one child: inputs and outputs. *)
Definition null_signal : IR_Signal :=
  mkSignal 0 "" SIG_NET 0 0 0 false false PORT_IN (mkLiteral [] 0 false) 0.

Definition add_port_mapping (parent child : SimModuleState) (child_module : IR_Module)
    (maps : list SimPortMapping * list SimPortMapping) (conn : IR_InstanceConnection) :
    list SimPortMapping * list SimPortMapping :=
  match conn_const_expr conn with
  | Some _ => maps
  | None =>
      let child_port_id := conn_child_port_id conn in
      match sim_ctx_lookup child child_port_id with
      | None => maps
      | Some idx =>
          let child_sig := aget null_signal (mod_signals child_module) idx in
          match sig_kind child_sig with
          | SIG_PORT =>
              match sim_ctx_lookup parent (conn_parent_signal_id conn) with
              | None => maps
              | Some pe =>
                  let dir := sig_direction child_sig in
                  let is_inout := match dir with PORT_INOUT => true | _ => false end in
                  let m := mkPortMapping pe idx (conn_parent_msb conn) (conn_parent_lsb conn)
                             (sig_width child_sig) is_inout in
                  let '(ins, outs) := maps in
                  ((match dir with PORT_OUT => ins | _ => ins ++ [m] end),
                   (match dir with PORT_IN => outs | _ => outs ++ [m] end))
              end
          | _ => maps
          end
      end
  end.

Definition build_port_maps (parent child : SimModuleState) (child_module : IR_Module)
    (inst : IR_Instance) : list SimPortMapping * list SimPortMapping :=
  fold_left (add_port_mapping parent child child_module) (inst_connections inst) ([], []).

Definition find_module (design : IR_Design) (id : Z) : option IR_Module :=
  List.find (fun m => mod_id m =? id) (design_modules design).

(** Outcome of creation: the C result ([None] is [NULL]), or no result
    because the fuel, one unit per level of the hierarchy, ran out. *)
Inductive Creation := Created (ctx : option SimContext) | OutOfFuel.

(** The children, in order; [None] when a recursive call ran out of fuel. *)
Fixpoint create_children (create : IR_Module -> Z -> Creation) (design : IR_Design)
    (parent : SimModuleState) (insts : list IR_Instance) (i rng_seed : Z) :
    option (list (SimChildInstance SimContext)) :=
  match insts with
  | [] => Some []
  | inst :: insts' =>
      let child_module := find_module design (inst_child_module_id inst) in
      let made :=
        match child_module with
        | None => Created None
        | Some cm => create cm (u32 (rng_seed + i + 1))
        end in
      match made, create_children create design parent insts' (i + 1) rng_seed with
      | Created ctx, Some rest =>
          let '(ins, outs) :=
            match ctx, child_module with
            | Some c, Some cm => build_port_maps parent (ctx_state c) cm inst
            | _, _ => ([], [])
            end in
          Some (mkChild ctx inst child_module ins outs :: rest)
      | _, _ => None
      end
  end.

Fixpoint sim_ctx_create (fuel : nat) (module : IR_Module) (design : IR_Design)
    (rng_seed : Z) : Creation :=
  match fuel with
  | O => OutOfFuel
  | S fuel' =>
      if negb (forallb signal_accepted (mod_signals module)) then Created None
      else if negb (forallb memory_accepted (mod_memories module)) then Created None
      else
        let s := init_state module rng_seed in
        match
          create_children (fun m seed => sim_ctx_create fuel' m design seed)
            design s (mod_instances module) 0 rng_seed
        with
        | None => OutOfFuel
        | Some children => Created (Some (mkContext (build_async_chunks s) children))
        end
  end.

(** ** Dirty flags and the non-blocking commit *)

(** Apply [f] to every context of the hierarchy. *)
Fixpoint map_context (f : SimModuleState -> SimModuleState) (ctx : SimContext) : SimContext :=
  match ctx with
  | mkContext s children =>
      mkContext (f s)
        (map (fun ci => mkChild (option_map (map_context f) (ci_ctx ci)) (ci_inst ci)
                          (ci_child_module ci) (ci_input_maps ci) (ci_output_maps ci))
           children)
  end.

Definition sim_ctx_clear_dirty : SimContext -> SimContext :=
  map_context (set_settle_dirty false).

(** One entry of the loop of [sim_ctx_apply_nba]. *)
Definition commit_entry (i : Z) (s : SimModuleState) : SimModuleState :=
  let e := entry_at s i in
  if se_has_pending e then
    mark_dirty i (update_entry i (fun e => set_pending false (set_current (se_next e) e)) s)
  else s.

Definition apply_nba_state (s : SimModuleState) : SimModuleState :=
  for_up (length (ctx_signals s)) commit_entry s.

Definition sim_ctx_apply_nba : SimContext -> SimContext := map_context apply_nba_state.
