(* ===== verification/SimEval.v ===== *)
(** * The expression evaluator: [compiler/src/sim/sim_eval.c]

    [sim_eval_expr] is a structural recursion over the expression tree; each
    group of [case] labels of the C switch is one definition ([eval_*]).  The
    evaluator reads its context only through the two lookups of
    [sim_state.c], stated as the interface [SignalStore], and writes only
    [ctx->runtime_error], threaded by the monad [EvalM]. *)

From S2P Require Import Prelude SimValue IR SimState.

Local Open Scope Z_scope.
Local Open Scope jz_scope.

(** ** The interface to the context *)

Class SignalStore (C : Type) := {
  (** [sim_ctx_lookup(ctx, id)->current] *)
  sig_current : C -> Z -> option SimValue;
  (** [sim_ctx_lookup_mem(ctx, name)] *)
  mem_entry : C -> string -> option SimMemEntry
}.

(** Computations that may set [runtime_error]. *)
Definition EvalM (A : Type) : Type := bool -> A * bool.

#[export] Instance EvalM_ret : MRet EvalM := fun A a err => (a, err).
#[export] Instance EvalM_bind : MBind EvalM :=
  fun A B f m err => let '(a, err') := m err in f a err'.

(** ** Helpers *)

(** [expr->width > 0 ? expr->width : d]. *)
Definition width_or (w d : Z) : Z := if 0 <? w then w else d.

(** [res.width = expr->width > 0 ? expr->width : res.width]. *)
Definition with_width (w : Z) (r : SimValue) : SimValue :=
  set_width (width_or w (sv_width r)) r.

Definition sim_value_to_index (v : SimValue) : option Z :=
  let nw := Z.quot (sv_width v + 63) 64 in
  let nw := if nw <=? 0 then 1 else nw in
  if sim_val_has_xz v then None
  else
    match
      ret_up (Z.to_nat (nw - 1)) (fun i =>
        if negb (vget v (i + 1) =? 0) then Some tt else None)
    with
    | Some _ => None
    | None =>
        let raw := vget v 0 in
        if INT32_MAX <? raw then None else Some raw
    end.

(** The [while (raw != 0)] loop; [raw] has 32 bits, so 32 rounds suffice
    ([SimIntrinsics.from_index_num]). *)
Fixpoint from_index_loop (fuel : nat) (raw bit : Z) (r : SimValue) : SimValue :=
  match fuel with
  | O => r
  | S fuel' =>
      if raw =? 0 then r
      else
        let r := if negb (Z.land raw 1 =? 0) then sim_val_set_bit r bit 1 else r in
        from_index_loop fuel' (Z.shiftr raw 1) (bit + 1) r
  end.

Definition sim_value_from_index (value width : Z) : SimValue :=
  sim_val_mask (from_index_loop 32 (u32 value) 0 (sim_val_zero width)).

Definition sim_value_abs (src : SimValue) (result_w : Z) : SimValue :=
  let src_w := if 0 <? sv_width src then sv_width src else 1 in
  let sign := negb (sim_val_get_bit src (src_w - 1) =? 0) in
  let magnitude := if sign then sim_val_neg src else src in
  let magnitude := sim_val_zext magnitude (if src_w <? result_w then result_w else src_w) in
  let magnitude := sim_val_mask (set_width result_w magnitude) in
  let magnitude :=
    if sign then
      let most_neg := sim_val_set_bit (sim_val_zero src_w) (src_w - 1) 1 in
      if sim_val_equal (sim_val_mask src) most_neg && (0 <? result_w)
      then sim_val_set_bit magnitude (result_w - 1) 1
      else magnitude
    else magnitude in
  sim_val_mask magnitude.

Definition sim_value_signed_choice (a b : SimValue) (pick_min : bool) (result_w : Z) : SimValue :=
  let width := max_width a b in
  let sign_a := sim_val_get_bit a (sv_width a - 1) in
  let sign_b := sim_val_get_bit b (sv_width b - 1) in
  let a := sim_val_sext a width in
  let b := sim_val_sext b width in
  let pick_a :=
    if negb (sign_a =? sign_b) then
      if pick_min then negb (sign_a =? 0) else sign_a =? 0
    else
      let a_lt_b := sim_val_is_true (sim_val_lt a b) =? 1 in
      if pick_min then a_lt_b else negb a_lt_b in
  if pick_a then sim_val_mask (set_width result_w a)
  else sim_val_mask (set_width result_w b).

(** ** The cases of the switch *)

Definition eval_literal (width : Z) (lit : IR_Literal) : SimValue :=
  let v := sim_val_from_words (lit_words lit) IR_LIT_WORDS (lit_width lit) in
  let v := if lit_is_z lit then sim_val_all_z (lit_width lit) else v in
  if sv_width v =? 0 then set_width (width_or width 1) v else v.

Definition eval_unary (k : IR_UnaryKind) (width : Z) (op : SimValue) : SimValue :=
  match k with
  | EXPR_UNARY_NOT => with_width width (sim_val_not op)
  | EXPR_UNARY_NEG => with_width width (sim_val_neg op)
  | EXPR_LOGICAL_NOT => sim_val_logical_not op
  end.

(** The unsigned and signed minimum and maximum. *)
Definition eval_uminmax (pick_min : bool) (width : Z) (a b : SimValue) : SimValue :=
  if sim_val_has_xz a || sim_val_has_xz b then sim_val_all_x (width_or width 1)
  else
    let result_w := width_or width 1 in
    let a_lt_b := sim_val_is_true (sim_val_lt a b) =? 1 in
    let chosen := if (if pick_min then a_lt_b else negb a_lt_b) then a else b in
    sim_val_mask (set_width result_w chosen).

Definition eval_sminmax (pick_min : bool) (width : Z) (a b : SimValue) : SimValue :=
  if sim_val_has_xz a || sim_val_has_xz b then sim_val_all_x (width_or width 1)
  else sim_value_signed_choice a b pick_min (width_or width 1).

Definition eval_binary (k : IR_BinaryKind) (width : Z) (l r : SimValue) : SimValue :=
  match k with
  | EXPR_BINARY_ADD => sim_val_mask (with_width width (sim_val_add l r))
  | EXPR_BINARY_SUB => sim_val_mask (with_width width (sim_val_sub l r))
  | EXPR_BINARY_MUL => sim_val_mask (with_width width (sim_val_mul l r))
  | EXPR_BINARY_DIV => sim_val_mask (with_width width (sim_val_div l r))
  | EXPR_BINARY_MOD => sim_val_mask (with_width width (sim_val_mod l r))
  | EXPR_BINARY_AND => with_width width (sim_val_and l r)
  | EXPR_BINARY_OR => with_width width (sim_val_or l r)
  | EXPR_BINARY_XOR => with_width width (sim_val_xor l r)
  | EXPR_BINARY_SHL => sim_val_mask (with_width width (sim_val_shl l r))
  | EXPR_BINARY_SHR => sim_val_mask (with_width width (sim_val_shr l r))
  | EXPR_BINARY_ASHR => sim_val_mask (with_width width (sim_val_ashr l r))
  | EXPR_BINARY_EQ => sim_val_eq l r
  | EXPR_BINARY_NEQ => sim_val_neq l r
  | EXPR_BINARY_LT => sim_val_lt l r
  | EXPR_BINARY_GT => sim_val_gt l r
  | EXPR_BINARY_LTE => sim_val_lte l r
  | EXPR_BINARY_GTE => sim_val_gte l r
  | EXPR_LOGICAL_AND => sim_val_logical_and l r
  | EXPR_LOGICAL_OR => sim_val_logical_or l r
  | EXPR_INTRINSIC_USUB | EXPR_INTRINSIC_SSUB =>
      sim_val_mask (with_width width (sim_val_sub l r))
  | EXPR_INTRINSIC_UMIN => eval_uminmax true width l r
  | EXPR_INTRINSIC_UMAX => eval_uminmax false width l r
  | EXPR_INTRINSIC_SMIN => eval_sminmax true width l r
  | EXPR_INTRINSIC_SMAX => eval_sminmax false width l r
  end.

(** An unknown condition sets [runtime_error]. *)
Definition eval_ternary (cond tv fv : SimValue) : EvalM SimValue := fun err =>
  (sim_val_ternary cond tv fv, err || sim_val_has_xz cond).

(** At most 64 operands fit the C array [parts]. *)
Definition concat_max_parts : nat := 64.

Definition eval_mem_read (width : Z) (me : SimMemEntry) (addr : SimValue) : SimValue :=
  if sim_val_has_xz addr then sim_val_all_x (me_word_width me)
  else
    match sim_value_to_index addr with
    | None => sim_val_all_x (me_word_width me)
    | Some idx =>
        if (idx <? 0) || (me_depth me <=? idx) then sim_val_all_x (me_word_width me)
        else aget (sim_val_zero 0) (me_cells me) idx
    end.

Definition eval_gbit (src idx : SimValue) : SimValue :=
  if sim_val_has_xz idx then sim_val_all_x 1
  else
    match sim_value_to_index idx with
    | None => sim_val_zero 1
    | Some bit =>
        if (bit <? 0) || (sv_width src <=? bit) then sim_val_zero 1
        else sim_val_slice src bit bit
    end.

Definition eval_sbit (src idx val : SimValue) : SimValue :=
  if sim_val_has_xz idx then sim_val_all_x (sv_width src)
  else
    match sim_value_to_index idx with
    | None => src
    | Some bit =>
        if (bit <? 0) || (sv_width src <=? bit) then src
        else
          let wi := bit / 64 in
          let bi := bit mod 64 in
          let mask := 1 .<< bi in
          let one_bit := sim_val_slice val 0 0 in
          let src :=
            set_val wi ((vget src wi .& .~ mask) .| (sim_val_get_bit one_bit 0 .<< bi)) src in
          let src :=
            set_xmask wi ((xget src wi .& .~ mask)
              .| ((if negb (xget one_bit 0 .& 1 =? 0) then 1 else 0) .<< bi)) src in
          set_zmask wi ((zget src wi .& .~ mask)
            .| ((if negb (zget one_bit 0 .& 1 =? 0) then 1 else 0) .<< bi)) src
    end.

(** [int] arithmetic on the element index wraps at 32 bits. *)
Definition eval_gslice (width element_width : Z) (src idx : SimValue) : SimValue :=
  let ew := if element_width <=? 0 then width_or width 1 else element_width in
  if sim_val_has_xz idx then sim_val_all_x ew
  else
    match sim_value_to_index idx with
    | None => sim_val_all_x ew
    | Some elem_idx =>
        let lo := i32 (elem_idx * ew) in
        let hi := i32 (lo + ew - 1) in
        if (lo <? 0) || (sv_width src <=? hi) then sim_val_all_x ew
        else sim_val_slice src hi lo
    end.

Definition eval_sslice (element_width : Z) (src idx val : SimValue) : SimValue :=
  if sim_val_has_xz idx then sim_val_all_x (sv_width src)
  else
    match sim_value_to_index idx with
    | None => src
    | Some lo =>
        let ew := element_width in
        let hi := i32 (lo + ew - 1) in
        if (lo <? 0) || (sv_width src <=? hi) then src
        else
          let slice_val := sim_val_slice val (ew - 1) 0 in
          let shift_amt := sim_val_from_uint (u64 lo) 32 in
          let shifted_val := sim_val_shl (sim_val_zext slice_val (sv_width src)) shift_amt in
          let ones_ew := sim_val_ones ew in
          let shifted_mask := sim_val_shl (sim_val_zext ones_ew (sv_width src)) shift_amt in
          let inv_mask := sim_val_not shifted_mask in
          let cleared := sim_val_and src inv_mask in
          sim_val_or cleared shifted_val
    end.

(** Intrinsics that are all [x] on an unknown source bit. *)
Definition x_or (w : Z) (src : SimValue) (r : SimValue) : SimValue :=
  if sim_val_has_xz src then sim_val_all_x w else r.

Definition bit_set (v : SimValue) (i : Z) : bool := negb (sim_val_get_bit v i =? 0).

Definition eval_oh2b (width : Z) (src : SimValue) : SimValue :=
  x_or (width_or width 1) src
    (sim_value_from_index
       (for_up (Z.to_nat (sv_width src)) (fun i result => if bit_set src i then i else result) 0)
       (width_or width 1)).

Definition eval_b2oh (width : Z) (idx : SimValue) : SimValue :=
  x_or (width_or width 1) idx
    (let result_w := width_or width 1 in
     match sim_value_to_index idx with
     | Some bit =>
         if (0 <=? bit) && (bit <? result_w)
         then sim_val_set_bit (sim_val_zero result_w) bit 1
         else sim_val_zero result_w
     | None => sim_val_zero result_w
     end).

(** The position of the first set bit from the top, if any. *)
Definition top_set_bit (src : SimValue) : option Z :=
  ret_down (Z.to_nat (sv_width src)) (fun i => if bit_set src i then Some i else None).

Definition eval_prienc (width : Z) (src : SimValue) : SimValue :=
  x_or (width_or width 1) src
    (sim_value_from_index
       (match top_set_bit src with Some i => i | None => 0 end) (width_or width 1)).

Definition eval_lzc (width : Z) (src : SimValue) : SimValue :=
  x_or (width_or width 1) src
    (sim_value_from_index
       (match top_set_bit src with
        | Some i => sv_width src - 1 - i
        | None => sv_width src
        end) (width_or width 1)).

Definition eval_abs (width : Z) (src : SimValue) : SimValue :=
  x_or (width_or width 1) src (sim_value_abs src (width_or width 1)).

Definition eval_popcount (width : Z) (src : SimValue) : SimValue :=
  x_or (width_or width 1) src
    (sim_value_from_index
       (for_up (Z.to_nat (sv_width src))
          (fun i count => if bit_set src i then count + 1 else count) 0)
       (width_or width 1)).

Definition eval_reverse (width : Z) (src : SimValue) : SimValue :=
  x_or (width_or width 1) src
    (let w := if 0 <? sv_width src then sv_width src else 1 in
     for_up (Z.to_nat w) (fun i result =>
       if bit_set src i then sim_val_set_bit result (w - 1 - i) 1 else result)
       (sim_val_zero w)).

Definition eval_bswap (width : Z) (src : SimValue) : SimValue :=
  x_or (width_or width 1) src
    (let w := if 0 <? sv_width src then sv_width src else 8 in
     let num_bytes := w / 8 in
     for_up (Z.to_nat num_bytes) (fun i result =>
       for_up 8 (fun b result =>
         if bit_set src (i * 8 + b)
         then sim_val_set_bit result ((num_bytes - 1 - i) * 8 + b) 1 else result) result)
       (sim_val_zero w)).

Definition eval_reduce_and (src : SimValue) : SimValue :=
  x_or 1 src (sim_val_eq src (sim_val_ones (sv_width src))).

Definition eval_reduce_or (src : SimValue) : SimValue :=
  x_or 1 src (sim_val_neq src (sim_val_zero (sv_width src))).

Definition eval_reduce_xor (src : SimValue) : SimValue :=
  x_or 1 src
    (let w := if 0 <? sv_width src then sv_width src else 1 in
     sim_val_from_uint
       (for_up (Z.to_nat w) (fun i result => Z.lxor result (sim_val_get_bit src i)) 0) 1).

(** Operands are evaluated only where the C case evaluates them; evaluation
    has no other effect than [runtime_error], so each case lists what it
    evaluates. *)
Definition intrinsic_uses_index (k : IR_IntrinsicKind) : bool :=
  match k with
  | EXPR_INTRINSIC_UADD | EXPR_INTRINSIC_SADD | EXPR_INTRINSIC_UMUL | EXPR_INTRINSIC_SMUL
  | EXPR_INTRINSIC_GBIT | EXPR_INTRINSIC_SBIT | EXPR_INTRINSIC_GSLICE
  | EXPR_INTRINSIC_SSLICE => true
  | _ => false
  end.

Definition intrinsic_uses_value (k : IR_IntrinsicKind) : bool :=
  match k with EXPR_INTRINSIC_SBIT | EXPR_INTRINSIC_SSLICE => true | _ => false end.

Definition eval_intrinsic (k : IR_IntrinsicKind) (width element_width : Z)
    (src idx val : SimValue) : SimValue :=
  match k with
  | EXPR_INTRINSIC_UADD | EXPR_INTRINSIC_SADD =>
      sim_val_mask (with_width width (sim_val_add src idx))
  | EXPR_INTRINSIC_UMUL | EXPR_INTRINSIC_SMUL =>
      sim_val_mask (with_width width (sim_val_mul src idx))
  | EXPR_INTRINSIC_GBIT => eval_gbit src idx
  | EXPR_INTRINSIC_SBIT => eval_sbit src idx val
  | EXPR_INTRINSIC_GSLICE => eval_gslice width element_width src idx
  | EXPR_INTRINSIC_SSLICE => eval_sslice element_width src idx val
  | EXPR_INTRINSIC_OH2B => eval_oh2b width src
  | EXPR_INTRINSIC_B2OH => eval_b2oh width src
  | EXPR_INTRINSIC_PRIENC => eval_prienc width src
  | EXPR_INTRINSIC_LZC => eval_lzc width src
  | EXPR_INTRINSIC_ABS => eval_abs width src
  | EXPR_INTRINSIC_POPCOUNT => eval_popcount width src
  | EXPR_INTRINSIC_REVERSE => eval_reverse width src
  | EXPR_INTRINSIC_BSWAP => eval_bswap width src
  | EXPR_INTRINSIC_REDUCE_AND => eval_reduce_and src
  | EXPR_INTRINSIC_REDUCE_OR => eval_reduce_or src
  | EXPR_INTRINSIC_REDUCE_XOR => eval_reduce_xor src
  end.

(** ** The evaluator *)

Section Operands.
Context {A B : Type} (f : A -> EvalM B).

(** Evaluate the first [n] operands from left to right. *)
Fixpoint eval_list (n : nat) (es : list A) {struct es} : EvalM (list B) :=
  match n, es with
  | S n', e :: es' => v ← f e; vs ← eval_list n' es'; mret (v :: vs)
  | _, _ => mret []
  end.
End Operands.

(** Evaluate the operand when [use]; otherwise it is not looked at. *)
Definition eval_if (use : bool) (m : EvalM SimValue) : EvalM SimValue :=
  if use then m else mret (sim_val_all_x 1).

Section Evaluator.
Context {C : Type} {Store : SignalStore C} (ctx : C).

Fixpoint sim_eval_expr (expr : IR_Expr) : EvalM SimValue :=
  match expr with
  | NullExpr => mret (sim_val_all_x 1)
  | ExprLiteral width lit => mret (eval_literal width lit)
  | ExprSignalRef width signal_id =>
      mret (match sig_current ctx signal_id with
            | None => sim_val_all_x (width_or width 1)
            | Some v => v
            end)
  | ExprUnary k width operand =>
      op ← sim_eval_expr operand;
      mret (eval_unary k width op)
  | ExprBinary k width lhs rhs =>
      l ← sim_eval_expr lhs;
      r ← sim_eval_expr rhs;
      mret (eval_binary k width l r)
  | ExprTernary _ condition true_val false_val =>
      cond ← sim_eval_expr condition;
      tv ← sim_eval_expr true_val;
      fv ← sim_eval_expr false_val;
      eval_ternary cond tv fv
  | ExprConcat _ operands =>
      parts ← eval_list sim_eval_expr concat_max_parts operands;
      mret (sim_val_concat parts)
  | ExprSlice width signal_id base_expr msb lsb =>
      if negb (expr_is_null base_expr) then
        base ← sim_eval_expr base_expr;
        mret (sim_val_slice base msb lsb)
      else
        mret (match sig_current ctx signal_id with
              | None => sim_val_all_x (width_or width 1)
              | Some base => sim_val_slice base msb lsb
              end)
  | ExprMemRead width memory_name _ address =>
      match mem_entry ctx memory_name with
      | None => mret (sim_val_all_x (width_or width 1))
      | Some me =>
          addr ← sim_eval_expr address;
          mret (eval_mem_read width me addr)
      end
  | ExprIntrinsic k width source index value element_width =>
      src ← sim_eval_expr source;
      idx ← eval_if (intrinsic_uses_index k) (sim_eval_expr index);
      val ← eval_if (intrinsic_uses_value k) (sim_eval_expr value);
      mret (eval_intrinsic k width element_width src idx val)
  end.

(** The value alone, and whether evaluation raises the error flag. *)
Definition eval_value (expr : IR_Expr) : SimValue := fst (sim_eval_expr expr false).
Definition eval_raises (expr : IR_Expr) : bool := snd (sim_eval_expr expr false).
End Evaluator.

(** A module instance is a store. *)
#[export] Instance state_store : SignalStore SimModuleState := {
  sig_current s id := option_map (fun i => se_current (entry_at s i)) (sim_ctx_lookup s id);
  mem_entry s name := sim_ctx_lookup_mem s name ≫= fun i => ctx_memories s !! i
}.
