(* ===== verification/SimDeps.v ===== *)
(** * Dependency analysis is sound

    The read sets collected by [sim_state.c] contain every signal an
    expression can depend on: two stores that agree on them evaluate it alike. *)

From stdpp Require Import sets.
From S2P Require Import Prelude SimValue IR SimState SimEval.

Local Open Scope Z_scope.

(** ** Sets of ids *)

Lemma existsb_eqb s (i : Z) : existsb (Z.eqb i) s = true <-> i ∈ s.
Proof.
  rewrite existsb_exists. split.
  - intros (x & Hx & ->%Z.eqb_eq). by apply list_elem_of_In.
  - intros H. exists i. split; [by apply list_elem_of_In | apply Z.eqb_refl].
Qed.

Lemma elem_of_sigset_add s i j : j ∈ sigset_add s i <-> j = i \/ j ∈ s.
Proof.
  unfold sigset_add. destruct (existsb (Z.eqb i) s) eqn:E.
  - apply existsb_eqb in E. split; [by right | intros [->|]; done].
  - rewrite elem_of_app, list_elem_of_singleton. tauto.
Qed.

Lemma NoDup_sigset_add s i : NoDup s -> NoDup (sigset_add s i).
Proof.
  intros H. unfold sigset_add. destruct (existsb (Z.eqb i) s) eqn:E; [done|].
  apply NoDup_app. split_and!; [done| |apply NoDup_singleton].
  intros x Hx ->%list_elem_of_singleton. apply existsb_eqb in Hx. congruence.
Qed.

(** ** The error flag *)

(** A computation that only ever raises the flag, and does not look at it. *)
Definition accumulates {A} (m : EvalM A) : Prop :=
  forall err, m err = ((m false).1, err || (m false).2).

Lemma accumulates_ret {A} (a : A) : accumulates (mret a).
Proof. intros err. cbn. by rewrite orb_false_r. Qed.

Lemma accumulates_bind {A B} (m : EvalM A) (f : A -> EvalM B) :
  accumulates m -> (forall a, accumulates (f a)) -> accumulates (m ≫= f).
Proof.
  intros Hm Hf err. unfold mbind, EvalM_bind. rewrite (Hm err).
  destruct (m false) as [a e]. cbn. rewrite (Hf a (err || e)), (Hf a e). cbn.
  by rewrite orb_assoc.
Qed.

Create HintDb accum.
#[export] Hint Resolve accumulates_ret accumulates_bind : accum.

Section Accumulate.
Context {C : Type} {Store : SignalStore C} (c : C).

Lemma eval_accumulates e : accumulates (sim_eval_expr c e).
Proof using Type.
  induction e as [| | |k w e IHe|k w l r IHl IHr|w c0 t f IHc IHt IHf|w es IHes
    |w i b msb lsb IHb|k w s i v ew IHs IHi IHv|w m p a IHa] using IR_Expr_ind';
    cbn [sim_eval_expr]; auto 10 with accum.
  - repeat (apply accumulates_bind; [done|intros ?]). intros err. unfold eval_ternary. cbn.
    done.
  - apply accumulates_bind; [|auto with accum].
    generalize concat_max_parts. induction IHes as [|e es He _ IH]; intros [|n]; cbn [eval_list];
      auto 10 with accum.
  - destruct (negb _); auto with accum.
  - apply accumulates_bind; [done|]. intros x. apply accumulates_bind.
    { destruct (intrinsic_uses_index k); cbn; auto with accum. }
    intros y. apply accumulates_bind; [|auto with accum].
    destruct (intrinsic_uses_value k); cbn; auto with accum.
  - destruct (mem_entry c m); auto with accum.
Qed.

(** Evaluation is a value and a flag to add. *)
Lemma eval_split e err :
  sim_eval_expr c e err = (eval_value c e, err || eval_raises c e).
Proof using Type. apply eval_accumulates. Qed.
End Accumulate.

(** ** Reads of an expression *)

Definition expr_reads (e : IR_Expr) : list Z := collect_expr_reads e [].

(** The collector only adds the reads of the expression to its accumulator. *)
Definition adds (f : list Z -> list Z) : Prop :=
  (forall acc i, i ∈ f acc <-> i ∈ acc \/ i ∈ f []) /\ (forall acc, NoDup acc -> NoDup (f acc)).

Lemma adds_id : adds (fun acc => acc).
Proof. split; [|done]. intros acc i. set_solver. Qed.

Lemma adds_add i : adds (fun acc => sigset_add acc i).
Proof.
  split; [|intros; by apply NoDup_sigset_add].
  intros acc j. rewrite !elem_of_sigset_add. set_solver.
Qed.

Lemma adds_comp f g : adds f -> adds g -> adds (fun acc => g (f acc)).
Proof.
  intros [F1 F2] [G1 G2]. split; [|auto]. intros acc i.
  rewrite (G1 (f acc)), (G1 (f [])), (F1 acc). tauto.
Qed.

Lemma adds_fold {A} (f : A -> list Z -> list Z) l :
  Forall (fun x => adds (f x)) l -> adds (fold_left (fun acc x => f x acc) l).
Proof.
  induction 1 as [|x l Hx Hl IH]; simpl; [apply adds_id|].
  apply (adds_comp (f x)); done.
Qed.

Lemma collect_adds e : adds (collect_expr_reads e).
Proof.
  induction e as [| | |? ? ? IHe|? ? ? ? IHl IHr|? ? ? ? IHc IHt IHf|? ? IHes
    |w i b msb lsb IHb|? ? ? ? ? ? IHs IHi IHv|? ? ? ? IHa] using IR_Expr_ind'; simpl;
    try apply adds_id; try apply adds_add; try done.
  - by apply (adds_comp (collect_expr_reads _)).
  - apply (adds_comp (fun acc => collect_expr_reads _ (collect_expr_reads _ acc))); [|done].
    by apply (adds_comp (collect_expr_reads _)).
  - by apply (adds_fold collect_expr_reads).
  - destruct (negb _); [done|apply adds_add].
  - apply (adds_comp (fun acc => collect_expr_reads _ (collect_expr_reads _ acc))); [|done].
    by apply (adds_comp (collect_expr_reads _)).
Qed.

Lemma elem_of_collect e acc i :
  i ∈ collect_expr_reads e acc <-> i ∈ acc \/ i ∈ expr_reads e.
Proof. apply collect_adds. Qed.

Lemma expr_reads_NoDup e : NoDup (expr_reads e).
Proof. apply collect_adds. constructor. Qed.

(** ** Agreement *)

Section Agreement.
Context {C : Type} {Store : SignalStore C} (c1 c2 : C).
Context (Hmem : forall m, mem_entry c1 m = mem_entry c2 m).

Definition agree_on (ids : list Z) : Prop :=
  forall i, i ∈ ids -> sig_current c1 i = sig_current c2 i.

Lemma agree_collect e acc :
  agree_on (collect_expr_reads e acc) -> agree_on (expr_reads e) /\ agree_on acc.
Proof using Type.
  intros H. split; intros i Hi; apply H, elem_of_collect; auto.
Qed.

Lemma agree_fold es acc :
  agree_on (fold_left (fun acc e => collect_expr_reads e acc) es acc) ->
  Forall (fun e => agree_on (expr_reads e)) es /\ agree_on acc.
Proof using Type.
  revert acc. induction es as [|e es IH]; intros acc H; simpl in *; [by split|].
  apply IH in H as [H1 H2]. apply agree_collect in H2 as [H2 H3].
  split; [by constructor|done].
Qed.

(** What evaluation can see. *)
Lemma eval_agree e :
  agree_on (expr_reads e) -> forall err, sim_eval_expr c1 e err = sim_eval_expr c2 e err.
Proof using Hmem.
  unfold expr_reads.
  induction e as [|w lit|w i|k w e IHe|k w l r IHl IHr|w c t f IHc IHt IHf|w es IHes
    |w i b msb lsb IHb|k w s i v ew IHs IHi IHv|w m p a IHa] using IR_Expr_ind';
    simpl; intros H err; try done.
  - rewrite (H i); [done|]. set_solver.
  - unfold mbind, EvalM_bind. by rewrite IHe.
  - apply agree_collect in H as [H1 H2]. unfold mbind, EvalM_bind.
    rewrite (IHl H2). destruct (sim_eval_expr c2 l err) as [v err']. by rewrite (IHr H1).
  - apply agree_collect in H as [H1 H2]. apply agree_collect in H2 as [H2 H3].
    unfold mbind, EvalM_bind. rewrite (IHc H3).
    destruct (sim_eval_expr c2 c err) as [vc e1]. rewrite (IHt H2).
    destruct (sim_eval_expr c2 t e1) as [vt e2]. by rewrite (IHf H1).
  - apply agree_fold in H as [H _]. unfold mbind, EvalM_bind.
    assert (forall n err, eval_list (sim_eval_expr c1) n es err
      = eval_list (sim_eval_expr c2) n es err) as E; [|by rewrite E].
    revert H. induction IHes as [|e es He _ IH]; intros H; [by intros []|].
    apply Forall_cons in H as [H1 H2]. intros [|n] err'; [done|]. cbn [eval_list].
    unfold mbind, EvalM_bind. rewrite (He H1).
    destruct (sim_eval_expr c2 e err') as [v e1]. by rewrite (IH H2).
  - destruct (negb (expr_is_null b)).
    + unfold mbind, EvalM_bind. by rewrite (IHb H).
    + rewrite (H i); [done|]. set_solver.
  - apply agree_collect in H as [H1 H2]. apply agree_collect in H2 as [H2 H3].
    unfold mbind, EvalM_bind. rewrite (IHs H3).
    destruct (sim_eval_expr c2 s err) as [vs e1].
    assert (forall use e, (forall err, sim_eval_expr c1 e err = sim_eval_expr c2 e err) ->
      forall err, eval_if use (sim_eval_expr c1 e) err = eval_if use (sim_eval_expr c2 e) err)
      as E by (intros [] e He err'; [apply He|done]).
    rewrite (E _ i (IHi H2)). destruct (eval_if _ (sim_eval_expr c2 i) e1) as [vi e2].
    by rewrite (E _ v (IHv H1)).
  - rewrite Hmem. destruct (mem_entry c2 m); [|done]. unfold mbind, EvalM_bind.
    by rewrite (IHa H).
Qed.
End Agreement.
