(* ===== verification/SimExec.v ===== *)
(** * Statements, settling and clock domains: [compiler/src/sim/sim_exec.c]

    Statements run on the state of one module instance; settling and clocking
    recurse over the instance hierarchy.  The message printed on a runtime
    error is not modelled, only the flag. *)

From S2P Require Import Prelude SimValue IR SimState SimEval.

Local Open Scope Z_scope.
Local Open Scope jz_scope.

Definition SIM_SETTLE_MAX_ITERS : Z := 100.

(** Run the evaluator on a state and store the error flag. *)
Definition eval_in (s : SimModuleState) (e : IR_Expr) : SimValue * SimModuleState :=
  let '(v, err) := sim_eval_expr s e (ctx_runtime_error s) in
  (v, set_runtime_error err s).

(** ** Assignment *)

(** [rhs] adapted to the target width, by assignment kind. *)
Definition extend_rhs (kind : IR_AssignmentKind) (rhs : SimValue) (target_width : Z) : SimValue :=
  match kind with
  | ASSIGN_ALIAS_ZEXT | ASSIGN_DRIVE_ZEXT | ASSIGN_RECEIVE_ZEXT =>
      sim_val_zext rhs target_width
  | ASSIGN_ALIAS_SEXT | ASSIGN_DRIVE_SEXT | ASSIGN_RECEIVE_SEXT =>
      sim_val_sext rhs target_width
  | _ =>
      if negb (sv_width rhs =? target_width)
      then sim_val_mask (set_width target_width rhs) else rhs
  end.

(** Copy bit [b] of [src] to bit [lsb + b] of [target]. *)
Definition copy_bit (src : SimValue) (lsb b : Z) (target : SimValue) : SimValue :=
  let dst_bit := lsb + b in
  let dst_wi := dst_bit / 64 in
  let dst_bi := dst_bit mod 64 in
  let src_wi := b / 64 in
  let src_bi := b mod 64 in
  let bmask := 1 .<< dst_bi in
  let put (get : SimValue -> Z -> Z) (t : SimValue) :=
    (get t dst_wi .& .~ bmask) .| (((get src src_wi .>> src_bi) .& 1) .<< dst_bi) in
  let t := set_val dst_wi (put vget target) target in
  let t := set_xmask dst_wi (put xget t) t in
  set_zmask dst_wi (put zget t) t.

(** The part-select loop, shared by assignments and port propagation. *)
Definition write_slice (target src : SimValue) (msb lsb : Z) : SimValue :=
  for_up (Z.to_nat (msb - lsb + 1)) (copy_bit src lsb) target.

(** Words [from, from + 1, ..., from + n - 1] of two values agree. *)
Definition words_same (a b : SimValue) (from : Z) (n : nat) : bool :=
  match
    ret_up n (fun i =>
      let w := from + i in
      if negb (vget a w =? vget b w) || negb (xget a w =? xget b w)
         || negb (zget a w =? zget b w) then Some tt else None)
  with Some _ => false | None => true end.

(** The sliced branch of [apply_assign] on entry [i]. *)
Definition assign_slice (i msb lsb : Z) (rhs_val : SimValue) (is_nba : bool)
    (s : SimModuleState) : SimModuleState :=
  let entry := entry_at s i in
  if is_nba then
    let target := if se_has_pending entry then se_next entry else se_current entry in
    update_entry i
      (fun e => set_pending true (set_next (write_slice target rhs_val msb lsb) e)) s
  else
    let target := write_slice (se_current entry) rhs_val msb lsb in
    let s' := update_entry i (set_current target) s in
    let lo_wi := Z.quot lsb 64 in
    let hi_wi := Z.quot msb 64 in
    if words_same target (se_current entry) lo_wi (Z.to_nat (hi_wi - lo_wi + 1))
    then s' else mark_dirty i s'.

(** The full-width branch of [apply_assign] on entry [i]. *)
Definition assign_full (i : Z) (rhs_val : SimValue) (is_nba : bool)
    (s : SimModuleState) : SimModuleState :=
  if is_nba then
    update_entry i (fun e => set_pending true (set_next rhs_val e)) s
  else
    let current := se_current (entry_at s i) in
    let nw := Z.quot (sv_width current + 63) 64 in
    if words_same current rhs_val 0 (Z.to_nat nw) then s
    else mark_dirty i (update_entry i (set_current rhs_val) s).

Definition apply_assign (s : SimModuleState) (asgn : IR_Assignment) (is_nba : bool) :
    SimModuleState :=
  match sim_ctx_lookup s (asgn_lhs_signal_id asgn) with
  | None => s
  | Some i =>
      let '(rhs_val, s) := eval_in s (asgn_rhs asgn) in
      let rhs_val := extend_rhs (asgn_kind asgn) rhs_val (sv_width (se_current (entry_at s i))) in
      if asgn_is_sliced asgn
      then assign_slice i (asgn_lhs_msb asgn) (asgn_lhs_lsb asgn) rhs_val is_nba s
      else assign_full i rhs_val is_nba s
  end.

(** ** Memory writes *)

Definition sim_value_to_mem_index (v : SimValue) (depth : Z) : option Z :=
  let nw := Z.quot (sv_width v + 63) 64 in
  let nw := if nw <=? 0 then 1 else nw in
  if sim_val_has_xz v then None
  else
    match
      ret_up (Z.to_nat (nw - 1)) (fun i =>
        if negb (vget v (i + 1) =? 0) then Some tt else None)
    with
    | Some _ => None
    | None =>
        let raw := vget v 0 in
        if (u64 depth <=? raw) || (INT32_MAX <? raw) then None else Some raw
    end.

Definition set_cell (idx : Z) (data : SimValue) (me : SimMemEntry) : SimMemEntry :=
  mkMemEntry (me_mem_id me) (aset (me_cells me) idx data) (me_word_width me) (me_depth me).

Definition exec_mem_write (s : SimModuleState) (memory_name : string) (address data : IR_Expr) :
    SimModuleState :=
  match sim_ctx_lookup_mem s memory_name with
  | None => s
  | Some m =>
      match ctx_memories s !! m with
      | None => s
      | Some me =>
          let '(addr, s) := eval_in s address in
          let '(data, s) := eval_in s data in
          match sim_value_to_mem_index addr (me_depth me) with
          | None => s
          | Some idx => set_memories (<[m := set_cell idx data me]> (ctx_memories s)) s
          end
      end
  end.

(** ** Statements *)

Section Cases.
Context (exec : SimModuleState -> IR_Stmt -> SimModuleState).

(** The case loop of a select: the first match, or DEFAULT, ends it. *)
Fixpoint exec_cases (selector : SimValue) (cases : list (IR_Expr * IR_Stmt))
    (s : SimModuleState) : SimModuleState :=
  match cases with
  | [] => s
  | (case_value, body) :: cases' =>
      if expr_is_null case_value then exec s body
      else
        let '(cv, s) := eval_in s case_value in
        if sim_val_is_true (sim_val_eq selector cv) =? 1 then exec s body
        else exec_cases selector cases' s
  end.

(** The elif loop walks the chain while its nodes are IF statements; when
    it falls off the chain the else block of the first IF runs. *)
Fixpoint exec_elif (else_block elif : IR_Stmt) (s : SimModuleState) : SimModuleState :=
  match elif with
  | StmtIf condition then_block elif_chain _ =>
      let '(ec, s) := eval_in s condition in
      let etc := sim_val_is_true ec in
      if etc =? -1 then set_runtime_error true s
      else if etc =? 1 then exec s then_block
      else exec_elif else_block elif_chain s
  | _ => exec s else_block
  end.

Fixpoint exec_block (stmts : list IR_Stmt) (s : SimModuleState) : SimModuleState :=
  match stmts with
  | [] => s
  | stmt :: stmts' => exec_block stmts' (exec s stmt)
  end.
End Cases.

Fixpoint sim_exec_stmt (is_nba : bool) (s : SimModuleState) (stmt : IR_Stmt) {struct stmt} :
    SimModuleState :=
  match stmt with
  | NullStmt => s
  | StmtAssignment asgn => apply_assign s asgn is_nba
  | StmtIf condition then_block elif_chain else_block =>
      let '(cond, s) := eval_in s condition in
      let tc := sim_val_is_true cond in
      if tc =? -1 then set_runtime_error true s
      else if tc =? 1 then sim_exec_stmt is_nba s then_block
      else exec_elif (sim_exec_stmt is_nba) else_block elif_chain s
  | StmtSelect selector cases =>
      let '(sel, s) := eval_in s selector in
      if sim_val_has_xz sel then set_runtime_error true s
      else exec_cases (sim_exec_stmt is_nba) sel cases s
  | StmtBlock stmts => exec_block (sim_exec_stmt is_nba) stmts s
  | StmtMemWrite memory_name _ address data => exec_mem_write s memory_name address data
  end.

(** ** Port propagation *)

Definition find_signal_in_ctx (s : SimModuleState) (signal_id : Z) : option IR_Signal :=
  match sim_ctx_lookup s signal_id with
  | Some idx => Some (aget null_signal (mod_signals (ctx_module s)) idx)
  | None => None
  end.

Definition sim_val_same (a b : SimValue) (nw : Z) : bool := words_same a b 0 (Z.to_nat nw).

(** One input mapping: the new child state and whether its value changed. *)
Definition propagate_input (parent : SimModuleState) (acc : SimModuleState * bool)
    (m : SimPortMapping) : SimModuleState * bool :=
  let '(child, changed) := acc in
  let ce := pm_child_entry m in
  let old := se_current (entry_at child ce) in
  let pv := se_current (entry_at parent (pm_parent_entry m)) in
  let v :=
    if 0 <=? pm_parent_msb m then sim_val_slice pv (pm_parent_msb m) (pm_parent_lsb m)
    else if negb (sv_width pv =? pm_child_width m)
    then sim_val_mask (set_width (pm_child_width m) pv) else pv in
  let child := update_entry ce (set_current v) child in
  let nw := Z.quot (pm_child_width m + 63) 64 in
  if negb (sim_val_same old v nw)
  then (set_sig_dirty (aset (ctx_sig_dirty child) ce true) child, true)
  else (child, changed).

Definition propagate_to_child (parent : SimModuleState) (maps : list SimPortMapping)
    (child : SimModuleState) : SimModuleState * bool :=
  fold_left (propagate_input parent) maps (child, false).

Definition propagate_output (child : SimModuleState) (parent : SimModuleState)
    (m : SimPortMapping) : SimModuleState :=
  let cv := se_current (entry_at child (pm_child_entry m)) in
  let pe := pm_parent_entry m in
  let old := se_current (entry_at parent pe) in
  if pm_is_inout m && sim_val_is_all_z cv then parent
  else if 0 <=? pm_parent_msb m then
    let v := write_slice old cv (pm_parent_msb m) (pm_parent_lsb m) in
    let parent := update_entry pe (set_current v) parent in
    let nw := Z.quot (sv_width v + 63) 64 in
    if negb (sim_val_same old v nw) then mark_dirty pe parent else parent
  else
    let nw := Z.quot (sv_width cv + 63) 64 in
    if negb (sim_val_same old cv nw)
    then mark_dirty pe (update_entry pe (set_current cv) parent) else parent.

Definition propagate_from_child (child : SimModuleState) (maps : list SimPortMapping)
    (parent : SimModuleState) : SimModuleState :=
  fold_left (propagate_output child) maps parent.

(** Replace the context of a child. *)
Definition with_ctx (ci : SimChildInstance SimContext) (c : SimContext) :
    SimChildInstance SimContext :=
  mkChild (Some c) (ci_inst ci) (ci_child_module ci) (ci_input_maps ci) (ci_output_maps ci).

(** The inputs of a whole subtree, given the (final) state of its parent. *)
Fixpoint propagate_down (parent : SimModuleState) (maps : list SimPortMapping)
    (ctx : SimContext) : SimContext :=
  match ctx with
  | mkContext s children =>
      let s := fst (propagate_to_child parent maps s) in
      mkContext s
        (map (fun ci =>
           match ci with
           | mkChild (Some c) inst cm ins outs =>
               mkChild (Some (propagate_down s ins c)) inst cm ins outs
           | mkChild None inst cm ins outs => mkChild None inst cm ins outs
           end) children)
  end.

Definition propagate_to_all_children (ctx : SimContext) : SimContext :=
  mkContext (ctx_state ctx)
    (map (fun ci =>
       match ci_ctx ci with
       | Some c => with_ctx ci (propagate_down (ctx_state ctx) (ci_input_maps ci) c)
       | None => ci
       end) (ctx_children ctx)).

(** ** Combinational settling *)

Definition chunk_needs_exec (s : SimModuleState) (chunk : SimAsyncChunk) : bool :=
  match ac_read_indices chunk with
  | [] => true
  | reads => existsb (fun r => aget false (ctx_sig_dirty s) r) reads
  end.

Definition exec_chunk (s : SimModuleState) (chunk : SimAsyncChunk) : SimModuleState :=
  if chunk_needs_exec s chunk then sim_exec_stmt false s (ac_stmt chunk) else s.

(** The module's own asynchronous block, by chunks when there are any. *)
Definition settle_self (s : SimModuleState) : SimModuleState :=
  match ctx_async_chunks s with
  | [] => sim_exec_stmt false s (mod_async_block (ctx_module s))
  | chunks => fold_left exec_chunk chunks s
  end.

(** [if (child->runtime_error) parent->runtime_error = 1]. *)
Definition raise_error (child : SimModuleState) (s : SimModuleState) : SimModuleState :=
  if ctx_runtime_error child then set_runtime_error true s else s.

(** The loop over the children, for a given way to settle one child from its
    new state.  A child is skipped when its inputs did not change and it has no
    dirty state; otherwise it is settled and its outputs are copied back. *)
Section SettleChildren.
Context (settle : SimModuleState -> SimContext -> SimContext).

Definition settle_child (parent : SimModuleState) (ins outs : list SimPortMapping)
    (c : SimContext) : SimModuleState * SimContext :=
  let '(cs, inputs_changed) := propagate_to_child parent ins (ctx_state c) in
  if negb inputs_changed && negb (ctx_settle_dirty cs) then
    (raise_error cs parent, mkContext cs (ctx_children c))
  else
    let c := settle (set_settle_dirty false cs) c in
    (propagate_from_child (ctx_state c) outs (raise_error (ctx_state c) parent), c).

Fixpoint settle_children (parent : SimModuleState)
    (children : list (SimChildInstance SimContext)) :
    SimModuleState * list (SimChildInstance SimContext) :=
  match children with
  | [] => (parent, [])
  | mkChild None inst cm ins outs :: children' =>
      let '(parent, rest) := settle_children parent children' in
      (parent, mkChild None inst cm ins outs :: rest)
  | mkChild (Some c) inst cm ins outs :: children' =>
      let '(parent, c) := settle_child parent ins outs c in
      let '(parent, rest) := settle_children parent children' in
      (parent, mkChild (Some c) inst cm ins outs :: rest)
  end.
End SettleChildren.

(** Settle [ctx] with [s] in place of its own module state. *)
Fixpoint settle_from (s : SimModuleState) (ctx : SimContext) {struct ctx} : SimContext :=
  match ctx with
  | mkContext _ children =>
      let '(s, children) := settle_children settle_from (settle_self s) children in
      mkContext s children
  end.

Definition settle_hierarchy_once (ctx : SimContext) : SimContext :=
  settle_from (ctx_state ctx) ctx.

Definition clear_sig_dirty : SimContext -> SimContext :=
  map_context (fun s => set_sig_dirty (map (fun _ => false) (ctx_sig_dirty s)) s).

Definition has_any_async (ctx : SimContext) : bool :=
  negb (stmt_is_null (mod_async_block (ctx_module (ctx_state ctx))))
  || existsb (fun ci =>
       match ci_ctx ci, ci_child_module ci with
       | Some _, Some cm => negb (stmt_is_null (mod_async_block cm))
       | _, _ => false
       end) (ctx_children ctx).

(** [set_settle_dirty] on the root of a hierarchy. *)
Definition clear_root_dirty (ctx : SimContext) : SimContext :=
  mkContext (set_settle_dirty false (ctx_state ctx)) (ctx_children ctx).

(** The settling loop: the status [0] or [-1] and the final context. *)
Fixpoint settle_loop (max_iters : nat) (ctx : SimContext) : Z * SimContext :=
  match max_iters with
  | O => (-1, ctx)
  | S k =>
      let ctx := settle_hierarchy_once (clear_root_dirty ctx) in
      if negb (ctx_settle_dirty (ctx_state ctx)) then (0, clear_sig_dirty ctx)
      else settle_loop k ctx
  end.

Definition sim_settle_combinational (ctx : SimContext) (max_iters : Z) : Z * SimContext :=
  if negb (has_any_async ctx) then (0, ctx)
  else settle_loop (Z.to_nat max_iters) ctx.

(** ** Clock domains *)

Definition sim_exec_sync_domain (s : SimModuleState) (domain_idx : Z) : SimModuleState :=
  if domain_idx <? 0 then s
  else
    match mod_clock_domains (ctx_module s) !! Z.to_nat domain_idx with
    | None => s
    | Some cd => sim_exec_stmt true s (cd_statements cd)
    end.

(** The child port bound to the clock: the last matching connection. *)
Definition child_clock_port (inst : IR_Instance) (parent_clock_sig_id : Z) : Z :=
  fold_left (fun p conn =>
    if conn_parent_signal_id conn =? parent_clock_sig_id
    then conn_child_port_id conn else p) (inst_connections inst) (-1).

Definition child_in_reset (s : SimModuleState) (cd : IR_ClockDomain) : bool :=
  if 0 <=? cd_reset_signal_id cd then
    match sim_ctx_lookup s (cd_reset_signal_id cd) with
    | None => false
    | Some i =>
        let rv := vget (se_current (entry_at s i)) 0 .& 1 in
        match cd_reset_active cd with
        | RESET_ACTIVE_HIGH => rv =? 1
        | RESET_ACTIVE_LOW => rv =? 0
        end
    end
  else false.

(** Force one register to its reset value. *)
Definition reset_register (s : SimModuleState) (reg_id : Z) : SimModuleState :=
  match sim_ctx_lookup s reg_id, find_signal_in_ctx s reg_id with
  | Some i, Some sig =>
      match sig_kind sig with
      | SIG_REGISTER =>
          let lit := sig_reset_value sig in
          let rv := sim_val_from_words (lit_words lit) IR_LIT_WORDS (lit_width lit) in
          let rv := if negb (sv_width rv =? sig_width sig)
                    then sim_val_zext rv (sig_width sig) else rv in
          mark_dirty i (update_entry i (set_current rv) s)
      | _ => s
      end
  | _, _ => s
  end.

(** What one clock domain of a child does to the child's own state. *)
Definition exec_child_domain (cd : IR_ClockDomain) (d : Z) (s : SimModuleState) : SimModuleState :=
  if child_in_reset s cd then fold_left reset_register (cd_register_ids cd) s
  else sim_exec_sync_domain s d.

(** Domain [d] of child [c], then its own children, for every domain clocked
    by [port]; [exec] handles the grandchildren. *)
Definition exec_matching_domains (exec : SimContext -> Z -> SimContext) (port : Z)
    (c : SimContext) (domains : list IR_ClockDomain) : SimContext :=
  (fold_left (fun acc cd =>
     let '(c, d) := acc in
     (if cd_clock_signal_id cd =? port
      then exec (mkContext (exec_child_domain cd d (ctx_state c)) (ctx_children c)) port
      else c, d + 1)) domains (c, 0)).1.

(** One child; the parent's error flag is returned with it. *)
Definition exec_child_sync (exec : SimContext -> Z -> SimContext) (parent_clock_sig_id : Z)
    (ci : SimChildInstance SimContext) : SimChildInstance SimContext * bool :=
  match ci_ctx ci, ci_child_module ci with
  | Some c, Some cm =>
      let port := child_clock_port (ci_inst ci) parent_clock_sig_id in
      if port <? 0 then (ci, false)
      else
        let domains := mod_clock_domains cm in
        let c := exec_matching_domains exec port c domains in
        (with_ctx ci c,
         existsb (fun cd => cd_clock_signal_id cd =? port) domains
           && ctx_runtime_error (ctx_state c))
  | _, _ => (ci, false)
  end.

(** [fuel] counts levels of the hierarchy. *)
Fixpoint exec_children_sync_for_clock (fuel : nat) (parent : SimContext)
    (parent_clock_sig_id : Z) : SimContext :=
  match fuel with
  | O => parent
  | S fuel' =>
      let r := map (exec_child_sync (exec_children_sync_for_clock fuel') parent_clock_sig_id)
                 (ctx_children parent) in
      let s := ctx_state parent in
      mkContext (if existsb snd r then set_runtime_error true s else s) (map fst r)
  end.

(** The number of levels of a hierarchy. *)
Fixpoint ctx_height (ctx : SimContext) : nat :=
  match ctx with
  | mkContext _ children =>
      S (fold_left (fun h ci =>
           match ci with
           | mkChild (Some c) _ _ _ _ => Nat.max h (ctx_height c)
           | mkChild None _ _ _ _ => h
           end) children O)
  end.

Definition sim_exec_sync_domain_with_children (ctx : SimContext) (domain_idx : Z)
    (reset_active : bool) : SimContext :=
  if domain_idx <? 0 then ctx
  else
    match mod_clock_domains (ctx_module (ctx_state ctx)) !! Z.to_nat domain_idx with
    | None => ctx
    | Some cd =>
        let ctx := propagate_to_all_children ctx in
        let ctx :=
          if reset_active then ctx
          else mkContext (sim_exec_stmt true (ctx_state ctx) (cd_statements cd))
                 (ctx_children ctx) in
        exec_children_sync_for_clock (ctx_height ctx) ctx (cd_clock_signal_id cd)
    end.
