(* ===== verification/SimExecInv.v ===== *)
(** * Invariants of statement execution

    [exec_invariant] reduces a preorder that execution should respect to the
    leaves of the statement tree.  It gives, for every statement: the static
    part of the state never changes, flags are only ever raised, a
    non-blocking run leaves the current values alone, and an immediate run
    marks every signal it changes. *)

From S2P Require Import Prelude SimValue IR SimState SimEval SimDeps SimExec.

Local Open Scope Z_scope.

(** Every assignment of a statement satisfies [Pa] and every memory write
    [Pm] (of the memory, the address and the data). *)
Section StmtForall.
Context (Pa : IR_Assignment -> Prop) (Pm : string -> IR_Expr -> IR_Expr -> Prop).
Fixpoint stmt_forall (stmt : IR_Stmt) : Prop :=
  match stmt with
  | NullStmt => True
  | StmtAssignment a => Pa a
  | StmtIf _ t el els => stmt_forall t /\ stmt_forall el /\ stmt_forall els
  | StmtSelect _ cs => foldr (fun c P => stmt_forall c.2 /\ P) True cs
  | StmtBlock ss => foldr (fun s P => stmt_forall s /\ P) True ss
  | StmtMemWrite m _ a d => Pm m a d
  end.
End StmtForall.

Definition all_mem (m : string) (a d : IR_Expr) : Prop := True.
Definition no_mem (m : string) (a d : IR_Expr) : Prop := False.

Lemma stmt_forall_true stmt : stmt_forall (fun _ => True) all_mem stmt.
Proof.
  induction stmt as [| | |s cs IH|ss IH|] using IR_Stmt_ind'; simpl; auto.
  - induction IH; simpl; auto.
  - induction IH; simpl; auto.
  - done.
Qed.

Section Invariant.
Context (nba : bool) (R : SimModuleState -> SimModuleState -> Prop).
Context (Pa : IR_Assignment -> Prop) (Pm : string -> IR_Expr -> IR_Expr -> Prop).
Context (Rrefl : forall s, R s s).
Context (Rtrans : forall s t u, R s t -> R t u -> R s u).
Context (Rerr : forall s b, (ctx_runtime_error s = true -> b = true) ->
                            R s (set_runtime_error b s)).
Context (Rassign : forall s a, Pa a -> R s (apply_assign s a nba)).
Context (Rmem : forall s m a d, Pm m a d -> R s (exec_mem_write s m a d)).

Lemma Reval s e : R s (snd (eval_in s e)).
Proof using Rerr.
  unfold eval_in. rewrite eval_split. apply Rerr. by intros ->.
Qed.

Lemma exec_case_invariant (s : SimModuleState) (e : IR_Expr) (k : SimValue -> SimModuleState -> SimModuleState) :
  (forall v t, R t (k v t)) -> R s (let '(v, t) := eval_in s e in k v t).
Proof using Rerr Rtrans.
  intros Hk. pose proof (Reval s e) as H. destruct (eval_in s e) as [v t].
  by eapply Rtrans.
Qed.

Lemma exec_invariant stmt :
  stmt_forall Pa Pm stmt -> forall s, R s (sim_exec_stmt nba s stmt).
Proof using All.
  intros H.
  enough ((forall s, R s (sim_exec_stmt nba s stmt)) /\
    (forall els s, (forall s, R s (sim_exec_stmt nba s els)) ->
       R s (exec_elif (sim_exec_stmt nba) els stmt s))) as [? _] by done.
  revert H. induction stmt as [|a|c t el els IHt IHel IHels|sel cs IHcs|ss IHss|m p a d]
    using IR_Stmt_ind'; intros H.
  - split; [done|]. intros els s Hels. apply Hels.
  - split; [intros s; by apply Rassign|]. intros els s Hels. apply Hels.
  - destruct H as (Ht & Hel & Hels). destruct (IHt Ht) as [Et _].
    destruct (IHel Hel) as [_ Eel]. destruct (IHels Hels) as [Eels _].
    split; [intros s|intros els' s Hels']; cbn [sim_exec_stmt exec_elif];
      apply exec_case_invariant; intros v u; cbv zeta;
      (destruct (_ =? -1); [by apply Rerr|]); (destruct (_ =? 1); [apply Et|]); by apply Eel.
  - split; [|intros els s Hels; apply Hels]. intros s. cbn [sim_exec_stmt].
    apply exec_case_invariant. intros v u. destruct (sim_val_has_xz v); [by apply Rerr|].
    revert u H. induction IHcs as [|[cv body] cs Hb _ IH]; intros u H; [done|].
    cbn [stmt_forall foldr] in H. destruct H as [H1 H2]. destruct (Hb H1) as [Hbody _].
    cbn [exec_cases]. destruct (expr_is_null cv); [by apply Hbody|].
    apply exec_case_invariant. intros v' u'. destruct (_ =? 1); [by apply Hbody|].
    by apply IH.
  - split; [|intros els s Hels; apply Hels]. cbn [sim_exec_stmt].
    revert H. induction IHss as [|s0 ss Hs0 _ IH]; intros H s; [apply Rrefl|].
    cbn [stmt_forall foldr] in H. destruct H as [H1 H2]. cbn [exec_block].
    eapply Rtrans; [apply (proj1 (Hs0 H1))|]. by apply IH.
  - split; [intros s; by apply Rmem|]. intros els s Hels. apply Hels.
Qed.
End Invariant.

(** ** Reading back updates *)

Lemma aset_aget {A} (d : A) l i : aset l i (aget d l i) = l.
Proof.
  unfold aset, aget. destruct (i <? 0); [done|]. rewrite nth_lookup.
  destruct (l !! Z.to_nat i) as [x|] eqn:E; [by apply list_insert_id|].
  apply list_insert_ge. by apply lookup_ge_None.
Qed.

Definition in_range (s : SimModuleState) (i : Z) : Prop :=
  0 <= i < Z.of_nat (length (ctx_signals s)).

Lemma entry_update s i f j :
  in_range s i ->
  entry_at (update_entry i f s) j = if i =? j then f (entry_at s i) else entry_at s j.
Proof.
  intros Hi. unfold entry_at, update_entry. simpl. rewrite aget_aset. unfold in_range in Hi.
  destruct (Z.leb_spec 0 i), (Z.ltb_spec i (Z.of_nat (length (ctx_signals s)))); done || lia.
Qed.

Lemma set_signals_same s : set_signals (ctx_signals s) s = s.
Proof. by destruct s. Qed.

Lemma update_entry_id s i f : f (entry_at s i) = entry_at s i -> update_entry i f s = s.
Proof.
  intros E. unfold update_entry. rewrite E. unfold entry_at. rewrite aset_aget.
  apply set_signals_same.
Qed.

Lemma set_current_same e : set_current (se_current e) e = e.
Proof. by destruct e. Qed.

(** ** The static part and the flags *)

Record same_static (s t : SimModuleState) : Prop := {
  ss_module : ctx_module t = ctx_module s;
  ss_map : ctx_sig_id_map t = ctx_sig_id_map s;
  ss_max : ctx_max_sig_id t = ctx_max_sig_id s;
  ss_chunks : ctx_async_chunks t = ctx_async_chunks s;
  ss_length : length (ctx_signals t) = length (ctx_signals s);
  ss_dirty_length : length (ctx_sig_dirty t) = length (ctx_sig_dirty s);
  ss_mem_length : length (ctx_memories t) = length (ctx_memories s);
  ss_ids : forall i, se_signal_id (entry_at t i) = se_signal_id (entry_at s i);
  ss_error : ctx_runtime_error s = true -> ctx_runtime_error t = true;
  ss_settle : ctx_settle_dirty s = true -> ctx_settle_dirty t = true;
  ss_dirty : forall i, aget false (ctx_sig_dirty s) i = true -> aget false (ctx_sig_dirty t) i = true
}.

Lemma same_static_refl s : same_static s s.
Proof. by constructor. Qed.

Lemma same_static_trans s t u : same_static s t -> same_static t u -> same_static s u.
Proof. intros [] []. constructor; try congruence; auto. Qed.

Lemma same_static_error s b :
  (ctx_runtime_error s = true -> b = true) -> same_static s (set_runtime_error b s).
Proof. by constructor. Qed.

Lemma update_entry_ids s i f j :
  (forall e, se_signal_id (f e) = se_signal_id e) ->
  se_signal_id (entry_at (update_entry i f s) j) = se_signal_id (entry_at s j).
Proof.
  intros Hf. unfold entry_at, update_entry. simpl. rewrite aget_aset.
  destruct ((0 <=? i) && _ && (i =? j)) eqn:E; [|done].
  apply andb_true_iff in E as [_ ->%Z.eqb_eq]. apply Hf.
Qed.

Lemma same_static_update s i f :
  (forall e, se_signal_id (f e) = se_signal_id e) -> same_static s (update_entry i f s).
Proof.
  intros Hf. constructor; try done.
  - apply length_aset.
  - intros j. by apply update_entry_ids.
Qed.

Lemma same_static_mark s i : same_static s (mark_dirty i s).
Proof.
  constructor; try done; simpl.
  - apply length_aset.
  - intros j Hj. rewrite aget_aset. by destruct (_ && _).
Qed.

Lemma same_static_mark_update s i f :
  (forall e, se_signal_id (f e) = se_signal_id e) ->
  same_static s (mark_dirty i (update_entry i f s)).
Proof.
  intros Hf. apply (same_static_trans _ (update_entry i f s));
    [by apply same_static_update|apply same_static_mark].
Qed.

Lemma same_static_assign nba s a : same_static s (apply_assign s a nba).
Proof.
  unfold apply_assign. destruct (sim_ctx_lookup s _) as [i|]; [|apply same_static_refl].
  pose proof (Reval same_static same_static_error s (asgn_rhs a)) as He.
  destruct (eval_in s (asgn_rhs a)) as [v t]. simpl in He.
  eapply same_static_trans; [exact He|]. set (rhs := extend_rhs _ _ _).
  destruct (asgn_is_sliced a).
  - unfold assign_slice. destruct nba; [by apply same_static_update|]. cbv zeta.
    destruct (words_same _ _ _ _); [by apply same_static_update|].
    by apply same_static_mark_update.
  - unfold assign_full. destruct nba; [by apply same_static_update|]. cbv zeta.
    destruct (words_same _ _ _ _); [apply same_static_refl|]. by apply same_static_mark_update.
Qed.

Lemma same_static_memory s l :
  length l = length (ctx_memories s) -> same_static s (set_memories l s).
Proof. by constructor. Qed.

Lemma same_static_mem s m a d : same_static s (exec_mem_write s m a d).
Proof.
  unfold exec_mem_write. destruct (sim_ctx_lookup_mem s m) as [k|]; [|apply same_static_refl].
  destruct (ctx_memories s !! k) as [me|]; [|apply same_static_refl].
  pose proof (Reval same_static same_static_error s a) as Ha.
  destruct (eval_in s a) as [va t].
  pose proof (Reval same_static same_static_error t d) as Hd.
  destruct (eval_in t d) as [vd u]. simpl in *.
  assert (same_static s u) as Hu by (by eapply same_static_trans).
  destruct (sim_value_to_mem_index va (me_depth me)); [|done].
  eapply same_static_trans; [exact Hu|]. apply same_static_memory. apply length_insert.
Qed.

Lemma exec_static nba stmt s : same_static s (sim_exec_stmt nba s stmt).
Proof.
  apply (exec_invariant nba same_static (fun _ => True) all_mem);
    [apply same_static_refl | apply same_static_trans | apply same_static_error
    | intros; apply same_static_assign | intros; apply same_static_mem
    | apply stmt_forall_true].
Qed.

Lemma lookup_static s t id : same_static s t -> sim_ctx_lookup t id = sim_ctx_lookup s id.
Proof. intros []. unfold sim_ctx_lookup. by rewrite ss_map0, ss_max0. Qed.

(** ** Well-formed tables *)

Record state_ok (s : SimModuleState) : Prop := {
  so_lookup : forall id i, sim_ctx_lookup s id = Some i -> in_range s i;
  so_dirty : length (ctx_sig_dirty s) = length (ctx_signals s)
}.

Lemma state_ok_static s t : same_static s t -> state_ok s -> state_ok t.
Proof.
  intros Hst [H1 H2]. pose proof Hst as []. constructor; [|congruence].
  intros id i. rewrite (lookup_static s t id Hst). unfold in_range. rewrite ss_length0. apply H1.
Qed.

(** ** Non-blocking execution *)

(** The current values and the dirty flags do not change. *)
Definition same_current (s t : SimModuleState) : Prop :=
  (forall i, se_current (entry_at t i) = se_current (entry_at s i)) /\
  ctx_settle_dirty t = ctx_settle_dirty s /\ ctx_sig_dirty t = ctx_sig_dirty s.

Lemma update_entry_current s i f j :
  (forall e, se_current (f e) = se_current e) ->
  se_current (entry_at (update_entry i f s) j) = se_current (entry_at s j).
Proof.
  intros Hf. unfold entry_at, update_entry. simpl. rewrite aget_aset.
  destruct ((0 <=? i) && _ && (i =? j)) eqn:E; [|done].
  apply andb_true_iff in E as [_ ->%Z.eqb_eq]. apply Hf.
Qed.

Lemma exec_nba_current stmt s : same_current s (sim_exec_stmt true s stmt).
Proof.
  apply (exec_invariant true same_current (fun _ => True) all_mem).
  - by intros t.
  - intros t u v (A1 & A2 & A3) (B1 & B2 & B3). split_and!; [|congruence|congruence].
    intros i. by rewrite B1, A1.
  - by intros t b _.
  - intros t a _. unfold apply_assign. destruct (sim_ctx_lookup t _) as [i|]; [|done].
    unfold eval_in. destruct (sim_eval_expr _ _ _) as [v err]. cbv beta iota zeta.
    unfold assign_slice, assign_full. destruct (asgn_is_sliced a);
      (split_and!; [|done|done]); intros j; by rewrite update_entry_current.
  - intros t m a d _. unfold exec_mem_write. destruct (sim_ctx_lookup_mem t m); [|done].
    destruct (ctx_memories t !! _); [|done]. unfold eval_in.
    destruct (sim_eval_expr t a _) as [va e1]. destruct (sim_eval_expr _ d _) as [vd e2].
    by destruct (sim_value_to_mem_index va _).
  - apply stmt_forall_true.
Qed.

(** ** Immediate execution *)

(** Every changed value is marked, and nothing but values changes. *)
Record marks (s t : SimModuleState) : Prop := {
  mk_static : same_static s t;
  mk_marked : forall i, se_current (entry_at t i) = se_current (entry_at s i) \/
    (in_range s i /\ aget false (ctx_sig_dirty t) i = true /\ ctx_settle_dirty t = true);
  mk_next : forall i, se_next (entry_at t i) = se_next (entry_at s i) /\
                      se_has_pending (entry_at t i) = se_has_pending (entry_at s i)
}.

Lemma marks_refl s : marks s s.
Proof. constructor; [apply same_static_refl|by left|done]. Qed.

Lemma marks_trans s t u : marks s t -> marks t u -> marks s u.
Proof.
  intros [S1 M1 N1] [S2 M2 N2]. constructor; [by eapply same_static_trans| |].
  - intros i. destruct (M2 i) as [E2|(R2 & D2 & F2)].
    + destruct (M1 i) as [E1|(R1 & D1 & F1)]; [left; congruence|].
      right. split_and!; [done|by apply (ss_dirty _ _ S2)|by apply (ss_settle _ _ S2)].
    + right. split_and!; [|done|done]. unfold in_range in *.
      by rewrite <- (ss_length _ _ S1).
  - intros i. destruct (N1 i), (N2 i). split; congruence.
Qed.

Lemma marks_error s b :
  (ctx_runtime_error s = true -> b = true) -> marks s (set_runtime_error b s).
Proof. intros H. constructor; [by apply same_static_error|by left|done]. Qed.

Lemma mark_update s i v :
  state_ok s -> in_range s i -> marks s (mark_dirty i (update_entry i (set_current v) s)).
Proof.
  intros Hok Hi. constructor.
  - by apply same_static_mark_update.
  - intros j. change (entry_at (mark_dirty i ?t) j) with (entry_at t j).
    rewrite entry_update by done. destruct (Z.eqb_spec i j) as [<-|]; [|by left].
    right. split_and!; [done| |done]. simpl. rewrite aget_aset. rewrite (so_dirty s Hok).
    unfold in_range in Hi.
    destruct (Z.leb_spec 0 i), (Z.ltb_spec i (Z.of_nat (length (ctx_signals s)))); try lia.
    by rewrite Z.eqb_refl.
  - intros j. change (entry_at (mark_dirty i ?t) j) with (entry_at t j).
    rewrite entry_update by done. by destruct (Z.eqb_spec i j) as [<-|].
Qed.

(** A part-select write only touches the words of its range. *)
Lemma copy_bit_words src lsb b t w :
  w <> (lsb + b) / 64 ->
  vget (copy_bit src lsb b t) w = vget t w /\ xget (copy_bit src lsb b t) w = xget t w /\
  zget (copy_bit src lsb b t) w = zget t w.
Proof.
  intros Hw. unfold copy_bit, vget, xget, zget. cbv zeta. cbn [sv_val sv_xmask sv_zmask set_val set_xmask set_zmask].
  split_and!; rewrite aget_aset;
    destruct (Z.eqb_spec ((lsb + b) / 64) w); try lia; by rewrite andb_false_r.
Qed.

Definition same_lengths (a b : SimValue) : Prop :=
  length (sv_val a) = length (sv_val b) /\ length (sv_xmask a) = length (sv_xmask b) /\
  length (sv_zmask a) = length (sv_zmask b) /\ sv_width a = sv_width b.

Lemma copy_bit_lengths src lsb b t : same_lengths (copy_bit src lsb b t) t.
Proof.
  unfold same_lengths, copy_bit. cbv zeta. simpl. by rewrite !length_aset.
Qed.

Lemma value_words_eq a b :
  same_lengths a b ->
  (forall w, 0 <= w -> vget a w = vget b w /\ xget a w = xget b w /\ zget a w = zget b w) ->
  a = b.
Proof.
  intros (L1 & L2 & L3 & L4) H. destruct a, b; simpl in *. subst.
  f_equal; (apply (list_eq_aget 0); [done|]); intros i Hi; apply H; lia.
Qed.

Lemma words_same_true a b from n :
  words_same a b from n = true <->
  forall i, 0 <= i < Z.of_nat n ->
    vget a (from + i) = vget b (from + i) /\ xget a (from + i) = xget b (from + i) /\
    zget a (from + i) = zget b (from + i).
Proof.
  unfold words_same. destruct (ret_up _ _) as [[]|] eqn:E.
  - split; [done|]. intros H. apply ret_up_Some in E as (i & Hi & E & _).
    destruct (H i Hi) as (E1 & E2 & E3). cbv zeta in E.
    by rewrite E1, E2, E3, !Z.eqb_refl in E.
  - split; [|done]. intros _ i Hi. rewrite ret_up_None in E. specialize (E i Hi).
    cbv zeta in E. destruct (Z.eqb_spec (vget a (from + i)) (vget b (from + i))),
      (Z.eqb_spec (xget a (from + i)) (xget b (from + i))),
      (Z.eqb_spec (zget a (from + i)) (zget b (from + i))); done.
Qed.

Lemma write_slice_same v src msb lsb :
  0 <= lsb <= msb ->
  words_same (write_slice v src msb lsb) v (Z.quot lsb 64)
    (Z.to_nat (Z.quot msb 64 - Z.quot lsb 64 + 1)) = true ->
  write_slice v src msb lsb = v.
Proof.
  intros Hb. rewrite !Z.quot_div_nonneg by lia. rewrite words_same_true.
  pose proof (Z.div_le_mono lsb msb 64 ltac:(lia) ltac:(lia)). intros Hs.
  assert (same_lengths (write_slice v src msb lsb) v /\
    forall w, ~ (lsb / 64 <= w <= msb / 64) ->
      vget (write_slice v src msb lsb) w = vget v w /\
      xget (write_slice v src msb lsb) w = xget v w /\
      zget (write_slice v src msb lsb) w = zget v w) as [Hlen Hout].
  { unfold write_slice. apply (for_up_ind (fun n t => same_lengths t v /\
      forall w, ~ (lsb / 64 <= w <= msb / 64) ->
        vget t w = vget v w /\ xget t w = xget v w /\ zget t w = zget v w)); [by split|].
    intros k t Hk [Ht Hw]. pose proof (copy_bit_lengths src lsb (Z.of_nat k) t) as Hc.
    split; [unfold same_lengths in *; intuition congruence|].
    intros w Hn. destruct (Hw w Hn) as (<- & <- & <-). apply copy_bit_words.
    pose proof (Z.div_le_mono lsb (lsb + Z.of_nat k) 64 ltac:(lia) ltac:(lia)).
    pose proof (Z.div_le_mono (lsb + Z.of_nat k) msb 64 ltac:(lia) ltac:(lia)). lia. }
  apply value_words_eq; [done|]. intros w Hw.
  destruct (decide (lsb / 64 <= w <= msb / 64)) as [Hin|Hn]; [|by apply Hout].
  specialize (Hs (w - lsb / 64) ltac:(lia)).
  by replace (lsb / 64 + (w - lsb / 64)) with w in Hs by lia.
Qed.

(** Part-selects the compiler emits have ordered, non-negative bounds. *)
Definition slice_ok (a : IR_Assignment) : Prop :=
  asgn_is_sliced a = true -> 0 <= asgn_lhs_lsb a <= asgn_lhs_msb a.

Lemma marks_assign s a :
  slice_ok a -> state_ok s -> marks s (apply_assign s a false).
Proof.
  intros Ha Hok. unfold apply_assign.
  destruct (sim_ctx_lookup s _) as [i|] eqn:El; [|apply marks_refl].
  pose proof (Reval marks marks_error s (asgn_rhs a)) as He.
  destruct (eval_in s (asgn_rhs a)) as [v t]. simpl in He.
  eapply marks_trans; [exact He|].
  pose proof (state_ok_static _ _ (mk_static _ _ He) Hok) as Hokt.
  assert (in_range t i) as Hi.
  { apply (so_lookup t Hokt (asgn_lhs_signal_id a)).
    by rewrite (lookup_static s t _ (mk_static _ _ He)). }
  set (rhs := extend_rhs _ _ _). destruct (asgn_is_sliced a) eqn:Es.
  - unfold assign_slice. cbv zeta.
    destruct (words_same _ _ _ _) eqn:E; [|by apply mark_update].
    apply write_slice_same in E; [|by apply Ha].
    rewrite E, update_entry_id by apply set_current_same. apply marks_refl.
  - unfold assign_full. cbv zeta. destruct (words_same _ _ _ _); [apply marks_refl|].
    by apply mark_update.
Qed.

(** An immediate run without memory writes marks what it changes. *)
Lemma exec_marks stmt s :
  stmt_forall slice_ok no_mem stmt -> state_ok s -> marks s (sim_exec_stmt false s stmt).
Proof.
  intros Hst Hok.
  enough (state_ok s -> marks s (sim_exec_stmt false s stmt) ) by auto.
  apply (exec_invariant false (fun s t => state_ok s -> marks s t) slice_ok no_mem); try done.
  - intros; apply marks_refl.
  - intros t u v H1 H2 Ht. eapply marks_trans; [by apply H1|]. apply H2.
    apply (state_ok_static t); [by apply H1|done].
  - intros t b H _. by apply marks_error.
  - intros t a Ha Ht. by apply marks_assign.
Qed.

(** A state that records no change is unchanged, up to the error flag. *)
Lemma entries_eq s t :
  same_static s t ->
  (forall i, se_current (entry_at t i) = se_current (entry_at s i)) ->
  (forall i, se_next (entry_at t i) = se_next (entry_at s i) /\
             se_has_pending (entry_at t i) = se_has_pending (entry_at s i)) ->
  ctx_signals t = ctx_signals s.
Proof.
  intros Hst Hc Hn. apply (list_eq_aget null_entry); [apply Hst|]. intros i Hi.
  change (entry_at t i = entry_at s i).
  pose proof (ss_ids _ _ Hst i). specialize (Hc i). destruct (Hn i).
  destruct (entry_at t i), (entry_at s i); simpl in *. congruence.
Qed.
