(* ===== verification/SimSettle.v ===== *)
(** * Combinational settling is sound

    [stmt_holds] reads an asynchronous statement as equations between current
    values.  Immediate execution of a statement that holds changes nothing but
    the error flag, and an execution that marks nothing dirty was of a
    statement that holds.  Together with the read and write sets of the chunks
    this shows that skipping the chunks without a dirty input is the same as
    running all of them. *)

From stdpp Require Import sets.
From S2P Require Import Prelude SimValue IR SimState SimEval SimDeps SimExec SimExecInv.

Local Open Scope Z_scope.

(** ** States up to the error flag *)

Record same_but_error (s t : SimModuleState) : Prop := {
  same_cleared : set_runtime_error false s = set_runtime_error false t
}.

#[export] Instance same_but_error_equiv : Equivalence same_but_error.
Proof.
  split; [by intros s|by intros s t [H]|].
  intros s t u [H1] [H2]. split. congruence.
Qed.

Declare Scope settle_scope.
Notation "s ≡e t" := (same_but_error s t) (at level 70) : settle_scope.
Local Open Scope settle_scope.

Lemma error_same s b : set_runtime_error b s ≡e s.
Proof. done. Qed.

Lemma same_inv s t : s ≡e t -> t = set_runtime_error (ctx_runtime_error t) s.
Proof. destruct s, t. intros [H]. unfold set_runtime_error in *. simpl in *. congruence. Qed.

#[export] Instance signals_proper : Proper (same_but_error ==> eq) ctx_signals.
Proof. intros s t ->%same_inv. done. Qed.
#[export] Instance settle_dirty_proper : Proper (same_but_error ==> eq) ctx_settle_dirty.
Proof. intros s t ->%same_inv. done. Qed.
#[export] Instance sig_dirty_proper : Proper (same_but_error ==> eq) ctx_sig_dirty.
Proof. intros s t ->%same_inv. done. Qed.
#[export] Instance lookup_proper : Proper (same_but_error ==> eq ==> eq) sim_ctx_lookup.
Proof. intros s t ->%same_inv i ? <-. done. Qed.
#[export] Instance entry_proper : Proper (same_but_error ==> eq ==> eq) entry_at.
Proof. intros s t ->%same_inv i ? <-. done. Qed.
#[export] Instance update_proper i f :
  Proper (same_but_error ==> same_but_error) (update_entry i f).
Proof. intros s t ->%same_inv. done. Qed.
#[export] Instance mark_proper i : Proper (same_but_error ==> same_but_error) (mark_dirty i).
Proof. intros s t ->%same_inv. done. Qed.
#[export] Instance set_error_proper b :
  Proper (same_but_error ==> same_but_error) (set_runtime_error b).
Proof. intros s t ->%same_inv. done. Qed.

#[export] Instance assign_slice_proper i m l r nba :
  Proper (same_but_error ==> same_but_error) (assign_slice i m l r nba).
Proof.
  intros s t ->%same_inv. unfold assign_slice. destruct nba; [done|]. cbv zeta.
  change (entry_at (set_runtime_error ?b s) i) with (entry_at s i).
  by destruct (words_same _ _ _ _).
Qed.
#[export] Instance assign_full_proper i r nba :
  Proper (same_but_error ==> same_but_error) (assign_full i r nba).
Proof.
  intros s t ->%same_inv. unfold assign_full. destruct nba; [done|]. cbv zeta.
  change (entry_at (set_runtime_error ?b s) i) with (entry_at s i).
  by destruct (words_same _ _ _ _).
Qed.

#[export] Instance eval_value_proper :
  Proper (same_but_error ==> eq ==> eq) (eval_value (C := SimModuleState)).
Proof.
  intros s t ->%same_inv e ? <-. done.
Qed.

Lemma eval_in_split s e :
  eval_in s e = (eval_value s e, set_runtime_error (ctx_runtime_error s || eval_raises s e) s).
Proof. unfold eval_in. by rewrite eval_split. Qed.

(** ** Statements as equations *)

Definition assign_holds (s : SimModuleState) (a : IR_Assignment) : bool :=
  match sim_ctx_lookup s (asgn_lhs_signal_id a) with
  | None => true
  | Some i =>
      let cur := se_current (entry_at s i) in
      let rhs := extend_rhs (asgn_kind a) (eval_value s (asgn_rhs a)) (sv_width cur) in
      if asgn_is_sliced a then
        let lo_wi := Z.quot (asgn_lhs_lsb a) 64 in
        let hi_wi := Z.quot (asgn_lhs_msb a) 64 in
        words_same (write_slice cur rhs (asgn_lhs_msb a) (asgn_lhs_lsb a)) cur
          lo_wi (Z.to_nat (hi_wi - lo_wi + 1))
      else words_same cur rhs 0 (Z.to_nat (Z.quot (sv_width cur + 63) 64))
  end.

Section Holds.
Context (s : SimModuleState) (holds : IR_Stmt -> bool).

Fixpoint cases_hold (selector : SimValue) (cases : list (IR_Expr * IR_Stmt)) : bool :=
  match cases with
  | [] => true
  | (case_value, body) :: cases' =>
      if expr_is_null case_value then holds body
      else if sim_val_is_true (sim_val_eq selector (eval_value s case_value)) =? 1
      then holds body
      else cases_hold selector cases'
  end.

Fixpoint elif_holds (else_block elif : IR_Stmt) : bool :=
  match elif with
  | StmtIf condition then_block elif_chain _ =>
      let etc := sim_val_is_true (eval_value s condition) in
      if etc =? -1 then true
      else if etc =? 1 then holds then_block
      else elif_holds else_block elif_chain
  | _ => holds else_block
  end.
End Holds.

(** The equations of the branch that the current values select; an unknown
    condition selects none.  Memory writes are not equations. *)
Fixpoint stmt_holds (s : SimModuleState) (stmt : IR_Stmt) : bool :=
  match stmt with
  | NullStmt => true
  | StmtAssignment a => assign_holds s a
  | StmtIf condition then_block elif_chain else_block =>
      let tc := sim_val_is_true (eval_value s condition) in
      if tc =? -1 then true
      else if tc =? 1 then stmt_holds s then_block
      else elif_holds s (stmt_holds s) else_block elif_chain
  | StmtSelect selector cases =>
      let sel := eval_value s selector in
      if sim_val_has_xz sel then true else cases_hold s (stmt_holds s) sel cases
  | StmtBlock stmts => forallb (stmt_holds s) stmts
  | StmtMemWrite _ _ _ _ => false
  end.

(** ** Execution against the equations *)

Section Exec.
Context (s : SimModuleState) (Hok : state_ok s).

(** What one execution of [stmt], whose equations are [h], tells. *)
Definition exec_agrees (exec : SimModuleState -> SimModuleState) (h : bool) : Prop :=
  forall t, t ≡e s ->
    (h = true -> exec t ≡e s) /\
    (ctx_settle_dirty s = false -> ctx_settle_dirty (exec t) = false -> h = true).

Lemma exec_agrees_id (f : SimModuleState -> SimModuleState) :
  (forall t, f t ≡e t) -> exec_agrees f true.
Proof using Type. intros Hf t Ht. split; [|done]. intros _. by rewrite (Hf t). Qed.

Lemma assign_agrees a :
  slice_ok a -> exec_agrees (fun t => apply_assign t a false) (assign_holds s a).
Proof using Hok.
  intros Ha t Ht. unfold apply_assign, assign_holds. rewrite Ht.
  destruct (sim_ctx_lookup s _) as [i|] eqn:El; [|by split].
  rewrite eval_in_split. set (u := set_runtime_error _ t).
  assert (Hu : u ≡e s) by (etrans; [apply error_same|done]).
  clearbody u. cbv beta iota zeta.
  assert (entry_at u i = entry_at s i) as -> by (by rewrite Hu).
  assert (eval_value t (asgn_rhs a) = eval_value s (asgn_rhs a)) as -> by (by rewrite Ht).
  set (rhs := extend_rhs _ _ _). destruct (asgn_is_sliced a) eqn:Es.
  - unfold assign_slice. cbv zeta.
    assert (entry_at u i = entry_at s i) as -> by (by rewrite Hu).
    destruct (words_same _ _ _ _) eqn:E; (split; [|done]); [|done].
    intros _. apply write_slice_same in E; [|by apply Ha]. rewrite E, Hu.
    by rewrite update_entry_id by apply set_current_same.
  - unfold assign_full. cbv zeta.
    assert (entry_at u i = entry_at s i) as -> by (by rewrite Hu).
    destruct (words_same _ _ _ _) eqn:E; (split; [done|done]).
Qed.

Lemma if_agrees e (ex ex' : SimModuleState -> SimModuleState) h h' :
  exec_agrees ex h -> exec_agrees ex' h' ->
  exec_agrees
    (fun t => let '(v, t) := eval_in t e in
              let tc := sim_val_is_true v in
              if tc =? -1 then set_runtime_error true t
              else if tc =? 1 then ex t else ex' t)
    (let tc := sim_val_is_true (eval_value s e) in
     if tc =? -1 then true else if tc =? 1 then h else h').
Proof using Type.
  intros H H' t Ht. rewrite eval_in_split. cbv zeta.
  assert (eval_value t e = eval_value s e) as -> by (by rewrite Ht).
  set (u := set_runtime_error _ t).
  assert (Hu : u ≡e s) by (etrans; [apply error_same|done]). clearbody u.
  destruct (_ =? -1); [by split; [intros _; etrans; [apply error_same|]|]|].
  destruct (_ =? 1); [by apply H|by apply H'].
Qed.

Lemma exec_agrees_stmt stmt :
  stmt_forall slice_ok no_mem stmt ->
  exec_agrees (fun t => sim_exec_stmt false t stmt) (stmt_holds s stmt).
Proof using Hok.
  intros H.
  enough (exec_agrees (fun t => sim_exec_stmt false t stmt) (stmt_holds s stmt) /\
    (forall els, exec_agrees (fun t => sim_exec_stmt false t els) (stmt_holds s els) ->
       exec_agrees (exec_elif (sim_exec_stmt false) els stmt)
         (elif_holds s (stmt_holds s) els stmt))) as [? _] by done.
  revert H. induction stmt as [|a|c t el els IHt IHel IHels|sel cs IHcs|ss IHss|m p a d]
    using IR_Stmt_ind'; intros H.
  - split; [by apply exec_agrees_id|done].
  - split; [by apply assign_agrees|done].
  - destruct H as (Ht & Hel & Hels). destruct (IHt Ht) as [Et _].
    destruct (IHel Hel) as [_ Eel]. destruct (IHels Hels) as [Eels _].
    split; [|intros els' Hels']; apply if_agrees; auto.
  - split; [|done]. intros t Ht. cbn [sim_exec_stmt stmt_holds]. rewrite eval_in_split.
    assert (eval_value t sel = eval_value s sel) as -> by (by rewrite Ht). set (u := set_runtime_error _ t).
    assert (Hu : u ≡e s) by (etrans; [apply error_same|done]). clearbody u. cbv zeta.
    destruct (sim_val_has_xz _); [by split; [intros _; etrans; [apply error_same|]|]|].
    generalize (eval_value s sel). intros v. clear t Ht.
    revert u Hu H. induction IHcs as [|[cv body] cs Hb _ IH]; intros u Hu H; [done|].
    cbn [stmt_forall foldr] in H. destruct H as [H1 H2]. destruct (Hb H1) as [Hbody _].
    cbn [exec_cases cases_hold]. destruct (expr_is_null cv); [by apply Hbody|].
    rewrite eval_in_split.
    assert (eval_value u cv = eval_value s cv) as -> by (by rewrite Hu). set (u' := set_runtime_error _ u).
    assert (Hu' : u' ≡e s) by (etrans; [apply error_same|done]). clearbody u'. cbv zeta.
    destruct (_ =? 1); [by apply Hbody|]. by apply IH.
  - split; [|done]. intros t Ht. cbn [sim_exec_stmt stmt_holds].
    revert t Ht H. induction IHss as [|s0 ss Hs0 _ IH]; intros t Ht H; [by split|].
    cbn [stmt_forall foldr] in H. destruct H as [H1 H2]. cbn [exec_block forallb].
    destruct (proj1 (Hs0 H1) t Ht) as [A B]. split.
    + intros [E1 E2]%andb_true_iff. apply IH; auto.
    + intros Hs Hd.
      assert (stmt_holds s s0 = true) as E0.
      { apply B; [done|]. apply not_true_is_false. intros Hc.
        assert (ctx_settle_dirty (sim_exec_stmt false (sim_exec_stmt false t s0) (StmtBlock ss))
          = true) as E by (by apply (ss_settle _ _ (exec_static false _ _))).
        cbn [sim_exec_stmt] in E. congruence. }
      rewrite E0. cbn. apply (IH (sim_exec_stmt false t s0)); auto.
  - done.
Qed.
End Exec.

(** ** Execution does not look at the error flag *)

Definition respects (exec : SimModuleState -> SimModuleState) : Prop :=
  forall s t, s ≡e t -> exec s ≡e exec t.

Lemma eval_then_respects e (k : SimValue -> SimModuleState -> SimModuleState) :
  (forall v, respects (k v)) -> respects (fun s => let '(v, s) := eval_in s e in k v s).
Proof.
  intros Hk s t Hst. rewrite !eval_in_split.
  assert (eval_value s e = eval_value t e) as -> by (by rewrite Hst).
  apply Hk. rewrite (error_same s), (error_same t). done.
Qed.

Lemma assign_respects nba a : respects (fun s => apply_assign s a nba).
Proof.
  intros s t Hst. unfold apply_assign.
  assert (sim_ctx_lookup s (asgn_lhs_signal_id a) = sim_ctx_lookup t (asgn_lhs_signal_id a))
    as -> by (by rewrite Hst).
  destruct (sim_ctx_lookup t _) as [i|]; [|done].
  apply (eval_then_respects (asgn_rhs a) (fun v s =>
    let rhs_val := extend_rhs (asgn_kind a) v (sv_width (se_current (entry_at s i))) in
    if asgn_is_sliced a
    then assign_slice i (asgn_lhs_msb a) (asgn_lhs_lsb a) rhs_val nba s
    else assign_full i rhs_val nba s)); [|done].
  intros v u w Huw. cbv zeta. assert (entry_at u i = entry_at w i) as -> by (by rewrite Huw).
  destruct (asgn_is_sliced a); by rewrite Huw.
Qed.

Lemma mem_write_respects m a d : respects (fun s => exec_mem_write s m a d).
Proof.
  intros s t Hst. unfold exec_mem_write.
  assert (ctx_memories s = ctx_memories t /\ sim_ctx_lookup_mem s m = sim_ctx_lookup_mem t m)
    as [-> ->] by (by rewrite (same_inv s t Hst)).
  destruct (sim_ctx_lookup_mem t m) as [k|]; [|done].
  destruct (ctx_memories t !! k) as [me|]; [|done].
  apply (eval_then_respects a (fun addr s => let '(data, s) := eval_in s d in
    match sim_value_to_mem_index addr (me_depth me) with
    | None => s
    | Some idx => set_memories (<[k:=set_cell idx data me]> (ctx_memories s)) s
    end)); [|done].
  intros v. apply (eval_then_respects d (fun data s =>
    match sim_value_to_mem_index v (me_depth me) with
    | None => s
    | Some idx => set_memories (<[k:=set_cell idx data me]> (ctx_memories s)) s
    end)).
  intros v' u w Huw. destruct (sim_value_to_mem_index v _); [|done].
  rewrite (same_inv u w Huw). done.
Qed.

Lemma if_respects e ex ex' :
  respects ex -> respects ex' ->
  respects (fun s => let '(v, s) := eval_in s e in
                     let tc := sim_val_is_true v in
                     if tc =? -1 then set_runtime_error true s
                     else if tc =? 1 then ex s else ex' s).
Proof.
  intros H H'. apply (eval_then_respects e (fun v s =>
    let tc := sim_val_is_true v in
    if tc =? -1 then set_runtime_error true s else if tc =? 1 then ex s else ex' s)).
  intros v s t Hst. cbv zeta. destruct (_ =? -1); [by rewrite Hst|].
  destruct (_ =? 1); auto.
Qed.

Lemma exec_respects nba stmt : respects (fun s => sim_exec_stmt nba s stmt).
Proof.
  enough (respects (fun s => sim_exec_stmt nba s stmt) /\
    (forall els, respects (fun s => sim_exec_stmt nba s els) ->
       respects (exec_elif (sim_exec_stmt nba) els stmt))) as [? _] by done.
  induction stmt as [|a|c t el els [IHt _] [_ IHel] [IHels _]|sel cs IHcs|ss IHss|m p a d]
    using IR_Stmt_ind'.
  - split; [by intros s t H|done].
  - split; [apply assign_respects|done].
  - split; [|intros els' H']; by apply if_respects; auto.
  - split; [|done]. cbn [sim_exec_stmt].
    apply (eval_then_respects sel (fun v s =>
      if sim_val_has_xz v then set_runtime_error true s
      else exec_cases (sim_exec_stmt nba) v cs s)).
    intros v. destruct (sim_val_has_xz v); [intros s t Hst; by rewrite Hst|].
    induction IHcs as [|[cv b] cs [Hb _] _ IH]; [by intros s t H|]. cbn [exec_cases].
    destruct (expr_is_null cv); [done|].
    apply (eval_then_respects cv (fun v' s =>
      if sim_val_is_true (sim_val_eq v v') =? 1 then sim_exec_stmt nba s b
      else exec_cases (sim_exec_stmt nba) v cs s)).
    intros v' s t Hst. by destruct (_ =? 1); auto.
  - split; [|done]. cbn [sim_exec_stmt].
    induction IHss as [|s0 ss [Hs _] _ IH]; [by intros s t H|].
    intros s t Hst. cbn [exec_block]. apply IH. by apply Hs.
  - split; [apply mem_write_respects|done].
Qed.

Lemma exec_cases_respects nba v cs : respects (exec_cases (sim_exec_stmt nba) v cs).
Proof.
  induction cs as [|[cv b] cs IH]; [by intros s t H|]. cbn [exec_cases].
  destruct (expr_is_null cv); [apply exec_respects|].
  apply (eval_then_respects cv (fun v' s =>
    if sim_val_is_true (sim_val_eq v v') =? 1 then sim_exec_stmt nba s b
    else exec_cases (sim_exec_stmt nba) v cs s)).
  intros v' s t Hst. destruct (_ =? 1); [by apply exec_respects|by apply IH].
Qed.

#[export] Instance exec_proper nba :
  Proper (same_but_error ==> eq ==> same_but_error) (sim_exec_stmt nba).
Proof. intros s t H stmt ? <-. by apply exec_respects. Qed.
