(* ===== verification/SimChunks.v ===== *)
(** * Asynchronous chunks: dirty-driven execution is full execution

    A chunk is skipped when it reads something and nothing it reads is dirty.
    [skip_ok] says that skipped chunks hold; it is kept by everything that
    happens between two settlings, and under it [settle_self] does what
    running the whole asynchronous block would do. *)

From stdpp Require Import sets.
From S2P Require Import Prelude SimValue IR SimState SimEval SimDeps SimExec SimExecInv SimSettle.

Local Open Scope Z_scope.
Local Open Scope settle_scope.

(** ** Reads and writes of a statement *)

Definition stmt_reads (stmt : IR_Stmt) : list Z := (collect_stmt_deps stmt ([], [])).1.
Definition stmt_writes (stmt : IR_Stmt) : list Z := (collect_stmt_deps stmt ([], [])).2.

(** The collector adds to both accumulators. *)
Definition adds2 (f : list Z * list Z -> list Z * list Z) : Prop :=
  forall rw i, (i ∈ (f rw).1 <-> i ∈ rw.1 \/ i ∈ (f ([], [])).1) /\
               (i ∈ (f rw).2 <-> i ∈ rw.2 \/ i ∈ (f ([], [])).2).

Lemma adds2_id : adds2 (fun rw => rw).
Proof. intros rw i. simpl. set_solver. Qed.

Lemma adds2_comp f g : adds2 f -> adds2 g -> adds2 (fun rw => g (f rw)).
Proof.
  intros F G rw i. destruct (G (f rw) i) as [-> ->], (G (f ([], [])) i) as [-> ->],
    (F rw i) as [-> ->]. tauto.
Qed.

Lemma adds2_read e : adds2 (fun rw => (collect_expr_reads e rw.1, rw.2)).
Proof. intros rw i. cbn. rewrite !elem_of_collect. set_solver. Qed.

Lemma adds2_write id : adds2 (fun rw => (rw.1, sigset_add rw.2 id)).
Proof. intros rw i. cbn. rewrite !elem_of_sigset_add. set_solver. Qed.

Lemma adds2_fold {A} (f : A -> list Z * list Z -> list Z * list Z) l :
  Forall (fun x => adds2 (f x)) l -> adds2 (fun rw => fold_left (fun acc x => f x acc) l rw).
Proof.
  induction 1 as [|x l Hx _ IH]; cbn [fold_left]; [apply adds2_id|].
  by apply (adds2_comp (f x)).
Qed.

Lemma adds2_ext f g : (forall rw, f rw = g rw) -> adds2 g -> adds2 f.
Proof. intros E H rw i. rewrite !E. apply H. Qed.

(** The collector, one level at a time. *)
Lemma collect_unfold stmt rw :
  collect_stmt_deps stmt rw =
  match stmt with
  | NullStmt => rw
  | StmtAssignment a =>
      (collect_expr_reads (asgn_rhs a) rw.1, sigset_add rw.2 (asgn_lhs_signal_id a))
  | StmtIf c t el els =>
      collect_stmt_deps els (collect_stmt_deps el (collect_stmt_deps t
        (collect_expr_reads c rw.1, rw.2)))
  | StmtSelect sel cs =>
      fold_left (fun acc c => collect_stmt_deps c.2 (collect_expr_reads c.1 acc.1, acc.2))
        cs (collect_expr_reads sel rw.1, rw.2)
  | StmtBlock ss => fold_left (fun acc s => collect_stmt_deps s acc) ss rw
  | StmtMemWrite _ _ a d => (collect_expr_reads d (collect_expr_reads a rw.1), rw.2)
  end.
Proof.
  destruct rw as [r w]. destruct stmt as [| | |sel cs| |]; try done. cbn [collect_stmt_deps fst snd].
  generalize (collect_expr_reads sel r, w). induction cs as [|[cv b] cs IH]; [done|].
  intros acc. cbn [fold_left fst snd]. apply IH.
Qed.

Lemma collect_adds2 stmt : adds2 (collect_stmt_deps stmt).
Proof.
  induction stmt as [|a|c t el els IHt IHel IHels|sel cs IHcs|ss IHss|m p a d] using IR_Stmt_ind';
    (eapply adds2_ext; [intros rw; apply collect_unfold|]).
  - apply adds2_id.
  - apply (adds2_comp _ _ (adds2_read (asgn_rhs a)) (adds2_write (asgn_lhs_signal_id a))).
  - apply (adds2_comp _ _ (adds2_comp _ _ (adds2_comp _ _ (adds2_read c) IHt) IHel) IHels).
  - apply (adds2_comp _ (fun rw => fold_left _ cs rw) (adds2_read sel)).
    apply (adds2_fold (fun c acc => collect_stmt_deps c.2 (collect_expr_reads c.1 acc.1, acc.2))).
    induction IHcs as [|[cv b] cs Hb _ IH]; constructor; [|done].
    apply (adds2_comp _ _ (adds2_read cv) Hb).
  - by apply (adds2_fold collect_stmt_deps).
  - apply (adds2_comp _ _ (adds2_read a) (adds2_read d)).
Qed.

(** Everything below a statement is in its sets. *)
Definition touched (stmt : IR_Stmt) (i : Z) : Prop := i ∈ stmt_reads stmt \/ i ∈ stmt_writes stmt.

Lemma collect_stmt stmt rw i :
  (i ∈ (collect_stmt_deps stmt rw).1 <-> i ∈ rw.1 \/ i ∈ stmt_reads stmt) /\
  (i ∈ (collect_stmt_deps stmt rw).2 <-> i ∈ rw.2 \/ i ∈ stmt_writes stmt).
Proof. apply collect_adds2. Qed.

Lemma if_deps c t el els i :
  (i ∈ stmt_reads (StmtIf c t el els) <->
     i ∈ expr_reads c \/ i ∈ stmt_reads t \/ i ∈ stmt_reads el \/ i ∈ stmt_reads els) /\
  (i ∈ stmt_writes (StmtIf c t el els) <->
     i ∈ stmt_writes t \/ i ∈ stmt_writes el \/ i ∈ stmt_writes els).
Proof.
  unfold stmt_reads at 1, stmt_writes at 1. rewrite collect_unfold.
  destruct (collect_stmt els (collect_stmt_deps el (collect_stmt_deps t
    (collect_expr_reads c [], []))) i) as [-> ->].
  destruct (collect_stmt el (collect_stmt_deps t (collect_expr_reads c [], [])) i) as [-> ->].
  destruct (collect_stmt t (collect_expr_reads c [], []) i) as [-> ->].
  cbn. rewrite elem_of_nil. unfold expr_reads. tauto.
Qed.

Lemma select_deps sel cs i :
  (i ∈ stmt_reads (StmtSelect sel cs) <->
     i ∈ expr_reads sel \/
     Exists (fun c => i ∈ expr_reads c.1 \/ i ∈ stmt_reads c.2) cs) /\
  (i ∈ stmt_writes (StmtSelect sel cs) <-> Exists (fun c => i ∈ stmt_writes c.2) cs).
Proof.
  unfold stmt_reads at 1, stmt_writes at 1. rewrite collect_unfold. cbn [fst snd].
  assert (forall acc,
    (i ∈ (fold_left (fun acc c => collect_stmt_deps c.2 (collect_expr_reads c.1 acc.1, acc.2))
           cs acc).1 <->
       i ∈ acc.1 \/ Exists (fun c => i ∈ expr_reads c.1 \/ i ∈ stmt_reads c.2) cs) /\
    (i ∈ (fold_left (fun acc c => collect_stmt_deps c.2 (collect_expr_reads c.1 acc.1, acc.2))
           cs acc).2 <-> i ∈ acc.2 \/ Exists (fun c => i ∈ stmt_writes c.2) cs)) as E.
  { induction cs as [|[cv b] cs IH]; intros acc; cbn [fold_left fst snd].
    { rewrite !Exists_nil. tauto. }
    destruct (IH (collect_stmt_deps b (collect_expr_reads cv acc.1, acc.2))) as [-> ->].
    destruct (collect_stmt b (collect_expr_reads cv acc.1, acc.2) i) as [-> ->].
    cbn [fst snd]. rewrite elem_of_collect, !Exists_cons. cbn [fst snd]. tauto. }
  destruct (E (collect_expr_reads sel [], [])) as [-> ->]. cbn [fst snd].
  rewrite elem_of_nil. unfold expr_reads. tauto.
Qed.

Lemma block_deps ss i :
  (i ∈ stmt_reads (StmtBlock ss) <-> Exists (fun s => i ∈ stmt_reads s) ss) /\
  (i ∈ stmt_writes (StmtBlock ss) <-> Exists (fun s => i ∈ stmt_writes s) ss).
Proof.
  unfold stmt_reads at 1, stmt_writes at 1. rewrite collect_unfold.
  assert (forall acc,
    (i ∈ (fold_left (fun acc s => collect_stmt_deps s acc) ss acc).1 <->
       i ∈ acc.1 \/ Exists (fun s => i ∈ stmt_reads s) ss) /\
    (i ∈ (fold_left (fun acc s => collect_stmt_deps s acc) ss acc).2 <->
       i ∈ acc.2 \/ Exists (fun s => i ∈ stmt_writes s) ss)) as E.
  { induction ss as [|s ss IH]; intros acc; cbn [fold_left]; [rewrite !Exists_nil; tauto|].
    destruct (IH (collect_stmt_deps s acc)) as [-> ->], (collect_stmt s acc i) as [-> ->].
    rewrite !Exists_cons. tauto. }
  destruct (E ([], [])) as [-> ->]. cbn. rewrite elem_of_nil. tauto.
Qed.

(** ** What the equations of a statement depend on *)

Section Footprint.
Context (s t : SimModuleState).
Context (Hlook : forall id, sim_ctx_lookup s id = sim_ctx_lookup t id).
Context (Hmem : forall m, mem_entry s m = mem_entry t m).

Definition agree_touched (stmt : IR_Stmt) : Prop :=
  forall i, touched stmt i -> sig_current s i = sig_current t i.

Lemma value_agree e :
  (forall i, i ∈ expr_reads e -> sig_current s i = sig_current t i) ->
  eval_value s e = eval_value t e.
Proof using Hmem. intros H. unfold eval_value. by rewrite (eval_agree s t Hmem e H). Qed.

Lemma assign_holds_agree a :
  agree_touched (StmtAssignment a) -> assign_holds s a = assign_holds t a.
Proof using Hlook Hmem.
  intros H. unfold assign_holds.
  assert (sig_current s (asgn_lhs_signal_id a) = sig_current t (asgn_lhs_signal_id a)) as E.
  { apply H. right. unfold stmt_writes. cbn. set_solver. }
  cbn [sig_current state_store] in E. rewrite <- (Hlook (asgn_lhs_signal_id a)) in *.
  destruct (sim_ctx_lookup s _) as [i|]; [|done]. cbn in E. injection E as E. rewrite E.
  rewrite value_agree; [done|]. intros j Hj. apply H. by left.
Qed.

Lemma stmt_holds_agree stmt : agree_touched stmt -> stmt_holds s stmt = stmt_holds t stmt.
Proof using Hlook Hmem.
  intros H.
  enough (stmt_holds s stmt = stmt_holds t stmt /\
    (forall els, stmt_holds s els = stmt_holds t els ->
       elif_holds s (stmt_holds s) els stmt = elif_holds t (stmt_holds t) els stmt))
    as [? _] by done.
  revert H. induction stmt as [|a|c th el els IHt IHel IHels|sel cs IHcs|ss IHss|m p a d]
    using IR_Stmt_ind'; intros H.
  - done.
  - split; [by apply assign_holds_agree|done].
  - assert (forall i, touched th i \/ touched el i \/ touched els i \/ i ∈ expr_reads c ->
      sig_current s i = sig_current t i) as H'.
    { intros i Hi. apply H. unfold touched in *.
      destruct (if_deps c th el els i) as [-> ->]. tauto. }
    destruct (IHt ltac:(intros i Hi; apply H'; tauto)) as [Et _].
    destruct (IHel ltac:(intros i Hi; apply H'; tauto)) as [_ Eel].
    destruct (IHels ltac:(intros i Hi; apply H'; tauto)) as [Eels _].
    assert (eval_value s c = eval_value t c) as Ec by (apply value_agree; intros; apply H'; tauto).
    split; [|intros els' E']; cbn [stmt_holds elif_holds]; by rewrite Ec, Et, Eel.
  - split; [|done]. cbn [stmt_holds].
    rewrite (value_agree sel) by (intros i Hi; apply H; left; apply select_deps; by left).
    destruct (sim_val_has_xz _); [done|]. generalize (eval_value t sel) as v. intros v.
    assert (forall i, Exists (fun c => i ∈ expr_reads c.1 \/ touched c.2 i) cs ->
      sig_current s i = sig_current t i) as H'.
    { intros i Hi. apply H. unfold touched. destruct (select_deps sel cs i) as [-> ->].
      apply Exists_exists in Hi as ([cv b] & Hin & Hc). unfold touched in Hc.
      rewrite !Exists_exists. destruct Hc as [Hc|[Hc|Hc]]; eauto 8. }
    clear H. induction IHcs as [|[cv b] cs Hb _ IH]; [done|]. cbn [cases_hold].
    cbn [fst snd] in *.
    destruct (Hb ltac:(intros i Hi; apply H'; constructor; by right)) as [-> _].
    rewrite (value_agree cv) by (intros i Hi; apply H'; constructor; by left).
    rewrite IH; [done|]. intros i Hi. apply H'. by right.
  - split; [|done]. cbn [stmt_holds].
    assert (forall i, Exists (fun s => touched s i) ss -> sig_current s i = sig_current t i) as H'.
    { intros i Hi. apply H. unfold touched. destruct (block_deps ss i) as [-> ->].
      apply Exists_exists in Hi as (x & Hin & Hc). unfold touched in Hc.
      rewrite !Exists_exists. destruct Hc; eauto. }
    clear H. induction IHss as [|s0 ss Hs0 _ IH]; [done|]. cbn [forallb].
    destruct (Hs0 ltac:(intros i Hi; apply H'; by left)) as [-> _].
    rewrite IH; [done|]. intros i Hi. apply H'. by right.
  - done.
Qed.
End Footprint.

#[export] Instance stmt_holds_proper : Proper (same_but_error ==> eq ==> eq) stmt_holds.
Proof.
  intros s t ->%same_inv stmt ? <-. by apply stmt_holds_agree.
Qed.

(** ** What execution can change *)

Lemma stmt_forall_writes stmt :
  stmt_forall (fun a => asgn_lhs_signal_id a ∈ stmt_writes stmt) all_mem stmt.
Proof.
  assert (forall W, (forall i, i ∈ stmt_writes stmt -> W i) ->
    stmt_forall (fun a => W (asgn_lhs_signal_id a)) all_mem stmt) as H; [|exact (H (fun i => i ∈ stmt_writes stmt) (fun _ Hi => Hi))].
  induction stmt as [|a|c th el els IHt IHel IHels|sel cs IHcs|ss IHss|m p a d]
    using IR_Stmt_ind'; intros W H; cbn [stmt_forall]; try done.
  - apply H. unfold stmt_writes. cbn. set_solver.
  - split_and!; [apply IHt|apply IHel|apply IHels]; intros i Hi; apply H;
      destruct (if_deps c th el els i) as [_ ->]; tauto.
  - assert (forall i, Exists (fun c => i ∈ stmt_writes c.2) cs -> W i) as H'
      by (intros i Hi; apply H; by destruct (select_deps sel cs i) as [_ ->]).
    clear H. induction IHcs as [|[cv b] cs Hb _ IH]; cbn [foldr]; [done|]. split.
    + apply Hb. intros i Hi. apply H'. by left.
    + apply IH. intros i Hi. apply H'. by right.
  - assert (forall i, Exists (fun s => i ∈ stmt_writes s) ss -> W i) as H'
      by (intros i Hi; apply H; by destruct (block_deps ss i) as [_ ->]).
    clear H. induction IHss as [|s0 ss Hs0 _ IH]; cbn [foldr]; [done|]. split.
    + apply Hs0. intros i Hi. apply H'. by left.
    + apply IH. intros i Hi. apply H'. by right.
Qed.

Definition writes_index (s : SimModuleState) (stmt : IR_Stmt) (i : Z) : Prop :=
  exists id, id ∈ stmt_writes stmt /\ sim_ctx_lookup s id = Some i.

Lemma entry_update_other s i f j :
  i <> j -> entry_at (update_entry i f s) j = entry_at s j.
Proof.
  intros Hn. unfold entry_at, update_entry. simpl. rewrite aget_aset.
  destruct (Z.eqb_spec i j); [done|]. by rewrite andb_false_r.
Qed.

(** Entries that the statement does not name as targets keep their contents. *)
Lemma exec_frame nba stmt s i :
  ~ writes_index s stmt i -> entry_at (sim_exec_stmt nba s stmt) i = entry_at s i.
Proof.
  intros Hn.
  assert ((forall id, sim_ctx_lookup (sim_exec_stmt nba s stmt) id = sim_ctx_lookup s id) /\
    ((forall id, id ∈ stmt_writes stmt -> sim_ctx_lookup s id <> Some i) ->
     entry_at (sim_exec_stmt nba s stmt) i = entry_at s i)) as [_ H].
  - apply (exec_invariant nba (fun s t => (forall id, sim_ctx_lookup t id = sim_ctx_lookup s id) /\
      ((forall id, id ∈ stmt_writes stmt -> sim_ctx_lookup s id <> Some i) ->
       entry_at t i = entry_at s i)) (fun a => asgn_lhs_signal_id a ∈ stmt_writes stmt) all_mem);
      [done| |done| | |apply stmt_forall_writes].
    + intros a b c [L1 E1] [L2 E2]. split; [intros id; by rewrite L2|].
      intros H. rewrite E2, E1; [done|done|]. intros id. rewrite L1. apply H.
    + intros u a Ha. split; [intros id; apply lookup_static, same_static_assign|].
      intros H. specialize (H _ Ha). unfold apply_assign.
      destruct (sim_ctx_lookup u _) as [j|]; [|done].
      assert (j <> i) by congruence. rewrite eval_in_split. cbv beta iota zeta.
      unfold assign_slice, assign_full. cbv zeta.
      destruct (asgn_is_sliced a), nba; try destruct (words_same _ _ _ _);
        try change (entry_at (mark_dirty ?k ?u) i) with (entry_at u i);
        rewrite ?entry_update_other; done.
    + intros u m a d _. split; [intros id; apply lookup_static, same_static_mem|].
      intros _. unfold exec_mem_write. destruct (sim_ctx_lookup_mem u m); [|done].
      destruct (ctx_memories u !! _); [|done]. rewrite !eval_in_split. cbv beta iota zeta.
      by destruct (sim_value_to_mem_index _ _).
  - apply H. intros id Hid E. apply Hn. by exists id.
Qed.

Lemma exec_memories nba stmt s :
  stmt_forall (fun _ => True) no_mem stmt ->
  ctx_memories (sim_exec_stmt nba s stmt) = ctx_memories s.
Proof.
  intros H.
  apply (exec_invariant nba (fun s t => ctx_memories t = ctx_memories s) (fun _ => True) no_mem);
    try done.
  - intros a b c. congruence.
  - intros u a _. unfold apply_assign. destruct (sim_ctx_lookup u _) as [j|]; [|done].
    rewrite eval_in_split. cbv beta iota zeta. unfold assign_slice, assign_full. cbv zeta.
    destruct (asgn_is_sliced a), nba; try done; by destruct (words_same _ _ _ _).
Qed.
