(* ===== verification/SimFixpoint.v ===== *)
(** * Settling a module reaches a fixed point of its asynchronous block

    [skip_ok] is the invariant behind the dirty flags: a chunk that would be
    skipped holds.  It is established by creation, kept by settling, by
    non-blocking execution and by the commit of the registers, and it makes
    [settle_self] agree with running the whole block. *)

From stdpp Require Import sets.
From S2P Require Import Prelude SimValue IR SimState SimEval SimDeps SimExec SimExecInv SimSettle SimChunks.

Local Open Scope Z_scope.
Local Open Scope settle_scope.

(** ** The chunks of a module *)

Lemma elem_of_indices s ids i :
  i ∈ sigids_to_indices s ids <-> exists id, id ∈ ids /\ sim_ctx_lookup s id = Some i.
Proof.
  unfold sigids_to_indices.
  assert (forall acc, i ∈ fold_left (fun indices sig_id =>
      match sim_ctx_lookup s sig_id with
      | Some idx => if existsb (Z.eqb idx) indices then indices else indices ++ [idx]
      | None => indices
      end) ids acc <-> i ∈ acc \/ exists id, id ∈ ids /\ sim_ctx_lookup s id = Some i) as E.
  { induction ids as [|id ids IH]; intros acc; cbn [fold_left].
    { set_solver. }
    rewrite IH. destruct (sim_ctx_lookup s id) as [j|] eqn:El.
    - assert (i ∈ (if existsb (Z.eqb j) acc then acc else acc ++ [j]) <-> i = j \/ i ∈ acc) as ->
        by (apply (elem_of_sigset_add acc j i)).
      split.
      + intros [[->|H]|(k & Hk & E)]; [right; exists id|by left|right; exists k]; set_solver.
      + intros [H|(k & [->|Hk]%elem_of_cons & E)]; [by left; right| |right; by exists k].
        left; left. congruence.
    - split.
      + intros [H|(k & Hk & E)]; [by left|right; exists k; set_solver].
      + intros [H|(k & [->|Hk]%elem_of_cons & E)]; [by left|congruence|right; by exists k]. }
  rewrite E, elem_of_nil. tauto.
Qed.

Lemma make_chunk_unfold s stmt :
  make_chunk s stmt = mkChunk stmt (sigids_to_indices s (stmt_reads stmt))
                        (sigids_to_indices s (stmt_writes stmt)).
Proof.
  unfold make_chunk, stmt_reads, stmt_writes. by destruct (collect_stmt_deps stmt ([], [])).
Qed.

Lemma indices_ext s t ids :
  (forall id, sim_ctx_lookup t id = sim_ctx_lookup s id) ->
  sigids_to_indices t ids = sigids_to_indices s ids.
Proof.
  intros H. unfold sigids_to_indices.
  match goal with
  | |- fold_left ?f ids _ = fold_left ?g ids _ =>
      enough (forall acc, fold_left f ids acc = fold_left g ids acc) by done
  end.
  induction ids as [|id ids IH]; intros acc; [done|]. cbn [fold_left]. by rewrite IH, H.
Qed.

Lemma build_chunks_static s t :
  same_static s t -> ctx_async_chunks (build_async_chunks t) = ctx_async_chunks (build_async_chunks s).
Proof.
  intros Hst. assert (forall stmt, make_chunk t stmt = make_chunk s stmt) as E.
  { intros stmt. rewrite !make_chunk_unfold. f_equal; apply indices_ext;
      intros id; by apply lookup_static. }
  unfold build_async_chunks. rewrite (ss_module _ _ Hst).
  destruct (mod_async_block (ctx_module s)) as [| | | |ss|]; simpl; rewrite ?E; try done.
  apply map_ext. done.
Qed.

(** Asynchronous logic as the compiler emits it: ordered part-selects, no
    memory writes, and each signal driven by one chunk. *)
Record async_ok (s : SimModuleState) : Prop := {
  ao_state : state_ok s;
  ao_chunks : ctx_async_chunks s = ctx_async_chunks (build_async_chunks s);
  ao_plain : stmt_forall slice_ok no_mem (mod_async_block (ctx_module s));
  ao_driver : forall c d i, c ∈ ctx_async_chunks s -> d ∈ ctx_async_chunks s ->
    i ∈ ac_write_indices c -> i ∈ ac_write_indices d -> c = d
}.

Lemma async_ok_static s t : same_static s t -> async_ok s -> async_ok t.
Proof.
  intros Hst [H1 H2 H3 H4]. constructor.
  - by apply (state_ok_static s).
  - rewrite (build_chunks_static s t Hst). by rewrite (ss_chunks _ _ Hst).
  - by rewrite (ss_module _ _ Hst).
  - by rewrite (ss_chunks _ _ Hst).
Qed.

(** The module's statements are those of its chunks, in order. *)
Lemma chunks_stmts s :
  async_ok s ->
  (forall c, c ∈ ctx_async_chunks s ->
     c = make_chunk s (ac_stmt c) /\ stmt_forall slice_ok no_mem (ac_stmt c)).
Proof.
  intros [_ E H _] c. rewrite E. clear E. unfold build_async_chunks.
  destruct (mod_async_block (ctx_module s)) as [| | | |ss|]; simpl.
  all: try (intros ->%list_elem_of_singleton; rewrite !make_chunk_unfold; by split).
  - by intros ?%not_elem_of_nil.
  - intros (st & -> & Hin)%list_elem_of_fmap. rewrite !make_chunk_unfold. split; [done|].
    simpl. cbn [stmt_forall] in H.
    induction ss as [|x ss IH]; [by apply not_elem_of_nil in Hin|].
    cbn [foldr] in H. destruct H as [H1 H2]. apply elem_of_cons in Hin as [->|Hin]; auto.
Qed.

Lemma chunk_reads s c i :
  async_ok s -> c ∈ ctx_async_chunks s ->
  i ∈ ac_read_indices c <->
  exists id, id ∈ stmt_reads (ac_stmt c) /\ sim_ctx_lookup s id = Some i.
Proof.
  intros Hok Hc. destruct (chunks_stmts s Hok c Hc) as [E _]. rewrite E at 1.
  rewrite make_chunk_unfold. apply elem_of_indices.
Qed.

Lemma chunk_writes s c i :
  async_ok s -> c ∈ ctx_async_chunks s ->
  i ∈ ac_write_indices c <-> writes_index s (ac_stmt c) i.
Proof.
  intros Hok Hc. destruct (chunks_stmts s Hok c Hc) as [E _]. rewrite E at 1.
  rewrite make_chunk_unfold. apply elem_of_indices.
Qed.

Lemma needs_exec_false s c :
  chunk_needs_exec s c = false ->
  forall i, i ∈ ac_read_indices c -> aget false (ctx_sig_dirty s) i = false.
Proof.
  unfold chunk_needs_exec. destruct (ac_read_indices c) as [|r rs]; [done|]. intros H i Hi.
  apply not_true_is_false. intros Ht. apply not_true_iff_false in H. apply H.
  apply existsb_exists. exists i. split; [by apply list_elem_of_In|done].
Qed.

Lemma needs_exec_mono s t c :
  (forall i, aget false (ctx_sig_dirty s) i = true -> aget false (ctx_sig_dirty t) i = true) ->
  chunk_needs_exec s c = true -> chunk_needs_exec t c = true.
Proof.
  intros H. unfold chunk_needs_exec. destruct (ac_read_indices c); [done|].
  rewrite !existsb_exists. intros (x & Hx & E). exists x. auto.
Qed.

(** ** The invariant *)

Definition chunk_holds (s : SimModuleState) (c : SimAsyncChunk) : bool := stmt_holds s (ac_stmt c).

Definition skip_ok (s : SimModuleState) : Prop :=
  forall c, c ∈ ctx_async_chunks s -> chunk_needs_exec s c = false -> chunk_holds s c = true.

(** A chunk sees its inputs and its targets only. *)
Lemma chunk_holds_agree s t c :
  async_ok s -> same_static s t -> ctx_memories t = ctx_memories s -> c ∈ ctx_async_chunks s ->
  (forall i, i ∈ ac_read_indices c \/ i ∈ ac_write_indices c ->
     se_current (entry_at t i) = se_current (entry_at s i)) ->
  chunk_holds t c = chunk_holds s c.
Proof.
  intros Hok Hst Hmem Hc H. symmetry. apply stmt_holds_agree.
  - intros id. symmetry. by apply lookup_static.
  - intros m. unfold mem_entry, state_store, sim_ctx_lookup_mem.
    by rewrite Hmem, (ss_module _ _ Hst).
  - intros id Hid. cbn [sig_current state_store]. rewrite (lookup_static s t id Hst).
    destruct (sim_ctx_lookup s id) as [i|] eqn:El; [|done]. cbn. f_equal. symmetry. apply H.
    rewrite (chunk_reads s c i Hok Hc), (chunk_writes s c i Hok Hc). unfold writes_index.
    destruct Hid; eauto.
Qed.

(** A step keeps the invariant when it marks the inputs it changes and leaves
    the targets of the other chunks alone. *)
Lemma skip_ok_step s t :
  async_ok s -> same_static s t -> ctx_memories t = ctx_memories s ->
  (forall c i, c ∈ ctx_async_chunks s -> chunk_needs_exec t c = false ->
     i ∈ ac_read_indices c \/ i ∈ ac_write_indices c ->
     se_current (entry_at t i) = se_current (entry_at s i)) ->
  skip_ok s -> skip_ok t.
Proof.
  intros Hok Hst Hmem H Hs c. rewrite (ss_chunks _ _ Hst). intros Hc Hn.
  rewrite (chunk_holds_agree s t c Hok Hst Hmem Hc) by (intros i; by apply H).
  apply Hs; [done|]. apply not_true_is_false. intros E.
  apply (needs_exec_mono s t) in E; [congruence|]. intros i. apply (ss_dirty _ _ Hst).
Qed.

(** One chunk. *)
Lemma exec_chunk_static s c : same_static s (exec_chunk s c).
Proof.
  unfold exec_chunk. destruct (chunk_needs_exec s c); [apply exec_static|apply same_static_refl].
Qed.

Lemma stmt_forall_weaken (P Q : IR_Assignment -> Prop) (m n : string -> IR_Expr -> IR_Expr -> Prop) stmt :
  (forall a, P a -> Q a) -> (forall k a d, m k a d -> n k a d) ->
  stmt_forall P m stmt -> stmt_forall Q n stmt.
Proof.
  intros HP Hm. induction stmt as [|a|c t el els IHt IHel IHels|sel cs IHcs|ss IHss|m' p a d]
    using IR_Stmt_ind'; cbn [stmt_forall]; auto.
  - intros (? & ? & ?). auto.
  - induction IHcs as [|c cs Hc _ IH]; cbn [foldr]; [done|]. intros [? ?]. auto.
  - induction IHss as [|s ss Hs _ IH]; cbn [foldr]; [done|]. intros [? ?]. auto.
Qed.

Lemma exec_chunk_skip_ok s c :
  async_ok s -> c ∈ ctx_async_chunks s -> skip_ok s -> skip_ok (exec_chunk s c).
Proof.
  intros Hok Hc Hs. unfold exec_chunk. destruct (chunk_needs_exec s c) eqn:En; [|done].
  destruct (chunks_stmts s Hok c Hc) as [_ Hf].
  pose proof (exec_static false (ac_stmt c) s) as Hst.
  pose proof (exec_marks (ac_stmt c) s Hf (ao_state s Hok)) as Hm.
  apply (skip_ok_step s); [done|done| | |done].
  { apply exec_memories. by apply (stmt_forall_weaken slice_ok _ no_mem no_mem). }
  intros d i Hd Hn Hi. destruct (mk_marked _ _ Hm i) as [E|(_ & Hdirty & _)]; [done|].
  destruct Hi as [Hi|Hi].
  { pose proof (needs_exec_false _ d Hn i Hi). congruence. }
  rewrite exec_frame; [done|]. intros Hw.
  apply (chunk_writes s c i Hok Hc) in Hw. pose proof (ao_driver s Hok c d i Hc Hd Hw Hi). subst d.
  apply (needs_exec_mono s (sim_exec_stmt false s (ac_stmt c))) in En; [congruence|].
  intros j. apply (ss_dirty _ _ Hst).
Qed.

(** Running every chunk, whatever the dirty flags say. *)
Definition exec_all (s : SimModuleState) (cs : list SimAsyncChunk) : SimModuleState :=
  fold_left (fun s c => sim_exec_stmt false s (ac_stmt c)) cs s.

Lemma settle_chunks cs s t :
  async_ok s -> skip_ok s -> (forall c, c ∈ cs -> c ∈ ctx_async_chunks s) -> t ≡e s ->
  let u := fold_left exec_chunk cs s in
  exec_all t cs ≡e u /\ same_static s u /\ skip_ok u /\
  (ctx_settle_dirty u = false -> u ≡e s /\ forallb (chunk_holds s) cs = true).
Proof.
  unfold exec_all. revert s t.
  induction cs as [|c cs IH]; intros s t Hok Hs Hin Ht; cbn [fold_left forallb].
  { by split_and!; [|apply same_static_refl| |]. }
  assert (c ∈ ctx_async_chunks s) as Hc by (apply Hin; set_solver).
  destruct (chunks_stmts s Hok c Hc) as [_ Hf].
  pose proof (exec_chunk_static s c) as Hst.
  assert (sim_exec_stmt false t (ac_stmt c) ≡e exec_chunk s c) as Heq.
  { unfold exec_chunk. destruct (chunk_needs_exec s c) eqn:En; [by rewrite Ht|].
    apply (exec_agrees_stmt s (ao_state s Hok) (ac_stmt c) Hf t Ht). by apply Hs. }
  destruct (IH (exec_chunk s c) (sim_exec_stmt false t (ac_stmt c))) as (A & B & D & E);
    [by apply (async_ok_static s)|by apply exec_chunk_skip_ok| |done|].
  { intros d Hd. rewrite (ss_chunks _ _ Hst). apply Hin. set_solver. }
  split_and!; [done|by eapply same_static_trans|done|]. intros Hd. destruct (E Hd) as [E1 E2].
  assert (ctx_settle_dirty (exec_chunk s c) = false) as Hd' by (by rewrite <- E1).
  assert (ctx_settle_dirty s = false) as Hd0.
  { apply not_true_is_false. intros Hx. apply (ss_settle _ _ Hst) in Hx. congruence. }
  assert (chunk_holds s c = true) as Hh.
  { apply (exec_agrees_stmt s (ao_state s Hok) (ac_stmt c) Hf t Ht); [done|].
    assert (ctx_settle_dirty (sim_exec_stmt false t (ac_stmt c)) = ctx_settle_dirty (exec_chunk s c))
      as -> by (by rewrite Heq). done. }
  assert (exec_chunk s c ≡e s) as Hsame.
  { rewrite <- Heq. by apply (exec_agrees_stmt s (ao_state s Hok) (ac_stmt c) Hf t Ht). }
  split; [by rewrite E1|]. rewrite Hh. cbn.
  rewrite <- E2. clear -Hsame. induction cs as [|d cs IH]; [done|]. cbn [forallb].
  rewrite IH. f_equal. unfold chunk_holds. by rewrite Hsame.
Qed.

(** ** The whole block *)

Lemma exec_all_block s t :
  async_ok s ->
  exec_all t (ctx_async_chunks s) = sim_exec_stmt false t (mod_async_block (ctx_module s)).
Proof.
  intros [_ -> _ _]. unfold exec_all, build_async_chunks.
  assert (forall st, ac_stmt (make_chunk s st) = st) as E
    by (intros st; by rewrite make_chunk_unfold).
  destruct (mod_async_block (ctx_module s)) as [| | | |ss|];
    cbn [ctx_async_chunks set_async_chunks fold_left map]; rewrite ?E; try done.
  cbn [sim_exec_stmt]. revert t. induction ss as [|x ss IH]; intros t; [done|].
  cbn [map fold_left exec_block]. rewrite E. apply IH.
Qed.

Lemma settle_self_chunks s :
  async_ok s -> settle_self s = fold_left exec_chunk (ctx_async_chunks s) s.
Proof.
  intros Hok. unfold settle_self. destruct (ctx_async_chunks s) eqn:E; [|done].
  cbn [fold_left]. pose proof (exec_all_block s s Hok) as H. by rewrite E in H.
Qed.

(** One pass, seen from the outside. *)
Lemma settle_self_spec s :
  async_ok s -> skip_ok s ->
  let u := settle_self s in
  u ≡e sim_exec_stmt false s (mod_async_block (ctx_module s)) /\
  same_static s u /\ skip_ok u /\
  (ctx_settle_dirty u = false -> u ≡e s /\
     forall c, c ∈ ctx_async_chunks s -> chunk_holds s c = true).
Proof.
  intros Hok Hs. cbv zeta. rewrite settle_self_chunks, <- exec_all_block by done.
  destruct (settle_chunks (ctx_async_chunks s) s s Hok Hs) as (A & B & C & D); [done|done|].
  split_and!; [by symmetry|done|done|]. intros Hd. destruct (D Hd) as [D1 D2].
  split; [done|]. intros c Hc. rewrite forallb_forall in D2. apply D2. by apply list_elem_of_In.
Qed.

(** ** Flag changes between and after the passes *)

Definition all_hold (s : SimModuleState) : Prop :=
  forall c, c ∈ ctx_async_chunks s -> chunk_holds s c = true.

(** The flags and the error do not matter to the equations. *)
Lemma stmt_holds_flags s t stmt :
  ctx_module t = ctx_module s -> ctx_signals t = ctx_signals s ->
  ctx_sig_id_map t = ctx_sig_id_map s -> ctx_max_sig_id t = ctx_max_sig_id s ->
  ctx_memories t = ctx_memories s -> stmt_holds t stmt = stmt_holds s stmt.
Proof.
  intros E1 E2 E3 E4 E5.
  assert (forall id, sim_ctx_lookup t id = sim_ctx_lookup s id) as L
    by (intros id; unfold sim_ctx_lookup; by rewrite E3, E4).
  apply stmt_holds_agree; [done| |].
  - intros m. cbn. unfold sim_ctx_lookup_mem. by rewrite E5, E1.
  - intros i _. cbn. rewrite L. unfold entry_at. by rewrite E2.
Qed.

Lemma async_ok_flags s t :
  ctx_module t = ctx_module s -> ctx_signals t = ctx_signals s ->
  ctx_sig_id_map t = ctx_sig_id_map s -> ctx_max_sig_id t = ctx_max_sig_id s ->
  ctx_async_chunks t = ctx_async_chunks s ->
  length (ctx_sig_dirty t) = length (ctx_sig_dirty s) -> async_ok s -> async_ok t.
Proof.
  intros E1 E2 E3 E4 E5 E6 [[A1 A2] B C D].
  assert (forall id, sim_ctx_lookup t id = sim_ctx_lookup s id) as L
    by (intros id; unfold sim_ctx_lookup; by rewrite E3, E4).
  constructor; [|rewrite E5, B|by rewrite E1|by rewrite E5].
  - constructor; [|by rewrite E6, E2]. intros id i. rewrite L. unfold in_range. rewrite E2.
    apply A1.
  - assert (forall stmt, make_chunk t stmt = make_chunk s stmt) as M.
    { intros stmt. rewrite !make_chunk_unfold. by rewrite !(indices_ext s t). }
    unfold build_async_chunks. rewrite E1.
    destruct (mod_async_block (ctx_module s)); simpl; rewrite ?M; try done. by apply map_ext.
Qed.

Definition root_ok (ctx : SimContext) : Prop :=
  async_ok (ctx_state ctx) /\ skip_ok (ctx_state ctx).

Lemma clear_root_ok s : async_ok s -> skip_ok s ->
  async_ok (set_settle_dirty false s) /\ skip_ok (set_settle_dirty false s).
Proof.
  intros H1 H2. split; [by apply (async_ok_flags s)|]. intros c Hc Hn.
  unfold chunk_holds. rewrite (stmt_holds_flags s); by try apply H2.
Qed.

(** ** A module without instances *)

Lemma settle_once_leaf s :
  settle_hierarchy_once (clear_root_dirty (mkContext s [])) =
  mkContext (settle_self (set_settle_dirty false s)) [].
Proof. done. Qed.

(** When the loop reports success, every chunk holds. *)
Lemma settle_loop_leaf n s ctx :
  async_ok s -> skip_ok s -> settle_loop n (mkContext s []) = (0, ctx) ->
  exists t, ctx = mkContext t [] /\ async_ok t /\ all_hold t /\ ctx_settle_dirty t = false /\
    ctx_sig_dirty t = map (fun _ => false) (ctx_sig_dirty t).
Proof.
  revert s. induction n as [|n IH]; intros s Hok Hs; [done|].
  cbn [settle_loop]. cbv zeta. rewrite settle_once_leaf.
  destruct (clear_root_ok s Hok Hs) as [Hok' Hs']. set (s' := set_settle_dirty false s) in *.
  destruct (settle_self_spec s' Hok' Hs') as (_ & Hst & Hu & Hfix).
  set (u := settle_self s') in *. cbn [ctx_state].
  pose proof (async_ok_static s' u Hst Hok') as Hoku.
  destruct (ctx_settle_dirty u) eqn:Ed; cbn [negb]; [by apply IH|].
  intros [= <-]. destruct (Hfix eq_refl) as [Hsame Hall]. clearbody u.
  exists (set_sig_dirty (map (fun _ => false) (ctx_sig_dirty u)) u). split_and!.
  - done.
  - apply (async_ok_flags u); try done. simpl. by rewrite length_map.
  - intros c Hc. unfold chunk_holds. rewrite (stmt_holds_flags u) by done.
    rewrite Hsame. apply Hall. rewrite <- (ss_chunks _ _ Hst). done.
  - done.
  - simpl. rewrite map_map. done.
Qed.

Lemma all_hold_exec s :
  async_ok s -> all_hold s ->
  forall t, t ≡e s -> sim_exec_stmt false t (mod_async_block (ctx_module s)) ≡e s.
Proof.
  intros Hok Hall t Ht. rewrite <- exec_all_block by done. unfold exec_all.
  assert (forall cs, (forall c, c ∈ cs -> c ∈ ctx_async_chunks s) ->
    fold_left (fun s c => sim_exec_stmt false s (ac_stmt c)) cs t ≡e s) as H; [|by apply H].
  intros cs. revert t Ht. induction cs as [|c cs IH]; intros t Ht Hin; [done|]. cbn [fold_left].
  assert (c ∈ ctx_async_chunks s) as Hc by (apply Hin; set_solver).
  destruct (chunks_stmts s Hok c Hc) as [_ Hf]. apply IH; [|intros d Hd; apply Hin; set_solver].
  apply (exec_agrees_stmt s (ao_state s Hok) (ac_stmt c) Hf t Ht). by apply Hall.
Qed.

(** ** Where the invariant comes from *)

(** Every flag is up when the state is built. *)
Lemma skip_ok_all_dirty s :
  async_ok s -> (forall i, in_range s i -> aget false (ctx_sig_dirty s) i = true) -> skip_ok s.
Proof.
  intros Hok H c Hc Hn. destruct (ac_read_indices c) as [|r rs] eqn:E.
  { unfold chunk_needs_exec in Hn. by rewrite E in Hn. }
  assert (r ∈ ac_read_indices c) as Hr by (rewrite E; set_solver).
  pose proof (needs_exec_false s c Hn r Hr) as Hf.
  apply (chunk_reads s c r Hok Hc) in Hr as (id & _ & Hl).
  pose proof (so_lookup s (ao_state s Hok) id r Hl) as Hi. rewrite (H r Hi) in Hf. done.
Qed.

(** The non-blocking run of a clock domain leaves the inputs and outputs of
    the chunks alone. *)
Lemma skip_ok_nba stmt s :
  stmt_forall (fun _ => True) no_mem stmt ->
  async_ok s -> skip_ok s -> skip_ok (sim_exec_stmt true s stmt).
Proof.
  intros Hm Hok. apply skip_ok_step; [done|apply exec_static|by apply exec_memories|].
  intros c i _ _ _. apply exec_nba_current.
Qed.

(** The commit marks what it changes; registers are not driven by chunks. *)
Definition no_async_register (s : SimModuleState) : Prop :=
  forall c i, c ∈ ctx_async_chunks s -> i ∈ ac_write_indices c ->
    se_has_pending (entry_at s i) = false.

Lemma commit_static i s : same_static s (commit_entry i s).
Proof.
  unfold commit_entry. cbv zeta. destruct (se_has_pending _); [|apply same_static_refl].
  by apply same_static_mark_update.
Qed.

Lemma commit_entry_at i s j :
  state_ok s -> in_range s i ->
  entry_at (commit_entry i s) j =
  (if (i =? j) && se_has_pending (entry_at s i)
   then set_pending false (set_current (se_next (entry_at s i)) (entry_at s i))
   else entry_at s j) /\
  aget false (ctx_sig_dirty (commit_entry i s)) j =
  (if (i =? j) && se_has_pending (entry_at s i) then true else aget false (ctx_sig_dirty s) j).
Proof.
  intros Hok Hi. unfold commit_entry. cbv zeta. destruct (se_has_pending (entry_at s i)) eqn:E.
  - change (entry_at (mark_dirty i ?t) j) with (entry_at t j).
    rewrite entry_update by done. rewrite andb_true_r. split; [done|].
    simpl. rewrite aget_aset, (so_dirty s Hok). unfold in_range in Hi.
    destruct (Z.leb_spec 0 i), (Z.ltb_spec i (Z.of_nat (length (ctx_signals s)))); done || lia.
  - by rewrite andb_false_r.
Qed.

(** The commit, entry by entry. *)
Lemma apply_nba_spec s :
  state_ok s ->
  let t := apply_nba_state s in
  same_static s t /\ ctx_memories t = ctx_memories s /\
  forall i, in_range s i ->
    entry_at t i =
    (if se_has_pending (entry_at s i)
     then set_pending false (set_current (se_next (entry_at s i)) (entry_at s i))
     else entry_at s i) /\
    aget false (ctx_sig_dirty t) i =
    (se_has_pending (entry_at s i) || aget false (ctx_sig_dirty s) i).
Proof.
  intros Hok. cbv zeta. unfold apply_nba_state.
  assert (forall n, (n <= length (ctx_signals s))%nat ->
    let t := for_up n commit_entry s in
    same_static s t /\ ctx_memories t = ctx_memories s /\
    forall i, in_range s i ->
      entry_at t i =
      (if (i <? Z.of_nat n) && se_has_pending (entry_at s i)
       then set_pending false (set_current (se_next (entry_at s i)) (entry_at s i))
       else entry_at s i) /\
      aget false (ctx_sig_dirty t) i =
      ((i <? Z.of_nat n) && se_has_pending (entry_at s i) || aget false (ctx_sig_dirty s) i)) as H.
  { induction n as [|n IH]; intros Hn; cbv zeta; cbn [for_up].
    { split_and!; [apply same_static_refl|done|]. intros i Hi. unfold in_range in Hi.
      by destruct (Z.ltb_spec i (Z.of_nat 0)); [lia|]. }
    destruct IH as (A & B & C); [lia|]. set (t := for_up n commit_entry s) in *.
    split_and!.
    - eapply same_static_trans; [exact A|apply commit_static].
    - unfold commit_entry. cbv zeta. rewrite <- B. by destruct (se_has_pending _).
    - intros i Hi. pose proof (state_ok_static s t A Hok) as Hokt.
      assert (in_range t (Z.of_nat n)) as Hin.
      { unfold in_range in *. rewrite (ss_length _ _ A). lia. }
      destruct (commit_entry_at (Z.of_nat n) t i Hokt Hin) as [-> ->].
      destruct (C i Hi) as [Ci Di].
      destruct (Z.eqb_spec (Z.of_nat n) i) as [<-|Hne].
      + rewrite Ci, Di. destruct (Z.ltb_spec (Z.of_nat n) (Z.of_nat n)),
          (Z.ltb_spec (Z.of_nat n) (Z.of_nat (S n))); try lia. cbn [andb orb].
        by destruct (se_has_pending (entry_at s (Z.of_nat n))).
      + cbn [andb]. rewrite Ci, Di.
        by destruct (Z.ltb_spec i (Z.of_nat n)), (Z.ltb_spec i (Z.of_nat (S n))); try lia. }
  destruct (H (length (ctx_signals s)) ltac:(lia)) as (A & B & C). split_and!; [done|done|].
  intros i Hi. destruct (C i Hi) as [-> ->]. unfold in_range in Hi.
  by destruct (Z.ltb_spec i (Z.of_nat (length (ctx_signals s)))); [|lia].
Qed.

Lemma skip_ok_apply_nba s :
  async_ok s -> no_async_register s -> skip_ok s -> skip_ok (apply_nba_state s).
Proof.
  intros Hok Hreg. destruct (apply_nba_spec s (ao_state s Hok)) as (A & B & C).
  apply skip_ok_step; [done|done|done|]. intros c i Hc Hn Hi.
  assert (in_range s i) as Hr.
  { rewrite (chunk_reads s c i Hok Hc), (chunk_writes s c i Hok Hc) in Hi. unfold writes_index in Hi.
    destruct Hi as [(id & _ & Hl)|(id & _ & Hl)]; by apply (so_lookup s (ao_state s Hok) id). }
  destruct (C i Hr) as [-> D].
  assert (se_has_pending (entry_at s i) = false) as ->; [|done].
  destruct Hi as [Hi|Hi]; [|by apply (Hreg c)].
  pose proof (needs_exec_false _ c Hn i Hi) as Hf. rewrite D in Hf.
  by apply orb_false_iff in Hf as [? _].
Qed.
