(* ===== verification/SimWrite.v ===== *)
(** * Writing single bits and part-selects

    [put_bit] is the word update shared by [sbit] in [sim_eval.c] and by the
    part-select loops of [sim_exec.c]. *)

From S2P Require Import Prelude SimValue SimBits SimArith SimBitwise SimWf SimOrder IR SimState SimEval SimExec.

Local Open Scope Z_scope.
Local Open Scope jz_scope.

Definition put_bit (l : list Z) (i : Z) (c : bool) : list Z :=
  aset l (i / 64)
    ((aget 0 l (i / 64) .& .~ (1 .<< (i mod 64))) .| (bool_to_int c .<< (i mod 64))).

Lemma testbit_bool_shl c s j :
  0 <= s < 64 -> 0 <= j < 64 -> Z.testbit (bool_to_int c .<< s) j = (j =? s) && c.
Proof.
  intros Hs Hj. destruct c; simpl.
  - rewrite testbit_1_shl by lia. by rewrite andb_true_r.
  - rewrite testbit_shl64, Z.testbit_0_l by lia. by rewrite !andb_false_r.
Qed.

Lemma put_bit_ok l i c : words_ok 4 l -> words_ok 4 (put_bit l i c).
Proof.
  intros Hl. apply words_ok_aset; [done|]. apply is_u64_lor; eauto with u64.
Qed.

Lemma put_bit_bit l i c k :
  words_ok 4 l -> 0 <= i < 256 -> 0 <= k ->
  wbit (put_bit l i c) k = if k =? i then c else wbit l k.
Proof.
  intros Hl Hi Hk. pose proof (bit_index_bounds i). pose proof (bit_index_bounds k).
  assert (0 <= i / 64 < 4).
  { pose proof (word_index_nonneg i). pose proof (word_index_lt i 4). lia. }
  unfold put_bit. rewrite wbit_aset by (apply Hl || lia).
  rewrite <- (word_pos_eq k i).
  destruct (Z.eqb_spec (i / 64) (k / 64)) as [E|]; [|done]. simpl.
  rewrite Z.lor_spec, Z.land_spec, testbit_not64, testbit_1_shl, testbit_bool_shl by lia.
  unfold wbit. rewrite E.
  destruct (Z.leb_spec 0 (k mod 64)), (Z.ltb_spec (k mod 64) 64); try lia. simpl.
  destruct (k mod 64 =? i mod 64), (Z.testbit _ _), c; done.
Qed.

Definition put_bits (v : SimValue) (i : Z) (b x z : bool) : SimValue :=
  mkSimValue (put_bit (sv_val v) i b) (put_bit (sv_xmask v) i x)
    (put_bit (sv_zmask v) i z) (sv_width v).

Lemma put_bits_shaped v i b x z : shaped v -> shaped (put_bits v i b x z).
Proof. intros []. constructor; [done|..]; by apply put_bit_ok. Qed.

Lemma put_bits_bits v i b x z k :
  shaped v -> 0 <= i < 256 -> 0 <= k ->
  vbit (put_bits v i b x z) k = (if k =? i then b else vbit v k) /\
  xbit (put_bits v i b x z) k = (if k =? i then x else xbit v k) /\
  zbit (put_bits v i b x z) k = (if k =? i then z else zbit v k).
Proof. intros [] Hi Hk. split_and!; by apply put_bit_bit. Qed.

Lemma put_bits_bit_at v i b x z k :
  shaped v -> 0 <= i < 256 -> 0 <= k ->
  bit_at (put_bits v i b x z) k = if k =? i then bit4 x z b else bit_at v k.
Proof.
  intros Hv Hi Hk. unfold bit_at. destruct (put_bits_bits v i b x z k) as (-> & -> & ->); try done.
  by destruct (k =? i).
Qed.

Definition excl3 (b x z : bool) : Prop :=
  (x = true -> b = false /\ z = false) /\ (z = true -> b = false).

Lemma put_bits_wf v i b x z :
  wf v -> 0 <= i < sv_width v -> excl3 b x z -> wf (put_bits v i b x z).
Proof.
  intros Hv Hi He. pose proof (wf_width v Hv).
  destruct (put_bits_shaped v i b x z (wf_shaped v Hv)). constructor; try done.
  - intros k Hk. simpl in Hk.
    destruct (put_bits_bits v i b x z k) as (-> & -> & ->); [auto with jz|lia|lia|].
    destruct (Z.eqb_spec k i); [lia|]. by apply wf_high.
  - intros k Hk. destruct (put_bits_bits v i b x z k) as (-> & -> & ->); [auto with jz|lia|lia|].
    destruct (Z.eqb_spec k i); [apply He|]. by apply wf_excl.
Qed.

Lemma wf_excl3 v k : wf v -> 0 <= k -> excl3 (vbit v k) (xbit v k) (zbit v k).
Proof. intros Hv Hk. by apply wf_excl. Qed.

(** ** [sbit] *)

Lemma bool_if_int (b : bool) : (if b then 1 else 0) = bool_to_int b.
Proof. by destruct b. Qed.

Lemma land_1_testbit x : negb (x .& 1 =? 0) = Z.testbit x 0.
Proof.
  change (x .& 1) with (Z.land x 1). rewrite <- (Z.shiftr_0_r x) at 1.
  change (Z.shiftr x 0) with (x .>> 0). rewrite testbit_land1 by lia.
  rewrite bool_to_int_eqb0. apply negb_involutive.
Qed.

Lemma eval_sbit_put src idx val i :
  sim_val_has_xz idx = false -> sim_value_to_index idx = Some i ->
  0 <= i < sv_width src ->
  eval_sbit src idx val =
  let b := sim_val_slice val 0 0 in
  put_bits src i (vbit b 0 && (0 <? sv_width b)) (xbit b 0) (zbit b 0).
Proof.
  intros Hx Hi Hb. unfold eval_sbit. rewrite Hx, Hi.
  destruct (Z.ltb_spec i 0), (Z.leb_spec (sv_width src) i); try lia.
  cbn [orb]. cbv zeta. generalize (sim_val_slice val 0 0). intros b.
  rewrite !land_1_testbit, !bool_if_int, sim_val_get_bit_spec.
  rewrite Z.leb_refl, andb_true_l, (andb_comm (0 <? _)). by destruct src.
Qed.

(** ** Part-select writes *)

Lemma copy_bit_put src lsb b target :
  copy_bit src lsb b target =
  put_bits target (lsb + b) (vbit src b) (xbit src b) (zbit src b).
Proof.
  unfold copy_bit. cbv zeta.
  rewrite !testbit_land1 by apply bit_index_bounds. by destruct target.
Qed.

Lemma write_slice_loop target src lsb n :
  wf target -> wf src -> 0 <= lsb -> lsb + Z.of_nat n <= sv_width target ->
  let r := for_up n (copy_bit src lsb) target in
  wf r /\ sv_width r = sv_width target /\
  forall k, 0 <= k ->
    bit_at r k = if (lsb <=? k) && (k <? lsb + Z.of_nat n)
                 then bit_at src (k - lsb) else bit_at target k.
Proof.
  intros Ht Hs Hl. cbv zeta. induction n as [|n IH]; intros Hn.
  { cbn [for_up]. split_and!; [done..|]. intros k Hk.
    destruct (Z.leb_spec lsb k), (Z.ltb_spec k (lsb + Z.of_nat 0)); done || lia. }
  destruct IH as (T1 & T2 & T3); [lia|]. cbn [for_up]. rewrite copy_bit_put.
  set (t := for_up n _ target) in *. pose proof (wf_width target Ht).
  split_and!.
  - apply put_bits_wf; [done|lia|]. apply wf_excl3; [done|lia].
  - done.
  - intros k Hk. rewrite put_bits_bit_at by (auto with jz || lia). rewrite T3 by done.
    destruct (Z.eqb_spec k (lsb + Z.of_nat n)) as [->|].
    + destruct (Z.leb_spec lsb (lsb + Z.of_nat n)),
        (Z.ltb_spec (lsb + Z.of_nat n) (lsb + Z.of_nat (S n))); try lia. cbn [andb].
      by replace (lsb + Z.of_nat n - lsb) with (Z.of_nat n) by lia.
    + destruct (Z.leb_spec lsb k), (Z.ltb_spec k (lsb + Z.of_nat n)),
        (Z.ltb_spec k (lsb + Z.of_nat (S n))); done || lia.
Qed.

Lemma write_slice_bits target src msb lsb :
  wf target -> wf src -> 0 <= lsb <= msb -> msb < sv_width target ->
  let r := write_slice target src msb lsb in
  wf r /\ sv_width r = sv_width target /\
  forall k, 0 <= k ->
    bit_at r k = if (lsb <=? k) && (k <=? msb) then bit_at src (k - lsb) else bit_at target k.
Proof.
  intros Ht Hs Hl Hm. destruct (write_slice_loop target src lsb (Z.to_nat (msb - lsb + 1)))
    as (W1 & W2 & W3); [done|done|lia|lia|].
  cbv zeta. unfold write_slice. split_and!; [done..|]. intros k Hk. rewrite W3 by done.
  destruct (Z.leb_spec lsb k), (Z.ltb_spec k (lsb + Z.of_nat (Z.to_nat (msb - lsb + 1)))),
    (Z.leb_spec k msb); done || lia.
Qed.
