(* ===== verification/SimLiveness.v ===== *)
(** * Acyclic asynchronous logic settles

    A chunk that assigns no signal it reads, and no signal twice on a path,
    holds after one execution.  When the chunks can be ranked so that every
    reader ranks above the writers of its inputs, one more rank holds after
    every pass, whatever the order of the chunks; so settling an acyclic module
    ends. *)

From stdpp Require Import sets.
From S2P Require Import Prelude SimValue SimBits IR SimState SimEval SimDeps SimExec SimExecInv SimSettle SimChunks SimFixpoint SimWrite.


Local Open Scope Z_scope.
Local Open Scope jz_scope.
Local Open Scope settle_scope.

(** ** Writing a part-select twice *)

Section Repeat.
Context {S : Type} (f : Z -> S -> S).
Context (Hidem : forall i s, f i (f i s) = f i s).
Context (Hcomm : forall i j s, i <> j -> f i (f j s) = f j (f i s)).

Lemma for_up_absorb n k s : 0 <= k < Z.of_nat n -> f k (for_up n f s) = for_up n f s.
Proof using All.
  induction n as [|n IH]; intros Hk; [lia|]. cbn [for_up].
  destruct (decide (k = Z.of_nat n)) as [->|Hn]; [apply Hidem|].
  rewrite Hcomm by done. by rewrite IH by lia.
Qed.

Lemma for_up_idem n s : for_up n f (for_up n f s) = for_up n f s.
Proof using All.
  assert (forall m, (m <= n)%nat -> for_up m f (for_up n f s) = for_up n f s) as H; [|by apply H].
  induction m as [|m IH]; intros Hm; [done|]. cbn [for_up].
  rewrite IH by lia. apply for_up_absorb. lia.
Qed.
End Repeat.

Lemma put_word_idem x b c :
  0 <= b < 64 ->
  (((x .& .~ (1 .<< b)) .| (bool_to_int c .<< b)) .& .~ (1 .<< b)) .| (bool_to_int c .<< b) =
  (x .& .~ (1 .<< b)) .| (bool_to_int c .<< b).
Proof.
  intros Hb. apply Z.bits_inj'. intros k Hk.
  rewrite !Z.lor_spec, !Z.land_spec, !Z.lor_spec, !Z.land_spec.
  destruct (Z.testbit x k), (Z.testbit (.~ (1 .<< b)) k), (Z.testbit (bool_to_int c .<< b) k); done.
Qed.

Lemma put_word_comm x b c b' c' :
  0 <= b < 64 -> 0 <= b' < 64 -> b <> b' ->
  (((x .& .~ (1 .<< b)) .| (bool_to_int c .<< b)) .& .~ (1 .<< b')) .| (bool_to_int c' .<< b') =
  (((x .& .~ (1 .<< b')) .| (bool_to_int c' .<< b')) .& .~ (1 .<< b)) .| (bool_to_int c .<< b).
Proof.
  intros Hb Hb' Hne. apply Z.bits_inj'. intros k Hk.
  rewrite !Z.lor_spec, !Z.land_spec, !Z.lor_spec, !Z.land_spec.
  destruct (Z.ltb_spec k 64).
  - rewrite !testbit_not64, !testbit_1_shl, !testbit_bool_shl by lia.
    destruct (Z.leb_spec 0 k), (Z.ltb_spec k 64); try lia.
    destruct (Z.testbit x k), c, c', (Z.eqb_spec k b), (Z.eqb_spec k b'); try done; lia.
  - rewrite !testbit_not64, !testbit_shl64 by lia. destruct (Z.ltb_spec k 64); [lia|].
    by rewrite !andb_false_r, !andb_false_l.
Qed.

Lemma aset_same_index {A} (l : list A) i x y : aset (aset l i x) i y = aset l i y.
Proof. unfold aset. destruct (i <? 0); [done|]. apply list_insert_insert_eq. Qed.

Lemma aset_comm {A} (l : list A) i j x y :
  i <> j -> aset (aset l i x) j y = aset (aset l j y) i x.
Proof.
  intros Hij. unfold aset. destruct (Z.ltb_spec i 0), (Z.ltb_spec j 0); try done.
  apply list_insert_insert_ne. lia.
Qed.

Lemma aset_out {A} (l : list A) i x : ~ (0 <= i < Z.of_nat (length l)) -> aset l i x = l.
Proof.
  intros H. unfold aset. destruct (Z.ltb_spec i 0); [done|]. apply list_insert_ge. lia.
Qed.

Lemma put_bit_idem l i c : put_bit (put_bit l i c) i c = put_bit l i c.
Proof.
  unfold put_bit. destruct (decide (0 <= i / 64 < Z.of_nat (length l))) as [Hi|Hi].
  - rewrite aset_same_index, aget_aset.
    destruct (Z.leb_spec 0 (i / 64)), (Z.ltb_spec (i / 64) (Z.of_nat (length l))); try lia.
    rewrite Z.eqb_refl. cbn [andb]. f_equal. apply put_word_idem. by apply Z.mod_pos_bound.
  - by rewrite !(aset_out l).
Qed.

Lemma put_bit_comm l i c j d : i <> j -> put_bit (put_bit l i c) j d = put_bit (put_bit l j d) i c.
Proof.
  intros Hij. unfold put_bit. destruct (decide (i / 64 = j / 64)) as [E|E].
  - rewrite <- E. destruct (decide (0 <= i / 64 < Z.of_nat (length l))) as [Hi|Hi].
    + rewrite !aset_same_index, !aget_aset.
      destruct (Z.leb_spec 0 (i / 64)), (Z.ltb_spec (i / 64) (Z.of_nat (length l))); try lia.
      rewrite Z.eqb_refl. cbn [andb]. f_equal. apply put_word_comm;
        try (apply Z.mod_pos_bound; lia). intros Em. apply Hij.
      by rewrite (Z.div_mod i 64), (Z.div_mod j 64), E, Em by lia.
    + by rewrite !(aset_out l).
  - rewrite !aget_aset. destruct (Z.eqb_spec (i / 64) (j / 64)), (Z.eqb_spec (j / 64) (i / 64));
      try congruence. rewrite !andb_false_r. by apply aset_comm.
Qed.

Lemma write_slice_idem v src msb lsb :
  write_slice (write_slice v src msb lsb) src msb lsb = write_slice v src msb lsb.
Proof.
  unfold write_slice. apply for_up_idem.
  - intros i t. rewrite !copy_bit_put. unfold put_bits. cbn. by rewrite !put_bit_idem.
  - intros i j t Hij. rewrite !copy_bit_put. unfold put_bits. cbn. f_equal; apply put_bit_comm; lia.
Qed.

(** ** Statements that hold after one execution *)

Definition disjointb (l k : list Z) : bool := forallb (fun i => negb (existsb (Z.eqb i) k)) l.

Lemma disjointb_spec l k : disjointb l k = true <-> forall i, i ∈ l -> i ∉ k.
Proof.
  unfold disjointb. rewrite forallb_forall. split.
  - intros H i Hi Hk. apply list_elem_of_In, H in Hi. apply existsb_eqb in Hk. by rewrite Hk in Hi.
  - intros H i Hi%list_elem_of_In. apply negb_true_iff, not_true_is_false. intros Hk%existsb_eqb.
    by apply (H i).
Qed.

(** No signal is assigned twice on a path, and there are no memory writes. *)
Fixpoint once (stmt : IR_Stmt) : bool :=
  match stmt with
  | NullStmt | StmtAssignment _ => true
  | StmtIf _ t el els => once t && once el && once els
  | StmtSelect _ cs => forallb (fun c => once c.2) cs
  | StmtBlock ss =>
      (fix go ss :=
         match ss with
         | [] => true
         | s :: ss' => once s && forallb (fun s' => disjointb (stmt_writes s) (stmt_writes s')) ss'
                         && go ss'
         end) ss
  | StmtMemWrite _ _ _ _ => false
  end.

Fixpoint once_block (ss : list IR_Stmt) : bool :=
  match ss with
  | [] => true
  | s :: ss' => once s && forallb (fun s' => disjointb (stmt_writes s) (stmt_writes s')) ss'
                  && once_block ss'
  end.

Lemma once_block_eq ss : once (StmtBlock ss) = once_block ss.
Proof. induction ss as [|s ss IH]; [done|]. cbn [once once_block]. by rewrite <- IH. Qed.

Lemma once_no_mem stmt : once stmt = true -> stmt_forall (fun _ => True) no_mem stmt.
Proof.
  induction stmt as [|a|c t el els IHt IHel IHels|sel cs IHcs|ss IHss|m p a d] using IR_Stmt_ind';
    cbn [stmt_forall]; try done.
  - cbn [once]. rewrite !andb_true_iff. tauto.
  - cbn [once]. induction IHcs as [|c cs Hc _ IH]; cbn [forallb foldr]; [done|].
    intros [H1 H2]%andb_true_iff. auto.
  - rewrite once_block_eq. induction IHss as [|s ss Hs _ IH]; cbn [once_block foldr]; [done|].
    rewrite !andb_true_iff. intros [[? ?] ?]. auto.
Qed.

(** The statement the elif loop runs: the else block replaces that of the
    first IF of the chain. *)
Definition elif_stmt (els el : IR_Stmt) : IR_Stmt :=
  match el with StmtIf c t el' _ => StmtIf c t el' els | _ => els end.

Lemma exec_if nba s c t el els :
  sim_exec_stmt nba s (StmtIf c t el els) =
  let '(v, u) := eval_in s c in
  if sim_val_is_true v =? -1 then set_runtime_error true u
  else if sim_val_is_true v =? 1 then sim_exec_stmt nba u t
  else sim_exec_stmt nba u (elif_stmt els el).
Proof. by destruct el. Qed.

Lemma holds_if s c t el els :
  stmt_holds s (StmtIf c t el els) =
  let tc := sim_val_is_true (eval_value s c) in
  if tc =? -1 then true else if tc =? 1 then stmt_holds s t
  else stmt_holds s (elif_stmt els el).
Proof. by destruct el. Qed.

Definition lookup_inj (s : SimModuleState) : Prop :=
  forall id id' i, sim_ctx_lookup s id = Some i -> sim_ctx_lookup s id' = Some i -> id = id'.

Lemma lookup_inj_static s t : same_static s t -> lookup_inj s -> lookup_inj t.
Proof. intros Hst H id id' i. rewrite !(lookup_static s t _ Hst). apply H. Qed.

Lemma exec_current nba s stmt id :
  lookup_inj s -> id ∉ stmt_writes stmt ->
  sig_current (sim_exec_stmt nba s stmt) id = sig_current s id.
Proof.
  intros Hinj Hid. cbn. rewrite (lookup_static s _ id (exec_static nba stmt s)).
  destruct (sim_ctx_lookup s id) as [i|] eqn:E; [|done]. cbn. f_equal. f_equal.
  apply exec_frame. intros (id' & Hin & E'). by rewrite (Hinj _ _ _ E E') in Hid.
Qed.

Lemma exec_value nba s stmt e :
  lookup_inj s -> stmt_forall (fun _ => True) no_mem stmt ->
  (forall i, i ∈ expr_reads e -> i ∉ stmt_writes stmt) ->
  eval_value (sim_exec_stmt nba s stmt) e = eval_value s e.
Proof.
  intros Hinj Hm H. apply value_agree.
  - intros m. cbn. unfold sim_ctx_lookup_mem.
    by rewrite exec_memories, (ss_module _ _ (exec_static nba stmt s)).
  - intros i Hi. apply exec_current; auto.
Qed.

Lemma exec_holds_other s stmt other :
  lookup_inj s -> stmt_forall (fun _ => True) no_mem stmt ->
  (forall i, touched other i -> i ∉ stmt_writes stmt) ->
  stmt_holds (sim_exec_stmt false s stmt) other = stmt_holds s other.
Proof.
  intros Hinj Hm H. apply stmt_holds_agree.
  - intros id. by rewrite (lookup_static s _ id (exec_static false stmt s)).
  - intros m. cbn. unfold sim_ctx_lookup_mem.
    by rewrite exec_memories, (ss_module _ _ (exec_static false stmt s)).
  - intros i Hi. apply exec_current; auto.
Qed.

Lemma words_same_refl a from n : words_same a a from n = true.
Proof. by apply words_same_true. Qed.

Lemma for_up_width n (f : Z -> SimValue -> SimValue) v :
  (forall i r, sv_width (f i r) = sv_width r) -> sv_width (for_up n f v) = sv_width v.
Proof. intros H. induction n as [|n IH]; [done|]. cbn [for_up]. by rewrite H. Qed.

Lemma mask_sv_width v : sv_width (sim_val_mask v) = sv_width v.
Proof. unfold sim_val_mask. rewrite for_up_width by done. by destruct (0 <? _). Qed.

Lemma sext_sv_width v w : sv_width (sim_val_sext v w) = Z.max (sv_width v) w.
Proof.
  unfold sim_val_sext. destruct (Z.leb_spec w (sv_width v)); [lia|]. cbv zeta.
  rewrite Z.max_r by lia. set (n := Z.to_nat _).
  assert (forall r, sv_width (for_up n (fun i r => sim_val_set_bit r (sv_width v + i) 1) r)
    = sv_width r) as E.
  { intros r. apply for_up_width. intros i r'. unfold sim_val_set_bit.
    by destruct (_ || _). }
  destruct (negb _), (negb _); try (rewrite for_up_width by done); by rewrite ?E.
Qed.

Lemma extend_rhs_again k v w : extend_rhs k v (sv_width (extend_rhs k v w)) = extend_rhs k v w.
Proof.
  assert (forall w', sv_width (sim_val_mask (set_width w' v)) = w') as M.
  { intros w'. by rewrite mask_sv_width. }
  assert (sim_val_zext v (sv_width (sim_val_zext v w)) = sim_val_zext v w) as Z1.
  { unfold sim_val_zext. destruct (Z.leb_spec w (sv_width v)) as [H|H]; cbn [sv_width set_width].
    - by rewrite Z.leb_refl.
    - by destruct (Z.leb_spec w (sv_width v)); [lia|]. }
  assert (sv_width (sim_val_sext v w) = Z.max (sv_width v) w) as S0.
  { apply sext_sv_width. }
  assert (sim_val_sext v (sv_width (sim_val_sext v w)) = sim_val_sext v w) as S1.
  { rewrite S0. unfold sim_val_sext. destruct (Z.leb_spec w (sv_width v)) as [H|H].
    - rewrite Z.max_l by lia. by rewrite Z.leb_refl.
    - rewrite Z.max_r by lia. by destruct (Z.leb_spec w (sv_width v)); [lia|]. }
  destruct k; cbn [extend_rhs]; try exact Z1; try exact S1;
    (destruct (Z.eqb_spec (sv_width v) w) as [E|E]; cbn [negb];
     [by rewrite E, Z.eqb_refl | rewrite M; by destruct (Z.eqb_spec (sv_width v) w)]).
Qed.

(** Tables in which ids and entries correspond one to one. *)
Record table_ok (s : SimModuleState) : Prop := {
  tb_state : state_ok s;
  tb_inj : lookup_inj s
}.

Lemma table_ok_static s t : same_static s t -> table_ok s -> table_ok t.
Proof.
  intros Hst [H1 H2]. split; [by apply (state_ok_static s)|by apply (lookup_inj_static s)].
Qed.

Lemma table_ok_same s t : s ≡e t -> table_ok s -> table_ok t.
Proof. intros ->%same_inv [[A B] C]. by split. Qed.

Section Once.
Context (W : list Z).

(** Reads nothing in [W], writes nothing else. *)
Definition within (stmt : IR_Stmt) : Prop :=
  (forall i, i ∈ stmt_reads stmt -> i ∉ W) /\ (forall i, i ∈ stmt_writes stmt -> i ∈ W).

Definition settles (stmt : IR_Stmt) : Prop :=
  forall s, table_ok s -> stmt_holds (sim_exec_stmt false s stmt) stmt = true.

Lemma assign_settles a : within (StmtAssignment a) -> settles (StmtAssignment a).
Proof using Type.
  intros [Hr Hw] s [Hok Hinj]. pose proof (exec_static false (StmtAssignment a) s) as Hst.
  pose proof (exec_value false s (StmtAssignment a) (asgn_rhs a) Hinj I) as Hv.
  specialize (Hv (fun i Hi Hi' => Hr i Hi (Hw i Hi'))).
  cbn [sim_exec_stmt stmt_holds] in *. unfold assign_holds. rewrite Hv.
  rewrite (lookup_static s _ _ Hst). clear Hv Hst. unfold apply_assign.
  destruct (sim_ctx_lookup s (asgn_lhs_signal_id a)) as [i|] eqn:El; [|done].
  pose proof (so_lookup s Hok _ i El) as Hi. rewrite eval_in_split. cbv beta iota zeta.
  set (u := set_runtime_error _ s). set (v := eval_value s (asgn_rhs a)).
  assert (in_range u i) as Hiu by done. assert (entry_at u i = entry_at s i) as Eu by done.
  clearbody u. destruct (asgn_is_sliced a).
  - unfold assign_slice. cbv zeta.
    match goal with |- context [if ?b then update_entry _ _ _ else _] => destruct b end;
      try change (entry_at (mark_dirty i ?k) i) with (entry_at k i);
      rewrite entry_update, Z.eqb_refl by done; cbn [set_current se_current]; rewrite Eu;
      unfold write_slice at 3; rewrite for_up_width by done;
      rewrite write_slice_idem; apply words_same_refl.
  - unfold assign_full. cbv zeta.
    match goal with |- context [if ?b then u else _] => destruct b eqn:E end.
    + by rewrite Eu in *.
    + change (entry_at (mark_dirty i ?k) i) with (entry_at k i).
      rewrite entry_update, Z.eqb_refl by done. cbn [set_current se_current].
      rewrite extend_rhs_again. apply words_same_refl.
Qed.

Lemma cond_kept s u r t e :
  table_ok s -> u ≡e s -> (forall i, i ∈ expr_reads e -> i ∉ W) ->
  (forall i, i ∈ stmt_writes t -> i ∈ W) -> stmt_forall (fun _ => True) no_mem t ->
  r ≡e sim_exec_stmt false u t -> eval_value r e = eval_value s e.
Proof using Type.
  intros Hs Hu Hr Hw Hm ->. symmetry in Hu.
  rewrite exec_value; [by rewrite <- Hu|apply (table_ok_same s u Hu Hs)|done|].
  intros i Hi Hi'. by apply (Hr i Hi), Hw.
Qed.

Definition tame (stmt : IR_Stmt) : Prop :=
  within stmt /\ stmt_forall (fun _ => True) no_mem stmt /\ settles stmt.

Lemma if_settles c t el els :
  (forall i, i ∈ expr_reads c -> i ∉ W) -> tame t -> tame (elif_stmt els el) ->
  settles (StmtIf c t el els).
Proof using Type.
  intros Hc ([_ Wt] & Mt & St) ([_ We] & Me & Se) s Hs. rewrite exec_if, eval_in_split.
  set (u := set_runtime_error _ s). assert (u ≡e s) as Hu by apply error_same.
  assert (table_ok u) as Htu by (by apply (table_ok_same s)).
  rewrite holds_if. cbv zeta. destruct (sim_val_is_true (eval_value s c) =? -1) eqn:E1.
  { assert (eval_value (set_runtime_error true u) c = eval_value s c) as ->
      by (by rewrite (error_same u), Hu). by rewrite E1. }
  destruct (sim_val_is_true (eval_value s c) =? 1) eqn:E2.
  - rewrite (cond_kept s u _ t c Hs Hu Hc Wt Mt (reflexivity _)), E1, E2. by apply St.
  - rewrite (cond_kept s u _ _ c Hs Hu Hc We Me (reflexivity _)), E1, E2. by apply Se.
Qed.

Lemma block_settles ss :
  once_block ss = true -> Forall tame ss -> settles (StmtBlock ss).
Proof using Type.
  intros Ho H s Hs. cbn [sim_exec_stmt stmt_holds]. revert s Hs.
  induction H as [|s0 ss (W0 & M0 & S0) Hss IH]; intros s Hs; [done|].
  cbn [exec_block forallb]. cbn [once_block] in Ho.
  apply andb_true_iff in Ho as [[_ Hd]%andb_true_iff Ho].
  set (t := sim_exec_stmt false s s0).
  assert (table_ok t) as Ht by (apply (table_ok_static s); [apply exec_static|done]).
  apply andb_true_iff. split; [|by apply IH].
  rewrite <- (S0 s Hs). fold t. clear IH Ho. generalize t Ht. clear t Ht s Hs.
  induction Hss as [|s1 ss (W1 & M1 & _) Hss IH]; intros t Ht; [done|]. cbn [exec_block].
  cbn [forallb] in Hd. apply andb_true_iff in Hd as [Hd1 Hd].
  rewrite IH by (done || (apply (table_ok_static t); [apply exec_static|done])).
  apply exec_holds_other; [apply Ht|done|]. intros i [Hi|Hi] Hi'.
  - by apply (proj1 W0 i Hi), (proj2 W1).
  - rewrite disjointb_spec in Hd1. by apply (Hd1 i).
Qed.

Lemma cases_settle sel cs :
  within (StmtSelect sel cs) -> stmt_forall (fun _ => True) no_mem (StmtSelect sel cs) ->
  Forall (fun c => tame c.2) cs -> settles (StmtSelect sel cs).
Proof using Type.
  intros [Hr Hw] Hm H s Hs. cbn [sim_exec_stmt stmt_holds]. rewrite eval_in_split.
  set (u := set_runtime_error _ s). assert (u ≡e s) as Hu by apply error_same.
  clearbody u. set (v := eval_value s sel).
  assert (forall i, i ∈ expr_reads sel -> i ∉ W) as Hsel
    by (intros i Hi; apply Hr, select_deps; by left).
  destruct (sim_val_has_xz v) eqn:Ex.
  { assert (eval_value (set_runtime_error true u) sel = v) as ->
      by (by rewrite (error_same u), Hu). by rewrite Ex. }
  assert (exec_cases (sim_exec_stmt false) v cs u ≡e sim_exec_stmt false u (StmtSelect sel cs))
    as Hrun.
  { cbn [sim_exec_stmt]. rewrite eval_in_split.
    assert (eval_value u sel = v) as -> by (by rewrite Hu). rewrite Ex.
    by apply exec_cases_respects. }
  rewrite (cond_kept s u _ _ sel Hs Hu Hsel Hw Hm Hrun). fold v. rewrite Ex.
  set (r := exec_cases (sim_exec_stmt false) v cs u) in *.
  assert (Forall (fun c => eval_value r c.1 = eval_value s c.1) cs) as Hcv.
  { apply Forall_forall. intros [cv b] Hin. apply (cond_kept s u _ _ cv Hs Hu) in Hrun; try done.
    intros i Hi. apply Hr, select_deps. right. apply Exists_exists. exists (cv, b). by split; [|left]. }
  assert (r = exec_cases (sim_exec_stmt false) v cs u) as Er by done. clearbody r.
  clear Hr Hw Hm Hrun. revert u Hu Er.
  induction H as [|[cv b] cs (_ & _ & Sb) _ IH]; intros u Hu Er; [done|].
  apply Forall_cons in Hcv as [Ecv Hcv]. cbn [exec_cases cases_hold fst snd] in *.
  destruct (expr_is_null cv).
  { subst r. apply Sb. by apply (table_ok_same s). }
  rewrite Ecv. rewrite eval_in_split in Er.
  assert (eval_value u cv = eval_value s cv) as E' by (by rewrite Hu). rewrite E' in Er.
  set (u' := set_runtime_error _ u) in Er.
  assert (u' ≡e s) as Hu' by (etrans; [apply error_same|done]). clearbody u'.
  destruct (_ =? 1) in Er |- *.
  { subst r. apply Sb. by apply (table_ok_same s). }
  by apply (IH Hcv u').
Qed.

Lemma within_if c t el els :
  within (StmtIf c t el els) <->
  (forall i, i ∈ expr_reads c -> i ∉ W) /\ within t /\ within el /\ within els.
Proof using Type.
  unfold within. split.
  - intros [H1 H2]. split_and!; intros i Hi; (apply H1 || apply H2);
      destruct (if_deps c t el els i) as [D1 D2]; (apply D1 || apply D2); tauto.
  - intros (H & [A1 A2] & [B1 B2] & [C1 C2]). split; intros i Hi.
    + apply if_deps in Hi as [|[|[|]]]; auto.
    + apply if_deps in Hi as [|[|]]; auto.
Qed.

Lemma once_tame stmt : once stmt = true -> within stmt -> tame stmt.
Proof using Type.
  intros Ho Hw. enough (tame stmt /\
    (forall els, tame els -> tame (elif_stmt els stmt))) as [? _] by done.
  revert Ho Hw. induction stmt as [|a|c t el els IHt IHel IHels|sel cs IHcs|ss IHss|m p a d]
    using IR_Stmt_ind'; intros Ho Hw; pose proof (once_no_mem _ Ho) as Hm.
  - split; [|done]. split_and!; [done|done|]. by intros s Hs.
  - split; [|done]. split_and!; [done|done|]. by apply assign_settles.
  - apply within_if in Hw as (Wc & Wt & Wel & Wels). cbn [once] in Ho.
    apply andb_true_iff in Ho as [[Ot Oel]%andb_true_iff Oels].
    destruct (IHt Ot Wt) as [Tt _]. destruct (IHel Oel Wel) as [Tel Eel].
    destruct (IHels Oels Wels) as [Tels _].
    assert (forall els', tame els' -> tame (StmtIf c t el els')) as H; [|split; auto].
    intros els' T'. split_and!.
    + apply within_if. split_and!; [done..|]. apply T'.
    + cbn [stmt_forall]. split_and!; [apply Tt|apply Tel|apply T'].
    + apply if_settles; auto.
  - split; [|done]. split_and!; [done|done|]. apply cases_settle; [done|done|].
    assert (forall c, c ∈ cs -> within c.2) as Hc.
    { intros c Hin. split; intros i Hi.
      - apply Hw, select_deps. right. apply Exists_exists. exists c. by split; [|right].
      - apply Hw, select_deps. apply Exists_exists. by exists c. }
    clear Hm. cbn [once] in Ho. rewrite forallb_forall in Ho.
    rewrite Forall_forall in *. intros c Hin. apply IHcs; [done| |by apply Hc].
    apply Ho. by apply list_elem_of_In.
  - split; [|done]. split_and!; [done|done|]. rewrite once_block_eq in Ho.
    apply block_settles; [done|].
    assert (forall s, s ∈ ss -> within s) as Hs.
    { intros s Hin. split; intros i Hi; apply Hw, block_deps; apply Exists_exists; by exists s. }
    clear Hm Hw. induction IHss as [|s ss H1 _ IH]; [done|]. cbn [once_block] in Ho.
    apply andb_true_iff in Ho as [[O1 _]%andb_true_iff O2]. constructor.
    + apply H1; [done|]. apply Hs. by left.
    + apply IH; [done|]. intros x Hx. apply Hs. by right.
  - done.
Qed.
End Once.

(** Statements that read none of the signals they assign settle at once. *)
Lemma once_settles stmt :
  once stmt = true -> disjointb (stmt_reads stmt) (stmt_writes stmt) = true -> settles stmt.
Proof.
  intros Ho Hd. apply (once_tame (stmt_writes stmt)); [done|]. split; [|done].
  by apply disjointb_spec.
Qed.

(** * Settling an acyclic module terminates

    The loop of [sim_settle_combinational] needs one pass per rank of the
    asynchronous chunks and one more to see that nothing changes. *)


Local Open Scope Z_scope.
Local Open Scope settle_scope.

(** A ranking of the chunks: readers above writers, all below [bound]. *)
Record acyclic (rank : SimAsyncChunk -> nat) (bound : nat) (s : SimModuleState) : Prop := {
  ay_table : table_ok s;
  ay_rank : forall c d i, c ∈ ctx_async_chunks s -> d ∈ ctx_async_chunks s ->
    i ∈ ac_write_indices c -> i ∈ ac_read_indices d -> (rank c < rank d)%nat;
  ay_bound : forall c, c ∈ ctx_async_chunks s -> (rank c < bound)%nat;
  ay_once : forall c, c ∈ ctx_async_chunks s ->
    once (ac_stmt c) = true /\ disjointb (stmt_reads (ac_stmt c)) (stmt_writes (ac_stmt c)) = true
}.

Section Acyclic.
Context (rank : SimAsyncChunk -> nat) (bound : nat).

Lemma acyclic_static s t : same_static s t -> acyclic rank bound s -> acyclic rank bound t.
Proof using Type.
  intros Hst [H1 H2 H3 H4].
  constructor; rewrite ?(ss_chunks _ _ Hst); [by apply (table_ok_static s)|done..].
Qed.

Definition ranked (k : nat) (s : SimModuleState) : Prop :=
  forall c, c ∈ ctx_async_chunks s -> (rank c < k)%nat -> chunk_holds s c = true.

Lemma chunk_holds_same s t c : s ≡e t -> chunk_holds s c = chunk_holds t c.
Proof using Type. unfold chunk_holds. by intros ->. Qed.

(** Executing one chunk keeps the chunks that do not depend on it, and makes
    the chunk itself hold. *)
Lemma exec_keeps_rank k s c d :
  async_ok s -> acyclic rank bound s -> ranked k s ->
  c ∈ ctx_async_chunks s -> d ∈ ctx_async_chunks s -> (rank c <= k)%nat ->
  chunk_holds s c = true \/ c = d ->
  chunk_holds (sim_exec_stmt false s (ac_stmt d)) c = true.
Proof using Type.
  intros Hok Hac Hr Hc Hd Hk Hh. destruct (chunks_stmts s Hok d Hd) as [_ Hf].
  pose proof (ay_once _ _ s Hac d Hd) as [Ho Hdj].
  pose proof (once_settles (ac_stmt d) Ho Hdj s (ay_table _ _ s Hac)) as Hself.
  destruct Hh as [Hh| ->]; [|exact Hself].
  destruct (decide (rank d < k)%nat) as [Hlt|Hge].
  { rewrite (chunk_holds_same _ s); [done|].
    apply (exec_agrees_stmt s (ao_state s Hok) (ac_stmt d) Hf); [done|]. by apply Hr. }
  destruct (disjointb (ac_write_indices c) (ac_write_indices d)) eqn:Ed.
  - rewrite disjointb_spec in Ed.
    rewrite (chunk_holds_agree s); [done|done|apply exec_static| |done|].
    { by apply exec_memories, once_no_mem. }
    intros i Hi. rewrite exec_frame; [done|].
    rewrite <- (chunk_writes s d i Hok Hd). intros Hw. destruct Hi as [Hi|Hi]; [|by apply (Ed i)].
    pose proof (ay_rank _ _ s Hac d c i Hd Hc Hw Hi). lia.
  - assert (exists i, i ∈ ac_write_indices c /\ i ∈ ac_write_indices d) as (i & H1 & H2).
    { unfold disjointb in Ed. clear -Ed. induction (ac_write_indices c) as [|i l IH]; [done|].
      cbn [forallb] in Ed. destruct (existsb (Z.eqb i) (ac_write_indices d)) eqn:E.
      - apply existsb_eqb in E. exists i. split; [by left|done].
      - destruct (IH Ed) as (j & Hj & Hj'). exists j. split; [by right|done]. }
    by rewrite (ao_driver s Hok c d i Hc Hd H1 H2).
Qed.

Lemma exec_all_rank k cs s :
  async_ok s -> acyclic rank bound s -> ranked k s ->
  (forall c, c ∈ cs -> c ∈ ctx_async_chunks s) ->
  forall c, c ∈ ctx_async_chunks s -> (rank c <= k)%nat -> chunk_holds s c = true \/ c ∈ cs ->
  chunk_holds (exec_all s cs) c = true.
Proof using Type.
  unfold exec_all. revert s. induction cs as [|d cs IH]; intros s Hok Hac Hr Hin c Hc Hk Hh;
    cbn [fold_left].
  { destruct Hh as [|Hh]; [done|by apply not_elem_of_nil in Hh]. }
  assert (d ∈ ctx_async_chunks s) as Hd by (apply Hin; by left).
  pose proof (exec_static false (ac_stmt d) s) as Hst.
  pose proof (ss_chunks _ _ Hst) as Hcs.
  apply IH; rewrite ?Hcs; try done.
  - by apply (async_ok_static s).
  - by apply (acyclic_static s).
  - intros e. rewrite Hcs. intros He Hlt. apply (exec_keeps_rank k); try done; [lia|].
    left. by apply Hr.
  - intros e He. apply Hin. by right.
  - destruct Hh as [Hh|[->|Hh]%elem_of_cons]; [left|left|by right].
    + apply (exec_keeps_rank k); try done. by left.
    + apply (exec_keeps_rank k); try done. by right.
Qed.

(** One more rank holds after a pass. *)
Lemma settle_self_ranked k s :
  async_ok s -> skip_ok s -> acyclic rank bound s -> ranked k s ->
  ranked (S k) (settle_self s).
Proof using Type.
  intros Hok Hs Hac Hr. destruct (settle_self_spec s Hok Hs) as (Heq & Hst & _).
  intros c. rewrite (ss_chunks _ _ Hst). intros Hc Hk.
  rewrite (chunk_holds_same _ _ c Heq), <- exec_all_block by done.
  apply (exec_all_rank k); try done; [lia|by right].
Qed.

Lemma ranked_all s : acyclic rank bound s -> ranked bound s -> all_hold s.
Proof using Type. intros Hac Hr c Hc. apply Hr; [done|]. by apply (ay_bound _ _ s Hac). Qed.

Lemma ranked_flags k s b : ranked k s -> ranked k (set_settle_dirty b s).
Proof using Type.
  intros H c Hc Hk. unfold chunk_holds. rewrite (stmt_holds_flags s) by done. by apply H.
Qed.

Lemma acyclic_clear s : acyclic rank bound s -> acyclic rank bound (set_settle_dirty false s).
Proof using Type.
  intros [[[A B] C] D E F]. constructor; try done.
Qed.

Lemma settle_loop_acyclic m s k :
  async_ok s -> skip_ok s -> acyclic rank bound s -> ranked k s -> (bound <= k + m)%nat ->
  (settle_loop (S m) (mkContext s [])).1 = 0.
Proof using Type.
  revert s k. induction m as [|m IH]; intros s k Hok Hs Hac Hr Hb;
    cbn [settle_loop]; cbv zeta; rewrite settle_once_leaf; cbn [ctx_state];
    destruct (clear_root_ok s Hok Hs) as [Hok' Hs'];
    pose proof (ranked_flags k s false Hr) as Hr'; pose proof (acyclic_clear s Hac) as Hac';
    set (s' := set_settle_dirty false s) in *;
    destruct (settle_self_spec s' Hok' Hs') as (Heq & Hst & Hu & _).
  - assert (ranked bound s') as Hb' by (intros c Hc Hlt; apply Hr'; [done|lia]).
    assert (ctx_settle_dirty (settle_self s') = false) as ->; [|done].
    rewrite Heq, (all_hold_exec s' Hok' (ranked_all s' Hac' Hb') s'); done.
  - destruct (ctx_settle_dirty (settle_self s')); cbn [negb]; [|done].
    apply (IH _ (S k)); [by apply (async_ok_static s')|done|by apply (acyclic_static s')| |lia].
    by apply settle_self_ranked.
Qed.
End Acyclic.
