(* ===== verification/SimInit.v ===== *)
(** * The state a context starts in

    The pseudo-random generator never gets stuck, the id map is a partial
    inverse of the signal table, every value is well formed at its declared
    width, and every dirty flag is up. *)

From stdpp Require Import sets.
From S2P Require Import Prelude SimValue SimBits SimArith SimWf IR Util SimState SimEval SimDeps SimExec SimExecInv SimSettle SimChunks SimFixpoint SimLiveness.

Local Open Scope Z_scope.

(** ** The generator *)

Definition is_u32 (x : Z) : Prop := 0 <= x < 2 ^ 32.

Lemma u32_range x : is_u32 (u32 x).
Proof. unfold is_u32, u32. apply Z.mod_pos_bound. lia. Qed.

Lemma is_u32_bits x : is_u32 x <-> 0 <= x /\ forall k, 32 <= k -> Z.testbit x k = false.
Proof.
  unfold is_u32. split.
  - intros H. split; [lia|]. intros k Hk. apply Z.bits_above_log2; [lia|].
    destruct (decide (x = 0)) as [->|]; [simpl; lia|].
    enough (Z.log2 x < 32) by lia. apply Z.log2_lt_pow2; lia.
  - intros [H1 H2]. split; [done|]. destruct (decide (x = 0)) as [->|]; [lia|].
    apply Z.log2_lt_pow2; [lia|]. apply Z.nle_gt. intros H. specialize (H2 _ H).
    rewrite Z.bit_log2 in H2 by lia. done.
Qed.

Lemma lxor_u32 x y : is_u32 x -> is_u32 y -> is_u32 (Z.lxor x y).
Proof.
  rewrite !is_u32_bits. intros [H1 H2] [H3 H4]. split.
  - apply Z.lxor_nonneg. lia.
  - intros k Hk. by rewrite Z.lxor_spec, H2, H4.
Qed.

Lemma testbit_u32 x k : Z.testbit (u32 x) k = (k <? 32) && Z.testbit x k.
Proof.
  unfold u32. destruct (Z.ltb_spec k 32).
  - destruct (Z.ltb_spec k 0); [by rewrite !Z.testbit_neg_r|]. by rewrite Z.mod_pow2_bits_low.
  - by rewrite Z.mod_pow2_bits_high by lia.
Qed.

(** A shift by at least one place and an exclusive or are injective at zero. *)
Lemma xorshift_left_nonzero x k :
  is_u32 x -> 0 < k -> x <> 0 -> Z.lxor x (u32 (Z.shiftl x k)) <> 0.
Proof.
  intros Hx Hk Hne E. apply Z.lxor_eq in E. apply Hne, Z.bits_inj'. intros j Hj. rewrite Z.bits_0.
  assert (forall n j, (Z.to_nat j <= n)%nat -> 0 <= j -> Z.testbit x j = false) as H.
  { induction n as [|n IH]; intros i Hn Hi; rewrite E, testbit_u32, Z.shiftl_spec by done;
      (destruct (decide (i < k)); [by rewrite (Z.testbit_neg_r x (i - k)), andb_false_r by lia|]).
    - lia.
    - rewrite (IH (i - k)) by lia. by rewrite andb_false_r. }
  by apply (H (Z.to_nat j)).
Qed.

Lemma xorshift_right_nonzero x k :
  is_u32 x -> 0 < k -> x <> 0 -> Z.lxor x (Z.shiftr x k) <> 0.
Proof.
  intros Hx Hk Hne E. apply Z.lxor_eq in E.
  assert (Z.shiftr x k < x); [|lia]. rewrite Z.shiftr_div_pow2 by lia. unfold is_u32 in Hx.
  apply Z.div_lt; [lia|]. apply Z.pow_gt_1; lia.
Qed.

Lemma shiftr_u32 x k : is_u32 x -> 0 <= k -> is_u32 (Z.shiftr x k).
Proof.
  rewrite !is_u32_bits. intros [H1 H2] Hk. split; [by apply Z.shiftr_nonneg|].
  intros i Hi. rewrite Z.shiftr_spec by lia. apply H2. lia.
Qed.

Lemma rng_next_range s : is_u32 s -> is_u32 (sim_rng_next s) /\ sim_rng_next s <> 0.
Proof.
  intros Hs. unfold sim_rng_next. cbv zeta.
  set (x0 := if s =? 0 then 1 else s).
  assert (is_u32 x0 /\ x0 <> 0) as [U0 N0].
  { subst x0. destruct (Z.eqb_spec s 0); [split; [by unfold is_u32|done]|done]. }
  set (x1 := Z.lxor x0 (u32 (Z.shiftl x0 13))).
  assert (is_u32 x1) as U1 by (apply lxor_u32; [done|apply u32_range]).
  assert (x1 <> 0) as N1 by (by apply xorshift_left_nonzero).
  set (x2 := Z.lxor x1 (Z.shiftr x1 17)).
  assert (is_u32 x2) as U2 by (apply lxor_u32; [done|by apply shiftr_u32]).
  assert (x2 <> 0) as N2 by (by apply xorshift_right_nonzero).
  split; [apply lxor_u32; [done|apply u32_range]|by apply xorshift_left_nonzero].
Qed.

(** ** Initial values *)

Lemma init_list_Forall2 {A B} (f : A -> Z -> B * Z) (P : A -> B -> Prop) (Q : Z -> Prop) l rng :
  (forall a r, a ∈ l -> Q r -> P a (f a r).1 /\ Q (f a r).2) -> Q rng ->
  Forall2 P l (init_list f l rng).1 /\ Q (init_list f l rng).2.
Proof.
  intros H Hr. unfold init_list.
  assert (forall pre bs rng, Forall2 P pre bs -> Q rng -> (forall a, a ∈ pre ++ l -> a ∈ pre ++ l) ->
    let r := fold_left (fun acc a => let '(bs, rng) := acc in
      let '(b, rng) := f a rng in (bs ++ [b], rng)) l (bs, rng) in
    Forall2 P (pre ++ l) r.1 /\ Q r.2) as E; [|by apply (E [] [])].
  clear Hr. induction l as [|a l IH]; intros pre bs r Hp Hr _; cbn [fold_left].
  { by rewrite app_nil_r. }
  destruct (H a r ltac:(by left) Hr) as [Ha Hr']. destruct (f a r) as [b r'].
  rewrite cons_middle, app_assoc. apply IH; try done.
  - intros. apply H; [by right|done].
  - apply Forall2_app; [done|]. by constructor.
Qed.

Lemma random_value_shape w r :
  0 < w <= 256 -> is_u32 r ->
  shape (random_value w r).1 w /\ known (random_value w r).1 /\ is_u32 (random_value w r).2.
Proof.
  intros Hw Hr. destruct (rng_next_range r Hr) as [U1 _].
  destruct (rng_next_range _ U1) as [U2 _]. unfold random_value. cbv zeta.
  assert (forall x, is_u64 x -> shape (sim_val_from_uint x w) w /\ known (sim_val_from_uint x w)) as H.
  { intros x Hx. pose proof (from_uint_num x w Hw Hx) as E.
    split; [by eapply is_num_shape|by eapply in_known]. }
  destruct (32 <? w); cbn [fst snd].
  - destruct (H (Z.lor (sim_rng_next r) (shl64 (sim_rng_next (sim_rng_next r)) 32))) as [A B];
      [|by split_and!].
    apply is_u64_lor; [unfold is_u64, is_u32 in *; lia|auto with u64].
  - destruct (H (sim_rng_next r)) as [A B]; [unfold is_u64, is_u32 in *; lia|by split_and!].
Qed.

(** A value of the declared width without unknown bits. *)
Definition fresh_value (v : SimValue) (w : Z) : Prop := shape v w /\ known v.

Lemma zero_fresh w : 0 < w <= 256 -> fresh_value (sim_val_zero w) w.
Proof. intros H. split; [by apply zero_shape|by eapply in_known, zero_is_num]. Qed.

Record fresh_entry (sig : IR_Signal) (e : SimSignalEntry) : Prop := {
  fe_id : se_signal_id e = sig_id sig;
  fe_current : fresh_value (se_current e) (sig_width sig);
  fe_next : fresh_value (se_next e) (sig_width sig);
  fe_pending : se_has_pending e = false
}.

Definition sig_width_ok (sig : IR_Signal) : Prop := 0 < sig_width sig.

Lemma init_signal_fresh sig r :
  0 < sig_width sig <= 256 -> is_u32 r ->
  fresh_entry sig (init_signal sig r).1 /\ is_u32 (init_signal sig r).2.
Proof.
  intros Hw Hr. unfold init_signal. destruct (random_value_shape _ r Hw Hr) as (R1 & R2 & R3).
  pose proof (zero_fresh _ Hw) as Hz.
  destruct (sig_kind sig); destruct (random_value (sig_width sig) r) as [v r'];
    (split; [|done]); constructor; done.
Qed.

Record fresh_memory (mem : IR_Memory) (me : SimMemEntry) : Prop := {
  fm_id : me_mem_id me = mem_id mem;
  fm_width : me_word_width me = mem_word_width mem;
  fm_depth : me_depth me = mem_depth mem;
  fm_bounds : 0 < mem_word_width mem <= 256;
  fm_length : length (me_cells me) = Z.to_nat (mem_depth mem);
  fm_cells : Forall (fun v => fresh_value v (mem_word_width mem)) (me_cells me)
}.

Lemma init_memory_fresh mem r :
  0 < mem_word_width mem <= 256 -> is_u32 r ->
  fresh_memory mem (init_memory mem r).1 /\ is_u32 (init_memory mem r).2.
Proof.
  intros Hw Hr. unfold init_memory.
  assert (forall r, is_u32 r -> fresh_value (init_cell mem r).1 (mem_word_width mem) /\
    is_u32 (init_cell mem r).2) as Hc.
  { intros q Hq. pose proof (zero_fresh _ Hw).
    destruct (random_value_shape _ q Hw Hq) as (R1 & R2 & R3).
    unfold init_cell. by destruct (mem_init_kind mem). }
  destruct (init_list_Forall2 (fun (_ : unit) rng => init_cell mem rng)
    (fun _ v => fresh_value v (mem_word_width mem)) is_u32
    (replicate (Z.to_nat (mem_depth mem)) tt) r) as [H1 H2]; [intros; by apply Hc|done|].
  destruct (init_list _ _ r) as [cells r']. cbn [fst snd] in *. split; [|done].
  pose proof (Forall2_length _ _ _ H1) as Hl. rewrite length_replicate in Hl.
  constructor; try done.
  apply Forall_forall. intros v Hv. apply list_elem_of_lookup in Hv as [k Hk].
  by destruct (Forall2_lookup_r _ _ _ _ _ H1 Hk) as (? & _ & ?).
Qed.

(** ** The id map *)

Lemma max_signal_id_ge sigs sig : sig ∈ sigs -> sig_id sig <= max_signal_id sigs.
Proof.
  unfold max_signal_id.
  assert (forall m, m <= fold_left (fun m sig => if m <? sig_id sig then sig_id sig else m) sigs m /\
    (sig ∈ sigs -> sig_id sig <=
       fold_left (fun m sig => if m <? sig_id sig then sig_id sig else m) sigs m)) as H;
    [|by apply H].
  induction sigs as [|x sigs IH]; intros m; cbn [fold_left].
  { split; [lia|]. by intros ?%not_elem_of_nil. }
  destruct (IH (if m <? sig_id x then sig_id x else m)) as [A B]. split.
  - destruct (Z.ltb_spec m (sig_id x)); lia.
  - intros [->|Hin]%elem_of_cons; [|by apply B]. destruct (Z.ltb_spec m (sig_id x)); lia.
Qed.

Lemma max_signal_id_lower sigs : -1 <= max_signal_id sigs.
Proof.
  unfold max_signal_id.
  assert (forall m, m <= fold_left (fun m sig => if m <? sig_id sig then sig_id sig else m) sigs m)
    as H; [|done].
  induction sigs as [|x sigs IH]; intros m; cbn [fold_left]; [lia|].
  specialize (IH (if m <? sig_id x then sig_id x else m)). destruct (Z.ltb_spec m (sig_id x)); lia.
Qed.

(** What the map holds after the signals [pre] have been entered. *)
Definition id_map_spec (pre : list IR_Signal) (max_id : Z) (m : list Z) : Prop :=
  length m = Z.to_nat (max_id + 1) /\
  (forall id i, aget (-1) m id = i -> 0 <= i ->
     exists sig, pre !! Z.to_nat i = Some sig /\ sig_id sig = id) /\
  (forall sig, sig ∈ pre -> 0 <= sig_id sig <= max_id -> 0 <= aget (-1) m (sig_id sig)).

Lemma build_id_map_spec sigs max_id :
  -1 <= max_id -> id_map_spec sigs max_id (build_id_map sigs max_id).
Proof.
  intros Hmax. unfold build_id_map.
  assert (forall l pre m, id_map_spec pre max_id m ->
    id_map_spec (pre ++ l) max_id (fold_left (fun acc sig => let '(m, i) := acc in
      ((if (0 <=? sig_id sig) && (sig_id sig <=? max_id) then aset m (sig_id sig) i else m), i + 1))
      l (m, Z.of_nat (length pre))).1) as H.
  { induction l as [|x l IH]; intros pre m Hm; cbn [fold_left]; [by rewrite app_nil_r|].
    rewrite cons_middle, app_assoc.
    replace (Z.of_nat (length pre) + 1) with (Z.of_nat (length (pre ++ [x])))
      by (rewrite length_app; simpl; lia).
    apply IH. destruct Hm as (M1 & M2 & M3).
    set (b := (0 <=? sig_id x) && (sig_id x <=? max_id)).
    assert (forall id, aget (-1) (if b then aset m (sig_id x) (Z.of_nat (length pre)) else m) id =
      if b && (sig_id x =? id) then Z.of_nat (length pre) else aget (-1) m id) as Hget.
    { intros id. subst b. destruct (Z.leb_spec 0 (sig_id x)), (Z.leb_spec (sig_id x) max_id);
        cbn [andb]; try done. rewrite aget_aset.
      destruct (Z.leb_spec 0 (sig_id x)), (Z.ltb_spec (sig_id x) (Z.of_nat (length m))); try lia.
      done. }
    split_and!.
    - destruct b; [by rewrite length_aset|done].
    - intros id i. rewrite Hget. destruct (b && (sig_id x =? id)) eqn:E.
      + apply andb_true_iff in E as [_ <-%Z.eqb_eq]. intros <- _. exists x.
        rewrite Nat2Z.id. split; [|done]. by apply list_lookup_middle.
      + intros Hi H0. destruct (M2 id i Hi H0) as (sig & Hl & Hs). exists sig.
        split; [by apply lookup_app_l_Some|done].
    - intros sig Hin Hid. rewrite Hget. destruct (b && (sig_id x =? sig_id sig)) eqn:E; [lia|].
      apply elem_of_app in Hin as [Hin| ->%list_elem_of_singleton]; [by apply M3|].
      subst b. rewrite Z.eqb_refl, andb_true_r in E. lia. }
  apply (H sigs []). split_and!.
  - apply length_replicate.
  - intros id i. rewrite aget_replicate. lia.
  - by intros sig ?%not_elem_of_nil.
Qed.

(** ** One module instance *)

Definition positive_widths (m : IR_Module) : Prop :=
  (forall sig, sig ∈ mod_signals m -> 0 < sig_width sig) /\
  (forall mem, mem ∈ mod_memories m -> 0 < mem_word_width mem).

(** What a state looks like when its context has just been created. *)
Record created (m : IR_Module) (s : SimModuleState) : Prop := {
  cr_module : ctx_module s = m;
  cr_table : table_ok s;
  cr_lookup : forall id i, sim_ctx_lookup s id = Some i ->
    exists sig, mod_signals m !! Z.to_nat i = Some sig /\ sig_id sig = id;
  cr_defined : forall sig, sig ∈ mod_signals m -> 0 <= sig_id sig ->
    is_Some (sim_ctx_lookup s (sig_id sig));
  cr_chunks : ctx_async_chunks s = ctx_async_chunks (build_async_chunks s);
  cr_dirty : forall i, in_range s i -> aget false (ctx_sig_dirty s) i = true;
  cr_error : ctx_runtime_error s = false;
  cr_signals : Forall2 fresh_entry (mod_signals m) (ctx_signals s);
  cr_memories : Forall2 fresh_memory (mod_memories m) (ctx_memories s)
}.

Lemma aget_replicate_true n i : 0 <= i < Z.of_nat n -> aget false (replicate n true) i = true.
Proof.
  intros H. unfold aget. destruct (Z.ltb_spec i 0); [lia|]. rewrite nth_lookup.
  by rewrite lookup_replicate_2 by lia.
Qed.

Lemma memory_accepted_width mem : memory_accepted mem = true -> mem_word_width mem <= 256.
Proof.
  unfold memory_accepted. change max_sim_width with 256.
  destruct (Z.ltb_spec 256 (mem_word_width mem)); [done|lia].
Qed.

(** The fields of a freshly allocated state, before its chunks are built. *)
Lemma init_state_fields m seed :
  forallb signal_accepted (mod_signals m) = true ->
  forallb memory_accepted (mod_memories m) = true ->
  positive_widths m -> is_u32 seed ->
  let s := init_state m seed in
  Forall2 fresh_entry (mod_signals m) (ctx_signals s) /\
  Forall2 fresh_memory (mod_memories m) (ctx_memories s) /\
  ctx_module s = m /\ ctx_sig_id_map s = build_id_map (mod_signals m) (ctx_max_sig_id s) /\
  ctx_max_sig_id s = max_signal_id (mod_signals m) /\ ctx_runtime_error s = false /\
  ctx_sig_dirty s = replicate (length (mod_signals m)) true.
Proof.
  intros Hs Hm [Ws Wm] Hseed. rewrite !forallb_forall in *. cbv zeta. unfold init_state.
  destruct (init_list_Forall2 init_signal fresh_entry is_u32 (mod_signals m) seed) as [F1 U1];
    [|done|].
  { intros sig r Hin Hr. apply init_signal_fresh; [|done]. split; [by apply Ws|].
    apply Z.leb_le. change 256 with max_sim_width. by apply Hs, list_elem_of_In. }
  destruct (init_list init_signal _ seed) as [signals r1]. cbn [fst snd] in *.
  destruct (init_list_Forall2 init_memory fresh_memory is_u32 (mod_memories m) r1) as [F2 U2];
    [|done|].
  { intros mem r Hin Hr. apply init_memory_fresh; [|done]. split; [by apply Wm|].
    by apply memory_accepted_width, Hm, list_elem_of_In. }
  destruct (init_list init_memory _ r1) as [memories r2]. by split_and!.
Qed.

(** Lookups through a map built from the signals themselves. *)
Lemma id_map_lookup sigs s :
  ctx_max_sig_id s = max_signal_id sigs ->
  ctx_sig_id_map s = build_id_map sigs (ctx_max_sig_id s) ->
  (forall id i, sim_ctx_lookup s id = Some i ->
     0 <= i /\ exists sig, sigs !! Z.to_nat i = Some sig /\ sig_id sig = id) /\
  (forall sig, sig ∈ sigs -> 0 <= sig_id sig -> is_Some (sim_ctx_lookup s (sig_id sig))).
Proof.
  intros Emax Emap.
  destruct (build_id_map_spec sigs (ctx_max_sig_id s)) as (M1 & M2 & M3).
  { rewrite Emax. apply max_signal_id_lower. }
  unfold sim_ctx_lookup. cbv zeta. rewrite Emap. split.
  - intros id i. destruct (_ && _); [|done].
    destruct (Z.leb_spec 0 (aget (-1) (build_id_map sigs (ctx_max_sig_id s)) id)) as [H0|]; [|done].
    intros [= <-]. split; [done|]. by apply (M2 id _ eq_refl).
  - intros sig Hin H0. pose proof (max_signal_id_ge sigs sig Hin).
    specialize (M3 sig Hin). rewrite <- Emax in *.
    destruct (Z.leb_spec 0 (sig_id sig)), (Z.leb_spec (sig_id sig) (ctx_max_sig_id s)); try lia.
    cbn [andb].
    destruct (Z.leb_spec 0 (aget (-1) (build_id_map sigs (ctx_max_sig_id s)) (sig_id sig)));
      [by eexists|lia].
Qed.

Lemma build_async_chunks_eq s :
  build_async_chunks s = set_async_chunks (ctx_async_chunks (build_async_chunks s)) s.
Proof. unfold build_async_chunks. by destruct (mod_async_block (ctx_module s)). Qed.

Lemma init_state_created m seed :
  forallb signal_accepted (mod_signals m) = true ->
  forallb memory_accepted (mod_memories m) = true ->
  positive_widths m -> is_u32 seed ->
  created m (build_async_chunks (init_state m seed)).
Proof.
  intros Hs Hm Hw Hseed.
  destruct (init_state_fields m seed Hs Hm Hw Hseed) as (F1 & F2 & Em & Emap & Emax & Eerr & Ed).
  set (s := init_state m seed) in *. clearbody s.
  destruct (id_map_lookup (mod_signals m) s Emax Emap) as [L1 L2].
  pose proof (Forall2_length _ _ _ F1) as Hlen.
  rewrite build_async_chunks_eq. set (l := ctx_async_chunks (build_async_chunks s)).
  constructor; try done.
  - split; [split|].
    + intros id i Hi. destruct (L1 id i Hi) as (H0 & sig & Hsig & _).
      apply lookup_lt_Some in Hsig. unfold in_range. cbn [ctx_signals set_async_chunks]. lia.
    + cbn [ctx_sig_dirty ctx_signals set_async_chunks]. rewrite Ed, length_replicate. done.
    + intros id id' i H1 H2. destruct (L1 id i H1) as (_ & sig & Hsig & <-).
      destruct (L1 id' i H2) as (_ & sig' & Hsig' & <-). congruence.
  - intros id i Hi. by destruct (L1 id i Hi).
  - intros i. unfold in_range. cbn [ctx_sig_dirty ctx_signals set_async_chunks]. intros Hi.
    rewrite Ed. apply aget_replicate_true. lia.
Qed.

(** ** The hierarchy *)

(** The state of a context or of a context below it. *)
Inductive in_context (s : SimModuleState) : SimContext -> Prop :=
  | in_root children : in_context s (mkContext s children)
  | in_child p children c inst cm ins outs :
      mkChild (Some c) inst cm ins outs ∈ children -> in_context s c ->
      in_context s (mkContext p children).

Lemma find_module_in design id m : find_module design id = Some m -> m ∈ design_modules design.
Proof. intros [H _]%find_some. by apply list_elem_of_In. Qed.

(** Children come from recursive calls on modules of the design. *)
Lemma create_children_made create design parent insts i seed children :
  create_children create design parent insts i seed = Some children ->
  forall c inst cm ins outs, mkChild (Some c) inst cm ins outs ∈ children ->
  exists m k, m ∈ design_modules design /\ create m (u32 k) = Created (Some c).
Proof.
  revert i children. induction insts as [|x insts IH]; intros i children; cbn [create_children].
  { intros [= <-] * ?%not_elem_of_nil. done. }
  destruct (find_module design (inst_child_module_id x)) as [cm0|] eqn:Ef.
  - destruct (create cm0 _) as [ctx|] eqn:Ec; [|done].
    destruct (create_children _ _ _ _ _ _) as [rest|] eqn:Er; [|done].
    destruct (match ctx with Some c => _ | None => _ end) as [ins0 outs0] eqn:Em.
    intros [= <-] c inst cm ins outs [[= -> _ _ _ _]|Hin]%elem_of_cons; [|by eapply IH].
    exists cm0, (seed + i + 1). split; [by eapply find_module_in|done].
  - destruct (create_children _ _ _ _ _ _) as [rest|] eqn:Er; [|done].
    intros [= <-] c inst cm ins outs [[=]|Hin]%elem_of_cons. by eapply IH.
Qed.

Lemma create_created fuel m design seed ctx :
  (forall m', m' = m \/ m' ∈ design_modules design -> positive_widths m') -> is_u32 seed ->
  sim_ctx_create fuel m design seed = Created (Some ctx) ->
  forall s, in_context s ctx ->
  exists m', (m' = m \/ m' ∈ design_modules design) /\ created m' s.
Proof.
  revert m seed ctx. induction fuel as [|fuel IH]; intros m seed ctx Hw Hseed; [done|].
  cbn [sim_ctx_create]. destruct (forallb signal_accepted _) eqn:Es; [|done].
  destruct (forallb memory_accepted _) eqn:Em; [|done]. cbn [negb]. cbv zeta.
  destruct (create_children _ _ _ _ _ _) as [children|] eqn:Ec; [|done].
  intros [= <-] s Hin. inversion Hin as [? E|p ? c inst cm ins outs Hc Hs E]; subst.
  { exists m. split; [by left|]. apply init_state_created; auto. }
  destruct (create_children_made _ _ _ _ _ _ _ Ec _ _ _ _ _ Hc) as (m' & k & Hm' & Hcr).
  destruct (IH m' (u32 k) c) with (s := s) as (m'' & Hm'' & H); try done.
  - intros m'' [->|]; apply Hw; auto.
  - apply u32_range.
  - exists m''. split; [|done]. destruct Hm'' as [->|]; by right.
Qed.

(** A ranking of the modules along the instances bounds the recursion. *)
Definition instance_rank (design : IR_Design) (rank : Z -> nat) : Prop :=
  forall m inst cm, m ∈ design_modules design -> inst ∈ mod_instances m ->
    find_module design (inst_child_module_id inst) = Some cm ->
    (rank (mod_id cm) < rank (mod_id m))%nat.

Lemma create_total design rank fuel m seed :
  instance_rank design rank -> m ∈ design_modules design -> (rank (mod_id m) < fuel)%nat ->
  sim_ctx_create fuel m design seed <> OutOfFuel.
Proof.
  intros Hr. revert m seed. induction fuel as [|fuel IH]; intros m seed Hm Hf; [lia|].
  cbn [sim_ctx_create]. destruct (negb _); [done|]. destruct (negb _); [done|]. cbv zeta.
  set (s := init_state m seed).
  assert (forall insts i, (forall x, x ∈ insts -> x ∈ mod_instances m) ->
    create_children (fun m seed => sim_ctx_create fuel m design seed) design s insts i seed <> None)
    as H.
  { induction insts as [|x insts IHi]; intros i Hin; cbn [create_children]; [done|].
    assert (match find_module design (inst_child_module_id x) with
            | None => Created None
            | Some cm => sim_ctx_create fuel cm design (u32 (seed + i + 1))
            end <> OutOfFuel) as Hx.
    { destruct (find_module design _) as [cm|] eqn:Ef; [|done].
      apply IH; [by eapply find_module_in|].
      pose proof (Hr m x cm Hm ltac:(apply Hin; by left) Ef). lia. }
    specialize (IHi (i + 1) ltac:(intros; apply Hin; by right)).
    destruct (match find_module design _ with Some _ => _ | None => _ end) as [c|]; [|done].
    destruct (create_children _ _ _ _ _ _); [|done]. by destruct (match c with Some _ => _ | None => _ end). }
  specialize (H (mod_instances m) 0 ltac:(done)).
  by destruct (create_children _ _ _ _ _ _).
Qed.
