(* ===== verification/SimIntrinsics.v ===== *)
(** * The intrinsic functions of the evaluator, as functions on numbers and bits *)

From S2P Require Import Prelude SimValue SimBits SimArith SimBitwise SimWf SimOrder IR SimState SimEval.

Local Open Scope Z_scope.
Local Open Scope jz_scope.

(** ** Indices *)

Lemma index_words w : 0 < w ->
  Z.to_nat ((if Z.quot (w + 63) 64 <=? 0 then 1 else Z.quot (w + 63) 64) - 1)
  = (nwords w - 1)%nat.
Proof.
  intros Hw. rewrite Z.quot_div_nonneg by lia. pose proof (num_words_ge1 w).
  pose proof (nwords_num w). rewrite num_words_pos in * by done.
  destruct (Z.leb_spec ((w + 63) / 64) 0); lia.
Qed.

(** An index is a known value of at most 31 bits. *)
Lemma to_index_spec v :
  wf v ->
  sim_value_to_index v =
  if sim_val_has_xz v then None
  else if sv_uint v <=? INT32_MAX then Some (sv_uint v) else None.
Proof.
  intros Hv. unfold sim_value_to_index.
  destruct (wf_has_xz v Hv) as [->|[Hx Hk]]; [done|]. rewrite Hx.
  rewrite index_words by auto with jz.
  pose proof (sim_val_to_small_uint_spec v Hv Hk) as E. unfold sim_val_to_small_uint in E.
  rewrite Hx in E. destruct (ret_up _ _) eqn:Er.
  - destruct (Z.ltb_spec (sv_uint v) (2 ^ 64)); [done|].
    destruct (Z.leb_spec (sv_uint v) INT32_MAX); [unfold INT32_MAX in *; lia|done].
  - destruct (Z.ltb_spec (sv_uint v) (2 ^ 64)); [|done]. injection E as ->.
    destruct (Z.ltb_spec INT32_MAX (sv_uint v)), (Z.leb_spec (sv_uint v) INT32_MAX); done || lia.
Qed.

Lemma to_index_known v :
  wf v -> known v -> sv_uint v <= INT32_MAX -> sim_value_to_index v = Some (sv_uint v).
Proof.
  intros Hv Hk Hu. rewrite to_index_spec, known_has_xz by done.
  by destruct (Z.leb_spec (sv_uint v) INT32_MAX); [|lia].
Qed.

Lemma to_index_bounds v i : wf v -> sim_value_to_index v = Some i -> 0 <= i <= INT32_MAX.
Proof.
  intros Hv. rewrite to_index_spec by done. pose proof (sv_uint_bounds v Hv).
  destruct (sim_val_has_xz v); [done|].
  destruct (Z.leb_spec (sv_uint v) INT32_MAX); [|done]. intros [= <-]. lia.
Qed.

Lemma testbit_land_1 x : negb (Z.land x 1 =? 0) = Z.testbit x 0.
Proof.
  change 1 with (Z.ones 1). rewrite Z.land_ones by lia. change (2 ^ 1) with 2.
  rewrite Z.bit0_odd, Zmod_odd. by destruct (Z.odd x).
Qed.

(** The loop of [sim_value_from_index] writes the bits of [raw] from [bit] up. *)
Lemma from_index_loop_num fuel raw bit r w n :
  is_num r w n -> 0 <= raw < 2 ^ Z.of_nat fuel -> 0 <= bit -> n < 2 ^ bit ->
  is_num (from_index_loop fuel raw bit r) w ((n + raw * 2 ^ bit) mod 2 ^ w).
Proof.
  revert raw bit r n. induction fuel as [|fuel IH]; intros raw bit r n Hr Hraw Hbit Hn;
    pose proof (sv_uint_bounds r (in_wf _ _ _ Hr)) as Hb;
    rewrite (in_width _ _ _ Hr), (in_uint _ _ _ Hr) in Hb;
    pose proof (wf_width r (in_wf _ _ _ Hr)) as Hw; rewrite (in_width _ _ _ Hr) in Hw.
  { change (2 ^ Z.of_nat 0) with 1 in Hraw. replace raw with 0 by lia. simpl.
    rewrite Z.add_0_r, Z.mod_small by lia. done. }
  cbn [from_index_loop]. destruct (Z.eqb_spec raw 0) as [->|Hne].
  { rewrite Z.mul_0_l, Z.add_0_r, Z.mod_small by lia. done. }
  rewrite testbit_land_1. rewrite Nat2Z.inj_succ, Z.pow_succ_r in Hraw by lia.
  assert (0 < 2 ^ bit) by (apply Z.pow_pos_nonneg; lia).
  assert (raw = 2 * Z.shiftr raw 1 + (if Z.testbit raw 0 then 1 else 0)) as Eraw.
  { rewrite Z.bit0_odd. change (if Z.odd raw then 1 else 0) with (Z.b2z (Z.odd raw)).
    rewrite <- Z.div2_spec. apply Z.div2_odd. }
  assert (0 <= Z.shiftr raw 1 < 2 ^ Z.of_nat fuel) as Hs.
  { destruct (Z.testbit raw 0); lia. }
  assert (2 ^ (bit + 1) = 2 * 2 ^ bit) as Epow
    by (rewrite Z.pow_add_r by lia; lia).
  assert ((n + raw * 2 ^ bit) mod 2 ^ w =
    ((n + (if Z.testbit raw 0 then 2 ^ bit else 0)) + Z.shiftr raw 1 * 2 ^ (bit + 1)) mod 2 ^ w)
    as ->.
  { f_equal. rewrite Epow. rewrite Eraw at 1. destruct (Z.testbit raw 0); lia. }
  destruct (Z.testbit raw 0).
  - destruct (decide (bit < w)) as [Hlt|Hge].
    + apply IH; [|done|lia|lia].
      pose proof (set_bit_num r w n bit 1 Hr ltac:(lia)) as H1. simpl in H1. apply H1.
      apply Z.bounded_iff_bits_nonneg with bit; lia.
    + rewrite sim_val_set_bit_out by (rewrite (in_width _ _ _ Hr); lia).
      replace ((n + 2 ^ bit + Z.shiftr raw 1 * 2 ^ (bit + 1)) mod 2 ^ w)
        with ((n + Z.shiftr raw 1 * 2 ^ (bit + 1)) mod 2 ^ w).
      2: { replace (n + 2 ^ bit + Z.shiftr raw 1 * 2 ^ (bit + 1)) with
             ((n + Z.shiftr raw 1 * 2 ^ (bit + 1)) + 2 ^ (bit - w) * 2 ^ w).
           - by rewrite Z.mod_add by lia.
           - rewrite <- Z.pow_add_r by lia. replace (bit - w + w) with bit by lia. lia. }
      apply IH; [done|done|lia|lia].
  - rewrite Z.add_0_r. apply IH; [done|done|lia|lia].
Qed.

Lemma from_index_num value w :
  0 <= value < 2 ^ 32 -> 0 < w <= 256 ->
  is_num (sim_value_from_index value w) w (value mod 2 ^ w).
Proof.
  intros Hv Hw. unfold sim_value_from_index, u32. rewrite Z.mod_small by lia.
  assert (is_num (from_index_loop 32 value 0 (sim_val_zero w)) w (value mod 2 ^ w)) as H.
  { pose proof (from_index_loop_num 32 value 0 (sim_val_zero w) w 0 (zero_is_num w Hw)
      ltac:(lia) ltac:(lia) ltac:(lia)) as H.
    by rewrite Z.add_0_l, Z.mul_1_r in H. }
  by rewrite (mask_num _ _ _ H).
Qed.

(** ** Reading bits of a known value *)

Lemma bit_set_vbit v k : wf v -> 0 <= k -> bit_set v k = vbit v k.
Proof.
  intros Hv Hk. unfold bit_set. rewrite sim_val_get_bit_wf by done.
  rewrite bool_to_int_eqb0. apply negb_involutive.
Qed.

Lemma bit_set_num v w n k : is_num v w n -> 0 <= k -> bit_set v k = Z.testbit n k.
Proof.
  intros H Hk. unfold bit_set. rewrite (get_bit_num v w n k H Hk), bool_to_int_eqb0.
  apply negb_involutive.
Qed.

Lemma width_bound_index w : 0 < w <= 256 -> w < 2 ^ 32.
Proof. lia. Qed.

(** The descending search finds the binary logarithm. *)
Lemma top_set_bit_log2 v :
  wf v -> known v ->
  top_set_bit v = if sv_uint v =? 0 then None else Some (Z.log2 (sv_uint v)).
Proof.
  intros Hv Hk. pose proof (wf_width v Hv) as Hw. pose proof (sv_uint_bounds v Hv) as Hu.
  unfold top_set_bit. destruct (ret_down _ _) as [r|] eqn:E.
  - apply ret_down_Some in E as (i & Hi & Hr & Hj). rewrite Z2Nat.id in Hi, Hj by lia.
    rewrite (bit_set_num v _ _ i (is_num_self v Hv Hk)) in Hr by lia.
    destruct (Z.testbit (sv_uint v) i) eqn:Et; [|done]. injection Hr as <-.
    destruct (Z.eqb_spec (sv_uint v) 0) as [E0|E0]; [by rewrite E0, Z.testbit_0_l in Et|].
    f_equal. symmetry. apply Z.log2_unique; [lia|].
    assert (forall j, i < j -> Z.testbit (sv_uint v) j = false) as Hh.
    { intros j Hlt. destruct (Z.lt_ge_cases j (sv_width v)).
      - specialize (Hj j ltac:(lia)).
        rewrite (bit_set_num v _ _ j (is_num_self v Hv Hk)) in Hj by lia.
        by destruct (Z.testbit (sv_uint v) j).
      - apply Z.bounded_iff_bits_nonneg with (sv_width v); lia. }
    split.
    + destruct (Z.lt_ge_cases (sv_uint v) (2 ^ i)) as [Hlt|]; [|done].
      rewrite <- (Z.mod_small (sv_uint v) (2 ^ i)), Z.mod_pow2_bits_high in Et by lia. done.
    + apply Z.bounded_iff_bits_nonneg; [lia..|].
      intros j Hlt. apply Hh. lia.
  - rewrite ret_down_None in E. destruct (Z.eqb_spec (sv_uint v) 0) as [|E0]; [done|].
    exfalso. pose proof (Z.log2_nonneg (sv_uint v)).
    assert (Z.log2 (sv_uint v) < sv_width v) by (apply Z.log2_lt_pow2; [lia|apply Hu]).
    specialize (E (Z.log2 (sv_uint v)) ltac:(lia)).
    rewrite (bit_set_num v _ _ _ (is_num_self v Hv Hk)), Z.bit_log2 in E by lia. done.
Qed.

Lemma log2_small n w : 0 <= n < 2 ^ w -> 0 < w -> 0 <= Z.log2 n < w.
Proof.
  intros Hn Hw. pose proof (Z.log2_nonneg n). split; [done|].
  destruct (Z.eq_dec n 0) as [->|]; [done|]. apply Z.log2_lt_pow2; [lia|apply Hn].
Qed.

Lemma x_or_known w src r : wf src -> known src -> x_or w src r = r.
Proof. intros. unfold x_or. by rewrite known_has_xz. Qed.

Section Counters.
Context (src : SimValue) (w : Z) (Hs : wf src) (Hk : known src) (Hw : 0 < w <= 256).

Lemma width_or_w : width_or w 1 = w.
Proof using Hw. unfold width_or. by destruct (Z.ltb_spec 0 w); [|lia]. Qed.

Lemma eval_prienc_num : is_num (eval_prienc w src) w (Z.log2 (sv_uint src) mod 2 ^ w).
Proof using Hs Hk Hw.
  unfold eval_prienc. rewrite x_or_known, width_or_w, top_set_bit_log2 by done.
  pose proof (wf_width src Hs). pose proof (sv_uint_bounds src Hs).
  pose proof (log2_small (sv_uint src) (sv_width src) ltac:(lia) ltac:(lia)).
  destruct (Z.eqb_spec (sv_uint src) 0) as [->|]; [apply (from_index_num 0)|apply from_index_num]; lia.
Qed.

Lemma eval_lzc_num :
  is_num (eval_lzc w src) w
    ((if sv_uint src =? 0 then sv_width src
      else sv_width src - 1 - Z.log2 (sv_uint src)) mod 2 ^ w).
Proof using Hs Hk Hw.
  unfold eval_lzc. rewrite x_or_known, width_or_w, top_set_bit_log2 by done.
  pose proof (wf_width src Hs). pose proof (sv_uint_bounds src Hs).
  pose proof (log2_small (sv_uint src) (sv_width src) ltac:(lia) ltac:(lia)).
  destruct (Z.eqb_spec (sv_uint src) 0) as [_|]; apply from_index_num; lia.
Qed.

(** The ascending loop of [oh2b] keeps the last set index. *)
Lemma eval_oh2b_num : is_num (eval_oh2b w src) w (Z.log2 (sv_uint src) mod 2 ^ w).
Proof using Hs Hk Hw.
  rewrite <- (in_uint _ _ _ eval_prienc_num).
  assert (eval_oh2b w src = eval_prienc w src) as ->; [|].
  2: { pose proof eval_prienc_num as H. by rewrite (in_uint _ _ _ H). }
  unfold eval_oh2b, eval_prienc. rewrite !x_or_known by done. f_equal.
  unfold top_set_bit. generalize (Z.to_nat (sv_width src)) as n. intros n.
  induction n as [|n IH]; simpl; [done|]. destruct (bit_set src (Z.of_nat n)); done.
Qed.

Lemma eval_b2oh_num :
  is_num (eval_b2oh w src) w (if sv_uint src <? w then 2 ^ sv_uint src else 0).
Proof using Hs Hk Hw.
  unfold eval_b2oh. rewrite x_or_known, width_or_w by done. cbv zeta.
  rewrite to_index_spec, known_has_xz by done.
  pose proof (sv_uint_bounds src Hs) as Hu.
  destruct (Z.ltb_spec (sv_uint src) w), (Z.leb_spec (sv_uint src) INT32_MAX);
    try (unfold INT32_MAX in *; lia).
  - destruct (Z.leb_spec 0 (sv_uint src)), (Z.ltb_spec (sv_uint src) w); try lia. simpl.
    pose proof (set_bit_num _ w 0 (sv_uint src) 1 (zero_is_num w Hw) ltac:(lia)
      (Z.testbit_0_l _)) as H3. exact H3.
  - destruct (Z.ltb_spec (sv_uint src) w); [lia|]. rewrite andb_false_r.
    by apply zero_is_num.
  - by apply zero_is_num.
Qed.
End Counters.

(** ** Population count *)

Fixpoint count_bits (p : Z -> bool) (n : nat) : Z :=
  match n with
  | O => 0
  | S k => count_bits p k + bool_to_int (p (Z.of_nat k))
  end.

Lemma count_bits_bounds p n : 0 <= count_bits p n <= Z.of_nat n.
Proof. induction n; simpl; [lia|]. destruct (p _); simpl; lia. Qed.

Lemma count_bits_ext p q n :
  (forall i, 0 <= i < Z.of_nat n -> p i = q i) -> count_bits p n = count_bits q n.
Proof.
  intros H. induction n as [|n IH]; simpl; [done|].
  rewrite IH by (intros; apply H; lia). by rewrite H by lia.
Qed.

Lemma eval_popcount_num src w :
  wf src -> known src -> 0 < w <= 256 ->
  is_num (eval_popcount w src) w
    (count_bits (Z.testbit (sv_uint src)) (Z.to_nat (sv_width src)) mod 2 ^ w).
Proof.
  intros Hs Hk Hw. unfold eval_popcount. rewrite x_or_known, (width_or_w w Hw) by done.
  assert (forall n, for_up n (fun i count => if bit_set src i then count + 1 else count) 0
    = count_bits (bit_set src) n) as E.
  { induction n as [|n IH]; simpl; [done|]. rewrite IH.
    destruct (bit_set src _); simpl; lia. }
  rewrite E. pose proof (wf_width src Hs).
  pose proof (count_bits_bounds (bit_set src) (Z.to_nat (sv_width src))).
  rewrite (count_bits_ext (Z.testbit (sv_uint src)) (bit_set src)).
  - apply from_index_num; lia.
  - intros i Hi. symmetry. apply bit_set_num with (sv_width src); [by apply is_num_self|lia].
Qed.

(** ** Bit permutations *)

(** A loop that sets bit [pos i] of the result when bit [i] of the source is
    set, for an injective [pos]. *)
Definition permute (p : Z -> bool) (pos : Z -> Z) (n : nat) (r : SimValue) : SimValue :=
  for_up n (fun i r => if p i then sim_val_set_bit r (pos i) 1 else r) r.

Lemma permute_bits p pos n r :
  shaped r ->
  (forall i, 0 <= i < Z.of_nat n -> 0 <= pos i < sv_width r) ->
  let t := permute p pos n r in
  shaped t /\ sv_width t = sv_width r /\
  forall k, 0 <= k ->
    vbit t k = (existsb (fun i => p i && (pos i =? k)) (seqZ 0 (Z.of_nat n))) || vbit r k /\
    xbit t k = xbit r k /\ zbit t k = zbit r k.
Proof.
  intros Hr. induction n as [|n IH]; intros Hpos; cbv zeta; [by simpl|].
  destruct IH as (T1 & T2 & T3); [intros; apply Hpos; lia|].
  unfold permute in *. cbn [for_up]. set (t := for_up n _ r) in *.
  specialize (Hpos (Z.of_nat n) ltac:(lia)).
  assert (forall k, existsb (fun i => p i && (pos i =? k)) (seqZ 0 (Z.of_nat (S n)))
    = existsb (fun i => p i && (pos i =? k)) (seqZ 0 (Z.of_nat n))
      || (p (Z.of_nat n) && (pos (Z.of_nat n) =? k))) as E.
  { intros k. replace (Z.of_nat (S n)) with (Z.of_nat n + 1) by lia.
    rewrite seqZ_app by lia. rewrite existsb_app. f_equal. simpl. by rewrite orb_false_r. }
  destruct (p (Z.of_nat n)) eqn:Ep.
  - destruct (sim_val_set_bit_spec t (pos (Z.of_nat n)) 1 T1) as (S1 & S2 & S3); [lia|].
    split_and!; [done|lia|]. intros k Hk. destruct (S3 k Hk) as (-> & -> & ->).
    destruct (T3 k Hk) as (-> & -> & ->). split_and!; [|done..]. rewrite E. simpl.
    rewrite Z.eqb_sym. destruct (Z.eqb_spec (pos (Z.of_nat n)) k); simpl;
      [by rewrite orb_true_r|by rewrite orb_false_r].
  - split_and!; [done..|]. intros k Hk. rewrite E. simpl. rewrite orb_false_r. by apply T3.
Qed.

(** With an inverse [inv] of [pos], bit [k] is bit [inv k] of the source. *)
Lemma permute_num p pos inv n w :
  0 < w <= 256 ->
  (forall i, 0 <= i < Z.of_nat n -> 0 <= pos i < w /\ inv (pos i) = i) ->
  (forall k, 0 <= k < w -> p (inv k) = true -> 0 <= inv k < Z.of_nat n /\ pos (inv k) = k) ->
  let t := permute p pos n (sim_val_zero w) in
  wf t /\ known t /\ sv_width t = w /\ forall k, 0 <= k < w -> vbit t k = p (inv k).
Proof.
  intros Hw Hpos Hinv t.
  destruct (permute_bits p pos n (sim_val_zero w)) as (T1 & T2 & T3).
  { auto with jz. } { intros i Hi. by apply Hpos. }
  fold t in T1, T2, T3. simpl in T2.
  assert (forall k, 0 <= k -> xbit t k = false /\ zbit t k = false) as Hxz.
  { intros k Hk. destruct (T3 k Hk) as (_ & -> & ->). apply sim_val_zero_bits. lia. }
  assert (forall k, 0 <= k -> vbit t k = existsb (fun i => p i && (pos i =? k)) (seqZ 0 (Z.of_nat n)))
    as Hv.
  { intros k Hk. destruct (T3 k Hk) as (-> & _ & _).
    destruct (sim_val_zero_bits w k Hk) as (-> & _). apply orb_false_r. }
  split_and!.
  - destruct T1. constructor; try done.
    + intros k Hk. rewrite T2 in Hk. rewrite Hv by lia. destruct (Hxz k) as [-> ->]; [lia|].
      split_and!; [|done..]. apply not_true_iff_false. rewrite existsb_exists.
      intros (i & Hi & [_ Ek%Z.eqb_eq]%andb_true_iff). apply list_elem_of_In, elem_of_seqZ in Hi.
      destruct (Hpos i); lia.
    + intros k Hk. by destruct (Hxz k Hk) as [-> ->].
  - intros k Hk. rewrite bit_at_unknown. by destruct (Hxz k) as [-> ->]; [lia|].
  - done.
  - intros k Hk. rewrite Hv by lia. apply eq_true_iff_eq. rewrite existsb_exists. split.
    + intros (i & Hi & [Hp Ek%Z.eqb_eq]%andb_true_iff).
      apply list_elem_of_In, elem_of_seqZ in Hi. destruct (Hpos i) as [_ Ei]; [lia|].
      by rewrite <- Ek, Ei.
    + intros Hp. destruct (Hinv k Hk Hp) as [Hi Ek]. exists (inv k). split.
      * apply list_elem_of_In, elem_of_seqZ. lia.
      * by rewrite Hp, Ek, Z.eqb_refl.
Qed.

Lemma eval_reverse_bits src w :
  wf src -> known src ->
  let r := eval_reverse w src in
  wf r /\ known r /\ sv_width r = sv_width src /\
  forall k, 0 <= k < sv_width src -> vbit r k = vbit src (sv_width src - 1 - k).
Proof.
  intros Hs Hk. cbv zeta. unfold eval_reverse. rewrite x_or_known by done.
  pose proof (wf_width src Hs). destruct (Z.ltb_spec 0 (sv_width src)); [|lia]. cbv zeta.
  destruct (permute_num (bit_set src) (fun i => sv_width src - 1 - i)
    (fun i => sv_width src - 1 - i) (Z.to_nat (sv_width src)) (sv_width src))
    as (P1 & P2 & P3 & P4); [lia|intros; lia|intros; lia|].
  unfold permute in *. split_and!; [done..|]. intros k Hk'. rewrite P4 by done.
  apply bit_set_vbit; [done|lia].
Qed.
