(* ===== verification/SimMono.v ===== *)
(** * The cases of the evaluator respect the information order

    [refw a b w]: [a ⊑v b] and both have width [w].  One lemma per [eval_*]
    definition; with [a = b] each is also a well-formedness statement. *)

From S2P Require Import Prelude SimValue SimBits SimArith SimBitwise SimWf SimOrder IR SimState SimEval SimExec SimIntrinsics SimWrite.

Local Open Scope Z_scope.
Local Open Scope jz_scope.
Local Open Scope refines_scope.

Definition refw (a b : SimValue) (w : Z) : Prop := a ⊑v b /\ sv_width a = w.

Lemma refw_wf_l a b w : refw a b w -> wf a.
Proof. by intros [[] _]. Qed.
Lemma refw_wf_r a b w : refw a b w -> wf b.
Proof. by intros [[] _]. Qed.
Lemma refw_width_r a b w : refw a b w -> sv_width b = w.
Proof. by intros [[_ _ <- _] <-]. Qed.
Lemma refw_bounds a b w : refw a b w -> 0 < w <= 256.
Proof. intros [[H _ _ _] <-]. by apply wf_width. Qed.
Lemma refw_refl a w : shape a w -> refw a a w.
Proof. intros [H <-]. split; [by apply refines_refl | done]. Qed.
Lemma refw_all_x r w : shape r w -> refw (sim_val_all_x w) r w.
Proof.
  intros H. pose proof (wf_width r (proj1 H)) as Hw. rewrite (proj2 H) in Hw.
  split; [by apply all_x_least | by apply all_x_shape].
Qed.
#[export] Hint Resolve refw_wf_l refw_wf_r refw_bounds refw_refl refw_all_x : jz.

Lemma refw_known a b w : refw a b w -> known a -> a = b.
Proof. intros [H _]. by apply refines_known. Qed.

(** A value that either hides everything or is already equal. *)
Lemma refw_cases a b w : refw a b w -> sim_val_has_xz a = true \/ (a = b /\ known a).
Proof.
  intros H. destruct (wf_has_xz a (refw_wf_l _ _ _ H)) as [|[_ Hk]]; [by left|].
  right. split; [by apply (refw_known a b w)|done].
Qed.

(** ** Width adjustment *)

Lemma mask_width_refw a b w w' :
  refw a b w -> 0 < w' <= 256 ->
  refw (sim_val_mask (set_width w' a)) (sim_val_mask (set_width w' b)) w'.
Proof.
  intros [H _] Hw. split; [by apply mask_width_mono|].
  apply mask_set_width_shape; [apply H|done].
Qed.

Lemma mask_with_width_refw a b w w' :
  refw a b w -> 0 < width_or w' w <= 256 ->
  refw (sim_val_mask (with_width w' a)) (sim_val_mask (with_width w' b)) (width_or w' w).
Proof.
  intros H Hw. unfold with_width. rewrite (refw_width_r a b w H), (proj2 H).
  by apply (mask_width_refw _ _ w).
Qed.

Lemma set_width_refw a b w w' :
  refw a b w -> w <= w' <= 256 -> refw (set_width w' a) (set_width w' b) w'.
Proof.
  intros [H <-] Hw. pose proof (ref_width _ _ H). split; [|done].
  constructor; [apply set_width_wf; [apply H|lia]|apply set_width_wf; [apply H|lia]|done|].
  intros k Hk. apply (refines_all_bits a b k); [done|lia].
Qed.

Lemma with_width_refw a b w w' :
  refw a b w -> w <= width_or w' w <= 256 ->
  refw (with_width w' a) (with_width w' b) (width_or w' w).
Proof.
  intros H Hw. unfold with_width. rewrite (refw_width_r a b w H), (proj2 H).
  by apply (set_width_refw _ _ w).
Qed.

(** ** Value operators *)

Lemma max_width_refw a b c d wa wc :
  refw a b wa -> refw c d wc -> max_width a c = Z.max wa wc.
Proof. intros [_ <-] [_ <-]. apply max_width_max. Qed.

Section Binary.
Context (a b c d : SimValue) (wa wc : Z) (Ha : refw a b wa) (Hc : refw c d wc).

Lemma op2_refw f (w : Z) :
  (forall x y, wf x -> wf y -> sv_width x = wa -> sv_width y = wc -> shape (f x y) w) ->
  (a ⊑v b -> c ⊑v d -> f a c ⊑v f b d) -> refw (f a c) (f b d) w.
Proof using Ha Hc.
  intros Hf Hm. split; [apply Hm; [apply Ha|apply Hc]|].
  apply Hf; eauto with jz; [apply Ha|apply Hc].
Qed.

Lemma op2_max_refw f :
  (forall x y, wf x -> wf y -> shape (f x y) (max_width x y)) ->
  (a ⊑v b -> c ⊑v d -> f a c ⊑v f b d) -> refw (f a c) (f b d) (Z.max wa wc).
Proof using Ha Hc.
  intros Hf Hm. apply op2_refw; [|done]. intros x y Hx Hy <- <-.
  rewrite <- max_width_max. by apply Hf.
Qed.

Lemma op2_one_refw f :
  (forall x y, shape (f x y) 1) ->
  (a ⊑v b -> c ⊑v d -> f a c ⊑v f b d) -> refw (f a c) (f b d) 1.
Proof using Ha Hc. intros Hf Hm. apply op2_refw; [|done]. intros; apply Hf. Qed.

Lemma op2_fst_refw f :
  (forall x y, wf x -> wf y -> shape (f x y) (sv_width x)) ->
  (a ⊑v b -> c ⊑v d -> f a c ⊑v f b d) -> refw (f a c) (f b d) wa.
Proof using Ha Hc. intros Hf Hm. apply op2_refw; [|done]. intros x y ? ? <- _. by apply Hf. Qed.
End Binary.

(** Functions that are all [x] on an unknown source bit. *)
Lemma strict1_refw (f : SimValue -> SimValue) a b w wr :
  refw a b w -> 0 < wr <= 256 ->
  (forall v, sim_val_has_xz v = true -> f v = sim_val_all_x wr) ->
  (forall v, wf v -> known v -> sv_width v = w -> shape (f v) wr) ->
  refw (f a) (f b) wr.
Proof.
  intros H Hwr Hx Hf. destruct (refw_cases a b w H) as [E|[-> Hk]].
  - rewrite (Hx a E). apply refw_all_x. destruct (wf_has_xz b) as [E'|[E' Hk]]; eauto with jz.
    + rewrite (Hx b E'). by apply all_x_shape.
    + apply Hf; eauto using refw_width_r with jz.
  - apply refw_refl, Hf; eauto using refw_width_r with jz.
Qed.

Lemma x_or_true w v r : sim_val_has_xz v = true -> x_or w v r = sim_val_all_x w.
Proof. unfold x_or. by intros ->. Qed.

(** ** Minimum and maximum *)

Lemma strict2_refw (f g : SimValue -> SimValue -> SimValue) a b c d wa wc wr :
  refw a b wa -> refw c d wc -> 0 < wr <= 256 ->
  (forall x y, f x y = if sim_val_has_xz x || sim_val_has_xz y then sim_val_all_x wr else g x y) ->
  (forall x y, wf x -> wf y -> known x -> known y -> sv_width x = wa -> sv_width y = wc ->
     shape (g x y) wr) ->
  refw (f a c) (f b d) wr.
Proof.
  intros Ha Hc Hwr Hf Hg. rewrite !Hf.
  assert (forall x y, wf x -> wf y -> sv_width x = wa -> sv_width y = wc ->
    shape (if sim_val_has_xz x || sim_val_has_xz y then sim_val_all_x wr else g x y) wr) as Hs.
  { intros x y Hx Hy Wx Wy.
    destruct (known_cases x y Hx Hy) as [E|(E & Kx & Ky)]; unfold has_xz2 in E; rewrite E.
    - by apply all_x_shape.
    - by apply Hg. }
  destruct (refw_cases a b wa Ha) as [E|[-> Ka]]; [rewrite E|destruct (refw_cases c d wc Hc) as [E|[-> Kc]]].
  - apply refw_all_x, Hs; eauto using refw_width_r with jz.
  - rewrite E, orb_true_r. apply refw_all_x, Hs; eauto using refw_width_r with jz.
  - apply refw_refl, Hs; eauto using refw_width_r with jz.
Qed.

Lemma width_or_pos w d : 0 < d -> 0 < width_or w d.
Proof. intros. unfold width_or. by destruct (Z.ltb_spec 0 w). Qed.

Lemma eval_uminmax_refw p w a b c d wa wc :
  refw a b wa -> refw c d wc -> 0 < width_or w 1 <= 256 ->
  refw (eval_uminmax p w a c) (eval_uminmax p w b d) (width_or w 1).
Proof.
  intros Ha Hc Hw. eapply strict2_refw; [exact Ha|exact Hc|done|reflexivity|].
  intros x y Hx Hy Kx Ky Wx Wy. cbv beta zeta.
  destruct p, (_ =? 1); cbn [negb]; apply mask_set_width_shape; done.
Qed.

Lemma eval_sminmax_refw p w a b c d wa wc :
  refw a b wa -> refw c d wc -> 0 < width_or w 1 <= 256 ->
  refw (eval_sminmax p w a c) (eval_sminmax p w b d) (width_or w 1).
Proof.
  intros Ha Hc Hw. eapply strict2_refw; [exact Ha|exact Hc|done|reflexivity|].
  intros x y Hx Hy Kx Ky Wx Wy. cbv beta. unfold sim_value_signed_choice. cbv zeta.
  pose proof (max_width_bounds x y Hx Hy).
  destruct (if negb _ then _ else _); apply mask_set_width_shape; try done;
    apply sext_shape; done || lia.
Qed.

(** ** Loops that set bits of a known value *)

Definition plain (r : SimValue) (w : Z) : Prop := wf r /\ known r /\ sv_width r = w.

Lemma plain_shape r w : plain r w -> shape r w.
Proof. by intros (? & ? & ?). Qed.
Lemma plain_zero w : 0 < w <= 256 -> plain (sim_val_zero w) w.
Proof. intros H. by destruct (zero_is_num w H). Qed.
Lemma is_num_plain v w n : is_num v w n -> plain v w.
Proof. by intros []. Qed.

Lemma set_bit_plain r w k b : plain r w -> plain (sim_val_set_bit r k b) w.
Proof.
  intros (Hr & Hk & Hw). destruct (decide (0 <= k < sv_width r)) as [Hb|Hb].
  2: { by rewrite sim_val_set_bit_out. }
  pose proof (known_xz_false r Hr Hk k ltac:(lia)) as Hxz.
  destruct (set_bit_shape r k b Hr (or_introl Hxz)) as [S1 S2].
  destruct (sim_val_set_bit_spec r k b (wf_shaped r Hr) Hb) as (_ & _ & S3).
  split_and!; [done| |lia]. intros j Hj. rewrite bit_at_unknown.
  destruct (S3 j ltac:(lia)) as (_ & -> & ->).
  by destruct (known_xz_false r Hr Hk j ltac:(lia)) as [-> ->].
Qed.

Lemma for_up_plain n (f : Z -> SimValue -> SimValue) r w :
  plain r w -> (forall i t, plain t w -> plain (f i t) w) -> plain (for_up n f r) w.
Proof. intros Hr Hf. apply (for_up_ind (fun _ t => plain t w)); [done|]. intros; by apply Hf. Qed.

Lemma mask_width_num v w n w' :
  is_num v w n -> 0 < w' <= 256 ->
  is_num (sim_val_mask (set_width w' v)) w' (n mod 2 ^ w').
Proof.
  intros [H1 H2 <- <-] Hw.
  pose proof (mask_is_num (set_width w' v) (set_width_shaped v w' (wf_shaped v H1) Hw)
    (known_xz_false v H1 H2)) as H. exact H.
Qed.

(** ** Absolute value *)

(** The magnitude before the overflow bit. *)
Lemma abs_magnitude src w :
  wf src -> known src -> 0 < w <= 256 ->
  let sign := Z.testbit (sv_uint src) (sv_width src - 1) in
  let v := if sign then sim_val_neg src else src in
  is_num (sim_val_mask (set_width w (sim_val_zext v
            (if sv_width src <? w then w else sv_width src)))) w
    ((if sign then - sv_uint src mod 2 ^ sv_width src else sv_uint src) mod 2 ^ w).
Proof.
  intros Hs Hk Hw sign v. pose proof (wf_width src Hs) as Hws.
  assert (is_num v (sv_width src)
    (if sign then - sv_uint src mod 2 ^ sv_width src else sv_uint src)) as Hv.
  { subst v. destruct sign; [by apply neg_known | by apply is_num_self]. }
  set (w2 := if sv_width src <? w then w else sv_width src).
  assert (sv_width src <= w2 <= 256) as Hw2.
  { subst w2. destruct (Z.ltb_spec (sv_width src) w); lia. }
  unfold sim_val_zext. rewrite (in_width _ _ _ Hv). destruct (Z.leb_spec w2 (sv_width src)).
  - by apply (mask_width_num _ (sv_width src)).
  - apply (mask_width_num _ w2); [|done]. by apply (set_width_num _ (sv_width src)).
Qed.

Lemma eval_abs_shape src w :
  wf src -> known src -> 0 < w <= 256 -> shape (sim_value_abs src w) w.
Proof.
  intros Hs Hk Hw. pose proof (wf_width src Hs). unfold sim_value_abs. cbv zeta.
  destruct (Z.ltb_spec 0 (sv_width src)); [|lia].
  rewrite sim_val_get_bit_wf, bool_to_int_eqb0, negb_involutive by (done || lia).
  rewrite <- sv_uint_testbit by (auto with jz || lia).
  pose proof (abs_magnitude src w Hs Hk Hw) as Hm. cbv zeta in Hm.
  destruct (Z.testbit (sv_uint src) (sv_width src - 1)).
  - destruct (sim_val_equal _ _ && _).
    + destruct (set_bit_plain _ w (w - 1) 1 (is_num_plain _ _ _ Hm)) as (P1 & P2 & P3).
      by rewrite sim_val_mask_id.
    + rewrite (mask_num _ _ _ Hm). by apply is_num_shape with (1 := Hm).
  - rewrite (mask_num _ _ _ Hm). by apply is_num_shape with (1 := Hm).
Qed.

(** ** One-source intrinsics *)

Section OneSource.
Context (a b : SimValue) (wa w : Z) (Ha : refw a b wa).

Ltac strict1 f := apply (strict1_refw f _ _ wa); [exact Ha|done|
  intros; by apply x_or_true|intros v Hv Hk Hwv].

Lemma eval_counters_refw :
  0 < width_or w 1 <= 256 ->
  refw (eval_oh2b w a) (eval_oh2b w b) (width_or w 1) /\
  refw (eval_b2oh w a) (eval_b2oh w b) (width_or w 1) /\
  refw (eval_prienc w a) (eval_prienc w b) (width_or w 1) /\
  refw (eval_lzc w a) (eval_lzc w b) (width_or w 1) /\
  refw (eval_popcount w a) (eval_popcount w b) (width_or w 1) /\
  refw (eval_abs w a) (eval_abs w b) (width_or w 1).
Proof using Ha.
  intros Hw.
  assert (width_or (width_or w 1) 1 = width_or w 1) as E.
  { unfold width_or at 1. by destruct (Z.ltb_spec 0 (width_or w 1)); [|lia]. }
  split_and!.
  - strict1 (eval_oh2b w). pose proof (eval_oh2b_num v _ Hv Hk Hw) as H.
    unfold eval_oh2b in *. rewrite E in H. by eapply is_num_shape.
  - strict1 (eval_b2oh w). pose proof (eval_b2oh_num v _ Hv Hk Hw) as H.
    unfold eval_b2oh in *. rewrite E in H. by eapply is_num_shape.
  - strict1 (eval_prienc w). pose proof (eval_prienc_num v _ Hv Hk Hw) as H.
    unfold eval_prienc in *. rewrite E in H. by eapply is_num_shape.
  - strict1 (eval_lzc w). pose proof (eval_lzc_num v _ Hv Hk Hw) as H.
    unfold eval_lzc in *. rewrite E in H. by eapply is_num_shape.
  - strict1 (eval_popcount w). pose proof (eval_popcount_num v _ Hv Hk Hw) as H.
    unfold eval_popcount in *. rewrite E in H. by eapply is_num_shape.
  - strict1 (eval_abs w). unfold eval_abs. rewrite x_or_known by done.
    by apply eval_abs_shape.
Qed.

Lemma eval_reverse_refw :
  width_or w 1 = wa -> refw (eval_reverse w a) (eval_reverse w b) wa.
Proof using Ha.
  intros Ew. pose proof (refw_bounds _ _ _ Ha). rewrite <- Ew at 1.
  apply (strict1_refw (eval_reverse w) _ _ wa); [exact Ha|lia| |].
  { intros. by apply x_or_true. }
  intros v Hv Hk Hwv. destruct (eval_reverse_bits v w Hv Hk) as (H1 & _ & H3 & _).
  split; [done|lia].
Qed.

Lemma eval_bswap_refw :
  width_or w 1 = wa -> refw (eval_bswap w a) (eval_bswap w b) wa.
Proof using Ha.
  intros Ew. pose proof (refw_bounds _ _ _ Ha). rewrite <- Ew at 1.
  apply (strict1_refw (eval_bswap w) _ _ wa); [exact Ha|lia| |].
  { intros. by apply x_or_true. }
  intros v Hv Hk Hwv. unfold eval_bswap. rewrite x_or_known by done.
  destruct (Z.ltb_spec 0 (sv_width v)); [|lia]. rewrite Ew, Hwv. cbv zeta.
  apply plain_shape, for_up_plain; [apply plain_zero; lia|]. intros i t Ht.
  apply for_up_plain; [done|]. intros j u Hu. destruct (bit_set _ _); [|done].
  by apply set_bit_plain.
Qed.

Lemma eval_reduce_refw :
  refw (eval_reduce_and a) (eval_reduce_and b) 1 /\
  refw (eval_reduce_or a) (eval_reduce_or b) 1 /\
  refw (eval_reduce_xor a) (eval_reduce_xor b) 1.
Proof using Ha.
  split_and!; [strict1 eval_reduce_and|strict1 eval_reduce_or|strict1 eval_reduce_xor].
  - unfold eval_reduce_and. rewrite x_or_known by done. apply eq_shape.
  - unfold eval_reduce_or. rewrite x_or_known by done. apply neq_shape.
  - unfold eval_reduce_xor. rewrite x_or_known by done.
    eapply is_num_shape, from_uint_num; [done|].
    apply (for_up_ind (fun _ r => is_u64 r)); [apply is_u64_0|].
    intros k r _ Hr. apply is_u64_lxor; [done|]. rewrite sim_val_get_bit_spec.
    by destruct (_ && _).
Qed.
End OneSource.

(** ** Indexed reads and writes *)

Lemma slice_refw a b w msb lsb :
  refw a b w -> 0 <= lsb <= msb -> msb - lsb + 1 <= 256 ->
  refw (sim_val_slice a msb lsb) (sim_val_slice b msb lsb) (msb - lsb + 1).
Proof.
  intros [H _] Hl Hw. split; [by apply slice_mono|]. apply slice_shape; [apply H|done|done].
Qed.

(** Functions of a source and an index that are all [x] on an unknown index. *)
Lemma index_refw (f : SimValue -> SimValue -> SimValue) a b w i j wi wr :
  refw a b w -> refw i j wi ->
  (forall v k, wf v -> sv_width v = w -> sim_val_has_xz k = true -> f v k = sim_val_all_x wr) ->
  (forall k, wf k -> sim_val_has_xz k = false -> refw (f a k) (f b k) wr) ->
  0 < wr <= 256 -> refw (f a i) (f b j) wr.
Proof.
  intros Ha Hi Hx Hf Hwr. destruct (refw_cases i j wi Hi) as [E|[-> Hk]].
  - rewrite (Hx a i) by (done || apply Ha || eauto with jz). apply refw_all_x.
    destruct (wf_has_xz j) as [E'|[E' _]]; [eauto with jz|..].
    + rewrite Hx by (done || eauto using refw_width_r with jz). by apply all_x_shape.
    + pose proof (Hf j (refw_wf_r _ _ _ Hi) E') as H. split; eauto using refw_width_r with jz.
  - apply Hf; [eauto with jz|]. by apply known_has_xz; [eauto with jz|].
Qed.

Lemma i32_id x : 0 <= x <= INT32_MAX -> i32 x = x.
Proof. unfold i32, swrap, INT32_MAX. intros. rewrite Z.mod_small; lia. Qed.

(** [gslice] at a known index. *)
Definition gslice_known (we : Z) (k src : SimValue) : SimValue :=
  match sim_value_to_index k with
  | None => sim_val_all_x we
  | Some n =>
      let lo := i32 (n * we) in
      let hi := i32 (lo + we - 1) in
      if (lo <? 0) || (sv_width src <=? hi) then sim_val_all_x we
      else sim_val_slice src hi lo
  end.

Lemma eval_gslice_known width ew src k :
  eval_gslice width ew src k =
  let we := if ew <=? 0 then width_or width 1 else ew in
  if sim_val_has_xz k then sim_val_all_x we else gslice_known we k src.
Proof. reflexivity. Qed.

Lemma gslice_in_range a b w k wk we :
  refw a b w -> wf k -> sv_width k = wk -> sim_val_has_xz k = false ->
  0 < we <= 256 -> 2 ^ wk * we <= INT32_MAX ->
  refw (gslice_known we k a) (gslice_known we k b) we.
Proof.
  intros Ha Hk Hwk Hx Hwe Hov. pose proof (sv_uint_bounds k Hk) as Hu. rewrite Hwk in Hu.
  pose proof (refw_bounds _ _ _ Ha). unfold gslice_known. rewrite to_index_spec, Hx by done.
  destruct (Z.leb_spec (sv_uint k) INT32_MAX); [|by apply refw_refl, all_x_shape].
  cbv zeta. set (n := sv_uint k) in *.
  assert (0 <= n * we /\ n * we + we <= INT32_MAX) as Hn by nia.
  rewrite (i32_id (n * we)) by lia. rewrite (i32_id (n * we + we - 1)) by lia.
  rewrite (refw_width_r _ _ _ Ha), (proj2 Ha).
  destruct (Z.ltb_spec (n * we) 0), (Z.leb_spec w (n * we + we - 1)); cbn [orb];
    try (by apply refw_refl, all_x_shape).
  pose proof (slice_refw a b w (n * we + we - 1) (n * we) Ha ltac:(lia) ltac:(lia)) as Hs.
  by replace (n * we + we - 1 - n * we + 1) with we in Hs by lia.
Qed.

(** [sbit] at a known index. *)
Lemma sbit_known_refw a b w k :
  refw a b w -> forall c d wc, refw c d wc -> wf k -> sim_val_has_xz k = false ->
  refw (eval_sbit a k c) (eval_sbit b k d) w.
Proof.
  intros Ha c d wc Hc Hk Hx. pose proof (refw_bounds _ _ _ Ha).
  pose proof (refw_bounds _ _ _ Hc).
  destruct (sim_value_to_index k) as [n|] eqn:En.
  2: { unfold eval_sbit. by rewrite Hx, En. }
  pose proof (to_index_bounds k n Hk En).
  destruct (Z.le_gt_cases w n) as [Hge|Hlt].
  { unfold eval_sbit. rewrite Hx, En, (refw_width_r _ _ _ Ha), (proj2 Ha).
    destruct (Z.ltb_spec n 0), (Z.leb_spec w n); try lia. done. }
  rewrite !(eval_sbit_put _ _ _ n) by (rewrite ?(refw_width_r _ _ _ Ha), ?(proj2 Ha); done || lia).
  cbv zeta. pose proof (slice_refw c d wc 0 0 Hc ltac:(lia) ltac:(lia)) as Hs.
  change (0 - 0 + 1) with 1 in Hs.
  set (cs := sim_val_slice c 0 0) in *. set (ds := sim_val_slice d 0 0) in *.
  rewrite (refw_width_r _ _ _ Hs), (proj2 Hs). change (0 <? 1) with true. rewrite !andb_true_r.
  pose proof (ref_wf_l _ _ (proj1 Ha)). pose proof (ref_wf_r _ _ (proj1 Ha)).
  split; [|exact (proj2 Ha)]. constructor.
  - apply put_bits_wf; [done|rewrite (proj2 Ha); lia|apply wf_excl3; [eauto with jz|lia]].
  - apply put_bits_wf; [done|rewrite (refw_width_r _ _ _ Ha); lia
      |apply wf_excl3; [eauto with jz|lia]].
  - apply (ref_width _ _ (proj1 Ha)).
  - intros p Hp. rewrite !put_bits_bit_at by (auto with jz || lia).
    destruct (Z.eqb_spec p n).
    + apply (refines_all_bits cs ds 0); [apply Hs|lia].
    + apply refines_all_bits; [apply Ha|lia].
Qed.

Section Indexed.
Context (a b i j : SimValue) (w wi : Z) (Ha : refw a b w) (Hi : refw i j wi).

Lemma eval_gbit_refw : refw (eval_gbit a i) (eval_gbit b j) 1.
Proof using Ha Hi.
  apply (index_refw eval_gbit _ _ w _ _ wi); [exact Ha|exact Hi| | |done].
  - intros v k _ _ Hx. unfold eval_gbit. by rewrite Hx.
  - intros k Hk Hx. unfold eval_gbit. rewrite Hx, (refw_width_r _ _ _ Ha), (proj2 Ha).
    destruct (sim_value_to_index k) as [n|]; [|by apply refw_refl, zero_shape].
    destruct (Z.ltb_spec n 0), (Z.leb_spec w n); simpl;
      try (by apply refw_refl, zero_shape).
    replace 1 with (n - n + 1) by lia. apply (slice_refw _ _ w); [exact Ha|lia|lia].
Qed.

(** The index is small enough for the [int] product not to overflow. *)
Lemma eval_gslice_refw width ew (we := if ew <=? 0 then width_or width 1 else ew) :
  0 < we <= 256 -> 2 ^ wi * we <= INT32_MAX ->
  refw (eval_gslice width ew a i) (eval_gslice width ew b j) we.
Proof using Ha Hi.
  intros Hwe Hov. rewrite !eval_gslice_known. cbv zeta. fold we.
  assert (forall x y, refw x y w -> sim_val_has_xz j = false ->
    refw (gslice_known we j x) (gslice_known we j y) we) as Hin.
  { intros. apply (gslice_in_range x y w j wi); eauto using refw_width_r with jz. }
  destruct (refw_cases i j wi Hi) as [E|[-> Hk]].
  - rewrite E. apply refw_all_x. destruct (sim_val_has_xz j) eqn:Ej; [by apply all_x_shape|].
    assert (refw b b w) as Hb by (apply refw_refl; split; eauto using refw_width_r with jz).
    specialize (Hin b b Hb eq_refl). split; eauto using refw_width_r with jz.
  - assert (sim_val_has_xz j = false) as Ej by (apply known_has_xz; eauto with jz).
    rewrite Ej. by apply Hin.
Qed.

Lemma eval_sbit_refw c d wc :
  refw c d wc -> refw (eval_sbit a i c) (eval_sbit b j d) w.
Proof using Ha Hi.
  intros Hc. pose proof (refw_bounds _ _ _ Ha) as Hw.
  destruct (refw_cases i j wi Hi) as [E|[-> Hk]].
  - unfold eval_sbit at 1. rewrite E, (proj2 Ha). apply refw_all_x.
    destruct (wf_has_xz j) as [E'|[E' Hk]]; [eauto with jz|..].
    + unfold eval_sbit. rewrite E', (refw_width_r _ _ _ Ha). by apply all_x_shape.
    + assert (refw b b w) as Hb
        by (apply refw_refl; split; eauto using refw_width_r with jz).
      assert (refw d d wc) as Hd
        by (apply refw_refl; split; eauto using refw_width_r with jz).
      pose proof (sbit_known_refw b b w j Hb d d wc Hd (refw_wf_r _ _ _ Hi) E') as H.
      split; eauto using refw_width_r with jz.
  - apply (sbit_known_refw a b w j Ha c d wc Hc); [eauto with jz|].
    by apply known_has_xz; [eauto with jz|].
Qed.
End Indexed.

Lemma zext_refw a b w w' :
  refw a b w -> w' <= 256 -> refw (sim_val_zext a w') (sim_val_zext b w') (Z.max w w').
Proof.
  intros [H <-] Hw. split; [by apply zext_mono|].
  apply zext_shape; [apply H|done].
Qed.

(** [sslice] at a known index. *)
Definition sslice_known (ew lo : Z) (val src : SimValue) : SimValue :=
  let slice_val := sim_val_slice val (ew - 1) 0 in
  let shift_amt := sim_val_from_uint (u64 lo) 32 in
  let shifted_val := sim_val_shl (sim_val_zext slice_val (sv_width src)) shift_amt in
  let shifted_mask :=
    sim_val_shl (sim_val_zext (sim_val_ones ew) (sv_width src)) shift_amt in
  sim_val_or (sim_val_and src (sim_val_not shifted_mask)) shifted_val.

Lemma eval_sslice_known ew src idx val :
  eval_sslice ew src idx val =
  if sim_val_has_xz idx then sim_val_all_x (sv_width src)
  else match sim_value_to_index idx with
       | None => src
       | Some lo =>
           if (lo <? 0) || (sv_width src <=? i32 (lo + ew - 1)) then src
           else sslice_known ew lo val src
       end.
Proof. reflexivity. Qed.

Lemma sslice_known_refw a b w c d wc ew lo :
  refw a b w -> refw c d wc -> 0 < ew <= w -> 0 <= lo <= INT32_MAX ->
  refw (sslice_known ew lo c a) (sslice_known ew lo d b) w.
Proof.
  intros Ha Hc Hew Hlo. pose proof (refw_bounds _ _ _ Ha) as Hw. unfold sslice_known.
  cbv zeta. rewrite (refw_width_r _ _ _ Ha), (proj2 Ha).
  assert (shape (sim_val_from_uint (u64 lo) 32) 32) as Hamt.
  { eapply is_num_shape, from_uint_num; [lia|apply is_u64_u64]. }
  set (amt := sim_val_from_uint _ _) in *.
  pose proof (slice_refw c d wc (ew - 1) 0 Hc ltac:(lia) ltac:(lia)) as Hs.
  replace (ew - 1 - 0 + 1) with ew in Hs by lia.
  pose proof (zext_refw _ _ ew w Hs ltac:(lia)) as Hz. rewrite Z.max_r in Hz by lia.
  pose proof (op2_fst_refw _ _ amt amt w 32 Hz (refw_refl _ _ Hamt) sim_val_shl
    shl_shape (fun p q => shl_mono _ _ p _ _ q)) as Hv.
  pose proof (zext_refw _ _ ew w (refw_refl _ _ (ones_shape ew ltac:(lia))) ltac:(lia)) as Hm.
  rewrite Z.max_r in Hm by lia.
  pose proof (op2_fst_refw _ _ amt amt w 32 Hm (refw_refl _ _ Hamt) sim_val_shl
    shl_shape (fun p q => shl_mono _ _ p _ _ q)) as Hsm.
  set (sm := sim_val_shl (sim_val_zext (sim_val_ones ew) w) amt) in *.
  assert (refw (sim_val_not sm) (sim_val_not sm) w) as Hn.
  { apply refw_refl. pose proof (not_shape sm (refw_wf_l _ _ _ Hsm)) as H.
    by rewrite (proj2 Hsm) in H. }
  pose proof (op2_max_refw _ _ _ _ w w Ha Hn sim_val_and and_shape
    (fun p q => and_mono _ _ p _ _ q)) as Hand.
  rewrite Z.max_id in Hand.
  pose proof (op2_max_refw _ _ _ _ w w Hand Hv sim_val_or or_shape
    (fun p q => or_mono _ _ p _ _ q)) as Hor.
  by rewrite Z.max_id in Hor.
Qed.

Lemma eval_sslice_refw a b i j c d w wi wc ew :
  refw a b w -> refw i j wi -> refw c d wc -> 0 < ew <= w ->
  refw (eval_sslice ew a i c) (eval_sslice ew b j d) w.
Proof.
  intros Ha Hi Hc Hew. rewrite !eval_sslice_known.
  pose proof (refw_bounds _ _ _ Ha) as Hw. rewrite (refw_width_r _ _ _ Ha), (proj2 Ha).
  assert (forall x y c' d', refw x y w -> refw c' d' wc ->
    refw (match sim_value_to_index j with
          | None => x
          | Some lo => if (lo <? 0) || (w <=? i32 (lo + ew - 1)) then x
                       else sslice_known ew lo c' x end)
         (match sim_value_to_index j with
          | None => y
          | Some lo => if (lo <? 0) || (w <=? i32 (lo + ew - 1)) then y
                       else sslice_known ew lo d' y end) w) as Hin.
  { intros x y c' d' Hxy Hcd. destruct (sim_value_to_index j) as [lo|] eqn:El; [|done].
    pose proof (to_index_bounds j lo (refw_wf_r _ _ _ Hi) El).
    destruct (_ || _); [done|]. by apply (sslice_known_refw _ _ _ _ _ wc). }
  destruct (refw_cases i j wi Hi) as [E|[-> Hk]].
  - rewrite E. apply refw_all_x. destruct (sim_val_has_xz j); [by apply all_x_shape|].
    assert (refw b b w) as Hb by (apply refw_refl; split; eauto using refw_width_r with jz).
    assert (refw d d wc) as Hd by (apply refw_refl; split; eauto using refw_width_r with jz).
    pose proof (Hin b b d d Hb Hd) as H. split; eauto using refw_width_r with jz.
  - rewrite known_has_xz by eauto with jz. by apply Hin.
Qed.

(** ** Memories *)

(** A memory whose cells all have the word width; [m] refined by [n]. *)
Record mem_refines (m n : SimMemEntry) (w : Z) : Prop := {
  mr_width_l : me_word_width m = w;
  mr_width_r : me_word_width n = w;
  mr_bounds : 0 < w <= 256;
  mr_depth : me_depth m = me_depth n;
  mr_length : Z.of_nat (length (me_cells m)) = me_depth m;
  mr_cells : Forall2 (fun a b => refw a b w) (me_cells m) (me_cells n)
}.

Lemma Forall2_aget {A B} (P : A -> B -> Prop) d1 d2 l1 l2 i :
  Forall2 P l1 l2 -> 0 <= i < Z.of_nat (length l1) -> P (aget d1 l1 i) (aget d2 l2 i).
Proof.
  intros H Hi. unfold aget. destruct (Z.ltb_spec i 0); [lia|].
  pose proof (Forall2_length _ _ _ H) as Hl. rewrite !nth_lookup.
  destruct (lookup_lt_is_Some_2 l1 (Z.to_nat i)) as [x Ex]; [lia|].
  destruct (Forall2_lookup_l _ _ _ _ _ H Ex) as (y & Ey & Hxy). by rewrite Ex, Ey.
Qed.

Lemma eval_mem_read_refw m n w width i j wi :
  mem_refines m n w -> refw i j wi ->
  refw (eval_mem_read width m i) (eval_mem_read width n j) w.
Proof.
  intros [<- Hwr Hb Hd Hlen Hcells] Hi. unfold eval_mem_read. rewrite Hwr, <- Hd.
  set (w := me_word_width m) in *.
  assert (forall c e, Forall2 (fun a b => refw a b w) c e -> Z.of_nat (length c) = me_depth m ->
    refw (match sim_value_to_index j with
      | None => sim_val_all_x w
      | Some idx => if (idx <? 0) || (me_depth m <=? idx) then sim_val_all_x w
                    else aget (sim_val_zero 0) c idx end)
     (match sim_value_to_index j with
      | None => sim_val_all_x w
      | Some idx => if (idx <? 0) || (me_depth m <=? idx) then sim_val_all_x w
                    else aget (sim_val_zero 0) e idx end) w) as Hin.
  { intros c e Hce Hl. destruct (sim_value_to_index j) as [k|]; [|by apply refw_refl, all_x_shape].
    destruct (Z.ltb_spec k 0), (Z.leb_spec (me_depth m) k); cbn [orb];
      try (by apply refw_refl, all_x_shape).
    apply (Forall2_aget _ _ _ _ _ _ Hce). lia. }
  destruct (refw_cases i j wi Hi) as [E|[-> Hk]].
  - rewrite E. apply refw_all_x. destruct (sim_val_has_xz j); [by apply all_x_shape|].
    assert (Forall2 (fun a b => refw a b w) (me_cells n) (me_cells n)) as Hnn.
    { clear -Hcells. induction Hcells; constructor; [|done]. apply refw_refl.
      split; eauto using refw_width_r with jz. }
    pose proof (Forall2_length _ _ _ Hcells) as El.
    pose proof (Hin _ _ Hnn ltac:(lia)) as H. split; eauto using refw_width_r with jz.
  - rewrite known_has_xz by eauto with jz. by apply Hin.
Qed.

(** ** Selection and concatenation *)

Lemma ternary_refw c d t t' f f' wc w :
  refw c d wc -> refw t t' w -> refw f f' w ->
  refw (sim_val_ternary c t f) (sim_val_ternary d t' f') w.
Proof.
  intros Hc Ht Hf. split.
  - apply ternary_mono; [apply Hc|apply Ht|apply Hf|]. by rewrite (proj2 Ht), (proj2 Hf).
  - rewrite <- (proj2 Ht). apply ternary_shape; eauto with jz.
    by rewrite (proj2 Ht), (proj2 Hf).
Qed.

Definition sum_widths (ws : list Z) : Z := foldr Z.add 0 ws.

Lemma concat_refw vs us ws :
  Forall3 refw vs us ws -> vs <> [] ->
  refw (sim_val_concat vs) (sim_val_concat us) (Z.min 256 (sum_widths ws)).
Proof.
  intros H Hne. assert (Forall2 refines vs us) as H2.
  { clear -H. induction H as [|? ? ? ? ? ? [? _]]; by constructor. }
  assert (Forall wf vs) as Hv.
  { clear -H. induction H; constructor; eauto with jz. }
  split; [by apply concat_mono|].
  assert (cat_width vs = sum_widths ws) as <-.
  { clear -H. induction H as [|? ? ? ? ? ? [_ Hw]]; simpl; [done|]. by rewrite Hw, IHForall3. }
  by apply concat_shape.
Qed.
