(* ===== verification/SimTyping.v ===== *)
(** * Width typing of IR expressions

    [type_expr] infers the width of the value an expression evaluates to, or
    rejects the expression; it states the width discipline the IR builder
    establishes (the rules mirror what each [case] of the evaluator does with
    [expr->width]).  On a typed expression over a typed store, evaluation is
    total, gives a well-formed value of the inferred width, and is monotone.
    Then typing of statements: execution keeps the state well typed. *)

From stdpp Require Import sets.
From S2P Require Import Prelude SimValue SimBits SimArith SimBitwise SimWf SimOrder Util IR SimState SimEval SimDeps SimExec SimExecInv SimSettle SimChunks SimFixpoint SimWrite SimLiveness SimInit SimIntrinsics SimMono.


Local Open Scope Z_scope.
Local Open Scope refines_scope.

Definition ok_width (w : Z) : option Z := if (0 <? w) && (w <=? 256) then Some w else None.

Definition when (b : bool) (o : option Z) : option Z := if b then o else None.

Definition lit_ok (lit : IR_Literal) : bool :=
  (length (lit_words lit) =? 4)%nat
  && forallb (fun x => (0 <=? x) && (x <? 2 ^ 64)) (lit_words lit).

Definition type_unary (k : IR_UnaryKind) (w wo : Z) : option Z :=
  match k with
  | EXPR_UNARY_NOT | EXPR_UNARY_NEG => when (wo <=? width_or w wo) (ok_width (width_or w wo))
  | EXPR_LOGICAL_NOT => Some 1
  end.

Definition type_binary (k : IR_BinaryKind) (w wl wr : Z) : option Z :=
  let m := Z.max wl wr in
  match k with
  | EXPR_BINARY_ADD | EXPR_BINARY_SUB | EXPR_BINARY_MUL | EXPR_BINARY_DIV | EXPR_BINARY_MOD
  | EXPR_INTRINSIC_USUB | EXPR_INTRINSIC_SSUB => ok_width (width_or w m)
  | EXPR_BINARY_AND | EXPR_BINARY_OR | EXPR_BINARY_XOR =>
      when (m <=? width_or w m) (ok_width (width_or w m))
  | EXPR_BINARY_SHL | EXPR_BINARY_SHR | EXPR_BINARY_ASHR => ok_width (width_or w wl)
  | EXPR_INTRINSIC_UMIN | EXPR_INTRINSIC_UMAX | EXPR_INTRINSIC_SMIN | EXPR_INTRINSIC_SMAX =>
      ok_width (width_or w 1)
  | _ => Some 1
  end.

(** [wi] and [wv] are the widths of the index and value operands. *)
Definition type_intrinsic (k : IR_IntrinsicKind) (w ew ws : Z) (wi wv : option Z) : option Z :=
  match k with
  | EXPR_INTRINSIC_UADD | EXPR_INTRINSIC_SADD | EXPR_INTRINSIC_UMUL | EXPR_INTRINSIC_SMUL =>
      wi ← wi; ok_width (width_or w (Z.max ws wi))
  | EXPR_INTRINSIC_GBIT => _ ← wi; Some 1
  | EXPR_INTRINSIC_SBIT => _ ← wi; _ ← wv; Some ws
  | EXPR_INTRINSIC_GSLICE =>
      wi ← wi;
      let we := if ew <=? 0 then width_or w 1 else ew in
      when (2 ^ wi * we <=? INT32_MAX) (ok_width we)
  | EXPR_INTRINSIC_SSLICE =>
      _ ← wi; _ ← wv; when ((0 <? ew) && (ew <=? ws)) (Some ws)
  | EXPR_INTRINSIC_REVERSE | EXPR_INTRINSIC_BSWAP => when (width_or w 1 =? ws) (Some ws)
  | EXPR_INTRINSIC_REDUCE_AND | EXPR_INTRINSIC_REDUCE_OR | EXPR_INTRINSIC_REDUCE_XOR => Some 1
  | _ => ok_width (width_or w 1)
  end.

Definition type_slice (msb lsb : Z) : option Z :=
  when ((0 <=? lsb) && (lsb <=? msb)) (ok_width (msb - lsb + 1)).

Section TypeList.
Context (f : IR_Expr -> option Z).
Fixpoint type_list (n : nat) (es : list IR_Expr) {struct es} : option (list Z) :=
  match n, es with
  | S n', e :: es' => w ← f e; ws ← type_list n' es'; Some (w :: ws)
  | _, _ => Some []
  end.
End TypeList.

Section Typing.
Context (G : Z -> option Z) (M : string -> option Z).

Fixpoint type_expr (e : IR_Expr) : option Z :=
  match e with
  | NullExpr => Some 1
  | ExprLiteral _ lit => when (lit_ok lit) (ok_width (lit_width lit))
  | ExprSignalRef w i =>
      match G i with Some ws => Some ws | None => ok_width (width_or w 1) end
  | ExprUnary k w e => wo ← type_expr e; type_unary k w wo
  | ExprBinary k w l r =>
      wl ← type_expr l; wr ← type_expr r; type_binary k w wl wr
  | ExprTernary _ c t f =>
      _ ← type_expr c; wt ← type_expr t; wf ← type_expr f; when (wt =? wf) (Some wt)
  | ExprConcat _ es =>
      ws ← type_list type_expr concat_max_parts es;
      match ws with [] => None | _ => Some (Z.min 256 (sum_widths ws)) end
  | ExprSlice w i b msb lsb =>
      if negb (expr_is_null b) then _ ← type_expr b; type_slice msb lsb
      else match G i with
           | Some _ => type_slice msb lsb
           | None => ok_width (width_or w 1)
           end
  | ExprMemRead w m _ a =>
      match M m with
      | Some ww => _ ← type_expr a; Some ww
      | None => ok_width (width_or w 1)
      end
  | ExprIntrinsic k w s i v ew =>
      ws ← type_expr s;
      type_intrinsic k w ew ws
        (if intrinsic_uses_index k then type_expr i else None)
        (if intrinsic_uses_value k then type_expr v else None)
  end.
End Typing.

Lemma ok_width_inv w w' : ok_width w = Some w' -> w' = w /\ 0 < w <= 256.
Proof.
  unfold ok_width. destruct (Z.ltb_spec 0 w), (Z.leb_spec w 256); simpl; intros [= <-]; lia.
Qed.

Lemma when_inv b o w : when b o = Some w -> b = true /\ o = Some w.
Proof. by destruct b. Qed.

(** ** Typed, ordered stores *)

Section Stores.
Context {C : Type} {Store : SignalStore C}.
Context (G : Z -> option Z) (M : string -> option Z).

(** [c2] refines [c1] and both have the types [G] and [M]. *)
Record store_refines (c1 c2 : C) : Prop := {
  sr_signals : forall i,
    match sig_current c1 i, sig_current c2 i, G i with
    | Some a, Some b, Some w => refw a b w
    | None, None, None => True
    | _, _, _ => False
    end;
  sr_memories : forall name,
    match mem_entry c1 name, mem_entry c2 name, M name with
    | Some m, Some n, Some w => mem_refines m n w
    | None, None, None => True
    | _, _, _ => False
    end
}.

Definition store_typed (c : C) : Prop := store_refines c c.

(** The result of the second computation refines the first, and the second
    raises the error flag only if the first does. *)
Definition refm (m1 m2 : EvalM SimValue) (w : Z) : Prop :=
  forall e1 e2, (e2 = true -> e1 = true) ->
    refw (fst (m1 e1)) (fst (m2 e2)) w /\ (snd (m2 e2) = true -> snd (m1 e1) = true).

Lemma refm_ret a b w : refw a b w -> refm (mret a) (mret b) w.
Proof using Type. intros H e1 e2 He. by split. Qed.

Lemma refm_bind m1 m2 w (f1 f2 : SimValue -> EvalM SimValue) w' :
  refm m1 m2 w -> (forall a b, refw a b w -> refm (f1 a) (f2 b) w') ->
  refm (m1 ≫= f1) (m2 ≫= f2) w'.
Proof using Type.
  intros Hm Hf e1 e2 He. destruct (Hm e1 e2 He) as [Hv He'].
  unfold mbind, EvalM_bind. destruct (m1 e1) as [a e1'], (m2 e2) as [b e2'].
  by apply (Hf a b Hv).
Qed.

Lemma ok_all_x w w' : ok_width w = Some w' -> refw (sim_val_all_x w) (sim_val_all_x w) w'.
Proof using Type. intros [-> H]%ok_width_inv. by apply refw_refl, all_x_shape. Qed.

Lemma eval_literal_refw w lit w' :
  lit_ok lit = true -> ok_width (lit_width lit) = Some w' ->
  refw (eval_literal w lit) (eval_literal w lit) w'.
Proof using Type.
  intros [Hlen Hws]%andb_true_iff [-> Hw]%ok_width_inv. apply refw_refl.
  assert (shape (sim_val_from_words (lit_words lit) IR_LIT_WORDS (lit_width lit))
    (lit_width lit)) as Hs.
  { unfold sim_val_from_words. cbv zeta. set (r := for_up _ _ _).
    assert (shaped r /\ sv_width r = lit_width lit /\
      forall k, 0 <= k -> xbit r k = false /\ zbit r k = false) as (S1 & S2 & S3).
    { apply (for_up_ind (fun _ r => shaped r /\ sv_width r = lit_width lit /\
        forall k, 0 <= k -> xbit r k = false /\ zbit r k = false)).
      - split_and!; [auto with jz|done|]. intros k Hk. apply sim_val_zero_bits. lia.
      - intros k t _ (R1 & R2 & R3). split_and!; [|done|done].
        destruct R1. constructor; try done. simpl. apply words_ok_aset; [done|].
        apply (words_ok_aget 4). split; [by apply Nat.eqb_eq|].
        apply Forall_forall. intros x Hx. rewrite forallb_forall in Hws.
        apply list_elem_of_In in Hx. specialize (Hws x Hx). unfold is_u64. lia. }
    clearbody r. rewrite <- S2. split; [|by apply sim_val_mask_width].
    apply sim_val_mask_wf; [done|]. intros k Hk. destruct (S3 k) as [-> ->]; [lia|done]. }
  assert (shape (if lit_is_z lit then sim_val_all_z (lit_width lit)
    else sim_val_from_words (lit_words lit) IR_LIT_WORDS (lit_width lit)) (lit_width lit)) as Hv.
  { destruct (lit_is_z lit); [by apply all_z_shape|done]. }
  unfold eval_literal. cbv zeta. rewrite (proj2 Hv).
  destruct (Z.eqb_spec (lit_width lit) 0); [lia|done].
Qed.

Lemma eval_unary_refw k w a b wo w' :
  refw a b wo -> type_unary k w wo = Some w' -> refw (eval_unary k w a) (eval_unary k w b) w'.
Proof using Type.
  intros H Ht. pose proof (refw_wf_l _ _ _ H) as Hwf.
  destruct k; simpl in *; [apply when_inv in Ht as [Hle Ht]; apply ok_width_inv in Ht as [-> Ht]..|].
  - apply with_width_refw; [|lia]. split; [apply not_mono, H|].
    rewrite <- (proj2 H). by apply not_shape.
  - apply with_width_refw; [|lia]. split; [apply neg_mono, H|].
    rewrite <- (proj2 H). by apply neg_shape.
  - injection Ht as <-. split; [apply logical_not_mono, H|]. apply lnot_shape.
Qed.

Lemma eval_binary_refw k w a b c d wl wr w' :
  refw a b wl -> refw c d wr -> type_binary k w wl wr = Some w' ->
  refw (eval_binary k w a c) (eval_binary k w b d) w'.
Proof using Type.
  intros Ha Hc Ht. pose proof (op2_max_refw a b c d wl wr Ha Hc) as Omax.
  pose proof (op2_fst_refw a b c d wl wr Ha Hc) as Ofst.
  pose proof (op2_one_refw a b c d wl wr Ha Hc) as Oone.
  destruct k; simpl in *;
    try (injection Ht as <-; apply Oone);
    try (apply when_inv in Ht as [Hle Ht]; apply ok_width_inv in Ht as [-> Ht];
         apply with_width_refw; [apply Omax|lia]);
    try (apply ok_width_inv in Ht as [-> Ht];
         first [ by apply (eval_uminmax_refw _ _ _ _ _ _ wl wr)
               | by apply (eval_sminmax_refw _ _ _ _ _ _ wl wr)
               | apply mask_with_width_refw; [first [apply Omax|apply Ofst]|done] ]);
    auto using add_shape, sub_shape, mul_shape, div_shape, mod_shape, and_shape, or_shape,
      xor_shape, shl_shape, shr_shape, ashr_shape, eq_shape, neq_shape, lt_shape, gt_shape,
      lte_shape, gte_shape, land_shape, lor_shape;
    intros; first [ by apply add_mono | by apply sub_mono | by apply mul_mono
      | by apply div_mono | by apply mod_mono | by apply and_mono | by apply or_mono
      | by apply xor_mono | by apply shl_mono | by apply shr_mono | by apply ashr_mono
      | by apply eq_mono | by apply neq_mono | by apply lt_mono | by apply gt_mono
      | by apply lte_mono | by apply gte_mono | by apply logical_and_mono
      | by apply logical_or_mono ].
Qed.

(** Operands an intrinsic does not use are placeholders. *)
Definition opt_refw (a b : SimValue) (w : option Z) : Prop :=
  match w with Some w => refw a b w | None => True end.

Lemma eval_intrinsic_refw k w ew a b i j c d ws wi wc w' :
  refw a b ws -> opt_refw i j wi -> opt_refw c d wc ->
  type_intrinsic k w ew ws wi wc = Some w' ->
  refw (eval_intrinsic k w ew a i c) (eval_intrinsic k w ew b j d) w'.
Proof using Type.
  intros Ha Hi Hc Ht.
  pose proof (eval_counters_refw a b ws w Ha) as Hcnt.
  pose proof (eval_reduce_refw a b ws Ha) as (Hand & Hor & Hxor).
  destruct k; simpl in Ht.
  1-8: destruct wi as [wi|]; [|done]; simpl in Hi, Ht.
  1-4: apply ok_width_inv in Ht as [-> Ht]; apply mask_with_width_refw; [|done];
    apply op2_max_refw; auto using add_shape, mul_shape; intros;
    by apply add_mono || by apply mul_mono.
  - injection Ht as <-. exact (eval_gbit_refw _ _ _ _ ws wi Ha Hi).
  - destruct wc as [wc|]; [|done]. injection Ht as <-.
    exact (eval_sbit_refw _ _ _ _ ws wi Ha Hi _ _ wc Hc).
  - apply when_inv in Ht as [Hov%Z.leb_le [-> Ht]%ok_width_inv].
    exact (eval_gslice_refw _ _ _ _ ws wi Ha Hi _ _ Ht Hov).
  - destruct wc as [wc|]; [|done]. simpl in Ht.
    apply when_inv in Ht as [[H1%Z.ltb_lt H2%Z.leb_le]%andb_true_iff [= <-]].
    exact (eval_sslice_refw _ _ _ _ _ _ ws wi wc _ Ha Hi Hc (conj H1 H2)).
  - apply ok_width_inv in Ht as [-> Ht]. destruct (Hcnt Ht) as (O & B & P & L & C' & A). exact O.
  - apply ok_width_inv in Ht as [-> Ht]. destruct (Hcnt Ht) as (O & B & P & L & C' & A). exact B.
  - apply ok_width_inv in Ht as [-> Ht]. destruct (Hcnt Ht) as (O & B & P & L & C' & A). exact P.
  - apply ok_width_inv in Ht as [-> Ht]. destruct (Hcnt Ht) as (O & B & P & L & C' & A). exact L.
  - apply ok_width_inv in Ht as [-> Ht]. destruct (Hcnt Ht) as (O & B & P & L & C' & A). exact A.
  - apply ok_width_inv in Ht as [-> Ht]. destruct (Hcnt Ht) as (O & B & P & L & C' & A). exact C'.
  - apply when_inv in Ht as [Hw%Z.eqb_eq [= <-]]. exact (eval_reverse_refw _ _ _ _ Ha Hw).
  - apply when_inv in Ht as [Hw%Z.eqb_eq [= <-]]. exact (eval_bswap_refw _ _ _ _ Ha Hw).
  - injection Ht as <-. exact Hand.
  - injection Ht as <-. exact Hor.
  - injection Ht as <-. exact Hxor.
Qed.

Section Ordered.
Context (c1 c2 : C) (Hstore : store_refines c1 c2).

Local Notation expr_ok e :=
  (forall w, type_expr G M e = Some w -> refm (sim_eval_expr c1 e) (sim_eval_expr c2 e) w).

Lemma signal_refw i w' wd :
  match G i with Some ws => Some ws | None => ok_width wd end = Some w' ->
  refw (match sig_current c1 i with Some v => v | None => sim_val_all_x wd end)
       (match sig_current c2 i with Some v => v | None => sim_val_all_x wd end) w'.
Proof using Hstore.
  intros Ht. pose proof (sr_signals _ _ Hstore i) as H.
  destruct (sig_current c1 i), (sig_current c2 i), (G i); try done.
  - by injection Ht as <-.
  - by apply ok_all_x.
Qed.

Lemma eval_list_refm n es ws :
  Forall (fun e => expr_ok e) es -> type_list (type_expr G M) n es = Some ws ->
  forall e1 e2, (e2 = true -> e1 = true) ->
    let m1 := eval_list (sim_eval_expr c1) n es e1 in
    let m2 := eval_list (sim_eval_expr c2) n es e2 in
    Forall3 refw m1.1 m2.1 ws /\ (m2.2 = true -> m1.2 = true).
Proof using Hstore.
  intros Hes. revert n ws. induction Hes as [|e es He _ IH]; intros n ws Ht e1 e2 Hee.
  { destruct n; injection Ht as <-; split; [constructor|done|constructor|done]. }
  destruct n as [|n]; [injection Ht as <-; split; [constructor|done]|].
  cbn [type_list] in Ht. destruct (type_expr G M e) as [w|] eqn:Ew; [|done].
  simpl in Ht. destruct (type_list _ n es) as [ws'|] eqn:Ews; [|done].
  injection Ht as <-. destruct (He w eq_refl e1 e2 Hee) as [Hv He'].
  cbn [eval_list]. unfold mbind, EvalM_bind.
  destruct (sim_eval_expr c1 e e1) as [v1 r1], (sim_eval_expr c2 e e2) as [v2 r2].
  destruct (IH n ws' Ews r1 r2 He') as [Hvs Hr].
  destruct (eval_list (sim_eval_expr c1) n es r1) as [vs1 s1],
    (eval_list (sim_eval_expr c2) n es r2) as [vs2 s2].
  split; [by constructor|done].
Qed.

Lemma eval_if_refm use e wo :
  expr_ok e -> (if use : bool then type_expr G M e else None) = wo ->
  (use = true -> is_Some wo) ->
  forall e1 e2, (e2 = true -> e1 = true) ->
    let m1 := eval_if use (sim_eval_expr c1 e) e1 in
    let m2 := eval_if use (sim_eval_expr c2 e) e2 in
    opt_refw m1.1 m2.1 wo /\ (m2.2 = true -> m1.2 = true).
Proof using Hstore.
  intros He <- Hsome e1 e2 Hee. destruct use; [|by split].
  destruct (Hsome eq_refl) as [w Hw]. simpl. rewrite Hw. by apply He.
Qed.

(** Both evaluations of a typed expression are typed and ordered. *)
Lemma eval_refm e : expr_ok e.
Proof using Hstore.
  induction e as [|w lit|w i|k w e IHe|k w l r IHl IHr|w c t f IHc IHt IHf|w es IHes
    |w i b msb lsb IHb|k w s i v ew IHs IHi IHv|w m p a IHa] using IR_Expr_ind';
    intros w' Ht; simpl in Ht.
  - injection Ht as <-. by apply refm_ret, refw_refl, all_x_shape.
  - apply when_inv in Ht as [Hl Ht]. by apply refm_ret, eval_literal_refw.
  - by apply refm_ret, signal_refw.
  - destruct (type_expr G M e) as [wo|]; [|done]. simpl in *.
    eapply refm_bind; [by apply IHe|]. intros. by eapply refm_ret, eval_unary_refw.
  - destruct (type_expr G M l) as [wl|]; [|done]. simpl in *.
    destruct (type_expr G M r) as [wr|]; [|done]. simpl in *.
    eapply refm_bind; [by apply IHl|]. intros. eapply refm_bind; [by apply IHr|].
    intros. by eapply refm_ret, eval_binary_refw.
  - destruct (type_expr G M c) as [wc|]; [|done]. simpl in *.
    destruct (type_expr G M t) as [wt|]; [|done]. simpl in *.
    destruct (type_expr G M f) as [wf|]; [|done]. simpl in *.
    apply when_inv in Ht as [->%Z.eqb_eq [= <-]].
    eapply refm_bind; [by apply IHc|]. intros ca cb Hc.
    eapply refm_bind; [by apply IHt|]. intros ta tb Htt.
    eapply refm_bind; [by apply IHf|]. intros fa fb Hff e1 e2 Hee.
    unfold eval_ternary. split; [by apply (ternary_refw _ _ _ _ _ _ wc)|]. simpl.
    intros [He|He]%orb_true_iff; apply orb_true_iff; [left; auto|right].
    destruct (refw_cases ca cb wc Hc) as [|[<- _]]; done.
  - destruct (type_list _ _ es) as [ws|] eqn:Ews; [|done]. simpl in Ht.
    intros e1 e2 Hee. destruct (eval_list_refm _ _ _ IHes Ews e1 e2 Hee) as [Hv Hr].
    simpl. unfold mbind, EvalM_bind.
    destruct (eval_list (sim_eval_expr c1) _ es e1) as [vs1 r1],
      (eval_list (sim_eval_expr c2) _ es e2) as [vs2 r2].
    simpl in *. split; [|done]. destruct ws as [|w0 ws]; [done|]. injection Ht as <-.
    apply (concat_refw _ _ (w0 :: ws)); [done|]. by inversion Hv.
  - simpl. destruct (negb (expr_is_null b)).
    + destruct (type_expr G M b) as [wb|]; [|done]. simpl in Ht.
      apply when_inv in Ht as [[H1%Z.leb_le H2%Z.leb_le]%andb_true_iff [-> H3]%ok_width_inv].
      eapply refm_bind; [by apply IHb|]. intros. apply refm_ret.
      apply (slice_refw _ _ wb); [done|lia|lia].
    + apply refm_ret. pose proof (sr_signals _ _ Hstore i) as H.
      destruct (sig_current c1 i), (sig_current c2 i), (G i) as [ws|]; try done.
      * apply when_inv in Ht as [[H1%Z.leb_le H2%Z.leb_le]%andb_true_iff [-> H3]%ok_width_inv].
        apply (slice_refw _ _ ws); [done|lia|lia].
      * by apply ok_all_x.
  - destruct (type_expr G M s) as [ws|] eqn:Es; [|done]. simpl in Ht. simpl.
    eapply refm_bind; [by apply IHs|]. intros sa sb Hs e1 e2 Hee.
    unfold mbind, EvalM_bind.
    destruct (eval_if_refm (intrinsic_uses_index k) i _ IHi eq_refl) with (e1 := e1) (e2 := e2)
      as [Hi Hir]; [|done|].
    { intros E. rewrite E in Ht. destruct k, (type_expr G M i); done || eauto. }
    destruct (eval_if (intrinsic_uses_index k) (sim_eval_expr c1 i) e1) as [ia r1],
      (eval_if (intrinsic_uses_index k) (sim_eval_expr c2 i) e2) as [ib r2].
    destruct (eval_if_refm (intrinsic_uses_value k) v _ IHv eq_refl) with (e1 := r1) (e2 := r2)
      as [Hv Hvr]; [|done|].
    { intros E. rewrite E in Ht.
      destruct k; try done; simpl in Ht; destruct (type_expr G M i); try done;
        destruct (type_expr G M v); done || eauto. }
    destruct (eval_if (intrinsic_uses_value k) (sim_eval_expr c1 v) r1) as [va s1],
      (eval_if (intrinsic_uses_value k) (sim_eval_expr c2 v) r2) as [vb s2].
    split; [|done]. by eapply eval_intrinsic_refw.
  - simpl. pose proof (sr_memories _ _ Hstore m) as H.
    destruct (mem_entry c1 m), (mem_entry c2 m), (M m) as [ww|]; try done.
    + destruct (type_expr G M a) as [wa|]; [|done]. simpl in Ht. injection Ht as <-.
      eapply refm_bind; [by apply IHa|]. intros. by eapply refm_ret, eval_mem_read_refw.
    + by apply refm_ret, ok_all_x.
Qed.
End Ordered.
End Stores.

(** * Execution keeps the state well typed

    [state_typed G M s]: every signal holds, now and pending, a well-formed
    value of its width in [G], and every memory cells of its width in [M].
    Creation establishes it; statements accepted by [assign_typed] and
    [mem_write_typed] keep it, blocking or not, and so does the commit. *)


Local Open Scope Z_scope.
Local Open Scope refines_scope.

Lemma refw_self a w : refw a a w <-> shape a w.
Proof.
  split; [|apply refw_refl]. intros H. split; [by eapply refw_wf_l|by eapply refw_width_r].
Qed.

(** ** Typing rules *)

Section Rules.
Context (G : Z -> option Z) (M : string -> option Z).

Definition is_ext (k : IR_AssignmentKind) : bool :=
  match k with ASSIGN_ALIAS | ASSIGN_DRIVE | ASSIGN_RECEIVE => false | _ => true end.

(** Extensions do not narrow, part-selects are in range. *)
Definition assign_typed (a : IR_Assignment) : bool :=
  match G (asgn_lhs_signal_id a), type_expr G M (asgn_rhs a) with
  | Some w, Some wr =>
      (negb (is_ext (asgn_kind a)) || (wr <=? w))
      && (negb (asgn_is_sliced a)
          || (0 <=? asgn_lhs_lsb a) && (asgn_lhs_lsb a <=? asgn_lhs_msb a)
             && (asgn_lhs_msb a <? w))
  | None, Some _ => true
  | _, None => false
  end.

Definition mem_write_typed (m : string) (address data : IR_Expr) : bool :=
  match type_expr G M address, type_expr G M data with
  | Some _, Some wd => match M m with Some ww => wd =? ww | None => true end
  | _, _ => false
  end.

Definition stmt_typed : IR_Stmt -> Prop :=
  stmt_forall (fun a => assign_typed a = true) (fun m a d => mem_write_typed m a d = true).
End Rules.

Record state_typed (G : Z -> option Z) (M : string -> option Z) (s : SimModuleState) : Prop := {
  st_state : state_ok s;
  st_store : store_typed G M s;
  st_next : forall id i w, sim_ctx_lookup s id = Some i -> G id = Some w ->
    shape (se_next (entry_at s i)) w
}.

Section Preservation.
Context (G : Z -> option Z) (M : string -> option Z).

Lemma typed_signal s id i :
  state_typed G M s -> sim_ctx_lookup s id = Some i ->
  exists w, G id = Some w /\ shape (se_current (entry_at s i)) w /\ shape (se_next (entry_at s i)) w.
Proof using Type.
  intros [H1 H2 H3] Hl. pose proof (sr_signals G M s s H2 id) as H.
  cbn [sig_current state_store] in H. rewrite Hl in H. cbn [option_map] in H.
  destruct (G id) as [w|] eqn:Eg; [|done]. exists w.
  split_and!; [done|by apply refw_self|by apply (H3 id)].
Qed.

(** The value of a typed expression. *)
Lemma typed_value s e w :
  state_typed G M s -> type_expr G M e = Some w -> shape (eval_value s e) w.
Proof using Type.
  intros Hs Ht. apply refw_self.
  by apply (eval_refm G M s s (st_store _ _ _ Hs) e w Ht false false).
Qed.

(** States that differ in the flags only. *)
Lemma typed_error s b : state_typed G M s -> state_typed G M (set_runtime_error b s).
Proof using Type. intros [[? ?] [H1 H2] ?]. split; [by split|split|done]; [apply H1|apply H2]. Qed.

Lemma typed_mark s i : state_typed G M s -> state_typed G M (mark_dirty i s).
Proof using Type.
  intros [H [H1 H2] ?]. split; [|split|done]; [|apply H1|apply H2].
  by apply (state_ok_static s); [apply same_static_mark|].
Qed.

(** Replacing an entry by one with values of the same width. *)
Lemma typed_update s id i w f :
  state_typed G M s -> sim_ctx_lookup s id = Some i -> G id = Some w ->
  (forall e, se_signal_id (f e) = se_signal_id e) ->
  shape (se_current (f (entry_at s i))) w -> shape (se_next (f (entry_at s i))) w ->
  state_typed G M (update_entry i f s).
Proof using Type.
  intros Hs Hl Hg Hid Hc Hn. pose proof (same_static_update s i f Hid) as Hst.
  pose proof (so_lookup s (st_state _ _ _ Hs) id i Hl) as Hi.
  destruct (typed_signal s id i Hs Hl) as (w0 & Eg & Sc & _).
  rewrite Eg in Hg. injection Hg as ->.
  assert (forall id' j, sim_ctx_lookup s id' = Some j -> exists w', G id' = Some w' /\
    shape (se_current (entry_at (update_entry i f s) j)) w' /\
    shape (se_next (entry_at (update_entry i f s) j)) w') as H.
  { intros id' j Hj. destruct (typed_signal s id' j Hs Hj) as (w' & Eg' & Sc' & Sn').
    exists w'. rewrite entry_update by done. destruct (Z.eqb_spec i j) as [<-|]; [|done].
    assert (w' = w) as -> by (rewrite <- (proj2 Sc), <- (proj2 Sc'); done). done. }
  split; [by apply (state_ok_static s); [|apply Hs]|split|].
  - intros id'. cbn [sig_current state_store]. rewrite (lookup_static s _ id' Hst).
    pose proof (sr_signals G M s s (st_store _ _ _ Hs) id') as H0.
    cbn [sig_current state_store] in H0. destruct (sim_ctx_lookup s id') as [j|] eqn:Hj; [|done].
    destruct (H id' j Hj) as (w' & -> & Sc' & _). cbn [option_map]. by apply refw_self.
  - exact (sr_memories G M s s (st_store _ _ _ Hs)).
  - intros id' j w'. rewrite (lookup_static s _ id' Hst). intros Hj Hg'.
    destruct (H id' j Hj) as (w'' & E & _ & Sn). congruence.
Qed.

Lemma extend_rhs_shape k v wr w :
  shape v wr -> 0 < w <= 256 -> (is_ext k = true -> wr <= w) -> shape (extend_rhs k v w) w.
Proof using Type.
  intros [Hv <-] Hw Hk.
  assert (shape (if negb (sv_width v =? w) then sim_val_mask (set_width w v) else v) w) as H0.
  { destruct (Z.eqb_spec (sv_width v) w) as [E|]; cbn [negb]; [by split|].
    by apply mask_set_width_shape. }
  destruct k; cbn [extend_rhs]; try exact H0; specialize (Hk eq_refl).
  1, 3, 5: pose proof (zext_shape v w Hv ltac:(lia)) as H; by rewrite Z.max_r in H by lia.
  all: pose proof (sext_shape v w Hv ltac:(lia)) as H; by rewrite Z.max_r in H by lia.
Qed.

Lemma write_slice_shape t src msb lsb w ws :
  shape t w -> shape src ws -> 0 <= lsb <= msb -> msb < w -> shape (write_slice t src msb lsb) w.
Proof using Type.
  intros [Ht <-] [Hs _] Hl Hm. by destruct (write_slice_bits t src msb lsb) as (A & B & _).
Qed.

Lemma typed_assign nba s a :
  assign_typed G M a = true -> state_typed G M s -> state_typed G M (apply_assign s a nba).
Proof using Type.
  intros Ha Hs. unfold apply_assign.
  destruct (sim_ctx_lookup s (asgn_lhs_signal_id a)) as [i|] eqn:El; [|done].
  destruct (typed_signal s _ i Hs El) as (w & Eg & Sc & Sn).
  unfold assign_typed in Ha. rewrite Eg in Ha.
  destruct (type_expr G M (asgn_rhs a)) as [wr|] eqn:Et; [|done].
  apply andb_true_iff in Ha as [Hext Hsl].
  pose proof (typed_value s _ _ Hs Et) as Hv. pose proof (wf_width _ (proj1 Sc)) as Hw.
  rewrite (proj2 Sc) in Hw. rewrite eval_in_split. cbv beta iota zeta.
  set (u := set_runtime_error _ s). assert (state_typed G M u) as Hu by by apply typed_error.
  assert (entry_at u i = entry_at s i) as Ee by done.
  assert (sim_ctx_lookup u (asgn_lhs_signal_id a) = Some i) as Elu by done. clearbody u.
  rewrite Ee, (proj2 Sc). set (rhs := extend_rhs _ _ w).
  assert (shape rhs w) as Hr.
  { apply (extend_rhs_shape _ _ wr); [done|done|]. intros E. rewrite E in Hext. cbn in Hext. lia. }
  assert (forall f, (forall e, se_signal_id (f e) = se_signal_id e) ->
    shape (se_current (f (entry_at s i))) w -> shape (se_next (f (entry_at s i))) w ->
    state_typed G M (update_entry i f u)) as Hup.
  { intros f H1 H2 H3. apply (typed_update u (asgn_lhs_signal_id a) i w); try done; by rewrite Ee. }
  destruct (asgn_is_sliced a).
  - cbn in Hsl. assert (forall t, shape t w ->
      shape (write_slice t rhs (asgn_lhs_msb a) (asgn_lhs_lsb a)) w) as Hws.
    { intros t Ht. apply (write_slice_shape _ _ _ _ _ w); done || lia. }
    unfold assign_slice. cbv zeta. rewrite Ee. destruct nba.
    + apply Hup; [done|done|]. simpl. apply Hws. by destruct (se_has_pending _).
    + destruct (words_same _ _ _ _); [|apply typed_mark]; apply Hup; try done; by apply Hws.
  - unfold assign_full. cbv zeta. destruct nba; [by apply Hup|].
    destruct (words_same _ _ _ _); [done|]. apply typed_mark. by apply Hup.
Qed.

Lemma mem_index_bounds v depth idx :
  sim_value_to_mem_index v depth = Some idx -> idx < u64 depth.
Proof using Type.
  unfold sim_value_to_mem_index. cbv zeta. destruct (sim_val_has_xz v); [done|].
  destruct (ret_up _ _); [done|]. destruct (Z.leb_spec (u64 depth) (vget v 0)); [done|].
  cbn [orb]. destruct (INT32_MAX <? _); [done|]. intros [= <-]. lia.
Qed.

Lemma set_cell_typed me w idx v :
  mem_refines me me w -> shape v w -> mem_refines (set_cell idx v me) (set_cell idx v me) w.
Proof using Type.
  intros [A B C D E F] Hv. constructor; try done; cbn [set_cell me_cells me_depth].
  - by rewrite length_aset.
  - unfold aset. destruct (idx <? 0); [done|]. apply Forall2_insert; [done|by apply refw_self].
Qed.

Lemma typed_mem_write s m a d :
  mem_write_typed G M m a d = true -> state_typed G M s -> state_typed G M (exec_mem_write s m a d).
Proof using Type.
  intros Ht Hs. unfold exec_mem_write.
  destruct (sim_ctx_lookup_mem s m) as [k|] eqn:Ek; [|done].
  destruct (ctx_memories s !! k) as [me|] eqn:Em; [|done].
  unfold mem_write_typed in Ht. destruct (type_expr G M a) as [wa|]; [|done].
  destruct (type_expr G M d) as [wd|] eqn:Ed; [|done].
  rewrite eval_in_split. cbv beta iota zeta. set (u := set_runtime_error _ s).
  assert (state_typed G M u) as Hu by by apply typed_error.
  rewrite eval_in_split. cbv beta iota zeta.
  pose proof (typed_value u d wd Hu Ed) as Hv. set (t := set_runtime_error _ u).
  assert (state_typed G M t) as Htt by by apply typed_error.
  destruct (sim_value_to_mem_index _ _) as [idx|]; [|done].
  assert (ctx_memories t = ctx_memories s /\ ctx_module t = ctx_module s) as [Em' Emod] by done.
  clearbody t u. destruct Htt as [T1 [T2 T3] T4]. split; [|split|done].
  - apply (state_ok_static t); [|done]. apply same_static_memory. by rewrite Em', length_insert.
  - exact T2.
  - intros name. specialize (T3 name). cbn [mem_entry state_store] in *.
    unfold sim_ctx_lookup_mem in *. cbn [ctx_module ctx_memories set_memories] in *.
    rewrite length_insert, Em', Emod in *.
    destruct (find_memory _ name) as [j|] eqn:Ej; [|done]. cbn [mbind option_bind] in *.
    destruct (decide (j = k)) as [->|Hne]; [|by rewrite list_lookup_insert_ne by done].
    rewrite list_lookup_insert_eq by (by eapply lookup_lt_Some). rewrite Em in T3.
    destruct (M name) as [ww|] eqn:Eww; [|done].
    apply set_cell_typed; [done|].
    pose proof (sr_memories G M s s (st_store _ _ _ Hs) m) as Hm. cbn [mem_entry state_store] in Hm.
    unfold sim_ctx_lookup_mem in Hm. rewrite Ek in Hm. cbn [mbind option_bind] in Hm.
    rewrite Em in Hm. destruct (M m) as [ww'|]; [|done].
    apply Z.eqb_eq in Ht as ->.
    by rewrite <- (mr_width_l _ _ _ T3), (mr_width_l _ _ _ Hm).
Qed.

(** Every typed statement. *)
Lemma typed_exec nba stmt s :
  stmt_typed G M stmt -> state_typed G M s -> state_typed G M (sim_exec_stmt nba s stmt).
Proof using Type.
  intros Hst. apply (exec_invariant nba (fun s t => state_typed G M s -> state_typed G M t)
    (fun a => assign_typed G M a = true) (fun m a d => mem_write_typed G M m a d = true)); try done.
  - auto.
  - intros t b _. apply typed_error.
  - intros t a. apply typed_assign.
  - intros t m a d. apply typed_mem_write.
Qed.

(** The commit. *)
Lemma typed_commit s : state_typed G M s -> state_typed G M (apply_nba_state s).
Proof using Type.
  intros Hs. destruct (apply_nba_spec s (st_state _ _ _ Hs)) as (Hst & Hmem & H).
  set (t := apply_nba_state s) in *. clearbody t.
  assert (forall id i, sim_ctx_lookup s id = Some i -> exists w, G id = Some w /\
    shape (se_current (entry_at t i)) w /\ shape (se_next (entry_at t i)) w) as Hsig.
  { intros id i Hl. destruct (typed_signal s id i Hs Hl) as (w & Eg & Sc & Sn). exists w.
    destruct (H i) as [-> _]; [by apply (so_lookup s (st_state _ _ _ Hs) id)|].
    by destruct (se_has_pending _). }
  split; [by apply (state_ok_static s); [|apply Hs]|split|].
  - intros id. cbn [sig_current state_store]. rewrite (lookup_static s t id Hst).
    pose proof (sr_signals G M s s (st_store _ _ _ Hs) id) as H0.
    cbn [sig_current state_store] in H0. destruct (sim_ctx_lookup s id) as [i|] eqn:Hl; [|done].
    destruct (Hsig id i Hl) as (w & -> & Sc & _). cbn [option_map]. by apply refw_self.
  - intros name. pose proof (sr_memories G M s s (st_store _ _ _ Hs) name) as H0.
    cbn [mem_entry state_store] in *. unfold sim_ctx_lookup_mem in *.
    by rewrite Hmem, (ss_module _ _ Hst).
  - intros id i w Hl Hg. rewrite (lookup_static s t id Hst) in Hl.
    destruct (Hsig id i Hl) as (w' & E & _ & Sn). congruence.
Qed.
End Preservation.

(** ** Creation *)

(** The widths a module declares, through the tables of its state. *)
Definition signal_types (s : SimModuleState) (id : Z) : option Z :=
  option_map (fun i => sig_width (aget null_signal (mod_signals (ctx_module s)) i))
    (sim_ctx_lookup s id).

Definition memory_types (s : SimModuleState) (name : string) : option Z :=
  k ← sim_ctx_lookup_mem s name; mem_word_width <$> mod_memories (ctx_module s) !! k.

Lemma find_memory_lt mems name k : find_memory mems name = Some k -> (k < length mems)%nat.
Proof.
  revert k. induction mems as [|m mems IH]; intros k; cbn [find_memory length]; [done|].
  destruct (String.eqb _ _); [intros [= <-]; lia|].
  destruct (find_memory mems name) as [j|]; [|done]. intros [= <-]. specialize (IH j eq_refl). lia.
Qed.

Lemma created_typed m s :
  created m s -> (forall mem, mem ∈ mod_memories m -> 0 <= mem_depth mem) ->
  state_typed (signal_types s) (memory_types s) s.
Proof.
  intros [Em Ht Hl _ _ _ _ Hsig Hmem] Hd.
  assert (forall id i, sim_ctx_lookup s id = Some i -> exists sig,
    aget null_signal (mod_signals (ctx_module s)) i = sig /\ fresh_entry sig (entry_at s i)) as H.
  { intros id i Hi. pose proof (so_lookup s (tb_state s Ht) id i Hi) as Hr. unfold in_range in Hr.
    pose proof (Forall2_length _ _ _ Hsig) as Hlen. rewrite Em. eexists. split; [done|].
    apply (Forall2_aget fresh_entry); [done|lia]. }
  split; [apply Ht|split|].
  - intros id. cbn [sig_current state_store]. unfold signal_types.
    destruct (sim_ctx_lookup s id) as [i|] eqn:E; [|done]. cbn [option_map].
    destruct (H id i E) as (sig & -> & Hf). apply refw_self. apply (fe_current _ _ Hf).
  - intros name. cbn [mem_entry state_store]. unfold memory_types.
    destruct (sim_ctx_lookup_mem s name) as [k|] eqn:E; [|done]. cbn [mbind option_bind].
    unfold sim_ctx_lookup_mem in E. apply find_memory_lt in E. rewrite length_take in E.
    destruct (lookup_lt_is_Some_2 (ctx_memories s) k) as [me Eme]; [lia|]. rewrite Eme.
    destruct (Forall2_lookup_r _ _ _ _ _ Hmem Eme) as (mem & Emem & Hf).
    rewrite Em, Emem. cbn. destruct Hf as [F1 F2 F3 Fb F4 F5].
    assert (mem ∈ mod_memories m) as Hin by (by eapply list_elem_of_lookup_2).
    specialize (Hd mem Hin).
    assert (Forall (fun v => shape v (mem_word_width mem)) (me_cells me)) as Hc.
    { eapply Forall_impl; [exact F5|]. by intros v [? _]. }
    constructor; try done; [lia|].
    clear -Hc. induction Hc; constructor; [by apply refw_self|done].
  - intros id i w Hi. unfold signal_types. rewrite Hi. cbn [option_map]. intros [= <-].
    destruct (H id i Hi) as (sig & -> & Hf). apply (fe_next _ _ Hf).
Qed.
