(* ===== verification/SimEvalSpec.v ===== *)
(** * What the evaluator promises

    The properties of [sim_eval_expr] and of the intrinsics. *)

From stdpp Require Import sets.
From S2P Require Import Prelude SimValue SimBits SimArith SimBitwise SimWf SimOrder IR Util SimState SimEval SimDeps SimExec SimIntrinsics SimWrite SimMono SimTyping.

Local Open Scope Z_scope.
Local Open Scope refines_scope.

(** ** A store for the witnesses: three signals, no memory *)

Definition sample_store (id : Z) : option SimValue :=
  if id =? 0 then Some (sim_val_from_uint 200 8)
  else if id =? 1 then Some (sim_val_from_uint 7 8)
  else if id =? 2 then Some (sim_val_all_x 8)
  else None.

(** The same store with the unknown signal resolved. *)
Definition sample_store_known (id : Z) : option SimValue :=
  if id =? 2 then Some (sim_val_from_uint 3 8) else sample_store id.

Definition sample_types (id : Z) : option Z :=
  if (0 <=? id) && (id <=? 2) then Some 8 else None.

#[local] Arguments sim_val_from_uint : simpl never.
#[local] Arguments sim_val_all_x : simpl never.

#[local] Instance fun_store : SignalStore (Z -> option SimValue) := {
  sig_current c id := c id;
  mem_entry c name := None
}.

Lemma sample_store_refines :
  store_refines sample_types (fun _ => None) sample_store sample_store_known.
Proof.
  split; [|done]. intros i. cbn. unfold sample_store_known, sample_store, sample_types.
  destruct (Z.eqb_spec i 2) as [->|]; cbn; [apply refw_all_x; sample|].
  destruct (Z.eqb_spec i 0) as [->|]; [apply refw_refl; sample|].
  destruct (Z.eqb_spec i 1) as [->|]; [apply refw_refl; sample|].
  destruct (Z.leb_spec 0 i), (Z.leb_spec i 2); try done. lia.
Qed.

Lemma sample_store_typed : store_typed sample_types (fun _ => None) sample_store.
Proof.
  split; [|done]. intros i. cbn. unfold sample_store, sample_types.
  destruct (Z.eqb_spec i 0) as [->|]; [apply refw_refl; sample|].
  destruct (Z.eqb_spec i 1) as [->|]; [apply refw_refl; sample|].
  destruct (Z.eqb_spec i 2) as [->|]; [apply refw_refl; sample|].
  destruct (Z.leb_spec 0 i), (Z.leb_spec i 2); try done. lia.
Qed.

(** [{s2, s0 + s1} ? ...]: a sample expression over the store. *)
Definition sample_expr : IR_Expr :=
  ExprConcat 16 [ExprSignalRef 8 2; ExprBinary EXPR_BINARY_ADD 8 (ExprSignalRef 8 0) (ExprSignalRef 8 1)].

(** ** Whole expressions *)

(** C9: type soundness of evaluation: over a well-typed store an expression
    with an inferred width evaluates to a well-formed value of exactly that
    width, whatever unknown bits the store holds. *)
Theorem sim_eval_expr_typed {C} `{Store : SignalStore C} G M (c : C) e w err :
  store_typed G M c -> type_expr G M e = Some w -> shape (sim_eval_expr c e err).1 w.
Proof.
  intros Hc Ht. destruct (eval_refm G M c c Hc e w Ht err err) as [Hv _]; [done|].
  split; [by eapply refw_wf_l|by eapply refw_width_r].
Qed.

Lemma sim_eval_expr_typed_witness : shape (sim_eval_expr sample_store sample_expr false).1 16.
Proof.
  apply (sim_eval_expr_typed sample_types (fun _ => None));
    [apply sample_store_typed|vm_compute; reflexivity].
Defined.

(** C10: no false certainty: resolving unknown bits of the store only resolves
    unknown bits of the result, and an error the resolved run raises is also
    raised by the unresolved one.  A known bit computed from a store with
    unknowns is therefore right for every completion of the unknowns. *)
Theorem sim_eval_expr_monotone {C} `{Store : SignalStore C} G M (c1 c2 : C) e w :
  store_refines G M c1 c2 -> type_expr G M e = Some w ->
  eval_value c1 e ⊑v eval_value c2 e /\
  (eval_raises c2 e = true -> eval_raises c1 e = true).
Proof.
  intros Hc Ht. destruct (eval_refm G M c1 c2 Hc e w Ht false false) as [[H1 _] H2]; [done|].
  by split.
Qed.

Lemma sim_eval_expr_monotone_witness :
  eval_value sample_store sample_expr ⊑v eval_value sample_store_known sample_expr.
Proof.
  apply (sim_eval_expr_monotone sample_types (fun _ => None) _ _ _ 16);
    [apply sample_store_refines|vm_compute; reflexivity].
Defined.

(** The dependency analysis is sound: two stores with the same memories
    that agree on the ids [collect_expr_reads] reports evaluate the expression
    alike, value and error flag, and no id is reported twice. *)
Theorem collect_expr_reads_sound {C} `{Store : SignalStore C} (c1 c2 : C) e err :
  (forall m, mem_entry c1 m = mem_entry c2 m) ->
  (forall i, i ∈ collect_expr_reads e [] -> sig_current c1 i = sig_current c2 i) ->
  sim_eval_expr c1 e err = sim_eval_expr c2 e err /\ NoDup (collect_expr_reads e []).
Proof.
  intros Hm Hi. split; [by apply eval_agree|apply expr_reads_NoDup].
Qed.

Lemma collect_expr_reads_sound_witness :
  let e := ExprBinary EXPR_BINARY_MUL 8 (ExprSignalRef 8 0) (ExprSignalRef 8 0) in
  sim_eval_expr sample_store e false = sim_eval_expr sample_store_known e false.
Proof.
  intros e. refine (proj1 (collect_expr_reads_sound sample_store sample_store_known e false _ _));
    [done|].
  intros i Hi. apply list_elem_of_singleton in Hi as ->. reflexivity.
Defined.

(** ** Intrinsics *)

(** On a known source [prienc] returns the position of the highest set bit
    (0 for a zero source), [lzc] the number of zero bits above it, and
    [popcount] the number of set bits, each reduced to the result width. *)
Theorem eval_encoders_correct src w :
  wf src -> known src -> 0 < w <= 256 ->
  is_num (eval_prienc w src) w (Z.log2 (sv_uint src) mod 2 ^ w) /\
  is_num (eval_lzc w src) w
    ((if sv_uint src =? 0 then sv_width src
      else sv_width src - 1 - Z.log2 (sv_uint src)) mod 2 ^ w) /\
  is_num (eval_popcount w src) w
    (count_bits (Z.testbit (sv_uint src)) (Z.to_nat (sv_width src)) mod 2 ^ w).
Proof.
  intros. split_and!; [by apply eval_prienc_num|by apply eval_lzc_num|by apply eval_popcount_num].
Qed.

Lemma eval_encoders_witness :
  let src := sim_val_from_uint 40 100 in
  is_num (eval_prienc 7 src) 7 (Z.log2 (sv_uint src) mod 2 ^ 7).
Proof. intros src. apply (eval_encoders_correct src 7); subst src; [sample|sample|lia]. Defined.

(** [b2oh] then [oh2b] is the identity on indices in range; on a source
    with several set bits [oh2b] gives the index of the highest one. *)
Theorem eval_onehot_roundtrip src idx w n :
  wf src -> known src -> wf idx -> known idx -> 0 < w <= 256 -> 0 < n <= 256 ->
  is_num (eval_oh2b w src) w (Z.log2 (sv_uint src) mod 2 ^ w) /\
  (sv_uint idx < n ->
   is_num (eval_oh2b w (eval_b2oh n idx)) w (sv_uint idx mod 2 ^ w)).
Proof.
  intros Hs Ks Hi Ki Hw Hn. split; [by apply eval_oh2b_num|]. intros Hlt.
  pose proof (eval_b2oh_num idx n Hi Ki Hn) as [B1 B2 B3 B4].
  destruct (Z.ltb_spec (sv_uint idx) n); [|lia].
  pose proof (eval_oh2b_num _ w B1 B2 Hw) as H'. rewrite B4 in H'.
  by rewrite Z.log2_pow2 in H' by (apply sv_uint_bounds; done).
Qed.

Lemma eval_onehot_roundtrip_witness :
  let idx := sim_val_from_uint 70 8 in
  is_num (eval_oh2b 7 (eval_b2oh 128 idx)) 7 (sv_uint idx mod 2 ^ 7).
Proof.
  intros idx. refine (proj2 (eval_onehot_roundtrip idx idx 7 128 _ _ _ _ _ _) _); subst idx;
    first [sample | lia | vm_compute; reflexivity].
Defined.

(** [reverse] mirrors the bits, so reversing twice is the identity. *)
Theorem eval_reverse_involutive src w :
  wf src -> known src ->
  (forall k, 0 <= k < sv_width src ->
     vbit (eval_reverse w src) k = vbit src (sv_width src - 1 - k)) /\
  eval_reverse w (eval_reverse w src) = src.
Proof.
  intros Hs Hk. destruct (eval_reverse_bits src w Hs Hk) as (R1 & R2 & R3 & R4).
  destruct (eval_reverse_bits _ w R1 R2) as (S1 & S2 & S3 & S4).
  split; [done|]. apply wf_ext; [done|done|congruence|].
  assert (forall v, wf v -> known v -> forall k, 0 <= k ->
    bit_at v k = if vbit v k then B1 else B0) as Hb.
  { intros v Hv Kv k H0. unfold bit_at. by destruct (known_xz_false v Hv Kv k H0) as [-> ->]. }
  intros k Hk0. rewrite !Hb by (done || lia). rewrite S4, R4 by lia. rewrite R3.
  by replace (sv_width src - 1 - (sv_width src - 1 - k)) with k by lia.
Qed.

Lemma eval_reverse_involutive_witness :
  let src := sim_val_from_uint 200 100 in eval_reverse 100 (eval_reverse 100 src) = src.
Proof. intros src. apply (eval_reverse_involutive src 100); subst src; sample. Defined.

(** Sign extension of a known value, as a number. *)
Lemma sext_known_num v m :
  wf v -> known v -> sv_width v <= m <= 256 ->
  is_num (sim_val_sext v m) m (sv_sint v mod 2 ^ m) /\
  (Z.testbit (sv_uint v) (sv_width v - 1) = true ->
     sv_sint v < 0 /\ - 2 ^ (m - 1) <= sv_sint v) /\
  (Z.testbit (sv_uint v) (sv_width v - 1) = false -> 0 <= sv_sint v < 2 ^ (m - 1)).
Proof.
  intros Hv Hk Hm. pose proof (wf_width v Hv) as Hw. pose proof (sv_uint_bounds v Hv) as Hu.
  destruct (sext_shape v m Hv ltac:(lia)) as [S1 S2]. rewrite Z.max_r in S2 by lia.
  pose proof (sext_sint v m Hv Hk Hm) as Hsint.
  assert (2 ^ sv_width v = 2 * 2 ^ (sv_width v - 1)) as E2
    by (rewrite <- Z.pow_succ_r by lia; f_equal; lia).
  assert (2 ^ (sv_width v - 1) <= 2 ^ (m - 1)) as Ele by (apply Z.pow_le_mono_r; lia).
  assert (Z.testbit (sv_uint v) (sv_width v - 1) = (2 ^ (sv_width v - 1) <=? sv_uint v)) as Et.
  { apply Bool.eq_iff_eq_true. rewrite Z.leb_le. split.
    - intros Hb. destruct (Z.le_gt_cases (2 ^ (sv_width v - 1)) (sv_uint v)) as [|Hlt]; [done|].
      rewrite Z.bits_above_log2 in Hb; [done|lia|].
      destruct (decide (sv_uint v = 0)) as [E0|]; [rewrite E0 in Hb; by rewrite Z.testbit_0_l in Hb|].
      apply Z.log2_lt_pow2; lia.
    - intros Hle. assert (Z.log2 (sv_uint v) = sv_width v - 1) as <-.
      { apply Z.log2_unique; [lia|]. replace (Z.succ (sv_width v - 1)) with (sv_width v) by lia. lia. }
      apply Z.bit_log2. assert (0 < 2 ^ (sv_width v - 1)) by (apply Z.pow_pos_nonneg; lia). lia. }
  assert (known (sim_val_sext v m)) as Kr.
  { destruct (sim_val_sext_bits v m Hv) as (_ & _ & S3); [lia|]. rewrite Z.max_r in S3 by lia.
    intros k Hk'. rewrite S2 in Hk'. rewrite S3 by lia.
    destruct (Z.ltb_spec k (sv_width v)); [apply Hk; lia|].
    pose proof (Hk (sv_width v - 1) ltac:(lia)) as E.
    by destruct (bit_at v (sv_width v - 1)). }
  split; [constructor; try done|].
  - rewrite <- Hsint. pose proof (sv_uint_bounds _ S1) as Hr. rewrite S2 in Hr.
    unfold sv_sint, sint. rewrite S2.
    destruct (Z.testbit (sv_uint (sim_val_sext v m)) (m - 1)).
    + replace (sv_uint (sim_val_sext v m) - 2 ^ m)
        with (sv_uint (sim_val_sext v m) + (-1) * 2 ^ m) by lia.
      rewrite Z.mod_add by lia. by rewrite Z.mod_small.
    + by rewrite Z.mod_small.
  - unfold sv_sint, sint. split; intros E; rewrite E; rewrite E in Et; symmetry in Et; lia.
Qed.

(** The signed choice among known operands. *)
Lemma signed_choice_num pick_min w a b (m := max_width a b) :
  wf a -> wf b -> known a -> known b -> 0 < w <= 256 ->
  is_num (sim_value_signed_choice a b pick_min w) w
    (((if pick_min then Z.min (sv_sint a) (sv_sint b) else Z.max (sv_sint a) (sv_sint b))
        mod 2 ^ m) mod 2 ^ w).
Proof.
  intros Ha Hb Ka Kb Hw. pose proof (max_width_bounds a b Ha Hb) as Hm.
  pose proof (wf_width a Ha). pose proof (wf_width b Hb).
  destruct (sext_known_num a m Ha Ka ltac:(subst m; lia)) as (Na & A1 & A0).
  destruct (sext_known_num b m Hb Kb ltac:(subst m; lia)) as (Nb & B1' & B0').
  unfold sim_value_signed_choice. cbv zeta. fold m.
  rewrite !sim_val_get_bit_wf by (done || lia).
  rewrite <- !sv_uint_testbit by (auto with jz || lia).
  rewrite lt_known by (apply Na || apply Nb).
  rewrite (in_uint _ _ _ Na), (in_uint _ _ _ Nb).
  set (x := sv_sint a) in *. set (y := sv_sint b) in *.
  set (sa := Z.testbit (sv_uint a) (sv_width a - 1)) in *.
  set (sb := Z.testbit (sv_uint b) (sv_width b - 1)) in *.
  assert (forall p : bool, is_num
    (if p then sim_val_mask (set_width w (sim_val_sext a m))
     else sim_val_mask (set_width w (sim_val_sext b m))) w
    (((if p then x else y) mod 2 ^ m) mod 2 ^ w)) as Hsel
    by (intros []; by eapply mask_width_num).
  assert (2 ^ m = 2 * 2 ^ (m - 1)) as Em by (rewrite <- Z.pow_succ_r by lia; f_equal; lia).
  assert (0 < 2 ^ (m - 1)) by (apply Z.pow_pos_nonneg; lia).
  assert (forall c, sim_val_is_true (cmp_result c) =? 1 = c) as Ht by (by intros []).
  rewrite Ht.
  assert (forall z (s : bool), (s = true -> z < 0 /\ - 2 ^ (m - 1) <= z) ->
    (s = false -> 0 <= z < 2 ^ (m - 1)) -> z mod 2 ^ m = if s then z + 2 ^ m else z) as Hmod.
  { intros z [] N1 N0.
    - specialize (N1 eq_refl). rewrite <- (Z.mod_add z 1) by lia. rewrite Z.mod_small; lia.
    - specialize (N0 eq_refl). rewrite Z.mod_small; lia. }
  rewrite (Hmod x sa A1 A0), (Hmod y sb B1' B0') in *.
  match goal with |- is_num (if ?p then _ else _) _ (?r mod 2 ^ m mod _) =>
    assert ((if p then x else y) = r) as <-; [|apply Hsel] end.
  destruct sa, sb; try specialize (A1 eq_refl); try specialize (A0 eq_refl);
    try specialize (B1' eq_refl); try specialize (B0' eq_refl); cbn;
    destruct pick_min; cbn;
    try (destruct (Z.ltb_spec (x + 2 ^ m) (y + 2 ^ m))); try (destruct (Z.ltb_spec x y)); cbn; lia.
Qed.

(** The minimum and maximum intrinsics choose by unsigned and by signed
    comparison of the operands at their own widths; the choice is a number of
    the wider operand's width, reduced to the result width. *)
Theorem eval_minmax_correct w a b (m := max_width a b) :
  wf a -> wf b -> known a -> known b -> 0 < w <= 256 ->
  let at_w n := n mod 2 ^ w in
  is_num (eval_uminmax true w a b) w (at_w (Z.min (sv_uint a) (sv_uint b))) /\
  is_num (eval_uminmax false w a b) w (at_w (Z.max (sv_uint a) (sv_uint b))) /\
  is_num (eval_sminmax true w a b) w (at_w (Z.min (sv_sint a) (sv_sint b) mod 2 ^ m)) /\
  is_num (eval_sminmax false w a b) w (at_w (Z.max (sv_sint a) (sv_sint b) mod 2 ^ m)).
Proof.
  intros Ha Hb Ka Kb Hw. cbv zeta. unfold eval_uminmax, eval_sminmax.
  rewrite !known_has_xz by done. cbn [orb]. rewrite !width_or_w by done.
  assert (forall c, sim_val_is_true (cmp_result c) =? 1 = c) as Ht by (by intros []).
  cbv zeta. rewrite lt_known, Ht by done.
  pose proof (mask_width_num a _ _ w (is_num_self a Ha Ka) Hw) as Na.
  pose proof (mask_width_num b _ _ w (is_num_self b Hb Kb) Hw) as Nb.
  split_and!; try (by apply signed_choice_num);
    destruct (Z.ltb_spec (sv_uint a) (sv_uint b)); cbn [negb];
    rewrite ?Z.min_l, ?Z.min_r, ?Z.max_l, ?Z.max_r by lia; done.
Qed.

Lemma eval_minmax_witness :
  let a := sim_val_from_uint 200 8 in
  let b := sim_val_from_uint 100 16 in
  is_num (eval_sminmax true 16 a b) 16 (Z.min (sv_sint a) (sv_sint b) mod 2 ^ max_width a b mod 2 ^ 16).
Proof.
  intros a b.
  refine (proj1 (proj2 (proj2 (eval_minmax_correct 16 a b _ _ _ _ _)))); subst a b;
    first [sample | lia].
Defined.

(** The widening arithmetic intrinsics compute at the width of the wider
    operand and only then take the result width: a result wider than both
    operands holds the wrapped sum, product or difference (no carry, no
    borrow, no high product bits), for the signed kinds as well. *)
Theorem eval_widening_wraps k w ew a b v :
  wf a -> wf b -> known a -> known b -> max_width a b <= w <= 256 ->
  let m := max_width a b in
  (k = EXPR_INTRINSIC_UADD \/ k = EXPR_INTRINSIC_SADD ->
     is_num (eval_intrinsic k w ew a b v) w ((sv_uint a + sv_uint b) mod 2 ^ m)) /\
  (k = EXPR_INTRINSIC_UMUL \/ k = EXPR_INTRINSIC_SMUL ->
     is_num (eval_intrinsic k w ew a b v) w ((sv_uint a * sv_uint b) mod 2 ^ m)) /\
  (forall k', k' = EXPR_INTRINSIC_USUB \/ k' = EXPR_INTRINSIC_SSUB ->
     is_num (eval_binary k' w a b) w ((sv_uint a - sv_uint b) mod 2 ^ m)).
Proof.
  intros Ha Hb Ka Kb Hw m. pose proof (max_width_bounds a b Ha Hb) as Hm.
  assert (forall r n, is_num r m (n mod 2 ^ m) ->
    is_num (sim_val_mask (with_width w r)) w (n mod 2 ^ m)) as H.
  { intros r n Hr. unfold with_width, width_or. destruct (Z.ltb_spec 0 w); [|lia].
    pose proof (mask_width_num r m _ w Hr ltac:(lia)) as Hn.
    rewrite (Z.mod_small (n mod 2 ^ m)) in Hn; [done|].
    pose proof (Z.mod_pos_bound n (2 ^ m) ltac:(apply Z.pow_pos_nonneg; lia)).
    assert (2 ^ m <= 2 ^ w) by (apply Z.pow_le_mono_r; lia). lia. }
  split_and!.
  - intros [-> | ->]; apply H; by apply add_known.
  - intros [-> | ->]; apply H; by apply mul_known.
  - intros k' [-> | ->]; apply H; by apply sub_known.
Qed.

Lemma eval_widening_wraps_witness :
  let a := sim_val_from_uint 250 8 in
  let b := sim_val_from_uint 10 8 in
  is_num (eval_intrinsic EXPR_INTRINSIC_UADD 9 0 a b b) 9 ((sv_uint a + sv_uint b) mod 2 ^ max_width a b)
  /\ sv_uint (eval_intrinsic EXPR_INTRINSIC_UADD 9 0 a b b) = 4.
Proof.
  intros a b. split; [|vm_compute; reflexivity].
  refine (proj1 (eval_widening_wraps EXPR_INTRINSIC_UADD 9 0 a b b _ _ _ _ _) _); subst a b;
    first [sample | (vm_compute; split; discriminate) | by left].
Defined.
