(* ===== verification/SimRunSpec.v ===== *)
(** * What running a module promises

    The properties of [sim_state.c] and [sim_exec.c], with a sample design for
    the witnesses. *)

From stdpp Require Import sets.
From S2P Require Import Prelude SimValue SimBits SimArith SimWf SimOrder IR Util SimState SimEval SimDeps SimExec SimExecInv SimSettle SimChunks SimFixpoint SimWrite SimLiveness SimInit SimIntrinsics SimMono SimTyping.

Local Open Scope Z_scope.
Local Open Scope settle_scope.

(** ** A sample design *)

Definition lit0 : IR_Literal := mkLiteral [0; 0; 0; 0] 4 false.
Definition lit1 : IR_Literal := mkLiteral [1; 0; 0; 0] 4 false.

Definition sample_signal (id : Z) (kind : IR_SignalKind) (dir : IR_PortDirection) : IR_Signal :=
  mkSignal id "s" kind 4 0 0 false false dir lit0 0.

Definition sample_assign (kind : IR_AssignmentKind) (lhs : Z) (rhs : IR_Expr) : IR_Stmt :=
  StmtAssignment (mkAssignment 0 lhs rhs kind false 0 0 0).

Definition plus1 (id : Z) : IR_Expr :=
  ExprBinary EXPR_BINARY_ADD 4 (ExprSignalRef 4 id) (ExprLiteral 4 lit1).

(** Port 0, nets 1 and 2, register 3.  The nets are listed against the flow:
    [2 <= 1 + 1; 1 <= 0]; the register adds net 2 on the clock, port 4. *)
Definition sample_async : IR_Stmt :=
  StmtBlock [sample_assign ASSIGN_DRIVE 2 (plus1 1);
             sample_assign ASSIGN_DRIVE 1 (ExprSignalRef 4 0)].

Definition sample_domain : IR_ClockDomain :=
  mkClockDomain 0 4 EDGE_RISING [3] (-1) (-1) RESET_ACTIVE_HIGH RESET_CLOCKED
    (sample_assign ASSIGN_RECEIVE 3
       (ExprBinary EXPR_BINARY_ADD 4 (ExprSignalRef 4 3) (ExprSignalRef 4 2))).

Definition sample_module : IR_Module :=
  mkModule 0 "sample"
    [sample_signal 0 SIG_PORT PORT_IN; sample_signal 1 SIG_NET PORT_IN;
     sample_signal 2 SIG_NET PORT_IN; sample_signal 3 SIG_REGISTER PORT_IN;
     sample_signal 4 SIG_PORT PORT_IN]
    [sample_domain] [] [] sample_async false.

Definition sample_design : IR_Design := mkDesign "sample" [sample_module].

Definition sample_state : SimModuleState := build_async_chunks (init_state sample_module 1).

Lemma sample_positive m : m = sample_module \/ m ∈ design_modules sample_design -> positive_widths m.
Proof.
  assert (positive_widths sample_module) as H.
  { split; [|by intros mem ?%not_elem_of_nil]. intros sig Hs.
    repeat (apply elem_of_cons in Hs as [->|Hs]; [done|]). by apply not_elem_of_nil in Hs. }
  intros [->|Hm]; [done|]. by apply list_elem_of_singleton in Hm as ->.
Qed.

Lemma sample_created : created sample_module sample_state.
Proof.
  apply init_state_created; [done|done|apply sample_positive; by left|by unfold is_u32].
Qed.

(** The two chunks of the sample. *)
Lemma sample_chunks : exists c d,
  ctx_async_chunks sample_state = [c; d] /\
  ac_read_indices c = [1] /\ ac_write_indices c = [2] /\
  ac_read_indices d = [0] /\ ac_write_indices d = [1].
Proof. do 2 eexists. split; [vm_compute; reflexivity|]. by split_and!. Qed.

Lemma sample_async_ok : async_ok sample_state.
Proof.
  constructor; [apply sample_created|reflexivity|by cbn; split_and!|].
  destruct sample_chunks as (c & d & -> & _ & Wc & _ & Wd).
  intros x y i Hx Hy Hi Hj.
  apply elem_of_cons in Hx as [->|Hx%list_elem_of_singleton];
    apply elem_of_cons in Hy as [->|Hy%list_elem_of_singleton]; subst; try done;
    rewrite ?Wc, ?Wd in *; set_solver.
Qed.

Lemma sample_skip_ok : skip_ok sample_state.
Proof. apply skip_ok_all_dirty; [apply sample_async_ok|apply sample_created]. Qed.

(** ** Creation *)

(** C24: creating a context either rejects the design or builds, for every
    module instance of the hierarchy, a consistent state: the id map finds
    exactly the declared signals and never two ids at one entry, every signal
    and memory cell is a well-formed value of its declared width without [x]
    or [z], no error is raised, every dirty flag is up and the chunks are those
    of the asynchronous block. *)
Theorem sim_ctx_create_consistent fuel m design seed ctx :
  (forall m', m' = m \/ m' ∈ design_modules design -> positive_widths m') -> is_u32 seed ->
  sim_ctx_create fuel m design seed = Created (Some ctx) ->
  forall s, in_context s ctx ->
  exists m', (m' = m \/ m' ∈ design_modules design) /\ created m' s.
Proof. apply create_created. Qed.

Lemma sim_ctx_create_consistent_witness :
  exists m', (m' = sample_module \/ m' ∈ design_modules sample_design) /\ created m' sample_state.
Proof.
  apply (sim_ctx_create_consistent 1 sample_module sample_design 1 (mkContext sample_state []));
    [exact sample_positive|by unfold is_u32|vm_compute; reflexivity|constructor].
Defined.

(** Creation terminates: when the instances of a design do not nest
    cyclically, fuel above the rank of the top module is enough. *)
Theorem sim_ctx_create_terminates design rank fuel m seed :
  instance_rank design rank -> m ∈ design_modules design -> (rank (mod_id m) < fuel)%nat ->
  sim_ctx_create fuel m design seed <> OutOfFuel.
Proof. apply create_total. Qed.

Lemma sim_ctx_create_terminates_witness :
  sim_ctx_create 1 sample_module sample_design 7 <> OutOfFuel.
Proof.
  apply (sim_ctx_create_terminates sample_design (fun _ => 0%nat)); [|by left|lia].
  intros m inst cm Hm Hi. apply list_elem_of_singleton in Hm as ->. by apply not_elem_of_nil in Hi.
Defined.

(** The generator is a 32-bit xorshift that never reaches the absorbing
    state 0, whatever the seed. *)
Theorem sim_rng_next_nonzero s : is_u32 s -> is_u32 (sim_rng_next s) /\ sim_rng_next s <> 0.
Proof. apply rng_next_range. Qed.

Lemma sim_rng_next_witness : sim_rng_next 0 <> 0.
Proof. apply (sim_rng_next_nonzero 0). by unfold is_u32. Defined.

(** ** Execution *)

(** C25: the state stays well typed: executing a typed statement, blocking or
    not, and committing the registers keep every signal, pending value and
    memory cell a well-formed value of its declared width. *)
Theorem sim_exec_stmt_preserves_types G M nba stmt s :
  stmt_typed G M stmt -> state_typed G M s ->
  state_typed G M (sim_exec_stmt nba s stmt) /\ state_typed G M (apply_nba_state s).
Proof. intros H Hs. split; [by apply typed_exec|by apply typed_commit]. Qed.

Lemma sample_typed :
  state_typed (signal_types sample_state) (memory_types sample_state) sample_state.
Proof.
  apply (created_typed sample_module); [apply sample_created|].
  by intros mem ?%not_elem_of_nil.
Qed.

Lemma sim_exec_stmt_preserves_types_witness :
  state_typed (signal_types sample_state) (memory_types sample_state)
    (sim_exec_stmt false sample_state sample_async).
Proof.
  refine (proj1 (sim_exec_stmt_preserves_types _ _ false _ _ _ _)); [|apply sample_typed].
  unfold stmt_typed, sample_async. cbn [stmt_forall foldr].
  split_and!; first [exact I | vm_compute; reflexivity].
Defined.

(** Non-blocking execution is isolated: it changes no current value and no
    dirty flag, so the statements of a clock domain all read the values from
    before the edge. *)
Theorem sim_exec_stmt_nba_isolated stmt s :
  let t := sim_exec_stmt true s stmt in
  (forall i, se_current (entry_at t i) = se_current (entry_at s i)) /\
  ctx_settle_dirty t = ctx_settle_dirty s /\ ctx_sig_dirty t = ctx_sig_dirty s.
Proof. apply exec_nba_current. Qed.

(** The commit makes the pending values current at once, marks exactly the
    committed signals dirty, and leaves the others alone. *)
Theorem apply_nba_commits s :
  state_ok s ->
  let t := apply_nba_state s in
  forall i, in_range s i ->
    entry_at t i =
    (if se_has_pending (entry_at s i)
     then set_pending false (set_current (se_next (entry_at s i)) (entry_at s i))
     else entry_at s i) /\
    aget false (ctx_sig_dirty t) i =
    (se_has_pending (entry_at s i) || aget false (ctx_sig_dirty s) i).
Proof. intros Hok. apply (apply_nba_spec s Hok). Qed.

Lemma apply_nba_commits_witness :
  let s := sim_exec_stmt true sample_state (cd_statements sample_domain) in
  se_has_pending (entry_at s 3) = true /\
  se_current (entry_at (apply_nba_state s) 3) = se_next (entry_at s 3).
Proof.
  intros s. split; [vm_compute; reflexivity|].
  destruct (apply_nba_commits s) with (i := 3) as [E _].
  - apply (state_ok_static sample_state); [apply exec_static|apply sample_created].
  - vm_compute. split; [discriminate|reflexivity].
  - rewrite E. vm_compute. reflexivity.
Defined.

(** Immediate execution tracks changes: a statement with ordered
    part-selects changes only current values, raises flags but never clears
    them, and raises the dirty flags of every signal whose value changes. *)
Theorem sim_exec_stmt_marks_changes stmt s :
  stmt_forall slice_ok no_mem stmt -> state_ok s ->
  let t := sim_exec_stmt false s stmt in
  same_static s t /\
  (forall i, se_current (entry_at t i) = se_current (entry_at s i) \/
     (aget false (ctx_sig_dirty t) i = true /\ ctx_settle_dirty t = true)) /\
  (forall i, se_next (entry_at t i) = se_next (entry_at s i) /\
             se_has_pending (entry_at t i) = se_has_pending (entry_at s i)).
Proof.
  intros Hst Hok. destruct (exec_marks stmt s Hst Hok) as [H1 H2 H3]. split_and!; [done| |done].
  intros i. destruct (H2 i) as [|(_ & ? & ?)]; auto.
Qed.

Lemma sim_exec_stmt_marks_changes_witness :
  same_static sample_state (sim_exec_stmt false sample_state sample_async).
Proof.
  apply (sim_exec_stmt_marks_changes sample_async sample_state);
    [by cbn; split_and!|apply sample_created].
Defined.

(** A part-select write replaces exactly the selected bits by the low bits
    of the source, all four states included, and keeps the target well formed
    at its width; writing it twice is writing it once. *)
Theorem write_slice_correct target src msb lsb :
  wf target -> wf src -> 0 <= lsb <= msb -> msb < sv_width target ->
  let r := write_slice target src msb lsb in
  shape r (sv_width target) /\
  (forall k, 0 <= k ->
     bit_at r k = if (lsb <=? k) && (k <=? msb) then bit_at src (k - lsb) else bit_at target k) /\
  write_slice r src msb lsb = r.
Proof.
  intros Ht Hs Hl Hm r. destruct (write_slice_bits target src msb lsb Ht Hs Hl Hm) as (A & B & C).
  split_and!; [by split|done|apply write_slice_idem].
Qed.

Lemma write_slice_correct_witness :
  let t := sim_val_all_z 100 in
  write_slice (write_slice t (sim_val_all_x 8) 71 60) (sim_val_all_x 8) 71 60 =
  write_slice t (sim_val_all_x 8) 71 60.
Proof.
  intros t. apply (write_slice_correct t (sim_val_all_x 8) 71 60);
    [apply all_z_shape; lia|apply all_x_shape; lia|lia|vm_compute; reflexivity].
Defined.

(** ** Settling *)

(** C4: skipping is sound: where the asynchronous logic writes no memory,
    drives every signal by one chunk and has ordered part-selects ([async_ok]), and
    the chunks that would be skipped hold ([skip_ok]), running only the chunks
    with a dirty input gives the state that running the whole asynchronous block
    gives, up to the error flag, and keeps [skip_ok]. *)
Theorem settle_self_runs_block s :
  async_ok s -> skip_ok s ->
  settle_self s ≡e sim_exec_stmt false s (mod_async_block (ctx_module s)) /\ skip_ok (settle_self s).
Proof. intros Hok Hs. destruct (settle_self_spec s Hok Hs) as (H1 & _ & H2 & _). by split. Qed.

Lemma settle_self_runs_block_witness :
  settle_self sample_state ≡e sim_exec_stmt false sample_state sample_async.
Proof. apply (settle_self_runs_block sample_state); [apply sample_async_ok|apply sample_skip_ok]. Defined.

(** C28: the skipping invariant holds throughout the life of a module with
    [async_ok] whose statements write no memory and whose chunks drive no
    register: a state with all inputs dirty, as a fresh one, has it, the
    non-blocking run of a statement that writes no memory keeps it, and so does
    the commit if no chunk drives a signal with a pending value. *)
Theorem skip_ok_lifetime s :
  async_ok s ->
  ((forall i, in_range s i -> aget false (ctx_sig_dirty s) i = true) -> skip_ok s) /\
  (skip_ok s ->
   (forall stmt, stmt_forall (fun _ => True) no_mem stmt -> skip_ok (sim_exec_stmt true s stmt)) /\
   (no_async_register s -> skip_ok (apply_nba_state s))).
Proof.
  intros Hok. split; [by apply skip_ok_all_dirty|]. intros Hs. split.
  - intros stmt Hm. by apply skip_ok_nba.
  - intros Hr. by apply skip_ok_apply_nba.
Qed.

Lemma skip_ok_lifetime_witness :
  skip_ok (sim_exec_stmt true sample_state (cd_statements sample_domain)).
Proof.
  refine (proj1 (proj2 (skip_ok_lifetime sample_state sample_async_ok) sample_skip_ok) _ _).
  exact I.
Defined.

(** C2: settling reaches a fixed point.  Let a module without instances have
    asynchronous logic that writes no memory and drives every signal by one chunk,
    with ordered part-selects ([async_ok]), of which the chunks that would be skipped
    hold ([skip_ok]).  When [sim_settle_combinational] reports success, every
    asynchronous statement holds of the final values, so executing the whole
    block once more changes nothing but possibly the error flag, and no dirty flag
    is left. *)
Theorem sim_settle_fixpoint s max_iters ctx :
  async_ok s -> skip_ok s -> mod_async_block (ctx_module s) <> NullStmt ->
  sim_settle_combinational (mkContext s []) max_iters = (0, ctx) ->
  exists t, ctx = mkContext t [] /\
    (forall c, c ∈ ctx_async_chunks t -> stmt_holds t (ac_stmt c) = true) /\
    sim_exec_stmt false t (mod_async_block (ctx_module t)) ≡e t /\
    ctx_settle_dirty t = false /\ ctx_sig_dirty t = map (fun _ => false) (ctx_sig_dirty t).
Proof.
  intros Hok Hs Hn. unfold sim_settle_combinational, has_any_async. cbn [ctx_state ctx_children].
  destruct (stmt_is_null (mod_async_block (ctx_module s))) eqn:E.
  { by destruct (mod_async_block (ctx_module s)). }
  cbn [negb orb]. intros (t & -> & Hok' & Hall & Hd & Hsd)%settle_loop_leaf; [|done|done].
  exists t. split_and!; try done. by apply all_hold_exec.
Qed.

Definition sample_settled : SimContext := (sim_settle_combinational (mkContext sample_state []) 100).2.

Lemma sim_settle_fixpoint_witness :
  let t := ctx_state sample_settled in
  sim_exec_stmt false t (mod_async_block (ctx_module t)) ≡e t.
Proof.
  destruct (sim_settle_fixpoint sample_state 100 sample_settled sample_async_ok sample_skip_ok)
    as (t & -> & _ & H & _); [done|vm_compute; reflexivity|exact H].
Defined.

(** C3: settling terminates: in a module without instances, with [async_ok]
    and [skip_ok], whose asynchronous chunks assign no signal twice on a path, read
    none that they assign, and can be ranked so that readers come after writers,
    the loop succeeds within one iteration more than there are ranks, whatever the
    order of the statements. *)
Theorem sim_settle_terminates rank bound s max_iters :
  async_ok s -> skip_ok s -> acyclic rank bound s -> Z.of_nat bound + 1 <= max_iters ->
  (sim_settle_combinational (mkContext s []) max_iters).1 = 0.
Proof.
  intros Hok Hs Hac Hb. unfold sim_settle_combinational. destruct (negb _); [done|].
  replace (Z.to_nat max_iters) with (S (Z.to_nat (max_iters - 1))) by lia.
  apply (settle_loop_acyclic rank bound _ _ 0); try done; [intros c _ H; lia|lia].
Qed.

Lemma sample_acyclic :
  acyclic (fun c => match ac_write_indices c with [1] => 0%nat | _ => 1%nat end) 2 sample_state.
Proof.
  destruct sample_chunks as (c & d & E & Rc & Wc & Rd & Wd).
  constructor; [apply sample_created|..].
  - rewrite E. intros x y i Hx Hy Hi Hj.
    apply elem_of_cons in Hx as [->|Hx%list_elem_of_singleton];
      apply elem_of_cons in Hy as [->|Hy%list_elem_of_singleton]; subst;
      rewrite ?Wc, ?Wd, ?Rc, ?Rd in *; set_solver by lia.
  - intros x _. destruct (ac_write_indices x) as [|[|[]|] []]; lia.
  - intros x Hx. destruct (chunks_stmts sample_state sample_async_ok x Hx) as [-> _].
    assert (ac_stmt x ∈ match sample_async with StmtBlock ss => ss | _ => [] end) as Hin.
    { vm_compute in Hx. apply elem_of_cons in Hx as [->|Hx%list_elem_of_singleton]; [left|].
      subst. right. left. }
    apply elem_of_cons in Hin as [->|Hin%list_elem_of_singleton]; [by vm_compute|].
    rewrite Hin. by vm_compute.
Qed.

Lemma sim_settle_terminates_witness :
  (sim_settle_combinational (mkContext sample_state []) SIM_SETTLE_MAX_ITERS).1 = 0.
Proof.
  apply (sim_settle_terminates _ 2 sample_state 100 sample_async_ok sample_skip_ok sample_acyclic).
  vm_compute. discriminate.
Defined.

(** ** Where settling stops short *)

(** A child whose chain [3 <= 2; 2 <= 1; 1 <= 0 + 1] is listed against the
    flow, below a parent that only wires it up. *)
Definition chain_async : IR_Stmt :=
  StmtBlock [sample_assign ASSIGN_DRIVE 3 (ExprSignalRef 4 2);
             sample_assign ASSIGN_DRIVE 2 (ExprSignalRef 4 1);
             sample_assign ASSIGN_DRIVE 1 (plus1 0)].

Definition chain_module : IR_Module :=
  mkModule 1 "chain"
    [sample_signal 0 SIG_PORT PORT_IN; sample_signal 1 SIG_NET PORT_IN;
     sample_signal 2 SIG_NET PORT_IN; sample_signal 3 SIG_PORT PORT_OUT] [] [] [] chain_async false.

Definition wiring_module : IR_Module :=
  mkModule 0 "top"
    [sample_signal 0 SIG_PORT PORT_IN; sample_signal 1 SIG_PORT PORT_OUT] []
    [mkInstance 0 "u" 1 [mkConnection 0 0 (-1) (-1) None; mkConnection 1 3 (-1) (-1) None]] []
    NullStmt false.

Definition chain_design : IR_Design := mkDesign "d" [wiring_module; chain_module].

Definition created_or (c : Creation) (d : SimContext) : SimContext :=
  match c with Created (Some ctx) => ctx | _ => d end.

(** The top context of a design, and the state of its first child. *)
Definition top_context (m : IR_Module) (d : IR_Design) : SimContext :=
  created_or (sim_ctx_create 2 m d 1) (mkContext sample_state []).

Definition first_child (ctx : SimContext) : SimModuleState :=
  match ctx_children ctx with
  | mkChild (Some c) _ _ _ _ :: _ => ctx_state c
  | _ => ctx_state ctx
  end.

Definition settle100 (ctx : SimContext) : Z * SimContext :=
  sim_settle_combinational ctx SIM_SETTLE_MAX_ITERS.

(** Convergence is judged by the root alone: a child that changes without
    changing an output in its pass is not settled again, its dirty flags are
    dropped, and a later settling does not repair it.  Success is reported
    although the child's equations do not hold; the same module settles when it
    is the root. *)
Theorem settle_leaves_child_unsettled :
  let r1 := settle100 (top_context wiring_module chain_design) in
  let r2 := settle100 r1.2 in
  let alone := settle100 (top_context chain_module chain_design) in
  r1.1 = 0 /\ stmt_holds (first_child r1.2) chain_async = false /\
  r2.1 = 0 /\ stmt_holds (first_child r2.2) chain_async = false /\
  alone.1 = 0 /\ stmt_holds (ctx_state alone.2) chain_async = true.
Proof. vm_compute. split_and!; reflexivity. Qed.

(** A net that reads a memory word at a port, and a write to that word. *)
Definition memory_async : IR_Stmt :=
  sample_assign ASSIGN_DRIVE 1 (ExprMemRead 4 "m" "rd" (ExprSignalRef 4 0)).

Definition memory_module : IR_Module :=
  mkModule 0 "mem"
    [sample_signal 0 SIG_PORT PORT_IN; sample_signal 1 SIG_NET PORT_IN] [] []
    [mkMemory 0 "m" 4 2 1 MEM_INIT_FILE lit0] memory_async false.

Definition memory_settled : SimContext :=
  (settle100 (top_context memory_module (mkDesign "d" [memory_module]))).2.

Definition memory_write : IR_Stmt :=
  StmtMemWrite "m" "wr" (ExprSignalRef 4 0) (ExprLiteral 4 lit1).

(** Memory contents are not a dependency: a chunk that reads a memory word
    is not run again after the word is written, so its net keeps the old word
    although settling reports success. *)
Theorem settle_misses_memory_write :
  let written := mkContext (sim_exec_stmt true (ctx_state memory_settled) memory_write) [] in
  let r := settle100 written in
  stmt_holds (ctx_state memory_settled) memory_async = true /\
  r.1 = 0 /\ stmt_holds (ctx_state r.2) memory_async = false.
Proof. vm_compute. split_and!; reflexivity. Qed.

(** Memories never get their declared contents: the cells of a memory
    initialised from a file or a blob are zero, and those of a memory with a
    literal are the random words of a memory without initialiser. *)
Theorem init_memory_ignores_contents id name ww depth aw lit lit' rng :
  (forall k, k = MEM_INIT_FILE \/ k = MEM_INIT_BLOB ->
     Forall (fun v => v = sim_val_zero ww)
       (me_cells (init_memory (mkMemory id name ww depth aw k lit) rng).1)) /\
  init_memory (mkMemory id name ww depth aw MEM_INIT_LITERAL lit) rng =
  init_memory (mkMemory id name ww depth aw MEM_INIT_NONE lit') rng.
Proof.
  split; [|done]. intros k Hk. unfold init_memory.
  destruct (init_list_Forall2
    (fun (_ : unit) rng => init_cell (mkMemory id name ww depth aw k lit) rng)
    (fun _ v => v = sim_val_zero ww) (fun _ => True)
    (replicate (Z.to_nat (mem_depth (mkMemory id name ww depth aw k lit))) tt) rng) as [H _];
    [|done|].
  { intros u r _ _. by destruct Hk as [-> | ->]. }
  destruct (init_list _ _ rng) as [cells r]. cbn [fst me_cells] in *.
  apply Forall_forall. intros v Hv. apply list_elem_of_lookup in Hv as [j Hj].
  by destruct (Forall2_lookup_r _ _ _ _ _ H Hj) as (? & _ & ?).
Qed.

Lemma init_memory_ignores_contents_witness :
  Forall (fun v => v = sim_val_zero 4)
    (me_cells (init_memory (mkMemory 0 "m" 4 2 1 MEM_INIT_FILE lit1) 1).1).
Proof. apply (init_memory_ignores_contents 0 "m" 4 2 1 lit1 lit1 1). by left. Defined.
