(* ===== verification/ConstEval.v ===== *)
(** * The constant-expression evaluator: [compiler/src/sem/const_eval.c]

    The C file has the recursive-descent parser twice: over anonymous
    expressions ([Parser], [parse_*]) and with names resolved through an
    environment ([EnvParser], [env_parse_*]).  The two differ in the identifier
    case only, so the grammar is one Section over that case, [resolve], and
    the two families are its instances.

    Signed [long long] arithmetic that overflows is undefined in C; the model
    wraps the value and raises the flag [ps_undefined].  Recursion is bounded
    by [fuel]: one unit per nesting level, which [JZ_LIMIT_CONST_EVAL_DEPTH]
    bounds; a loop gets one unit per remaining character.  Running out raises
    [ps_stuck]; [ConstEvalTotal] shows that it never happens.  Diagnostics are
    reduced to the [error] field. *)

From S2P Require Import Prelude CString Util.

Local Open Scope Z_scope.

(** ** Tokens *)

Inductive TokenKind :=
  | TK_EOF | TK_INT | TK_IDENT | TK_PLUS | TK_MINUS | TK_STAR | TK_SLASH | TK_PERCENT
  | TK_LPAREN | TK_RPAREN | TK_EQEQ | TK_NEQ | TK_LT | TK_LE | TK_GT | TK_GE
  | TK_SHL | TK_SHR | TK_ASHR | TK_AND_AND | TK_OR_OR.

#[export] Instance TokenKind_eq_dec : EqDecision TokenKind.
Proof. solve_decision. Defined.

Record Token := mkToken { kind : TokenKind; int_val : Z; ident : string }.

(** A token without payload: the zeroed [Token] with its kind. *)
Definition simple (k : TokenKind) : Token := mkToken k 0 "".

Fixpoint skip_ws (p : string) : string :=
  match p with
  | String c p' => if isspace c then skip_ws p' else p
  | EmptyString => p
  end.

Definition is_ident_start (c : ascii) : bool := isalpha c || Ascii.eqb c "_".
Definition is_ident_char (c : ascii) : bool := isalnum c || Ascii.eqb c "_".

(** A decimal integer with underscores; it sticks at [LLONG_MAX] on overflow. *)
Fixpoint lex_int (p : string) (val : Z) : Z * string :=
  match p with
  | String c p' =>
      if Ascii.eqb c "_" then lex_int p' val
      else if isdigit c then
        let d := code c - 48 in
        lex_int p' (if Z.quot (LLONG_MAX - d) 10 <? val then LLONG_MAX else val * 10 + d)
      else (val, p)
  | EmptyString => (val, p)
  end.

Fixpoint lex_ident (p : string) : string * string :=
  match p with
  | String c p' =>
      if is_ident_char c then let '(s, r) := lex_ident p' in (String c s, r) else (EmptyString, p)
  | EmptyString => (EmptyString, p)
  end.

(** [sizeof(t.ident) - 1] characters are kept. *)
Definition ident_max : nat := 63.

(** The rest of the input after the closing quote of a string. *)
Fixpoint skip_string (p : string) : string :=
  match p with
  | String c p' => if code c =? 34 then p' else skip_string p'
  | EmptyString => p
  end.

(** [*lx->p == c]; [lx->p++] then skips the character. *)
Definition peek_is (c : ascii) (p : string) : option string :=
  match p with String d p' => if Ascii.eqb d c then Some p' else None | EmptyString => None end.

(** The [switch] on the first character [c] of a token; [p] is what follows.
    A character or a lone [=], [!], [&] or [|] that starts no token gives
    [TK_EOF]. *)
Definition lex_switch (c : ascii) (p : string) : Token * string :=
  if code c =? 34 then (mkToken TK_IDENT 0 "__string__", skip_string p)
  else if Ascii.eqb c "+" then (simple TK_PLUS, p)
  else if Ascii.eqb c "-" then (simple TK_MINUS, p)
  else if Ascii.eqb c "*" then (simple TK_STAR, p)
  else if Ascii.eqb c "/" then (simple TK_SLASH, p)
  else if Ascii.eqb c "%" then (simple TK_PERCENT, p)
  else if Ascii.eqb c "(" then (simple TK_LPAREN, p)
  else if Ascii.eqb c ")" then (simple TK_RPAREN, p)
  else if Ascii.eqb c "<" then
    match peek_is "<" p, peek_is "=" p with
    | Some p', _ => (simple TK_SHL, p')
    | None, Some p' => (simple TK_LE, p')
    | None, None => (simple TK_LT, p)
    end
  else if Ascii.eqb c ">" then
    match peek_is ">" p, peek_is "=" p with
    | Some p', _ =>
        match peek_is ">" p' with
        | Some p'' => (simple TK_ASHR, p'')
        | None => (simple TK_SHR, p')
        end
    | None, Some p' => (simple TK_GE, p')
    | None, None => (simple TK_GT, p)
    end
  else if Ascii.eqb c "=" then
    match peek_is "=" p with Some p' => (simple TK_EQEQ, p') | None => (simple TK_EOF, p) end
  else if Ascii.eqb c "!" then
    match peek_is "=" p with Some p' => (simple TK_NEQ, p') | None => (simple TK_EOF, p) end
  else if Ascii.eqb c "&" then
    match peek_is "&" p with Some p' => (simple TK_AND_AND, p') | None => (simple TK_EOF, p) end
  else if Ascii.eqb c "|" then
    match peek_is "|" p with Some p' => (simple TK_OR_OR, p') | None => (simple TK_EOF, p) end
  else (simple TK_EOF, p).

Definition lex_one (p : string) : Token * string :=
  match skip_ws p with
  | EmptyString => (simple TK_EOF, EmptyString)
  | String c p' =>
      if isdigit c then
        let '(v, r) := lex_int (String c p') 0 in (mkToken TK_INT v "", r)
      else if is_ident_start c then
        let '(s, r) := lex_ident (String c p') in (mkToken TK_IDENT 0 (truncate ident_max s), r)
      else lex_switch c p'
  end.

(** [clog2] of a positive number; the [while (v > 1)] loop halves a 64-bit
    number, so 64 rounds suffice. *)
Fixpoint clog2_loop (fuel : nat) (v result : Z) : Z :=
  match fuel with
  | O => result
  | S fuel' => if 1 <? v then clog2_loop fuel' (Z.shiftr v 1) (result + 1) else result
  end.

Definition eval_clog2_positive (u : Z) : Z := clog2_loop 64 (u - 1) 1.

(** ** Parser state and monad *)

(** [ps_error] is 0, 1 (diagnosed) or 2 (circular dependency).  [E] is the
    environment behind the parser. *)
Record PState (E : Type) := mkPState {
  ps_lx : string;
  ps_cur : Token;
  ps_error : Z;
  ps_expr_depth : Z;
  ps_undefined : bool;
  ps_stuck : bool;
  ps_env : E
}.
Arguments mkPState {E}.
Arguments ps_lx {E}.
Arguments ps_cur {E}.
Arguments ps_error {E}.
Arguments ps_expr_depth {E}.
Arguments ps_undefined {E}.
Arguments ps_stuck {E}.
Arguments ps_env {E}.

Definition PM (E A : Type) : Type := PState E -> A * PState E.

#[export] Instance PM_ret E : MRet (PM E) := fun A a p => (a, p).
#[export] Instance PM_bind E : MBind (PM E) :=
  fun A B f m p => let '(a, p') := m p in f a p'.

(** What resolving a name gives: the value, the error code (0 for none), the
    new environment, and whether the nested evaluation was undefined or stuck. *)
Record Resolved (E : Type) := mkResolved {
  rs_value : Z;
  rs_error : Z;
  rs_env : E;
  rs_undefined : bool;
  rs_stuck : bool
}.
Arguments mkResolved {E}.
Arguments rs_value {E}.
Arguments rs_error {E}.
Arguments rs_env {E}.
Arguments rs_undefined {E}.
Arguments rs_stuck {E}.

Section Primitives.
Context {E : Type}.

Definition get_state : PM E (PState E) := fun p => (p, p).
Definition put_state (p : PState E) : PM E unit := fun _ => (tt, p).

Definition set_lx (lx : string) (cur : Token) (p : PState E) : PState E :=
  mkPState lx cur (ps_error p) (ps_expr_depth p) (ps_undefined p) (ps_stuck p) (ps_env p).
Definition set_error (e : Z) (p : PState E) : PState E :=
  mkPState (ps_lx p) (ps_cur p) e (ps_expr_depth p) (ps_undefined p) (ps_stuck p) (ps_env p).
Definition set_depth (d : Z) (p : PState E) : PState E :=
  mkPState (ps_lx p) (ps_cur p) (ps_error p) d (ps_undefined p) (ps_stuck p) (ps_env p).
Definition set_undefined (p : PState E) : PState E :=
  mkPState (ps_lx p) (ps_cur p) (ps_error p) (ps_expr_depth p) true (ps_stuck p) (ps_env p).
Definition set_stuck (p : PState E) : PState E :=
  mkPState (ps_lx p) (ps_cur p) (ps_error p) (ps_expr_depth p) (ps_undefined p) true (ps_env p).

(** [parser_init]: [src] is lexed up to its first token. *)
Definition parser_init (src : string) (env : E) : PState E :=
  let '(t, lx) := lex_one src in mkPState lx t 0 0 false false env.

(** The first diagnosis sets the error. *)
Definition parser_diag : PM E unit := fun p =>
  (tt, if ps_error p =? 0 then set_error 1 p else p).

Definition advance : PM E unit := fun p =>
  match kind (ps_cur p) with
  | TK_EOF => (tt, p)
  | _ => let '(t, lx) := lex_one (ps_lx p) in (tt, set_lx lx t p)
  end.

(** [true] when the depth limit refused the entry. *)
Definition parser_enter_expr_depth : PM E bool := fun p =>
  match jz_depth_enter_checked (ps_expr_depth p) JZ_LIMIT_CONST_EVAL_DEPTH with
  | None => (true, (parser_diag p).2)
  | Some d => (false, set_depth d p)
  end.

Definition parser_leave_expr_depth : PM E unit := fun p =>
  (tt, set_depth (jz_depth_leave (ps_expr_depth p)) p).

(** [parser_diag(...); return 0;] *)
Definition fail : PM E Z := _ ← parser_diag; mret 0.

(** Out of fuel. *)
Definition stuck : PM E Z := fun p => (0, set_stuck p).

Definition in_llong (x : Z) : bool := (- LLONG_MAX - 1 <=? x) && (x <=? LLONG_MAX).

(** The result of a signed operation whose exact value is [x]. *)
Definition signed (x : Z) : PM E Z := fun p =>
  if in_llong x then (x, p) else (i64 x, set_undefined p).
End Primitives.

(** ** The grammar *)

Section Grammar.
Context {E : Type} (resolve : string -> E -> Resolved E).

(** The identifier case, other than [clog2]. *)
Definition parse_name (name : string) : PM E Z := fun p =>
  let r := resolve name (ps_env p) in
  let p := mkPState (ps_lx p) (ps_cur p) (rs_error r) (ps_expr_depth p)
             (ps_undefined p || rs_undefined r) (ps_stuck p || rs_stuck r) (rs_env r) in
  if rs_error r =? 0 then let '(_, p) := advance p in (rs_value r, p) else (0, p).

Section Levels.
(** [fuel] bounds the chain of unary signs, [expr] is the recursive call. *)
Context (fuel : nat) (expr : PM E Z).

(** [expr], then a closing parenthesis and what [k] does with the value. *)
Definition parse_closed (k : Z -> PM E Z) : PM E Z :=
  v ← expr;
  p ← get_state;
  if negb (ps_error p =? 0) then mret 0
  else if negb (bool_decide (kind (ps_cur p) = TK_RPAREN)) then fail
  else _ ← advance; k v.

Definition parse_primary : PM E Z :=
  p ← get_state;
  if negb (ps_error p =? 0) then mret 0
  else
    match kind (ps_cur p) with
    | TK_INT => _ ← advance; mret (int_val (ps_cur p))
    | TK_IDENT =>
        if String.eqb (ident (ps_cur p)) "clog2" then
          _ ← advance;
          p ← get_state;
          if negb (bool_decide (kind (ps_cur p) = TK_LPAREN)) then fail
          else
            _ ← advance;
            parse_closed (fun arg =>
              if arg <=? 0 then fail else mret (eval_clog2_positive arg))
        else parse_name (ident (ps_cur p))
    | TK_LPAREN => _ ← advance; parse_closed mret
    | _ => fail
    end.

Fixpoint parse_unary (fuel : nat) : PM E Z :=
  p ← get_state;
  if negb (ps_error p =? 0) then mret 0
  else
    match kind (ps_cur p) with
    | TK_PLUS | TK_MINUS =>
        match fuel with
        | O => stuck
        | S fuel' =>
            _ ← advance;
            refused ← parser_enter_expr_depth;
            if (refused : bool) then mret 0
            else
              v ← parse_unary fuel';
              _ ← parser_leave_expr_depth;
              if bool_decide (kind (ps_cur p) = TK_MINUS) then signed (- v) else mret v
        end
    | _ => parse_primary
    end.

(** The loop of the left-associative levels: while the token is an
    operator of the level, read the right operand and combine. *)
Fixpoint binary_loop (n : nat) (operator : TokenKind -> option (Z -> Z -> PM E Z))
    (operand : PM E Z) (left : Z) : PM E Z :=
  p ← get_state;
  if negb (ps_error p =? 0) then mret left
  else
    match operator (kind (ps_cur p)) with
    | None => mret left
    | Some op =>
        match n with
        | O => stuck
        | S n' =>
            _ ← advance;
            right ← operand;
            p ← get_state;
            if negb (ps_error p =? 0) then mret 0
            else
              left ← op left right;
              p ← get_state;
              if negb (ps_error p =? 0) then mret 0
              else binary_loop n' operator operand left
        end
    end.

(** One level: the first operand, then the loop, with a round for each
    remaining character and one more. *)
Definition parse_level (operator : TokenKind -> option (Z -> Z -> PM E Z))
    (operand : PM E Z) : PM E Z :=
  left ← operand;
  p ← get_state;
  binary_loop (S (String.length (ps_lx p))) operator operand left.

Definition mul_operator (k : TokenKind) : option (Z -> Z -> PM E Z) :=
  match k with
  | TK_STAR => Some (fun l r => signed (l * r))
  | TK_SLASH => Some (fun l r => if r =? 0 then fail else signed (Z.quot l r))
  | TK_PERCENT => Some (fun l r =>
      if r =? 0 then fail
      else _ ← signed (Z.quot l r); mret (Z.rem l r))
  | _ => None
  end.

Definition parse_multiplicative : PM E Z := parse_level mul_operator (parse_unary fuel).

Definition add_operator (k : TokenKind) : option (Z -> Z -> PM E Z) :=
  match k with
  | TK_PLUS => Some (fun l r => signed (l + r))
  | TK_MINUS => Some (fun l r => signed (l - r))
  | _ => None
  end.

Definition parse_additive : PM E Z := parse_level add_operator parse_multiplicative.

(** A left shift of a negative number is undefined as well. *)
Definition shift_left (l sh : Z) : PM E Z :=
  if l <? 0 then fun p => (i64 (Z.shiftl l sh), set_undefined p)
  else signed (Z.shiftl l sh).

Definition shift_operator (k : TokenKind) : option (Z -> Z -> PM E Z) :=
  let checked (f : Z -> Z -> PM E Z) (l r : Z) : PM E Z :=
    if r <? 0 then fail else if 63 <? r then fail else f l r in
  match k with
  | TK_SHL => Some (checked shift_left)
  | TK_SHR => Some (checked (fun l r => mret (i64 (Z.shiftr (u64 l) r))))
  | TK_ASHR => Some (checked (fun l r => mret (Z.shiftr l r)))
  | _ => None
  end.

Definition parse_shift : PM E Z := parse_level shift_operator parse_additive.

(** An operator that yields a truth value. *)
Definition truth_op (f : Z -> Z -> bool) : option (Z -> Z -> PM E Z) :=
  Some (fun l r => mret (bool_to_int (f l r))).

Definition rel_operator (k : TokenKind) : option (Z -> Z -> PM E Z) :=
  match k with
  | TK_LT => truth_op Z.ltb
  | TK_LE => truth_op Z.leb
  | TK_GT => truth_op Z.gtb
  | TK_GE => truth_op Z.geb
  | _ => None
  end.

Definition parse_relational : PM E Z := parse_level rel_operator parse_shift.

Definition eq_operator (k : TokenKind) : option (Z -> Z -> PM E Z) :=
  match k with
  | TK_EQEQ => truth_op Z.eqb
  | TK_NEQ => truth_op (fun l r => negb (l =? r))
  | _ => None
  end.

Definition parse_equality : PM E Z := parse_level eq_operator parse_relational.

Definition and_operator (k : TokenKind) : option (Z -> Z -> PM E Z) :=
  match k with
  | TK_AND_AND => truth_op (fun l r => negb (l =? 0) && negb (r =? 0))
  | _ => None
  end.

Definition parse_logical_and : PM E Z := parse_level and_operator parse_equality.

Definition or_operator (k : TokenKind) : option (Z -> Z -> PM E Z) :=
  match k with
  | TK_OR_OR => truth_op (fun l r => negb (l =? 0) || negb (r =? 0))
  | _ => None
  end.

Definition parse_logical_or : PM E Z := parse_level or_operator parse_logical_and.
End Levels.

Fixpoint parse_expr (fuel : nat) : PM E Z :=
  match fuel with
  | O => stuck
  | S fuel' =>
      refused ← parser_enter_expr_depth;
      if (refused : bool) then mret 0
      else
        value ← parse_logical_or fuel (parse_expr fuel');
        _ ← parser_leave_expr_depth;
        mret value
  end.
End Grammar.

(** Enough for the depth limit, which is 512. *)
Definition parse_fuel : nat := 513.

(** What a call returns.  [OutOfFuel] never occurs. *)
Inductive EvalResult :=
  | Value (v : Z)
  | Failed
  | Undefined
  | Stuck.

(** ** Anonymous expressions *)

(** Bare identifiers are not allowed. *)
Definition resolve_none (name : string) (env : unit) : Resolved unit :=
  mkResolved 0 1 env false false.

(** The final checks shared by the two entry points: trailing tokens, errors,
    negative values. *)
Definition finish {E} (r : Z * PState E) : Z * PState E :=
  let '(value, p) := r in
  let p :=
    if (ps_error p =? 0) && negb (bool_decide (kind (ps_cur p) = TK_EOF))
    then (parser_diag p).2 else p in
  if negb (ps_error p =? 0) then (value, p)
  else if value <? 0 then (value, (parser_diag p).2)
  else (value, p).

Definition jz_const_eval_expr (expr : string) : EvalResult :=
  let '(value, p) := finish (parse_expr resolve_none parse_fuel (parser_init expr tt)) in
  if ps_stuck p then Stuck
  else if ps_undefined p then Undefined
  else if ps_error p =? 0 then Value value else Failed.

(** ** Named definitions *)

Record JZConstDef := mkConstDef { def_name : option string; def_expr : option string }.

Inductive EvalState := EVAL_NOT_VISITED | EVAL_VISITING | EVAL_DONE.

#[export] Instance EvalState_eq_dec : EqDecision EvalState.
Proof. solve_decision. Defined.

Record EvalEnv := mkEnv {
  env_values : list Z;
  env_state : list EvalState
}.

Definition set_env_state (i : Z) (st : EvalState) (env : EvalEnv) : EvalEnv :=
  mkEnv (env_values env) (aset (env_state env) i st).
Definition set_env_value (i v : Z) (env : EvalEnv) : EvalEnv :=
  mkEnv (aset (env_values env) i v) (env_state env).
Definition state_of (env : EvalEnv) (i : Z) : EvalState := aget EVAL_NOT_VISITED (env_state env) i.
Definition value_of (env : EvalEnv) (i : Z) : Z := aget 0 (env_values env) i.

Section Definitions.
Context (defs : list JZConstDef).

(** The first definition with the name, [-1] if there is none. *)
Definition find_def_index (name : string) : Z :=
  if String.eqb name "" then -1
  else
    match ret_up (length defs) (fun i =>
      match aget None (map def_name defs) i with
      | Some n => if String.eqb n name then Some i else None
      | None => None
      end)
    with Some i => i | None => -1 end.

(** What [eval_one] returns with the environment: the code (0, -1, -2) and
    whether evaluation was undefined or stuck. *)
Record EvalOne := mkEvalOne {
  eo_code : Z;
  eo_env : EvalEnv;
  eo_undefined : bool;
  eo_stuck : bool
}.

(** The identifier case of [env_parse_primary]. *)
Definition env_resolve (eval_one : Z -> EvalEnv -> EvalOne) (name : string) (env : EvalEnv) :
    Resolved EvalEnv :=
  let idx := find_def_index name in
  if idx <? 0 then mkResolved 0 1 env false false
  else
    match state_of env idx with
    | EVAL_VISITING => mkResolved 0 2 env false false
    | EVAL_DONE => mkResolved (value_of env idx) 0 env false false
    | EVAL_NOT_VISITED =>
        let r := eval_one idx env in
        let error := if eo_code r =? 0 then 0 else if eo_code r =? -2 then 2 else 1 in
        mkResolved (value_of (eo_env r) idx) error (eo_env r) (eo_undefined r) (eo_stuck r)
    end.

(** The [env_parse_*] functions: the grammar with names resolved through
    the environment.  [env_parse_expr] stands for the levels above
    [env_parse_unary], which only differ in the function they call. *)
Definition env_parse_primary (eval_one : Z -> EvalEnv -> EvalOne) (expr : PM EvalEnv Z) :
    PM EvalEnv Z := parse_primary (env_resolve eval_one) expr.
Definition env_parse_unary (eval_one : Z -> EvalEnv -> EvalOne) (expr : PM EvalEnv Z)
    (fuel : nat) : PM EvalEnv Z := parse_unary (env_resolve eval_one) expr fuel.
Definition env_parse_expr (eval_one : Z -> EvalEnv -> EvalOne) (fuel : nat) : PM EvalEnv Z :=
  parse_expr (env_resolve eval_one) fuel.

(** [fuel] counts definitions being visited. *)
Fixpoint eval_one (fuel : nat) (index : Z) (env : EvalEnv) : EvalOne :=
  match fuel with
  | O => mkEvalOne (-1) env false true
  | S fuel' =>
      if Z.of_nat (length defs) <=? index then mkEvalOne (-1) env false false
      else
        match state_of env index with
        | EVAL_DONE => mkEvalOne 0 env false false
        | EVAL_VISITING => mkEvalOne (-2) env false false
        | EVAL_NOT_VISITED =>
            let env := set_env_state index EVAL_VISITING env in
            let expr :=
              match aget None (map def_expr defs) index with Some e => e | None => "0" end in
            let '(value, p) :=
              finish (env_parse_expr (eval_one fuel') parse_fuel (parser_init expr env)) in
            let env := ps_env p in
            if negb (ps_error p =? 0) then
              mkEvalOne (if ps_error p =? 2 then -2 else -1)
                (set_env_state index EVAL_NOT_VISITED env) (ps_undefined p) (ps_stuck p)
            else
              mkEvalOne 0 (set_env_state index EVAL_DONE (set_env_value index value env))
                (ps_undefined p) (ps_stuck p)
        end
  end.

(** The loop over the definitions; it stops at the first error. *)
Fixpoint eval_from (n : nat) (i : Z) (env : EvalEnv) (undefined stuck : bool) : EvalOne :=
  match n with
  | O => mkEvalOne 0 env undefined stuck
  | S n' =>
      match state_of env i with
      | EVAL_NOT_VISITED =>
          let r := eval_one (S (length defs)) i env in
          let undefined := undefined || eo_undefined r in
          let stuck := stuck || eo_stuck r in
          if eo_code r =? 0 then eval_from n' (i + 1) (eo_env r) undefined stuck
          else mkEvalOne (eo_code r) (eo_env r) undefined stuck
      | _ => eval_from n' (i + 1) env undefined stuck
      end
  end.

(** [out_values] is the caller's array; [None] stands for a run that is
    undefined.  The code and the array are returned. *)
Definition jz_const_eval_all (out_values : list Z) : EvalOne :=
  eval_from (length defs) 0
    (mkEnv out_values (replicate (length defs) EVAL_NOT_VISITED)) false false.
End Definitions.
