(* ===== verification/ConstEvalTotal.v ===== *)
(** * The constant evaluator terminates

    The fuel never runs out: nesting is bounded by the depth limit, and every
    round of a loop consumes a token.  Along the way every value stays in the
    range of [long long]. *)

From S2P Require Import Prelude Util CString ConstEval.

Local Open Scope Z_scope.

(** ** The lexer consumes *)

Lemma skip_ws_length p : (String.length (skip_ws p) <= String.length p)%nat.
Proof. induction p as [|c p IH]; simpl; [lia|]. destruct (isspace c); simpl; lia. Qed.

Lemma lex_int_length p v : (String.length (lex_int p v).2 <= String.length p)%nat.
Proof.
  revert v. induction p as [|c p IH]; intros v; simpl; [lia|].
  destruct (Ascii.eqb c "_"); [specialize (IH v); lia|].
  destruct (isdigit c); [|simpl; lia].
  match goal with |- context [lex_int p ?x] => specialize (IH x) end. lia.
Qed.

Lemma lex_ident_length p : (String.length (lex_ident p).2 <= String.length p)%nat.
Proof.
  induction p as [|c p IH]; simpl; [lia|]. destruct (is_ident_char c); [|simpl; lia].
  destruct (lex_ident p). simpl in *. lia.
Qed.

Lemma skip_string_length p : (String.length (skip_string p) <= String.length p)%nat.
Proof. induction p as [|c p IH]; simpl; [lia|]. destruct (code c =? 34); simpl; lia. Qed.

Lemma peek_is_length c p q : peek_is c p = Some q -> (String.length q < String.length p)%nat.
Proof. destruct p as [|d p]; simpl; [done|]. destruct (Ascii.eqb d c); [intros [= ->]; lia|done]. Qed.

Lemma lex_switch_length c p : (String.length (lex_switch c p).2 <= String.length p)%nat.
Proof.
  unfold lex_switch.
  repeat match goal with
  | |- context [if ?b then _ else _] => destruct b; simpl; try lia
  | |- context [match peek_is ?d ?q with _ => _ end] =>
      destruct (peek_is d q) eqn:?; simpl; try lia
  | H : peek_is _ _ = Some _ |- _ => apply peek_is_length in H
  end; pose proof (skip_string_length p); lia.
Qed.

(** A token, unless the input is empty or blank, takes a character. *)
Lemma lex_one_length p :
  kind (lex_one p).1 <> TK_EOF -> (String.length (lex_one p).2 < String.length p)%nat.
Proof.
  unfold lex_one. pose proof (skip_ws_length p) as Hws. destruct (skip_ws p) as [|c q]; [done|].
  simpl in Hws. destruct (isdigit c) eqn:Ed.
  - intros _. simpl. rewrite Ed. destruct (Ascii.eqb_spec c "_") as [->|]; [done|].
    match goal with |- context [lex_int q ?x] => pose proof (lex_int_length q x) end.
    destruct (lex_int q _). simpl in *. lia.
  - destruct (is_ident_start c) eqn:Ei.
    + intros _. simpl. assert (is_ident_char c = true) as ->.
      { unfold is_ident_start, is_ident_char, isalnum in *.
        destruct (isalpha c), (isdigit c), (Ascii.eqb c "_"); done. }
      pose proof (lex_ident_length q). destruct (lex_ident q). simpl in *. lia.
    + intros _. pose proof (lex_switch_length c q). lia.
Qed.

(** Integer tokens are in range. *)
Lemma lex_int_range p v : 0 <= v <= LLONG_MAX -> 0 <= (lex_int p v).1 <= LLONG_MAX.
Proof.
  revert v. induction p as [|c p IH]; intros v Hv; simpl; [done|].
  destruct (Ascii.eqb c "_"); [by apply IH|].
  destruct (isdigit c) eqn:Ed; [|done]. apply IH.
  unfold isdigit, in_codes in Ed. unfold LLONG_MAX in *. rewrite Z.quot_div_nonneg by lia.
  destruct (Z.ltb_spec ((9223372036854775807 - (code c - 48)) / 10) v) as [|Hle]; [lia|].
  pose proof (Z.mul_div_le (9223372036854775807 - (code c - 48)) 10 ltac:(lia)). lia.
Qed.

Lemma lex_switch_int_val c p : int_val (lex_switch c p).1 = 0.
Proof.
  unfold lex_switch.
  repeat match goal with
  | |- context [if ?b then _ else _] => destruct b; try reflexivity
  | |- context [match ?o with Some _ => _ | None => _ end] => destruct o; try reflexivity
  end.
Qed.

Lemma lex_one_range p : 0 <= int_val (lex_one p).1 <= LLONG_MAX.
Proof.
  unfold lex_one. destruct (skip_ws p) as [|c q]; [done|].
  destruct (isdigit c).
  - pose proof (lex_int_range (String c q) 0 ltac:(done)). by destruct (lex_int _ 0).
  - destruct (is_ident_start c); [by destruct (lex_ident _)|]. by rewrite lex_switch_int_val.
Qed.

(** ** Runs *)

(** What is left to read: nothing after [TK_EOF]. *)
Definition remaining {E} (p : PState E) : nat :=
  if bool_decide (kind (ps_cur p) = TK_EOF) then O else S (String.length (ps_lx p)).

Definition llong (x : Z) : Prop := - LLONG_MAX - 1 <= x <= LLONG_MAX.

Lemma i64_llong x : llong (i64 x).
Proof.
  unfold llong, i64, swrap, LLONG_MAX.
  pose proof (Z.mod_pos_bound (x + 2 ^ (64 - 1)) (2 ^ 64) ltac:(done)). lia.
Qed.

Section Runs.
Context {E : Type} (I : E -> Prop).

(** Not stuck, the environment in shape, the depth within its limit. *)
Record good (p : PState E) : Prop := {
  gd_stuck : ps_stuck p = false;
  gd_env : I (ps_env p);
  gd_depth : 0 <= ps_expr_depth p <= 512;
  gd_token : llong (int_val (ps_cur p))
}.

(** [m] runs well from [p] and gives a result in [Q]; the depth is
    restored, and no input comes back. *)
Record runs {A} (m : PM E A) (p : PState E) (Q : A -> Prop) : Prop := {
  rn_good : good (m p).2;
  rn_depth : ps_expr_depth (m p).2 = ps_expr_depth p;
  rn_remaining : (remaining (m p).2 <= remaining p)%nat;
  rn_result : Q (m p).1
}.

Lemma runs_ret {A} (a : A) p (Q : A -> Prop) : good p -> Q a -> runs (mret a) p Q.
Proof using Type. by constructor. Qed.

Lemma runs_bind {A B} (m : PM E A) (f : A -> PM E B) p (Q : A -> Prop) (R : B -> Prop) :
  runs m p Q ->
  (forall a q, good q -> ps_expr_depth q = ps_expr_depth p -> (remaining q <= remaining p)%nat ->
     Q a -> runs (f a) q R) ->
  runs (m ≫= f) p R.
Proof using Type.
  intros [H1 H2 H3 H4] Hf. unfold mbind, PM_bind. destruct (m p) as [a q] eqn:Em. simpl in *.
  destruct (Hf a q H1 H2 H3 H4) as [F1 F2 F3 F4]. constructor; unfold mbind, PM_bind;
    rewrite Em; [done|congruence|lia|done].
Qed.

Lemma runs_get {B} (f : PState E -> PM E B) p (R : B -> Prop) :
  runs (f p) p R -> runs (get_state ≫= f) p R.
Proof using Type. intros [H1 H2 H3 H4]. by constructor. Qed.

Lemma runs_diag p : good p -> runs parser_diag p (fun _ => True).
Proof using Type.
  intros [H1 H2 H3 H4]. unfold parser_diag.
  constructor; simpl; destruct (ps_error p =? 0); done.
Qed.

Lemma runs_fail p : good p -> runs fail p llong.
Proof using Type.
  intros Hp. eapply runs_bind; [by apply runs_diag|]. intros. by apply runs_ret.
Qed.

Lemma advance_eof (p : PState E) : kind (ps_cur p) = TK_EOF -> advance p = (tt, p).
Proof using Type. unfold advance. by intros ->. Qed.

Lemma advance_next (p : PState E) :
  kind (ps_cur p) <> TK_EOF ->
  advance p = (tt, set_lx (lex_one (ps_lx p)).2 (lex_one (ps_lx p)).1 p).
Proof using Type.
  unfold advance. intros H. destruct (lex_one (ps_lx p)). by destruct (kind (ps_cur p)).
Qed.

(** Advancing past a token that is not the end consumes. *)
Lemma runs_advance p :
  good p -> runs advance p (fun _ => True) /\
  (kind (ps_cur p) <> TK_EOF -> (remaining (advance p).2 < remaining p)%nat).
Proof using Type.
  intros Hp. pose proof Hp as [H1 H2 H3 H4].
  destruct (decide (kind (ps_cur p) = TK_EOF)) as [Ek|Ek].
  { rewrite (advance_eof p Ek). split; [|done]. constructor; rewrite ?(advance_eof p Ek); done. }
  pose proof (lex_one_length (ps_lx p)) as Hl. pose proof (lex_one_range (ps_lx p)) as Hr.
  assert (remaining (advance p).2 < remaining p)%nat as Hlt.
  { rewrite (advance_next p Ek). unfold remaining.
    rewrite (bool_decide_eq_false_2 (kind (ps_cur p) = TK_EOF)) by done. simpl.
    case_bool_decide as E1; [lia|]. specialize (Hl E1). lia. }
  split; [|done]. constructor; [|by rewrite (advance_next p Ek)|lia|done].
  rewrite (advance_next p Ek). constructor; try done. simpl. unfold llong, LLONG_MAX in *. lia.
Qed.

(** [advance] before [m], from a token that is not the end. *)
Lemma runs_advance_then {B} (m : PM E B) p (R : B -> Prop) :
  good p -> kind (ps_cur p) <> TK_EOF ->
  (forall q, good q -> ps_expr_depth q = ps_expr_depth p -> (remaining q < remaining p)%nat ->
     runs m q R) ->
  runs (_ ← (advance : PM E unit); m) p R.
Proof using Type.
  intros Hp Hk Hm. destruct (runs_advance p Hp) as [[A1 A2 A3 A4] Hlt]. specialize (Hlt Hk).
  unfold mbind, PM_bind. destruct (advance p) as [u q] eqn:Ea. simpl in *.
  destruct (Hm q A1 A2 Hlt) as [F1 F2 F3 F4].
  constructor; unfold mbind, PM_bind; rewrite Ea; [done|congruence|lia|done].
Qed.

Lemma runs_signed x p : good p -> runs (signed x) p llong.
Proof using Type.
  intros [H1 H2 H3 H4]. unfold signed. destruct (in_llong x) eqn:Ex.
  - constructor; rewrite ?Ex; try done. unfold in_llong in Ex. unfold llong. simpl. lia.
  - constructor; rewrite ?Ex; try done. apply i64_llong.
Qed.

Lemma enter_depth (p : PState E) :
  parser_enter_expr_depth p =
  if 512 <=? ps_expr_depth p then (true, (parser_diag p).2)
  else (false, set_depth (ps_expr_depth p + 1) p).
Proof using Type.
  unfold parser_enter_expr_depth, jz_depth_enter_checked.
  change (jz_input_limit_value JZ_LIMIT_CONST_EVAL_DEPTH) with 512. cbn [Z.eqb orb].
  by destruct (512 <=? ps_expr_depth p).
Qed.

(** Entering a level, unless refused, and leaving it restore the depth. *)
Lemma runs_nested {A B} (m : PM E A) (f : A -> PM E B) (d : B) p (Q : A -> Prop) (R : B -> Prop) :
  good p -> R d ->
  (forall q, good q -> ps_expr_depth q = ps_expr_depth p + 1 -> (remaining q <= remaining p)%nat ->
     runs m q Q) ->
  (forall v q, good q -> Q v -> runs (f v) q R) ->
  runs (refused ← parser_enter_expr_depth;
        if (refused : bool) then mret d
        else v ← m; _ ← parser_leave_expr_depth; f v) p R.
Proof using Type.
  intros Hp Hd Hm Hf. pose proof Hp as [H1 H2 H3 H4].
  assert (forall {C} (k : bool -> PM E C), (refused ← parser_enter_expr_depth; k refused) p =
    if 512 <=? ps_expr_depth p then k true (parser_diag p).2
    else k false (set_depth (ps_expr_depth p + 1) p)) as Hk.
  { intros C k. unfold mbind, PM_bind. rewrite enter_depth. by destruct (512 <=? _). }
  destruct (Z.leb_spec 512 (ps_expr_depth p)) as [Hge|Hlt].
  - destruct (runs_diag p Hp) as [D1 D2 D3 _].
    constructor; rewrite Hk; destruct (Z.leb_spec 512 (ps_expr_depth p)); try lia; done.
  - set (q := set_depth (ps_expr_depth p + 1) p) in *.
    assert (good q) as Hq by (constructor; try done; simpl; lia).
    destruct (Hm q Hq eq_refl ltac:(done)) as [M1 M2 M3 M4].
    destruct (m q) as [v r] eqn:Em. cbn [fst snd] in *. change (ps_expr_depth q) with (ps_expr_depth p + 1) in M2.
    set (r' := set_depth (ps_expr_depth p) r).
    assert (good r') as Hr' by (destruct M1; constructor; try done; simpl; lia).
    assert (((v ← m; _ ← parser_leave_expr_depth; f v) : PM E B) q = f v r') as Hrun.
    { unfold mbind, PM_bind, parser_leave_expr_depth. rewrite Em, M2. unfold jz_depth_leave.
      destruct (Z.ltb_spec 0 (ps_expr_depth p + 1)); [|lia].
      by replace (ps_expr_depth p + 1 - 1) with (ps_expr_depth p) by lia. }
    destruct (Hf v r' Hr' M4) as [F1 F2 F3 F4].
    constructor; rewrite Hk; destruct (Z.leb_spec 512 (ps_expr_depth p)); try lia; rewrite Hrun;
      try done. change (remaining r') with (remaining r) in F3.
    change (remaining q) with (remaining p) in M3. lia.
Qed.
End Runs.

(** ** The grammar *)

Section Grammar.
Context {E : Type} (I : E -> Prop) (resolve : string -> E -> Resolved E).
Context (Hresolve : forall name e, I e ->
  rs_stuck (resolve name e) = false /\ I (rs_env (resolve name e)) /\
  (rs_error (resolve name e) = 0 -> llong (rs_value (resolve name e)))).

Local Notation runs := (runs I).
Local Notation good := (good I).

(** Runs well at every depth from [d] on. *)
Definition runs_from (d : Z) (m : PM E Z) : Prop :=
  forall p, good p -> d <= ps_expr_depth p -> runs m p llong.

Lemma runs_name name p : good p -> kind (ps_cur p) <> TK_EOF -> runs (parse_name resolve name) p llong.
Proof using Hresolve.
  intros [H1 H2 H3 H4] Hk. destruct (Hresolve name (ps_env p) H2) as (R1 & R2 & R3).
  unfold parse_name. set (r := resolve name (ps_env p)) in *.
  set (q := mkPState (ps_lx p) (ps_cur p) (rs_error r) (ps_expr_depth p)
    (ps_undefined p || rs_undefined r) (ps_stuck p || rs_stuck r) (rs_env r)).
  assert (good q) as Hq by (constructor; try done; subst q; simpl; by rewrite H1, R1).
  destruct (rs_error r =? 0) eqn:Er.
  - destruct (runs_advance I q Hq) as [[A1 A2 A3 _] _].
    apply Z.eqb_eq in Er. specialize (R3 Er).
    constructor; fold r; fold q; rewrite Er; cbn [Z.eqb]; destruct (advance q); done.
  - constructor; fold r; fold q; rewrite Er; done.
Qed.

Section Levels.
Context (d : Z) (expr : PM E Z) (Hexpr : runs_from d expr).

Lemma runs_closed p k :
  good p -> d <= ps_expr_depth p ->
  (forall v q, good q -> llong v -> runs (k v) q llong) ->
  runs (parse_closed expr k) p llong.
Proof using Hexpr.
  intros Hp Hd Hk. eapply runs_bind; [by apply Hexpr|]. intros v q Hq _ _ Hv.
  apply runs_get. destruct (negb _); [by apply runs_ret|].
  case_bool_decide as Ek; cbn [negb]; [|by apply runs_fail].
  apply runs_advance_then; [done|congruence|]. auto.
Qed.

Lemma clog2_bounds u : 0 < u <= LLONG_MAX -> llong (eval_clog2_positive u).
Proof using Type.
  intros Hu. unfold eval_clog2_positive.
  assert (forall n v r, r <= clog2_loop n v r <= r + Z.of_nat n) as H.
  { induction n as [|n IH]; intros v r; cbn [clog2_loop]; [lia|].
    destruct (1 <? v); [|lia]. specialize (IH (Z.shiftr v 1) (r + 1)). lia. }
  specialize (H 64%nat (u - 1) 1). unfold llong, LLONG_MAX in *. lia.
Qed.

Lemma runs_primary : runs_from d (parse_primary resolve expr).
Proof using Hexpr Hresolve.
  intros p Hp Hd. unfold parse_primary. apply runs_get.
  destruct (negb _); [by apply runs_ret|].
  destruct (kind (ps_cur p)) eqn:Ek; try by apply runs_fail.
  - apply runs_advance_then; [done|congruence|]. intros. apply runs_ret; [done|]. apply Hp.
  - destruct (String.eqb _ _); [|by apply runs_name; [|congruence]].
    apply runs_advance_then; [done|congruence|]. intros q Hq Eq _. apply runs_get.
    case_bool_decide as Ek'; cbn [negb]; [|by apply runs_fail].
    apply runs_advance_then; [done|congruence|]. intros r Hr Er _.
    apply runs_closed; [done|lia|]. intros v u Hu Hv.
    destruct (Z.leb_spec v 0); [by apply runs_fail|]. apply runs_ret; [done|].
    apply clog2_bounds. unfold llong in Hv. lia.
  - apply runs_advance_then; [done|congruence|]. intros q Hq Eq _.
    apply runs_closed; [done|lia|]. intros. by apply runs_ret.
Qed.

Lemma runs_unary n p :
  good p -> d <= ps_expr_depth p -> 513 <= Z.of_nat n + ps_expr_depth p ->
  runs (parse_unary resolve expr n) p llong.
Proof using Hexpr Hresolve.
  revert p. induction n as [|n IH]; intros p Hp Hd Hn; cbn [parse_unary]; apply runs_get.
  { pose proof (gd_depth _ _ Hp). lia. }
  destruct (negb _); [by apply runs_ret|].
  destruct (kind (ps_cur p)) eqn:Ek; try by apply runs_primary.
  all: apply runs_advance_then; [done|congruence|]; intros q Hq Eq _;
    apply (runs_nested I _ _ _ _ llong); [done|done| |].
  1, 3: intros r Hr Er _; apply IH; [done|lia|lia].
  all: intros v r Hr Hv; case_bool_decide; [by apply runs_signed|by apply runs_ret].
Qed.

Definition operator_ok (operator : TokenKind -> option (Z -> Z -> PM E Z)) : Prop :=
  forall k f, operator k = Some f -> k <> TK_EOF /\
    forall l r p, good p -> llong l -> llong r -> runs (f l r) p llong.

Lemma runs_loop operator operand n left p :
  operator_ok operator -> runs_from d operand ->
  good p -> d <= ps_expr_depth p -> llong left -> (remaining p <= n)%nat ->
  runs (binary_loop n operator operand left) p llong.
Proof using Type.
  intros Hop Hrand. revert left p. induction n as [|n IH]; intros left p Hp Hd Hl Hn;
    cbn [binary_loop]; apply runs_get; (destruct (negb _); [by apply runs_ret|]);
    (destruct (operator (kind (ps_cur p))) as [f|] eqn:Eo; [|by apply runs_ret]);
    destruct (Hop _ _ Eo) as [Hk Hf].
  { unfold remaining in Hn. rewrite bool_decide_eq_false_2 in Hn by done. lia. }
  apply runs_advance_then; [done|done|]. intros q Hq Eq Hlt.
  eapply runs_bind; [apply Hrand; [done|lia]|]. intros r q1 Hq1 Eq1 Hr1 Hr.
  apply runs_get. destruct (negb _); [by apply runs_ret|].
  eapply runs_bind; [by apply Hf|]. intros v q2 Hq2 Eq2 Hr2 Hv.
  apply runs_get. destruct (negb _); [by apply runs_ret|].
  apply IH; [done|lia|done|lia].
Qed.

Lemma runs_level operator operand :
  operator_ok operator -> runs_from d operand -> runs_from d (parse_level operator operand).
Proof using Type.
  intros Hop Hrand p Hp Hd. eapply runs_bind; [by apply Hrand|]. intros v q Hq Eq _ Hv.
  apply runs_get. apply runs_loop; [done|done|done|lia|done|].
  unfold remaining. case_bool_decide; lia.
Qed.
End Levels.

Lemma bool_llong b : llong (bool_to_int b).
Proof using Type. unfold llong, LLONG_MAX. destruct b; simpl; lia. Qed.

Lemma truth_ok f k g :
  truth_op f = Some g -> k <> TK_EOF ->
  k <> TK_EOF /\ forall l r p, good p -> llong l -> llong r -> runs (g l r) p llong.
Proof using Type.
  intros [= <-] Hk. split; [done|]. intros. apply runs_ret; [done|]. apply bool_llong.
Qed.

Lemma mul_ok : operator_ok mul_operator.
Proof using Type.
  intros k f. destruct k; try done; intros [= <-]; (split; [done|]); intros l r p Hp Hl Hr.
  - by apply runs_signed.
  - destruct (r =? 0); [by apply runs_fail|by apply runs_signed].
  - destruct (Z.eqb_spec r 0); [by apply runs_fail|].
    eapply runs_bind; [by apply runs_signed|]. intros v q Hq _ _ _. apply runs_ret; [done|].
    pose proof (Z.rem_bound_abs l r ltac:(done)). unfold llong in *.
    destruct (Z.eq_dec (Z.abs r) (LLONG_MAX + 1)); lia.
Qed.

Lemma add_ok : operator_ok add_operator.
Proof using Type.
  intros k f. destruct k; try done; intros [= <-]; (split; [done|]); intros;
    by apply runs_signed.
Qed.

Lemma shift_ok : operator_ok shift_operator.
Proof using Type.
  intros k f. destruct k; try done; intros [= <-]; (split; [done|]); intros l r p Hp Hl Hr;
    (destruct (Z.ltb_spec r 0); [by apply runs_fail|]);
    (destruct (Z.ltb_spec 63 r); [by apply runs_fail|]).
  - unfold shift_left. destruct (l <? 0); [|by apply runs_signed].
    destruct Hp. constructor; try done. apply i64_llong.
  - apply runs_ret; [done|]. apply i64_llong.
  - apply runs_ret; [done|]. unfold llong, LLONG_MAX in *. rewrite Z.shiftr_div_pow2 by lia.
    assert (0 < 2 ^ r) by (apply Z.pow_pos_nonneg; lia).
    pose proof (Z.div_le_mono (-9223372036854775808) l (2 ^ r) ltac:(done) ltac:(lia)).
    pose proof (Z.div_le_mono l 9223372036854775807 (2 ^ r) ltac:(done) ltac:(lia)).
    assert (9223372036854775807 / 2 ^ r <= 9223372036854775807)
      by (apply Z.div_le_upper_bound; nia).
    assert (-9223372036854775808 <= -9223372036854775808 / 2 ^ r)
      by (apply Z.div_le_lower_bound; nia). lia.
Qed.

Lemma rel_ok : operator_ok rel_operator.
Proof using Type. intros k f. destruct k; try done; intros H; by eapply truth_ok. Qed.
Lemma eq_ok : operator_ok eq_operator.
Proof using Type. intros k f. destruct k; try done; intros H; by eapply truth_ok. Qed.
Lemma and_ok : operator_ok and_operator.
Proof using Type. intros k f. destruct k; try done; intros H; by eapply truth_ok. Qed.
Lemma or_ok : operator_ok or_operator.
Proof using Type. intros k f. destruct k; try done; intros H; by eapply truth_ok. Qed.

Lemma runs_logical_or d fuel expr :
  runs_from d expr -> 513 <= Z.of_nat fuel + d ->
  runs_from d (parse_logical_or resolve fuel expr).
Proof using Hresolve.
  intros He Hf. unfold parse_logical_or, parse_logical_and, parse_equality, parse_relational,
    parse_shift, parse_additive, parse_multiplicative.
  repeat (apply runs_level; [auto using or_ok, and_ok, eq_ok, rel_ok, shift_ok, add_ok, mul_ok|]).
  intros p Hp Hd. apply (runs_unary d); [done|done|done|lia].
Qed.

(** Fuel for the levels left under the depth limit is enough. *)
Lemma runs_expr fuel p :
  good p -> 513 <= Z.of_nat fuel + ps_expr_depth p -> runs (parse_expr resolve fuel) p llong.
Proof using Hresolve.
  revert p. induction fuel as [|fuel IH]; intros p Hp Hf.
  { pose proof (gd_depth _ _ Hp). lia. }
  cbn [parse_expr]. apply (runs_nested I _ _ _ _ llong); [done|done| |].
  - intros q Hq Eq _. apply (runs_logical_or (ps_expr_depth q)); [|lia|done|lia].
    intros r Hr Hd. apply IH; [done|lia].
  - intros. by apply runs_ret.
Qed.

Lemma runs_init src e : I e -> good (parser_init src e).
Proof using Type.
  intros He. unfold parser_init. pose proof (lex_one_range src).
  destruct (lex_one src) as [t lx]. constructor; try done.
  simpl in *. unfold llong, LLONG_MAX in *. lia.
Qed.

(** The whole of an entry point. *)
Lemma finish_runs src e :
  I e ->
  let r := finish (parse_expr resolve parse_fuel (parser_init src e)) in
  ps_stuck r.2 = false /\ I (ps_env r.2) /\ (ps_error r.2 = 0 -> 0 <= r.1 <= LLONG_MAX).
Proof using Hresolve.
  intros He. cbv zeta.
  destruct (runs_expr parse_fuel (parser_init src e)) as [R1 _ _ R4].
  { by apply runs_init. }
  { unfold parser_init, parse_fuel. destruct (lex_one src). simpl. lia. }
  destruct (parse_expr resolve parse_fuel (parser_init src e)) as [v p]. cbn [fst snd] in *.
  destruct R1 as [G1 G2 _ _]. unfold finish, parser_diag.
  assert (forall b : bool, ps_stuck (if b then set_error 1 p else p) = false /\
    I (ps_env (if b then set_error 1 p else p))) as Hb by (by intros []).
  destruct (Z.eqb_spec (ps_error p) 0) as [Ez|Ez]; cbn [andb];
    [destruct (negb (bool_decide (kind (ps_cur p) = TK_EOF))); cbn [fst snd ps_error set_error]|];
    cbn [Z.eqb negb]; rewrite ?Ez; cbn [Z.eqb negb]; try (split_and!; done).
  - destruct (Z.ltb_spec v 0); cbn [fst snd]; rewrite ?Ez; cbn;
      split_and!; try done. unfold llong in R4. lia.
  - destruct (Z.eqb_spec (ps_error p) 0); [done|]. cbn [negb fst snd]. by split_and!.
Qed.
End Grammar.

(** Anonymous expressions. *)
Lemma const_eval_expr_total expr :
  match jz_const_eval_expr expr with
  | Value v => 0 <= v <= LLONG_MAX
  | Failed | Undefined => True
  | Stuck => False
  end.
Proof.
  unfold jz_const_eval_expr.
  destruct (finish_runs (fun _ => True) resolve_none) with (src := expr) (e := tt) as (H1 & _ & H3);
    [done|done|].
  destruct (finish _) as [v p]. cbn [fst snd] in *. rewrite H1.
  destruct (ps_undefined p); [done|]. destruct (Z.eqb_spec (ps_error p) 0); [by apply H3|done].
Qed.

(** ** Named definitions *)

Section Definitions.
Context (defs : list JZConstDef).

Definition pending (st : EvalState) : nat :=
  match st with EVAL_NOT_VISITED => 1 | _ => 0 end.
Definition unvisited (env : EvalEnv) : nat := foldr (fun st n => (pending st + n)%nat) O (env_state env).

Lemma unvisited_aset env i st :
  0 <= i < Z.of_nat (length (env_state env)) ->
  (unvisited (set_env_state i st env) + pending (state_of env i) = unvisited env + pending st)%nat.
Proof using Type.
  unfold unvisited, set_env_state, state_of, aset, aget. cbn [env_state].
  destruct (Z.ltb_spec i 0); [lia|]. intros [_ Hi].
  assert (Z.to_nat i < length (env_state env))%nat as Hn by lia. clear H Hi.
  revert Hn. generalize (Z.to_nat i) as n. induction (env_state env) as [|x l IH]; intros n Hn;
    simpl in *; [lia|]. destruct n as [|n]; simpl; [lia|]. specialize (IH n ltac:(lia)). lia.
Qed.

(** At most [k] definitions are left to visit, and finished values are in
    range. *)
Record env_ok (k : nat) (env : EvalEnv) : Prop := {
  eo_unvisited : (unvisited env <= k)%nat;
  eo_state_length : length (env_state env) = length defs;
  eo_values_length : length (env_values env) = length defs;
  eo_done : forall i, state_of env i = EVAL_DONE -> 0 <= value_of env i <= LLONG_MAX
}.

Lemma state_of_aset env i st j :
  0 <= i < Z.of_nat (length (env_state env)) ->
  state_of (set_env_state i st env) j = if i =? j then st else state_of env j.
Proof using Type.
  intros Hi. unfold state_of, set_env_state. cbn [env_state]. rewrite aget_aset.
  destruct (Z.leb_spec 0 i), (Z.ltb_spec i (Z.of_nat (length (env_state env)))); done || lia.
Qed.

Lemma env_ok_set k k' env i st :
  env_ok k env -> 0 <= i < Z.of_nat (length defs) -> st <> EVAL_DONE ->
  (unvisited env + pending st <= k' + pending (state_of env i))%nat ->
  env_ok k' (set_env_state i st env).
Proof using Type.
  intros [H1 H2 H3 H4] Hi Hst Hk. constructor; [| |done|].
  - pose proof (unvisited_aset env i st ltac:(lia)). lia.
  - cbn [env_state set_env_state]. by rewrite length_aset.
  - intros j. rewrite state_of_aset by lia. destruct (Z.eqb_spec i j); [done|]. apply H4.
Qed.

Lemma env_ok_done k env i v :
  env_ok k env -> 0 <= i < Z.of_nat (length defs) -> 0 <= v <= LLONG_MAX ->
  env_ok k (set_env_state i EVAL_DONE (set_env_value i v env)) /\
  value_of (set_env_state i EVAL_DONE (set_env_value i v env)) i = v.
Proof using Type.
  intros [H1 H2 H3 H4] Hi Hv. set (env1 := set_env_value i v env).
  assert (forall j, value_of env1 j = if i =? j then v else value_of env j) as Hval.
  { intros j. unfold value_of, env1, set_env_value. cbn [env_values]. rewrite aget_aset.
    destruct (Z.leb_spec 0 i), (Z.ltb_spec i (Z.of_nat (length (env_values env)))); done || lia. }
  split; [constructor|].
  - pose proof (unvisited_aset env1 i EVAL_DONE ltac:(done || (cbn; lia))) as H.
    change (unvisited env1) with (unvisited env) in H. cbn [pending] in H. lia.
  - cbn [env_state set_env_state]. by rewrite length_aset.
  - cbn [env_values set_env_state set_env_value env1]. by rewrite length_aset.
  - intros j. rewrite state_of_aset by (cbn; lia). intros Hj.
    change (value_of (set_env_state i EVAL_DONE env1) j) with (value_of env1 j). rewrite Hval.
    destruct (Z.eqb_spec i j); [done|]. by apply H4.
  - change (value_of (set_env_state i EVAL_DONE env1) i) with (value_of env1 i).
    by rewrite Hval, Z.eqb_refl.
Qed.

Lemma find_def_index_bounds name : -1 <= find_def_index defs name < Z.of_nat (length defs).
Proof using Type.
  unfold find_def_index. destruct (String.eqb name ""); [lia|].
  destruct (ret_up _ _) as [i|] eqn:E; [|lia]. apply ret_up_Some in E as (j & Hj & E & _).
  destruct (aget None (map def_name defs) j); [|done]. destruct (String.eqb _ _); [|done].
  injection E as <-. lia.
Qed.

Lemma env_resolve_ok k eval :
  (forall i env, 0 <= i < Z.of_nat (length defs) -> env_ok k env ->
     eo_stuck (eval i env) = false /\ env_ok k (eo_env (eval i env)) /\
     (eo_code (eval i env) = 0 -> state_of (eo_env (eval i env)) i = EVAL_DONE)) ->
  forall name e, env_ok k e ->
  let r := env_resolve defs eval name e in
  rs_stuck r = false /\ env_ok k (rs_env r) /\ (rs_error r = 0 -> llong (rs_value r)).
Proof using Type.
  intros Hev name e He. cbv zeta. unfold env_resolve. pose proof (find_def_index_bounds name) as Hb.
  set (idx := find_def_index defs name) in *. cbv zeta. destruct (Z.ltb_spec idx 0); [done|].
  assert (forall env, env_ok k env -> state_of env idx = EVAL_DONE -> llong (value_of env idx)) as Hl.
  { intros env Henv Hd. pose proof (eo_done _ _ Henv idx Hd). unfold llong, LLONG_MAX in *. lia. }
  destruct (state_of e idx) eqn:Es; [|done|by split_and!; [| |intros _; apply Hl]].
  destruct (Hev idx e ltac:(lia) He) as (E1 & E2 & E3). cbn. split_and!; [done|done|].
  destruct (Z.eqb_spec (eo_code (eval idx e)) 0); [intros _; apply Hl; auto|].
  by destruct (eo_code (eval idx e) =? -2).
Qed.

Lemma eval_one_ok fuel k i env :
  (k < fuel)%nat -> env_ok k env -> 0 <= i < Z.of_nat (length defs) ->
  let r := eval_one defs fuel i env in
  eo_stuck r = false /\ env_ok k (eo_env r) /\
  (eo_code r = 0 -> state_of (eo_env r) i = EVAL_DONE).
Proof using Type.
  revert k i env. induction fuel as [|fuel IH]; intros k i env Hk He Hi; [lia|].
  cbv zeta. cbn [eval_one]. destruct (Z.leb_spec (Z.of_nat (length defs)) i); [lia|].
  destruct (state_of env i) eqn:Es; [|done|done]. cbv zeta.
  assert (0 < k)%nat as Hpos.
  { pose proof (unvisited_aset env i EVAL_DONE ltac:(rewrite (eo_state_length _ _ He); lia)) as Hc.
    rewrite Es in Hc. cbn [pending] in Hc. pose proof (eo_unvisited _ _ He). lia. }
  set (env1 := set_env_state i EVAL_VISITING env).
  assert (env_ok (k - 1) env1) as He1.
  { apply (env_ok_set k); [done|done|done|]. rewrite Es. cbn [pending].
    pose proof (eo_unvisited _ _ He). lia. }
  set (src := match aget None (map def_expr defs) i with Some e => e | None => "0" end).
  destruct (finish_runs (env_ok (k - 1)) (env_resolve defs (eval_one defs fuel)))
    with (src := src) (e := env1) as (F1 & F2 & F3); [|done|].
  { apply env_resolve_ok. intros j e Hj Hej. apply IH; [lia|done|done]. }
  destruct (finish _) as [v p]. cbn [fst snd] in *.
  destruct (Z.eqb_spec (ps_error p) 0) as [Ez|Ez]; cbn [negb].
  - cbn [eo_stuck eo_env eo_code]. destruct (env_ok_done (k - 1) (ps_env p) i v F2 Hi (F3 Ez)) as [D1 _].
    split_and!; [done| |].
    + destruct D1. constructor; try done. lia.
    + intros _. rewrite state_of_aset by (cbn; rewrite (eo_state_length _ _ F2); lia).
      by rewrite Z.eqb_refl.
  - cbn [eo_stuck eo_env eo_code]. split_and!; [done| |].
    + apply (env_ok_set (k - 1)); [done|done|done|]. cbn [pending].
      pose proof (eo_unvisited _ _ F2). lia.
    + by destruct (ps_error p =? 2).
Qed.

Lemma eval_from_ok n i env u :
  env_ok (length defs) env -> 0 <= i -> i + Z.of_nat n = Z.of_nat (length defs) ->
  let r := eval_from defs n i env u false in
  eo_stuck r = false /\ env_ok (length defs) (eo_env r).
Proof using Type.
  revert i env u. induction n as [|n IH]; intros i env u He Hi Hn; cbv zeta; cbn [eval_from]; [done|].
  assert (forall env u, env_ok (length defs) env ->
    eo_stuck (eval_from defs n (i + 1) env u false) = false /\
    env_ok (length defs) (eo_env (eval_from defs n (i + 1) env u false))) as Hrec
    by (intros; apply IH; [done|lia|lia]).
  destruct (state_of env i); [|by apply Hrec|by apply Hrec].
  destruct (eval_one_ok (S (length defs)) (length defs) i env) as (E1 & E2 & _); [lia|done|lia|].
  cbv zeta. rewrite E1. cbn [orb]. destruct (eo_code _ =? 0); [by apply Hrec|done].
Qed.

Lemma initial_env_ok vals :
  length vals = length defs -> env_ok (length defs) (mkEnv vals (replicate (length defs) EVAL_NOT_VISITED)).
Proof using Type.
  intros Hv. constructor; [|apply length_replicate|done|].
  - unfold unvisited. cbn [env_state]. generalize (length defs). intros n.
    induction n as [|n IH]; simpl; lia.
  - intros i. unfold state_of. cbn [env_state]. by rewrite aget_replicate.
Qed.

Lemma const_eval_all_total vals :
  length vals = length defs ->
  let r := jz_const_eval_all defs vals in
  eo_stuck r = false /\ length (env_values (eo_env r)) = length defs /\
  (forall i, state_of (eo_env r) i = EVAL_DONE -> 0 <= value_of (eo_env r) i <= LLONG_MAX).
Proof using Type.
  intros Hv. destruct (eval_from_ok (length defs) 0
    (mkEnv vals (replicate (length defs) EVAL_NOT_VISITED)) false) as [H1 H2];
    [by apply initial_env_ok|lia|lia|].
  split_and!; [done|apply H2|apply H2].
Qed.
End Definitions.
