(* ===== verification/ConstEvalGrammar.v ===== *)
(** * The constant evaluator computes the value of the expression

    Expressions are trees; [exp_value] is their mathematical value, undefined
    where C is undefined or the evaluator reports an error.  [tokens] prints a
    tree with the parentheses the grammar in the source's comment requires, in
    which shifts bind less tightly than + and -: section 3.3 of the specification
    says the opposite.  The parser
    run on the printed text returns the value of the tree. *)

From S2P Require Import Prelude Util CString ConstEval ConstEvalTotal.

Local Open Scope Z_scope.

(** ** Expressions *)

Inductive BinOp :=
  | OMul | ODiv | OMod | OAdd | OSub | OShl | OShr | OAshr
  | OLt | OLe | OGt | OGe | OEq | ONe | OAnd | OOr.

(** Integers are kept as written, digits and underscores. *)
Inductive Exp :=
  | Num (digits : string)
  | Name (name : string)
  | Neg (e : Exp)
  | Plus (e : Exp)
  | Clog2 (e : Exp)
  | Bin (op : BinOp) (l r : Exp).

Definition guard_llong (x : Z) : option Z := if in_llong x then Some x else None.
Definition truth_of (b : bool) : option Z := Some (bool_to_int b).

Definition op_value (op : BinOp) (l r : Z) : option Z :=
  let shift (v : option Z) := if (0 <=? r) && (r <=? 63) then v else None in
  match op with
  | OMul => guard_llong (l * r)
  | ODiv => if r =? 0 then None else guard_llong (Z.quot l r)
  | OMod => if r =? 0 then None else _ ← guard_llong (Z.quot l r); Some (Z.rem l r)
  | OAdd => guard_llong (l + r)
  | OSub => guard_llong (l - r)
  | OShl => shift (if l <? 0 then None else guard_llong (l * 2 ^ r))
  | OShr => shift (Some (i64 (u64 l / 2 ^ r)))
  | OAshr => shift (Some (l / 2 ^ r))
  | OLt => truth_of (l <? r)
  | OLe => truth_of (l <=? r)
  | OGt => truth_of (r <? l)
  | OGe => truth_of (r <=? l)
  | OEq => truth_of (l =? r)
  | ONe => truth_of (negb (l =? r))
  | OAnd => truth_of (negb (l =? 0) && negb (r =? 0))
  | OOr => truth_of (negb (l =? 0) || negb (r =? 0))
  end.

(** The number the digits denote; underscores do not count. *)
Fixpoint digits_value (s : string) (acc : Z) : Z :=
  match s with
  | String c s' =>
      if Ascii.eqb c "_" then digits_value s' acc else digits_value s' (acc * 10 + (code c - 48))
  | EmptyString => acc
  end.


Definition first_is (f : ascii -> bool) (s : string) : bool :=
  match s with String c _ => f c | EmptyString => false end.

Definition is_numeral (s : string) : bool :=
  first_is isdigit s && string_forall (fun c => isdigit c || Ascii.eqb c "_") s.

Definition is_name (s : string) : bool :=
  first_is is_ident_start s && string_forall is_ident_char s
  && (String.length s <=? 63)%nat && negb (String.eqb s "clog2").

Section Value.
Context (names : string -> option Z).

Fixpoint exp_value (e : Exp) : option Z :=
  match e with
  | Num s => guard_llong (digits_value s 0)
  | Name s => names s
  | Neg e => v ← exp_value e; guard_llong (- v)
  | Plus e => exp_value e
  | Clog2 e => v ← exp_value e; if v <=? 0 then None else Some (Z.max 1 (Z.log2_up v))
  | Bin op l r => vl ← exp_value l; vr ← exp_value r; op_value op vl vr
  end.
End Value.

(** ** Printing *)

Inductive Lexeme :=
  | LNum (s : string)
  | LName (s : string)
  | LOp (k : TokenKind).

Definition op_kind (op : BinOp) : TokenKind :=
  match op with
  | OMul => TK_STAR | ODiv => TK_SLASH | OMod => TK_PERCENT
  | OAdd => TK_PLUS | OSub => TK_MINUS
  | OShl => TK_SHL | OShr => TK_SHR | OAshr => TK_ASHR
  | OLt => TK_LT | OLe => TK_LE | OGt => TK_GT | OGe => TK_GE
  | OEq => TK_EQEQ | ONe => TK_NEQ | OAnd => TK_AND_AND | OOr => TK_OR_OR
  end.

(** Binding strength: 0 for [||] up to 6 for the multiplicative operators;
    signs bind at 7, primary expressions at 8. *)
Definition op_level (op : BinOp) : nat :=
  match op with
  | OOr => 0 | OAnd => 1 | OEq | ONe => 2 | OLt | OLe | OGt | OGe => 3
  | OShl | OShr | OAshr => 4 | OAdd | OSub => 5 | OMul | ODiv | OMod => 6
  end.

Definition exp_level (e : Exp) : nat :=
  match e with
  | Num _ | Name _ | Clog2 _ => 8
  | Neg _ | Plus _ => 7
  | Bin op _ _ => op_level op
  end.

Definition parens (ts : list Lexeme) : list Lexeme := LOp TK_LPAREN :: ts ++ [LOp TK_RPAREN].

(** The text of [e] where an expression of level at least [l] is expected. *)
Fixpoint tokens (l : nat) (e : Exp) : list Lexeme :=
  let body :=
    match e with
    | Num s => [LNum s]
    | Name s => [LName s]
    | Neg e => LOp TK_MINUS :: tokens 7 e
    | Plus e => LOp TK_PLUS :: tokens 7 e
    | Clog2 e => LName "clog2" :: parens (tokens 0 e)
    | Bin op a b => tokens (op_level op) a ++ LOp (op_kind op) :: tokens (S (op_level op)) b
    end in
  if (l <=? exp_level e)%nat then body else parens body.

Definition op_text (k : TokenKind) : string :=
  match k with
  | TK_PLUS => "+" | TK_MINUS => "-" | TK_STAR => "*" | TK_SLASH => "/" | TK_PERCENT => "%"
  | TK_LPAREN => "(" | TK_RPAREN => ")" | TK_EQEQ => "==" | TK_NEQ => "!="
  | TK_LT => "<" | TK_LE => "<=" | TK_GT => ">" | TK_GE => ">="
  | TK_SHL => "<<" | TK_SHR => ">>" | TK_ASHR => ">>>"
  | TK_AND_AND => "&&" | TK_OR_OR => "||" | _ => ""
  end.

Definition lexeme_text (t : Lexeme) : string :=
  match t with LNum s | LName s => s | LOp k => op_text k end.

(** Every token is followed by a blank. *)
Fixpoint render (ts : list Lexeme) : string :=
  match ts with
  | [] => ""
  | t :: ts' => (lexeme_text t ++ " " ++ render ts')%string
  end.

Definition print (e : Exp) : string := render (tokens 0 e).

(** Levels of nesting the parser enters for [e] printed at [l]. *)
Fixpoint nesting (l : nat) (e : Exp) : Z :=
  let body :=
    match e with
    | Num _ | Name _ => 0
    | Neg e | Plus e => 1 + nesting 7 e
    | Clog2 e => 1 + nesting 0 e
    | Bin op a b => Z.max (nesting (op_level op) a) (nesting (S (op_level op)) b)
    end in
  if (l <=? exp_level e)%nat then body else 1 + body.

(** Literals and names are lexically valid. *)
Fixpoint exp_ok (e : Exp) : bool :=
  match e with
  | Num s => is_numeral s
  | Name s => is_name s
  | Neg e | Plus e | Clog2 e => exp_ok e
  | Bin _ a b => exp_ok a && exp_ok b
  end.

(** ** The lexer on printed text *)

Definition lexeme_token (t : Lexeme) : Token :=
  match t with
  | LNum s => mkToken TK_INT (digits_value s 0) ""
  | LName s => mkToken TK_IDENT 0 s
  | LOp k => simple k
  end.

Definition lexeme_ok (t : Lexeme) : bool :=
  match t with
  | LNum s => is_numeral s && in_llong (digits_value s 0)
  | LName s => is_name s || String.eqb s "clog2"
  | LOp k => negb (String.eqb (op_text k) "")
  end.

Lemma digits_value_mono s a : 0 <= a -> string_forall (fun c => isdigit c || Ascii.eqb c "_") s = true ->
  a <= digits_value s a.
Proof.
  revert a. induction s as [|c s IH]; intros a Ha H; simpl in *; [lia|].
  apply andb_true_iff in H as [Hc Hs]. destruct (Ascii.eqb c "_"); [by apply IH|].
  rewrite orb_false_r in Hc. unfold isdigit, in_codes in Hc.
  specialize (IH (a * 10 + (code c - 48)) ltac:(lia) Hs). lia.
Qed.

Lemma lex_int_render s a rest :
  0 <= a -> string_forall (fun c => isdigit c || Ascii.eqb c "_") s = true ->
  digits_value s a <= LLONG_MAX ->
  lex_int (s ++ String " " rest) a = (digits_value s a, String " " rest).
Proof.
  revert a. induction s as [|c s IH]; intros a Ha H Hv; simpl in *; [done|].
  apply andb_true_iff in H as [Hc Hs]. destruct (Ascii.eqb c "_"); [by apply IH|].
  rewrite orb_false_r in Hc. rewrite Hc. unfold isdigit, in_codes in Hc.
  pose proof (digits_value_mono s (a * 10 + (code c - 48)) ltac:(lia) Hs) as Hm.
  unfold LLONG_MAX in *. rewrite Z.quot_div_nonneg by lia.
  destruct (Z.ltb_spec ((9223372036854775807 - (code c - 48)) / 10) a) as [Hlt|Hle].
  - exfalso. pose proof (Z.mul_succ_div_gt (9223372036854775807 - (code c - 48)) 10 ltac:(lia)). lia.
  - apply IH; [lia|done|done].
Qed.

(** Beyond [LLONG_MAX] the literal sticks there. *)
Lemma lex_int_clamp s a :
  0 <= a <= LLONG_MAX -> string_forall (fun c => isdigit c || Ascii.eqb c "_") s = true ->
  (LLONG_MAX < digits_value s a \/ a = LLONG_MAX) -> lex_int s a = (LLONG_MAX, EmptyString).
Proof.
  revert a. induction s as [|c s IH]; intros a Ha H Hv; simpl in *; [f_equal; lia|].
  apply andb_true_iff in H as [Hc Hs]. destruct (Ascii.eqb c "_"); [by apply IH|].
  rewrite orb_false_r in Hc. rewrite Hc. unfold isdigit, in_codes in Hc.
  unfold LLONG_MAX in *. rewrite Z.quot_div_nonneg by lia.
  destruct (Z.ltb_spec ((9223372036854775807 - (code c - 48)) / 10) a) as [Hlt|Hle].
  - apply IH; [lia|done|by right].
  - pose proof (Z.mul_div_le (9223372036854775807 - (code c - 48)) 10 ltac:(lia)).
    apply IH; [lia|done|]. destruct Hv as [Hv| ->]; [by left|lia].
Qed.

Lemma lex_ident_render s rest :
  string_forall is_ident_char s = true -> lex_ident (s ++ String " " rest) = (s, String " " rest).
Proof.
  induction s as [|c s IH]; intros H; simpl in *; [done|].
  apply andb_true_iff in H as [-> Hs]. by rewrite IH.
Qed.

Lemma not_space_first f s rest :
  (forall c, f c = true -> isspace c = false) -> first_is f s = true ->
  skip_ws (s ++ rest) = (s ++ rest)%string.
Proof. intros Hf. destruct s as [|c s]; [done|]. simpl. intros H. by rewrite (Hf c H). Qed.

Lemma ident_start_not_digit c : is_ident_start c = true -> isdigit c = false /\ isspace c = false.
Proof.
  unfold is_ident_start. destruct (Ascii.eqb c "_") eqn:Ec.
  { apply Ascii.eqb_eq in Ec as ->. done. }
  rewrite orb_false_r. unfold isalpha, isdigit, isspace, in_codes. lia.
Qed.

Lemma lex_one_blank rest : lex_one (String " " rest) = lex_one rest.
Proof. done. Qed.

Lemma lex_one_lexeme t rest :
  lexeme_ok t = true ->
  lex_one (lexeme_text t ++ String " " rest) = (lexeme_token t, String " " rest).
Proof.
  destruct t as [s|s|k]; intros H.
  - apply andb_true_iff in H as [[Hf Hs]%andb_true_iff Hr]. unfold lex_one. cbn [lexeme_text].
    rewrite (not_space_first isdigit) by (unfold isdigit, isspace, in_codes; intros; lia || done).
    destruct s as [|c s]; [done|]. cbn [first_is] in Hf.
    assert (String c s ++ String " " rest = String c (s ++ String " " rest))%string as E by done.
    rewrite E. cbv iota beta. rewrite Hf, <- E.
    rewrite lex_int_render; [done|done|done|]. unfold in_llong in Hr. lia.
  - assert (first_is is_ident_start s = true /\ string_forall is_ident_char s = true /\
      (String.length s <= 63)%nat) as (Hf & Hs & Hl).
    { cbn [lexeme_ok] in H. apply orb_true_iff in H as [H|H].
      - apply andb_true_iff in H as [[[N1 N2]%andb_true_iff N3]%andb_true_iff _].
        apply Nat.leb_le in N3. done.
      - apply String.eqb_eq in H as ->. vm_compute. split_and!; [done|done|lia]. }
    unfold lex_one. cbn [lexeme_text].
    rewrite (not_space_first is_ident_start)
      by (intros; by apply ident_start_not_digit || done).
    destruct s as [|c s]; [done|]. cbn [first_is] in Hf.
    assert (String c s ++ String " " rest = String c (s ++ String " " rest))%string as E by done.
    rewrite E. cbv iota beta. destruct (ident_start_not_digit c Hf) as [-> _]. rewrite Hf, <- E.
    rewrite lex_ident_render by done. by rewrite truncate_short.
  - destruct k; done.
Qed.

Lemma lex_one_clamp s :
  is_numeral s = true -> LLONG_MAX < digits_value s 0 ->
  lex_one s = (mkToken TK_INT LLONG_MAX "", EmptyString).
Proof.
  intros [Hf Hs]%andb_true_iff Hv. unfold lex_one. destruct s as [|c s]; [done|].
  cbn [first_is] in Hf. cbn [skip_ws].
  assert (isspace c = false) as -> by (unfold isdigit, isspace, in_codes in *; lia).
  rewrite Hf. rewrite lex_int_clamp; [done|done|done|by left].
Qed.

(** ** Positions in printed text *)

Definition pos (ts : list Lexeme) : string * Token :=
  match ts with
  | [] => (""%string, simple TK_EOF)
  | t :: ts' => (String " " (render ts'), lexeme_token t)
  end.

(** The parser at the start of [ts], at depth [d], with nothing wrong so far. *)
Definition at_pos {E} (ts : list Lexeme) (d : Z) (e : E) : PState E :=
  mkPState (pos ts).1 (pos ts).2 0 d false false e.

Definition all_ok (ts : list Lexeme) : Prop := Forall (fun t => lexeme_ok t = true) ts.

Lemma lex_one_render ts : all_ok ts -> lex_one (render ts) = ((pos ts).2, (pos ts).1).
Proof.
  intros [|t ts' Ht _]; [done|]. cbn [render pos fst snd].
  change (" " ++ render ts')%string with (String " " (render ts')). by apply lex_one_lexeme.
Qed.

Lemma lexeme_not_eof t : lexeme_ok t = true -> kind (lexeme_token t) <> TK_EOF.
Proof. destruct t as [s|s|k]; [done|done|]. by destruct k. Qed.

Lemma string_length_app s t : String.length (s ++ t) = (String.length s + String.length t)%nat.
Proof. induction s as [|c s IH]; simpl; [done|]. by rewrite IH. Qed.

Lemma render_length_app ts us :
  String.length (render (ts ++ us)) = (String.length (render ts) + String.length (render us))%nat.
Proof.
  induction ts as [|t ts IH]; [done|]. cbn [render app]. rewrite !string_length_app.
  cbn [String.length]. rewrite IH. lia.
Qed.

Lemma lexeme_text_length t : lexeme_ok t = true -> (1 <= String.length (lexeme_text t))%nat.
Proof.
  intros H. destruct t as [[|c s]|[|c s]|k]; try discriminate H; cbn [lexeme_text String.length].
  1, 2: apply le_n_S, Nat.le_0_l.
  destruct k; try discriminate H; cbn; lia.
Qed.

Lemma advance_at {E} t ts d (e : E) :
  all_ok (t :: ts) -> advance (at_pos (t :: ts) d e) = (tt, at_pos ts d e).
Proof.
  intros H. apply Forall_cons in H as [Ht Hts]. rewrite advance_next by (by apply lexeme_not_eof).
  unfold at_pos. cbn [ps_lx set_lx pos fst snd]. by rewrite lex_one_blank, lex_one_render.
Qed.

Lemma remaining_at {E} t ts d (e : E) :
  lexeme_ok t = true -> remaining (at_pos (t :: ts) d e) = S (S (String.length (render ts))).
Proof.
  intros Ht. unfold remaining. by rewrite bool_decide_eq_false_2 by (by apply lexeme_not_eof).
Qed.

Lemma remaining_text {E} ts d (e : E) :
  all_ok ts -> (remaining (at_pos ts d e) <= S (String.length (render ts)))%nat.
Proof.
  intros [|t ts' Ht Hts]; [apply Nat.le_0_l|]. rewrite remaining_at by done.
  pose proof (lexeme_text_length t Ht). cbn [render]. rewrite string_length_app.
  change (" " ++ render ts')%string with (String " " (render ts')). cbn [String.length]. lia.
Qed.

(** ** Shape of the printed text *)

Lemma tokens_low l e : (l <= exp_level e)%nat -> tokens l e = tokens 0 e.
Proof. intros H. destruct e; cbn [tokens]; by rewrite (proj2 (Nat.leb_le _ _) H). Qed.

Lemma tokens_high l e : (exp_level e < l)%nat -> tokens l e = parens (tokens 0 e).
Proof.
  intros H. assert ((l <=? exp_level e)%nat = false) as E by (by apply Nat.leb_gt).
  destruct e; cbn [tokens]; by rewrite E.
Qed.

Lemma nesting_low l e : (l <= exp_level e)%nat -> nesting l e = nesting 0 e.
Proof. intros H. destruct e; cbn [nesting]; by rewrite (proj2 (Nat.leb_le _ _) H). Qed.

Lemma nesting_high l e : (exp_level e < l)%nat -> nesting l e = 1 + nesting 0 e.
Proof.
  intros H. assert ((l <=? exp_level e)%nat = false) as E by (by apply Nat.leb_gt).
  destruct e; cbn [nesting]; by rewrite E.
Qed.

Lemma nesting_nonneg l e : 0 <= nesting l e.
Proof.
  assert (0 <= nesting 0 e) as H.
  { induction e as [| |e IH|e IH|e IH|op a IHa b IHb]; cbn [nesting Nat.leb]; try lia.
    - destruct (Nat.le_gt_cases 7 (exp_level e));
        [rewrite nesting_low by done|rewrite nesting_high by done]; lia.
    - destruct (Nat.le_gt_cases 7 (exp_level e));
        [rewrite nesting_low by done|rewrite nesting_high by done]; lia.
    - destruct (Nat.le_gt_cases (op_level op) (exp_level a));
        [rewrite (nesting_low _ a) by done|rewrite (nesting_high _ a) by done]; lia. }
  destruct (Nat.le_gt_cases l (exp_level e));
    [rewrite nesting_low by done|rewrite nesting_high by done]; lia.
Qed.

Lemma parens_ok ts : all_ok ts -> all_ok (parens ts).
Proof. intros H. constructor; [done|]. apply Forall_app. split; [done|]. by constructor. Qed.

Section Names.
Context (names : string -> option Z).

(** A tree with a value prints to valid lexemes. *)
Lemma tokens_ok l e v : exp_ok e = true -> exp_value names e = Some v -> all_ok (tokens l e).
Proof using Type.
  intros He Hv. enough (all_ok (tokens 0 e)) as H.
  { destruct (Nat.le_gt_cases l (exp_level e));
      [by rewrite tokens_low|rewrite tokens_high by done; by apply parens_ok]. }
  revert v He Hv. induction e as [s|s|e IH|e IH|e IH|op a IHa b IHb]; intros v He Hv;
    cbn [tokens Nat.leb exp_ok exp_value] in *.
  - constructor; [|constructor]. cbn [lexeme_ok]. rewrite He.
    unfold guard_llong in Hv. by destruct (in_llong _).
  - constructor; [|constructor]. cbn [lexeme_ok]. by rewrite He.
  - destruct (exp_value names e) as [u|] eqn:Eu; [|done]. specialize (IH u He eq_refl).
    constructor; [done|]. destruct (Nat.le_gt_cases 7 (exp_level e));
      [by rewrite tokens_low|rewrite tokens_high by done; by apply parens_ok].
  - specialize (IH v He Hv).
    constructor; [done|]. destruct (Nat.le_gt_cases 7 (exp_level e));
      [by rewrite tokens_low|rewrite tokens_high by done; by apply parens_ok].
  - destruct (exp_value names e) as [u|] eqn:Eu; [|done]. specialize (IH u He eq_refl).
    constructor; [done|]. by apply parens_ok.
  - destruct (exp_value names a) as [va|] eqn:Ea; [|done]. cbn in Hv.
    destruct (exp_value names b) as [vb|] eqn:Eb; [|done].
    apply andb_true_iff in He as [Oa Ob].
    specialize (IHa va Oa eq_refl). specialize (IHb vb Ob eq_refl).
    assert (forall k x, all_ok (tokens 0 x) -> all_ok (tokens k x)) as Hk.
    { intros k x Hx. destruct (Nat.le_gt_cases k (exp_level x));
        [by rewrite tokens_low|rewrite tokens_high by done; by apply parens_ok]. }
    apply Forall_app. split; [by apply Hk|]. constructor; [by destruct op|by apply Hk].
Qed.
End Names.

(** ** Values *)

Lemma in_llong_iff x : in_llong x = true <-> llong x.
Proof. unfold in_llong, llong. lia. Qed.

Lemma guard_llong_Some x v : guard_llong x = Some v <-> v = x /\ llong x.
Proof.
  unfold guard_llong. rewrite <- in_llong_iff. destruct (in_llong x); naive_solver.
Qed.

Lemma truth_of_Some b v : truth_of b = Some v -> v = bool_to_int b /\ llong v.
Proof. intros [= <-]. split; [done|]. by destruct b. Qed.

Lemma clog2_loop_log2 n v r :
  0 < v < 2 ^ Z.of_nat n -> clog2_loop n v r = r + Z.log2 v.
Proof.
  revert v r. induction n as [|n IH]; intros v r Hv; [simpl in Hv; lia|]. cbn [clog2_loop].
  rewrite Nat2Z.inj_succ, Z.pow_succ_r in Hv by lia.
  destruct (Z.ltb_spec 1 v) as [H|H].
  - rewrite Z.shiftr_div_pow2 by done. change (2 ^ 1) with 2.
    rewrite IH by (split; [apply Z.div_str_pos|apply Z.div_lt_upper_bound]; lia).
    pose proof (Z.log2_shiftr v 1 ltac:(lia)) as E. rewrite Z.shiftr_div_pow2 in E by done.
    change (2 ^ 1) with 2 in E. pose proof (Z.log2_pos v H). lia.
  - assert (v = 1) as -> by lia. change (Z.log2 1) with 0. lia.
Qed.

Lemma eval_clog2_log2 v : 0 < v -> llong v -> eval_clog2_positive v = Z.max 1 (Z.log2_up v).
Proof.
  intros H [_ Hv]. unfold eval_clog2_positive, LLONG_MAX in *.
  destruct (Z.eq_dec v 1) as [->|Hne]; [done|].
  rewrite clog2_loop_log2 by (change (2 ^ Z.of_nat 64) with 18446744073709551616; lia).
  rewrite Z.log2_up_eqn by lia. replace (Z.pred v) with (v - 1) by lia.
  pose proof (Z.log2_nonneg (v - 1)). lia.
Qed.

Lemma shift_some r (x : option Z) v :
  (if (0 <=? r) && (r <=? 63) then x else None) = Some v -> 0 <= r <= 63 /\ x = Some v.
Proof.
  destruct (Z.leb_spec 0 r), (Z.leb_spec r 63); simpl; try discriminate. done.
Qed.

Lemma div_llong l r : llong l -> 0 <= r -> llong (l / 2 ^ r).
Proof.
  unfold llong, LLONG_MAX. intros Hl Hr. assert (0 < 2 ^ r) by (apply Z.pow_pos_nonneg; lia).
  split; [apply Z.div_le_lower_bound|apply Z.div_le_upper_bound]; nia.
Qed.

Lemma rem_llong l r : r <> 0 -> llong r -> llong (Z.rem l r).
Proof.
  intros Hr [H1 H2]. pose proof (Z.rem_bound_abs l r Hr). unfold llong, LLONG_MAX in *. lia.
Qed.

Lemma op_value_llong op l r v : llong l -> llong r -> op_value op l r = Some v -> llong v.
Proof.
  intros Hl Hr. destruct op; cbn [op_value]; intros H;
    try (apply truth_of_Some in H; by apply H);
    try (apply guard_llong_Some in H as [-> H]; done).
  - destruct (r =? 0); [done|]. by apply guard_llong_Some in H as [-> H].
  - destruct (Z.eqb_spec r 0); [done|]. destruct (guard_llong _); [|done]. injection H as <-.
    by apply rem_llong.
  - apply shift_some in H as [_ H]. destruct (l <? 0); [done|].
    by apply guard_llong_Some in H as [-> H].
  - apply shift_some in H as [_ [= <-]]. apply i64_llong.
  - apply shift_some in H as [Hr' [= <-]]. apply div_llong; [done|lia].
Qed.

Lemma exp_value_llong names e v :
  (forall s x, names s = Some x -> llong x) -> exp_value names e = Some v -> llong v.
Proof.
  intros Hn. revert v. induction e as [s|s|e IH|e IH|e IH|op a IHa b IHb]; cbn [exp_value]; intros v Hv.
  - by apply guard_llong_Some in Hv as [-> ?].
  - eauto.
  - destruct (exp_value names e); [|done]. by apply guard_llong_Some in Hv as [-> ?].
  - auto.
  - destruct (exp_value names e) as [u|]; [|done]. specialize (IH u eq_refl). cbn in Hv.
    destruct (Z.leb_spec u 0); [done|]. injection Hv as <-. unfold llong, LLONG_MAX in *.
    pose proof (Z.log2_up_le_mono u (2 ^ 63) ltac:(lia)) as Hm.
    rewrite Z.log2_up_pow2 in Hm by lia. lia.
  - destruct (exp_value names a) as [x|]; [|done]. cbn in Hv.
    destruct (exp_value names b) as [y|]; [|done].
    eapply op_value_llong; [| |exact Hv]; auto.
Qed.

(** ** Operators *)

Definition level_operator {E} (l : nat) : TokenKind -> option (Z -> Z -> PM E Z) :=
  match l with
  | 0 => or_operator | 1 => and_operator | 2 => eq_operator | 3 => rel_operator
  | 4 => shift_operator | 5 => add_operator | _ => mul_operator
  end%nat.

Lemma signed_in {E} x (p : PState E) : llong x -> signed x p = (x, p).
Proof. intros H. unfold signed. by rewrite (proj2 (in_llong_iff x) H). Qed.

(** The operator of its level computes [op_value]. *)
Lemma op_run {E} op va vb v (p : PState E) :
  op_value op va vb = Some v ->
  exists f, level_operator (op_level op) (op_kind op) = Some f /\ f va vb p = (v, p).
Proof.
  intros H. destruct op; cbn [op_value op_level level_operator op_kind] in *;
    (eexists; split; [reflexivity|]); cbv beta;
    try (apply guard_llong_Some in H as [-> H]; by apply signed_in);
    try (injection H as <-; rewrite ?Z.gtb_ltb, ?Z.geb_leb; reflexivity).
  - destruct (vb =? 0); [done|]. apply guard_llong_Some in H as [-> H]. by apply signed_in.
  - destruct (vb =? 0); [done|]. destruct (guard_llong (Z.quot va vb)) eqn:Eq; [|done].
    injection H as <-. apply guard_llong_Some in Eq as [-> Eq].
    unfold mbind, PM_bind. by rewrite signed_in.
  - apply shift_some in H as [Hr H]. destruct (Z.ltb_spec vb 0); [lia|].
    destruct (Z.ltb_spec 63 vb); [lia|]. unfold shift_left. destruct (va <? 0); [done|].
    apply guard_llong_Some in H as [-> H]. rewrite Z.shiftl_mul_pow2 by lia. by apply signed_in.
  - apply shift_some in H as [Hr [= <-]]. destruct (Z.ltb_spec vb 0); [lia|].
    destruct (Z.ltb_spec 63 vb); [lia|]. by rewrite Z.shiftr_div_pow2 by lia.
  - apply shift_some in H as [Hr [= <-]]. destruct (Z.ltb_spec vb 0); [lia|].
    destruct (Z.ltb_spec 63 vb); [lia|]. by rewrite Z.shiftr_div_pow2 by lia.
Qed.

(** No operator of level [l] or above comes next. *)
Definition closed (l : nat) (ts : list Lexeme) : Prop :=
  match ts with
  | [] => True
  | t :: _ => forall op, kind (lexeme_token t) = op_kind op -> (op_level op < l)%nat
  end.

Lemma closed_le l l' ts : (l <= l')%nat -> closed l ts -> closed l' ts.
Proof. destruct ts; [done|]. intros Hl H op Ho. specialize (H op Ho). lia. Qed.

Lemma closed_op op ts : closed (S (op_level op)) (LOp (op_kind op) :: ts).
Proof. intros op' H. destruct op, op'; try discriminate H; cbn; lia. Qed.

Lemma closed_paren l ts : closed l (LOp TK_RPAREN :: ts).
Proof. intros op H. by destruct op. Qed.

Lemma operator_kind {E} l k (f : Z -> Z -> PM E Z) :
  (l <= 6)%nat -> level_operator l k = Some f -> exists op, k = op_kind op /\ op_level op = l.
Proof.
  intros Hl H.
  do 7 (destruct l as [|l]; [destruct k; try discriminate H;
    first [by exists OOr|by exists OAnd|by exists OEq|by exists ONe|by exists OLt|by exists OLe
      |by exists OGt|by exists OGe|by exists OShl|by exists OShr|by exists OAshr|by exists OAdd
      |by exists OSub|by exists OMul|by exists ODiv|by exists OMod]|]). lia.
Qed.

Lemma closed_none {E} l ts d (e : E) :
  (l <= 6)%nat -> closed l ts ->
  level_operator (E := E) l (kind (ps_cur (at_pos ts d e))) = None.
Proof.
  intros Hl Hc. destruct (level_operator l _) as [f|] eqn:Ef; [|done].
  apply operator_kind in Ef as (op & Hk & Ho); [|done].
  destruct ts as [|t ts]; [by destruct op|]. specialize (Hc op Hk). lia.
Qed.

(** ** The parser *)

Section Parser.
Context {E : Type} (I : E -> Prop) (resolve : string -> E -> Resolved E).
Context (names : string -> option Z).
Context (Hrange : forall s x, names s = Some x -> llong x).
Context (Hresolve : forall s x e, I e -> names s = Some x ->
  exists e', resolve s e = mkResolved x 0 e' false false /\ I e').

(** Level [l] of the parser, with fuel [n] for signs and [k] for nesting. *)
Definition parse_at (n k l : nat) : PM E Z :=
  let expr := parse_expr resolve k in
  match l with
  | 0 => parse_logical_or resolve n expr
  | 1 => parse_logical_and resolve n expr
  | 2 => parse_equality resolve n expr
  | 3 => parse_relational resolve n expr
  | 4 => parse_shift resolve n expr
  | 5 => parse_additive resolve n expr
  | 6 => parse_multiplicative resolve n expr
  | 7 => parse_unary resolve expr n
  | _ => parse_primary resolve expr
  end%nat.

Lemma parse_at_level n k l :
  (l <= 6)%nat -> parse_at n k l = parse_level (level_operator l) (parse_at n k (S l)).
Proof using Type. intros Hl. do 7 (destruct l as [|l]; [done|]). lia. Qed.

(** [m] reads [ts], leaving any [rest] that does not go on at level [l],
    and returns [v], with [w] levels of nesting to spare. *)
Definition reads (w : Z) (l : nat) (m : PM E Z) (ts : list Lexeme) (v : Z) : Prop :=
  forall rest d e, I e -> 0 <= d -> d + w <= 512 -> closed l rest -> all_ok rest ->
  exists e', I e' /\ m (at_pos (ts ++ rest) d e) = (v, at_pos rest d e').

(** The whole claim for one expression. *)
Definition parsed (x : Exp) (v : Z) : Prop :=
  forall n k l, nesting l x <= Z.of_nat n -> nesting l x <= Z.of_nat k -> (l <= 8)%nat ->
  reads (nesting l x) l (parse_at n k l) (tokens l x) v.

Lemma leave_depth ts d e :
  0 <= d -> parser_leave_expr_depth (at_pos ts (d + 1) e) = (tt, at_pos (E := E) ts d e).
Proof using Type.
  intros Hd. unfold parser_leave_expr_depth, jz_depth_leave. cbn [at_pos ps_expr_depth].
  destruct (Z.ltb_spec 0 (d + 1)); [|lia]. unfold at_pos, set_depth. cbn. do 2 f_equal. lia.
Qed.

Lemma reads_expr w k ts v :
  0 <= w -> reads w 0 (parse_at (S k) k 0) ts v -> reads (1 + w) 0 (parse_expr resolve (S k)) ts v.
Proof using Type.
  intros Hw H rest d e He Hd Hwd Hc Hr. destruct (H rest (d + 1) e) as (e' & He' & Hrun);
    [done|lia|lia|done|done|].
  exists e'. split; [done|]. cbn [parse_expr]. unfold mbind, PM_bind. rewrite enter_depth.
  cbn [at_pos ps_expr_depth]. destruct (Z.leb_spec 512 d); [lia|].
  change (set_depth (d + 1) (at_pos (ts ++ rest) d e)) with (at_pos (ts ++ rest) (d + 1) e).
  cbn [parse_at] in Hrun. rewrite Hrun. by rewrite leave_depth.
Qed.
(** A token that a function consumes first. *)
Lemma advance_then {A} (m : PM E A) t ts d e :
  all_ok (t :: ts) -> (_ ← (advance : PM E unit); m) (at_pos (t :: ts) d e) = m (at_pos ts d e).
Proof using Type. intros H. unfold mbind, PM_bind. by rewrite advance_at. Qed.

Lemma reads_closed w k ts v (f : Z -> PM E Z) u rest d e :
  0 <= w -> reads w 0 (parse_at (S k) k 0) ts v -> (forall p, f v p = (u, p)) ->
  I e -> 0 <= d -> d + (1 + w) <= 512 -> all_ok rest ->
  exists e', I e' /\
    parse_closed (parse_expr resolve (S k)) f (at_pos (ts ++ LOp TK_RPAREN :: rest) d e)
    = (u, at_pos rest d e').
Proof using Type.
  intros Hw H Hf He Hd Hwd Hr.
  assert (all_ok (LOp TK_RPAREN :: rest)) as Hr' by (by constructor).
  destruct (reads_expr w k ts v Hw H (LOp TK_RPAREN :: rest) d e) as (e' & He' & Hrun);
    [done|done|done|apply closed_paren|done|].
  exists e'. split; [done|]. unfold parse_closed. unfold mbind at 1, PM_bind at 1. rewrite Hrun.
  transitivity ((_ ← (advance : PM E unit); f v) (at_pos (LOp TK_RPAREN :: rest) d e')); [done|].
  by rewrite advance_then.
Qed.

Lemma app_parens ts rest : parens ts ++ rest = LOp TK_LPAREN :: ts ++ LOp TK_RPAREN :: rest.
Proof using Type. unfold parens. cbn. by rewrite <- app_assoc. Qed.

(** A parenthesised expression is a primary. *)
Lemma reads_parens n w k ts v :
  0 <= w -> all_ok ts -> reads w 0 (parse_at (S k) k 0) ts v ->
  reads (1 + w) 8 (parse_at n (S k) 8) (parens ts) v.
Proof using Type.
  intros Hw Hts H rest d e He Hd Hwd _ Hr. rewrite app_parens.
  destruct (reads_closed w k ts v mret v rest d e) as (e' & He' & Hrun); try done.
  exists e'. split; [done|].
  transitivity ((_ ← (advance : PM E unit); parse_closed (parse_expr resolve (S k)) mret)
    (at_pos (LOp TK_LPAREN :: ts ++ LOp TK_RPAREN :: rest) d e)); [done|].
  rewrite advance_then; [done|]. constructor; [done|]. apply Forall_app. split; [done|].
  by constructor.
Qed.

Lemma reads_clog2 n w k ts v :
  0 <= w -> all_ok ts -> 0 < v -> llong v -> reads w 0 (parse_at (S k) k 0) ts v ->
  reads (1 + w) 8 (parse_at n (S k) 8) (LName "clog2" :: parens ts) (Z.max 1 (Z.log2_up v)).
Proof using Type.
  intros Hw Hts Hv Hl H rest d e He Hd Hwd _ Hr. cbn [app]. rewrite app_parens.
  set (f := fun arg => if arg <=? 0 then fail else mret (eval_clog2_positive arg) : PM E Z).
  destruct (reads_closed w k ts v f (Z.max 1 (Z.log2_up v)) rest d e) as (e' & He' & Hrun); try done.
  { intros p. unfold f. destruct (Z.leb_spec v 0); [lia|]. by rewrite eval_clog2_log2. }
  exists e'. split; [done|].
  assert (all_ok (LOp TK_LPAREN :: ts ++ LOp TK_RPAREN :: rest)) as Hok.
  { constructor; [done|]. apply Forall_app. split; [done|]. by constructor. }
  transitivity ((_ ← (advance : PM E unit); p ← get_state;
    if negb (bool_decide (kind (ps_cur p) = TK_LPAREN)) then fail
    else _ ← (advance : PM E unit); parse_closed (parse_expr resolve (S k)) f)
    (at_pos (LName "clog2" :: LOp TK_LPAREN :: ts ++ LOp TK_RPAREN :: rest) d e)); [done|].
  rewrite advance_then by (by constructor).
  transitivity ((_ ← (advance : PM E unit); parse_closed (parse_expr resolve (S k)) f)
    (at_pos (LOp TK_LPAREN :: ts ++ LOp TK_RPAREN :: rest) d e)); [done|].
  by rewrite advance_then.
Qed.

Lemma reads_num n k s :
  lexeme_ok (LNum s) = true -> reads 0 8 (parse_at n k 8) [LNum s] (digits_value s 0).
Proof using Type.
  intros Hs rest d e He Hd Hwd _ Hr. exists e. split; [done|].
  transitivity ((_ ← (advance : PM E unit); mret (digits_value s 0) : PM E Z)
    (at_pos (LNum s :: rest) d e)); [done|]. by rewrite advance_then by (by constructor).
Qed.

Lemma reads_name n k s v :
  is_name s = true -> names s = Some v -> reads 0 8 (parse_at n k 8) [LName s] v.
Proof using Hresolve.
  intros Hs Hv rest d e He Hd Hwd _ Hr. destruct (Hresolve s v e He Hv) as (e' & Hres & He').
  exists e'. split; [done|].
  transitivity (parse_name resolve s (at_pos (LName s :: rest) d e)).
  { cbn [parse_at]. unfold parse_primary. unfold mbind at 1, PM_bind at 1, get_state at 1.
    cbn [at_pos ps_error Z.eqb negb ps_cur pos snd lexeme_token kind ident app].
    unfold is_name in Hs. apply andb_true_iff in Hs as [_ Hs]. by destruct (String.eqb s "clog2"). }
  unfold parse_name. cbn [at_pos ps_env]. rewrite Hres.
  transitivity (let '(_, p) := advance (at_pos (LName s :: rest) d e') in (v, p)); [done|].
  rewrite advance_at; [done|].
  constructor; [|done]. cbn [lexeme_ok]. by rewrite Hs.
Qed.
Lemma reads_weaken w w' l l' m ts v :
  w <= w' -> (l' <= l)%nat -> reads w l m ts v -> reads w' l' m ts v.
Proof using Type.
  intros Hw Hl H rest d e He Hd Hwd Hc Hr. apply H; [done|done|lia| |done]. by eapply closed_le.
Qed.

(** A level after its first operands: the loop is about to look at what
    follows [ts], with [v] so far and rounds enough for the rest. *)
Definition loops (w : Z) (l n k : nat) (ts : list Lexeme) (v : Z) : Prop :=
  forall rest d e, I e -> 0 <= d -> d + w <= 512 -> closed (S l) rest -> all_ok rest ->
  exists e' r, I e' /\ (remaining (at_pos rest d e') <= r)%nat /\
    parse_at n k l (at_pos (ts ++ rest) d e)
    = binary_loop r (level_operator l) (parse_at n k (S l)) v (at_pos rest d e').

Lemma loops_weaken w w' l n k ts v : w <= w' -> loops w l n k ts v -> loops w' l n k ts v.
Proof using Type. intros Hw H rest d e He Hd Hwd Hc Hr. apply H; [done|done|lia|done|done]. Qed.

Lemma loops_operand w l n k ts v :
  (l <= 6)%nat -> reads w (S l) (parse_at n k (S l)) ts v -> loops w l n k ts v.
Proof using Type.
  intros Hl H rest d e He Hd Hwd Hc Hr. destruct (H rest d e) as (e' & He' & Hrun); try done.
  exists e', (S (String.length (ps_lx (at_pos rest d e')))). split_and!; [done| |].
  - unfold remaining. case_bool_decide; lia.
  - rewrite parse_at_level by done. unfold parse_level. unfold mbind at 1, PM_bind at 1.
    by rewrite Hrun.
Qed.

Lemma loops_op w l n k op ts1 ts2 va vb v :
  (l <= 6)%nat -> op_level op = l -> op_value op va vb = Some v -> all_ok ts2 ->
  loops w l n k ts1 va -> reads w (S l) (parse_at n k (S l)) ts2 vb ->
  loops w l n k (ts1 ++ LOp (op_kind op) :: ts2) v.
Proof using Type.
  intros Hl Ho Hv Hts2 H1 H2 rest d e He Hd Hwd Hc Hr.
  assert (all_ok (LOp (op_kind op) :: ts2 ++ rest)) as Hok.
  { constructor; [by destruct op|]. by apply Forall_app. }
  destruct (H1 (LOp (op_kind op) :: ts2 ++ rest) d e) as (e1 & r & He1 & Hr1 & Hrun1); try done.
  { rewrite <- Ho. apply closed_op. }
  rewrite remaining_at in Hr1 by (by destruct op). destruct r as [|r]; [lia|].
  destruct (H2 rest d e1) as (e2 & He2 & Hrun2); try done.
  exists e2, r. split_and!; [done| |].
  - pose proof (remaining_text rest d e2 Hr). rewrite render_length_app in Hr1. lia.
  - rewrite <- app_assoc. cbn [app]. rewrite Hrun1. cbn [binary_loop].
    unfold mbind at 1, PM_bind at 1, get_state at 1. cbn [at_pos ps_error Z.eqb negb].
    change (kind (ps_cur (at_pos (LOp (op_kind op) :: ts2 ++ rest) d e1))) with (op_kind op).
    destruct (op_run op va vb v (at_pos rest d e2) Hv) as (f & Hf & Hfv).
    rewrite Ho in Hf. rewrite Hf.
    transitivity ((_ ← (advance : PM E unit); right ← parse_at n k (S l); p ← get_state;
      if negb (ps_error p =? 0) then mret 0
      else left ← f va right; p ← get_state;
           if negb (ps_error p =? 0) then mret 0
           else binary_loop r (level_operator l) (parse_at n k (S l)) left)
      (at_pos (LOp (op_kind op) :: ts2 ++ rest) d e1)); [done|].
    rewrite advance_then by done. unfold mbind at 1, PM_bind at 1. rewrite Hrun2.
    unfold mbind at 1, PM_bind at 1, get_state at 1. cbn [at_pos ps_error Z.eqb negb].
    unfold mbind at 1, PM_bind at 1. by rewrite Hfv.
Qed.

Lemma loops_reads w l n k ts v :
  (l <= 6)%nat -> loops w l n k ts v -> reads w l (parse_at n k l) ts v.
Proof using Type.
  intros Hl H rest d e He Hd Hwd Hc Hr.
  destruct (H rest d e) as (e' & r & He' & Hr' & Hrun); try done.
  { by eapply closed_le; [|exact Hc]; lia. }
  exists e'. split; [done|]. rewrite Hrun. pose proof (closed_none l rest d e' Hl Hc) as Hn.
  destruct r; cbn [binary_loop]; unfold mbind, PM_bind, get_state; by rewrite Hn.
Qed.
Definition primary_head (ts : list Lexeme) : Prop :=
  match ts with (LNum _ | LName _ | LOp TK_LPAREN) :: _ => True | _ => False end.

Lemma reads_unary w n k ts v :
  primary_head ts -> reads w 8 (parse_at n k 8) ts v -> reads w 7 (parse_at n k 7) ts v.
Proof using Type.
  intros Hh H rest d e He Hd Hwd Hc Hr.
  destruct (H rest d e) as (e' & He' & Hrun); try done; [by eapply closed_le; [|exact Hc]; lia|].
  exists e'. split; [done|]. rewrite <- Hrun.
  destruct ts as [|[s|s|[]] ts]; try done; by destruct n.
Qed.

Lemma reads_minus w n k ts v :
  all_ok ts -> llong (- v) -> 0 <= w ->
  reads w 7 (parse_at n k 7) ts v -> reads (1 + w) 7 (parse_at (S n) k 7) (LOp TK_MINUS :: ts) (- v).
Proof using Type.
  intros Hts Hv Hw H rest d e He Hd Hwd Hc Hr.
  destruct (H rest (d + 1) e) as (e' & He' & Hrun); [done|lia|lia|done|done|].
  assert (all_ok (LOp TK_MINUS :: ts ++ rest)) as Hok.
  { constructor; [done|]. by apply Forall_app. }
  exists e'. split; [done|].
  transitivity ((_ ← (advance : PM E unit); refused ← (parser_enter_expr_depth : PM E bool);
    if (refused : bool) then mret 0
    else u ← parse_at n k 7; _ ← (parser_leave_expr_depth : PM E unit); signed (- u) : PM E Z)
    (at_pos (LOp TK_MINUS :: ts ++ rest) d e)); [done|].
  rewrite advance_then by done. unfold mbind, PM_bind. rewrite enter_depth.
  cbn [at_pos ps_expr_depth]. destruct (Z.leb_spec 512 d); [lia|].
  change (set_depth (d + 1) (at_pos (ts ++ rest) d e)) with (at_pos (ts ++ rest) (d + 1) e).
  rewrite Hrun. rewrite leave_depth by done. by rewrite signed_in.
Qed.

Lemma reads_plus w n k ts v :
  all_ok ts -> 0 <= w ->
  reads w 7 (parse_at n k 7) ts v -> reads (1 + w) 7 (parse_at (S n) k 7) (LOp TK_PLUS :: ts) v.
Proof using Type.
  intros Hts Hw H rest d e He Hd Hwd Hc Hr.
  destruct (H rest (d + 1) e) as (e' & He' & Hrun); [done|lia|lia|done|done|].
  assert (all_ok (LOp TK_PLUS :: ts ++ rest)) as Hok.
  { constructor; [done|]. by apply Forall_app. }
  exists e'. split; [done|].
  transitivity ((_ ← (advance : PM E unit); refused ← (parser_enter_expr_depth : PM E bool);
    if (refused : bool) then mret 0
    else u ← parse_at n k 7; _ ← (parser_leave_expr_depth : PM E unit); mret u : PM E Z)
    (at_pos (LOp TK_PLUS :: ts ++ rest) d e)); [done|].
  rewrite advance_then by done. unfold mbind, PM_bind. rewrite enter_depth.
  cbn [at_pos ps_expr_depth]. destruct (Z.leb_spec 512 d); [lia|].
  change (set_depth (d + 1) (at_pos (ts ++ rest) d e)) with (at_pos (ts ++ rest) (d + 1) e).
  rewrite Hrun. by rewrite leave_depth.
Qed.
(** From level [l'] down to [l], through loops that do not start. *)
Lemma reads_down w n k ts v l l' :
  (l <= l' <= 8)%nat -> primary_head ts \/ (l' < 8)%nat ->
  reads w l' (parse_at n k l') ts v -> reads w l (parse_at n k l) ts v.
Proof using Type.
  remember (l' - l)%nat as m eqn:Hm. revert l Hm. induction m as [|m IH]; intros l Hm Hl Hh H.
  { by replace l with l' by lia. }
  destruct (Nat.eq_dec l 7) as [->|Hne].
  - assert (l' = 8)%nat as -> by lia. apply reads_unary; [|done]. destruct Hh; [done|lia].
  - apply loops_reads; [lia|]. apply loops_operand; [lia|]. apply IH; [lia|lia|done|done].
Qed.

(** What is to be shown of an expression at its own level. *)
Definition own_ok (x : Exp) (v : Z) : Prop :=
  forall n k, nesting 0 x <= Z.of_nat n -> nesting 0 x <= Z.of_nat k ->
  reads (nesting 0 x) (exp_level x) (parse_at n k (exp_level x)) (tokens 0 x) v /\
  ((exp_level x <= 6)%nat -> loops (nesting 0 x) (exp_level x) n k (tokens 0 x) v).

Lemma own_head x : exp_level x = 8%nat -> primary_head (tokens 0 x).
Proof using Type. destruct x as [| | | | |op]; try done. by destruct op. Qed.

Lemma exp_level_le x : (exp_level x <= 8)%nat.
Proof using Type. destruct x as [| | | | |op]; cbn; try lia. destruct op; cbn; lia. Qed.

Lemma own_low x v l n k :
  own_ok x v -> (l <= exp_level x)%nat -> nesting 0 x <= Z.of_nat n -> nesting 0 x <= Z.of_nat k ->
  reads (nesting 0 x) l (parse_at n k l) (tokens 0 x) v.
Proof using Type.
  intros Ho Hl Hn Hk. pose proof (exp_level_le x). apply (reads_down _ _ _ _ _ l (exp_level x)).
  - lia.
  - destruct (Nat.eq_dec (exp_level x) 8) as [E8|]; [left; by apply own_head|right; lia].
  - by apply Ho.
Qed.

Lemma own_high x v l n k :
  own_ok x v -> all_ok (tokens 0 x) -> (exp_level x < l <= 8)%nat ->
  1 + nesting 0 x <= Z.of_nat n -> 1 + nesting 0 x <= Z.of_nat k ->
  reads (1 + nesting 0 x) l (parse_at n k l) (parens (tokens 0 x)) v.
Proof using Type.
  intros Ho Hts Hl Hn Hk. pose proof (nesting_nonneg 0 x).
  destruct k as [|k]; [lia|]. apply (reads_down _ _ _ _ _ l 8); [lia|by left|].
  apply reads_parens; [done|done|]. apply own_low; [done|lia|lia|lia].
Qed.

(** At any level, with parentheses when they are needed. *)
Lemma own_parsed x v : own_ok x v -> all_ok (tokens 0 x) -> parsed x v.
Proof using Type.
  intros Ho Hts n k l Hn Hk Hl. destruct (Nat.le_gt_cases l (exp_level x)) as [H|H].
  - rewrite nesting_low, tokens_low in * by done. by apply own_low.
  - rewrite nesting_high, tokens_high in * by done. by apply own_high.
Qed.

Lemma own_loops x v n k l :
  own_ok x v -> all_ok (tokens 0 x) -> (l <= 6)%nat ->
  nesting l x <= Z.of_nat n -> nesting l x <= Z.of_nat k ->
  loops (nesting l x) l n k (tokens l x) v.
Proof using Type.
  intros Ho Hts Hl Hn Hk. destruct (Nat.eq_dec l (exp_level x)) as [->|Hne].
  - rewrite nesting_low, tokens_low in * by done. by apply Ho.
  - assert (nesting l x = nesting (S l) x /\ tokens l x = tokens (S l) x) as [En Et].
    { destruct (Nat.le_gt_cases l (exp_level x)).
      - split; [rewrite (nesting_low l), (nesting_low (S l))
          |rewrite (tokens_low l), (tokens_low (S l))]; done || lia.
      - split; [rewrite (nesting_high l), (nesting_high (S l))
          |rewrite (tokens_high l), (tokens_high (S l))]; done || lia. }
    rewrite En, Et in *. apply loops_operand; [done|]. apply own_parsed; try done. lia.
Qed.

Lemma own_bin op a b va vb v :
  own_ok a va -> own_ok b vb -> all_ok (tokens 0 (Bin op a b)) ->
  op_value op va vb = Some v -> own_ok (Bin op a b) v.
Proof using Type.
  intros Ha Hb Hts Hv n k Hn Hk. cbn [tokens nesting exp_level Nat.leb] in *.
  set (l := op_level op) in *. assert (l <= 6)%nat as Hl by (destruct op; cbn; lia).
  apply Forall_app in Hts as [Ta Tb]. apply Forall_cons in Tb as [_ Tb].
  assert (forall j x, all_ok (tokens j x) -> all_ok (tokens 0 x)) as Hsub.
  { intros j x Hx. destruct (Nat.le_gt_cases j (exp_level x));
      [by rewrite tokens_low in Hx|]. rewrite tokens_high in Hx by done.
    apply Forall_cons in Hx as [_ Hx]. by apply Forall_app in Hx as [Hx _]. }
  set (w := Z.max (nesting l a) (nesting (S l) b)) in *.
  assert (loops w l n k (tokens l a ++ LOp (op_kind op) :: tokens (S l) b) v) as Hlo.
  { apply (loops_op w l n k op _ _ va vb); try done.
    - apply (loops_weaken (nesting l a)); [lia|]. apply own_loops; eauto; lia.
    - apply (reads_weaken (nesting (S l) b) _ (S l)); [lia|done|].
      apply own_parsed; eauto; lia. }
  split; [by apply loops_reads|done].
Qed.
Lemma own_value x v : exp_ok x = true -> exp_value names x = Some v -> own_ok x v.
Proof using Hrange Hresolve.
  revert v. induction x as [s|s|x IH|x IH|x IH|op a IHa b IHb]; intros v Hx Hv;
    pose proof (tokens_ok names 0 _ v Hx Hv) as Hts; cbn [exp_ok exp_value] in *.
  - intros n k Hn Hk. split; [|cbn; lia]. apply guard_llong_Some in Hv as [-> _].
    apply reads_num. by apply Forall_cons in Hts as [? _].
  - intros n k Hn Hk. split; [|cbn; lia]. by apply reads_name.
  - destruct (exp_value names x) as [u|] eqn:Eu; [|done]. cbn in Hv.
    apply guard_llong_Some in Hv as [-> Hl]. specialize (IH u Hx eq_refl).
    intros n k Hn Hk. split; [|cbn; lia]. cbn [tokens nesting exp_level Nat.leb] in *.
    pose proof (nesting_nonneg 7 x). destruct n as [|n]; [lia|].
    apply reads_minus; [by eapply tokens_ok|done|done|].
    apply own_parsed; [done|by eapply tokens_ok|lia|lia|lia].
  - specialize (IH v Hx Hv).
    intros n k Hn Hk. split; [|cbn; lia]. cbn [tokens nesting exp_level Nat.leb] in *.
    pose proof (nesting_nonneg 7 x). destruct n as [|n]; [lia|].
    apply reads_plus; [by eapply tokens_ok|done|].
    apply own_parsed; [done|by eapply tokens_ok|lia|lia|lia].
  - destruct (exp_value names x) as [u|] eqn:Eu; [|done]. cbn in Hv.
    specialize (IH u Hx eq_refl). destruct (Z.leb_spec u 0); [done|]. injection Hv as <-.
    intros n k Hn Hk. split; [|cbn; lia]. cbn [tokens nesting exp_level Nat.leb] in *.
    pose proof (nesting_nonneg 0 x). destruct k as [|k]; [lia|].
    apply reads_clog2; [done|by eapply tokens_ok|done|by eapply exp_value_llong|].
    apply own_parsed; [done|by eapply tokens_ok|lia|lia|lia].
  - destruct (exp_value names a) as [va|] eqn:Ea; [|done]. cbn in Hv.
    destruct (exp_value names b) as [vb|] eqn:Eb; [|done]. apply andb_true_iff in Hx as [Oa Ob].
    apply (own_bin op a b va vb); auto.
Qed.

(** The parser on the printed expression. *)
Lemma parse_print x v e :
  exp_ok x = true -> exp_value names x = Some v -> nesting 0 x <= 511 -> I e ->
  exists e', I e' /\
    parse_expr resolve parse_fuel (parser_init (print x) e) = (v, at_pos [] 0 e').
Proof using Hrange Hresolve.
  intros Hx Hv Hn He. pose proof (nesting_nonneg 0 x).
  assert (reads (nesting 0 x) 0 (parse_at 513 512 0) (tokens 0 x) v) as Hp.
  { apply own_parsed; [by apply own_value|by eapply tokens_ok|lia|lia|lia]. }
  apply reads_expr in Hp; [|done].
  destruct (Hp [] 0 e) as (e' & He' & Hrun); [done|done|lia|done|constructor|].
  exists e'. split; [done|]. rewrite app_nil_r in Hrun. rewrite <- Hrun. f_equal.
  unfold parser_init, print. by rewrite lex_one_render by (by eapply tokens_ok).
Qed.
End Parser.

Lemma finish_value {E} v (e : E) : 0 <= v -> finish (v, at_pos [] 0 e) = (v, at_pos [] 0 e).
Proof. intros H. cbn. by destruct (Z.ltb_spec v 0); [lia|]. Qed.

Lemma finish_negative {E} v (e : E) :
  v < 0 -> finish (v, at_pos [] 0 e) = (v, set_error 1 (at_pos [] 0 e)).
Proof. intros H. cbn. by destruct (Z.ltb_spec v 0); [|lia]. Qed.

(** Anonymous expressions, without names. *)
Lemma eval_expr_print x v :
  exp_ok x = true -> exp_value (fun _ => None) x = Some v -> nesting 0 x <= 511 ->
  jz_const_eval_expr (print x) = if 0 <=? v then Value v else Failed.
Proof.
  intros Hx Hv Hn.
  destruct (parse_print (fun _ => True) resolve_none (fun _ => None)) with (x := x) (v := v) (e := tt)
    as (e' & _ & Hrun); try done.
  unfold jz_const_eval_expr. rewrite Hrun. destruct (Z.leb_spec 0 v).
  - by rewrite finish_value.
  - by rewrite finish_negative.
Qed.
