(* ===== verification/ConstEvalSpec.v ===== *)
(** * Named constants: the evaluator finds the solution of the definitions

    A list of definitions is a system of equations between names.  When it has
    a solution in which every value is non-negative, and no definition depends
    on itself, [jz_const_eval_all] returns that solution, whatever the order
    of the definitions.  Then the properties of the evaluator itself. *)

From S2P Require Import Prelude CString Util ConstEval ConstEvalTotal ConstEvalGrammar.


Local Open Scope Z_scope.

(** A definition whose text is the printed expression. *)
Definition source_def (d : string * Exp) : JZConstDef :=
  mkConstDef (Some d.1) (Some (print d.2)).

(** The value of the first definition of a name. *)
Fixpoint lookup_value (ds : list (string * Exp)) (vals : list Z) (s : string) : option Z :=
  match ds, vals with
  | (n, _) :: ds', v :: vals' => if String.eqb n s then Some v else lookup_value ds' vals' s
  | _, _ => None
  end.

Fixpoint exp_names (e : Exp) : list string :=
  match e with
  | Num _ => []
  | Name s => [s]
  | Neg e | Plus e | Clog2 e => exp_names e
  | Bin _ a b => exp_names a ++ exp_names b
  end.

(** One definition is well-formed, has the value [v] once the others have
    theirs, and depends on definitions of lower rank only. *)
Record def_ok (ds : list (string * Exp)) (vals : list Z) (rank : string -> nat)
    (d : string * Exp) (v : Z) : Prop := {
  do_name : is_name d.1 = true;
  do_exp : exp_ok d.2 = true;
  do_nesting : nesting 0 d.2 <= 511;
  do_value : exp_value (lookup_value ds vals) d.2 = Some v;
  do_range : 0 <= v <= LLONG_MAX;
  do_rank : Forall (fun s => rank s < rank d.1)%nat (exp_names d.2)
}.

Definition solution (ds : list (string * Exp)) (rank : string -> nat) (vals : list Z) : Prop :=
  Forall2 (def_ok ds vals rank) ds vals.

Lemma exp_value_ext f g e :
  (forall s, s ∈ exp_names e -> f s = g s) -> exp_value f e = exp_value g e.
Proof.
  induction e as [s|s|e IH|e IH|e IH|op a IHa b IHb]; cbn [exp_names exp_value]; intros H.
  - done.
  - apply H. by apply list_elem_of_singleton.
  - by rewrite IH.
  - auto.
  - by rewrite IH.
  - by rewrite IHa, IHb by (intros; apply H, elem_of_app; auto).
Qed.

Lemma exp_names_ok e s : exp_ok e = true -> s ∈ exp_names e -> s <> ""%string.
Proof.
  induction e as [t|t|e IH|e IH|e IH|op a IHa b IHb]; cbn [exp_ok exp_names]; intros H Hs; auto.
  - by apply elem_of_nil in Hs.
  - apply list_elem_of_singleton in Hs as ->. by destruct t.
  - apply andb_true_iff in H as [Ha Hb]. apply elem_of_app in Hs as [Hs|Hs]; auto.
Qed.

Lemma find_def_index_source ds vals s v :
  length vals = length ds -> s <> ""%string -> lookup_value ds vals s = Some v ->
  exists i d, find_def_index (map source_def ds) s = Z.of_nat i /\
    ds !! i = Some d /\ vals !! i = Some v /\ d.1 = s.
Proof.
  intros Hlen Hs H. unfold find_def_index. rewrite (proj2 (String.eqb_neq s "") Hs).
  rewrite length_map. set (f := fun i => match aget None (map def_name (map source_def ds)) i with
    | Some n => if String.eqb n s then Some i else None | None => None end).
  assert (forall i d, ds !! i = Some d ->
    f (Z.of_nat i) = if String.eqb d.1 s then Some (Z.of_nat i) else None) as Hf.
  { intros i d Hi. unfold f, aget. destruct (Z.ltb_spec (Z.of_nat i) 0); [lia|]. rewrite Nat2Z.id.
    rewrite map_map. erewrite (nth_lookup_Some _ i) by (by rewrite list_lookup_fmap, Hi). done. }
  assert (exists i d, ds !! i = Some d /\ vals !! i = Some v /\ d.1 = s /\
    forall j d', (j < i)%nat -> ds !! j = Some d' -> d'.1 <> s) as (i & d & Hi & Hv & Hd & Hmin).
  { clear Hf f. revert vals Hlen H. induction ds as [|[n x] ds IH]; intros [|u vals] Hlen H; try done.
    cbn [lookup_value] in H. destruct (String.eqb_spec n s) as [->|Hne].
    - injection H as ->. exists 0%nat, (s, x). split_and!; [done|done|done|]. intros. lia.
    - destruct (IH vals ltac:(simpl in Hlen; lia) H) as (i & d & ? & ? & ? & Hmin).
      exists (S i), d. split_and!; [done|done|done|]. intros [|j] d' Hj Hd'.
      + by injection Hd' as <-.
      + apply (Hmin j); [lia|done]. }
  exists i, d. split_and!; [|done|done|done].
  assert (ret_up (length ds) f = Some (Z.of_nat i)) as ->; [|done].
  apply lookup_lt_Some in Hi as Hlt. apply (ret_up_first _ _ (Z.of_nat i)); [lia| |].
  - rewrite (Hf i d Hi). by rewrite Hd, String.eqb_refl.
  - intros j Hj. assert (exists d', ds !! Z.to_nat j = Some d') as [d' Hd'].
    { apply lookup_lt_is_Some. lia. }
    pose proof (Hf _ _ Hd') as E. rewrite Z2Nat.id in E by lia. rewrite E.
    rewrite (proj2 (String.eqb_neq d'.1 s)); [done|]. apply (Hmin (Z.to_nat j)); [lia|done].
Qed.

Section Solve.
Context (ds : list (string * Exp)) (rank : string -> nat) (vals : list Z).
Context (Hsol : solution ds rank vals).

Let defs := map source_def ds.

Lemma solution_length : length vals = length ds.
Proof using Hsol. symmetry. by apply Forall2_length in Hsol. Qed.

Lemma defs_length : length defs = length ds.
Proof using Type. apply length_map. Qed.

Lemma solution_lookup i d v : ds !! i = Some d -> vals !! i = Some v -> def_ok ds vals rank d v.
Proof using Hsol. intros Hd Hv. by eapply Forall2_lookup_lr. Qed.

Lemma aget_lookup i v : vals !! i = Some v -> aget 0 vals (Z.of_nat i) = v.
Proof using Type.
  intros H. unfold aget. destruct (Z.ltb_spec (Z.of_nat i) 0); [lia|]. rewrite Nat2Z.id.
  by apply nth_lookup_Some.
Qed.

Lemma def_expr_at i d :
  ds !! i = Some d -> aget None (map def_expr defs) (Z.of_nat i) = Some (print d.2).
Proof using Type.
  intros H. unfold aget. destruct (Z.ltb_spec (Z.of_nat i) 0); [lia|]. rewrite Nat2Z.id.
  apply nth_lookup_Some. unfold defs. by rewrite map_map, list_lookup_fmap, H.
Qed.

(** The environment on the way to the solution [vals]: finished values are
    right, the definitions in [V] and no others are being visited, those in
    [D] are finished. *)
Record on_the_way (k : nat) (V D : Z -> Prop) (env : EvalEnv) : Prop := {
  ow_env : env_ok defs k env;
  ow_done : forall i, state_of env i = EVAL_DONE -> value_of env i = aget 0 vals i;
  ow_visiting : forall i, state_of env i = EVAL_VISITING <-> V i;
  ow_finished : forall i, D i -> state_of env i = EVAL_DONE
}.

Lemma on_the_way_visit k V D env i :
  on_the_way k V D env -> 0 <= i < Z.of_nat (length defs) ->
  state_of env i = EVAL_NOT_VISITED ->
  (0 < k)%nat /\ on_the_way (k - 1) (fun j => j = i \/ V j) D (set_env_state i EVAL_VISITING env).
Proof using Type.
  intros [He Hd Hv Hf] Hi Hs.
  assert (0 < k)%nat as Hk.
  { pose proof (unvisited_aset env i EVAL_DONE ltac:(rewrite (eo_state_length _ _ _ He); lia)) as Hc.
    rewrite Hs in Hc. cbn [pending] in Hc. pose proof (eo_unvisited _ _ _ He). lia. }
  assert (forall j, state_of (set_env_state i EVAL_VISITING env) j
    = if i =? j then EVAL_VISITING else state_of env j) as Hst.
  { intros j. apply state_of_aset. rewrite (eo_state_length _ _ _ He). lia. }
  split; [done|]. constructor.
  - apply (env_ok_set _ k); [done|done|done|]. rewrite Hs. cbn [pending].
    pose proof (eo_unvisited _ _ _ He). lia.
  - intros j. rewrite Hst. destruct (Z.eqb_spec i j); [done|]. apply Hd.
  - intros j. rewrite Hst. destruct (Z.eqb_spec i j) as [->|]; [by split; [left|]|].
    rewrite Hv. split; [by right|]. intros [->|]; done.
  - intros j Hj. rewrite Hst. destruct (Z.eqb_spec i j) as [->|]; [|by apply Hf].
    specialize (Hf j Hj). congruence.
Qed.

Lemma on_the_way_done k V D env i :
  on_the_way (k - 1) (fun j => j = i \/ V j) D env -> ~ V i ->
  0 <= i < Z.of_nat (length defs) -> 0 <= aget 0 vals i <= LLONG_MAX ->
  on_the_way k V (fun j => j = i \/ D j)
    (set_env_state i EVAL_DONE (set_env_value i (aget 0 vals i) env)).
Proof using Type.
  intros [He Hd Hv Hf] HV Hi Hr.
  destruct (env_ok_done defs (k - 1) env i _ He Hi Hr) as [Hok Hval].
  assert (forall j, state_of (set_env_state i EVAL_DONE (set_env_value i (aget 0 vals i) env)) j
    = if i =? j then EVAL_DONE else state_of env j) as Hst.
  { intros j. rewrite state_of_aset; [done|]. cbn. rewrite (eo_state_length _ _ _ He). lia. }
  constructor.
  - destruct Hok. constructor; try done. lia.
  - intros j. rewrite Hst. destruct (Z.eqb_spec i j) as [<-|Hne]; [by rewrite Hval|].
    intros Hj. rewrite <- (Hd j Hj). unfold value_of. cbn [env_values set_env_state set_env_value].
    rewrite aget_aset. by destruct (Z.eqb_spec i j); [|rewrite ?andb_false_r].
  - intros j. rewrite Hst. destruct (Z.eqb_spec i j) as [<-|Hne]; [by split|].
    rewrite Hv. split; [|by right]. intros [->|]; done.
  - intros j. rewrite Hst. destruct (Z.eqb_spec i j) as [<-|Hne]; [done|].
    intros [->|Hj]; [done|]. by apply Hf.
Qed.
(** Everything being visited ranks [r] or higher. *)
Definition above (r : nat) (V : Z -> Prop) : Prop :=
  forall i d, V (Z.of_nat i) -> ds !! i = Some d -> (r <= rank d.1)%nat.

Definition solves (fuel : nat) : Prop := forall k V D i d v env,
  (k < fuel)%nat -> on_the_way k V D env -> ds !! i = Some d -> vals !! i = Some v ->
  state_of env (Z.of_nat i) = EVAL_NOT_VISITED -> above (rank d.1) V ->
  exists env', eval_one defs fuel (Z.of_nat i) env = mkEvalOne 0 env' false false /\
    on_the_way k V (fun j => j = Z.of_nat i \/ D j) env'.

(** Names a definition of rank [r] may use. *)
Definition names_below (r : nat) (s : string) : option Z :=
  if (rank s <? r)%nat && negb (String.eqb s "") then lookup_value ds vals s else None.

Lemma names_below_range r s x : names_below r s = Some x -> llong x.
Proof using Hsol.
  unfold names_below. destruct (String.eqb_spec s "") as [|Hne];
    [by rewrite andb_false_r|]. destruct (_ && _); [|done]. intros Hx.
  destruct (find_def_index_source ds vals s x) as (j & d & _ & Hd & Hv & _);
    [by apply solution_length|done|done|].
  destruct (solution_lookup j d x Hd Hv). unfold llong, LLONG_MAX in *. lia.
Qed.

Lemma resolve_solves fuel k V D r s v env :
  solves fuel -> (k < fuel)%nat -> above r V -> on_the_way k V D env ->
  names_below r s = Some v ->
  exists env', env_resolve defs (eval_one defs fuel) s env = mkResolved v 0 env' false false /\
    on_the_way k V D env'.
Proof using Hsol.
  intros IH Hk HV Henv Hs. unfold names_below in Hs.
  destruct (Nat.ltb_spec (rank s) r) as [Hr|]; [|done]. destruct (String.eqb_spec s "") as [|Hne]; [done|].
  destruct (find_def_index_source ds vals s v) as (i & d & Hfind & Hd & Hv & <-);
    [by apply solution_length|done|done|].
  unfold env_resolve. fold defs in Hfind. rewrite Hfind.
  destruct (Z.ltb_spec (Z.of_nat i) 0); [lia|].
  destruct (state_of env (Z.of_nat i)) eqn:Es.
  - destruct (IH k V D i d v env) as (env' & Hrun & Henv'); try done.
    { intros j d' Hj Hd'. specialize (HV j d' Hj Hd'). lia. }
    rewrite Hrun. cbn [eo_code eo_env eo_undefined eo_stuck Z.eqb]. exists env'. split.
    + f_equal. rewrite (ow_done _ _ _ _ Henv') by (apply (ow_finished _ _ _ _ Henv'); by left).
      by apply aget_lookup.
    + destruct Henv'. constructor; auto.
  - apply (ow_visiting _ _ _ _ Henv) in Es. specialize (HV i d Es Hd). lia.
  - exists env. split; [|done]. f_equal. rewrite (ow_done _ _ _ _ Henv) by done.
    by apply aget_lookup.
Qed.

Lemma eval_one_solves fuel : solves fuel.
Proof using Hsol.
  induction fuel as [|fuel IH]; intros k V D i d v env Hk Henv Hd Hv Hs HV; [lia|].
  pose proof (solution_lookup i d v Hd Hv) as [Hname Hexp Hnest Hval Hr Hrank].
  apply lookup_lt_Some in Hd as Hlt. pose proof defs_length as Hlen.
  cbn [eval_one]. destruct (Z.leb_spec (Z.of_nat (length defs)) (Z.of_nat i)); [lia|].
  rewrite Hs, (def_expr_at i d Hd). cbv zeta.
  destruct (on_the_way_visit k V D env (Z.of_nat i)) as [Hk0 Henv1]; [done|lia|done|].
  set (env1 := set_env_state (Z.of_nat i) EVAL_VISITING env) in *.
  set (V1 := fun j => j = Z.of_nat i \/ V j) in *.
  assert (above (rank d.1) V1) as HV1.
  { intros j d' [Hj|Hj] Hd'; [|by eapply HV]. apply Nat2Z.inj in Hj as ->.
    rewrite Hd in Hd'. by injection Hd' as ->. }
  destruct (parse_print (on_the_way (k - 1) V1 D) (env_resolve defs (eval_one defs fuel))
    (names_below (rank d.1))) with (x := d.2) (v := v) (e := env1) as (env2 & Henv2 & Hrun);
    [| |done| |done|done|].
  { apply names_below_range. }
  { intros s x e He Hx. apply (resolve_solves fuel (k - 1) V1 D (rank d.1)); [done|lia|done|done|done]. }
  { rewrite <- Hval. apply exp_value_ext. intros s Hs'. unfold names_below.
    rewrite Forall_forall in Hrank. specialize (Hrank s Hs').
    destruct (Nat.ltb_spec (rank s) (rank d.1)); [|lia].
    by rewrite (proj2 (String.eqb_neq s "") (exp_names_ok _ _ Hexp Hs')). }
  unfold env_parse_expr. rewrite Hrun, finish_value by lia.
  cbn [at_pos ps_error ps_env ps_undefined ps_stuck Z.eqb negb].
  eexists. split; [reflexivity|].
  assert (v = aget 0 vals (Z.of_nat i)) as -> by (symmetry; by apply aget_lookup).
  apply on_the_way_done; [done| |lia|lia].
  intros HVi. apply (ow_visiting _ _ _ _ Henv) in HVi. congruence.
Qed.

Lemma eval_from_solves n i env :
  on_the_way (length defs) (fun _ => False) (fun j => 0 <= j < Z.of_nat i) env ->
  (i + n = length ds)%nat ->
  exists env', eval_from defs n (Z.of_nat i) env false false = mkEvalOne 0 env' false false /\
    on_the_way (length defs) (fun _ => False) (fun j => 0 <= j < Z.of_nat (i + n)) env'.
Proof using Hsol.
  revert i env. induction n as [|n IH]; intros i env Henv Hn; cbn [eval_from].
  { exists env. by rewrite Nat.add_0_r. }
  replace (Z.of_nat i + 1) with (Z.of_nat (S i)) by lia.
  replace (i + S n)%nat with (S i + n)%nat by lia.
  assert (forall env', on_the_way (length defs) (fun _ => False)
      (fun j => j = Z.of_nat i \/ 0 <= j < Z.of_nat i) env' ->
    on_the_way (length defs) (fun _ => False) (fun j => 0 <= j < Z.of_nat (S i)) env') as Hstep.
  { intros env' [H1 H2 H3 H4]. constructor; [done|done|done|]. intros j Hj. apply H4. lia. }
  assert (exists d, ds !! i = Some d) as [d Hd] by (apply lookup_lt_is_Some; lia).
  assert (exists v, vals !! i = Some v) as [v Hv]
    by (apply lookup_lt_is_Some; rewrite solution_length; lia).
  destruct (state_of env (Z.of_nat i)) eqn:Es.
  - destruct (eval_one_solves (S (length defs)) (length defs) (fun _ => False)
      (fun j => 0 <= j < Z.of_nat i) i d v env) as (env' & Hrun & Henv'); [lia|done|done|done|done|by intros ? ? []|].
    rewrite Hrun. cbn [eo_code eo_env eo_undefined eo_stuck Z.eqb orb].
    apply IH; [by apply Hstep|lia].
  - by apply (ow_visiting _ _ _ _ Henv) in Es.
  - apply IH; [|lia]. destruct Henv as [H1 H2 H3 H4]. constructor; [done|done|done|].
    intros j Hj. destruct (Z.eq_dec j (Z.of_nat i)) as [->|]; [done|]. apply H4. lia.
Qed.

Lemma eval_all_solves out :
  length out = length ds ->
  exists env, jz_const_eval_all defs out = mkEvalOne 0 env false false /\ env_values env = vals.
Proof using Hsol.
  intros Hout. pose proof defs_length as Hlen.
  destruct (eval_from_solves (length ds) 0 (mkEnv out (replicate (length defs) EVAL_NOT_VISITED)))
    as (env & Hrun & Henv); [|done|].
  { assert (forall j, state_of (mkEnv out (replicate (length defs) EVAL_NOT_VISITED)) j
      = EVAL_NOT_VISITED) as Hst by (intros; apply aget_replicate).
    constructor; [apply initial_env_ok; lia| | |lia].
    - intros j. by rewrite Hst.
    - intros j. by rewrite Hst. }
  exists env. split; [by rewrite <- Hrun; unfold jz_const_eval_all; rewrite Hlen|].
  destruct Henv as [[_ _ Hv _] Hd _ Hf]. apply list_eq_same_length with (length ds);
    [by apply solution_length|lia|].
  intros i x y Hi Hx Hy. specialize (Hf (Z.of_nat i) ltac:(lia)). apply Hd in Hf.
  unfold value_of, aget in Hf. destruct (Z.ltb_spec (Z.of_nat i) 0); [lia|].
  rewrite Nat2Z.id in Hf. by rewrite (nth_lookup_Some _ _ _ _ Hx), (nth_lookup_Some _ _ _ _ Hy) in Hf.
Qed.
End Solve.

(** * What the constant evaluator computes

    Expressions as trees and their values are in [ConstEvalGrammar], systems of
    definitions and their solutions before. *)


Local Open Scope Z_scope.

(** C13: an expression printed with the parentheses that the grammar in the
    comment of [const_eval.c] calls for (where shifts bind less tightly than + and
    -, against section 3.3 of the specification) is parsed back and evaluated to its mathematical value; a negative
    value is refused.  The expression has a value, so no operation overflows or
    divides by zero, and its nesting is within the limit. *)
Theorem const_eval_expr_correct x v :
  exp_ok x = true -> exp_value (fun _ => None) x = Some v -> nesting 0 x <= 511 ->
  jz_const_eval_expr (print x) = if 0 <=? v then Value v else Failed.
Proof. apply eval_expr_print. Qed.

(** [(1 + 2) * 3 << 2 - 7 % 3 == 1_8 || 0], and [2 - (3 - 1) - 5], which is
    negative. *)
Definition example_exp : Exp :=
  Bin OOr (Bin OEq (Bin OShl (Bin OMul (Bin OAdd (Num "1") (Num "2")) (Num "3"))
      (Bin OSub (Num "2") (Bin OMod (Num "7") (Num "3"))))
    (Num "1_8")) (Num "0").
Definition example_negative : Exp :=
  Bin OSub (Bin OSub (Num "2") (Bin OSub (Num "3") (Num "1"))) (Clog2 (Num "17")).

Lemma const_eval_expr_witness :
  jz_const_eval_expr (print example_exp) = Value 1 /\
  jz_const_eval_expr (print example_negative) = Failed.
Proof.
  split; [apply (const_eval_expr_correct example_exp 1)
         |apply (const_eval_expr_correct example_negative (-5))]; vm_compute; done.
Defined.

(** A sum before a shift: 24, where the specification's precedences give 17. *)
Example shift_after_sum :
  jz_const_eval_expr "1+2<<3" = Value 24 /\ jz_const_eval_expr "1+(2<<3)" = Value 17.
Proof. vm_compute. by split. Qed.

(** C14: when the definitions have a solution without circular dependencies,
    [jz_const_eval_all] succeeds and returns it, whatever their order. *)
Theorem const_eval_all_correct ds rank vals out :
  solution ds rank vals -> length out = length ds ->
  let r := jz_const_eval_all (map source_def ds) out in
  eo_code r = 0 /\ env_values (eo_env r) = vals /\ eo_undefined r = false /\ eo_stuck r = false.
Proof.
  intros Hsol Hout. destruct (eval_all_solves ds rank vals Hsol out Hout) as (env & -> & Hv). done.
Qed.

(** [DEPTH = WIDTH * 4; ADDR = clog2(DEPTH); WIDTH = 12], used before they
    are defined. *)
Definition example_defs : list (string * Exp) :=
  [("ADDR"%string, Clog2 (Name "DEPTH"));
   ("DEPTH"%string, Bin OMul (Name "WIDTH") (Num "4"));
   ("WIDTH"%string, Num "12")].
Definition example_rank (s : string) : nat :=
  if String.eqb s "ADDR" then 2 else if String.eqb s "DEPTH" then 1 else 0.

Lemma const_eval_all_witness :
  env_values (eo_env (jz_const_eval_all (map source_def example_defs) [0; 0; 0])) = [6; 48; 12].
Proof.
  apply (const_eval_all_correct example_defs example_rank [6; 48; 12] [0; 0; 0]); [|done].
  repeat constructor; try (vm_compute; done); cbn; lia.
Defined.

(** On any text the evaluator returns: it never runs out of the fuel of
    the model, and a value it returns is a non-negative [long long]. *)
Theorem const_eval_expr_terminates expr :
  match jz_const_eval_expr expr with
  | Value v => 0 <= v <= LLONG_MAX
  | Failed | Undefined => True
  | Stuck => False
  end.
Proof. apply const_eval_expr_total. Qed.

(** The same for any list of definitions, circular ones included: every
    value the evaluator has finished is a non-negative [long long]. *)
Theorem const_eval_all_terminates defs out :
  length out = length defs ->
  let r := jz_const_eval_all defs out in
  eo_stuck r = false /\ length (env_values (eo_env r)) = length defs /\
  (forall i, state_of (eo_env r) i = EVAL_DONE -> 0 <= value_of (eo_env r) i <= LLONG_MAX).
Proof. apply const_eval_all_total. Qed.

(** [A = B + 1; B = A]: the circle is reported with code [-2]. *)
Definition example_circle : list JZConstDef :=
  [mkConstDef (Some "A"%string) (Some "B + 1"%string); mkConstDef (Some "B"%string) (Some "A"%string)].

Lemma const_eval_all_terminates_witness :
  eo_code (jz_const_eval_all example_circle [0; 0]) = -2 /\
  eo_stuck (jz_const_eval_all example_circle [0; 0]) = false.
Proof. split; [vm_compute; done|]. by apply (const_eval_all_terminates example_circle [0; 0]). Defined.

(** What the lexer lets pass.  A decimal literal beyond [LLONG_MAX] counts
    as [LLONG_MAX]; an operator outside the grammar ends the expression and
    everything after it is ignored. *)
Theorem const_eval_lenient :
  (forall s, is_numeral s = true -> LLONG_MAX < digits_value s 0 ->
     jz_const_eval_expr s = Value LLONG_MAX) /\
  (forall junk, jz_const_eval_expr ("8 & " ++ junk) = Value 8).
Proof.
  split; [|done]. intros s Hs Hv. unfold jz_const_eval_expr, parser_init.
  by rewrite (lex_one_clamp s Hs Hv).
Qed.
