(* ===== verification/SymTab.v ===== *)
(** * Project symbols: [compiler/src/sem/driver_internal.h], [driver_project.c]
    and [driver.c]

    A symbol buffer is the list of its symbols; its [data] pointer is [NULL]
    exactly when the list is empty.  Of a symbol, the fields that lookups
    read are kept.  A pointer to a node of the tree is the node together with
    its position, the child indices on the way from the root; the code compares
    such pointers. *)

From S2P Require Import Prelude Util CString ConstEval Ast.

Local Open Scope Z_scope.

Inductive JZSymbolKind :=
  | JZ_SYM_MODULE | JZ_SYM_BLACKBOX | JZ_SYM_CONST | JZ_SYM_PORT | JZ_SYM_WIRE
  | JZ_SYM_REGISTER | JZ_SYM_LATCH | JZ_SYM_MEM | JZ_SYM_MUX | JZ_SYM_INSTANCE
  | JZ_SYM_CONFIG | JZ_SYM_CLOCK | JZ_SYM_PIN | JZ_SYM_MAP_ENTRY | JZ_SYM_GLOBAL | JZ_SYM_BUS.

#[export] Instance JZSymbolKind_eq_dec : EqDecision JZSymbolKind.
Proof. solve_decision. Defined.

Definition Address := list nat.

Record JZSymbol := mkSymbol {
  sym_name : option string;
  sym_kind : JZSymbolKind;
  sym_node : option JZASTNode;
  sym_addr : Address
}.

Definition project_lookup (symbols : list JZSymbol) (name : string) (kind : JZSymbolKind) :
    option JZSymbol :=
  List.find (fun s => bool_decide (sym_kind s = kind) && field_is name (sym_name s)) symbols.

Definition project_lookup_module_or_blackbox (symbols : list JZSymbol) (name : string) : option JZSymbol :=
  List.find (fun s => field_is name (sym_name s) &&
                      bool_decide (sym_kind s ∈ [JZ_SYM_MODULE; JZ_SYM_BLACKBOX])) symbols.

(** A scope has a node. *)
Record JZModuleScope := mkScope {
  scope_name : option string;
  scope_node : JZASTNode;
  scope_addr : Address;
  scope_symbols : list JZSymbol
}.

Definition module_scope_lookup (scope : JZModuleScope) (name : string) : option JZSymbol :=
  List.find (fun s => field_is name (sym_name s)) (scope_symbols scope).

Definition module_scope_lookup_kind (scope : JZModuleScope) (name : string) (kind : JZSymbolKind) :
    option JZSymbol :=
  List.find (fun s => bool_decide (sym_kind s = kind) && field_is name (sym_name s)) (scope_symbols scope).

Definition find_module_scope_for_node (scopes : list JZModuleScope) (node : Address) : option JZModuleScope :=
  List.find (fun s => bool_decide (scope_addr s = node)) scopes.

(** ** Rewriting [CONFIG.name] to [name] *)

(** At a [C]: the name after [CONFIG] and a dot, and the number of characters
    the whole reference takes. *)
Definition config_ref (p : string) : option (string * nat) :=
  match strip_prefix "CONFIG" p with
  | None => None
  | Some q =>
      match drop_while isspace q with
      | String "." q =>
          let q := drop_while isspace q in
          match q with
          | String c _ =>
              if is_ident_start c then
                let r := drop_while is_ident_char q in
                Some (take_while is_ident_char q, (String.length p - String.length r)%nat)
              else None
          | EmptyString => None
          end
      | _ => None
      end
  end.

(** [prev] is the character before [p], and [skip] counts the characters that
    belong to a reference already written. *)
Fixpoint rewrite_config (prev : option ascii) (skip : nat) (p : string) : string :=
  match p with
  | EmptyString => EmptyString
  | String c p' =>
      match skip with
      | S skip' => rewrite_config (Some c) skip' p'
      | O =>
          let boundary := match prev with Some d => negb (is_ident_char d) | None => true end in
          match (if boundary then config_ref (String c p') else None) with
          | Some (name, n) => name +:+ rewrite_config (Some c) (pred n) p'
          | None => String c (rewrite_config (Some c) O p')
          end
      end
  end.

(** ** Evaluation in the project *)

(** The CONFIG entries as definitions. *)
Definition config_defs (symbols : list JZSymbol) : list JZConstDef :=
  flat_map (fun s =>
    match sym_kind s, sym_node s with
    | JZ_SYM_CONFIG, Some n =>
        match ast_name n, ast_text n with
        | Some name, Some text => [mkConstDef (Some name) (Some text)]
        | _, _ => []
        end
    | _, _ => []
    end) symbols.

Definition sem_eval_const_expr_in_project (expr : string) (symbols : list JZSymbol) : EvalResult :=
  let expr_to_use :=
    match symbols with [] => expr | _ => rewrite_config None O expr end in
  match config_defs symbols with
  | [] => jz_const_eval_expr expr_to_use
  | named =>
      let defs := named ++ [mkConstDef None (Some expr_to_use)] in
      let r := jz_const_eval_all defs (replicate (length defs) 0) in
      if eo_stuck r then Stuck
      else if eo_undefined r then Undefined
      else if eo_code r =? 0 then Value (value_of (eo_env r) (Z.of_nat (length named)))
      else Failed
  end.
