(* ===== verification/TbState.v ===== *)
(** * The state of a test: [compiler/src/sim/sim_state.h]

    Wires, bindings and counters of a running @testbench or @simulation, with
    the context of the design under test.  Printed output is not part of the
    state; a failure message is recorded as its kind, in the order of
    [failure_msgs] and with as many entries, allocation being assumed to
    succeed. *)

From S2P Require Import Prelude SimValue IR SimState.

Local Open Scope Z_scope.

Record SimTbWire := mkTbWire {
  tw_name : string;
  tw_value : SimValue;
  tw_width : Z;
  tw_is_clock : bool
}.

Record SimPortBinding := mkBinding {
  pb_port_signal_id : Z;
  pb_tb_wire_index : Z
}.

(** The messages given to [record_failure]; the first [Z] is a source line. *)
Inductive FailureMsg :=
  | MSG_Z_EXPRESSION
  | MSG_NO_CONVERGENCE
  | MSG_MALFORMED_EXPECT
  | MSG_Z_OBSERVED (line : Z) (is_equal : bool) (value : SimValue) (hi lo : Z)
  | MSG_EXPECT (line : Z) (is_equal : bool) (expected actual : SimValue)
  | MSG_MALFORMED_TRISTATE
  | MSG_TRISTATE (line : Z) (actual : SimValue)
  | MSG_TIMEOUT (line : Z).

Record SimTestState := mkTest {
  ts_tb_wires : list SimTbWire;
  ts_bindings : list SimPortBinding;
  ts_dut : SimContext;
  ts_runtime_error : bool;
  ts_dut_instance_name : option string;
  ts_num_failed : Z;
  ts_failure_msgs : list FailureMsg;
  ts_num_expects : Z;
  ts_num_passed : Z;
  ts_cycle_count : Z
}.

(** ** Field updates *)

Definition set_wires (w : list SimTbWire) (t : SimTestState) : SimTestState :=
  mkTest w (ts_bindings t) (ts_dut t) (ts_runtime_error t) (ts_dut_instance_name t)
    (ts_num_failed t) (ts_failure_msgs t) (ts_num_expects t) (ts_num_passed t)
    (ts_cycle_count t).
Definition set_dut (c : SimContext) (t : SimTestState) : SimTestState :=
  mkTest (ts_tb_wires t) (ts_bindings t) c (ts_runtime_error t) (ts_dut_instance_name t)
    (ts_num_failed t) (ts_failure_msgs t) (ts_num_expects t) (ts_num_passed t)
    (ts_cycle_count t).
Definition set_ts_error (b : bool) (t : SimTestState) : SimTestState :=
  mkTest (ts_tb_wires t) (ts_bindings t) (ts_dut t) b (ts_dut_instance_name t)
    (ts_num_failed t) (ts_failure_msgs t) (ts_num_expects t) (ts_num_passed t)
    (ts_cycle_count t).
Definition add_cycles (n : Z) (t : SimTestState) : SimTestState :=
  mkTest (ts_tb_wires t) (ts_bindings t) (ts_dut t) (ts_runtime_error t)
    (ts_dut_instance_name t) (ts_num_failed t) (ts_failure_msgs t) (ts_num_expects t)
    (ts_num_passed t) (u64 (ts_cycle_count t + n)).
Definition count_expect (t : SimTestState) : SimTestState :=
  mkTest (ts_tb_wires t) (ts_bindings t) (ts_dut t) (ts_runtime_error t)
    (ts_dut_instance_name t) (ts_num_failed t) (ts_failure_msgs t) (ts_num_expects t + 1)
    (ts_num_passed t) (ts_cycle_count t).
Definition count_pass (t : SimTestState) : SimTestState :=
  mkTest (ts_tb_wires t) (ts_bindings t) (ts_dut t) (ts_runtime_error t)
    (ts_dut_instance_name t) (ts_num_failed t) (ts_failure_msgs t) (ts_num_expects t)
    (ts_num_passed t + 1) (ts_cycle_count t).

(** [ts->num_failed++; record_failure(ts, msg)]. *)
Definition record_failure (m : FailureMsg) (t : SimTestState) : SimTestState :=
  mkTest (ts_tb_wires t) (ts_bindings t) (ts_dut t) (ts_runtime_error t)
    (ts_dut_instance_name t) (ts_num_failed t + 1) (ts_failure_msgs t ++ [m])
    (ts_num_expects t) (ts_num_passed t) (ts_cycle_count t).

(** The state of the root instance of the design under test. *)
Definition ts_root (t : SimTestState) : SimModuleState := ctx_state (ts_dut t).
Definition set_root (s : SimModuleState) (t : SimTestState) : SimTestState :=
  set_dut (mkContext s (ctx_children (ts_dut t))) t.

(** ** Wires *)

Definition null_wire : SimTbWire := mkTbWire "" (sim_val_zero 1) 1 false.
Definition wire_at (t : SimTestState) (i : Z) : SimTbWire := aget null_wire (ts_tb_wires t) i.

Definition set_wire_value (v : SimValue) (w : SimTbWire) : SimTbWire :=
  mkTbWire (tw_name w) v (tw_width w) (tw_is_clock w).
Definition put_wire (i : Z) (v : SimValue) (t : SimTestState) : SimTestState :=
  set_wires (aset (ts_tb_wires t) i (set_wire_value v (wire_at t i))) t.

(** The index of the first wire with the name, [-1] if there is none. *)
Fixpoint find_wire (wires : list SimTbWire) (i : Z) (name : string) : Z :=
  match wires with
  | [] => -1
  | w :: ws => if String.eqb (tw_name w) name then i else find_wire ws (i + 1) name
  end.
Definition find_tb_wire (t : SimTestState) (name : string) : Z :=
  find_wire (ts_tb_wires t) 0 name.
