(* ===== verification/TbExpr.v ===== *)
(** * Expressions of test directives: [compiler/src/sim/sim_engine.c]

    The evaluator works on the syntax tree directly.  [symbols] stands for the
    global [g_tb_expr_project_symbols]. *)

From S2P Require Import Prelude Util CString SimValue Digits ConstEval Ast SymTab IR SimState TbState.

Local Open Scope Z_scope.
Local Open Scope jz_scope.

(** ** Literals *)

(** The digits left of the apostrophe's base, most significant first; [idx] is
    the position of the next digit. *)
Fixpoint literal_bits (digits : string) (idx : Z) (words : list Z) (is_z : bool) :
    list Z * bool :=
  match digits with
  | EmptyString => (words, is_z)
  | String c digits' =>
      if Ascii.eqb c "_" then literal_bits digits' idx words is_z
      else if Ascii.eqb c "1" && (0 <=? idx) && (idx <? SIM_VAL_WORDS * 64) then
        literal_bits digits' (idx - 1)
          (aset words (idx / 64) (aget 0 words (idx / 64) .| (1 .<< (idx mod 64)))) is_z
      else literal_bits digits' (idx - 1) words (is_z || is_letter "z" c)
  end.

Fixpoint literal_nibbles (digits : string) (idx : Z) (words : list Z) (is_z : bool) :
    list Z * bool :=
  match digits with
  | EmptyString => (words, is_z)
  | String c digits' =>
      if Ascii.eqb c "_" then literal_nibbles digits' idx words is_z
      else
        match nibble_of c with
        | Some n => literal_nibbles digits' (idx - 1) (put_nibble idx n words) is_z
        | None => literal_nibbles digits' (idx - 1) words (is_z || is_letter "z" c)
        end
  end.

Definition parse_literal_to_simval (text : option string) : SimValue :=
  match text with
  | None => sim_val_zero 1
  | Some text =>
      match split_at "'" text with
      | None => sim_val_from_uint (strtoul10 text) 32
      | Some (_, rest) =>
          let width := i32 (strtol10 text) in
          let width := if width <=? 0 then 1 else width in
          let width := if SIM_VAL_WORDS * 64 <? width then SIM_VAL_WORDS * 64 else width in
          let '(words, is_z) :=
            match rest with
            | EmptyString => (zero_words, false)
            | String base digits =>
                let last := count_digits digits - 1 in
                if is_letter "b" base then literal_bits digits last zero_words false
                else if is_letter "h" base then literal_nibbles digits last zero_words false
                else if is_letter "d" base then (aset zero_words 0 (strtoul10 digits), false)
                else (zero_words, false)
            end in
          if is_z then sim_val_all_z width else sim_val_from_words words SIM_VAL_WORDS width
      end
  end.

(** ** Calls of [lit] *)

(** Scan the argument list: the positions of the first comma and of the
    closing parenthesis at the outer level. *)
Fixpoint scan_call (p : string) (i : nat) (depth : Z) (comma : option nat) :
    option nat * option nat :=
  match p with
  | EmptyString => (comma, None)
  | String c p' =>
      if Ascii.eqb c "(" then scan_call p' (S i) (depth + 1) comma
      else if Ascii.eqb c ")" then
        if depth =? 0 then (comma, Some i) else scan_call p' (S i) (depth - 1) comma
      else if Ascii.eqb c "," && (depth =? 0) then
        scan_call p' (S i) depth (match comma with None => Some i | _ => comma end)
      else scan_call p' (S i) depth comma
  end.

(** Drop the white space at both ends. *)
Definition trim_right (s : string) : string :=
  string_rev (drop_while isspace (string_rev s)).
Definition trim (s : string) : string := trim_right (drop_while isspace s).

(** An evaluation whose arithmetic is undefined in C counts as failed. *)
Definition eval_lit_call_to_simval (expr : string) (symbols : list JZSymbol) : option SimValue :=
  match strip_prefix "lit" (drop_while isspace expr) with
  | None => None
  | Some p =>
      match drop_while isspace p with
      | String "(" args =>
          match scan_call args O 0 None with
          | (Some comma, Some close) =>
              let w_expr := trim (String.substring 0 comma args) in
              let v_expr := trim (String.substring (S comma) (close - S comma) args) in
              if String.eqb w_expr "" || String.eqb v_expr "" then None
              else
                match sem_eval_const_expr_in_project w_expr symbols,
                      sem_eval_const_expr_in_project v_expr symbols with
                | Value width_value, Value literal_value =>
                    if (width_value <=? 0) || (literal_value <? 0)
                       || (SIM_VAL_WORDS * 64 <? width_value) then None
                    else Some (sim_val_from_uint (u64 literal_value) (i32 width_value))
                | _, _ => None
                end
          | _ => None
          end
      | _ => None
      end
  end.

(** ** Names *)

(** [ns.name] with both parts non-empty: [strchr(qname, '.')] and its tests. *)
Definition split_qualified (qname : string) : option (string * string) :=
  match split_at "." qname with
  | Some (ns, rest) => if String.eqb ns "" || String.eqb rest "" then None else Some (ns, rest)
  | None => None
  end.

Definition resolve_global_const_simval (symbols : list JZSymbol) (qname : string) :
    option SimValue :=
  match split_qualified qname with
  | None => None
  | Some (ns, member) =>
      if (256 <=? String.length ns)%nat then None
      else
        match project_lookup symbols ns JZ_SYM_GLOBAL with
        | Some (mkSymbol _ _ (Some node) _) =>
            let wanted decl :=
              node_is JZ_AST_CONST_DECL decl && field_is member (ast_name decl)
                && match ast_text decl with Some _ => true | None => false end in
            match List.find wanted (ast_children node) with
            | Some decl =>
                match ast_text decl with
                | Some text =>
                    match split_at "'" text with
                    | Some _ => Some (parse_literal_to_simval (Some text))
                    | None => eval_lit_call_to_simval text symbols
                    end
                | None => None
                end
            | None => None
            end
        | _ => None
        end
  end.

(** The current value of a signal of one instance, by name. *)
Definition named_signal (s : SimModuleState) (name : string) : option SimValue :=
  match List.find (fun sig => String.eqb (sig_name sig) name) (mod_signals (ctx_module s)) with
  | Some sig => option_map (fun i => se_current (entry_at s i)) (sim_ctx_lookup s (sig_id sig))
  | None => None
  end.

(** The recursion follows the instance hierarchy.  As the recursive call is
    made on the first instance with the name, the scan of the children stops
    there. *)
Fixpoint resolve_ctx_signal_value (ctx : SimContext) (path : string) : option SimValue :=
  match ctx with
  | mkContext s children =>
      if String.eqb path "" then None
      else
        match split_at "." path with
        | None => named_signal s path
        | Some (inst, rest) =>
            if String.eqb inst "" || String.eqb rest "" then None
            else
              (fix scan (children : list (SimChildInstance SimContext)) : option SimValue :=
                 match children with
                 | [] => None
                 | mkChild (Some c) i _ _ _ :: children' =>
                     if String.eqb (inst_name i) inst then resolve_ctx_signal_value c rest
                     else scan children'
                 | mkChild None _ _ _ _ :: children' => scan children'
                 end) children
        end
  end.

Definition resolve_tb_hier_signal_simval (t : SimTestState) (qname : string) : option SimValue :=
  match ts_dut_instance_name t, split_qualified qname with
  | Some inst, Some (root, rest) =>
      if String.eqb inst root then resolve_ctx_signal_value (ts_dut t) rest else None
  | _, _ => None
  end.

(** ** Expressions *)

(** The operator names of the evaluator. *)
Definition tb_binary (op : string) : option (SimValue -> SimValue -> SimValue) :=
  if String.eqb op "EQ" then Some sim_val_eq
  else if String.eqb op "NEQ" then Some sim_val_neq
  else if String.eqb op "LT" then Some sim_val_lt
  else if String.eqb op "GT" then Some sim_val_gt
  else if String.eqb op "LTE" then Some sim_val_lte
  else if String.eqb op "GTE" then Some sim_val_gte
  else if String.eqb op "AND" then Some sim_val_and
  else if String.eqb op "OR" then Some sim_val_or
  else if String.eqb op "XOR" then Some sim_val_xor
  else if String.eqb op "ADD" then Some sim_val_add
  else if String.eqb op "SUB" then Some sim_val_sub
  else if String.eqb op "MUL" then Some sim_val_mul
  else if String.eqb op "DIV" then Some sim_val_div
  else if String.eqb op "MOD" then Some sim_val_mod
  else if String.eqb op "SHL" then Some sim_val_shl
  else if String.eqb op "SHR" then Some sim_val_shr
  else if String.eqb op "LOG_AND" then Some sim_val_logical_and
  else if String.eqb op "LOG_OR" then Some sim_val_logical_or
  else None.

Definition tb_unary (op : string) : option (SimValue -> SimValue) :=
  if String.eqb op "NOT" then Some sim_val_not
  else if String.eqb op "LOG_NOT" then Some sim_val_logical_not
  else if String.eqb op "NEG" then Some sim_val_neg
  else None.

Definition unknown_bit : SimValue := sim_val_all_x 1.

(** [sscanf(name, "%d:%d", &msb, &lsb)] with both variables 0 before. *)
Definition scan_range (s : string) : Z * Z :=
  match scan_int s with
  | None => (0, 0)
  | Some (msb, rest) =>
      match rest with
      | String ":" rest => (msb, match scan_int rest with Some (lsb, _) => lsb | None => 0 end)
      | _ => (msb, 0)
      end
  end.

Section Eval.
Context (symbols : list JZSymbol) (t : SimTestState).

Definition eval_tb_name (qualified : bool) (name : string) : SimValue :=
  let idx := find_tb_wire t name in
  if 0 <=? idx then tw_value (wire_at t idx)
  else if qualified then
    match resolve_global_const_simval symbols name with
    | Some v => v
    | None =>
        match resolve_tb_hier_signal_simval t name with
        | Some v => v
        | None => unknown_bit
        end
    end
  else unknown_bit.

Definition or_text (text : option string) : SimValue :=
  match text with Some _ => parse_literal_to_simval text | None => unknown_bit end.

Fixpoint eval_tb_ast_expr (node : JZASTNode) : SimValue :=
  match node with
  | mkNode ty _ name block_kind text _ cs =>
      match ty, cs with
      | JZ_AST_EXPR_LITERAL, _ => parse_literal_to_simval text
      | JZ_AST_EXPR_IDENTIFIER, _ =>
          match name with Some n => eval_tb_name false n | None => unknown_bit end
      | JZ_AST_EXPR_QUALIFIED_IDENTIFIER, _ =>
          match name with Some n => eval_tb_name true n | None => unknown_bit end
      | JZ_AST_EXPR_BINARY, l :: r :: _ =>
          match block_kind ≫= tb_binary with
          | Some f => f (eval_tb_ast_expr l) (eval_tb_ast_expr r)
          | None => unknown_bit
          end
      | JZ_AST_EXPR_UNARY, e :: _ =>
          match block_kind ≫= tb_unary with
          | Some f => f (eval_tb_ast_expr e)
          | None => unknown_bit
          end
      | JZ_AST_EXPR_SLICE, e :: _ =>
          match name with
          | Some range =>
              let '(msb, lsb) := scan_range range in
              sim_val_slice (eval_tb_ast_expr e) msb lsb
          | None => unknown_bit
          end
      | JZ_AST_EXPR_CONCAT, _ :: _ => sim_val_concat (take 64 (map eval_tb_ast_expr cs))
      | JZ_AST_EXPR_TERNARY, c :: a :: b :: _ =>
          sim_val_ternary (eval_tb_ast_expr c) (eval_tb_ast_expr a) (eval_tb_ast_expr b)
      | JZ_AST_EXPR_BINARY, _ | JZ_AST_EXPR_UNARY, _ | JZ_AST_EXPR_SLICE, _
      | JZ_AST_EXPR_CONCAT, _ | JZ_AST_EXPR_TERNARY, _ => unknown_bit
      | _, _ => or_text text
      end
  end.
End Eval.
