(* ===== verification/TbDecls.v ===== *)
(** * Declarations of a test: [compiler/src/sim/sim_engine.c]

    The wires a @testbench or @simulation declares, BUS wires expanded, and
    the bindings of the ports of the design under test to them.  The passes
    that only count entries to size an array are folded into the lists; the
    limit on their total is kept. *)

From S2P Require Import Prelude CString Ast SimValue IR TbState.

Local Open Scope Z_scope.

(** A string that the syntax tree always carries. *)
Definition str (s : option string) : string := default "" s.

Definition find_port_signal_id (m : IR_Module) (name : string) : Z :=
  match
    List.find (fun sig =>
      match sig_kind sig with SIG_PORT => String.eqb (sig_name sig) name | _ => false end)
      (mod_signals m)
  with Some sig => sig_id sig | None => -1 end.

(** ** BUS definitions *)

Definition tb_bus_def_has_signal (bus_def : JZASTNode) (signal_name : string) : bool :=
  negb (String.eqb signal_name "")
  && existsb (fun decl => node_is JZ_AST_BUS_DECL decl && field_is signal_name (ast_name decl))
       (ast_children bus_def).

(** [prefix_member] or [prefixN_member], for a member of the BUS. *)
Definition tb_bus_shorthand_matches_signal (bus_def : option JZASTNode)
    (port_prefix signal_name : string) : bool :=
  match bus_def, strip_prefix port_prefix signal_name with
  | Some bus, Some tail =>
      let digit_tail := drop_while isdigit tail in
      match tail with
      | EmptyString => false
      | String c member =>
          if Ascii.eqb c "_" then tb_bus_def_has_signal bus member
          else if isdigit c then
            match digit_tail with
            | String "_" member => tb_bus_def_has_signal bus member
            | _ => false
            end
          else false
      end
  | _, _ => false
  end.

(** The root's own children first, then those of its tests. *)
Definition find_bus_def (root : JZASTNode) (bus_name : option string) : option JZASTNode :=
  match bus_name with
  | None => None
  | Some name =>
      let is_bus c := node_is JZ_AST_BUS_BLOCK c && field_is name (ast_name c) in
      let is_test c := node_is JZ_AST_TESTBENCH c || node_is JZ_AST_SIMULATION c in
      match List.find is_bus (ast_children root) with
      | Some c => Some c
      | None =>
          List.find is_bus (flat_map ast_children (List.filter is_test (ast_children root)))
      end
  end.

(** The signals of a BUS, in order. *)
Definition bus_decls (bus_def : option JZASTNode) : list JZASTNode :=
  match bus_def with
  | Some b => List.filter (node_is JZ_AST_BUS_DECL) (ast_children b)
  | None => []
  end.

Definition count_bus_signals (bus_def : option JZASTNode) : Z :=
  Z.of_nat (length (bus_decls bus_def)).

Definition parse_width_text (text : option string) : Z :=
  match text with
  | None => 1
  | Some text =>
      let w := i32 (strtol10 (drop_while (fun c => Ascii.eqb c "[" || Ascii.eqb c " ") text)) in
      if 0 <? w then w else 1
  end.

(** ** Wires *)

(** [None] is the C [-1]. *)
Definition parse_tb_bus_array_count (decl : JZASTNode) : option Z :=
  match ast_width decl with
  | None => Some 1
  | Some text =>
      let arr_count := strtol10 text in
      if strtol_erange text || (INT32_MAX <? arr_count) then None
      else Some (if arr_count <=? 0 then 1 else arr_count)
  end.

(** The name buffers have 128 bytes. *)
Definition name_buffer : nat := 127.

(** One element [ai] of a BUS wire: a wire for each of its signals. *)
Definition bus_element (decl : JZASTNode) (arr_count : Z) (decls : list JZASTNode) (ai : Z) :
    list SimTbWire :=
  map (fun bd =>
    let w := parse_width_text (ast_width bd) in
    let name :=
      if 1 <? arr_count then str (ast_name decl) +:+ print_decimal ai +:+ "_" +:+ str (ast_name bd)
      else str (ast_name decl) +:+ "_" +:+ str (ast_name bd) in
    mkTbWire (truncate name_buffer name) (sim_val_zero w) w false) decls.

(** The number of wires one declaration gives, and the wires. *)
Definition is_bus_wire (decl : JZASTNode) : bool := field_is "BUS" (ast_block_kind decl).

Definition wire_count (root decl : JZASTNode) : option Z :=
  if is_bus_wire decl then
    match parse_tb_bus_array_count decl with
    | Some n => Some (n * count_bus_signals (find_bus_def root (ast_text decl)))
    | None => None
    end
  else Some 1.

Definition wires_of (root decl : JZASTNode) : list SimTbWire :=
  if is_bus_wire decl then
    match parse_tb_bus_array_count decl with
    | Some n =>
        flat_map (bus_element decl n (bus_decls (find_bus_def root (ast_text decl))))
          (map Z.of_nat (seq 0 (Z.to_nat n)))
    | None => []
    end
  else
    let w := parse_width_text (ast_width decl) in
    [mkTbWire (str (ast_name decl)) (sim_val_zero w) w false].

(** The declarations of type [decl_type] in the blocks of type [block_type]. *)
Definition decls_in (block_type decl_type : JZASTNodeType) (container : JZASTNode) :
    list JZASTNode :=
  flat_map (fun block => List.filter (node_is decl_type) (ast_children block))
    (List.filter (node_is block_type) (ast_children container)).

Fixpoint sum_counts (l : list (option Z)) : option Z :=
  match l with
  | [] => Some 0
  | None :: _ => None
  | Some n :: l' => option_map (Z.add n) (sum_counts l')
  end.

(** Clocks first, then wires; [None] is the C [-1].  The C code also checks
    the partial sums, which are at most the total. *)
Definition collect_decls (container root : JZASTNode)
    (clock_block_type clock_decl_type : JZASTNodeType) : option (list SimTbWire) :=
  let clocks := decls_in clock_block_type clock_decl_type container in
  let wires := decls_in JZ_AST_TB_WIRE_BLOCK JZ_AST_TB_WIRE_DECL container in
  match sum_counts (map (wire_count root) wires) with
  | None => None
  | Some num_wires =>
      if INT32_MAX <? Z.of_nat (length clocks) + num_wires then None
      else
        Some (map (fun c => mkTbWire (str (ast_name c)) (sim_val_zero 1) 1 true) clocks
              ++ flat_map (wires_of root) wires)
  end.

(** ** Port bindings *)

(** The name on the right of a port in [@new]. *)
Definition bound_name (pd : JZASTNode) : option string :=
  match ast_children pd with
  | c :: _ => if node_is JZ_AST_EXPR_IDENTIFIER c then ast_name c else None
  | [] => None
  end.

Definition bind (wires : list SimTbWire) (sig_id : Z) (wire_name : string) : list SimPortBinding :=
  let wi := find_wire wires 0 wire_name in
  if wi <? 0 then [] else [mkBinding sig_id wi].

Definition bus_bindings (wires : list SimTbWire) (root pd : JZASTNode) (dut : IR_Module) :
    list SimPortBinding :=
  let bus_def := find_bus_def root (ast_text pd) in
  let port_prefix := str (ast_name pd) in
  match bound_name pd with
  | None => []
  | Some wire_prefix =>
      flat_map (fun sig =>
        match sig_kind sig, strip_prefix port_prefix (sig_name sig) with
        | SIG_PORT, Some tail =>
            if tb_bus_shorthand_matches_signal bus_def port_prefix (sig_name sig)
            then bind wires (sig_id sig) (truncate name_buffer (wire_prefix +:+ tail))
            else []
        | _, _ => []
        end) (mod_signals dut)
  end.

Definition port_binding (wires : list SimTbWire) (root : JZASTNode) (dut : IR_Module)
    (pd : JZASTNode) : list SimPortBinding :=
  if is_bus_wire pd then bus_bindings wires root pd dut
  else
    let sig_id := find_port_signal_id dut (str (ast_name pd)) in
    if sig_id <? 0 then []
    else
      match bound_name pd with
      | None => []
      | Some wire_name => bind wires sig_id wire_name
      end.

Definition build_port_bindings (wires : list SimTbWire) (root instance_node : JZASTNode)
    (dut : IR_Module) : list SimPortBinding :=
  flat_map (port_binding wires root dut)
    (List.filter (node_is JZ_AST_PORT_DECL) (ast_children instance_node)).
