(* ===== verification/SimEngine.v ===== *)
(** * Running tests: [compiler/src/sim/sim_engine.c]

    The machinery shared by @testbench and @simulation (propagation between
    wires and ports, settling with error reporting, clock edges), the
    directives of a test, and the test runner.  Printing and the verbose
    output are not modelled. *)

From S2P Require Import Prelude Util CString ConstEval Ast SymTab SimValue IR SimState SimEval SimExec TbState TbExpr TbDecls.

Local Open Scope Z_scope.
Local Open Scope jz_scope.

(** ** Settling with error reporting *)

Definition propagate_ctx_runtime_error (t : SimTestState) : SimTestState :=
  if ts_runtime_error t then t
  else if ctx_runtime_error (ts_root t) then
    record_failure MSG_Z_EXPRESSION (set_ts_error true t)
  else t.

Definition sim_settle_checked (t : SimTestState) : SimTestState :=
  let '(rc, dut) := sim_settle_combinational (ts_dut t) SIM_SETTLE_MAX_ITERS in
  let t := set_dut dut t in
  let t :=
    if negb (rc =? 0) && negb (ts_runtime_error t)
    then record_failure MSG_NO_CONVERGENCE (set_ts_error true t) else t in
  propagate_ctx_runtime_error t.

(** ** Wires and ports *)

(** The port of a binding, and the index of its entry. *)
Definition bound_port (t : SimTestState) (b : SimPortBinding) : option (IR_Signal * Z) :=
  let id := pb_port_signal_id b in
  match find_signal_in_ctx (ts_root t) id, sim_ctx_lookup (ts_root t) id with
  | Some sig, Some i => match sig_kind sig with SIG_PORT => Some (sig, i) | _ => None end
  | _, _ => None
  end.

(** The wire's value at the width of the port. *)
Definition at_port_width (sig : IR_Signal) (v : SimValue) : SimValue :=
  if negb (sv_width v =? sig_width sig) then sim_val_mask (set_width (sig_width sig) v) else v.

Definition wire_value (t : SimTestState) (b : SimPortBinding) : SimValue :=
  tw_value (wire_at t (pb_tb_wire_index b)).

Definition propagate_input_binding (t : SimTestState) (b : SimPortBinding) : SimTestState :=
  match bound_port t b with
  | Some (sig, i) =>
      match sig_direction sig with
      | PORT_IN | PORT_INOUT =>
          set_root
            (mark_dirty i (update_entry i (set_current (at_port_width sig (wire_value t b)))
                             (ts_root t))) t
      | PORT_OUT => t
      end
  | None => t
  end.

Definition sim_propagate_inputs (t : SimTestState) : SimTestState :=
  fold_left propagate_input_binding (ts_bindings t) t.

Definition propagate_output_binding (t : SimTestState) (b : SimPortBinding) : SimTestState :=
  match bound_port t b with
  | Some (sig, i) =>
      let current := se_current (entry_at (ts_root t) i) in
      match sig_direction sig with
      | PORT_OUT => put_wire (pb_tb_wire_index b) current t
      | PORT_INOUT =>
          if sim_val_is_all_z current then t else put_wire (pb_tb_wire_index b) current t
      | PORT_IN => t
      end
  | None => t
  end.

Definition sim_propagate_outputs (t : SimTestState) : SimTestState :=
  fold_left propagate_output_binding (ts_bindings t) t.

(** Unlike the input propagation this marks nothing dirty. *)
Definition resolve_inout_binding (t : SimTestState) (b : SimPortBinding) : SimTestState :=
  match bound_port t b with
  | Some (sig, i) =>
      match sig_direction sig with
      | PORT_INOUT =>
          if sim_val_is_all_z (se_current (entry_at (ts_root t) i)) then
            set_root (update_entry i (set_current (at_port_width sig (wire_value t b)))
                        (ts_root t)) t
          else t
      | _ => t
      end
  | None => t
  end.

Definition sim_resolve_inout_z (t : SimTestState) : SimTestState :=
  fold_left resolve_inout_binding (ts_bindings t) t.

(** Inputs, settling and the inout ports, without the outputs. *)
Definition settle_inputs (t : SimTestState) : SimTestState :=
  sim_resolve_inout_z (sim_settle_checked (sim_propagate_inputs t)).
Definition settle_outputs (t : SimTestState) : SimTestState :=
  sim_propagate_outputs (sim_resolve_inout_z (sim_settle_checked t)).

Definition sim_full_settle (t : SimTestState) : SimTestState :=
  sim_propagate_outputs (settle_inputs t).

(** ** Clock edges *)

Definition sim_apply_domain_reset (ctx : SimContext) (cd : IR_ClockDomain) : SimContext :=
  mkContext (fold_left reset_register (cd_register_ids cd) (ctx_state ctx)) (ctx_children ctx).

Definition is_active_edge (edge : IR_ClockEdge) (new_clk_val : Z) : bool :=
  match edge with
  | EDGE_RISING => new_clk_val =? 1
  | EDGE_FALLING => new_clk_val =? 0
  | EDGE_BOTH => true
  end.

(** A domain is considered for a clock port, or for any clock when the port
    id is negative. *)
Definition domain_matches (clock_port_id new_clk_val : Z) (cd : IR_ClockDomain) : bool :=
  negb ((0 <=? clock_port_id) && negb (cd_clock_signal_id cd =? clock_port_id))
  && is_active_edge (cd_edge cd) new_clk_val.

(** The reset test reads the same fields as the one of [sim_exec.c]. *)
Definition fire_domain (apply_nba_per_domain : bool) (d : Z) (cd : IR_ClockDomain)
    (ctx : SimContext) : SimContext :=
  let reset_active := child_in_reset (ctx_state ctx) cd in
  let ctx := if reset_active then sim_apply_domain_reset ctx cd else ctx in
  let ctx := sim_exec_sync_domain_with_children ctx d reset_active in
  if apply_nba_per_domain then sim_ctx_apply_nba ctx else ctx.

(** Domains [d], [d + 1], ... of the root module. *)
Fixpoint fire_domains (clock_port_id new_clk_val : Z) (apply_nba_per_domain : bool)
    (domains : list IR_ClockDomain) (d : Z) (ctx : SimContext) : SimContext :=
  match domains with
  | [] => ctx
  | cd :: domains' =>
      let ctx :=
        if domain_matches clock_port_id new_clk_val cd
        then fire_domain apply_nba_per_domain d cd ctx else ctx in
      fire_domains clock_port_id new_clk_val apply_nba_per_domain domains' (d + 1) ctx
  end.

Definition sim_fire_domains_for_clock (t : SimTestState) (clock_port_id new_clk_val : Z)
    (apply_nba_per_domain : bool) : SimTestState :=
  set_dut
    (fire_domains clock_port_id new_clk_val apply_nba_per_domain
       (mod_clock_domains (ctx_module (ts_root t))) 0 (ts_dut t)) t.

(** The port bound to a wire, [-1] if there is none: the first binding. *)
Definition port_of_wire (bindings : list SimPortBinding) (wire : Z) : Z :=
  match List.find (fun b => pb_tb_wire_index b =? wire) bindings with
  | Some b => pb_port_signal_id b
  | None => -1
  end.

Definition clock_level (t : SimTestState) (clock_idx : Z) : Z :=
  vget (tw_value (wire_at t clock_idx)) 0 .& 1.

Definition toggle_wire (clock_idx : Z) (t : SimTestState) : SimTestState :=
  put_wire clock_idx (sim_val_from_uint (clock_level t clock_idx .^ 1) 1) t.

(** One half period of a test clock. *)
Definition clock_half (clock_idx clock_port_id : Z) (t : SimTestState) : SimTestState :=
  let t := settle_inputs (toggle_wire clock_idx t) in
  let t := sim_fire_domains_for_clock t clock_port_id (clock_level t clock_idx) true in
  settle_outputs t.

Definition sim_clock_advance (t : SimTestState) (clock_name : string) (num_cycles : Z) :
    SimTestState :=
  let clock_idx := find_tb_wire t clock_name in
  if clock_idx <? 0 then t
  else
    let clock_port_id := port_of_wire (ts_bindings t) clock_idx in
    add_cycles num_cycles
      (for_up (Z.to_nat (2 * num_cycles)) (fun _ => clock_half clock_idx clock_port_id) t).

(** ** Directives *)

Section Directives.
Context (symbols : list JZSymbol).

(** A node that may be [NULL]. *)
Definition eval_tb_opt (t : SimTestState) (node : option JZASTNode) : SimValue :=
  match node with Some n => eval_tb_ast_expr symbols t n | None => unknown_bit end.

(** The target and the value of one assignment of the first pass. *)
Definition setup_assign (t : SimTestState) (stmt : JZASTNode) : option (Z * SimValue) :=
  match ast_children stmt with
  | lhs :: rhs :: _ =>
      if node_is JZ_AST_STMT_ASSIGN stmt && node_is JZ_AST_EXPR_IDENTIFIER lhs then
        let wi := find_tb_wire t (default "" (ast_name lhs)) in
        if wi <? 0 then None
        else
          Some (wi, sim_val_mask (set_width (tw_width (wire_at t wi)) (eval_tb_ast_expr symbols t rhs)))
      else None
  | _ => None
  end.

(** The arrays have 256 entries. *)
Definition setup_assigns (t : SimTestState) (stmts : list JZASTNode) : list (Z * SimValue) :=
  take 256 (omap (setup_assign t) stmts).

Definition apply_assigns (assigns : list (Z * SimValue)) (t : SimTestState) : SimTestState :=
  fold_left (fun t a => put_wire a.1 a.2 t) assigns t.

Definition process_setup_update (t : SimTestState) (node : JZASTNode) : SimTestState :=
  sim_full_settle (apply_assigns (setup_assigns t (ast_children node)) t).

(** The lowest and the highest bit that is x or z. *)
Definition unknown_at (v : SimValue) (b : Z) : bool :=
  negb (((zget v (b / 64) .| xget v (b / 64)) .>> (b mod 64)) .& 1 =? 0).
Definition unknown_range (v : SimValue) : Z * Z :=
  for_up (Z.to_nat (sv_width v)) (fun b lohi =>
    if unknown_at v b then (if fst lohi <? 0 then b else fst lohi, b) else lohi) (-1, -1).

Definition node_line (n : JZASTNode) : Z := loc_line (ast_loc n).

Definition process_expect (t : SimTestState) (node : JZASTNode) (is_equal : bool) :
    SimTestState :=
  let t := count_expect t in
  match ast_children node with
  | sig_node :: val_node :: _ =>
      let actual := eval_tb_ast_expr symbols t sig_node in
      let expected := eval_tb_ast_expr symbols t val_node in
      if sim_val_has_xz actual then
        let '(lo, hi) := unknown_range actual in
        record_failure (MSG_Z_OBSERVED (node_line node) is_equal actual hi lo)
          (set_ts_error true t)
      else
        let pass :=
          sim_val_is_true ((if is_equal then sim_val_eq else sim_val_neq) actual expected) =? 1 in
        if pass then count_pass t
        else
          record_failure
            (MSG_EXPECT (node_line node) is_equal expected (set_width (sv_width expected) actual)) t
  | _ => record_failure MSG_MALFORMED_EXPECT t
  end.

Definition process_expect_tristate (t : SimTestState) (node : JZASTNode) : SimTestState :=
  let t := count_expect t in
  match ast_children node with
  | sig_node :: _ =>
      let actual := eval_tb_ast_expr symbols t sig_node in
      if sim_val_is_all_z actual then count_pass t
      else record_failure (MSG_TRISTATE (node_line node) actual) t
  | [] => record_failure MSG_MALFORMED_TRISTATE t
  end.

(** ** Tests *)

Definition clock_cycles (node : JZASTNode) : Z :=
  match ast_text node with
  | Some text => let c := i32 (strtol10 text) in if c <=? 0 then 1 else c
  | None => 1
  end.

(** One directive; [@print] only writes output. *)
Definition test_step (t : SimTestState) (child : JZASTNode) : SimTestState :=
  match ast_type child with
  | JZ_AST_TB_SETUP | JZ_AST_TB_UPDATE => process_setup_update t child
  | JZ_AST_TB_CLOCK_ADV =>
      propagate_ctx_runtime_error
        (sim_clock_advance t (default "" (ast_name child)) (clock_cycles child))
  | JZ_AST_TB_EXPECT_EQ => process_expect t child true
  | JZ_AST_TB_EXPECT_NEQ => process_expect t child false
  | JZ_AST_TB_EXPECT_TRI => process_expect_tristate t child
  | _ => t
  end.

(** The directives in order, until a runtime error. *)
Fixpoint test_steps (t : SimTestState) (children : list JZASTNode) : SimTestState :=
  match children with
  | [] => t
  | child :: children' =>
      if ts_runtime_error t then t else test_steps (test_step t child) children'
  end.

Definition new_test (wires : list SimTbWire) (bindings : list SimPortBinding) (dut : SimContext)
    (instance_name : option string) : SimTestState :=
  mkTest wires bindings dut false instance_name 0 [] 0 0 0.

(** The state after the last directive; [None] when the set-up fails.  [fuel]
    bounds the depth of the instance hierarchy. *)
Definition run_test_body (fuel : nat) (root tb_node test_node : JZASTNode) (dut_module : IR_Module)
    (design : IR_Design) (seed : Z) : option SimTestState :=
  match collect_decls tb_node root JZ_AST_TB_CLOCK_BLOCK JZ_AST_TB_CLOCK_DECL,
        List.find (node_is JZ_AST_MODULE_INSTANCE) (ast_children test_node) with
  | Some wires, Some instance_node =>
      match sim_ctx_create fuel dut_module design seed with
      | Created (Some dut) =>
          let bindings := build_port_bindings wires root instance_node dut_module in
          let t := sim_full_settle (new_test wires bindings dut (ast_name instance_node)) in
          Some (test_steps t (ast_children test_node))
      | _ => None
      end
  | _, _ => None
  end.

(** 0 when the test passes. *)
Definition sim_run_test (fuel : nat) (root tb_node test_node : JZASTNode) (dut_module : IR_Module)
    (design : IR_Design) (seed : Z) : Z :=
  match run_test_body fuel root tb_node test_node dut_module design seed with
  | Some t => if ts_num_failed t =? 0 then 0 else 1
  | None => 1
  end.

Definition find_module_by_name (design : IR_Design) (name : string) : option IR_Module :=
  List.find (fun m => String.eqb (mod_name m) name) (design_modules design).

(** Counters of the run: tests, passed, failed. *)
Definition run_testbench (fuel : nat) (root : JZASTNode) (design : IR_Design) (seed : Z)
    (totals : Z * Z * Z) (tb : JZASTNode) : Z * Z * Z :=
  match find_module_by_name design (default "" (ast_name tb)) with
  | None => totals
  | Some dut_module =>
      fold_left (fun totals test =>
        let '(total, passed, failed) := totals in
        if sim_run_test fuel root tb test dut_module design seed =? 0
        then (total + 1, passed + 1, failed) else (total + 1, passed, failed + 1))
        (List.filter (node_is JZ_AST_TB_TEST) (ast_children tb)) totals
  end.

(** The exit status; the symbol tables have been built. *)
Definition jz_sim_run_testbenches (fuel : nat) (root : JZASTNode) (design : IR_Design) (seed : Z) : Z :=
  let testbenches := List.filter (node_is JZ_AST_TESTBENCH) (ast_children root) in
  let '(_, _, failed) :=
    fold_left (run_testbench fuel root design seed) testbenches (0, 0, 0) in
  if 0 <? failed then 1 else 0.
End Directives.
