(* ===== verification/SimEdge.v ===== *)
(** * Clock edges as simultaneous updates

    An abstract synchronous machine: the values of the signals by id, the
    memories by name, and the updates scheduled during an edge.  Statements
    have a big-step semantics in which expressions read the values from before
    the edge; the commit replaces all of them at once.  The simulator's state,
    with its id map, pending flags and dirty flags, is viewed as such a machine
    by [view], and its non-blocking execution, commit and reset are shown to
    commute with the view. *)

From stdpp Require Import gmap.
From S2P Require Import Prelude SimValue IR SimState SimEval SimDeps SimExec SimExecInv SimSettle SimFixpoint SimLiveness TbState SimEngine.

Local Open Scope Z_scope.

(** ** The machine *)

Record Machine := mkMachine {
  m_signals : gmap Z SimValue;
  m_memories : gmap string SimMemEntry;
  m_updates : gmap Z SimValue;
  m_error : bool
}.

#[export] Instance machine_store : SignalStore Machine := {
  sig_current m id := m_signals m !! id;
  mem_entry m name := m_memories m !! name
}.

Definition raise (b : bool) (m : Machine) : Machine :=
  mkMachine (m_signals m) (m_memories m) (m_updates m) (m_error m || b).
Definition schedule (id : Z) (v : SimValue) (m : Machine) : Machine :=
  mkMachine (m_signals m) (m_memories m) (<[id := v]> (m_updates m)) (m_error m).
Definition store_memory (name : string) (me : SimMemEntry) (m : Machine) : Machine :=
  mkMachine (m_signals m) (<[name := me]> (m_memories m)) (m_updates m) (m_error m).

(** The machine after an expression has been evaluated. *)
Definition evaluated (e : IR_Expr) (m : Machine) : Machine := raise (eval_raises m e) m.

(** The new value of a target: the whole of it, or the part-select of what is
    scheduled already, or else of its value. *)
Definition assign_update (a : IR_Assignment) (m : Machine) : Machine :=
  let id := asgn_lhs_signal_id a in
  match m_signals m !! id with
  | None => m
  | Some old =>
      let v := extend_rhs (asgn_kind a) (eval_value m (asgn_rhs a)) (sv_width old) in
      let v :=
        if asgn_is_sliced a
        then write_slice (default old (m_updates m !! id)) v (asgn_lhs_msb a) (asgn_lhs_lsb a)
        else v in
      schedule id v (evaluated (asgn_rhs a) m)
  end.

(** Memory words are written at once. *)
Definition memory_update (name : string) (address data : IR_Expr) (m : Machine) : Machine :=
  match m_memories m !! name with
  | None => m
  | Some me =>
      let m' := evaluated data (evaluated address m) in
      match sim_value_to_mem_index (eval_value m address) (me_depth me) with
      | None => m'
      | Some idx => store_memory name (set_cell idx (eval_value m data) me) m'
      end
  end.

(** The body a select runs, and the machine once its case values have been
    evaluated. *)
Fixpoint pick_case (selector : SimValue) (cases : list (IR_Expr * IR_Stmt)) (m : Machine) :
    Machine * IR_Stmt :=
  match cases with
  | [] => (m, NullStmt)
  | (case_value, body) :: cases' =>
      if expr_is_null case_value then (m, body)
      else
        let m' := evaluated case_value m in
        if sim_val_is_true (sim_val_eq selector (eval_value m case_value)) =? 1 then (m', body)
        else pick_case selector cases' m'
  end.

(** ** Big steps *)

Inductive runs : IR_Stmt -> Machine -> Machine -> Prop :=
  | runs_null m : runs NullStmt m m
  | runs_assign a m : runs (StmtAssignment a) m (assign_update a m)
  | runs_memory name port address data m :
      runs (StmtMemWrite name port address data) m (memory_update name address data m)
  | runs_if_unknown c t el els m :
      sim_val_is_true (eval_value m c) = -1 -> runs (StmtIf c t el els) m (raise true (evaluated c m))
  | runs_if_true c t el els m m' :
      sim_val_is_true (eval_value m c) = 1 -> runs t (evaluated c m) m' ->
      runs (StmtIf c t el els) m m'
  | runs_if_false c t el els m m' :
      sim_val_is_true (eval_value m c) <> -1 -> sim_val_is_true (eval_value m c) <> 1 ->
      runs (elif_stmt els el) (evaluated c m) m' -> runs (StmtIf c t el els) m m'
  | runs_select_unknown sel cases m :
      sim_val_has_xz (eval_value m sel) = true ->
      runs (StmtSelect sel cases) m (raise true (evaluated sel m))
  | runs_select sel cases m m1 body m' :
      sim_val_has_xz (eval_value m sel) = false ->
      pick_case (eval_value m sel) cases (evaluated sel m) = (m1, body) ->
      runs body m1 m' -> runs (StmtSelect sel cases) m m'
  | runs_nil m : runs (StmtBlock []) m m
  | runs_cons s ss m m1 m' :
      runs s m m1 -> runs (StmtBlock ss) m1 m' -> runs (StmtBlock (s :: ss)) m m'.

Lemma runs_deterministic stmt m m1 m2 : runs stmt m m1 -> runs stmt m m2 -> m1 = m2.
Proof.
  intros H. revert m2. induction H; intros m2 H2; inversion H2; subst; try done; try congruence; auto.
  - apply IHruns. congruence.
  - match goal with H : runs ss _ _ |- _ => idtac | H : runs s m ?x |- _ => apply IHruns1 in H as <- end.
    auto.
Qed.

(** ** Edges *)

(** All scheduled updates take effect at once. *)
Definition commit (m : Machine) : Machine :=
  mkMachine (m_updates m ∪ m_signals m) (m_memories m) ∅ (m_error m).

(** The level of the reset of a domain, read from the machine. *)
Definition reset_asserted (cd : IR_ClockDomain) (m : Machine) : bool :=
  if 0 <=? cd_reset_signal_id cd then
    match m_signals m !! cd_reset_signal_id cd with
    | None => false
    | Some v =>
        Z.land (vget v 0) 1 =?
          match cd_reset_active cd with RESET_ACTIVE_HIGH => 1 | RESET_ACTIVE_LOW => 0 end
    end
  else false.

(** The literal a register is reset to, at its width. *)
Definition reset_value (sig : IR_Signal) : SimValue :=
  let lit := sig_reset_value sig in
  let rv := sim_val_from_words (lit_words lit) IR_LIT_WORDS (lit_width lit) in
  if negb (sv_width rv =? sig_width sig) then sim_val_zext rv (sig_width sig) else rv.

(** [decl] gives the declaration of an id. *)
Definition reset_signal (decl : Z -> option IR_Signal) (sigs : gmap Z SimValue) (id : Z) :
    gmap Z SimValue :=
  match decl id with
  | Some sig =>
      match sig_kind sig with SIG_REGISTER => <[id := reset_value sig]> sigs | _ => sigs end
  | None => sigs
  end.

Definition reset_all (decl : Z -> option IR_Signal) (ids : list Z) (m : Machine) : Machine :=
  mkMachine (fold_left (reset_signal decl) ids (m_signals m)) (m_memories m) (m_updates m)
    (m_error m).

(** One domain at an edge: under reset its registers take their reset values
    and nothing runs; otherwise its statements run. *)
Inductive domain_step (decl : Z -> option IR_Signal) (cd : IR_ClockDomain) :
    Machine -> Machine -> Prop :=
  | domain_reset m :
      reset_asserted cd m = true -> domain_step decl cd m (reset_all decl (cd_register_ids cd) m)
  | domain_run m m' :
      reset_asserted cd m = false -> runs (cd_statements cd) m m' -> domain_step decl cd m m'.

Definition commit_if (b : bool) (m : Machine) : Machine := if b then commit m else m.

(** The domains of an edge, in order; the updates of each are committed before
    the next when [per_domain].  An instance below, if there is any, may raise
    the error flag. *)
Inductive fires (decl : Z -> option IR_Signal) (per_domain nested : bool) :
    list IR_ClockDomain -> Machine -> Machine -> Prop :=
  | fires_nil m : fires decl per_domain nested [] m m
  | fires_cons cd cds m m1 b m' :
      domain_step decl cd m m1 -> (b = true -> nested = true) ->
      fires decl per_domain nested cds (commit_if per_domain (raise b m1)) m' ->
      fires decl per_domain nested (cd :: cds) m m'.

Lemma domain_step_deterministic decl cd m m1 m2 :
  domain_step decl cd m m1 -> domain_step decl cd m m2 -> m1 = m2.
Proof.
  intros [] H2; inversion H2; subst; try done; try congruence. by eapply runs_deterministic.
Qed.

Lemma fires_deterministic decl p cds m m1 m2 :
  fires decl p false cds m m1 -> fires decl p false cds m m2 -> m1 = m2.
Proof.
  intros H. revert m2. induction H as [|cd cds m n b m1 Hd Hb _ IH]; intros m2 H2;
    inversion H2 as [|? ? ? n' b' ? Hd' Hb' H']; subst; [done|].
  apply IH. rewrite (domain_step_deterministic _ _ _ _ _ Hd Hd').
  destruct b, b'; try done; [by specialize (Hb eq_refl)..|by specialize (Hb' eq_refl)].
Qed.

(** ** The simulator's state as a machine *)

Definition pending_of (s : SimModuleState) (id : Z) : option SimValue :=
  sim_ctx_lookup s id ≫= fun i =>
    if se_has_pending (entry_at s i) then Some (se_next (entry_at s i)) else None.

Definition tabulate {K A} `{Countable K} (f : K -> option A) (keys : list K) : gmap K A :=
  list_to_map (omap (fun k => pair k <$> f k) keys).

Definition view (s : SimModuleState) : Machine :=
  let ids := seqZ 0 (ctx_max_sig_id s + 1) in
  mkMachine (tabulate (sig_current s) ids)
    (tabulate (mem_entry s) (map mem_name (mod_memories (ctx_module s))))
    (tabulate (pending_of s) ids) (ctx_runtime_error s).

Lemma tabulate_lookup {K A} `{Countable K} (f : K -> option A) keys k :
  (forall v, f k = Some v -> k ∈ keys) -> tabulate f keys !! k = f k.
Proof.
  intros Hk. unfold tabulate.
  assert (forall v, f k = Some v -> k ∈ keys -> (list_to_map (omap (fun k => pair k <$> f k) keys)
    : gmap K A) !! k = Some v) as Hin.
  { intros v Hv. induction keys as [|k' keys IH]; intros Hkeys; [by apply not_elem_of_nil in Hkeys|].
    cbn. destruct (decide (k' = k)) as [->|Hne].
    - rewrite Hv. cbn. apply lookup_insert_eq.
    - apply elem_of_cons in Hkeys as [->|Hkeys]; [done|].
      destruct (f k') as [w|]; cbn; [rewrite lookup_insert_ne by done|];
        apply IH; try done; by intros. }
  destruct (f k) as [v|] eqn:E; [apply Hin; [done|by eapply Hk]|].
  clear Hin Hk. induction keys as [|k' keys IH]; [done|]. cbn.
  destruct (f k') as [w|] eqn:E'; cbn; [|done].
  rewrite lookup_insert_ne; [done|]. intros ->. congruence.
Qed.

(** [m] is the machine [s] is seen as; maps are compared by lookups. *)
Record represents (s : SimModuleState) (m : Machine) : Prop := {
  rp_signals : forall id, m_signals m !! id = sig_current s id;
  rp_memories : forall name, m_memories m !! name = mem_entry s name;
  rp_updates : forall id, m_updates m !! id = pending_of s id;
  rp_error : m_error m = ctx_runtime_error s
}.

Lemma represents_eq s m m' : represents s m -> represents s m' -> m = m'.
Proof.
  intros [A1 A2 A3 A4] [B1 B2 B3 B4]. destruct m, m'. cbn in *.
  f_equal; try (apply map_eq; intros k; congruence). congruence.
Qed.

Lemma lookup_bounds s id i : sim_ctx_lookup s id = Some i -> 0 <= id <= ctx_max_sig_id s.
Proof.
  unfold sim_ctx_lookup. destruct (Z.leb_spec 0 id); [|done].
  destruct (Z.leb_spec id (ctx_max_sig_id s)); [|done]. cbn. by intros.
Qed.

Lemma find_memory_named mems name k :
  find_memory mems name = Some k -> exists mem, mems !! k = Some mem /\ mem_name mem = name.
Proof.
  revert k. induction mems as [|m mems IH]; [done|]. cbn. intros k.
  destruct (String.eqb_spec (mem_name m) name) as [<-|].
  - intros [= <-]. by exists m.
  - destruct (find_memory mems name) as [k'|]; [|done]. intros [= <-]. by apply IH.
Qed.

Lemma lookup_mem_named s name k :
  sim_ctx_lookup_mem s name = Some k ->
  exists mem, mod_memories (ctx_module s) !! k = Some mem /\ mem_name mem = name.
Proof.
  unfold sim_ctx_lookup_mem. intros (mem & Hm & Hn)%find_memory_named.
  exists mem. split; [|done]. by apply lookup_take_Some in Hm as [Hm _].
Qed.

Lemma view_represents s : represents s (view s).
Proof.
  constructor; try done; intros k; cbn [view m_signals m_memories m_updates];
    apply tabulate_lookup; intros v; cbn.
  - destruct (sim_ctx_lookup s k) as [i|] eqn:E; [|done]. intros _.
    apply lookup_bounds in E. apply elem_of_seqZ. lia.
  - destruct (sim_ctx_lookup_mem s k) as [i|] eqn:E; [|done]. intros _.
    apply lookup_mem_named in E as (mem & Hm & <-). apply list_elem_of_fmap. exists mem.
    split; [done|]. by eapply list_elem_of_lookup_2.
  - unfold pending_of. destruct (sim_ctx_lookup s k) as [i|] eqn:E; [|done]. intros _.
    apply lookup_bounds in E. apply elem_of_seqZ. lia.
Qed.

(** Representations are views. *)
Lemma view_eq s m : represents s m -> view s = m.
Proof. intros H. by apply (represents_eq s); [apply view_represents|]. Qed.

(** ** Expressions read the same values *)

Section Stores.
Context {C1 C2 : Type} {Store1 : SignalStore C1} {Store2 : SignalStore C2} (c1 : C1) (c2 : C2).
Context (Hsig : forall id, sig_current c1 id = sig_current c2 id).
Context (Hmem : forall name, mem_entry c1 name = mem_entry c2 name).

Lemma eval_stores e err : sim_eval_expr c1 e err = sim_eval_expr c2 e err.
Proof using Hsig Hmem.
  revert err. induction e as [| | |k w e IHe|k w l r IHl IHr|w c0 t f IHc IHt IHf|w es IHes
    |w i b msb lsb IHb|k w s i v ew IHs IHi IHv|w m p a IHa] using IR_Expr_ind'; intros err;
    cbn [sim_eval_expr]; unfold mbind, EvalM_bind; try done.
  - by rewrite Hsig.
  - by rewrite IHe.
  - rewrite IHl. destruct (sim_eval_expr c2 l err) as [x e1]. by rewrite IHr.
  - rewrite IHc. destruct (sim_eval_expr c2 c0 err) as [x e1]. rewrite IHt.
    destruct (sim_eval_expr c2 t e1) as [y e2]. by rewrite IHf.
  - assert (forall n err, eval_list (sim_eval_expr c1) n es err =
      eval_list (sim_eval_expr c2) n es err) as ->; [|done].
    clear err. induction IHes as [|e es He _ IH]; intros [|n] err; try done.
    cbn [eval_list]. unfold mbind, EvalM_bind. rewrite He.
    destruct (sim_eval_expr c2 e err) as [x e1]. by rewrite IH.
  - destruct (negb _); [by rewrite IHb|by rewrite Hsig].
  - rewrite IHs. destruct (sim_eval_expr c2 s err) as [x e1]. unfold eval_if.
    destruct (intrinsic_uses_index k), (intrinsic_uses_value k); try done.
    + rewrite IHi. destruct (sim_eval_expr c2 i e1) as [y e2]. by rewrite IHv.
    + by rewrite IHi.
    + cbn. by rewrite IHv.
  - rewrite Hmem. destruct (mem_entry c2 m) as [me|]; [|done]. by rewrite IHa.
Qed.
End Stores.

Lemma represents_value s m e : represents s m -> eval_value m e = eval_value s e.
Proof.
  intros [H1 H2 _ _]. unfold eval_value. f_equal. by apply eval_stores.
Qed.

Lemma represents_raises s m e : represents s m -> eval_raises m e = eval_raises s e.
Proof.
  intros [H1 H2 _ _]. unfold eval_raises. f_equal. by apply eval_stores.
Qed.

(** ** Statements *)

Lemma represents_error s m b :
  represents s m -> represents (set_runtime_error b s)
    (mkMachine (m_signals m) (m_memories m) (m_updates m) b).
Proof. by intros []. Qed.

Lemma represents_evaluated s m e :
  represents s m ->
  represents (set_runtime_error (ctx_runtime_error s || eval_raises s e) s) (evaluated e m).
Proof.
  intros H. pose proof (represents_error s m (ctx_runtime_error s || eval_raises s e) H) as H'.
  unfold evaluated, raise. by rewrite (represents_raises s m e H), (rp_error s m H).
Qed.

Lemma represents_schedule s m id i v :
  table_ok s -> represents s m -> sim_ctx_lookup s id = Some i ->
  represents (update_entry i (fun e => set_pending true (set_next v e)) s) (schedule id v m).
Proof.
  intros [Hok Hinj] [H1 H2 H3 H4] Hl. pose proof (so_lookup s Hok id i Hl) as Hr.
  constructor; [|exact H2| |exact H4]; intros id'; cbn [schedule m_signals m_updates].
  - rewrite H1. cbn. change (sim_ctx_lookup (update_entry _ _ s) id') with (sim_ctx_lookup s id').
    destruct (sim_ctx_lookup s id') as [j|]; [|done]. cbn. by rewrite update_entry_current.
  - unfold pending_of. change (sim_ctx_lookup (update_entry _ _ s) id') with (sim_ctx_lookup s id').
    destruct (decide (id = id')) as [<-|Hne].
    + rewrite lookup_insert_eq, Hl. cbn. by rewrite entry_update, Z.eqb_refl.
    + rewrite lookup_insert_ne, H3 by done. unfold pending_of.
      destruct (sim_ctx_lookup s id') as [j|] eqn:E; [|done]. cbn.
      rewrite entry_update by done. destruct (Z.eqb_spec i j) as [->|]; [|done].
      by destruct (Hne (Hinj _ _ _ Hl E)).
Qed.

Lemma represents_assign s m a :
  table_ok s -> represents s m -> represents (apply_assign s a true) (assign_update a m).
Proof.
  intros Ht Hm. unfold apply_assign, assign_update.
  rewrite (rp_signals s m Hm). cbn [sig_current state_store].
  destruct (sim_ctx_lookup s (asgn_lhs_signal_id a)) as [i|] eqn:E; [|done]. cbn [option_map].
  rewrite eval_in_split, (represents_value s m _ Hm).
  set (s' := set_runtime_error _ s).
  assert (represents s' (evaluated (asgn_rhs a) m)) as Hm' by (by apply represents_evaluated).
  assert (table_ok s') as Ht' by (by apply (table_ok_same s)).
  change (entry_at s' i) with (entry_at s i).
  destruct (asgn_is_sliced a); [|by apply represents_schedule].
  assert (default (se_current (entry_at s i)) (m_updates m !! asgn_lhs_signal_id a) =
    if se_has_pending (entry_at s' i) then se_next (entry_at s' i) else se_current (entry_at s' i)) as ->.
  { rewrite (rp_updates s m Hm). unfold pending_of. rewrite E. cbn.
    change (entry_at s' i) with (entry_at s i). by destruct (se_has_pending (entry_at s i)). }
  unfold assign_slice. by apply (represents_schedule s').
Qed.

Lemma mem_entry_insert s k me name name' :
  sim_ctx_lookup_mem s name = Some k -> (k < length (ctx_memories s))%nat ->
  mem_entry (set_memories (<[k := me]> (ctx_memories s)) s) name' =
  if decide (name = name') then Some me else mem_entry s name'.
Proof.
  intros Hk Hlt. cbn [mem_entry state_store].
  assert (sim_ctx_lookup_mem (set_memories (<[k:=me]> (ctx_memories s)) s) name' =
          sim_ctx_lookup_mem s name') as ->.
  { unfold sim_ctx_lookup_mem. cbn. by rewrite length_insert. }
  destruct (decide (name = name')) as [<-|Hne].
  - rewrite Hk. cbn. by apply list_lookup_insert_eq.
  - destruct (sim_ctx_lookup_mem s name') as [k'|] eqn:E; [|done]. cbn.
    apply list_lookup_insert_ne. intros <-.
    apply lookup_mem_named in Hk as (mem & Hm & <-), E as (mem' & Hm' & <-). congruence.
Qed.

Lemma represents_mem_write s m name a d :
  represents s m -> represents (exec_mem_write s name a d) (memory_update name a d m).
Proof.
  intros Hm. unfold exec_mem_write, memory_update. rewrite (rp_memories s m Hm).
  cbn [mem_entry state_store].
  destruct (sim_ctx_lookup_mem s name) as [k|] eqn:E; [|done]. cbn [mbind option_bind].
  destruct (ctx_memories s !! k) as [me|] eqn:Ek; [|done].
  rewrite !eval_in_split. rewrite <- (represents_value s m a Hm).
  set (s1 := set_runtime_error _ s).
  assert (represents s1 (evaluated a m)) as H1 by (by apply represents_evaluated).
  replace (eval_value s1 d) with (eval_value m d) by (by apply (represents_value s m)).
  set (s2 := set_runtime_error _ s1).
  assert (represents s2 (evaluated d (evaluated a m))) as H2 by (by apply (represents_evaluated s1)).
  destruct (sim_value_to_mem_index (eval_value m a) (me_depth me)) as [idx|]; [|done].
  destruct H2 as [A1 A2 A3 A4]. constructor; [exact A1| |exact A3|exact A4].
  intros name'. cbn [store_memory m_memories]. change (ctx_memories s) with (ctx_memories s2).
  rewrite (mem_entry_insert s2 k _ name name') by (done || by eapply lookup_lt_Some).
  destruct (decide (name = name')) as [<-|]; [by rewrite lookup_insert_eq|].
  by rewrite lookup_insert_ne, A2.
Qed.

Definition simulates (stmt : IR_Stmt) : Prop := forall s m,
  table_ok s -> represents s m ->
  exists m', runs stmt m m' /\ represents (sim_exec_stmt true s stmt) m'.

Lemma truth_range v : sim_val_is_true v = -1 \/ sim_val_is_true v = 1 \/ sim_val_is_true v = 0.
Proof.
  unfold sim_val_is_true. cbv zeta. repeat first [case_match; auto | done].
Qed.

Lemma simulates_if c t el els :
  simulates t -> simulates (elif_stmt els el) -> simulates (StmtIf c t el els).
Proof.
  intros Ht He s m Hs Hm. rewrite exec_if, eval_in_split.
  set (s' := set_runtime_error _ s).
  assert (represents s' (evaluated c m)) as Hm' by (by apply represents_evaluated).
  assert (table_ok s') as Hs' by (by apply (table_ok_same s)).
  rewrite <- (represents_value s m c Hm). destruct (Z.eqb_spec (sim_val_is_true (eval_value m c)) (-1)).
  { exists (raise true (evaluated c m)). split; [by constructor|].
    unfold raise. rewrite orb_true_r. by apply (represents_error s'). }
  destruct (Z.eqb_spec (sim_val_is_true (eval_value m c)) 1).
  - destruct (Ht s' _ Hs' Hm') as (m' & Hr & Hrep). exists m'. split; [by constructor|done].
  - destruct (He s' _ Hs' Hm') as (m' & Hr & Hrep). exists m'. split; [by constructor|done].
Qed.

Lemma simulates_cases v cs :
  Forall (fun c => simulates c.2) cs -> forall s m,
  table_ok s -> represents s m ->
  exists m1 body m', pick_case v cs m = (m1, body) /\ runs body m1 m' /\
    represents (exec_cases (sim_exec_stmt true) v cs s) m'.
Proof.
  induction 1 as [|[cv b] cs Hb _ IH]; intros s m Hs Hm; cbn [pick_case exec_cases].
  - exists m, NullStmt, m. split_and!; [done|constructor|done].
  - destruct (expr_is_null cv).
    { destruct (Hb s m Hs Hm) as (m' & Hr & Hrep). by exists m, b, m'. }
    rewrite eval_in_split, <- (represents_value s m cv Hm). set (s' := set_runtime_error _ s).
    assert (represents s' (evaluated cv m)) as Hm' by (by apply represents_evaluated).
    assert (table_ok s') as Hs' by (by apply (table_ok_same s)).
    destruct (_ =? 1); [|by apply IH].
    destruct (Hb s' _ Hs' Hm') as (m' & Hr & Hrep). by exists (evaluated cv m), b, m'.
Qed.

Lemma exec_simulates stmt : simulates stmt.
Proof.
  enough (simulates stmt /\ forall els, simulates els -> simulates (elif_stmt els stmt)) by tauto.
  induction stmt as [|a|c t el els IHt IHel IHels|sel cs IHcs|ss IHss|name p a d]
    using IR_Stmt_ind'.
  - split; [|done]. intros s m _ Hm. exists m. split; [constructor|done].
  - split; [|done]. intros s m Hs Hm. exists (assign_update a m).
    split; [constructor|by apply represents_assign].
  - split; [|intros els' H']; (apply simulates_if; [tauto|]);
      (destruct IHel as [_ IHel]; apply IHel; tauto).
  - split; [|done]. intros s m Hs Hm. cbn [sim_exec_stmt]. rewrite eval_in_split.
    rewrite <- (represents_value s m sel Hm). set (s' := set_runtime_error _ s).
    assert (represents s' (evaluated sel m)) as Hm' by (by apply represents_evaluated).
    assert (table_ok s') as Hs' by (by apply (table_ok_same s)).
    destruct (sim_val_has_xz (eval_value m sel)) eqn:E.
    { exists (raise true (evaluated sel m)). split; [by constructor|].
      unfold raise. rewrite orb_true_r. by apply (represents_error s'). }
    destruct (simulates_cases (eval_value m sel) cs) with (s := s') (m := evaluated sel m)
      as (m1 & b & m' & Hp & Hr & Hrep); [|done|done|].
    { eapply Forall_impl; [exact IHcs|]. by intros c [? _]. }
    exists m'. split; [by eapply runs_select|done].
  - split; [|done]. intros s m Hs Hm. cbn [sim_exec_stmt].
    assert (Forall simulates ss) as H by (eapply Forall_impl; [exact IHss|by intros c [? _]]). clear IHss.
    revert s m Hs Hm. induction H as [|s0 ss Hs0 _ IH]; intros s m Hs Hm.
    + exists m. split; [constructor|done].
    + destruct (Hs0 s m Hs Hm) as (m1 & Hr1 & Hm1).
      destruct (IH _ m1 (table_ok_static _ _ (exec_static true s0 s) Hs) Hm1) as (m2 & Hr2 & Hm2).
      exists m2. split; [by eapply runs_cons|done].
  - split; [|done]. intros s m _ Hm. exists (memory_update name a d m).
    split; [constructor|by apply represents_mem_write].
Qed.

(** ** Commit and reset *)

Lemma represents_commit s m :
  table_ok s -> represents s m -> represents (apply_nba_state s) (commit m).
Proof.
  intros [Hok Hinj] [H1 H2 H3 H4]. pose proof (apply_nba_spec s Hok) as (A & B & C).
  assert (ctx_runtime_error (apply_nba_state s) = ctx_runtime_error s) as He.
  { unfold apply_nba_state. apply for_up_ind; [done|]. intros k t _ <-. unfold commit_entry.
    cbv zeta. by destruct (se_has_pending _). }
  constructor; cbn [commit m_signals m_memories m_updates m_error].
  - intros id. cbn. rewrite (lookup_static s _ id A).
    rewrite lookup_union, H1, H3. unfold pending_of. cbn.
    destruct (sim_ctx_lookup s id) as [i|] eqn:E; [|done]. cbn.
    destruct (C i (so_lookup s Hok id i E)) as [-> _].
    by destruct (se_has_pending (entry_at s i)).
  - intros name. rewrite H2. cbn. unfold sim_ctx_lookup_mem.
    by rewrite B, (ss_module _ _ A).
  - intros id. rewrite lookup_empty. unfold pending_of. rewrite (lookup_static s _ id A).
    destruct (sim_ctx_lookup s id) as [i|] eqn:E; [|done]. cbn.
    destruct (C i (so_lookup s Hok id i E)) as [-> _].
    destruct (se_has_pending (entry_at s i)) eqn:Ep; cbn; [done|]. by rewrite Ep.
  - by rewrite H4, He.
Qed.

Lemma asserted_represents cd s m :
  represents s m -> child_in_reset s cd = reset_asserted cd m.
Proof.
  intros [H1 _ _ _]. unfold child_in_reset, reset_asserted. rewrite H1. cbn.
  destruct (0 <=? cd_reset_signal_id cd); [|done].
  destruct (sim_ctx_lookup s _) as [i|]; [|done]. cbn. by destruct (cd_reset_active cd).
Qed.

Lemma reset_register_static s id : same_static s (reset_register s id).
Proof.
  unfold reset_register. destruct (sim_ctx_lookup s id) as [i|]; [|apply same_static_refl].
  destruct (find_signal_in_ctx s id) as [sig|]; [|apply same_static_refl].
  destruct (sig_kind sig); try apply same_static_refl. by apply same_static_mark_update.
Qed.

Lemma represents_reset_register s m id :
  table_ok s -> represents s m ->
  represents (reset_register s id)
    (mkMachine (reset_signal (find_signal_in_ctx s) (m_signals m) id) (m_memories m)
       (m_updates m) (m_error m)).
Proof.
  intros [Hok Hinj] Hm. unfold reset_register, reset_signal.
  destruct (sim_ctx_lookup s id) as [i|] eqn:E.
  2:{ unfold find_signal_in_ctx. rewrite E. by destruct m. }
  destruct (find_signal_in_ctx s id) as [sig|]; [|by destruct m].
  destruct (sig_kind sig); try by destruct m.
  destruct Hm as [H1 H2 H3 H4]. pose proof (so_lookup s Hok id i E) as Hr.
  set (f := set_current _).
  constructor; [|exact H2| |exact H4]; intros id'; cbn [m_signals m_updates].
  - cbn. change (sim_ctx_lookup (mark_dirty i (update_entry i f s)) id') with (sim_ctx_lookup s id').
    change (entry_at (mark_dirty i ?t)) with (entry_at t).
    destruct (decide (id = id')) as [<-|Hne].
    + rewrite lookup_insert_eq, E. cbn. by rewrite entry_update, Z.eqb_refl.
    + rewrite lookup_insert_ne, H1 by done. cbn.
      destruct (sim_ctx_lookup s id') as [j|] eqn:E'; [|done]. cbn. rewrite entry_update by done.
      destruct (Z.eqb_spec i j) as [->|]; [|done]. by destruct (Hne (Hinj _ _ _ E E')).
  - rewrite H3. unfold pending_of.
    change (sim_ctx_lookup (mark_dirty i (update_entry i f s)) id') with (sim_ctx_lookup s id').
    change (entry_at (mark_dirty i ?t)) with (entry_at t).
    destruct (sim_ctx_lookup s id') as [j|]; [|done]. cbn. rewrite entry_update by done.
    destruct (Z.eqb_spec i j) as [->|]; done.
Qed.


Lemma represents_reset s m ids :
  table_ok s -> represents s m ->
  represents (fold_left reset_register ids s) (reset_all (find_signal_in_ctx s) ids m) /\
  same_static s (fold_left reset_register ids s).
Proof.
  intros Hs Hm. unfold reset_all.
  assert (forall t sigs, same_static s t -> represents t (mkMachine sigs (m_memories m)
      (m_updates m) (m_error m)) ->
    represents (fold_left reset_register ids t)
      (mkMachine (fold_left (reset_signal (find_signal_in_ctx s)) ids sigs) (m_memories m)
         (m_updates m) (m_error m)) /\ same_static s (fold_left reset_register ids t)) as H.
  { induction ids as [|id ids IH]; intros t sigs Hst Ht; [done|]. cbn [fold_left].
    apply IH; [eapply same_static_trans; [exact Hst|apply reset_register_static]|].
    assert (find_signal_in_ctx s id = find_signal_in_ctx t id) as E.
    { unfold find_signal_in_ctx. by rewrite (lookup_static s t id Hst), (ss_module s t Hst). }
    pose proof (represents_reset_register t _ id (table_ok_static s t Hst Hs) Ht) as H.
    unfold reset_signal in *. cbn in H. by rewrite E. }
  apply H; [apply same_static_refl|]. by destruct m.
Qed.

(** ** Edges *)

Lemma represents_raise s m b :
  represents s m -> represents (if b : bool then set_runtime_error true s else s) (raise b m).
Proof.
  intros Hm. unfold raise. destruct b.
  - rewrite orb_true_r. by apply represents_error.
  - rewrite orb_false_r. by destruct m.
Qed.

Lemma children_sync_state n ctx p :
  exists b, ctx_state (exec_children_sync_for_clock n ctx p) =
    (if b : bool then set_runtime_error true (ctx_state ctx) else ctx_state ctx) /\
    (b = true -> ctx_children ctx <> []) /\
    length (ctx_children (exec_children_sync_for_clock n ctx p)) = length (ctx_children ctx).
Proof.
  destruct n as [|n]; cbn; [by exists false|]. eexists. split_and!; [reflexivity| |].
  - intros H E. by rewrite E in H.
  - by rewrite !length_map.
Qed.

Lemma commit_children ctx b :
  length (ctx_children (if b : bool then sim_ctx_apply_nba ctx else ctx)) =
  length (ctx_children ctx).
Proof. destruct b, ctx; [|done]. cbn. by rewrite length_map. Qed.

(** What firing one domain does to the root. *)
Lemma fire_domain_step per_domain d cd ctx (s := ctx_state ctx) :
  table_ok s -> mod_clock_domains (ctx_module s) !! Z.to_nat d = Some cd -> 0 <= d ->
  let ctx' := fire_domain per_domain d cd ctx in
  same_static s (ctx_state ctx') /\
  length (ctx_children ctx') = length (ctx_children ctx) /\
  exists m1 b, domain_step (find_signal_in_ctx s) cd (view s) m1 /\
    (b = true -> ctx_children ctx <> []) /\
    represents (ctx_state ctx') (commit_if per_domain (raise b m1)).
Proof.
  intros Hs Hcd Hd. cbv zeta. unfold fire_domain. pose proof (view_represents s) as Hv.
  fold s. rewrite (asserted_represents cd s _ Hv).
  set (mid := if reset_asserted cd (view s) then
     mkContext (fold_left reset_register (cd_register_ids cd) s) (ctx_children ctx)
   else mkContext (sim_exec_stmt true s (cd_statements cd)) (ctx_children ctx)).
  assert (exists m1, domain_step (find_signal_in_ctx s) cd (view s) m1 /\
    represents (ctx_state mid) m1 /\ same_static s (ctx_state mid)) as (m1 & Hd1 & Hm1 & Hst).
  { subst mid. destruct (reset_asserted cd (view s)) eqn:E.
    - exists (reset_all (find_signal_in_ctx s) (cd_register_ids cd) (view s)).
      split; [by constructor|]. by apply represents_reset.
    - destruct (exec_simulates (cd_statements cd) s _ Hs Hv) as (m1 & Hr & Hm1). exists m1.
      split_and!; [by apply domain_run|done|apply exec_static]. }
  set (ctx1 := sim_exec_sync_domain_with_children _ d (reset_asserted cd (view s))).
  assert (exists b, ctx_state ctx1 =
      (if b : bool then set_runtime_error true (ctx_state mid) else ctx_state mid) /\
    (b = true -> ctx_children ctx <> []) /\ length (ctx_children ctx1) = length (ctx_children ctx))
    as (b & E1 & Hb & Hlen).
  { subst ctx1 mid. unfold sim_exec_sync_domain_with_children, sim_apply_domain_reset.
    destruct (Z.ltb_spec d 0); [lia|].
    destruct (reset_asserted cd (view s)); cbn [ctx_state] in *.
    - fold s. rewrite (ss_module s _ Hst), Hcd.
      match goal with |- context [exec_children_sync_for_clock ?n ?c ?p] =>
        destruct (children_sync_state n c p) as (b & -> & Hb & ->) end.
      exists b. unfold propagate_to_all_children in *. cbn [ctx_state ctx_children] in *.
      rewrite length_map. split_and!; [done| |done].
      intros Eb Ec. apply (Hb Eb). by rewrite Ec.
    - fold s. rewrite Hcd.
      match goal with |- context [exec_children_sync_for_clock ?n ?c ?p] =>
        destruct (children_sync_state n c p) as (b & -> & Hb & ->) end.
      exists b. unfold propagate_to_all_children in *. cbn [ctx_state ctx_children] in *.
      rewrite length_map. split_and!; [done| |done].
      intros Eb Ec. apply (Hb Eb). by rewrite Ec. }
  assert (same_static s (ctx_state ctx1)) as Hst1.
  { rewrite E1. destruct b; [|done]. eapply same_static_trans; [exact Hst|].
    by apply same_static_error. }
  assert (represents (ctx_state ctx1) (raise b m1)) as Hm by (rewrite E1; by apply represents_raise).
  rewrite commit_children. split_and!; [|done|exists m1, b; split_and!; [done|done|]].
  - destruct per_domain; [|done]. destruct ctx1 as [s1 cs1]. cbn [ctx_state] in *.
    eapply same_static_trans; [exact Hst1|].
    apply (apply_nba_spec s1). apply (state_ok_static s); [done|apply Hs].
  - destruct per_domain; [|done]. destruct ctx1 as [s1 cs1]. cbn [ctx_state] in *.
    apply represents_commit; [|done]. by apply (table_ok_static s).
Qed.

Lemma fires_decl decl decl' p n cds m m' :
  (forall id, decl id = decl' id) -> fires decl p n cds m m' -> fires decl' p n cds m m'.
Proof.
  intros E. induction 1 as [|cd cds m m1 b m' Hd Hb _ IH]; [constructor|].
  apply (fires_cons _ _ _ _ _ _ m1 b); [|exact Hb|exact IH].
  destruct Hd as [m Hr|m m1 Hr Hrun]; [|by apply domain_run].
  assert (reset_all decl (cd_register_ids cd) m = reset_all decl' (cd_register_ids cd) m) as ->;
    [|by constructor].
  unfold reset_all. f_equal. clear IH Hr. generalize (m_signals m).
  induction (cd_register_ids cd) as [|id ids IHi]; intros sigs; [done|]. cbn [fold_left].
  rewrite <- IHi. f_equal. unfold reset_signal. by rewrite E.
Qed.

Lemma fire_domains_fires port clk per_domain domains d ctx (s := ctx_state ctx) :
  table_ok s -> 0 <= d -> drop (Z.to_nat d) (mod_clock_domains (ctx_module s)) = domains ->
  fires (find_signal_in_ctx s) per_domain (negb (bool_decide (ctx_children ctx = [])))
    (List.filter (domain_matches port clk) domains) (view s)
    (view (ctx_state (fire_domains port clk per_domain domains d ctx))).
Proof.
  subst s. revert d ctx. induction domains as [|cd domains IH]; intros d ctx Hs Hd E.
  { constructor. }
  assert (mod_clock_domains (ctx_module (ctx_state ctx)) !! Z.to_nat d = Some cd) as Hcd.
  { replace (Z.to_nat d) with (Z.to_nat d + 0)%nat by lia. rewrite <- lookup_drop, E. done. }
  assert (drop (Z.to_nat (d + 1)) (mod_clock_domains (ctx_module (ctx_state ctx))) = domains) as E'.
  { replace (Z.to_nat (d + 1)) with (Z.to_nat d + 1)%nat by lia.
    rewrite <- drop_drop, E. done. }
  cbn [fire_domains List.filter]. destruct (domain_matches port clk cd); [|apply IH; done || lia].
  destruct (fire_domain_step per_domain d cd ctx Hs Hcd Hd)
    as (Hst & Hlen & m1 & b & Hd1 & Hb & Hm).
  set (ctx' := fire_domain per_domain d cd ctx) in *.
  apply (fires_cons _ _ _ _ _ _ m1 b); [done| |].
  { intros Eb. apply Hb in Eb. by rewrite bool_decide_eq_false_2. }
  rewrite <- (view_eq _ _ Hm).
  assert (bool_decide (ctx_children ctx = []) = bool_decide (ctx_children ctx' = [])) as ->.
  { apply bool_decide_ext. rewrite <- !length_zero_iff_nil. by rewrite Hlen. }
  apply (fires_decl (find_signal_in_ctx (ctx_state ctx'))).
  { intros id. unfold find_signal_in_ctx.
    by rewrite (lookup_static _ _ id Hst), (ss_module _ _ Hst). }
  apply IH; [by apply (table_ok_static _ _ Hst)|lia|by rewrite (ss_module _ _ Hst)].
Qed.
