(* ===== verification/TbInv.v ===== *)
(** * What the steps of a test leave alone

    Settling and clock edges keep the tables of the root instance; propagation
    only touches the bound wires and ports; the counters of a test change only
    where a directive counts.  From the end on, what the counters of a whole
    test add up to. *)

From S2P Require Import Prelude CString Ast SimValue Util IR SimState SimEval SimDeps SimExec SimExecInv SimSettle SimLiveness ConstEval SymTab TbState TbExpr TbDecls SimEngine SimEdge.


Local Open Scope Z_scope.

(** ** The tables of an instance *)

Record same_tables (s t : SimModuleState) : Prop := {
  st_module : ctx_module t = ctx_module s;
  st_map : ctx_sig_id_map t = ctx_sig_id_map s;
  st_max : ctx_max_sig_id t = ctx_max_sig_id s;
  st_length : length (ctx_signals t) = length (ctx_signals s);
  st_dirty : length (ctx_sig_dirty t) = length (ctx_sig_dirty s)
}.

#[export] Instance same_tables_preorder : PreOrder same_tables.
Proof. split; [done|]. intros s t u [] []. constructor; congruence. Qed.

Lemma static_tables s t : same_static s t -> same_tables s t.
Proof. intros []. by constructor. Qed.

Lemma tables_lookup s t id : same_tables s t -> sim_ctx_lookup t id = sim_ctx_lookup s id.
Proof. intros []. unfold sim_ctx_lookup. by rewrite st_map0, st_max0. Qed.

Lemma tables_find s t id : same_tables s t -> find_signal_in_ctx t id = find_signal_in_ctx s id.
Proof.
  intros H. unfold find_signal_in_ctx. by rewrite (tables_lookup s t id H), (st_module s t H).
Qed.

Lemma tables_ok s t : same_tables s t -> table_ok s -> table_ok t.
Proof.
  intros H [[A1 A2] B]. pose proof H as []. split.
  - split; [|congruence]. intros id i. rewrite (tables_lookup s t id H). unfold in_range.
    rewrite st_length0. apply A1.
  - intros id id' i. rewrite !(tables_lookup s t _ H). apply B.
Qed.

Lemma tables_update s i f : same_tables s (update_entry i f s).
Proof. constructor; try done. apply length_aset. Qed.
Lemma tables_mark s i : same_tables s (mark_dirty i s).
Proof. constructor; try done. apply length_aset. Qed.
Lemma tables_mark_update s i f : same_tables s (mark_dirty i (update_entry i f s)).
Proof. transitivity (update_entry i f s); [apply tables_update|apply tables_mark]. Qed.
Lemma tables_error s b : same_tables s (set_runtime_error b s).
Proof. by constructor. Qed.

Create HintDb tables.
#[export] Hint Resolve static_tables tables_update tables_mark tables_mark_update
  tables_error exec_static : tables.
#[export] Hint Extern 1 (same_tables ?s ?s) => reflexivity : tables.

Lemma propagate_output_tables c p m : same_tables p (propagate_output c p m).
Proof.
  unfold propagate_output. cbv zeta. destruct (_ && _); [done|].
  destruct (0 <=? _); destruct (negb (sim_val_same _ _ _)); auto with tables.
Qed.

Lemma propagate_from_tables c maps p : same_tables p (propagate_from_child c maps p).
Proof.
  unfold propagate_from_child. revert p. induction maps as [|m maps IH]; intros p; [done|].
  cbn [fold_left]. etrans; [apply propagate_output_tables|apply IH].
Qed.

Lemma raise_error_tables c s : same_tables s (raise_error c s).
Proof. unfold raise_error. destruct (ctx_runtime_error c); auto with tables. Qed.

Lemma settle_children_tables settle p cs : same_tables p (settle_children settle p cs).1.
Proof.
  revert p. induction cs as [|[[c|] inst cm ins outs] cs IH]; intros p; cbn [settle_children];
    [done| |].
  - unfold settle_child. destruct (propagate_to_child p ins (ctx_state c)) as [s ch].
    destruct (_ && _); cbv zeta.
    + specialize (IH (raise_error s p)). destruct (settle_children settle _ cs) as [q rest].
      etrans; [apply raise_error_tables|exact IH].
    + set (c' := settle _ c).
      specialize (IH (propagate_from_child (ctx_state c') outs (raise_error (ctx_state c') p))).
      destruct (settle_children settle _ cs) as [q rest].
      etrans; [apply raise_error_tables|]. etrans; [apply propagate_from_tables|exact IH].
  - specialize (IH p). by destruct (settle_children settle p cs) as [q rest].
Qed.

Lemma settle_self_tables s : same_tables s (settle_self s).
Proof.
  unfold settle_self. destruct (ctx_async_chunks s) as [|c cs]; [auto with tables|].
  generalize (c :: cs). clear c cs. intros cs. revert s.
  induction cs as [|c cs IH]; intros s; [done|]. cbn [fold_left].
  etrans; [|apply IH]. unfold exec_chunk. destruct (chunk_needs_exec s c); auto with tables.
Qed.

Lemma settle_from_tables s ctx : same_tables s (ctx_state (settle_from s ctx)).
Proof.
  destruct ctx as [s0 cs]. cbn [settle_from].
  pose proof (settle_children_tables settle_from (settle_self s) cs) as H.
  destruct (settle_children settle_from (settle_self s) cs) as [p rest].
  etrans; [apply settle_self_tables|exact H].
Qed.

Lemma settle_loop_tables n ctx : same_tables (ctx_state ctx) (ctx_state (settle_loop n ctx).2).
Proof.
  revert ctx. induction n as [|n IH]; intros ctx; [done|]. cbn [settle_loop].
  set (ctx1 := settle_hierarchy_once (clear_root_dirty ctx)).
  assert (same_tables (ctx_state ctx) (ctx_state ctx1)) as H1.
  { etrans; [|apply settle_from_tables]. by constructor. }
  destruct (negb _); [|etrans; [exact H1|apply IH]].
  etrans; [exact H1|]. destruct ctx1 as [s cs]. constructor; try done. apply length_map.
Qed.

Lemma settle_tables ctx n :
  same_tables (ctx_state ctx) (ctx_state (sim_settle_combinational ctx n).2).
Proof.
  unfold sim_settle_combinational. destruct (negb _); [done|]. apply settle_loop_tables.
Qed.

(** ** Steps of a test *)

(** [u] has the wires, bindings and tables of [t]. *)
Record same_ports (t u : SimTestState) : Prop := {
  sp_bindings : ts_bindings u = ts_bindings t;
  sp_tables : same_tables (ts_root t) (ts_root u);
  sp_name : ts_dut_instance_name u = ts_dut_instance_name t;
  sp_wires : length (ts_tb_wires u) = length (ts_tb_wires t)
}.

#[export] Instance same_ports_preorder : PreOrder same_ports.
Proof.
  split; [by constructor|]. intros s t u [] []. constructor; try congruence. by etrans.
Qed.

Lemma bound_port_same t u b : same_ports t u -> bound_port u b = bound_port t b.
Proof.
  intros [_ H _ _]. unfold bound_port. by rewrite (tables_find _ _ _ H), (tables_lookup _ _ _ H).
Qed.

(** A fold over the bindings keeps what each step keeps. *)
Lemma fold_bindings (R : SimTestState -> SimTestState -> Prop) `{!PreOrder R}
    (f : SimTestState -> SimPortBinding -> SimTestState) bs t :
  (forall t b, R t (f t b)) -> R t (fold_left f bs t).
Proof.
  intros H. revert t. induction bs as [|b bs IH]; intros t; cbn [fold_left]; [reflexivity|].
  by transitivity (f t b).
Qed.

Lemma input_same t b :
  same_ports t (propagate_input_binding t b) /\
  ts_tb_wires (propagate_input_binding t b) = ts_tb_wires t.
Proof.
  unfold propagate_input_binding. destruct (bound_port t b) as [[sig i]|]; [|done].
  destruct (sig_direction sig); try done; (split; [|done]); constructor; try done;
    apply tables_mark_update.
Qed.

Lemma inout_same t b :
  same_ports t (resolve_inout_binding t b) /\
  ts_tb_wires (resolve_inout_binding t b) = ts_tb_wires t.
Proof.
  unfold resolve_inout_binding. destruct (bound_port t b) as [[sig i]|]; [|done].
  destruct (sig_direction sig); try done. destruct (sim_val_is_all_z _); [|done].
  split; [|done]. constructor; try done. apply tables_update.
Qed.

Lemma put_wire_at t i v j :
  wire_at (put_wire i v t) j =
  if (0 <=? i) && (i <? Z.of_nat (length (ts_tb_wires t))) && (i =? j)
  then set_wire_value v (wire_at t i) else wire_at t j.
Proof. unfold wire_at at 1, put_wire. cbn. apply aget_aset. Qed.

Lemma put_wire_same t i v : same_ports t (put_wire i v t).
Proof. constructor; try done. apply length_aset. Qed.

Lemma output_same t b : same_ports t (propagate_output_binding t b).
Proof.
  unfold propagate_output_binding. destruct (bound_port t b) as [[sig i]|]; [|done].
  destruct (sig_direction sig); try done; [|destruct (sim_val_is_all_z _); [done|]];
    apply put_wire_same.
Qed.

Definition same_wires (t u : SimTestState) : Prop := ts_tb_wires u = ts_tb_wires t.
#[export] Instance same_wires_preorder : PreOrder same_wires.
Proof. split; [done|]. intros s t u H1 H2. unfold same_wires in *. congruence. Qed.

Lemma inputs_same t : same_ports t (sim_propagate_inputs t) /\ same_wires t (sim_propagate_inputs t).
Proof.
  unfold sim_propagate_inputs. split.
  - apply (fold_bindings same_ports). intros u b. apply input_same.
  - apply (fold_bindings same_wires). intros u b. apply input_same.
Qed.
Lemma inouts_same t : same_ports t (sim_resolve_inout_z t) /\ same_wires t (sim_resolve_inout_z t).
Proof.
  unfold sim_resolve_inout_z. split.
  - apply (fold_bindings same_ports). intros u b. apply inout_same.
  - apply (fold_bindings same_wires). intros u b. apply inout_same.
Qed.
Lemma outputs_same t : same_ports t (sim_propagate_outputs t).
Proof. apply (fold_bindings same_ports). apply output_same. Qed.

Lemma record_failure_same m t : same_ports t (record_failure m t).
Proof. by constructor. Qed.

Lemma runtime_error_same t :
  same_ports t (propagate_ctx_runtime_error t) /\ same_wires t (propagate_ctx_runtime_error t).
Proof.
  unfold propagate_ctx_runtime_error. destruct (ts_runtime_error t); [done|].
  destruct (ctx_runtime_error _); [|done]. split; [|done]. by constructor.
Qed.

Lemma settle_checked_same t :
  same_ports t (sim_settle_checked t) /\ same_wires t (sim_settle_checked t).
Proof.
  unfold sim_settle_checked. pose proof (settle_tables (ts_dut t) SIM_SETTLE_MAX_ITERS) as H.
  destruct (sim_settle_combinational (ts_dut t) SIM_SETTLE_MAX_ITERS) as [rc dut]. cbv zeta.
  match goal with |- same_ports t (propagate_ctx_runtime_error ?v) /\ _ => set (u := v) end.
  assert (same_ports t u /\ same_wires t u) as [H1 H2].
  { subst u. destruct (_ && _); (split; [|done]); by constructor. }
  destruct (runtime_error_same u) as [H3 H4]. by split; etrans.
Qed.

Lemma full_settle_same t : same_ports t (sim_full_settle t).
Proof.
  unfold sim_full_settle, settle_inputs. etrans; [apply inputs_same|].
  etrans; [apply settle_checked_same|]. etrans; [apply inouts_same|]. apply outputs_same.
Qed.

(** Wires that no output or inout port is bound to are not driven. *)
Definition drives (t : SimTestState) (b : SimPortBinding) : bool :=
  match bound_port t b with
  | Some (sig, _) => match sig_direction sig with PORT_IN => false | _ => true end
  | None => false
  end.

Definition undriven (t : SimTestState) (i : Z) : Prop :=
  forall b, b ∈ ts_bindings t -> drives t b = true -> pb_tb_wire_index b <> i.

Lemma drives_same t u b : same_ports t u -> drives u b = drives t b.
Proof. intros H. unfold drives. by rewrite (bound_port_same t u b H). Qed.

Lemma undriven_same t u i : same_ports t u -> undriven t i -> undriven u i.
Proof.
  intros H Hu b. rewrite (sp_bindings t u H), (drives_same t u b H). apply Hu.
Qed.

Lemma outputs_undriven t i : undriven t i -> wire_at (sim_propagate_outputs t) i = wire_at t i.
Proof.
  intros Hu. unfold sim_propagate_outputs.
  assert (forall bs u, (forall b, b ∈ bs -> b ∈ ts_bindings t) -> same_ports t u ->
    wire_at (fold_left propagate_output_binding bs u) i = wire_at u i) as H.
  { induction bs as [|b bs IH]; intros u Hbs Hs; [done|]. cbn [fold_left].
    rewrite IH; [|intros c Hc; apply Hbs; by right|etrans; [exact Hs|apply output_same]].
    specialize (Hu b (Hbs b ltac:(left))). rewrite <- (drives_same t u b Hs) in Hu.
    unfold propagate_output_binding, drives in *. destruct (bound_port u b) as [[sig j]|]; [|done].
    assert (pb_tb_wire_index b <> i -> forall v, wire_at (put_wire (pb_tb_wire_index b) v u) i = wire_at u i)
      as Hput.
    { intros Hne v. rewrite put_wire_at. destruct (Z.eqb_spec (pb_tb_wire_index b) i); [done|].
      by rewrite andb_false_r. }
    destruct (sig_direction sig); [done|by apply Hput, Hu|].
    destruct (sim_val_is_all_z _); [done|]. by apply Hput, Hu. }
  by apply H.
Qed.

Lemma full_settle_undriven t i : undriven t i -> wire_at (sim_full_settle t) i = wire_at t i.
Proof.
  intros Hu. unfold sim_full_settle.
  assert (same_ports t (settle_inputs t) /\ same_wires t (settle_inputs t)) as [H1 H2].
  { unfold settle_inputs. destruct (inputs_same t) as [A1 A2].
    destruct (settle_checked_same (sim_propagate_inputs t)) as [B1 B2].
    destruct (inouts_same (sim_settle_checked (sim_propagate_inputs t))) as [C1 C2].
    split; (etrans; [eassumption|]; etrans; eassumption). }
  rewrite outputs_undriven by (by apply (undriven_same t)).
  unfold wire_at. by rewrite H2.
Qed.

(** ** What propagation transfers *)

Lemma bound_port_lookup t b sig i :
  bound_port t b = Some (sig, i) -> sim_ctx_lookup (ts_root t) (pb_port_signal_id b) = Some i.
Proof.
  unfold bound_port, find_signal_in_ctx. destruct (sim_ctx_lookup (ts_root t) _) as [j|]; [|done].
  destruct (sig_kind _); try done. by intros [= _ <-].
Qed.

(** A binding of another port leaves an entry and its dirty flag alone. *)
Lemma input_other t b i :
  table_ok (ts_root t) ->
  (forall sig, bound_port t b <> Some (sig, i)) ->
  let u := propagate_input_binding t b in
  entry_at (ts_root u) i = entry_at (ts_root t) i /\
  aget false (ctx_sig_dirty (ts_root u)) i = aget false (ctx_sig_dirty (ts_root t)) i.
Proof.
  intros [Hok Hinj] Hne u. subst u. unfold propagate_input_binding.
  destruct (bound_port t b) as [[sig j]|] eqn:E; [|done].
  assert (j <> i) as Hj by (intros ->; by apply (Hne sig)).
  pose proof (so_lookup _ Hok _ _ (bound_port_lookup t b sig j E)) as Hr.
  assert (forall f, entry_at (mark_dirty j (update_entry j f (ts_root t))) i = entry_at (ts_root t) i /\
    aget false (ctx_sig_dirty (mark_dirty j (update_entry j f (ts_root t)))) i =
    aget false (ctx_sig_dirty (ts_root t)) i) as H.
  { intros f. change (entry_at (mark_dirty j ?s)) with (entry_at s).
    rewrite entry_update by done. cbn. rewrite aget_aset.
    destruct (Z.eqb_spec j i); [done|]. by rewrite andb_false_r. }
  destruct (sig_direction sig); [apply H|done|apply H].
Qed.

Lemma input_binding_sets t b sig i :
  table_ok (ts_root t) -> bound_port t b = Some (sig, i) -> sig_direction sig <> PORT_OUT ->
  let u := propagate_input_binding t b in
  se_current (entry_at (ts_root u) i) = at_port_width sig (wire_value t b) /\
  aget false (ctx_sig_dirty (ts_root u)) i = true /\ ctx_settle_dirty (ts_root u) = true.
Proof.
  intros [Hok Hinj] E Hd u. subst u. unfold propagate_input_binding. rewrite E.
  pose proof (so_lookup _ Hok _ _ (bound_port_lookup t b sig i E)) as Hr.
  assert (forall v, let s := mark_dirty i (update_entry i (set_current v) (ts_root t)) in
    se_current (entry_at s i) = v /\ aget false (ctx_sig_dirty s) i = true /\
    ctx_settle_dirty s = true) as H.
  { intros v s. subst s. change (entry_at (mark_dirty i ?s)) with (entry_at s).
    rewrite entry_update, Z.eqb_refl by done. split_and!; [done| |done]. cbn.
    rewrite aget_aset, Z.eqb_refl, (so_dirty _ Hok). unfold in_range in Hr.
    destruct (Z.leb_spec 0 i), (Z.ltb_spec i (Z.of_nat (length (ctx_signals (ts_root t))))); done || lia. }
  destruct (sig_direction sig); [apply H|done|apply H].
Qed.

Lemma bound_ports_differ t b b' sig i :
  table_ok (ts_root t) -> bound_port t b = Some (sig, i) ->
  pb_port_signal_id b' <> pb_port_signal_id b -> forall sig', bound_port t b' <> Some (sig', i).
Proof.
  intros [_ Hinj] E Hne sig' E'. apply Hne.
  apply (Hinj _ _ i); by eapply bound_port_lookup.
Qed.

Lemma settle_dirty_input t b :
  ctx_settle_dirty (ts_root t) = true ->
  ctx_settle_dirty (ts_root (propagate_input_binding t b)) = true.
Proof.
  intros H. unfold propagate_input_binding. destruct (bound_port t b) as [[sig i]|]; [|done].
  by destruct (sig_direction sig).
Qed.

(** Every input port with a binding of its own receives its wire. *)
Lemma inputs_transfer t b sig i :
  table_ok (ts_root t) -> NoDup (map pb_port_signal_id (ts_bindings t)) -> b ∈ ts_bindings t ->
  bound_port t b = Some (sig, i) -> sig_direction sig <> PORT_OUT ->
  let u := sim_propagate_inputs t in
  se_current (entry_at (ts_root u) i) = at_port_width sig (wire_value t b) /\
  aget false (ctx_sig_dirty (ts_root u)) i = true /\ ctx_settle_dirty (ts_root u) = true.
Proof.
  intros Hs Hnd Hb E Hd u. subst u. unfold sim_propagate_inputs.
  apply list_elem_of_split in Hb as (l1 & l2 & Hl). rewrite Hl in Hnd |- *.
  rewrite map_app in Hnd. cbn [map] in Hnd. apply NoDup_app in Hnd as (_ & _ & Hnd).
  apply NoDup_cons in Hnd as [Hnotin _].
  rewrite fold_left_app. cbn [fold_left].
  set (t1 := fold_left propagate_input_binding l1 t).
  assert (same_ports t t1 /\ same_wires t t1) as [P1 W1].
  { split; [apply (fold_bindings same_ports)|apply (fold_bindings same_wires)];
      intros; apply input_same. }
  assert (table_ok (ts_root t1)) as Hs1 by (eapply tables_ok; [apply (sp_tables _ _ P1)|done]).
  assert (bound_port t1 b = Some (sig, i)) as E1 by (by rewrite (bound_port_same t t1 b P1)).
  destruct (input_binding_sets t1 b sig i Hs1 E1 Hd) as (A & B & C).
  assert (wire_value t1 b = wire_value t b) as Hw by (unfold wire_value, wire_at; by rewrite W1).
  rewrite Hw in A. set (t2 := propagate_input_binding t1 b) in *.
  assert (same_ports t1 t2) as P2 by apply input_same.
  assert (forall b', b' ∈ l2 -> pb_port_signal_id b' <> pb_port_signal_id b) as Hl2.
  { intros b' Hb' Heq. apply Hnotin. rewrite <- Heq. by apply list_elem_of_fmap_2. }
  clearbody t2. clear Hnotin Hl. revert t2 P2 A B C.
  induction l2 as [|b' l2 IH]; intros t2 P2 A B C; [done|]. cbn [fold_left].
  assert (table_ok (ts_root t2)) as Hs2 by (eapply tables_ok; [apply (sp_tables _ _ P2)|done]).
  assert (bound_port t2 b = Some (sig, i)) as E2 by (by rewrite (bound_port_same t1 t2 b P2)).
  pose proof (bound_ports_differ t2 b b' sig i Hs2 E2 (Hl2 b' ltac:(left))) as Hne.
  destruct (input_other t2 b' i Hs2 Hne) as [H1 H2].
  apply IH.
  - intros b'' Hb''. apply Hl2. by right.
  - etrans; [exact P2|apply input_same].
  - by rewrite H1.
  - by rewrite H2.
  - by apply settle_dirty_input.
Qed.

(** The value an output binding gives its wire. *)
Definition output_value (t : SimTestState) (b : SimPortBinding) : option SimValue :=
  match bound_port t b with
  | Some (sig, i) =>
      let v := se_current (entry_at (ts_root t) i) in
      match sig_direction sig with
      | PORT_OUT => Some v
      | PORT_INOUT => if sim_val_is_all_z v then None else Some v
      | PORT_IN => None
      end
  | None => None
  end.

Lemma output_binding_eq t b :
  propagate_output_binding t b =
  match output_value t b with Some v => put_wire (pb_tb_wire_index b) v t | None => t end.
Proof.
  unfold propagate_output_binding, output_value. destruct (bound_port t b) as [[sig i]|]; [|done].
  destruct (sig_direction sig); try done. by destruct (sim_val_is_all_z _).
Qed.

Lemma outputs_root t : ts_dut (sim_propagate_outputs t) = ts_dut t.
Proof.
  unfold sim_propagate_outputs. generalize (ts_bindings t) as bs. intros bs. revert t.
  induction bs as [|b bs IH]; intros t; [done|]. cbn [fold_left]. rewrite IH, output_binding_eq.
  by destruct (output_value t b).
Qed.

Lemma output_value_root t u b : ts_dut u = ts_dut t -> output_value u b = output_value t b.
Proof. intros H. unfold output_value, bound_port, ts_root. by rewrite H. Qed.

(** Every wire with a binding of its own receives the value of its port. *)
Lemma outputs_transfer t b :
  NoDup (map pb_tb_wire_index (ts_bindings t)) -> b ∈ ts_bindings t ->
  0 <= pb_tb_wire_index b < Z.of_nat (length (ts_tb_wires t)) ->
  tw_value (wire_at (sim_propagate_outputs t) (pb_tb_wire_index b)) =
  default (wire_value t b) (output_value t b).
Proof.
  intros Hnd Hb Hi. unfold sim_propagate_outputs.
  apply list_elem_of_split in Hb as (l1 & l2 & Hl). rewrite Hl in Hnd |- *.
  rewrite map_app in Hnd. cbn [map] in Hnd.
  apply NoDup_app in Hnd as (_ & Hdisj & [Hnotin _]%NoDup_cons).
  assert (forall bs u, (forall b', b' ∈ bs -> pb_tb_wire_index b' <> pb_tb_wire_index b) ->
    let v := fold_left propagate_output_binding bs u in
    wire_at v (pb_tb_wire_index b) = wire_at u (pb_tb_wire_index b) /\ ts_dut v = ts_dut u /\
    length (ts_tb_wires v) = length (ts_tb_wires u)) as Hother.
  { induction bs as [|b' bs IH]; intros u Hbs; [done|]. cbn [fold_left]. cbv zeta in *.
    destruct (IH (propagate_output_binding u b')) as (E1 & E2 & E3).
    { intros b'' Hb''. apply Hbs. by right. }
    rewrite E1, E2, E3, output_binding_eq.
    destruct (output_value u b') as [v|]; [|done]. split_and!; [|done|apply put_wire_same].
    rewrite put_wire_at. destruct (Z.eqb_spec (pb_tb_wire_index b') (pb_tb_wire_index b)) as [Heq|];
      [|by rewrite andb_false_r].
    by destruct (Hbs b' ltac:(left)). }
  rewrite fold_left_app. cbn [fold_left].
  destruct (Hother l1 t) as (A1 & A2 & A3).
  { intros b' Hb' Heq. apply (Hdisj (pb_tb_wire_index b')); [by apply list_elem_of_fmap_2|].
    rewrite Heq. left. }
  set (t1 := fold_left propagate_output_binding l1 t) in *.
  destruct (Hother l2 (propagate_output_binding t1 b)) as (B1 & _ & _).
  { intros b' Hb' Heq. apply Hnotin. rewrite <- Heq. by apply list_elem_of_fmap_2. }
  rewrite B1, output_binding_eq, (output_value_root t t1 b A2).
  destruct (output_value t b) as [v|]; cbn; [|by rewrite A1].
  rewrite put_wire_at, A3, Z.eqb_refl.
  destruct (Z.leb_spec 0 (pb_tb_wire_index b)),
    (Z.ltb_spec (pb_tb_wire_index b) (Z.of_nat (length (ts_tb_wires t)))); done || lia.
Qed.

(** * The counters of a test

    Every step of a test adds to the expectations and failures in step with
    the recorded messages, so the verdict can be read off them. *)


Local Open Scope Z_scope.

(** Messages of failed assertions, as opposed to runtime errors of the
    simulation itself. *)
Definition is_assertion (m : FailureMsg) : bool :=
  match m with MSG_Z_EXPRESSION | MSG_NO_CONVERGENCE | MSG_TIMEOUT _ => false | _ => true end.
Definition assertions (l : list FailureMsg) : Z := Z.of_nat (length (List.filter is_assertion l)).

(** From [t] to [u], [k] expectations were evaluated: each of them passed or
    left a message, and a runtime error leaves one too; other messages come with
    a runtime error. *)
Definition tallies (k : Z) (t u : SimTestState) : Prop :=
  exists l,
    ts_failure_msgs u = ts_failure_msgs t ++ l /\
    ts_num_failed u = ts_num_failed t + Z.of_nat (length l) /\
    ts_num_expects u = ts_num_expects t + k /\
    ts_num_passed u + assertions l = ts_num_passed t + k /\
    (ts_runtime_error u = true -> ts_runtime_error t = true \/ l <> []) /\
    (ts_runtime_error t = true -> ts_runtime_error u = true) /\
    ts_num_passed t <= ts_num_passed u /\
    (ts_runtime_error u = false -> assertions l = Z.of_nat (length l)).

Lemma assertions_app l l' : assertions (l ++ l') = assertions l + assertions l'.
Proof. unfold assertions. rewrite List.filter_app, length_app. lia. Qed.

Lemma tallies_trans k k' s t u : tallies k s t -> tallies k' t u -> tallies (k + k') s u.
Proof.
  intros (l & A1 & A2 & A3 & A4 & A5 & A6 & A7 & A8) (l' & B1 & B2 & B3 & B4 & B5 & B6 & B7 & B8).
  exists (l ++ l'). rewrite length_app, assertions_app. split_and!; try lia.
  - by rewrite B1, A1, app_assoc.
  - intros [H|H]%B5; [|right; by destruct l]. apply A5 in H as [|H]; [by left|].
    right. by destruct l.
  - auto.
  - intros Hu. rewrite A8, B8; [lia|done|]. destruct (ts_runtime_error t); [|done]. by rewrite B6 in Hu.
Qed.

(** Without a runtime error, a step that is no expectation reports nothing. *)
Lemma tallies_quiet t u : tallies 0 t u -> ts_runtime_error u = false ->
  ts_failure_msgs u = ts_failure_msgs t /\ ts_runtime_error t = false.
Proof.
  intros (l & A1 & A2 & A3 & A4 & A5 & A6 & A7 & A8) Hu. specialize (A8 Hu). split.
  - destruct l as [|m l]; [by rewrite A1, app_nil_r|]. cbn [length] in A8. lia.
  - destruct (ts_runtime_error t); [|done]. by rewrite A6 in Hu.
Qed.

(** Steps that count nothing and report nothing. *)
Definition silent (t u : SimTestState) : Prop :=
  ts_failure_msgs u = ts_failure_msgs t /\ ts_num_failed u = ts_num_failed t /\
  ts_num_expects u = ts_num_expects t /\ ts_num_passed u = ts_num_passed t /\
  ts_runtime_error u = ts_runtime_error t.

#[export] Instance silent_preorder : PreOrder silent.
Proof.
  split; [done|]. intros s t u (?&?&?&?&?) (?&?&?&?&?). unfold silent. split_and!; congruence.
Qed.

Lemma silent_tallies t u : silent t u -> tallies 0 t u.
Proof.
  intros (H1 & H2 & H3 & H4 & H5). exists []. unfold assertions. cbn. rewrite app_nil_r. split_and!;
    try congruence; try lia. intros H. left. congruence.
Qed.

Lemma tallies_silent_l k s t u : silent s t -> tallies k t u -> tallies k s u.
Proof. intros H1 H2. by apply (tallies_trans 0 k s t u); [apply silent_tallies|]. Qed.
Lemma tallies_silent_r k s t u : tallies k s t -> silent t u -> tallies k s u.
Proof.
  intros H1 H2. replace k with (k + 0) by lia. by eapply tallies_trans; [|apply silent_tallies].
Qed.

Lemma report_tallies t m :
  is_assertion m = false -> tallies 0 t (record_failure m (set_ts_error true t)).
Proof.
  intros Hm. exists [m]. unfold assertions. cbn. rewrite Hm. cbn.
  split_and!; try done; try lia. by right.
Qed.

Lemma runtime_error_tallies t : tallies 0 t (propagate_ctx_runtime_error t).
Proof.
  unfold propagate_ctx_runtime_error. destruct (ts_runtime_error t); [by apply silent_tallies|].
  destruct (ctx_runtime_error _); [by apply report_tallies|by apply silent_tallies].
Qed.

Lemma settle_checked_tallies t : tallies 0 t (sim_settle_checked t).
Proof.
  unfold sim_settle_checked. destruct (sim_settle_combinational _ _) as [rc dut]. cbv zeta.
  eapply (tallies_trans 0 0); [|apply runtime_error_tallies].
  destruct (_ && _); [|by apply silent_tallies].
  eapply (tallies_silent_l 0 _ (set_dut dut t)); [done|]. by apply report_tallies.
Qed.

Lemma input_silent t b : silent t (propagate_input_binding t b).
Proof.
  unfold propagate_input_binding. destruct (bound_port t b) as [[sig i]|]; [|done].
  by destruct (sig_direction sig).
Qed.
Lemma inout_silent t b : silent t (resolve_inout_binding t b).
Proof.
  unfold resolve_inout_binding. destruct (bound_port t b) as [[sig i]|]; [|done].
  destruct (sig_direction sig); try done. by destruct (sim_val_is_all_z _).
Qed.
Lemma output_silent t b : silent t (propagate_output_binding t b).
Proof.
  unfold propagate_output_binding. destruct (bound_port t b) as [[sig i]|]; [|done].
  destruct (sig_direction sig); try done. by destruct (sim_val_is_all_z _).
Qed.

Lemma settle_inputs_tallies t : tallies 0 t (settle_inputs t).
Proof.
  unfold settle_inputs. eapply tallies_silent_l; [apply (fold_bindings silent), input_silent|].
  eapply tallies_silent_r; [apply settle_checked_tallies|].
  apply (fold_bindings silent), inout_silent.
Qed.
Lemma settle_outputs_tallies t : tallies 0 t (settle_outputs t).
Proof.
  unfold settle_outputs. eapply tallies_silent_r; [|apply (fold_bindings silent), output_silent].
  eapply tallies_silent_r; [apply settle_checked_tallies|].
  apply (fold_bindings silent), inout_silent.
Qed.
Lemma full_settle_tallies t : tallies 0 t (sim_full_settle t).
Proof.
  eapply tallies_silent_r; [apply settle_inputs_tallies|].
  apply (fold_bindings silent), output_silent.
Qed.

Lemma clock_half_tallies i p t : tallies 0 t (clock_half i p t).
Proof.
  unfold clock_half. cbv zeta. eapply tallies_silent_l; [|eapply (tallies_trans 0 0)].
  - instantiate (1 := toggle_wire i t). done.
  - apply settle_inputs_tallies.
  - eapply tallies_silent_l; [|apply settle_outputs_tallies]. done.
Qed.

Lemma clock_advance_tallies t name n : tallies 0 t (sim_clock_advance t name n).
Proof.
  unfold sim_clock_advance. cbv zeta. destruct (_ <? 0); [by apply silent_tallies|].
  match goal with |- tallies _ _ (add_cycles _ ?u) =>
    apply (tallies_silent_r 0 t u); [|done] end.
  apply for_up_ind; [by apply silent_tallies|]. intros k u _ H. eapply (tallies_trans 0 0); [exact H|apply clock_half_tallies].
Qed.

Lemma apply_assigns_silent l t : silent t (apply_assigns l t).
Proof.
  unfold apply_assigns. revert t. induction l as [|a l IH]; intros t; [done|]. cbn [fold_left].
  etrans; [|apply IH]. done.
Qed.

Lemma pass_tallies t : tallies 1 t (count_pass (count_expect t)).
Proof.
  exists []. unfold assertions. cbn. rewrite app_nil_r. split_and!; try done; try lia. by left.
Qed.

Lemma fail_tallies t m : is_assertion m = true -> tallies 1 t (record_failure m (count_expect t)).
Proof.
  intros Hm. exists [m]. unfold assertions. cbn. rewrite Hm. cbn. split_and!; try done; try lia.
  by left.
Qed.

Lemma expect_tallies symbols t n e : tallies 1 t (process_expect symbols t n e).
Proof.
  unfold process_expect. cbv zeta. destruct (ast_children n) as [|a [|b cs]];
    try by apply fail_tallies.
  destruct (sim_val_has_xz _).
  - destruct (unknown_range _) as [lo hi].
    match goal with |- tallies _ _ (record_failure ?m _) => exists [m] end. cbn.
    split_and!; try done; try lia. by right.
  - destruct (_ =? 1); [apply pass_tallies|by apply fail_tallies].
Qed.

Lemma tristate_tallies symbols t n : tallies 1 t (process_expect_tristate symbols t n).
Proof.
  unfold process_expect_tristate. cbv zeta. destruct (ast_children n) as [|a cs];
    [by apply fail_tallies|]. destruct (sim_val_is_all_z _); [apply pass_tallies|by apply fail_tallies].
Qed.

(** The directives that are expectations. *)
Definition is_expect (n : JZASTNode) : bool :=
  match ast_type n with
  | JZ_AST_TB_EXPECT_EQ | JZ_AST_TB_EXPECT_NEQ | JZ_AST_TB_EXPECT_TRI => true
  | _ => false
  end.
Definition count_expects (l : list JZASTNode) : Z := Z.of_nat (length (List.filter is_expect l)).

Lemma step_tallies symbols t n :
  tallies (if is_expect n then 1 else 0) t (test_step symbols t n).
Proof.
  unfold test_step, is_expect. destruct (ast_type n); try by apply silent_tallies.
  - unfold process_setup_update. eapply tallies_silent_l; [apply apply_assigns_silent|].
    apply full_settle_tallies.
  - unfold process_setup_update. eapply tallies_silent_l; [apply apply_assigns_silent|].
    apply full_settle_tallies.
  - eapply (tallies_trans 0 0); [apply clock_advance_tallies|apply runtime_error_tallies].
  - apply expect_tallies.
  - apply expect_tallies.
  - apply tristate_tallies.
Qed.

(** All expectations of the list are evaluated, unless a runtime error stops
    the test. *)
Lemma steps_tally symbols l t :
  exists k, tallies k t (test_steps symbols t l) /\
    (ts_runtime_error (test_steps symbols t l) = false -> k = count_expects l).
Proof.
  revert t. induction l as [|n l IH]; intros t; cbn [test_steps].
  - exists 0. split; [by apply silent_tallies|done].
  - destruct (ts_runtime_error t) eqn:E.
    { exists 0. split; [by apply silent_tallies|congruence]. }
    destruct (IH (test_step symbols t n)) as (k & H & Hk).
    exists ((if is_expect n then 1 else 0) + k).
    split; [by eapply tallies_trans; [apply step_tallies|]|].
    intros He. rewrite (Hk He). unfold count_expects. cbn. destruct (is_expect n); cbn; lia.
Qed.
