(* ===== verification/TbSpec.v ===== *)
(** * What running a test promises

    The properties of the engine, with a counter and its test bench for the
    witnesses, and then where the engine departs from what it is given. *)

From stdpp Require Import gmap.
From S2P Require Import Prelude CString Ast SimValue SimBits SimArith SimWf Util IR SimState SimEval SimDeps SimExec SimExecInv SimSettle SimFixpoint SimLiveness SimInit ConstEval SymTab TbState TbExpr TbDecls SimEngine SimEdge TbInv.


Local Open Scope Z_scope.

(** ** A counter and its test bench *)

(** Ports 0 (clock), 1 (reset) and 2 (the count); register 3 counts rising
    edges and is reset to 5. *)
Definition counter_signal (id : Z) (name : string) (kind : IR_SignalKind) (w : Z)
    (dir : IR_PortDirection) : IR_Signal :=
  mkSignal id name kind w 0 0 false false dir (mkLiteral [5; 0; 0; 0] w false) 0.

Definition counter_drive (kind : IR_AssignmentKind) (lhs : Z) (rhs : IR_Expr) : IR_Stmt :=
  StmtAssignment (mkAssignment 0 lhs rhs kind false 0 0 0).

Definition increment (id : Z) : IR_Expr :=
  ExprBinary EXPR_BINARY_ADD 4 (ExprSignalRef 4 id)
    (ExprLiteral 4 (mkLiteral [1; 0; 0; 0] 4 false)).

Definition counter_domain : IR_ClockDomain :=
  mkClockDomain 0 0 EDGE_RISING [3] 1 (-1) RESET_ACTIVE_HIGH RESET_CLOCKED
    (counter_drive ASSIGN_RECEIVE 3 (increment 3)).

Definition counter_signals : list IR_Signal :=
  [counter_signal 0 "clk" SIG_PORT 1 PORT_IN; counter_signal 1 "rst" SIG_PORT 1 PORT_IN;
   counter_signal 2 "q" SIG_PORT 4 PORT_OUT; counter_signal 3 "count" SIG_REGISTER 4 PORT_IN].

Definition counter : IR_Module :=
  mkModule 0 "counter" counter_signals [counter_domain] [] []
    (counter_drive ASSIGN_DRIVE 2 (ExprSignalRef 4 3)) false.

Definition counter_design : IR_Design := mkDesign "d" [counter].

Definition node (ty : JZASTNodeType) (name text : option string) (cs : list JZASTNode) : JZASTNode :=
  mkNode ty (mkLoc 1 1) name None text None cs.
Definition identifier (name : string) : JZASTNode :=
  node JZ_AST_EXPR_IDENTIFIER (Some name) None [].
Definition literal (text : string) : JZASTNode := node JZ_AST_EXPR_LITERAL None (Some text) [].
Definition assignment (name : string) (rhs : JZASTNode) : JZASTNode :=
  node JZ_AST_STMT_ASSIGN None (Some "<=") [identifier name; rhs].
Definition port (name wire : string) : JZASTNode :=
  node JZ_AST_PORT_DECL (Some name) None [identifier wire].

Definition counter_instance : JZASTNode :=
  node JZ_AST_MODULE_INSTANCE (Some "dut") None
    [port "clk" "clk"; port "rst" "reset"; port "q" "out"].

(** Reset for one cycle, count two edges. *)
Definition counter_test : JZASTNode :=
  node JZ_AST_TB_TEST None (Some "counts")
    [counter_instance;
     node JZ_AST_TB_SETUP None None [assignment "reset" (literal "1'b1")];
     node JZ_AST_TB_CLOCK_ADV (Some "clk") (Some "1") [];
     node JZ_AST_TB_EXPECT_EQ None None [identifier "out"; literal "4'd5"];
     node JZ_AST_TB_UPDATE None None [assignment "reset" (literal "1'b0")];
     node JZ_AST_TB_CLOCK_ADV (Some "clk") (Some "2") [];
     node JZ_AST_TB_EXPECT_EQ None None [identifier "out"; literal "4'h7"];
     node JZ_AST_TB_EXPECT_NEQ None None [identifier "out"; literal "4'b0101"]].

Definition counter_tb : JZASTNode :=
  node JZ_AST_TESTBENCH (Some "counter") None
    [node JZ_AST_TB_CLOCK_BLOCK None None [node JZ_AST_TB_CLOCK_DECL (Some "clk") None []];
     node JZ_AST_TB_WIRE_BLOCK None None
       [node JZ_AST_TB_WIRE_DECL (Some "reset") None [];
        mkNode JZ_AST_TB_WIRE_DECL (mkLoc 1 1) (Some "out") None None (Some "[4]") []];
     counter_test].

Definition counter_root : JZASTNode := node JZ_AST_MODULE None None [counter_tb].

Definition counter_context : SimContext :=
  match sim_ctx_create 1 counter counter_design 7 with
  | Created (Some ctx) => ctx
  | _ => mkContext (init_state counter 7) []
  end.

(** The test just before its first directive. *)
Definition counter_start : SimTestState :=
  sim_full_settle
    (new_test
       (default [] (collect_decls counter_tb counter_root JZ_AST_TB_CLOCK_BLOCK JZ_AST_TB_CLOCK_DECL))
       (build_port_bindings
          (default [] (collect_decls counter_tb counter_root JZ_AST_TB_CLOCK_BLOCK
                         JZ_AST_TB_CLOCK_DECL))
          counter_root counter_instance counter)
       counter_context (Some "dut")).

Example counter_test_passes :
  sim_run_test [] 1 counter_root counter_tb counter_test counter counter_design 7 = 0.
Proof. vm_compute. reflexivity. Qed.

Lemma counter_table : table_ok (ts_root counter_start).
Proof.
  apply (tables_ok (build_async_chunks (init_state counter 7))).
  - change (build_async_chunks (init_state counter 7)) with (ctx_state counter_context).
    unfold counter_start.
    exact (sp_tables _ _ (full_settle_same (new_test _ _ counter_context (Some "dut")))).
  - apply (cr_table counter), init_state_created; [done|done| |by unfold is_u32].
    split; [|by intros mem ?%not_elem_of_nil]. intros sig Hs.
    repeat (apply elem_of_cons in Hs as [->|Hs]; [done|]). by apply not_elem_of_nil in Hs.
Qed.

(** ** Clock edges *)

(** C1: a clock edge implements simultaneous register update: seen as the
    abstract synchronous machine, firing the domains of an edge runs each
    active domain in order, reset or statements, with every expression reading
    the values from before that domain, and commits the updates after each
    domain or not, as asked.  When the module has no instances the machine
    reached is the only one the abstract semantics allows. *)
Theorem sim_fire_domains_refines t port clk per_domain :
  table_ok (ts_root t) ->
  let u := sim_fire_domains_for_clock t port clk per_domain in
  let active :=
    List.filter (domain_matches port clk) (mod_clock_domains (ctx_module (ts_root t))) in
  let nested := negb (bool_decide (ctx_children (ts_dut t) = [])) in
  let steps := fires (find_signal_in_ctx (ts_root t)) per_domain nested active (view (ts_root t)) in
  steps (view (ts_root u)) /\
  (nested = false -> forall m, steps m -> m = view (ts_root u)).
Proof.
  intros Hs u active nested steps.
  assert (steps (view (ts_root u))) as H.
  { subst steps u. unfold sim_fire_domains_for_clock.
    apply (fire_domains_fires port clk per_domain _ 0 (ts_dut t)); [done|lia|done]. }
  split; [done|]. intros E m Hm. subst steps. rewrite E in *. by eapply fires_deterministic.
Qed.

Lemma sim_fire_domains_witness :
  let t := set_root (update_entry 1 (set_current (sim_val_from_uint 1 1)) (ts_root counter_start))
             counter_start in
  fires (find_signal_in_ctx (ts_root t)) true false [counter_domain] (view (ts_root t))
    (view (ts_root (sim_fire_domains_for_clock t 0 1 true))).
Proof.
  intros t. refine (proj1 (sim_fire_domains_refines t 0 1 true _)).
  apply (tables_ok (ts_root counter_start)); [apply tables_update|apply counter_table].
Defined.

Lemma apply_nba_idle s :
  (forall i, se_has_pending (entry_at s i) = false) -> apply_nba_state s = s.
Proof.
  intros H. unfold apply_nba_state. apply for_up_ind; [done|]. intros k t _ ->.
  unfold commit_entry. cbv zeta. by rewrite H.
Qed.

Lemma fire_domains_none port clk per_domain domains d ctx :
  List.filter (domain_matches port clk) domains = [] ->
  fire_domains port clk per_domain domains d ctx = ctx.
Proof.
  revert d. induction domains as [|cd domains IH]; intros d H; [done|].
  cbn [fire_domains List.filter] in *. destruct (domain_matches port clk cd); [done|by apply IH].
Qed.

(** The two engines agree on a clock that drives one domain: committing
    after the domain, as test benches do, or after all the domains of the
    edge, as simulations do, gives the same design state, instances
    included. *)
Theorem edge_policies_agree port clk domains d ctx :
  length (List.filter (domain_matches port clk) domains) = 1%nat ->
  fire_domains port clk true domains d ctx =
  sim_ctx_apply_nba (fire_domains port clk false domains d ctx).
Proof.
  revert d ctx. induction domains as [|cd domains IH]; intros d ctx H; [done|].
  cbn [fire_domains List.filter] in *. destruct (domain_matches port clk cd); [|by apply IH].
  cbn [length] in H. rewrite !fire_domains_none by (apply length_zero_iff_nil; lia). done.
Qed.

Lemma edge_policies_agree_witness :
  fire_domains 0 1 true (mod_clock_domains counter) 0 (ts_dut counter_start) =
  sim_ctx_apply_nba (fire_domains 0 1 false (mod_clock_domains counter) 0 (ts_dut counter_start)).
Proof. apply edge_policies_agree. reflexivity. Defined.

(** ** Wires and ports *)

Definition last_assigned (i : Z) (l : list (Z * SimValue)) : option SimValue :=
  option_map snd (List.find (fun a => a.1 =? i) (rev l)).

Lemma apply_assigns_at l t i :
  0 <= i < Z.of_nat (length (ts_tb_wires t)) ->
  wire_at (apply_assigns l t) i =
  match last_assigned i l with
  | Some v => set_wire_value v (wire_at t i)
  | None => wire_at t i
  end.
Proof.
  intros Hi. unfold apply_assigns, last_assigned. induction l as [|[j v] l IH] using rev_ind; [done|].
  rewrite fold_left_app, rev_unit. cbn [fold_left List.find fst snd].
  assert (same_ports t (fold_left (fun t a => put_wire a.1 a.2 t) l t)) as [_ _ _ Hlen].
  { clear IH. generalize t. induction l as [|a l IHl]; intros u; [done|]. cbn [fold_left].
    etrans; [apply put_wire_same|apply IHl]. }
  rewrite put_wire_at, Hlen. destruct (Z.eqb_spec j i) as [->|Hne].
  - destruct (Z.leb_spec 0 i), (Z.ltb_spec i (Z.of_nat (length (ts_tb_wires t)))); try lia. cbn.
    rewrite IH. by destruct (List.find _ _) as [[]|].
  - by rewrite andb_false_r.
Qed.

Lemma apply_assigns_same l t : same_ports t (apply_assigns l t).
Proof.
  unfold apply_assigns. revert t. induction l as [|a l IH]; intros t; [done|]. cbn [fold_left].
  etrans; [apply put_wire_same|apply IH].
Qed.

(** [s] assigns the expression [rhs] to the wire with index [i]. *)
Definition targets (t : SimTestState) (s : JZASTNode) (i : Z) (rhs : JZASTNode) : Prop :=
  ast_type s = JZ_AST_STMT_ASSIGN /\
  exists lhs more, ast_children s = lhs :: rhs :: more /\ ast_type lhs = JZ_AST_EXPR_IDENTIFIER /\
    find_tb_wire t (default ""%string (ast_name lhs)) = i.

Definition leaves (t : SimTestState) (i : Z) (s : JZASTNode) : Prop := forall rhs, ~ targets t s i rhs.

Lemma node_is_spec ty n : node_is ty n = true <-> ast_type n = ty.
Proof. unfold node_is. by rewrite bool_decide_eq_true. Qed.

Lemma setup_assign_targets symbols t s i rhs : 0 <= i -> targets t s i rhs ->
  setup_assign symbols t s =
    Some (i, sim_val_mask (set_width (tw_width (wire_at t i)) (eval_tb_ast_expr symbols t rhs))).
Proof.
  intros Hi (Hty & lhs & more & Hcs & Hlhs & Hw). unfold setup_assign. rewrite Hcs.
  apply node_is_spec in Hty, Hlhs. rewrite Hty, Hlhs. cbn [andb]. cbv zeta. rewrite Hw.
  by destruct (Z.ltb_spec i 0); [lia|].
Qed.

Lemma setup_assign_leaves symbols t s i a : leaves t i s -> setup_assign symbols t s = Some a -> a.1 <> i.
Proof.
  unfold setup_assign. intros Hl H. destruct (ast_children s) as [|lhs [|rhs more]] eqn:Hcs; [done..|].
  destruct (node_is _ s) eqn:Hty, (node_is _ lhs) eqn:Hlhs; try done. cbn [andb] in H. cbv zeta in H.
  destruct (_ <? 0); [done|]. injection H as <-. cbn. intros Ei. apply (Hl rhs).
  apply node_is_spec in Hty, Hlhs. split; [done|]. by exists lhs, more.
Qed.

Lemma last_assigned_end i v l l' : Forall (fun a => a.1 <> i) l' -> last_assigned i (l ++ (i, v) :: l') = Some v.
Proof.
  intros Hl. unfold last_assigned. rewrite rev_app_distr. cbn [rev]. rewrite <- app_assoc. cbn [app].
  induction l' as [|a l' IH] using rev_ind; [cbn; by rewrite Z.eqb_refl|]. rewrite rev_app_distr. cbn.
  apply Forall_app in Hl as [Hl Ha]. apply Forall_cons in Ha as [Ha _]. destruct (Z.eqb_spec a.1 i); [done|]. by apply IH.
Qed.

Lemma last_assigned_none i l : Forall (fun a => a.1 <> i) l -> last_assigned i l = None.
Proof.
  unfold last_assigned. intros Hl. destruct (List.find _ _) as [a|] eqn:E; [|done].
  apply List.find_some in E as [Hin E%Z.eqb_eq]. apply in_rev in Hin. rewrite List.Forall_forall in Hl. by apply Hl in Hin.
Qed.

Lemma assigns_leave symbols t i l : Forall (leaves t i) l -> Forall (fun a => a.1 <> i) (omap (setup_assign symbols t) l).
Proof.
  induction l as [|s l IH]; intros Hl; [constructor|]. apply Forall_cons in Hl as [Hs Hl]. cbn.
  destruct (setup_assign symbols t s) as [a|] eqn:E; [|by apply IH]. constructor; [by apply (setup_assign_leaves _ _ _ _ _ Hs E)|by apply IH].
Qed.

Lemma assigns_few symbols t l :
  (length (omap (setup_assign symbols t) l) <= length (List.filter (node_is JZ_AST_STMT_ASSIGN) l))%nat.
Proof.
  induction l as [|s l IH]; [done|]. cbn. destruct (setup_assign symbols t s) as [a|] eqn:E.
  - assert (node_is JZ_AST_STMT_ASSIGN s = true) as ->; [|by apply le_n_S].
    unfold setup_assign in E. destruct (ast_children s) as [|lhs [|rhs more]]; [done..|]. by destruct (node_is JZ_AST_STMT_ASSIGN s).
  - destruct (node_is _ s); [by apply le_S|exact IH].
Qed.

(** A value made as wide as a wire: cut off or filled with zeros. *)
Lemma resized_bits w r k : wf r -> 0 < w <= 256 -> 0 <= k < w ->
  bit_at (sim_val_mask (set_width w r)) k = if k <? sv_width r then bit_at r k else B0.
Proof.
  intros Hr Hw Hk. assert (shaped (set_width w r)) as Hs by (destruct Hr; by constructor).
  rewrite sim_val_mask_bit_at by done. change (bit_at (set_width w r) k) with (bit_at r k).
  destruct (Z.ltb_spec k (sv_width r)); [done|]. unfold bit_at. by destruct (wf_high r Hr k) as (-> & -> & ->).
Qed.

(** C12: [@setup] and [@update] assign simultaneously.  In a block of at most
    256 assignments, let [i] be a wire that no port of the design drives.  If
    the last statement that assigns to it has the right-hand side [rhs], the
    wire ends with the value of [rhs] in the state before the block, at the
    wire's declared width: cut off, or filled with zeros.  If no statement
    assigns to it, it is left as it was. *)
Theorem process_setup_update_simultaneous symbols t n i :
  0 <= i < Z.of_nat (length (ts_tb_wires t)) -> undriven t i ->
  (length (List.filter (node_is JZ_AST_STMT_ASSIGN) (ast_children n)) <= 256)%nat ->
  let before := wire_at t i in
  let final := wire_at (process_setup_update symbols t n) i in
  (forall earlier s rhs later,
     ast_children n = earlier ++ s :: later -> targets t s i rhs -> Forall (leaves t i) later ->
     let r := eval_tb_ast_expr symbols t rhs in
     wf r -> 0 < tw_width before <= 256 ->
     sv_width (tw_value final) = tw_width before /\
     forall k, 0 <= k < tw_width before ->
       bit_at (tw_value final) k = if k <? sv_width r then bit_at r k else B0) /\
  (Forall (leaves t i) (ast_children n) -> final = before).
Proof.
  intros Hi Hu Hfew before final. assert (final =
    match last_assigned i (omap (setup_assign symbols t) (ast_children n)) with
    | Some v => set_wire_value v before
    | None => before
    end) as Hfinal.
  { subst final. unfold process_setup_update.
    rewrite full_settle_undriven by (apply (undriven_same t); [apply apply_assigns_same|done]).
    rewrite apply_assigns_at by done. unfold setup_assigns. pose proof (assigns_few symbols t (ast_children n)).
    by rewrite take_ge by lia. }
  rewrite Hfinal. split.
  - intros earlier s rhs later Hcs Hs Hlater r Hr Hw. rewrite Hcs, omap_app. cbn.
    rewrite (setup_assign_targets symbols t s i rhs) by (done || lia).
    rewrite last_assigned_end by (by apply assigns_leave). cbn. split; [|intros; by apply resized_bits].
    rewrite sim_val_mask_width; [done|]. destruct Hr. by constructor.
  - intros Hall. by rewrite last_assigned_none by (by apply assigns_leave).
Qed.

(** A swap of two wires. *)
Definition swap_start : SimTestState :=
  new_test [mkTbWire "a" (sim_val_from_uint 3 4) 4 false; mkTbWire "b" (sim_val_from_uint 12 4) 4 false]
    [] counter_context None.
Definition swap_update : JZASTNode :=
  node JZ_AST_TB_UPDATE None None [assignment "a" (identifier "b"); assignment "b" (identifier "a")].

Lemma process_setup_update_witness :
  let final i := tw_value (wire_at (process_setup_update [] swap_start swap_update) i) in
  (forall k, 0 <= k < 4 -> bit_at (final 0) k = bit_at (sim_val_from_uint 12 4) k) /\
  (forall k, 0 <= k < 4 -> bit_at (final 1) k = bit_at (sim_val_from_uint 3 4) k).
Proof.
  intros final. split; intros k Hk.
  - destruct (process_setup_update_simultaneous [] swap_start swap_update 0) as [H _];
      [cbn; lia|by intros b ?%not_elem_of_nil|apply Nat.leb_le; vm_compute; reflexivity|].
    destruct (H [] (assignment "a" (identifier "b")) (identifier "b") [assignment "b" (identifier "a")]) as [_ Hb];
      [reflexivity|by repeat eexists| | |done|].
    + repeat constructor. intros rhs (_ & lhs & more & E & _ & Ei). injection E as <- <- <-. by vm_compute in Ei.
    + apply sample_wf; [lia|by split].
    + etrans; [exact (Hb k Hk)|]. replace (eval_tb_ast_expr [] swap_start (identifier "b")) with (sim_val_from_uint 12 4)
        by (vm_compute; reflexivity). by replace (k <? sv_width (sim_val_from_uint 12 4)) with true by (symmetry; apply Z.ltb_lt; apply Hk).
  - destruct (process_setup_update_simultaneous [] swap_start swap_update 1) as [H _];
      [cbn; lia|by intros b ?%not_elem_of_nil|apply Nat.leb_le; vm_compute; reflexivity|].
    destruct (H [assignment "a" (identifier "b")] (assignment "b" (identifier "a")) (identifier "a") []) as [_ Hb];
      [reflexivity|by repeat eexists|constructor| |done|].
    + apply sample_wf; [lia|by split].
    + etrans; [exact (Hb k Hk)|]. replace (eval_tb_ast_expr [] swap_start (identifier "a")) with (sim_val_from_uint 3 4)
        by (vm_compute; reflexivity). by replace (k <? sv_width (sim_val_from_uint 3 4)) with true by (symmetry; apply Z.ltb_lt; apply Hk).
Defined.

(** C26: values reach the other side: with one binding per port and per wire,
    propagating the inputs gives every bound input or inout port the value of
    its wire at the port's width and marks it for settling, and propagating the
    outputs gives every bound wire the value of its output port, an inout port
    that is not driven (all z) keeping the wire's value. *)
Theorem propagation_transfers t b sig i :
  table_ok (ts_root t) -> NoDup (map pb_port_signal_id (ts_bindings t)) ->
  NoDup (map pb_tb_wire_index (ts_bindings t)) -> b ∈ ts_bindings t ->
  bound_port t b = Some (sig, i) ->
  0 <= pb_tb_wire_index b < Z.of_nat (length (ts_tb_wires t)) ->
  (sig_direction sig <> PORT_OUT ->
   let u := sim_propagate_inputs t in
   se_current (entry_at (ts_root u) i) = at_port_width sig (wire_value t b) /\
   aget false (ctx_sig_dirty (ts_root u)) i = true /\ ctx_settle_dirty (ts_root u) = true) /\
  (let current := se_current (entry_at (ts_root t) i) in
   tw_value (wire_at (sim_propagate_outputs t) (pb_tb_wire_index b)) =
   match sig_direction sig with
   | PORT_IN => wire_value t b
   | PORT_OUT => current
   | PORT_INOUT => if sim_val_is_all_z current then wire_value t b else current
   end).
Proof.
  intros Hs Hp Hw Hb E Hi. split; [by apply inputs_transfer|]. cbv zeta.
  rewrite (outputs_transfer t b Hw Hb Hi). unfold output_value. rewrite E.
  destruct (sig_direction sig); try done. by destruct (sim_val_is_all_z _).
Qed.

Lemma propagation_transfers_witness :
  tw_value (wire_at (sim_propagate_outputs counter_start) 2) =
  se_current (entry_at (ts_root counter_start) 2).
Proof.
  refine (proj2 (propagation_transfers counter_start (mkBinding 2 2)
    (counter_signal 2 "q" SIG_PORT 4 PORT_OUT) 2 counter_table _ _ _ _ _));
    [by apply (bool_decide_unpack _); vm_compute|by apply (bool_decide_unpack _); vm_compute
    |apply (list_elem_of_lookup_2 _ 2); vm_compute; reflexivity|vm_compute; reflexivity
    |vm_compute; split; done].
Defined.

(** ** Verdicts *)

(** An expectation is exact: on a fully known signal it passes precisely
    when the expected value is known as well and the two numbers are equal, or
    different for [@expect_not_equal]; a signal with an unknown bit aborts the
    test with a runtime error and one more failure. *)
Theorem process_expect_exact symbols t n e sig val rest :
  ast_children n = sig :: val :: rest ->
  let actual := eval_tb_ast_expr symbols (count_expect t) sig in
  let expected := eval_tb_ast_expr symbols (count_expect t) val in
  wf actual -> wf expected ->
  let u := process_expect symbols t n e in
  let holds := known expected /\ (sv_uint actual =? sv_uint expected) = e in
  (known actual ->
   ts_runtime_error u = ts_runtime_error t /\
   (holds -> ts_num_passed u = ts_num_passed t + 1 /\ ts_num_failed u = ts_num_failed t) /\
   (~ holds -> ts_num_passed u = ts_num_passed t /\ ts_num_failed u = ts_num_failed t + 1)) /\
  (~ known actual -> ts_runtime_error u = true /\ ts_num_failed u = ts_num_failed t + 1).
Proof.
  intros En actual expected Ha Hx u holds. subst u. unfold process_expect. rewrite En. cbv zeta.
  fold actual expected. destruct (wf_has_xz actual Ha) as [E|[E Ka]]; rewrite E.
  { split; [intros Ka; by rewrite (known_has_xz actual Ha Ka) in E|]. intros _.
    by destruct (unknown_range actual). }
  split; [|done]. intros _.
  set (pass := sim_val_is_true ((if e then sim_val_eq else sim_val_neq) actual expected) =? 1).
  assert (pass = true <-> holds) as Hp.
  { subst pass holds. destruct (wf_has_xz expected Hx) as [Ex|[Ex Kx]].
    - assert (has_xz2 actual expected = true) as H2 by (unfold has_xz2; by rewrite Ex, orb_true_r).
      assert ((if e then sim_val_eq else sim_val_neq) actual expected = sim_val_all_x 1) as ->
        by (destruct e; [by apply eq_strict|by apply neq_strict]).
      assert (sim_val_is_true (sim_val_all_x 1) =? 1 = false) as -> by reflexivity.
      split; [done|]. intros [Kx _]. by rewrite (known_has_xz expected Hx Kx) in Ex.
    - assert (forall c, sim_val_is_true (cmp_result c) =? 1 = c) as Ht by (by intros []).
      destruct e; [rewrite eq_known by done|rewrite neq_known by done]; rewrite Ht;
        destruct (sv_uint actual =? sv_uint expected); cbn; split; try done; by intros [_ ?]. }
  destruct pass eqn:Epass; cbn; (split_and!; [done| |]); intros Hd; try done.
  - by destruct Hd; apply Hp.
  - by apply Hp in Hd.
Qed.

Lemma process_expect_exact_witness :
  ts_num_passed
    (process_expect [] counter_start
       (node JZ_AST_TB_EXPECT_NEQ None None [literal "4'd5"; literal "8'h7"]) false) = 1.
Proof.
  refine (proj1 (proj1 (proj2 (proj1 (process_expect_exact [] counter_start
    (node JZ_AST_TB_EXPECT_NEQ None None [literal "4'd5"; literal "8'h7"]) false
    (literal "4'd5") (literal "8'h7") [] eq_refl _ _) _)) _)).
  - change (wf (sim_val_from_uint 5 4)). sample.
  - change (wf (sim_val_from_uint 7 8)). sample.
  - change (known (sim_val_from_uint 5 4)). sample.
  - split; [change (known (sim_val_from_uint 7 8)); sample|vm_compute; reflexivity].
Defined.

(** What an expectation demands of the state [u] it is evaluated in: both
    values are fully known, and their numbers are equal ([e]) or different. *)
Definition compares symbols (u : SimTestState) (n : JZASTNode) (e : bool) : Prop :=
  exists sig val rest, ast_children n = sig :: val :: rest /\
    known (eval_tb_ast_expr symbols u sig) /\ known (eval_tb_ast_expr symbols u val) /\
    (sv_uint (eval_tb_ast_expr symbols u sig) =? sv_uint (eval_tb_ast_expr symbols u val)) = e.

(** Every bit of the value is z. *)
Definition floats symbols (u : SimTestState) (n : JZASTNode) : Prop :=
  exists sig rest, ast_children n = sig :: rest /\
    let v := eval_tb_ast_expr symbols u sig in forall k, 0 <= k < sv_width v -> bit_at v k = BZ.

Definition check_true symbols (u : SimTestState) (n : JZASTNode) : Prop :=
  match ast_type n with
  | JZ_AST_TB_EXPECT_EQ => compares symbols u n true
  | JZ_AST_TB_EXPECT_NEQ => compares symbols u n false
  | JZ_AST_TB_EXPECT_TRI => floats symbols u n
  | _ => True
  end.

(** The values an expectation looks at are well-formed. *)
Definition check_wf symbols (u : SimTestState) (n : JZASTNode) : Prop :=
  is_expect n = true -> Forall (fun c => wf (eval_tb_ast_expr symbols u c)) (take 2 (ast_children n)).

Lemma tallies_failed k t u : tallies k t u ->
  (ts_failure_msgs u = ts_failure_msgs t <-> ts_num_failed u = ts_num_failed t) /\
  (ts_failure_msgs u = ts_failure_msgs t -> ts_runtime_error t = false -> ts_runtime_error u = false).
Proof.
  intros (l & A1 & A2 & A3 & A4 & A5 & A6 & A7 & A8). destruct l as [|m l].
  - rewrite app_nil_r in A1. cbn in A2. split; [split; [lia|done]|]. intros _ Ht. destruct (ts_runtime_error u); [|done].
    destruct A5 as [?|?]; congruence.
  - assert (ts_failure_msgs u <> ts_failure_msgs t) as Hne.
    { rewrite A1. intros E. apply (f_equal length) in E. rewrite length_app in E. cbn in E. lia. }
    cbn [length] in A2. split; [split; [done|lia]|done].
Qed.

Lemma expect_check symbols u n e : ts_runtime_error u = false ->
  Forall (fun c => wf (eval_tb_ast_expr symbols u c)) (take 2 (ast_children n)) ->
  ts_failure_msgs (process_expect symbols u n e) = ts_failure_msgs u <->
  ts_runtime_error (process_expect symbols u n e) = false /\ compares symbols u n e.
Proof.
  intros Hu Hwf. destruct (tallies_failed _ _ _ (expect_tallies symbols u n e)) as [Hf Hr]. rewrite Hf.
  destruct (ast_children n) as [|sig [|val rest]] eqn:Hcs.
  1,2: unfold process_expect, compares; rewrite Hcs; cbn; split; [lia|]; by intros (_ & ? & ? & ? & ? & _).
  apply Forall_cons in Hwf as [Ha Hwf]. apply Forall_cons in Hwf as [Hx _].
  destruct (process_expect_exact symbols u n e sig val rest Hcs Ha Hx) as [Hknown Hunknown].
  change (eval_tb_ast_expr symbols (count_expect u)) with (eval_tb_ast_expr symbols u) in *.
  split.
  - intros Hsame. destruct (wf_has_xz _ Ha) as [E|[_ Ka]].
    + destruct Hunknown as [_ ?]; [|lia]. intros K. by rewrite (known_has_xz _ Ha K) in E.
    + destruct (Hknown Ka) as (Hre & Hyes & Hno). split; [congruence|]. exists sig, val, rest. split; [done|]. split; [done|].
      destruct (wf_has_xz _ Hx) as [Ex|[_ Kx]].
      { destruct Hno as [_ ?]; [|lia]. intros [K _]. by rewrite (known_has_xz _ Hx K) in Ex. }
      split; [done|]. destruct (Bool.bool_dec (sv_uint (eval_tb_ast_expr symbols u sig) =? sv_uint (eval_tb_ast_expr symbols u val)) e)
        as [|Hne]; [done|]. destruct Hno as [_ ?]; [|lia]. by intros [_ ?].
  - intros (_ & s & v & r & Hcs' & Ka & Kx & He). rewrite Hcs in Hcs'. injection Hcs' as <- <- <-.
    destruct (Hknown Ka) as (_ & Hyes & _). by destruct Hyes.
Qed.

Lemma tristate_check symbols u n : ts_runtime_error u = false ->
  Forall (fun c => wf (eval_tb_ast_expr symbols u c)) (take 2 (ast_children n)) ->
  ts_failure_msgs (process_expect_tristate symbols u n) = ts_failure_msgs u <->
  ts_runtime_error (process_expect_tristate symbols u n) = false /\ floats symbols u n.
Proof.
  intros Hu Hwf. destruct (tallies_failed _ _ _ (tristate_tallies symbols u n)) as [Hf Hr]. rewrite Hf.
  unfold process_expect_tristate, floats in *. cbv zeta in *. destruct (ast_children n) as [|sig rest].
  { cbn. split; [lia|]. by intros (_ & ? & ? & ? & _). }
  apply Forall_cons in Hwf as [Hs _]. change (eval_tb_ast_expr symbols (count_expect u)) with (eval_tb_ast_expr symbols u) in *.
  pose proof (sim_val_is_all_z_spec (eval_tb_ast_expr symbols u sig) (proj1 (wf_width _ Hs))) as Hz.
  destruct (sim_val_is_all_z _); cbn in *.
  - split; [|done]. intros _. split; [done|]. exists sig, rest. split; [done|]. by apply Hz.
  - split; [lia|]. intros (_ & s & r & E & Hall). injection E as <- <-. by apply Hz in Hall.
Qed.

(** A directive that starts without a runtime error adds no message exactly if
    it causes none and, being an expectation, is met. *)
Lemma step_check symbols u n : ts_runtime_error u = false -> check_wf symbols u n ->
  ts_failure_msgs (test_step symbols u n) = ts_failure_msgs u <->
  ts_runtime_error (test_step symbols u n) = false /\ check_true symbols u n.
Proof.
  intros Hu Hwf. destruct (is_expect n) eqn:En.
  - specialize (Hwf En). unfold is_expect in En. unfold test_step, check_true.
    destruct (ast_type n); try done; [by apply expect_check|by apply expect_check|by apply tristate_check].
  - pose proof (step_tallies symbols u n) as Ht. rewrite En in Ht.
    assert (check_true symbols u n) by (unfold check_true, is_expect in *; by destruct (ast_type n)).
    destruct (tallies_failed _ _ _ Ht) as [_ Hr]. split.
    + intros E. by split; [apply Hr|].
    + intros [E _]. by apply tallies_quiet in Ht as [? _].
Qed.

Lemma tallies_grow k t u : tallies k t u -> exists l, ts_failure_msgs u = ts_failure_msgs t ++ l.
Proof. intros (l & A1 & _). by exists l. Qed.

Lemma steps_check symbols l : forall u, ts_runtime_error u = false ->
  (forall before n after, l = before ++ n :: after -> check_wf symbols (test_steps symbols u before) n) ->
  ts_failure_msgs (test_steps symbols u l) = ts_failure_msgs u <->
  ts_runtime_error (test_steps symbols u l) = false /\
  forall before n after, l = before ++ n :: after -> check_true symbols (test_steps symbols u before) n.
Proof.
  induction l as [|x l IH]; intros u Hu Hwf; cbn [test_steps].
  { split; [|done]. intros _. split; [done|]. by intros [|? ?] ? ?. }
  rewrite Hu. pose proof (step_check symbols u x Hu (Hwf [] x l eq_refl)) as Hstep. set (v := test_step symbols u x) in *.
  assert (forall before n after, x :: l = (x :: before) ++ n :: after -> test_steps symbols u (x :: before) = test_steps symbols v before)
    as Hshift by (intros; cbn [test_steps]; by rewrite Hu).
  destruct (tallies_grow _ _ _ (step_tallies symbols u x)) as [l1 E1]. fold v in E1.
  destruct (steps_tally symbols l v) as (k & Hk & _). destruct (tallies_grow _ _ _ Hk) as [l2 E2].
  assert (ts_failure_msgs (test_steps symbols v l) = ts_failure_msgs u <->
    ts_failure_msgs v = ts_failure_msgs u /\ ts_failure_msgs (test_steps symbols v l) = ts_failure_msgs v) as ->.
  { split; [|by intros [<- H2]]. intros E. assert (l1 = [] /\ l2 = []) as [-> ->]; [|by rewrite E2, E1, !app_nil_r].
    rewrite E2, E1 in E. apply (f_equal length) in E. rewrite !length_app in E. split; apply nil_length_inv; lia. }
  destruct (ts_runtime_error v) eqn:Ev.
  { assert (test_steps symbols v l = v) as -> by (destruct l; cbn [test_steps]; by rewrite ?Ev). rewrite Hstep, Ev. split; by intros [[? _] _] || intros [? _]. }
  rewrite (IH v Ev), Hstep.
  2: { intros before n after E. rewrite <- (Hshift before n after) by (by rewrite E). by apply (Hwf (x :: before) n after); rewrite E. }
  split.
  - intros [[_ Hx] [Hr Hall]]. split; [done|]. intros [|y before] n after E; injection E as -> E; [exact Hx|].
    rewrite (Hshift before n after) by (by rewrite E). by apply (Hall before n after).
  - intros [Hr Hall]. split_and!; [done|by apply (Hall [] x l)|done|]. intros before n after E.
    rewrite <- (Hshift before n after) by (by rewrite E). by apply (Hall (x :: before) n after); rewrite E.
Qed.

(** The state in which the first directive of a test is executed. *)
Definition test_start (symbols : list JZSymbol) (fuel : nat) (root tb test : JZASTNode) (dut : IR_Module) (design : IR_Design)
    (seed : Z) : option SimTestState :=
  match collect_decls tb root JZ_AST_TB_CLOCK_BLOCK JZ_AST_TB_CLOCK_DECL,
        List.find (node_is JZ_AST_MODULE_INSTANCE) (ast_children test) with
  | Some wires, Some inst =>
      match sim_ctx_create fuel dut design seed with
      | Created (Some ctx) =>
          Some (sim_full_settle (new_test wires (build_port_bindings wires root inst dut) ctx (ast_name inst)))
      | _ => None
      end
  | _, _ => None
  end.

(** C11: a test succeeds exactly when no runtime error occurs and every
    expectation is met in the state its directive is reached in: for
    [@expect_equal] and [@expect_not_equal] both values are fully known and
    their numbers are equal or different, for [@expect_tristate] every bit is z.
    (The values the expectations look at are taken to be well-formed.)  A test
    that succeeds has counted every expectation as evaluated and passed. *)
Theorem sim_run_test_verdict symbols fuel root tb test dut design seed start :
  test_start symbols fuel root tb test dut design seed = Some start ->
  let at_ before := test_steps symbols start before in
  (forall before n after, ast_children test = before ++ n :: after -> check_wf symbols (at_ before) n) ->
  (sim_run_test symbols fuel root tb test dut design seed = 0 <->
   ts_runtime_error (at_ (ast_children test)) = false /\
   forall before n after, ast_children test = before ++ n :: after -> check_true symbols (at_ before) n) /\
  (sim_run_test symbols fuel root tb test dut design seed = 0 ->
   ts_num_passed (at_ (ast_children test)) = count_expects (ast_children test) /\
   ts_num_expects (at_ (ast_children test)) = count_expects (ast_children test)).
Proof.
  intros H at_ Hwf. unfold sim_run_test, run_test_body. unfold test_start in H.
  destruct (collect_decls _ _ _ _) as [wires|]; [|done].
  destruct (List.find _ _) as [inst|]; [|done].
  destruct (sim_ctx_create fuel dut design seed) as [[ctx|]|]; try done. cbv zeta. injection H as H.
  rewrite H. subst at_. cbv beta. set (t0 := new_test _ _ _ _) in H.
  destruct (steps_tally symbols (ast_children test) start) as (k & Hk & Hcount).
  pose proof (full_settle_tallies t0) as Hs. rewrite H in Hs.
  destruct (tallies_trans 0 k _ _ _ Hs Hk) as (l & A1 & A2 & A3 & A4 & A5 & A6 & A7 & A8).
  set (t := test_steps symbols start (ast_children test)) in *. cbn in A1, A2, A3, A4, A5. rewrite A2.
  assert (ts_failure_msgs t = [] <->
    ts_runtime_error t = false /\
    forall before n after, ast_children test = before ++ n :: after ->
      check_true symbols (test_steps symbols start before) n) as <-.
  { destruct (ts_runtime_error start) eqn:Es.
    - assert (t = start) as -> by (unfold t; destruct (ast_children test); cbn [test_steps]; by rewrite ?Es). split; [|by rewrite Es; intros [? _]].
      intros E. destruct Hs as (l' & B1 & _ & _ & _ & B5 & _). cbn in B1, B5. destruct (B5 Es); [done|congruence].
    - pose proof (steps_check symbols (ast_children test) start Es Hwf) as Hsc. fold t in Hsc.
      by rewrite (proj1 (tallies_quiet _ _ Hs Es)) in Hsc. }
  rewrite A1. split.
  - destruct l as [|m l]; cbn [length]; [done|]. destruct (Z.eqb_spec (0 + Z.of_nat (S (length l))) 0); [lia|]. by split.
  - destruct l as [|m l]; [|cbn [length]; by destruct (Z.eqb_spec (0 + Z.of_nat (S (length l))) 0); [lia|]]. intros _.
    assert (ts_runtime_error t = false) as E.
    { destruct (ts_runtime_error t); [|done]. by destruct (A5 eq_refl). }
    rewrite (Hcount E) in *. change (assertions []) with 0 in A4. split; lia.
Qed.

Definition counter_start_of_test : SimTestState :=
  default counter_start (test_start [] 1 counter_root counter_tb counter_test counter counter_design 7).

Lemma counter_checks before n after : ast_children counter_test = before ++ n :: after ->
  check_wf [] (test_steps [] counter_start_of_test before) n /\
  check_true [] (test_steps [] counter_start_of_test before) n.
Proof.
  assert (forall u a b x y c d, is_u64 x -> is_u64 y ->
    eval_tb_ast_expr [] u a = sim_val_from_uint x 4 -> eval_tb_ast_expr [] u b = sim_val_from_uint y 4 ->
    check_wf [] u (node c None None [a; b]) /\ ((sv_uint (sim_val_from_uint x 4) =? sv_uint (sim_val_from_uint y 4)) = d ->
      compares [] u (node c None None [a; b]) d)) as H.
  { intros u a b x y c d Hx Hy Ea Eb. split.
    - intros _. change (take 2 _) with [a; b].
      apply Forall_cons; split; [by rewrite Ea; apply sample_wf|]. apply Forall_cons; split; [by rewrite Eb; apply sample_wf|constructor].
    - intros E. exists a, b, []. rewrite Ea, Eb. split_and!; [done|by apply sample_known|by apply sample_known|done]. }
  intros E. assert (before = take (length before) (ast_children counter_test)) as -> by (by rewrite E, take_app_length).
  assert (ast_children counter_test !! length before = Some n) as Hn by (by rewrite E, list_lookup_middle).
  clear E. revert Hn. generalize (length before). intros k Hn.
  do 3 (destruct k as [|k]; [injection Hn as <-; by split|]).
  destruct k as [|k]; [|do 2 (destruct k as [|k]; [injection Hn as <-; by split|])].
  { injection Hn as <-. destruct (H (test_steps [] counter_start_of_test (take 3 (ast_children counter_test))) (identifier "out") (literal "4'd5") 5 5 JZ_AST_TB_EXPECT_EQ true) as [Hw Hc];
      [done|done|vm_compute; reflexivity|vm_compute; reflexivity|split; [exact Hw|apply Hc; reflexivity]]. }
  destruct k as [|k]; [|destruct k as [|k]; [|done]]; injection Hn as <-.
  - destruct (H (test_steps [] counter_start_of_test (take 6 (ast_children counter_test))) (identifier "out") (literal "4'h7") 7 7 JZ_AST_TB_EXPECT_EQ true) as [Hw Hc];
      [done|done|vm_compute; reflexivity|vm_compute; reflexivity|split; [exact Hw|apply Hc; reflexivity]].
  - destruct (H (test_steps [] counter_start_of_test (take 7 (ast_children counter_test))) (identifier "out") (literal "4'b0101") 7 5 JZ_AST_TB_EXPECT_NEQ false) as [Hw Hc];
      [done|done|vm_compute; reflexivity|vm_compute; reflexivity|split; [exact Hw|apply Hc; reflexivity]].
Qed.

Lemma sim_run_test_verdict_witness :
  sim_run_test [] 1 counter_root counter_tb counter_test counter counter_design 7 = 0 /\
  ts_num_passed (test_steps [] counter_start_of_test (ast_children counter_test)) = count_expects (ast_children counter_test).
Proof.
  destruct (sim_run_test_verdict [] 1 counter_root counter_tb counter_test counter counter_design 7 counter_start_of_test) as [Hv Hc].
  - vm_compute. reflexivity.
  - intros before n after E. by apply counter_checks in E as [? _].
  - assert (sim_run_test [] 1 counter_root counter_tb counter_test counter counter_design 7 = 0) as H0.
    { apply Hv. split; [vm_compute; reflexivity|]. intros before n after E. by apply counter_checks in E as [_ ?]. }
    split; [exact H0|]. by destruct (Hc H0).
Defined.

(** * Where the engine departs from what it is given

    Operators the test expressions do not know, and clocking of instances and
    resets that the engine does not do. *)


Local Open Scope Z_scope.

(** ** Expressions *)

(** The operator names [parser_expressions.c] gives to the nodes of [&], [|],
    [^], [<=], [>=], [>>>], and of the prefixes [~] and [+]. *)
Definition parsed_binary : list string := ["BIT_AND"; "BIT_OR"; "BIT_XOR"; "LE"; "GE"; "ASHR"].
Definition parsed_unary : list string := ["BIT_NOT"; "POS"].

(** The evaluator does not know the parser's names of six binary and two
    unary operators, and a slice node, which the parser builds without a name,
    has no value for it either: whatever the operands, such an expression is a
    single unknown bit, so an expectation on it is a runtime error. *)
Theorem tb_expr_misses_operators symbols t e ty op cs :
  ((ty = JZ_AST_EXPR_BINARY /\ op ∈ parsed_binary) \/ (ty = JZ_AST_EXPR_UNARY /\ op ∈ parsed_unary)
   \/ ty = JZ_AST_EXPR_SLICE) ->
  let sig := mkNode ty (mkLoc 1 1) None (Some op) None None cs in
  eval_tb_ast_expr symbols t sig = sim_val_all_x 1 /\
  forall val, ts_runtime_error
    (process_expect symbols t (node JZ_AST_TB_EXPECT_EQ None None [sig; val]) e) = true.
Proof.
  intros Hop sig. assert (forall u, eval_tb_ast_expr symbols u sig = sim_val_all_x 1) as H.
  { intros u. subst sig. destruct Hop as [[-> Hop]|[[-> Hop]| ->]].
    - destruct cs as [|a [|b cs]]; [done|done|].
      repeat (apply elem_of_cons in Hop as [->|Hop]; [done|]). by apply not_elem_of_nil in Hop.
    - destruct cs as [|a cs]; [done|].
      repeat (apply elem_of_cons in Hop as [->|Hop]; [done|]). by apply not_elem_of_nil in Hop.
    - by destruct cs. }
  split; [apply H|]. intros val. unfold process_expect. cbn [ast_children node]. cbv zeta.
  rewrite H. reflexivity.
Qed.

Lemma tb_expr_misses_operators_witness :
  eval_tb_ast_expr [] counter_start
    (mkNode JZ_AST_EXPR_UNARY (mkLoc 1 1) None (Some "BIT_NOT") None None [literal "1'b1"]) =
  sim_val_all_x 1.
Proof.
  apply (tb_expr_misses_operators [] counter_start true JZ_AST_EXPR_UNARY "BIT_NOT").
  right. left. split; [reflexivity|left].
Defined.

(** ** Instances *)

(** A module that only wires a counter to its own ports, and one that has a
    register of its own on the clock.  The instance sees the clock on its port
    0, and counts in its signal 3. *)
Definition counter_links : list IR_InstanceConnection :=
  [mkConnection 0 0 (-1) (-1) None; mkConnection 1 1 (-1) (-1) None;
   mkConnection 2 2 (-1) (-1) None].

Definition with_edge (edge : IR_ClockEdge) (reset : IR_ResetType) (cd : IR_ClockDomain) :
    IR_ClockDomain :=
  mkClockDomain (cd_id cd) (cd_clock_signal_id cd) edge (cd_register_ids cd)
    (cd_reset_signal_id cd) (cd_reset_sync_signal_id cd) (cd_reset_active cd) reset
    (cd_statements cd).

Definition child_counter (edge : IR_ClockEdge) : IR_Module :=
  mkModule 1 "child" counter_signals [with_edge edge RESET_CLOCKED counter_domain] [] []
    (mod_async_block counter) false.

Definition parent (domains : list IR_ClockDomain) : IR_Module :=
  mkModule 0 "parent" counter_signals domains [mkInstance 0 "u" 1 counter_links] [] NullStmt false.

Definition start_of (m : IR_Module) (d : IR_Design) : SimTestState :=
  match sim_ctx_create 2 m d 7 with
  | Created (Some ctx) =>
      sim_full_settle
        (new_test
           [mkTbWire "clk" (sim_val_zero 1) 1 true; mkTbWire "reset" (sim_val_zero 1) 1 false;
            mkTbWire "out" (sim_val_zero 4) 4 false]
           [mkBinding 0 0; mkBinding 1 1; mkBinding 2 2] ctx (Some "dut"))
  | _ => counter_start
  end.

(** The register of the instance, and that of the root. *)
Definition instance_count (t : SimTestState) : option SimValue :=
  resolve_ctx_signal_value (ts_dut t) "u.count".
Definition root_count (t : SimTestState) : option SimValue :=
  resolve_ctx_signal_value (ts_dut t) "count".

(** Instances are clocked only through a domain of their parent, and then
    on the parent's edge: without a matching domain in the root an edge
    changes nothing in the whole hierarchy, so an instance below a module that
    only wires it never counts, while below a parent with a rising-edge domain
    an instance declared on the falling edge counts on rising edges. *)
Theorem instances_follow_the_root t port clk per_domain :
  List.filter (domain_matches port clk) (mod_clock_domains (ctx_module (ts_root t))) = [] ->
  ts_dut (sim_fire_domains_for_clock t port clk per_domain) = ts_dut t /\
  let idle := start_of (parent []) (mkDesign "d" [parent []; child_counter EDGE_RISING]) in
  let falling := parent [counter_domain] in
  let driven := start_of falling (mkDesign "d" [falling; child_counter EDGE_FALLING]) in
  let rise u := clock_half 0 0 u in
  instance_count (sim_clock_advance idle "clk" 10) = instance_count idle /\
  instance_count driven = Some (sim_val_from_uint 8 4) /\
  instance_count (rise driven) = Some (sim_val_from_uint 9 4) /\
  instance_count (rise (rise driven)) = Some (sim_val_from_uint 9 4).
Proof.
  intros H. split; [by apply fire_domains_none|]. vm_compute. split_and!; reflexivity.
Qed.

Lemma instances_follow_the_root_witness :
  let idle := start_of (parent []) (mkDesign "d" [parent []; child_counter EDGE_RISING]) in
  ts_dut (sim_fire_domains_for_clock idle 0 1 true) = ts_dut idle.
Proof. intros idle. apply (instances_follow_the_root idle 0 1 true). reflexivity. Defined.

(** ** Resets *)

Definition immediate_counter : IR_Module :=
  mkModule 0 "counter" counter_signals [with_edge EDGE_RISING RESET_IMMEDIATE counter_domain] [] []
    (mod_async_block counter) false.

(** An immediate reset waits for a clock edge: the reset type is never
    read, so asserting the reset of a register declared with an immediate reset
    leaves the register as it is until the next active edge forces the reset
    value. *)
Theorem immediate_reset_waits :
  let t := start_of immediate_counter (mkDesign "d" [immediate_counter]) in
  let asserted :=
    process_setup_update [] t
      (node JZ_AST_TB_UPDATE None None [assignment "reset" (literal "1'b1")]) in
  child_in_reset (ts_root asserted) (with_edge EDGE_RISING RESET_IMMEDIATE counter_domain) = true /\
  root_count asserted = root_count t /\ root_count t = Some (sim_val_from_uint 7 4) /\
  root_count (clock_half 0 0 asserted) = Some (sim_val_from_uint 5 4).
Proof. vm_compute. split_and!; reflexivity. Qed.
