(* ===== verification/DivGuard.v ===== *)
(** * The division guard pass: [compiler/src/ir/ir_div_guard.c]

    The pass walks the statements of a design and warns about every division
    whose divisor it cannot prove nonzero.  Its proofs come from comparisons of
    a signal with a literal in enclosing conditions.

    A diagnostic is reduced to its rule.  The nesting counter
    [s_div_guard_depth] is passed down, as every path leaves it as it found
    it; the guard stack, the flag [s_div_guard_depth_reported] and the
    diagnostics are threaded.  A node with the [binary] layout visited as an
    intrinsic has a [NULL] third operand, nodes being allocated zeroed. *)

From S2P Require Import Prelude Util SimValue IR.

Local Open Scope Z_scope.

(** ** The guard stack *)

(** Only nonzero proofs are ever pushed, but the entries carry the flag. *)
Record GuardEntry := mkGuard { ge_signal_id : Z; ge_is_nonzero : bool }.

Definition MAX_GUARD_DEPTH : nat := 64.

(** The entries, innermost first; [count] is the length. *)
Definition GuardStack := list GuardEntry.

Definition guard_push (gs : GuardStack) (signal_id : Z) (is_nonzero : bool) : GuardStack :=
  if (length gs <? MAX_GUARD_DEPTH)%nat then mkGuard signal_id is_nonzero :: gs else gs.

Definition guard_pop (gs : GuardStack) : GuardStack := tail gs.

Definition guard_is_nonzero (gs : GuardStack) (signal_id : Z) : bool :=
  existsb (fun e => (ge_signal_id e =? signal_id) && ge_is_nonzero e) gs.

(** ** Literals and signals *)

Definition all_zero (words : list Z) : bool := forallb (Z.eqb 0) words.

Definition expr_is_zero_literal (expr : IR_Expr) : bool :=
  match expr with
  | ExprLiteral _ lit => negb (lit_is_z lit) && all_zero (lit_words lit)
  | _ => false
  end.

Definition expr_is_nonzero_literal (expr : IR_Expr) : bool :=
  match expr with
  | ExprLiteral _ lit => negb (lit_is_z lit) && negb (all_zero (lit_words lit))
  | _ => false
  end.

Definition expr_signal_id (expr : IR_Expr) : Z :=
  match expr with ExprSignalRef _ signal_id => signal_id | _ => -1 end.

(** The lowest word only, as [int64_t]. *)
Definition expr_literal_value (expr : IR_Expr) : option Z :=
  match expr with
  | ExprLiteral _ lit => if lit_is_z lit then None else Some (i64 (aget 0 (lit_words lit) 0))
  | _ => None
  end.

(** ** Conditions *)

Inductive NormCmpOp := CMP_EQ | CMP_NEQ | CMP_GT | CMP_GTE | CMP_LT | CMP_LTE.

Definition flip_cmp (op : NormCmpOp) : NormCmpOp :=
  match op with
  | CMP_EQ => CMP_EQ
  | CMP_NEQ => CMP_NEQ
  | CMP_GT => CMP_LT
  | CMP_GTE => CMP_LTE
  | CMP_LT => CMP_GT
  | CMP_LTE => CMP_GTE
  end.

Definition cmp_of_kind (k : IR_BinaryKind) : option NormCmpOp :=
  match k with
  | EXPR_BINARY_EQ => Some CMP_EQ
  | EXPR_BINARY_NEQ => Some CMP_NEQ
  | EXPR_BINARY_GT => Some CMP_GT
  | EXPR_BINARY_GTE => Some CMP_GTE
  | EXPR_BINARY_LT => Some CMP_LT
  | EXPR_BINARY_LTE => Some CMP_LTE
  | _ => None
  end.

(** The signal and the literal value of a pair of operands. *)
Definition signal_and_literal (sig lit : IR_Expr) : option (Z * Z) :=
  let id := expr_signal_id sig in
  match expr_literal_value lit with
  | Some val => if 0 <=? id then Some (id, u64 val) else None
  | None => None
  end.

Definition normalize_cmp (cond : IR_Expr) : option (Z * NormCmpOp * Z) :=
  match cond with
  | ExprBinary k _ lhs rhs =>
      match cmp_of_kind k with
      | None => None
      | Some op =>
          match signal_and_literal lhs rhs with
          | Some (sig, val) => Some (sig, op, val)
          | None =>
              match signal_and_literal rhs lhs with
              | Some (sig, val) => Some (sig, flip_cmp op, val)
              | None => None
              end
          end
      end
  | _ => None
  end.

(** Whether the branches prove [sig] nonzero: THEN and ELSE. *)
Definition branch_proofs (op : NormCmpOp) (val : Z) : bool * bool :=
  match op with
  | CMP_NEQ => if val =? 0 then (true, false) else (false, true)
  | CMP_EQ => if negb (val =? 0) then (true, false) else (false, true)
  | CMP_GT => (true, false)
  | CMP_GTE => (1 <=? val, false)
  | CMP_LT => (false, 1 <=? val)
  | CMP_LTE => (false, true)
  end.

Definition extract_nonzero_guard (cond : IR_Expr) : option (Z * bool * bool) :=
  match normalize_cmp cond with
  | None => None
  | Some (sig, op, val) =>
      let '(then_nonzero, else_nonzero) := branch_proofs op val in
      if then_nonzero || else_nonzero then Some (sig, then_nonzero, else_nonzero) else None
  end.

(** ** Diagnostics *)

Inductive DivRule := IR_DIV_GUARD_DEPTH_LIMIT_EXCEEDED | DIV_UNGUARDED_RUNTIME_ZERO.

Record DivReports := mkReports {
  s_div_guard_depth_reported : bool;
  div_diagnostics : list DivRule
}.

Definition report_div_guard_depth (r : DivReports) : DivReports :=
  if s_div_guard_depth_reported r then r
  else mkReports true (div_diagnostics r ++ [IR_DIV_GUARD_DEPTH_LIMIT_EXCEEDED]).

Definition report_unguarded_div (r : DivReports) : DivReports :=
  mkReports (s_div_guard_depth_reported r) (div_diagnostics r ++ [DIV_UNGUARDED_RUNTIME_ZERO]).

(** ** Expressions *)

(** The test on the divisor of a [DIV] or [MOD]. *)
Definition check_divisor (guards : GuardStack) (divisor : IR_Expr) (r : DivReports) : DivReports :=
  match divisor with
  | NullExpr => r
  | _ =>
      if expr_is_nonzero_literal divisor then r
      else if expr_is_zero_literal divisor then r
      else
        let sig := expr_signal_id divisor in
        if (sig <? 0) || negb (guard_is_nonzero guards sig) then report_unguarded_div r else r
  end.

Definition is_division (k : IR_BinaryKind) : bool :=
  match k with EXPR_BINARY_DIV | EXPR_BINARY_MOD => true | _ => false end.

Fixpoint check_expr_for_div (depth : Z) (guards : GuardStack) (expr : IR_Expr) (r : DivReports)
    {struct expr} : DivReports :=
  match expr with
  | NullExpr => r
  | _ =>
      match jz_depth_enter_checked depth JZ_LIMIT_IR_STATEMENT_DEPTH with
      | None => report_div_guard_depth r
      | Some depth =>
          match expr with
          | NullExpr | ExprLiteral _ _ | ExprSignalRef _ _ => r
          | ExprUnary _ _ operand => check_expr_for_div depth guards operand r
          | ExprBinary k _ lhs rhs =>
              let r := if is_division k then check_divisor guards rhs r else r in
              let r := check_expr_for_div depth guards lhs r in
              check_expr_for_div depth guards rhs r
          | ExprTernary _ condition true_val false_val =>
              let r := check_expr_for_div depth guards condition r in
              let r := check_expr_for_div depth guards true_val r in
              check_expr_for_div depth guards false_val r
          | ExprConcat _ operands =>
              fold_left (fun r e => check_expr_for_div depth guards e r) operands r
          | ExprSlice _ _ base_expr _ _ => check_expr_for_div depth guards base_expr r
          | ExprIntrinsic _ _ source index value _ =>
              let r := check_expr_for_div depth guards source r in
              let r := check_expr_for_div depth guards index r in
              check_expr_for_div depth guards value r
          | ExprMemRead _ _ _ address => check_expr_for_div depth guards address r
          end
      end
  end.

(** ** Statements *)

Definition GuardState : Type := GuardStack * DivReports.

Definition check_expr (depth : Z) (expr : IR_Expr) (st : GuardState) : GuardState :=
  (fst st, check_expr_for_div depth (fst st) expr (snd st)).

(** Run [check] between a push and a pop when [use]. *)
Definition under_guard (use : bool) (sig : Z) (check : GuardState -> GuardState)
    (st : GuardState) : GuardState :=
  if use then
    let st := check (guard_push (fst st) sig true, snd st) in
    (guard_pop (fst st), snd st)
  else check st.

Definition guard_of (cond : IR_Expr) : Z * bool * bool :=
  match extract_nonzero_guard cond with Some g => g | None => (-1, false, false) end.

Fixpoint check_stmt_for_div (depth : Z) (stmt : IR_Stmt) (st : GuardState) {struct stmt} :
    GuardState :=
  match stmt with
  | NullStmt => st
  | _ =>
      match jz_depth_enter_checked depth JZ_LIMIT_IR_STATEMENT_DEPTH with
      | None => (fst st, report_div_guard_depth (snd st))
      | Some depth =>
          match stmt with
          | NullStmt => st
          | StmtAssignment asgn => check_expr depth (asgn_rhs asgn) st
          | StmtMemWrite _ _ address data => check_expr depth data (check_expr depth address st)
          | StmtBlock stmts => fold_left (fun st s => check_stmt_for_div depth s st) stmts st
          | StmtIf condition then_block elif_chain else_block =>
              let st := check_expr depth condition st in
              let '(sig, then_nonzero, else_nonzero) := guard_of condition in
              let st := under_guard then_nonzero sig (check_stmt_for_div depth then_block) st in
              let st := check_stmt_for_div depth elif_chain st in
              under_guard else_nonzero sig (check_stmt_for_div depth else_block) st
          | StmtSelect selector cases =>
              let st := check_expr depth selector st in
              fold_left (fun st c =>
                let '(case_value, body) := c in
                check_stmt_for_div depth body (check_expr depth case_value st)) cases st
          end
      end
  end.

(** ** Designs *)

(** One module; the flag is reset, the diagnostics accumulate. *)
Definition check_module (diags : list DivRule) (m : IR_Module) : list DivRule :=
  if mod_eliminated m then diags
  else
    let '(_, r) := check_stmt_for_div 0 (mod_async_block m) ([], mkReports false diags) in
    div_diagnostics
      (fold_left (fun r cd => snd (check_stmt_for_div 0 (cd_statements cd) ([], r)))
         (mod_clock_domains m) r).

Definition jz_ir_div_guard_check (design : IR_Design) : list DivRule :=
  fold_left check_module (design_modules design) [].
