(* ===== verification/DivSound.v ===== *)
(** * The division guard pass is sound

    [trace_stmt] instruments the execution of a statement with the expressions
    it evaluates and the states it evaluates them in.  When the pass is silent
    about the statements of a clock domain, no division they evaluate has a
    divisor that is zero or unknown, apart from divisors that are zero literals
    (which another pass reports). *)

From S2P Require Import Prelude Util SimValue SimBits SimArith SimBitwise SimWf SimSpec IR SimState SimEval SimDeps SimExec SimExecInv SimSettle SimLiveness SimInit DivGuard.

Local Open Scope Z_scope.

(** ** Instrumented execution *)

Definition Event : Type := SimModuleState * IR_Expr.

(** Evaluate, recording the evaluation. *)
Definition traced_eval (s : SimModuleState) (e : IR_Expr) : SimValue * SimModuleState * list Event :=
  (eval_in s e, [(s, e)]).

Definition Traced : Type := SimModuleState * list Event.

Definition record (events : list Event) (t : Traced) : Traced := (fst t, events ++ snd t).

Section Trace.
Context (exec : SimModuleState -> IR_Stmt -> Traced).

Fixpoint trace_cases (selector : SimValue) (cases : list (IR_Expr * IR_Stmt)) (s : SimModuleState) :
    Traced :=
  match cases with
  | [] => (s, [])
  | (case_value, body) :: cases' =>
      if expr_is_null case_value then exec s body
      else
        let '(cv, u) := eval_in s case_value in
        record [(s, case_value)]
          (if sim_val_is_true (sim_val_eq selector cv) =? 1 then exec u body
           else trace_cases selector cases' u)
  end.

Fixpoint trace_elif (else_block elif : IR_Stmt) (s : SimModuleState) : Traced :=
  match elif with
  | StmtIf condition then_block elif_chain _ =>
      let '(ec, u) := eval_in s condition in
      record [(s, condition)]
        (if sim_val_is_true ec =? -1 then (set_runtime_error true u, [])
         else if sim_val_is_true ec =? 1 then exec u then_block
         else trace_elif else_block elif_chain u)
  | _ => exec s else_block
  end.

Fixpoint trace_block (stmts : list IR_Stmt) (s : SimModuleState) : Traced :=
  match stmts with
  | [] => (s, [])
  | stmt :: stmts' =>
      let t := exec s stmt in
      record (snd t) (trace_block stmts' (fst t))
  end.
End Trace.

(** The expressions an assignment or a memory write evaluates. *)
Definition trace_assign (s : SimModuleState) (a : IR_Assignment) : list Event :=
  match sim_ctx_lookup s (asgn_lhs_signal_id a) with Some _ => [(s, asgn_rhs a)] | None => [] end.

Definition trace_mem_write (s : SimModuleState) (m : string) (address data : IR_Expr) : list Event :=
  match sim_ctx_lookup_mem s m with
  | Some i =>
      match ctx_memories s !! i with
      | Some _ => [(s, address); (snd (eval_in s address), data)]
      | None => []
      end
  | None => []
  end.

Fixpoint trace_stmt (is_nba : bool) (s : SimModuleState) (stmt : IR_Stmt) {struct stmt} : Traced :=
  match stmt with
  | NullStmt => (s, [])
  | StmtAssignment asgn => (apply_assign s asgn is_nba, trace_assign s asgn)
  | StmtIf condition then_block elif_chain else_block =>
      let '(cond, u) := eval_in s condition in
      record [(s, condition)]
        (if sim_val_is_true cond =? -1 then (set_runtime_error true u, [])
         else if sim_val_is_true cond =? 1 then trace_stmt is_nba u then_block
         else trace_elif (trace_stmt is_nba) else_block elif_chain u)
  | StmtSelect selector cases =>
      let '(sel, u) := eval_in s selector in
      record [(s, selector)]
        (if sim_val_has_xz sel then (set_runtime_error true u, [])
         else trace_cases (trace_stmt is_nba) sel cases u)
  | StmtBlock stmts => trace_block (trace_stmt is_nba) stmts s
  | StmtMemWrite m _ address data => (exec_mem_write s m address data, trace_mem_write s m address data)
  end.

(** Instrumentation does not change what is executed. *)
Lemma trace_exec nba stmt s : fst (trace_stmt nba s stmt) = sim_exec_stmt nba s stmt.
Proof.
  enough ((forall s, fst (trace_stmt nba s stmt) = sim_exec_stmt nba s stmt) /\
    forall els, (forall s, fst (trace_stmt nba s els) = sim_exec_stmt nba s els) ->
      forall s, fst (trace_elif (trace_stmt nba) els stmt s) =
                exec_elif (sim_exec_stmt nba) els stmt s) as [H _] by apply H.
  clear s. induction stmt as [|a|c t el els IHt IHel IHels|sel cs IHcs|ss IHss|m p a d]
    using IR_Stmt_ind'; (split; [|try (intros els Hels s; apply Hels)]).
  - done.
  - done.
  - intros s. cbn [trace_stmt sim_exec_stmt]. destruct (eval_in s c) as [v u]. cbn [record fst].
    destruct (_ =? -1); [done|]. destruct (_ =? 1); [apply IHt|]. apply IHel, IHels.
  - intros els' Hels s. cbn [trace_elif exec_elif]. destruct (eval_in s c) as [v u].
    cbn [record fst]. destruct (_ =? -1); [done|]. destruct (_ =? 1); [apply IHt|]. by apply IHel.
  - intros s. cbn [trace_stmt sim_exec_stmt]. destruct (eval_in s sel) as [v u]. cbn [record fst].
    destruct (sim_val_has_xz v); [done|]. revert u.
    induction IHcs as [|[cv body] cs [Hb _] _ IH]; intros u; [done|]. cbn [trace_cases exec_cases].
    destruct (expr_is_null cv); [apply Hb|]. destruct (eval_in u cv) as [w u']. cbn [record fst].
    destruct (_ =? 1); [apply Hb|apply IH].
  - cbn [trace_stmt sim_exec_stmt]. induction IHss as [|s0 ss [Hs _] _ IH]; intros s; [done|].
    cbn [trace_block exec_block record fst]. by rewrite IH, Hs.
  - done.
Qed.

(** ** What comparisons prove *)

Definition op_holds (op : NormCmpOp) (x y : Z) : bool :=
  match op with
  | CMP_EQ => x =? y
  | CMP_NEQ => negb (x =? y)
  | CMP_GT => y <? x
  | CMP_GTE => y <=? x
  | CMP_LT => x <? y
  | CMP_LTE => x <=? y
  end.

Lemma op_holds_flip op x y : op_holds (flip_cmp op) x y = op_holds op y x.
Proof. destruct op; cbn; rewrite ?(Z.eqb_sym x y); done. Qed.

Lemma branch_proofs_sound op x n b :
  0 <= x -> 0 <= n -> op_holds op x n = b ->
  (if b then fst else snd) (branch_proofs op n) = true -> x <> 0.
Proof. intros Hx Hn <-. destruct op; cbn; repeat case_match; cbn; lia. Qed.

(** A comparison is unknown, or its operands are known and it decides them. *)
Lemma comparison_truth k op w a b :
  cmp_of_kind k = Some op -> wf a -> wf b ->
  sim_val_is_true (eval_binary k w a b) = -1 \/
  known a /\ known b /\
  sim_val_is_true (eval_binary k w a b) = bool_to_int (op_holds op (sv_uint a) (sv_uint b)).
Proof.
  intros Hk Ha Hb. destruct (known_cases a b Ha Hb) as [H|(_ & Ka & Kb)]; [left|right].
  - destruct k; try done; cbn [eval_binary];
      (rewrite eq_strict || rewrite neq_strict || rewrite lt_strict || rewrite gt_strict
       || rewrite lte_strict || rewrite gte_strict); done.
  - split_and!; [done..|].
    destruct (compare_known a b Ha Hb Ka Kb) as (E1 & E2 & E3 & E4 & E5 & E6).
    destruct k; try done; injection Hk as <-; cbn [eval_binary op_holds];
      (rewrite E1 || rewrite E2 || rewrite E3 || rewrite E4 || rewrite E5 || rewrite E6);
      match goal with |- sim_val_is_true (cmp_result ?t) = _ => destruct t end; reflexivity.
Qed.

(** A literal that fits its width. *)
Definition lit_fits (lit : IR_Literal) : bool :=
  (length (lit_words lit) =? 4)%nat
  && forallb (fun x => (0 <=? x) && (x <? 2 ^ 64)) (lit_words lit)
  && (0 <? lit_width lit) && (lit_width lit <=? 256)
  && (words_to_Z (lit_words lit) <? 2 ^ lit_width lit).

Lemma eval_literal_num w lit :
  lit_fits lit = true -> lit_is_z lit = false ->
  words_ok 4 (lit_words lit) /\
  is_num (eval_literal w lit) (lit_width lit) (words_to_Z (lit_words lit)).
Proof.
  intros H Hz. unfold lit_fits in H. rewrite !andb_true_iff in H.
  destruct H as [[[[Hl Hws] Hw1] Hw2] Hn].
  assert (words_ok 4 (lit_words lit)) as Hok.
  { split; [by apply Nat.eqb_eq|]. apply Forall_forall. intros x Hx.
    rewrite forallb_forall in Hws. apply list_elem_of_In in Hx. specialize (Hws x Hx).
    unfold is_u64. lia. }
  split; [done|]. pose proof (from_words_is_num (lit_words lit) (lit_width lit) Hok ltac:(lia)) as Hi.
  pose proof (words_to_Z_nonneg 4 _ Hok). rewrite Z.mod_small in Hi by lia.
  unfold eval_literal. cbv zeta. rewrite Hz. change IR_LIT_WORDS with SIM_VAL_WORDS.
  rewrite (in_width _ _ _ Hi). destruct (Z.eqb_spec (lit_width lit) 0); [lia|done].
Qed.

(** ** Signals known to be nonzero *)

Definition nonzero_value (v : SimValue) : Prop := wf v /\ known v /\ sv_uint v <> 0.

Definition nonzero_signal (s : SimModuleState) (id : Z) : Prop :=
  exists v, sig_current s id = Some v /\ nonzero_value v.

(** The stored values are well formed. *)
Definition signals_wf (s : SimModuleState) : Prop :=
  forall id v, sig_current s id = Some v -> wf v.

Definition guards_true (s : SimModuleState) (gs : GuardStack) : Prop :=
  forall g, g ∈ gs -> nonzero_signal s (ge_signal_id g).

(** The literals a condition compares with fit their width and 64 bits. *)
Definition operand_fits (e : IR_Expr) : bool :=
  match e with
  | ExprLiteral _ lit => lit_fits lit && (words_to_Z (lit_words lit) <? 2 ^ 64)
  | ExprSignalRef w _ => (0 <=? w) && (w <=? 256)
  | _ => true
  end.

Definition cond_fits (c : IR_Expr) : bool :=
  match c with ExprBinary _ _ l r => operand_fits l && operand_fits r | _ => true end.

Lemma small_words words n :
  words_ok 4 words -> words_to_Z words = n -> n < 2 ^ 64 -> aget 0 words 0 = n.
Proof.
  intros [Hl Hws] <- Hn. destruct words as [|a [|b [|c [|d [|]]]]]; try done.
  rewrite !Forall_cons in Hws. destruct Hws as (Ha & Hb & Hc & Hd & _).
  unfold is_u64 in *. cbn [words_to_Z] in *. change (aget 0 [a; b; c; d] 0) with a. lia.
Qed.

Lemma u64_i64 x : 0 <= x < 2 ^ 64 -> u64 (i64 x) = x.
Proof.
  intros Hx. unfold u64, i64, swrap. rewrite Zminus_mod_idemp_l.
  replace (x + 2 ^ (64 - 1) - 2 ^ (64 - 1)) with x by lia. by apply Z.mod_small.
Qed.

Lemma value_binary {C} `{SignalStore C} (c : C) k w l r :
  eval_value c (ExprBinary k w l r) = eval_binary k w (eval_value c l) (eval_value c r).
Proof.
  unfold eval_value at 1. cbn [sim_eval_expr]. unfold mbind, EvalM_bind.
  rewrite (eval_split c l). cbv beta iota. by rewrite (eval_split c r).
Qed.

Lemma literal_operand w e id val :
  signal_and_literal w e = Some (id, val) -> operand_fits w && operand_fits e = true ->
  0 <= id /\ (exists sw, w = ExprSignalRef sw id /\ 0 <= sw <= 256) /\
  exists lw lit, e = ExprLiteral lw lit /\ is_num (eval_literal lw lit) (lit_width lit) val.
Proof.
  unfold signal_and_literal. intros H [Hw He]%andb_true_iff.
  destruct e as [|lw lit| | | | | | | |]; try done. cbn [expr_literal_value operand_fits] in *.
  destruct (lit_is_z lit) eqn:Ez; [done|].
  destruct (Z.leb_spec 0 (expr_signal_id w)) as [Hid|]; [|done]. injection H as <- <-.
  destruct w as [| |sw id0| | | | | | |]; try (cbn in Hid; lia). cbn [expr_signal_id operand_fits] in *.
  split; [done|]. split; [exists sw; split; [done|lia]|].
  exists lw, lit. split; [done|]. apply andb_true_iff in He as [Hf H64].
  destruct (eval_literal_num lw lit Hf Ez) as [Hok Hn].
  pose proof (words_to_Z_nonneg 4 _ Hok).
  rewrite (small_words _ _ Hok eq_refl) by lia.
  replace (u64 (i64 (words_to_Z (lit_words lit)))) with (words_to_Z (lit_words lit)); [done|].
  rewrite u64_i64; lia.
Qed.

Section Conditions.
Context (s : SimModuleState).
Context (Hs : signals_wf s).

Lemma signal_value_wf w id : 0 <= w <= 256 -> wf (eval_value s (ExprSignalRef w id)).
Proof using Hs.
  intros Hw. unfold eval_value. cbn [sim_eval_expr fst mret EvalM_ret].
  destruct (sig_current s id) as [v|] eqn:E; [by apply (Hs id)|].
  apply sim_val_all_x_wf. unfold width_or. destruct (Z.ltb_spec 0 w); lia.
Qed.

Lemma all_x_unknown w : 0 < w <= 256 -> ~ known (sim_val_all_x w).
Proof using Type.
  intros Hw H. specialize (H 0). rewrite (proj2 (all_x_shape w Hw)) in H.
  rewrite sim_val_all_x_bit_at in H by lia. specialize (H ltac:(lia)). done.
Qed.

Lemma signal_value_known w id :
  0 <= w <= 256 -> known (eval_value s (ExprSignalRef w id)) ->
  sv_uint (eval_value s (ExprSignalRef w id)) <> 0 -> nonzero_signal s id.
Proof using Hs.
  intros Hw Hk Hn. pose proof (signal_value_wf w id Hw) as Hwf.
  unfold eval_value in *. cbn [sim_eval_expr fst mret EvalM_ret] in *.
  destruct (sig_current s id) as [v|] eqn:E; [by exists v|]. exfalso.
  apply (all_x_unknown (width_or w 1)); [|done]. unfold width_or. destruct (Z.ltb_spec 0 w); lia.
Qed.

Lemma decided_nonzero op sw id n t :
  0 <= sw <= 256 -> 0 <= n -> known (eval_value s (ExprSignalRef sw id)) ->
  t = bool_to_int (op_holds op (sv_uint (eval_value s (ExprSignalRef sw id))) n) ->
  (if t =? 1 then fst else snd) (branch_proofs op n) = true -> nonzero_signal s id.
Proof using Hs.
  intros Hsw Hn K -> Hp. apply (signal_value_known sw); [done..|].
  destruct (sv_uint_bounds _ (signal_value_wf sw id Hsw)) as [Hx _].
  apply (branch_proofs_sound op _ n _ Hx Hn eq_refl).
  by destruct (op_holds _ _ _).
Qed.

(** The branch taken proves what the pass takes it to prove. *)
Lemma guard_sound c sig tn en (t := sim_val_is_true (eval_value s c)) :
  extract_nonzero_guard c = Some (sig, tn, en) -> cond_fits c = true -> t <> -1 ->
  (if t =? 1 then tn else en) = true -> nonzero_signal s sig.
Proof using Hs.
  unfold extract_nonzero_guard, normalize_cmp. intros He Hc Ht Hp.
  destruct c as [| | | |k w l r| | | | |]; try done. cbn [cond_fits] in Hc.
  destruct (cmp_of_kind k) as [op|] eqn:Ek; [|done].
  assert (t = sim_val_is_true (eval_binary k w (eval_value s l) (eval_value s r))) as Et
    by (unfold t; by rewrite value_binary).
  destruct (signal_and_literal l r) as [[id val]|] eqn:E1;
    [|destruct (signal_and_literal r l) as [[id val]|] eqn:E2; [|done]];
    destruct (branch_proofs _ val) as [tn' en'] eqn:Eb;
    (destruct (tn' || en'); [|done]); injection He as <- <- <-;
    [apply (literal_operand _ _ _ _ E1) in Hc|rewrite andb_comm in Hc; apply (literal_operand _ _ _ _ E2) in Hc];
    destruct Hc as (Hid & (sw & -> & Hsw) & lw & lit & -> & [L1 L2 _ L4]);
    change (eval_value s (ExprLiteral lw lit)) with (eval_literal lw lit) in Et;
    pose proof (signal_value_wf sw id Hsw) as Hwf;
    (assert (0 <= val) by (rewrite <- L4; apply sv_uint_bounds, L1)).
  - destruct (comparison_truth k op w _ _ Ek Hwf L1) as [E|(K & _ & E)]; [congruence|].
    rewrite <- Et, L4 in E. apply (decided_nonzero op sw id val t); [done..|].
    rewrite Eb. by destruct (t =? 1).
  - destruct (comparison_truth k op w _ _ Ek L1 Hwf) as [E|(_ & K & E)]; [congruence|].
    rewrite <- Et, L4, <- op_holds_flip in E.
    apply (decided_nonzero (flip_cmp op) sw id val t); [done..|].
    rewrite Eb. by destruct (t =? 1).
Qed.
End Conditions.

(** ** The pass on expressions *)

(** The divisors that occur in an expression. *)
Fixpoint divisors (e : IR_Expr) : list IR_Expr :=
  match e with
  | NullExpr | ExprLiteral _ _ | ExprSignalRef _ _ => []
  | ExprUnary _ _ a => divisors a
  | ExprBinary k _ l r =>
      (if is_division k && negb (expr_is_null r) then [r] else []) ++ divisors l ++ divisors r
  | ExprTernary _ c t f => divisors c ++ divisors t ++ divisors f
  | ExprConcat _ es => flat_map divisors es
  | ExprSlice _ _ b _ _ => divisors b
  | ExprIntrinsic _ _ s i v _ => divisors s ++ divisors i ++ divisors v
  | ExprMemRead _ _ _ a => divisors a
  end.

Definition cleared (gs : GuardStack) (d : IR_Expr) : Prop :=
  expr_is_zero_literal d = true \/ expr_is_nonzero_literal d = true \/
  exists w id, d = ExprSignalRef w id /\ guard_is_nonzero gs id = true.

Definition all_cleared (gs : GuardStack) (e : IR_Expr) : Prop :=
  forall d, d ∈ divisors e -> cleared gs d.

(** A step adds diagnostics; a silent one that starts with the flag down
    leaves it down and establishes [Q]. *)
Definition count (r : DivReports) : nat := length (div_diagnostics r).

Record step (r r' : DivReports) (Q : Prop) : Prop := {
  step_grows : (count r <= count r')%nat;
  step_silent : count r' = count r -> s_div_guard_depth_reported r = false ->
    s_div_guard_depth_reported r' = false /\ Q
}.

Lemma step_refl r (Q : Prop) : Q -> step r r Q.
Proof. by constructor. Qed.

Lemma step_trans r1 r2 r3 (P Q : Prop) :
  step r1 r2 P -> step r2 r3 Q -> step r1 r3 (P /\ Q).
Proof.
  intros [G1 H1] [G2 H2]. constructor; [lia|]. intros E F.
  destruct (H1 ltac:(lia) F) as [F' HP]. destruct (H2 ltac:(lia) F') as [F'' HQ]. done.
Qed.

Lemma step_weaken r r' (P Q : Prop) : (P -> Q) -> step r r' P -> step r r' Q.
Proof. intros HPQ [G H]. constructor; [done|]. intros E F. destruct (H E F). auto. Qed.

(** The depth limit is reported when it is first met. *)
Lemma step_depth r (Q : Prop) : step r (report_div_guard_depth r) Q.
Proof.
  unfold report_div_guard_depth. constructor.
  - destruct (s_div_guard_depth_reported r); [done|]. unfold count. cbn. rewrite length_app. lia.
  - intros E F. rewrite F in E. unfold count in E. cbn in E. rewrite length_app in E. cbn in E. lia.
Qed.

Lemma step_fold {A} (f : DivReports -> A -> DivReports) (P : A -> Prop) l r :
  (forall x, x ∈ l -> forall r, step r (f r x) (P x)) ->
  step r (fold_left f l r) (forall x, x ∈ l -> P x).
Proof.
  revert r. induction l as [|x l IH]; intros r H; cbn [fold_left].
  - apply step_refl. by intros x Hx%not_elem_of_nil.
  - eapply step_weaken; [|apply (step_trans _ (f r x) _ (P x) (forall y, y ∈ l -> P y))].
    + intros [H1 H2] y [->|Hy]%elem_of_cons; auto.
    + apply H. by left.
    + apply IH. intros y Hy. apply H. by right.
Qed.

Lemma check_divisor_step gs d r :
  step r (check_divisor gs d r) (expr_is_null d = false -> cleared gs d).
Proof.
  unfold check_divisor. destruct (expr_is_nonzero_literal d) eqn:E1.
  { destruct d; try done; apply step_refl; intros _; right; by left. }
  destruct (expr_is_zero_literal d) eqn:E2.
  { destruct d; try done; apply step_refl; intros _; by left. }
  assert (forall Q, step r (report_unguarded_div r) Q) as Hrep.
  { intros Q. constructor; unfold count, report_unguarded_div; cbn; rewrite length_app; cbn; lia. }
  destruct d as [|w l|w id| | | | | | |]; try (apply Hrep); [by apply step_refl|].
  cbn [expr_signal_id]. destruct (Z.ltb_spec id 0); [apply Hrep|]. cbn [orb].
  destruct (guard_is_nonzero gs id) eqn:Eg; [|apply Hrep]. apply step_refl. intros _.
  right. right. by exists w, id.
Qed.

Lemma check_expr_step gs e : forall depth r,
  step r (check_expr_for_div depth gs e r) (all_cleared gs e).
Proof.
  unfold all_cleared.
  induction e as [| | |k w e IHe|k w l r0 IHl IHr|w c t f IHc IHt IHf|w es IHes
    |w i b msb lsb IHb|k w s i v ew IHs IHi IHv|w m p a IHa] using IR_Expr_ind';
    intros depth r; cbn [check_expr_for_div divisors];
    try (destruct (jz_depth_enter_checked depth _) as [depth'|]; [|apply step_depth]);
    try (apply step_refl; by intros d Hd%not_elem_of_nil).
  - apply IHe.
  - set (own := forall d, d ∈ (if is_division k && negb (expr_is_null r0) then [r0] else []) ->
      cleared gs d).
    eapply step_weaken; [|eapply (step_trans _ _ _ own); [|eapply step_trans; [apply IHl|apply IHr]]].
    + intros (H1 & H2 & H3) d. rewrite !elem_of_app. intros [Hd|[Hd|Hd]]; [|auto..].
      apply H1, Hd.
    + destruct (is_division k); cbn [andb].
      * eapply step_weaken; [|apply check_divisor_step]. cbv beta. intros H d Hd.
        destruct (expr_is_null r0); cbn [negb] in Hd; [by apply not_elem_of_nil in Hd|].
        apply list_elem_of_singleton in Hd as ->. by apply H.
      * apply step_refl. by intros d Hd%not_elem_of_nil.
  - eapply step_weaken; [|eapply step_trans; [apply IHc|eapply step_trans; [apply IHt|apply IHf]]].
    intros (H1 & H2 & H3) d. rewrite !elem_of_app. intros [Hd|[Hd|Hd]]; auto.
  - eapply step_weaken; [|apply (step_fold _ (fun e => forall d, d ∈ divisors e -> cleared gs d))].
    + intros H d Hd. apply list_elem_of_In, in_flat_map in Hd as (e & He & Hd).
      apply (H e); by apply list_elem_of_In.
    + intros e He r'. rewrite Forall_forall in IHes. by apply IHes.
  - apply IHb.
  - eapply step_weaken; [|eapply step_trans; [apply IHs|eapply step_trans; [apply IHi|apply IHv]]].
    intros (H1 & H2 & H3) d. rewrite !elem_of_app. intros [Hd|[Hd|Hd]]; auto.
  - apply IHa.
Qed.

(** ** Evaluations free of bad divisors *)

Definition safe (ev : Event) : Prop :=
  forall d, d ∈ divisors (snd ev) ->
    expr_is_zero_literal d = true \/ nonzero_value (eval_value (fst ev) d).

Definition divisor_fits (d : IR_Expr) : bool :=
  match d with ExprLiteral _ lit => lit_fits lit | _ => true end.
Definition expr_fits (e : IR_Expr) : bool := forallb divisor_fits (divisors e).

(** The literals that divide or are compared with fit. *)
Fixpoint stmt_fits (stmt : IR_Stmt) : bool :=
  match stmt with
  | NullStmt => true
  | StmtAssignment a => expr_fits (asgn_rhs a)
  | StmtIf c t el els => expr_fits c && cond_fits c && stmt_fits t && stmt_fits el && stmt_fits els
  | StmtSelect sel cs => expr_fits sel && forallb (fun c => expr_fits (fst c) && stmt_fits (snd c)) cs
  | StmtBlock ss => forallb stmt_fits ss
  | StmtMemWrite _ _ a d => expr_fits a && expr_fits d
  end.

Lemma words_to_Z_zero n l : words_ok n l -> words_to_Z l = 0 -> all_zero l = true.
Proof.
  revert n. induction l as [|x l IH]; intros n [Hl Hws] E; [done|].
  apply Forall_cons in Hws as [Hx Hws]. unfold is_u64 in Hx.
  assert (words_ok (length l) l) as Hok by done.
  pose proof (words_to_Z_nonneg _ _ Hok). cbn [words_to_Z] in E. cbn [all_zero forallb].
  apply andb_true_iff. split; [lia|]. apply (IH (length l) Hok). lia.
Qed.

Lemma cleared_safe s gs e :
  guards_true s gs -> expr_fits e = true -> all_cleared gs e -> safe (s, e).
Proof.
  intros Hg Hf Hc d Hd. cbn [fst snd] in *.
  destruct (Hc d Hd) as [Hz|[Hnz|(w & id & -> & Hid)]]; [by left|right..].
  - unfold expr_fits in Hf. rewrite forallb_forall in Hf. apply list_elem_of_In in Hd.
    specialize (Hf d Hd). destruct d as [|w lit| | | | | | | |]; try done.
    cbn [expr_is_nonzero_literal divisor_fits] in *. apply andb_true_iff in Hnz as [Hz Hnz].
    apply negb_true_iff in Hz. destruct (eval_literal_num w lit Hf Hz) as [Hok [L1 L2 _ L4]].
    change (eval_value s (ExprLiteral w lit)) with (eval_literal w lit).
    split_and!; [done..|]. rewrite L4. intros E. by rewrite (words_to_Z_zero 4 _ Hok E) in Hnz.
  - unfold guard_is_nonzero in Hid. apply existsb_exists in Hid as (g & Hin & Hg1).
    apply andb_true_iff in Hg1 as [<-%Z.eqb_eq _]. apply list_elem_of_In in Hin.
    destruct (Hg g Hin) as (v & Ev & Hv). unfold eval_value.
    cbn [sim_eval_expr fst mret EvalM_ret]. by rewrite Ev.
Qed.

(** *** States that show the same values *)

Definition view (s u : SimModuleState) : Prop := forall id, sig_current u id = sig_current s id.

Lemma view_signals s u : view s u -> signals_wf s -> signals_wf u.
Proof. intros H Hs id v. rewrite H. apply Hs. Qed.

Lemma view_nonzero s u id : view s u -> nonzero_signal s id -> nonzero_signal u id.
Proof. intros H (v & E & Hv). exists v. by rewrite H. Qed.

Lemma view_guards s u gs : view s u -> guards_true s gs -> guards_true u gs.
Proof. intros H Hg g Hin. by apply (view_nonzero s), Hg. Qed.

Lemma view_eval s e : view s (snd (eval_in s e)).
Proof. rewrite eval_in_split. by intros id. Qed.

Lemma view_exec s stmt : view s (sim_exec_stmt true s stmt).
Proof.
  intros id. cbn. rewrite (lookup_static s _ id (exec_static true stmt s)).
  destruct (sim_ctx_lookup s id) as [i|]; [|done]. cbn. f_equal.
  apply (exec_nba_current stmt s).
Qed.

(** *** Steps of the pass over statements *)

(** [F] holds of every state in which the guards are true. *)
Definition claim (gs : GuardStack) (F : SimModuleState -> Prop) : Prop :=
  forall s, signals_wf s -> guards_true s gs -> F s.

Record gstep (st st' : GuardState) (F : SimModuleState -> Prop) : Prop := {
  gs_suffix : fst st' `suffix_of` fst st;
  gs_step : step (snd st) (snd st') (claim (fst st) F)
}.

Lemma guards_suffix s gs gs' : gs' `suffix_of` gs -> guards_true s gs -> guards_true s gs'.
Proof. intros [l ->] H g Hg. apply H, elem_of_app. by right. Qed.

Lemma gstep_weaken st st' (F G : SimModuleState -> Prop) :
  (claim (fst st) F -> claim (fst st) G) -> gstep st st' F -> gstep st st' G.
Proof. intros H [H1 H2]. split; [done|]. by eapply step_weaken. Qed.

Lemma gstep_refl st (F : SimModuleState -> Prop) : (forall s, F s) -> gstep st st F.
Proof. intros H. split; [by exists []|]. apply step_refl. intros s _ _. apply H. Qed.

Lemma gstep_trans st1 st2 st3 (F G : SimModuleState -> Prop) :
  gstep st1 st2 F -> gstep st2 st3 G -> gstep st1 st3 (fun s => F s /\ G s).
Proof.
  intros [S1 T1] [S2 T2]. split; [by etrans|].
  eapply step_weaken; [|by eapply step_trans]. intros [H1 H2] s Hs Hg.
  split; [by apply H1|]. apply H2; [done|]. by eapply guards_suffix.
Qed.

Lemma gstep_expr depth e st :
  expr_fits e = true -> gstep st (check_expr depth e st) (fun s => safe (s, e)).
Proof.
  intros Hf. split; [by exists []|]. eapply step_weaken; [|apply check_expr_step].
  intros H s _ Hg. by eapply cleared_safe.
Qed.

Lemma guard_push_elem gs sig g : g ∈ guard_push gs sig true -> g = mkGuard sig true \/ g ∈ gs.
Proof.
  unfold guard_push. destruct (_ <? _)%nat; [|intros H; by right].
  intros [->|H]%elem_of_cons; [by left|by right].
Qed.

(** The stack is popped as often as it is tested, pushed at most as often: it
    may only shrink. *)
Lemma guard_pop_suffix gs gs' sig : gs' `suffix_of` guard_push gs sig true ->
  guard_pop gs' `suffix_of` gs.
Proof.
  assert (forall l l' : GuardStack, l `suffix_of` l' -> guard_pop l `suffix_of` l') as Htail.
  { intros [|x l] l' H; [apply suffix_nil|]. cbn. by eapply suffix_cons_l. }
  unfold guard_push. destruct (_ <? _)%nat; [|apply Htail].
  destruct gs' as [|x l]; [intros _; apply suffix_nil|].
  intros [[= -> ->]|H]%suffix_cons_inv; [by exists []|]. by apply Htail.
Qed.

Lemma gstep_guarded use sig check st (F : SimModuleState -> Prop) :
  (forall st, gstep st (check st) F) ->
  gstep st (under_guard use sig check st)
    (fun s => (use = true -> nonzero_signal s sig) -> F s).
Proof.
  intros H. unfold under_guard. destruct use.
  - destruct (H (guard_push (fst st) sig true, snd st)) as [S T]. cbn [fst snd] in S, T.
    split; [by eapply guard_pop_suffix|]. eapply step_weaken; [|exact T].
    intros HF s Hs Hg Hn. apply HF; [done|].
    intros g [->|Hin]%guard_push_elem; [by apply Hn|by apply Hg].
  - eapply gstep_weaken; [|apply H]. intros HF s Hs Hg _. by apply HF.
Qed.

Lemma gstep_fold {A} (f : GuardState -> A -> GuardState) (F : A -> SimModuleState -> Prop) l st :
  (forall x, x ∈ l -> forall st, gstep st (f st x) (F x)) ->
  gstep st (fold_left f l st) (fun s => forall x, x ∈ l -> F x s).
Proof.
  revert st. induction l as [|x l IH]; intros st H; cbn [fold_left].
  - apply gstep_refl. by intros s x Hx%not_elem_of_nil.
  - eapply gstep_weaken; [|eapply (gstep_trans st (f st x) _ (F x) (fun s => forall y, y ∈ l -> F y s))].
    + intros HF s Hs Hg y. destruct (HF s Hs Hg) as [H1 H2].
      intros [->|Hy]%elem_of_cons; auto.
    + apply H. by left.
    + apply IH. intros y Hy. apply H. by right.
Qed.

(** ** The pass on statements *)

Definition trace_safe (t : Traced) : Prop := Forall safe (snd t).

Lemma trace_safe_record events t :
  Forall safe events -> trace_safe t -> trace_safe (record events t).
Proof. intros H1 H2. apply Forall_app. by split. Qed.

(** A statement, run by itself or as the elif chain before [els]. *)
Definition stmt_safe (stmt : IR_Stmt) (s : SimModuleState) : Prop :=
  trace_safe (trace_stmt true s stmt) /\
  forall els, (forall u, view s u -> trace_safe (trace_stmt true u els)) ->
    trace_safe (trace_elif (trace_stmt true) els stmt s).

Lemma view_refl s : view s s.
Proof. by intros id. Qed.

Lemma view_trans s t u : view s t -> view t u -> view s u.
Proof. intros H1 H2 id. by rewrite H2. Qed.

Lemma claim_view gs F s u :
  claim gs F -> signals_wf s -> guards_true s gs -> view s u -> F u.
Proof. intros H Hs Hg Hv. apply H; [by eapply view_signals|by eapply view_guards]. Qed.

(** Statements that are no IF do not start an elif chain. *)
Lemma not_elif stmt s :
  (forall els, trace_elif (trace_stmt true) els stmt s = trace_stmt true s els) ->
  trace_safe (trace_stmt true s stmt) -> stmt_safe stmt s.
Proof. intros H1 H2. split; [done|]. intros els H. rewrite H1. apply H, view_refl. Qed.

Lemma guard_of_sound s c sig tn en :
  signals_wf s -> cond_fits c = true -> guard_of c = (sig, tn, en) ->
  sim_val_is_true (eval_value s c) <> -1 ->
  (if sim_val_is_true (eval_value s c) =? 1 then tn else en) = true -> nonzero_signal s sig.
Proof.
  unfold guard_of. intros Hs Hc Hg. destruct (extract_nonzero_guard c) as [g|] eqn:E.
  - subst g. by eapply guard_sound.
  - injection Hg as <- <- <-. by destruct (_ =? 1).
Qed.

Lemma if_safe c t el els s sig tn en :
  signals_wf s -> cond_fits c = true -> guard_of c = (sig, tn, en) -> safe (s, c) ->
  (forall u, view s u ->
    ((tn = true -> nonzero_signal u sig) -> stmt_safe t u) /\ stmt_safe el u /\
    ((en = true -> nonzero_signal u sig) -> stmt_safe els u)) ->
  stmt_safe (StmtIf c t el els) s.
Proof.
  intros Hs Hc Hg Hsafe H. pose proof (guard_of_sound s c sig tn en Hs Hc Hg) as Hsound.
  pose proof (view_eval s c) as Hv. unfold stmt_safe. cbn [trace_stmt trace_elif].
  destruct (eval_in s c) as [v u] eqn:E. cbn [snd] in Hv.
  rewrite eval_in_split in E. injection E as Ev _. rewrite Ev in Hsound.
  destruct (H u Hv) as (Ht & [_ Hel] & _).
  assert (forall els', (sim_val_is_true v =? -1) = false -> (sim_val_is_true v =? 1) = false ->
    (forall w, view u w -> trace_safe (trace_stmt true w els')) ->
    trace_safe (trace_elif (trace_stmt true) els' el u)) as Helse by auto.
  assert ((sim_val_is_true v =? -1) = false -> (sim_val_is_true v =? 1) = true ->
    trace_safe (trace_stmt true u t)) as Hthen.
  { intros E1 E2. apply Ht. intros Htn. apply (view_nonzero s); [done|].
    apply Hsound; [lia|]. by rewrite E2. }
  split.
  - apply trace_safe_record; [by apply Forall_singleton|].
    destruct (sim_val_is_true v =? -1) eqn:E1; [apply Forall_nil_2|].
    destruct (sim_val_is_true v =? 1) eqn:E2; [by apply Hthen|]. apply Helse; [done..|].
    intros w Hw. assert (view s w) as Hvw by by eapply view_trans.
    apply (H w Hvw). intros Hen. apply (view_nonzero s); [done|].
    apply Hsound; [lia|]. done.
  - intros els' Hels. apply trace_safe_record; [by apply Forall_singleton|].
    destruct (sim_val_is_true v =? -1) eqn:E1; [apply Forall_nil_2|].
    destruct (sim_val_is_true v =? 1) eqn:E2; [by apply Hthen|]. apply Helse; [done..|].
    intros w Hw. apply Hels. by eapply view_trans.
Qed.

Lemma cases_safe sel cs s :
  (forall c, c ∈ cs -> forall u, view s u -> safe (u, fst c) /\ trace_safe (trace_stmt true u (snd c))) ->
  trace_safe (trace_cases (trace_stmt true) sel cs s).
Proof.
  revert s. induction cs as [|[cv body] cs IH]; intros s H; cbn [trace_cases]; [apply Forall_nil_2|].
  destruct (H (cv, body) ltac:(by left) s (view_refl s)) as [H1 H2]. cbn [fst snd] in *.
  destruct (expr_is_null cv); [done|]. pose proof (view_eval s cv) as Hv.
  destruct (eval_in s cv) as [v u]. cbn [snd] in Hv.
  apply trace_safe_record; [by apply Forall_singleton|]. destruct (_ =? 1).
  - by apply (H (cv, body) ltac:(by left)).
  - apply IH. intros c Hc w Hw. apply H; [by right|]. by eapply view_trans.
Qed.

Lemma block_safe ss s :
  (forall x, x ∈ ss -> forall u, view s u -> trace_safe (trace_stmt true u x)) ->
  trace_safe (trace_block (trace_stmt true) ss s).
Proof.
  revert s. induction ss as [|x ss IH]; intros s H; cbn [trace_block]; [apply Forall_nil_2|].
  apply trace_safe_record; [apply (H x ltac:(by left) s (view_refl s))|].
  apply IH. intros y Hy u Hu. apply H; [by right|]. eapply view_trans; [|exact Hu].
  rewrite trace_exec. apply view_exec.
Qed.

Lemma check_stmt_gstep stmt : stmt_fits stmt = true -> forall depth st,
  gstep st (check_stmt_for_div depth stmt st) (stmt_safe stmt).
Proof.
  induction stmt as [|a|c t el els IHt IHel IHels|sel cs IHcs|ss IHss|m p a d] using IR_Stmt_ind';
    intros Hf depth st; cbn [check_stmt_for_div stmt_fits] in *;
    try (destruct (jz_depth_enter_checked depth _) as [depth'|];
         [|split; [by exists []|apply step_depth]]).
  - apply gstep_refl. intros s. apply not_elif; [done|apply Forall_nil_2].
  - eapply gstep_weaken; [|by apply gstep_expr]. intros HF s Hs Hg. apply not_elif; [done|].
    specialize (HF s Hs Hg). unfold trace_safe. cbn [trace_stmt snd]. unfold trace_assign.
    destruct (sim_ctx_lookup s _); [by apply Forall_singleton|apply Forall_nil_2].
  - rewrite !andb_true_iff in Hf. destruct Hf as [[[[Hc1 Hc2] Ht] Hel] Hels].
    destruct (guard_of c) as [[sig tn] en] eqn:Eg.
    eapply gstep_weaken; [|eapply gstep_trans; [by apply gstep_expr|eapply gstep_trans;
      [apply gstep_guarded, (IHt Ht)|eapply gstep_trans; [apply (IHel Hel)|
       apply gstep_guarded, (IHels Hels)]]]].
    intros HF s Hs Hg. destruct (HF s Hs Hg) as (Hsafe & _).
    apply (if_safe _ _ _ _ _ _ _ _ Hs Hc2 Eg Hsafe). intros u Hu.
    by destruct (claim_view _ _ _ _ HF Hs Hg Hu) as (_ & H1 & H2 & H3).
  - apply andb_true_iff in Hf as [Hsel Hcs]. rewrite forallb_forall in Hcs.
    eapply gstep_weaken; [|eapply gstep_trans; [by apply gstep_expr|
      apply (gstep_fold _ (fun c s => safe (s, fst c) /\ stmt_safe (snd c) s))]].
    + intros HF s Hs Hg. apply not_elif; [done|]. destruct (HF s Hs Hg) as [H1 _].
      cbn [trace_stmt]. pose proof (view_eval s sel) as Hv. destruct (eval_in s sel) as [v u].
      apply trace_safe_record; [by apply Forall_singleton|].
      destruct (sim_val_has_xz v); [apply Forall_nil_2|]. apply cases_safe. intros c Hc w Hw.
      destruct (claim_view _ _ _ w HF Hs Hg ltac:(by eapply view_trans)) as [_ H].
      destruct (H c Hc) as [? [? _]]. done.
    + intros [cv body] Hc st'. apply list_elem_of_In in Hc as Hin.
      specialize (Hcs _ Hin). apply andb_true_iff in Hcs as [Hcv Hb].
      rewrite Forall_forall in IHcs. specialize (IHcs _ Hc Hb).
      eapply gstep_trans; [by apply gstep_expr|apply IHcs].
  - rewrite forallb_forall in Hf. eapply gstep_weaken; [|apply (gstep_fold _ stmt_safe)].
    + intros HF s Hs Hg. apply not_elif; [done|]. cbn [trace_stmt]. apply block_safe.
      intros x Hx u Hu. by destruct (claim_view _ _ _ u HF Hs Hg Hu x Hx).
    + intros x Hx st'. rewrite Forall_forall in IHss. apply (IHss x Hx). by apply Hf, list_elem_of_In.
  - apply andb_true_iff in Hf as [Ha Hd].
    eapply gstep_weaken; [|eapply gstep_trans; by apply gstep_expr].
    intros HF s Hs Hg. apply not_elif; [done|]. destruct (HF s Hs Hg) as [H1 _].
    destruct (claim_view _ _ _ _ HF Hs Hg (view_eval s a)) as [_ H2].
    unfold trace_safe. cbn [trace_stmt snd]. unfold trace_mem_write.
    destruct (sim_ctx_lookup_mem s m) as [i|]; [|apply Forall_nil_2].
    destruct (ctx_memories s !! i); [|apply Forall_nil_2].
    apply Forall_cons. split; [done|]. by apply Forall_singleton.
Qed.

(** ** Designs *)

Lemma check_stmt_silent stmt r st' :
  check_stmt_for_div 0 stmt ([], r) = st' -> stmt_fits stmt = true ->
  step r (snd st') (claim [] (stmt_safe stmt)).
Proof. intros <- Hf. apply (gs_step _ _ _ (check_stmt_gstep stmt Hf 0 ([], r))). Qed.

Definition module_fits (m : IR_Module) : bool :=
  stmt_fits (mod_async_block m) && forallb (fun cd => stmt_fits (cd_statements cd)) (mod_clock_domains m).

Lemma check_module_silent diags m :
  module_fits m = true ->
  (length diags <= length (check_module diags m))%nat /\
  (length (check_module diags m) = length diags -> mod_eliminated m = false ->
   forall cd, cd ∈ mod_clock_domains m -> claim [] (stmt_safe (cd_statements cd))).
Proof.
  intros [Ha Hd]%andb_true_iff. unfold check_module.
  destruct (mod_eliminated m); [by split|]. rewrite forallb_forall in Hd.
  destruct (check_stmt_for_div 0 (mod_async_block m) _) as [gs r] eqn:E.
  apply check_stmt_silent in E; [|done]. cbn [snd] in E.
  pose proof (step_trans _ _ _ _ _ E (step_fold
    (fun r cd => snd (check_stmt_for_div 0 (cd_statements cd) ([], r)))
    (fun cd => claim [] (stmt_safe (cd_statements cd))) (mod_clock_domains m) r
    (fun cd Hcd r => check_stmt_silent _ r _ eq_refl
       (Hd cd (proj1 (list_elem_of_In _ _) Hcd))))) as [G H].
  unfold count in *. cbn [div_diagnostics s_div_guard_depth_reported] in *. split; [done|].
  intros El _ cd Hcd. by apply H.
Qed.

Lemma check_modules_silent ms diags :
  forallb module_fits ms = true -> length (fold_left check_module ms diags) = length diags ->
  forall m, m ∈ ms -> mod_eliminated m = false ->
  forall cd, cd ∈ mod_clock_domains m -> claim [] (stmt_safe (cd_statements cd)).
Proof.
  revert diags. induction ms as [|m0 ms IH]; intros diags Hf E m Hm He;
    [by apply not_elem_of_nil in Hm|]. cbn [forallb fold_left] in *.
  apply andb_true_iff in Hf as [Hf0 Hf].
  destruct (check_module_silent diags m0 Hf0) as [G1 H1].
  assert (length (check_module diags m0) <= length (fold_left check_module ms (check_module diags m0)))%nat as G2.
  { generalize (check_module diags m0). clear E H1 IH Hm G1. induction ms as [|m1 ms IH]; intros d; [done|].
    cbn [forallb fold_left] in *. apply andb_true_iff in Hf as [Hf1 Hf].
    etrans; [apply (check_module_silent d m1 Hf1)|]. by apply IH. }
  apply elem_of_cons in Hm as [->|Hm]; [apply H1; [lia|done]|].
  apply (IH (check_module diags m0)); [done|lia|done..].
Qed.

(** C5: when the pass reports nothing about a design whose literals fit their
    widths (and, where they are compared with, 64 bits), then executing the
    statements of any clock domain of a live module, from any well-formed
    state, evaluates no division whose divisor is zero or unknown, apart from
    divisors that are zero literals. *)
Theorem div_guard_sound design m cd s :
  jz_ir_div_guard_check design = [] -> forallb module_fits (design_modules design) = true ->
  m ∈ design_modules design -> mod_eliminated m = false -> cd ∈ mod_clock_domains m ->
  signals_wf s ->
  fst (trace_stmt true s (cd_statements cd)) = sim_exec_stmt true s (cd_statements cd) /\
  Forall safe (snd (trace_stmt true s (cd_statements cd))).
Proof.
  intros Hc Hf Hm He Hcd Hs. split; [apply trace_exec|].
  apply (check_modules_silent _ [] Hf ltac:(unfold jz_ir_div_guard_check in Hc; by rewrite Hc)
    m Hm He cd Hcd s Hs).
  by intros g Hg%not_elem_of_nil.
Qed.

(** ** Samples *)

(** [IF (b != 0) r <= a / b] on signals of [w] bits, the comparison being with
    the literal of words [ws]. *)
Definition divider (w : Z) (ws : list Z) : IR_Module :=
  let signal id kind :=
    mkSignal id "s" kind w 0 0 false false PORT_IN (mkLiteral [0; 0; 0; 0] w false) 0 in
  let quotient := ExprBinary EXPR_BINARY_DIV w (ExprSignalRef w 0) (ExprSignalRef w 1) in
  mkModule 0 "divider" [signal 0 SIG_PORT; signal 1 SIG_PORT; signal 2 SIG_REGISTER]
    [mkClockDomain 0 0 EDGE_RISING [2] (-1) (-1) RESET_ACTIVE_HIGH RESET_CLOCKED
       (StmtIf (ExprBinary EXPR_BINARY_NEQ 1 (ExprSignalRef w 1) (ExprLiteral w (mkLiteral ws w false)))
          (StmtAssignment (mkAssignment 0 2 quotient ASSIGN_RECEIVE false 0 0 0)) NullStmt NullStmt)]
    [] [] NullStmt false.

Definition first_domain (m : IR_Module) : IR_ClockDomain :=
  List.hd (mkClockDomain 0 0 EDGE_RISING [] (-1) (-1) RESET_ACTIVE_HIGH RESET_CLOCKED NullStmt)
    (mod_clock_domains m).

Lemma created_signals_wf m s : created m s -> signals_wf s.
Proof.
  intros Hc id v Hv. cbn in Hv. destruct (sim_ctx_lookup s id) as [i|] eqn:E; [|done].
  injection Hv as <-. pose proof (cr_signals _ _ Hc) as Hf.
  destruct (cr_lookup _ _ Hc id i E) as (sig & Hsig & _).
  destruct (Forall2_lookup_l _ _ _ _ _ Hf Hsig) as (e & He & Hfe).
  pose proof (so_lookup s ltac:(apply (cr_table _ _ Hc)) id i E) as Hi. unfold in_range in Hi.
  unfold entry_at, aget. destruct (Z.ltb_spec i 0); [lia|]. rewrite nth_lookup, He. cbn.
  apply (fe_current _ _ Hfe).
Qed.

Definition divider_state (m : IR_Module) : SimModuleState := build_async_chunks (init_state m 1).

Lemma divider_created ws w : 0 < w <= 256 -> signal_accepted (mkSignal 0 "s" SIG_PORT w 0 0 false false
    PORT_IN (mkLiteral [0; 0; 0; 0] w false) 0) = true ->
  created (divider w ws) (divider_state (divider w ws)).
Proof.
  intros Hw Ha. apply init_state_created; [|done| |by unfold is_u32].
  - cbn [divider mod_signals forallb]. unfold signal_accepted in *. cbn [sig_width] in *. by rewrite Ha.
  - split; [|by intros mem ?%not_elem_of_nil]. intros sig Hs. cbn [divider mod_signals] in Hs.
    repeat (apply elem_of_cons in Hs as [->|Hs]; [unfold sig_width_ok; cbn; lia|]).
    by apply not_elem_of_nil in Hs.
Qed.

Lemma div_guard_witness :
  let m := divider 4 [0; 0; 0; 0] in
  fst (trace_stmt true (divider_state m) (cd_statements (first_domain m))) =
    sim_exec_stmt true (divider_state m) (cd_statements (first_domain m)) /\
  Forall safe (snd (trace_stmt true (divider_state m) (cd_statements (first_domain m)))).
Proof.
  intros m. apply (div_guard_sound (mkDesign "d" [m]) m (first_domain m) (divider_state m));
    [vm_compute; reflexivity|vm_compute; reflexivity|by left|reflexivity|by left|].
  apply (created_signals_wf m). by apply divider_created.
Defined.

(** The pass reads one word of the literal it compares with: a test for a
    difference from [2^64] passes for a test for a difference from zero, so a
    division by zero behind it is not reported, although the literal fits its
    width. *)
Theorem div_guard_truncates (m := divider 65 [0; 1; 0; 0])
    (s := update_entry 1 (set_current (sim_val_zero 65)) (divider_state m)) :
  jz_ir_div_guard_check (mkDesign "d" [m]) = [] /\
  lit_fits (mkLiteral [0; 1; 0; 0] 65 false) = true /\
  Exists (fun ev => ~ safe ev) (snd (trace_stmt true s (cd_statements (first_domain m)))).
Proof.
  split_and!; [vm_compute; reflexivity|vm_compute; reflexivity|].
  set (q := ExprBinary EXPR_BINARY_DIV 65 (ExprSignalRef 65 0) (ExprSignalRef 65 1)).
  assert (exists u ev, snd (trace_stmt true s (cd_statements (first_domain m))) = [ev; (u, q)] /\
    eval_value u (ExprSignalRef 65 1) = sim_val_zero 65) as (u & ev & -> & Eu).
  { eexists _, _. split; [vm_compute; reflexivity|vm_compute; reflexivity]. }
  apply Exists_cons_tl, Exists_cons_hd. intros H.
  destruct (H (ExprSignalRef 65 1) ltac:(by left)) as [Hz|(_ & _ & Hn)]; [done|].
  cbn [fst] in Hn. by rewrite Eu in Hn.
Qed.
