(* ===== verification/PathSecurity.v ===== *)
(** * The file sandbox: [compiler/src/path_security.c]

    The POSIX variant.  The file-level globals are the record [PathSecurity].
    The file system is not under [src/]: [realpath], [getcwd], [lstat], [stat],
    [fopen] and [fstat] are parameters.  A diagnostic is its rule id. *)

From S2P Require Import Prelude CString.

Local Open Scope Z_scope.
Local Open Scope string_scope.

Definition MAX_SANDBOX_ROOTS : nat := 32.
Definition MAX_COMPONENTS : nat := 256.

Record PathSecurity := mkSecurity {
  g_sandbox_roots : list string;
  g_default_sandbox_root : option string;
  g_allow_absolute : bool;
  g_allow_traversal : bool
}.

Inductive PathRule :=
  | PATH_ABSOLUTE_FORBIDDEN | PATH_TRAVERSAL_FORBIDDEN
  | PATH_SYMLINK_ESCAPE | PATH_OUTSIDE_SANDBOX.

(** ** Helpers on text *)

(** What precedes the last slash, if there is one: [strrchr]. *)
Fixpoint before_last_slash (s : string) : option string :=
  match s with
  | EmptyString => None
  | String c s' =>
      match before_last_slash s' with
      | Some d => Some (String c d)
      | None => if Ascii.eqb c "/" then Some EmptyString else None
      end
  end.

Definition path_dirname (filepath : string) : string :=
  match before_last_slash filepath with
  | None => "."
  | Some EmptyString => "/"
  | Some dir => dir
  end.

(** The pieces between slashes, empty ones included. *)
Fixpoint pieces (s : string) : list string :=
  match s with
  | EmptyString => [EmptyString]
  | String c s' =>
      if Ascii.eqb c "/" then EmptyString :: pieces s'
      else
        match pieces s' with
        | p :: ps => String c p :: ps
        | [] => [String c EmptyString]
        end
  end.

(** The scan that skips consecutive slashes. *)
Definition components (s : string) : list string :=
  List.filter (fun p => negb (is_empty_string p)) (pieces s).

Definition starts_with_slash (s : string) : bool :=
  match s with String c _ => Ascii.eqb c "/" | EmptyString => false end.

(** One component; the stack has the last component first. *)
Definition push_component (is_absolute : bool) (stack : list string) (start : string) :
    list string :=
  let append := if (length stack <? MAX_COMPONENTS)%nat then start :: stack else stack in
  if String.eqb start "." then stack
  else if String.eqb start ".." then
    match stack with
    | top :: rest =>
        if negb (String.eqb top "..") then rest
        else if negb is_absolute then append else stack
    | [] => if negb is_absolute then append else stack
    end
  else append.

Fixpoint join (cs : list string) : string :=
  match cs with
  | [] => EmptyString
  | [c] => c
  | c :: cs' => c ++ String "/" (join cs')
  end.

(** The reconstruction; [rel] and [abs] paths of given components. *)
Definition render (is_absolute : bool) (cs : list string) : string :=
  let result := if is_absolute then String "/" (join cs) else join cs in
  if is_empty_string result then "." else result.

Definition normalize_path_textual (path : string) : option string :=
  if is_empty_string path then None
  else
    let is_absolute := starts_with_slash path in
    Some (render is_absolute
            (rev (fold_left (push_component is_absolute) (components path) []))).

(** Without the slashes at the end. *)
Fixpoint drop_trailing (s : string) : string :=
  match s with
  | EmptyString => EmptyString
  | String c s' =>
      match drop_trailing s' with
      | EmptyString => if Ascii.eqb c "/" then EmptyString else String c EmptyString
      | t => String c t
      end
  end.

(** At least one character is kept. *)
Definition strip_trailing (root : string) : string :=
  match drop_trailing root with
  | EmptyString => if is_empty_string root then EmptyString else "/"
  | r => r
  end.

Definition path_is_under_root (path root : string) : bool :=
  match strip_prefix (strip_trailing root) path with
  | None => false
  | Some EmptyString => true
  | Some (String next _) => Ascii.eqb next "/"
  end.

(** The scan for [..] at the start of a component. *)
Fixpoint traversal_from (at_start : bool) (p : string) : bool :=
  match p with
  | EmptyString => false
  | String c p' =>
      (at_start &&
         match p with
         | String "." (String "." rest) =>
             match rest with
             | EmptyString => true
             | String after _ => Ascii.eqb after "/" || Ascii.eqb after "\"
             end
         | _ => false
         end)
      || traversal_from (Ascii.eqb c "/") p'
  end.
Definition path_has_traversal (path : string) : bool := traversal_from true path.

Fixpoint ends_with_slash (s : string) : bool :=
  match s with
  | EmptyString => false
  | String c EmptyString => Ascii.eqb c "/"
  | String _ s' => ends_with_slash s'
  end.

(** [dir/path], without doubling the slash. *)
Definition join_dir (dir path : string) : string :=
  if is_empty_string dir || ends_with_slash dir then dir ++ path else dir ++ String "/" path.

(** ** The file system *)

(** What [stat] tells of a file: device, inode, whether it is regular. *)
Record FileStat := mkStat { st_dev : Z; st_ino : Z; st_regular : bool }.

Section FileSystem.
Context (realpath : string -> option string) (getcwd : option string).
Context (lstat_is_link : string -> bool).
Context {Handle : Type} (stat : string -> option FileStat).
Context (fopen : string -> option Handle) (fstat : Handle -> option FileStat).

Definition make_textual_path_absolute (path : string) : option string :=
  if is_empty_string path then None
  else if starts_with_slash path then Some path
  else
    match getcwd with
    | None => None
    | Some cwd => normalize_path_textual (join_dir cwd path)
    end.

(** [realpath], or the path normalised as text. *)
Definition resolve_or_normalize (dir : string) : option string :=
  match realpath dir with
  | Some resolved => Some resolved
  | None => normalize_path_textual dir
  end.

(** ** Configuration *)

Definition jz_path_security_init (project_filename : option string) (st : PathSecurity) :
    PathSecurity :=
  match project_filename with
  | None => st
  | Some f =>
      mkSecurity (g_sandbox_roots st) (resolve_or_normalize (path_dirname f))
        (g_allow_absolute st) (g_allow_traversal st)
  end.

Definition jz_path_security_add_root (dir : option string) (st : PathSecurity) : PathSecurity :=
  match dir with
  | None => st
  | Some dir =>
      if (MAX_SANDBOX_ROOTS <=? length (g_sandbox_roots st))%nat then st
      else
        match resolve_or_normalize dir with
        | None => st
        | Some resolved =>
            mkSecurity (g_sandbox_roots st ++ [resolved]) (g_default_sandbox_root st)
              (g_allow_absolute st) (g_allow_traversal st)
        end
  end.

Definition jz_path_security_set_allow_absolute (allow : bool) (st : PathSecurity) : PathSecurity :=
  mkSecurity (g_sandbox_roots st) (g_default_sandbox_root st) allow (g_allow_traversal st).

Definition jz_path_security_set_allow_traversal (allow : bool) (st : PathSecurity) : PathSecurity :=
  mkSecurity (g_sandbox_roots st) (g_default_sandbox_root st) (g_allow_absolute st) allow.

Definition jz_path_security_cleanup (st : PathSecurity) : PathSecurity :=
  mkSecurity [] None false false.

(** ** Validation *)

Definition in_sandbox (st : PathSecurity) (canonical : string) : bool :=
  match g_default_sandbox_root st with
  | Some root => path_is_under_root canonical root
  | None => false
  end || existsb (path_is_under_root canonical) (g_sandbox_roots st).

(** Steps 4 and 5. *)
Definition canonicalize (full_path : string) : option string :=
  match realpath full_path with
  | Some c => Some c
  | None => normalize_path_textual full_path ≫= make_textual_path_absolute
  end.

(** The path relative to a base directory, when there is one. *)
Definition based (base_dir : option string) (raw_path : string) : option string :=
  match base_dir with
  | Some d => if is_empty_string d then None else Some (join_dir d raw_path)
  | None => None
  end.

(** The result and the diagnostic reported. *)
Definition jz_path_validate (st : PathSecurity) (raw_path : string) (base_dir : option string) :
    option string * option PathRule :=
  if is_empty_string raw_path then (None, None)
  else
    let is_absolute := starts_with_slash raw_path in
    if is_absolute && negb (g_allow_absolute st) then (None, Some PATH_ABSOLUTE_FORBIDDEN)
    else if path_has_traversal raw_path && negb (g_allow_traversal st)
    then (None, Some PATH_TRAVERSAL_FORBIDDEN)
    else
      let full_path :=
        if is_absolute then raw_path else default raw_path (based base_dir raw_path) in
      match canonicalize full_path with
      | None => (None, None)
      | Some canonical =>
          if in_sandbox st canonical then (Some canonical, None)
          else
            match (if is_absolute then None else based base_dir raw_path) with
            | Some unresolv =>
                if lstat_is_link unresolv then (None, Some PATH_SYMLINK_ESCAPE)
                else (None, Some PATH_OUTSIDE_SANDBOX)
            | None => (None, Some PATH_OUTSIDE_SANDBOX)
            end
      end.

(** The file opened, the canonical path handed back and the diagnostic. *)
Definition jz_path_open_validated_read (st : PathSecurity) (raw_path : string)
    (base_dir : option string) : option Handle * option string * option PathRule :=
  match jz_path_validate st raw_path base_dir with
  | (None, rule) => (None, None, rule)
  | (Some canonical, _) =>
      match stat canonical with
      | None => (None, Some canonical, None)
      | Some before =>
          if negb (st_regular before) then (None, Some canonical, None)
          else
            match fopen canonical with
            | None => (None, Some canonical, None)
            | Some fp =>
                match fstat fp with
                | Some after =>
                    if st_regular after && Z.eqb (st_dev before) (st_dev after)
                       && Z.eqb (st_ino before) (st_ino after)
                    then (Some fp, Some canonical, None)
                    else (None, None, Some PATH_OUTSIDE_SANDBOX)
                | None => (None, None, Some PATH_OUTSIDE_SANDBOX)
                end
            end
      end
  end.
End FileSystem.
