(* ===== verification/PathSpec.v ===== *)
(** * What the sandbox promises

    Canonical paths are rendered component lists; containment in a root is the
    prefix order on components.  The theorems hold for every file system whose
    [realpath] returns canonical paths. *)

From S2P Require Import Prelude CString PathSecurity.

Local Open Scope string_scope.

(** ** Text and components *)

Fixpoint no_slash (s : string) : bool :=
  match s with
  | EmptyString => true
  | String c s' => negb (Ascii.eqb c "/") && no_slash s'
  end.

Lemma pieces_not_nil s : pieces s <> [].
Proof.
  destruct s as [|c s]; cbn; [done|]. destruct (Ascii.eqb c "/"); [done|].
  by destruct (pieces s).
Qed.

Lemma pieces_single s : no_slash s = true -> pieces s = [s].
Proof.
  induction s as [|c s IH]; [done|]. cbn [no_slash pieces]. intros [Hc Hs]%andb_true_iff.
  apply negb_true_iff in Hc. by rewrite Hc, IH.
Qed.

Lemma pieces_app s t : pieces (s ++ String "/" t) = (pieces s ++ pieces t)%list.
Proof.
  induction s as [|c s IH]; [done|]. rewrite append_cons. cbn [pieces].
  destruct (Ascii.eqb c "/"); [by rewrite IH|]. rewrite IH.
  pose proof (pieces_not_nil s). by destruct (pieces s).
Qed.

Lemma pieces_no_slash s p : p ∈ pieces s -> no_slash p = true.
Proof.
  revert p. induction s as [|c s IH]; intros p; cbn [pieces].
  - by intros ->%list_elem_of_singleton.
  - destruct (Ascii.eqb c "/") eqn:Ec.
    + intros [->|H]%elem_of_cons; [done|by apply IH].
    + destruct (pieces s) as [|q qs] eqn:E; [by destruct (pieces_not_nil s)|].
      intros [->|H]%elem_of_cons; [|apply IH; by right].
      cbn [no_slash]. rewrite Ec. apply IH. by left.
Qed.

(** A component: neither empty nor containing a slash. *)
Definition is_name (s : string) : bool := no_slash s && negb (is_empty_string s).
Definition names (cs : list string) : Prop := Forall (fun c => is_name c = true) cs.

Lemma components_names s : names (components s).
Proof.
  apply Forall_forall. intros p Hp. apply list_elem_of_In, filter_In in Hp as [Hp He].
  apply list_elem_of_In in Hp. unfold is_name. by rewrite (pieces_no_slash s p Hp), He.
Qed.

Lemma components_app s t :
  components (s ++ String "/" t) = (components s ++ components t)%list.
Proof. unfold components. by rewrite pieces_app, List.filter_app. Qed.

Lemma components_slash t : components (String "/" t) = components t.
Proof. apply (components_app "" t). Qed.

Lemma components_name c : is_name c = true -> components c = [c].
Proof.
  intros [H1 H2]%andb_true_iff. unfold components. rewrite pieces_single by done.
  cbn [List.filter]. by rewrite H2.
Qed.

Lemma join_cons c cs : cs <> [] -> join (c :: cs) = c ++ String "/" (join cs).
Proof. by destruct cs. Qed.

Lemma components_join cs : names cs -> components (join cs) = cs.
Proof.
  induction cs as [|c cs IH]; intros H; [done|]. apply Forall_cons in H as [Hc H].
  destruct cs as [|d cs]; [by apply components_name|].
  rewrite join_cons, components_app, components_name, IH by done. done.
Qed.

Lemma join_app rs qs : rs <> [] -> qs <> [] -> join (rs ++ qs) = join rs ++ String "/" (join qs).
Proof.
  intros Hr Hq. induction rs as [|c rs IH]; [done|].
  destruct rs as [|d rs].
  - cbn [app]. by rewrite join_cons.
  - rewrite (join_cons c (d :: rs)) by done.
    change ((c :: d :: rs) ++ qs)%list with (c :: ((d :: rs) ++ qs))%list.
    rewrite join_cons by done. rewrite IH by done.
    by rewrite append_assoc, append_cons.
Qed.

Lemma join_not_empty cs : names cs -> cs <> [] -> exists a s, join cs = String a s /\ Ascii.eqb a "/" = false.
Proof.
  intros H Hn. destruct cs as [|c cs]; [done|]. apply Forall_cons in H as [Hc _].
  unfold is_name in Hc. destruct c as [|a c]; [done|]. cbn [no_slash] in Hc.
  apply andb_true_iff in Hc as [[Ha _]%andb_true_iff _]. apply negb_true_iff in Ha.
  destruct cs as [|d cs]; [by exists a, c|]. rewrite join_cons by done. by eexists a, _.
Qed.

(** ** Containment *)

Lemma drop_trailing_app s t a u :
  drop_trailing t = String a u -> drop_trailing (s ++ t) = s ++ String a u.
Proof.
  intros H. induction s as [|c s IH]; [done|]. rewrite append_cons. cbn [drop_trailing].
  rewrite IH. by destruct s.
Qed.

Lemma drop_trailing_name c : no_slash c = true -> drop_trailing c = c.
Proof.
  induction c as [|a c IH]; [done|]. cbn [no_slash drop_trailing].
  intros [Ha Hc]%andb_true_iff. rewrite IH by done. apply negb_true_iff in Ha.
  destruct c; [by rewrite Ha|done].
Qed.

Lemma drop_trailing_join cs : names cs -> drop_trailing (join cs) = join cs.
Proof.
  induction cs as [|c cs IH]; intros H; [done|]. pose proof H as H0.
  apply Forall_cons in H as [Hc H]. apply andb_true_iff in Hc as [Hc _].
  destruct cs as [|d cs]; [by apply drop_trailing_name|]. rewrite join_cons by done.
  destruct (join_not_empty (d :: cs) H ltac:(done)) as (a & s & E & _).
  rewrite (drop_trailing_app c _ "/" (join (d :: cs))); [done|]. cbn [drop_trailing].
  rewrite IH by done. by rewrite E.
Qed.

Definition absolute (cs : list string) : string := String "/" (join cs).

Lemma strip_trailing_absolute rs : names rs -> strip_trailing (absolute rs) = absolute rs.
Proof.
  intros H. unfold strip_trailing, absolute. cbn [drop_trailing]. rewrite drop_trailing_join by done.
  destruct rs as [|c rs]; [done|].
  by destruct (join_not_empty (c :: rs) H ltac:(done)) as (a & s & -> & _).
Qed.

(** The root [/] contains only itself; any other contains what extends its
    components. *)
Lemma under_root_prefix ps rs :
  names ps -> names rs ->
  path_is_under_root (absolute ps) (absolute rs) = true <->
  rs `prefix_of` ps /\ (rs = [] -> ps = []).
Proof.
  intros Hp Hr. unfold path_is_under_root. rewrite strip_trailing_absolute by done.
  destruct (decide (rs = [])) as [->|Hn].
  { change (strip_prefix (absolute []) (absolute ps)) with (Some (join ps)).
    destruct (decide (ps = [])) as [->|Hpn]; [split; [by split|done]|].
    destruct (join_not_empty ps Hp Hpn) as (a & s & -> & ->). split; [done|].
    by intros [_ H%(fun H => H eq_refl)]. }
  trans (rs `prefix_of` ps); [|by split; [|intros [? _]]]. unfold absolute.
  split.
  - destruct (strip_prefix _ _) as [r|] eqn:E; [|done]. intros H. apply strip_prefix_spec in E.
    rewrite append_cons in E. injection E as E.
    apply (f_equal components) in E. rewrite components_join in E by done.
    destruct r as [|next r].
    + rewrite append_nil_r, components_join in E by done. by subst.
    + apply Ascii.eqb_eq in H as ->. rewrite components_app, components_join in E by done.
      by exists (components r).
  - intros [qs ->]. destruct (decide (qs = [])) as [->|Hq].
    + rewrite app_nil_r.
      by rewrite (proj2 (strip_prefix_spec (String "/" (join rs)) (String "/" (join rs)) "")
        ltac:(by rewrite append_nil_r)).
    + by rewrite (proj2 (strip_prefix_spec (String "/" (join rs)) (String "/" (join (rs ++ qs)))
        (String "/" (join qs))) ltac:(by rewrite join_app, append_cons)).
Qed.

(** ** Normalisation *)

(** A component that stays: neither [.] nor [..]. *)
Definition is_plain (c : string) : bool :=
  is_name c && negb (String.eqb c ".") && negb (String.eqb c "..").
Definition plain (cs : list string) : Prop := Forall (fun c => is_plain c = true) cs.

Lemma plain_names cs : plain cs -> names cs.
Proof.
  intros H. apply (Forall_impl _ _ _ H). unfold is_plain. cbv beta. intros c Hc.
  by apply andb_true_iff in Hc as [[? _]%andb_true_iff _].
Qed.

(** Stacks, last component first: plain components over [k] times [..]. *)
Definition resolved (is_absolute : bool) (stack : list string) : Prop :=
  (length stack <= MAX_COMPONENTS)%nat /\
  exists cs k, stack = (cs ++ replicate k "..")%list /\ plain cs /\ (is_absolute = true -> k = O).

Lemma push_resolved abs stack c :
  is_name c = true -> resolved abs stack -> resolved abs (push_component abs stack c).
Proof.
  intros Hc [Hl (cs & k & -> & Hp & Hk)]. unfold push_component.
  set (stack := (cs ++ replicate k "..")%list) in *.
  assert (forall x, (x = ".." /\ cs = [] /\ abs = false \/ is_plain x = true) ->
    resolved abs (if (length stack <? MAX_COMPONENTS)%nat then x :: stack else stack)) as Hpush.
  { intros x Hx. destruct (Nat.ltb_spec (length stack) MAX_COMPONENTS) as [Hlt|];
      [|split; [done|by exists cs, k]]. split; [done|].
    destruct Hx as [(-> & -> & ->)|Hx]; [by exists [], (S k)|].
    exists (x :: cs), k. split_and!; [done|by constructor|done]. }
  destruct (String.eqb c ".") eqn:E1; [split; [done|by exists cs, k]|].
  destruct (String.eqb c "..") eqn:E2.
  - apply String.eqb_eq in E2 as ->. destruct cs as [|top cs].
    + destruct abs; cbn [negb].
      * assert (k = O) as -> by auto. split; [done|]. by exists [], O.
      * pose proof (Hpush ".." ltac:(by left)) as H. destruct k as [|k]; exact H.
    + apply Forall_cons in Hp as [Ht Hp]. unfold is_plain in Ht.
      apply andb_true_iff in Ht as [_ Ht]. cbn [app stack]. subst stack. cbn [app]. rewrite Ht.
      split; [cbn in Hl; lia|]. by exists cs, k.
  - apply Hpush. right. unfold is_plain. by rewrite Hc, E1, E2.
Qed.

Lemma resolve_resolved abs cs stack :
  names cs -> resolved abs stack -> resolved abs (fold_left (push_component abs) cs stack).
Proof.
  revert stack. induction cs as [|c cs IH]; intros stack Hn Hs; [done|]. cbn [fold_left].
  apply Forall_cons in Hn as [Hc Hn]. apply IH; [done|]. by apply push_resolved.
Qed.

(** Plain components are stacked as long as there is room. *)
Lemma push_plain abs stack c :
  is_plain c = true ->
  push_component abs stack c = if (length stack <? MAX_COMPONENTS)%nat then c :: stack else stack.
Proof.
  intros [[_ H1]%andb_true_iff H2]%andb_true_iff. apply negb_true_iff in H1, H2.
  unfold push_component. by rewrite H1, H2.
Qed.

Lemma resolve_plain abs cs stack :
  plain cs -> (length stack + length cs <= MAX_COMPONENTS)%nat ->
  fold_left (push_component abs) cs stack = (rev cs ++ stack)%list.
Proof.
  revert stack. induction cs as [|c cs IH]; intros stack Hp Hl; [done|]. cbn [fold_left length] in *.
  apply Forall_cons in Hp as [Hc Hp]. rewrite push_plain by done.
  destruct (Nat.ltb_spec (length stack) MAX_COMPONENTS); [|lia].
  rewrite IH by (done || cbn; lia). cbn [rev]. by rewrite <- app_assoc.
Qed.

Lemma resolve_dots k stack :
  (forall c, c ∈ stack -> c = "..") -> (length stack + k <= MAX_COMPONENTS)%nat ->
  fold_left (push_component false) (replicate k "..") stack = (replicate k ".." ++ stack)%list.
Proof.
  revert stack. induction k as [|k IH]; intros stack Hs Hl; [done|]. cbn [replicate fold_left].
  assert (push_component false stack ".." = ".." :: stack) as ->.
  { unfold push_component. cbn [String.eqb negb].
    destruct (Nat.ltb_spec (length stack) MAX_COMPONENTS); [|lia].
    destruct stack as [|top stack]; [done|]. by rewrite (Hs top ltac:(by left)). }
  rewrite IH; [| |cbn; lia].
  - change (".." :: stack) with ([".."] ++ stack)%list. rewrite app_assoc.
    by rewrite <- (replicate_S_end k ".."), replicate_S.
  - intros c [->|Hc]%elem_of_cons; [done|by apply Hs].
Qed.

Lemma resolved_nil abs : resolved abs [].
Proof.
  split; [cbn; unfold MAX_COMPONENTS; lia|]. exists [], O. by split_and!; [|constructor|].
Qed.

Lemma rev_replicate {A} n (x : A) : rev (replicate n x) = replicate n x.
Proof. rewrite rev_alt. apply reverse_replicate. Qed.

Lemma resolved_names abs stack : resolved abs stack -> names (rev stack).
Proof.
  intros [_ (cs & k & -> & Hp & _)]. apply Forall_rev, Forall_app. split; [by apply plain_names|].
  by apply Forall_replicate.
Qed.

(** A resolved stack is its own resolution. *)
Lemma resolve_again abs stack :
  resolved abs stack -> fold_left (push_component abs) (rev stack) [] = stack.
Proof.
  intros [Hl (cs & k & -> & Hp & Hk)]. rewrite length_app, length_replicate in Hl.
  rewrite rev_app_distr, fold_left_app.
  assert (fold_left (push_component abs) (rev (replicate k "..")) [] = replicate k "..") as ->.
  { rewrite rev_replicate. destruct abs; [by rewrite (Hk eq_refl)|].
    rewrite resolve_dots; [by rewrite app_nil_r|by intros c ?%not_elem_of_nil|cbn; lia]. }
  rewrite resolve_plain; [by rewrite rev_involutive|by apply Forall_rev|].
  rewrite length_replicate, length_rev. lia.
Qed.

Lemma join_start cs : names cs -> starts_with_slash (join cs) = false.
Proof.
  intros H. destruct (decide (cs = [])) as [->|Hn]; [done|].
  by destruct (join_not_empty cs H Hn) as (a & s & -> & Ha).
Qed.

Lemma normalize_eq path :
  path <> "" -> exists stack, resolved (starts_with_slash path) stack /\
    stack = fold_left (push_component (starts_with_slash path)) (components path) [] /\
    normalize_path_textual path = Some (render (starts_with_slash path) (rev stack)).
Proof.
  intros Hp. eexists. split; [|split; [reflexivity|]].
  - apply resolve_resolved; [apply components_names|apply resolved_nil].
  - unfold normalize_path_textual. by destruct path.
Qed.

Lemma render_relative cs : names cs -> cs <> [] -> render false cs = join cs.
Proof.
  intros H Hn. unfold render. by destruct (join_not_empty cs H Hn) as (a & s & -> & _).
Qed.

(** Normalisation is idempotent: its result has no empty or [.]
    component and no [..] after another component, so normalising it again
    changes nothing. *)
Theorem normalize_idempotent path q :
  normalize_path_textual path = Some q ->
  normalize_path_textual q = Some q /\ starts_with_slash q = starts_with_slash path /\
  exists cs k, components q = (replicate k ".." ++ cs)%list /\
    Forall (fun c => is_plain c = true \/ q = ".") cs /\ (starts_with_slash path = true -> k = O).
Proof.
  intros E. assert (path <> "") as Hp by by destruct path.
  destruct (normalize_eq path Hp) as (stack & Hr & _ & E'). rewrite E in E'. injection E' as ->.
  clear E. pose proof (resolved_names _ _ Hr) as Hn. pose proof (resolve_again _ _ Hr) as Ha.
  set (abs := starts_with_slash path) in *.
  assert (exists cs k, rev stack = (replicate k ".." ++ cs)%list /\ plain cs /\
    (abs = true -> k = O)) as (cs & k & Es & Hcs & Hk).
  { destruct Hr as [_ (cs & k & -> & Hcs & Hk)]. exists (rev cs), k.
    rewrite rev_app_distr, rev_replicate. split_and!; [done|by apply Forall_rev|done]. }
  destruct abs eqn:Eabs.
  - change (render true (rev stack)) with (absolute (rev stack)).
    assert (components (absolute (rev stack)) = rev stack) as Ec
      by (unfold absolute; by rewrite components_slash, components_join).
    unfold normalize_path_textual. cbn [absolute is_empty_string starts_with_slash].
    fold (absolute (rev stack)). rewrite Ec, Ascii.eqb_refl, Ha. split_and!; [done..|].
    exists cs, k. split_and!; [done| |done]. eapply Forall_impl; [exact Hcs|]. by left.
  - destruct (decide (rev stack = [])) as [En|En].
    + rewrite En. cbn [render join is_empty_string]. split_and!; [done..|].
      exists ["."], O. split_and!; [done| |done]. apply Forall_singleton. by right.
    + rewrite render_relative by done.
      destruct (join_not_empty _ Hn En) as (a & s & Ej & Ea).
      assert (starts_with_slash (join (rev stack)) = false) as Est by by rewrite Ej.
      split_and!; [|done|].
      * unfold normalize_path_textual. rewrite Est, components_join, Ha by done. rewrite Ej at 1.
        cbn [is_empty_string]. by rewrite render_relative.
      * exists cs, k. rewrite components_join by done. split_and!; [done| |done].
        eapply Forall_impl; [exact Hcs|]. by left.
Qed.

Lemma normalize_idempotent_witness :
  normalize_path_textual "../a/b" = Some "../a/b" /\ starts_with_slash "../a/b" = false /\
  exists cs k, components "../a/b" = (replicate k ".." ++ cs)%list /\
    Forall (fun c => is_plain c = true \/ "../a/b" = ".") cs /\ (false = true -> k = O).
Proof. apply (normalize_idempotent "./x/../..//a/./b/c/.." "../a/b"). reflexivity. Defined.

(** ** Traversal *)

Lemma traversal_pieces s :
  (traversal_from true s = false -> ".." ∉ pieces s) /\
  (traversal_from false s = false -> ".." ∉ tail (pieces s)).
Proof.
  induction s as [|c s [IH1 IH2]].
  { split; intros _; [by intros ?%list_elem_of_singleton|apply not_elem_of_nil]. }
  split; cbn [traversal_from pieces]; rewrite orb_false_iff; intros [H1 H2];
    destruct (Ascii.eqb c "/") eqn:Ec.
  - intros [?|H]%elem_of_cons; [done|by apply IH1].
  - pose proof (pieces_not_nil s). specialize (IH2 H2). cbn [andb] in H1.
    destruct (pieces s) as [|p ps] eqn:Ep; [done|]. cbn [tail] in IH2.
    intros [E|H0]%elem_of_cons; [|done]. injection E as <- <-.
    destruct s as [|d s]; [done|]. cbn [pieces] in Ep.
    destruct (Ascii.eqb d "/") eqn:Ed; [done|].
    destruct (pieces s) as [|p ps'] eqn:Ep'; [by destruct (pieces_not_nil s)|].
    injection Ep as -> -> <-. destruct s as [|e s]; [done|]. cbn [pieces] in Ep'.
    destruct (Ascii.eqb e "/") eqn:Ee; [by apply Ascii.eqb_eq in Ee as ->|]. by destruct (pieces s).
  - cbn [tail]. by apply IH1.
  - pose proof (pieces_not_nil s). specialize (IH2 H2). by destruct (pieces s).
Qed.

Lemma no_traversal raw : path_has_traversal raw = false -> ".." ∉ components raw.
Proof.
  intros H Hin. apply list_elem_of_In, filter_In in Hin as [Hin _].
  apply list_elem_of_In in Hin. by apply (proj1 (traversal_pieces raw)).
Qed.

(** Without [..] the stack only grows. *)
Lemma push_grows abs cs stack :
  ".." ∉ cs -> exists l, fold_left (push_component abs) cs stack = (l ++ stack)%list.
Proof.
  revert stack. induction cs as [|c cs IH]; intros stack H; [by exists []|].
  apply not_elem_of_cons in H as [Hc H]. cbn [fold_left].
  assert (exists l, push_component abs stack c = (l ++ stack)%list) as [l ->].
  { unfold push_component. destruct (String.eqb c "."); [by exists []|].
    destruct (String.eqb_spec c ".."); [by subst|].
    destruct (_ <? _)%nat; [by exists [c]|by exists []]. }
  destruct (IH (l ++ stack)%list H) as [l' ->]. exists (l' ++ l)%list. by rewrite app_assoc.
Qed.

Definition canonical (p : string) : Prop := exists cs, p = absolute cs /\ plain cs.

Lemma ends_join cs : names cs -> ends_with_slash (join cs) = false.
Proof.
  assert (forall c, no_slash c = true -> ends_with_slash c = false) as Hc.
  { intros c. induction c as [|a c IH]; [done|]. cbn [no_slash ends_with_slash].
    intros [Ha H]%andb_true_iff. apply negb_true_iff in Ha. destruct c; [done|by apply IH]. }
  assert (forall s t, t <> "" -> ends_with_slash (s ++ t) = ends_with_slash t) as Happ.
  { intros s t Ht. induction s as [|a s IH]; [done|]. rewrite append_cons. cbn [ends_with_slash].
    destruct (s ++ t) eqn:E; [|done]. destruct s; [by rewrite append_empty in E|done]. }
  induction cs as [|c cs IH]; intros H; [done|]. apply Forall_cons in H as [Hn H].
  apply andb_true_iff in Hn as [Hn _]. destruct cs as [|d cs]; [by apply Hc|].
  rewrite join_cons, Happ by done.
  destruct (join_not_empty (d :: cs) H ltac:(done)) as (a & s & E & _).
  rewrite <- IH by done. by rewrite E.
Qed.

Lemma components_join_dir bs path :
  names bs -> components (join_dir (absolute bs) path) = (bs ++ components path)%list.
Proof.
  intros H. unfold join_dir. cbn [absolute is_empty_string orb]. unfold absolute.
  destruct (decide (bs = [])) as [->|Hn].
  - cbn [join]. change (ends_with_slash "/") with true. cbv iota. rewrite append_cons, append_empty.
    by rewrite components_slash.
  - pose proof (ends_join bs H) as E. destruct (join_not_empty bs H Hn) as (a & s & Ej & _).
    cbn [ends_with_slash]. rewrite E, Ej. cbv iota.
    rewrite <- Ej. by rewrite append_cons, components_slash, components_app, components_join.
Qed.

Lemma starts_join_dir bs path : starts_with_slash (join_dir (absolute bs) path) = true.
Proof. unfold join_dir. by destruct (_ || _). Qed.

(** As text, a relative path without [..] components stays below the
    directory it is relative to. *)
Theorem no_traversal_stays_below bs raw :
  plain bs -> (length bs <= MAX_COMPONENTS)%nat -> path_has_traversal raw = false ->
  exists cs, normalize_path_textual (join_dir (absolute bs) raw) = Some (absolute (bs ++ cs)) /\
    plain (bs ++ cs).
Proof.
  intros Hb Hl Hr. assert (join_dir (absolute bs) raw <> "") as Hne
    by (unfold join_dir; by destruct (_ || _)).
  destruct (normalize_eq _ Hne) as (stack & Hres & Es & ->). rewrite starts_join_dir in *.
  rewrite components_join_dir in Es by by apply plain_names.
  rewrite fold_left_app, (resolve_plain true bs []), app_nil_r in Es by done.
  destruct (push_grows true _ (rev bs) (no_traversal raw Hr)) as [l El]. rewrite El in Es.
  exists (rev l). rewrite Es, rev_app_distr, rev_involutive.
  split; [done|]. destruct Hres as [_ (cs & k & E & Hp & Hk)]. rewrite (Hk eq_refl) in E.
  rewrite app_nil_r in E. rewrite Es in E. subst cs.
  apply Forall_rev in Hp. by rewrite rev_app_distr, rev_involutive in Hp.
Qed.

Lemma no_traversal_stays_below_witness :
  exists cs, normalize_path_textual (join_dir "/home/p" "./lib//x.jz") =
    Some (absolute (["home"; "p"] ++ cs)) /\ plain (["home"; "p"] ++ cs).
Proof.
  apply (no_traversal_stays_below ["home"; "p"] "./lib//x.jz");
    [by repeat constructor|unfold MAX_COMPONENTS; cbn; lia|reflexivity].
Defined.

(** ** Validation *)

Lemma normalize_root path q : normalize_path_textual path = Some q ->
  canonical q \/ starts_with_slash q = false /\ q <> "".
Proof.
  intros E. assert (path <> "") as Hp by by destruct path.
  destruct (normalize_eq path Hp) as (stack & Hr & _ & E'). rewrite E in E'. injection E' as ->.
  pose proof (resolved_names _ _ Hr) as Hn. destruct (starts_with_slash path).
  - left. exists (rev stack). split; [done|]. destruct Hr as [_ (cs & k & -> & Hc & Hk)].
    rewrite (Hk eq_refl), app_nil_r. by apply Forall_rev.
  - right. destruct (decide (rev stack = [])) as [->|Hne]; [done|].
    rewrite render_relative by done. rewrite join_start by done.
    by destruct (join_not_empty _ Hn Hne) as (a & s & -> & _).
Qed.

Lemma normalize_absolute path q : normalize_path_textual path = Some q ->
  starts_with_slash path = true -> canonical q.
Proof.
  intros E Hs. destruct (normalize_root path q E) as [H|[H _]]; [done|].
  destruct (normalize_idempotent path q E) as (_ & H' & _). congruence.
Qed.

Lemma under_relative c root :
  canonical c -> starts_with_slash root = false -> root <> "" -> path_is_under_root c root = false.
Proof.
  intros (ps & -> & _) Hs Hn. destruct root as [|a r]; [done|]. cbn [starts_with_slash] in Hs.
  assert (exists t, strip_trailing (String a r) = String a t) as [t E].
  { unfold strip_trailing. cbn [drop_trailing]. rewrite Hs. destruct (drop_trailing r); by eexists. }
  unfold path_is_under_root. rewrite E. cbn [absolute strip_prefix]. by rewrite Hs.
Qed.

Section FileSystem.
Context (realpath : string -> option string) (getcwd : option string).
Context (lstat_is_link : string -> bool).
Context {Handle : Type} (stat : string -> option FileStat).
Context (fopen : string -> option Handle) (fstat : Handle -> option FileStat).

(** [realpath] returns canonical paths and [getcwd] an absolute one. *)
Definition canonical_fs : Prop :=
  (forall p c, realpath p = Some c -> canonical c) /\
  (forall d, getcwd = Some d -> starts_with_slash d = true).

(** The configurations the program can reach. *)
Inductive configured : PathSecurity -> Prop :=
  | configured_start : configured (mkSecurity [] None false false)
  | configured_init f st : configured st -> configured (jz_path_security_init realpath f st)
  | configured_add d st : configured st -> configured (jz_path_security_add_root realpath d st)
  | configured_absolute b st :
      configured st -> configured (jz_path_security_set_allow_absolute b st)
  | configured_traversal b st :
      configured st -> configured (jz_path_security_set_allow_traversal b st)
  | configured_cleanup st : configured st -> configured (jz_path_security_cleanup st).

Definition roots (st : PathSecurity) : list string :=
  (match g_default_sandbox_root st with Some r => [r] | None => [] end ++ g_sandbox_roots st)%list.

Definition root_ok (r : string) : Prop :=
  canonical r \/ starts_with_slash r = false /\ r <> "".

Lemma resolve_root d r : canonical_fs -> resolve_or_normalize realpath d = Some r -> root_ok r.
Proof using Type.
  intros [Hreal _] E. unfold resolve_or_normalize in E. destruct (realpath d) as [c|] eqn:Er.
  - injection E as <-. left. by apply (Hreal d).
  - by apply (normalize_root d).
Qed.

(** Roots are canonical, or relative text, which contains no canonical path;
    there are at most 32 added ones. *)
Lemma configured_roots st :
  canonical_fs -> configured st ->
  Forall root_ok (roots st) /\ (length (g_sandbox_roots st) <= MAX_SANDBOX_ROOTS)%nat.
Proof using Type.
  intros Hfs. unfold roots.
  induction 1 as [|f st _ [IH1 IH2]|d st _ [IH1 IH2]|b st _ IH|b st _ IH|st _ _].
  - by split; [constructor|unfold MAX_SANDBOX_ROOTS; cbn; lia].
  - split; [|by destruct f]. destruct f as [f|]; [|done]. cbn [jz_path_security_init].
    apply Forall_app in IH1 as [_ IH1]. apply Forall_app. split; [|done].
    destruct (resolve_or_normalize realpath (path_dirname f)) as [r|] eqn:E; [|constructor].
    apply Forall_singleton. by apply (resolve_root (path_dirname f)).
  - destruct d as [d|]; [|done]. cbn [jz_path_security_add_root].
    destruct (Nat.leb_spec MAX_SANDBOX_ROOTS (length (g_sandbox_roots st))); [done|].
    destruct (resolve_or_normalize realpath d) as [r|] eqn:E; [|done]. cbn.
    rewrite app_assoc, length_app. split; [|cbn; lia]. apply Forall_app. split; [done|].
    apply Forall_singleton. by apply (resolve_root d).
  - exact IH.
  - exact IH.
  - by split; [constructor|unfold MAX_SANDBOX_ROOTS; cbn; lia].
Qed.

Lemma canonicalize_canonical full c :
  canonical_fs -> canonicalize realpath getcwd full = Some c -> canonical c.
Proof using Type.
  intros [Hreal Hcwd] E. unfold canonicalize in E.
  destruct (realpath full) as [r|] eqn:Er; [injection E as <-; by apply (Hreal full)|].
  destruct (normalize_path_textual full) as [n|] eqn:En; [|done]. cbn in E.
  unfold make_textual_path_absolute in E. destruct (is_empty_string n); [done|].
  destruct (starts_with_slash n) eqn:Es.
  - injection E as <-. destruct (normalize_root full n En) as [H|[H _]]; [done|congruence].
  - destruct getcwd as [d|]; [|done]. apply (normalize_absolute _ _ E).
    specialize (Hcwd d eq_refl). unfold join_dir. destruct d; [done|].
    by destruct (is_empty_string _ || _).
Qed.

(** C6: whatever the configuration the program has reached, a path that passes
    validation is canonical and lies under one of the configured roots,
    component by component; absolute paths and paths with [..] pass only when
    they are allowed. *)
Theorem path_validate_sound st raw base c rule :
  canonical_fs -> configured st ->
  jz_path_validate realpath getcwd lstat_is_link st raw base = (Some c, rule) ->
  rule = None /\
  (starts_with_slash raw = true -> g_allow_absolute st = true) /\
  (".." ∈ components raw -> g_allow_traversal st = true) /\
  exists rs cs, absolute rs ∈ roots st /\ c = absolute (rs ++ cs) /\ plain (rs ++ cs).
Proof using Type.
  intros Hfs Hst E. unfold jz_path_validate in E. destruct (is_empty_string raw); [done|].
  destruct (starts_with_slash raw && negb (g_allow_absolute st)) eqn:E1; [done|].
  destruct (path_has_traversal raw && negb (g_allow_traversal st)) eqn:E2; [done|].
  destruct (canonicalize _ _ _) as [c'|] eqn:Ec; [|done].
  destruct (in_sandbox st c') eqn:Ei.
  2:{ by repeat case_match. }
  injection E as <- <-. apply canonicalize_canonical in Ec; [|done].
  split_and!; [done| | |].
  - intros Hs. rewrite Hs in E1. by destruct (g_allow_absolute st).
  - intros Hin. destruct (g_allow_traversal st); [done|]. rewrite andb_true_r in E2.
    by apply no_traversal in E2.
  - destruct (configured_roots st Hfs Hst) as [Hroots _].
    assert (exists r, r ∈ roots st /\ path_is_under_root c' r = true) as (r & Hr & Hu).
    { unfold roots. apply orb_true_iff in Ei as [Ei|Ei].
      - destruct (g_default_sandbox_root st) as [r|]; [|done]. exists r. split; [by left|done].
      - apply existsb_exists in Ei as (r & Hr & Hu). exists r. split; [|done].
        apply elem_of_app. right. by apply list_elem_of_In. }
    rewrite Forall_forall in Hroots. destruct (Hroots r Hr) as [(rs & -> & Hrs)|[H1 H2]].
    + destruct Ec as (ps & -> & Hps).
      apply under_root_prefix in Hu as [[qs ->] _]; [|by apply plain_names..].
      by exists rs, qs.
    + by rewrite under_relative in Hu.
Qed.

(** A file is only ever handed out when its path passed validation and the
    open file is the regular file that was found there, by device and inode. *)
Theorem open_validated_sound st raw base fp path rule :
  jz_path_open_validated_read realpath getcwd lstat_is_link stat fopen fstat st raw base =
    (Some fp, path, rule) ->
  exists c before after, path = Some c /\ rule = None /\
    jz_path_validate realpath getcwd lstat_is_link st raw base = (Some c, None) /\
    stat c = Some before /\ fopen c = Some fp /\ fstat fp = Some after /\
    st_regular before = true /\ st_regular after = true /\
    st_dev before = st_dev after /\ st_ino before = st_ino after.
Proof using Type.
  unfold jz_path_open_validated_read. intros E.
  destruct (jz_path_validate _ _ _ st raw base) as [[c|] r] eqn:Ev; [|done].
  assert (r = None) as ->.
  { unfold jz_path_validate in Ev. repeat case_match; congruence. }
  destruct (stat c) as [before|] eqn:Es; [|done].
  destruct (st_regular before) eqn:Eb; [|done]. cbn [negb] in E.
  destruct (fopen c) as [fp'|] eqn:Ef; [|done].
  destruct (fstat fp') as [after|] eqn:Ea; [|done].
  destruct (st_regular after) eqn:Era; [|done]. cbn [andb] in E.
  destruct (Z.eqb_spec (st_dev before) (st_dev after)); [|done].
  destruct (Z.eqb_spec (st_ino before) (st_ino after)); [|done].
  cbn [andb] in E. injection E as <- <- <-.
  exists c, before, after. done.
Qed.

(** Without an allowance, an absolute path and a path with a [..]
    component are refused with their own diagnostics, before the file system
    is consulted. *)
Theorem path_validate_refuses st raw base :
  raw <> "" ->
  (starts_with_slash raw = true -> g_allow_absolute st = false ->
   jz_path_validate realpath getcwd lstat_is_link st raw base = (None, Some PATH_ABSOLUTE_FORBIDDEN)) /\
  (starts_with_slash raw = false -> ".." ∈ components raw -> g_allow_traversal st = false ->
   jz_path_validate realpath getcwd lstat_is_link st raw base = (None, Some PATH_TRAVERSAL_FORBIDDEN)).
Proof using Type.
  intros Hn. unfold jz_path_validate. destruct raw as [|a raw]; [done|]. cbn [is_empty_string]. split.
  - by intros -> ->.
  - intros -> Hin ->. cbn [andb]. destruct (path_has_traversal (String a raw)) eqn:E; [done|].
    by apply no_traversal in E.
Qed.
End FileSystem.

(** The root directory as a sandbox root contains nothing but itself:
    after its only character the next one would have to be a slash again. *)
Theorem root_directory_admits_nothing cs :
  plain cs -> cs <> [] -> path_is_under_root (absolute cs) "/" = false.
Proof.
  intros H Hn. apply not_true_is_false. change "/" with (absolute []).
  by intros [_ He%(fun f => f eq_refl)]%under_root_prefix; [| |constructor]; [|apply plain_names].
Qed.

Lemma root_directory_admits_nothing_witness :
  path_is_under_root (absolute ["etc"; "passwd"]) "/" = false.
Proof. apply root_directory_admits_nothing; [by repeat constructor|done]. Defined.

(** ** A sample file system: one file, no symbolic links *)

Definition sample_file : string := "/home/p/lib/x.jz".
Definition sample_realpath (p : string) : option string :=
  if String.eqb p sample_file then Some sample_file else None.
Definition sample_stat (p : string) : option FileStat :=
  if String.eqb p sample_file then Some (mkStat 1 42 true) else None.
Definition sample_fopen (p : string) : option string :=
  if String.eqb p sample_file then Some p else None.
Definition sample_no_link (p : string) : bool := false.

Lemma sample_canonical : canonical_fs sample_realpath (Some "/home/p").
Proof.
  split; [|by intros d [= <-]]. intros p c. unfold sample_realpath.
  destruct (String.eqb p sample_file); [|done]. intros [= <-].
  exists ["home"; "p"; "lib"; "x.jz"]. split; [done|by repeat constructor].
Qed.

Definition sample_config : PathSecurity :=
  jz_path_security_add_root sample_realpath (Some "/opt/jz/")
    (jz_path_security_init sample_realpath (Some "/home/p/main.jz") (mkSecurity [] None false false)).

Lemma path_validate_sound_witness :
  exists rs cs, absolute rs ∈ roots sample_config /\ sample_file = absolute (rs ++ cs) /\
    plain (rs ++ cs).
Proof.
  refine (proj2 (proj2 (proj2 (path_validate_sound sample_realpath (Some "/home/p") sample_no_link
    sample_config "lib/x.jz" (Some "/home/p") sample_file None sample_canonical _ _)))).
  - apply configured_add, configured_init, configured_start.
  - vm_compute. reflexivity.
Defined.

Lemma open_validated_sound_witness :
  exists c before after, Some sample_file = Some c /\ @None PathRule = None /\
    jz_path_validate sample_realpath (Some "/home/p") sample_no_link sample_config "lib/x.jz"
      (Some "/home/p") = (Some c, None) /\
    sample_stat c = Some before /\ sample_fopen c = Some sample_file /\
    sample_stat sample_file = Some after /\
    st_regular before = true /\ st_regular after = true /\
    st_dev before = st_dev after /\ st_ino before = st_ino after.
Proof.
  apply (open_validated_sound sample_realpath (Some "/home/p") sample_no_link sample_stat
    sample_fopen sample_stat sample_config "lib/x.jz" (Some "/home/p") sample_file
    (Some sample_file) None).
  vm_compute. reflexivity.
Defined.

Lemma path_validate_refuses_witness :
  jz_path_validate sample_realpath None sample_no_link sample_config "lib/../../x" None =
    (None, Some PATH_TRAVERSAL_FORBIDDEN).
Proof.
  refine (proj2 (path_validate_refuses sample_realpath None sample_no_link sample_config
    "lib/../../x" None _) _ _ _); [done|reflexivity| |reflexivity].
  apply list_elem_of_In. right. by left.
Defined.
