(* ===== verification/Types.v ===== *)
(** * Bit-vector types: [compiler/src/sem/type.c]

    The width rules of operators, and the names under which the parser hands
    operators to the type inference ([sem/driver_operators.c]) and to the IR
    builder ([ir/ir_build_expr.c]).  A function that returns a status and writes
    a type returns an option; widths are [unsigned], 32 bits wide. *)

From S2P Require Import Prelude IR.

Local Open Scope Z_scope.

Record JZBitvecType := mkType { bv_width : Z; bv_is_signed : bool }.

Inductive JZUnaryOp := JZ_UNARY_PLUS | JZ_UNARY_MINUS | JZ_UNARY_BIT_NOT | JZ_UNARY_LOGICAL_NOT.

Inductive JZBinaryOp :=
  | JZ_BIN_ADD | JZ_BIN_SUB | JZ_BIN_MUL | JZ_BIN_DIV | JZ_BIN_MOD
  | JZ_BIN_BIT_AND | JZ_BIN_BIT_OR | JZ_BIN_BIT_XOR
  | JZ_BIN_LOG_AND | JZ_BIN_LOG_OR
  | JZ_BIN_EQ | JZ_BIN_NE | JZ_BIN_LT | JZ_BIN_LE | JZ_BIN_GT | JZ_BIN_GE
  | JZ_BIN_SHL | JZ_BIN_SHR | JZ_BIN_ASHR.

Definition type_is_valid (t : JZBitvecType) : bool := 0 <? bv_width t.

Definition jz_type_scalar (width : Z) (is_signed : bool) : JZBitvecType := mkType width is_signed.

Definition jz_type_unary (op : JZUnaryOp) (operand : JZBitvecType) : option JZBitvecType :=
  if negb (type_is_valid operand) then None
  else
    match op with
    | JZ_UNARY_PLUS | JZ_UNARY_MINUS => Some (mkType (bv_width operand) (bv_is_signed operand))
    | JZ_UNARY_BIT_NOT => Some operand
    | JZ_UNARY_LOGICAL_NOT => if negb (bv_width operand =? 1) then None else Some (mkType 1 false)
    end.

Definition jz_type_binary (op : JZBinaryOp) (lhs rhs : JZBitvecType) : option JZBitvecType :=
  if negb (type_is_valid lhs) || negb (type_is_valid rhs) then None
  else
    let signed := bv_is_signed lhs || bv_is_signed rhs in
    let same_width t := if negb (bv_width lhs =? bv_width rhs) then None else t in
    match op with
    | JZ_BIN_ADD | JZ_BIN_SUB | JZ_BIN_DIV | JZ_BIN_MOD
    | JZ_BIN_BIT_AND | JZ_BIN_BIT_OR | JZ_BIN_BIT_XOR => same_width (Some (mkType (bv_width lhs) signed))
    | JZ_BIN_MUL =>
        same_width
          (if (2 ^ 32 - 1) / 2 <? bv_width lhs then None else Some (mkType (bv_width lhs * 2) signed))
    | JZ_BIN_LOG_AND | JZ_BIN_LOG_OR =>
        if negb (bv_width lhs =? 1) || negb (bv_width rhs =? 1) then None else Some (mkType 1 false)
    | JZ_BIN_EQ | JZ_BIN_NE | JZ_BIN_LT | JZ_BIN_LE | JZ_BIN_GT | JZ_BIN_GE =>
        same_width (Some (mkType 1 false))
    | JZ_BIN_SHL | JZ_BIN_SHR | JZ_BIN_ASHR => Some (mkType (bv_width lhs) (bv_is_signed lhs))
    end.

Definition jz_type_ternary (cond if_true if_false : JZBitvecType) : option JZBitvecType :=
  if negb (type_is_valid cond) || negb (type_is_valid if_true) || negb (type_is_valid if_false) then None
  else if negb (bv_width cond =? 1) then None
  else if negb (bv_width if_true =? bv_width if_false) then None
  else Some (mkType (bv_width if_true) (bv_is_signed if_true || bv_is_signed if_false)).

(** The sum of the widths, refused when it leaves [unsigned]. *)
Fixpoint concat_width (elems : list JZBitvecType) (total : Z) : option Z :=
  match elems with
  | [] => Some total
  | e :: elems' =>
      if negb (type_is_valid e) then None
      else if 2 ^ 32 - 1 - bv_width e <? total then None
      else concat_width elems' (total + bv_width e)
  end.

Definition jz_type_concat (elems : list JZBitvecType) : option JZBitvecType :=
  match elems with
  | [] => None
  | _ => option_map (fun w => mkType w false) (concat_width elems 0)
  end.

Definition jz_type_slice (base : JZBitvecType) (msb lsb : Z) : option JZBitvecType :=
  if negb (type_is_valid base) then None
  else if msb <? lsb then None
  else if bv_width base <=? msb then None
  else Some (mkType (msb - lsb + 1) false).

(** ** Operators by name *)

(** The comparisons of strings, in order. *)
Definition lookup_name {A} (table : list (string * A)) (kind : string) : option A :=
  option_map snd (List.find (fun p => String.eqb (fst p) kind) table).

Local Open Scope string_scope.

(** The chain of [strcmp] of [infer_expr_type]. *)
Definition unary_op_of_kind : string -> option JZUnaryOp :=
  lookup_name [("POS", JZ_UNARY_PLUS); ("NEG", JZ_UNARY_MINUS); ("BIT_NOT", JZ_UNARY_BIT_NOT);
    ("LOG_NOT", JZ_UNARY_LOGICAL_NOT)].

Definition binary_op_of_kind : string -> option JZBinaryOp :=
  lookup_name [("ADD", JZ_BIN_ADD); ("SUB", JZ_BIN_SUB); ("MUL", JZ_BIN_MUL); ("DIV", JZ_BIN_DIV);
    ("MOD", JZ_BIN_MOD); ("BIT_AND", JZ_BIN_BIT_AND); ("BIT_OR", JZ_BIN_BIT_OR);
    ("BIT_XOR", JZ_BIN_BIT_XOR); ("LOG_AND", JZ_BIN_LOG_AND); ("LOG_OR", JZ_BIN_LOG_OR);
    ("EQ", JZ_BIN_EQ); ("NEQ", JZ_BIN_NE); ("LT", JZ_BIN_LT); ("LE", JZ_BIN_LE);
    ("GT", JZ_BIN_GT); ("GE", JZ_BIN_GE); ("SHL", JZ_BIN_SHL); ("SHR", JZ_BIN_SHR);
    ("ASHR", JZ_BIN_ASHR)].

Definition ir_map_binary_kind : string -> option IR_BinaryKind :=
  lookup_name [("ADD", EXPR_BINARY_ADD); ("SUB", EXPR_BINARY_SUB); ("MUL", EXPR_BINARY_MUL);
    ("DIV", EXPR_BINARY_DIV); ("MOD", EXPR_BINARY_MOD); ("BIT_AND", EXPR_BINARY_AND);
    ("BIT_OR", EXPR_BINARY_OR); ("BIT_XOR", EXPR_BINARY_XOR); ("SHL", EXPR_BINARY_SHL);
    ("SHR", EXPR_BINARY_SHR); ("ASHR", EXPR_BINARY_ASHR); ("EQ", EXPR_BINARY_EQ);
    ("NEQ", EXPR_BINARY_NEQ); ("LT", EXPR_BINARY_LT); ("LE", EXPR_BINARY_LTE);
    ("GT", EXPR_BINARY_GT); ("GE", EXPR_BINARY_GTE); ("LOG_AND", EXPR_LOGICAL_AND);
    ("LOG_OR", EXPR_LOGICAL_OR)].

Definition ir_map_unary_kind : string -> option IR_UnaryKind :=
  lookup_name [("BIT_NOT", EXPR_UNARY_NOT); ("LOG_NOT", EXPR_LOGICAL_NOT); ("NEG", EXPR_UNARY_NEG)].
