(* ===== verification/TypeSpec.v ===== *)
(** * Compile-time types and simulated values agree

    The IR builder gives a node the width that [type.c] infers; these theorems
    relate that width, and the meaning of the operators, to what the simulator
    computes at the node. *)

From S2P Require Import Prelude SimValue SimBits SimArith SimBitwise SimWf SimOrder IR SimState SimEval SimExec SimIntrinsics SimWrite SimMono SimTyping Types.

Local Open Scope Z_scope.

(** ** Names *)

(** The two tables of operator names describe the same operators. *)
Definition kind_of_op (op : JZBinaryOp) : IR_BinaryKind :=
  match op with
  | JZ_BIN_ADD => EXPR_BINARY_ADD | JZ_BIN_SUB => EXPR_BINARY_SUB
  | JZ_BIN_MUL => EXPR_BINARY_MUL | JZ_BIN_DIV => EXPR_BINARY_DIV
  | JZ_BIN_MOD => EXPR_BINARY_MOD
  | JZ_BIN_BIT_AND => EXPR_BINARY_AND | JZ_BIN_BIT_OR => EXPR_BINARY_OR
  | JZ_BIN_BIT_XOR => EXPR_BINARY_XOR
  | JZ_BIN_LOG_AND => EXPR_LOGICAL_AND | JZ_BIN_LOG_OR => EXPR_LOGICAL_OR
  | JZ_BIN_EQ => EXPR_BINARY_EQ | JZ_BIN_NE => EXPR_BINARY_NEQ
  | JZ_BIN_LT => EXPR_BINARY_LT | JZ_BIN_LE => EXPR_BINARY_LTE
  | JZ_BIN_GT => EXPR_BINARY_GT | JZ_BIN_GE => EXPR_BINARY_GTE
  | JZ_BIN_SHL => EXPR_BINARY_SHL | JZ_BIN_SHR => EXPR_BINARY_SHR
  | JZ_BIN_ASHR => EXPR_BINARY_ASHR
  end.

Lemma lookup_cons {A} (n : string) (a : A) t kind :
  lookup_name ((n, a) :: t) kind = if String.eqb n kind then Some a else lookup_name t kind.
Proof. unfold lookup_name. cbn [List.find fst]. by destruct (String.eqb n kind). Qed.

Lemma kinds_agree kind op :
  binary_op_of_kind kind = Some op -> ir_map_binary_kind kind = Some (kind_of_op op).
Proof.
  unfold binary_op_of_kind. rewrite !lookup_cons.
  repeat match goal with |- context [if String.eqb ?n kind then _ else _] =>
    destruct (String.eqb_spec n kind) as [<-|_]; [by intros [= <-]|] end.
  done.
Qed.

(** ** Values *)

Definition op_value (op : JZBinaryOp) (w : Z) (a b : SimValue) : Z :=
  let x := sv_uint a in
  let y := sv_uint b in
  match op with
  | JZ_BIN_ADD => (x + y) mod 2 ^ w
  | JZ_BIN_SUB => (x - y) mod 2 ^ w
  | JZ_BIN_MUL => x * y
  | JZ_BIN_DIV => x / y
  | JZ_BIN_MOD => x mod y
  | JZ_BIN_BIT_AND => Z.land x y
  | JZ_BIN_BIT_OR => Z.lor x y
  | JZ_BIN_BIT_XOR => Z.lxor x y
  | JZ_BIN_LOG_AND => bool_to_int (negb (x =? 0) && negb (y =? 0))
  | JZ_BIN_LOG_OR => bool_to_int (negb (x =? 0) || negb (y =? 0))
  | JZ_BIN_EQ => bool_to_int (x =? y)
  | JZ_BIN_NE => bool_to_int (negb (x =? y))
  | JZ_BIN_LT => bool_to_int (x <? y)
  | JZ_BIN_LE => bool_to_int (x <=? y)
  | JZ_BIN_GT => bool_to_int (y <? x)
  | JZ_BIN_GE => bool_to_int (y <=? x)
  | JZ_BIN_SHL => (x * 2 ^ y) mod 2 ^ w
  | JZ_BIN_SHR => x / 2 ^ y
  | JZ_BIN_ASHR => (sv_sint a / 2 ^ y) mod 2 ^ w
  end.

(** Known four-state bits are bits. *)
Lemma bit_at_known v k : is_unknown (bit_at v k) = false -> bit_at v k = if vbit v k then B1 else B0.
Proof.
  rewrite bit_at_unknown. intros [H1 H2]%orb_false_iff. unfold bit_at. by rewrite H1, H2.
Qed.

(** A value whose bits combine the bits of known operands. *)
Lemma bitwise_known a b r w (f : Bit4 -> Bit4 -> Bit4) (g : bool -> bool -> bool) (h : Z -> Z -> Z) :
  (forall x y : bool, f (if x then B1 else B0) (if y then B1 else B0) = if g x y then B1 else B0) ->
  (forall x y k, Z.testbit (h x y) k = g (Z.testbit x k) (Z.testbit y k)) ->
  (forall x y, 0 <= x -> 0 <= y -> 0 <= h x y) ->
  wf a -> wf b -> known a -> known b -> sv_width a = w -> sv_width b = w ->
  wf r -> sv_width r = w -> (forall k, 0 <= k -> bit_at r k = f (bit_at a k) (bit_at b k)) ->
  is_num r w (h (sv_uint a) (sv_uint b)).
Proof.
  intros Hf Hg Hh Ha Hb Ka Kb Wa Wb Hr Wr Hbits.
  assert (forall v, wf v -> known v -> forall k, 0 <= k -> bit_at v k = if vbit v k then B1 else B0) as Hk.
  { intros v Hv Kv k Hk. apply bit_at_known. destruct (Z.lt_ge_cases k (sv_width v)).
    - apply Kv. lia.
    - rewrite bit_at_unknown. by destruct (wf_high v Hv k) as (_ & -> & ->). }
  assert (forall k, 0 <= k -> bit_at r k = if g (vbit a k) (vbit b k) then B1 else B0) as Hr'.
  { intros k Hp. rewrite Hbits by done. by rewrite (Hk a), (Hk b), Hf. }
  assert (known r) as Kr.
  { intros k Hp. rewrite Hr' by lia. by destruct (g _ _). }
  pose proof (sv_uint_bounds a Ha). pose proof (sv_uint_bounds b Hb).
  constructor; [done..|]. apply sv_uint_bits_eq; [by apply wf_shaped|apply Hh; lia|].
  intros k Hp. specialize (Hr' k Hp). rewrite (Hk r Hr Kr k Hp) in Hr'.
  rewrite Hg, !sv_uint_testbit by (done || by apply wf_shaped).
  by destruct (vbit r k), (g (vbit a k) (vbit b k)).
Qed.

Lemma truth_num v : wf v -> known v -> truth v = Some (negb (sv_uint v =? 0)).
Proof.
  intros Hv Kv. pose proof (sv_uint_bounds v Hv) as Hb. pose proof (wf_pos v Hv) as Hw.
  destruct (truth_cases v Hw) as [[_ E]|[(E & _ & Hz)|(E & _ & k & Hk & Hone)]].
  - apply (sim_val_has_xz_false v Hw) in Kv. congruence.
  - rewrite E. enough (sv_uint v = 0) as -> by done. apply Z.bits_inj'. intros k Hk.
    rewrite Z.testbit_0_l, sv_uint_testbit by (done || by apply wf_shaped).
    destruct (Z.lt_ge_cases k (sv_width v)); [apply Hz; lia|by apply (wf_high v Hv)].
  - rewrite E. destruct (Z.eqb_spec (sv_uint v) 0) as [E0|]; [|done].
    enough (vbit v k = false) by congruence. rewrite <- sv_uint_testbit by (lia || by apply wf_shaped).
    by rewrite E0, Z.testbit_0_l.
Qed.

(** Taking the width it already has changes no value. *)
Lemma mask_same_width r w n : is_num r w n -> is_num (sim_val_mask (with_width w r)) w n.
Proof.
  intros H. pose proof (in_wf _ _ _ H) as Hwf. pose proof (wf_width _ Hwf) as Hw.
  rewrite (in_width _ _ _ H) in Hw. unfold with_width, width_or. destruct (Z.ltb_spec 0 w); [|lia].
  pose proof (mask_width_num r w n w H ltac:(lia)) as Hm. pose proof (sv_uint_bounds r Hwf) as Hb.
  rewrite (in_width _ _ _ H), (in_uint _ _ _ H) in Hb. by rewrite Z.mod_small in Hm by lia.
Qed.

Definition is_division_op (op : JZBinaryOp) : bool :=
  match op with JZ_BIN_DIV | JZ_BIN_MOD => true | _ => false end.

Lemma cmp_value k w a b t :
  eval_binary k w a b = cmp_result t -> is_num (eval_binary k w a b) 1 (bool_to_int t).
Proof. intros ->. apply cmp_result_num. Qed.

(** The shape alone. *)
Lemma operator_shape op sa sb a b t :
  jz_type_binary op (mkType (sv_width a) sa) (mkType (sv_width b) sb) = Some t ->
  bv_width t <= 256 -> wf a -> wf b ->
  shape (eval_binary (kind_of_op op) (bv_width t) a b) (bv_width t).
Proof.
  intros Ht Hw Ha Hb. pose proof (wf_width a Ha). pose proof (wf_width b Hb).
  assert (type_binary (kind_of_op op) (bv_width t) (sv_width a) (sv_width b) = Some (bv_width t)) as Et.
  { revert Ht. unfold jz_type_binary, type_is_valid. cbn [bv_width bv_is_signed].
    destruct (Z.ltb_spec 0 (sv_width a)); [|lia]. destruct (Z.ltb_spec 0 (sv_width b)); [|lia].
    cbn [negb orb].
    destruct op; cbn [kind_of_op type_binary]; cbv zeta; intros Ht; repeat case_match; try done;
      injection Ht as <-; cbn [bv_width] in *; unfold ok_width, width_or, when; try done;
      repeat case_match; try done; try lia; (f_equal; lia) || idtac. }
  assert (forall v, wf v -> refw v v (sv_width v)) as Hrefl by (intros v Hv; by apply refw_refl).
  apply refw_self. by apply (eval_binary_refw _ _ a a b b (sv_width a) (sv_width b) _ (Hrefl a Ha) (Hrefl b Hb)).
Qed.

Lemma operator_value op sa sb a b t :
  jz_type_binary op (mkType (sv_width a) sa) (mkType (sv_width b) sb) = Some t ->
  op <> JZ_BIN_MUL -> (is_division_op op = true -> sv_uint b <> 0) ->
  wf a -> wf b -> known a -> known b ->
  is_num (eval_binary (kind_of_op op) (bv_width t) a b) (bv_width t) (op_value op (bv_width t) a b).
Proof.
  intros Ht Hmul Hdiv Ha Hb Ka Kb. pose proof (wf_width a Ha). pose proof (wf_width b Hb).
  revert Ht. unfold jz_type_binary, type_is_valid. cbn [bv_width bv_is_signed].
  destruct (Z.ltb_spec 0 (sv_width a)); [|lia]. destruct (Z.ltb_spec 0 (sv_width b)); [|lia].
  cbn [negb orb].
  assert (sv_width a = sv_width b -> max_width a b = sv_width a) as Hmax.
  { intros E. unfold max_width. rewrite E. by destruct (_ <? _). }
  destruct (compare_known a b Ha Hb Ka Kb) as (E1 & E2 & E3 & E4 & E5 & E6).
  assert (sv_width a = sv_width b -> forall r n, is_num r (max_width a b) n ->
    is_num (sim_val_mask (with_width (sv_width a) r)) (sv_width a) n) as Harith.
  { intros E r n Hr. rewrite Hmax in Hr by done. by apply mask_same_width. }
  assert (sv_width a = sv_width b -> forall r n, is_num r (max_width a b) n ->
    is_num (with_width (sv_width a) r) (sv_width a) n) as Hbit.
  { intros E r n Hr. rewrite Hmax in Hr by done. unfold with_width, width_or.
    destruct (Z.ltb_spec 0 (sv_width a)); [|lia]. apply (set_width_num r (sv_width a)); [done|lia]. }
  destruct op; cbn [kind_of_op op_value is_division_op] in *; cbv zeta;
    try (destruct (Z.eqb_spec (sv_width a) (sv_width b)) as [Ew|]; [|done]; specialize (Hmax Ew);
         specialize (Harith Ew); specialize (Hbit Ew));
    cbn [negb]; try (intros [= <-]); cbn [bv_width]; try (by apply cmp_value);
    cbn [eval_binary].
  - apply Harith. rewrite <- Hmax. by apply add_known.
  - apply Harith. rewrite <- Hmax. by apply sub_known.
  - done.
  - apply Harith. by apply (divmod_known a b false), Hdiv.
  - apply Harith. by apply (divmod_known a b true), Hdiv.
  - apply Hbit. rewrite Hmax. destruct (sim_val_and_bits a b Ha Hb) as (W1 & W2 & W3).
    apply (bitwise_known a b _ _ and4 andb Z.land); try done; try congruence;
      [by intros [] []|intros; apply Z.land_spec|intros; apply Z.land_nonneg; by left].
  - apply Hbit. rewrite Hmax. destruct (sim_val_or_bits a b Ha Hb) as (W1 & W2 & W3).
    apply (bitwise_known a b _ _ or4 orb Z.lor); try done; try congruence;
      [by intros [] []|intros; apply Z.lor_spec|intros; apply Z.lor_nonneg; by split].
  - apply Hbit. rewrite Hmax. destruct (sim_val_xor_bits a b Ha Hb) as (W1 & W2 & W3).
    apply (bitwise_known a b _ _ xor4 xorb Z.lxor); try done; try congruence;
      [by intros [] []|intros; apply Z.lxor_spec|intros; by apply Z.lxor_nonneg].
  - case_match; [done|]. intros [= <-]. unfold sim_val_logical_and.
    rewrite !sim_val_is_true_truth, !truth_num by (done || lia).
    cbn [bv_width]. destruct (sv_uint a =? 0), (sv_uint b =? 0); apply cmp_result_num.
  - case_match; [done|]. intros [= <-]. unfold sim_val_logical_or.
    rewrite !sim_val_is_true_truth, !truth_num by (done || lia).
    cbn [bv_width]. destruct (sv_uint a =? 0), (sv_uint b =? 0); apply cmp_result_num.
  - apply mask_same_width. by apply shl_known.
  - apply mask_same_width. by apply shr_known.
  - apply mask_same_width. by apply ashr_known.
Qed.

(** C22: an operator that the type inference accepts at some width, at most 256,
    produces, in the simulator, a well-formed value of exactly that width, whatever [x] and
    [z] the operands hold; on known operands it is the operator's mathematical
    value, for every operator but the multiplication (and divisors that are
    not zero).  Both tables of operator names select the same operator. *)
Theorem operators_agree kind op sa sb a b t :
  binary_op_of_kind kind = Some op ->
  jz_type_binary op (mkType (sv_width a) sa) (mkType (sv_width b) sb) = Some t ->
  bv_width t <= 256 -> wf a -> wf b ->
  exists k, ir_map_binary_kind kind = Some k /\
    shape (eval_binary k (bv_width t) a b) (bv_width t) /\
    (known a -> known b -> op <> JZ_BIN_MUL -> (is_division_op op = true -> sv_uint b <> 0) ->
     is_num (eval_binary k (bv_width t) a b) (bv_width t) (op_value op (bv_width t) a b)).
Proof.
  intros Hk Ht Hw Ha Hb. exists (kind_of_op op). split_and!.
  - by apply kinds_agree.
  - by apply (operator_shape op sa sb).
  - intros. by apply (operator_value op sa sb).
Qed.

Lemma operators_agree_witness :
  exists k, ir_map_binary_kind "ASHR" = Some k /\
    shape (eval_binary k 8 (sim_val_from_uint 200 8) (sim_val_all_x 4)) 8 /\
    (known (sim_val_from_uint 200 8) -> known (sim_val_all_x 4) -> JZ_BIN_ASHR <> JZ_BIN_MUL ->
     (is_division_op JZ_BIN_ASHR = true -> sv_uint (sim_val_all_x 4) <> 0) ->
     is_num (eval_binary k 8 (sim_val_from_uint 200 8) (sim_val_all_x 4)) 8
       (op_value JZ_BIN_ASHR 8 (sim_val_from_uint 200 8) (sim_val_all_x 4))).
Proof.
  apply (operators_agree "ASHR" JZ_BIN_ASHR false false (sim_val_from_uint 200 8) (sim_val_all_x 4)
    (mkType 8 false)); [reflexivity|reflexivity|cbn; lia|sample|apply all_x_shape; lia].
Defined.

(** The type inference gives a product twice the width of its operands,
    but the simulator multiplies modulo two to the operands' width before it
    widens the result: the upper half of every product is zero. *)
Theorem product_upper_half_lost sa sb a b t :
  jz_type_binary JZ_BIN_MUL (mkType (sv_width a) sa) (mkType (sv_width b) sb) = Some t ->
  bv_width t <= 256 -> wf a -> wf b -> known a -> known b ->
  bv_width t = 2 * sv_width a /\ ir_map_binary_kind "MUL" = Some EXPR_BINARY_MUL /\
  is_num (eval_binary EXPR_BINARY_MUL (bv_width t) a b) (bv_width t)
    ((sv_uint a * sv_uint b) mod 2 ^ sv_width a).
Proof.
  intros Ht Hw Ha Hb Ka Kb. pose proof (wf_width a Ha). pose proof (wf_width b Hb).
  revert Ht. unfold jz_type_binary, type_is_valid. cbn [bv_width bv_is_signed].
  destruct (Z.ltb_spec 0 (sv_width a)); [|lia]. destruct (Z.ltb_spec 0 (sv_width b)); [|lia].
  cbn [negb orb]. destruct (Z.eqb_spec (sv_width a) (sv_width b)) as [E|]; [|done]. cbn [negb].
  case_match; [done|]. intros [= <-]. cbn [bv_width] in *. split_and!; [lia|done|].
  pose proof (mul_known a b Ha Hb Ka Kb) as Hm.
  assert (max_width a b = sv_width a) as Ew by (unfold max_width; rewrite E, Z.ltb_irrefl; done).
  rewrite Ew in Hm. cbn [eval_binary]. unfold with_width, width_or.
  destruct (Z.ltb_spec 0 (sv_width a * 2)); [|lia].
  pose proof (mask_width_num _ _ _ (sv_width a * 2) Hm ltac:(lia)) as Hn.
  rewrite Z.mod_small in Hn; [done|].
  pose proof (Z.mod_pos_bound (sv_uint a * sv_uint b) (2 ^ sv_width a) ltac:(apply Z.pow_pos_nonneg; lia)).
  assert (2 ^ sv_width a <= 2 ^ (sv_width a * 2)) by (apply Z.pow_le_mono_r; lia). lia.
Qed.

Lemma product_upper_half_lost_witness :
  let a := sim_val_from_uint 15 4 in
  is_num (eval_binary EXPR_BINARY_MUL 8 a a) 8 ((sv_uint a * sv_uint a) mod 2 ^ sv_width a) /\
  (sv_uint a * sv_uint a) mod 2 ^ sv_width a = 1.
Proof.
  intros a. split; [|vm_compute; reflexivity].
  refine (proj2 (proj2 (product_upper_half_lost false false a a (mkType 8 false) eq_refl _ _ _ _ _)));
    subst a; first [sample|cbn; lia].
Defined.
