(* ===== verification/Literal.v ===== *)
(** * Literals of the compiler

    The analysis of [compiler/src/sem/literal.c], the number readers of
    [sem/driver.c] and [sem/driver_literal.c], and the decoder of
    [ir/ir_build_expr.c] that turns the text of a sized literal into IR words.
    [unsigned] has 32 bits.  The loops that place digits into words are those
    of [Digits]. *)

From S2P Require Import Prelude CString SimValue Digits IR.

Local Open Scope Z_scope.
Local Open Scope jz_scope.

Definition UINT_MAX : Z := 4294967295.

Inductive JZNumericBase :=
  | JZ_NUM_BASE_NONE | JZ_NUM_BASE_BIN | JZ_NUM_BASE_DEC | JZ_NUM_BASE_HEX.

Inductive JZLiteralExtKind :=
  | JZ_LITERAL_EXT_NONE | JZ_LITERAL_EXT_ZERO | JZ_LITERAL_EXT_X | JZ_LITERAL_EXT_Z.

(** ** Analysis: [literal.c] *)

Definition count_digits_no_underscore (s : string) : Z := count_digits s.

(** The loop over the digits: the value, or the early return. *)
Fixpoint decimal_acc (s : string) (acc : Z) : Z + Z :=
  match s with
  | EmptyString => inl acc
  | String c s' =>
      if Ascii.eqb c "_" then decimal_acc s' acc
      else
        match decimal_digit c with
        | None => inr 0
        | Some d =>
            if (UINT64_MAX - d) / 10 <? acc then inr 64 else decimal_acc s' (acc * 10 + d)
        end
  end.

(** [while (acc > 0) { acc >>= 1; bits++; }]; 64 rounds empty a word. *)
Fixpoint count_bits (fuel : nat) (acc bits : Z) : Z :=
  match fuel with
  | O => bits
  | S fuel' => if 0 <? acc then count_bits fuel' (Z.shiftr acc 1) (bits + 1) else bits
  end.

Definition intrinsic_width_for_decimal (value : string) : Z :=
  match value with
  | EmptyString => 0
  | _ =>
      match decimal_acc value 0 with
      | inr w => w
      | inl acc => if acc =? 0 then 1 else count_bits 64 acc 0
      end
  end.

(** Position (1 to 4) of the highest set bit of a nibble. *)
Definition msb_pos (v : Z) : Z :=
  if negb (v .& 8 =? 0) then 4
  else if negb (v .& 4 =? 0) then 3
  else if negb (v .& 2 =? 0) then 2
  else 1.

(** The search for the first non-zero hex digit; a character that is no digit
    counts like a zero. *)
Fixpoint hex_scan (s : string) (idx total : Z) : Z :=
  match s with
  | EmptyString => 1
  | String c s' =>
      if Ascii.eqb c "_" then hex_scan s' idx total
      else
        match nibble_of c with
        | None => hex_scan s' (idx + 1) total
        | Some v =>
            if v =? 0 then hex_scan s' (idx + 1) total
            else (total - idx - 1) * 4 + msb_pos v
        end
  end.

Definition intrinsic_width_for_hex_magnitude (value : string) : Z :=
  let total := count_digits_no_underscore value in
  if total =? 0 then 0 else hex_scan value 0 total.

(** The first character that is not an underscore. *)
Definition first_digit (s : string) : ascii :=
  match drop_while (Ascii.eqb "_") s with
  | String c _ => c
  | EmptyString => "0"
  end.

Definition binary_ext (msb : ascii) : JZLiteralExtKind :=
  if Ascii.eqb msb "0" || Ascii.eqb msb "1" then JZ_LITERAL_EXT_ZERO
  else if is_letter "x" msb then JZ_LITERAL_EXT_X
  else if is_letter "z" msb then JZ_LITERAL_EXT_Z
  else JZ_LITERAL_EXT_ZERO.

(** [Some (intrinsic width, extension)], or [None] for the status [-1]. *)
Definition jz_literal_analyze (base : JZNumericBase) (value_lexeme : string) (declared_width : Z) :
    option (Z * JZLiteralExtKind) :=
  if declared_width =? 0 then None
  else
    let result intrinsic ext :=
      if declared_width <? intrinsic then None
      else Some (intrinsic, if intrinsic =? declared_width then JZ_LITERAL_EXT_NONE else ext) in
    match base with
    | JZ_NUM_BASE_BIN =>
        result (count_digits_no_underscore value_lexeme) (binary_ext (first_digit value_lexeme))
    | JZ_NUM_BASE_HEX =>
        let intrinsic := intrinsic_width_for_hex_magnitude value_lexeme in
        if intrinsic =? 0 then None else result intrinsic JZ_LITERAL_EXT_ZERO
    | JZ_NUM_BASE_DEC =>
        let intrinsic := intrinsic_width_for_decimal value_lexeme in
        if intrinsic =? 0 then None else result intrinsic JZ_LITERAL_EXT_ZERO
    | JZ_NUM_BASE_NONE => None
    end.

(** ** Number readers: [driver.c], [driver_literal.c] *)

(** The digits of an [unsigned], characters satisfying [skip] being ignored;
    the flag says whether a digit was seen. *)
Fixpoint read_unsigned (skip : ascii -> bool) (s : string) (value : Z) (saw_digit : bool) :
    option (Z * bool) :=
  match s with
  | EmptyString => Some (value, saw_digit)
  | String c s' =>
      if skip c then read_unsigned skip s' value saw_digit
      else
        match decimal_digit c with
        | None => None
        | Some d =>
            if (UINT_MAX / 10 <? value) || (value =? UINT_MAX / 10) && (UINT_MAX mod 10 <? d)
            then None
            else read_unsigned skip s' (value * 10 + d) true
        end
  end.

Definition parse_simple_positive_int (s : string) : option Z :=
  match read_unsigned (fun c => isspace c || Ascii.eqb c "_") s 0 false with
  | Some (value, true) => if value =? 0 then None else Some value
  | _ => None
  end.

Definition parse_simple_nonnegative_int (s : string) : option Z :=
  match read_unsigned isspace s 0 false with
  | Some (value, true) => Some value
  | _ => None
  end.

(** The digits of a base, refused when the value leaves [unsigned]. *)
Fixpoint read_digits (base : Z) (digit : ascii -> option Z) (s : string) (acc : Z)
    (saw_digit : bool) : option (Z * bool) :=
  match s with
  | EmptyString => Some (acc, saw_digit)
  | String c s' =>
      if Ascii.eqb c "_" then read_digits base digit s' acc saw_digit
      else
        match digit c with
        | None => None
        | Some d =>
            if (UINT_MAX - d) / base <? acc then None
            else read_digits base digit s' (acc * base + d) true
        end
  end.

Definition parse_literal_unsigned_value (s : string) : option Z :=
  match parse_simple_nonnegative_int s with
  | Some v => Some v
  | None =>
      match split_at "'" s with
      | Some (String _ _, String base_ch digits) =>
          let r :=
            if is_empty_string digits then None
            else if is_letter "d" base_ch then read_digits 10 decimal_digit digits 0 false
            else if is_letter "h" base_ch then read_digits 16 nibble_of digits 0 false
            else if is_letter "b" base_ch then read_digits 2 binary_digit digits 0 false
            else None in
          match r with
          | Some (acc, true) => Some acc
          | _ => None
          end
      | _ => None
      end
  end.

(** The digits of a [long long]. *)
Fixpoint read_signed (s : string) (value : Z) (saw_digit : bool) : option (Z * bool) :=
  match s with
  | EmptyString => Some (value, saw_digit)
  | String c s' =>
      if isspace c then read_signed s' value saw_digit
      else
        match decimal_digit c with
        | None => None
        | Some d =>
            if Z.quot (LLONG_MAX - d) 10 <? value then None
            else read_signed s' (value * 10 + d) true
        end
  end.

(** Also [sem_parse_simple_signed] of [driver_literal.c]. *)
Definition parse_simple_signed_int (s : string) : option Z :=
  let '(negative, digits) :=
    match drop_while isspace s with
    | String c s' =>
        if Ascii.eqb c "+" then (false, s')
        else if Ascii.eqb c "-" then (true, s')
        else (false, String c s')
    | EmptyString => (false, EmptyString)
    end in
  match read_signed digits 0 false with
  | Some (value, true) => Some (if negative then - value else value)
  | _ => None
  end.

Definition base_of (c : ascii) : JZNumericBase :=
  if is_letter "b" c then JZ_NUM_BASE_BIN
  else if is_letter "d" c then JZ_NUM_BASE_DEC
  else if is_letter "h" c then JZ_NUM_BASE_HEX
  else JZ_NUM_BASE_NONE.

(** The white space the readers of values skip, and the underscore. *)
Definition value_skip (c : ascii) : bool :=
  Ascii.eqb c "_" || (code c =? 32) || (code c =? 9) || (code c =? 13) || (code c =? 10).

(** The scan of [sem_literal_is_const_zero] over decimal digits, and over the
    value of a sized literal: whether the literal is known to be zero and
    whether the answer is known. *)
Fixpoint zero_digits (s : string) (saw_digit : bool) : bool * bool :=
  match s with
  | EmptyString => (saw_digit, saw_digit)
  | String c s' =>
      if Ascii.eqb c "_" then zero_digits s' saw_digit
      else if negb (isdigit c) then (false, false)
      else if negb (Ascii.eqb c "0") then (false, true)
      else zero_digits s' true
  end.

Fixpoint zero_value (s : string) (saw_bit : bool) : bool * bool :=
  match s with
  | EmptyString => (saw_bit, saw_bit)
  | String c s' =>
      if value_skip c then zero_value s' saw_bit
      else if is_letter "x" c || is_letter "z" c then (false, false)
      else if negb (Ascii.eqb c "0") then (false, true)
      else zero_value s' true
  end.

Definition sem_literal_is_const_zero (lex : string) : bool * bool :=
  match split_at "'" lex with
  | None => if is_empty_string lex then (false, false) else zero_digits lex false
  | Some (_, String _ value) => if is_empty_string value then (false, false) else zero_value value false
  | Some (_, EmptyString) => (false, false)
  end.

(** The type of a literal: its width, and a diagnostic [LIT_OVERFLOW]. *)
Definition infer_literal_type (lex : string) : option Z * bool :=
  match split_at "'" lex with
  | Some (width_text, rest) =>
      if (String.length width_text =? 0)%nat || (32 <=? String.length width_text)%nat then (None, false)
      else
        match parse_simple_positive_int width_text, rest with
        | Some declared_width, String base_ch value_lexeme =>
            match base_of base_ch with
            | JZ_NUM_BASE_NONE => (None, false)
            | base =>
                if is_empty_string value_lexeme then (None, false)
                else
                  match jz_literal_analyze base value_lexeme declared_width with
                  | None => (None, true)
                  | Some _ => (Some declared_width, false)
                  end
            end
        | _, _ => (None, false)
        end
  | None =>
      match jz_literal_analyze JZ_NUM_BASE_DEC lex UINT_MAX with
      | None => (None, false)
      | Some (intrinsic, _) => (Some intrinsic, false)
      end
  end.

(** ** The IR decoder: [ir_decode_sized_literal] *)

(** Without the white space at the end. *)
Fixpoint trim_end (s : string) : string :=
  match s with
  | EmptyString => EmptyString
  | String c s' =>
      match trim_end s' with
      | EmptyString => if isspace c then EmptyString else String c EmptyString
      | t => String c t
      end
  end.

(** The digits that are neither skipped nor counted. *)
Fixpoint count_value_digits (s : string) : Z :=
  match s with
  | EmptyString => 0
  | String c s' => (if value_skip c then 0 else 1) + count_value_digits s'
  end.

Definition place_bit (bit_idx bit : Z) (words : list Z) : list Z :=
  if (0 <=? bit_idx) && (bit_idx <? IR_LIT_WORDS * 64) then
    let wi := bit_idx / 64 in
    let bi := bit_idx mod 64 in
    aset words wi (aget 0 words wi .| (bit .<< bi))
  else words.

(** The state of the loops: words, [all_z], [has_digits]. *)
Definition Decoding : Type := list Z * bool * bool.

Fixpoint decode_bits (s : string) (bit_idx : Z) (st : Decoding) : Decoding :=
  match s with
  | EmptyString => st
  | String c s' =>
      if value_skip c then decode_bits s' bit_idx st
      else
        let '(words, all_z, _) := st in
        let next :=
          if Ascii.eqb c "0" then (place_bit bit_idx 0 words, false, true)
          else if Ascii.eqb c "1" then (place_bit bit_idx 1 words, false, true)
          else if is_letter "z" c then (place_bit bit_idx 0 words, all_z, true)
          else if is_letter "x" c then (place_bit bit_idx 0 words, false, true)
          else (words, all_z, true) in
        decode_bits s' (bit_idx - 1) next
  end.

Fixpoint decode_nibbles (s : string) (nib_idx : Z) (st : Decoding) : Decoding :=
  match s with
  | EmptyString => st
  | String c s' =>
      if value_skip c then decode_nibbles s' nib_idx st
      else
        let '(words, all_z, _) := st in
        let next :=
          match nibble_of c with
          | Some nibble => (put_nibble nib_idx nibble words, false, true)
          | None =>
              if is_letter "z" c then (put_nibble nib_idx 0 words, all_z, true)
              else if is_letter "x" c then (put_nibble nib_idx 0 words, false, true)
              else (words, all_z, true)
          end in
        decode_nibbles s' (nib_idx - 1) next
  end.

(** The decimal value modulo [2^64]; [None] for a character that is no digit. *)
Fixpoint decode_decimal (s : string) (value : Z) : option Z :=
  match s with
  | EmptyString => Some value
  | String c s' =>
      if value_skip c then decode_decimal s' value
      else
        match decimal_digit c with
        | None => None
        | Some d => decode_decimal s' (u64 (value * 10 + d))
        end
  end.

Section Decoder.
(** The width of a literal whose width is no number, in the module's scope;
    [None] without a scope or when the evaluation fails:
    [sem_eval_const_expr_in_module]. *)
Context (module_width : string -> option Z).

Definition decode_width (width_buf : string) : option Z :=
  match parse_simple_positive_int width_buf with
  | Some w => Some w
  | None =>
      match module_width width_buf with
      | Some w => if 0 <? w then Some (u32 w) else None
      | None => None
      end
  end.

Definition decode_value (base : JZNumericBase) (have_width : option Z) (value_lexeme : string) :
    option Decoding :=
  let clean_value := truncate 255 (trim_end value_lexeme) in
  let zero := (zero_words, true, false) in
  match base with
  | JZ_NUM_BASE_BIN => Some (decode_bits clean_value (count_value_digits clean_value - 1) zero)
  | JZ_NUM_BASE_HEX => Some (decode_nibbles value_lexeme (count_value_digits value_lexeme - 1) zero)
  | JZ_NUM_BASE_DEC =>
      match decode_decimal value_lexeme 0 with
      | None => None
      | Some value =>
          let value :=
            match have_width with
            | Some w => if w <? 64 then value .& ((1 .<< w) - 1) else value
            | None => value
            end in
          Some (aset zero_words 0 value, false, true)
      end
  | JZ_NUM_BASE_NONE => None
  end.

Definition ir_decode_sized_literal (lex : string) : option IR_Literal :=
  match split_at "'" lex with
  | None => None
  | Some (width_buf, rest) =>
      if (String.length width_buf =? 0)%nat || (32 <=? String.length width_buf)%nat then None
      else
        match rest with
        | EmptyString => None
        | String base_ch value_lexeme =>
            let have_width := decode_width width_buf in
            match base_of base_ch with
            | JZ_NUM_BASE_NONE => None
            | base =>
                if is_empty_string value_lexeme then None
                else
                  let analyzed :=
                    match have_width with
                    | Some w =>
                        match jz_literal_analyze base (truncate 255 (trim_end value_lexeme)) w with
                        | Some _ => true
                        | None => false
                        end
                    | None => true
                    end in
                  if negb analyzed then None
                  else
                    match decode_value base have_width value_lexeme with
                    | None => None
                    | Some (words, all_z, has_digits) =>
                        Some (mkLiteral words
                          (match have_width with Some w => i32 w | None => 0 end)
                          (all_z && has_digits))
                    end
            end
        end
  end.
End Decoder.
