(* ===== verification/LitSpec.v ===== *)
(** * What the literal readers promise

    First the literals of tests: [parse_literal_to_simval] reads a literal as
    the number its digits denote.  Then the analysis of literals, the width and
    the digits of a value, and the decoder of the IR builder. *)

From S2P Require Import Prelude CString Ast SimValue SimBits Digits SimArith SimBitwise SimWf SimOrder Util IR SimState SimEval SimExec SimWrite SimMono ConstEval SymTab TbState TbExpr DivSound Literal.


Local Open Scope Z_scope.
Local Open Scope jz_scope.

Lemma literal_nibbles_fills s words z :
  digits_ok nibble_of s = true -> words_ok 4 words ->
  snd (literal_nibbles s (count_digits s - 1) words z) = z /\
  filled words (fst (literal_nibbles s (count_digits s - 1) words z)) (digits_num 16 nibble_of s).
Proof.
  revert words z. induction s as [|c s IH]; intros words z Hd Hw;
    cbn [digits_ok literal_nibbles count_digits digits_num] in *.
  { split; [done|]. by apply filled_zero. }
  apply andb_true_iff in Hd as [Hc Hd].
  destruct (Ascii.eqb c "_") eqn:Eu; [rewrite !Z.add_0_l; by apply IH|]. cbn [orb] in Hc.
  replace (1 + count_digits s - 1) with (count_digits s) by lia.
  destruct (nibble_of c) as [n|] eqn:En; [|done]. cbn [default id].
  pose proof (count_digits_nonneg s) as Hn. pose proof (nibble_bounds c n En) as Hb.
  destruct (put_nibble_spec (count_digits s) n words Hw Hn Hb) as [Hw' Hbits].
  destruct (IH (put_nibble (count_digits s) n words) z Hd Hw') as [Hz Hf]. split; [done|].
  pose proof (digits_num_bounds 16 nibble_of s ltac:(lia) nibble_bounds) as Hr.
  change 16 with (2 ^ 4) in Hr |- *. rewrite <- Z.pow_mul_r in Hr |- * by lia.
  apply (filled_digit words (put_nibble (count_digits s) n words)); [lia|exact Hr|exact Hbits|exact Hf].
Qed.

Lemma literal_bits_fills s words z :
  digits_ok binary_digit s = true -> words_ok 4 words -> count_digits s <= 256 ->
  snd (literal_bits s (count_digits s - 1) words z) = z /\
  filled words (fst (literal_bits s (count_digits s - 1) words z)) (digits_num 2 binary_digit s).
Proof.
  revert words z. induction s as [|c s IH]; intros words z Hd Hw Hle;
    cbn [digits_ok literal_bits count_digits digits_num] in *.
  { split; [done|]. by apply filled_zero. }
  apply andb_true_iff in Hd as [Hc Hd].
  destruct (Ascii.eqb c "_") eqn:Eu; [rewrite !Z.add_0_l in *; by apply IH|]. cbn [orb] in Hc.
  replace (1 + count_digits s - 1) with (count_digits s) by lia.
  pose proof (count_digits_nonneg s) as Hn.
  pose proof (digits_num_bounds 2 binary_digit s ltac:(lia) binary_bounds) as Hr.
  change (SIM_VAL_WORDS * 64) with 256.
  destruct (Z.leb_spec 0 (count_digits s)); [|lia].
  destruct (Z.ltb_spec (count_digits s) 256); [|lia]. rewrite !andb_true_r.
  unfold binary_digit in Hc |- * at 1.
  destruct (Ascii.eqb c "1") eqn:E1.
  - apply Ascii.eqb_eq in E1 as ->. change (default 0 _) with 1.
    destruct (put_bit_spec (count_digits s) 1 words Hw ltac:(lia) ltac:(lia)) as [Hw' Hb].
    destruct (IH _ z Hd Hw' ltac:(lia)) as [Hz Hf]. split; [done|].
    exact (filled_digit _ _ _ 1 _ _ Hn Hr Hb Hf).
  - destruct (Ascii.eqb c "0") eqn:E0; [|done]. apply Ascii.eqb_eq in E0 as ->.
    change (is_letter "z" "0") with false. rewrite orb_false_r.
    change (default 0 _) with 0. rewrite Z.mul_0_l, Z.add_0_l. by apply IH; [..|lia].
Qed.

(** ** Sized literals *)

Lemma set0_words v : is_u64 v ->
  words_ok 4 (aset zero_words 0 v) /\ words_to_Z (aset zero_words 0 v) = v.
Proof.
  intros Hv. split; [apply words_ok_aset; [apply (words_ok_replicate 4)|done]|].
  change (aset zero_words 0 v) with [v; 0; 0; 0]. cbn [words_to_Z]. lia.
Qed.

Lemma from_words_set0 v w : is_u64 v -> 0 < w <= 256 ->
  is_num (sim_val_from_words (aset zero_words 0 v) SIM_VAL_WORDS w) w (v mod 2 ^ w).
Proof.
  intros Hv Hw. destruct (set0_words v Hv) as [Hok E].
  pose proof (from_words_is_num (aset zero_words 0 v) w Hok Hw) as H. by rewrite E in H.
Qed.

(** The digits of a base that the reader takes in full, and the number they
    denote: decimal ones have no underscores and stay within a word. *)
Definition base_digits (c : ascii) (s : string) : option Z :=
  if is_letter "b" c then
    if digits_ok binary_digit s && (count_digits s <=? 256) then Some (digits_num 2 binary_digit s)
    else None
  else if is_letter "h" c then
    if digits_ok nibble_of s then Some (digits_num 16 nibble_of s) else None
  else if is_letter "d" c then
    if all_digits s && (digits_value s 0 <=? UINT64_MAX) then Some (digits_value s 0) else None
  else None.

Lemma strtoul10_digits s : all_digits s = true -> digits_value s 0 <= UINT64_MAX ->
  strtoul10 s = digits_value s 0.
Proof.
  intros Hs Hv. destruct s as [|d s]; [done|]. pose proof Hs as Hs0. cbn [all_digits] in Hs.
  apply andb_true_iff in Hs as [Hd Hs]. destruct (digit_plain d Hd) as (H1 & H2 & H3 & _).
  unfold strtoul10. cbn [drop_while]. rewrite H1. cbn [sign_prefix]. rewrite H2, H3.
  destruct (Z.ltb_spec UINT64_MAX (digits_value (String d s) 0)); [lia|done].
Qed.

(** In a test directive, a literal [<width>'<base><digits>] evaluates to the
    value of that width, without [x] or [z], of the number its digits denote
    modulo [2^width]; underscores separate binary and hexadecimal digits. *)
Lemma parse_literal_num wtext c digits n :
  all_digits wtext = true -> 0 < digits_value wtext 0 <= 256 -> base_digits c digits = Some n ->
  is_num (parse_literal_to_simval (Some (wtext ++ String "'" (String c digits)))%string)
    (digits_value wtext 0) (n mod 2 ^ digits_value wtext 0).
Proof.
  intros Hs Hw Hn. unfold parse_literal_to_simval. rewrite split_at_width by done.
  rewrite strtol10_width by (done || unfold LLONG_MAX; lia).
  generalize dependent (digits_value wtext 0). intros w Hw.
  assert (i32 w = w) as -> by (apply i32_id; unfold INT32_MAX; lia).
  destruct (Z.leb_spec w 0); [lia|]. destruct (Z.ltb_spec (SIM_VAL_WORDS * 64) w); [change (SIM_VAL_WORDS * 64) with 256 in *; lia|].
  assert (words_ok 4 zero_words) as Hz4 by apply (words_ok_replicate 4).
  unfold base_digits in Hn.
  destruct (is_letter "b" c); [|destruct (is_letter "h" c); [|destruct (is_letter "d" c); [|done]]].
  - destruct (digits_ok binary_digit digits) eqn:Ed; [|done]. cbn [andb] in Hn.
    destruct (Z.leb_spec (count_digits digits) 256); [|done]. injection Hn as <-.
    destruct (literal_bits_fills digits zero_words false Ed Hz4 ltac:(done)) as [Hz [F1 F2]].
    destruct (literal_bits digits _ _ _) as [words z]. cbn in Hz, F1, F2. subst z.
    apply from_words_bits; [done| |apply (digits_num_bounds 2 binary_digit); [lia|apply binary_bounds]|lia].
    intros k Hk. rewrite F2 by done. by rewrite (zero_words_wbit k) by lia.
  - destruct (digits_ok nibble_of digits) eqn:Ed; [|done]. injection Hn as <-.
    destruct (literal_nibbles_fills digits zero_words false Ed Hz4) as [Hz [F1 F2]].
    destruct (literal_nibbles digits _ _ _) as [words z]. cbn in Hz, F1, F2. subst z.
    apply from_words_bits; [done| |apply (digits_num_bounds 16 nibble_of); [lia|apply nibble_bounds]|lia].
    intros k Hk. rewrite F2 by done. by rewrite (zero_words_wbit k) by lia.
  - destruct (all_digits digits) eqn:Ed; [|done]. cbn [andb] in Hn.
    destruct (Z.leb_spec (digits_value digits 0) UINT64_MAX); [|done]. injection Hn as <-.
    rewrite strtoul10_digits by done.
    destruct (digits_value_num digits 0 Ed) as [_ E].
    pose proof (digits_num_bounds 10 decimal_digit digits ltac:(lia) decimal_bounds).
    apply from_words_set0; [|lia]. split; [lia|]. unfold UINT64_MAX in *. lia.
Qed.

(** Decimal digits go through [strtoul], which stops at an underscore; the
    lexer keeps the underscores of a literal in its text. *)
Example decimal_underscore_stops :
  parse_literal_to_simval (Some "32'd1_000") = sim_val_from_uint 1 32.
Proof. reflexivity. Qed.

(** Nor do decimal digits reach beyond 64 bits. *)
Example decimal_clamped :
  parse_literal_to_simval (Some "80'd18446744073709551616") = sim_val_from_uint UINT64_MAX 80.
Proof. reflexivity. Qed.

(** * The analysis and the decoder

    The analysis of [literal.c] accepts the literals that fit; what the decoder
    of [ir_build_expr.c] and the reader of test literals of [sim_engine.c] make
    of the same text. *)


Local Open Scope Z_scope.
Local Open Scope jz_scope.

(** ** Digits *)

Lemma code_char c n : code c = Z.of_nat n -> c = ascii_of_nat n.
Proof. unfold code. intros H. rewrite <- (ascii_nat_embedding c). f_equal. lia. Qed.

Lemma underscore_code c : Ascii.eqb c "_" = (code c =? 95).
Proof.
  destruct (Ascii.eqb_spec c "_") as [->|H]; [done|]. symmetry. apply Z.eqb_neq. intros E.
  by apply H, (code_char c 95).
Qed.

Lemma nibble_plain c n : nibble_of c = Some n ->
  value_skip c = false /\ isspace c = false /\ Ascii.eqb c "_" = false.
Proof.
  unfold nibble_of, value_skip, isspace, isdigit. rewrite underscore_code. unfold in_codes.
  destruct (_ && _) eqn:E1; [lia|].
  destruct ((97 <=? _) && _) eqn:E2; [lia|].
  destruct ((65 <=? _) && _) eqn:E3; [lia|done].
Qed.

Lemma decimal_nibble c n : decimal_digit c = Some n -> nibble_of c = Some n.
Proof. unfold decimal_digit, nibble_of. destruct (isdigit c); done. Qed.

Lemma binary_nibble c n : binary_digit c = Some n -> nibble_of c = Some n.
Proof.
  unfold binary_digit. destruct (Ascii.eqb c "0") eqn:E0; [apply Ascii.eqb_eq in E0 as ->; by intros [= <-]|].
  destruct (Ascii.eqb c "1") eqn:E1; [apply Ascii.eqb_eq in E1 as ->; by intros [= <-]|done].
Qed.

Lemma digits_ok_weaken d1 d2 s :
  (forall c n, d1 c = Some n -> d2 c = Some n) -> digits_ok d1 s = true -> digits_ok d2 s = true.
Proof.
  intros Hd. induction s as [|c s IH]; [done|]. cbn [digits_ok]. rewrite !andb_true_iff.
  intros [Hc Hs]. split; [|by apply IH]. destruct (Ascii.eqb c "_"); [done|]. cbn [orb] in *.
  destruct (d1 c) as [n|] eqn:E; [|done]. by rewrite (Hd c n E).
Qed.

(** Text made of hexadecimal digits and underscores has nothing to trim or to
    skip but the underscores. *)
Lemma digits_count s : digits_ok nibble_of s = true -> count_value_digits s = count_digits s.
Proof.
  induction s as [|c s IH]; [done|]. cbn [digits_ok count_value_digits count_digits].
  rewrite andb_true_iff. intros [Hc Hs]. rewrite IH by done. f_equal.
  destruct (Ascii.eqb c "_") eqn:E; [apply Ascii.eqb_eq in E as ->; done|]. cbn [orb] in Hc.
  destruct (nibble_of c) as [n|] eqn:En; [|done]. by destruct (nibble_plain c n En) as [-> _].
Qed.

Lemma digits_trim s : digits_ok nibble_of s = true -> trim_end s = s.
Proof.
  induction s as [|c s IH]; [done|]. cbn [digits_ok trim_end]. rewrite andb_true_iff.
  intros [Hc Hs]. rewrite IH by done. destruct s; [|done].
  destruct (Ascii.eqb c "_") eqn:E; [apply Ascii.eqb_eq in E as ->; done|]. cbn [orb] in Hc.
  destruct (nibble_of c) as [n|] eqn:En; [|done]. by destruct (nibble_plain c n En) as (_ & -> & _).
Qed.

(** ** The analysis *)

(** The bits a number needs; zero takes one. *)
Definition bit_length (n : Z) : Z := Z.log2 n + 1.

Lemma bit_length_fits n w : 0 <= n -> 0 < w -> (w <? bit_length n) = negb (n <? 2 ^ w).
Proof.
  intros Hn Hw. unfold bit_length. destruct (decide (n = 0)) as [->|].
  - assert (0 < 2 ^ w) by (apply Z.pow_pos_nonneg; lia). change (Z.log2 0) with 0. lia.
  - pose proof (Z.log2_lt_pow2 n w ltac:(lia)). lia.
Qed.

Lemma decimal_acc_spec s acc :
  digits_ok decimal_digit s = true -> 0 <= acc <= UINT64_MAX ->
  let v := acc * 10 ^ count_digits s + digits_num 10 decimal_digit s in
  decimal_acc s acc = if v <=? UINT64_MAX then inl v else inr 64.
Proof.
  cbv zeta. revert acc. induction s as [|c s IH]; intros acc Hs Hacc;
    cbn [digits_ok decimal_acc count_digits digits_num] in *.
  { change (10 ^ 0) with 1. rewrite Z.mul_1_r, Z.add_0_r. destruct (Z.leb_spec acc UINT64_MAX); [done|lia]. }
  apply andb_true_iff in Hs as [Hc Hs]. destruct (Ascii.eqb c "_") eqn:Eu.
  { rewrite !Z.add_0_l. by apply IH. }
  cbn [orb] in Hc. destruct (decimal_digit c) as [d|] eqn:Ed; [|done]. cbn [default].
  pose proof (decimal_bounds c d Ed). pose proof (count_digits_nonneg s).
  pose proof (digits_num_bounds 10 decimal_digit s ltac:(lia) decimal_bounds).
  replace (1 + count_digits s) with (Z.succ (count_digits s)) by lia. rewrite Z.pow_succ_r by lia.
  replace (acc * (10 * 10 ^ count_digits s) + (id d * 10 ^ count_digits s + digits_num 10 decimal_digit s))
    with ((acc * 10 + d) * 10 ^ count_digits s + digits_num 10 decimal_digit s) by (unfold id; ring).
  pose proof (Z.div_mod (UINT64_MAX - d) 10 ltac:(lia)).
  pose proof (Z.mod_pos_bound (UINT64_MAX - d) 10 ltac:(lia)).
  assert (0 < 10 ^ count_digits s) by (apply Z.pow_pos_nonneg; lia).
  destruct (Z.ltb_spec ((UINT64_MAX - d) / 10) acc).
  - destruct (Z.leb_spec ((acc * 10 + d) * 10 ^ count_digits s + digits_num 10 decimal_digit s) UINT64_MAX);
      [nia|done].
  - apply IH; [done|lia].
Qed.

Lemma count_bits_spec fuel acc bits :
  0 <= acc < 2 ^ Z.of_nat fuel ->
  count_bits fuel acc bits = bits + if acc =? 0 then 0 else bit_length acc.
Proof.
  unfold bit_length. revert acc bits. induction fuel as [|fuel IH]; intros acc bits H.
  { cbn [count_bits]. change (2 ^ Z.of_nat 0) with 1 in H. destruct (Z.eqb_spec acc 0); lia. }
  cbn [count_bits]. rewrite Nat2Z.inj_succ, Z.pow_succ_r in H by lia.
  destruct (Z.ltb_spec 0 acc); [|destruct (Z.eqb_spec acc 0); lia].
  destruct (Z.eqb_spec acc 0); [lia|].
  rewrite Z.shiftr_div_pow2 by lia. change (2 ^ 1) with 2.
  pose proof (Z.div_mod acc 2 ltac:(lia)). pose proof (Z.mod_pos_bound acc 2 ltac:(lia)).
  rewrite IH by lia. destruct (Z.eqb_spec (acc / 2) 0) as [E|E].
  - assert (acc = 1) as -> by lia. change (Z.log2 1) with 0. lia.
  - enough (Z.log2 acc = Z.log2 (acc / 2) + 1) by lia.
    rewrite <- Z.div2_div, Z.div2_spec, Z.log2_shiftr by lia.
    enough (1 <= Z.log2 acc) by lia. apply Z.log2_le_pow2; change (2 ^ 1) with 2; lia.
Qed.

Lemma msb_pos_spec v : 0 < v < 16 -> msb_pos v = bit_length v.
Proof.
  intros H. unfold bit_length.
  assert (List.In v (seqZ 1 15)) as Hi by (apply list_elem_of_In, elem_of_seqZ; lia).
  cbv in Hi. intuition subst; reflexivity.
Qed.

Lemma hex_scan_spec s idx total :
  digits_ok nibble_of s = true -> total = idx + count_digits s ->
  hex_scan s idx total = bit_length (digits_num 16 nibble_of s).
Proof.
  revert idx. induction s as [|c s IH]; intros idx Hs Ht; cbn [digits_ok hex_scan count_digits digits_num] in *.
  { reflexivity. }
  apply andb_true_iff in Hs as [Hc Hs]. destruct (Ascii.eqb c "_") eqn:Eu.
  { rewrite Z.add_0_l. apply IH; [done|lia]. }
  cbn [orb] in Hc. destruct (nibble_of c) as [n|] eqn:En; [|done]. cbn [default].
  pose proof (nibble_bounds c n En). pose proof (count_digits_nonneg s).
  pose proof (digits_num_bounds 16 nibble_of s ltac:(lia) nibble_bounds) as Hb.
  destruct (Z.eqb_spec n 0) as [->|].
  { unfold id. rewrite Z.mul_0_l, Z.add_0_l. apply IH; [done|lia]. }
  rewrite msb_pos_spec by lia. replace (total - idx - 1) with (count_digits s) by lia.
  unfold bit_length, id. change 16 with (2 ^ 4) in Hb |- *.
  rewrite <- Z.pow_mul_r in Hb |- * by lia. generalize dependent (digits_num (2 ^ 4) nibble_of s).
  intros r Hb. pose proof (Z.log2_spec n ltac:(lia)) as [L1 L2]. pose proof (Z.log2_nonneg n).
  symmetry. enough (Z.log2 (n * 2 ^ (4 * count_digits s) + r) = 4 * count_digits s + Z.log2 n) by lia.
  apply Z.log2_unique; [lia|]. rewrite <- Z.add_succ_r, !Z.pow_add_r by lia.
  assert (0 < 2 ^ (4 * count_digits s)) by (apply Z.pow_pos_nonneg; lia). nia.
Qed.

(** The number the digits of a base denote. *)
Definition number_of (base : JZNumericBase) (s : string) : option Z :=
  let of_digits b digit := if digits_ok digit s then Some (digits_num b digit s) else None in
  match base with
  | JZ_NUM_BASE_BIN => of_digits 2 binary_digit
  | JZ_NUM_BASE_DEC => of_digits 10 decimal_digit
  | JZ_NUM_BASE_HEX => of_digits 16 nibble_of
  | JZ_NUM_BASE_NONE => None
  end.

Lemma analyze_hex s w :
  digits_ok nibble_of s = true -> 0 < count_digits s -> 0 < w ->
  let n := digits_num 16 nibble_of s in
  jz_literal_analyze JZ_NUM_BASE_HEX s w =
    if n <? 2 ^ w
    then Some (bit_length n, if bit_length n =? w then JZ_LITERAL_EXT_NONE else JZ_LITERAL_EXT_ZERO)
    else None.
Proof.
  cbv zeta. intros Hs Hc Hw. unfold jz_literal_analyze, intrinsic_width_for_hex_magnitude.
  unfold count_digits_no_underscore. cbv zeta.
  destruct (Z.eqb_spec w 0); [lia|]. destruct (Z.eqb_spec (count_digits s) 0); [lia|].
  rewrite hex_scan_spec by done.
  pose proof (digits_num_bounds 16 nibble_of s ltac:(lia) nibble_bounds).
  pose proof (Z.log2_nonneg (digits_num 16 nibble_of s)).
  destruct (Z.eqb_spec (bit_length (digits_num 16 nibble_of s)) 0) as [E|]; [unfold bit_length in E; lia|].
  rewrite bit_length_fits by lia. by destruct (_ <? 2 ^ w).
Qed.

Lemma analyze_dec s w :
  digits_ok decimal_digit s = true -> 0 < count_digits s -> 0 < w ->
  let n := digits_num 10 decimal_digit s in
  let width := if n <=? UINT64_MAX then bit_length n else 64 in
  jz_literal_analyze JZ_NUM_BASE_DEC s w =
    if w <? width then None
    else Some (width, if width =? w then JZ_LITERAL_EXT_NONE else JZ_LITERAL_EXT_ZERO).
Proof.
  cbv zeta. intros Hs Hc Hw. unfold jz_literal_analyze. destruct (Z.eqb_spec w 0); [lia|].
  assert (intrinsic_width_for_decimal s =
    if digits_num 10 decimal_digit s <=? UINT64_MAX then bit_length (digits_num 10 decimal_digit s) else 64) as ->.
  { pose proof (digits_num_bounds 10 decimal_digit s ltac:(lia) decimal_bounds).
    unfold intrinsic_width_for_decimal. destruct s as [|c s]; [cbn in Hc; lia|].
    rewrite decimal_acc_spec by (done || (unfold UINT64_MAX; lia)).
    rewrite Z.mul_0_l, Z.add_0_l. destruct (Z.leb_spec (digits_num 10 decimal_digit (String c s)) UINT64_MAX); [|done].
    generalize dependent (digits_num 10 decimal_digit (String c s)). intros v Hb Hle.
    destruct (Z.eqb_spec v 0) as [->|]; [done|].
    rewrite count_bits_spec by (change (2 ^ Z.of_nat 64) with (UINT64_MAX + 1); lia).
    destruct (Z.eqb_spec v 0); [lia|]. lia. }
  pose proof (Z.log2_nonneg (digits_num 10 decimal_digit s)).
  unfold bit_length. destruct (digits_num 10 decimal_digit s <=? UINT64_MAX); [|done].
  destruct (Z.eqb_spec (Z.log2 (digits_num 10 decimal_digit s) + 1) 0); [lia|done].
Qed.

(** C27: a decimal or hexadecimal literal is accepted at a width exactly when
    its number fits, its intrinsic width being the number's bit length, and it
    is zero-extended when that is less.  A decimal number above 2^64 - 1 counts as
    2^64 - 1: it is refused below 64 bits and accepted from 64 on, whatever it
    is. *)
Theorem literal_analyze_exact base s n w :
  number_of base s = Some n -> base <> JZ_NUM_BASE_BIN -> 0 < count_digits s -> 0 < w ->
  let m := match base with JZ_NUM_BASE_DEC => Z.min n UINT64_MAX | _ => n end in
  jz_literal_analyze base s w =
    if m <? 2 ^ w
    then Some (bit_length m, if bit_length m =? w then JZ_LITERAL_EXT_NONE else JZ_LITERAL_EXT_ZERO)
    else None.
Proof.
  intros Hn Hb Hc Hw. destruct base; try done; cbn [number_of] in Hn; cbv zeta in Hn |- *.
  - destruct (digits_ok decimal_digit s) eqn:Es; [|done]. injection Hn as <-.
    rewrite analyze_dec by done. cbv zeta. pose proof (digits_num_bounds 10 decimal_digit s ltac:(lia) decimal_bounds).
    generalize dependent (digits_num 10 decimal_digit s). intros v Hv.
    assert ((if v <=? UINT64_MAX then bit_length v else 64) = bit_length (Z.min v UINT64_MAX)) as ->.
    { destruct (Z.leb_spec v UINT64_MAX); [by rewrite Z.min_l|by rewrite Z.min_r by lia]. }
    assert (0 <= UINT64_MAX) by done. rewrite bit_length_fits by lia. by destruct (_ <? 2 ^ w).
  - destruct (digits_ok nibble_of s) eqn:Es; [|done]. injection Hn as <-. by rewrite analyze_hex.
Qed.

Lemma literal_analyze_witness :
  jz_literal_analyze JZ_NUM_BASE_HEX "0_1fF" 12 = Some (9, JZ_LITERAL_EXT_ZERO) /\
  jz_literal_analyze JZ_NUM_BASE_DEC "18446744073709551616" 64 = Some (64, JZ_LITERAL_EXT_NONE).
Proof.
  split.
  - rewrite (literal_analyze_exact JZ_NUM_BASE_HEX "0_1fF" 511 12);
      [vm_compute; reflexivity|vm_compute; reflexivity|discriminate|vm_compute; reflexivity|lia].
  - rewrite (literal_analyze_exact JZ_NUM_BASE_DEC "18446744073709551616" 18446744073709551616 64);
      [vm_compute; reflexivity|vm_compute; reflexivity|discriminate|vm_compute; reflexivity|lia].
Defined.

(** ** The width *)

Lemma read_unsigned_digits skip s v saw :
  (forall c, isdigit c = true -> skip c = false) ->
  all_digits s = true -> 0 <= v -> digits_value s v <= UINT_MAX ->
  read_unsigned skip s v saw = Some (digits_value s v, saw || negb (is_empty_string s)).
Proof.
  intros Hskip. revert v saw. induction s as [|c s IH]; intros v saw Hs Hv Hle; cbn [all_digits digits_value read_unsigned is_empty_string] in *.
  { by rewrite orb_false_r. }
  apply andb_true_iff in Hs as [Hc Hs]. rewrite Hc in *. rewrite Hskip by done.
  destruct (decimal_digit c) as [d|] eqn:Ed; [|unfold decimal_digit in Ed; by rewrite Hc in Ed].
  pose proof (decimal_bounds c d Ed).
  unfold decimal_digit in Ed. rewrite Hc in Ed. injection Ed as <-.
  assert (10 * v + (code c - 48) <= digits_value s (10 * v + (code c - 48))) as Hge.
  { destruct (digits_value_num s (10 * v + (code c - 48)) Hs) as [_ ->].
    pose proof (digits_num_bounds 10 decimal_digit s ltac:(lia) decimal_bounds).
    pose proof (count_digits_nonneg s).
    assert (1 <= 10 ^ count_digits s) by (pose proof (Z.pow_pos_nonneg 10 (count_digits s)); lia). nia. }
  unfold UINT_MAX in *. change (4294967295 / 10) with 429496729. change (4294967295 mod 10) with 5.
  destruct (Z.ltb_spec 429496729 v); [lia|]. cbn [orb].
  destruct ((v =? 429496729) && (5 <? code c - 48)) eqn:E; [lia|].
  replace (v * 10 + (code c - 48)) with (10 * v + (code c - 48)) by lia.
  rewrite IH by (done || lia). by rewrite orb_true_r.
Qed.

Lemma positive_int_width s :
  all_digits s = true -> 0 < digits_value s 0 <= UINT_MAX ->
  parse_simple_positive_int s = Some (digits_value s 0).
Proof.
  intros Hs Hv. unfold parse_simple_positive_int.
  rewrite read_unsigned_digits; [|..|done|lia|lia].
  - destruct s; [cbn in Hv; lia|]. cbn [is_empty_string orb negb].
    destruct (Z.eqb_spec (digits_value (String a s) 0) 0); [lia|done].
  - intros c Hc. unfold isspace, isdigit in *. rewrite underscore_code. unfold in_codes in *. lia.
Qed.

(** ** The digits of a value *)

Lemma place_bit_spec idx n words :
  words_ok 4 words -> 0 <= idx < 256 -> 0 <= n < 2 ->
  words_ok 4 (place_bit idx n words) /\
  forall k, 0 <= k < 256 ->
    wbit (place_bit idx n words) k = wbit words k || (idx <=? k) && Z.testbit n (k - idx).
Proof.
  intros Hw Hi Hn. unfold place_bit. cbv zeta. change (IR_LIT_WORDS * 64) with 256.
  destruct (Z.leb_spec 0 idx); [|lia]. destruct (Z.ltb_spec idx 256); [|lia].
  by apply put_bit_spec.
Qed.

(** The flags after the digits: a literal with a digit is not all [z]. *)
Definition digit_flags (s : string) (z h : bool) : bool * bool :=
  if count_digits s =? 0 then (z, h) else (false, true).

Lemma digit_flags_cons s z h : digit_flags s false true = (false, true) /\
  (0 < 1 + count_digits s -> (if 1 + count_digits s =? 0 then (z, h) else (false, true)) = (false, true)).
Proof.
  unfold digit_flags. split; [by destruct (_ =? 0)|].
  destruct (Z.eqb_spec (1 + count_digits s) 0); [lia|done].
Qed.

Lemma decode_nibbles_fills s words z h :
  digits_ok nibble_of s = true -> words_ok 4 words ->
  exists words', decode_nibbles s (count_digits s - 1) (words, z, h) =
      (words', fst (digit_flags s z h), snd (digit_flags s z h)) /\
    filled words words' (digits_num 16 nibble_of s).
Proof.
  revert words z h. induction s as [|c s IH]; intros words z h Hd Hw;
    cbn [digits_ok decode_nibbles digits_num] in *.
  { exists words. split; [done|]. by apply filled_zero. }
  unfold digit_flags. cbn [count_digits].
  apply andb_true_iff in Hd as [Hc Hd]. pose proof (count_digits_nonneg s) as Hn.
  destruct (Ascii.eqb c "_") eqn:Eu.
  { rewrite !Z.add_0_l. unfold value_skip. rewrite Eu. cbn [orb]. by apply IH. }
  cbn [orb] in Hc. destruct (nibble_of c) as [n|] eqn:En; [|done].
  destruct (nibble_plain c n En) as [-> _]. pose proof (nibble_bounds c n En) as Hb.
  replace (1 + count_digits s - 1) with (count_digits s) by lia.
  destruct (put_nibble_spec (count_digits s) n words Hw Hn Hb) as [Hw' Hbits].
  destruct (IH (put_nibble (count_digits s) n words) false true Hd Hw') as (w' & E & Hf).
  destruct (digit_flags_cons s z h) as [F1 F2]. rewrite F1 in E. rewrite F2 by lia.
  exists w'. split; [exact E|]. change (default 0 (Some n)) with n.
  pose proof (digits_num_bounds 16 nibble_of s ltac:(lia) nibble_bounds) as Hr.
  change 16 with (2 ^ 4) in Hr |- *. rewrite <- Z.pow_mul_r in Hr |- * by lia.
  apply (filled_digit words (put_nibble (count_digits s) n words)); [lia|exact Hr|exact Hbits|exact Hf].
Qed.

Lemma decode_bits_fills s words z h :
  digits_ok binary_digit s = true -> words_ok 4 words -> count_digits s <= 256 ->
  exists words', decode_bits s (count_digits s - 1) (words, z, h) =
      (words', fst (digit_flags s z h), snd (digit_flags s z h)) /\
    filled words words' (digits_num 2 binary_digit s).
Proof.
  revert words z h. induction s as [|c s IH]; intros words z h Hd Hw Hle;
    cbn [digits_ok decode_bits digits_num] in *.
  { exists words. split; [done|]. by apply filled_zero. }
  unfold digit_flags. cbn [count_digits] in *.
  apply andb_true_iff in Hd as [Hc Hd]. pose proof (count_digits_nonneg s) as Hn.
  destruct (Ascii.eqb c "_") eqn:Eu.
  { rewrite !Z.add_0_l in *. unfold value_skip. rewrite Eu. cbn [orb]. by apply IH. }
  cbn [orb] in Hc. destruct (binary_digit c) as [n|] eqn:En; [|done].
  destruct (nibble_plain c n (binary_nibble c n En)) as [-> _]. pose proof (binary_bounds c n En) as Hb.
  replace (1 + count_digits s - 1) with (count_digits s) by lia.
  destruct (place_bit_spec (count_digits s) n words Hw ltac:(lia) Hb) as [Hw' Hbits].
  destruct (IH (place_bit (count_digits s) n words) false true Hd Hw' ltac:(lia)) as (w' & E & Hf).
  destruct (digit_flags_cons s z h) as [F1 F2]. rewrite F1 in E. rewrite F2 by lia.
  exists w'. change (default 0 (Some n)) with n. split.
  - rewrite <- E. unfold binary_digit in En.
    destruct (Ascii.eqb c "0"); [by injection En as <-|].
    destruct (Ascii.eqb c "1"); [by injection En as <-|done].
  - exact (filled_digit _ _ _ n _ _ Hn (digits_num_bounds 2 binary_digit s ltac:(lia) binary_bounds) Hbits Hf).
Qed.

Lemma decode_decimal_num s v :
  digits_ok decimal_digit s = true ->
  decode_decimal s (u64 v) = Some (u64 (v * 10 ^ count_digits s + digits_num 10 decimal_digit s)).
Proof.
  revert v. induction s as [|c s IH]; intros v Hs;
    cbn [digits_ok decode_decimal count_digits digits_num] in *.
  { change (10 ^ 0) with 1. by rewrite Z.mul_1_r, Z.add_0_r. }
  apply andb_true_iff in Hs as [Hc Hs]. destruct (Ascii.eqb c "_") eqn:Eu.
  { unfold value_skip. rewrite Eu, !Z.add_0_l. cbn [orb]. by apply IH. }
  cbn [orb] in Hc. destruct (decimal_digit c) as [d|] eqn:Ed; [|done].
  destruct (nibble_plain c d (decimal_nibble c d Ed)) as [-> _]. change (default 0 (Some d)) with d.
  pose proof (count_digits_nonneg s).
  replace (u64 (u64 v * 10 + d)) with (u64 (v * 10 + d)).
  - rewrite IH by done. do 2 f_equal.
    replace (1 + count_digits s) with (Z.succ (count_digits s)) by lia.
    rewrite Z.pow_succ_r by lia. ring.
  - unfold u64. rewrite <- Z.add_mod_idemp_l, <- Z.mul_mod_idemp_l, Z.add_mod_idemp_l by lia. done.
Qed.

(** ** The decoder *)

(** What a literal of the IR denotes. *)
Record decodes (lit : IR_Literal) (w n : Z) : Prop := {
  dec_width : lit_width lit = w;
  dec_plain : lit_is_z lit = false;
  dec_words : words_ok 4 (lit_words lit);
  dec_num : words_to_Z (lit_words lit) = n
}.

Lemma filled_num words n :
  filled zero_words words n -> 0 <= n < 2 ^ 256 -> words_to_Z words = n.
Proof.
  intros [Hok Hb] Hn. apply Z.bits_inj'. intros k Hk. destruct (Z.lt_ge_cases k 256).
  - rewrite (testbit_words_to_Z 4) by done. fold (wbit words k). rewrite Hb by lia.
    by rewrite zero_words_wbit by lia.
  - rewrite (testbit_words_to_Z 4) by done. unfold wbit.
    rewrite words_out by (done || apply Z.div_le_lower_bound; lia). rewrite Z.testbit_0_l.
    rewrite <- (Z.mod_small n (2 ^ 256)) by lia. by rewrite Z.mod_pow2_bits_high by lia.
Qed.

(** The text of the digits, as the decoder sees it. *)
Lemma clean_digits s :
  digits_ok nibble_of s = true -> (String.length s <= 255)%nat -> truncate 255 (trim_end s) = s.
Proof. intros Hs Hl. by rewrite digits_trim, truncate_short. Qed.

Lemma letter_differs a b c :
  is_letter a c = true ->
  (code a =? code b) || (code a - 32 =? code b) || (code a =? code b - 32) = false ->
  is_letter b c = false.
Proof. unfold is_letter. lia. Qed.

(** Masking a number that fits. *)
Lemma land_shl_ones n w : 0 <= w < 64 -> 0 <= n < 2 ^ w -> n .& ((1 .<< w) - 1) = n.
Proof.
  intros Hw Hn. assert (2 ^ w < 2 ^ 64) by (apply Z.pow_lt_mono_r; lia).
  unfold shl64, u64. rewrite Z.shiftl_1_l, (Z.mod_small (2 ^ w)) by lia.
  rewrite Z.sub_1_r, <- Z.ones_equiv, Z.land_ones by lia. by apply Z.mod_small.
Qed.

Section Decoder.
Context (module_width : string -> option Z) (wtext : string).
Hypothesis width_digits : all_digits wtext = true.
Hypothesis width_length : (String.length wtext < 32)%nat.
Let w := digits_value wtext 0.
Hypothesis width_bounds : 0 < w <= 256.

(** The decoder on a literal with a decimal width. *)
Lemma decode_sized c digits :
  digits <> EmptyString ->
  ir_decode_sized_literal module_width (wtext ++ String "'" (String c digits)) =
    match base_of c with
    | JZ_NUM_BASE_NONE => None
    | base =>
        match jz_literal_analyze base (truncate 255 (trim_end digits)) w with
        | Some _ =>
            match decode_value base (Some w) digits with
            | Some (words, all_z, has_digits) => Some (mkLiteral words w (all_z && has_digits))
            | None => None
            end
        | None => None
        end
    end.
Proof using width_digits width_length width_bounds.
  intros Hd. unfold ir_decode_sized_literal. rewrite split_at_width by done.
  assert (wtext <> EmptyString) as Hne by (intros E; unfold w in width_bounds; rewrite E in width_bounds; cbn in width_bounds; lia).
  destruct (Nat.eqb_spec (String.length wtext) 0) as [E|]; [by destruct wtext|].
  destruct (Nat.leb_spec 32 (String.length wtext)); [lia|]. cbn [orb].
  unfold decode_width. rewrite positive_int_width by (done || unfold UINT_MAX; fold w; lia). fold w.
  rewrite (i32_id w) by (unfold INT32_MAX; lia).
  destruct digits as [|d digits]; [done|]. cbn [is_empty_string].
  destruct (base_of c); [done|..];
    match goal with |- context [jz_literal_analyze ?b ?t w] => by destruct (jz_literal_analyze b t w) end.
Qed.

(** Binary literals are accepted when they have at most [w] digits. *)
Lemma decode_binary c digits :
  digits <> EmptyString -> (String.length digits <= 255)%nat -> is_letter "b" c = true ->
  digits_ok binary_digit digits = true ->
  if w <? count_digits digits
  then ir_decode_sized_literal module_width (wtext ++ String "'" (String c digits)) = None
  else exists lit,
    ir_decode_sized_literal module_width (wtext ++ String "'" (String c digits)) = Some lit /\
    decodes lit w (digits_num 2 binary_digit digits).
Proof using width_digits width_length width_bounds.
  intros Hne Hl Hc Hd. rewrite decode_sized by done. unfold base_of. rewrite Hc.
  pose proof (digits_ok_weaken _ _ digits binary_nibble Hd) as Hh.
  rewrite clean_digits by done. unfold jz_literal_analyze. cbv zeta.
  destruct (Z.eqb_spec w 0); [lia|]. unfold count_digits_no_underscore.
  destruct (Z.ltb_spec w (count_digits digits)); [done|].
  unfold decode_value. rewrite clean_digits by done. rewrite digits_count by done.
  assert (words_ok 4 zero_words) as Hz4 by apply (words_ok_replicate 4).
  destruct (decode_bits_fills digits zero_words true false Hd Hz4 ltac:(lia)) as (words & -> & Hf).
  eexists. split; [reflexivity|].
  pose proof (digits_num_bounds 2 binary_digit digits ltac:(lia) binary_bounds) as Hn.
  assert (2 ^ count_digits digits <= 2 ^ 256) by (apply Z.pow_le_mono_r; lia).
  constructor; cbn; [done| |apply Hf|apply filled_num; [done|lia]].
  unfold digit_flags. by destruct (_ =? 0).
Qed.

(** Hexadecimal literals are accepted when the number fits. *)
Lemma decode_hex c digits :
  digits <> EmptyString -> (String.length digits <= 255)%nat -> is_letter "h" c = true ->
  digits_ok nibble_of digits = true -> 0 < count_digits digits ->
  let n := digits_num 16 nibble_of digits in
  if n <? 2 ^ w
  then exists lit,
    ir_decode_sized_literal module_width (wtext ++ String "'" (String c digits)) = Some lit /\
    decodes lit w n
  else ir_decode_sized_literal module_width (wtext ++ String "'" (String c digits)) = None.
Proof using width_digits width_length width_bounds.
  cbv zeta. intros Hne Hl Hc Hd Hpos. rewrite decode_sized by done. unfold base_of. rewrite Hc.
  assert (is_letter "b" c = false /\ is_letter "d" c = false) as [-> ->]
    by (by split; apply (letter_differs "h")).
  rewrite clean_digits by done. rewrite analyze_hex by (done || lia). cbv zeta.
  pose proof (digits_num_bounds 16 nibble_of digits ltac:(lia) nibble_bounds) as Hn.
  destruct (Z.ltb_spec (digits_num 16 nibble_of digits) (2 ^ w)); [|done].
  unfold decode_value. rewrite digits_count by done.
  assert (words_ok 4 zero_words) as Hz4 by apply (words_ok_replicate 4).
  destruct (decode_nibbles_fills digits zero_words true false Hd Hz4) as (words & -> & Hf).
  eexists. split; [reflexivity|].
  assert (2 ^ w <= 2 ^ 256) by (apply Z.pow_le_mono_r; lia).
  constructor; cbn; [done| |apply Hf|apply filled_num; [done|lia]].
  unfold digit_flags. by destruct (_ =? 0).
Qed.

(** Decimal literals are accepted when the number fits, and always from 64
    bits on; the number is taken modulo [2^64]. *)
Lemma decode_dec c digits :
  digits <> EmptyString -> (String.length digits <= 255)%nat -> is_letter "d" c = true ->
  digits_ok decimal_digit digits = true -> 0 < count_digits digits ->
  let n := digits_num 10 decimal_digit digits in
  if (n <? 2 ^ w) || (64 <=? w)
  then ir_decode_sized_literal module_width (wtext ++ String "'" (String c digits)) =
    Some (mkLiteral (aset zero_words 0 (n mod 2 ^ 64)) w false)
  else ir_decode_sized_literal module_width (wtext ++ String "'" (String c digits)) = None.
Proof using width_digits width_length width_bounds.
  cbv zeta. intros Hne Hl Hc Hd Hpos. rewrite decode_sized by done. unfold base_of. rewrite Hc.
  assert (is_letter "b" c = false) as -> by (by apply (letter_differs "d")).
  rewrite clean_digits by (done || apply (digits_ok_weaken _ _ _ decimal_nibble Hd)).
  rewrite analyze_dec by (done || lia). cbv zeta. unfold decode_value.
  pose proof (decode_decimal_num digits 0 Hd) as E. rewrite Z.mul_0_l, Z.add_0_l in E.
  change (u64 0) with 0 in E. rewrite E. clear E.
  pose proof (digits_num_bounds 10 decimal_digit digits ltac:(lia) decimal_bounds) as Hn.
  generalize dependent (digits_num 10 decimal_digit digits). intros n Hn.
  change (u64 n) with (n mod 2 ^ 64).
  destruct (Z.leb_spec 64 w) as [H64|H64].
  - rewrite orb_true_r. assert (2 ^ 64 <= 2 ^ w) by (apply Z.pow_le_mono_r; lia).
    destruct (Z.ltb_spec w 64); [lia|].
    destruct (Z.leb_spec n UINT64_MAX); [|destruct (Z.ltb_spec w 64); [lia|done]].
    rewrite bit_length_fits by lia.
    destruct (Z.ltb_spec n (2 ^ w)); [done|unfold UINT64_MAX in *; lia].
  - rewrite orb_false_r. assert (2 ^ w < 2 ^ 64) by (apply Z.pow_lt_mono_r; lia).
    destruct (Z.leb_spec n UINT64_MAX).
    + rewrite bit_length_fits by lia. destruct (Z.ltb_spec n (2 ^ w)); [|done].
      cbn [negb]. destruct (Z.ltb_spec w 64); [|lia]. rewrite (Z.mod_small n (2 ^ 64)) by lia.
      rewrite land_shl_ones by lia. done.
    + destruct (Z.ltb_spec w 64); [|lia].
      destruct (Z.ltb_spec n (2 ^ w)); [unfold UINT64_MAX in *; lia|done].
Qed.
End Decoder.

Lemma is_num_unique a b w n : is_num a w n -> is_num b w n -> a = b.
Proof.
  intros [A1 A2 A3 A4] [B1 B2 B3 B4]. apply wf_ext; [done|done|congruence|].
  intros k Hk. rewrite !known_bit_at by (done || lia). by rewrite A4, B4.
Qed.

(** A decoded literal is the number in the simulator, too. *)
Lemma eval_decoded v lit w n :
  decodes lit w n -> 0 < w <= 256 -> n < 2 ^ w -> is_num (eval_literal v lit) w n.
Proof.
  intros [H1 H2 H3 H4] Hw Hn. pose proof (words_to_Z_nonneg 4 _ H3).
  pose proof (from_words_is_num (lit_words lit) w H3 Hw) as Hi. rewrite H4, Z.mod_small in Hi by lia.
  unfold eval_literal. cbv zeta. rewrite H1, H2. change IR_LIT_WORDS with SIM_VAL_WORDS.
  rewrite (in_width _ _ _ Hi). destruct (Z.eqb_spec w 0); [lia|done].
Qed.

Lemma decodes_dec n w : 0 <= n < 2 ^ 64 -> decodes (mkLiteral (aset zero_words 0 n) w false) w n.
Proof. intros Hn. destruct (set0_words n Hn) as [H1 H2]. by constructor. Qed.

(** C23: the decoder of the IR and the reader of test literals agree on a
    literal whose digits the latter takes in full (at most 255 characters, decimal
    digits without underscores, of a number below 2^64, at most 256 binary
    digits), at a width from 1 to 256: if the decoder accepts it,
    the number of its digits fits, the IR literal denotes this number, and the
    simulator evaluates it to the value the test reader makes of the text; it
    is refused only if the number does not fit or there are more binary digits
    than the width. *)
Theorem sized_literal_agrees module_width wtext c digits n v :
  all_digits wtext = true -> (String.length wtext < 32)%nat -> 0 < digits_value wtext 0 <= 256 ->
  (String.length digits <= 255)%nat -> 0 < count_digits digits -> base_digits c digits = Some n ->
  let w := digits_value wtext 0 in
  let text := (wtext ++ String "'" (String c digits))%string in
  match ir_decode_sized_literal module_width text with
  | Some lit =>
      n < 2 ^ w /\ decodes lit w n /\ eval_literal v lit = parse_literal_to_simval (Some text)
  | None => 2 ^ w <= n \/ (is_letter "b" c = true /\ w < count_digits digits)
  end.
Proof.
  cbv zeta. intros Hs Hl Hw Hld Hpos Hn.
  assert (digits <> EmptyString) as Hne by (intros ->; done).
  pose proof (parse_literal_num wtext c digits n Hs Hw Hn) as Hp.
  assert (forall lit, n < 2 ^ digits_value wtext 0 -> decodes lit (digits_value wtext 0) n -> 0 <= n ->
    n < 2 ^ digits_value wtext 0 /\ decodes lit (digits_value wtext 0) n /\
    eval_literal v lit = parse_literal_to_simval (Some (wtext ++ String "'" (String c digits))%string)) as Hok.
  { intros lit Hlt Hdec Hge. split_and!; [done..|]. rewrite Z.mod_small in Hp by lia.
    by apply (is_num_unique _ _ _ _ (eval_decoded v lit _ _ Hdec Hw Hlt) Hp). }
  unfold base_digits in Hn.
  destruct (is_letter "b" c) eqn:Eb; [|destruct (is_letter "h" c) eqn:Eh; [|destruct (is_letter "d" c) eqn:Ed; [|done]]].
  - destruct (digits_ok binary_digit digits) eqn:Ed; [|done]. cbn [andb] in Hn.
    destruct (Z.leb_spec (count_digits digits) 256); [|done]. injection Hn as <-.
    pose proof (decode_binary module_width wtext Hs Hl Hw c digits Hne Hld Eb Ed) as H1.
    destruct (Z.ltb_spec (digits_value wtext 0) (count_digits digits)); [rewrite H1; by right|].
    destruct H1 as (lit & -> & Hdec).
    pose proof (digits_num_bounds 2 binary_digit digits ltac:(lia) binary_bounds) as Hb.
    assert (2 ^ count_digits digits <= 2 ^ digits_value wtext 0) by (apply Z.pow_le_mono_r; lia).
    apply Hok; [lia|done|lia].
  - destruct (digits_ok nibble_of digits) eqn:Ed; [|done]. injection Hn as <-.
    pose proof (decode_hex module_width wtext Hs Hl Hw c digits Hne Hld Eh Ed Hpos) as H1. cbv zeta in H1.
    pose proof (digits_num_bounds 16 nibble_of digits ltac:(lia) nibble_bounds) as Hb.
    destruct (Z.ltb_spec (digits_num 16 nibble_of digits) (2 ^ digits_value wtext 0)); [|rewrite H1; by left].
    destruct H1 as (lit & -> & Hdec). apply Hok; [done|done|lia].
  - destruct (all_digits digits) eqn:Ea; [|done]. cbn [andb] in Hn.
    destruct (Z.leb_spec (digits_value digits 0) UINT64_MAX); [|done]. injection Hn as <-.
    destruct (digits_value_num digits 0 Ea) as [Hd En]. rewrite Z.mul_0_l, Z.add_0_l in En. rewrite En in *.
    pose proof (decode_dec module_width wtext Hs Hl Hw c digits Hne Hld Ed Hd Hpos) as H1. cbv zeta in H1.
    pose proof (digits_num_bounds 10 decimal_digit digits ltac:(lia) decimal_bounds) as Hb.
    generalize dependent (digits_num 10 decimal_digit digits). intros m Hok Hp Hm _ H1 Hb.
    assert (m < 2 ^ 64) by (unfold UINT64_MAX in Hm; lia). rewrite (Z.mod_small m (2 ^ 64)) in H1 by lia.
    destruct (Z.ltb_spec m (2 ^ digits_value wtext 0)).
    + cbn [orb] in H1. rewrite H1. apply Hok; [done|apply decodes_dec; lia|lia].
    + destruct (Z.leb_spec 64 (digits_value wtext 0)).
      * assert (2 ^ 64 <= 2 ^ digits_value wtext 0) by (apply Z.pow_le_mono_r; lia). lia.
      * cbn [orb] in H1. rewrite H1. by left.
Qed.

Lemma sized_literal_witness :
  let w := digits_value "72" 0 in
  let text := ("72" ++ String "'" (String "h" "1_0000_0000_0000_00fF"))%string in
  match ir_decode_sized_literal (fun _ => None) text with
  | Some lit =>
      18446744073709551871 < 2 ^ w /\ decodes lit w 18446744073709551871 /\
      eval_literal 72 lit = parse_literal_to_simval (Some text)
  | None => 2 ^ w <= 18446744073709551871 \/ (is_letter "b" "h" = true /\ w < count_digits "1_0000_0000_0000_00fF")
  end.
Proof.
  apply (sized_literal_agrees (fun _ => None) "72" "h" "1_0000_0000_0000_00fF" 18446744073709551871 72);
    [vm_compute; reflexivity|cbn; lia|split; vm_compute; [reflexivity|discriminate]
    |cbn; lia|vm_compute; reflexivity|vm_compute; reflexivity].
Defined.

(** A decimal literal of 64 to 256 bits is accepted whatever its number,
    and its IR literal denotes the number modulo [2^64] only. *)
Theorem decimal_literal_wraps module_width wtext digits n :
  all_digits wtext = true -> (String.length wtext < 32)%nat -> 64 <= digits_value wtext 0 <= 256 ->
  (String.length digits <= 255)%nat -> 0 < count_digits digits ->
  number_of JZ_NUM_BASE_DEC digits = Some n ->
  exists lit,
    ir_decode_sized_literal module_width (wtext ++ String "'" (String "d" digits)) = Some lit /\
    decodes lit (digits_value wtext 0) (n mod 2 ^ 64).
Proof.
  intros Hs Hl Hw Hld Hpos Hn. cbn [number_of] in Hn. cbv zeta in Hn.
  destruct (digits_ok decimal_digit digits) eqn:Hd; [|done]. injection Hn as <-.
  assert (digits <> EmptyString) as Hne by (intros ->; done).
  pose proof (decode_dec module_width wtext Hs Hl ltac:(lia) "d" digits Hne Hld eq_refl Hd Hpos) as H1.
  cbv zeta in H1. destruct (Z.leb_spec 64 (digits_value wtext 0)); [|lia]. rewrite orb_true_r in H1.
  eexists. split; [exact H1|]. apply decodes_dec, Z.mod_pos_bound. lia.
Qed.

(** [128'd18446744073709551616], which is [2^64], becomes zero. *)
Lemma decimal_literal_wraps_witness :
  exists lit,
    ir_decode_sized_literal (fun _ => None) ("128" ++ String "'" (String "d" "18446744073709551616")) = Some lit /\
    decodes lit (digits_value "128" 0) (18446744073709551616 mod 2 ^ 64).
Proof.
  apply (decimal_literal_wraps (fun _ => None) "128" "18446744073709551616" 18446744073709551616);
    [vm_compute; reflexivity|cbn; lia|split; vm_compute; discriminate
    |cbn; lia|vm_compute; reflexivity|vm_compute; reflexivity].
Defined.
