(* ===== verification/Lexer.v ===== *)
(** * The lexer: [compiler/src/lexer.c], [include/lexer.h]

    The source is the C string, of which the state keeps the part that is not
    consumed yet; tokens and diagnostics are listed last first while lexing.
    A token's [lexeme] is [None] for the [NULL] pointer.  Memory is assumed to
    suffice, and [int] not to overflow: [JZ_MAX_SOURCE_FILE_BYTES] bounds lines
    and columns.  The file name of a location is the same everywhere. *)

From S2P Require Import Prelude CString Ast Literal.

Local Open Scope Z_scope.

(** ** Tokens *)

Inductive JZTokenType :=
  | JZ_TOK_EOF | JZ_TOK_IDENTIFIER | JZ_TOK_NUMBER | JZ_TOK_SIZED_NUMBER | JZ_TOK_STRING
  | JZ_TOK_NO_CONNECT | JZ_TOK_LBRACE | JZ_TOK_RBRACE | JZ_TOK_LPAREN | JZ_TOK_RPAREN
  | JZ_TOK_LBRACKET | JZ_TOK_RBRACKET | JZ_TOK_SEMICOLON | JZ_TOK_COMMA | JZ_TOK_DOT | JZ_TOK_AT
  | JZ_TOK_OP_ASSIGN | JZ_TOK_OP_ASSIGN_Z | JZ_TOK_OP_ASSIGN_S | JZ_TOK_OP_DRIVE
  | JZ_TOK_OP_DRIVE_Z | JZ_TOK_OP_DRIVE_S | JZ_TOK_OP_LE_Z | JZ_TOK_OP_LE_S | JZ_TOK_OP_PLUS
  | JZ_TOK_OP_MINUS | JZ_TOK_OP_STAR | JZ_TOK_OP_SLASH | JZ_TOK_OP_PERCENT | JZ_TOK_OP_AMP
  | JZ_TOK_OP_PIPE | JZ_TOK_OP_CARET | JZ_TOK_OP_TILDE | JZ_TOK_OP_BANG | JZ_TOK_OP_AND_AND
  | JZ_TOK_OP_OR_OR | JZ_TOK_OP_EQ | JZ_TOK_OP_NEQ | JZ_TOK_OP_LT | JZ_TOK_OP_LE | JZ_TOK_OP_GT
  | JZ_TOK_OP_GE | JZ_TOK_OP_SHL | JZ_TOK_OP_SHR | JZ_TOK_OP_ASHR | JZ_TOK_OP_QUESTION
  | JZ_TOK_OP_COLON
  | JZ_TOK_KW_MODULE | JZ_TOK_KW_ENDMOD | JZ_TOK_KW_PROJECT | JZ_TOK_KW_ENDPROJ
  | JZ_TOK_KW_BLACKBOX | JZ_TOK_KW_NEW | JZ_TOK_KW_TOP | JZ_TOK_KW_IMPORT | JZ_TOK_KW_GLOBAL
  | JZ_TOK_KW_ENDGLOB | JZ_TOK_KW_FEATURE | JZ_TOK_KW_ENDFEAT | JZ_TOK_KW_FEATURE_ELSE
  | JZ_TOK_KW_CHECK | JZ_TOK_KW_CONST | JZ_TOK_KW_PORT | JZ_TOK_KW_WIRE | JZ_TOK_KW_REGISTER
  | JZ_TOK_KW_LATCH | JZ_TOK_KW_MEM | JZ_TOK_KW_ASYNC | JZ_TOK_KW_SYNC | JZ_TOK_KW_MUX
  | JZ_TOK_KW_CDC | JZ_TOK_KW_CONFIG | JZ_TOK_KW_CLOCKS | JZ_TOK_KW_IN_PINS
  | JZ_TOK_KW_OUT_PINS | JZ_TOK_KW_INOUT_PINS | JZ_TOK_KW_MAP | JZ_TOK_KW_CLOCK_GEN
  | JZ_TOK_KW_IF | JZ_TOK_KW_ELIF | JZ_TOK_KW_ELSE | JZ_TOK_KW_SELECT | JZ_TOK_KW_CASE
  | JZ_TOK_KW_DEFAULT | JZ_TOK_KW_IN | JZ_TOK_KW_OUT | JZ_TOK_KW_INOUT | JZ_TOK_KW_OVERRIDE
  | JZ_TOK_KW_GND | JZ_TOK_KW_VCC | JZ_TOK_KW_DISCONNECT | JZ_TOK_KW_TEMPLATE
  | JZ_TOK_KW_ENDTEMPLATE | JZ_TOK_KW_APPLY | JZ_TOK_KW_SCRATCH | JZ_TOK_KW_TESTBENCH
  | JZ_TOK_KW_ENDTB | JZ_TOK_KW_TEST | JZ_TOK_KW_SETUP | JZ_TOK_KW_UPDATE | JZ_TOK_KW_TB_CLOCK
  | JZ_TOK_KW_EXPECT_EQ | JZ_TOK_KW_EXPECT_NEQ | JZ_TOK_KW_EXPECT_TRI | JZ_TOK_KW_SIMULATION
  | JZ_TOK_KW_ENDSIM | JZ_TOK_KW_RUN | JZ_TOK_KW_RUN_UNTIL | JZ_TOK_KW_RUN_WHILE
  | JZ_TOK_KW_PRINT | JZ_TOK_KW_PRINT_IF | JZ_TOK_KW_TRACE | JZ_TOK_KW_SIM_SELECT
  | JZ_TOK_KW_MARK | JZ_TOK_KW_MARK_IF | JZ_TOK_KW_ALERT | JZ_TOK_KW_ALERT_IF | JZ_TOK_KW_TAP
  | JZ_TOK_OTHER.

(** [type == JZ_TOK_EOF]. *)
Definition is_eof (t : JZTokenType) : bool := match t with JZ_TOK_EOF => true | _ => false end.

Record JZNumericInfo := mkNumeric {
  num_is_sized : bool; num_base : JZNumericBase; num_width_chars : nat
}.
Definition no_numeric : JZNumericInfo := mkNumeric false JZ_NUM_BASE_NONE 0.

Record JZToken := mkTok {
  tok_type : JZTokenType;
  tok_loc : JZLocation;
  tok_lexeme : option string;
  tok_num : JZNumericInfo
}.

Inductive JZNumericErrorCause :=
  | JZ_NUM_ERR_UNDERSCORE_EDGES | JZ_NUM_ERR_INVALID_DIGIT | JZ_NUM_ERR_DECIMAL_HAS_XZ
  | JZ_NUM_ERR_OTHER.

(** The codes of the diagnostics. *)
Inductive LexCode :=
  | COMMENT_NESTED_BLOCK | COMMENT_IN_TOKEN | LEX_NUMERIC | LIT_UNDERSCORE_AT_EDGES
  | LIT_DECIMAL_HAS_XZ | LIT_INVALID_DIGIT_FOR_BASE | LIT_UNSIZED | ID_SYNTAX_INVALID
  | SOURCE_TOKEN_LIMIT_EXCEEDED.

(** ** State *)

(** Offset, line and column of the next character. *)
Record Where := mkWhere { wh_pos : Z; wh_line : Z; wh_column : Z }.

Record LexerState := mkLexer {
  lx_rest : string;
  lx_where : Where;
  lx_out : list JZToken;
  lx_diags : list (LexCode * JZLocation);
  lx_had_error : bool;
  lx_stop : bool;
  lx_last_end : option Z
}.

Definition JZ_MAX_SOURCE_TOKENS : Z := 1048576.

Definition start_where : Where := mkWhere 0 1 1.

(** [pos += n; column += n]. *)
Definition moved (n : Z) (w : Where) : Where :=
  mkWhere (wh_pos w + n) (wh_line w) (wh_column w + n).

(** Past a newline, and past any character. *)
Definition new_line (w : Where) : Where := mkWhere (wh_pos w + 1) (wh_line w + 1) 1.
Definition step (c : ascii) (w : Where) : Where :=
  if Ascii.eqb c "010" then new_line w else moved 1 w.

Definition loc_of (w : Where) : JZLocation := mkLoc (wh_line w) (wh_column w).

Definition goto (rest : string) (w : Where) (st : LexerState) : LexerState :=
  mkLexer rest w (lx_out st) (lx_diags st) (lx_had_error st) (lx_stop st) (lx_last_end st).

(** Past the text [s], which has no newline, to [rest]. *)
Definition advance (s rest : string) (st : LexerState) : LexerState :=
  goto rest (moved (Z.of_nat (String.length s)) (lx_where st)) st.

(** ** Numeric literals *)

(** Why a character is no digit of a base. *)
Definition digit_error (base : JZNumericBase) (ch : ascii) : option JZNumericErrorCause :=
  let xz := is_letter "x" ch || is_letter "z" ch in
  let check (ok : bool) := if ok then None else Some JZ_NUM_ERR_INVALID_DIGIT in
  match base with
  | JZ_NUM_BASE_BIN => check (Ascii.eqb ch "0" || Ascii.eqb ch "1" || xz)
  | JZ_NUM_BASE_DEC => if xz then Some JZ_NUM_ERR_DECIMAL_HAS_XZ else check (isdigit ch)
  | JZ_NUM_BASE_HEX => check (isdigit ch || in_codes 97 102 ch || in_codes 65 70 ch)
  | JZ_NUM_BASE_NONE => Some JZ_NUM_ERR_OTHER
  end.

Fixpoint value_error (base : JZNumericBase) (value : string) : option JZNumericErrorCause :=
  match value with
  | EmptyString => None
  | String ch value' =>
      if Ascii.eqb ch "_" then value_error base value'
      else match digit_error base ch with Some e => Some e | None => value_error base value' end
  end.

(** The last character is [c]. *)
Fixpoint ends_with (c : ascii) (s : string) : bool :=
  match s with
  | EmptyString => false
  | String d EmptyString => Ascii.eqb d c
  | String _ s' => ends_with c s'
  end.

Definition starts_with (p s : string) : bool :=
  match strip_prefix p s with Some _ => true | None => false end.

(** A cause for [-1]; [inr None] for the plain number, 0. *)
Definition parse_numeric_literal (lexeme : string) : JZNumericErrorCause + option JZNumericInfo :=
  match split_at "'" lexeme with
  | None => inr None
  | Some (width, rest) =>
      if is_empty_string width then inl JZ_NUM_ERR_OTHER
      else
        match rest with
        | EmptyString => inl JZ_NUM_ERR_OTHER
        | String base_ch value =>
            match base_of base_ch with
            | JZ_NUM_BASE_NONE => inl JZ_NUM_ERR_OTHER
            | base =>
                if is_empty_string value then inl JZ_NUM_ERR_OTHER
                else if starts_with "_" value || ends_with "_" value
                then inl JZ_NUM_ERR_UNDERSCORE_EDGES
                else
                  match value_error base value with
                  | Some e => inl e
                  | None => inr (Some (mkNumeric true base (String.length width)))
                  end
            end
        end
  end.

(** ** Keywords *)

Definition keywords : list (string * JZTokenType) :=
  [
    ("@module", JZ_TOK_KW_MODULE); ("@endmod", JZ_TOK_KW_ENDMOD); ("@project", JZ_TOK_KW_PROJECT);
    ("@endproj", JZ_TOK_KW_ENDPROJ); ("@blackbox", JZ_TOK_KW_BLACKBOX); ("@new", JZ_TOK_KW_NEW);
    ("@top", JZ_TOK_KW_TOP); ("@import", JZ_TOK_KW_IMPORT); ("@global", JZ_TOK_KW_GLOBAL);
    ("@endglob", JZ_TOK_KW_ENDGLOB); ("@feature", JZ_TOK_KW_FEATURE);
    ("@endfeat", JZ_TOK_KW_ENDFEAT); ("@else", JZ_TOK_KW_FEATURE_ELSE);
    ("@check", JZ_TOK_KW_CHECK); ("@template", JZ_TOK_KW_TEMPLATE);
    ("@endtemplate", JZ_TOK_KW_ENDTEMPLATE); ("@apply", JZ_TOK_KW_APPLY);
    ("@scratch", JZ_TOK_KW_SCRATCH); ("@testbench", JZ_TOK_KW_TESTBENCH);
    ("@endtb", JZ_TOK_KW_ENDTB); ("@setup", JZ_TOK_KW_SETUP); ("@update", JZ_TOK_KW_UPDATE);
    ("@clock", JZ_TOK_KW_TB_CLOCK); ("@expect_equal", JZ_TOK_KW_EXPECT_EQ);
    ("@expect_not_equal", JZ_TOK_KW_EXPECT_NEQ); ("@expect_tristate", JZ_TOK_KW_EXPECT_TRI);
    ("@simulation", JZ_TOK_KW_SIMULATION); ("@endsim", JZ_TOK_KW_ENDSIM); ("@run", JZ_TOK_KW_RUN);
    ("@run_until", JZ_TOK_KW_RUN_UNTIL); ("@run_while", JZ_TOK_KW_RUN_WHILE);
    ("@print", JZ_TOK_KW_PRINT); ("@print_if", JZ_TOK_KW_PRINT_IF); ("@trace", JZ_TOK_KW_TRACE);
    ("@select", JZ_TOK_KW_SIM_SELECT); ("@mark", JZ_TOK_KW_MARK); ("@mark_if", JZ_TOK_KW_MARK_IF);
    ("@alert", JZ_TOK_KW_ALERT); ("@alert_if", JZ_TOK_KW_ALERT_IF); ("CONST", JZ_TOK_KW_CONST);
    ("PORT", JZ_TOK_KW_PORT); ("WIRE", JZ_TOK_KW_WIRE); ("REGISTER", JZ_TOK_KW_REGISTER);
    ("LATCH", JZ_TOK_KW_LATCH); ("MEM", JZ_TOK_KW_MEM); ("MUX", JZ_TOK_KW_MUX);
    ("CDC", JZ_TOK_KW_CDC); ("ASYNCHRONOUS", JZ_TOK_KW_ASYNC); ("SYNCHRONOUS", JZ_TOK_KW_SYNC);
    ("CONFIG", JZ_TOK_KW_CONFIG); ("CLOCKS", JZ_TOK_KW_CLOCKS); ("IN_PINS", JZ_TOK_KW_IN_PINS);
    ("OUT_PINS", JZ_TOK_KW_OUT_PINS); ("INOUT_PINS", JZ_TOK_KW_INOUT_PINS);
    ("MAP", JZ_TOK_KW_MAP); ("CLOCK_GEN", JZ_TOK_KW_CLOCK_GEN); ("TAP", JZ_TOK_KW_TAP);
    ("IF", JZ_TOK_KW_IF); ("ELIF", JZ_TOK_KW_ELIF); ("ELSE", JZ_TOK_KW_ELSE);
    ("SELECT", JZ_TOK_KW_SELECT); ("CASE", JZ_TOK_KW_CASE); ("DEFAULT", JZ_TOK_KW_DEFAULT);
    ("IN", JZ_TOK_KW_IN); ("OUT", JZ_TOK_KW_OUT); ("INOUT", JZ_TOK_KW_INOUT);
    ("OVERRIDE", JZ_TOK_KW_OVERRIDE); ("GND", JZ_TOK_KW_GND); ("VCC", JZ_TOK_KW_VCC) ].

(** The comparisons in order. *)
Definition match_keyword (lexeme : string) : option JZTokenType :=
  option_map snd (List.find (fun k => String.eqb lexeme (fst k)) keywords).

(** ** Operators and punctuation *)

(** Bytes of an identifier. *)
Definition is_identifier_start (c : ascii) : bool := isalpha c || Ascii.eqb c "_".
Definition is_identifier_char (c : ascii) : bool := isalnum c || Ascii.eqb c "_".

Definition punctuation : list (ascii * JZTokenType) :=
  [ ("{", JZ_TOK_LBRACE); ("}", JZ_TOK_RBRACE); ("(", JZ_TOK_LPAREN); (")", JZ_TOK_RPAREN);
    ("[", JZ_TOK_LBRACKET); ("]", JZ_TOK_RBRACKET); (";", JZ_TOK_SEMICOLON); (",", JZ_TOK_COMMA);
    (".", JZ_TOK_DOT); ("@", JZ_TOK_AT); ("+", JZ_TOK_OP_PLUS); ("-", JZ_TOK_OP_MINUS);
    ("*", JZ_TOK_OP_STAR); ("%", JZ_TOK_OP_PERCENT); ("~", JZ_TOK_OP_TILDE);
    ("^", JZ_TOK_OP_CARET); ("?", JZ_TOK_OP_QUESTION); (":", JZ_TOK_OP_COLON);
    ("/", JZ_TOK_OP_SLASH); ("#", JZ_TOK_OTHER) ]%char.

(** [s] starts with [p], and no identifier goes on after it. *)
Definition ends_word (p s : string) : bool :=
  match strip_prefix p s with
  | Some (String c _) => negb (is_identifier_char c)
  | Some EmptyString => true
  | None => false
  end.

(** The operator at [c], with [s] behind it, and its text. *)
Definition operator (c : ascii) (s : string) : option (JZTokenType * string) :=
  let one t := Some (t, String c EmptyString) in
  if Ascii.eqb c "=" then
    if starts_with "=" s then Some (JZ_TOK_OP_EQ, "==")
    else if starts_with ">" s then
      if ends_word ">z" s then Some (JZ_TOK_OP_DRIVE_Z, "=>z")
      else if ends_word ">s" s then Some (JZ_TOK_OP_DRIVE_S, "=>s")
      else Some (JZ_TOK_OP_DRIVE, "=>")
    else if ends_word "z" s then Some (JZ_TOK_OP_ASSIGN_Z, "=z")
    else if ends_word "s" s then Some (JZ_TOK_OP_ASSIGN_S, "=s")
    else one JZ_TOK_OP_ASSIGN
  else if Ascii.eqb c "&" then
    if starts_with "&" s then Some (JZ_TOK_OP_AND_AND, "&&") else one JZ_TOK_OP_AMP
  else if Ascii.eqb c "|" then
    if starts_with "|" s then Some (JZ_TOK_OP_OR_OR, "||") else one JZ_TOK_OP_PIPE
  else if Ascii.eqb c "!" then
    if starts_with "=" s then Some (JZ_TOK_OP_NEQ, "!=") else one JZ_TOK_OP_BANG
  else if Ascii.eqb c "<" then
    if starts_with "<" s then Some (JZ_TOK_OP_SHL, "<<")
    else if starts_with "=z" s then Some (JZ_TOK_OP_LE_Z, "<=z")
    else if starts_with "=s" s then Some (JZ_TOK_OP_LE_S, "<=s")
    else if starts_with "=" s then Some (JZ_TOK_OP_LE, "<=")
    else one JZ_TOK_OP_LT
  else if Ascii.eqb c ">" then
    if starts_with ">>" s then Some (JZ_TOK_OP_ASHR, ">>>")
    else if starts_with ">" s then Some (JZ_TOK_OP_SHR, ">>")
    else if starts_with "=" s then Some (JZ_TOK_OP_GE, ">=")
    else one JZ_TOK_OP_GT
  else
    option_map (fun p => (snd p, String c EmptyString))
      (List.find (fun p => Ascii.eqb c (fst p)) punctuation).

(** ** Blanks and comments *)

Fixpoint skip_spaces (s : string) (w : Where) : string * Where :=
  match s with
  | EmptyString => (s, w)
  | String c s' =>
      if Ascii.eqb c " " || Ascii.eqb c "009" || Ascii.eqb c "013" then skip_spaces s' (moved 1 w)
      else if Ascii.eqb c "010" then skip_spaces s' (new_line w)
      else (s, w)
  end.

Fixpoint skip_line_comment (s : string) (w : Where) : string * Where :=
  match s with
  | EmptyString => (s, w)
  | String c s' =>
      if Ascii.eqb c "010" then (s', new_line w) else skip_line_comment s' (moved 1 w)
  end.

(** The flag is [true] at the end of the comment, [false] at a nested opening
    or at the end of the source. *)
Fixpoint skip_block_comment (s : string) (w : Where) : string * Where * bool :=
  match s with
  | EmptyString => (s, w, false)
  | String c s' =>
      let w := step c w in
      if Ascii.eqb c "/" && starts_with "*" s' then (s', w, false)
      else if Ascii.eqb c "*" then
        match s' with
        | String d s'' =>
            if Ascii.eqb d "/" then (s'', moved 1 w, true) else skip_block_comment s' w
        | EmptyString => skip_block_comment s' w
        end
      else skip_block_comment s' w
  end.

(** ** Strings *)

(** The text before the closing quote, and what follows the quote; [None]
    without a quote. *)
Fixpoint string_body (s : string) (w : Where) : string * Where * option string :=
  match s with
  | EmptyString => (EmptyString, w, None)
  | String c s' =>
      if Ascii.eqb c "034" then (EmptyString, moved 1 w, Some s')
      else
        let '(body, w', r) := string_body s' (step c w) in
        (String c body, w', r)
  end.

Fixpoint decode_escapes (s : string) : string :=
  match s with
  | EmptyString => EmptyString
  | String ch s' =>
      if Ascii.eqb ch "\" then
        match s' with
        | String n s'' =>
            if Ascii.eqb n "\" || Ascii.eqb n "034" then String n (decode_escapes s'')
            else if Ascii.eqb n "n" then String "010" (decode_escapes s'')
            else String ch (decode_escapes s')
        | EmptyString => String ch EmptyString
        end
      else String ch (decode_escapes s')
  end.

(** ** The lexer *)

Section Lexer.
(** Whether diagnostics are collected. *)
Context (sink : bool).

Definition add_diag (code : LexCode) (loc : JZLocation) (st : LexerState) : list (LexCode * JZLocation) :=
  if sink then (code, loc) :: lx_diags st else lx_diags st.

Definition lexer_report_parse_error (loc : JZLocation) (code : LexCode) (st : LexerState) :
    LexerState :=
  mkLexer (lx_rest st) (lx_where st) (lx_out st) (add_diag code loc st) true (lx_stop st)
    (lx_last_end st).

(** Without a sink nothing happens, not even to [had_error]. *)
Definition lexer_report_rule (loc : JZLocation) (code : LexCode) (st : LexerState) : LexerState :=
  if sink then lexer_report_parse_error loc code st else st.

Definition stop_lexing (st : LexerState) : LexerState :=
  mkLexer (lx_rest st) (lx_where st) (lx_out st) (lx_diags st) (lx_had_error st) true
    (lx_last_end st).

Definition full (st : LexerState) : bool := JZ_MAX_SOURCE_TOKENS <=? Z.of_nat (length (lx_out st)).

Definition emit_token (type : JZTokenType) (lexeme : string) (loc : JZLocation) (st : LexerState) :
    LexerState :=
  if full st then stop_lexing (lexer_report_rule loc SOURCE_TOKEN_LIMIT_EXCEEDED st)
  else
    mkLexer (lx_rest st) (lx_where st)
      (mkTok type loc (if is_empty_string lexeme then None else Some lexeme) no_numeric :: lx_out st)
      (lx_diags st) (lx_had_error st) (lx_stop st)
      (if is_eof type then lx_last_end st else Some (wh_pos (lx_where st))).

(** [tokens[count - 1].num = info], after [emit_token]. *)
Definition set_last_num (info : JZNumericInfo) (st : LexerState) : LexerState :=
  match lx_out st with
  | t :: out =>
      mkLexer (lx_rest st) (lx_where st) (mkTok (tok_type t) (tok_loc t) (tok_lexeme t) info :: out)
        (lx_diags st) (lx_had_error st) (lx_stop st) (lx_last_end st)
  | [] => st
  end.

Definition report_numeric (err : JZNumericErrorCause) (loc : JZLocation) (st : LexerState) :
    LexerState :=
  match err with
  | JZ_NUM_ERR_UNDERSCORE_EDGES => lexer_report_rule loc LIT_UNDERSCORE_AT_EDGES st
  | JZ_NUM_ERR_DECIMAL_HAS_XZ => lexer_report_rule loc LIT_DECIMAL_HAS_XZ st
  | JZ_NUM_ERR_INVALID_DIGIT => lexer_report_rule loc LIT_INVALID_DIGIT_FOR_BASE st
  | JZ_NUM_ERR_OTHER => lexer_report_parse_error loc LEX_NUMERIC st
  end.

(** The text of a numeric literal has been scanned. *)
Definition emit_numeric (lex : string) (loc : JZLocation) (st : LexerState) : LexerState :=
  match parse_numeric_literal lex with
  | inl err => report_numeric err loc st
  | inr None => emit_token JZ_TOK_NUMBER lex loc st
  | inr (Some info) => set_last_num info (emit_token JZ_TOK_SIZED_NUMBER lex loc st)
  end.

(** Report a comment that touches the token before it. *)
Definition check_in_token (st : LexerState) : LexerState :=
  match lx_last_end st with
  | Some e =>
      if e =? wh_pos (lx_where st)
      then lexer_report_parse_error (loc_of (lx_where st)) COMMENT_IN_TOKEN st else st
  | None => st
  end.

(** Blanks and comments; the flag is [false] after a bad comment.  Nothing
    here sets [stop_lexing], which the C code tests after each comment. *)
Fixpoint skip_trivia (fuel : nat) (st : LexerState) : LexerState * bool :=
  match fuel with
  | O => (st, true)
  | S fuel' =>
      let '(rest, w) := skip_spaces (lx_rest st) (lx_where st) in
      let st := goto rest w st in
      let loc := loc_of w in
      match strip_prefix "//" rest, strip_prefix "/*" rest with
      | Some r, _ =>
          let '(rest, w) := skip_line_comment r (moved 2 w) in
          skip_trivia fuel' (goto rest w (check_in_token st))
      | None, Some r =>
          let '(rest, w, ok) := skip_block_comment r (moved 2 w) in
          let st := goto rest w (check_in_token st) in
          if ok then skip_trivia fuel' st
          else (lexer_report_parse_error loc COMMENT_NESTED_BLOCK st, false)
      | None, None => (st, true)
      end
  end.

(** After an opening quote, with [s] behind it. *)
Definition lex_string (s : string) (st : LexerState) : LexerState :=
  let '(body, w, r) := string_body s (moved 1 (lx_where st)) in
  match r with
  | None => goto EmptyString w st
  | Some rest =>
      emit_token JZ_TOK_STRING (decode_escapes body) (loc_of (lx_where st)) (goto rest w st)
  end.

(** The bytes scanned after the quote of a literal. *)
Definition is_literal_char (c : ascii) : bool := isalnum c || Ascii.eqb c "'" || Ascii.eqb c "_".

(** After [CONFIG]: [.name] when a quote follows it. *)
Definition config_width (name rest : string) : option (string * string) :=
  match strip_prefix "." rest with
  | Some r =>
      let field := take_while is_identifier_char r in
      let r := drop_while is_identifier_char r in
      if String.eqb name "CONFIG" && negb (is_empty_string field) && starts_with "'" r
      then Some (name +:+ String "." field, r) else None
  | None => None
  end.

(** An identifier, keyword, directive, or a literal with a named width,
    starting at [c]. *)
Definition lex_word (c : ascii) (s : string) (st : LexerState) : LexerState :=
  let loc := loc_of (lx_where st) in
  let name := String c (take_while is_identifier_char s) in
  let rest := drop_while is_identifier_char s in
  let '(name, rest) := match config_width name rest with Some p => p | None => (name, rest) end in
  match strip_prefix "'" rest with
  | Some r =>
      let lex := name +:+ String "'" (take_while is_literal_char r) in
      emit_numeric lex loc (advance lex (drop_while is_literal_char r) st)
  | None =>
      let type := match match_keyword name with Some t => t | None => JZ_TOK_IDENTIFIER end in
      emit_token type name loc (advance name rest st)
  end.

Definition has_tick (s : string) : bool :=
  match split_at "'" s with Some _ => true | None => false end.

(** A number starting at the digit [c]. *)
Definition lex_number (c : ascii) (s : string) (st : LexerState) : LexerState :=
  let loc := loc_of (lx_where st) in
  let run := String c (take_while is_literal_char s) in
  let rest := drop_while is_literal_char s in
  let fraction :=
    match rest with
    | String dot (String d r) =>
        if Ascii.eqb dot "." && isdigit d && negb (has_tick run) then Some (String d r) else None
    | _ => None
    end in
  match fraction with
  | Some r =>
      let lex := run +:+ String "." (take_while isdigit r) in
      emit_token JZ_TOK_NUMBER lex loc (advance lex (drop_while isdigit r) st)
  | None => emit_numeric run loc (advance run rest st)
  end.

Definition lex_operator (c : ascii) (s : string) (st : LexerState) : LexerState :=
  let loc := loc_of (lx_where st) in
  match operator c s with
  | Some (type, lex) =>
      let rest := match strip_prefix lex (String c s) with Some r => r | None => s end in
      emit_token type lex loc (advance lex rest st)
  | None =>
      let lex := String c EmptyString in
      emit_token JZ_TOK_OTHER lex loc
        (advance lex s (lexer_report_parse_error loc ID_SYNTAX_INVALID st))
  end.

(** The token at [c]. *)
Definition lex_at (c : ascii) (s : string) (st : LexerState) : LexerState :=
  if Ascii.eqb c "034" then lex_string s st
  else if is_identifier_start c || Ascii.eqb c "@" then lex_word c s st
  else if Ascii.eqb c "'" then
    advance "'" s (lexer_report_rule (loc_of (lx_where st)) LIT_UNSIZED st)
  else if isdigit c then lex_number c s st
  else lex_operator c s st.

(** Each comment takes two characters at least. *)
Definition lex_one_token (st : LexerState) : LexerState :=
  if lx_stop st then st
  else
    match skip_trivia (S (String.length (lx_rest st))) st with
    | (st, false) => st
    | (st, true) =>
        match lx_rest st with
        | EmptyString => emit_token JZ_TOK_EOF EmptyString (loc_of (lx_where st)) st
        | String c s => lex_at c s st
        end
    end.

Definition at_eof (st : LexerState) : bool :=
  match lx_out st with t :: _ => is_eof (tok_type t) | [] => false end.

(** The loop; [None] without fuel. *)
Fixpoint lex_loop (fuel : nat) (st : LexerState) : option LexerState :=
  match fuel with
  | O => None
  | S fuel' =>
      let st := lex_one_token st in
      if lx_stop st || at_eof st then Some st else lex_loop fuel' st
  end.

Record LexResult := mkLexResult {
  lr_tokens : list JZToken; lr_diags : list (LexCode * JZLocation); lr_status : Z
}.

Definition jz_lex_source (source : string) : option LexResult :=
  let start := mkLexer source start_where [] [] false false None in
  match lex_loop (S (String.length source)) start with
  | None => None
  | Some st =>
      let st :=
        if negb (at_eof st) && negb (full st)
        then emit_token JZ_TOK_EOF EmptyString (loc_of (lx_where st)) st else st in
      Some (mkLexResult (rev (lx_out st)) (rev (lx_diags st)) (if lx_had_error st then -1 else 0))
  end.
End Lexer.
