(* ===== verification/LexPos.v ===== *)
(** * Source positions and the text of tokens

    How the lexer's offsets relate to the text it has consumed, and what it
    means that a list of tokens spells a source text. *)

From S2P Require Import Prelude CString Ast Literal Lexer.

Local Open Scope Z_scope.

(** ** Characters of a string *)

Fixpoint all_chars (f : ascii -> bool) (s : string) : bool :=
  match s with
  | EmptyString => true
  | String c s' => f c && all_chars f s'
  end.

Lemma all_chars_app f s t : all_chars f (s ++ t) = all_chars f s && all_chars f t.
Proof.
  induction s as [|c s IH]; [done|]. rewrite append_cons. cbn [all_chars]. by rewrite IH, andb_assoc.
Qed.

Lemma all_chars_impl (f g : ascii -> bool) s :
  (forall c, f c = true -> g c = true) -> all_chars f s = true -> all_chars g s = true.
Proof.
  intros H. induction s as [|c s IH]; [done|]. cbn [all_chars]. rewrite !andb_true_iff.
  intros [Hc Hs]. auto.
Qed.

Lemma take_while_all f s : all_chars f (take_while f s) = true.
Proof.
  unfold take_while. induction s as [|c s IH]; [done|]. cbn [before].
  destruct (f c) eqn:E; cbn [negb all_chars]; [by rewrite E|done].
Qed.

Lemma take_drop_while f s : (take_while f s ++ drop_while f s)%string = s.
Proof.
  unfold take_while. induction s as [|c s IH]; [done|]. cbn [before drop_while].
  destruct (f c); cbn [negb]; [by rewrite append_cons, IH|done].
Qed.

(** ** Positions *)

(** The position after the text [s]. *)
Fixpoint locate (w : Where) (s : string) : Where :=
  match s with
  | EmptyString => w
  | String c s' => locate (step c w) s'
  end.

Lemma locate_app w s t : locate w (s ++ t) = locate (locate w s) t.
Proof. revert w. induction s as [|c s IH]; intros w; [done|]. rewrite append_cons. apply IH. Qed.

Definition not_newline (c : ascii) : bool := negb (Ascii.eqb c "010").

Lemma moved_moved a b w : moved a (moved b w) = moved (b + a) w.
Proof. unfold moved. cbn. f_equal; lia. Qed.

Lemma moved_0 w : moved 0 w = w.
Proof. destruct w. unfold moved. cbn. f_equal; lia. Qed.

(** Within a line the column moves with the offset. *)
Lemma locate_line w s :
  all_chars not_newline s = true -> locate w s = moved (Z.of_nat (String.length s)) w.
Proof.
  revert w. induction s as [|c s IH]; intros w Hs; [by rewrite moved_0|].
  cbn [all_chars] in Hs. apply andb_true_iff in Hs as [Hc Hs]. cbn [locate String.length].
  unfold not_newline in Hc. apply negb_true_iff in Hc. unfold step. rewrite Hc, IH by done.
  rewrite moved_moved. f_equal. lia.
Qed.

Lemma locate_pos w s : wh_pos (locate w s) = wh_pos w + Z.of_nat (String.length s).
Proof.
  revert w. induction s as [|c s IH]; intros w; cbn [locate String.length]; [lia|].
  rewrite IH. unfold step. destruct (Ascii.eqb c "010"); cbn; lia.
Qed.

Lemma advance_locate s rest st :
  all_chars not_newline s = true -> advance s rest st = goto rest (locate (lx_where st) s) st.
Proof. intros Hs. unfold advance. by rewrite locate_line. Qed.

(** ** Blanks and comments *)

Definition is_blank (c : ascii) : bool :=
  Ascii.eqb c " " || Ascii.eqb c "009" || Ascii.eqb c "013" || Ascii.eqb c "010".

(** No comment opens or closes in the text. *)
Fixpoint plain_comment (s : string) : bool :=
  match s with
  | EmptyString => true
  | String c s' =>
      negb (Ascii.eqb c "/" && starts_with "*" s') && negb (Ascii.eqb c "*" && starts_with "/" s')
      && plain_comment s'
  end.

Inductive blank : string -> Prop :=
  | blank_char c : is_blank c = true -> blank (String c EmptyString)
  | blank_line b : all_chars not_newline b = true -> blank ("//" ++ b ++ String "010" EmptyString)
  | blank_block b : plain_comment (b ++ "*") = true -> blank ("/*" ++ b ++ "*/").

(** ** Spelling *)

Definition not_quote (c : ascii) : bool := negb (Ascii.eqb c "034").
Definition quoted (body : string) : string := String "034" (body ++ String "034" EmptyString).

(** An empty lexeme is the [NULL] pointer. *)
Definition lexeme_of (s : string) : option string := if is_empty_string s then None else Some s.

Definition is_string (t : JZTokenType) : bool := match t with JZ_TOK_STRING => true | _ => false end.

(** The source text of a token: its lexeme, for a string the quoted text whose
    escapes decode to the lexeme. *)
Definition token_text (t : JZToken) (text : string) : Prop :=
  if is_string (tok_type t) then
    exists body, text = quoted body /\ all_chars not_quote body = true /\
      tok_lexeme t = lexeme_of (decode_escapes body)
  else is_eof (tok_type t) = false /\ text <> EmptyString /\ tok_lexeme t = Some text.

(** The text consumed and the tokens found in it, last first: each token stands
    at its location; when [strict], all the rest is blank. *)
Inductive spelled (strict : bool) : string -> list JZToken -> Prop :=
  | spelled_nil : spelled strict EmptyString []
  | spelled_gap pre ts g :
      (strict = true -> blank g) -> spelled strict pre ts -> spelled strict (pre ++ g) ts
  | spelled_tok pre ts t text :
      spelled strict pre ts -> tok_loc t = loc_of (locate start_where pre) ->
      token_text t text -> spelled strict (pre ++ text) (t :: ts).

Lemma spelled_weaken a b pre ts : (b = true -> a = true) -> spelled a pre ts -> spelled b pre ts.
Proof.
  intros Hab. induction 1 as [|pre ts g Hg _ IH|pre ts t text _ IH Hl Ht].
  - constructor.
  - apply spelled_gap; auto.
  - by apply spelled_tok.
Qed.

(** What may be left at the end of the source without a diagnostic: a line
    comment, or a string without an end. *)
Definition loose_end (s : string) : Prop :=
  s = EmptyString \/
  (exists b, s = ("//" ++ b)%string /\ all_chars not_newline b = true) \/
  (exists b, s = String "034" b /\ all_chars not_quote b = true).

(** ** What the scans consume *)

Lemma skip_spaces_eq s w :
  skip_spaces s w = (drop_while is_blank s, locate w (take_while is_blank s)).
Proof.
  unfold take_while. revert w. induction s as [|c s IH]; intros w; [done|].
  cbn [skip_spaces drop_while before].
  destruct (Ascii.eqb c "010") eqn:En.
  - apply Ascii.eqb_eq in En as ->. change (is_blank "010") with true. cbn [negb locate]. exact (IH (new_line w)).
  - unfold is_blank. rewrite En, orb_false_r.
    destruct (Ascii.eqb c " " || Ascii.eqb c "009" || Ascii.eqb c "013"); cbn [negb]; [|done].
    rewrite IH. cbn [locate]. unfold step. by rewrite En.
Qed.

Lemma skip_line_comment_eq s w :
  exists b, all_chars not_newline b = true /\
    ((exists r, s = (b ++ String "010" r)%string /\
        skip_line_comment s w = (r, locate w (b ++ String "010" EmptyString))) \/
     (s = b /\ skip_line_comment s w = (EmptyString, locate w b))).
Proof.
  revert w. induction s as [|c s IH]; intros w; cbn [skip_line_comment].
  { exists EmptyString. split; [done|]. by right. }
  destruct (Ascii.eqb c "010") eqn:En.
  - apply Ascii.eqb_eq in En as ->. exists EmptyString. split; [done|]. left. by exists s.
  - assert (forall t, locate w (String c t) = locate (moved 1 w) t) as Hw
      by (intros t; cbn [locate]; unfold step; by rewrite En).
    assert (forall b, all_chars not_newline b = true -> all_chars not_newline (String c b) = true) as Hb
      by (intros b Hb; cbn [all_chars]; unfold not_newline at 1; by rewrite En).
    destruct (IH (moved 1 w)) as (b & Hok & [(r & -> & ->)|[-> ->]]); exists (String c b);
      (split; [by apply Hb|]); [left; exists r|right].
    + split; [done|]. by rewrite append_cons, Hw.
    + split; [done|]. by rewrite Hw.
Qed.

(** What a scan of [s] for the end of a block comment returns. *)
Definition block_scan (s : string) (w : Where) (res : string * Where * bool) : Prop :=
  let '(r, w', ok) := res in
  if ok : bool then
    exists b, plain_comment (b ++ "*") = true /\ s = (b ++ "*/" ++ r)%string /\ w' = locate w (b ++ "*/")
  else exists t, s = (t ++ r)%string /\ w' = locate w t.

Lemma block_scan_cons c s w res :
  block_scan s (step c w) res ->
  Ascii.eqb c "/" && starts_with "*" s = false -> Ascii.eqb c "*" && starts_with "/" s = false ->
  block_scan (String c s) w res.
Proof.
  destruct res as [[r w'] []]; intros H H1 H2.
  - destruct H as (b & Hb & -> & ->). exists (String c b). split_and!; [|done..].
    rewrite append_cons. cbn [plain_comment].
    assert (forall d, starts_with (String d EmptyString) (b ++ "*/" ++ r) =
      starts_with (String d EmptyString) (b ++ "*")) as Es.
    { intros d. destruct b as [|a b]; rewrite ?append_cons, ?append_empty;
        unfold starts_with; cbn [strip_prefix]; by destruct (Ascii.eqb d _). }
    rewrite <- !Es. by rewrite H1, H2, Hb.
  - destruct H as (t & -> & ->). by exists (String c t).
Qed.

Lemma skip_block_comment_eq s w : block_scan s w (skip_block_comment s w).
Proof.
  revert w. induction s as [|c s IH]; intros w; cbn [skip_block_comment].
  { by exists EmptyString. }
  destruct (Ascii.eqb c "/" && starts_with "*" s) eqn:E1; [by exists (String c EmptyString)|].
  destruct (Ascii.eqb c "*") eqn:E2.
  - destruct s as [|d s].
    + apply block_scan_cons; [apply IH|done|apply andb_false_r].
    + destruct (Ascii.eqb d "/") eqn:E3.
      * apply Ascii.eqb_eq in E2 as ->. apply Ascii.eqb_eq in E3 as ->.
        exists EmptyString. split_and!; done.
      * apply block_scan_cons; [apply IH|done|]. unfold starts_with. cbn [strip_prefix].
        by rewrite (Ascii.eqb_sym "/" d), E3, andb_false_r.
  - apply block_scan_cons; [apply IH|done|by rewrite E2].
Qed.

Lemma string_body_eq s w :
  let '(body, w', r) := string_body s w in
  all_chars not_quote body = true /\
  match r with
  | Some r => s = (body ++ String "034" r)%string /\ w' = locate w (body ++ String "034" EmptyString)
  | None => s = body /\ w' = locate w s
  end.
Proof.
  revert w. induction s as [|c s IH]; intros w; cbn [string_body]; [done|].
  destruct (Ascii.eqb c "034") eqn:Eq.
  - apply Ascii.eqb_eq in Eq as ->. done.
  - specialize (IH (step c w)). destruct (string_body s (step c w)) as [[body w'] r].
    destruct IH as [Hb Hr]. split; [cbn [all_chars]; unfold not_quote at 1; by rewrite Eq|].
    destruct r as [r|]; destruct Hr as [-> ->]; done.
Qed.
