(* ===== verification/LexSpec.v ===== *)
(** * What the lexer promises *)

From S2P Require Import Prelude CString Digits Ast SimArith SimBits Literal LitSpec Lexer LexPos.

Local Open Scope Z_scope.

Lemma spelled_text strict pre ts t t' :
  spelled strict pre (t :: ts) ->
  tok_type t' = tok_type t -> tok_loc t' = tok_loc t -> tok_lexeme t' = tok_lexeme t ->
  spelled strict pre (t' :: ts).
Proof.
  intros H H1 H2 H3. remember (t :: ts) as l eqn:E. revert ts E.
  induction H as [|pre l g Hg _ IH|pre l u text Hs _ Hl Ht]; intros ts E; [done|..].
  - apply spelled_gap; [done|]. by apply IH.
  - injection E as -> ->. apply spelled_tok; [done|congruence|].
    unfold token_text in *. by rewrite H1, H3.
Qed.

Lemma spelled_no_eof strict pre ts t : spelled strict pre ts -> t ∈ ts -> is_eof (tok_type t) = false.
Proof.
  induction 1 as [|pre ts g Hg _ IH|pre ts u text Hs IH Hl Ht]; [by intros ?%not_elem_of_nil|done|].
  intros [->|Hin]%elem_of_cons; [|by apply IH].
  unfold token_text in Ht. destruct (tok_type u); done || by destruct Ht.
Qed.

(** Lengths of concatenations. *)
Ltac str_len := rewrite ?length_append in *; cbn [String.length] in *; lia.

(** ** Scanned characters are no newlines *)

Lemma not_newline_of (f : ascii -> bool) :
  f "010"%char = false -> forall c, f c = true -> not_newline c = true.
Proof.
  intros Hf c Hc. unfold not_newline. destruct (Ascii.eqb c "010") eqn:E; [|done].
  apply Ascii.eqb_eq in E as ->. by rewrite Hf in Hc.
Qed.

Lemma take_while_line f s : f "010"%char = false -> all_chars not_newline (take_while f s) = true.
Proof. intros Hf. eapply all_chars_impl; [exact (not_newline_of f Hf)|apply take_while_all]. Qed.

Section Spelling.
Context (sink : bool) (src : string).

(** Every error is reported when there is a sink. *)
Definition clean (st : LexerState) : bool := sink && negb (lx_had_error st).

(** [pre] is consumed, and accounted for by the tokens. *)
Record lexed (st : LexerState) (pre : string) : Prop := {
  lexed_src : src = (pre ++ lx_rest st)%string;
  lexed_where : lx_where st = locate start_where pre;
  lexed_spelled : spelled (clean st) pre (lx_out st);
  lexed_stop : lx_stop st = true -> full st = true /\ clean st = false
}.

Lemma clean_error st loc code : clean (lexer_report_parse_error sink loc code st) = false.
Proof. unfold clean. cbn. apply andb_false_r. Qed.

Lemma lexed_error st pre loc code :
  lexed st pre -> lexed (lexer_report_parse_error sink loc code st) pre.
Proof.
  intros [H1 H2 H3 H4]. constructor; [done|done| |].
  - rewrite clean_error. by eapply spelled_weaken; [|exact H3].
  - intros Hs. split; [by destruct (H4 Hs)|apply clean_error].
Qed.

Lemma rule_cases loc code st :
  lexer_report_rule sink loc code st = lexer_report_parse_error sink loc code st \/
  (sink = false /\ lexer_report_rule sink loc code st = st).
Proof. unfold lexer_report_rule. destruct sink; auto. Qed.

Lemma lexed_rule st pre loc code : lexed st pre -> lexed (lexer_report_rule sink loc code st) pre.
Proof. intros H. destruct (rule_cases loc code st) as [->|[_ ->]]; [by apply lexed_error|done]. Qed.

Lemma clean_rule st loc code : clean (lexer_report_rule sink loc code st) = false.
Proof.
  destruct (rule_cases loc code st) as [->|[E ->]]; [apply clean_error|]. unfold clean. by rewrite E.
Qed.

Lemma rule_same st loc code :
  lx_rest (lexer_report_rule sink loc code st) = lx_rest st /\
  lx_where (lexer_report_rule sink loc code st) = lx_where st /\
  lx_out (lexer_report_rule sink loc code st) = lx_out st.
Proof. by destruct (rule_cases loc code st) as [->|[_ ->]]. Qed.

Lemma rule_advance text r st loc code :
  lexer_report_rule sink loc code (advance text r st) = advance text r (lexer_report_rule sink loc code st).
Proof. unfold lexer_report_rule. by destruct sink. Qed.

(** Skipping a gap. *)
Lemma lexed_gap st pre g r :
  lexed st pre -> lx_rest st = (g ++ r)%string -> (clean st = true -> blank g) ->
  lexed (goto r (locate (lx_where st) g) st) (pre ++ g).
Proof.
  intros [H1 H2 H3 H4] Hr Hg. constructor.
  - cbn. by rewrite H1, Hr, append_assoc.
  - cbn. by rewrite H2, locate_app.
  - by apply spelled_gap.
  - done.
Qed.

(** Emitting the token with the text [text]. *)
Lemma lexed_emit st pre type text lexeme r :
  lexed st pre -> lx_rest st = (text ++ r)%string ->
  (forall num, token_text (mkTok type (loc_of (lx_where st)) (lexeme_of lexeme) num) text) ->
  lexed (emit_token sink type lexeme (loc_of (lx_where st)) (goto r (locate (lx_where st) text) st))
    (pre ++ text).
Proof.
  intros [H1 H2 H3 H4] Hr Ht. unfold emit_token.
  change (full (goto _ _ st)) with (full st).
  destruct (rule_same (goto r (locate (lx_where st) text) st) (loc_of (lx_where st))
    SOURCE_TOKEN_LIMIT_EXCEEDED) as (R1 & R2 & R3).
  destruct (full st) eqn:Ef.
  - constructor.
    + cbn [stop_lexing lx_rest]. rewrite R1. cbn. by rewrite H1, Hr, append_assoc.
    + cbn [stop_lexing lx_where]. rewrite R2. cbn. by rewrite H2, locate_app.
    + change (clean (stop_lexing ?s)) with (clean s). rewrite clean_rule.
      cbn [stop_lexing lx_out]. rewrite R3. apply spelled_gap; [done|]. by eapply spelled_weaken; [|exact H3].
    + intros _. change (clean (stop_lexing ?s)) with (clean s). rewrite clean_rule.
      split; [|done]. unfold full in *. cbn [stop_lexing lx_out]. rewrite R3. exact Ef.
  - constructor.
    + cbn. by rewrite H1, Hr, append_assoc.
    + cbn. by rewrite H2, locate_app.
    + cbn. apply spelled_tok; [done|by rewrite <- H2|]. apply Ht.
    + intros Hs. by destruct (H4 Hs).
Qed.

Lemma lexed_num st pre info : lexed st pre -> lexed (set_last_num info st) pre.
Proof.
  intros [H1 H2 H3 H4]. unfold set_last_num. destruct (lx_out st) as [|t out] eqn:Eo; [constructor; [done|done|by rewrite Eo|done]|].
  constructor; [done|done| |].
  - cbn. eapply spelled_text; [exact H3|done..].
  - intros Hs. specialize (H4 Hs). unfold full in *. rewrite Eo in H4. exact H4.
Qed.

Lemma plain_text type text loc num :
  is_string type = false -> is_eof type = false -> text <> EmptyString ->
  token_text (mkTok type loc (lexeme_of text) num) text.
Proof.
  intros H1 H2 H3. unfold token_text. cbn. rewrite H1. split_and!; [done..|]. by destruct text.
Qed.

(** [emit_token] where the lexer has advanced over the text. *)
Lemma lexed_token st pre type text r :
  lexed st pre -> lx_rest st = (text ++ r)%string -> all_chars not_newline text = true ->
  is_string type = false -> is_eof type = false -> text <> EmptyString ->
  lexed (emit_token sink type text (loc_of (lx_where st)) (advance text r st)) (pre ++ text).
Proof.
  intros Hl Hr Hn H1 H2 H3. rewrite advance_locate by done.
  apply lexed_emit; [done..|]. intros num. by apply plain_text.
Qed.

(** Advancing over text that is reported. *)
Lemma lexed_bad st pre text r :
  lexed st pre -> lx_rest st = (text ++ r)%string -> all_chars not_newline text = true ->
  clean st = false -> lexed (advance text r st) (pre ++ text).
Proof.
  intros Hl Hr Hn Hc. rewrite advance_locate by done. apply lexed_gap; [done..|].
  by rewrite Hc.
Qed.

Lemma lexed_numeric st pre text r :
  lexed st pre -> lx_rest st = (text ++ r)%string -> all_chars not_newline text = true ->
  text <> EmptyString ->
  lexed (emit_numeric sink text (loc_of (lx_where st)) (advance text r st)) (pre ++ text).
Proof.
  intros Hl Hr Hn Hne. unfold emit_numeric. destruct (parse_numeric_literal text) as [err|[info|]].
  - assert (forall st', lexed st' pre -> lx_rest st' = (text ++ r)%string -> clean st' = false ->
      lexed (advance text r st') (pre ++ text)) as H by (intros; by apply lexed_bad).
    unfold report_numeric.
    assert (forall code, lexed (lexer_report_rule sink (loc_of (lx_where st)) code (advance text r st)) (pre ++ text)) as Hrule.
    { intros code.
      rewrite rule_advance.
      apply H; [by apply lexed_rule| |apply clean_rule].
      by destruct (rule_same st (loc_of (lx_where st)) code) as (-> & _). }
    destruct err; [apply Hrule..|].
    apply (H (lexer_report_parse_error sink (loc_of (lx_where st)) LEX_NUMERIC st));
      [by apply lexed_error|done|apply clean_error].
  - apply lexed_num. by apply lexed_token.
  - by apply lexed_token.
Qed.

(** ** Blanks and comments *)

Lemma lexed_same st pre : lexed st pre -> lexed (goto (lx_rest st) (lx_where st) st) pre.
Proof. intros []. by constructor. Qed.

Lemma lexed_blanks g st pre r :
  all_chars is_blank g = true -> lexed st pre -> lx_rest st = (g ++ r)%string ->
  lexed (goto r (locate (lx_where st) g) st) (pre ++ g).
Proof.
  revert st pre. induction g as [|c g IH]; intros st pre Hg Hl Hr.
  - rewrite append_nil_r. rewrite append_empty in Hr. rewrite <- Hr. by apply lexed_same.
  - cbn [all_chars] in Hg. apply andb_true_iff in Hg as [Hc Hg].
    pose proof (lexed_gap st pre (String c EmptyString) (g ++ r) Hl Hr (fun _ => blank_char c Hc)) as H1.
    pose proof (IH _ _ Hg H1 eq_refl) as H2. rewrite append_assoc in H2. exact H2.
Qed.

(** The whole source is read; what no token accounts for is a loose end. *)
Definition ended (st : LexerState) : Prop :=
  exists pre tail, src = (pre ++ tail)%string /\ lx_rest st = EmptyString /\
    lx_where st = locate start_where src /\ spelled (clean st) pre (lx_out st) /\
    (lx_stop st = true -> full st = true /\ clean st = false) /\ loose_end tail.

Lemma lexed_ended st pre : lexed st pre -> lx_rest st = EmptyString -> ended st.
Proof.
  intros [H1 H2 H3 H4] Hr. rewrite Hr, append_nil_r in H1. subst pre.
  exists src, EmptyString. rewrite append_nil_r. split_and!; try done. by left.
Qed.

Lemma lexed_loose st pre g :
  lexed st pre -> lx_rest st = g -> loose_end g ->
  ended (goto EmptyString (locate (lx_where st) g) st).
Proof.
  intros [H1 H2 H3 H4] <- Hg. exists pre, (lx_rest st). split_and!; try done.
  cbn. by rewrite H2, <- locate_app, <- H1.
Qed.

Lemma lexed_in_token st pre : lexed st pre -> lexed (check_in_token sink st) pre.
Proof.
  intros H. unfold check_in_token. destruct (lx_last_end st) as [e|]; [|done].
  destruct (e =? wh_pos (lx_where st)); [by apply lexed_error|done].
Qed.

Lemma in_token_same st :
  lx_rest (check_in_token sink st) = lx_rest st /\ lx_where (check_in_token sink st) = lx_where st.
Proof. unfold check_in_token. destruct (lx_last_end st) as [e|]; [destruct (_ =? _)|]; done. Qed.

(** Reading on by a text that is accounted for. *)
Definition reads (st st' : LexerState) (pre : string) : Prop :=
  exists g, lx_rest st = (g ++ lx_rest st')%string /\ lexed st' (pre ++ g).

Lemma reads_step st st1 st' pre g :
  lx_rest st = (g ++ lx_rest st1)%string -> reads st1 st' (pre ++ g) -> reads st st' pre.
Proof.
  intros Hr (g' & H1 & H2). exists (g ++ g')%string. rewrite <- append_assoc. split; [|done].
  rewrite append_assoc. by rewrite <- H1.
Qed.

Lemma reads_refl st pre : lexed st pre -> reads st st pre.
Proof. intros H. exists EmptyString. by rewrite append_nil_r. Qed.

Lemma skip_trivia_empty fuel st : lx_rest st = EmptyString -> skip_trivia sink fuel st = (st, true).
Proof.
  intros Hr. destruct fuel as [|fuel]; [done|]. cbn [skip_trivia]. rewrite Hr. cbn [skip_spaces].
  destruct st. cbn in Hr. subst. done.
Qed.

Lemma moved_2 w : moved 1 (moved 1 w) = moved 2 w.
Proof. by rewrite moved_moved. Qed.

Lemma line_comment_lexed st pre r :
  lexed st pre -> lx_rest st = ("//" ++ r)%string ->
  let '(r', w') := skip_line_comment r (moved 2 (lx_where st)) in
  (reads st (goto r' w' st) pre \/ (r' = EmptyString /\ ended (goto r' w' st))) /\
  (String.length r' < String.length (lx_rest st))%nat.
Proof.
  intros Hl Hr. destruct (skip_line_comment_eq r (moved 2 (lx_where st)))
    as (b & Hok & [(r' & Hb & ->)|[<- ->]]); (split; [|rewrite Hr, ?Hb; str_len]).
  - left. exists ("//" ++ b ++ String "010" EmptyString)%string.
    assert (lx_rest st = ("//" ++ b ++ String "010" EmptyString) ++ r')%string as Ht
      by (by rewrite Hr, Hb, !append_assoc).
    split; [exact Ht|].
    pose proof (lexed_gap st pre _ r' Hl Ht (fun _ => blank_line b Hok)) as H.
    rewrite locate_app in H. cbn [locate] in H. rewrite <- moved_2. exact H.
  - right. split; [done|].
    pose proof (lexed_loose st pre _ Hl Hr ltac:(right; left; by exists r)) as H.
    rewrite locate_app in H. rewrite <- moved_2. exact H.
Qed.

Lemma block_comment_lexed st pre r loc :
  lexed st pre -> lx_rest st = ("/*" ++ r)%string ->
  let '(r', w', ok) := skip_block_comment r (moved 2 (lx_where st)) in
  (if ok : bool then reads st (goto r' w' st) pre
   else reads st (lexer_report_parse_error sink loc COMMENT_NESTED_BLOCK (goto r' w' st)) pre) /\
  (String.length r' < String.length (lx_rest st))%nat.
Proof.
  intros Hl Hr. pose proof (skip_block_comment_eq r (moved 2 (lx_where st))) as H.
  destruct (skip_block_comment r _) as [[r' w'] []].
  - destruct H as (b & Hok & Hb & Hw). split; [|rewrite Hr, Hb; str_len].
    assert (lx_rest st = ("/*" ++ b ++ "*/") ++ r')%string as Ht by (by rewrite Hr, Hb, !append_assoc).
    exists ("/*" ++ b ++ "*/")%string. split; [exact Ht|].
    pose proof (lexed_gap st pre _ r' Hl Ht (fun _ => blank_block b Hok)) as H.
    rewrite locate_app in H. rewrite Hw, <- moved_2. exact H.
  - destruct H as (t & Hb & Hw). split; [|rewrite Hr, Hb; str_len].
    assert (lx_rest st = ("/*" ++ t) ++ r')%string as Ht by (by rewrite Hr, Hb, !append_assoc).
    exists ("/*" ++ t)%string. split; [exact Ht|].
    set (st3 := lexer_report_parse_error sink loc COMMENT_NESTED_BLOCK st).
    pose proof (lexed_gap st3 pre _ r' (lexed_error _ _ _ _ Hl) Ht) as H.
    rewrite locate_app in H. rewrite Hw, <- moved_2. apply H. unfold st3. by rewrite clean_error.
Qed.

Lemma skip_trivia_lexed fuel st pre :
  lexed st pre ->
  let '(st', go) := skip_trivia sink fuel st in
  (reads st st' pre \/ (go = true /\ ended st')) /\
  (String.length (lx_rest st') + (if go then 0 else 1) <= String.length (lx_rest st))%nat.
Proof.
  revert st pre. induction fuel as [|fuel IH]; intros st pre Hl; cbn [skip_trivia].
  { split; [left; by apply reads_refl|lia]. }
  rewrite skip_spaces_eq.
  pose proof (take_while_all is_blank (lx_rest st)) as Hb.
  pose proof (take_drop_while is_blank (lx_rest st)) as Hs. symmetry in Hs.
  generalize dependent (drop_while is_blank (lx_rest st)). intros rest Hs.
  generalize dependent (take_while is_blank (lx_rest st)). intros g Hb Hs.
  pose proof (f_equal String.length Hs) as Hlen. rewrite length_append in Hlen.
  set (st1 := goto rest (locate (lx_where st) g) st) in *.
  assert (lexed st1 (pre ++ g)) as H1 by (by apply lexed_blanks).
  pose proof (lexed_in_token st1 _ H1) as H2. destruct (in_token_same st1) as (E1 & E2).
  set (st2 := check_in_token sink st1) in *.
  assert (forall st', reads st2 st' (pre ++ g) -> reads st st' pre) as Hback.
  { intros st' H. apply (reads_step st st1 st' pre g Hs). unfold reads in *. by rewrite E1 in H. }
  change (moved 2 (locate (lx_where st) g)) with (moved 2 (lx_where st1)). rewrite <- E2.
  change rest with (lx_rest st1) at 1 2.
  destruct (strip_prefix "//" (lx_rest st1)) as [r|] eqn:Er; [|destruct (strip_prefix "/*" (lx_rest st1)) as [r|] eqn:Er'].
  - apply strip_prefix_spec in Er. rewrite <- E1 in Er. pose proof (line_comment_lexed st2 _ r H2 Er) as H.
    destruct (skip_line_comment r _) as [r' w']. destruct H as [[(x & Hx & H)|[-> H]] Hlt]; rewrite E1 in Hlt.
    + specialize (IH _ _ H). destruct (skip_trivia sink fuel _) as [st' go]. cbn in IH, Hlt.
      destruct IH as [IH Hle]. split; [|lia]. destruct IH as [IH|IH]; [left|by right].
      apply Hback. by apply (reads_step st2 _ st' _ x Hx).
    + rewrite skip_trivia_empty by done. split; [by right|cbn; lia].
  - apply strip_prefix_spec in Er'. rewrite <- E1 in Er'.
    pose proof (block_comment_lexed st2 _ r (loc_of (locate (lx_where st) g)) H2 Er') as H.
    destruct (skip_block_comment r _) as [[r' w'] []]; destruct H as [H Hlt]; rewrite E1 in Hlt; cbn in Hlt.
    + destruct H as (x & Hx & H). specialize (IH _ _ H). destruct (skip_trivia sink fuel _) as [st' go]. cbn in IH.
      destruct IH as [IH Hle]. split; [|lia]. destruct IH as [IH|IH]; [left|by right].
      apply Hback. by apply (reads_step st2 _ st' _ x Hx).
    + split; [left; by apply Hback|cbn; lia].
  - split; [|cbn; lia]. left. exists g. split; [exact Hs|exact H1].
Qed.

(** Where a token starts: at no blank and no comment. *)
Definition token_start (s : string) : Prop :=
  match s with
  | EmptyString => True
  | String c _ => is_blank c = false /\ strip_prefix "//" s = None /\ strip_prefix "/*" s = None
  end.

Lemma drop_while_first f s c r : drop_while f s = String c r -> f c = false.
Proof.
  induction s as [|d s IH]; [done|]. cbn [drop_while]. destruct (f d) eqn:E; [done|]. by intros [= -> ->].
Qed.

(** One unit of fuel per character is enough: [skip_trivia] gets to a token or
    to the end. *)
Lemma skip_trivia_start fuel st :
  (String.length (lx_rest st) < fuel)%nat ->
  let '(st', go) := skip_trivia sink fuel st in go = true -> token_start (lx_rest st').
Proof.
  revert st. induction fuel as [|fuel IH]; intros st Hf; [lia|]. cbn [skip_trivia].
  rewrite skip_spaces_eq.
  pose proof (f_equal String.length (take_drop_while is_blank (lx_rest st))) as Hlen.
  rewrite length_append in Hlen. destruct (drop_while is_blank (lx_rest st)) as [|c r] eqn:Ed; [done|].
  apply drop_while_first in Ed.
  destruct (strip_prefix "//" (String c r)) as [t|] eqn:E1;
    [|destruct (strip_prefix "/*" (String c r)) as [t|] eqn:E2; [|done]].
  - apply strip_prefix_spec, (f_equal String.length) in E1.
    pose proof (skip_line_comment_eq t (moved 2 (locate (lx_where st) (take_while is_blank (lx_rest st))))) as H.
    destruct (skip_line_comment t _) as [r' w']. apply IH. cbn.
    destruct H as (b & _ & [(x & -> & [= -> ->])|[-> [= -> ->]]]); str_len.
  - apply strip_prefix_spec, (f_equal String.length) in E2.
    pose proof (skip_block_comment_eq t (moved 2 (locate (lx_where st) (take_while is_blank (lx_rest st))))) as H.
    destruct (skip_block_comment t _) as [[r' w'] []]; [|done]. apply IH. cbn.
    destruct H as (b & _ & -> & _). str_len.
Qed.

(** ** Tokens *)

Lemma emit_rest type lexeme loc st :
  lx_rest (emit_token sink type lexeme loc st) = lx_rest st.
Proof.
  unfold emit_token. destruct (full st); [|done].
  exact (proj1 (rule_same st loc SOURCE_TOKEN_LIMIT_EXCEEDED)).
Qed.

Lemma emit_numeric_rest text loc st : lx_rest (emit_numeric sink text loc st) = lx_rest st.
Proof.
  unfold emit_numeric, report_numeric, set_last_num.
  destruct (parse_numeric_literal text) as [err|[info|]].
  - destruct err; [apply rule_same..|done].
  - destruct (lx_out _); apply emit_rest.
  - apply emit_rest.
Qed.

(** One token, or its error, takes a text that is not empty; an unterminated
    string takes the rest of the source. *)
Definition takes (st st' : LexerState) (pre : string) : Prop :=
  (reads st st' pre \/ ended st') /\ (String.length (lx_rest st') < String.length (lx_rest st))%nat.

Lemma takes_text st st' pre text r :
  lx_rest st = (text ++ r)%string -> text <> EmptyString -> lx_rest st' = r ->
  lexed st' (pre ++ text) -> takes st st' pre.
Proof.
  intros Hr Hne Hr' Hl. split.
  - left. exists text. by rewrite Hr'.
  - rewrite Hr, Hr'. destruct text; [done|]. str_len.
Qed.

Lemma lex_string_takes c s st pre :
  lexed st pre -> lx_rest st = String c s -> c = "034"%char -> takes st (lex_string sink s st) pre.
Proof.
  intros Hl Hr ->. unfold lex_string.
  pose proof (string_body_eq s (moved 1 (lx_where st))) as H.
  destruct (string_body s _) as [[body w'] r]. destruct H as [Hb H].
  destruct r as [r|]; destruct H as [Hs Hw].
  - apply (takes_text st _ pre (quoted body) r); [|done|by rewrite emit_rest|].
    { unfold quoted. rewrite append_cons, append_assoc. by rewrite Hr, Hs. }
    replace w' with (locate (lx_where st) (quoted body)) by done.
    apply lexed_emit; [done|unfold quoted; rewrite append_cons, append_assoc; by rewrite Hr, Hs|].
    intros num. unfold token_text. cbn. by exists body.
  - subst body. split; [right|rewrite Hr; cbn; lia].
    replace w' with (locate (lx_where st) (String "034" s)) by done.
    apply (lexed_loose st pre); [done..|]. right; right. by exists s.
Qed.

Lemma word_line c : is_identifier_start c || Ascii.eqb c "@" = true -> not_newline c = true.
Proof.
  intros H. unfold not_newline. destruct (Ascii.eqb c "010") eqn:E; [|done].
  apply Ascii.eqb_eq in E as ->. done.
Qed.

(** The name that [lex_word] scans. *)
Lemma word_split c s name rest :
  is_identifier_start c || Ascii.eqb c "@" = true ->
  match config_width (String c (take_while is_identifier_char s)) (drop_while is_identifier_char s) with
  | Some p => p
  | None => (String c (take_while is_identifier_char s), drop_while is_identifier_char s)
  end = (name, rest) ->
  String c s = (name ++ rest)%string /\ all_chars not_newline name = true /\ name <> EmptyString.
Proof.
  intros Hc. pose proof (take_drop_while is_identifier_char s) as Hs.
  pose proof (take_while_line is_identifier_char s eq_refl) as Hn.
  generalize dependent (take_while is_identifier_char s). intros field1 Hs Hn.
  generalize dependent (drop_while is_identifier_char s). intros rest1 Hs.
  assert (String c s = (String c field1 ++ rest1)%string /\
    all_chars not_newline (String c field1) = true) as [H1 H2].
  { split; [by rewrite append_cons, Hs|]. cbn [all_chars]. by rewrite (word_line c Hc). }
  unfold config_width. destruct (strip_prefix "." rest1) as [r|] eqn:Er; [|by intros [= <- <-]].
  destruct (String.eqb (String c field1) "CONFIG" && _ && _); [|by intros [= <- <-]].
  intros [= <- <-]. apply strip_prefix_spec in Er. split_and!; [..|done].
  - rewrite H1, Er. rewrite !append_cons, !append_assoc, append_cons, take_drop_while. done.
  - rewrite append_cons. change (String c (field1 ++ ?t))%string with (String c field1 ++ t)%string.
    rewrite all_chars_app, H2. cbn [all_chars]. by rewrite take_while_line.
Qed.

Lemma keyword_plain lexeme t : match_keyword lexeme = Some t -> is_string t = false /\ is_eof t = false.
Proof.
  unfold match_keyword. intros H.
  assert (forallb (fun k => negb (is_string (snd k)) && negb (is_eof (snd k))) keywords = true) as Hall
    by reflexivity.
  destruct (List.find _ keywords) as [k|] eqn:Ef; [|done]. injection H as <-.
  apply List.find_some in Ef as [Hin _]. rewrite forallb_forall in Hall. specialize (Hall _ Hin).
  apply andb_true_iff in Hall as [?%negb_true_iff ?%negb_true_iff]. done.
Qed.

Lemma lex_word_takes c s st pre :
  lexed st pre -> lx_rest st = String c s -> is_identifier_start c || Ascii.eqb c "@" = true ->
  takes st (lex_word sink c s st) pre.
Proof.
  intros Hl Hr Hc. unfold lex_word. destruct (match config_width _ _ with Some p => p | None => _ end) as [name rest] eqn:En.
  apply word_split in En as (Hs & Hn & Hne); [|done]. rewrite Hs in Hr.
  destruct (strip_prefix "'" rest) as [r|] eqn:Et.
  - apply strip_prefix_spec in Et. subst rest.
    set (lex := (name ++ String "'" (take_while is_literal_char r))%string).
    assert (lx_rest st = lex ++ drop_while is_literal_char r)%string as Hr'
      by (unfold lex; rewrite append_assoc, append_cons, take_drop_while; done).
    assert (all_chars not_newline lex = true) as Hn'
      by (unfold lex; rewrite all_chars_app, Hn; cbn [all_chars]; by rewrite take_while_line).
    assert (lex <> EmptyString) as Hne' by (unfold lex; destruct name; done).
    apply (takes_text st _ pre lex (drop_while is_literal_char r)); [done|done|by rewrite emit_numeric_rest|].
    by apply lexed_numeric.
  - apply (takes_text st _ pre name rest); [done|done|by rewrite emit_rest|].
    destruct (match_keyword name) as [t|] eqn:Ek.
    + apply keyword_plain in Ek as [H1 H2]. by apply lexed_token.
    + by apply lexed_token.
Qed.

Lemma digit_line c : isdigit c = true -> not_newline c = true.
Proof.
  intros H. unfold not_newline. destruct (Ascii.eqb c "010") eqn:E; [|done].
  apply Ascii.eqb_eq in E as ->. done.
Qed.

Lemma lex_number_takes c s st pre :
  lexed st pre -> lx_rest st = String c s -> isdigit c = true -> takes st (lex_number sink c s st) pre.
Proof.
  intros Hl Hr Hc. unfold lex_number.
  pose proof (take_drop_while is_literal_char s) as Hs.
  pose proof (take_while_line is_literal_char s eq_refl) as Hn.
  generalize dependent (take_while is_literal_char s). intros run Hs Hn.
  generalize dependent (drop_while is_literal_char s). intros rest Hs.
  rewrite <- Hs in Hr.
  assert (all_chars not_newline (String c run) = true) as Hn'
    by (cbn [all_chars]; by rewrite (digit_line c Hc)).
  assert (takes st (emit_numeric sink (String c run) (loc_of (lx_where st)) (advance (String c run) rest st)) pre)
    as Hplain.
  { apply (takes_text st _ pre (String c run) rest); [done|done|by rewrite emit_numeric_rest|].
    by apply lexed_numeric. }
  destruct rest as [|dot [|d r]]; [done|done|].
  destruct (Ascii.eqb dot "." && isdigit d && _) eqn:E; [|done].
  apply andb_true_iff in E as [E _]. apply andb_true_iff in E as [E _]. apply Ascii.eqb_eq in E as ->.
  set (lex := (String c run ++ String "." (take_while isdigit (String d r)))%string).
  assert (lx_rest st = lex ++ drop_while isdigit (String d r))%string as Hr'.
  { unfold lex. rewrite append_assoc, append_cons. change (String "." ?x ++ ?y)%string with (String "." (x ++ y)).
    by rewrite take_drop_while. }
  assert (all_chars not_newline lex = true) as Hnl.
  { unfold lex. rewrite all_chars_app, Hn'. cbn [all_chars].
    by rewrite (take_while_line isdigit (String d r)). }
  apply (takes_text st _ pre lex (drop_while isdigit (String d r))); [done|done|by rewrite emit_rest|].
  by apply lexed_token.
Qed.

Lemma ends_word_starts p s : ends_word p s = true -> starts_with p s = true.
Proof. unfold ends_word, starts_with. by destruct (strip_prefix p s). Qed.

Lemma starts_cons c p s : starts_with (String c p) (String c s) = starts_with p s.
Proof. unfold starts_with. cbn [strip_prefix]. by rewrite Ascii.eqb_refl. Qed.

Lemma starts_one c s : starts_with (String c EmptyString) (String c s) = true.
Proof. by rewrite starts_cons. Qed.

(** An operator's text stands in the source. *)
Lemma operator_spec c s t lex :
  operator c s = Some (t, lex) ->
  starts_with lex (String c s) = true /\ is_string t = false /\ is_eof t = false /\
  all_chars not_newline lex = true /\ lex <> EmptyString.
Proof.
  assert (forall d x, starts_with (String d EmptyString) (String d x) = true) as H1 by apply starts_one.
  unfold operator.
  repeat match goal with
  | |- (if Ascii.eqb c ?d then _ else _) = _ -> _ =>
      let E := fresh in destruct (Ascii.eqb c d) eqn:E; [apply Ascii.eqb_eq in E; subst c|clear E]
  | |- (if starts_with ?p s then _ else _) = _ -> _ => destruct (starts_with p s) eqn:?
  | |- (if ends_word ?p s then _ else _) = _ -> _ =>
      let E := fresh in destruct (ends_word p s) eqn:E; [apply ends_word_starts in E|clear E]
  | |- Some _ = Some _ -> _ =>
      intros [= <- <-]; split_and!; [rewrite ?starts_cons; (done || apply H1)|done..]
  end.
  intros H. destruct (List.find _ punctuation) as [p|] eqn:Ef; [|done]. injection H as <- <-.
  apply List.find_some in Ef as [Hin Hc]. apply Ascii.eqb_eq in Hc as ->.
  assert (forallb (fun p => negb (is_string (snd p)) && negb (is_eof (snd p)) && not_newline (fst p)) punctuation = true)
    as Hall by reflexivity.
  rewrite forallb_forall in Hall. specialize (Hall _ Hin). apply andb_true_iff in Hall as [Hall H3].
  apply andb_true_iff in Hall as [?%negb_true_iff ?%negb_true_iff].
  split_and!; [apply H1|done|done|cbn; by rewrite H3|done].
Qed.

Lemma lex_operator_takes c s st pre :
  lexed st pre -> lx_rest st = String c s -> c <> "010"%char -> takes st (lex_operator sink c s st) pre.
Proof.
  intros Hl Hr Hc. unfold lex_operator. destruct (operator c s) as [[t lex]|] eqn:Eo.
  - apply operator_spec in Eo as (H1 & H2 & H3 & H4 & H5).
    unfold starts_with in H1. destruct (strip_prefix lex (String c s)) as [r|] eqn:Er; [|done].
    apply strip_prefix_spec in Er. rewrite Er in Hr.
    apply (takes_text st _ pre lex r); [done|done|by rewrite emit_rest|]. by apply lexed_token.
  - assert (all_chars not_newline (String c EmptyString) = true) as Hn.
    { cbn. unfold not_newline. by destruct (Ascii.eqb_spec c "010"). }
    apply (takes_text st _ pre (String c EmptyString) s); [done|done|by rewrite emit_rest|].
    set (st' := lexer_report_parse_error sink (loc_of (lx_where st)) ID_SYNTAX_INVALID st).
    change (loc_of (lx_where st)) with (loc_of (lx_where st')).
    apply lexed_token; [by apply lexed_error|done..].
Qed.

Lemma lex_at_takes c s st pre :
  lexed st pre -> lx_rest st = String c s -> c <> "010"%char -> takes st (lex_at sink c s st) pre.
Proof.
  intros Hl Hr Hc. unfold lex_at.
  destruct (Ascii.eqb c "034") eqn:E1; [apply Ascii.eqb_eq in E1; by apply (lex_string_takes c)|].
  destruct (is_identifier_start c || Ascii.eqb c "@") eqn:E2; [by apply lex_word_takes|].
  destruct (Ascii.eqb c "'") eqn:E3; [|destruct (isdigit c) eqn:E4; [by apply lex_number_takes|by apply lex_operator_takes]].
  apply Ascii.eqb_eq in E3 as ->.
  set (st' := lexer_report_rule sink (loc_of (lx_where st)) LIT_UNSIZED st).
  destruct (rule_same st (loc_of (lx_where st)) LIT_UNSIZED) as (R1 & _). fold st' in R1.
  apply (takes_text st _ pre "'" s); [done..|].
  apply lexed_bad; [by apply lexed_rule|by rewrite R1, Hr|done|apply clean_rule].
Qed.

(** ** The loop *)

(** The end of file, where the source ends. *)
Definition eof_token : JZToken := mkTok JZ_TOK_EOF (loc_of (locate start_where src)) None no_numeric.

Lemma spelled_not_eof st strict pre : spelled strict pre (lx_out st) -> at_eof st = false.
Proof.
  intros H. unfold at_eof. destruct (lx_out st) as [|t out] eqn:E; [done|].
  apply (spelled_no_eof strict pre (t :: out)); [done|]. by left.
Qed.

(** The end of file has been emitted, or the stream is full, which is an
    error when there is a sink. *)
Definition finished (st : LexerState) : Prop :=
  (exists pre tail out, src = (pre ++ tail)%string /\ lx_out st = eof_token :: out /\
    spelled (clean st) pre out /\ loose_end tail) \/
  (exists pre tail, src = (pre ++ tail)%string /\ spelled false pre (lx_out st) /\
    full st = true /\ clean st = false).

Lemma stopped_finished st pre tail :
  src = (pre ++ tail)%string -> spelled (clean st) pre (lx_out st) ->
  full st = true -> clean st = false -> finished st.
Proof. intros H1 H2 H3 H4. right. exists pre, tail. rewrite H4 in H2. done. Qed.

Lemma emit_eof st :
  ended st ->
  let st' := emit_token sink JZ_TOK_EOF EmptyString (loc_of (lx_where st)) st in
  finished st' /\ lx_stop st' || at_eof st' = true.
Proof.
  intros (pre & tail & H1 & H2 & H3 & H4 & H5 & H6). unfold emit_token. destruct (full st) eqn:Ef.
  - split; [|done]. set (st' := lexer_report_rule sink (loc_of (lx_where st)) SOURCE_TOKEN_LIMIT_EXCEEDED st).
    destruct (rule_same st (loc_of (lx_where st)) SOURCE_TOKEN_LIMIT_EXCEEDED) as (_ & _ & R3).
    fold st' in R3. assert (clean st' = false) as Hc by apply clean_rule.
    apply (stopped_finished _ pre tail); [done| | |exact Hc].
    + change (clean (stop_lexing st')) with (clean st'). rewrite Hc. cbn [stop_lexing lx_out]. rewrite R3.
      by eapply spelled_weaken; [|exact H4].
    + unfold full. cbn [stop_lexing lx_out]. rewrite R3. exact Ef.
  - split; [|cbn; by rewrite orb_true_r]. left. exists pre, tail, (lx_out st).
    split_and!; [done|cbn; by rewrite H3|exact H4|done].
Qed.

(** A state between two tokens. *)
Definition between (st : LexerState) : Prop := (exists pre, lexed st pre) \/ ended st.

Lemma between_stop st : between st -> lx_stop st = true -> finished st.
Proof.
  intros [[pre [H1 H2 H3 H4]]|(pre & tail & H1 & H2 & H3 & H4 & H5 & H6)] Hs.
  - destruct (H4 Hs). by apply (stopped_finished st pre (lx_rest st)).
  - destruct (H5 Hs). by apply (stopped_finished st pre tail).
Qed.

Lemma between_not_eof st : between st -> at_eof st = false.
Proof.
  intros [[pre [_ _ H _]]|(pre & tail & _ & _ & _ & H & _)]; by eapply spelled_not_eof.
Qed.

Lemma reads_between st st' pre : reads st st' pre -> between st'.
Proof. intros (g & _ & H). left. by eexists. Qed.

Lemma lex_one_token_spec st :
  between st -> lx_stop st = false ->
  let st' := lex_one_token sink st in
  (finished st' /\ lx_stop st' || at_eof st' = true) \/
  (between st' /\ (String.length (lx_rest st') < String.length (lx_rest st))%nat).
Proof.
  intros Hb Hs. unfold lex_one_token. rewrite Hs.
  destruct Hb as [[pre Hl]|He].
  2: { assert (lx_rest st = EmptyString) as Hr by (by destruct He as (? & ? & _ & ? & _)).
    rewrite skip_trivia_empty, Hr by done. left. by apply emit_eof. }
  pose proof (skip_trivia_lexed (S (String.length (lx_rest st))) st pre Hl) as H1.
  pose proof (skip_trivia_start (S (String.length (lx_rest st))) st ltac:(lia)) as H2.
  destruct (skip_trivia sink _ st) as [st1 go]. destruct H1 as (I3 & I4).
  destruct go; [|right; destruct I3 as [I3|[? _]]; [|done]; split; [by apply (reads_between st st1 pre)|lia]].
  specialize (H2 eq_refl). destruct (lx_rest st1) as [|c s] eqn:Er.
  - left. apply emit_eof. destruct I3 as [(g & _ & I3)|[_ I3]]; [|done].
    by apply (lexed_ended st1 (pre ++ g)).
  - right. destruct I3 as [(g & _ & I3)|[_ (? & ? & _ & E & _)]]; [|congruence].
    destruct (lex_at_takes c s st1 (pre ++ g) I3 Er) as [Ht Hlen].
    { intros ->. by destruct H2. }
    split; [|rewrite Er in Hlen; lia]. destruct Ht as [Ht|Ht]; [by apply (reads_between st1 _ (pre ++ g))|by right].
Qed.

Lemma lex_loop_spec fuel st :
  between st -> lx_stop st = false -> (String.length (lx_rest st) < fuel)%nat ->
  exists st', lex_loop sink fuel st = Some st' /\ finished st'.
Proof.
  revert st. induction fuel as [|fuel IH]; intros st Hb Hs Hf; [lia|]. cbn [lex_loop].
  destruct (lex_one_token_spec st Hb Hs) as [[Hfin ->]|[Hb' Hlen]]; [by eexists|].
  set (st' := lex_one_token sink st) in *. destruct (lx_stop st') eqn:Es.
  - exists st'. split; [done|by apply between_stop].
  - rewrite (between_not_eof st' Hb'). cbn [orb]. apply IH; [done|done|lia].
Qed.
End Spelling.

(** C15: lexing terminates on every source, and the tokens spell it: they stand
    in the source in their order and at their recorded lines and columns, each
    with the text that its lexeme says, up to the end-of-file token at the end
    of the source; and when the lexer has a sink for diagnostics and reports
    success, all else is blanks, comments, or at the very end a line comment or
    a string that is not closed.  Otherwise the stream is full, which is an
    error when there is a sink. *)
Theorem lex_spells sink source :
  exists r pre tail, jz_lex_source sink source = Some r /\ source = (pre ++ tail)%string /\
  ((exists tokens, lr_tokens r = tokens ++ [eof_token source] /\ loose_end tail /\
      spelled (sink && (lr_status r =? 0)) pre (rev tokens)) \/
   (spelled false pre (rev (lr_tokens r)) /\ JZ_MAX_SOURCE_TOKENS <= Z.of_nat (length (lr_tokens r)) /\
    (sink = true -> lr_status r = -1))).
Proof.
  unfold jz_lex_source. set (start := mkLexer source start_where [] [] false false None).
  assert (lexed sink source start EmptyString) as Hstart by (constructor; [done..|constructor|done]).
  destruct (lex_loop_spec sink source (S (String.length source)) start) as (st & -> & Hfin);
    [left; by eexists|done|cbn; lia|].
  assert (forall st, clean sink st = sink && ((if lx_had_error st then -1 else 0) =? 0)) as Hc
    by (intros st'; unfold clean; by destruct (lx_had_error st')).
  destruct Hfin as [(pre & tail & out & H1 & H2 & H3 & H4)|(pre & tail & H1 & H2 & H3 & H4)].
  - assert (at_eof st = true) as -> by (unfold at_eof; by rewrite H2). cbn [negb andb].
    eexists _, pre, tail. split_and!; [done|done|]. left. exists (rev out). cbn.
    rewrite H2, rev_involutive, <- Hc. done.
  - rewrite H3. rewrite andb_false_r. eexists _, pre, tail. split_and!; [done|done|]. right. cbn.
    rewrite rev_involutive, length_rev. split_and!; [done|unfold full in H3; lia|].
    intros ->. unfold clean in H4. by destruct (lx_had_error st).
Qed.
