(* ===== verification/LexRound.v ===== *)
(** * The lexer reads back what is written

    Words, numbers, sized literals, strings and operators, separated by blanks
    and comments, are lexed to themselves. *)

From S2P Require Import Prelude CString Digits Ast SimArith SimBits Literal LitSpec Lexer LexPos LexSpec.

Local Open Scope Z_scope.

(** ** Tokens as written *)

(** The texts of operators and punctuation. *)
Definition operators : list (JZTokenType * string) :=
  [ (JZ_TOK_LBRACE, "{"); (JZ_TOK_RBRACE, "}"); (JZ_TOK_LPAREN, "("); (JZ_TOK_RPAREN, ")");
    (JZ_TOK_LBRACKET, "["); (JZ_TOK_RBRACKET, "]"); (JZ_TOK_SEMICOLON, ";"); (JZ_TOK_COMMA, ",");
    (JZ_TOK_DOT, "."); (JZ_TOK_OP_ASSIGN, "="); (JZ_TOK_OP_ASSIGN_Z, "=z");
    (JZ_TOK_OP_ASSIGN_S, "=s"); (JZ_TOK_OP_DRIVE, "=>"); (JZ_TOK_OP_DRIVE_Z, "=>z");
    (JZ_TOK_OP_DRIVE_S, "=>s"); (JZ_TOK_OP_LE_Z, "<=z"); (JZ_TOK_OP_LE_S, "<=s");
    (JZ_TOK_OP_PLUS, "+"); (JZ_TOK_OP_MINUS, "-"); (JZ_TOK_OP_STAR, "*"); (JZ_TOK_OP_SLASH, "/");
    (JZ_TOK_OP_PERCENT, "%"); (JZ_TOK_OP_AMP, "&"); (JZ_TOK_OP_PIPE, "|"); (JZ_TOK_OP_CARET, "^");
    (JZ_TOK_OP_TILDE, "~"); (JZ_TOK_OP_BANG, "!"); (JZ_TOK_OP_AND_AND, "&&");
    (JZ_TOK_OP_OR_OR, "||"); (JZ_TOK_OP_EQ, "=="); (JZ_TOK_OP_NEQ, "!="); (JZ_TOK_OP_LT, "<");
    (JZ_TOK_OP_LE, "<="); (JZ_TOK_OP_GT, ">"); (JZ_TOK_OP_GE, ">="); (JZ_TOK_OP_SHL, "<<");
    (JZ_TOK_OP_SHR, ">>"); (JZ_TOK_OP_ASHR, ">>>"); (JZ_TOK_OP_QUESTION, "?");
    (JZ_TOK_OP_COLON, ":"); (JZ_TOK_OTHER, "#") ].

(** An identifier, a keyword or a directive. *)
Definition is_word (s : string) : bool :=
  match s with
  | String c s' => (is_identifier_start c || Ascii.eqb c "@") && all_chars is_identifier_char s'
  | EmptyString => false
  end.

(** What may stand for the width of a literal, and a plain number. *)
Definition is_numeral (s : string) : bool :=
  match s with
  | String c s' => isdigit c && all_chars is_identifier_char s'
  | EmptyString => false
  end.

Inductive Item :=
  | Word (name : string)
  | Number (text : string)
  | Sized (width : string) (base : ascii) (value : string)
  | Quoted (body : string)
  | Operator (type : JZTokenType) (text : string).

Definition sized_text (width : string) (base : ascii) (value : string) : string :=
  (width ++ String "'" (String base value))%string.

(** The text of an item, and its token: type, lexeme and numeric information. *)
Definition item_text (i : Item) : string :=
  match i with
  | Word s | Number s | Operator _ s => s
  | Sized w b v => sized_text w b v
  | Quoted body => quoted body
  end.

Definition item_token (i : Item) : JZTokenType * option string * JZNumericInfo :=
  match i with
  | Word s => (match match_keyword s with Some t => t | None => JZ_TOK_IDENTIFIER end, Some s, no_numeric)
  | Number s => (JZ_TOK_NUMBER, Some s, no_numeric)
  | Sized w b v => (JZ_TOK_SIZED_NUMBER, Some (sized_text w b v), mkNumeric true (base_of b) (String.length w))
  | Quoted body => (JZ_TOK_STRING, lexeme_of (decode_escapes body), no_numeric)
  | Operator t s => (t, Some s, no_numeric)
  end.

(** The digits of a base, without underscores at the edges. *)
Definition value_ok (base : JZNumericBase) (value : string) : bool :=
  negb (is_empty_string value) && negb (starts_with "_" value || ends_with "_" value)
  && match value_error base value with None => true | Some _ => false end.

Definition item_ok (i : Item) : Prop :=
  match i with
  | Word s => is_word s = true
  | Number s => is_numeral s = true
  | Sized w b v =>
      (is_word w || is_numeral w) = true /\ base_of b <> JZ_NUM_BASE_NONE /\ value_ok (base_of b) v = true
  | Quoted body => all_chars not_quote body = true
  | Operator t s => In (t, s) operators
  end.

(** Blanks and comments in a row; before a token one that is no comment. *)
Inductive blanks : string -> Prop :=
  | blanks_nil : blanks EmptyString
  | blanks_cons g s : blank g -> blanks s -> blanks (g ++ s).

Definition separator (s : string) : Prop :=
  exists c s', s = String c s' /\ is_blank c = true /\ blanks s'.

(** The items with the separators after them, and the tokens they should
    become. *)
Fixpoint written (items : list (Item * string)) : string :=
  match items with
  | [] => EmptyString
  | (i, sep) :: items' => (item_text i ++ sep ++ written items')%string
  end.

Fixpoint tokens_of (w : Where) (items : list (Item * string)) : list JZToken :=
  match items with
  | [] => [mkTok JZ_TOK_EOF (loc_of w) None no_numeric]
  | (i, sep) :: items' =>
      let '(type, lexeme, num) := item_token i in
      mkTok type (loc_of w) lexeme num :: tokens_of (locate w (item_text i ++ sep)) items'
  end.

(** ** Characters *)

Lemma blank_cases c (P : ascii -> Prop) :
  P " "%char -> P "009"%char -> P "013"%char -> P "010"%char -> is_blank c = true -> P c.
Proof.
  intros H1 H2 H3 H4 H. unfold is_blank in H. rewrite !orb_true_iff in H.
  destruct H as [[[H|H]|H]|H]; apply Ascii.eqb_eq in H as ->; done.
Qed.

(** The source is at its end or at a blank. *)
Definition boundary (r : string) : Prop :=
  match r with EmptyString => True | String c _ => is_blank c = true end.

(** [f] holds of no character at the front. *)
Definition stops (f : ascii -> bool) (r : string) : Prop :=
  match r with EmptyString => True | String c _ => f c = false end.

Lemma boundary_stops f r :
  forallb (fun c => negb (f c)) [" "; "009"; "013"; "010"]%char = true -> boundary r -> stops f r.
Proof.
  intros Hf Hr. destruct r as [|c r]; [done|]. cbn [stops boundary] in *. cbn in Hf.
  rewrite !andb_true_iff, !negb_true_iff in Hf. destruct Hf as (H1 & H2 & H3 & H4 & _).
  revert Hr. by apply (blank_cases c (fun c => f c = false)).
Qed.

Lemma boundary_prefix d p r :
  is_blank d = false -> boundary r -> strip_prefix (String d p) r = None.
Proof.
  intros Hd Hr. destruct r as [|c r]; [done|]. cbn [strip_prefix]. cbn in Hr.
  destruct (Ascii.eqb d c) eqn:E; [|done]. apply Ascii.eqb_eq in E as ->. by rewrite Hr in Hd.
Qed.

Lemma while_app f t r :
  all_chars f t = true -> stops f r ->
  take_while f (t ++ r) = t /\ drop_while f (t ++ r) = r.
Proof.
  unfold take_while. intros Ht Hr. induction t as [|c t IH].
  - rewrite append_empty. destruct r as [|c r]; [done|]. cbn in Hr. cbn. by rewrite Hr.
  - cbn [all_chars] in Ht. apply andb_true_iff in Ht as [Hc Ht]. rewrite append_cons.
    cbn [before drop_while]. rewrite Hc. cbn [negb]. destruct (IH Ht) as [-> ->]. done.
Qed.

Definition not_tick (c : ascii) : bool := negb (Ascii.eqb c "'").

Lemma split_at_tick s r : all_chars not_tick s = true -> split_at "'" (s ++ String "'" r) = Some (s, r).
Proof.
  unfold split_at. induction s as [|c s IH]; intros Hs; [done|].
  cbn [all_chars] in Hs. apply andb_true_iff in Hs as [Hc Hs]. specialize (IH Hs).
  rewrite append_cons. cbn [after before]. unfold not_tick in Hc. apply negb_true_iff in Hc.
  rewrite Ascii.eqb_sym, Hc. destruct (after _ (s ++ _)); [|done]. cbn in *. by injection IH as -> ->.
Qed.

Lemma split_at_none s : all_chars not_tick s = true -> split_at "'" s = None.
Proof.
  unfold split_at. induction s as [|c s IH]; intros Hs; [done|].
  cbn [all_chars] in Hs. apply andb_true_iff in Hs as [Hc Hs]. specialize (IH Hs).
  cbn [after before]. unfold not_tick in Hc. apply negb_true_iff in Hc.
  rewrite Ascii.eqb_sym, Hc. destruct (after _ s); done.
Qed.

(** Classes of characters, each with a character it excludes. *)
Lemma ident_literal c : is_identifier_char c = true -> is_literal_char c = true.
Proof. unfold is_identifier_char, is_literal_char. destruct (isalnum c), (Ascii.eqb c "'"), (Ascii.eqb c "_"); done. Qed.

Lemma excludes (f : ascii -> bool) d : f d = false -> forall c, f c = true -> negb (Ascii.eqb c d) = true.
Proof.
  intros Hf c Hc. destruct (Ascii.eqb c d) eqn:E; [|done]. apply Ascii.eqb_eq in E as ->. by rewrite Hf in Hc.
Qed.

Lemma ident_not_tick c : is_identifier_char c = true -> not_tick c = true.
Proof. exact (excludes is_identifier_char "'" eq_refl c). Qed.

(** What a word and a numeral have in common. *)
Lemma word_spec s : is_word s = true ->
  exists c t, s = String c t /\ is_identifier_start c || Ascii.eqb c "@" = true /\
    all_chars is_identifier_char t = true /\ all_chars not_tick s = true /\ all_chars not_newline s = true.
Proof.
  destruct s as [|c t]; [done|]. cbn [is_word]. rewrite andb_true_iff. intros [Hc Ht].
  exists c, t. split_and!; [done..| |]; cbn [all_chars].
  - rewrite (all_chars_impl _ _ _ ident_not_tick Ht), andb_true_r.
    exact (excludes (fun c => is_identifier_start c || Ascii.eqb c "@") "'" eq_refl c Hc).
  - rewrite (word_line c Hc). cbn [andb].
    exact (all_chars_impl _ _ _ (not_newline_of is_identifier_char eq_refl) Ht).
Qed.

Lemma numeral_spec s : is_numeral s = true ->
  exists c t, s = String c t /\ isdigit c = true /\
    all_chars is_identifier_char t = true /\ all_chars not_tick s = true /\ all_chars not_newline s = true.
Proof.
  destruct s as [|c t]; [done|]. cbn [is_numeral]. rewrite andb_true_iff. intros [Hc Ht].
  exists c, t. split_and!; [done..| |]; cbn [all_chars].
  - rewrite (all_chars_impl _ _ _ ident_not_tick Ht), andb_true_r.
    exact (excludes isdigit "'" eq_refl c Hc).
  - rewrite (digit_line c Hc). cbn [andb].
    exact (all_chars_impl _ _ _ (not_newline_of is_identifier_char eq_refl) Ht).
Qed.

Lemma letter_alnum a c :
  isalnum a = true -> in_codes 97 122 a = true -> is_letter a c = true -> isalnum c = true.
Proof.
  unfold is_letter, isalnum, isalpha, isdigit, in_codes. lia.
Qed.

Lemma base_literal b : base_of b <> JZ_NUM_BASE_NONE -> is_literal_char b = true.
Proof.
  unfold base_of, is_literal_char. intros H.
  assert (isalnum b = true) as ->; [|done].
  destruct (is_letter "b" b) eqn:E1; [by apply (letter_alnum "b")|].
  destruct (is_letter "d" b) eqn:E2; [by apply (letter_alnum "d")|].
  destruct (is_letter "h" b) eqn:E3; [by apply (letter_alnum "h")|done].
Qed.

Lemma digit_literal base c : digit_error base c = None -> is_literal_char c = true.
Proof.
  intros H. unfold is_literal_char. enough (isalnum c = true) as -> by done.
  unfold digit_error, isalnum, isalpha, isdigit, in_codes, is_letter in *.
  change (code "x") with 120 in H. change (code "z") with 122 in H.
  destruct base; [done|..].
  - destruct (Ascii.eqb c "0") eqn:E0; [apply Ascii.eqb_eq in E0 as ->; done|].
    destruct (Ascii.eqb c "1") eqn:E1; [apply Ascii.eqb_eq in E1 as ->; done|].
    cbn [orb] in H. destruct (_ || _) eqn:E in H; [lia|done].
  - destruct (_ || _) eqn:E in H; [done|]. destruct (_ && _) eqn:E' in H; [lia|done].
  - destruct (_ || _) eqn:E in H; [lia|done].
Qed.

Lemma value_literal base v : value_error base v = None -> all_chars is_literal_char v = true.
Proof.
  induction v as [|c v IH]; [done|]. cbn [value_error all_chars]. intros H.
  destruct (Ascii.eqb c "_") eqn:E.
  - apply Ascii.eqb_eq in E as ->. by rewrite IH.
  - destruct (digit_error base c) eqn:Ed; [done|]. by rewrite (digit_literal base c Ed), IH.
Qed.

(** ** Blanks and comments *)

Lemma line_comment_read b r w :
  all_chars not_newline b = true ->
  skip_line_comment (b ++ String "010" r) w = (r, locate w (b ++ String "010" EmptyString)).
Proof.
  revert w. induction b as [|c b IH]; intros w Hb; [done|].
  cbn [all_chars] in Hb. apply andb_true_iff in Hb as [Hc Hb]. unfold not_newline in Hc.
  apply negb_true_iff in Hc. rewrite !append_cons. cbn [skip_line_comment locate]. unfold step.
  rewrite Hc. by apply IH.
Qed.

Lemma block_comment_read b r w :
  plain_comment (b ++ "*") = true ->
  skip_block_comment (b ++ "*/" ++ r) w = (r, locate w (b ++ "*/"), true).
Proof.
  revert w. induction b as [|c b IH]; intros w Hb; [done|].
  rewrite append_cons in Hb. cbn [plain_comment] in Hb. rewrite !andb_true_iff, !negb_true_iff in Hb.
  destruct Hb as [[H1 H2] Hb]. rewrite (append_cons c b ("*/" ++ r)), (append_cons c b "*/"). cbn [skip_block_comment locate].
  assert (forall d, starts_with (String d EmptyString) (b ++ "*/" ++ r) =
    starts_with (String d EmptyString) (b ++ "*")) as Es.
  { intros d. destruct b as [|a b]; rewrite ?append_cons, ?append_empty;
      unfold starts_with; cbn [strip_prefix]; by destruct (Ascii.eqb d _). }
  rewrite Es, H1. specialize (IH (step c w) Hb). destruct (Ascii.eqb c "*"); [|exact IH].
  cbn [andb] in H2. rewrite <- Es in H2.
  destruct (b ++ "*/" ++ r)%string as [|d x] eqn:E; [by destruct b|].
  unfold starts_with in H2. cbn [strip_prefix] in H2. cbv beta iota. rewrite (Ascii.eqb_sym d).
  destruct (Ascii.eqb "/" d); [done|exact IH].
Qed.

Section Reading.
Context (sink : bool).

(** No token ends right here. *)
Definition fresh (st : LexerState) : Prop :=
  forall e, lx_last_end st = Some e -> e < wh_pos (lx_where st).

Lemma fresh_in_token st : fresh st -> check_in_token sink st = st.
Proof.
  unfold fresh, check_in_token. intros H. destruct (lx_last_end st) as [e|]; [|done].
  specialize (H e eq_refl). destruct (Z.eqb_spec e (wh_pos (lx_where st))); [lia|done].
Qed.

Lemma fresh_goto st r s : fresh st -> fresh (goto r (locate (lx_where st) s) st).
Proof. unfold fresh. intros H e He. specialize (H e He). cbn. rewrite locate_pos. lia. Qed.

Lemma trivia_char fuel st c x :
  is_blank c = true -> lx_rest st = String c x ->
  skip_trivia sink (S fuel) st = skip_trivia sink (S fuel) (goto x (step c (lx_where st)) st).
Proof.
  intros Hc Hr. cbn [skip_trivia]. rewrite Hr. rewrite !skip_spaces_eq. cbn [lx_rest lx_where goto].
  cbn [drop_while]. unfold take_while. cbn [before]. rewrite Hc. cbn [negb locate]. done.
Qed.

Lemma trivia_blanks g st r fuel :
  blanks g -> token_start r -> fresh st -> lx_rest st = (g ++ r)%string ->
  (String.length (lx_rest st) < fuel)%nat ->
  skip_trivia sink fuel st = (goto r (locate (lx_where st) g) st, true).
Proof.
  intros Hg Hr. revert st fuel. induction Hg as [|p g Hp Hg IH]; intros st fuel Hf Hs Hlen.
  - destruct fuel as [|fuel]; [lia|]. cbn [skip_trivia]. rewrite append_empty in Hs.
    rewrite skip_spaces_eq, Hs. unfold take_while. destruct r as [|c r]; [done|].
    destruct Hr as (H1 & H2 & H3). cbn [drop_while before]. rewrite H1. cbn [negb locate].
    by rewrite H2, H3.
  - destruct fuel as [|fuel]; [lia|]. destruct Hp as [c Hc|b Hb|b Hb].
    + rewrite append_assoc, append_cons, append_empty in Hs. rewrite (trivia_char _ _ c (g ++ r) Hc Hs).
      rewrite IH; [done|by apply (fresh_goto st _ (String c EmptyString))|done|].
      rewrite Hs in Hlen. cbn in *. lia.
    + rewrite !append_assoc in Hs. cbn [skip_trivia]. rewrite Hs, skip_spaces_eq.
      change (drop_while is_blank ("//" ++ ?x)) with ("//" ++ x)%string.
      change (take_while is_blank ("//" ++ ?x)) with EmptyString. cbn [locate].
      change (strip_prefix "//" ("//" ++ ?x)) with (Some x).
      rewrite append_cons, append_empty, (line_comment_read b (g ++ r)) by done.
      rewrite fresh_in_token by done. rewrite IH; [| |done|].
      * cbn. by rewrite !locate_app, <- moved_2.
      * cbn. rewrite <- moved_2. exact (fresh_goto st _ ("//" ++ b ++ String "010" EmptyString) Hf).
      * rewrite Hs in Hlen. cbn [lx_rest goto]. str_len.
    + rewrite !append_assoc in Hs. cbn [skip_trivia]. rewrite Hs, skip_spaces_eq.
      change (drop_while is_blank ("/*" ++ ?x)) with ("/*" ++ x)%string.
      change (take_while is_blank ("/*" ++ ?x)) with EmptyString. cbn [locate].
      change (strip_prefix "//" ("/*" ++ ?x)) with (@None string).
      change (strip_prefix "/*" ("/*" ++ ?x)) with (Some x).
      cbv beta iota. rewrite (block_comment_read b (g ++ r)) by done.
      rewrite fresh_in_token by done. rewrite IH; [| |done|].
      * cbn. by rewrite !locate_app, <- moved_2.
      * cbn. rewrite <- moved_2. exact (fresh_goto st _ ("/*" ++ b ++ "*/") Hf).
      * rewrite Hs in Hlen. cbn [lx_rest goto]. str_len.
Qed.

(** ** Items *)

(** The state after an item. *)
Definition emitted (st : LexerState) (i : Item) (r : string) : LexerState :=
  let '(type, lexeme, num) := item_token i in
  let w := locate (lx_where st) (item_text i) in
  mkLexer r w (mkTok type (loc_of (lx_where st)) lexeme num :: lx_out st) (lx_diags st)
    (lx_had_error st) (lx_stop st) (Some (wh_pos w)).

Lemma emit_ok type lexeme loc st :
  full st = false -> is_eof type = false ->
  emit_token sink type lexeme loc st =
    mkLexer (lx_rest st) (lx_where st) (mkTok type loc (lexeme_of lexeme) no_numeric :: lx_out st)
      (lx_diags st) (lx_had_error st) (lx_stop st) (Some (wh_pos (lx_where st))).
Proof. intros H1 H2. unfold emit_token. by rewrite H1, H2. Qed.

(** The scan of a word that a boundary or a quote follows. *)
Lemma word_scan t r :
  all_chars is_identifier_char t = true -> boundary r \/ (exists x, r = String "'" x) ->
  take_while is_identifier_char (t ++ r) = t /\ drop_while is_identifier_char (t ++ r) = r /\
  forall name, config_width name r = None.
Proof.
  intros Ht Hr.
  destruct (while_app is_identifier_char t r Ht) as [-> ->].
  { destruct Hr as [Hr|[x ->]]; [by apply boundary_stops|done]. }
  split_and!; [done..|]. intros name. unfold config_width.
  destruct Hr as [Hr|[x ->]]; [|done]. by rewrite boundary_prefix.
Qed.

Lemma read_word c t r st :
  all_chars is_identifier_char t = true -> is_identifier_start c || Ascii.eqb c "@" = true ->
  all_chars not_newline (String c t) = true -> boundary r -> full st = false ->
  lex_word sink c (t ++ r) st = emitted st (Word (String c t)) r.
Proof.
  intros Ht Hc Hn Hr Hf. unfold lex_word.
  destruct (word_scan t r Ht (or_introl Hr)) as (-> & -> & ->). rewrite boundary_prefix by done.
  rewrite advance_locate by done. unfold emitted. cbn [item_token item_text].
  assert (forall t', is_eof t' = false -> emit_token sink t' (String c t) (loc_of (lx_where st))
    (goto r (locate (lx_where st) (String c t)) st) = mkLexer r (locate (lx_where st) (String c t))
    (mkTok t' (loc_of (lx_where st)) (Some (String c t)) no_numeric :: lx_out st) (lx_diags st)
    (lx_had_error st) (lx_stop st) (Some (wh_pos (locate (lx_where st) (String c t))))) as He
    by (intros t' Ht'; by rewrite emit_ok).
  destruct (match_keyword (String c t)) as [k|] eqn:Ek; [|by apply He].
  apply He. by apply (keyword_plain (String c t)).
Qed.

Lemma parse_sized w b v :
  all_chars not_tick w = true -> w <> EmptyString -> base_of b <> JZ_NUM_BASE_NONE ->
  value_ok (base_of b) v = true ->
  parse_numeric_literal (sized_text w b v) = inr (Some (mkNumeric true (base_of b) (String.length w))).
Proof.
  intros Hw Hne Hb Hv. unfold parse_numeric_literal, sized_text. rewrite split_at_tick by done.
  destruct w as [|wc w]; [done|]. cbn [is_empty_string].
  unfold value_ok in Hv. rewrite !andb_true_iff, !negb_true_iff in Hv. destruct Hv as [[H1 H2] H3].
  rewrite H1, H2. destruct (base_of b); [done|..]; by destruct (value_error _ v).
Qed.

(** The quote, the base and the digits are literal characters. *)
Lemma value_scan b v r :
  base_of b <> JZ_NUM_BASE_NONE -> value_ok (base_of b) v = true -> boundary r ->
  take_while is_literal_char (String b v ++ r) = String b v /\
  drop_while is_literal_char (String b v ++ r) = r.
Proof.
  intros Hb Hv Hr. unfold value_ok in Hv. rewrite !andb_true_iff in Hv. destruct Hv as [_ Hv].
  destruct (value_error (base_of b) v) eqn:Ev; [done|].
  apply while_app; [|by apply boundary_stops].
  cbn [all_chars]. by rewrite (base_literal b Hb), (value_literal _ v Ev).
Qed.

Lemma read_numeric lex w b v r st :
  lex = sized_text w b v -> all_chars not_tick w = true -> w <> EmptyString ->
  all_chars not_newline lex = true -> base_of b <> JZ_NUM_BASE_NONE ->
  value_ok (base_of b) v = true -> full st = false ->
  emit_numeric sink lex (loc_of (lx_where st)) (advance lex r st) = emitted st (Sized w b v) r.
Proof.
  intros -> Hw Hne Hn Hb Hv Hf. unfold emit_numeric. rewrite parse_sized by done.
  rewrite advance_locate, emit_ok by done. unfold emitted. cbn. unfold sized_text.
  by destruct w.
Qed.

Lemma sized_line w b v :
  all_chars not_newline w = true -> base_of b <> JZ_NUM_BASE_NONE -> value_ok (base_of b) v = true ->
  all_chars not_newline (sized_text w b v) = true.
Proof.
  intros Hw Hb Hv. unfold sized_text. rewrite all_chars_app, Hw.
  destruct (value_scan b v EmptyString Hb Hv I) as [H _]. rewrite append_nil_r in H.
  pose proof (take_while_line is_literal_char (String b v) eq_refl) as E. rewrite H in E. exact E.
Qed.

Lemma read_sized_word c t b v r st :
  all_chars is_identifier_char t = true -> all_chars not_tick (String c t) = true ->
  all_chars not_newline (String c t) = true ->
  base_of b <> JZ_NUM_BASE_NONE -> value_ok (base_of b) v = true -> boundary r -> full st = false ->
  lex_word sink c (t ++ String "'" (String b v ++ r)) st = emitted st (Sized (String c t) b v) r.
Proof.
  intros Ht Htick Hn Hb Hv Hr Hf. unfold lex_word.
  destruct (word_scan t (String "'" (String b v ++ r)) Ht) as (-> & -> & ->); [right; by eexists|].
  change (strip_prefix "'" (String "'" ?x)) with (Some x). cbv beta iota.
  destruct (value_scan b v r Hb Hv Hr) as [-> ->].
  apply read_numeric; try done. by apply (sized_line (String c t)).
Qed.

(** The scan of a number that a boundary follows. *)
Lemma read_run c run r st :
  all_chars is_literal_char run = true -> boundary r ->
  lex_number sink c (run ++ r) st =
    emit_numeric sink (String c run) (loc_of (lx_where st)) (advance (String c run) r st).
Proof.
  intros Hrun Hr. unfold lex_number.
  destruct (while_app is_literal_char run r Hrun) as [-> ->]; [by apply boundary_stops|].
  destruct r as [|d [|d' r]]; [done..|]. cbn in Hr.
  assert (Ascii.eqb d "." = false) as -> by (by revert Hr; apply (blank_cases d (fun d => Ascii.eqb d "." = false))).
  done.
Qed.

Lemma read_number c t r st :
  all_chars is_identifier_char t = true -> all_chars not_tick (String c t) = true ->
  all_chars not_newline (String c t) = true -> boundary r -> full st = false ->
  lex_number sink c (t ++ r) st = emitted st (Number (String c t)) r.
Proof.
  intros Ht Htick Hn Hr Hf. rewrite read_run by (done || by apply (all_chars_impl _ _ _ ident_literal)).
  unfold emit_numeric, parse_numeric_literal. rewrite split_at_none by done.
  by rewrite advance_locate, emit_ok.
Qed.

Lemma read_sized_number c t b v r st :
  all_chars is_identifier_char t = true -> all_chars not_tick (String c t) = true ->
  all_chars not_newline (String c t) = true ->
  base_of b <> JZ_NUM_BASE_NONE -> value_ok (base_of b) v = true -> boundary r -> full st = false ->
  lex_number sink c (t ++ String "'" (String b v ++ r)) st = emitted st (Sized (String c t) b v) r.
Proof.
  intros Ht Htick Hn Hb Hv Hr Hf.
  replace (t ++ String "'" (String b v ++ r))%string with ((t ++ String "'" (String b v)) ++ r)%string
    by (by rewrite append_assoc).
  destruct (value_scan b v EmptyString Hb Hv I) as [H _]. rewrite append_nil_r in H.
  rewrite read_run; [|rewrite all_chars_app, (all_chars_impl _ _ _ ident_literal Ht); cbn [all_chars]|done].
  - apply read_numeric; try done. by apply (sized_line (String c t)).
  - change (all_chars is_literal_char (String b v) = true). rewrite <- H. apply take_while_all.
Qed.

Lemma string_body_read body r w :
  all_chars not_quote body = true ->
  string_body (body ++ String "034" r) w = (body, locate w (body ++ String "034" EmptyString), Some r).
Proof.
  revert w. induction body as [|c body IH]; intros w Hb; [done|].
  cbn [all_chars] in Hb. apply andb_true_iff in Hb as [Hc Hb]. unfold not_quote in Hc.
  apply negb_true_iff in Hc. rewrite !append_cons. cbn [string_body locate]. by rewrite Hc, IH.
Qed.

Lemma read_string body r st :
  all_chars not_quote body = true -> full st = false ->
  lex_string sink (body ++ String "034" r) st = emitted st (Quoted body) r.
Proof.
  intros Hb Hf. unfold lex_string. rewrite string_body_read by done. by rewrite emit_ok.
Qed.

(** Operators, each against the end of the source and the four blanks. *)
Lemma operator_read t lex r :
  In (t, lex) operators -> boundary r ->
  exists c s, lex = String c s /\ operator c (s ++ r) = Some (t, lex) /\
    is_eof t = false /\ all_chars not_newline lex = true.
Proof.
  intros Hin Hr.
  destruct r as [|d r];
    [|cbn in Hr; revert Hr; apply (blank_cases d (fun d => exists c s, lex = String c s /\
        operator c (s ++ String d r) = Some (t, lex) /\ is_eof t = false /\ all_chars not_newline lex = true))];
    cbn [In operators] in Hin;
    repeat (destruct Hin as [[= <- <-]|Hin]; [do 2 eexists; split_and!; reflexivity|]); destruct Hin.
Qed.

Lemma start_ok c s :
  is_blank c = false -> (c = "/"%char -> boundary s) -> token_start (String c s).
Proof.
  intros Hc Hs. split; [done|].
  change (strip_prefix "//" (String c s)) with (if Ascii.eqb "/" c then strip_prefix "/" s else None).
  change (strip_prefix "/*" (String c s)) with (if Ascii.eqb "/" c then strip_prefix "*" s else None).
  destruct (Ascii.eqb "/" c) eqn:E; [|done]. apply Ascii.eqb_eq in E.
  specialize (Hs (eq_sym E)). by rewrite !boundary_prefix.
Qed.

(** The first characters of words, numerals and operators. *)
Lemma word_first c : is_identifier_start c || Ascii.eqb c "@" = true ->
  Ascii.eqb c "034" = false /\ is_blank c = false /\ c <> "/"%char.
Proof.
  intros H. pose proof (excludes (fun c => is_identifier_start c || Ascii.eqb c "@")) as He.
  split_and!; [by apply negb_true_iff, (He "034"%char)| |intros ->; done].
  destruct (is_blank c) eqn:E; [|done]. revert E H.
  by apply (blank_cases c (fun c => is_identifier_start c || Ascii.eqb c "@" = true -> true = false)).
Qed.

Lemma digit_first c : isdigit c = true ->
  Ascii.eqb c "034" = false /\ is_identifier_start c || Ascii.eqb c "@" = false /\
  Ascii.eqb c "'" = false /\ is_blank c = false /\ c <> "/"%char.
Proof.
  intros H. pose proof (excludes isdigit) as He.
  split_and!; [by apply negb_true_iff, (He "034"%char)| |by apply negb_true_iff, (He "'"%char)| |intros ->; done].
  - unfold is_identifier_start. pose proof (He "_"%char eq_refl c H) as H1. pose proof (He "@"%char eq_refl c H) as H2.
    apply negb_true_iff in H1, H2. rewrite H1, H2. unfold isalpha, isdigit, in_codes in *. lia.
  - destruct (is_blank c) eqn:E; [|done]. revert E H.
    by apply (blank_cases c (fun c => isdigit c = true -> true = false)).
Qed.

Lemma operator_first t c s : In (t, String c s) operators ->
  Ascii.eqb c "034" = false /\ is_identifier_start c || Ascii.eqb c "@" = false /\
  Ascii.eqb c "'" = false /\ isdigit c = false /\ is_blank c = false /\ (c = "/"%char -> s = EmptyString).
Proof.
  intros Hin. cbn [In operators] in Hin.
  repeat (destruct Hin as [[= <- <- <-]|Hin]; [by split_and!|]); destruct Hin.
Qed.

Lemma read_operator t lex c s r st :
  operator c (s ++ r) = Some (t, lex) -> lex = String c s -> is_eof t = false ->
  all_chars not_newline lex = true -> full st = false ->
  lex_operator sink c (s ++ r) st = emitted st (Operator t lex) r.
Proof.
  intros Ho -> Ht Hn Hf. unfold lex_operator. rewrite Ho.
  assert (strip_prefix (String c s) (String c (s ++ r)) = Some r) as ->
    by (apply strip_prefix_spec; by rewrite append_cons).
  by rewrite advance_locate, emit_ok.
Qed.

(** An item is read back. *)
Lemma read_item i r st :
  item_ok i -> boundary r -> full st = false ->
  exists c s, (item_text i ++ r)%string = String c s /\ lex_at sink c s st = emitted st i r /\
    token_start (String c s) /\ is_eof (fst (fst (item_token i))) = false.
Proof.
  intros Hi Hr Hf. destruct i as [name|text|w b v|body|t lex]; cbn [item_ok item_text] in *.
  - destruct (word_spec name Hi) as (c & s & -> & Hc & Hs & _ & Hn).
    destruct (word_first c Hc) as (F1 & F2 & F3). exists c, (s ++ r)%string. split_and!; [done| |by apply start_ok|].
    + unfold lex_at. rewrite F1, Hc. by apply read_word.
    + cbn. destruct (match_keyword (String c s)) eqn:E; [exact (proj2 (keyword_plain _ _ E))|done].
  - destruct (numeral_spec text Hi) as (c & s & -> & Hc & Hs & Ht & Hn).
    destruct (digit_first c Hc) as (F1 & F2 & F3 & F4 & F5). exists c, (s ++ r)%string.
    split_and!; [done| |by apply start_ok|done]. unfold lex_at. rewrite F1, F2, F3, Hc. by apply read_number.
  - destruct Hi as (Hw & Hb & Hv). apply orb_true_iff in Hw as [Hw|Hw].
    + destruct (word_spec w Hw) as (c & s & -> & Hc & Hs & Ht & Hn).
      destruct (word_first c Hc) as (F1 & F2 & F3). exists c, (s ++ String "'" (String b v ++ r))%string.
      split_and!; [unfold sized_text; by rewrite !append_cons, append_assoc, append_cons| |by apply start_ok|done].
      unfold lex_at. rewrite F1, Hc. by apply read_sized_word.
    + destruct (numeral_spec w Hw) as (c & s & -> & Hc & Hs & Ht & Hn).
      destruct (digit_first c Hc) as (F1 & F2 & F3 & F4 & F5). exists c, (s ++ String "'" (String b v ++ r))%string.
      split_and!; [unfold sized_text; by rewrite !append_cons, append_assoc, append_cons| |by apply start_ok|done].
      unfold lex_at. rewrite F1, F2, F3, Hc. by apply read_sized_number.
  - exists "034"%char, (body ++ String "034" r)%string. split_and!; [|by apply read_string|by apply start_ok|done].
    unfold quoted. by rewrite append_cons, append_assoc.
  - destruct (operator_read t lex r Hi Hr) as (c & s & -> & Ho & Ht & Hn).
    destruct (operator_first t c s Hi) as (F1 & F2 & F3 & F4 & F5 & F6). exists c, (s ++ r)%string.
    split_and!; [done| |apply start_ok; [done|intros E; by rewrite (F6 E)]|done].
    unfold lex_at. rewrite F1, F2, F3, F4. by apply read_operator.
Qed.

(** ** The whole source *)

(** The gap at the front of the source is skipped. *)
Definition gap_ok (st : LexerState) (g : string) : Prop :=
  (blanks g /\ fresh st) \/
  (separator g /\ forall e, lx_last_end st = Some e -> e <= wh_pos (lx_where st)).

Lemma trivia_gap st g r fuel :
  gap_ok st g -> token_start r -> lx_rest st = (g ++ r)%string ->
  (String.length (lx_rest st) < fuel)%nat ->
  skip_trivia sink fuel st = (goto r (locate (lx_where st) g) st, true).
Proof.
  intros [[Hg Hf]|[(c & s & -> & Hc & Hg) Hle]] Hr Hs Hlen; [by apply trivia_blanks|].
  destruct fuel as [|fuel]; [lia|]. rewrite append_cons in Hs. rewrite (trivia_char _ _ c (s ++ r)) by done.
  rewrite (trivia_blanks s _ r); [done|done|done| |done|].
  - intros e He. specialize (Hle e He). cbn.
    pose proof (locate_pos (lx_where st) (String c EmptyString)) as E. cbn in E. lia.
  - rewrite Hs in Hlen. cbn in *. lia.
Qed.

Lemma item_nonempty i : item_ok i -> (1 <= String.length (item_text i))%nat.
Proof.
  intros Hi. destruct i as [name|text|w b v|body|t lex]; cbn in *.
  - destruct name; [done|cbn; lia].
  - destruct text; [done|cbn; lia].
  - unfold sized_text. rewrite length_append. cbn. lia.
  - lia.
  - by repeat (destruct Hi as [[= <- <-]|Hi]; [cbn; lia|]).
Qed.

Definition item_fine (p : Item * string) : Prop := item_ok (fst p) /\ separator (snd p).

Lemma written_boundary sep items : separator sep -> boundary (sep ++ written items).
Proof. intros (c & s & -> & Hc & _). done. Qed.

(** The result of reading the items from a state. *)
Definition read_all (st st' : LexerState) (w : Where) (items : list (Item * string)) : Prop :=
  lx_out st' = rev (tokens_of w items) ++ lx_out st /\ at_eof st' = true /\
  lx_diags st' = lx_diags st /\ lx_had_error st' = lx_had_error st.

Lemma read_items items st g fuel :
  Forall item_fine items -> gap_ok st g -> lx_rest st = (g ++ written items)%string ->
  lx_stop st = false -> Z.of_nat (length (lx_out st) + length items) < JZ_MAX_SOURCE_TOKENS ->
  (String.length (lx_rest st) < fuel)%nat ->
  exists st', lex_loop sink fuel st = Some st' /\ read_all st st' (locate (lx_where st) g) items.
Proof.
  intros Hok. revert st g fuel. induction Hok as [|[i sep] items [Hi Hsep] Hok IH];
    intros st g fuel Hg Hs Hstop Hlim Hf; (destruct fuel as [|fuel]; [lia|]); cbn [lex_loop].
  - assert (full (goto (written []) (locate (lx_where st) g) st) = false) as Hfull
      by (unfold full; cbn in *; lia).
    unfold lex_one_token. rewrite Hstop, (trivia_gap st g (written [])) by (done || lia).
    cbn [written lx_rest goto]. unfold emit_token. cbn [written] in Hfull. rewrite Hfull.
    eexists. split; [cbn; by rewrite orb_true_r|]. by split_and!.
  - cbn [fst snd written] in *.
    assert (full (goto (item_text i ++ sep ++ written items) (locate (lx_where st) g) st) = false) as Hfull
      by (unfold full; cbn in *; lia).
    destruct (read_item i (sep ++ written items) _ Hi (written_boundary sep items Hsep) Hfull)
      as (c & s & Hcs & Hat & Hstart & Heof).
    unfold lex_one_token. rewrite Hstop, (trivia_gap st g (item_text i ++ sep ++ written items)); [|done| |done|lia].
    2: { by rewrite Hcs. }
    cbv beta iota. cbn [lx_rest goto]. rewrite Hcs in Hat |- *. rewrite Hat. clear Hat Hfull.
    unfold emitted, read_all in *. cbn [tokens_of].
    destruct (item_token i) as [[type lexeme] num]. cbn in Heof.
    set (st2 := mkLexer _ _ _ _ _ _ _) in *.
    assert (lx_stop st2 || at_eof st2 = false) as -> by (cbn; by rewrite Hstop, Heof).
    destruct (IH st2 sep fuel) as (st' & Hloop & H1 & H2 & H3 & H4); try done.
    + right. split; [done|]. intros e [= <-]. cbn. lia.
    + cbn in *. lia.
    + rewrite Hs, !length_append in Hf. cbn [lx_rest st2]. rewrite length_append.
      assert (1 <= String.length (item_text i))%nat by (by apply item_nonempty). lia.
    + exists st'. split; [done|]. cbn in H1, H3, H4. rewrite H1, locate_app. split_and!; [|done..].
      cbn [rev]. by rewrite <- app_assoc.
Qed.
End Reading.

(** The items are read one after the other, up to the end of the file. *)
Lemma lex_written sink front items :
  blanks front -> Forall item_fine items -> Z.of_nat (length items) < JZ_MAX_SOURCE_TOKENS ->
  jz_lex_source sink (front ++ written items) =
    Some (mkLexResult (tokens_of (locate start_where front) items) [] 0).
Proof.
  intros Hf Hok Hlen. unfold jz_lex_source.
  set (start := mkLexer (front ++ written items) start_where [] [] false false None).
  destruct (read_items sink items start front (S (String.length (front ++ written items))))
    as (st & -> & H1 & H2 & H3 & H4); [done|left; split; done|done|done|cbn; lia|cbn; lia|].
  rewrite H2. cbn [negb andb]. rewrite H1, H3, H4. cbn. by rewrite app_nil_r, rev_involutive.
Qed.

(** C16: words, numerals, sized literals, strings and operators, each followed
    by a separator (a blank, then blanks and comments), are lexed to exactly
    these tokens: with the types of the tables, the text or the decoded string
    as lexeme, the base and width prefix of a literal, and the line and column
    of the first character; nothing is reported. *)
Theorem lex_roundtrip sink front items :
  blanks front -> Forall item_fine items -> Z.of_nat (length items) < JZ_MAX_SOURCE_TOKENS ->
  jz_lex_source sink (front ++ written items) =
    Some (mkLexResult (tokens_of (locate start_where front) items) [] 0).
Proof. apply lex_written. Qed.

Lemma blanks_chars s : all_chars is_blank s = true -> blanks s.
Proof.
  induction s as [|c s IH]; [constructor|]. cbn [all_chars]. rewrite andb_true_iff. intros [Hc Hs].
  apply (blanks_cons (String c EmptyString)); [by constructor|by apply IH].
Qed.

Lemma separator_chars c s : all_chars is_blank (String c s) = true -> separator (String c s).
Proof.
  cbn [all_chars]. rewrite andb_true_iff. intros [Hc Hs]. exists c, s. by split_and!; [..|apply blanks_chars].
Qed.

Lemma lex_roundtrip_witness :
  let items := [(Word "@module", " "); (Sized "8" "h" "F_0", String "009" "/* x */ ");
    (Operator JZ_TOK_OP_LE_Z "<=z", " "); (Sized "W" "b" "1x", "  ");
    (Quoted "a\n", " "); (Number "42", String "010" EmptyString)]%string in
  jz_lex_source true (String "010" EmptyString ++ written items) =
    Some (mkLexResult (tokens_of (locate start_where (String "010" EmptyString)) items) [] 0).
Proof.
  apply lex_roundtrip; [by apply blanks_chars| |reflexivity].
  repeat (apply Forall_cons; split; [split; cbn [fst snd]|]).
  - reflexivity.
  - by apply separator_chars.
  - repeat split; discriminate.
  - exists "009"%char, "/* x */ "%string. split; [done|split; [done|]].
    apply (blanks_cons "/* x */" " "); [by apply (blank_block " x ")|by apply blanks_chars].
  - unfold item_ok, operators. do 15 apply in_cons. apply in_eq.
  - by apply separator_chars.
  - repeat split; discriminate.
  - by apply separator_chars.
  - reflexivity.
  - by apply separator_chars.
  - reflexivity.
  - by apply separator_chars.
  - constructor.
Defined.

(** ** Where the lexer differs from its comments *)

(** The types and lexemes of a result, and its status. *)
Definition summary (r : option LexResult) : option (list (JZTokenType * option string) * Z) :=
  option_map (fun r => (map (fun t => (tok_type t, tok_lexeme t)) (lr_tokens r), lr_status r)) r.

(** [<=s] and [<=z] are taken without a look at what follows, unlike [=s] and
    [=>s]: a name that starts with [s] or [z] loses its first letter. *)
Example receive_swallows_letter :
  summary (jz_lex_source true "a <=sel;") =
    Some ([(JZ_TOK_IDENTIFIER, Some "a"); (JZ_TOK_OP_LE_S, Some "<=s"); (JZ_TOK_IDENTIFIER, Some "el");
           (JZ_TOK_SEMICOLON, Some ";"); (JZ_TOK_EOF, None)], 0)%string.
Proof. reflexivity. Qed.

(** The scan for the closing quote does not know the escape of a quote. *)
Example escaped_quote_ends :
  let q := String "034" EmptyString in
  summary (jz_lex_source true (q ++ "a\" ++ q ++ "b" ++ q)) =
    Some ([(JZ_TOK_STRING, Some "a\"); (JZ_TOK_IDENTIFIER, Some "b"); (JZ_TOK_EOF, None)], 0)%string.
Proof. reflexivity. Qed.

(** A string that is not closed disappears with the rest of the source. *)
Example open_string_disappears :
  summary (jz_lex_source true (String "034" "abc; @endmod")) = Some ([(JZ_TOK_EOF, None)], 0).
Proof. reflexivity. Qed.

(** ** Imported files

    [parser_import.c] lexes an imported file without a sink. *)

Lemma digit_error_rule base c :
  base <> JZ_NUM_BASE_NONE -> digit_error base c <> Some JZ_NUM_ERR_OTHER.
Proof.
  intros Hb. unfold digit_error. destruct base; [done|..]; repeat case_match; congruence.
Qed.

Lemma value_error_rule base v :
  base <> JZ_NUM_BASE_NONE -> value_error base v <> Some JZ_NUM_ERR_OTHER.
Proof.
  intros Hb. induction v as [|c v IH]; [done|]. cbn [value_error].
  destruct (Ascii.eqb c "_"); [done|]. pose proof (digit_error_rule base c Hb).
  destruct (digit_error base c); [done|done].
Qed.

(** A literal with bad digits has a rule of its own. *)
Lemma parse_bad w b v :
  all_chars not_tick w = true -> w <> EmptyString -> base_of b <> JZ_NUM_BASE_NONE ->
  v <> EmptyString -> value_ok (base_of b) v = false ->
  exists err, parse_numeric_literal (sized_text w b v) = inl err /\ err <> JZ_NUM_ERR_OTHER.
Proof.
  intros Hw Hne Hb Hv Hbad. unfold parse_numeric_literal, sized_text. rewrite split_at_tick by done.
  destruct w as [|wc w]; [done|]. destruct v as [|vc v]; [done|]. cbn [is_empty_string].
  unfold value_ok in Hbad. cbn [is_empty_string negb andb] in Hbad.
  pose proof (value_error_rule (base_of b) (String vc v) Hb) as Hrule.
  destruct (base_of b) eqn:Eb; [done|..];
    (destruct (starts_with "_" _ || ends_with "_" _); [by eexists|]; cbn [negb andb] in Hbad;
     destruct (value_error _ _) as [err|]; [|done]; exists err; split; [done|congruence]).
Qed.

(** The lexer on a source that is one numeric literal. *)
Lemma lex_one_literal sink c run :
  isdigit c = true -> all_chars is_literal_char run = true ->
  lex_one_token sink (mkLexer (String c run) start_where [] [] false false None) =
    emit_numeric sink (String c run) (loc_of start_where)
      (advance (String c run) EmptyString (mkLexer (String c run) start_where [] [] false false None)).
Proof.
  intros Hc Hrun. set (st := mkLexer _ _ _ _ _ _ _). destruct (digit_first c Hc) as (F1 & F2 & F3 & F4 & F5).
  unfold lex_one_token. change (lx_stop st) with false. cbv iota.
  rewrite (trivia_blanks sink EmptyString st (String c run)); [|constructor|by apply start_ok|done|done|lia].
  cbv beta iota. change (lx_rest (goto (String c run) ?w st)) with (String c run). cbv iota.
  unfold lex_at. rewrite F1, F2, F3, Hc. rewrite <- (append_nil_r run) at 1. by rewrite read_run.
Qed.

Lemma loop_end sink fuel st :
  lx_rest st = EmptyString -> lx_out st = [] -> lx_stop st = false ->
  lex_loop sink (S fuel) st =
    Some (mkLexer EmptyString (lx_where st) [mkTok JZ_TOK_EOF (loc_of (lx_where st)) None no_numeric]
      (lx_diags st) (lx_had_error st) false (lx_last_end st)).
Proof.
  intros Hr Ho Hs. cbn [lex_loop]. unfold lex_one_token. rewrite Hs, skip_trivia_empty, Hr by done.
  unfold emit_token, full. rewrite Ho. cbn. by rewrite Hr, Hs.
Qed.

(** A source that is one literal with bad digits. *)
Lemma lex_bad_literal sink c run err :
  isdigit c = true -> all_chars is_literal_char run = true ->
  parse_numeric_literal (String c run) = inl err -> err <> JZ_NUM_ERR_OTHER ->
  exists diags, jz_lex_source sink (String c run) =
    Some (mkLexResult [eof_token (String c run)] diags (if sink then -1 else 0)) /\
    (sink = false -> diags = []).
Proof.
  intros Hc Hrun Hp Herr. unfold jz_lex_source. cbn [String.length].
  set (fuel := S (String.length run)).
  change (lex_loop sink (S fuel) ?st) with
    (if lx_stop (lex_one_token sink st) || at_eof (lex_one_token sink st) then Some (lex_one_token sink st)
     else lex_loop sink fuel (lex_one_token sink st)).
  rewrite lex_one_literal by done. unfold emit_numeric. rewrite Hp.
  assert (all_chars not_newline (String c run) = true) as Hn.
  { cbn [all_chars]. rewrite (digit_line c Hc).
    exact (all_chars_impl _ _ _ (not_newline_of is_literal_char eq_refl) Hrun). }
  rewrite advance_locate by done. unfold report_numeric, fuel.
  destruct sink; destruct err; try done;
    (match goal with |- context [if ?b then _ else _] => change b with false end; cbv iota;
     rewrite loop_end by done; eexists; split; [reflexivity|done]).
Qed.

(** In an imported file, a literal with a digit that its base does not have,
    with [x] or [z] in decimal digits, or with an underscore at an edge of its
    value is dropped without an error, whereas in the main file it is one. *)
Theorem import_drops_literals w b v :
  is_numeral w = true -> base_of b <> JZ_NUM_BASE_NONE -> v <> EmptyString ->
  all_chars is_literal_char v = true -> value_ok (base_of b) v = false ->
  jz_lex_source false (sized_text w b v) =
    Some (mkLexResult [eof_token (sized_text w b v)] [] 0) /\
  option_map lr_status (jz_lex_source true (sized_text w b v)) = Some (-1).
Proof.
  intros Hw Hb Hne Hv Hbad. destruct (numeral_spec w Hw) as (c & t & -> & Hc & Ht & Htick & Hn).
  destruct (parse_bad (String c t) b v Htick ltac:(done) Hb Hne Hbad) as (err & Hp & Herr).
  assert (sized_text (String c t) b v = String c (t ++ String "'" (String b v))) as E by done.
  assert (all_chars is_literal_char (t ++ String "'" (String b v)) = true) as Hrun.
  { rewrite all_chars_app, (all_chars_impl _ _ _ ident_literal Ht). cbn [all_chars].
    by rewrite (base_literal b Hb), Hv. }
  rewrite E in *. split.
  - destruct (lex_bad_literal false c _ err Hc Hrun Hp Herr) as (diags & -> & Hd). by rewrite Hd.
  - by destruct (lex_bad_literal true c _ err Hc Hrun Hp Herr) as (diags & -> & _).
Qed.

Lemma import_drops_literals_witness :
  jz_lex_source false (sized_text "8" "b" "0102") =
    Some (mkLexResult [eof_token (sized_text "8" "b" "0102")] [] 0) /\
  option_map lr_status (jz_lex_source true (sized_text "8" "b" "0102")) = Some (-1).
Proof. apply import_drops_literals; [reflexivity|discriminate|discriminate|reflexivity|reflexivity]. Defined.
