(* ===== verification/ParseCore.v ===== *)
(** * The parser's foundation: [compiler/src/parser/parser_core.c], [parser_internal.h]

    A [Parser] reads a token array that never changes; its state is the
    position, the recursion counters that [parser_expressions.c] and
    [parser_statements.c] keep in global variables, and the diagnostics, listed
    last first.  A function that returns a node or [NULL] is a computation [P]:
    the inner option is the pointer, the outer one is [None] only when the fuel
    of a loop runs out.  A diagnostic list is attached, memory suffices, and
    sizes of names do not overflow. *)

From S2P Require Import Prelude Util CString Ast Lexer.

Local Open Scope nat_scope.

#[export] Instance JZTokenType_eq_dec : EqDecision JZTokenType.
Proof. solve_decision. Defined.

(** [t->type == type]. *)
Definition tok_is (type : JZTokenType) (t : JZToken) : bool := bool_decide (tok_type t = type).

(** ** State *)

(** The rule, the place, and the text: for the generic syntax error also the
    lexeme of the token it stands at. *)
Record ParseDiag := mkParseDiag {
  pd_rule : string;
  pd_loc : JZLocation;
  pd_near : option (option string);
  pd_text : string
}.

Record Parser := mkParser {
  ps_pos : nat;
  ps_expr_depth : Z;      (* g_parser_expr_depth *)
  ps_lvalue_depth : Z;    (* g_parser_lvalue_depth *)
  ps_stmt_depth : Z;      (* g_parser_stmt_depth *)
  ps_diags : list ParseDiag
}.

Definition set_pos (n : nat) (p : Parser) : Parser :=
  mkParser n (ps_expr_depth p) (ps_lvalue_depth p) (ps_stmt_depth p) (ps_diags p).
Definition set_expr_depth (d : Z) (p : Parser) : Parser :=
  mkParser (ps_pos p) d (ps_lvalue_depth p) (ps_stmt_depth p) (ps_diags p).
Definition set_lvalue_depth (d : Z) (p : Parser) : Parser :=
  mkParser (ps_pos p) (ps_expr_depth p) d (ps_stmt_depth p) (ps_diags p).
Definition set_stmt_depth (d : Z) (p : Parser) : Parser :=
  mkParser (ps_pos p) (ps_expr_depth p) (ps_lvalue_depth p) d (ps_diags p).
Definition add_parse_diag (d : ParseDiag) (p : Parser) : Parser :=
  mkParser (ps_pos p) (ps_expr_depth p) (ps_lvalue_depth p) (ps_stmt_depth p) (d :: ps_diags p).

(** ** Computations *)

Definition P (A : Type) : Type := Parser -> option (option A * Parser).

#[export] Instance P_ret : MRet P := fun A a p => Some (Some a, p).
#[export] Instance P_bind : MBind P := fun A B f m p =>
  match m p with
  | Some (Some a, p') => f a p'
  | Some (None, p') => Some (None, p')
  | None => None
  end.

(** [return NULL], and the end of the fuel. *)
Definition null {A} : P A := fun p => Some (None, p).
Definition no_fuel {A} : P A := fun _ => None.
Definition update (f : Parser -> Parser) : P unit := fun p => Some (Some tt, f p).

(** ** Building the tree: [compiler/src/ast/ast.c] *)

(** The setters store a copy without the white space around it. *)
Fixpoint trim_right (s : string) : string :=
  match s with
  | EmptyString => EmptyString
  | String c s' =>
      match trim_right s' with
      | EmptyString => if isspace c then EmptyString else String c EmptyString
      | r => String c r
      end
  end.

Definition jz_strdup_trim (s : string) : string := trim_right (drop_while isspace s).

Definition jz_ast_new (ty : JZASTNodeType) (loc : JZLocation) : JZASTNode :=
  mkNode ty loc None None None None [].
Definition jz_ast_set_name (s : option string) (n : JZASTNode) : JZASTNode :=
  mkNode (ast_type n) (ast_loc n) (option_map jz_strdup_trim s) (ast_block_kind n) (ast_text n)
    (ast_width n) (ast_children n).
Definition jz_ast_set_block_kind (s : option string) (n : JZASTNode) : JZASTNode :=
  mkNode (ast_type n) (ast_loc n) (ast_name n) (option_map jz_strdup_trim s) (ast_text n)
    (ast_width n) (ast_children n).
Definition jz_ast_set_text (s : option string) (n : JZASTNode) : JZASTNode :=
  mkNode (ast_type n) (ast_loc n) (ast_name n) (ast_block_kind n) (option_map jz_strdup_trim s)
    (ast_width n) (ast_children n).
Definition jz_ast_set_width (s : option string) (n : JZASTNode) : JZASTNode :=
  mkNode (ast_type n) (ast_loc n) (ast_name n) (ast_block_kind n) (ast_text n)
    (option_map jz_strdup_trim s) (ast_children n).
Definition jz_ast_add_child (child n : JZASTNode) : JZASTNode :=
  mkNode (ast_type n) (ast_loc n) (ast_name n) (ast_block_kind n) (ast_text n) (ast_width n)
    (ast_children n ++ [child]).

(** A new node to which the children are added in order. *)
Definition new_node (ty : JZASTNodeType) (loc : JZLocation) (cs : list JZASTNode) : JZASTNode :=
  foldl (fun n c => jz_ast_add_child c n) (jz_ast_new ty loc) cs.

(** ** Tokens as identifiers *)

Definition decl_keywords : list string :=
  [ "IF"; "ELIF"; "ELSE"; "SELECT"; "CASE"; "DEFAULT"; "CONST"; "PORT"; "REGISTER"; "LATCH";
    "WIRE"; "MEM"; "MUX"; "CDC"; "IN"; "OUT"; "INOUT"; "ASYNCHRONOUS"; "SYNCHRONOUS"; "OVERRIDE";
    "CONFIG"; "CLOCKS"; "IN_PINS"; "OUT_PINS"; "INOUT_PINS"; "MAP"; "CLOCK_GEN"; "BUS"; "SOURCE";
    "TARGET"; "IDX"; "VCC"; "GND" ].

Definition is_decl_identifier_token (t : JZToken) : bool :=
  match tok_lexeme t with
  | None => false
  | Some name =>
      if tok_is JZ_TOK_IDENTIFIER t then true else List.existsb (String.eqb name) decl_keywords
  end.

(** ** Copies *)

Fixpoint parser_clone_ast_tree (src : JZASTNode) : JZASTNode :=
  match src with
  | mkNode ty loc name bk text width cs =>
      let copy := jz_ast_set_text text (jz_ast_set_name name (jz_ast_new ty loc)) in
      let copy := jz_ast_set_block_kind bk (jz_ast_set_width width copy) in
      mkNode (ast_type copy) (ast_loc copy) (ast_name copy) (ast_block_kind copy) (ast_text copy)
        (ast_width copy) (map parser_clone_ast_tree cs)
  end.

(** ** The token array *)

Section Tokens.
Context (tokens : list JZToken).

(** Stands in for a read of an empty array; a token stream has an end-of-file
    token. *)
Definition no_token : JZToken := mkTok JZ_TOK_EOF (mkLoc 0 0) None no_numeric.
Definition token_at (i : nat) : JZToken := nth i tokens no_token.

Definition peek (p : Parser) : JZToken :=
  if ps_pos p <? length tokens then token_at (ps_pos p) else token_at (length tokens - 1).

Definition advance (p : Parser) : Parser :=
  if ps_pos p <? length tokens then set_pos (S (ps_pos p)) p else p.

Definition peek_token : P JZToken := fun p => Some (Some (peek p), p).
Definition advance_token : P unit := update advance.

Definition match_tok (type : JZTokenType) : P bool := fun p =>
  if tok_is type (peek p) then Some (Some true, advance p) else Some (Some false, p).

(** ** Diagnostics *)

Definition parser_error (msg : string) (p : Parser) : Parser :=
  add_parse_diag (mkParseDiag "PARSE_SYNTAX_ERROR" (tok_loc (peek p)) (Some (tok_lexeme (peek p))) msg) p.

Definition parser_report_rule (t : JZToken) (rule msg : string) (p : Parser) : Parser :=
  add_parse_diag (mkParseDiag rule (tok_loc t) None msg) p.

(** [parser_report_rule(p, t, rule, msg); return NULL;] and
    [parser_error(p, msg); return NULL;] *)
Definition report_null {A} (t : JZToken) (rule msg : string) : P A := fun p =>
  Some (None, parser_report_rule t rule msg p).
Definition fail_with {A} (msg : string) : P A := fun p => Some (None, parser_error msg p).

(** [if (!match(p, type)) { parser_error(p, msg); return NULL; }] *)
Definition expect (type : JZTokenType) (msg : string) : P unit :=
  b ← match_tok type; if (b : bool) then mret tt else fail_with msg.

(** ** Qualified names *)

Section Names.
Variables (allow_config allow_decl_keywords : bool).

Definition accepts_segment (id : JZToken) : bool :=
  (if allow_decl_keywords then is_decl_identifier_token id else tok_is JZ_TOK_IDENTIFIER id)
  || (allow_config && tok_is JZ_TOK_KW_CONFIG id).

(** [buf] is the name so far and where it starts. *)
Fixpoint qualified_name_loop (n : nat) (buf : option (string * JZLocation)) :
    P (option (string * JZLocation)) := fun p =>
  match n with
  | O => None
  | S n' =>
      let id := peek p in
      match tok_lexeme id with
      | None => Some (Some buf, p)
      | Some lexeme =>
          if negb (accepts_segment id) then Some (Some buf, p)
          else
            let '(text, loc) :=
              match buf with Some (text, loc) => ((text ++ lexeme)%string, loc) | None => (lexeme, tok_loc id) end in
            let p := advance p in
            if tok_is JZ_TOK_DOT (peek p)
            then qualified_name_loop n' (Some ((text ++ ".")%string, loc)) (advance p)
            else Some (Some (Some (text, loc)), p)
      end
  end.

(** [NULL] without a segment. *)
Definition parser_parse_qualified_name (n : nat) : P (string * JZLocation) :=
  buf ← qualified_name_loop n None; match buf with Some r => mret r | None => null end.
End Names.

(** ** Opaque text *)

(** The lexemes of the tokens in [start, end), with a blank after each, at the
    end only if asked. *)
Fixpoint join_spaced (ts : list JZToken) (trailing_space : bool) : string :=
  match ts with
  | [] => EmptyString
  | t :: ts' =>
      let rest := join_spaced ts' trailing_space in
      match tok_lexeme t with
      | None => rest
      | Some l =>
          let gap := if trailing_space || negb (match ts' with [] => true | _ => false end)
                     then " "%string else EmptyString in
          (l ++ gap ++ rest)%string
      end
  end.

Definition token_range (start stop : nat) : list JZToken := take (stop - start) (drop start tokens).

Definition parser_join_token_lexemes_spaced (start stop : nat) (trailing_space : bool) : string :=
  join_spaced (token_range start stop) trailing_space.

Fixpoint join_compact (ts : list JZToken) : string :=
  match ts with
  | [] => EmptyString
  | t :: ts' =>
      match tok_lexeme t with None => join_compact ts' | Some l => (l ++ join_compact ts')%string end
  end.

Definition parser_join_token_lexemes_compact (start stop : nat) : string :=
  join_compact (token_range start stop).

Definition make_raw_text_node (start stop : nat) : option JZASTNode :=
  if stop <=? start then None
  else
    let node := jz_ast_new JZ_AST_RAW_TEXT (tok_loc (token_at start)) in
    match parser_join_token_lexemes_spaced start stop true with
    | EmptyString => Some node
    | s => Some (jz_ast_set_text (Some s) node)
    end.
End Tokens.
