(* ===== verification/ParseExpr.v ===== *)
(** * The expression parser: [compiler/src/parser/parser_expressions.c]

    One definition per function of the recursive descent.  [n] bounds the
    iterations of the loops and the unary and ternary recursion, and the fuel
    of [parse_expression] the recursion through it; one more than the tokens
    that are left is enough ([ParseProgress.parse_expression_total]). *)

From S2P Require Import Prelude Util Ast Lexer ParseCore.

Local Open Scope nat_scope.

Section ParseExpr.
Context (tokens : list JZToken).

Notation peek := (peek tokens).
Notation peek_token := (peek_token tokens).
Notation advance_token := (advance_token tokens).
Notation match_tok := (match_tok tokens).
Notation expect := (expect tokens).
Notation fail_with := (fail_with tokens).

(** ** Operators *)

Definition multiplicative_op (t : JZTokenType) : option string :=
  match t with
  | JZ_TOK_OP_STAR => Some "MUL" | JZ_TOK_OP_SLASH => Some "DIV" | JZ_TOK_OP_PERCENT => Some "MOD"
  | _ => None
  end%string.
Definition additive_op (t : JZTokenType) : option string :=
  match t with JZ_TOK_OP_PLUS => Some "ADD" | JZ_TOK_OP_MINUS => Some "SUB" | _ => None end%string.
Definition shift_op (t : JZTokenType) : option string :=
  match t with
  | JZ_TOK_OP_SHL => Some "SHL" | JZ_TOK_OP_SHR => Some "SHR" | JZ_TOK_OP_ASHR => Some "ASHR"
  | _ => None
  end%string.
Definition relational_op (t : JZTokenType) : option string :=
  match t with
  | JZ_TOK_OP_LT => Some "LT" | JZ_TOK_OP_LE => Some "LE" | JZ_TOK_OP_GT => Some "GT"
  | JZ_TOK_OP_GE => Some "GE" | _ => None
  end%string.
Definition equality_op (t : JZTokenType) : option string :=
  match t with JZ_TOK_OP_EQ => Some "EQ" | JZ_TOK_OP_NEQ => Some "NEQ" | _ => None end%string.
Definition bitwise_and_op (t : JZTokenType) : option string :=
  match t with JZ_TOK_OP_AMP => Some "BIT_AND" | _ => None end%string.
Definition bitwise_xor_op (t : JZTokenType) : option string :=
  match t with JZ_TOK_OP_CARET => Some "BIT_XOR" | _ => None end%string.
Definition bitwise_or_op (t : JZTokenType) : option string :=
  match t with JZ_TOK_OP_PIPE => Some "BIT_OR" | _ => None end%string.
Definition logical_and_op (t : JZTokenType) : option string :=
  match t with JZ_TOK_OP_AND_AND => Some "LOG_AND" | _ => None end%string.
Definition logical_or_op (t : JZTokenType) : option string :=
  match t with JZ_TOK_OP_OR_OR => Some "LOG_OR" | _ => None end%string.
Definition unary_op (t : JZTokenType) : option string :=
  match t with
  | JZ_TOK_OP_TILDE => Some "BIT_NOT" | JZ_TOK_OP_BANG => Some "LOG_NOT"
  | JZ_TOK_OP_PLUS => Some "POS" | JZ_TOK_OP_MINUS => Some "NEG"
  | _ => None
  end%string.

Definition builtin_names : list string :=
  [ "uadd"; "sadd"; "umul"; "smul"; "gbit"; "sbit"; "gslice"; "sslice"; "oh2b"; "b2oh"; "prienc";
    "lzc"; "usub"; "ssub"; "abs"; "umin"; "umax"; "smin"; "smax"; "popcount"; "reverse"; "bswap";
    "reduce_and"; "reduce_or"; "reduce_xor"; "lit"; "clog2"; "widthof"; "bwidth" ].

Definition is_builtin (t : JZToken) : bool :=
  tok_is JZ_TOK_IDENTIFIER t &&
  match tok_lexeme t with
  | Some name => List.existsb (String.eqb name) builtin_names
  | None => false
  end.

Definition is_number (t : JZToken) : bool := tok_is JZ_TOK_NUMBER t || tok_is JZ_TOK_SIZED_NUMBER t.

(** [strchr(s, '.') != NULL]. *)
Fixpoint has_dot (s : string) : bool :=
  match s with EmptyString => false | String c s' => Ascii.eqb c "." || has_dot s' end.

(** The tokens an index may start with. *)
Definition starts_index (t : JZToken) : bool :=
  List.existsb (fun ty => tok_is ty t)
    [ JZ_TOK_LBRACE; JZ_TOK_LPAREN; JZ_TOK_OP_TILDE; JZ_TOK_OP_BANG; JZ_TOK_OP_PLUS;
      JZ_TOK_OP_MINUS; JZ_TOK_NUMBER; JZ_TOK_SIZED_NUMBER; JZ_TOK_KW_GND; JZ_TOK_KW_VCC;
      JZ_TOK_IDENTIFIER; JZ_TOK_KW_CONFIG ].

(** ** Nodes *)

Definition literal_node (t : JZToken) : JZASTNode :=
  jz_ast_set_text (tok_lexeme t) (jz_ast_new JZ_AST_EXPR_LITERAL (tok_loc t)).
Definition identifier_node (name : string) (loc : JZLocation) : JZASTNode :=
  jz_ast_set_name (Some name)
    (jz_ast_new (if has_dot name then JZ_AST_EXPR_QUALIFIED_IDENTIFIER else JZ_AST_EXPR_IDENTIFIER) loc).
Definition binary_node (op : string) (loc : JZLocation) (l r : JZASTNode) : JZASTNode :=
  jz_ast_set_block_kind (Some op) (new_node JZ_AST_EXPR_BINARY loc [l; r]).
Definition unary_node (op : string) (loc : JZLocation) (e : JZASTNode) : JZASTNode :=
  jz_ast_set_block_kind (Some op) (new_node JZ_AST_EXPR_UNARY loc [e]).
Definition slice_node (base msb lsb : JZASTNode) : JZASTNode :=
  new_node JZ_AST_EXPR_SLICE (ast_loc base) [base; msb; lsb].

(** [base[index].member], the wildcard without an index. *)
Definition member_node (base : JZASTNode) (index : option JZASTNode) (member : option string) : JZASTNode :=
  let node := jz_ast_new JZ_AST_EXPR_INDEXED_MEMBER_ACCESS (ast_loc base) in
  let node := jz_ast_set_text member (jz_ast_set_name (ast_name base) node) in
  match index with
  | None => jz_ast_set_block_kind (Some "WILDCARD"%string) node
  | Some i => jz_ast_add_child i node
  end.

(** [base->type == JZ_AST_EXPR_IDENTIFIER && base->name]. *)
Definition is_port_name (base : JZASTNode) : bool :=
  node_is JZ_AST_EXPR_IDENTIFIER base && match ast_name base with Some _ => true | None => false end.

Section Levels.
(** [parse_expression] at the nesting below. *)
Variable expression : P JZASTNode.

(** Elements separated by commas, one at least. *)
Fixpoint comma_list (n : nat) : P (list JZASTNode) :=
  match n with
  | O => no_fuel
  | S n' =>
      elem ← expression;
      more ← match_tok JZ_TOK_COMMA;
      if (more : bool) then rest ← comma_list n'; mret (elem :: rest) else mret [elem]
  end.

Definition parse_simple_index_expr : P JZASTNode :=
  t ← peek_token;
  if starts_index t then expression else fail_with "expected expression in index".

(** ** Primary expressions *)

Definition builtin_call (n : nat) (t : JZToken) : P JZASTNode :=
  _ ← advance_token;
  _ ← advance_token;
  u ← peek_token;
  args ← (if tok_is JZ_TOK_RPAREN u then mret [] else comma_list n);
  _ ← expect JZ_TOK_RPAREN "expected ')' after builtin call arguments";
  mret (jz_ast_set_name (tok_lexeme t) (new_node JZ_AST_EXPR_BUILTIN_CALL (tok_loc t) args)).

(** The token after the current one. *)
Definition next_token (p : Parser) : JZToken :=
  token_at tokens (if ps_pos p + 1 <? length tokens then ps_pos p + 1 else length tokens - 1).

Definition parse_name (msg : string) (n : nat) : P JZASTNode := fun p =>
  match parser_parse_qualified_name tokens true true n p with
  | Some (Some (name, loc), p') => Some (Some (identifier_node name loc), p')
  | Some (None, p') => Some (None, parser_error tokens msg p')
  | None => None
  end.

Definition parse_primary_expr (n : nat) : P JZASTNode := fun p =>
  let t := peek p in
  if is_number t then (_ ← advance_token; mret (literal_node t)) p
  else if tok_is JZ_TOK_KW_GND t || tok_is JZ_TOK_KW_VCC t then
    (_ ← advance_token;
     mret (jz_ast_set_block_kind (Some (if tok_is JZ_TOK_KW_GND t then "GND" else "VCC")%string)
             (jz_ast_new JZ_AST_EXPR_SPECIAL_DRIVER (tok_loc t)))) p
  else if is_decl_identifier_token t || tok_is JZ_TOK_KW_CONFIG t then
    if is_builtin t && tok_is JZ_TOK_LPAREN (next_token p) then builtin_call n t p
    else parse_name "expected identifier" n p
  else if tok_is JZ_TOK_LPAREN t then
    (_ ← advance_token;
     inner ← expression;
     _ ← expect JZ_TOK_RPAREN "expected ')' after expression";
     mret inner) p
  else fail_with "expected primary expression" p.

(** ** Slices, indices and members *)

(** After the dot behind [base[...]]. *)
Definition parse_member (base : JZASTNode) (index : option JZASTNode) : P JZASTNode :=
  t ← peek_token;
  if negb (is_decl_identifier_token t) then fail_with "expected BUS member identifier after '.'"
  else if negb (is_port_name base) then fail_with "expected BUS port identifier before member access"
  else _ ← advance_token; mret (member_node base index (tok_lexeme t)).

(** After the opening bracket; expressions and left-hand sides differ in the
    message and in the copy of a single index. *)
Definition parse_bracket (msg : string) (copy : JZASTNode -> JZASTNode) (base : JZASTNode) : P JZASTNode :=
  is_wildcard ← match_tok JZ_TOK_OP_STAR;
  msb ← (if (is_wildcard : bool) then mret None else m ← parse_simple_index_expr; mret (Some m));
  is_slice ← (if (is_wildcard : bool) then mret false else match_tok JZ_TOK_OP_COLON);
  lsb ← (if (is_slice : bool) then l ← parse_simple_index_expr; mret (Some l) else mret None);
  _ ← expect JZ_TOK_RBRACKET msg;
  dot ← (if (is_slice : bool) then mret false else match_tok JZ_TOK_DOT);
  if (dot : bool) then parse_member base msb
  else
    match msb with
    | None => fail_with "wildcard index is only valid for BUS member access"
    | Some m => mret (slice_node base m (match lsb with Some l => l | None => copy m end))
    end.

Fixpoint postfix_loop (msg : string) (copy : JZASTNode -> JZASTNode) (n : nat) (expr : JZASTNode) : P JZASTNode :=
  match n with
  | O => no_fuel
  | S n' =>
      b ← match_tok JZ_TOK_LBRACKET;
      if (b : bool) then expr' ← parse_bracket msg copy expr; postfix_loop msg copy n' expr' else mret expr
  end.

Definition parse_postfix_expr (n : nat) : P JZASTNode :=
  expr ← parse_primary_expr n;
  postfix_loop "expected ']' after slice/index expression" parser_clone_ast_tree n expr.

(** ** Concatenation and replication *)

(** After [{ N {]. *)
Definition parse_replication (lbrace count : JZToken) : P JZASTNode :=
  elem ← expression;
  _ ← expect JZ_TOK_RBRACE "expected '}' after replication expression";
  _ ← expect JZ_TOK_RBRACE "expected '}' at end of concatenation";
  mret (new_node JZ_AST_EXPR_CONCAT (tok_loc lbrace) [literal_node count; elem]).

(** After the opening brace. *)
Definition parse_elements (n : nat) (lbrace : JZToken) : P JZASTNode :=
  t ← peek_token;
  elems ← (if tok_is JZ_TOK_RBRACE t then mret [] else comma_list n);
  _ ← expect JZ_TOK_RBRACE "expected '}' at end of concatenation";
  mret (new_node JZ_AST_EXPR_CONCAT (tok_loc lbrace) elems).

Definition parse_concat_or_primary_expr (n : nat) : P JZASTNode := fun p =>
  let lbrace := peek p in
  if tok_is JZ_TOK_LBRACE lbrace then
    let p := advance tokens p in
    let rep_count_tok := peek p in
    let inner := advance tokens p in
    if is_number rep_count_tok && tok_is JZ_TOK_LBRACE (peek inner)
    then parse_replication lbrace rep_count_tok (advance tokens inner)
    else parse_elements n lbrace p
  else parse_postfix_expr n p.

(** ** Operators by precedence *)

Fixpoint parse_unary_expr (n : nat) : P JZASTNode :=
  t ← peek_token;
  match unary_op (tok_type t) with
  | Some kind =>
      match n with
      | O => no_fuel
      | S n' =>
          _ ← advance_token; operand ← parse_unary_expr n'; mret (unary_node kind (tok_loc t) operand)
      end
  | None => parse_concat_or_primary_expr n
  end.

(** A left-associative level: the loop after the first operand. *)
Fixpoint binary_loop (op_of : JZTokenType -> option string) (operand : P JZASTNode) (n : nat)
    (left : JZASTNode) : P JZASTNode :=
  match n with
  | O => no_fuel
  | S n' =>
      t ← peek_token;
      match op_of (tok_type t) with
      | None => mret left
      | Some op =>
          _ ← advance_token;
          right ← operand;
          binary_loop op_of operand n' (binary_node op (tok_loc t) left right)
      end
  end.

Definition binary_level (op_of : JZTokenType -> option string) (n : nat) (operand : P JZASTNode) :
    P JZASTNode :=
  left ← operand; binary_loop op_of operand n left.

Definition parse_multiplicative_expr (n : nat) : P JZASTNode :=
  binary_level multiplicative_op n (parse_unary_expr n).
Definition parse_additive_expr (n : nat) : P JZASTNode :=
  binary_level additive_op n (parse_multiplicative_expr n).
Definition parse_shift_expr (n : nat) : P JZASTNode :=
  binary_level shift_op n (parse_additive_expr n).
Definition parse_relational_expr (n : nat) : P JZASTNode :=
  binary_level relational_op n (parse_shift_expr n).
Definition parse_equality_expr (n : nat) : P JZASTNode :=
  binary_level equality_op n (parse_relational_expr n).
Definition parse_bitwise_and_expr (n : nat) : P JZASTNode :=
  binary_level bitwise_and_op n (parse_equality_expr n).
Definition parse_bitwise_xor_expr (n : nat) : P JZASTNode :=
  binary_level bitwise_xor_op n (parse_bitwise_and_expr n).
Definition parse_bitwise_or_expr (n : nat) : P JZASTNode :=
  binary_level bitwise_or_op n (parse_bitwise_xor_expr n).
Definition parse_logical_and_expr (n : nat) : P JZASTNode :=
  binary_level logical_and_op n (parse_bitwise_or_expr n).
Definition parse_logical_or_expr (n : nat) : P JZASTNode :=
  binary_level logical_or_op n (parse_logical_and_expr n).

Fixpoint parse_ternary_expr (n : nat) : P JZASTNode :=
  cond ← parse_logical_or_expr n;
  q ← match_tok JZ_TOK_OP_QUESTION;
  if negb q then mret cond
  else
    true_expr ← expression;
    _ ← expect JZ_TOK_OP_COLON "expected ':' in ternary expression";
    false_expr ← (match n with O => no_fuel | S n' => parse_ternary_expr n' end);
    mret (new_node JZ_AST_EXPR_TERNARY (ast_loc cond) [cond; true_expr; false_expr]).
End Levels.

(** ** Entry point *)

(** The depth limit, then [m] one level deeper. *)
Definition deeper {A} (m : P A) : P A := fun p =>
  match jz_depth_enter_checked (ps_expr_depth p) JZ_LIMIT_PARSER_EXPR_DEPTH with
  | None =>
      Some (None, parser_report_rule (peek p) "PARSER_EXPR_DEPTH_LIMIT_EXCEEDED"
                    "expression nesting exceeds the parser safety limit" p)
  | Some d =>
      match m (set_expr_depth d p) with
      | Some (r, p') => Some (r, set_expr_depth (jz_depth_leave (ps_expr_depth p')) p')
      | None => None
      end
  end.

Fixpoint parse_expression (fuel : nat) : P JZASTNode :=
  match fuel with
  | O => no_fuel
  | S fuel' => deeper (parse_ternary_expr (parse_expression fuel') fuel)
  end.
End ParseExpr.
