(* ===== verification/ParseStmt.v ===== *)
(** * Statements and templates: [parser/parser_statements.c], [parser/parser_template.c]

    A C function that adds nodes to a parent and returns 0 is a computation of
    the nodes it adds; on [-1] every caller frees the parent.  The nesting of
    statement lists is bounded by [fuel], their loops by [n]. *)

From S2P Require Import Prelude Util Ast Lexer ParseCore ParseExpr.

Local Open Scope nat_scope.

Section ParseStmt.
Context (tokens : list JZToken).

Notation peek := (peek tokens).
Notation advance := (advance tokens).
Notation peek_token := (peek_token tokens).
Notation advance_token := (advance_token tokens).
Notation match_tok := (match_tok tokens).
Notation expect := (expect tokens).
Notation fail_with := (fail_with tokens).

(** [while (type of the next token is in ts) advance(p);] negated, and at the
    end of the file it stops too. *)
Fixpoint skip_until (ts : list JZTokenType) (n : nat) : P unit :=
  match n with
  | O => no_fuel
  | S n' =>
      t ← peek_token;
      if tok_is JZ_TOK_EOF t || List.existsb (fun ty => tok_is ty t) ts then mret tt
      else _ ← advance_token; skip_until ts n'
  end.

(** [if (peek(p)->type == type) advance(p);] *)
Definition skip_optional (type : JZTokenType) : P unit := _ ← match_tok type; mret tt.

(** [advance(p); return -1;] after the report of a rule. *)
Definition reject {A} (t : JZToken) (rule msg : string) : P A := fun p =>
  Some (None, advance (parser_report_rule t rule msg p)).
Definition report (t : JZToken) (rule msg : string) : P unit := update (parser_report_rule t rule msg).

Section Expressions.
(** [parse_expression]. *)
Variable expression : P JZASTNode.

(** ** Left-hand sides *)

Definition parse_lvalue_primary (n : nat) : P JZASTNode :=
  t ← peek_token;
  if negb (is_decl_identifier_token t || tok_is JZ_TOK_KW_CONFIG t)
  then fail_with "expected identifier in assignment left-hand side"
  else parse_name tokens "expected identifier in lvalue" n.

(** The node for the lower bound of [[idx]]. *)
Definition lvalue_index_copy (msb : JZASTNode) : JZASTNode :=
  let lsb := jz_ast_new (ast_type msb) (ast_loc msb) in
  if node_is JZ_AST_EXPR_IDENTIFIER msb then jz_ast_set_name (ast_name msb) lsb
  else if node_is JZ_AST_EXPR_LITERAL msb then jz_ast_set_text (ast_text msb) lsb
  else lsb.

(** [m], then [jz_depth_leave]. *)
Definition leaving_lvalue {A} (m : P A) : P A := fun p =>
  match m p with
  | Some (r, p') => Some (r, set_lvalue_depth (jz_depth_leave (ps_lvalue_depth p')) p')
  | None => None
  end.

(** When an element of a concatenation fails, the counter is left as it is. *)
Fixpoint parse_lvalue (n : nat) : P JZASTNode := fun p =>
  match jz_depth_enter_checked (ps_lvalue_depth p) JZ_LIMIT_PARSER_EXPR_DEPTH with
  | None =>
      report_null (peek p) "PARSER_EXPR_DEPTH_LIMIT_EXCEEDED"
        "lvalue nesting exceeds the parser safety limit" p
  | Some d =>
      match n with
      | O => None
      | S n' =>
          (brace ← match_tok JZ_TOK_LBRACE;
           if (brace : bool) then
             t ← peek_token;
             elems ← (if tok_is JZ_TOK_RBRACE t then mret [] else comma_list tokens (parse_lvalue n') n);
             leaving_lvalue
               (_ ← expect JZ_TOK_RBRACE "expected '}' at end of concatenation left-hand side";
                mret (new_node JZ_AST_EXPR_CONCAT (tok_loc t) elems))
           else
             leaving_lvalue
               (base ← parse_lvalue_primary n;
                postfix_loop tokens expression "expected ']' after lvalue slice/index"
                  lvalue_index_copy n base))
          (set_lvalue_depth d p)
      end
  end.

(** ** Assignments *)

Definition assignment_kind (t : JZTokenType) : option string :=
  match t with
  | JZ_TOK_OP_ASSIGN => Some "ALIAS" | JZ_TOK_OP_ASSIGN_Z => Some "ALIAS_Z"
  | JZ_TOK_OP_ASSIGN_S => Some "ALIAS_S" | JZ_TOK_OP_DRIVE => Some "DRIVE"
  | JZ_TOK_OP_DRIVE_Z => Some "DRIVE_Z" | JZ_TOK_OP_DRIVE_S => Some "DRIVE_S"
  | JZ_TOK_OP_LE => Some "RECEIVE" | JZ_TOK_OP_LE_Z => Some "RECEIVE_Z"
  | JZ_TOK_OP_LE_S => Some "RECEIVE_S" | _ => None
  end%string.

Definition assign_node (kind : string) (loc : JZLocation) (cs : list JZASTNode) : JZASTNode :=
  jz_ast_set_block_kind (Some kind) (new_node JZ_AST_STMT_ASSIGN loc cs).

Definition parse_assignment_stmt (n : nat) : P JZASTNode :=
  t ← peek_token;
  lhs ← parse_lvalue n;
  op_tok ← peek_token;
  match assignment_kind (tok_type op_tok) with
  | None => fail_with "expected assignment operator (=, =>, <= and variants)"
  | Some op_kind =>
      _ ← advance_token;
      first_rhs ← expression;
      latch ← (if tok_is JZ_TOK_OP_LE op_tok then match_tok JZ_TOK_OP_COLON else mret false);
      if (latch : bool) then
        rhs ← expression;
        _ ← expect JZ_TOK_SEMICOLON "expected ';' after assignment";
        mret (assign_node "RECEIVE_LATCH" (tok_loc t) [lhs; rhs; first_rhs])
      else
        _ ← expect JZ_TOK_SEMICOLON "expected ';' after assignment";
        mret (assign_node op_kind (tok_loc t) [lhs; first_rhs])
  end.

(** ** Templates *)

(** The tokens up to the bracket that closes an open one; [depth] counts. *)
Fixpoint skip_brackets (n : nat) (depth : Z) : P unit :=
  match n with
  | O => no_fuel
  | S n' =>
      t ← peek_token;
      if tok_is JZ_TOK_EOF t then mret tt
      else if tok_is JZ_TOK_LBRACKET t then _ ← advance_token; skip_brackets n' (depth + 1)
      else if tok_is JZ_TOK_RBRACKET t then
        if (depth - 1 =? 0)%Z then mret tt else _ ← advance_token; skip_brackets n' (depth - 1)
      else _ ← advance_token; skip_brackets n' depth
  end.

(** The text in brackets after the opening one. *)
Definition bracket_text (msg : string) (n : nat) : P string := fun p =>
  match skip_brackets n 1 p with
  | Some (Some _, p') =>
      let text := parser_join_token_lexemes_compact tokens (ps_pos p) (ps_pos p') in
      (_ ← expect JZ_TOK_RBRACKET msg; mret text) p'
  | Some (None, p') => Some (None, p')
  | None => None
  end.

(** An identifier and its lexeme. *)
Definition expect_identifier (msg : string) : P (string * JZLocation) :=
  t ← peek_token;
  match tok_lexeme t with
  | Some name =>
      if tok_is JZ_TOK_IDENTIFIER t then _ ← advance_token; mret (name, tok_loc t) else fail_with msg
  | None => fail_with msg
  end.

(** The token before the current one. *)
Definition consumed_token : P JZToken := fun p => Some (Some (token_at tokens (ps_pos p - 1)), p).

Definition parse_apply_stmt (n : nat) : P JZASTNode :=
  kw ← consumed_token;
  b ← match_tok JZ_TOK_LBRACKET;
  count ← (if (b : bool) then s ← bracket_text "expected ']' after @apply count expression" n; mret (Some s)
           else mret None);
  name ← expect_identifier "expected template name after @apply";
  _ ← expect JZ_TOK_LPAREN "expected '(' after template name in @apply";
  t ← peek_token;
  args ← (if tok_is JZ_TOK_RPAREN t then mret [] else comma_list tokens expression n);
  _ ← expect JZ_TOK_RPAREN "expected ')' after @apply arguments";
  _ ← expect JZ_TOK_SEMICOLON "expected ';' after @apply statement";
  mret (jz_ast_set_name (Some (fst name))
          (jz_ast_set_text count (new_node JZ_AST_TEMPLATE_APPLY (tok_loc kw) args))).

Definition parse_scratch_decl (n : nat) : P JZASTNode :=
  scratch_tok ← consumed_token;
  name ← expect_identifier "expected identifier after @scratch";
  _ ← expect JZ_TOK_LBRACKET "expected '[' after @scratch identifier for width";
  width ← bracket_text "expected ']' after @scratch width expression" n;
  _ ← expect JZ_TOK_SEMICOLON "expected ';' after @scratch declaration";
  mret (jz_ast_set_width (Some width)
          (jz_ast_set_name (Some (fst name)) (jz_ast_new JZ_AST_SCRATCH_DECL (tok_loc scratch_tok)))).

(** ** Statements *)

Definition structural_directives : list JZTokenType :=
  [ JZ_TOK_KW_NEW; JZ_TOK_KW_PROJECT; JZ_TOK_KW_ENDPROJ; JZ_TOK_KW_MODULE; JZ_TOK_KW_ENDMOD;
    JZ_TOK_KW_BLACKBOX; JZ_TOK_KW_IMPORT; JZ_TOK_KW_GLOBAL; JZ_TOK_KW_ENDGLOB ].

Section Nesting.
(** [parse_statement_list] at the nesting below, by its terminator. *)
Variable statement_list : JZTokenType -> P (list JZASTNode).
Variable is_sync : bool.

(** [(cond) {] of IF and ELIF, whose name is in the messages. *)
Definition parse_condition (t : JZToken) (kw : string) : P JZASTNode :=
  open ← match_tok JZ_TOK_LPAREN;
  if negb open then
    report_null t "IF_COND_MISSING_PARENS"
      ("expected '(' after " ++ kw ++ "; condition must be enclosed in parentheses" ++
       String "010" ("like: " ++ kw ++ " (expr) { ... }"))
  else
    cond ← expression;
    close ← match_tok JZ_TOK_RPAREN;
    if negb close then
      report_null t "IF_COND_MISSING_PARENS"
        ("expected ')' after " ++ kw ++ " condition; the condition must be enclosed" ++
         String "010" ("in parentheses like: " ++ kw ++ " (expr) { ... }"))
    else
      _ ← expect JZ_TOK_LBRACE ("expected '{' to begin " ++ kw ++ " body");
      mret cond.

Fixpoint elif_chain (n : nat) : P (list JZASTNode) :=
  match n with
  | O => no_fuel
  | S n' =>
      t ← peek_token;
      if tok_is JZ_TOK_KW_ELIF t then
        _ ← advance_token;
        elif_cond ← parse_condition t "ELIF";
        body ← statement_list JZ_TOK_RBRACE;
        rest ← elif_chain n';
        mret (new_node JZ_AST_STMT_ELIF (tok_loc t) (elif_cond :: body) :: rest)
      else if tok_is JZ_TOK_KW_ELSE t then
        _ ← advance_token;
        _ ← expect JZ_TOK_LBRACE "expected '{' to begin ELSE body";
        body ← statement_list JZ_TOK_RBRACE;
        mret [new_node JZ_AST_STMT_ELSE (tok_loc t) body]
      else mret []
  end.

Definition parse_if_chain (n : nat) : P (list JZASTNode) :=
  if_tok ← peek_token;
  _ ← advance_token;
  cond ← parse_condition if_tok "IF";
  body ← statement_list JZ_TOK_RBRACE;
  rest ← elif_chain n;
  mret (new_node JZ_AST_STMT_IF (tok_loc if_tok) (cond :: body) :: rest).

(** The labels of a SELECT up to the closing brace. *)
Fixpoint select_body (n : nat) (saw_default : bool) : P (list JZASTNode) :=
  match n with
  | O => no_fuel
  | S n' =>
      t ← peek_token;
      if tok_is JZ_TOK_RBRACE t then _ ← advance_token; mret []
      else if tok_is JZ_TOK_EOF t then fail_with "unterminated SELECT block (missing '}' )"
      else if tok_is JZ_TOK_SEMICOLON t then _ ← advance_token; select_body n' saw_default
      else if tok_is JZ_TOK_KW_CASE t then
        _ ← advance_token;
        val ← expression;
        brace ← match_tok JZ_TOK_LBRACE;
        body ← (if (brace : bool) then statement_list JZ_TOK_RBRACE
                else _ ← skip_optional JZ_TOK_SEMICOLON; mret []);
        rest ← select_body n' saw_default;
        mret (new_node JZ_AST_STMT_CASE (tok_loc t) (val :: body) :: rest)
      else if tok_is JZ_TOK_KW_DEFAULT t then
        if saw_default then fail_with "multiple DEFAULT labels in SELECT block"
        else
          _ ← advance_token;
          _ ← expect JZ_TOK_LBRACE "expected '{' to begin DEFAULT body";
          body ← statement_list JZ_TOK_RBRACE;
          rest ← select_body n' true;
          mret (new_node JZ_AST_STMT_DEFAULT (tok_loc t) body :: rest)
      else fail_with "expected CASE or DEFAULT inside SELECT block"
  end.

Definition parse_select_stmt (n : nat) : P (list JZASTNode) :=
  sel_tok ← peek_token;
  _ ← advance_token;
  _ ← expect JZ_TOK_LPAREN "expected '(' after SELECT";
  expr ← expression;
  _ ← expect JZ_TOK_RPAREN "expected ')' after SELECT expression";
  _ ← expect JZ_TOK_LBRACE "expected '{' to begin SELECT body";
  labels ← select_body n false;
  mret [new_node JZ_AST_STMT_SELECT (tok_loc sel_tok) (expr :: labels)].

(** The statements of a guarded body, and whether [@else] ends it. *)
Fixpoint parse_feature_guard_body (n : nat) : P (list JZASTNode * bool) :=
  match n with
  | O => no_fuel
  | S n' =>
      t ← peek_token;
      if tok_is JZ_TOK_KW_FEATURE_ELSE t then mret ([], true)
      else if tok_is JZ_TOK_KW_ENDFEAT t then mret ([], false)
      else if tok_is JZ_TOK_EOF t || tok_is JZ_TOK_RBRACE t then
        fail_with "unterminated @feature block (missing @endfeat)"
      else if tok_is JZ_TOK_SEMICOLON t then _ ← advance_token; parse_feature_guard_body n'
      else if tok_is JZ_TOK_KW_FEATURE t then
        reject t "FEATURE_NESTED"
          ("@feature cannot be nested inside another @feature guard;" ++
           String "010" "use a single @feature with a combined condition instead")
      else if tok_is JZ_TOK_KW_CHECK t then
        reject t "DIRECTIVE_INVALID_CONTEXT"
          ("@check is not allowed inside a @feature guard body;" ++
           String "010" "move it to module or project scope")
      else if List.existsb (fun ty => tok_is ty t) structural_directives then
        reject t "DIRECTIVE_INVALID_CONTEXT"
          ("structural directive is not allowed inside a @feature guard body;" ++
           String "010" "move @new and other structural directives to module scope")
      else if tok_is JZ_TOK_KW_CASE t || tok_is JZ_TOK_KW_DEFAULT t then
        reject t "CONTROL_FLOW_OUTSIDE_BLOCK"
          ("CASE/DEFAULT must appear inside a SELECT (...) { ... } block;" ++
           String "010" "they cannot be used standalone in a @feature body")
      else
        stmts ← (if tok_is JZ_TOK_KW_IF t then parse_if_chain n
                 else if tok_is JZ_TOK_KW_SELECT t then parse_select_stmt n
                 else stmt ← parse_assignment_stmt n; mret [stmt]);
        rest ← parse_feature_guard_body n';
        mret (stmts ++ fst rest, snd rest)
  end.

Definition feature_branch (kind : string) (loc : JZLocation) (body : list JZASTNode) : JZASTNode :=
  jz_ast_set_block_kind (Some kind) (new_node JZ_AST_BLOCK loc body).

(** [@endfeat], and the node of the guard. *)
Definition end_feature (kind : string) (t : JZToken) (cs : list JZASTNode) : P (list JZASTNode) :=
  _ ← expect JZ_TOK_KW_ENDFEAT "missing @endfeat for @feature block";
  mret [jz_ast_set_block_kind (Some kind) (new_node JZ_AST_FEATURE_GUARD (tok_loc t) cs)].

Definition parse_feature_guard_stmt (n : nat) : P (list JZASTNode) :=
  feat_tok ← peek_token;
  _ ← advance_token;
  cond ← expression;
  then_body ← parse_feature_guard_body n;
  let then_block := feature_branch "FEATURE_THEN" (tok_loc feat_tok) (fst then_body) in
  let kind := (if is_sync then "FEATURE_SYNC" else "FEATURE_ASYNC")%string in
  if (snd then_body : bool) then
    else_tok ← peek_token;
    _ ← advance_token;
    else_body ← parse_feature_guard_body n;
    end_feature kind feat_tok
      [cond; then_block; feature_branch "FEATURE_ELSE" (tok_loc else_tok) (fst else_body)]
  else end_feature kind feat_tok [cond; then_block].

(** After a misplaced [@new]: past its semicolon, or to the terminator outside
    braces. *)
Fixpoint skip_instance (terminator : JZTokenType) (n : nat) (depth : Z) : P unit :=
  match n with
  | O => no_fuel
  | S n' =>
      t ← peek_token;
      if tok_is JZ_TOK_EOF t then mret tt
      else if (depth =? 0)%Z && tok_is terminator t then mret tt
      else if tok_is JZ_TOK_LBRACE t then _ ← advance_token; skip_instance terminator n' (depth + 1)
      else if tok_is JZ_TOK_RBRACE t then _ ← advance_token; skip_instance terminator n' (depth - 1)
      else if tok_is JZ_TOK_SEMICOLON t && (depth <=? 0)%Z then advance_token
      else _ ← advance_token; skip_instance terminator n' depth
  end.

(** Recovery after a misplaced [@scratch] or [@check]. *)
Definition skip_directive (terminator : JZTokenType) (n : nat) : P unit :=
  _ ← advance_token;
  _ ← skip_until [JZ_TOK_SEMICOLON; terminator] n;
  skip_optional JZ_TOK_SEMICOLON.

(** One round of the loop at a token [t] that is not the terminator. *)
Definition parse_statement (terminator : JZTokenType) (n : nat) (t : JZToken) : P (list JZASTNode) :=
  if tok_is JZ_TOK_EOF t then fail_with "unterminated block (missing closing terminator)"
  else if tok_is JZ_TOK_SEMICOLON t then _ ← advance_token; mret []
  else if tok_is JZ_TOK_KW_IF t then parse_if_chain n
  else if tok_is JZ_TOK_KW_SELECT t then parse_select_stmt n
  else if tok_is JZ_TOK_KW_CASE t || tok_is JZ_TOK_KW_DEFAULT t then
    reject t "CONTROL_FLOW_OUTSIDE_BLOCK"
      ("CASE/DEFAULT must appear inside a SELECT (...) { ... } block;" ++
       String "010" "they cannot be used outside of a SELECT statement")
  else if tok_is JZ_TOK_KW_APPLY t then
    _ ← advance_token; apply ← parse_apply_stmt n; mret [apply]
  else if tok_is JZ_TOK_KW_SCRATCH t then
    _ ← report t "TEMPLATE_SCRATCH_OUTSIDE"
          ("@scratch found inside an executable block; @scratch declares temporary" ++
           String "010" "wires and may only be used inside a @template body");
    _ ← skip_directive terminator n; mret []
  else if tok_is JZ_TOK_KW_FEATURE t then parse_feature_guard_stmt n
  else if tok_is JZ_TOK_KW_FEATURE_ELSE t || tok_is JZ_TOK_KW_ENDFEAT t then
    fun p => Some (None, advance (parser_error tokens
                                    "unexpected feature directive without matching @feature" p))
  else if tok_is JZ_TOK_KW_CHECK t then
    _ ← report t "DIRECTIVE_INVALID_CONTEXT"
          ("@check is not allowed inside ASYNCHRONOUS/SYNCHRONOUS blocks;" ++
           String "010" "move it to module scope (directly inside @module...@endmod)");
    _ ← skip_directive terminator n; mret []
  else if List.existsb (fun ty => tok_is ty t) structural_directives then
    _ ← report t "DIRECTIVE_INVALID_CONTEXT"
          ("structural directive is not allowed inside ASYNCHRONOUS/SYNCHRONOUS blocks;" ++
           String "010" "move @new and other structural directives to module scope");
    _ ← advance_token;
    _ ← (if tok_is JZ_TOK_KW_NEW t then skip_instance terminator n 0 else mret tt);
    mret []
  else stmt ← parse_assignment_stmt n; mret [stmt].

Fixpoint statements (terminator : JZTokenType) (n : nat) : P (list JZASTNode) :=
  match n with
  | O => no_fuel
  | S n' =>
      t ← peek_token;
      if tok_is terminator t then _ ← advance_token; mret []
      else
        stmts ← parse_statement terminator n t;
        rest ← statements terminator n';
        mret (stmts ++ rest)
  end.
End Nesting.
End Expressions.

(** ** Entry points *)

(** The depth limit, then [m] one level deeper. *)
Definition deeper_stmt {A} (msg : string) (m : P A) : P A := fun p =>
  match jz_depth_enter_checked (ps_stmt_depth p) JZ_LIMIT_PARSER_STATEMENT_DEPTH with
  | None => report_null (peek p) "PARSER_STMT_DEPTH_LIMIT_EXCEEDED" msg p
  | Some d =>
      match m (set_stmt_depth d p) with
      | Some (r, p') => Some (r, set_stmt_depth (jz_depth_leave (ps_stmt_depth p')) p')
      | None => None
      end
  end.

Fixpoint parse_statement_list (fuel : nat) (is_sync : bool) (terminator : JZTokenType) :
    P (list JZASTNode) :=
  match fuel with
  | O => no_fuel
  | S fuel' =>
      deeper_stmt "statement nesting exceeds the parser safety limit"
        (statements (parse_expression tokens fuel) (parse_statement_list fuel' is_sync) is_sync
           terminator fuel)
  end.

(** ** Template definitions *)

(** Past nested templates to the [@endtemplate] that closes the first. *)
Fixpoint skip_templates (n : nat) (nest : Z) : P unit :=
  match n with
  | O => no_fuel
  | S n' =>
      t ← peek_token;
      if tok_is JZ_TOK_EOF t || (nest <=? 0)%Z then mret tt
      else
        let nest := if tok_is JZ_TOK_KW_TEMPLATE t then (nest + 1)%Z
                    else if tok_is JZ_TOK_KW_ENDTEMPLATE t then (nest - 1)%Z else nest in
        _ ← (if (0 <? nest)%Z then advance_token else mret tt);
        skip_templates n' nest
  end.

(** Past the braces of a block whose opening brace is consumed; [ts] stop it. *)
Fixpoint skip_braces (ts : list JZTokenType) (n : nat) (depth : Z) : P unit :=
  match n with
  | O => no_fuel
  | S n' =>
      t ← peek_token;
      if tok_is JZ_TOK_EOF t || List.existsb (fun ty => tok_is ty t) ts || (depth <=? 0)%Z then mret tt
      else
        _ ← advance_token;
        skip_braces ts n'
          (if tok_is JZ_TOK_LBRACE t then depth + 1
           else if tok_is JZ_TOK_RBRACE t then depth - 1 else depth)%Z
  end.

(** Past a misplaced directive: to the semicolon outside braces. *)
Fixpoint skip_template_directive (n : nat) (depth : Z) : P unit :=
  match n with
  | O => no_fuel
  | S n' =>
      t ← peek_token;
      if tok_is JZ_TOK_EOF t || tok_is JZ_TOK_KW_ENDTEMPLATE t then mret tt
      else
        let depth := (if tok_is JZ_TOK_LBRACE t then depth + 1
                      else if tok_is JZ_TOK_RBRACE t then if 0 <? depth then depth - 1 else depth
                      else depth)%Z in
        _ ← advance_token;
        if tok_is JZ_TOK_SEMICOLON t && (depth =? 0)%Z then mret tt
        else skip_template_directive n' depth
  end.

(** Past the header and the body of a misplaced block. *)
Definition skip_block (n : nat) : P unit :=
  header ← match_tok JZ_TOK_LPAREN;
  _ ← (if (header : bool) then
         _ ← skip_until [JZ_TOK_RPAREN; JZ_TOK_KW_ENDTEMPLATE] n; skip_optional JZ_TOK_RPAREN
       else mret tt);
  body ← match_tok JZ_TOK_LBRACE;
  if (body : bool) then skip_braces [JZ_TOK_KW_ENDTEMPLATE] n 1 else mret tt.

Definition forbidden_declarations : list JZTokenType :=
  [ JZ_TOK_KW_WIRE; JZ_TOK_KW_REGISTER; JZ_TOK_KW_PORT; JZ_TOK_KW_MEM; JZ_TOK_KW_MUX;
    JZ_TOK_KW_LATCH; JZ_TOK_KW_CONST; JZ_TOK_KW_CDC ].
Definition forbidden_directives : list JZTokenType :=
  [ JZ_TOK_KW_NEW; JZ_TOK_KW_MODULE; JZ_TOK_KW_ENDMOD; JZ_TOK_KW_PROJECT; JZ_TOK_KW_ENDPROJ;
    JZ_TOK_KW_BLACKBOX; JZ_TOK_KW_IMPORT; JZ_TOK_KW_FEATURE; JZ_TOK_KW_ENDFEAT;
    JZ_TOK_KW_FEATURE_ELSE; JZ_TOK_KW_GLOBAL; JZ_TOK_KW_ENDGLOB; JZ_TOK_KW_CHECK; JZ_TOK_KW_APPLY ].
Definition statement_starts : list JZTokenType :=
  [ JZ_TOK_KW_IF; JZ_TOK_KW_SELECT; JZ_TOK_IDENTIFIER; JZ_TOK_KW_CONFIG; JZ_TOK_LBRACE ].

(** Up to and past [@endtemplate]; from the first statement on, the rest is a
    statement list. *)
Fixpoint template_body (fuel n : nat) : P (list JZASTNode) :=
  match n with
  | O => no_fuel
  | S n' =>
      t ← peek_token;
      let is_any := List.existsb (fun ty => tok_is ty t) in
      if tok_is JZ_TOK_EOF t || tok_is JZ_TOK_KW_ENDTEMPLATE t then
        _ ← expect JZ_TOK_KW_ENDTEMPLATE "missing @endtemplate for template definition"; mret []
      else if tok_is JZ_TOK_SEMICOLON t then _ ← advance_token; template_body fuel n'
      else if tok_is JZ_TOK_KW_SCRATCH t then
        _ ← advance_token;
        scratch ← parse_scratch_decl fuel;
        rest ← template_body fuel n';
        mret (scratch :: rest)
      else if tok_is JZ_TOK_KW_TEMPLATE t then
        _ ← report t "TEMPLATE_NESTED_DEF"
              ("found @template inside another @template body" ++
               String "010" "move the inner template to module scope alongside the outer one");
        _ ← advance_token;
        _ ← skip_templates fuel 1;
        _ ← skip_optional JZ_TOK_KW_ENDTEMPLATE;
        template_body fuel n'
      else if is_any forbidden_declarations then
        _ ← report t "TEMPLATE_FORBIDDEN_DECL"
              "declaration blocks are not allowed inside template body; use @scratch for temporary signals";
        _ ← advance_token;
        b ← match_tok JZ_TOK_LBRACE;
        _ ← (if (b : bool) then skip_braces [] fuel 1 else mret tt);
        template_body fuel n'
      else if tok_is JZ_TOK_KW_ASYNC t || tok_is JZ_TOK_KW_SYNC t then
        _ ← report t "TEMPLATE_FORBIDDEN_BLOCK_HEADER"
              ("templates contain only statements, not block headers" ++
               String "010" "@apply the template from inside a SYNCHRONOUS or ASYNCHRONOUS block");
        _ ← advance_token;
        _ ← skip_block fuel;
        template_body fuel n'
      else if is_any forbidden_directives then
        _ ← report t "TEMPLATE_FORBIDDEN_DIRECTIVE"
              ("structural directives (@new, @module, @feature, etc.) cannot appear" ++
               String "010" "inside a template body; templates may only contain assignment statements");
        _ ← advance_token;
        _ ← skip_template_directive fuel 0;
        template_body fuel n'
      else if is_any statement_starts then parse_statement_list fuel false JZ_TOK_KW_ENDTEMPLATE
      else _ ← advance_token; template_body fuel n'
  end.

Fixpoint template_params (n : nat) : P (list JZASTNode) :=
  match n with
  | O => no_fuel
  | S n' =>
      param ← expect_identifier "expected parameter name in template parameter list";
      let node := jz_ast_set_name (Some (fst param)) (jz_ast_new JZ_AST_TEMPLATE_PARAM (snd param)) in
      more ← match_tok JZ_TOK_COMMA;
      if (more : bool) then rest ← template_params n'; mret (node :: rest) else mret [node]
  end.

Definition parse_template_def (fuel : nat) : P JZASTNode :=
  kw ← consumed_token;
  name ← expect_identifier "expected identifier after @template";
  _ ← expect JZ_TOK_LPAREN "expected '(' after template name";
  t ← peek_token;
  params ← (if tok_is JZ_TOK_RPAREN t then mret [] else template_params fuel);
  _ ← expect JZ_TOK_RPAREN "expected ')' after template parameters";
  body ← template_body fuel fuel;
  mret (jz_ast_set_name (Some (fst name))
          (new_node JZ_AST_TEMPLATE_DEF (tok_loc kw) (params ++ body))).

(** ** Guarded declarations *)

(** With the parser of the declarations in a branch. *)
Definition parse_feature_guard_in_block (body_fn : P (list JZASTNode)) (fuel : nat) : P (list JZASTNode) :=
  deeper_stmt "feature nesting exceeds the parser safety limit"
    (feat_tok ← peek_token;
     _ ← advance_token;
     cond ← parse_expression tokens fuel;
     then_body ← body_fn;
     let then_block := feature_branch "FEATURE_THEN" (tok_loc feat_tok) then_body in
     else_tok ← peek_token;
     if tok_is JZ_TOK_KW_FEATURE_ELSE else_tok then
       _ ← advance_token;
       else_body ← body_fn;
       end_feature "FEATURE_DECL" feat_tok
         [cond; then_block; feature_branch "FEATURE_ELSE" (tok_loc else_tok) else_body]
     else end_feature "FEATURE_DECL" feat_tok [cond; then_block]).
End ParseStmt.
