(* ===== verification/ParseGrammar.v ===== *)
(** * The grammar of expressions

    [spells n l ts e]: the tokens [ts] are an expression of level [l] with the
    tree [e], locations included, in which calls of [parse_expression] are
    nested at most [n] deep.  Level 0 is the ternary operator, 1 to 10 are the
    binary operators from [||] to [*], 11 the signs, 12 braces, 13 slices and
    members, 14 the primary expressions.  The grammar is the one the parser
    has, not the one its comments give: a name may end in a dot, and a single
    index is a slice whose bounds are equal. *)

From S2P Require Import Prelude Util CString Ast Lexer ParseCore ParseExpr.

Local Open Scope nat_scope.

Definition level_op (l : nat) : JZTokenType -> option string :=
  match l with
  | 1 => logical_or_op | 2 => logical_and_op | 3 => bitwise_or_op | 4 => bitwise_xor_op
  | 5 => bitwise_and_op | 6 => equality_op | 7 => relational_op | 8 => shift_op
  | 9 => additive_op | 10 => multiplicative_op | _ => fun _ => None
  end.

Lemma level_op_eof l : level_op l JZ_TOK_EOF = None.
Proof. do 11 (destruct l as [|l]; [done|]). done. Qed.

(** The function of the parser for a level. *)
Definition level_parser (tokens : list JZToken) (expression : P JZASTNode) (l n : nat) : P JZASTNode :=
  match l with
  | 0 => parse_ternary_expr tokens expression n
  | 1 => parse_logical_or_expr tokens expression n
  | 2 => parse_logical_and_expr tokens expression n
  | 3 => parse_bitwise_or_expr tokens expression n
  | 4 => parse_bitwise_xor_expr tokens expression n
  | 5 => parse_bitwise_and_expr tokens expression n
  | 6 => parse_equality_expr tokens expression n
  | 7 => parse_relational_expr tokens expression n
  | 8 => parse_shift_expr tokens expression n
  | 9 => parse_additive_expr tokens expression n
  | 10 => parse_multiplicative_expr tokens expression n
  | 11 => parse_unary_expr tokens expression n
  | 12 => parse_concat_or_primary_expr tokens expression n
  | 13 => parse_postfix_expr tokens expression n
  | _ => parse_primary_expr tokens expression n
  end.

Lemma level_binary tokens expression l n :
  1 <= l <= 10 ->
  level_parser tokens expression l n =
    binary_level tokens (level_op l) n (level_parser tokens expression (S l) n).
Proof. intros Hl. destruct l as [|l]; [lia|]. do 10 (destruct l as [|l]; [done|]). lia. Qed.

(** A segment of a name. *)
Definition is_segment (t : JZToken) : bool :=
  match tok_lexeme t with None => false | Some _ => accepts_segment true true t end.

Inductive name_spelled : list JZToken -> string -> Prop :=
  | name_last t s : is_segment t = true -> tok_lexeme t = Some s -> name_spelled [t] s
  | name_dotted t d s :
      is_segment t = true -> tok_lexeme t = Some s -> tok_type d = JZ_TOK_DOT ->
      name_spelled [t; d] (s ++ ".")
  | name_more t d s ts s' :
      is_segment t = true -> tok_lexeme t = Some s -> tok_type d = JZ_TOK_DOT ->
      name_spelled ts s' -> name_spelled (t :: d :: ts) (s ++ "." ++ s').

(** The token at the front of a nonempty list. *)
Definition starts (f : JZToken -> bool) (ts : list JZToken) : Prop :=
  match ts with t :: _ => f t = true | [] => False end.

Definition special_name (t : JZToken) : string :=
  if tok_is JZ_TOK_KW_GND t then "GND" else "VCC".

Definition is_special (t : JZToken) : bool := tok_is JZ_TOK_KW_GND t || tok_is JZ_TOK_KW_VCC t.
Definition is_name_head (t : JZToken) : bool :=
  negb (is_number t) && negb (is_special t) && is_segment t.

(** The lower bound of the slice for a single index. *)
Notation index_copy := parser_clone_ast_tree.

Inductive spells : nat -> nat -> list JZToken -> JZASTNode -> Prop :=
  | sp_down n l ts e : l < 14 -> spells n (S l) ts e -> spells n l ts e
  | sp_ternary n ts1 ts2 ts3 c a b q s :
      spells (S n) 1 ts1 c -> spells n 0 ts2 a -> spells (S n) 0 ts3 b ->
      tok_type q = JZ_TOK_OP_QUESTION -> tok_type s = JZ_TOK_OP_COLON ->
      spells (S n) 0 (ts1 ++ q :: ts2 ++ s :: ts3) (new_node JZ_AST_EXPR_TERNARY (ast_loc c) [c; a; b])
  | sp_binary n l ts1 ts2 a b o op :
      level_op l (tok_type o) = Some op -> spells n l ts1 a -> spells n (S l) ts2 b ->
      spells n l (ts1 ++ o :: ts2) (binary_node op (tok_loc o) a b)
  | sp_unary n ts e o op :
      unary_op (tok_type o) = Some op -> spells n 11 ts e ->
      spells n 11 (o :: ts) (unary_node op (tok_loc o) e)
  | sp_empty n lb rb :
      tok_type lb = JZ_TOK_LBRACE -> tok_type rb = JZ_TOK_RBRACE ->
      spells n 12 [lb; rb] (new_node JZ_AST_EXPR_CONCAT (tok_loc lb) [])
  | sp_concat n ts es lb rb :
      tok_type lb = JZ_TOK_LBRACE -> tok_type rb = JZ_TOK_RBRACE -> spells_list n ts es ->
      spells (S n) 12 (lb :: ts ++ [rb]) (new_node JZ_AST_EXPR_CONCAT (tok_loc lb) es)
  | sp_replicate n ts e lb c lb' rb rb' :
      tok_type lb = JZ_TOK_LBRACE -> is_number c = true -> tok_type lb' = JZ_TOK_LBRACE ->
      tok_type rb = JZ_TOK_RBRACE -> tok_type rb' = JZ_TOK_RBRACE -> spells n 0 ts e ->
      spells (S n) 12 (lb :: c :: lb' :: ts ++ [rb; rb'])
        (new_node JZ_AST_EXPR_CONCAT (tok_loc lb) [literal_node c; e])
  | sp_slice n ts e ts1 m ts2 k lb s rb :
      spells (S n) 13 ts e -> tok_type lb = JZ_TOK_LBRACKET ->
      starts starts_index ts1 -> spells n 0 ts1 m -> tok_type s = JZ_TOK_OP_COLON ->
      starts starts_index ts2 -> spells n 0 ts2 k -> tok_type rb = JZ_TOK_RBRACKET ->
      spells (S n) 13 (ts ++ lb :: ts1 ++ s :: ts2 ++ [rb]) (slice_node e m k)
  | sp_index n ts e ts1 m lb rb :
      spells (S n) 13 ts e -> tok_type lb = JZ_TOK_LBRACKET ->
      starts starts_index ts1 -> spells n 0 ts1 m -> tok_type rb = JZ_TOK_RBRACKET ->
      spells (S n) 13 (ts ++ lb :: ts1 ++ [rb]) (slice_node e m (index_copy m))
  | sp_member n ts e ts1 m lb rb d t :
      spells (S n) 13 ts e -> tok_type lb = JZ_TOK_LBRACKET ->
      starts starts_index ts1 -> spells n 0 ts1 m -> tok_type rb = JZ_TOK_RBRACKET ->
      tok_type d = JZ_TOK_DOT -> is_decl_identifier_token t = true -> is_port_name e = true ->
      spells (S n) 13 (ts ++ lb :: ts1 ++ [rb; d; t]) (member_node e (Some m) (tok_lexeme t))
  | sp_wildcard n ts e lb w rb d t :
      spells n 13 ts e -> tok_type lb = JZ_TOK_LBRACKET -> tok_type w = JZ_TOK_OP_STAR ->
      tok_type rb = JZ_TOK_RBRACKET ->
      tok_type d = JZ_TOK_DOT -> is_decl_identifier_token t = true -> is_port_name e = true ->
      spells n 13 (ts ++ [lb; w; rb; d; t]) (member_node e None (tok_lexeme t))
  | sp_literal n t : is_number t = true -> spells n 14 [t] (literal_node t)
  | sp_special n t :
      is_number t = false -> is_special t = true ->
      spells n 14 [t]
        (jz_ast_set_block_kind (Some (special_name t)) (jz_ast_new JZ_AST_EXPR_SPECIAL_DRIVER (tok_loc t)))
  | sp_name n t ts s :
      is_name_head t = true -> name_spelled (t :: ts) s ->
      spells n 14 (t :: ts) (identifier_node s (tok_loc t))
  | sp_call0 n t lp rp :
      is_builtin t = true -> tok_type lp = JZ_TOK_LPAREN -> tok_type rp = JZ_TOK_RPAREN ->
      spells n 14 [t; lp; rp]
        (jz_ast_set_name (tok_lexeme t) (new_node JZ_AST_EXPR_BUILTIN_CALL (tok_loc t) []))
  | sp_call n t lp ts es rp :
      is_builtin t = true -> tok_type lp = JZ_TOK_LPAREN -> spells_list n ts es ->
      tok_type rp = JZ_TOK_RPAREN ->
      spells (S n) 14 (t :: lp :: ts ++ [rp])
        (jz_ast_set_name (tok_lexeme t) (new_node JZ_AST_EXPR_BUILTIN_CALL (tok_loc t) es))
  | sp_paren n lp ts e rp :
      tok_type lp = JZ_TOK_LPAREN -> spells n 0 ts e -> tok_type rp = JZ_TOK_RPAREN ->
      spells (S n) 14 (lp :: ts ++ [rp]) e
(** Separated by commas. *)
with spells_list : nat -> list JZToken -> list JZASTNode -> Prop :=
  | sp_one n ts e : spells n 0 ts e -> spells_list n ts [e]
  | sp_cons n ts e c ts' es :
      spells n 0 ts e -> tok_type c = JZ_TOK_COMMA -> spells_list n ts' es ->
      spells_list n (ts ++ c :: ts') (e :: es).

Scheme spells_mut := Minimality for spells Sort Prop
  with spells_list_mut := Minimality for spells_list Sort Prop.
Combined Scheme spells_both from spells_mut, spells_list_mut.

Lemma spells_nonempty n l ts e : spells n l ts e -> ts <> [].
Proof.
  induction 1; try done;
    (intros E; apply (f_equal length) in E; rewrite ?length_app in E; cbn in E; lia).
Qed.

Lemma spells_up n l k ts e : l <= k -> k <= 14 -> spells n k ts e -> spells n l ts e.
Proof.
  intros Hl Hk H. induction Hl as [|k' Hl IH]; [done|]. apply IH; [lia|]. by apply sp_down; [lia|].
Qed.

(** ** Copies *)

Lemma trim_right_idem s : trim_right (trim_right s) = trim_right s.
Proof.
  induction s as [|c s IH]; [done|]. cbn [trim_right]. destruct (trim_right s) as [|d u] eqn:E.
  - destruct (isspace c) eqn:Hc; [done|]. cbn. by rewrite Hc.
  - cbn [trim_right] in *. by rewrite IH.
Qed.

Lemma drop_trim s : drop_while isspace s = s -> drop_while isspace (trim_right s) = trim_right s.
Proof.
  destruct s as [|c s]; [done|]. cbn [drop_while trim_right]. destruct (isspace c) eqn:Hc.
  - intros E. assert (String.length (drop_while isspace s) <= String.length s) as Hlen.
    { clear. induction s as [|c s IH]; [done|]. cbn. destruct (isspace c); cbn; lia. }
    rewrite E in Hlen. cbn in Hlen. lia.
  - intros _. destruct (trim_right s); cbn; by rewrite Hc.
Qed.

Lemma drop_while_idem s : drop_while isspace (drop_while isspace s) = drop_while isspace s.
Proof.
  induction s as [|c s IH]; [done|]. cbn. destruct (isspace c) eqn:E; [done|]. cbn. by rewrite E.
Qed.

Lemma trim_idem s : jz_strdup_trim (jz_strdup_trim s) = jz_strdup_trim s.
Proof.
  unfold jz_strdup_trim. rewrite drop_trim by apply drop_while_idem. apply trim_right_idem.
Qed.

Lemma new_node_eq ty loc cs : new_node ty loc cs = mkNode ty loc None None None None cs.
Proof.
  unfold new_node. assert (forall n, foldl (fun n c => jz_ast_add_child c n) n cs =
    mkNode (ast_type n) (ast_loc n) (ast_name n) (ast_block_kind n) (ast_text n) (ast_width n)
      (ast_children n ++ cs)) as H; [|by rewrite H].
  induction cs as [|c cs IH]; intros n; cbn; [by rewrite app_nil_r; destruct n|].
  rewrite IH. cbn. by rewrite <- app_assoc.
Qed.

(** Trees whose strings are trimmed are copied as they are. *)
Definition copied (n : JZASTNode) : Prop := parser_clone_ast_tree n = n.

Lemma option_trim_idem (s : option string) :
  option_map jz_strdup_trim (option_map jz_strdup_trim s) = option_map jz_strdup_trim s.
Proof. destruct s; [cbn; by rewrite trim_idem|done]. Qed.

Lemma copied_node ty loc name bk text cs :
  Forall copied cs ->
  copied (mkNode ty loc (option_map jz_strdup_trim name) (option_map jz_strdup_trim bk)
    (option_map jz_strdup_trim text) None cs).
Proof.
  intros H. unfold copied. cbn. rewrite !option_trim_idem. f_equal.
  induction H as [|c cs Hc _ IH]; [done|]. cbn. by rewrite Hc, IH.
Qed.

Lemma copied_name ty loc name cs :
  Forall copied cs -> copied (jz_ast_set_name name (new_node ty loc cs)).
Proof. intros H. rewrite new_node_eq. by apply (copied_node ty loc name None None cs). Qed.
Lemma copied_kind ty loc kind cs :
  Forall copied cs -> copied (jz_ast_set_block_kind kind (new_node ty loc cs)).
Proof. intros H. rewrite new_node_eq. by apply (copied_node ty loc None kind None cs). Qed.
Lemma copied_plain ty loc cs : Forall copied cs -> copied (new_node ty loc cs).
Proof. intros H. rewrite new_node_eq. by apply (copied_node ty loc None None None cs). Qed.

Lemma copied_children n : copied n -> ast_name n = option_map jz_strdup_trim (ast_name n).
Proof. unfold copied. destruct n as [ty loc name bk text w cs]. cbn. congruence. Qed.

Lemma copied_member e index member :
  copied e -> match index with Some i => copied i | None => True end -> copied (member_node e index member).
Proof.
  intros He Hi. apply copied_children in He. unfold member_node. destruct index as [i|].
  - by apply (copied_node _ (ast_loc e) (ast_name e) None member [i]); constructor.
  - by apply (copied_node _ (ast_loc e) (ast_name e) (Some "WILDCARD"%string) member []).
Qed.

Ltac all_copied := repeat (apply Forall_cons; split); try apply Forall_nil_2.

(** The nodes of expressions are copied as they are. *)
Lemma spells_copied :
  (forall n l ts e, spells n l ts e -> copied e) /\
  (forall n ts es, spells_list n ts es -> Forall copied es).
Proof.
  assert (forall t, copied (literal_node t)) as Hlit
    by (intros t; by apply (copied_node _ _ None None (tok_lexeme t) [])).
  apply spells_both.
  - done.
  - intros. by apply copied_plain; all_copied.
  - intros. by apply copied_kind; all_copied.
  - intros. by apply copied_kind; all_copied.
  - intros. by apply copied_plain; all_copied.
  - intros. by apply copied_plain.
  - intros. apply copied_plain. all_copied; [apply Hlit|done].
  - intros. by apply copied_plain; all_copied.
  - intros n ts e ts1 m lb rb _ He _ _ _ Hm _. apply copied_plain.
    all_copied; [done|done|]. red. by rewrite Hm.
  - intros. by apply copied_member.
  - intros. by apply copied_member.
  - intros. apply Hlit.
  - intros. by apply (copied_kind _ _ _ []).
  - intros. by apply (copied_name _ _ _ []).
  - intros. by apply copied_name.
  - intros. by apply copied_name.
  - done.
  - intros. by all_copied.
  - intros. by all_copied.
Qed.

(** ** Running a computation *)

Section Stream.
(** The tokens before the end-of-file token. *)
Context (body : list JZToken) (eof : JZToken) (Heof : tok_type eof = JZ_TOK_EOF).
Notation tokens := (body ++ [eof]).
Notation peek := (peek tokens).
Notation advance := (advance tokens).

Definition rest (p : Parser) : list JZToken := drop (ps_pos p) body.
Definition left (p : Parser) : nat := length (rest p).
Definition front (ts : list JZToken) : JZToken := match ts with t :: _ => t | [] => eof end.
Definition forward (k : nat) (p : Parser) : Parser := set_pos (ps_pos p + k) p.

Lemma peek_front p : peek p = front (rest p).
Proof using Type.
  unfold ParseCore.peek, token_at, rest, front. rewrite length_app. cbn [length].
  destruct (drop (ps_pos p) body) as [|t r] eqn:E.
  - assert (length body <= ps_pos p) as Hl.
    { assert (length (drop (ps_pos p) body) = 0) as H by by rewrite E. rewrite length_drop in H. lia. }
    destruct (Nat.ltb_spec (ps_pos p) (length body + 1)).
    + replace (ps_pos p) with (length body) by lia. by rewrite app_nth2, Nat.sub_diag by lia.
    + replace (length body + 1 - 1) with (length body) by lia. by rewrite app_nth2, Nat.sub_diag by lia.
  - assert (body !! ps_pos p = Some t) as Ht.
    { rewrite <- (Nat.add_0_r (ps_pos p)), <- lookup_drop, E. done. }
    pose proof (lookup_lt_Some _ _ _ Ht). destruct (Nat.ltb_spec (ps_pos p) (length body + 1)); [|lia].
    rewrite app_nth1 by lia. by apply nth_lookup_Some.
Qed.

Lemma advance_forward p t r : rest p = t :: r -> advance p = forward 1 p /\ rest (forward 1 p) = r.
Proof using Type.
  unfold ParseCore.advance, rest, forward. intros E.
  assert (length (drop (ps_pos p) body) = S (length r)) as H by by rewrite E.
  rewrite length_drop in H. rewrite length_app. cbn [length].
  destruct (Nat.ltb_spec (ps_pos p) (length body + 1)); [|lia].
  split; [by rewrite Nat.add_1_r|]. cbn. by rewrite <- drop_drop, E.
Qed.

Lemma rest_forward ts r p : rest p = ts ++ r -> rest (forward (length ts) p) = r.
Proof using Type.
  unfold rest, forward. cbn. intros E. by rewrite <- drop_drop, E, drop_app_length.
Qed.

Lemma forward_forward j k p : forward j (forward k p) = forward (k + j) p.
Proof using Type. unfold forward, set_pos. cbn. by rewrite Nat.add_assoc. Qed.
Lemma forward_0 p : forward 0 p = p.
Proof using Type. unfold forward, set_pos. destruct p. cbn. by rewrite Nat.add_0_r. Qed.

Lemma front_type ts ty : ty <> JZ_TOK_EOF -> tok_is ty (front ts) = true ->
  exists t r, ts = t :: r /\ tok_type t = ty.
Proof using Heof.
  unfold tok_is. intros Hne Ht. apply bool_decide_eq_true in Ht. destruct ts as [|t r]; cbn in Ht.
  - congruence.
  - by exists t, r.
Qed.
End Stream.
