(* ===== verification/ParseLogic.v ===== *)
(** * Reasoning about parser computations

    [parses p m Q]: run at [p], the computation [m] does not run out of fuel;
    it either returns [a] after consuming tokens [ts] with [Q ts a], and then
    only the position has changed, or it returns [NULL] after exactly one
    diagnostic, with the counters of the parser as they were. *)

From S2P Require Import Prelude Util CString Ast Lexer ParseCore ParseExpr ParseGrammar.

Local Open Scope nat_scope.

Section Logic.
Context (body : list JZToken) (eof : JZToken) (Heof : tok_type eof = JZ_TOK_EOF).
Notation tokens := (body ++ [eof]).
Notation rest := (rest body).
Notation left := (left body).
Notation front := (front eof).

Definition failed (p p' : Parser) : Prop :=
  ps_pos p <= ps_pos p' /\ ps_expr_depth p' = ps_expr_depth p /\
  ps_lvalue_depth p' = ps_lvalue_depth p /\ ps_stmt_depth p' = ps_stmt_depth p /\
  exists d, ps_diags p' = d :: ps_diags p.

Definition parses {A} (p : Parser) (m : P A) (Q : list JZToken -> A -> Prop) : Prop :=
  match m p with
  | Some (Some a, p') => exists ts, p' = forward (length ts) p /\ rest p = ts ++ rest p' /\ Q ts a
  | Some (None, p') => failed p p'
  | None => False
  end.

Lemma failed_forward k p p' : failed (forward k p) p' -> failed p p'.
Proof using Type. intros (H1 & H2 & H3 & H4 & d & H5). repeat split; [cbn in *; lia|done..|by exists d]. Qed.

Lemma failed_report p d : failed p (add_parse_diag d p).
Proof using Type. repeat split; [done|by exists d]. Qed.

Lemma parses_weaken {A} p (m : P A) (Q R : list JZToken -> A -> Prop) :
  parses p m Q -> (forall ts a, Q ts a -> R ts a) -> parses p m R.
Proof using Type.
  unfold parses. destruct (m p) as [[[a|] p']|]; [|done|done]. intros (ts & H1 & H2 & H3) H.
  exists ts. auto.
Qed.

(** Only what [m] does at [p] matters. *)
Lemma parses_at {A} p (m m' : P A) (Q : list JZToken -> A -> Prop) :
  m p = m' p -> parses p m' Q -> parses p m Q.
Proof using Type. unfold parses. by intros ->. Qed.

Lemma parses_ret {A} p (a : A) (Q : list JZToken -> A -> Prop) : Q [] a -> parses p (mret a) Q.
Proof using Type. intros H. exists []. by rewrite forward_0. Qed.

Lemma parses_bind {A B} p (m : P A) (f : A -> P B) (Q : list JZToken -> A -> Prop) R :
  parses p m Q ->
  (forall ts a, rest p = ts ++ rest (forward (length ts) p) -> Q ts a ->
     parses (forward (length ts) p) (f a) (fun ts' => R (ts ++ ts'))) ->
  parses p (x ← m; f x) R.
Proof using Type.
  unfold parses, mbind, P_bind. destruct (m p) as [[[a|] p1]|]; [|done|done].
  intros (ts & -> & H2 & HQ) Hf. specialize (Hf ts a H2 HQ).
  destruct (f a _) as [[[b|] p']|]; [|by apply failed_forward in Hf|done].
  destruct Hf as (ts' & -> & H3 & H4). exists (ts ++ ts'). rewrite length_app, <- forward_forward.
  split_and!; [done| |done]. by rewrite <- app_assoc, <- H3.
Qed.

Lemma parses_ret_bind {A B} p (a : A) (f : A -> P B) Q :
  parses p (f a) Q -> parses p (x ← mret a; f x) Q.
Proof using Type. done. Qed.

(** [m] and then a function of its result. *)
Lemma parses_map {A B C} p (m : P A) (g : A -> B) (f : B -> P C) (Q : list JZToken -> A -> Prop) R :
  parses p m Q ->
  (forall ts a, rest p = ts ++ rest (forward (length ts) p) -> Q ts a ->
     parses (forward (length ts) p) (f (g a)) (fun ts' => R (ts ++ ts'))) ->
  parses p (x ← (a ← m; mret (g a)); f x) R.
Proof using Type.
  intros Hm Hf. apply (parses_bind p _ _ (fun ts b => exists a, b = g a /\ Q ts a)).
  - apply (parses_bind p _ _ Q); [done|]. intros ts a _ Ha. apply parses_ret.
    rewrite app_nil_r. by exists a.
  - intros ts b E (a & -> & Ha). by apply Hf.
Qed.

Lemma parses_fail {A} p msg (Q : list JZToken -> A -> Prop) : parses p (fail_with tokens msg) Q.
Proof using Type. apply failed_report. Qed.

Lemma parses_peek {B} p (f : JZToken -> P B) Q :
  parses p (f (front (rest p))) Q -> parses p (x ← peek_token tokens; f x) Q.
Proof using Type. unfold parses, mbind, P_bind, peek_token. by rewrite peek_front. Qed.

Lemma parses_advance {B} p t r (f : unit -> P B) (Q : list JZToken -> B -> Prop) :
  rest p = t :: r -> parses (forward 1 p) (f tt) (fun ts => Q (t :: ts)) ->
  parses p (x ← advance_token tokens; f x) Q.
Proof using Type.
  intros E H. destruct (advance_forward body eof p t r E) as [Ha Hr].
  apply (parses_bind p _ _ (fun ts _ => ts = [t])).
  - exists [t]. unfold parses. rewrite Ha. cbn [length]. by rewrite Hr.
  - intros ts [] _ ->. exact H.
Qed.

Lemma parses_match {B} p ty (f : bool -> P B) (Q : list JZToken -> B -> Prop) :
  ty <> JZ_TOK_EOF ->
  (forall t r, rest p = t :: r -> tok_type t = ty -> parses (forward 1 p) (f true) (fun ts => Q (t :: ts))) ->
  (tok_is ty (front (rest p)) = false -> parses p (f false) Q) ->
  parses p (b ← match_tok tokens ty; f b) Q.
Proof using Heof.
  intros Hty Hyes Hno. unfold parses at 1, mbind, P_bind, match_tok. rewrite peek_front.
  destruct (tok_is ty (front (rest p))) eqn:E; [|by apply Hno].
  destruct (front_type eof Heof _ _ Hty E) as (t & r & Hr & Ht).
  destruct (advance_forward body eof p t r Hr) as [Ha Hr']. rewrite Ha.
  specialize (Hyes t r Hr Ht). unfold parses in Hyes.
  destruct (f true (forward 1 p)) as [[[b|] p']|]; [|by apply failed_forward in Hyes|done].
  destruct Hyes as (ts & -> & H1 & H2). exists (t :: ts). rewrite forward_forward.
  split_and!; [done| |done]. by rewrite Hr, <- Hr', H1, forward_forward.
Qed.

Lemma parses_expect {B} p ty msg (f : unit -> P B) (Q : list JZToken -> B -> Prop) :
  ty <> JZ_TOK_EOF ->
  (forall t r, rest p = t :: r -> tok_type t = ty -> parses (forward 1 p) (f tt) (fun ts => Q (t :: ts))) ->
  parses p (x ← expect tokens ty msg; f x) Q.
Proof using Heof.
  intros Hty Hyes. apply (parses_bind p _ _ (fun ts _ => exists t, ts = [t] /\ tok_type t = ty)).
  - apply parses_match; [done| |intros _; apply parses_fail].
    intros t r Hr Ht. apply parses_ret. by exists t.
  - intros ts [] E (t & -> & Ht). exact (Hyes t _ E Ht).
Qed.

(** The length that is left. *)
Lemma left_forward ts p : rest p = ts ++ rest (forward (length ts) p) ->
  left p = length ts + left (forward (length ts) p).
Proof using Type. intros E. unfold ParseGrammar.left. rewrite E at 1. by rewrite length_app. Qed.

Lemma left_cons t r p : rest p = t :: r -> left p = S (left (forward 1 p)).
Proof using Type.
  intros E. pose proof (rest_forward body [t] r p E) as E'. unfold ParseGrammar.left.
  cbn [length] in E'. by rewrite E, E'.
Qed.
End Logic.

(** ** Steps of a proof *)

(** Use what is left after the tokens read so far. *)
Ltac leftovers :=
  repeat match goal with
  | H : ParseGrammar.rest ?b ?p = ?ts ++ ParseGrammar.rest ?b (forward (length ?ts) ?p) |- _ =>
      lazymatch goal with
      | _ : ParseGrammar.left b p = length ts + _ |- _ => fail
      | _ => pose proof (left_forward b ts p H)
      end
  | H : ParseGrammar.rest ?b ?p = ?t :: ?r |- _ =>
      lazymatch goal with
      | _ : ParseGrammar.left b p = S _ |- _ => fail
      | _ => pose proof (left_cons b t r p H)
      end
  end.

(** Optional and expected tokens: the first goals are about the token type. *)
Ltac on_match := apply parses_match; [assumption|discriminate|..].
Ltac on_expect := apply parses_expect; [assumption|discriminate|].
