(* ===== verification/ParseSound.v ===== *)
(** * The expression parser terminates and accepts only the grammar

    On a stream that ends with an end-of-file token, from any state and with as
    much fuel as there are tokens: either the tokens consumed spell the tree
    that is returned, or exactly one diagnostic is added. *)

From S2P Require Import Prelude Util CString Ast Lexer ParseCore ParseExpr ParseGrammar ParseLogic.

Local Open Scope nat_scope.

(** What may stand in the brackets after [e] in a state with nested
    expressions [R]. *)
Inductive bracket (R : list JZToken -> JZASTNode -> Prop) (copy : JZASTNode -> JZASTNode)
    (e : JZASTNode) : list JZToken -> JZASTNode -> Prop :=
  | br_slice ts1 m ts2 k s rb :
      starts starts_index ts1 -> R ts1 m -> tok_type s = JZ_TOK_OP_COLON ->
      starts starts_index ts2 -> R ts2 k -> tok_type rb = JZ_TOK_RBRACKET ->
      bracket R copy e (ts1 ++ s :: ts2 ++ [rb]) (slice_node e m k)
  | br_index ts1 m rb :
      starts starts_index ts1 -> R ts1 m -> tok_type rb = JZ_TOK_RBRACKET ->
      bracket R copy e (ts1 ++ [rb]) (slice_node e m (copy m))
  | br_member ts1 m rb d t :
      starts starts_index ts1 -> R ts1 m -> tok_type rb = JZ_TOK_RBRACKET ->
      tok_type d = JZ_TOK_DOT -> is_decl_identifier_token t = true -> is_port_name e = true ->
      bracket R copy e (ts1 ++ [rb; d; t]) (member_node e (Some m) (tok_lexeme t))
  | br_wildcard w rb d t :
      tok_type w = JZ_TOK_OP_STAR -> tok_type rb = JZ_TOK_RBRACKET ->
      tok_type d = JZ_TOK_DOT -> is_decl_identifier_token t = true -> is_port_name e = true ->
      bracket R copy e [w; rb; d; t] (member_node e None (tok_lexeme t)).

(** An expression one nesting below budget [n]. *)
Definition nested (n : nat) (ts : list JZToken) (e : JZASTNode) : Prop :=
  match n with O => False | S k => spells k 0 ts e end.

Lemma nested_nonempty n ts e : nested n ts e -> ts <> [].
Proof. destruct n; [done|]. apply spells_nonempty. Qed.

Lemma sp_bracket n ts e ts' lb e' :
  spells n 13 ts e -> tok_type lb = JZ_TOK_LBRACKET -> bracket (nested n) index_copy e ts' e' ->
  spells n 13 (ts ++ lb :: ts') e'.
Proof.
  intros He Hlb H. destruct H; try (destruct n as [|n]; [done|]).
  - by apply sp_slice.
  - by apply sp_index.
  - by apply sp_member.
  - by apply sp_wildcard.
Qed.

(** A comma-separated list of [R]. *)
Inductive comma_spelled (R : list JZToken -> JZASTNode -> Prop) : list JZToken -> list JZASTNode -> Prop :=
  | cs_one ts e : R ts e -> comma_spelled R ts [e]
  | cs_cons ts e c ts' es :
      R ts e -> tok_type c = JZ_TOK_COMMA -> comma_spelled R ts' es ->
      comma_spelled R (ts ++ c :: ts') (e :: es).

Lemma comma_spells_list n ts es :
  comma_spelled (nested n) ts es -> exists k, n = S k /\ spells_list k ts es.
Proof.
  destruct n as [|n]; intros H; [by inversion H|]. exists n. split; [done|].
  induction H as [ts e He|ts e c ts' es He Hc _ IH]; [by apply sp_one|by apply sp_cons].
Qed.

Section Sound.
Context (body : list JZToken) (eof : JZToken) (Heof : tok_type eof = JZ_TOK_EOF)
  (Hlex : tok_lexeme eof = None).
Notation tokens := (body ++ [eof]).
Notation rest := (rest body).
Notation left := (left body).
Notation front := (front eof).
Notation parses := (parses body).

Lemma front_segment ts : is_segment (front ts) = true -> exists t r, ts = t :: r.
Proof using Hlex. destruct ts as [|t r]; [|by exists t, r]. cbn. unfold is_segment. by rewrite Hlex. Qed.

Lemma decl_segment t : is_decl_identifier_token t = true -> is_segment t = true.
Proof using Type.
  intros H. unfold is_segment, accepts_segment. rewrite H. unfold is_decl_identifier_token in H.
  by destruct (tok_lexeme t).
Qed.

(** [n] holds the budget, [fuel] bounds what is left where [expression] runs. *)
Section Levels.
Context (expression : P JZASTNode) (R : list JZToken -> JZASTNode -> Prop) (fuel : nat).
Context (state : Parser -> Prop) (Hstate : forall k p, state p -> state (forward k p)).
Context (Hexpr : forall p, state p -> left p < fuel -> parses p expression R).

Lemma comma_list_sound n p :
  state p -> left p < n -> left p < fuel -> parses p (comma_list tokens expression n) (comma_spelled R).
Proof using Heof Hstate Hexpr.
  revert p. induction n as [|n IH]; intros p Hs Hn Hf; [lia|]. cbn [comma_list].
  eapply parses_bind; [by apply Hexpr|]. intros ts e E He. cbv beta.
  on_match.
  - intros c r Hr Hc. leftovers. eapply parses_bind; [apply IH; [auto|lia|lia]|].
    intros ts' es E' Hes. apply parses_ret. cbv beta. rewrite app_nil_r.
    by apply cs_cons.
  - intros _. apply parses_ret. rewrite app_nil_r. by apply cs_one.
Qed.


(** An index starts with one of the listed tokens. *)
Lemma starts_front ts r f : ts <> [] -> f (front (ts ++ r)) = true -> starts f ts.
Proof using Type. by destruct ts. Qed.

Context (Hne : forall ts e, R ts e -> ts <> []).

Lemma index_sound p :
  state p -> left p < fuel ->
  parses p (parse_simple_index_expr tokens expression) (fun ts e => starts starts_index ts /\ R ts e).
Proof using Hexpr Hne.
  intros Hs Hf. apply parses_peek. destruct (starts_index _) eqn:E; [|apply parses_fail].
  pose proof (Hexpr p Hs Hf) as H. unfold ParseLogic.parses in *.
  destruct (expression p) as [[[e|] p']|]; [|done|done].
  destruct H as (ts & -> & H & He). exists ts. split_and!; [done..| |done].
  apply (starts_front ts (rest (forward (length ts) p))); [by apply (Hne _ e)|by rewrite <- H].
Qed.

Lemma member_sound p base index :
  parses p (parse_member tokens base index) (fun ts e => exists t, ts = [t] /\
    is_decl_identifier_token t = true /\ is_port_name base = true /\
    e = member_node base index (tok_lexeme t)).
Proof using Hlex.
  apply parses_peek. destruct (is_decl_identifier_token _) eqn:Hd; [|apply parses_fail].
  cbn [negb]. destruct (is_port_name base) eqn:Hb; [|apply parses_fail]. cbn [negb].
  destruct (front_segment (rest p)) as (t & r & E); [by apply decl_segment|]. rewrite E in *.
  eapply parses_advance; [done|]. apply parses_ret. by exists t.
Qed.

Lemma bracket_sound p msg copy base :
  state p -> left p < fuel ->
  parses p (parse_bracket tokens expression msg copy base) (bracket R copy base).
Proof using Heof Hlex Hstate Hexpr Hne.
  intros Hs Hf. unfold parse_bracket. on_match; [intros w r Hr Hw|intros _]; cbv iota.
  - do 3 apply parses_ret_bind. on_expect. intros rb r' Hr' Hrb.
    on_match; [intros d r'' Hr'' Hd|intros _; apply parses_fail].
    eapply parses_weaken; [apply member_sound|]. intros ts e (t & -> & H1 & H2 & ->).
    by apply br_wildcard.
  - eapply parses_map; [by apply index_sound|]. intros ts1 m E1 (Hst1 & Hm). leftovers.
    on_match; [intros s r Hr Hcolon|intros _]; cbv iota.
    + leftovers. eapply parses_map; [apply index_sound; [auto|lia]|]. intros ts2 k E2 (Hst2 & Hk).
      on_expect. intros rb r' Hr' Hrb. apply parses_ret_bind, parses_ret.
      by apply br_slice.
    + apply parses_ret_bind. on_expect. intros rb r' Hr' Hrb.
      on_match; [intros d r'' Hr'' Hd|intros _; apply parses_ret; by apply br_index].
      eapply parses_weaken; [apply member_sound|]. intros ts e (t & -> & H1 & H2 & ->).
      by apply br_member.
Qed.

(** Brackets in a row. *)
Inductive brackets (copy : JZASTNode -> JZASTNode) : JZASTNode -> list JZToken -> JZASTNode -> Prop :=
  | brs_nil e : brackets copy e [] e
  | brs_cons e lb ts e1 ts' e2 :
      tok_type lb = JZ_TOK_LBRACKET -> bracket R copy e ts e1 -> brackets copy e1 ts' e2 ->
      brackets copy e (lb :: ts ++ ts') e2.

Lemma postfix_loop_sound n p msg copy base :
  state p -> left p < n -> left p < fuel ->
  parses p (postfix_loop tokens expression msg copy n base) (brackets copy base).
Proof using Heof Hlex Hstate Hexpr Hne.
  revert p base. induction n as [|n IH]; intros p base Hs Hn Hf; [lia|]. cbn [postfix_loop].
  on_match; [intros lb r Hr Hlb|intros _; apply parses_ret, brs_nil].
  leftovers. eapply parses_bind; [apply bracket_sound; [auto|lia]|].
  intros ts e E He. leftovers. eapply parses_weaken; [apply IH; [auto|lia|lia]|].
  intros ts' e' He'. by apply (brs_cons _ _ lb _ e).
Qed.
End Levels.

(** ** Names *)

(** The result of the loop from [buf]. *)
Definition named (buf : option (string * JZLocation)) (ts : list JZToken)
    (r : option (string * JZLocation)) : Prop :=
  (ts = [] /\ r = buf) \/
  exists t ts' s, ts = t :: ts' /\ name_spelled ts s /\
    r = Some (match buf with Some (s0, l0) => ((s0 ++ s)%string, l0) | None => (s, tok_loc t) end).

Lemma qualified_name_sound m p buf :
  left p < m -> parses p (qualified_name_loop tokens true true m buf) (named buf).
Proof using Heof Hlex.
  revert p buf. induction m as [|m IH]; intros p buf Hm; [lia|].
  unfold ParseLogic.parses. cbn [qualified_name_loop]. rewrite peek_front.
  destruct (rest p) as [|t r] eqn:Hr; cbn [ParseGrammar.front].
  { rewrite Hlex. exists []. rewrite forward_0. split_and!; [done|done|by left]. }
  destruct (tok_lexeme t) as [lexeme|] eqn:Hl;
    [|exists []; rewrite forward_0; split_and!; [done|done|by left]].
  destruct (accepts_segment true true t) eqn:Ha; cbn [negb];
    [|exists []; rewrite forward_0; split_and!; [done|done|by left]].
  assert (is_segment t = true) as Hseg by (unfold is_segment; by rewrite Hl).
  set (out := match buf with Some (text, loc) => ((text ++ lexeme)%string, loc) | None => (lexeme, tok_loc t) end).
  destruct (advance_forward body eof p t r Hr) as [-> Hr1].
  assert (out = match buf with Some (s0, l0) => ((s0 ++ lexeme)%string, l0) | None => (lexeme, tok_loc t) end) as Hout by done.
  destruct out as [text loc]. rewrite peek_front, Hr1. leftovers.
  destruct (tok_is JZ_TOK_DOT (front r)) eqn:Hdot.
  - destruct (front_type eof Heof r JZ_TOK_DOT ltac:(done) Hdot) as (d & r' & -> & Hd).
    destruct (advance_forward body eof _ d r' Hr1) as [-> Hr2]. pose proof (left_cons body d r' _ Hr1).
    specialize (IH (forward 1 (forward 1 p)) (Some ((text ++ ".")%string, loc)) ltac:(lia)).
    unfold ParseLogic.parses in IH. destruct (qualified_name_loop _ _ _ _ _ _) as [[[a|] p']|]; [|by do 2 apply failed_forward in IH|done].
    destruct IH as (ts & -> & H1 & H2). exists (t :: d :: ts). rewrite !forward_forward in *.
    split_and!; [done|by rewrite <- Hr2, H1|].
    right. exists t, (d :: ts). destruct H2 as [[-> ->]|(t' & ts' & s & -> & H2 & ->)].
    + exists (lexeme ++ ".")%string. split_and!; [done|by apply name_dotted|].
      destruct buf as [[s0 l0]|]; injection Hout as -> ->; by rewrite ?append_assoc.
    + exists (lexeme ++ "." ++ s)%string. split_and!; [done|by apply name_more|].
      destruct buf as [[s0 l0]|]; injection Hout as -> ->; by rewrite ?append_assoc.
  - exists [t]. split_and!; [done|by rewrite <- Hr1|]. right. exists t, [], lexeme.
    split_and!; [done|by apply name_last|by rewrite Hout].
Qed.

Lemma name_never_null m p buf p' : qualified_name_loop tokens true true m buf p <> Some (None, p').
Proof using Type.
  revert p buf. induction m as [|m IH]; intros p buf; [done|]. cbn [qualified_name_loop].
  destruct (tok_lexeme (ParseCore.peek tokens p)); [|congruence]. destruct (negb _); [congruence|].
  destruct (match buf with Some (text, loc) => _ | None => _ end) as [text loc].
  destruct (tok_is _ _); [apply IH|congruence].
Qed.

Lemma parse_name_sound m p msg t r :
  rest p = t :: r -> left p < m ->
  parses p (parse_name tokens msg m)
    (fun ts e => exists ts' s, ts = t :: ts' /\ name_spelled ts s /\ e = identifier_node s (tok_loc t)).
Proof using Heof Hlex.
  intros Hr Hm. pose proof (qualified_name_sound m p None Hm) as H.
  unfold ParseLogic.parses, parse_name, parser_parse_qualified_name, mbind, P_bind in *.
  destruct (qualified_name_loop _ _ _ _ _ _) as [[[a|] p']|] eqn:Eq; [| |done].
  - destruct H as (ts & -> & H1 & [[-> ->]|(t' & ts' & s & -> & H2 & ->)]).
    + rewrite forward_0. apply failed_report.
    + exists (t' :: ts'). split_and!; [done|done|]. rewrite Hr in H1. injection H1 as <- H1.
      by exists ts', s.
  - by apply name_never_null in Eq.
Qed.

(** ** Levels *)

Section Budget.
(** The nesting that is left, and the fuel of the level below. *)
Context (n : nat) (expression : P JZASTNode) (fuel : nat).
Context (state : Parser -> Prop) (Hstate : forall k p, state p -> state (forward k p)).
Context (Hexpr : forall p, state p -> left p < fuel -> parses p expression (nested n)).

Lemma next_front p t r : rest p = t :: r -> next_token tokens p = front r.
Proof using Type.
  intros Hr. destruct (advance_forward body eof p t r Hr) as [_ Hr']. rewrite <- Hr', <- peek_front.
  unfold next_token, peek, forward. cbn [ps_pos set_pos]. by destruct (_ <? _).
Qed.

Lemma builtin_sound m p t lp r :
  state p -> rest p = t :: lp :: r -> tok_type lp = JZ_TOK_LPAREN -> is_builtin t = true ->
  left p < m -> left p <= fuel -> parses p (builtin_call tokens expression m t) (spells n 14).
Proof using Heof Hlex Hstate Hexpr.
  intros Hs Hr Hlp Hb Hm Hf. unfold builtin_call.
  assert (rest (forward 1 p) = lp :: r) as Hr1 by exact (rest_forward body [t] (lp :: r) p Hr).
  eapply parses_advance; [done|]. eapply parses_advance; [done|]. cbv beta. leftovers.
  apply parses_peek. destruct (tok_is JZ_TOK_RPAREN _) eqn:E.
  - apply parses_ret_bind. on_expect. intros rp r' _ Hrp. apply parses_ret. by apply sp_call0.
  - eapply parses_bind; [apply (comma_list_sound _ (nested n) fuel state); [done..|auto|lia|lia]|].
    intros ts es _ Hes. on_expect. intros rp r' _ Hrp. apply parses_ret.
    destruct (comma_spells_list n ts es Hes) as (k & -> & Hk). by apply sp_call.
Qed.

Lemma is_type_cons (f : JZToken -> bool) (types : list JZTokenType) ts :
  (forall t, f t = List.existsb (fun ty => tok_is ty t) types) -> ~ In JZ_TOK_EOF types ->
  f (front ts) = true -> exists t r, ts = t :: r.
Proof using Heof.
  intros Hf Hin Ht. destruct ts as [|t r]; [|by exists t, r]. cbn in Ht. rewrite Hf in Ht.
  apply List.existsb_exists in Ht as (ty & Hty & Ht). unfold tok_is in Ht. rewrite Heof in Ht.
  apply bool_decide_eq_true in Ht. by subst.
Qed.

Lemma number_cons ts : is_number (front ts) = true -> exists t r, ts = t :: r.
Proof using Heof.
  apply (is_type_cons _ [JZ_TOK_NUMBER; JZ_TOK_SIZED_NUMBER]); [intros t; cbn; by rewrite orb_false_r|].
  cbn. intuition discriminate.
Qed.

Lemma special_cons ts : is_special (front ts) = true -> exists t r, ts = t :: r.
Proof using Heof.
  apply (is_type_cons _ [JZ_TOK_KW_GND; JZ_TOK_KW_VCC]); [intros t; cbn; by rewrite orb_false_r|].
  cbn. intuition discriminate.
Qed.

Lemma builtin_segment t : is_builtin t = true -> is_segment t = true.
Proof using Type.
  unfold is_builtin, is_segment, accepts_segment, is_decl_identifier_token. rewrite andb_true_iff.
  intros [-> H]. by destruct (tok_lexeme t).
Qed.

(** The token is a name, or a keyword [CONFIG] without text. *)
Lemma name_sound m p :
  is_number (front (rest p)) = false -> is_special (front (rest p)) = false -> left p < m ->
  is_decl_identifier_token (front (rest p)) || tok_is JZ_TOK_KW_CONFIG (front (rest p)) = true ->
  parses p (parse_name tokens "expected identifier" m) (spells n 14).
Proof using Heof Hlex.
  intros H1 H2 Hm Ht. destruct (rest p) as [|t r] eqn:Hr; cbn [ParseGrammar.front] in *.
  { unfold is_decl_identifier_token, tok_is in Ht. by rewrite Hlex, Heof in Ht. }
  eapply parses_weaken; [by apply (parse_name_sound m p _ t r)|].
  intros ts e (ts' & s & -> & Hs & ->). apply sp_name; [|done]. unfold is_name_head.
  rewrite H1, H2. by inversion Hs.
Qed.

Lemma primary_sound m p :
  state p -> left p < m -> left p <= fuel -> parses p (parse_primary_expr tokens expression m) (spells n 14).
Proof using Heof Hlex Hstate Hexpr.
  intros Hs Hm Hf. pose proof (peek_front body eof p) as Hp.
  destruct (is_number (front (rest p))) eqn:E1.
  { eapply parses_at; [unfold parse_primary_expr; rewrite Hp, E1; reflexivity|].
    destruct (number_cons _ E1) as (t & r & Hr). rewrite Hr in *.
    eapply parses_advance; [done|]. apply parses_ret. by apply sp_literal. }
  destruct (is_special (front (rest p))) eqn:E2.
  { eapply parses_at; [unfold parse_primary_expr; rewrite Hp, E1; unfold is_special in E2; rewrite E2; reflexivity|].
    destruct (special_cons _ E2) as (t & r & Hr). rewrite Hr in *.
    eapply parses_advance; [done|]. apply parses_ret. by apply sp_special. }
  pose proof E2 as E2'. unfold is_special in E2'.
  destruct (is_decl_identifier_token (front (rest p)) || tok_is JZ_TOK_KW_CONFIG (front (rest p))) eqn:E3.
  { destruct (is_builtin (front (rest p)) && tok_is JZ_TOK_LPAREN (next_token tokens p)) eqn:E4.
    - eapply parses_at; [unfold parse_primary_expr; rewrite Hp, E1, E2', E3, E4; reflexivity|].
      apply andb_true_iff in E4 as [Hb Hlp].
      destruct (front_segment _ (builtin_segment _ Hb)) as (t & r & Hr). rewrite Hr in *.
      rewrite (next_front p t r Hr) in Hlp. cbn [ParseGrammar.front] in *.
      destruct (front_type eof Heof r JZ_TOK_LPAREN ltac:(discriminate) Hlp) as (lp & r' & -> & Hl).
      by apply (builtin_sound m p t lp r').
    - eapply parses_at; [unfold parse_primary_expr; rewrite Hp, E1, E2', E3, E4; reflexivity|].
      by apply name_sound. }
  destruct (tok_is JZ_TOK_LPAREN (front (rest p))) eqn:E4.
  - eapply parses_at; [unfold parse_primary_expr; rewrite Hp, E1, E2', E3, E4; reflexivity|].
    destruct (front_type eof Heof _ JZ_TOK_LPAREN ltac:(discriminate) E4) as (t & r & Hr & Ht).
    eapply parses_advance; [done|]. leftovers. eapply parses_bind; [apply Hexpr; [auto|lia]|].
    intros ts e _ He. on_expect. intros rp r' _ Hrp. apply parses_ret. cbv beta.
    destruct n as [|k]; [done|]. by apply (sp_paren k t ts e rp).
  - eapply parses_at; [unfold parse_primary_expr; rewrite Hp, E1, E2', E3, E4; reflexivity|].
    apply parses_fail.
Qed.

Lemma brackets_spells e ts' e' :
  brackets (nested n) index_copy e ts' e' -> forall ts, spells n 13 ts e -> spells n 13 (ts ++ ts') e'.
Proof using Type.
  induction 1 as [e|e lb ts1 e1 ts2 e2 Hlb Hb _ IH]; intros ts He; [by rewrite app_nil_r|].
  replace (ts ++ lb :: ts1 ++ ts2) with ((ts ++ lb :: ts1) ++ ts2) by by rewrite <- app_assoc.
  apply IH. by apply (sp_bracket n ts e).
Qed.

Lemma postfix_sound m p :
  state p -> left p < m -> left p <= fuel -> parses p (parse_postfix_expr tokens expression m) (spells n 13).
Proof using Heof Hlex Hstate Hexpr.
  intros Hs Hm Hf. eapply parses_bind; [by apply primary_sound|]. intros ts e E He. leftovers.
  apply sp_down in He; [|lia]. pose proof (spells_nonempty _ _ _ _ He) as Hne.
  assert (0 < length ts) by by (destruct ts; [|cbn; lia]).
  eapply parses_weaken; [apply (postfix_loop_sound _ (nested n) fuel state);
    [done|done|apply nested_nonempty|auto|lia|lia]|].
  intros ts' e' Hb. by apply (brackets_spells e).
Qed.

Lemma replication_sound p lb c lb' :
  tok_type lb = JZ_TOK_LBRACE -> is_number c = true -> tok_type lb' = JZ_TOK_LBRACE ->
  state p -> left p < fuel ->
  parses p (parse_replication tokens expression lb c) (fun ts => spells n 12 (lb :: c :: lb' :: ts)).
Proof using Heof Hexpr.
  intros H1 H2 H3 Hs Hf. eapply parses_bind; [by apply Hexpr|]. intros ts e _ He.
  on_expect. intros rb r _ Hrb. on_expect. intros rb' r' _ Hrb'. apply parses_ret.
  destruct n as [|k]; [done|]. by apply sp_replicate.
Qed.

Lemma elements_sound m p lb :
  tok_type lb = JZ_TOK_LBRACE -> state p -> left p < m -> left p < fuel ->
  parses p (parse_elements tokens expression m lb) (fun ts => spells n 12 (lb :: ts)).
Proof using Heof Hstate Hexpr.
  intros H1 Hs Hm Hf. apply parses_peek. destruct (tok_is JZ_TOK_RBRACE _) eqn:E.
  - apply parses_ret_bind. on_expect. intros rb r _ Hrb. apply parses_ret. by apply sp_empty.
  - eapply parses_bind; [by apply (comma_list_sound _ (nested n) fuel state)|].
    intros ts es _ Hes. on_expect. intros rb r _ Hrb. apply parses_ret.
    destruct (comma_spells_list n ts es Hes) as (k & -> & Hk). by apply sp_concat.
Qed.

Lemma concat_sound m p :
  state p -> left p < m -> left p <= fuel ->
  parses p (parse_concat_or_primary_expr tokens expression m) (spells n 12).
Proof using Heof Hlex Hstate Hexpr.
  intros Hs Hm Hf. pose proof (peek_front body eof p) as Hp.
  destruct (tok_is JZ_TOK_LBRACE (front (rest p))) eqn:E1.
  2:{ eapply parses_at; [unfold parse_concat_or_primary_expr; rewrite Hp, E1; reflexivity|].
      eapply parses_weaken; [by apply postfix_sound|]. intros. by apply sp_down; [lia|]. }
  destruct (front_type eof Heof _ JZ_TOK_LBRACE ltac:(discriminate) E1) as (lb & r & Hr & Hlb).
  destruct (advance_forward body eof p lb r Hr) as [Ha Hr1]. pose proof (peek_front body eof (forward 1 p)) as Hp1.
  leftovers. rewrite Hr1 in Hp1.
  assert (parses p (_ ← advance_token tokens; parse_elements tokens expression m lb) (spells n 12)) as Helem.
  { eapply parses_advance; [done|]. apply elements_sound; [done|auto|lia|lia]. }
  destruct (is_number (front r) && tok_is JZ_TOK_LBRACE (peek tokens (advance tokens (forward 1 p)))) eqn:E2.
  - pose proof E2 as E2'. apply andb_true_iff in E2' as [Hc Hlb']. destruct (number_cons _ Hc) as (c & r' & ->).
    destruct (advance_forward body eof (forward 1 p) c r' Hr1) as [Ha2 Hr2].
    rewrite Ha2, peek_front, Hr2 in Hlb'.
    destruct (front_type eof Heof _ JZ_TOK_LBRACE ltac:(discriminate) Hlb') as (lb' & r'' & -> & Hlb2).
    eapply (parses_at _ _ _ (_ ← advance_token tokens; _ ← advance_token tokens; _ ← advance_token tokens;
      parse_replication tokens expression lb c)).
    + unfold parse_concat_or_primary_expr. rewrite Hp, E1, Ha, Hp1, E2, Hr.
      unfold mbind, P_bind, advance_token, update. by rewrite Ha.
    + eapply parses_advance; [done|]. eapply parses_advance; [done|]. eapply parses_advance; [done|].
      rewrite !forward_forward in *. leftovers.
      apply (replication_sound _ lb c lb'); [done|done|done|auto|].
      pose proof (left_cons body c (lb' :: r'') _ Hr1). pose proof (left_cons body lb' r'' _ Hr2).
      rewrite !forward_forward in *. cbn in *. lia.
  - eapply parses_at; [|exact Helem]. unfold parse_concat_or_primary_expr. rewrite Hp, E1, Ha, Hp1, E2, Hr.
    unfold mbind, P_bind, advance_token, update. by rewrite Ha.
Qed.

Lemma binary_loop_sound op_of operand l m bound p left_node :
  op_of = level_op l ->
  (forall p, state p -> left p < bound -> left p <= fuel -> parses p operand (spells n (S l))) ->
  state p -> left p < m -> left p < bound -> left p <= fuel ->
  parses p (binary_loop tokens op_of operand m left_node)
    (fun ts' e' => forall ts, spells n l ts left_node -> spells n l (ts ++ ts') e').
Proof using Heof Hstate.
  intros -> Hop. revert p left_node. induction m as [|m IH]; intros p a Hs Hm Hb Hf; [lia|].
  cbn [binary_loop]. apply parses_peek.
  destruct (level_op l _) as [op|] eqn:Eop; [|apply parses_ret; intros ts; by rewrite app_nil_r].
  assert (exists o r, rest p = o :: r) as (o & r & Hr).
  { destruct (rest p) as [|o r]; [|by exists o, r]. cbn in Eop. by rewrite Heof, level_op_eof in Eop. }
  rewrite Hr in *. cbn [ParseGrammar.front] in *.
  eapply parses_advance; [done|]. leftovers. eapply parses_bind; [apply Hop; [auto|lia|lia]|].
  intros ts b E Hspb. leftovers. eapply parses_weaken; [apply IH; [auto|lia..]|].
  intros ts' e' H' ts0 Ha. cbv beta in H'.
  replace (ts0 ++ o :: ts ++ ts') with ((ts0 ++ o :: ts) ++ ts') by by rewrite <- app_assoc.
  apply H'. by apply sp_binary.
Qed.

Lemma unary_sound m p :
  state p -> left p < m -> left p <= fuel -> parses p (parse_unary_expr tokens expression m) (spells n 11).
Proof using Heof Hlex Hstate Hexpr.
  revert p. induction m as [|m IH]; intros p Hs Hm Hf; [lia|]. cbn [parse_unary_expr]. apply parses_peek.
  destruct (unary_op _) as [op|] eqn:Eop.
  - destruct (rest p) as [|o r] eqn:Hr; cbn [ParseGrammar.front] in Eop; [by rewrite Heof in Eop|].
    eapply parses_advance; [done|]. leftovers.
    eapply parses_bind; [apply IH; [auto|lia..]|]. intros ts e _ He. apply parses_ret. cbv beta.
    rewrite app_nil_r. by apply sp_unary.
  - eapply parses_weaken; [by apply concat_sound|]. intros. by apply sp_down; [lia|].
Qed.

Lemma level_sound l m p :
  1 <= l <= 11 -> state p -> left p < m -> left p <= fuel ->
  parses p (level_parser tokens expression l m) (spells n l).
Proof using Heof Hlex Hstate Hexpr.
  intros Hl. remember (11 - l) as k eqn:Hk. revert l Hl Hk p. induction k as [|k IH]; intros l Hl Hk p Hs Hm Hf.
  { replace l with 11 by lia. by apply unary_sound. }
  rewrite level_binary by lia. unfold binary_level.
  assert (forall p, state p -> left p < m -> left p <= fuel ->
    parses p (level_parser tokens expression (S l) m) (spells n (S l))) as Hop by (intros; apply IH; auto; lia).
  eapply parses_bind; [by apply Hop|]. intros ts e E He. leftovers. apply sp_down in He; [|lia].
  pose proof (spells_nonempty _ _ _ _ He) as Hne. assert (0 < length ts) by by (destruct ts; [|cbn; lia]).
  eapply parses_weaken; [apply (binary_loop_sound _ _ l m m); [done|done|auto|lia..]|].
  intros ts' e' H'. by apply H'.
Qed.

Lemma ternary_sound m p :
  state p -> left p < m -> left p <= fuel -> parses p (parse_ternary_expr tokens expression m) (spells n 0).
Proof using Heof Hlex Hstate Hexpr.
  revert p. induction m as [|m IH]; intros p Hs Hm Hf; [lia|]. cbn [parse_ternary_expr].
  eapply parses_bind; [by apply (level_sound 1); [lia|..]|]. intros ts1 c E1 Hc. leftovers. on_match.
  - intros q r1 Hr1 Hq. cbn [negb]. leftovers. eapply parses_bind; [apply Hexpr; [auto|lia]|].
    intros ts2 a E2 Ha. on_expect. intros s r2 Hr2 Hs2. leftovers.
    eapply parses_bind; [apply IH; [auto|lia..]|]. intros ts3 b E3 Hb. apply parses_ret. cbv beta.
    rewrite app_nil_r. destruct n as [|k]; [done|]. by apply (sp_ternary k ts1 ts2 ts3).
  - intros _. apply parses_ret. rewrite app_nil_r. by apply sp_down; [lia|].
Qed.
End Budget.

(** ** Entry point *)

(** The nesting of expressions that a depth leaves. *)
Definition budget (depth : Z) : nat := Z.to_nat (512 - depth).

Lemma expression_parses fuel p :
  (0 <= ps_expr_depth p)%Z -> left p < fuel ->
  parses p (parse_expression tokens fuel) (nested (budget (ps_expr_depth p))).
Proof using Heof Hlex.
  revert p. induction fuel as [|fuel IH]; intros p Hd Hf; [lia|]. cbn [parse_expression]. unfold deeper.
  unfold ParseLogic.parses, jz_depth_enter_checked. cbn [jz_input_limit_value].
  destruct (Z.leb_spec 512 (ps_expr_depth p)) as [Hlim|Hlim]; cbn [Z.eqb orb];
    [rewrite peek_front; apply failed_report|].
  set (p1 := set_expr_depth (ps_expr_depth p + 1) p).
  pose proof (ternary_sound (budget (ps_expr_depth p + 1)) (parse_expression tokens fuel) fuel
    (fun q => ps_expr_depth q = ps_expr_depth p + 1)%Z) as H.
  assert (budget (ps_expr_depth p) = S (budget (ps_expr_depth p + 1))) as Hb by (unfold budget; lia).
  specialize (H ltac:(done) ltac:(intros q Hst Hq; rewrite <- Hst; apply IH; [rewrite Hst; lia|done]) (S fuel) p1 eq_refl Hf
    ltac:(unfold p1, ParseGrammar.left, ParseGrammar.rest in *; cbn in *; lia)).
  unfold ParseLogic.parses in H. destruct (parse_ternary_expr _ _ _ p1) as [[[e|] p']|]; [| |done].
  - destruct H as (ts & -> & H1 & H2). exists ts. unfold jz_depth_leave. cbn.
    destruct (Z.ltb_spec 0 (ps_expr_depth p + 1)); [|lia]. rewrite Hb. split_and!; [|done|done].
    unfold set_expr_depth, forward, set_pos. cbn. f_equal. lia.
  - destruct H as (H1 & H2 & H3 & H4 & d & H5). unfold jz_depth_leave. cbn in *.
    repeat split; cbn; [done| |done|done|by exists d].
    rewrite H2. destruct (Z.ltb_spec 0 (ps_expr_depth p + 1)); lia.
Qed.
End Sound.
