(* ===== verification/ParseComplete.v ===== *)
(** * The expression parser accepts the grammar

    The tokens of a derivation, before a token that cannot continue the
    expression, are parsed to the tree of the derivation.  The levels of the
    binary operators and of the slices are left-recursive in the grammar and
    loops in the parser: [cont] is what the function of a level still has to do
    once it has read a phrase of that level. *)

From S2P Require Import Prelude Util CString Ast Lexer ParseCore ParseExpr ParseGrammar ParseLogic ParseSound.

Local Open Scope nat_scope.

(** ** Tokens after an expression *)

(** Operators and punctuation. *)
Definition punctuation_types : list JZTokenType :=
  [ JZ_TOK_LBRACE; JZ_TOK_RBRACE; JZ_TOK_LPAREN; JZ_TOK_RPAREN; JZ_TOK_LBRACKET; JZ_TOK_RBRACKET;
    JZ_TOK_SEMICOLON; JZ_TOK_COMMA; JZ_TOK_DOT; JZ_TOK_OP_PLUS; JZ_TOK_OP_MINUS; JZ_TOK_OP_STAR;
    JZ_TOK_OP_SLASH; JZ_TOK_OP_PERCENT; JZ_TOK_OP_AMP; JZ_TOK_OP_PIPE; JZ_TOK_OP_CARET;
    JZ_TOK_OP_TILDE; JZ_TOK_OP_BANG; JZ_TOK_OP_AND_AND; JZ_TOK_OP_OR_OR; JZ_TOK_OP_EQ;
    JZ_TOK_OP_NEQ; JZ_TOK_OP_LT; JZ_TOK_OP_LE; JZ_TOK_OP_GT; JZ_TOK_OP_GE; JZ_TOK_OP_SHL;
    JZ_TOK_OP_SHR; JZ_TOK_OP_ASHR; JZ_TOK_OP_QUESTION; JZ_TOK_OP_COLON ].

(** No operator is written as a keyword; the lexer gives no other token. *)
Definition tok_ok (t : JZToken) : bool :=
  negb (is_segment t && List.existsb (fun ty => tok_is ty t) punctuation_types).

(** [ty] does not continue a phrase of level [l]. *)
Definition type_follows (l : nat) (ty : JZTokenType) : bool :=
  negb (List.existsb (fun u => bool_decide (ty = u)) [JZ_TOK_DOT; JZ_TOK_LPAREN])
  && ((13 <=? l) || negb (bool_decide (ty = JZ_TOK_LBRACKET)))
  && forallb (fun j => (j <=? l) || match level_op j ty with None => true | Some _ => false end) (seq 1 10)
  && negb ((l =? 0) && bool_decide (ty = JZ_TOK_OP_QUESTION)).
Definition follows (l : nat) (t : JZToken) : bool := negb (is_segment t) && type_follows l (tok_type t).

Lemma type_follows_up l k ty : l <= k -> type_follows l ty = true -> type_follows k ty = true.
Proof.
  unfold type_follows. rewrite !andb_true_iff. intros Hl (((H1 & H2) & H3) & H4). split_and!; [done|..].
  - destruct (Nat.leb_spec 13 k); [done|]. by destruct (Nat.leb_spec 13 l); [lia|].
  - rewrite forallb_forall in *. intros j Hj. specialize (H3 j Hj).
    destruct (Nat.leb_spec j k); [done|]. by destruct (Nat.leb_spec j l); [lia|].
  - destruct k; [|done]. by replace l with 0 in H4 by lia.
Qed.

Lemma follows_up l k t : l <= k -> follows l t = true -> follows k t = true.
Proof.
  unfold follows. rewrite !andb_true_iff. intros Hl [H1 H2]. split; [done|].
  by apply (type_follows_up l).
Qed.

Lemma follows_op l j t : follows l t = true -> l < j -> level_op j (tok_type t) = None.
Proof.
  unfold follows, type_follows. rewrite !andb_true_iff, forallb_forall. intros (_ & (_ & H) & _) Hj.
  destruct (decide (j <= 10)) as [Hle|Hle].
  - specialize (H j ltac:(apply in_seq; lia)). destruct (Nat.leb_spec j l); [lia|].
    by destruct (level_op j _).
  - do 11 (destruct j as [|j]; [lia|]). done.
Qed.

(** The operators of a level end the phrases of the level. *)
Lemma op_follows l ty op : level_op l ty = Some op -> type_follows l ty = true.
Proof.
  do 11 (destruct l as [|l]; [by destruct ty|]). done.
Qed.

Lemma ok_not_segment t : tok_ok t = true -> In (tok_type t) punctuation_types -> is_segment t = false.
Proof.
  unfold tok_ok. destruct (is_segment t); [|done]. intros H Hin. cbn [andb] in H.
  apply negb_true_iff in H.
  assert (List.existsb (fun ty => tok_is ty t) punctuation_types = true) as Ht; [|congruence].
  apply List.existsb_exists. exists (tok_type t). split; [done|]. by apply bool_decide_eq_true.
Qed.

Ltac in_list := repeat (first [left; reflexivity | right]).

Lemma ok_follows l t :
  tok_ok t = true -> In (tok_type t) punctuation_types -> type_follows l (tok_type t) = true ->
  follows l t = true.
Proof. intros Hok Hin Ht. unfold follows. by rewrite (ok_not_segment t Hok Hin), Ht. Qed.

Lemma op_in_types l ty op : level_op l ty = Some op -> In ty punctuation_types.
Proof.
  do 11 (destruct l as [|l]; [destruct ty; try discriminate; intros _; in_list|]). done.
Qed.

Lemma unary_in_types ty op : unary_op ty = Some op -> In ty punctuation_types.
Proof. destruct ty; try discriminate; intros _; in_list. Qed.

Lemma op_tok_follows l t op : tok_ok t = true -> level_op l (tok_type t) = Some op -> follows l t = true.
Proof. intros Hok H. apply ok_follows; [done|by eapply op_in_types|by eapply op_follows]. Qed.

(** ** First tokens *)

Lemma name_head_plain t : tok_ok t = true -> is_segment t = true ->
  unary_op (tok_type t) = None /\ tok_type t <> JZ_TOK_LBRACE /\ tok_type t <> JZ_TOK_LPAREN.
Proof.
  intros Hok Hs. assert (~ In (tok_type t) punctuation_types) as Hn.
  { intros Hin. rewrite (ok_not_segment t Hok Hin) in Hs. discriminate. }
  split_and!.
  - destruct (unary_op (tok_type t)) eqn:E; [|done]. by apply unary_in_types in E.
  - intros E. apply Hn. rewrite E. in_list.
  - intros E. apply Hn. rewrite E. in_list.
Qed.

Lemma type_of_test ty t : tok_is ty t = true -> tok_type t = ty.
Proof. apply bool_decide_eq_true. Qed.
Lemma test_of_type ty t : tok_type t = ty -> tok_is ty t = true.
Proof. apply bool_decide_eq_true. Qed.

(** The first token of a phrase of the upper levels. *)
Definition head_ok (l : nat) (ts : list JZToken) : Prop :=
  match ts with
  | t :: _ => unary_op (tok_type t) = None /\ (13 <= l -> tok_type t <> JZ_TOK_LBRACE)
  | [] => False
  end.

Lemma head_app l ts ts' : head_ok l ts -> head_ok l (ts ++ ts').
Proof. by destruct ts. Qed.

Lemma number_head t : is_number t = true -> unary_op (tok_type t) = None /\ tok_type t <> JZ_TOK_LBRACE.
Proof. unfold is_number. rewrite orb_true_iff. by intros [->%type_of_test| ->%type_of_test]. Qed.
Lemma special_head t : is_special t = true -> unary_op (tok_type t) = None /\ tok_type t <> JZ_TOK_LBRACE.
Proof. unfold is_special. rewrite orb_true_iff. by intros [->%type_of_test| ->%type_of_test]. Qed.
Lemma builtin_type t : is_builtin t = true -> tok_type t = JZ_TOK_IDENTIFIER.
Proof. unfold is_builtin. rewrite andb_true_iff. by intros [?%type_of_test _]. Qed.

Lemma brace_head t ts : tok_type t = JZ_TOK_LBRACE -> head_ok 12 (t :: ts).
Proof. intros E. cbn. rewrite E. split; [done|lia]. Qed.

Lemma level_op_high l ty op : level_op l ty = Some op -> 1 <= l <= 10.
Proof. destruct l as [|l]; [done|]. do 10 (destruct l as [|l]; [lia|]). done. Qed.

Lemma spells_head n l ts e :
  spells n l ts e -> 12 <= l -> Forall (fun t => tok_ok t = true) ts -> head_ok l ts.
Proof.
  assert (forall l t ts, unary_op (tok_type t) = None /\ tok_type t <> JZ_TOK_LBRACE -> head_ok l (t :: ts))
    as Hcons by (intros ? ? ? []; by split).
  induction 1 as [n l ts e Hl _ IH| |n l ts1 ts2 a b o op Hop| | | | |n ts e ts1 m ts2 k lb s rb _ IH
    |n ts e ts1 m lb rb _ IH|n ts e ts1 m lb rb d t _ IH|n ts e lb w rb d t _ IH| | | | | |];
    intros Hl' Hok; try lia; try (by apply brace_head);
    repeat match goal with H : Forall _ (_ ++ _) |- _ => apply Forall_app in H as [? ?] end.
  - specialize (IH ltac:(lia) Hok). destruct ts; [done|]. destruct IH as [H1 H2]. split; [done|].
    intros. apply H2. lia.
  - apply level_op_high in Hop. lia.
  - apply head_app. by apply IH.
  - apply head_app. by apply IH.
  - apply head_app. by apply IH.
  - apply head_app. by apply IH.
  - by apply Hcons, number_head.
  - by apply Hcons, special_head.
  - apply Hcons. apply Forall_cons in Hok as [Hok _].
    destruct (name_head_plain t Hok) as (H1 & H2 & _); [|done].
    unfold is_name_head in *. by destruct (is_segment t); [|rewrite andb_false_r in *].
  - apply Hcons. by rewrite (builtin_type t).
  - apply Hcons. by rewrite (builtin_type t).
  - apply Hcons. by split; match goal with H : tok_type lp = _ |- _ => rewrite H end.
Qed.

(** ** Computations that succeed *)

Section Complete.
Context (body : list JZToken) (eof : JZToken) (Heof : tok_type eof = JZ_TOK_EOF)
  (Hlex : tok_lexeme eof = None).
Notation tokens := (body ++ [eof]).
Notation rest := (rest body).
Notation left := (left body).
Notation front := (front eof).

(** [m] consumes the tokens [ts] of [p] and returns [a]. *)
Definition reads {A} (m : P A) (p : Parser) (ts : list JZToken) (a : A) : Prop :=
  m p = Some (Some a, forward (length ts) p).

Lemma run_bind {A B} (m : P A) (f : A -> P B) p a p' :
  m p = Some (Some a, p') -> (x ← m; f x) p = f a p'.
Proof using Type. unfold mbind, P_bind. by intros ->. Qed.

Lemma reads_bind {A B} (m : P A) (f : A -> P B) p ts a ts' b :
  reads m p ts a -> reads (f a) (forward (length ts) p) ts' b -> reads (x ← m; f x) p (ts ++ ts') b.
Proof using Type.
  unfold reads. intros H1 H2. rewrite (run_bind m f p a _ H1), H2.
  by rewrite forward_forward, length_app.
Qed.

Lemma reads_ret {A} (a : A) p : reads (mret a) p [] a.
Proof using Type. unfold reads. by rewrite forward_0. Qed.

Lemma reads_peek p : reads (peek_token tokens) p [] (front (rest p)).
Proof using Type. unfold reads, peek_token. by rewrite peek_front, forward_0. Qed.

Lemma after_peek {B} (f : JZToken -> P B) p ts b :
  reads (f (front (rest p))) p ts b -> reads (x ← peek_token tokens; f x) p ts b.
Proof using Type. unfold reads. by rewrite (run_bind _ _ p _ _ (reads_peek p)), forward_0. Qed.

Lemma after_ret {A B} (a : A) (f : A -> P B) p ts b :
  reads (f a) p ts b -> reads (x ← mret a; f x) p ts b.
Proof using Type. done. Qed.

Lemma reads_advance p t r : rest p = t :: r -> reads (advance_token tokens) p [t] tt.
Proof using Type.
  intros H. destruct (advance_forward body eof p t r H) as [Ha _].
  unfold reads, advance_token, update. by rewrite Ha.
Qed.

Lemma reads_match ty p t r :
  rest p = t :: r -> tok_type t = ty -> reads (match_tok tokens ty) p [t] true.
Proof using Type.
  intros H Ht. destruct (advance_forward body eof p t r H) as [Ha _].
  unfold reads, match_tok. rewrite peek_front, H. cbn [ParseGrammar.front].
  by rewrite (test_of_type ty t Ht), Ha.
Qed.

Lemma reads_no_match ty p :
  tok_type (front (rest p)) <> ty -> reads (match_tok tokens ty) p [] false.
Proof using Type.
  intros H. unfold reads, match_tok. rewrite peek_front, forward_0. unfold tok_is.
  by rewrite bool_decide_eq_false_2.
Qed.

Lemma reads_expect ty msg p t r :
  rest p = t :: r -> tok_type t = ty -> reads (expect tokens ty msg) p [t] tt.
Proof using Type.
  intros H Ht. apply (reads_bind _ _ p [t] true []); [by eapply reads_match|]. apply reads_ret.
Qed.

Lemma reads_at {A} (m m' : P A) p ts a : m p = m' p -> reads m' p ts a -> reads m p ts a.
Proof using Type. unfold reads. by intros ->. Qed.

(** ** Names *)

(** The text and the place after one more segment or name [s] at [t]. *)
Definition name_after (buf : option (string * JZLocation)) (s : string) (t : JZToken) : string * JZLocation :=
  match buf with Some (s0, l0) => ((s0 ++ s)%string, l0) | None => (s, tok_loc t) end.

(** One round of the loop. *)
Lemma name_loop_stop m p buf :
  is_segment (front (rest p)) = false -> reads (qualified_name_loop tokens true true (S m) buf) p [] buf.
Proof using Type.
  intros H. unfold reads. cbn [qualified_name_loop]. rewrite peek_front, forward_0.
  unfold is_segment in H. destruct (tok_lexeme (front (rest p))); [by rewrite H|done].
Qed.

Lemma name_loop_step m p buf t r s :
  rest p = t :: r -> is_segment t = true -> tok_lexeme t = Some s ->
  qualified_name_loop tokens true true (S m) buf p =
    (let '(text, loc) := name_after buf s t in
     if tok_is JZ_TOK_DOT (front r)
     then qualified_name_loop tokens true true m (Some ((text ++ ".")%string, loc)) (advance tokens (forward 1 p))
     else Some (Some (Some (text, loc)), forward 1 p)).
Proof using Type.
  intros Hr Hs Hl. cbn [qualified_name_loop]. rewrite peek_front, Hr. cbn [ParseGrammar.front].
  unfold is_segment in Hs. rewrite Hl in Hs |- *. rewrite Hs. cbn [negb].
  destruct (advance_forward body eof p t r Hr) as [-> Hr1]. rewrite peek_front, Hr1. done.
Qed.

Lemma dot_step p t d r :
  rest p = t :: d :: r ->
  advance tokens (forward 1 p) = forward 2 p /\ rest (forward 2 p) = r.
Proof using Type.
  intros Hr. pose proof (rest_forward body [t] (d :: r) p Hr) as Hr1. cbn [length] in Hr1.
  destruct (advance_forward body eof _ d r Hr1) as [-> Hr2]. by rewrite forward_forward in *.
Qed.

Lemma name_loop_reads ts s : name_spelled ts s -> forall m p r buf,
  rest p = ts ++ r -> left p < m -> is_segment (front r) = false -> tok_type (front r) <> JZ_TOK_DOT ->
  reads (qualified_name_loop tokens true true m buf) p ts (Some (name_after buf s (hd eof ts))).
Proof using Heof Hlex.
  assert (forall t, tok_type t <> JZ_TOK_DOT -> tok_is JZ_TOK_DOT t = false) as Hnot
    by (intros t ?; unfold tok_is; by apply bool_decide_eq_false_2).
  induction 1 as [t s Hs Hl|t d s Hs Hl Hd|t d s ts s' Hs Hl Hd Hsp IH];
    intros m p r buf Hr Hm Hseg Hdot; cbn [app] in Hr;
    (destruct m as [|m]; [lia|]); unfold reads; erewrite name_loop_step by done; cbn [ParseGrammar.front hd].
  - rewrite Hnot by done. by destruct (name_after buf s t).
  - rewrite (test_of_type _ d Hd). destruct (dot_step p t d r Hr) as [-> Hr2].
    pose proof (left_forward body [t; d] p ltac:(cbn [length]; by rewrite Hr2)) as Hlen. cbn [length] in Hlen.
    destruct m as [|m]; [lia|].
    assert (name_after buf (s ++ ".") t = ((fst (name_after buf s t) ++ ".")%string, snd (name_after buf s t))) as ->
      by (destruct buf as [[s0 l0]|]; cbn; by rewrite ?append_assoc).
    destruct (name_after buf s t) as [text loc]. cbn [fst snd].
    rewrite (name_loop_stop m (forward 2 p)) by by rewrite Hr2. by rewrite forward_0.
  - rewrite (test_of_type _ d Hd). destruct (dot_step p t d (ts ++ r) Hr) as [-> Hr2].
    pose proof (left_forward body [t; d] p ltac:(cbn [length]; by rewrite Hr2)) as Hlen. cbn [length] in Hlen.
    assert (name_after buf (s ++ "." ++ s') t =
      name_after (Some ((fst (name_after buf s t) ++ ".")%string, snd (name_after buf s t))) s' (hd eof ts)) as ->
      by (destruct buf as [[s0 l0]|]; cbn; by rewrite ?append_assoc).
    destruct (name_after buf s t) as [text loc]. cbn [fst snd].
    rewrite (IH m (forward 2 p) r) by (done || lia). by rewrite forward_forward.
Qed.

Lemma name_reads t ts s m p r msg :
  name_spelled (t :: ts) s -> rest p = (t :: ts) ++ r -> left p < m ->
  is_segment (front r) = false -> tok_type (front r) <> JZ_TOK_DOT ->
  reads (parse_name tokens msg m) p (t :: ts) (identifier_node s (tok_loc t)).
Proof using Heof Hlex.
  intros Hs Hr Hm Hseg Hdot. unfold reads, parse_name, parser_parse_qualified_name.
  rewrite (run_bind _ _ p _ _ (name_loop_reads _ s Hs m p r None Hr Hm Hseg Hdot)). done.
Qed.

(** ** What a derivation promises *)

Definition all_ok (ts : list JZToken) : Prop := Forall (fun t => tok_ok t = true) ts.

(** What is left to do after a phrase [e] of level [l]; [n] is the fuel of the
    operands, [m] the fuel of the loop. *)
Definition cont (expression : P JZASTNode) (l n m : nat) (e : JZASTNode) : P JZASTNode :=
  if l =? 13 then
    postfix_loop tokens expression "expected ']' after slice/index expression" parser_clone_ast_tree m e
  else if (1 <=? l) && (l <=? 10) then
    binary_loop tokens (level_op l) (level_parser tokens expression (S l) n) m e
  else mret e.

(** The tokens [ts] stand at [p], before [r], and the nesting [n] is allowed. *)
Definition at_phrase (n : nat) (p : Parser) (ts r : list JZToken) : Prop :=
  rest p = ts ++ r /\ (0 <= ps_expr_depth p)%Z /\ (ps_expr_depth p + Z.of_nat n <= 512)%Z /\ all_ok ts.

Definition accepts (n l : nat) (ts : list JZToken) (e : JZASTNode) : Prop :=
  forall fuel m p r, at_phrase n p ts r -> left p < m -> left p <= fuel -> follows l (front r) = true ->
  exists m', left (forward (length ts) p) < m' /\
    level_parser tokens (parse_expression tokens fuel) l m p =
      cont (parse_expression tokens fuel) l m m' e (forward (length ts) p).

Definition accepts_nested (n : nat) (ts : list JZToken) (e : JZASTNode) : Prop :=
  forall fuel p r, at_phrase (S n) p ts r -> left p < fuel -> follows 0 (front r) = true ->
  reads (parse_expression tokens fuel) p ts e.

Definition accepts_list (n : nat) (ts : list JZToken) (es : list JZASTNode) : Prop :=
  forall fuel m p r, at_phrase (S n) p ts r -> left p < fuel -> left p < m ->
  follows 0 (front r) = true -> tok_type (front r) <> JZ_TOK_COMMA ->
  reads (comma_list tokens (parse_expression tokens fuel) m) p ts es.

Lemma phrase_rest n p ts r : at_phrase n p ts r -> rest (forward (length ts) p) = r.
Proof using Type. intros (H & _). by apply rest_forward. Qed.

Lemma phrase_left n p ts r : at_phrase n p ts r -> left p = length ts + left (forward (length ts) p).
Proof using Type. intros H. apply left_forward. rewrite (phrase_rest n p ts r H). apply H. Qed.

(** The first part of a phrase, and what stands behind it. *)
Lemma phrase_front n p ts ts' r : at_phrase n p (ts ++ ts') r -> at_phrase n p ts (ts' ++ r).
Proof using Type.
  intros (H1 & H2 & H3 & H4). apply Forall_app in H4 as [H4 _]. by rewrite <- app_assoc in H1.
Qed.
Lemma phrase_back n p ts ts' r :
  at_phrase n p (ts ++ ts') r -> at_phrase n (forward (length ts) p) ts' r.
Proof using Type.
  intros H. pose proof (phrase_rest _ _ _ _ (phrase_front _ _ _ _ _ H)) as Hr.
  destruct H as (_ & H2 & H3 & H4). apply Forall_app in H4 as [_ H4]. done.
Qed.
Lemma phrase_cons n p t ts r : at_phrase n p (t :: ts) r -> tok_ok t = true /\ at_phrase n (forward 1 p) ts r.
Proof using Type.
  intros H. split; [|by apply (phrase_back n p [t])]. destruct H as (_ & _ & _ & H).
  by apply Forall_cons in H as [H _].
Qed.
Lemma phrase_less n k p ts r : k <= n -> at_phrase n p ts r -> at_phrase k p ts r.
Proof using Type. intros Hk (H1 & H2 & H3 & H4). repeat split; [done|done|lia|done]. Qed.

Lemma cont_done expression l n m e p :
  0 < m -> (l = 13 -> tok_type (front (rest p)) <> JZ_TOK_LBRACKET) ->
  level_op l (tok_type (front (rest p))) = None ->
  cont expression l n m e p = Some (Some e, p).
Proof using Type.
  intros Hm Hb Hop. unfold cont. destruct m as [|m]; [lia|]. destruct (Nat.eqb_spec l 13) as [->|_].
  - cbn [postfix_loop]. rewrite (run_bind _ _ p _ _ (reads_no_match JZ_TOK_LBRACKET p (Hb eq_refl))).
    by rewrite forward_0.
  - destruct ((1 <=? l) && (l <=? 10)); [|done]. cbn [binary_loop].
    rewrite (run_bind _ _ p _ _ (reads_peek p)), Hop. by rewrite forward_0.
Qed.

Lemma follows_no_bracket l t : l < 13 -> follows l t = true -> tok_type t <> JZ_TOK_LBRACKET.
Proof using Type.
  unfold follows, type_follows. rewrite !andb_true_iff. intros Hl (_ & ((_ & H) & _) & _) E.
  destruct (Nat.leb_spec 13 l); [lia|]. rewrite E in H. by rewrite bool_decide_eq_true_2 in H.
Qed.

(** An accepted phrase whose level ends there is read. *)
Lemma accepts_reads n l k ts e fuel m p r :
  accepts n k ts e -> at_phrase n p ts r -> left p < m -> left p <= fuel ->
  follows l (front r) = true -> l < k ->
  reads (level_parser tokens (parse_expression tokens fuel) k m) p ts e.
Proof using Type.
  intros Ha Hp Hm Hf Hfol Hl.
  destruct (Ha fuel m p r Hp Hm Hf (follows_up l k _ ltac:(lia) Hfol)) as (m' & Hm' & Heq).
  unfold reads. rewrite Heq. apply cont_done; [lia|..]; rewrite (phrase_rest n p ts r Hp).
  - intros ->. by apply (follows_no_bracket l).
  - by apply (follows_op l).
Qed.

(** Levels without a loop. *)
Lemma accepts_here n l ts e fuel m p r :
  accepts n l ts e -> at_phrase n p ts r -> left p < m -> left p <= fuel ->
  follows l (front r) = true -> l = 0 \/ l = 11 \/ l = 12 \/ l = 14 ->
  reads (level_parser tokens (parse_expression tokens fuel) l m) p ts e.
Proof using Type.
  intros Ha Hp Hm Hf Hfol Hl. destruct (Ha fuel m p r Hp Hm Hf Hfol) as (m' & Hm' & Heq).
  unfold reads. rewrite Heq. by repeat (destruct Hl as [->|Hl]; [done|]); subst.
Qed.

Lemma reads_accepts n l ts e :
  l = 0 \/ l = 11 \/ l = 12 \/ l = 14 ->
  (forall fuel m p r, at_phrase n p ts r -> left p < m -> left p <= fuel -> follows l (front r) = true ->
     reads (level_parser tokens (parse_expression tokens fuel) l m) p ts e) ->
  accepts n l ts e.
Proof using Type.
  intros Hl H fuel m p r Hp Hm Hf Hfol. exists m. pose proof (phrase_left n p ts r Hp).
  split; [lia|]. rewrite (H fuel m p r Hp Hm Hf Hfol).
  by repeat (destruct Hl as [->|Hl]; [done|]); subst.
Qed.

(** A level of binary operators after its first operand. *)
Lemma binary_first n l ts e fuel m p r :
  accepts n (S l) ts e -> 1 <= l <= 10 -> at_phrase n p ts r -> left p < m -> left p <= fuel ->
  follows l (front r) = true ->
  level_parser tokens (parse_expression tokens fuel) l m p =
    cont (parse_expression tokens fuel) l m m e (forward (length ts) p).
Proof using Type.
  intros Ha Hl Hp Hm Hf Hfol. rewrite level_binary by done. unfold binary_level.
  rewrite (run_bind _ _ p _ _ (accepts_reads n l (S l) ts e fuel m p r Ha Hp Hm Hf Hfol ltac:(lia))).
  unfold cont. destruct (Nat.eqb_spec l 13); [lia|].
  by destruct (Nat.leb_spec 1 l), (Nat.leb_spec l 10); try lia.
Qed.

Lemma accepts_down n l ts e : l < 14 -> spells n (S l) ts e -> accepts n (S l) ts e -> accepts n l ts e.
Proof using Type.
  intros Hl Hsp Ha fuel m p r Hp Hm Hf Hfol. exists m. pose proof (phrase_left n p ts r Hp).
  split; [lia|].
  destruct (decide (1 <= l <= 10)) as [Hb|Hb]; [by apply (binary_first n l ts e fuel m p r)|].
  destruct (decide (l = 13)) as [->|Hl13].
  { cbn [level_parser]. unfold parse_postfix_expr.
    destruct (Ha fuel m p r Hp Hm Hf (follows_up 13 14 _ ltac:(lia) Hfol)) as (m' & _ & Heq).
    by rewrite (run_bind _ _ p _ _ Heq). }
  pose proof (accepts_reads n l (S l) ts e fuel m p r Ha Hp Hm Hf Hfol ltac:(lia)) as Hread.
  destruct m as [|m]; [lia|]. destruct (decide (l = 0)) as [->|Hl0].
  { cbn [level_parser parse_ternary_expr]. rewrite (run_bind _ _ p _ _ Hread).
    rewrite (run_bind _ _ _ _ _ (reads_no_match JZ_TOK_OP_QUESTION _ ltac:(
      rewrite (phrase_rest n p ts r Hp); intros E; unfold follows, type_follows in Hfol;
      rewrite E, !andb_false_r in Hfol; discriminate))).
    by rewrite forward_0. }
  assert (head_ok (S l) ts) as Hhead by (apply (spells_head n (S l) ts e Hsp); [lia|apply Hp]).
  destruct ts as [|t ts]; [done|]. destruct Hhead as [Hun Hbr].
  assert (front (rest p) = t) as Hfront by (destruct Hp as [-> _]; done).
  assert (l = 11 \/ l = 12) as [-> | ->] by lia; cbn [level_parser] in *.
  - cbn [parse_unary_expr]. rewrite (run_bind _ _ p _ _ (reads_peek p)), Hfront, Hun.
    by rewrite forward_0.
  - unfold parse_concat_or_primary_expr. rewrite peek_front, Hfront.
    unfold tok_is. by rewrite bool_decide_eq_false_2 by (apply Hbr; lia).
Qed.

Lemma nested_accepts n ts e : accepts n 0 ts e -> accepts_nested n ts e.
Proof using Type.
  intros Ha fuel p r Hp Hf Hfol. destruct fuel as [|fuel]; [lia|]. cbn [parse_expression].
  unfold reads, deeper, jz_depth_enter_checked. cbn [jz_input_limit_value].
  pose proof Hp as (H1 & H2 & H3 & H4). destruct (Z.leb_spec 512 (ps_expr_depth p)); [lia|].
  cbn [Z.eqb orb]. set (p1 := set_expr_depth (ps_expr_depth p + 1) p).
  assert (at_phrase n p1 ts r) as Hp1 by (repeat split; [done|cbn; lia|cbn; lia|done]).
  pose proof (accepts_here n 0 ts e fuel (S fuel) p1 r Ha Hp1) as Hread. unfold reads in Hread.
  change (left p1) with (left p) in Hread. cbn [level_parser] in Hread.
  rewrite Hread; [|lia|lia|done|by left]. unfold jz_depth_leave. cbn [ps_expr_depth forward set_pos p1 set_expr_depth].
  destruct (Z.ltb_spec 0 (ps_expr_depth p + 1)); [|lia].
  unfold forward, set_pos, set_expr_depth. cbn. do 3 f_equal. lia.
Qed.

(** Tokens that end an expression. *)
Definition closes (t : JZToken) : Prop :=
  In (tok_type t)
    [JZ_TOK_COMMA; JZ_TOK_RPAREN; JZ_TOK_RBRACE; JZ_TOK_RBRACKET; JZ_TOK_OP_COLON; JZ_TOK_SEMICOLON].

Lemma closes_follows t : tok_ok t = true -> closes t -> follows 0 t = true.
Proof using Type.
  intros Hok Hc. unfold closes in Hc. apply ok_follows; [done|..];
    repeat (destruct Hc as [<-|Hc]; [in_list || reflexivity|]); done.
Qed.

Ltac closer H := unfold closes; cbn [ParseGrammar.front app]; rewrite H; in_list.

Lemma accepts_ternary n ts1 ts2 ts3 c a b q s :
  accepts (S n) 1 ts1 c -> accepts_nested n ts2 a -> accepts (S n) 0 ts3 b ->
  tok_type q = JZ_TOK_OP_QUESTION -> tok_type s = JZ_TOK_OP_COLON ->
  accepts (S n) 0 (ts1 ++ q :: ts2 ++ s :: ts3) (new_node JZ_AST_EXPR_TERNARY (ast_loc c) [c; a; b]).
Proof using Type.
  intros Hc Ha Hb Hq Hs. apply reads_accepts; [by left|]. intros fuel m p r Hp Hm Hf Hfol.
  cbn [level_parser]. destruct m as [|m]; [lia|]. cbn [parse_ternary_expr].
  pose proof (phrase_front _ _ _ _ _ Hp) as Hp1. pose proof (phrase_back _ _ _ _ _ Hp) as Hp2.
  pose proof (phrase_left _ _ _ _ Hp1).
  destruct (phrase_cons _ _ _ _ _ Hp2) as [Hqok Hp3]. pose proof (left_cons body q _ _ (proj1 Hp2)).
  pose proof (phrase_front _ _ _ _ _ Hp3) as Hp4. pose proof (phrase_back _ _ _ _ _ Hp3) as Hp5.
  pose proof (phrase_left _ _ _ _ Hp4).
  destruct (phrase_cons _ _ _ _ _ Hp5) as [Hsok Hp6]. pose proof (left_cons body s _ _ (proj1 Hp5)).
  assert (follows 1 q = true) as Hq1 by (apply ok_follows; [done|rewrite Hq; in_list|by rewrite Hq]).
  apply (reads_bind _ _ p ts1 c).
  { destruct (Hc fuel (S m) p _ Hp1 Hm Hf Hq1) as (m' & Hm' & Heq). unfold reads.
    change (parse_logical_or_expr _ _ _) with (level_parser tokens (parse_expression tokens fuel) 1 (S m)).
    rewrite Heq. apply cont_done; [lia|done|]. rewrite (proj1 Hp2). cbn. by rewrite Hq. }
  apply (reads_bind _ _ _ [q] true); [by apply (reads_match _ _ q _ (proj1 Hp2))|]. cbn [negb].
  apply (reads_bind _ _ _ ts2 a).
  { apply (Ha fuel _ (s :: ts3 ++ r)); [done|cbn [length] in *; lia|]. apply closes_follows; [done|closer Hs]. }
  apply (reads_bind _ _ _ [s] tt); [by apply (reads_expect _ _ _ s _ (proj1 Hp5))|].
  rewrite <- (app_nil_r ts3). apply (reads_bind _ _ _ ts3 b); [|apply reads_ret].
  apply (accepts_here (S n) 0 ts3 b fuel m _ r); [done|done|cbn [length] in *; lia..|done|by left].
Qed.

Lemma accepts_binary n l ts1 ts2 a b o op :
  level_op l (tok_type o) = Some op -> accepts n l ts1 a -> accepts n (S l) ts2 b ->
  accepts n l (ts1 ++ o :: ts2) (binary_node op (tok_loc o) a b).
Proof using Type.
  intros Hop Ha Hb fuel m p r Hp Hm Hf Hfol. pose proof (level_op_high _ _ _ Hop) as Hl.
  pose proof (phrase_front _ _ _ _ _ Hp) as Hp1. pose proof (phrase_back _ _ _ _ _ Hp) as Hp2.
  pose proof (phrase_left _ _ _ _ Hp1).
  destruct (phrase_cons _ _ _ _ _ Hp2) as [Hok Hp3]. pose proof (left_cons body o _ _ (proj1 Hp2)).
  pose proof (phrase_left _ _ _ _ Hp3).
  destruct (Ha fuel m p _ Hp1 Hm Hf (op_tok_follows l o op Hok Hop)) as (m' & Hm' & Heq).
  destruct m' as [|m']; [lia|]. exists m'. rewrite length_app, <- forward_forward. cbn [length].
  rewrite <- (forward_forward (length ts2) 1). split; [lia|]. rewrite Heq.
  unfold cont. destruct (Nat.eqb_spec l 13); [lia|].
  destruct (Nat.leb_spec 1 l), (Nat.leb_spec l 10); try lia. cbn [andb binary_loop].
  rewrite (run_bind _ _ _ _ _ (reads_peek _)), (proj1 Hp2). cbn [ParseGrammar.front app length].
  rewrite Hop, forward_0, (run_bind _ _ _ _ _ (reads_advance _ _ _ (proj1 Hp2))).
  by rewrite (run_bind _ _ _ _ _ (accepts_reads n l (S l) ts2 b fuel m _ r Hb Hp3
    ltac:(lia) ltac:(lia) Hfol ltac:(lia))).
Qed.

Lemma accepts_unary n ts e o op :
  unary_op (tok_type o) = Some op -> accepts n 11 ts e ->
  accepts n 11 (o :: ts) (unary_node op (tok_loc o) e).
Proof using Type.
  intros Hop Ha. apply reads_accepts; [by auto|]. intros fuel m p r Hp Hm Hf Hfol.
  destruct m as [|m]; [lia|]. cbn [level_parser parse_unary_expr].
  destruct (phrase_cons _ _ _ _ _ Hp) as [Hok Hp1]. pose proof (left_cons body o _ _ (proj1 Hp)).
  unfold reads. rewrite (run_bind _ _ _ _ _ (reads_peek _)), (proj1 Hp). cbn [ParseGrammar.front app length].
  rewrite Hop, forward_0. apply (reads_bind _ _ p [o] tt ts); [by apply (reads_advance _ _ _ (proj1 Hp))|].
  rewrite <- (app_nil_r ts). apply (reads_bind _ _ _ ts e); [|apply reads_ret].
  apply (accepts_here n 11 ts e fuel m _ r); [done|done|cbn [length]; lia..|done|by auto].
Qed.

(** ** Lists and braces *)

Lemma list_one n ts e : accepts_nested n ts e -> accepts_list n ts [e].
Proof using Type.
  intros He fuel m p r Hp Hf Hm Hfol Hc. destruct m as [|m]; [lia|]. cbn [comma_list].
  rewrite <- (app_nil_r ts). apply (reads_bind _ _ p ts e); [by apply (He fuel p r)|].
  apply (reads_bind _ _ _ [] false); [|apply reads_ret].
  apply reads_no_match. by rewrite (phrase_rest _ _ _ _ Hp).
Qed.

Lemma list_cons n ts e c ts' es :
  accepts_nested n ts e -> tok_type c = JZ_TOK_COMMA -> accepts_list n ts' es ->
  accepts_list n (ts ++ c :: ts') (e :: es).
Proof using Type.
  intros He Hc Hes fuel m p r Hp Hf Hm Hfol Hr. destruct m as [|m]; [lia|]. cbn [comma_list].
  pose proof (phrase_front _ _ _ _ _ Hp) as Hp1. pose proof (phrase_back _ _ _ _ _ Hp) as Hp2.
  pose proof (phrase_left _ _ _ _ Hp1).
  destruct (phrase_cons _ _ _ _ _ Hp2) as [Hok Hp3]. pose proof (left_cons body c _ _ (proj1 Hp2)).
  apply (reads_bind _ _ p ts e).
  { apply (He fuel p _ Hp1); [done|]. apply closes_follows; [done|closer Hc]. }
  apply (reads_bind _ _ _ [c] true); [by apply (reads_match _ _ c _ (proj1 Hp2))|].
  rewrite <- (app_nil_r ts'). apply (reads_bind _ _ _ ts' es); [|apply reads_ret].
  apply (Hes fuel m _ r); [done|cbn [length]; lia..|done|done].
Qed.

(** A list before a token that closes it. *)
Lemma list_closed n ts es fuel m p rb r :
  accepts_list n ts es -> at_phrase (S n) p ts (rb :: r) -> left p < fuel -> left p < m ->
  tok_ok rb = true -> tok_type rb = JZ_TOK_RBRACE \/ tok_type rb = JZ_TOK_RPAREN ->
  reads (comma_list tokens (parse_expression tokens fuel) m) p ts es.
Proof using Type.
  intros Hes Hp Hf Hm Hok Ht. apply (Hes fuel m p _ Hp Hf Hm).
  - apply closes_follows; [done|]. by destruct Ht as [Ht|Ht]; closer Ht.
  - cbn. by destruct Ht as [-> | ->].
Qed.

(** The first tokens of a nested expression. *)
Lemma spells_front n l ts e : spells n l ts e -> all_ok ts ->
  match ts with
  | t :: _ => tok_type t <> JZ_TOK_RBRACE /\ tok_type t <> JZ_TOK_RPAREN /\ tok_type t <> JZ_TOK_OP_STAR
  | [] => False
  end.
Proof using Type.
  set (P := fun ts : list JZToken => match ts with
    | t :: _ => tok_type t <> JZ_TOK_RBRACE /\ tok_type t <> JZ_TOK_RPAREN /\ tok_type t <> JZ_TOK_OP_STAR
    | [] => False end).
  assert (forall ts ts', P ts -> P (ts ++ ts')) as Happ by by intros [|? ?] ?.
  assert (forall t ts ty, tok_type t = ty -> ty <> JZ_TOK_RBRACE -> ty <> JZ_TOK_RPAREN ->
    ty <> JZ_TOK_OP_STAR -> P (t :: ts)) as Hty by (intros t ts' ty <- ? ? ?; by split_and!).
  intros H. change (all_ok ts -> P ts). unfold all_ok. induction H; intros Hok;
    repeat match goal with H : Forall _ (_ ++ _) |- _ => apply Forall_app in H as [? ?] end;
    try (by auto); try (by eapply Hty; [eassumption|done..]).
  - cbn. split_and!; intros E; by rewrite E in H.
  - cbn. unfold is_number in H. rewrite orb_true_iff in H.
    split_and!; intros E; by destruct H as [H%type_of_test|H%type_of_test]; rewrite E in H.
  - cbn. unfold is_special in H0. rewrite orb_true_iff in H0.
    split_and!; intros E; by destruct H0 as [H0%type_of_test|H0%type_of_test]; rewrite E in H0.
  - cbn. apply Forall_cons in Hok as [Hok _]. unfold is_name_head in H.
    destruct (is_segment t) eqn:Es; [|by rewrite andb_false_r in H].
    split_and!; intros E; rewrite (ok_not_segment t Hok) in Es; try done; rewrite E; in_list.
  - cbn. by rewrite (builtin_type t).
  - cbn. by rewrite (builtin_type t).
Qed.

Lemma list_front n ts es : spells_list n ts es -> all_ok ts ->
  match ts with t :: _ => tok_type t <> JZ_TOK_RBRACE /\ tok_type t <> JZ_TOK_RPAREN | [] => False end.
Proof using Type.
  intros H Hok. destruct H as [n ts e He|n ts e c ts' es He Hc _].
  - pose proof (spells_front _ _ _ _ He Hok). by destruct ts; naive_solver.
  - apply Forall_app in Hok as [Hok _]. pose proof (spells_front _ _ _ _ He Hok).
    by destruct ts; naive_solver.
Qed.

(** A number is not followed by a brace: [{ N {] is always a replication. *)
Definition no_replication (ts : list JZToken) : Prop :=
  match ts with
  | c :: d :: _ => is_number c = true -> tok_type d <> JZ_TOK_LBRACE
  | _ => True
  end.

Lemma no_replication_app ts o ts' :
  ts <> [] -> no_replication ts -> tok_type o <> JZ_TOK_LBRACE -> no_replication (ts ++ o :: ts').
Proof using Type. intros Hne Hn Ho. destruct ts as [|c [|d ts]]; [done|by intros _|exact Hn]. Qed.

Lemma no_replication_cons t ts ty :
  tok_type t = ty -> ty <> JZ_TOK_NUMBER -> ty <> JZ_TOK_SIZED_NUMBER -> no_replication (t :: ts).
Proof using Type.
  intros <- H1 H2. destruct ts as [|d ts]; [done|]. cbn. unfold is_number, tok_is.
  by rewrite !bool_decide_eq_false_2.
Qed.

Lemma op_not_brace l ty op : level_op l ty = Some op -> ty <> JZ_TOK_LBRACE.
Proof using Type. intros H ->. do 11 (destruct l as [|l]; [done|]). done. Qed.

Lemma spells_no_replication n l ts e : spells n l ts e -> no_replication ts.
Proof using Type.
  assert (forall n l ts e, spells n l ts e -> forall o ts', no_replication ts ->
    tok_type o <> JZ_TOK_LBRACE -> no_replication (ts ++ o :: ts')) as Happ
    by (intros; apply no_replication_app; [by eapply spells_nonempty|done..]).
  induction 1; try done; try (by eapply no_replication_cons; [eassumption|done..]);
    try (eapply Happ; [eassumption|done|]; try match goal with H : tok_type ?t = _ |- tok_type ?t <> _ => by rewrite H end).
  - by eapply op_not_brace.
  - eapply (no_replication_cons o); [reflexivity|..]; intros E; by rewrite E in H.
  - destruct ts as [|d ts]; [done|]. cbn. unfold is_name_head in H.
    by destruct (is_number t).
  - by apply (no_replication_cons t _ JZ_TOK_IDENTIFIER); [apply builtin_type|..].
  - by apply (no_replication_cons t _ JZ_TOK_IDENTIFIER); [apply builtin_type|..].
Qed.

Lemma list_no_replication n ts es rb r :
  spells_list n ts es -> tok_type rb <> JZ_TOK_LBRACE -> no_replication (ts ++ rb :: r).
Proof using Type.
  intros H Hrb. destruct H as [n ts e He|n ts e c ts' es He Hc _].
  - apply no_replication_app; [by eapply spells_nonempty|by eapply spells_no_replication|done].
  - rewrite <- app_assoc. cbn [app].
    apply no_replication_app; [by eapply spells_nonempty|by eapply spells_no_replication|by rewrite Hc].
Qed.

(** After the opening brace of a concatenation. *)
Lemma concat_elements fuel m p lb r :
  rest p = lb :: r -> tok_type lb = JZ_TOK_LBRACE -> no_replication r ->
  parse_concat_or_primary_expr tokens (parse_expression tokens fuel) m p =
    parse_elements tokens (parse_expression tokens fuel) m lb (forward 1 p).
Proof using Heof.
  intros Hr Hlb Hn. unfold parse_concat_or_primary_expr. rewrite peek_front, Hr. cbn [ParseGrammar.front].
  rewrite (test_of_type _ _ Hlb). destruct (advance_forward body eof p lb r Hr) as [-> Hr1].
  rewrite peek_front, Hr1.
  destruct (is_number (front r)) eqn:Hc; [|done]. cbn [andb].
  destruct (number_cons eof Heof r Hc) as (c & r' & ->).
  destruct (advance_forward body eof _ c r' Hr1) as [-> Hr2]. rewrite peek_front, Hr2.
  destruct (tok_is JZ_TOK_LBRACE (front r')) eqn:E; [|done].
  destruct (front_type eof Heof _ JZ_TOK_LBRACE ltac:(discriminate) E) as (d & r'' & -> & Hd).
  by destruct (Hn Hc).
Qed.

Lemma elements_reads fuel m p lb r ts e :
  rest p = lb :: r -> tok_type lb = JZ_TOK_LBRACE -> no_replication r ->
  reads (parse_elements tokens (parse_expression tokens fuel) m lb) (forward 1 p) ts e ->
  reads (parse_concat_or_primary_expr tokens (parse_expression tokens fuel) m) p (lb :: ts) e.
Proof using Heof.
  intros Hr Hlb Hn H. unfold reads in *. rewrite (concat_elements fuel m p lb r Hr Hlb Hn), H.
  by rewrite forward_forward.
Qed.

Lemma replication_reads fuel m p lb c lb' r ts e :
  rest p = lb :: c :: lb' :: r -> tok_type lb = JZ_TOK_LBRACE -> is_number c = true ->
  tok_type lb' = JZ_TOK_LBRACE ->
  reads (parse_replication tokens (parse_expression tokens fuel) lb c) (forward 1 (forward 1 (forward 1 p))) ts e ->
  reads (parse_concat_or_primary_expr tokens (parse_expression tokens fuel) m) p (lb :: c :: lb' :: ts) e.
Proof using Type.
  intros Hr Hlb Hc Hlb' H. unfold reads, parse_concat_or_primary_expr in *.
  rewrite peek_front, Hr. cbn [ParseGrammar.front]. rewrite (test_of_type _ _ Hlb).
  destruct (advance_forward body eof p lb _ Hr) as [-> Hr1]. rewrite peek_front, Hr1.
  cbn [ParseGrammar.front]. rewrite Hc.
  destruct (advance_forward body eof _ c _ Hr1) as [-> Hr2]. rewrite peek_front, Hr2.
  cbn [ParseGrammar.front]. rewrite (test_of_type _ _ Hlb'). cbn [andb].
  destruct (advance_forward body eof _ lb' _ Hr2) as [-> _]. rewrite H. by rewrite !forward_forward.
Qed.

Lemma accepts_empty n lb rb :
  tok_type lb = JZ_TOK_LBRACE -> tok_type rb = JZ_TOK_RBRACE ->
  accepts n 12 [lb; rb] (new_node JZ_AST_EXPR_CONCAT (tok_loc lb) []).
Proof using Heof.
  intros Hlb Hrb. apply reads_accepts; [by auto|]. intros fuel m p r Hp Hm Hf Hfol. cbn [level_parser].
  destruct (phrase_cons _ _ _ _ _ Hp) as [_ Hp1].
  apply (elements_reads fuel m p lb _ [rb] _ (proj1 Hp) Hlb); [by apply (no_replication_cons rb _ JZ_TOK_RBRACE)|].
  apply after_peek. rewrite (proj1 Hp1). cbn [ParseGrammar.front app]. rewrite (test_of_type _ _ Hrb).
  apply after_ret.
  apply (reads_bind _ _ _ [rb] tt []); [by apply (reads_expect _ _ _ rb _ (proj1 Hp1))|apply reads_ret].
Qed.

Lemma accepts_concat n ts es lb rb :
  tok_type lb = JZ_TOK_LBRACE -> tok_type rb = JZ_TOK_RBRACE ->
  spells_list n ts es -> accepts_list n ts es ->
  accepts (S n) 12 (lb :: ts ++ [rb]) (new_node JZ_AST_EXPR_CONCAT (tok_loc lb) es).
Proof using Heof.
  intros Hlb Hrb Hsp Hes. apply reads_accepts; [by auto|]. intros fuel m p r Hp Hm Hf Hfol. cbn [level_parser].
  destruct (phrase_cons _ _ _ _ _ Hp) as [_ Hp1]. pose proof (left_cons body lb _ _ (proj1 Hp)).
  pose proof (phrase_front _ _ _ _ _ Hp1) as Hp2. pose proof (phrase_back _ _ _ _ _ Hp1) as Hp3.
  destruct (phrase_cons _ _ _ _ _ Hp3) as [Hrok _].
  apply (elements_reads fuel m p lb _ (ts ++ [rb]) _ (proj1 Hp) Hlb).
  { change (no_replication ((ts ++ [rb]) ++ r)). rewrite <- app_assoc. apply (list_no_replication n ts es rb); [done|by rewrite Hrb]. }
  apply after_peek.
  pose proof (list_front n ts es Hsp ltac:(apply Hp2)) as Hfront.
  assert (tok_is JZ_TOK_RBRACE (front (rest (forward 1 p))) = false) as ->.
  { rewrite (proj1 Hp2). destruct ts as [|t ts]; [done|]. apply bool_decide_eq_false_2. apply Hfront. }
  apply (reads_bind _ _ _ ts es [rb]).
  { apply (list_closed n ts es fuel m _ rb r); [done|exact Hp2|lia|lia|done|by left]. }
  apply (reads_bind _ _ _ [rb] tt []); [by apply (reads_expect _ _ _ rb _ (proj1 Hp3))|apply reads_ret].
Qed.

Lemma accepts_replicate n ts e lb c lb' rb rb' :
  tok_type lb = JZ_TOK_LBRACE -> is_number c = true -> tok_type lb' = JZ_TOK_LBRACE ->
  tok_type rb = JZ_TOK_RBRACE -> tok_type rb' = JZ_TOK_RBRACE -> accepts_nested n ts e ->
  accepts (S n) 12 (lb :: c :: lb' :: ts ++ [rb; rb'])
    (new_node JZ_AST_EXPR_CONCAT (tok_loc lb) [literal_node c; e]).
Proof using Type.
  intros Hlb Hc Hlb' Hrb Hrb' He. apply reads_accepts; [by auto|]. intros fuel m p r Hp Hm Hf Hfol.
  cbn [level_parser].
  destruct (phrase_cons _ _ _ _ _ Hp) as [_ Hp1]. pose proof (left_cons body lb _ _ (proj1 Hp)).
  destruct (phrase_cons _ _ _ _ _ Hp1) as [_ Hp2]. pose proof (left_cons body c _ _ (proj1 Hp1)).
  destruct (phrase_cons _ _ _ _ _ Hp2) as [_ Hp3]. pose proof (left_cons body lb' _ _ (proj1 Hp2)).
  pose proof (phrase_front _ _ _ _ _ Hp3) as Hp4. pose proof (phrase_back _ _ _ _ _ Hp3) as Hp5.
  destruct (phrase_cons _ _ _ _ _ Hp5) as [Hrok Hp6].
  apply (replication_reads fuel m p lb c lb' _ (ts ++ [rb; rb']) _ (proj1 Hp) Hlb Hc Hlb').
  apply (reads_bind _ _ _ ts e [rb; rb']).
  { apply (He fuel _ _ Hp4); [lia|]. apply closes_follows; [done|closer Hrb]. }
  apply (reads_bind _ _ _ [rb] tt [rb']); [by apply (reads_expect _ _ _ rb _ (proj1 Hp5))|].
  apply (reads_bind _ _ _ [rb'] tt []); [by apply (reads_expect _ _ _ rb' _ (proj1 Hp6))|apply reads_ret].
Qed.

(** ** Brackets *)

Lemma after_map {A B C} (m : P A) (g : A -> B) (f : B -> P C) p ts a ts' c :
  reads m p ts a -> reads (f (g a)) (forward (length ts) p) ts' c ->
  reads (x ← (a ← m; mret (g a)); f x) p (ts ++ ts') c.
Proof using Type.
  intros H1 H2. apply (reads_bind _ _ p ts (g a)); [|done].
  rewrite <- (app_nil_r ts). apply (reads_bind _ _ p ts a); [done|apply reads_ret].
Qed.

Lemma starts_no_star ts : starts starts_index ts -> match ts with t :: _ => tok_type t <> JZ_TOK_OP_STAR | [] => False end.
Proof using Type. destruct ts as [|t ts]; [done|]. intros H E. cbn in H. unfold starts_index, tok_is in H. by rewrite E in H. Qed.

Lemma index_reads n ts m fuel p r :
  accepts_nested n ts m -> starts starts_index ts -> at_phrase (S n) p ts r -> left p < fuel ->
  follows 0 (front r) = true ->
  reads (parse_simple_index_expr tokens (parse_expression tokens fuel)) p ts m.
Proof using Type.
  intros Hm Hs Hp Hf Hfol. apply after_peek. rewrite (proj1 Hp). destruct ts as [|t ts]; [done|].
  cbn [ParseGrammar.front app]. rewrite Hs. by apply (Hm fuel p r).
Qed.

(** The index after the opening bracket; [more] is what is left of the function. *)
Lemma bracket_index n ts1 m fuel p c ts' r msg copy base e :
  accepts_nested n ts1 m -> starts starts_index ts1 -> at_phrase (S n) p (ts1 ++ c :: ts') r -> left p < fuel ->
  closes c ->
  reads (is_slice ← match_tok tokens JZ_TOK_OP_COLON;
         lsb ← (if (is_slice : bool)
                then l ← parse_simple_index_expr tokens (parse_expression tokens fuel); mret (Some l)
                else mret None);
         _ ← expect tokens JZ_TOK_RBRACKET msg;
         dot ← (if (is_slice : bool) then mret false else match_tok tokens JZ_TOK_DOT);
         if (dot : bool) then parse_member tokens base (Some m)
         else mret (slice_node base m (match lsb with Some l => l | None => copy m end)))
    (forward (length ts1) p) (c :: ts') e ->
  reads (parse_bracket tokens (parse_expression tokens fuel) msg copy base) p (ts1 ++ c :: ts') e.
Proof using Type.
  intros Hm Hs Hp Hf Hc H. unfold parse_bracket.
  pose proof (phrase_front _ _ _ _ _ Hp) as Hp1. pose proof (phrase_back _ _ _ _ _ Hp) as Hp2.
  destruct (phrase_cons _ _ _ _ _ Hp2) as [Hok _].
  apply (reads_bind _ _ p [] false (ts1 ++ c :: ts')).
  { apply reads_no_match. rewrite (proj1 Hp1). pose proof (starts_no_star ts1 Hs). by destruct ts1. }
  rewrite forward_0. apply (after_map _ Some _ p ts1 m); [|exact H].
  apply (index_reads n ts1 m fuel p _ Hm Hs Hp1 Hf). by apply closes_follows.
Qed.

Lemma member_reads p t r base index :
  rest p = t :: r -> is_decl_identifier_token t = true -> is_port_name base = true ->
  reads (parse_member tokens base index) p [t] (member_node base index (tok_lexeme t)).
Proof using Type.
  intros Hr Hd Hb. apply after_peek. rewrite Hr. cbn [ParseGrammar.front]. rewrite Hd, Hb. cbn [negb].
  apply (reads_bind _ _ _ [t] tt []); [by eapply reads_advance|apply reads_ret].
Qed.

Lemma slice_reads n ts1 m ts2 k s rb fuel p r msg copy base :
  accepts_nested n ts1 m -> starts starts_index ts1 -> tok_type s = JZ_TOK_OP_COLON ->
  accepts_nested n ts2 k -> starts starts_index ts2 -> tok_type rb = JZ_TOK_RBRACKET ->
  at_phrase (S n) p (ts1 ++ s :: ts2 ++ [rb]) r -> left p < fuel ->
  reads (parse_bracket tokens (parse_expression tokens fuel) msg copy base) p
    (ts1 ++ s :: ts2 ++ [rb]) (slice_node base m k).
Proof using Type.
  intros Hm Hs1 Hs Hk Hs2 Hrb Hp Hf. apply (bracket_index n ts1 m fuel p s _ r); [done|done|done|done|closer Hs|].
  pose proof (phrase_left _ _ _ _ (phrase_front _ _ _ _ _ Hp)).
  pose proof (phrase_back _ _ _ _ _ Hp) as Hp2. destruct (phrase_cons _ _ _ _ _ Hp2) as [_ Hp3].
  pose proof (left_cons body s _ _ (proj1 Hp2)).
  pose proof (phrase_front _ _ _ _ _ Hp3) as Hp4. pose proof (phrase_back _ _ _ _ _ Hp3) as Hp5.
  destruct (phrase_cons _ _ _ _ _ Hp5) as [Hok _].
  apply (reads_bind _ _ _ [s] true); [by apply (reads_match _ _ s _ (proj1 Hp2))|].
  apply (after_map _ Some _ _ ts2 k [rb]).
  { apply (index_reads n ts2 k fuel _ _ Hk Hs2 Hp4); [cbn [length]; lia|]. apply closes_follows; [done|closer Hrb]. }
  apply (reads_bind _ _ _ [rb] tt []); [by apply (reads_expect _ _ _ rb _ (proj1 Hp5))|].
  apply after_ret, reads_ret.
Qed.

Lemma single_index_reads n ts1 m rb fuel p r msg copy base :
  accepts_nested n ts1 m -> starts starts_index ts1 -> tok_type rb = JZ_TOK_RBRACKET ->
  at_phrase (S n) p (ts1 ++ [rb]) r -> left p < fuel -> tok_type (front r) <> JZ_TOK_DOT ->
  reads (parse_bracket tokens (parse_expression tokens fuel) msg copy base) p
    (ts1 ++ [rb]) (slice_node base m (copy m)).
Proof using Type.
  intros Hm Hs1 Hrb Hp Hf Hdot. apply (bracket_index n ts1 m fuel p rb _ r); [done|done|done|done|closer Hrb|].
  pose proof (phrase_back _ _ _ _ _ Hp) as Hp2. destruct (phrase_cons _ _ _ _ _ Hp2) as [_ Hp3].
  apply (reads_bind _ _ _ [] false [rb]); [apply reads_no_match; rewrite (proj1 Hp2); cbn; by rewrite Hrb|].
  rewrite forward_0. apply after_ret.
  apply (reads_bind _ _ _ [rb] tt []); [by apply (reads_expect _ _ _ rb _ (proj1 Hp2))|].
  apply (reads_bind _ _ _ [] false []); [apply reads_no_match; cbn [length]; by rewrite (proj1 Hp3)|apply reads_ret].
Qed.

Lemma indexed_member_reads n ts1 m rb d t fuel p r msg copy base :
  accepts_nested n ts1 m -> starts starts_index ts1 -> tok_type rb = JZ_TOK_RBRACKET ->
  tok_type d = JZ_TOK_DOT -> is_decl_identifier_token t = true -> is_port_name base = true ->
  at_phrase (S n) p (ts1 ++ [rb; d; t]) r -> left p < fuel ->
  reads (parse_bracket tokens (parse_expression tokens fuel) msg copy base) p
    (ts1 ++ [rb; d; t]) (member_node base (Some m) (tok_lexeme t)).
Proof using Type.
  intros Hm Hs1 Hrb Hd Ht Hb Hp Hf. apply (bracket_index n ts1 m fuel p rb _ r); [done|done|done|done|closer Hrb|].
  pose proof (phrase_back _ _ _ _ _ Hp) as Hp2. destruct (phrase_cons _ _ _ _ _ Hp2) as [_ Hp3].
  destruct (phrase_cons _ _ _ _ _ Hp3) as [_ Hp4].
  apply (reads_bind _ _ _ [] false [rb; d; t]); [apply reads_no_match; rewrite (proj1 Hp2); cbn; by rewrite Hrb|].
  rewrite forward_0. apply after_ret.
  apply (reads_bind _ _ _ [rb] tt [d; t]); [by apply (reads_expect _ _ _ rb _ (proj1 Hp2))|].
  apply (reads_bind _ _ _ [d] true [t]); [by apply (reads_match _ _ d _ (proj1 Hp3))|].
  by apply (member_reads _ t _ base _ (proj1 Hp4)).
Qed.

Lemma wildcard_reads E n w rb d t p r msg copy base :
  tok_type w = JZ_TOK_OP_STAR -> tok_type rb = JZ_TOK_RBRACKET ->
  tok_type d = JZ_TOK_DOT -> is_decl_identifier_token t = true -> is_port_name base = true ->
  at_phrase n p [w; rb; d; t] r ->
  reads (parse_bracket tokens E msg copy base) p [w; rb; d; t] (member_node base None (tok_lexeme t)).
Proof using Type.
  intros Hw Hrb Hd Ht Hb Hp. unfold parse_bracket. destruct (phrase_cons _ _ _ _ _ Hp) as [_ Hp2].
  destruct (phrase_cons _ _ _ _ _ Hp2) as [_ Hp3]. destruct (phrase_cons _ _ _ _ _ Hp3) as [_ Hp4].
  apply (reads_bind _ _ _ [w] true [rb; d; t]); [by apply (reads_match _ _ w _ (proj1 Hp))|].
  do 3 apply after_ret.
  apply (reads_bind _ _ _ [rb] tt [d; t]); [by apply (reads_expect _ _ _ rb _ (proj1 Hp2))|].
  apply (reads_bind _ _ _ [d] true [t]); [by apply (reads_match _ _ d _ (proj1 Hp3))|].
  by apply (member_reads _ t _ base _ (proj1 Hp4)).
Qed.

(** A phrase of the slice level grows by a bracket. *)
Lemma accepts_bracket n ts e ts' lb e' :
  accepts n 13 ts e -> tok_type lb = JZ_TOK_LBRACKET ->
  (forall fuel p r msg, at_phrase n p ts' r -> left p < fuel -> tok_type (front r) <> JZ_TOK_DOT ->
    reads (parse_bracket tokens (parse_expression tokens fuel) msg parser_clone_ast_tree e) p ts' e') ->
  accepts n 13 (ts ++ lb :: ts') e'.
Proof using Type.
  intros He Hlb Hbr fuel m p r Hp Hm Hf Hfol.
  pose proof (phrase_front _ _ _ _ _ Hp) as Hp1. pose proof (phrase_back _ _ _ _ _ Hp) as Hp2.
  pose proof (phrase_left _ _ _ _ Hp1).
  destruct (phrase_cons _ _ _ _ _ Hp2) as [Hok Hp3]. pose proof (left_cons body lb _ _ (proj1 Hp2)).
  pose proof (phrase_left _ _ _ _ Hp3).
  assert (follows 13 lb = true) as Hlf by (apply ok_follows; [done|rewrite Hlb; in_list|by rewrite Hlb]).
  destruct (He fuel m p _ Hp1 Hm Hf Hlf) as (m' & Hm' & Heq). destruct m' as [|m']; [lia|].
  exists m'. rewrite length_app, <- forward_forward. cbn [length]. rewrite <- (forward_forward (length ts') 1).
  split; [lia|]. rewrite Heq. unfold cont. cbn [Nat.eqb postfix_loop].
  rewrite (run_bind _ _ _ _ _ (reads_match _ _ lb _ (proj1 Hp2) Hlb)). cbn [length].
  rewrite (run_bind _ _ _ _ _ (Hbr fuel _ r _ Hp3 ltac:(lia) ltac:(
    intros E; unfold follows, type_follows in Hfol; rewrite E, andb_false_r in Hfol; discriminate))).
  done.
Qed.

(** ** Primary expressions *)

Lemma accepts_literal n t : is_number t = true -> accepts n 14 [t] (literal_node t).
Proof using Type.
  intros Ht. apply reads_accepts; [by auto|]. intros fuel m p r Hp Hm Hf Hfol. cbn [level_parser].
  pose proof (proj1 Hp) as Hr. apply (reads_at _ (_ ← advance_token tokens; mret (literal_node t))).
  { unfold parse_primary_expr. rewrite peek_front, Hr. cbn [ParseGrammar.front app]. by rewrite Ht. }
  apply (reads_bind _ _ _ [t] tt []); [by eapply reads_advance|apply reads_ret].
Qed.

Lemma accepts_special n t :
  is_number t = false -> is_special t = true ->
  accepts n 14 [t]
    (jz_ast_set_block_kind (Some (special_name t)) (jz_ast_new JZ_AST_EXPR_SPECIAL_DRIVER (tok_loc t))).
Proof using Type.
  intros Hn Ht. apply reads_accepts; [by auto|]. intros fuel m p r Hp Hm Hf Hfol. cbn [level_parser].
  pose proof (proj1 Hp) as Hr. unfold is_special in Ht.
  eapply reads_at.
  { unfold parse_primary_expr. rewrite peek_front, Hr. cbn [ParseGrammar.front app]. rewrite Hn, Ht. reflexivity. }
  apply (reads_bind _ _ _ [t] tt []); [by eapply reads_advance|apply reads_ret].
Qed.

(** A name or keyword that starts no call. *)
Lemma primary_name E m p t r :
  rest p = t :: r -> is_name_head t = true -> tok_type (front r) <> JZ_TOK_LPAREN ->
  parse_primary_expr tokens E m p = parse_name tokens "expected identifier" m p.
Proof using Type.
  intros Hr Ht Hlp. unfold is_name_head, is_special in Ht. rewrite !andb_true_iff, !negb_true_iff in Ht.
  destruct Ht as [[H1 H2] H3]. unfold parse_primary_expr. rewrite peek_front, Hr. cbn [ParseGrammar.front].
  rewrite H1, H2. unfold is_segment, accepts_segment in H3. destruct (tok_lexeme t); [|done].
  cbn [andb] in H3. rewrite H3, (next_front body eof p t r Hr).
  assert (tok_is JZ_TOK_LPAREN (front r) = false) as -> by (by apply bool_decide_eq_false_2).
  by rewrite andb_false_r.
Qed.

Lemma follows_base l t :
  follows l t = true -> is_segment t = false /\ tok_type t <> JZ_TOK_DOT /\ tok_type t <> JZ_TOK_LPAREN.
Proof using Type.
  unfold follows, type_follows. rewrite !andb_true_iff, !negb_true_iff. intros (H1 & ((H2 & _) & _) & _).
  cbn in H2. rewrite orb_false_r, orb_false_iff, !bool_decide_eq_false in H2. by destruct H2.
Qed.

Lemma accepts_name n t ts s :
  is_name_head t = true -> name_spelled (t :: ts) s -> accepts n 14 (t :: ts) (identifier_node s (tok_loc t)).
Proof using Heof Hlex.
  intros Ht Hs. apply reads_accepts; [by auto|]. intros fuel m p r Hp Hm Hf Hfol. cbn [level_parser].
  destruct (follows_base _ _ Hfol) as (Hseg & Hdot & Hlp).
  eapply reads_at.
  - apply (primary_name _ m p t (ts ++ r)); [by rewrite (proj1 Hp)|done|].
    inversion Hs; subst; [done|..]; cbn; intros E; congruence.
  - by apply (name_reads t ts s m p r); [|apply Hp|..].
Qed.

Lemma primary_call E m p t lp r :
  rest p = t :: lp :: r -> is_builtin t = true -> tok_type lp = JZ_TOK_LPAREN ->
  parse_primary_expr tokens E m p = builtin_call tokens E m t p.
Proof using Type.
  intros Hr Ht Hlp. unfold parse_primary_expr. rewrite peek_front, Hr. cbn [ParseGrammar.front].
  pose proof (builtin_type t Ht) as Hty. unfold is_number, tok_is. rewrite Hty. cbn [orb].
  repeat (rewrite bool_decide_eq_false_2 by discriminate; cbn [orb]).
  assert (is_decl_identifier_token t = true) as ->.
  { unfold is_builtin in Ht. apply andb_true_iff in Ht as [H1 H2]. unfold is_decl_identifier_token.
    rewrite H1. by destruct (tok_lexeme t). }
  rewrite Ht, (next_front body eof p t _ Hr). cbn [ParseGrammar.front]. by rewrite Hlp.
Qed.

Lemma accepts_call0 n t lp rp :
  is_builtin t = true -> tok_type lp = JZ_TOK_LPAREN -> tok_type rp = JZ_TOK_RPAREN ->
  accepts n 14 [t; lp; rp] (jz_ast_set_name (tok_lexeme t) (new_node JZ_AST_EXPR_BUILTIN_CALL (tok_loc t) [])).
Proof using Type.
  intros Ht Hlp Hrp. apply reads_accepts; [by auto|]. intros fuel m p r Hp Hm Hf Hfol. cbn [level_parser].
  destruct (phrase_cons _ _ _ _ _ Hp) as [_ Hp1]. destruct (phrase_cons _ _ _ _ _ Hp1) as [_ Hp2].
  eapply reads_at; [apply (primary_call _ m p t lp _ (proj1 Hp) Ht Hlp)|].
  apply (reads_bind _ _ _ [t] tt [lp; rp]); [apply (reads_advance _ _ _ (proj1 Hp))|].
  apply (reads_bind _ _ _ [lp] tt [rp]); [apply (reads_advance _ _ _ (proj1 Hp1))|].
  apply after_peek. cbn [length]. rewrite (proj1 Hp2). cbn [ParseGrammar.front app].
  rewrite (test_of_type _ _ Hrp). apply after_ret.
  apply (reads_bind _ _ _ [rp] tt []); [by apply (reads_expect _ _ _ rp _ (proj1 Hp2))|apply reads_ret].
Qed.

Lemma accepts_call n t lp ts es rp :
  is_builtin t = true -> tok_type lp = JZ_TOK_LPAREN -> spells_list n ts es -> accepts_list n ts es ->
  tok_type rp = JZ_TOK_RPAREN ->
  accepts (S n) 14 (t :: lp :: ts ++ [rp])
    (jz_ast_set_name (tok_lexeme t) (new_node JZ_AST_EXPR_BUILTIN_CALL (tok_loc t) es)).
Proof using Type.
  intros Ht Hlp Hsp Hes Hrp. apply reads_accepts; [by auto|]. intros fuel m p r Hp Hm Hf Hfol. cbn [level_parser].
  destruct (phrase_cons _ _ _ _ _ Hp) as [_ Hp1]. pose proof (left_cons body t _ _ (proj1 Hp)).
  destruct (phrase_cons _ _ _ _ _ Hp1) as [_ Hp2]. pose proof (left_cons body lp _ _ (proj1 Hp1)).
  pose proof (phrase_front _ _ _ _ _ Hp2) as Hp3. pose proof (phrase_back _ _ _ _ _ Hp2) as Hp4.
  destruct (phrase_cons _ _ _ _ _ Hp4) as [Hrok _].
  eapply reads_at; [apply (primary_call _ m p t lp _ (proj1 Hp) Ht Hlp)|].
  apply (reads_bind _ _ _ [t] tt (lp :: ts ++ [rp])); [apply (reads_advance _ _ _ (proj1 Hp))|].
  apply (reads_bind _ _ _ [lp] tt (ts ++ [rp])); [apply (reads_advance _ _ _ (proj1 Hp1))|].
  apply after_peek. cbn [length] in *.
  pose proof (list_front n ts es Hsp ltac:(apply Hp3)) as Hfront.
  assert (tok_is JZ_TOK_RPAREN (front (rest (forward 1 (forward 1 p)))) = false) as ->.
  { rewrite (proj1 Hp3). destruct ts as [|u ts]; [done|]. apply bool_decide_eq_false_2. apply Hfront. }
  apply (reads_bind _ _ _ ts es [rp]).
  { apply (list_closed n ts es fuel m _ rp r); [done|exact Hp3|lia|lia|done|by right]. }
  apply (reads_bind _ _ _ [rp] tt []); [by apply (reads_expect _ _ _ rp _ (proj1 Hp4))|apply reads_ret].
Qed.

Lemma accepts_paren n lp ts e rp :
  tok_type lp = JZ_TOK_LPAREN -> accepts_nested n ts e -> tok_type rp = JZ_TOK_RPAREN ->
  accepts (S n) 14 (lp :: ts ++ [rp]) e.
Proof using Type.
  intros Hlp He Hrp. apply reads_accepts; [by auto|]. intros fuel m p r Hp Hm Hf Hfol. cbn [level_parser].
  destruct (phrase_cons _ _ _ _ _ Hp) as [Hlok Hp1]. pose proof (left_cons body lp _ _ (proj1 Hp)).
  pose proof (phrase_front _ _ _ _ _ Hp1) as Hp2. pose proof (phrase_back _ _ _ _ _ Hp1) as Hp3.
  destruct (phrase_cons _ _ _ _ _ Hp3) as [Hrok _].
  assert (is_segment lp = false) as Hseg by (apply ok_not_segment; [done|rewrite Hlp; in_list]).
  eapply reads_at.
  { unfold parse_primary_expr. rewrite peek_front, (proj1 Hp). cbn [ParseGrammar.front app].
    assert (is_decl_identifier_token lp = false) as ->.
    { destruct (is_decl_identifier_token lp) eqn:E; [|done]. apply decl_segment in E. congruence. }
    unfold is_number, tok_is. rewrite Hlp. reflexivity. }
  apply (reads_bind _ _ _ [lp] tt (ts ++ [rp])); [apply (reads_advance _ _ _ (proj1 Hp))|].
  apply (reads_bind _ _ _ ts e [rp]).
  { apply (He fuel _ _ Hp2); [cbn [length]; lia|]. apply closes_follows; [done|closer Hrp]. }
  apply (reads_bind _ _ _ [rp] tt []); [by apply (reads_expect _ _ _ rp _ (proj1 Hp3))|apply reads_ret].
Qed.

(** ** Every derivation *)

Lemma spells_accepts :
  (forall n l ts e, spells n l ts e -> accepts n l ts e) /\
  (forall n ts es, spells_list n ts es -> accepts_list n ts es).
Proof using Heof Hlex.
  apply spells_both.
  - intros. by apply accepts_down.
  - intros. by apply accepts_ternary; [|apply nested_accepts|..].
  - intros. by apply accepts_binary.
  - intros. by apply accepts_unary.
  - intros. by apply accepts_empty.
  - intros. by apply accepts_concat.
  - intros. by apply accepts_replicate; [..|apply nested_accepts].
  - intros n ts e ts1 m ts2 k lb s rb _ He Hlb Hs1 _ Hm Hs Hs2 _ Hk Hrb.
    eapply accepts_bracket; [exact He|done|]. intros. by apply (slice_reads n ts1 m ts2 k s rb fuel p r);
      first [done|apply nested_accepts].
  - intros n ts e ts1 m lb rb _ He Hlb Hs1 _ Hm Hrb.
    eapply accepts_bracket; [exact He|done|]. intros. by apply (single_index_reads n ts1 m rb fuel p r);
      [apply nested_accepts|..].
  - intros n ts e ts1 m lb rb d t _ He Hlb Hs1 _ Hm Hrb Hd Ht Hp.
    eapply accepts_bracket; [exact He|done|]. intros. by apply (indexed_member_reads n ts1 m rb d t fuel p r);
      [apply nested_accepts|..].
  - intros n ts e lb w rb d t _ He Hlb Hw Hrb Hd Ht Hp.
    eapply accepts_bracket; [exact He|done|]. intros. by apply (wildcard_reads _ n w rb d t p r).
  - intros. by apply accepts_literal.
  - intros. by apply accepts_special.
  - intros. by apply accepts_name.
  - intros. by apply accepts_call0.
  - intros. by apply accepts_call.
  - intros. by apply accepts_paren; [|apply nested_accepts|].
  - intros. by apply list_one, nested_accepts.
  - intros. by apply list_cons; [apply nested_accepts|..].
Qed.
End Complete.
