(* ===== verification/ParsePrint.v ===== *)
(** * Expressions as written

    [Exp] is the syntax of expressions; [print] writes one with the parentheses
    that the precedences require, as items of the lexer's round trip; [shape] is
    the tree it stands for, without locations.  What is printed is a phrase of
    the grammar with that tree. *)

From S2P Require Import Prelude Util CString Digits Ast Literal Lexer LexPos LexSpec LexRound ParseCore.
From S2P Require Import ParseExpr ParseGrammar ParseLogic ParseSound ParseComplete.

Local Open Scope nat_scope.

(** ** Expressions *)

Inductive Exp :=
  | ELit (number : Item)
  | ESpecial (vcc : bool)
  | EName (first : string) (more : list string)
  | ECall (name : string) (args : list Exp)
  | EUnary (op : JZTokenType) (e : Exp)
  | EBinary (op : JZTokenType) (l r : Exp)
  | ETernary (c a b : Exp)
  | EConcat (es : list Exp)
  | EReplicate (number : Item) (e : Exp)
  | ESlice (e m k : Exp)
  | EIndex (e m : Exp)
  | EMember (port : string) (m : Exp) (member : string)
  | EWildcard (port member : string).

Section ExpInd.
Context (Q : Exp -> Prop) (Hlit : forall i, Q (ELit i)) (Hspecial : forall v, Q (ESpecial v))
  (Hname : forall s ss, Q (EName s ss)) (Hcall : forall s es, Forall Q es -> Q (ECall s es))
  (Hunary : forall o e, Q e -> Q (EUnary o e))
  (Hbinary : forall o l r, Q l -> Q r -> Q (EBinary o l r))
  (Hternary : forall c a b, Q c -> Q a -> Q b -> Q (ETernary c a b))
  (Hconcat : forall es, Forall Q es -> Q (EConcat es))
  (Hreplicate : forall i e, Q e -> Q (EReplicate i e))
  (Hslice : forall e m k, Q e -> Q m -> Q k -> Q (ESlice e m k))
  (Hindex : forall e m, Q e -> Q m -> Q (EIndex e m))
  (Hmember : forall p m s, Q m -> Q (EMember p m s)) (Hwildcard : forall p s, Q (EWildcard p s)).

Fixpoint Exp_ind' (e : Exp) : Q e :=
  let all := fix all (es : list Exp) : Forall Q es :=
    match es with
    | [] => List.Forall_nil Q
    | e :: es' => @List.Forall_cons _ Q e es' (Exp_ind' e) (all es')
    end in
  match e with
  | ELit i => Hlit i
  | ESpecial v => Hspecial v
  | EName s ss => Hname s ss
  | ECall s es => Hcall s es (all es)
  | EUnary o e => Hunary o e (Exp_ind' e)
  | EBinary o l r => Hbinary o l r (Exp_ind' l) (Exp_ind' r)
  | ETernary c a b => Hternary c a b (Exp_ind' c) (Exp_ind' a) (Exp_ind' b)
  | EConcat es => Hconcat es (all es)
  | EReplicate i e => Hreplicate i e (Exp_ind' e)
  | ESlice e m k => Hslice e m k (Exp_ind' e) (Exp_ind' m) (Exp_ind' k)
  | EIndex e m => Hindex e m (Exp_ind' e) (Exp_ind' m)
  | EMember p m s => Hmember p m s (Exp_ind' m)
  | EWildcard p s => Hwildcard p s
  end.
End ExpInd.

Definition op_level (t : JZTokenType) : nat :=
  match t with
  | JZ_TOK_OP_OR_OR => 1 | JZ_TOK_OP_AND_AND => 2 | JZ_TOK_OP_PIPE => 3 | JZ_TOK_OP_CARET => 4
  | JZ_TOK_OP_AMP => 5 | JZ_TOK_OP_EQ | JZ_TOK_OP_NEQ => 6
  | JZ_TOK_OP_LT | JZ_TOK_OP_LE | JZ_TOK_OP_GT | JZ_TOK_OP_GE => 7
  | JZ_TOK_OP_SHL | JZ_TOK_OP_SHR | JZ_TOK_OP_ASHR => 8
  | JZ_TOK_OP_PLUS | JZ_TOK_OP_MINUS => 9
  | JZ_TOK_OP_STAR | JZ_TOK_OP_SLASH | JZ_TOK_OP_PERCENT => 10
  | _ => 0
  end.

Definition binary_name (t : JZTokenType) : string := default EmptyString (level_op (op_level t) t).
Definition unary_name (t : JZTokenType) : string := default EmptyString (unary_op t).

Definition exp_level (e : Exp) : nat :=
  match e with
  | ETernary _ _ _ => 0
  | EBinary op _ _ => op_level op
  | EUnary _ _ => 11
  | EConcat _ | EReplicate _ _ => 12
  | ESlice _ _ _ | EIndex _ _ | EMember _ _ _ | EWildcard _ _ => 13
  | ELit _ | ESpecial _ | EName _ _ | ECall _ _ => 14
  end.

(** Identifiers that are no keyword. *)
Definition is_plain (s : string) : bool :=
  is_word s && match match_keyword s with None => true | Some _ => false end.
Definition is_member (s : string) : bool :=
  is_word s && (is_plain s || List.existsb (String.eqb s) decl_keywords).

Definition number_ok (i : Item) : Prop :=
  item_ok i /\ match i with Number _ | Sized _ _ _ => True | _ => False end.

Fixpoint exp_ok (e : Exp) : Prop :=
  match e with
  | ELit i => number_ok i
  | ESpecial _ => True
  | EName s ss => (is_plain s = true \/ s = "CONFIG"%string) /\ Forall (fun s => is_plain s = true) ss
  | ECall s es => In s builtin_names /\ fold_right (fun e P => exp_ok e /\ P) True es
  | EUnary op e => unary_op op <> None /\ exp_ok e
  | EBinary op l r => op_level op <> 0 /\ exp_ok l /\ exp_ok r
  | ETernary c a b => exp_ok c /\ exp_ok a /\ exp_ok b
  | EConcat es => fold_right (fun e P => exp_ok e /\ P) True es
  | EReplicate i e => number_ok i /\ exp_ok e
  | ESlice e m k => exp_ok e /\ exp_ok m /\ exp_ok k
  | EIndex e m => exp_ok e /\ exp_ok m
  | EMember p m s => is_plain p = true /\ exp_ok m /\ is_member s = true
  | EWildcard p s => is_plain p = true /\ is_member s = true
  end.

(** ** Printing *)

(** An operator or punctuation with its text. *)
Definition op (t : JZTokenType) : Item :=
  Operator t (match List.find (fun q => bool_decide (fst q = t)) operators with
              | Some q => snd q | None => EmptyString end).

Definition commas (items : list (list Item)) : list Item :=
  match items with
  | [] => []
  | ts :: rest => ts ++ concat (map (fun ts => op JZ_TOK_COMMA :: ts) rest)
  end.

Definition print_name (s : string) (ss : list string) : list Item :=
  Word s :: concat (map (fun s => [op JZ_TOK_DOT; Word s]) ss).

Definition parenthesised (ts : list Item) : list Item := op JZ_TOK_LPAREN :: ts ++ [op JZ_TOK_RPAREN].

(** Where an expression of level [l] is expected. *)
Fixpoint print (l : nat) (e : Exp) : list Item :=
  let body :=
    match e with
    | ELit i => [i]
    | ESpecial vcc => [Word (if vcc then "VCC" else "GND")%string]
    | EName s ss => print_name s ss
    | ECall s es => Word s :: op JZ_TOK_LPAREN :: commas (map (print 0) es) ++ [op JZ_TOK_RPAREN]
    | EUnary o e => op o :: print 11 e
    | EBinary o a b => print (op_level o) a ++ op o :: print (S (op_level o)) b
    | ETernary c a b =>
        print 1 c ++ op JZ_TOK_OP_QUESTION :: print 0 a ++ op JZ_TOK_OP_COLON :: print 0 b
    | EConcat es => op JZ_TOK_LBRACE :: commas (map (print 0) es) ++ [op JZ_TOK_RBRACE]
    | EReplicate i e =>
        op JZ_TOK_LBRACE :: i :: op JZ_TOK_LBRACE :: print 0 e ++ [op JZ_TOK_RBRACE; op JZ_TOK_RBRACE]
    | ESlice e m k =>
        print 13 e ++ op JZ_TOK_LBRACKET :: print 0 m ++ op JZ_TOK_OP_COLON :: print 0 k ++ [op JZ_TOK_RBRACKET]
    | EIndex e m => print 13 e ++ op JZ_TOK_LBRACKET :: print 0 m ++ [op JZ_TOK_RBRACKET]
    | EMember p m s =>
        [Word p] ++ op JZ_TOK_LBRACKET :: print 0 m ++ [op JZ_TOK_RBRACKET; op JZ_TOK_DOT; Word s]
    | EWildcard p s =>
        [Word p] ++ [op JZ_TOK_LBRACKET; op JZ_TOK_OP_STAR; op JZ_TOK_RBRACKET; op JZ_TOK_DOT; Word s]
    end in
  if l <=? exp_level e then body else parenthesised body.

(** How deep calls of [parse_expression] nest in it. *)
Fixpoint nesting (l : nat) (e : Exp) : nat :=
  let list es := match es with [] => 0 | _ => S (fold_right Nat.max 0 (map (nesting 0) es)) end in
  let body :=
    match e with
    | ELit _ | ESpecial _ | EName _ _ | EWildcard _ _ => 0
    | ECall _ es | EConcat es => list es
    | EUnary _ e => nesting 11 e
    | EBinary o a b => Nat.max (nesting (op_level o) a) (nesting (S (op_level o)) b)
    | ETernary c a b => Nat.max (nesting 1 c) (Nat.max (S (nesting 0 a)) (nesting 0 b))
    | EReplicate _ e => S (nesting 0 e)
    | ESlice e m k => Nat.max (nesting 13 e) (Nat.max (S (nesting 0 m)) (S (nesting 0 k)))
    | EIndex e m => Nat.max (nesting 13 e) (S (nesting 0 m))
    | EMember _ m _ => S (nesting 0 m)
    end in
  if l <=? exp_level e then body else S body.

(** ** Trees *)

Definition no_loc : JZLocation := mkLoc 0 0.

Fixpoint erase_loc (n : JZASTNode) : JZASTNode :=
  match n with
  | mkNode ty _ name bk text width cs => mkNode ty no_loc name bk text width (map erase_loc cs)
  end.

Definition literal_shape (i : Item) : JZASTNode :=
  mkNode JZ_AST_EXPR_LITERAL no_loc None None (Some (item_text i)) None [].

(** The name with its dots. *)
Definition dotted (s : string) (ss : list string) : string :=
  (s ++ fold_right (fun s r => String "." (s ++ r)) EmptyString ss)%string.

Fixpoint shape (e : Exp) : JZASTNode :=
  let node ty name bk text cs := mkNode ty no_loc name bk text None cs in
  match e with
  | ELit i => literal_shape i
  | ESpecial vcc => node JZ_AST_EXPR_SPECIAL_DRIVER None (Some (if vcc then "VCC" else "GND")) None []
  | EName s ss =>
      node (match ss with [] => JZ_AST_EXPR_IDENTIFIER | _ => JZ_AST_EXPR_QUALIFIED_IDENTIFIER end)
        (Some (dotted s ss)) None None []
  | ECall s es => node JZ_AST_EXPR_BUILTIN_CALL (Some s) None None (map shape es)
  | EUnary o e => node JZ_AST_EXPR_UNARY None (Some (unary_name o)) None [shape e]
  | EBinary o a b => node JZ_AST_EXPR_BINARY None (Some (binary_name o)) None [shape a; shape b]
  | ETernary c a b => node JZ_AST_EXPR_TERNARY None None None [shape c; shape a; shape b]
  | EConcat es => node JZ_AST_EXPR_CONCAT None None None (map shape es)
  | EReplicate i e => node JZ_AST_EXPR_CONCAT None None None [literal_shape i; shape e]
  | ESlice e m k => node JZ_AST_EXPR_SLICE None None None [shape e; shape m; shape k]
  | EIndex e m => node JZ_AST_EXPR_SLICE None None None [shape e; shape m; shape m]
  | EMember p m s => node JZ_AST_EXPR_INDEXED_MEMBER_ACCESS (Some p) None (Some s) [shape m]
  | EWildcard p s => node JZ_AST_EXPR_INDEXED_MEMBER_ACCESS (Some p) (Some "WILDCARD") (Some s) []
  end%string.

(** ** Text without white space *)

Definition not_space (c : ascii) : bool := negb (isspace c).

Lemma trim_right_plain s : all_chars not_space s = true -> trim_right s = s.
Proof.
  induction s as [|c s IH]; [done|]. cbn [all_chars trim_right]. rewrite andb_true_iff. intros [Hc Hs].
  rewrite (IH Hs). destruct s; [|done]. unfold not_space in Hc. by destruct (isspace c).
Qed.

Lemma trim_plain s : all_chars not_space s = true -> jz_strdup_trim s = s.
Proof.
  intros H. unfold jz_strdup_trim. replace (drop_while isspace s) with s; [by apply trim_right_plain|].
  destruct s as [|c s]; [done|]. cbn [all_chars drop_while] in *. apply andb_true_iff in H as [H _].
  unfold not_space in H. by destruct (isspace c).
Qed.

Lemma ident_not_space c : is_identifier_char c = true -> not_space c = true.
Proof.
  unfold is_identifier_char, not_space. rewrite orb_true_iff. intros [H|H].
  - unfold isalnum, isalpha, isdigit, isspace, in_codes in *. lia.
  - by apply Ascii.eqb_eq in H as ->.
Qed.

Lemma literal_not_space c : is_literal_char c = true -> not_space c = true.
Proof.
  unfold is_literal_char. rewrite !orb_true_iff. intros [[H|H]|H].
  - apply ident_not_space. unfold is_identifier_char. by rewrite H.
  - by apply Ascii.eqb_eq in H as ->.
  - by apply Ascii.eqb_eq in H as ->.
Qed.

Lemma word_start_not_space c : is_identifier_start c || Ascii.eqb c "@" = true -> not_space c = true.
Proof.
  rewrite orb_true_iff. intros [H|H]; [|by apply Ascii.eqb_eq in H as ->].
  apply ident_not_space. unfold is_identifier_start, is_identifier_char, isalnum in *.
  destruct (isalpha c), (Ascii.eqb c "_"), (isdigit c); done.
Qed.

Lemma word_not_space s : is_word s = true -> all_chars not_space s = true.
Proof.
  destruct s as [|c s]; [done|]. cbn [is_word all_chars]. rewrite !andb_true_iff. intros [Hc Hs].
  split; [by apply word_start_not_space|]. by apply (all_chars_impl _ _ _ ident_not_space).
Qed.

Lemma numeral_not_space s : is_numeral s = true -> all_chars not_space s = true.
Proof.
  destruct s as [|c s]; [done|]. cbn [is_numeral all_chars]. rewrite !andb_true_iff. intros [Hc Hs].
  split; [|by apply (all_chars_impl _ _ _ ident_not_space)].
  unfold not_space, isdigit, isspace, in_codes in *. lia.
Qed.

Lemma number_not_space i : number_ok i -> all_chars not_space (item_text i) = true.
Proof.
  intros [Hi Hn]. destruct i as [|text|w b v| |]; try done; cbn in *; [by apply numeral_not_space|].
  destruct Hi as (Hw & Hb & Hv). unfold sized_text. rewrite all_chars_app. cbn [all_chars].
  rewrite (literal_not_space b) by by apply base_literal.
  assert (all_chars not_space w = true) as ->.
  { apply orb_true_iff in Hw as [Hw|Hw]; [by apply word_not_space|by apply numeral_not_space]. }
  unfold value_ok in Hv. apply andb_true_iff in Hv as [_ Hv].
  destruct (value_error (base_of b) v) eqn:E; [done|].
  by rewrite (all_chars_impl _ _ _ literal_not_space (value_literal _ _ E)).
Qed.

(** ** Tokens of items *)

Definition tok_as (t : JZToken) (i : Item) : Prop :=
  tok_type t = fst (fst (item_token i)) /\ tok_lexeme t = snd (fst (item_token i)).

Lemma op_type t ty : tok_as t (op ty) -> tok_type t = ty.
Proof. by intros [H _]. Qed.

(** The types of the words are not those of the punctuation. *)
Lemma keyword_types s ty : match_keyword s = Some ty -> ~ In ty punctuation_types.
Proof.
  unfold match_keyword. destruct (List.find _ keywords) as [[k ty']|] eqn:E; [|done].
  apply List.find_some in E as [Hin _]. intros [= <-].
  assert (Forall (fun k => forallb (fun u => negb (bool_decide (snd k = u))) punctuation_types = true) keywords) as Hall
    by (repeat (constructor; [vm_compute; reflexivity|]); constructor).
  rewrite List.Forall_forall in Hall. specialize (Hall _ Hin). rewrite forallb_forall in Hall.
  intros Hp. specialize (Hall _ Hp). cbn in Hall. by rewrite bool_decide_eq_true_2 in Hall.
Qed.

Lemma types_ok t : ~ In (tok_type t) punctuation_types -> tok_ok t = true.
Proof.
  intros H. unfold tok_ok. destruct (List.existsb _ _) eqn:E; [|by rewrite andb_false_r].
  apply List.existsb_exists in E as (ty & Hin & Ht). apply type_of_test in Ht. by subst.
Qed.

Lemma tok_as_ok t i : item_ok i -> tok_as t i -> tok_ok t = true.
Proof.
  intros Hi [Hty Hlex]. destruct i as [s|s|w b v|body|ty lex]; cbn in *.
  - apply types_ok. rewrite Hty. destruct (match_keyword s) eqn:E; [by apply (keyword_types s)|].
    cbn. intuition discriminate.
  - apply types_ok. rewrite Hty. cbn. intuition discriminate.
  - apply types_ok. rewrite Hty. cbn. intuition discriminate.
  - apply types_ok. rewrite Hty. cbn. intuition discriminate.
  - unfold tok_ok, is_segment, accepts_segment, is_decl_identifier_token, tok_is. rewrite Hty, Hlex.
    by repeat (destruct Hi as [[= <- <-]|Hi]; [vm_compute; reflexivity|]).
Qed.

Lemma item_tokens_ok ts items : Forall item_ok items -> Forall2 tok_as ts items -> all_ok ts.
Proof.
  intros Hi H. induction H as [|t i ts items Ht _ IH]; [constructor|]. apply Forall_cons in Hi as [Hi His].
  constructor; [by apply (tok_as_ok t i)|by apply IH].
Qed.

(** ** What is printed can be lexed *)

Ltac operator_in := cbv [op List.find operators fst snd]; unfold item_ok, operators; cbn; tauto.

Lemma op_item_ok ty :
  List.existsb (fun q => bool_decide (fst q = ty)) operators = true -> item_ok (op ty).
Proof.
  intros H. unfold op. destruct (List.find _ operators) as [[ty' s]|] eqn:E.
  - apply List.find_some in E as [Hin Ht]. cbn in *. apply bool_decide_eq_true in Ht. by subst.
  - apply List.existsb_exists in H as (q & Hin & Hq). apply (List.find_none _ _ E) in Hin. congruence.
Qed.

Lemma binary_op_ok o : op_level o <> 0 -> item_ok (op o).
Proof. intros H. apply op_item_ok. by destruct o. Qed.
Lemma unary_op_ok o : unary_op o <> None -> item_ok (op o).
Proof. intros H. apply op_item_ok. by destruct o. Qed.

Lemma commas_cons ts us rest : commas (ts :: us :: rest) = ts ++ op JZ_TOK_COMMA :: commas (us :: rest).
Proof. done. Qed.

Lemma commas_ok lists : Forall (Forall item_ok) lists -> Forall item_ok (commas lists).
Proof.
  intros H. destruct H as [|ts lists Hts H]; [constructor|]. apply Forall_app. split; [done|].
  induction H as [|us lists Hus _ IH]; [constructor|]. cbn. constructor; [by apply op_item_ok|].
  by apply Forall_app.
Qed.

Lemma plain_word s : is_plain s = true -> is_word s = true /\ match_keyword s = None.
Proof. unfold is_plain. rewrite andb_true_iff. intros [H1 H2]. by destruct (match_keyword s). Qed.

Lemma member_word s : is_member s = true -> is_word s = true.
Proof. unfold is_member. by rewrite andb_true_iff; intros [H _]. Qed.

Lemma name_ok s ss :
  is_plain s = true \/ s = "CONFIG"%string -> Forall (fun s => is_plain s = true) ss ->
  Forall item_ok (print_name s ss).
Proof.
  intros Hs Hss. constructor; [by destruct Hs as [Hs| ->]; [apply plain_word|]|].
  induction Hss as [|r ss Hr _ IH]; [constructor|]. cbn. constructor; [by apply op_item_ok|].
  constructor; [by apply plain_word|done].
Qed.

Lemma builtin_plain s : In s builtin_names -> is_plain s = true.
Proof.
  assert (forallb is_plain builtin_names = true) as H by reflexivity. rewrite forallb_forall in H. auto.
Qed.

Lemma fold_and {A} (f : A -> Prop) es : fold_right (fun e P => f e /\ P) True es <-> Forall f es.
Proof. induction es as [|e es IH]; [by split|]. cbn. by rewrite IH, Forall_cons. Qed.

Lemma print_ok e : forall l, exp_ok e -> Forall item_ok (print l e).
Proof.
  assert (forall l e items, Forall item_ok items ->
    Forall item_ok (if l <=? exp_level e then items else parenthesised items)) as Hwrap.
  { intros l e' items H. destruct (l <=? exp_level e'); [done|]. unfold parenthesised.
    constructor; [by apply op_item_ok|]. apply Forall_app. split; [done|].
    by constructor; [apply op_item_ok|]. }
  assert (forall es, Forall (fun e => forall l, exp_ok e -> Forall item_ok (print l e)) es -> Forall exp_ok es ->
    Forall item_ok (commas (map (print 0) es))) as Hlist.
  { intros es H Hok. apply commas_ok. induction H as [|e' es He _ IH]; [constructor|].
    apply Forall_cons in Hok as [H1 H2]. constructor; [by apply He|by apply IH]. }
  induction e as [i|v|s ss|s es IH|o e IH|o a b IHa IHb|c a b IHc IHa IHb|es IH|i e IH|e m k IHe IHm IHk
    |e m IHe IHm|p m s IHm|p s] using Exp_ind'; intros l Hok; cbn [print]; apply Hwrap; cbn in Hok.
  - by constructor; [apply Hok|].
  - by destruct v; repeat constructor.
  - by apply name_ok; apply Hok.
  - destruct Hok as [Hs Hes]. constructor; [apply plain_word, builtin_plain, Hs|].
    constructor; [by apply op_item_ok|]. apply Forall_app. split; [apply Hlist; [done|by apply fold_and]|].
    by constructor; [apply op_item_ok|].
  - constructor; [apply unary_op_ok, Hok|apply IH, Hok].
  - apply Forall_app. split; [apply IHa, Hok|]. constructor; [apply binary_op_ok, Hok|apply IHb, Hok].
  - destruct Hok as (? & ? & ?). apply Forall_app. split; [by apply IHc|]. constructor; [by apply op_item_ok|].
    apply Forall_app. split; [by apply IHa|]. constructor; [by apply op_item_ok|by apply IHb].
  - constructor; [by apply op_item_ok|]. apply Forall_app. split; [apply Hlist; [done|by apply fold_and]|].
    by constructor; [apply op_item_ok|].
  - destruct Hok as [[? ?] ?]. repeat (constructor; [first [by apply op_item_ok|done]|]).
    apply Forall_app. split; [by apply IH|]. by repeat (constructor; [by apply op_item_ok|]).
  - destruct Hok as (? & ? & ?). apply Forall_app. split; [by apply IHe|]. constructor; [by apply op_item_ok|].
    apply Forall_app. split; [by apply IHm|]. constructor; [by apply op_item_ok|].
    apply Forall_app. split; [by apply IHk|]. by constructor; [apply op_item_ok|].
  - destruct Hok as (? & ?). apply Forall_app. split; [by apply IHe|]. constructor; [by apply op_item_ok|].
    apply Forall_app. split; [by apply IHm|]. by constructor; [apply op_item_ok|].
  - destruct Hok as (Hp & ? & Hs). constructor; [by apply plain_word|]. constructor; [by apply op_item_ok|].
    apply Forall_app. split; [by apply IHm|]. do 2 (constructor; [by apply op_item_ok|]).
    by constructor; [apply member_word|].
  - destruct Hok as (Hp & Hs). constructor; [by apply plain_word|].
    do 4 (constructor; [by apply op_item_ok|]). by constructor; [apply member_word|].
Qed.

(** ** More nesting does no harm *)

(** Use the hypotheses of the induction at the larger nesting. *)
Ltac more k :=
  repeat match goal with H : forall j, _ <= j -> _ |- _ => specialize (H k ltac:(lia)) end.

Lemma spells_more :
  (forall n l ts e, spells n l ts e -> forall k, n <= k -> spells k l ts e) /\
  (forall n ts es, spells_list n ts es -> forall k, n <= k -> spells_list k ts es).
Proof.
  apply spells_both.
  - intros; more k; by apply sp_down.
  - intros n ts1 ts2 ts3 c a b q s _ H1 _ H2 _ H3 Hq Hs [|k] Hk; [lia|].
    by apply sp_ternary; [apply H1|apply H2; lia|apply H3|..].
  - intros; more k; by apply sp_binary.
  - intros; more k; by apply sp_unary.
  - intros; more k; by apply sp_empty.
  - intros; (destruct k as [|k]; [lia|]); more k; by apply sp_concat.
  - intros; (destruct k as [|k]; [lia|]); more k; by apply sp_replicate.
  - intros n ts e ts1 m ts2 k' lb s rb _ H1 Hl Hs1 _ H2 Hs Hs2 _ H3 Hrb [|k] Hk; [lia|]. apply sp_slice; try done; [by apply H1|apply H2; lia|apply H3; lia].
  - intros n ts e ts1 m lb rb _ H1 Hl Hs1 _ H2 Hrb [|k] Hk; [lia|]. apply sp_index; try done; [by apply H1|apply H2; lia].
  - intros n ts e ts1 m lb rb d t _ H1 Hl Hs1 _ H2 Hrb Hd Ht Hp [|k] Hk; [lia|]. apply sp_member; try done; [by apply H1|apply H2; lia].
  - intros; more k; by apply sp_wildcard.
  - intros; more k; by apply sp_literal.
  - intros; more k; by apply sp_special.
  - intros; more k; by apply sp_name.
  - intros; more k; by apply sp_call0.
  - intros; (destruct k as [|k]; [lia|]); more k; by apply sp_call.
  - intros; (destruct k as [|k]; [lia|]); more k; by apply sp_paren.
  - intros; more k; by apply sp_one.
  - intros; more k; by apply sp_cons.
Qed.

(** ** Names *)

Definition not_dot (c : ascii) : bool := negb (Ascii.eqb c ".").

Lemma has_dot_app s t : has_dot (s ++ t) = has_dot s || has_dot t.
Proof.
  induction s as [|c s IH]; [done|]. rewrite append_cons. cbn [has_dot]. by rewrite IH, orb_assoc.
Qed.

Lemma word_no_dot s : is_word s = true -> has_dot s = false.
Proof.
  assert (forall s, all_chars is_identifier_char s = true -> has_dot s = false) as Hid.
  { intros t. induction t as [|c t IH]; [done|]. cbn. rewrite andb_true_iff. intros [Hc Ht].
    rewrite (IH Ht), orb_false_r. by destruct (Ascii.eqb_spec c "."); [subst|]. }
  destruct s as [|c s]; [done|]. cbn [is_word has_dot]. rewrite andb_true_iff. intros [Hc Hs].
  rewrite (Hid s Hs), orb_false_r. by destruct (Ascii.eqb_spec c "."); [subst|].
Qed.

Definition segment_word (s : string) : Prop := is_plain s = true \/ s = "CONFIG"%string.

Lemma segment_word_word s : segment_word s -> is_word s = true.
Proof. intros [H| ->]; [by apply plain_word|done]. Qed.

Lemma segment_token s t : segment_word s -> tok_as t (Word s) ->
  is_name_head t = true /\ tok_lexeme t = Some s.
Proof.
  intros Hs [Hty Hlex]. split; [|done]. unfold is_name_head, is_number, is_special, tok_is.
  unfold is_segment, accepts_segment, is_decl_identifier_token, tok_is. rewrite Hty, Hlex. cbn [item_token fst snd].
  destruct Hs as [Hs| ->]; [|done]. destruct (plain_word s Hs) as [_ ->].
  repeat (rewrite bool_decide_eq_false_2 by discriminate). by rewrite bool_decide_eq_true_2.
Qed.

Lemma head_segment t : is_name_head t = true -> is_segment t = true.
Proof. unfold is_name_head. by rewrite andb_true_iff; intros [_ H]. Qed.

Ltac split_items :=
  repeat match goal with
  | H : Forall2 tok_as _ (_ ++ _) |- _ => apply Forall2_app_inv_r in H as (? & ? & ? & ? & ->)
  | H : Forall2 tok_as _ (_ :: _) |- _ => apply Forall2_cons_inv_r in H as (? & ? & ? & ? & ->)
  | H : Forall2 tok_as _ [] |- _ => apply Forall2_nil_inv_r in H as ->
  end.

Lemma print_name_spelled ss : forall s ts, segment_word s -> Forall (fun s => is_plain s = true) ss ->
  Forall2 tok_as ts (print_name s ss) -> name_spelled ts (dotted s ss) /\ starts is_name_head ts.
Proof.
  induction ss as [|r ss IH]; intros s ts Hs Hss H.
  - unfold print_name in H. cbn in H. split_items. destruct (segment_token s _ Hs ltac:(eassumption)) as [Hh Hl].
    split; [|done]. unfold dotted. cbn. rewrite append_nil_r.
    by apply name_last; [apply head_segment|].
  - apply Forall_cons in Hss as [Hr Hss]. unfold print_name in H. cbn in H.
    apply Forall2_cons_inv_r in H as (t & ? & Ht & H & ->).
    apply Forall2_cons_inv_r in H as (d & ts' & Hd & H & ->).
    destruct (segment_token s _ Hs Ht) as [Hh Hl]. split; [|done].
    apply (name_more t d s ts'); [by apply head_segment|done|by apply op_type in Hd|].
    by apply IH; [left|..].
Qed.

Lemma dotted_text s ss : segment_word s -> Forall (fun s => is_plain s = true) ss ->
  all_chars not_space (dotted s ss) = true /\
  has_dot (dotted s ss) = match ss with [] => false | _ => true end.
Proof.
  intros Hs Hss. unfold dotted. rewrite all_chars_app, has_dot_app.
  pose proof (segment_word_word s Hs) as Hw. rewrite (word_not_space s Hw), (word_no_dot s Hw). cbn [andb orb].
  split; [|by destruct ss].
  induction Hss as [|r ss Hr _ IH]; [done|]. cbn [fold_right all_chars]. rewrite all_chars_app, IH.
  by rewrite (word_not_space r) by by apply plain_word.
Qed.

Lemma identifier_shape s ss loc : segment_word s -> Forall (fun s => is_plain s = true) ss ->
  erase_loc (identifier_node (dotted s ss) loc) = shape (EName s ss).
Proof.
  intros Hs Hss. destruct (dotted_text s ss Hs Hss) as [H1 H2]. unfold identifier_node. cbn.
  rewrite H2, (trim_plain _ H1). by destruct ss.
Qed.

Lemma literal_erased i t : number_ok i -> tok_as t i ->
  is_number t = true /\ erase_loc (literal_node t) = literal_shape i.
Proof.
  intros Hi [Hty Hlex]. pose proof (trim_plain _ (number_not_space i Hi)) as Ht.
  change (literal_node t) with
    (mkNode JZ_AST_EXPR_LITERAL (tok_loc t) None None (option_map jz_strdup_trim (tok_lexeme t)) None []).
  destruct Hi as [_ Hi]. split.
  - unfold is_number, tok_is. rewrite Hty. by destruct i.
  - unfold literal_shape. rewrite <- Ht. cbn [erase_loc map]. rewrite Hlex. by destruct i.
Qed.

Lemma erase_new_node ty loc cs :
  erase_loc (new_node ty loc cs) = mkNode ty no_loc None None None None (map erase_loc cs).
Proof. by rewrite new_node_eq. Qed.

(** ** Phrases *)

Definition written_as (l : nat) (e : Exp) : Prop := forall n ts,
  nesting l e <= n -> Forall2 tok_as ts (print l e) ->
  exists e', spells n l ts e' /\ erase_loc e' = shape e.

Lemma print_level e : forall l, l <= exp_level e ->
  print l e = print (exp_level e) e /\ nesting l e = nesting (exp_level e) e.
Proof.
  intros l Hl. destruct e; cbn [print nesting]; rewrite (proj2 (Nat.leb_le _ _) Hl), Nat.leb_refl; done.
Qed.

Lemma print_parens e l : exp_level e < l ->
  print l e = parenthesised (print (exp_level e) e) /\ nesting l e = S (nesting (exp_level e) e).
Proof.
  intros Hl. destruct e; cbn [print nesting]; rewrite (proj2 (Nat.leb_gt _ _) Hl), Nat.leb_refl; done.
Qed.

Lemma level_bound e : exp_level e <= 14.
Proof. destruct e as [| | | | |o| | | | | | |]; cbn; try lia. destruct o; cbn; lia. Qed.

(** At its own level, and so at every level. *)
Lemma written_everywhere e l : l <= 14 -> written_as (exp_level e) e -> written_as l e.
Proof.
  intros Hl He n ts Hn H. pose proof (level_bound e). destruct (decide (l <= exp_level e)) as [Hle|Hgt].
  - destruct (print_level e l Hle) as [E1 E2]. rewrite E1, E2 in *. destruct (He n ts Hn H) as (e' & Hs & Hshape).
    exists e'. split; [|done]. by apply (spells_up n l (exp_level e)).
  - destruct (print_parens e l ltac:(lia)) as [E1 E2]. rewrite E1, E2 in *. unfold parenthesised in H.
    apply Forall2_cons_inv_r in H as (lp & ts1 & Hlp & H & ->).
    apply Forall2_app_inv_r in H as (ts2 & ts3 & H2 & H3 & ->).
    apply Forall2_cons_inv_r in H3 as (rp & ts4 & Hrp & H4 & ->). apply Forall2_nil_inv_r in H4 as ->.
    destruct n as [|n]; [lia|]. destruct (He n ts2 ltac:(lia) H2) as (e' & Hs & Hshape).
    exists e'. split; [|done]. apply (spells_up (S n) l 14); [done|lia|].
    apply sp_paren; [by apply op_type in Hlp|by apply (spells_up n 0 (exp_level e)); [lia|..]|by apply op_type in Hrp].
Qed.

Lemma written_list n es : Forall (fun e => forall l, l <= 14 -> written_as l e) es ->
  es <> [] -> forall ts, fold_right Nat.max 0 (map (nesting 0) es) <= n ->
  Forall2 tok_as ts (commas (map (print 0) es)) ->
  exists es', spells_list n ts es' /\ map erase_loc es' = map shape es.
Proof.
  induction 1 as [|e es He Hes IH]; [done|]. intros _ ts Hn H. cbn [map fold_right] in Hn.
  destruct es as [|e2 es].
  - cbn [map commas concat] in H. rewrite app_nil_r in H.
    destruct (He 0 ltac:(lia) n ts ltac:(lia) H) as (e' & Hs & Hshape).
    exists [e']. split; [by apply sp_one|]. cbn. by rewrite Hshape.
  - cbn [map] in H. rewrite commas_cons in H.
    apply Forall2_app_inv_r in H as (ts1 & ts2 & H1 & H2 & ->).
    apply Forall2_cons_inv_r in H2 as (c & ts3 & Hc & H3 & ->).
    destruct (He 0 ltac:(lia) n ts1 ltac:(lia) H1) as (e' & Hs & Hshape).
    destruct (IH ltac:(done) ts3 ltac:(cbn [map fold_right] in *; lia) H3) as (es' & Hss & Hshapes).
    exists (e' :: es'). split; [by apply sp_cons; [|apply op_type in Hc|]|]. cbn [map]. by rewrite Hshape, Hshapes.
Qed.

Lemma word_segment p t : is_plain p = true -> tok_as t (Word p) ->
  spells 0 13 [t] (identifier_node p (tok_loc t)) /\ is_port_name (identifier_node p (tok_loc t)) = true /\
  erase_loc (identifier_node p (tok_loc t)) = shape (EName p []).
Proof.
  intros Hp Ht. destruct (segment_token p t (or_introl Hp) Ht) as [Hh Hl].
  pose proof (identifier_shape p [] (tok_loc t) (or_introl Hp) (List.Forall_nil _)) as Hs.
  unfold dotted in Hs. cbn [fold_right] in Hs. rewrite append_nil_r in Hs. split_and!; [|..|done].
  - apply sp_down; [lia|]. apply sp_name; [done|]. by apply name_last; [apply head_segment|].
  - unfold is_port_name, identifier_node. cbn [jz_ast_set_name ast_name jz_ast_new option_map].
    rewrite (word_no_dot p) by by apply plain_word. done.
Qed.

Lemma member_token s t : is_member s = true -> tok_as t (Word s) ->
  is_decl_identifier_token t = true /\ tok_lexeme t = Some s /\ jz_strdup_trim s = s.
Proof.
  intros Hs [Hty Hlex]. cbn in Hlex. split_and!; [|done|by apply trim_plain, word_not_space, member_word].
  unfold is_decl_identifier_token. rewrite Hlex. unfold is_member in Hs.
  apply andb_true_iff in Hs as [Hw Hs]. apply orb_true_iff in Hs as [Hs|Hs].
  - apply plain_word in Hs as [_ Hk]. unfold tok_is. rewrite Hty. cbn. by rewrite Hk.
  - by destruct (tok_is _ _).
Qed.

Lemma builtin_token s t : In s builtin_names -> tok_as t (Word s) ->
  is_builtin t = true /\ tok_lexeme t = Some s /\ jz_strdup_trim s = s.
Proof.
  intros Hs [Hty Hlex]. cbn in Hlex. destruct (plain_word s (builtin_plain s Hs)) as [Hw Hk].
  split_and!; [|done|by apply trim_plain, word_not_space].
  unfold is_builtin, tok_is. rewrite Hty, Hlex. cbn [item_token fst snd]. rewrite Hk, bool_decide_eq_true_2 by done.
  cbn [andb]. apply List.existsb_exists. exists s. split; [done|]. apply String.eqb_refl.
Qed.

(** Every index starts as the parser wants it. *)
Lemma print_starts e : forall l ts, exp_ok e -> Forall2 tok_as ts (print l e) -> starts starts_index ts.
Proof.
  assert (forall ty ts items, Forall2 tok_as ts (op ty :: items) ->
    starts_index (mkTok ty no_loc None no_numeric) = true -> starts starts_index ts) as Hop.
  { intros ty ts items H Hi. apply Forall2_cons_inv_r in H as (t & ts' & [Ht _] & _ & ->). cbn.
    unfold starts_index, tok_is in *. by rewrite Ht. }
  assert (forall l e ts items, Forall2 tok_as ts (if l <=? exp_level e then items else parenthesised items) ->
    (Forall2 tok_as ts items -> starts starts_index ts) -> starts starts_index ts) as Hwrap.
  { intros l e' ts items H Hi. destruct (l <=? exp_level e'); [by apply Hi|]. by apply (Hop _ _ _ H). }
  assert (forall ts items items', Forall2 tok_as ts (items ++ items') ->
    (forall ts, Forall2 tok_as ts items -> starts starts_index ts) -> starts starts_index ts) as Happ.
  { intros ts i1 i2 H Hi. apply Forall2_app_inv_r in H as (ts1 & ts2 & H1 & _ & ->). specialize (Hi ts1 H1).
    by destruct ts1. }
  assert (forall s t, segment_word s -> tok_as t (Word s) -> starts_index t = true) as Hword.
  { intros s t Hs [Ht _]. unfold starts_index, tok_is. rewrite Ht. cbn [item_token fst snd].
    destruct Hs as [Hs| ->]; [|done]. by destruct (plain_word s Hs) as [_ ->]. }
  induction e as [i|v|s ss|s es IH|o e IH|o a b IHa IHb|c a b IHc IHa IHb|es IH|i e IH|e m k IHe IHm IHk
    |e m IHe IHm|p m s IHm|p s] using Exp_ind'; intros l ts Hok H; cbn [print] in H;
    apply (Hwrap _ _ _ _ H); clear H l; intros H; cbn in Hok; try (by apply (Hop _ _ _ H)).
  - apply Forall2_cons_inv_r in H as (t & ts' & [Ht _] & _ & ->). cbn. unfold starts_index, tok_is.
    rewrite Ht. destruct Hok as [_ Hok]. by destruct i.
  - apply Forall2_cons_inv_r in H as (t & ts' & [Ht _] & _ & ->). cbn. unfold starts_index, tok_is.
    rewrite Ht. by destruct v.
  - apply Forall2_cons_inv_r in H as (t & ts' & Ht & _ & ->). by apply (Hword s); [apply Hok|].
  - apply Forall2_cons_inv_r in H as (t & ts' & Ht & _ & ->).
    by apply (Hword s); [left; apply builtin_plain, Hok|].
  - apply (Hop _ _ _ H). destruct Hok as [Hok _]. by destruct o.
  - apply (Happ _ _ _ H). intros. apply (IHa (op_level o)); [apply Hok|done].
  - apply (Happ _ _ _ H). intros. apply (IHc 1); [apply Hok|done].
  - apply (Happ _ _ _ H). intros. apply (IHe 13); [apply Hok|done].
  - apply (Happ _ _ _ H). intros. apply (IHe 13); [apply Hok|done].
  - apply Forall2_cons_inv_r in H as (t & ts' & Ht & _ & ->). by apply (Hword p); [left; apply Hok|].
  - apply Forall2_cons_inv_r in H as (t & ts' & Ht & _ & ->). by apply (Hword p); [left; apply Hok|].
Qed.

(** ** Every expression *)

Lemma op_level_name o : op_level o <> 0 -> level_op (op_level o) o = Some (binary_name o).
Proof. by destruct o. Qed.
Lemma unary_level_name o : unary_op o <> None -> unary_op o = Some (unary_name o).
Proof. by destruct o. Qed.

Lemma binary_trim o : op_level o <> 0 -> jz_strdup_trim (binary_name o) = binary_name o.
Proof. by destruct o. Qed.
Lemma unary_trim o : unary_op o <> None -> jz_strdup_trim (unary_name o) = unary_name o.
Proof. by destruct o. Qed.

(** Split the items of a printed form after the rewriting of its level. *)
Ltac items H :=
  cbn [print exp_level nesting] in *; rewrite ?Nat.leb_refl in *; cbn [Nat.leb] in *.

Lemma written_member p m s : is_plain p = true -> is_member s = true -> exp_ok m ->
  written_as 0 m -> written_as 13 (EMember p m s).
Proof.
  intros Hp Hs Hm IH n ts Hn H. items H. cbn [app] in H.
  apply Forall2_cons_inv_r in H as (tp & ? & Htp & H & ->).
  apply Forall2_cons_inv_r in H as (lb & ? & Hlb & H & ->).
  apply Forall2_app_inv_r in H as (ts1 & ? & H1 & H & ->).
  apply Forall2_cons_inv_r in H as (rb & ? & Hrb & H & ->).
  apply Forall2_cons_inv_r in H as (d & ? & Hd & H & ->).
  apply Forall2_cons_inv_r in H as (t & ? & Ht & H & ->). apply Forall2_nil_inv_r in H as ->.
  destruct n as [|n]; [lia|]. destruct (IH n ts1 ltac:(lia) H1) as (m' & Hm' & Hshape).
  destruct (word_segment p tp Hp Htp) as (Hbase & Hport & Hbs).
  destruct (member_token s t Hs Ht) as (Hdecl & Hlex & Htrim).
  exists (member_node (identifier_node p (tok_loc tp)) (Some m') (tok_lexeme t)). split.
  - apply (sp_member n [tp]); [by apply (proj1 spells_more 0); [|lia]|by apply op_type in Hlb| |done|
      by apply op_type in Hrb|by apply op_type in Hd|done|done].
    by apply (print_starts m 0).
  - pose proof (word_not_space p (proj1 (plain_word p Hp))) as Hsp. rewrite Hlex. cbn -[jz_strdup_trim].
    rewrite Htrim, !(trim_plain p Hsp), Hshape. done.
Qed.

Lemma written_wildcard p s : is_plain p = true -> is_member s = true -> written_as 13 (EWildcard p s).
Proof.
  intros Hp Hs n ts Hn H. items H. cbn [app] in H.
  apply Forall2_cons_inv_r in H as (tp & ? & Htp & H & ->).
  apply Forall2_cons_inv_r in H as (lb & ? & Hlb & H & ->).
  apply Forall2_cons_inv_r in H as (w & ? & Hw & H & ->).
  apply Forall2_cons_inv_r in H as (rb & ? & Hrb & H & ->).
  apply Forall2_cons_inv_r in H as (d & ? & Hd & H & ->).
  apply Forall2_cons_inv_r in H as (t & ? & Ht & H & ->). apply Forall2_nil_inv_r in H as ->.
  destruct (word_segment p tp Hp Htp) as (Hbase & Hport & Hbs).
  destruct (member_token s t Hs Ht) as (Hdecl & Hlex & Htrim).
  exists (member_node (identifier_node p (tok_loc tp)) None (tok_lexeme t)). split.
  - apply (sp_wildcard n [tp]); [by apply (proj1 spells_more 0); [|lia]|by apply op_type in Hlb|
      by apply op_type in Hw|by apply op_type in Hrb|by apply op_type in Hd|done|done].
  - pose proof (word_not_space p (proj1 (plain_word p Hp))) as Hsp. rewrite Hlex. cbn -[jz_strdup_trim].
    rewrite Htrim, !(trim_plain p Hsp). done.
Qed.

Lemma written_slice e m k : exp_ok m -> exp_ok k -> written_as 13 e -> written_as 0 m -> written_as 0 k ->
  written_as 13 (ESlice e m k).
Proof.
  intros Hm Hk IHe IHm IHk n ts Hn H. items H.
  apply Forall2_app_inv_r in H as (ts0 & ? & H0 & H & ->).
  apply Forall2_cons_inv_r in H as (lb & ? & Hlb & H & ->).
  apply Forall2_app_inv_r in H as (ts1 & ? & H1 & H & ->).
  apply Forall2_cons_inv_r in H as (s & ? & Hs & H & ->).
  apply Forall2_app_inv_r in H as (ts2 & ? & H2 & H & ->).
  apply Forall2_cons_inv_r in H as (rb & ? & Hrb & H & ->). apply Forall2_nil_inv_r in H as ->.
  destruct n as [|n]; [lia|]. destruct (IHe (S n) ts0 ltac:(lia) H0) as (e' & He' & Hse).
  destruct (IHm n ts1 ltac:(lia) H1) as (m' & Hm' & Hsm). destruct (IHk n ts2 ltac:(lia) H2) as (k' & Hk' & Hsk).
  exists (slice_node e' m' k'). split.
  - apply sp_slice; [done|by apply op_type in Hlb|by apply (print_starts m 0)|done|by apply op_type in Hs|
      by apply (print_starts k 0)|done|by apply op_type in Hrb].
  - cbn. by rewrite Hse, Hsm, Hsk.
Qed.

Lemma written_index e m : exp_ok m -> written_as 13 e -> written_as 0 m -> written_as 13 (EIndex e m).
Proof.
  intros Hm IHe IHm n ts Hn H. items H.
  apply Forall2_app_inv_r in H as (ts0 & ? & H0 & H & ->).
  apply Forall2_cons_inv_r in H as (lb & ? & Hlb & H & ->).
  apply Forall2_app_inv_r in H as (ts1 & ? & H1 & H & ->).
  apply Forall2_cons_inv_r in H as (rb & ? & Hrb & H & ->). apply Forall2_nil_inv_r in H as ->.
  destruct n as [|n]; [lia|]. destruct (IHe (S n) ts0 ltac:(lia) H0) as (e' & He' & Hse).
  destruct (IHm n ts1 ltac:(lia) H1) as (m' & Hm' & Hsm).
  exists (slice_node e' m' (index_copy m')). split.
  - apply sp_index; [done|by apply op_type in Hlb|by apply (print_starts m 0)|done|by apply op_type in Hrb].
  - rewrite (proj1 spells_copied _ _ _ _ Hm'). cbn. by rewrite Hse, Hsm.
Qed.

Lemma written_ternary c a b : written_as 1 c -> written_as 0 a -> written_as 0 b ->
  written_as 0 (ETernary c a b).
Proof.
  intros IHc IHa IHb n ts Hn H. items H.
  apply Forall2_app_inv_r in H as (ts0 & ? & H0 & H & ->).
  apply Forall2_cons_inv_r in H as (q & ? & Hq & H & ->).
  apply Forall2_app_inv_r in H as (ts1 & ? & H1 & H & ->).
  apply Forall2_cons_inv_r in H as (s & ts2 & Hs & H & ->).
  destruct n as [|n]; [lia|]. destruct (IHc (S n) ts0 ltac:(lia) H0) as (c' & Hc' & Hsc).
  destruct (IHa n ts1 ltac:(lia) H1) as (a' & Ha' & Hsa). destruct (IHb (S n) ts2 ltac:(lia) H) as (b' & Hb' & Hsb).
  eexists. split.
  - apply (sp_ternary n ts0 ts1 ts2 c' a' b'); [done..|by apply op_type in Hq|by apply op_type in Hs].
  - cbn. by rewrite Hsc, Hsa, Hsb.
Qed.

(** An element list between a head and a closing token. *)
Lemma written_elements n es ts : Forall (fun e => forall l, l <= 14 -> written_as l e) es ->
  match es with [] => 0 | _ => S (fold_right Nat.max 0 (map (nesting 0) es)) end <= n ->
  Forall2 tok_as ts (commas (map (print 0) es)) ->
  (es = [] /\ ts = []) \/
  exists k es', n = S k /\ spells_list k ts es' /\ map erase_loc es' = map shape es.
Proof.
  intros Hes Hn H. destruct es as [|e es]; [left; cbn in H; by apply Forall2_nil_inv_r in H as ->|right].
  destruct n as [|n]; [lia|]. destruct (written_list n (e :: es) Hes ltac:(done) ts ltac:(lia) H) as (es' & H1 & H2).
  by exists n, es'.
Qed.

Lemma written_call s es : In s builtin_names ->
  Forall (fun e => forall l, l <= 14 -> written_as l e) es -> written_as 14 (ECall s es).
Proof.
  intros Hs Hes n ts Hn H. items H.
  apply Forall2_cons_inv_r in H as (t & ? & Ht & H & ->).
  apply Forall2_cons_inv_r in H as (lp & ? & Hlp & H & ->).
  apply Forall2_app_inv_r in H as (ts1 & ? & H1 & H & ->).
  apply Forall2_cons_inv_r in H as (rp & ? & Hrp & H & ->). apply Forall2_nil_inv_r in H as ->.
  apply op_type in Hlp, Hrp. destruct (builtin_token s t Hs Ht) as (Hb & Hlex & Htrim).
  destruct (written_elements n es ts1 Hes Hn H1) as [[-> ->]|(k & es' & -> & Hsp & Hshape)].
  - eexists. split; [by apply sp_call0|]. rewrite Hlex. cbn -[jz_strdup_trim]. by rewrite Htrim.
  - eexists. split; [by apply sp_call|]. rewrite Hlex, new_node_eq. cbn -[jz_strdup_trim].
    by rewrite Htrim, Hshape.
Qed.

Lemma written_concat es :
  Forall (fun e => forall l, l <= 14 -> written_as l e) es -> written_as 12 (EConcat es).
Proof.
  intros Hes n ts Hn H. items H.
  apply Forall2_cons_inv_r in H as (lb & ? & Hlb & H & ->).
  apply Forall2_app_inv_r in H as (ts1 & ? & H1 & H & ->).
  apply Forall2_cons_inv_r in H as (rb & ? & Hrb & H & ->). apply Forall2_nil_inv_r in H as ->.
  apply op_type in Hlb, Hrb.
  destruct (written_elements n es ts1 Hes Hn H1) as [[-> ->]|(k & es' & -> & Hsp & Hshape)].
  - eexists. by split; [by apply sp_empty|].
  - eexists. split; [by apply sp_concat|]. rewrite new_node_eq. cbn. by rewrite Hshape.
Qed.

Lemma written_replicate i e : number_ok i -> written_as 0 e -> written_as 12 (EReplicate i e).
Proof.
  intros Hi IH n ts Hn H. items H.
  apply Forall2_cons_inv_r in H as (lb & ? & Hlb & H & ->).
  apply Forall2_cons_inv_r in H as (c & ? & Hc & H & ->).
  apply Forall2_cons_inv_r in H as (lb' & ? & Hlb' & H & ->).
  apply Forall2_app_inv_r in H as (ts1 & ? & H1 & H & ->).
  apply Forall2_cons_inv_r in H as (rb & ? & Hrb & H & ->).
  apply Forall2_cons_inv_r in H as (rb' & ? & Hrb' & H & ->). apply Forall2_nil_inv_r in H as ->.
  apply op_type in Hlb, Hlb', Hrb, Hrb'. destruct (literal_erased i c Hi Hc) as [Hnum Hlit].
  destruct n as [|n]; [lia|]. destruct (IH n ts1 ltac:(lia) H1) as (e' & He' & Hshape).
  eexists. split; [by apply (sp_replicate n ts1 e')|]. rewrite erase_new_node. cbn [map]. by rewrite Hlit, Hshape.
Qed.

(** What is printed for an expression is a phrase of the grammar with its
    tree. *)
Lemma print_written e : exp_ok e -> forall l, l <= 14 -> written_as l e.
Proof.
  assert (forall es, Forall (fun e => exp_ok e -> forall l, l <= 14 -> written_as l e) es ->
    fold_right (fun e P => exp_ok e /\ P) True es -> Forall (fun e => forall l, l <= 14 -> written_as l e) es) as Hlist.
  { intros es H Hok. apply fold_and in Hok. induction H as [|e' es He _ IH]; [constructor|].
    apply Forall_cons in Hok as [H1 H2]. constructor; auto. }
  induction e as [i|v|s ss|s es IH|o e IH|o a b IHa IHb|c a b IHc IHa IHb|es IH|i e IH|e m k IHe IHm IHk
    |e m IHe IHm|p m s IHm|p s] using Exp_ind'; intros Hok l Hl; apply written_everywhere; try done; cbn in Hok.
  - intros n ts Hn H. items H. apply Forall2_cons_inv_r in H as (t & ? & Ht & H & ->).
    apply Forall2_nil_inv_r in H as ->. destruct (literal_erased i t Hok Ht) as [Hnum Hlit].
    exists (literal_node t). by split; [apply sp_literal|].
  - intros n ts Hn H. items H. apply Forall2_cons_inv_r in H as (t & ? & [Ht _] & H & ->).
    apply Forall2_nil_inv_r in H as ->. eexists. split.
    + apply sp_special; unfold is_number, is_special, tok_is; rewrite Ht; by destruct v.
    + unfold special_name, tok_is. rewrite Ht. by destruct v.
  - intros n ts Hn H. items H. destruct Hok as [Hs Hss].
    destruct (print_name_spelled ss s ts Hs Hss H) as [Hsp Hst]. destruct ts as [|t ts]; [done|].
    exists (identifier_node (dotted s ss) (tok_loc t)). split; [by apply sp_name|by apply identifier_shape].
  - apply written_call; [apply Hok|by apply Hlist; [|apply Hok]].
  - destruct Hok as [Ho Hok]. intros n ts Hn H. items H. apply Forall2_cons_inv_r in H as (t & ts1 & Ht & H & ->).
    destruct (IH Hok 11 ltac:(lia) n ts1 Hn H) as (e' & He' & Hshape). apply op_type in Ht.
    eexists. split; [apply sp_unary; [rewrite Ht; by apply unary_level_name|done]|].
    cbn -[jz_strdup_trim]. by rewrite (unary_trim o Ho), Hshape.
  - destruct Hok as (Ho & Ha & Hb). pose proof (level_op_high _ _ _ (op_level_name o Ho)) as Hlev. intros n ts Hn H. items H.
    apply Forall2_app_inv_r in H as (ts1 & ? & H1 & H & ->).
    apply Forall2_cons_inv_r in H as (t & ts2 & Ht & H & ->). apply op_type in Ht.
    destruct (IHa Ha (op_level o) ltac:(lia) n ts1 ltac:(lia) H1) as (a' & Ha' & Hsa).
    destruct (IHb Hb (S (op_level o)) ltac:(lia) n ts2 ltac:(lia) H) as (b' & Hb' & Hsb).
    eexists. split; [apply sp_binary; [rewrite Ht; by apply op_level_name|done|done]|].
    cbn -[jz_strdup_trim]. by rewrite (binary_trim o Ho), Hsa, Hsb.
  - destruct Hok as (Hc & Ha & Hb). apply written_ternary; [apply IHc|apply IHa|apply IHb]; (done || lia).
  - apply written_concat. by apply Hlist.
  - apply written_replicate; [apply Hok|apply IH; [apply Hok|lia]].
  - destruct Hok as (He & Hm & Hk). apply written_slice; [done|done|apply IHe|apply IHm|apply IHk]; (done || lia).
  - destruct Hok as (He & Hm). apply written_index; [done|apply IHe|apply IHm]; (done || lia).
  - destruct Hok as (Hp & Hm & Hs). apply written_member; [done|done|done|apply IHm; (done || lia)].
  - apply written_wildcard; apply Hok.
Qed.
