(* ===== verification/ParseSpec.v ===== *)
(** * What the expression parser guarantees

    The properties of [parse_expression] alone and behind the lexer, and the
    places where it differs from its comments. *)

From S2P Require Import Prelude Util CString Digits Ast Literal Lexer LexPos LexSpec LexRound ParseCore.
From S2P Require Import ParseExpr ParseGrammar ParseLogic ParseSound ParseComplete ParsePrint.

Local Open Scope nat_scope.

(** The state in which a file is parsed. *)
Definition start_parser : Parser := mkParser 0 0 0 0 [].

Lemma left_all body p : left body p <= length body.
Proof. unfold left, rest. rewrite length_drop. lia. Qed.

(** C17: on every token stream with an end-of-file token, from every state,
    parsing an expression terminates with the recursion counters as they were.
    Either the tokens consumed spell, in the grammar of the parser (where shifts
    bind less tightly than binary + and -, as shown below), the tree
    returned, which nests no deeper than the limit leaves room for, and nothing is
    reported; or exactly one diagnostic is. *)
Theorem parse_expression_sound body eof p fuel :
  tok_type eof = JZ_TOK_EOF -> tok_lexeme eof = None -> (0 <= ps_expr_depth p)%Z -> length body < fuel ->
  exists r p', parse_expression (body ++ [eof]) fuel p = Some (r, p') /\
  match r with
  | Some e => exists ts k, p' = forward (length ts) p /\ rest body p = ts ++ rest body p' /\
                (ps_expr_depth p + Z.of_nat (S k) <= 512)%Z /\ spells k 0 ts e
  | None => failed p p'
  end.
Proof.
  intros H1 H2 Hd Hf. pose proof (left_all body p) as Hl.
  pose proof (expression_parses body eof H1 H2 fuel p Hd ltac:(lia)) as H.
  unfold parses in H. destruct (parse_expression _ fuel p) as [[[e|] p']|]; [| |done].
  - eexists _, _. split; [done|]. destruct H as (ts & E1 & E2 & Hn).
    unfold budget, nested in Hn. destruct (Z.to_nat _) as [|k] eqn:Ek; [done|].
    exists ts, k. split_and!; [done|done|lia|done].
  - by eexists _, _.
Qed.

(** The tokens of [a + b] and the end of the file. *)
Definition sample_tokens (s : string) : list JZToken :=
  match jz_lex_source true s with Some r => lr_tokens r | None => [] end.

Lemma parse_expression_sound_witness :
  let body := removelast (sample_tokens "a + b") in
  let eof := List.last (sample_tokens "a + b") no_token in
  exists r p', parse_expression (body ++ [eof]) 4 start_parser = Some (r, p') /\
  match r with
  | Some e => exists ts k, p' = forward (length ts) start_parser /\
                rest body start_parser = ts ++ rest body p' /\
                (ps_expr_depth start_parser + Z.of_nat (S k) <= 512)%Z /\ spells k 0 ts e
  | None => failed start_parser p'
  end.
Proof. apply (parse_expression_sound _ _ start_parser 4); [reflexivity|reflexivity|discriminate|vm_compute; lia]. Defined.

(** C18: the tokens of a phrase of the parser's grammar, before a token that
    cannot continue it, are parsed to the tree of the phrase, whatever follows.  The
    grammar has the precedences of the code, also where the specification has others
    (shown below). *)
Theorem parse_expression_complete body eof p ts r k e fuel :
  tok_type eof = JZ_TOK_EOF -> tok_lexeme eof = None ->
  rest body p = ts ++ r -> all_ok ts -> spells k 0 ts e -> follows 0 (front eof r) = true ->
  (0 <= ps_expr_depth p)%Z -> (ps_expr_depth p + Z.of_nat (S k) <= 512)%Z -> length body < fuel ->
  parse_expression (body ++ [eof]) fuel p = Some (Some e, forward (length ts) p).
Proof.
  intros H1 H2 Hr Hok Hsp Hfol Hd Hlim Hf. pose proof (left_all body p).
  apply (nested_accepts body eof k ts e (proj1 (spells_accepts body eof H1 H2) k 0 ts e Hsp) fuel p r);
    [by repeat split|lia|done].
Qed.

Lemma parse_expression_complete_witness :
  let word s := mkTok JZ_TOK_IDENTIFIER no_loc (Some s) no_numeric in
  let plus := mkTok JZ_TOK_OP_PLUS no_loc (Some "+") no_numeric in
  let close := mkTok JZ_TOK_RPAREN no_loc (Some ")") no_numeric in
  parse_expression ([word "a"; plus; word "b"; close] ++ [no_token]) 5 start_parser =
    Some (Some (binary_node "ADD" no_loc (identifier_node "a" no_loc) (identifier_node "b" no_loc)),
      forward 3 start_parser).
Proof.
  intros word plus close.
  apply (parse_expression_complete [word "a"; plus; word "b"; close] no_token start_parser
    [word "a"; plus; word "b"] [close] 511);
    [reflexivity..|repeat constructor| |reflexivity|discriminate|cbn; lia|cbn; lia].
  apply (spells_up 511 0 9); [lia|lia|].
  apply (sp_binary 511 9 [word "a"] [word "b"]); [reflexivity| |];
    (eapply spells_up; [| |apply sp_name; [reflexivity|apply name_last; reflexivity]]; lia).
Defined.

(** A phrase that is all there is. *)
Lemma parse_phrase ts eof k e fuel :
  tok_type eof = JZ_TOK_EOF -> tok_lexeme eof = None -> all_ok ts -> spells k 0 ts e -> k < 512 -> length ts < fuel ->
  parse_expression (ts ++ [eof]) fuel start_parser = Some (Some e, forward (length ts) start_parser).
Proof.
  intros H1 H2 Hok Hsp Hk Hf. apply (nested_accepts ts eof k ts e (proj1 (spells_accepts ts eof H1 H2) k 0 ts e Hsp) fuel start_parser []).
  - split; [by rewrite app_nil_r|]. split; [done|]. split; [cbn; lia|done].
  - pose proof (left_all ts start_parser). lia.
  - cbn. unfold follows, is_segment. by rewrite H2, H1.
Qed.

(** The grammar is unambiguous. *)
Lemma spells_unambiguous ts k1 k2 e1 e2 :
  all_ok ts -> spells k1 0 ts e1 -> spells k2 0 ts e2 -> k1 < 512 -> k2 < 512 -> e1 = e2.
Proof.
  intros Hok H1 H2 Hk1 Hk2.
  assert (forall k e, spells k 0 ts e -> k < 512 ->
    parse_expression (ts ++ [no_token]) (S (length ts)) start_parser = Some (Some e, forward (length ts) start_parser)) as H.
  { intros k e Hsp Hk. by apply (parse_phrase ts no_token k e); [..|lia]. }
  pose proof (H k1 e1 H1 Hk1) as E1. rewrite (H k2 e2 H2 Hk2) in E1. congruence.
Qed.

(** ** With the lexer *)

(** The tokens of written items, the last for the end of the file. *)
Lemma tokens_of_items items : forall w, exists ts eof,
  tokens_of w items = ts ++ [eof] /\ Forall2 tok_as ts (map fst items) /\
  tok_type eof = JZ_TOK_EOF /\ tok_lexeme eof = None.
Proof.
  induction items as [|[i sep] items IH]; intros w; cbn [tokens_of map fst].
  - by exists [], (mkTok JZ_TOK_EOF (loc_of w) None no_numeric).
  - destruct (IH (locate w (item_text i ++ sep))) as (ts & eof & E & H & He).
    destruct (item_token i) as [[ty lex] num] eqn:Ei. rewrite E.
    exists (mkTok ty (loc_of w) lex num :: ts), eof. split_and!; [done| |apply He..].
    constructor; [|done]. unfold tok_as. by rewrite Ei.
Qed.

(** The tokens of a printed expression are parsed to its tree. *)
Lemma parse_printed e ts eof fuel :
  exp_ok e -> nesting 0 e < 512 -> Forall2 tok_as ts (print 0 e) ->
  tok_type eof = JZ_TOK_EOF -> tok_lexeme eof = None -> length ts < fuel ->
  exists e', parse_expression (ts ++ [eof]) fuel start_parser = Some (Some e', forward (length ts) start_parser) /\
    erase_loc e' = shape e.
Proof.
  intros Hok Hn Hts H1 H2 Hf.
  destruct (print_written e Hok 0 ltac:(lia) (nesting 0 e) ts ltac:(lia) Hts) as (e' & Hsp & Hshape).
  exists e'. split; [|done].
  apply (parse_phrase ts eof (nesting 0 e) e'); try done. by apply (item_tokens_ok ts (print 0 e)); [apply print_ok|].
Qed.

(** C19: an expression printed with the parentheses that the parser's precedences
    require (those of the specification but for shifts beside binary + and -),
    separated by blanks and comments in any way, is lexed and parsed back to
    its tree: operators, unary signs, conditionals, calls, names, members,
    slices, concatenations and replications.  All tokens are consumed and
    nothing is reported. *)
Theorem expr_roundtrip sink front items e :
  exp_ok e -> nesting 0 e < 512 -> blanks front -> map fst items = print 0 e ->
  Forall (fun q => separator (snd q)) items -> (Z.of_nat (length items) < JZ_MAX_SOURCE_TOKENS)%Z ->
  exists tokens e' p',
    jz_lex_source sink (front ++ written items) = Some (mkLexResult tokens [] 0) /\
    parse_expression tokens (length tokens) start_parser = Some (Some e', p') /\
    erase_loc e' = shape e /\ tok_type (peek tokens p') = JZ_TOK_EOF /\ ps_diags p' = [].
Proof.
  intros Hok Hn Hfront Hitems Hsep Hlim.
  destruct (tokens_of_items items (locate start_where front)) as (ts & eof & Ets & H & Heof & Hlex).
  rewrite Hitems in H.
  destruct (parse_printed e ts eof (length (ts ++ [eof])) Hok Hn H Heof Hlex) as (e' & Hparse & Hshape);
    [rewrite length_app; cbn; lia|].
  exists (ts ++ [eof]), e', (forward (length ts) start_parser). split_and!; [|done..| |done].
  - rewrite <- Ets. apply lex_written; [done| |done].
    pose proof (print_ok e 0 Hok) as Hi. rewrite <- Hitems in Hi. rewrite List.Forall_map in Hi.
    rewrite Forall_forall in Hi. rewrite Forall_forall in Hsep. apply Forall_forall. intros q Hq.
    split; [exact (Hi q Hq)|exact (Hsep q Hq)].
  - rewrite peek_front. by rewrite (rest_forward ts ts [] start_parser (eq_sym (app_nil_r ts))).
Qed.

Definition spaced (items : list Item) : list (Item * string) := map (fun i => (i, " "%string)) items.

Lemma spaced_separated items : Forall (fun q => separator (snd q)) (spaced items).
Proof.
  apply Forall_map, Forall_true. intros i. cbn. exists " "%char, EmptyString. by repeat constructor.
Qed.

Lemma expr_roundtrip_witness :
  let e := ETernary (EBinary JZ_TOK_OP_LE (EName "bus" ["data"]) (ELit (Sized "8" "h" "F0")))
             (EBinary JZ_TOK_OP_STAR (EUnary JZ_TOK_OP_MINUS (EName "a" []))
                (EBinary JZ_TOK_OP_PLUS (EIndex (EName "m" []) (EConcat [EName "b" []; ESpecial true]))
                   (ECall "uadd" [ELit (Number "1"); EMember "p" (ELit (Number "2")) "DATA"])))
             (EReplicate (Number "4") (ESlice (EName "CONFIG" ["W"]) (ELit (Number "3")) (ELit (Number "0")))) in
  exists tokens e' p',
    jz_lex_source true (EmptyString ++ written (spaced (print 0 e))) = Some (mkLexResult tokens [] 0) /\
    parse_expression tokens (length tokens) start_parser = Some (Some e', p') /\
    erase_loc e' = shape e /\ tok_type (peek tokens p') = JZ_TOK_EOF /\ ps_diags p' = [].
Proof.
  intros e. apply (expr_roundtrip true EmptyString (spaced (print 0 e)) e).
  - cbn -[is_plain builtin_names In]. repeat split; try done; try (by left); try (by right); try (by constructor); try (by repeat constructor).
    all: cbn; tauto.
  - vm_compute. lia.
  - constructor.
  - reflexivity.
  - apply spaced_separated.
  - reflexivity.
Defined.

Definition item_tokens (items : list Item) : list JZToken :=
  map (fun i => let '(ty, lex, num) := item_token i in mkTok ty no_loc lex num) items.

Lemma item_tokens_as items : Forall2 tok_as (item_tokens items) items.
Proof.
  induction items as [|i items IH]; [constructor|]. constructor; [|done].
  unfold tok_as. by destruct (item_token i) as [[ty lex] num].
Qed.

(** ** Where the parser differs from the specification *)

(** The table of section 3.3 of the specification, where shifts bind tighter
    than binary addition and subtraction. *)
Definition spec_level (t : JZTokenType) : nat :=
  match t with
  | JZ_TOK_OP_OR_OR => 1 | JZ_TOK_OP_AND_AND => 2 | JZ_TOK_OP_PIPE => 3 | JZ_TOK_OP_CARET => 4
  | JZ_TOK_OP_AMP => 5 | JZ_TOK_OP_EQ | JZ_TOK_OP_NEQ => 6
  | JZ_TOK_OP_LT | JZ_TOK_OP_LE | JZ_TOK_OP_GT | JZ_TOK_OP_GE => 7
  | JZ_TOK_OP_PLUS | JZ_TOK_OP_MINUS => 8
  | JZ_TOK_OP_SHL | JZ_TOK_OP_SHR | JZ_TOK_OP_ASHR => 9
  | JZ_TOK_OP_STAR | JZ_TOK_OP_SLASH | JZ_TOK_OP_PERCENT => 10
  | _ => 0
  end.

Definition is_shift (t : JZTokenType) : bool := bool_decide (spec_level t = 9).
Definition is_sum (t : JZTokenType) : bool := bool_decide (spec_level t = 8).

(** A shift beside a sum. *)
Definition shift_and_sum (o1 o2 : JZTokenType) : bool := is_shift o1 && is_sum o2 || is_sum o1 && is_shift o2.

(** [x o1 y o2 z] as [x o1 (y o2 z)] or as [(x o1 y) o2 z]. *)
Definition grouped (right : bool) (o1 o2 : JZTokenType) (x y z : Exp) : Exp :=
  if right then EBinary o1 x (EBinary o2 y z) else EBinary o2 (EBinary o1 x y) z.

Lemma levels_agree o1 o2 : op_level o1 <> 0 -> op_level o2 <> 0 ->
  (op_level o1 <? op_level o2) = xorb (spec_level o1 <? spec_level o2) (shift_and_sum o1 o2).
Proof. intros H1 H2. destruct o1; try by destruct H1. all: destruct o2; try by destruct H2. all: reflexivity. Qed.

(** C20: two binary operators after one another, between operands that are
    signed, braced, indexed, primary or in parentheses, are grouped as the table in
    section 3.3 of the specification says, operators of one level to the left, unless
    one is a shift and the other [+] or [-]: then they are grouped the other way. *)
Theorem operators_group o1 o2 x y z ts eof fuel :
  op_level o1 <> 0 -> op_level o2 <> 0 -> exp_ok x -> exp_ok y -> exp_ok z ->
  nesting 11 x < 512 -> nesting 11 y < 512 -> nesting 11 z < 512 ->
  Forall2 tok_as ts (print 11 x ++ op o1 :: print 11 y ++ op o2 :: print 11 z) ->
  tok_type eof = JZ_TOK_EOF -> tok_lexeme eof = None -> length ts < fuel ->
  exists e', parse_expression (ts ++ [eof]) fuel start_parser = Some (Some e', forward (length ts) start_parser) /\
    erase_loc e' = shape (grouped (xorb (spec_level o1 <? spec_level o2) (shift_and_sum o1 o2)) o1 o2 x y z).
Proof.
  intros H1 H2 Hx Hy Hz Nx Ny Nz H Heof Hlex Hf. rewrite <- levels_agree by done.
  assert (all_ok ts) as Hok.
  { eapply item_tokens_ok; [|exact H].
    rewrite !Forall_app, Forall_cons, Forall_app, Forall_cons. split_and!; by (apply print_ok || apply binary_op_ok). }
  apply Forall2_app_inv_r in H as (tx & ? & Hxs & H & ->). apply Forall2_cons_inv_r in H as (t1 & ? & T1 & H & ->).
  apply Forall2_app_inv_r in H as (ty & ? & Hys & H & ->). apply Forall2_cons_inv_r in H as (t2 & tz & T2 & Hzs & ->).
  apply op_type in T1, T2.
  destruct (print_written x Hx 11 ltac:(lia) 511 tx ltac:(lia) Hxs) as (x' & Sx & Ex).
  destruct (print_written y Hy 11 ltac:(lia) 511 ty ltac:(lia) Hys) as (y' & Sy & Ey).
  destruct (print_written z Hz 11 ltac:(lia) 511 tz ltac:(lia) Hzs) as (z' & Sz & Ez).
  pose proof (level_op_high _ _ _ (op_level_name o1 H1)). pose proof (level_op_high _ _ _ (op_level_name o2 H2)).
  assert (forall l ts e, l <= 11 -> spells 511 11 ts e -> spells 511 l ts e) as Hup by (intros; by apply (spells_up 511 l 11); [|lia|]).
  assert (forall l ts1 o t ts2 a b, op_level o <> 0 -> tok_type t = o -> l <= op_level o -> op_level o <= 10 ->
    spells 511 (op_level o) ts1 a -> spells 511 (S (op_level o)) ts2 b ->
    spells 511 l (ts1 ++ t :: ts2) (binary_node (binary_name o) (tok_loc t) a b)) as Hbin.
  { intros l ts1 o t ts2 a b Ho Ht Hl Hh Ha Hb. apply (spells_up 511 l (op_level o)); [done|lia|]. apply sp_binary; [|done|done].
    rewrite Ht. by apply op_level_name. }
  destruct (Nat.ltb_spec (op_level o1) (op_level o2)) as [Hlt|Hge]; cbn [grouped].
  - exists (binary_node (binary_name o1) (tok_loc t1) x' (binary_node (binary_name o2) (tok_loc t2) y' z')). split.
    + apply (parse_phrase _ eof 511); [done|done|done| |lia|done]. apply Hbin; [done|done|lia|lia|by apply Hup; [lia|]|].
      apply Hbin; [done|done|lia|lia|by apply Hup; [lia|]..].
    + cbn -[jz_strdup_trim]. by rewrite !binary_trim, Ex, Ey, Ez.
  - exists (binary_node (binary_name o2) (tok_loc t2) (binary_node (binary_name o1) (tok_loc t1) x' y') z'). split.
    + apply (parse_phrase _ eof 511); [done|done|done| |lia|done].
      replace (tx ++ t1 :: ty ++ t2 :: tz) with ((tx ++ t1 :: ty) ++ t2 :: tz) by (by rewrite <- app_assoc).
      apply Hbin; [done|done|lia|lia| |by apply Hup; [lia|]]. apply Hbin; [done|done|lia|lia|by apply Hup; [lia|]..].
    + cbn -[jz_strdup_trim]. by rewrite !binary_trim, Ex, Ey, Ez.
Qed.


(** [a + b << c] is [(a + b) << c], and not [a + (b << c)]. *)
Lemma operators_group_witness :
  let name s := EName s [] in
  let ts := item_tokens (print 11 (name "a"%string) ++ op JZ_TOK_OP_PLUS :: print 11 (name "b"%string) ++ op JZ_TOK_OP_SHL :: print 11 (name "c"%string)) in
  exists e', parse_expression (ts ++ [no_token]) 6 start_parser = Some (Some e', forward 5 start_parser) /\
    erase_loc e' = shape (EBinary JZ_TOK_OP_SHL (EBinary JZ_TOK_OP_PLUS (name "a"%string) (name "b"%string)) (name "c"%string)).
Proof.
  intros name ts.
  apply (operators_group JZ_TOK_OP_PLUS JZ_TOK_OP_SHL (name "a"%string) (name "b"%string) (name "c"%string) ts no_token 6);
    try (by split; [by left|constructor]); try done; try (cbn; lia). apply item_tokens_as.
Defined.

(** ** Where the parser differs from its comments *)

(** A replication [{ N { e } }] and the concatenation [{ N, e }] are the
    same tree: nothing in it says that [N] is a count, so the passes behind the
    parser take it for the first element. *)
Theorem replication_is_concatenation i e ts1 ts2 eof fuel :
  number_ok i -> exp_ok e -> nesting 0 e < 511 ->
  Forall2 tok_as ts1 (print 0 (EReplicate i e)) -> Forall2 tok_as ts2 (print 0 (EConcat [ELit i; e])) ->
  tok_type eof = JZ_TOK_EOF -> tok_lexeme eof = None -> length ts1 < fuel -> length ts2 < fuel ->
  exists e1 p1 e2 p2,
    parse_expression (ts1 ++ [eof]) fuel start_parser = Some (Some e1, p1) /\
    parse_expression (ts2 ++ [eof]) fuel start_parser = Some (Some e2, p2) /\
    erase_loc e1 = erase_loc e2.
Proof.
  intros Hi He Hn H1 H2 Heof Hlex Hf1 Hf2.
  destruct (parse_printed (EReplicate i e) ts1 eof fuel) as (e1 & Hp1 & Hs1); [done|cbn; lia|done..|].
  destruct (parse_printed (EConcat [ELit i; e]) ts2 eof fuel) as (e2 & Hp2 & Hs2); [done|cbn; lia|done..|].
  exists e1, (forward (length ts1) start_parser), e2, (forward (length ts2) start_parser).
  split_and!; [done|done|]. by rewrite Hs1, Hs2.
Qed.

Lemma replication_is_concatenation_witness :
  let n := Sized "4" "d" "2" in
  let a := EName "a" [] in
  exists e1 p1 e2 p2,
    parse_expression (item_tokens (print 0 (EReplicate n a)) ++ [no_token]) 10 start_parser = Some (Some e1, p1) /\
    parse_expression (item_tokens (print 0 (EConcat [ELit n; a])) ++ [no_token]) 10 start_parser = Some (Some e2, p2) /\
    erase_loc e1 = erase_loc e2.
Proof.
  apply (replication_is_concatenation (Sized "4" "d" "2") (EName "a" []) (item_tokens _) (item_tokens _) no_token 10).
  - by repeat split.
  - split; [by left|constructor].
  - cbn. lia.
  - apply item_tokens_as.
  - apply item_tokens_as.
  - reflexivity.
  - reflexivity.
  - cbn. lia.
  - cbn. lia.
Defined.

(** [n] signs before a name. *)
Definition signs (n : nat) : Exp := Nat.iter n (EUnary JZ_TOK_OP_TILDE) (EName "a" []).

Lemma signs_nesting n : forall l, nesting l (signs n) <= if l <=? 11 then 0 else 1.
Proof.
  induction n as [|k IH]; intros l.
  - change (nesting l (signs 0)) with (if l <=? 14 then 0 else 1).
    destruct (Nat.leb_spec l 14), (Nat.leb_spec l 11); lia.
  - change (nesting l (signs (S k))) with
      (if l <=? 11 then nesting 11 (signs k) else S (nesting 11 (signs k))).
    specialize (IH 11). cbn [Nat.leb] in IH. destruct (Nat.leb_spec l 11); lia.
Qed.

Lemma signs_ok n : exp_ok (signs n).
Proof. induction n as [|k IH]; [split; [by left|constructor]|by split]. Qed.

(** The depth limit does not bound the depth of the tree: any number of
    signs in a row is accepted, each one level deeper in the tree and in the
    recursion. *)
Theorem signs_nest_without_limit n :
  let tokens := item_tokens (print 0 (signs n)) ++ [no_token] in
  exists e' p', parse_expression tokens (length tokens) start_parser = Some (Some e', p') /\
    erase_loc e' = Nat.iter n (fun t => mkNode JZ_AST_EXPR_UNARY no_loc None (Some "BIT_NOT"%string) None None [t])
                     (shape (EName "a" [])).
Proof.
  intros tokens. pose proof (signs_nesting n 0) as Hn. cbn [Nat.leb] in Hn.
  destruct (parse_printed (signs n) _ no_token (length tokens) (signs_ok n) ltac:(lia)
    (item_tokens_as _) eq_refl eq_refl) as (e' & Hp & Hs); [unfold tokens; rewrite length_app; cbn; lia|].
  eexists _, _. split; [exact Hp|]. rewrite Hs. clear.
  induction n as [|k IH]; [done|].
  change (shape (signs (S k))) with
    (mkNode JZ_AST_EXPR_UNARY no_loc None (Some "BIT_NOT"%string) None None [shape (signs k)]).
  rewrite IH. reflexivity.
Qed.

(** The limit is met by nested parentheses. *)
Definition nested_parens (n : nat) : list JZToken :=
  item_tokens (repeat (op JZ_TOK_LPAREN) n ++ Word "a" :: repeat (op JZ_TOK_RPAREN) n) ++ [no_token].

Example parens_at_limit :
  match parse_expression (nested_parens 511) 2000 start_parser with
  | Some (Some e, p) => ast_type e = JZ_AST_EXPR_IDENTIFIER /\ ps_diags p = []
  | _ => False
  end.
Proof. vm_compute. by split. Qed.

Example parens_over_limit :
  match parse_expression (nested_parens 512) 2000 start_parser with
  | Some (None, p) => map pd_rule (ps_diags p) = ["PARSER_EXPR_DEPTH_LIMIT_EXCEEDED"%string]
  | _ => False
  end.
Proof. vm_compute. done. Qed.

(** Parse a source. *)
Definition parse_source (s : string) : option (option JZASTNode * list string) :=
  let ts := sample_tokens s in
  option_map (fun r => (fst r, map pd_rule (ps_diags (snd r)))) (parse_expression ts (S (length ts)) start_parser).

(** A name that ends in a dot is a qualified name. *)
Example trailing_dot_accepted :
  option_map (fun r => option_map erase_loc (fst r)) (parse_source "a. + b") =
    Some (Some (mkNode JZ_AST_EXPR_BINARY no_loc None (Some "ADD") None None
      [mkNode JZ_AST_EXPR_QUALIFIED_IDENTIFIER no_loc (Some "a.") None None None [];
       mkNode JZ_AST_EXPR_IDENTIFIER no_loc (Some "b") None None None []]))%string.
Proof. reflexivity. Qed.

(** A string that spells a keyword is a name. *)
Example quoted_keyword_is_name :
  option_map (fun r => option_map erase_loc (fst r)) (parse_source (quoted "IF")) =
    Some (Some (mkNode JZ_AST_EXPR_IDENTIFIER no_loc (Some "IF") None None None []))%string.
Proof. reflexivity. Qed.

(** A keyword that is a name elsewhere cannot start an index. *)
Example keyword_index_refused :
  parse_source "a[IF]" = Some (None, ["PARSE_SYNTAX_ERROR"]) /\
  option_map (fun r => option_map ast_type (fst r)) (parse_source "IF") = Some (Some JZ_AST_EXPR_IDENTIFIER).
Proof. by split. Qed.

(** Concatenations take no slice. *)
Example concat_not_sliced :
  option_map (fun r => option_map ast_type (fst r)) (parse_source "{a, b}[1:0]") = Some (Some JZ_AST_EXPR_CONCAT) /\
  option_map (fun r => option_map ast_type (fst r)) (parse_source "({a, b})[1:0]") = Some (Some JZ_AST_EXPR_SLICE).
Proof. by split. Qed.
