(* ===== verification/ParseBlocks.v ===== *)
(** * Reasoning about computations that recover

    A statement parser may report a diagnostic and go on.  [recovers p m Q]: run at
    [p], the computation [m] does not run out of fuel; it either returns [a]
    after consuming tokens [ts] and reporting [ds] with [Q ts ds a], and every
    counter of the parser is as it was, or it fails after at least one
    diagnostic, and then only the counter of left-hand sides may have grown.
    With this logic come the grammar of statements and its closure under
    recovery. *)

From S2P Require Import Prelude CString Ast Util Lexer ParseCore ParseExpr ParseStmt ParseGrammar ParseLogic ParseSound.


Local Open Scope nat_scope.

Definition noted (ds : list ParseDiag) (p : Parser) : Parser :=
  mkParser (ps_pos p) (ps_expr_depth p) (ps_lvalue_depth p) (ps_stmt_depth p) (ds ++ ps_diags p).

Lemma noted_nil p : noted [] p = p.
Proof. by destruct p. Qed.
Lemma noted_noted ds ds' p : noted ds' (noted ds p) = noted (ds' ++ ds) p.
Proof. unfold noted. cbn. by rewrite app_assoc. Qed.
Lemma forward_noted k ds p : forward k (noted ds p) = noted ds (forward k p).
Proof. done. Qed.

Definition broken (p p' : Parser) : Prop :=
  ps_pos p <= ps_pos p' /\ ps_expr_depth p' = ps_expr_depth p /\
  (ps_lvalue_depth p <= ps_lvalue_depth p')%Z /\ ps_stmt_depth p' = ps_stmt_depth p /\
  exists d ds, ps_diags p' = d :: ds ++ ps_diags p.

Lemma failed_broken p p' : failed p p' -> broken p p'.
Proof. intros (H1 & H2 & H3 & H4 & d & H5). repeat split; [done|done|lia|done|by exists d, []]. Qed.

Lemma broken_trans k ds p p' : broken (noted ds (forward k p)) p' -> broken p p'.
Proof.
  intros (H1 & H2 & H3 & H4 & d & ds' & H5). repeat split; [cbn in *; lia|done..|].
  exists d, (ds' ++ ds). by rewrite <- app_assoc.
Qed.

Section Logic.
Context (body : list JZToken) (eof : JZToken) (Heof : tok_type eof = JZ_TOK_EOF).
Notation tokens := (body ++ [eof]).
Notation rest := (rest body).
Notation left := (left body).
Notation front := (front eof).
Notation parses := (parses body).

Definition recovers {A} (p : Parser) (m : P A) (Q : list JZToken -> list ParseDiag -> A -> Prop) : Prop :=
  match m p with
  | Some (Some a, p') =>
      exists ts ds, p' = noted ds (forward (length ts) p) /\ rest p = ts ++ rest (forward (length ts) p) /\ Q ts ds a
  | Some (None, p') => broken p p'
  | None => False
  end.

Lemma recovers_weaken {A} p (m : P A) (Q R : list JZToken -> list ParseDiag -> A -> Prop) :
  recovers p m Q -> (forall ts ds a, Q ts ds a -> R ts ds a) -> recovers p m R.
Proof using Type.
  unfold recovers. destruct (m p) as [[[a|] p']|]; [|done|done]. intros (ts & ds & H1 & H2 & H3) H.
  exists ts, ds. auto.
Qed.

Lemma recovers_at {A} p (m m' : P A) (Q : list JZToken -> list ParseDiag -> A -> Prop) :
  m p = m' p -> recovers p m' Q -> recovers p m Q.
Proof using Type. unfold recovers. by intros ->. Qed.

Lemma recovers_ret {A} p (a : A) (Q : list JZToken -> list ParseDiag -> A -> Prop) : Q [] [] a -> recovers p (mret a) Q.
Proof using Type. intros H. exists [], []. by rewrite forward_0, noted_nil. Qed.

Lemma recovers_bind {A B} p (m : P A) (f : A -> P B) Q R :
  recovers p m Q ->
  (forall ts ds a, rest p = ts ++ rest (forward (length ts) p) -> Q ts ds a ->
     recovers (noted ds (forward (length ts) p)) (f a) (fun ts' ds' => R (ts ++ ts') (ds' ++ ds))) ->
  recovers p (x ← m; f x) R.
Proof using Type.
  unfold recovers, mbind, P_bind. destruct (m p) as [[[a|] p1]|]; [|done|done].
  intros (ts & ds & -> & H2 & HQ) Hf. specialize (Hf ts ds a H2 HQ).
  destruct (f a _) as [[[b|] p']|]; [|by apply broken_trans in Hf|done].
  destruct Hf as (ts' & ds' & -> & H3 & H4). exists (ts ++ ts'), (ds' ++ ds).
  rewrite length_app, <- forward_forward, forward_noted, noted_noted.
  split_and!; [done| |done]. rewrite <- app_assoc. rewrite H2 at 1. f_equal. exact H3.
Qed.

Lemma recovers_lift {A} p (m : P A) (Q : list JZToken -> A -> Prop) :
  parses p m Q -> recovers p m (fun ts ds a => ds = [] /\ Q ts a).
Proof using Type.
  unfold recovers, ParseLogic.parses. destruct (m p) as [[[a|] p']|]; [|by apply failed_broken|done].
  intros (ts & -> & H2 & H3). exists ts, []. by rewrite noted_nil.
Qed.

(** A first part that reports nothing. *)
Lemma recovers_seq {A B} p (m : P A) (f : A -> P B) (Q : list JZToken -> A -> Prop) R :
  parses p m Q ->
  (forall ts a, rest p = ts ++ rest (forward (length ts) p) -> Q ts a ->
     recovers (forward (length ts) p) (f a) (fun ts' => R (ts ++ ts'))) ->
  recovers p (x ← m; f x) R.
Proof using Type.
  intros Hm Hf. eapply recovers_bind; [by apply recovers_lift|]. intros ts ds a E [-> HQ].
  rewrite noted_nil. eapply recovers_weaken; [by apply Hf|]. intros ts' ds' b. by rewrite app_nil_r.
Qed.

Lemma recovers_map {A B C} p (m : P A) (g : A -> B) (f : B -> P C) (Q : list JZToken -> A -> Prop) R :
  parses p m Q ->
  (forall ts a, rest p = ts ++ rest (forward (length ts) p) -> Q ts a ->
     recovers (forward (length ts) p) (f (g a)) (fun ts' => R (ts ++ ts'))) ->
  recovers p (x ← (a ← m; mret (g a)); f x) R.
Proof using Type.
  intros Hm Hf. apply (recovers_seq p _ _ (fun ts b => exists a, b = g a /\ Q ts a)).
  - apply (parses_bind body p _ _ Q); [done|]. intros ts a _ Ha. apply parses_ret.
    rewrite app_nil_r. by exists a.
  - intros ts b E (a & -> & Ha). by apply Hf.
Qed.

Lemma recovers_broken {A} p (m : P A) p' (Q : list JZToken -> list ParseDiag -> A -> Prop) :
  m p = Some (None, p') -> broken p p' -> recovers p m Q.
Proof using Type. unfold recovers. by intros ->. Qed.

Lemma broken_report p d : broken p (add_parse_diag d p).
Proof using Type. apply failed_broken, failed_report. Qed.

Lemma recovers_fail {A} p msg (Q : list JZToken -> list ParseDiag -> A -> Prop) : recovers p (fail_with tokens msg) Q.
Proof using Type. apply broken_report. Qed.

Lemma recovers_report_null {A} p t rule msg (Q : list JZToken -> list ParseDiag -> A -> Prop) :
  recovers p (report_null t rule msg) Q.
Proof using Type. apply broken_report. Qed.

Lemma broken_advance p p' : broken p p' -> broken p (advance tokens p').
Proof using Type.
  unfold advance. destruct (_ <? _); [|done]. intros (H1 & H). split; [cbn in *; lia|exact H].
Qed.

Lemma recovers_reject {A} p t rule msg (Q : list JZToken -> list ParseDiag -> A -> Prop) :
  recovers p (reject tokens t rule msg) Q.
Proof using Type. apply broken_advance, broken_report. Qed.

Lemma recovers_report {B} p t rule msg (f : unit -> P B) Q :
  (forall d, recovers (noted [d] p) (f tt) (fun ts ds => Q ts (ds ++ [d]))) ->
  recovers p (x ← report t rule msg; f x) Q.
Proof using Type.
  intros H. specialize (H (mkParseDiag rule (tok_loc t) None msg)).
  unfold recovers, mbind, P_bind, report, update in *.
  change (parser_report_rule t rule msg p) with (noted [mkParseDiag rule (tok_loc t) None msg] p).
  destruct (f tt _) as [[[b|] p']|]; [| |done].
  - destruct H as (ts & ds & -> & H1 & H2). eexists ts, _. split_and!; [|done|exact H2].
    by rewrite forward_noted, noted_noted.
  - apply (broken_trans 0 [mkParseDiag rule (tok_loc t) None msg]). by rewrite forward_0.
Qed.

Lemma recovers_peek {B} p (f : JZToken -> P B) Q :
  recovers p (f (front (rest p))) Q -> recovers p (x ← peek_token tokens; f x) Q.
Proof using Type. unfold recovers, mbind, P_bind, peek_token. by rewrite peek_front. Qed.

Lemma recovers_advance {B} p t r (f : unit -> P B) (Q : list JZToken -> list ParseDiag -> B -> Prop) :
  rest p = t :: r -> recovers (forward 1 p) (f tt) (fun ts => Q (t :: ts)) ->
  recovers p (x ← advance_token tokens; f x) Q.
Proof using Type.
  intros E H. destruct (advance_forward body eof p t r E) as [Ha Hr].
  apply (recovers_seq p _ _ (fun ts _ => ts = [t])).
  - exists [t]. rewrite Ha. cbn [length]. by rewrite Hr.
  - intros ts [] _ ->. exact H.
Qed.

Lemma match_parses p ty : ty <> JZ_TOK_EOF ->
  parses p (match_tok tokens ty) (fun ts b =>
    if b : bool then exists t, ts = [t] /\ tok_type t = ty else ts = [] /\ tok_is ty (front (rest p)) = false).
Proof using Heof.
  intros Hty. apply (parses_at body p _ (b ← match_tok tokens ty; mret b)).
  { unfold mbind, P_bind. by destruct (match_tok tokens ty p) as [[[b|] p']|] eqn:E. }
  apply parses_match; [done|done|..].
  - intros t r _ Ht. apply parses_ret. by exists t.
  - intros H. by apply parses_ret.
Qed.

Lemma recovers_match {B} p ty (f : bool -> P B) (Q : list JZToken -> list ParseDiag -> B -> Prop) :
  ty <> JZ_TOK_EOF ->
  (forall t r, rest p = t :: r -> tok_type t = ty -> recovers (forward 1 p) (f true) (fun ts => Q (t :: ts))) ->
  (tok_is ty (front (rest p)) = false -> recovers p (f false) Q) ->
  recovers p (b ← match_tok tokens ty; f b) Q.
Proof using Heof.
  intros Hty Hyes Hno. eapply recovers_seq; [by apply match_parses|]. intros ts [] E.
  - intros (t & -> & Ht). exact (Hyes t _ E Ht).
  - intros (-> & H). cbn [length]. rewrite forward_0. exact (Hno H).
Qed.

Lemma recovers_expect {B} p ty msg (f : unit -> P B) (Q : list JZToken -> list ParseDiag -> B -> Prop) :
  ty <> JZ_TOK_EOF ->
  (forall t r, rest p = t :: r -> tok_type t = ty -> recovers (forward 1 p) (f tt) (fun ts => Q (t :: ts))) ->
  recovers p (x ← expect tokens ty msg; f x) Q.
Proof using Heof.
  intros Hty Hyes. apply (recovers_seq p _ _ (fun ts _ => exists t, ts = [t] /\ tok_type t = ty)).
  - apply parses_match; [done|done| |intros _; apply parses_fail].
    intros t r Hr Ht. apply parses_ret. by exists t.
  - intros ts [] E (t & -> & Ht). exact (Hyes t _ E Ht).
Qed.

Lemma recovers_ret_bind {A B} p (a : A) (f : A -> P B) Q : recovers p (f a) Q -> recovers p (x ← mret a; f x) Q.
Proof using Type. done. Qed.

(** One kind of token or another at the front: not the end of the file. *)
Lemma front_cons ts (f : JZToken -> bool) :
  f eof = false -> f (front ts) = true -> exists t r, ts = t :: r /\ f t = true.
Proof using Type. destruct ts as [|t r]; cbn; [congruence|]. intros _ H. by exists t, r. Qed.

Lemma one_of_eof types : ~ In JZ_TOK_EOF types -> List.existsb (fun ty => tok_is ty eof) types = false.
Proof using Heof.
  intros H. destruct (List.existsb _ _) eqn:E; [|done]. apply List.existsb_exists in E as (ty & Hin & Ht).
  unfold tok_is in Ht. rewrite Heof in Ht. apply bool_decide_eq_true in Ht. by subst.
Qed.
End Logic.

Ltac recovers_on_match := apply recovers_match; [assumption|discriminate|..].
Ltac recovers_on_expect := apply recovers_expect; [assumption|discriminate|].

(** * The grammar of statements

    [block n kind ts ns]: the tokens [ts], the terminator included, are a list
    of statements with the nodes [ns], locations included, in which lists are
    nested at most [n] deep below it.  [E] spells expressions; [is_sync] is the
    kind of the surrounding block.  Recovery after a diagnostic is not part of
    the grammar. *)


Local Open Scope nat_scope.

(** The depth of brackets after [ts], if none of them closes the one that is
    open at depth 1. *)
Fixpoint bracket_depth (d : Z) (ts : list JZToken) : option Z :=
  match ts with
  | [] => Some d
  | t :: ts' =>
      if tok_is JZ_TOK_LBRACKET t then bracket_depth (d + 1) ts'
      else if tok_is JZ_TOK_RBRACKET t then
        if (d - 1 =? 0)%Z then None else bracket_depth (d - 1) ts'
      else bracket_depth d ts'
  end.

(** Tokens in brackets, and their text. *)
Definition bracketed (ts : list JZToken) (s : string) : Prop :=
  exists cs rb, ts = cs ++ [rb] /\ tok_type rb = JZ_TOK_RBRACKET /\
    bracket_depth 1 cs = Some 1%Z /\ s = join_compact cs.

Definition identifier_spelled (t : JZToken) (s : string) : Prop :=
  tok_type t = JZ_TOK_IDENTIFIER /\ tok_lexeme t = Some s.

Section Grammar.
Variable E : list JZToken -> JZASTNode -> Prop.

Inductive lvalue : list JZToken -> JZASTNode -> Prop :=
  | lv_name t ts s ts' e :
      is_decl_identifier_token t || tok_is JZ_TOK_KW_CONFIG t = true -> name_spelled (t :: ts) s ->
      brackets E lvalue_index_copy (identifier_node s (tok_loc t)) ts' e ->
      lvalue (t :: ts ++ ts') e
  | lv_empty lb rb :
      tok_type lb = JZ_TOK_LBRACE -> tok_type rb = JZ_TOK_RBRACE ->
      lvalue [lb; rb] (new_node JZ_AST_EXPR_CONCAT (tok_loc rb) [])
  | lv_concat lb t ts es rb :
      tok_type lb = JZ_TOK_LBRACE -> comma_spelled lvalue (t :: ts) es -> tok_type rb = JZ_TOK_RBRACE ->
      lvalue (lb :: t :: ts ++ [rb]) (new_node JZ_AST_EXPR_CONCAT (tok_loc t) es).

Inductive assignment : list JZToken -> JZASTNode -> Prop :=
  | as_plain t ts lhs o kind ts1 rhs semi :
      lvalue (t :: ts) lhs -> assignment_kind (tok_type o) = Some kind -> E ts1 rhs ->
      tok_type semi = JZ_TOK_SEMICOLON ->
      assignment (t :: ts ++ o :: ts1 ++ [semi]) (assign_node kind (tok_loc t) [lhs; rhs])
  | as_latch t ts lhs o ts1 enable c ts2 rhs semi :
      lvalue (t :: ts) lhs -> tok_type o = JZ_TOK_OP_LE -> E ts1 enable ->
      tok_type c = JZ_TOK_OP_COLON -> E ts2 rhs -> tok_type semi = JZ_TOK_SEMICOLON ->
      assignment (t :: ts ++ o :: ts1 ++ c :: ts2 ++ [semi])
        (assign_node "RECEIVE_LATCH" (tok_loc t) [lhs; rhs; enable]).

Definition arguments_spelled (ts : list JZToken) (es : list JZASTNode) : Prop :=
  (ts = [] /\ es = []) \/ comma_spelled E ts es.

Definition count_spelled (ts : list JZToken) (count : option string) : Prop :=
  (ts = [] /\ count = None) \/
  exists lb ts' s, ts = lb :: ts' /\ tok_type lb = JZ_TOK_LBRACKET /\ bracketed ts' s /\ count = Some s.

(** What follows [@apply]. *)
Definition apply_spelled (kw : JZToken) (ts : list JZToken) (e : JZASTNode) : Prop :=
  exists cs count name s lp args es rp semi,
    ts = cs ++ name :: lp :: args ++ [rp; semi] /\ count_spelled cs count /\
    identifier_spelled name s /\ tok_type lp = JZ_TOK_LPAREN /\ arguments_spelled args es /\
    tok_type rp = JZ_TOK_RPAREN /\ tok_type semi = JZ_TOK_SEMICOLON /\
    e = jz_ast_set_name (Some s) (jz_ast_set_text count (new_node JZ_AST_TEMPLATE_APPLY (tok_loc kw) es)).

(** [(cond) {] *)
Inductive condition : list JZToken -> JZASTNode -> Prop :=
  | condition_intro lp ts c rp lb :
      tok_type lp = JZ_TOK_LPAREN -> E ts c -> tok_type rp = JZ_TOK_RPAREN -> tok_type lb = JZ_TOK_LBRACE ->
      condition (lp :: ts ++ [rp; lb]) c.

Section Nested.
(** A list of statements in braces, after the opening one. *)
Variable body_of : list JZToken -> list JZASTNode -> Prop.

Inductive elifs : list JZToken -> list JZASTNode -> Prop :=
  | elifs_nil : elifs [] []
  | elifs_else t lb ts body :
      tok_type t = JZ_TOK_KW_ELSE -> tok_type lb = JZ_TOK_LBRACE -> body_of ts body ->
      elifs (t :: lb :: ts) [new_node JZ_AST_STMT_ELSE (tok_loc t) body]
  | elifs_elif t ts1 c ts2 body ts3 ns :
      tok_type t = JZ_TOK_KW_ELIF -> condition ts1 c -> body_of ts2 body -> elifs ts3 ns ->
      elifs (t :: ts1 ++ ts2 ++ ts3) (new_node JZ_AST_STMT_ELIF (tok_loc t) (c :: body) :: ns).

Inductive if_chain : list JZToken -> list JZASTNode -> Prop :=
  | if_chain_intro t ts1 c ts2 body ts3 ns :
      tok_type t = JZ_TOK_KW_IF -> condition ts1 c -> body_of ts2 body -> elifs ts3 ns ->
      if_chain (t :: ts1 ++ ts2 ++ ts3) (new_node JZ_AST_STMT_IF (tok_loc t) (c :: body) :: ns).

(** The labels of a SELECT and its closing brace; [d]: a DEFAULT came before. *)
Inductive labels : bool -> list JZToken -> list JZASTNode -> Prop :=
  | labels_end d rb : tok_type rb = JZ_TOK_RBRACE -> labels d [rb] []
  | labels_semi d s ts ns : tok_type s = JZ_TOK_SEMICOLON -> labels d ts ns -> labels d (s :: ts) ns
  | labels_case d t ts1 v lb ts2 body ts3 ns :
      tok_type t = JZ_TOK_KW_CASE -> E ts1 v -> tok_type lb = JZ_TOK_LBRACE -> body_of ts2 body ->
      labels d ts3 ns ->
      labels d (t :: ts1 ++ lb :: ts2 ++ ts3) (new_node JZ_AST_STMT_CASE (tok_loc t) (v :: body) :: ns)
  | labels_empty d t ts1 v ts2 ts3 ns :
      tok_type t = JZ_TOK_KW_CASE -> E ts1 v ->
      ts2 = [] \/ (exists s, ts2 = [s] /\ tok_type s = JZ_TOK_SEMICOLON) -> labels d ts3 ns ->
      labels d (t :: ts1 ++ ts2 ++ ts3) (new_node JZ_AST_STMT_CASE (tok_loc t) [v] :: ns)
  | labels_default t lb ts1 body ts2 ns :
      tok_type t = JZ_TOK_KW_DEFAULT -> tok_type lb = JZ_TOK_LBRACE -> body_of ts1 body ->
      labels true ts2 ns ->
      labels false (t :: lb :: ts1 ++ ts2) (new_node JZ_AST_STMT_DEFAULT (tok_loc t) body :: ns).

Inductive select : list JZToken -> list JZASTNode -> Prop :=
  | select_intro t lp ts1 e rp lb ts2 ns :
      tok_type t = JZ_TOK_KW_SELECT -> tok_type lp = JZ_TOK_LPAREN -> E ts1 e ->
      tok_type rp = JZ_TOK_RPAREN -> tok_type lb = JZ_TOK_LBRACE -> labels false ts2 ns ->
      select (t :: lp :: ts1 ++ rp :: lb :: ts2) [new_node JZ_AST_STMT_SELECT (tok_loc t) (e :: ns)].

(** The statements of a [@feature]. *)
Inductive guarded : list JZToken -> list JZASTNode -> Prop :=
  | guarded_nil : guarded [] []
  | guarded_semi s ts ns : tok_type s = JZ_TOK_SEMICOLON -> guarded ts ns -> guarded (s :: ts) ns
  | guarded_cons ts1 ns1 ts2 ns2 :
      if_chain ts1 ns1 \/ select ts1 ns1 \/ (exists e, ns1 = [e] /\ assignment ts1 e) ->
      guarded ts2 ns2 -> guarded (ts1 ++ ts2) (ns1 ++ ns2).

Variable is_sync : bool.
Let guard_kind : string := if is_sync then "FEATURE_SYNC" else "FEATURE_ASYNC".

Inductive feature : list JZToken -> list JZASTNode -> Prop :=
  | feature_then f ts1 c ts2 ns ef :
      tok_type f = JZ_TOK_KW_FEATURE -> E ts1 c -> guarded ts2 ns -> tok_type ef = JZ_TOK_KW_ENDFEAT ->
      feature (f :: ts1 ++ ts2 ++ [ef])
        [jz_ast_set_block_kind (Some guard_kind)
           (new_node JZ_AST_FEATURE_GUARD (tok_loc f) [c; feature_branch "FEATURE_THEN" (tok_loc f) ns])]
  | feature_else f ts1 c ts2 ns el ts3 ns' ef :
      tok_type f = JZ_TOK_KW_FEATURE -> E ts1 c -> guarded ts2 ns ->
      tok_type el = JZ_TOK_KW_FEATURE_ELSE -> guarded ts3 ns' -> tok_type ef = JZ_TOK_KW_ENDFEAT ->
      feature (f :: ts1 ++ ts2 ++ el :: ts3 ++ [ef])
        [jz_ast_set_block_kind (Some guard_kind)
           (new_node JZ_AST_FEATURE_GUARD (tok_loc f)
              [c; feature_branch "FEATURE_THEN" (tok_loc f) ns; feature_branch "FEATURE_ELSE" (tok_loc el) ns'])].

Inductive statement : list JZToken -> list JZASTNode -> Prop :=
  | st_empty s : tok_type s = JZ_TOK_SEMICOLON -> statement [s] []
  | st_if ts ns : if_chain ts ns -> statement ts ns
  | st_select ts ns : select ts ns -> statement ts ns
  | st_apply t ts e : tok_type t = JZ_TOK_KW_APPLY -> apply_spelled t ts e -> statement (t :: ts) [e]
  | st_feature ts ns : feature ts ns -> statement ts ns
  | st_assign ts e : assignment ts e -> statement ts [e].

Inductive statement_list (terminator : JZTokenType) : list JZToken -> list JZASTNode -> Prop :=
  | sl_end t : tok_type t = terminator -> statement_list terminator [t] []
  | sl_cons ts1 ns1 ts2 ns2 :
      statement ts1 ns1 -> statement_list terminator ts2 ns2 ->
      statement_list terminator (ts1 ++ ts2) (ns1 ++ ns2).
End Nested.

(** A list below a nesting budget of [n]. *)
Fixpoint block (is_sync : bool) (n : nat) (terminator : JZTokenType) :
    list JZToken -> list JZASTNode -> Prop :=
  match n with
  | O => fun _ _ => False
  | S k => statement_list (block is_sync k JZ_TOK_RBRACE) is_sync terminator
  end.
End Grammar.
