(* ===== verification/ParseStmtSpec.v ===== *)
(** * The statement parser terminates and accepts only the grammar

    On a stream that ends with an end-of-file token: what [parse_statement_list]
    accepts without a diagnostic is in the grammar of [ParseBlocks].  The
    results for statements and templates follow the soundness proof. *)

From S2P Require Import Prelude CString Ast Digits Util Lexer ParseCore ParseExpr ParseStmt ParseGrammar ParseLogic ParseSound ParsePrint ParseSpec ParseBlocks.


Local Open Scope nat_scope.

(** The counters of expressions and statements, and that of left-hand sides. *)
Definition at_depth (d s : Z) (p : Parser) : Prop :=
  ps_expr_depth p = d /\ (0 <= ps_lvalue_depth p)%Z /\ ps_stmt_depth p = s.

Lemma at_depth_forward d s k p : at_depth d s p -> at_depth d s (forward k p).
Proof. done. Qed.
Lemma at_depth_noted d s ds p : at_depth d s p -> at_depth d s (noted ds p).
Proof. done. Qed.
#[export] Hint Resolve at_depth_forward at_depth_noted : core.

Section Sound.
Context (body : list JZToken) (eof : JZToken) (Heof : tok_type eof = JZ_TOK_EOF)
  (Hlex : tok_lexeme eof = None).
Notation tokens := (body ++ [eof]).
Notation rest := (rest body).
Notation left := (left body).
Notation front := (front eof).
Notation parses := (parses body).
Notation recovers := (recovers body).

(** ** Recovery *)

(** A computation that succeeds without a diagnostic. *)
Definition skips (p : Parser) (m : P unit) : Prop := parses p m (fun _ _ => True).

Lemma not_eof_cons ts : tok_is JZ_TOK_EOF (front ts) = false -> exists t r, ts = t :: r.
Proof using Heof.
  destruct ts as [|t r]; [|by exists t, r]. cbn. unfold tok_is. rewrite Heof.
  by rewrite bool_decide_true.
Qed.

Lemma advance_skips p (m : P unit) :
  tok_is JZ_TOK_EOF (front (rest p)) = false -> (left p = S (left (forward 1 p)) -> skips (forward 1 p) m) ->
  skips p (_ ← advance_token tokens; m).
Proof using Heof.
  intros Hf H. destruct (not_eof_cons _ Hf) as (t & r & Hr). eapply parses_advance; [done|].
  apply H. by apply (left_cons body t r).
Qed.

Lemma skip_until_skips types n p : left p < n -> skips p (skip_until tokens types n).
Proof using Heof.
  revert p. induction n as [|n IH]; intros p Hn; [lia|]. apply parses_peek.
  destruct (tok_is JZ_TOK_EOF (front (rest p))) eqn:E; [by apply parses_ret|]. cbn [orb].
  destruct (List.existsb _ _); [by apply parses_ret|]. apply advance_skips; [done|].
  intros H. apply IH. lia.
Qed.

Lemma skip_optional_skips ty p : ty <> JZ_TOK_EOF -> skips p (skip_optional tokens ty).
Proof using Heof. intros H. apply parses_match; [done|done|intros; by apply parses_ret..]. Qed.

Lemma skip_optional_parses ty p : ty <> JZ_TOK_EOF ->
  parses p (skip_optional tokens ty) (fun ts _ => ts = [] \/ exists t, ts = [t] /\ tok_type t = ty).
Proof using Heof.
  intros H. apply parses_match; [done|done|intros t r _ Ht|intros _]; apply parses_ret;
    [right; by exists t|by left].
Qed.

Lemma skips_bind p (m m' : P unit) :
  skips p m -> (forall ts : list JZToken, left p = length ts + left (forward (length ts) p) -> skips (forward (length ts) p) m') ->
  skips p (_ ← m; m').
Proof using Type.
  intros Hm H. eapply parses_bind; [exact Hm|]. intros ts [] E _.
  eapply parses_weaken; [apply H; by apply left_forward|done].
Qed.

Lemma directive_parses terminator n p :
  tok_is JZ_TOK_EOF (front (rest p)) = false -> left p <= n ->
  parses p (skip_directive tokens terminator n) (fun ts _ => ts <> []).
Proof using Heof.
  intros Hf Hn. destruct (not_eof_cons _ Hf) as (t & r & Hr). eapply parses_advance; [done|]. leftovers.
  eapply parses_weaken; [apply skips_bind|done]; [apply skip_until_skips; lia|].
  intros ts _. by apply skip_optional_skips.
Qed.

Lemma skip_instance_skips terminator n depth p : left p < n -> skips p (skip_instance tokens terminator n depth).
Proof using Heof.
  revert p depth. induction n as [|n IH]; intros p depth Hn; [lia|]. cbn [skip_instance]. apply parses_peek.
  destruct (tok_is JZ_TOK_EOF (front (rest p))) eqn:E; [by apply parses_ret|].
  assert (forall depth', skips p (_ ← advance_token tokens; skip_instance tokens terminator n depth')) as H.
  { intros depth'. apply advance_skips; [done|]. intros H. apply IH. lia. }
  destruct (_ && tok_is terminator _); [by apply parses_ret|].
  destruct (tok_is JZ_TOK_LBRACE _); [apply H|]. destruct (tok_is JZ_TOK_RBRACE _); [apply H|].
  destruct (tok_is JZ_TOK_SEMICOLON _ && _); [|apply H].
  destruct (not_eof_cons _ E) as (t & r & Hr). destruct (advance_forward body eof p t r Hr) as [Ha Hr'].
  exists [t]. unfold advance_token, update. rewrite Ha. cbn [length]. by rewrite Hr'.
Qed.

(** ** Brackets *)

Lemma skip_brackets_parses n d p : left p < n ->
  parses p (skip_brackets tokens n d) (fun ts _ => exists d', bracket_depth d ts = Some d' /\
    forall r, rest p = ts ++ r -> tok_is JZ_TOK_RBRACKET (front r) = true -> (d' - 1 = 0)%Z).
Proof using Heof.
  revert d p. induction n as [|n IH]; intros d p Hn; [lia|]. cbn [skip_brackets]. apply parses_peek.
  destruct (tok_is JZ_TOK_EOF (front (rest p))) eqn:E.
  { apply parses_ret. exists d. split; [done|]. intros r Hr Hrb. exfalso. cbn [app] in Hr. subst r. unfold tok_is in *.
    apply bool_decide_eq_true in E, Hrb. congruence. }
  destruct (not_eof_cons _ E) as (t & r & Hr). rewrite Hr in *. cbn [ParseGrammar.front] in *.
  assert (forall d1, (forall ts, bracket_depth d (t :: ts) = bracket_depth d1 ts) ->
    parses p (_ ← advance_token tokens; skip_brackets tokens n d1) (fun ts _ => exists d', bracket_depth d ts = Some d' /\
      forall r', t :: r = ts ++ r' -> tok_is JZ_TOK_RBRACKET (front r') = true -> (d' - 1 = 0)%Z)) as H.
  { intros d1 Hd. eapply parses_advance; [done|]. leftovers.
    eapply parses_weaken; [apply IH; lia|]. intros ts [] (d' & H1 & H2). exists d'. rewrite Hd.
    split; [done|]. intros r' [= Hr']. apply H2. rewrite <- Hr'. by apply (rest_forward body [t]). }
  destruct (tok_is JZ_TOK_LBRACKET t) eqn:E1; [apply H; intros ts; cbn; by rewrite E1|].
  destruct (tok_is JZ_TOK_RBRACKET t) eqn:E2; [|apply H; intros ts; cbn; by rewrite E1, E2].
  destruct (Z.eqb_spec (d - 1) 0) as [Hd|Hd].
  - apply parses_ret. by exists d.
  - apply H. intros ts. cbn. rewrite E1, E2. by destruct (Z.eqb_spec (d - 1) 0).
Qed.

Lemma token_range_rest p ts r : rest p = ts ++ r -> token_range tokens (ps_pos p) (ps_pos p + length ts) = ts.
Proof using Type.
  unfold token_range, ParseGrammar.rest. intros H. rewrite drop_app, H, Nat.add_comm, Nat.add_sub.
  rewrite <- app_assoc. apply take_app_length.
Qed.

Lemma bracket_text_parses msg n p : left p < n -> parses p (bracket_text tokens msg n) bracketed.
Proof using Heof.
  intros Hn. pose proof (skip_brackets_parses n 1 p Hn) as H. unfold ParseLogic.parses, bracket_text, parser_join_token_lexemes_compact in *.
  destruct (skip_brackets tokens n 1 p) as [[[[]|] p']|]; [|done|done].
  destruct H as (cs & -> & Hr & d & Hd & Hc).
  change (ps_pos (forward (length cs) p)) with (ps_pos p + length cs). rewrite (token_range_rest p cs _ Hr).
  assert (parses (forward (length cs) p) (_ ← expect tokens JZ_TOK_RBRACKET msg; mret (join_compact cs))
    (fun ts s => exists rb, ts = [rb] /\ tok_type rb = JZ_TOK_RBRACKET /\ s = join_compact cs)) as H.
  { on_expect. intros rb r _ Hrb. apply parses_ret. by exists rb. }
  unfold ParseLogic.parses in H.
  destruct ((_ ← expect tokens JZ_TOK_RBRACKET msg; mret (join_compact cs)) (forward (length cs) p)) as [[[s|] p']|];
    [|by apply failed_forward in H|done].
  destruct H as (ts & -> & Hr' & rb & -> & Hrb & ->).
  exists (cs ++ [rb]). rewrite length_app, <- forward_forward. split_and!; [done| |].
  - rewrite <- app_assoc, <- Hr'. exact Hr.
  - exists cs, rb. split_and!; [done|done| |done]. rewrite Hd. f_equal.
    enough (d - 1 = 0)%Z by lia. apply (Hc (rb :: rest (forward 1 (forward (length cs) p)))).
    { rewrite Hr. f_equal. exact Hr'. }
    unfold tok_is. cbn. by apply bool_decide_eq_true.
Qed.

Lemma expect_identifier_parses msg p :
  parses p (expect_identifier tokens msg)
    (fun ts r => exists t, ts = [t] /\ identifier_spelled t (fst r) /\ snd r = tok_loc t).
Proof using Heof.
  apply parses_peek. destruct (tok_lexeme (front (rest p))) as [name|] eqn:E; [|apply parses_fail].
  destruct (tok_is JZ_TOK_IDENTIFIER _) eqn:Ht; [|apply parses_fail].
  destruct (front_type eof Heof _ JZ_TOK_IDENTIFIER ltac:(discriminate) Ht) as (t & r & Hr & Hty).
  rewrite Hr in *. eapply parses_advance; [done|]. apply parses_ret. by exists t.
Qed.

(** ** Left-hand sides *)

Section Expressions.
Context (expression : P JZASTNode) (E : list JZToken -> JZASTNode -> Prop) (fuel : nat) (d s : Z).
Context (Hexpr : forall p, at_depth d s p -> left p < fuel -> parses p expression E).
Context (Hne : forall ts e, E ts e -> ts <> []).
Notation state := (at_depth d s).

(** A part of [parse_lvalue] that leaves its level. *)
Definition leaves {A} (q : Parser) (m : P A) (Q : list JZToken -> list ParseDiag -> A -> Prop) : Prop :=
  let out := set_lvalue_depth (jz_depth_leave (ps_lvalue_depth q)) in
  match m q with
  | Some (Some a, p') => exists ts ds, p' = out (noted ds (forward (length ts) q)) /\
      rest q = ts ++ rest (forward (length ts) q) /\ Q ts ds a
  | Some (None, p') => broken (out q) p'
  | None => False
  end.

Lemma depth_leave_bounds x y : (0 <= x -> x <= y -> jz_depth_leave x <= jz_depth_leave y /\ jz_depth_leave x <= x)%Z.
Proof using Type. unfold jz_depth_leave. destruct (Z.ltb_spec 0 x), (Z.ltb_spec 0 y); lia. Qed.

Lemma leaves_leaving {A} q (m : P A) Q :
  (0 <= ps_lvalue_depth q)%Z -> recovers q m Q -> leaves q (leaving_lvalue m) Q.
Proof using Type.
  unfold leaves, ParseBlocks.recovers, leaving_lvalue. intros H0. destruct (m q) as [[[a|] p']|]; [| |done].
  - intros (ts & ds & -> & H). by exists ts, ds.
  - intros (H1 & H2 & H3 & H4 & H5). repeat split; [done|done| |done|done]. cbn.
    by apply depth_leave_bounds.
Qed.

Lemma leaves_bind {A B} q (m : P A) (f : A -> P B) Q R :
  (0 <= ps_lvalue_depth q)%Z -> recovers q m Q ->
  (forall ts ds a, rest q = ts ++ rest (forward (length ts) q) -> Q ts ds a ->
     leaves (noted ds (forward (length ts) q)) (f a) (fun ts' ds' => R (ts ++ ts') (ds' ++ ds))) ->
  leaves q (x ← m; f x) R.
Proof using Type.
  unfold leaves, ParseBlocks.recovers, mbind, P_bind. intros H0. destruct (m q) as [[[a|] p1]|]; [| |done].
  - intros (ts & ds & -> & H2 & HQ) Hf. specialize (Hf ts ds a H2 HQ).
    destruct (f a _) as [[[b|] p']|]; [|exact (broken_trans (length ts) ds (set_lvalue_depth _ q) p' Hf)|done].
    destruct Hf as (ts' & ds' & -> & H3 & H4). exists (ts ++ ts'), (ds' ++ ds).
    rewrite length_app, <- forward_forward. split_and!; [|rewrite <- app_assoc; rewrite H2 at 1; by f_equal|done].
    rewrite forward_noted, noted_noted. done.
  - intros (H1 & H2 & H3 & H4 & H5) _. repeat split; [done|done| |done|done]. cbn.
    pose proof (depth_leave_bounds (ps_lvalue_depth q) (ps_lvalue_depth q)). lia.
Qed.

Lemma leaves_peek {B} q (f : JZToken -> P B) Q :
  leaves q (f (front (rest q))) Q -> leaves q (x ← peek_token tokens; f x) Q.
Proof using Type. unfold leaves, mbind, P_bind, peek_token. by rewrite peek_front. Qed.

Lemma leaves_enter {A} p (m : P A) Q :
  (0 <= ps_lvalue_depth p)%Z -> leaves (set_lvalue_depth (ps_lvalue_depth p + 1) p) m Q ->
  recovers p (fun p => m (set_lvalue_depth (ps_lvalue_depth p + 1) p)) Q.
Proof using Type.
  unfold leaves, ParseBlocks.recovers. intros H0. set (q := set_lvalue_depth _ p).
  assert (jz_depth_leave (ps_lvalue_depth q) = ps_lvalue_depth p) as E1.
  { unfold jz_depth_leave. cbn. destruct (Z.ltb_spec 0 (ps_lvalue_depth p + 1)); lia. }
  rewrite E1. destruct (m q) as [[[a|] p']|]; [| |done].
  - intros (ts & ds & -> & H1 & H2). by exists ts, ds.
  - assert (set_lvalue_depth (ps_lvalue_depth p) q = p) as -> by by destruct p. done.
Qed.

(** Elements that may add diagnostics. *)
Lemma comma_list_runs (m : P JZASTNode) (R : list JZToken -> JZASTNode -> Prop) k n p :
  (forall q, state q -> left q < k -> recovers q m (fun ts ds e => ds = [] /\ R ts e)) ->
  state p -> left p < n -> left p < k ->
  recovers p (comma_list tokens m n) (fun ts ds es => ds = [] /\ comma_spelled R ts es).
Proof using Heof.
  intros Hm. revert p. induction n as [|n IH]; intros p Hs Hn Hk; [lia|]. cbn [comma_list].
  eapply recovers_bind; [by apply Hm|]. intros ts ds e Er [-> He]. rewrite noted_nil. leftovers.
  recovers_on_match; [intros c r Hr Hc|intros _; apply recovers_ret; cbn; rewrite !app_nil_r; split; [done|by apply cs_one]].
  leftovers. eapply recovers_bind; [apply IH; [auto|lia|lia]|]. intros ts' ds es _ [-> Hes]. rewrite noted_nil.
  apply recovers_ret. cbn. rewrite !app_nil_r. split; [done|]. by apply cs_cons.
Qed.

Lemma lvalue_primary_parses n p : left p < n ->
  parses p (parse_lvalue_primary tokens n) (fun ts e => exists t ts' s, ts = t :: ts' /\
    is_decl_identifier_token t || tok_is JZ_TOK_KW_CONFIG t = true /\ name_spelled ts s /\
    e = identifier_node s (tok_loc t)).
Proof using Heof Hlex.
  intros Hn. apply parses_peek. destruct (is_decl_identifier_token (front (rest p)) || _) eqn:Ht; [|apply parses_fail].
  apply (front_cons eof _ (fun t => is_decl_identifier_token t || tok_is JZ_TOK_KW_CONFIG t)) in Ht as (t & r & Hr & Ht);
    [|unfold is_decl_identifier_token, tok_is; by rewrite Hlex, Heof].
  eapply parses_weaken; [by apply (parse_name_sound body eof Heof Hlex n p _ t r)|].
  intros ts e (ts' & s' & -> & Hs & ->). by exists t, ts', s'.
Qed.

Lemma lvalue_name_runs n p : state p -> left p < n -> left p < fuel ->
  parses p (base ← parse_lvalue_primary tokens n;
            postfix_loop tokens expression "expected ']' after lvalue slice/index" lvalue_index_copy n base)
    (lvalue E).
Proof using Heof Hlex Hexpr Hne.
  intros Hs Hn Hf. eapply parses_bind; [by apply lvalue_primary_parses|].
  intros ts e Er (t & ts' & s' & -> & Ht & Hname & ->). leftovers.
  eapply parses_weaken; [eapply (postfix_loop_sound body eof Heof Hlex expression E fuel state);
    [by apply at_depth_forward|done|done|by apply at_depth_forward|lia|lia]|].
  intros ts1 e1 Hb. by apply (lv_name E t ts' s').
Qed.

Lemma lvalue_nonempty ts e : lvalue E ts e -> ts <> [].
Proof using Type. by destruct 1. Qed.

Lemma comma_nonempty (R : list JZToken -> JZASTNode -> Prop) ts es :
  (forall ts e, R ts e -> ts <> []) -> comma_spelled R ts es -> ts <> [].
Proof using Type.
  intros HR. destruct 1 as [ts e H|ts e c ts' es H _ _]; [by eapply HR|]. by destruct ts.
Qed.

Lemma lvalue_runs n p : state p -> left p < n -> left p < fuel ->
  recovers p (parse_lvalue tokens expression n) (fun ts ds e => ds = [] /\ lvalue E ts e).
Proof using Heof Hlex Hexpr Hne.
  revert p. induction n as [|n IH]; intros p Hs Hn Hf; [lia|].
  pose proof Hs as (Hd & Hl & Hst).
  destruct (Z.leb_spec 512 (ps_lvalue_depth p)) as [Hlim|Hlim].
  { eapply recovers_broken; [|apply broken_report]. cbn [parse_lvalue]. unfold jz_depth_enter_checked.
    cbn [jz_input_limit_value]. by destruct (Z.leb_spec 512 (ps_lvalue_depth p)); [|lia]. }
  eapply recovers_at; [|apply leaves_enter; [done|]].
  { cbn [parse_lvalue]. unfold jz_depth_enter_checked. cbn [jz_input_limit_value].
    destruct (Z.leb_spec 512 (ps_lvalue_depth p)); [lia|]. cbn [Z.eqb orb]. reflexivity. }
  set (q := set_lvalue_depth (ps_lvalue_depth p + 1) p).
  assert (state q) as Hq by (split_and!; [done|cbn; lia|done]).
  assert (left q = left p) as Hlq by done.
  eapply leaves_bind; [cbn; lia|apply recovers_lift, match_parses; [done|discriminate]|].
  intros ts ds [] Er [-> Hb]; rewrite noted_nil.
  - destruct Hb as (lb & -> & Hlb). leftovers.
    apply leaves_peek. destruct (tok_is JZ_TOK_RBRACE _) eqn:Ht.
    + apply leaves_leaving; [cbn; lia|]. recovers_on_expect. intros rb r Hr Hrb.
      apply recovers_ret. split; [done|]. cbn [length] in *. rewrite Hr. by apply lv_empty.
    + eapply leaves_bind; [cbn; lia|apply (comma_list_runs _ (lvalue E) (min n fuel)); [|done|cbn [length] in *; lia..]|].
      { intros q' Hq' Hl'. apply IH; [done|lia|lia]. }
      intros ts ds es Er' [-> Hes]. rewrite noted_nil.
      apply leaves_leaving; [cbn; lia|]. recovers_on_expect. intros rb r Hr Hrb. apply recovers_ret.
      split; [done|]. destruct ts as [|t ts]; [by apply comma_nonempty in Hes; [|apply lvalue_nonempty]|].
      cbn [length] in *. rewrite Er'. by apply (lv_concat E lb t ts es rb).
  - destruct Hb as [-> _]. cbn [length]. rewrite forward_0. apply leaves_leaving; [cbn; lia|]. eapply recovers_weaken.
    + apply recovers_lift, lvalue_name_runs; [auto|done|done].
    + intros ts' ds' e [-> He]. exact (conj eq_refl He).
Qed.

(** ** Assignments and templates *)

Lemma assignment_runs n p : state p -> left p < n -> left p < fuel ->
  recovers p (parse_assignment_stmt tokens expression n) (fun ts ds e => ds = [] /\ assignment E ts e).
Proof using Heof Hlex Hexpr Hne.
  intros Hs Hn Hf. apply recovers_peek. eapply recovers_bind; [by apply lvalue_runs|].
  intros ts ds lhs Er [-> Hlhs]. rewrite noted_nil. leftovers.
  destruct ts as [|t ts]; [by apply lvalue_nonempty in Hlhs|]. rewrite Er. cbn [ParseGrammar.front app].
  apply recovers_peek. destruct (assignment_kind _) as [kind|] eqn:Hk; [|apply recovers_fail].
  set (p1 := forward (length (t :: ts)) p) in *.
  destruct (rest p1) as [|o r] eqn:Ho; cbn [ParseGrammar.front] in *; [by rewrite Heof in Hk|].
  eapply recovers_advance; [done|]. cbv beta. leftovers.
  eapply recovers_seq; [apply Hexpr; [auto|lia]|]. intros ts1 e1 Er1 He1. leftovers.
  destruct (tok_is JZ_TOK_OP_LE o) eqn:Hle.
  - recovers_on_match; [intros c r' Hr' Hc|intros _].
    + leftovers. eapply recovers_seq; [apply Hexpr; [auto|lia]|]. intros ts2 e2 Er2 He2.
      recovers_on_expect. intros semi r'' _ Hsemi. apply recovers_ret. split; [done|].
      unfold tok_is in Hle. apply bool_decide_eq_true in Hle. by apply as_latch.
    + recovers_on_expect. intros semi r'' _ Hsemi. apply recovers_ret. split; [done|]. by apply as_plain.
  - apply recovers_ret_bind. recovers_on_expect. intros semi r'' _ Hsemi. apply recovers_ret. split; [done|].
    by apply as_plain.
Qed.

Lemma assignment_nonempty ts e : assignment E ts e -> ts <> [].
Proof using Type. by destruct 1. Qed.

Lemma consumed_forward p t r : rest p = t :: r -> token_at tokens (ps_pos (forward 1 p) - 1) = t.
Proof using Type.
  unfold ParseGrammar.rest, token_at. intros H. cbn. rewrite Nat.add_sub.
  rewrite nth_lookup, lookup_app_l.
  - rewrite <- (Nat.add_0_r (ps_pos p)), <- lookup_drop, H. done.
  - assert (length (drop (ps_pos p) body) = S (length r)) as Hl by by rewrite H.
    rewrite length_drop in Hl. lia.
Qed.

Lemma arguments_parses n p : state p -> left p < n -> left p < fuel ->
  parses p (if tok_is JZ_TOK_RPAREN (front (rest p)) then mret [] else comma_list tokens expression n)
    (arguments_spelled E).
Proof using Heof Hexpr.
  intros Hs Hn Hf. destruct (tok_is _ _); [apply parses_ret; by left|].
  eapply parses_weaken; [apply (comma_list_sound body eof Heof expression E fuel state); auto|].
  intros ts es H. by right.
Qed.

Lemma count_parses n p : left p < n ->
  parses p (b ← match_tok tokens JZ_TOK_LBRACKET;
            if (b : bool) then s ← bracket_text tokens "expected ']' after @apply count expression" n; mret (Some s)
            else mret None) count_spelled.
Proof using Heof.
  intros Hn. on_match; [intros lb r Hr Hlb|intros _; apply parses_ret; by left].
  leftovers. eapply parses_bind; [apply bracket_text_parses; lia|]. intros ts s' _ Hts.
  apply parses_ret. right. rewrite app_nil_r. by exists lb, ts, s'.
Qed.

Lemma apply_parses n p kw : state p -> left p < n -> left p < fuel -> token_at tokens (ps_pos p - 1) = kw ->
  parses p (parse_apply_stmt tokens expression n) (apply_spelled E kw).
Proof using Heof Hexpr.
  intros Hs Hn Hf Hkw. apply (parses_at body p _ (count ← (b ← match_tok tokens JZ_TOK_LBRACKET;
            if (b : bool) then s ← bracket_text tokens "expected ']' after @apply count expression" n; mret (Some s)
            else mret None);
    name ← expect_identifier tokens "expected template name after @apply";
    _ ← expect tokens JZ_TOK_LPAREN "expected '(' after template name in @apply";
    t ← peek_token tokens;
    args ← (if tok_is JZ_TOK_RPAREN t then mret [] else comma_list tokens expression n);
    _ ← expect tokens JZ_TOK_RPAREN "expected ')' after @apply arguments";
    _ ← expect tokens JZ_TOK_SEMICOLON "expected ';' after @apply statement";
    mret (jz_ast_set_name (Some (fst name))
            (jz_ast_set_text count (new_node JZ_AST_TEMPLATE_APPLY (tok_loc kw) args))))).
  { unfold parse_apply_stmt, consumed_token, mbind, P_bind. rewrite Hkw.
    by destruct (match_tok _ _ p) as [[[[]|] ?]|]. }
  eapply parses_bind; [by apply count_parses|]. intros cs count Er Hc. leftovers.
  eapply parses_bind; [by apply expect_identifier_parses|]. intros ts [name loc] Er1 (t & -> & Hname & _). leftovers.
  on_expect. intros lp r Hr Hlp. leftovers. apply parses_peek.
  eapply parses_bind; [apply arguments_parses; [auto|cbn [length] in *; lia..]|]. intros args es _ Hargs.
  on_expect. intros rp r' _ Hrp. on_expect. intros semi r'' _ Hsemi. apply parses_ret.
  by exists cs, count, t, name, lp, args, es, rp, semi.
Qed.

(** ** Control flow *)

Lemma parses_report_null {A} p t rule msg (Q : list JZToken -> A -> Prop) :
  parses p (report_null t rule msg) Q.
Proof using Type. apply failed_report. Qed.

Lemma condition_parses t kw p : state p -> left p < fuel ->
  parses p (parse_condition tokens expression t kw) (condition E).
Proof using Heof Hexpr.
  intros Hs Hf. unfold parse_condition.
  on_match; [intros lp r Hr Hlp; cbn [negb]|intros _; apply parses_report_null].
  leftovers. eapply parses_bind; [apply Hexpr; [auto|lia]|]. intros ts c _ Hc.
  on_match; [intros rp r' Hr' Hrp; cbn [negb]|intros _; apply parses_report_null].
  on_expect. intros lb r'' _ Hlb. apply parses_ret. by apply condition_intro.
Qed.

Section Nesting.
(** Nested lists have less fuel: they start after a token. *)
Context (statement_list : JZTokenType -> P (list JZASTNode)) (B : list JZToken -> list JZASTNode -> Prop).
Context (k : nat) (Hfuel : fuel = S k) (is_sync : bool).
Context (Hlist : forall p, state p -> left p < k ->
  recovers p (statement_list JZ_TOK_RBRACE) (fun ts ds ns => ds = [] -> B ts ns)).

(** What is consumed is a phrase if nothing was reported. *)
Notation clean Q := (fun ts ds ns => ds = [] -> Q ts ns).

Lemma elifs_runs n p : state p -> left p < n -> left p < fuel ->
  recovers p (elif_chain tokens expression statement_list n) (clean (elifs E B)).
Proof using All.
  revert p. induction n as [|n IH]; intros p Hs Hn Hf; [lia|]. cbn [elif_chain]. apply recovers_peek.
  destruct (tok_is JZ_TOK_KW_ELIF _) eqn:E1; [|destruct (tok_is JZ_TOK_KW_ELSE _) eqn:E2].
  - destruct (front_type eof Heof _ JZ_TOK_KW_ELIF ltac:(discriminate) E1) as (t & r & Hr & Ht). rewrite Hr.
    eapply recovers_advance; [done|]. leftovers.
    eapply recovers_seq; [apply condition_parses; [auto|lia]|]. intros ts1 c Er1 Hc. leftovers.
    eapply recovers_bind; [apply Hlist; [auto|lia]|]. intros ts2 ds body' Er2 Hb. leftovers.
    eapply recovers_bind; [apply IH; [auto|change (left (noted ?ds ?q)) with (left q); lia..]|].
    intros ts3 ds3 ns _ Hns. apply recovers_ret. cbn [app]. rewrite app_nil_r. intros [-> ->]%app_eq_nil.
    apply elifs_elif; auto.
  - destruct (front_type eof Heof _ JZ_TOK_KW_ELSE ltac:(discriminate) E2) as (t & r & Hr & Ht). rewrite Hr.
    eapply recovers_advance; [done|]. leftovers. recovers_on_expect. intros lb r' Hr' Hlb. leftovers.
    eapply recovers_bind; [apply Hlist; [auto|lia]|]. intros ts2 ds body' _ Hb. apply recovers_ret.
    cbn [app]. rewrite app_nil_r. intros ->. apply elifs_else; auto.
  - apply recovers_ret. intros _. apply elifs_nil.
Qed.

Lemma if_chain_runs n p :
  tok_is JZ_TOK_KW_IF (front (rest p)) = true -> state p -> left p < n -> left p < fuel ->
  recovers p (parse_if_chain tokens expression statement_list n)
    (fun ts ds ns => ts <> [] /\ (ds = [] -> if_chain E B ts ns)).
Proof using All.
  intros E1 Hs Hn Hf. apply recovers_peek.
  destruct (front_type eof Heof _ JZ_TOK_KW_IF ltac:(discriminate) E1) as (t & r & Hr & Ht). rewrite Hr.
  eapply recovers_advance; [done|]. leftovers.
  eapply recovers_seq; [apply condition_parses; [auto|lia]|]. intros ts1 c Er1 Hc. leftovers.
  eapply recovers_bind; [apply Hlist; [auto|lia]|]. intros ts2 ds body' Er2 Hb. leftovers.
  eapply recovers_bind; [apply elifs_runs; [auto|change (left (noted ?ds ?q)) with (left q); lia..]|].
  intros ts3 ds3 ns _ Hns. apply recovers_ret. cbn [app]. rewrite app_nil_r. split; [done|].
  intros [-> ->]%app_eq_nil. apply if_chain_intro; auto.
Qed.

Lemma labels_runs n seen p : state p -> left p < n -> left p < fuel ->
  recovers p (select_body tokens expression statement_list n seen) (clean (labels E B seen)).
Proof using All.
  revert seen p. induction n as [|n IH]; intros seen p Hs Hn Hf; [lia|]. cbn [select_body]. apply recovers_peek.
  destruct (tok_is JZ_TOK_RBRACE _) eqn:E1.
  { destruct (front_type eof Heof _ JZ_TOK_RBRACE ltac:(discriminate) E1) as (t & r & Hr & Ht).
    eapply recovers_advance; [done|]. apply recovers_ret. intros _. by apply labels_end. }
  destruct (tok_is JZ_TOK_EOF _) eqn:E2; [apply recovers_fail|].
  destruct (not_eof_cons _ E2) as (t & r & Hr). rewrite Hr in *. cbn [ParseGrammar.front] in *.
  destruct (tok_is JZ_TOK_SEMICOLON t) eqn:E3.
  { eapply recovers_advance; [done|]. leftovers. eapply recovers_weaken; [apply IH; [auto|lia..]|].
    intros ts ds ns Hns Hds. unfold tok_is in E3. apply bool_decide_eq_true in E3. apply labels_semi; auto. }
  destruct (tok_is JZ_TOK_KW_CASE t) eqn:E4.
  { unfold tok_is in E4. apply bool_decide_eq_true in E4. eapply recovers_advance; [done|]. leftovers.
    eapply recovers_seq; [apply Hexpr; [auto|lia]|]. intros ts1 v Er1 Hv. leftovers.
    recovers_on_match; [intros lb r' Hr' Hlb|intros _].
    - leftovers. eapply recovers_bind; [apply Hlist; [auto|lia]|]. intros ts2 ds body' Er2 Hb. leftovers.
      eapply recovers_bind; [apply IH; [auto|change (left (noted ?ds ?q)) with (left q); lia..]|].
      intros ts3 ds3 ns _ Hns. apply recovers_ret. cbn [app]. rewrite app_nil_r. intros [-> ->]%app_eq_nil.
      apply labels_case; auto.
    - eapply recovers_map; [by apply skip_optional_parses|]. intros ts2 [] Er2 Ho. leftovers.
      eapply recovers_bind; [apply IH; [auto|lia..]|].
      intros ts3 ds3 ns _ Hns. apply recovers_ret. cbn [app]. rewrite !app_nil_r. intros ->.
      apply labels_empty; auto. }
  destruct (tok_is JZ_TOK_KW_DEFAULT t) eqn:E5; [|apply recovers_fail].
  destruct seen; [apply recovers_fail|]. unfold tok_is in E5. apply bool_decide_eq_true in E5.
  eapply recovers_advance; [done|]. leftovers. recovers_on_expect. intros lb r' Hr' Hlb. leftovers.
  eapply recovers_bind; [apply Hlist; [auto|lia]|]. intros ts2 ds body' Er2 Hb. leftovers.
  eapply recovers_bind; [apply IH; [auto|change (left (noted ?ds ?q)) with (left q); lia..]|].
  intros ts3 ds3 ns _ Hns. apply recovers_ret. cbn [app]. rewrite app_nil_r. intros [-> ->]%app_eq_nil.
  apply labels_default; auto.
Qed.

Lemma select_runs n p :
  tok_is JZ_TOK_KW_SELECT (front (rest p)) = true -> state p -> left p < n -> left p < fuel ->
  recovers p (parse_select_stmt tokens expression statement_list n)
    (fun ts ds ns => ts <> [] /\ (ds = [] -> select E B ts ns)).
Proof using All.
  intros E1 Hs Hn Hf. apply recovers_peek.
  destruct (front_type eof Heof _ JZ_TOK_KW_SELECT ltac:(discriminate) E1) as (t & r & Hr & Ht). rewrite Hr.
  eapply recovers_advance; [done|]. leftovers. recovers_on_expect. intros lp r1 Hr1 Hlp. leftovers.
  eapply recovers_seq; [apply Hexpr; [auto|lia]|]. intros ts1 v Er1 Hv. leftovers.
  recovers_on_expect. intros rp r2 Hr2 Hrp. leftovers. recovers_on_expect. intros lb r3 Hr3 Hlb. leftovers.
  eapply recovers_bind; [apply labels_runs; [auto|lia..]|]. intros ts2 ds ns _ Hns. apply recovers_ret.
  cbn [app]. rewrite app_nil_r. split; [done|]. intros ->. apply select_intro; auto.
Qed.

(** ** Guards *)

Definition guard_end (p : Parser) (ts : list JZToken) (b : bool) : Prop :=
  b = true -> exists t r, rest p = ts ++ t :: r /\ tok_type t = JZ_TOK_KW_FEATURE_ELSE.

Lemma guard_end_app p ts ts' b :
  rest p = ts ++ rest (forward (length ts) p) -> guard_end (forward (length ts) p) ts' b ->
  guard_end p (ts ++ ts') b.
Proof using Type.
  intros Er H Hb. destruct (H Hb) as (t & r & E1 & E2). exists t, r. by rewrite Er, E1, app_assoc.
Qed.

Definition simple (ts : list JZToken) (ns : list JZASTNode) : Prop :=
  if_chain E B ts ns \/ select E B ts ns \/ (exists e, ns = [e] /\ assignment E ts e).

Lemma assign_runs n p : state p -> left p < n -> left p < fuel ->
  recovers p (stmt ← parse_assignment_stmt tokens expression n; mret [stmt])
    (fun ts ds ns => ts <> [] /\ (ds = [] -> exists e, ns = [e] /\ assignment E ts e)).
Proof using Heof Hlex Hexpr Hne.
  intros Hs Hn Hf. eapply recovers_bind; [by apply assignment_runs|]. intros ts ds e _ [-> He].
  apply recovers_ret. rewrite app_nil_r. split; [by eapply assignment_nonempty|]. intros _. by exists e.
Qed.

Lemma simple_runs n p : state p -> left p < n -> left p < fuel ->
  recovers p (if tok_is JZ_TOK_KW_IF (front (rest p)) then parse_if_chain tokens expression statement_list n
          else if tok_is JZ_TOK_KW_SELECT (front (rest p)) then parse_select_stmt tokens expression statement_list n
          else stmt ← parse_assignment_stmt tokens expression n; mret [stmt])
    (fun ts ds ns => ts <> [] /\ (ds = [] -> simple ts ns)).
Proof using All.
  intros Hs Hn Hf. unfold simple. destruct (tok_is JZ_TOK_KW_IF _) eqn:E1.
  { eapply recovers_weaken; [by apply if_chain_runs|]. intros ts ds ns [H1 H2]. auto. }
  destruct (tok_is JZ_TOK_KW_SELECT _) eqn:E2.
  { eapply recovers_weaken; [by apply select_runs|]. intros ts ds ns [H1 H2]. auto. }
  eapply recovers_weaken; [by apply assign_runs|]. intros ts ds ns [H1 H2]. auto.
Qed.

Lemma guarded_runs n p : state p -> left p < n -> left p < fuel ->
  recovers p (parse_feature_guard_body tokens expression statement_list n)
    (fun ts ds r => guard_end p ts (snd r) /\ (ds = [] -> guarded E B ts (fst r))).
Proof using All.
  revert p. induction n as [|n IH]; intros p Hs Hn Hf; [lia|]. cbn [parse_feature_guard_body]. apply recovers_peek.
  destruct (tok_is JZ_TOK_KW_FEATURE_ELSE _) eqn:E1.
  { destruct (front_type eof Heof _ JZ_TOK_KW_FEATURE_ELSE ltac:(discriminate) E1) as (t & r & Hr & Ht).
    apply recovers_ret. split; [intros _; by exists t, r|]. intros _. apply guarded_nil. }
  destruct (tok_is JZ_TOK_KW_ENDFEAT _); [apply recovers_ret; split; [done|intros _; apply guarded_nil]|].
  destruct (tok_is JZ_TOK_EOF _) eqn:E2; [apply recovers_fail|]. cbn [orb].
  destruct (tok_is JZ_TOK_RBRACE _); [apply recovers_fail|].
  destruct (tok_is JZ_TOK_SEMICOLON _) eqn:E3.
  { destruct (front_type eof Heof _ JZ_TOK_SEMICOLON ltac:(discriminate) E3) as (t & r & Hr & Ht).
    eapply recovers_advance; [done|]. leftovers. eapply recovers_weaken; [apply IH; [auto|lia..]|].
    intros ts ds ns [H1 H2]. split; [|intros Hds; apply guarded_semi; auto].
    apply (guard_end_app p [t]); [|done]. by rewrite (rest_forward body [t] r). }
  destruct (tok_is JZ_TOK_KW_FEATURE _); [apply recovers_reject|].
  destruct (tok_is JZ_TOK_KW_CHECK _); [apply recovers_reject|].
  destruct (List.existsb _ _); [apply recovers_reject|]. destruct (tok_is JZ_TOK_KW_CASE _ || _); [apply recovers_reject|].
  eapply recovers_bind; [by apply simple_runs|]. intros ts ds ns Er [Hts Hns]. leftovers.
  assert (length ts <> 0) by by destruct ts.
  eapply recovers_bind; [apply IH; [auto|change (left (noted ?ds ?q)) with (left q); lia..]|].
  intros ts2 ds2 [ns2 b] _ [Hend Hns2]. apply recovers_ret. cbn [app fst snd] in *. rewrite app_nil_r.
  split; [by apply guard_end_app|]. intros [-> ->]%app_eq_nil. apply guarded_cons; [by apply Hns|auto].
Qed.

Lemma feature_runs n p :
  tok_is JZ_TOK_KW_FEATURE (front (rest p)) = true -> state p -> left p < n -> left p < fuel ->
  recovers p (parse_feature_guard_stmt tokens expression statement_list is_sync n)
    (fun ts ds ns => ts <> [] /\ (ds = [] -> feature E B is_sync ts ns)).
Proof using All.
  intros E1 Hs Hn Hf. apply recovers_peek.
  destruct (front_type eof Heof _ JZ_TOK_KW_FEATURE ltac:(discriminate) E1) as (t & r & Hr & Ht). rewrite Hr.
  eapply recovers_advance; [done|]. leftovers.
  eapply recovers_seq; [apply Hexpr; [auto|lia]|]. intros ts1 c Er1 Hc. leftovers.
  eapply recovers_bind; [apply guarded_runs; [auto|lia..]|]. intros ts2 ds [ns saw_else] Er2 [Hend Hns].
  cbn [fst snd] in *. set (p2 := forward (length ts1) (forward 1 p)) in *. leftovers.
  destruct saw_else.
  - destruct (Hend eq_refl) as (el & r' & Hel & Hty).
    assert (rest (noted ds (forward (length ts2) p2)) = el :: r') as Hr2.
    { apply (app_inv_head ts2). by rewrite <- Hel. }
    apply recovers_peek. rewrite Hr2. eapply recovers_advance; [done|]. leftovers.
    change (left (noted ?ds ?q)) with (left q) in *. cbv beta.
    eapply recovers_bind; [apply guarded_runs; [auto|lia..]|]. intros ts3 ds3 [ns' b] Er3 [_ Hns']. cbn [fst snd] in *.
    recovers_on_expect. intros ef r3 _ Hef. apply recovers_ret. split; [done|].
    cbn [app]. rewrite ?app_nil_r. intros [-> ->]%app_eq_nil. apply feature_else; auto.
  - recovers_on_expect. intros ef r3 _ Hef. apply recovers_ret. split; [done|].
    cbn [app]. intros ->. apply feature_then; auto.
Qed.

(** ** Lists *)

(** A diagnostic, recovery, and no node. *)
Lemma recover_runs p t rule msg (m : P unit) (Q : list JZToken -> list JZASTNode -> Prop) :
  (forall diag, parses (noted [diag] p) m (fun ts _ => ts <> [])) ->
  recovers p (_ ← report t rule msg; _ ← m; mret ([] : list JZASTNode)) (fun ts ds ns => ts <> [] /\ (ds = [] -> Q ts ns)).
Proof using Type.
  intros Hm. apply recovers_report. intros diag. eapply recovers_seq; [apply Hm|].
  intros ts [] _ Hts. apply recovers_ret. rewrite app_nil_r. by split.
Qed.

Lemma statement_runs terminator n p : state p -> left p < n -> left p < fuel ->
  recovers p (parse_statement tokens expression statement_list is_sync terminator n (front (rest p)))
    (fun ts ds ns => ts <> [] /\ (ds = [] -> statement E B is_sync ts ns)).
Proof using All.
  intros Hs Hn Hf. unfold parse_statement.
  destruct (tok_is JZ_TOK_EOF _) eqn:E0; [apply recovers_fail|].
  destruct (not_eof_cons _ E0) as (t & r & Hr).
  destruct (tok_is JZ_TOK_SEMICOLON _) eqn:E1.
  { destruct (front_type eof Heof _ JZ_TOK_SEMICOLON ltac:(discriminate) E1) as (t' & r' & Hr' & Ht).
    eapply recovers_advance; [done|]. apply recovers_ret. split; [done|]. intros _. by apply st_empty. }
  destruct (tok_is JZ_TOK_KW_IF _) eqn:E2.
  { eapply recovers_weaken; [by apply if_chain_runs|]. intros ts ds ns [H1 H2]. split; [done|]. intros H. apply st_if; auto. }
  destruct (tok_is JZ_TOK_KW_SELECT _) eqn:E3.
  { eapply recovers_weaken; [by apply select_runs|]. intros ts ds ns [H1 H2]. split; [done|]. intros H. apply st_select; auto. }
  destruct (tok_is JZ_TOK_KW_CASE _ || _); [apply recovers_reject|].
  destruct (tok_is JZ_TOK_KW_APPLY _) eqn:E4.
  { destruct (front_type eof Heof _ JZ_TOK_KW_APPLY ltac:(discriminate) E4) as (t' & r' & Hr' & Ht).
    eapply recovers_advance; [done|]. leftovers. eapply recovers_seq.
    { apply (apply_parses n _ t'); [auto|lia|lia|]. by apply (consumed_forward p t' r'). }
    intros ts e _ He. apply recovers_ret. rewrite app_nil_r. split; [done|]. intros _. by apply st_apply. }
  destruct (tok_is JZ_TOK_KW_SCRATCH _).
  { apply recover_runs. intros diag. apply directive_parses; [done|]. by apply Nat.lt_le_incl. }
  destruct (tok_is JZ_TOK_KW_FEATURE _) eqn:E5.
  { eapply recovers_weaken; [by apply feature_runs|]. intros ts ds ns [H1 H2]. split; [done|]. intros H. apply st_feature; auto. }
  destruct (tok_is JZ_TOK_KW_FEATURE_ELSE _ || _).
  { eapply recovers_broken; [reflexivity|]. apply broken_advance, broken_report. }
  destruct (tok_is JZ_TOK_KW_CHECK _).
  { apply recover_runs. intros diag. apply directive_parses; [done|]. by apply Nat.lt_le_incl. }
  destruct (List.existsb _ _).
  { apply recovers_report. intros diag. eapply recovers_advance; [exact Hr|]. leftovers. eapply recovers_seq.
    - instantiate (1 := fun _ _ => True).
      destruct (tok_is JZ_TOK_KW_NEW _); [|by apply parses_ret]. apply skip_instance_skips.
      change (left (forward 1 (noted [diag] p))) with (left (forward 1 p)). lia.
    - intros ts [] _ _. apply recovers_ret. split; [done|]. cbn [app]. done. }
  eapply recovers_weaken; [by apply assign_runs|]. intros ts ds ns [H1 H2]. split; [done|]. intros H.
  destruct (H2 H) as (e & -> & He). by apply st_assign.
Qed.

Lemma statements_runs terminator n p : terminator <> JZ_TOK_EOF -> state p -> left p < n -> left p < fuel ->
  recovers p (statements tokens expression statement_list is_sync terminator n)
    (clean (ParseBlocks.statement_list E B is_sync terminator)).
Proof using All.
  intros Hterm. revert p. induction n as [|n IH]; intros p Hs Hn Hf; [lia|]. cbn [statements]. apply recovers_peek.
  destruct (tok_is terminator _) eqn:E1.
  - destruct (front_type eof Heof _ terminator Hterm E1) as (t & r & Hr & Ht).
    eapply recovers_advance; [done|]. apply recovers_ret. intros _. by apply sl_end.
  - eapply recovers_bind; [by apply statement_runs|]. intros ts ds ns Er [Hts Hns]. leftovers.
    assert (length ts <> 0) by by destruct ts.
    eapply recovers_bind; [apply IH; [auto|change (left (noted ?ds ?q)) with (left q); lia..]|].
    intros ts2 ds2 ns2 _ Hns2. apply recovers_ret. cbn [app]. rewrite app_nil_r.
    intros [-> ->]%app_eq_nil. apply sl_cons; auto.
Qed.
End Nesting.
End Expressions.

(** ** Nesting *)

Definition expressions_at (d : Z) : list JZToken -> JZASTNode -> Prop := nested (budget d).

Lemma deeper_stmt_runs {A} msg p (m : P A) Q :
  (0 <= ps_stmt_depth p)%Z ->
  ((ps_stmt_depth p < 512)%Z -> recovers (set_stmt_depth (ps_stmt_depth p + 1) p) m Q) ->
  recovers p (deeper_stmt tokens msg m) Q.
Proof using Type.
  intros H0 Hm. unfold ParseBlocks.recovers, deeper_stmt, jz_depth_enter_checked. cbn [jz_input_limit_value].
  destruct (Z.leb_spec 512 (ps_stmt_depth p)) as [Hlim|Hlim]; cbn [Z.eqb orb]; [apply broken_report|].
  specialize (Hm Hlim). unfold ParseBlocks.recovers in Hm. set (q := set_stmt_depth _ p) in *.
  assert (jz_depth_leave (ps_stmt_depth p + 1) = ps_stmt_depth p) as Hleave.
  { unfold jz_depth_leave. destruct (Z.ltb_spec 0 (ps_stmt_depth p + 1)); lia. }
  destruct (m q) as [[[a|] p']|]; [| |done].
  - destruct Hm as (ts & ds & -> & H1 & H2). exists ts, ds. cbn [ps_stmt_depth noted forward set_pos set_stmt_depth].
    split_and!; [|done|done]. change (ps_stmt_depth q) with (ps_stmt_depth p + 1)%Z. by rewrite Hleave.
  - destruct Hm as (H1 & H2 & H3 & H4 & H5). repeat split; [done|done|done| |done]. cbn. rewrite H4. exact Hleave.
Qed.

Lemma statement_list_runs fuel is_sync terminator d s p :
  terminator <> JZ_TOK_EOF -> (0 <= d)%Z -> (0 <= s)%Z -> at_depth d s p -> left p < fuel ->
  recovers p (parse_statement_list tokens fuel is_sync terminator)
    (fun ts ds ns => ds = [] -> block (expressions_at d) is_sync (Z.to_nat (512 - s)) terminator ts ns).
Proof using Heof Hlex.
  revert terminator s p. induction fuel as [|fuel IH]; intros terminator s p Hterm Hd Hs Hp Hf; [lia|].
  cbn [parse_statement_list]. pose proof Hp as (Hd' & Hl & Hs'). apply deeper_stmt_runs; [lia|]. intros Hlim.
  assert (Z.to_nat (512 - s) = S (Z.to_nat (512 - (s + 1)))) as -> by lia. cbn [block].
  apply (statements_runs (parse_expression tokens (S fuel)) (expressions_at d) (S fuel) d (s + 1)
    ltac:(intros q (<- & _) Hq; apply expression_parses; [done|done|lia|done]) ltac:(intros ts e; apply nested_nonempty)
    (parse_statement_list tokens fuel is_sync) (block (expressions_at d) is_sync (Z.to_nat (512 - (s + 1))) JZ_TOK_RBRACE)
    fuel eq_refl); [|done| |done|done].
  - intros q Hq Hlq. apply IH; [done|done|lia|done|done].
  - rewrite <- Hs'. by split_and!.
Qed.
End Sound.

(** * What the statement parser guarantees

    Soundness of [parse_statement_list], its composition with the lexer, and
    the places where it differs from its comments. *)


Local Open Scope nat_scope.

(** C21: on every token stream with an end-of-file token, parsing a statement
    list terminates with the counters of expressions and statements as they
    were.  On success the tokens consumed, if nothing was reported, are in the
    grammar a statement list with the nodes returned, nested no deeper than the
    limit leaves room for; a failure adds at least one diagnostic. *)
Theorem parse_statement_list_sound body eof p fuel is_sync terminator :
  tok_type eof = JZ_TOK_EOF -> tok_lexeme eof = None -> terminator <> JZ_TOK_EOF ->
  (0 <= ps_expr_depth p)%Z -> (0 <= ps_lvalue_depth p)%Z -> (0 <= ps_stmt_depth p)%Z ->
  length body < fuel ->
  exists r p', parse_statement_list (body ++ [eof]) fuel is_sync terminator p = Some (r, p') /\
  match r with
  | Some ns => exists ts ds, p' = noted ds (forward (length ts) p) /\ rest body p = ts ++ rest body p' /\
      (ds = [] -> block (expressions_at (ps_expr_depth p)) is_sync (Z.to_nat (512 - ps_stmt_depth p)) terminator ts ns)
  | None => broken p p'
  end.
Proof.
  intros H1 H2 Hterm Hd Hl Hs Hf. pose proof (left_all body p) as Hleft.
  pose proof (statement_list_runs body eof H1 H2 fuel is_sync terminator (ps_expr_depth p) (ps_stmt_depth p) p
    Hterm Hd Hs (conj eq_refl (conj Hl eq_refl)) ltac:(lia)) as H.
  unfold recovers in H. destruct (parse_statement_list _ _ _ _ p) as [[[ns|] p']|]; [| |done].
  - destruct H as (ts & ds & -> & H3 & H4). eexists _, _. split; [done|]. by exists ts, ds.
  - by eexists _, _.
Qed.

Definition sample_block : string := "IF (a) { b <= c : d; } ELSE { SELECT (e) { CASE 1 x = y; } } }".

Lemma parse_statement_list_sound_witness :
  let body := removelast (sample_tokens sample_block) in
  let eof := List.last (sample_tokens sample_block) no_token in
  let p := start_parser in
  exists r p', parse_statement_list (body ++ [eof]) 60 true JZ_TOK_RBRACE p = Some (r, p') /\
  match r with
  | Some ns => exists ts ds, p' = noted ds (forward (length ts) p) /\ rest body p = ts ++ rest body p' /\
      (ds = [] -> block (expressions_at (ps_expr_depth p)) true (Z.to_nat (512 - ps_stmt_depth p)) JZ_TOK_RBRACE ts ns)
  | None => broken p p'
  end.
Proof.
  apply (parse_statement_list_sound _ _ start_parser 60);
    [reflexivity|reflexivity|discriminate|discriminate|discriminate|discriminate|vm_compute; lia].
Defined.

(** The kinds of the nodes of a source, and the rules reported. *)
Definition parse_statements (s : string) : option (option (list JZASTNodeType) * list string) :=
  let ts := sample_tokens s in
  option_map (fun r => (option_map (map ast_type) (fst r), map pd_rule (ps_diags (snd r))))
    (parse_statement_list ts (length ts) true JZ_TOK_RBRACE start_parser).

Example if_chain_parsed :
  parse_statements "IF (a) { b <= c : d; } ELIF (e) { } ELSE { f = 1; } g[3:0] <= h; }" =
    Some (Some [JZ_AST_STMT_IF; JZ_AST_STMT_ELIF; JZ_AST_STMT_ELSE; JZ_AST_STMT_ASSIGN], []).
Proof. vm_compute. reflexivity. Qed.

(** A misplaced [@check] is reported and skipped. *)
Example misplaced_check_skipped :
  parse_statements "@check (a); b = c; }" =
    Some (Some [JZ_AST_STMT_ASSIGN], ["DIRECTIVE_INVALID_CONTEXT"])%string.
Proof. vm_compute. reflexivity. Qed.

(** ** The counter of left-hand sides *)

(** A file with one broken assignment, and the parser after parsing it. *)
Definition broken_file : list JZToken := sample_tokens "{ 1".
Definition parse_broken (p : Parser) : Parser :=
  match parse_statement_list broken_file 10 false JZ_TOK_RBRACE (set_pos 0 p) with
  | Some (_, p') => p'
  | None => p
  end.

(** The counter of nested left-hand sides is not restored when an element
    of a concatenation fails: after 512 such files in one process, every
    assignment of every file is refused at its first token. *)
Theorem lvalue_depth_leaks tokens expression n pos :
  let p := set_pos pos (Nat.iter 512 parse_broken start_parser) in
  parse_assignment_stmt tokens expression (S n) p =
    Some (None, parser_report_rule (peek tokens p) "PARSER_EXPR_DEPTH_LIMIT_EXCEEDED"
                  "lvalue nesting exceeds the parser safety limit" p).
Proof.
  intros p. assert (ps_lvalue_depth p = 512)%Z as H by (vm_compute; reflexivity).
  clearbody p. unfold parse_assignment_stmt, mbind, P_bind, ParseCore.peek_token. cbn [parse_lvalue].
  by rewrite H.
Qed.

(** ** Left-hand sides with an index *)

(** The children of the target of the first assignment. *)
Definition target_bounds (s : string) : option (list JZASTNode) :=
  let ts := sample_tokens s in
  match parse_statement_list ts (length ts) true JZ_TOK_RBRACE start_parser with
  | Some (Some (n :: _), _) =>
      match ast_children n with lhs :: _ => Some (map erase_loc (tl (ast_children lhs))) | [] => None end
  | _ => None
  end.

(** The copy of an index that is not a name or a literal is an empty node of
    its kind. *)
Example computed_index_not_copied :
  target_bounds "a[i + 1] <= b; }" =
    Some [mkNode JZ_AST_EXPR_BINARY no_loc None (Some "ADD") None None
            [mkNode JZ_AST_EXPR_IDENTIFIER no_loc (Some "i") None None None [];
             mkNode JZ_AST_EXPR_LITERAL no_loc None None (Some "1") None []];
          mkNode JZ_AST_EXPR_BINARY no_loc None None None None []]%string.
Proof. vm_compute. reflexivity. Qed.

(** ** Templates *)

Definition parse_template (s : string) : option (option (list JZASTNodeType) * list string) :=
  let ts := sample_tokens s in
  option_map (fun r => (option_map (fun n => map ast_type (ast_children n)) (fst r), map pd_rule (ps_diags (snd r))))
    (parse_template_def ts (length ts) (set_pos 1 start_parser)).

Example template_parsed :
  parse_template "@template t(a, b) @scratch s[WIDTH+1]; s = a; b = s; @endtemplate" =
    Some (Some [JZ_AST_TEMPLATE_PARAM; JZ_AST_TEMPLATE_PARAM; JZ_AST_SCRATCH_DECL;
                JZ_AST_STMT_ASSIGN; JZ_AST_STMT_ASSIGN], []).
Proof. vm_compute. reflexivity. Qed.

(** After the first statement the body is an ordinary statement list, in which
    a declaration of the template is out of place. *)
Example scratch_after_statement :
  parse_template "@template t(a, b) b = a; @scratch s[2]; s = a; @endtemplate" =
    Some (Some [JZ_AST_TEMPLATE_PARAM; JZ_AST_TEMPLATE_PARAM; JZ_AST_STMT_ASSIGN; JZ_AST_STMT_ASSIGN],
          ["TEMPLATE_SCRATCH_OUTSIDE"])%string.
Proof. vm_compute. reflexivity. Qed.

(** So a directive that templates may not contain is refused before the first
    statement and accepted after it. *)
Example apply_after_statement_accepted :
  parse_template "@template t(a, b) @apply u(a); b = a; @endtemplate" =
    Some (Some [JZ_AST_TEMPLATE_PARAM; JZ_AST_TEMPLATE_PARAM; JZ_AST_STMT_ASSIGN],
          ["TEMPLATE_FORBIDDEN_DIRECTIVE"])%string /\
  parse_template "@template t(a, b) b = a; @apply u(a); @endtemplate" =
    Some (Some [JZ_AST_TEMPLATE_PARAM; JZ_AST_TEMPLATE_PARAM; JZ_AST_STMT_ASSIGN; JZ_AST_TEMPLATE_APPLY], []).
Proof. split; vm_compute; reflexivity. Qed.
