(* ===== verification/Repeat.v ===== *)
(** * Repetition before lexing: [compiler/src/repeat_expand.c]

    [@repeat N ... @end] in the source text is replaced by [N] copies of what
    stands between.  A pointer into the source is the text from it to the end
    of its region with its offset in the source.  The C code keeps a stack of
    frames, one per open [@repeat]; a frame holds the address of its output
    buffer, which for an inner frame is a field of the frame itself, and
    [realloc] may move the stack: [moves cap] says whether growing it to [cap]
    frames does.  A frame records the generation of the block its address is
    in; using the address in a later generation is the outcome [Dangling].
    Memory suffices, and sizes do not overflow [size_t]. *)

From S2P Require Import Prelude CString Util.

Local Open Scope nat_scope.

Inductive RepeatRule :=
  | RPT_COUNT_INVALID | RPT_COUNT_LIMIT_EXCEEDED | RPT_NO_MATCHING_END
  | RPT_EXPANDED_SIZE_LIMIT_EXCEEDED | RPT_INTERNAL.

Record RepeatDiag := mkRepeatDiag { rd_rule : RepeatRule; rd_line : nat }.

(** [limits.repeat_max_count], [limits.repeat_max_bytes]. *)
Record RepeatLimits := mkRepeatLimits { repeat_max_count : Z; repeat_max_bytes : Z }.
Definition default_limits : RepeatLimits := mkRepeatLimits 1024 (1024 * 1024).

Inductive Outcome (A : Type) := Done (a : A) | Refused (d : RepeatDiag) | Dangling.
Arguments Done {A}. Arguments Refused {A}. Arguments Dangling {A}.

#[export] Instance Outcome_ret : MRet Outcome := fun A a => Done a.
#[export] Instance Outcome_bind : MBind Outcome := fun A B f m =>
  match m with Done a => f a | Refused d => Refused d | Dangling => Dangling end.

(** ** Text *)

Definition newline : ascii := "010"%char.
Definition quote : ascii := "034"%char.
Definition backslash : ascii := "\"%char.

Definition is_word_char (c : ascii) : bool := isalnum c || Ascii.eqb c "_".

(** The text between two pointers, the second one given by what follows it. *)
Definition between (p q : string) : string := truncate (String.length p - String.length q) p.

(** [matches_directive] and [directive_boundary_ok]. *)
Definition at_directive (d p : string) : bool :=
  match strip_prefix d p with
  | Some (String c _) => negb (is_word_char c)
  | Some EmptyString => true
  | None => false
  end.

Definition count_line (src : string) (pos : nat) : nat :=
  S (length (List.filter (Ascii.eqb newline) (String.list_ascii_of_string (truncate pos src)))).

Definition skip_hspace : string -> string :=
  drop_while (fun c => Ascii.eqb c " " || Ascii.eqb c "009").

Definition skip_newline (p : string) : string :=
  match p with String c p' => if Ascii.eqb c newline then p' else p | EmptyString => p end.

Definition at_comment (p : string) : bool :=
  match p with String c (String c' _) => Ascii.eqb c "/" && Ascii.eqb c' "/" | _ => false end.

(** From the end of a comment. *)
Definition skip_comment : string -> string := drop_while (fun c => negb (Ascii.eqb c newline)).

(** From the quote, the end of the line or of the region that ends a string. *)
Fixpoint skip_literal (p : string) : string :=
  match p with
  | EmptyString => EmptyString
  | String c p' =>
      if Ascii.eqb c quote || Ascii.eqb c newline then p
      else if Ascii.eqb c backslash then
        match p' with EmptyString => EmptyString | String _ p'' => skip_literal p'' end
      else skip_literal p'
  end.

Definition skip_quote (p : string) : string :=
  match p with String c p' => if Ascii.eqb c quote then p' else p | EmptyString => p end.

(** From the [@end] that closes [depth] open directives; [n] bounds the rounds. *)
Fixpoint find_matching_end (n depth : nat) (p : string) : option string :=
  match n, p with
  | S n', String c p' =>
      if at_comment p then find_matching_end n' depth (skip_comment p)
      else if Ascii.eqb c quote then
        find_matching_end n' depth (drop_text 1 (skip_literal p'))
      else if at_directive "@repeat" p then find_matching_end n' (S depth) (drop_text 7 p)
      else if at_directive "@end" p then
        match depth with
        | S (S _ as depth') => find_matching_end n' depth' (drop_text 4 p)
        | _ => Some p
        end
      else find_matching_end n' depth p'
  | _, _ => None
  end.

(** ** Output *)

Section Expand.
Variables (full_src : string) (limits : RepeatLimits).

Definition refuse {A} (rule : RepeatRule) (at_pos : nat) : Outcome A :=
  Refused (mkRepeatDiag rule (count_line full_src at_pos)).

Definition sb_append_limited (sb s : string) (limit_at : nat) : Outcome string :=
  if is_empty_string s then Done sb
  else
    let len := Z.of_nat (String.length sb) in
    let n := Z.of_nat (String.length s) in
    if ((repeat_max_bytes limits <? len) || (repeat_max_bytes limits - len <? n))%Z
    then refuse RPT_EXPANDED_SIZE_LIMIT_EXCEEDED limit_at
    else Done (sb ++ s)%string.

(** What precedes and what follows the next [IDX] that stands alone; [prev] is
    the character before. *)
Fixpoint find_idx (prev : option ascii) (p : string) : option (string * string) :=
  match p with
  | EmptyString => None
  | String c p' =>
      let left_ok := match prev with None => true | Some b => negb (is_word_char b) end in
      if left_ok && at_directive "IDX" p then Some (EmptyString, drop_text 3 p)
      else option_map (fun r => (String c (fst r), snd r)) (find_idx (Some c) p')
  end.

(** [snprintf] into a buffer of 16 characters. *)
Definition idx_text (idx : nat) : string := truncate 15 (print_decimal (Z.of_nat idx)).

Fixpoint substitute_loop (n : nat) (sb : string) (prev : option ascii) (p : string) (idx : nat)
    (repeat_at : nat) : Outcome string :=
  match n with
  | O => Done sb
  | S n' =>
      if is_empty_string p then Done sb
      else
        match find_idx prev p with
        | Some (before, rest) =>
            sb ← sb_append_limited sb before repeat_at;
            sb ← sb_append_limited sb (idx_text idx) repeat_at;
            substitute_loop n' sb (Some "X"%char) rest idx repeat_at
        | None => sb_append_limited sb p repeat_at
        end
  end.

Definition substitute_idx (sb body : string) (idx repeat_at : nat) : Outcome string :=
  substitute_loop (S (String.length body)) sb None body idx repeat_at.

(** The copies [first], ..., [first + count - 1]. *)
Fixpoint substitute_all (sb body : string) (first count repeat_at : nat) : Outcome string :=
  match count with
  | O => Done sb
  | S count' =>
      sb ← substitute_idx sb body first repeat_at;
      substitute_all sb body (S first) count' repeat_at
  end.

(** ** Directives *)

(** The digits of the count: its value, whether it overflows, what follows. *)
Fixpoint scan_count (p : string) (count : Z) (overflow : bool) : Z * bool * string :=
  match p with
  | String c p' =>
      if isdigit c then
        let digit := (code c - 48)%Z in
        if overflow then scan_count p' count true
        else if (Z.quot (SIZE_MAX - digit) 10 <? count)%Z then scan_count p' count true
        else scan_count p' (count * 10 + digit)%Z false
      else (count, overflow, p)
  | EmptyString => (count, overflow, p)
  end.

(** A directive: its count, its body, and the text from its [@end]. *)
Record Directive := mkDirective {
  dir_count : nat; dir_body : string; dir_body_pos : nat; dir_end : string; dir_end_pos : nat }.

Definition starts_with_digit (p : string) : bool :=
  match p with String c _ => isdigit c | EmptyString => false end.

Definition read_directive (p : string) (pos : nat) : Outcome Directive :=
  let after (q : string) := pos + (String.length p - String.length q) in
  let q := skip_hspace (drop_text 7 p) in
  if negb (starts_with_digit q) then refuse RPT_COUNT_INVALID pos
  else
    let '(count, overflow, q) := scan_count q 0 false in
    if (count =? 0)%Z then refuse RPT_COUNT_INVALID pos
    else if overflow || (repeat_max_count limits <? count)%Z then refuse RPT_COUNT_LIMIT_EXCEEDED pos
    else
      let body := skip_newline (skip_hspace q) in
      match find_matching_end (S (String.length body)) 1 body with
      | None => refuse RPT_NO_MATCHING_END pos
      | Some end_at =>
          Done (mkDirective (Z.to_nat count) (between body end_at) (after body) end_at (after end_at))
      end.

(** What is copied as it is, if no directive starts here: what follows it. *)
Definition skip_copied (p : string) : option string :=
  match p with
  | EmptyString => None
  | String c p' =>
      if at_comment p then Some (skip_comment p)
      else if Ascii.eqb c quote then Some (skip_quote (skip_literal p'))
      else if at_directive "@repeat" p then None
      else Some p'
  end.

(** ** Frames *)

Record Pending := mkPending { pd_count : nat; pd_at : nat; pd_end : string; pd_end_pos : nat }.

(** [fr_text] and [fr_pos]: from the scan position to the end of the region.
    [fr_block]: the generation of the stack the address of the output is in,
    or the caller's buffer. *)
Record RepeatFrame := mkFrame {
  fr_text : string; fr_pos : nat; fr_out : string; fr_block : option nat; fr_pending : option Pending }.

Definition set_frame (text : string) (pos : nat) (out : string) (f : RepeatFrame) : RepeatFrame :=
  mkFrame text pos out (fr_block f) None.

(** The frames, the innermost first. *)
Record RepeatFrameStack := mkFrames { st_frames : list RepeatFrame; st_cap : nat; st_block : nat }.

Variable moves : nat -> bool.

Definition repeat_frame_stack_push (text : string) (pos : nat) (owns_out : bool) (st : RepeatFrameStack) :
    RepeatFrameStack :=
  let full := length (st_frames st) =? st_cap st in
  let cap := if full then if st_cap st =? 0 then 8 else 2 * st_cap st else st_cap st in
  let block := if full && moves cap then S (st_block st) else st_block st in
  mkFrames (mkFrame text pos EmptyString (if owns_out then Some block else None) None :: st_frames st) cap block.

(** The address of the output is in the current block. *)
Definition out_valid (st : RepeatFrameStack) (f : RepeatFrame) : bool :=
  match fr_block f with None => true | Some b => b =? st_block st end.

Definition with_frames (fs : list RepeatFrame) (st : RepeatFrameStack) : RepeatFrameStack :=
  mkFrames fs (st_cap st) (st_block st).

(** One round of the loop: the next stack, or the text of the outermost frame. *)
Definition expand_round (st : RepeatFrameStack) : Outcome (RepeatFrameStack + string) :=
  match st_frames st with
  | [] => Done (inr EmptyString)
  | f :: below =>
      if is_empty_string (fr_text f) then
        match below with
        | [] => Done (inr (fr_out f))
        | parent :: below' =>
            match fr_pending parent with
            | None => refuse RPT_INTERNAL (fr_pos parent)
            | Some pd =>
                if negb (out_valid st f) then Dangling
                else if negb (out_valid st parent) && negb (is_empty_string (fr_out f)) then Dangling
                else
                  out ← substitute_all (fr_out parent) (fr_out f) 0 (pd_count pd) (pd_at pd);
                  let p := skip_newline (skip_hspace (drop_text 4 (pd_end pd))) in
                  let pos := pd_end_pos pd + (String.length (pd_end pd) - String.length p) in
                  Done (inl (with_frames (set_frame p pos out parent :: below') st))
            end
        end
      else
        match skip_copied (fr_text f) with
        | Some q =>
            let copied := between (fr_text f) q in
            if negb (out_valid st f) && negb (is_empty_string copied) then Dangling
            else
              out ← sb_append_limited (fr_out f) copied (fr_pos f);
              Done (inl (with_frames (set_frame q (fr_pos f + String.length copied) out f :: below) st))
        | None =>
            d ← read_directive (fr_text f) (fr_pos f);
            let f' := mkFrame (fr_text f) (fr_pos f) (fr_out f) (fr_block f)
                        (Some (mkPending (dir_count d) (fr_pos f) (dir_end d) (dir_end_pos d))) in
            Done (inl (repeat_frame_stack_push (dir_body d) (dir_body_pos d) true (with_frames (f' :: below) st)))
        end
  end.

Fixpoint expand_rounds (n : nat) (st : RepeatFrameStack) : option (Outcome string) :=
  match n with
  | O => None
  | S n' =>
      match expand_round st with
      | Done (inl st') => expand_rounds n' st'
      | Done (inr out) => Some (Done out)
      | Refused d => Some (Refused d)
      | Dangling => Some Dangling
      end
  end.

Definition expand_region (src : string) : option (Outcome string) :=
  expand_rounds (2 * String.length src + 1)
    (repeat_frame_stack_push src 0 false (mkFrames [] 0 0)).
End Expand.

(** [strstr(s, pat) != NULL]. *)
Fixpoint contains (pat s : string) : bool :=
  match strip_prefix pat s, s with
  | Some _, _ => true
  | None, String _ s' => contains pat s'
  | None, EmptyString => false
  end.

Definition jz_repeat_expand (source : string) (limits : RepeatLimits) (moves : nat -> bool) :
    option (Outcome string) :=
  if contains "@repeat" source then expand_region source limits moves source
  else Some (Done source).
