(* ===== verification/RepeatSpec.v ===== *)
(** * The stack machine of repetitions and a recursive reference

    [region]: a recursive reference, which reads a directive, expands its body
    and substitutes the index, without frames or addresses.  The stack machine
    computes the same outcome, errors included, as long as no address dangles.
    Then structured sources: they are expanded to what they stand for. *)

From S2P Require Import Prelude CString Digits Util Repeat.


Local Open Scope nat_scope.

(** ** Suffixes *)

Definition suffix (e p : string) : Prop := exists b, p = (b ++ e)%string.

Lemma suffix_refl p : suffix p p.
Proof. by exists EmptyString. Qed.
Lemma suffix_cons c e p : suffix e p -> suffix e (String c p).
Proof. intros [b ->]. by exists (String c b). Qed.
Lemma suffix_trans a b c : suffix a b -> suffix b c -> suffix a c.
Proof. intros [x ->] [y ->]. exists (y ++ x)%string. by rewrite append_assoc. Qed.
#[export] Hint Resolve suffix_refl suffix_cons : core.

Lemma suffix_length e p : suffix e p -> String.length e <= String.length p.
Proof. intros [b ->]. rewrite length_append. lia. Qed.

Lemma truncate_append b e : truncate (String.length b) (b ++ e) = b.
Proof.
  induction b as [|c b IH]; [by destruct e|]. rewrite append_cons. cbn [String.length truncate].
  by rewrite IH.
Qed.

Lemma between_append b e : between (b ++ e) e = b.
Proof. unfold between. rewrite length_append, Nat.add_sub. apply truncate_append. Qed.

Lemma between_length e p : suffix e p -> String.length (between p e) = String.length p - String.length e.
Proof. intros [b ->]. rewrite between_append, length_append. lia. Qed.

Lemma drop_text_suffix n p : suffix (drop_text n p) p.
Proof. revert p. induction n as [|n IH]; intros [|c p]; cbn; auto. Qed.

Lemma drop_text_length n p : String.length (drop_text n p) = String.length p - n.
Proof. revert p. induction n as [|n IH]; intros [|c p]; cbn; auto. Qed.

Lemma drop_while_suffix f p : suffix (drop_while f p) p.
Proof. induction p as [|c p IH]; cbn; [done|]. destruct (f c); auto. Qed.

Lemma skip_literal_suffix p : suffix (skip_literal p) p.
Proof.
  enough (forall n, String.length p <= n -> suffix (skip_literal p) p) by eauto.
  intros n. revert p. induction n as [|n IH]; intros [|c p] H; cbn in *; try done; [lia|].
  destruct (Ascii.eqb c quote || Ascii.eqb c newline); [done|]. destruct (Ascii.eqb c backslash).
  - destruct p as [|c' p]; [auto|]. cbn in *. do 2 apply suffix_cons. apply IH. lia.
  - apply suffix_cons, IH. lia.
Qed.

Lemma skip_newline_suffix p : suffix (skip_newline p) p.
Proof. destruct p as [|c p]; cbn; [done|]. destruct (Ascii.eqb c newline); auto. Qed.
Lemma skip_quote_suffix p : suffix (skip_quote p) p.
Proof. destruct p as [|c p]; cbn; [done|]. destruct (Ascii.eqb c quote); auto. Qed.
Lemma scan_count_suffix p v o : suffix (snd (scan_count p v o)) p.
Proof.
  revert v o. induction p as [|c p IH]; intros v o; cbn; [done|]. destruct (isdigit c); [|done].
  destruct o; [auto|]. destruct (_ <? _)%Z; auto.
Qed.

Lemma strip_prefix_append d p r : strip_prefix d p = Some r -> p = (d ++ r)%string.
Proof.
  revert p. induction d as [|a d IH]; intros p H.
  - rewrite append_empty. destruct p; by injection H.
  - destruct p as [|b p]; [done|]. cbn in H. destruct (Ascii.eqb_spec a b); [|done]. subst.
    by rewrite append_cons, (IH _ H).
Qed.

Lemma directive_prefix d p : at_directive d p = true -> exists r, p = (d ++ r)%string.
Proof.
  unfold at_directive. destruct (strip_prefix d p) as [r|] eqn:E; [|done].
  intros _. exists r. by apply strip_prefix_append.
Qed.

Lemma skip_copied_suffix p q : skip_copied p = Some q -> exists c r, p = String c r /\ suffix q r.
Proof.
  destruct p as [|c p]; [done|]. intros H. exists c, p. split; [done|]. cbn [skip_copied] in H.
  destruct (at_comment (String c p)) eqn:Ec.
  - injection H as <-. cbn in Ec. destruct p as [|c' p]; [done|].
    apply andb_true_iff in Ec as [->%Ascii.eqb_eq ->%Ascii.eqb_eq]. unfold skip_comment. cbn.
    apply suffix_cons, drop_while_suffix.
  - destruct (Ascii.eqb c quote).
    + injection H as <-. eapply suffix_trans; [apply skip_quote_suffix|apply skip_literal_suffix].
    + destruct (at_directive _ _); [done|]. by injection H as <-.
Qed.

Lemma find_matching_end_suffix n d p e : find_matching_end n d p = Some e ->
  suffix e p /\ at_directive "@end" e = true.
Proof.
  revert d p. induction n as [|n IH]; intros d [|c p] H; try done. cbn [find_matching_end] in H.
  destruct (at_comment (String c p)).
  { destruct (IH _ _ H) as [H1 H2]. split; [|done]. eapply suffix_trans; [exact H1|apply drop_while_suffix]. }
  destruct (Ascii.eqb c quote).
  { destruct (IH _ _ H) as [H1 H2]. split; [|done]. apply suffix_cons.
    eapply suffix_trans; [exact H1|]. eapply suffix_trans; [apply drop_text_suffix|apply skip_literal_suffix]. }
  destruct (at_directive "@repeat" (String c p)).
  { destruct (IH _ _ H) as [H1 H2]. split; [|done]. eapply suffix_trans; [exact H1|apply drop_text_suffix]. }
  destruct (at_directive "@end" (String c p)) eqn:E.
  { destruct d as [|[|d]]; [by injection H as <-|by injection H as <-|].
    destruct (IH _ _ H) as [H1 H2]. split; [|done]. eapply suffix_trans; [exact H1|apply drop_text_suffix]. }
  destruct (IH _ _ H) as [H1 H2]. auto.
Qed.

(** A directive is longer than its body and what follows it. *)
Definition after_directive (d : Directive) : string :=
  skip_newline (skip_hspace (drop_text 4 (dir_end d))).

Lemma after_directive_length d : String.length (after_directive d) <= String.length (dir_end d) - 4.
Proof.
  rewrite <- drop_text_length. apply suffix_length. unfold after_directive.
  eapply suffix_trans; [apply skip_newline_suffix|apply drop_while_suffix].
Qed.

Lemma read_directive_length src limits p pos d :
  read_directive src limits p pos = Done d -> skip_copied p = None -> p <> EmptyString ->
  String.length (dir_body d) + String.length (after_directive d) + 11 <= String.length p.
Proof.
  intros H Hc Hne. assert (at_directive "@repeat" p = true) as Hd.
  { destruct p as [|c p]; [done|]. cbn [skip_copied] in Hc. destruct (at_comment _); [done|].
    destruct (Ascii.eqb c quote); [done|]. by destruct (at_directive _ _). }
  apply directive_prefix in Hd as [r ->]. unfold read_directive in H.
  change (drop_text 7 ("@repeat" ++ r)) with r in H. destruct (negb _); [done|].
  pose proof (scan_count_suffix (skip_hspace r) 0 false) as Hs.
  destruct (scan_count (skip_hspace r) 0 false) as [[v o] q]. cbn [snd] in Hs.
  destruct (v =? 0)%Z; [done|]. destruct (o || _); [done|].
  destruct (find_matching_end _ 1 _) as [e|] eqn:Ee; [|done]. injection H as <-.
  apply find_matching_end_suffix in Ee as [He Hend].
  pose proof (after_directive_length
    (mkDirective (Z.to_nat v) (between (skip_newline (skip_hspace q)) e) 0 e 0)) as Ha.
  unfold after_directive in *. cbn [dir_body dir_end] in *. rewrite between_length by done.
  apply directive_prefix in Hend as [r' ->].
  assert (suffix (skip_newline (skip_hspace q)) r) as Hr.
  { eapply suffix_trans; [apply skip_newline_suffix|]. eapply suffix_trans; [apply drop_while_suffix|].
    eapply suffix_trans; [exact Hs|apply drop_while_suffix]. }
  apply suffix_length in He, Hr. rewrite !length_append in *. cbn [String.length] in *. lia.
Qed.

Section Machine.
Context (src : string) (limits : RepeatLimits).
Notation append := (sb_append_limited src limits).
Notation substitute_all := (substitute_all src limits).
Notation read_directive := (read_directive src limits).

(** ** The recursive reference *)

(** A region, with the expansion of bodies. *)
Fixpoint region_loop (body : string -> nat -> option (Outcome string)) (n : nat) (p : string) (pos : nat)
    (out : string) : option (Outcome string) :=
  match n with
  | O => None
  | S n' =>
      if is_empty_string p then Some (Done out)
      else
        match skip_copied p with
        | Some q =>
            match append out (between p q) pos with
            | Done out' => region_loop body n' q (pos + String.length (between p q)) out'
            | failure => Some failure
            end
        | None =>
            match read_directive p pos with
            | Done d =>
                match body (dir_body d) (dir_body_pos d) with
                | Some (Done b) =>
                    match substitute_all out b 0 (dir_count d) pos with
                    | Done out' =>
                        region_loop body n' (after_directive d)
                          (dir_end_pos d + (String.length (dir_end d) - String.length (after_directive d))) out'
                    | failure => Some failure
                    end
                | failure => failure
                end
            | Refused r => Some (Refused r)
            | Dangling => Some Dangling
            end
        end
  end.

(** At most [levels] directives inside each other. *)
Fixpoint region (levels : nat) (p : string) (pos : nat) (out : string) : option (Outcome string) :=
  region_loop
    (fun b bpos => match levels with O => None | S l => region l b bpos EmptyString end)
    (S (String.length p)) p pos out.

Lemma append_no_dangling out s pos : append out s pos <> Dangling.
Proof using Type. unfold sb_append_limited. destruct (is_empty_string s); [done|]. by destruct (_ || _). Qed.

Lemma substitute_loop_no_dangling n sb prev p idx pos :
  substitute_loop src limits n sb prev p idx pos <> Dangling.
Proof using Type.
  revert sb prev p. induction n as [|n IH]; intros sb prev p; [done|]. cbn [substitute_loop].
  destruct (is_empty_string p); [done|]. destruct (find_idx prev p) as [[b r]|]; [|apply append_no_dangling].
  unfold mbind, Outcome_bind. pose proof (append_no_dangling sb b pos) as H1.
  destruct (append sb b pos) as [sb'| |]; [|done|done].
  pose proof (append_no_dangling sb' (idx_text idx) pos) as H2.
  destruct (append sb' (idx_text idx) pos); [apply IH|done|done].
Qed.

Lemma substitute_all_no_dangling sb b first count pos : substitute_all sb b first count pos <> Dangling.
Proof using Type.
  revert sb first. induction count as [|count IH]; intros sb first; [done|]. cbn [Repeat.substitute_all].
  unfold mbind, Outcome_bind, substitute_idx.
  pose proof (substitute_loop_no_dangling (S (String.length b)) sb None b first pos) as H.
  destruct (substitute_loop _ _ _ _ _ _ _ _); [apply IH|done|done].
Qed.

Lemma read_directive_no_dangling p pos : read_directive p pos <> Dangling.
Proof using Type.
  unfold Repeat.read_directive. destruct (negb _); [done|]. destruct (scan_count _ _ _) as [[v o] q].
  destruct (v =? 0)%Z; [done|]. destruct (o || _); [done|]. by destruct (find_matching_end _ _ _).
Qed.

(** Enough levels: the reference is total and has no dangling address. *)
Lemma region_loop_total body n p pos out :
  (forall b bpos, String.length b + 11 <= String.length p ->
     exists r, body b bpos = Some r /\ r <> Dangling) ->
  String.length p < n -> exists r, region_loop body n p pos out = Some r /\ r <> Dangling.
Proof using Type.
  revert p pos out. induction n as [|n IH]; intros p pos out Hb Hn; [lia|]. cbn [region_loop].
  destruct (is_empty_string p) eqn:Ep; [by eexists|]. destruct (skip_copied p) as [q|] eqn:Eq.
  - destruct (skip_copied_suffix _ _ Eq) as (c & r & -> & Hr). apply suffix_length in Hr. cbn in Hn.
    pose proof (append_no_dangling out (between (String c r) q) pos) as Ha.
    destruct (append _ _ _) as [out'| |]; [|by eexists|done].
    apply IH; [intros b bpos Hl; apply Hb; cbn; lia|lia].
  - pose proof (read_directive_no_dangling p pos) as Hd.
    destruct (read_directive p pos) as [d| |] eqn:Ed; [|by eexists|done].
    pose proof (read_directive_length _ _ _ _ _ Ed Eq ltac:(by intros ->)) as Hl.
    destruct (Hb (dir_body d) (dir_body_pos d)) as (r & -> & Hr); [lia|].
    destruct r as [b| |]; [|by eexists|done].
    pose proof (substitute_all_no_dangling out b 0 (dir_count d) pos) as Ha.
    destruct (substitute_all _ _ _ _ _); [|by eexists|done].
    apply IH; [intros b' bpos Hl'; apply Hb; lia|lia].
Qed.

Lemma region_total levels p pos out :
  String.length p <= levels -> exists r, region levels p pos out = Some r /\ r <> Dangling.
Proof using Type.
  revert p pos out. induction levels as [|levels IH]; intros p pos out Hl; cbn [region];
    apply region_loop_total; [|lia| |lia]; intros b bpos Hb; [lia|]. apply IH. lia.
Qed.

(** ** The machine *)

Variable moves : nat -> bool.
Notation rounds := (expand_rounds src limits moves).

(** No address dangles while at most [levels] frames are pushed. *)
Definition steady (st : RepeatFrameStack) (levels : nat) : Prop :=
  Forall (fun f => out_valid st f = true) (st_frames st) /\
  ((forall cap, moves cap = false) \/ (st_cap st = 8 /\ length (st_frames st) + levels <= 8)).

Lemma push_steady st levels p pos :
  steady st (S levels) -> steady (repeat_frame_stack_push moves p pos true st) levels.
Proof using Type.
  intros [Hv Hm]. unfold repeat_frame_stack_push. set (full := length (st_frames st) =? st_cap st).
  assert (forall cap, full && moves cap = false) as Hmove.
  { intros cap. destruct Hm as [Hm|[Hc Hl]]; [rewrite Hm; apply andb_false_r|].
    unfold full. rewrite Hc. destruct (Nat.eqb_spec (length (st_frames st)) 8); [lia|done]. }
  rewrite Hmove. split; cbn.
  - constructor; [cbn; by rewrite Nat.eqb_refl|]. eapply List.Forall_impl; [|exact Hv]. by intros f.
  - destruct Hm as [Hm|[Hc Hl]]; [by left|right]. unfold full. rewrite Hc.
    destruct (Nat.eqb_spec (length (st_frames st)) 8); [lia|]. split; [done|lia].
Qed.

Lemma steady_frames st levels fs :
  steady st levels -> Forall (fun f => out_valid st f = true) fs -> length fs <= length (st_frames st) ->
  steady (with_frames fs st) levels.
Proof using Type. intros [Hv Hm] Hf Hl. split; [exact Hf|]. destruct Hm as [Hm|[Hc Hm]]; [by left|right]. cbn. split; [done|lia]. Qed.

(** From a stack whose innermost frame is at [p], the machine reaches the end of
    the region with the output of the reference, or its refusal. *)
Definition simulates (levels : nat) (p : string) (pos : nat) (out : string) (res : option (Outcome string)) : Prop :=
  forall st blk pend below r,
    res = Some r -> st_frames st = mkFrame p pos out blk pend :: below -> steady st levels ->
    match r with
    | Done b => exists k st' pos' pend', k <= 2 * String.length p /\
        (forall m, rounds (k + m) st = rounds m st') /\
        st_frames st' = mkFrame EmptyString pos' b blk pend' :: below /\ steady st' levels
    | Refused d => exists k, k <= 2 * String.length p /\ forall m, rounds (k + S m) st = Some (Refused d)
    | Dangling => False
    end.

(** One round, and then a simulation from a shorter text. *)
Lemma simulates_step levels p res st st1 p1 pos1 out1 blk pend1 below r j :
  (forall m, rounds (j + m) st = rounds m st1) -> j + 2 * String.length p1 <= 2 * String.length p ->
  st_frames st1 = mkFrame p1 pos1 out1 blk pend1 :: below -> steady st1 levels ->
  simulates levels p1 pos1 out1 res -> res = Some r ->
  match r with
  | Done b => exists k st' pos' pend', k <= 2 * String.length p /\
      (forall m, rounds (k + m) st = rounds m st') /\
      st_frames st' = mkFrame EmptyString pos' b blk pend' :: below /\ steady st' levels
  | Refused d => exists k, k <= 2 * String.length p /\ forall m, rounds (k + S m) st = Some (Refused d)
  | Dangling => False
  end.
Proof using Type.
  intros Hj Hl Hf Hs Hsim ->. specialize (Hsim st1 blk pend1 below r eq_refl Hf Hs). destruct r as [b|d|]; [| |done].
  - destruct Hsim as (k & st' & pos' & pend' & H1 & H2 & H3). exists (j + k), st', pos', pend'.
    split_and!; [lia| |apply H3..]. intros m. by rewrite <- Nat.add_assoc, Hj.
  - destruct Hsim as (k & H1 & H2). exists (j + k). split; [lia|]. intros m. by rewrite <- Nat.add_assoc, Hj.
Qed.

Lemma valid_top st levels f below : steady st levels -> st_frames st = f :: below ->
  out_valid st f = true /\ Forall (fun f => out_valid st f = true) below.
Proof using Type. intros [Hv _] E. rewrite E in Hv. by inversion Hv. Qed.

Lemma loop_simulates levels body n p pos out :
  (forall b bpos, levels = 0 -> body b bpos = None) ->
  (forall b bpos l, levels = S l -> simulates l b bpos EmptyString (body b bpos)) ->
  simulates levels p pos out (region_loop body n p pos out).
Proof using Type.
  intros H0 Hbody. revert p pos out. induction n as [|n IH]; intros p pos out; [by intros st blk pend below r|].
  intros st blk pend below r Hr Hf Hs. cbn [region_loop] in Hr.
  destruct (valid_top _ _ _ _ Hs Hf) as [Hv Hb].
  destruct (is_empty_string p) eqn:Ep.
  { destruct p; [|done]. injection Hr as <-. exists 0, st, pos, pend. split_and!; [lia|done|done|done]. }
  destruct (skip_copied p) as [q|] eqn:Eq.
  - assert (expand_round src limits moves st =
      (out' ← append out (between p q) pos;
       Done (inl (with_frames (mkFrame q (pos + String.length (between p q)) out' blk None :: below) st)))) as Hround.
    { unfold expand_round. rewrite Hf. cbn [fr_text]. rewrite Ep, Eq, Hv. reflexivity. }
    destruct (skip_copied_suffix _ _ Eq) as (c & t & -> & Hsuf). apply suffix_length in Hsuf.
    pose proof (append_no_dangling out (between (String c t) q) pos) as Hnd.
    destruct (append out _ pos) as [out'|d|]; [| |done].
    + eapply (simulates_step _ _ _ st (with_frames (mkFrame q _ out' blk None :: below) st) q _ out' blk None below r 1); [| |reflexivity| |apply IH|exact Hr].
      * intros m. cbn [Nat.add expand_rounds]. by rewrite Hround.
      * cbn [String.length]. lia.
      * apply steady_frames; [done|by constructor|by rewrite Hf].
    + injection Hr as <-. exists 0. split; [lia|]. intros m. cbn [Nat.add expand_rounds]. by rewrite Hround.
  - pose proof (read_directive_no_dangling p pos) as Hnd.
    assert (expand_round src limits moves st =
      (d ← read_directive p pos;
       Done (inl (repeat_frame_stack_push moves (dir_body d) (dir_body_pos d) true
         (with_frames (mkFrame p pos out blk (Some (mkPending (dir_count d) pos (dir_end d) (dir_end_pos d))) :: below) st))))) as Hround.
    { unfold expand_round. rewrite Hf. cbn [fr_text]. rewrite Ep, Eq. reflexivity. }
    destruct (read_directive p pos) as [d|d|] eqn:Ed; [| |done].
    2: { injection Hr as <-. exists 0. split; [lia|]. intros m. cbn [Nat.add expand_rounds]. by rewrite Hround. }
    pose proof (read_directive_length _ _ _ _ _ Ed Eq ltac:(by intros ->)) as Hlen.
    destruct levels as [|l]; [by rewrite H0 in Hr|].
    destruct (body (dir_body d) (dir_body_pos d)) as [rb|] eqn:Eb; [|done].
    set (f' := mkFrame p pos out blk (Some (mkPending (dir_count d) pos (dir_end d) (dir_end_pos d)))) in *.
    set (st1 := repeat_frame_stack_push moves (dir_body d) (dir_body_pos d) true (with_frames (f' :: below) st)) in *.
    assert (steady st1 l) as Hs1.
    { apply push_steady, steady_frames; [done|by constructor|by rewrite Hf]. }
    pose proof (Hbody (dir_body d) (dir_body_pos d) l eq_refl st1 _ None (f' :: below) rb Eb eq_refl Hs1) as Hsim.
    destruct rb as [b|e|]; [| |done].
    2: { injection Hr as <-. destruct Hsim as (k & Hk & Hk'). exists (S k). split; [lia|]. intros m.
         cbn [Nat.add expand_rounds]. rewrite Hround. apply Hk'. }
    destruct Hsim as (k & st2 & pos' & pend' & Hk & Hk' & Hf2 & Hs2).
    destruct (valid_top _ _ _ _ Hs2 Hf2) as [Hv2 Hb2]. inversion Hb2 as [|? ? Hvf Hvb]; subst.
    assert (expand_round src limits moves st2 =
      (out' ← substitute_all out b 0 (dir_count d) pos;
       Done (inl (with_frames (mkFrame (after_directive d)
         (dir_end_pos d + (String.length (dir_end d) - String.length (after_directive d))) out' blk None :: below) st2)))) as Hround2.
    { unfold expand_round. rewrite Hf2. cbn [fr_text is_empty_string fr_pending f']. rewrite Hv2, Hvf. reflexivity. }
    pose proof (substitute_all_no_dangling out b 0 (dir_count d) pos) as Hnd2.
    assert (forall m, rounds (S k + S m) st = rounds (S m) st2) as Hrun.
    { intros m. rewrite <- Hk'. cbn [Nat.add]. remember (k + S m) as j. cbn [expand_rounds]. by rewrite Hround. }
    destruct (substitute_all out b 0 (dir_count d) pos) as [out'|e|]; [| |done].
    + eapply (simulates_step _ _ _ st (with_frames (mkFrame (after_directive d) _ out' blk None :: below) st2)
        (after_directive d) _ out' blk None below r (S k + 1));
        [| |reflexivity| |apply IH|exact Hr].
      * intros m. rewrite <- Nat.add_assoc, Hrun. cbn [expand_rounds]. by rewrite Hround2.
      * lia.
      * destruct Hs2 as [Hv' Hm]. split; [by constructor|]. destruct Hm as [Hm|[Hc Hm]]; [by left|right].
        rewrite Hf2 in Hm. split; [done|]. cbn in *. lia.
    + injection Hr as <-. exists (S k). split; [lia|]. intros m. rewrite Hrun. cbn [expand_rounds].
      by rewrite Hround2.
Qed.

Lemma region_simulates levels p pos out : simulates levels p pos out (region levels p pos out).
Proof using Type.
  revert p pos out. induction levels as [|levels IH]; intros p pos out; cbn [region]; apply loop_simulates; try done.
  intros b bpos l [= <-]. apply IH.
Qed.

Lemma expand_region_simulates levels r :
  (forall cap, moves cap = false) \/ levels <= 7 ->
  region levels src 0 EmptyString = Some r -> expand_region src limits moves src = Some r.
Proof using Type.
  intros Hm Hr. unfold expand_region. set (st := repeat_frame_stack_push moves src 0 false (mkFrames [] 0 0)).
  assert (steady st levels) as Hs.
  { split; [by repeat constructor|]. destruct Hm as [Hm|Hm]; [by left|right]. split; [done|]. cbn. lia. }
  pose proof (region_simulates levels src 0 EmptyString st None None [] r Hr eq_refl Hs) as H.
  destruct r as [b|d|]; [| |done].
  - destruct H as (k & st' & pos' & pend' & Hk & Hrun & Hf & _).
    replace (2 * String.length src + 1) with (k + S (2 * String.length src - k)) by lia.
    rewrite Hrun. cbn [expand_rounds]. unfold expand_round. by rewrite Hf.
  - destruct H as (k & Hk & Hrun).
    replace (2 * String.length src + 1) with (k + S (2 * String.length src - k)) by lia. apply Hrun.
Qed.
End Machine.

(** ** When blocks move *)

(** Two stacks that differ in the blocks they are in only. *)
Definition frame_view (f : RepeatFrame) := (fr_text f, fr_pos f, fr_out f, fr_pending f).

Definition same_stack (st st' : RepeatFrameStack) : Prop :=
  map frame_view (st_frames st) = map frame_view (st_frames st') /\ st_cap st = st_cap st'.

Definition same_round (o o' : Outcome (RepeatFrameStack + string)) : Prop :=
  o = Dangling \/ o' = Dangling \/
  match o, o' with
  | Done (inl st), Done (inl st') => same_stack st st'
  | Done (inr s), Done (inr s') => s = s'
  | Refused d, Refused d' => d = d'
  | _, _ => False
  end.

Lemma push_same moves moves' p pos owns st st' : same_stack st st' ->
  same_stack (repeat_frame_stack_push moves p pos owns st) (repeat_frame_stack_push moves' p pos owns st').
Proof.
  intros [Hf Hc]. unfold repeat_frame_stack_push. cbv zeta.
  assert (length (st_frames st) = length (st_frames st')) as -> by (apply (f_equal length) in Hf; by rewrite !length_map in Hf).
  rewrite Hc. split; cbn; [by rewrite Hf|done].
Qed.

Lemma expand_round_same src limits moves moves' st st' : same_stack st st' ->
  same_round (expand_round src limits moves st) (expand_round src limits moves' st').
Proof.
  intros [Hf Hc]. unfold expand_round. destruct (st_frames st) as [|f below], (st_frames st') as [|f' below']; try done.
  { by right; right. }
  cbn in Hf. injection Hf as E1 E2 E3 E4 Hb. rewrite <- E1, <- E2, <- E3. destruct (is_empty_string (fr_text f)).
  - destruct below as [|parent below], below' as [|parent' below']; try done; [by right; right|].
    cbn in Hb. injection Hb as F1 F2 F3 F4 Hb. rewrite <- F2, <- F3, <- F4. destruct (fr_pending parent) as [pd|]; [|by right; right].
    destruct (negb (out_valid st f)); [by left|]. destruct (_ && _); [by left|].
    destruct (negb (out_valid st' f')); [by right; left|]. destruct (_ && _); [by right; left|].
    unfold mbind, Outcome_bind. destruct (substitute_all _ _ _ _ _ _ _); [|by right; right|by left].
    right; right. split; cbn; [|done]. by rewrite Hb.
  - destruct (skip_copied (fr_text f)) as [q|].
    + destruct (_ && _); [by left|]. destruct (_ && _); [by right; left|]. unfold mbind, Outcome_bind.
      destruct (sb_append_limited _ _ _ _ _); [|by right; right|by left]. right; right. split; cbn; [|done]. by rewrite Hb.
    + unfold mbind, Outcome_bind. destruct (read_directive _ _ _ _); [|by right; right|by left]. right; right.
      apply push_same. split; cbn; [|done]. f_equal. exact Hb.
Qed.

Lemma expand_rounds_same src limits moves moves' n : forall st st', same_stack st st' ->
  expand_rounds src limits moves n st = Some Dangling \/ expand_rounds src limits moves' n st' = Some Dangling \/
  expand_rounds src limits moves n st = expand_rounds src limits moves' n st'.
Proof.
  induction n as [|n IH]; intros st st' Hs; [by right; right|]. cbn [expand_rounds].
  destruct (expand_round_same src limits moves moves' st st' Hs) as [->|[->|H]]; [by left|by right; left|].
  destruct (expand_round src limits moves st) as [[u|s]| |], (expand_round src limits moves' st') as [[u'|s']| |]; try done.
  - by apply IH.
  - right; right. by rewrite H.
  - right; right. by rewrite H.
Qed.

(** Whatever moves, the outcome is that of the reference or a dangling
    address. *)
Lemma expand_region_or_dangles src limits moves levels r :
  region src limits levels src 0 EmptyString = Some r -> r <> Dangling ->
  expand_region src limits moves src = Some r \/ expand_region src limits moves src = Some Dangling.
Proof.
  intros Hr Hd. assert (expand_region src limits (fun _ => false) src = Some r) as H
    by (apply (expand_region_simulates src limits (fun _ => false) levels); [by left|done]).
  unfold expand_region in *.
  destruct (expand_rounds_same src limits moves (fun _ => false) (2 * String.length src + 1)
    (repeat_frame_stack_push moves src 0 false (mkFrames [] 0 0))
    (repeat_frame_stack_push (fun _ => false) src 0 false (mkFrames [] 0 0))) as [E|[E|E]]; [by apply push_same|by right| |].
  - rewrite H in E. by injection E as ->.
  - left. by rewrite E.
Qed.

(** * What the expansion of repetitions guarantees

    A [Source] is a text by its structure, [render] writes it, and [expansion]
    is what it stands for; the expansion of its text is that.  The end of the
    file has what goes wrong: addresses that dangle, and block comments. *)


Local Open Scope nat_scope.

(** ** Sources *)

(** A source: lines without directives, comments, string literals and
    repetitions, whose counts are given by their digits. *)
Inductive Source :=
  | SEnd
  | SLine (s : string) (k : Source)
  | SComment (s : string) (k : Source)
  | SLiteral (s : string) (k : Source)
  | SRepeat (digits : string) (b k : Source).

Local Notation "s +++ t" := (String.append s t) (at level 60, right associativity).
Definition line_end : string := String newline EmptyString.
Definition one_quote : string := String quote EmptyString.

Fixpoint render (t : Source) : string :=
  match t with
  | SEnd => EmptyString
  | SLine s k => s +++ render k
  | SComment s k => "//" +++ s +++ line_end +++ render k
  | SLiteral s k => one_quote +++ s +++ one_quote +++ render k
  | SRepeat digits b k => "@repeat " +++ digits +++ line_end +++ render b +++ "@end" +++ line_end +++ render k
  end.

(** Every [IDX] that stands alone replaced by [idx]; [prev] comes before. *)
Fixpoint replace_idx (idx : string) (prev : option ascii) (s : string) : string :=
  match s with
  | EmptyString => EmptyString
  | String c s' =>
      match s' with
      | String _ (String _ s3) =>
          if match prev with None => true | Some b => negb (is_word_char b) end && at_directive "IDX" s
          then idx +++ replace_idx idx (Some "X"%char) s3
          else String c (replace_idx idx (Some c) s')
      | _ => String c (replace_idx idx (Some c) s')
      end
  end.

Definition copies (n : nat) (s : string) : string :=
  fold_right (fun i r => replace_idx (idx_text i) None s +++ r) EmptyString (List.seq 0 n).

Definition count_of (digits : string) : nat := Z.to_nat (digits_value digits 0).

Fixpoint expansion (t : Source) : string :=
  match t with
  | SEnd => EmptyString
  | SLine s k => s +++ expansion k
  | SComment s k => "//" +++ s +++ line_end +++ expansion k
  | SLiteral s k => one_quote +++ s +++ one_quote +++ expansion k
  | SRepeat digits b k => copies (count_of digits) (expansion b) +++ expansion k
  end.

Fixpoint nesting (t : Source) : nat :=
  match t with
  | SEnd => 0
  | SLine _ k | SComment _ k | SLiteral _ k => nesting k
  | SRepeat _ b k => Nat.max (S (nesting b)) (nesting k)
  end.

(** Text in which nothing starts a comment, a literal or a directive, up to a
    blank at its end. *)
Definition is_blank (c : ascii) : bool := Ascii.eqb c " " || Ascii.eqb c newline.
Fixpoint ends_blank (s : string) : bool :=
  match s with
  | EmptyString => false
  | String c EmptyString => is_blank c
  | String _ s' => ends_blank s'
  end.
Fixpoint plain (s : string) : bool :=
  match s with
  | EmptyString => true
  | String c s' =>
      negb (at_comment s) && negb (Ascii.eqb c quote) && negb (at_directive "@repeat" s) &&
      negb (at_directive "@end" s) && plain s'
  end.
Fixpoint none_of (cs : list ascii) (s : string) : bool :=
  match s with
  | EmptyString => true
  | String c s' => negb (List.existsb (Ascii.eqb c) cs) && none_of cs s'
  end.

Fixpoint source_ok (limits : RepeatLimits) (t : Source) : Prop :=
  match t with
  | SEnd => True
  | SLine s k => plain s = true /\ ends_blank s = true /\ source_ok limits k
  | SComment s k => none_of [newline] s = true /\ source_ok limits k
  | SLiteral s k => none_of [newline; quote; backslash] s = true /\ source_ok limits k
  | SRepeat digits b k =>
      digits <> EmptyString /\ all_digits digits = true /\
      (1 <= digits_value digits 0 <= repeat_max_count limits)%Z /\
      (Z.of_nat (String.length (expansion b)) <= repeat_max_bytes limits)%Z /\
      source_ok limits b /\ source_ok limits k
  end.

(** *** The scanners on a source *)

Definition no_blank (d : string) : bool := none_of [" "%char; newline] d.

Lemma strip_prefix_blank d s r : ends_blank s = true -> no_blank d = true ->
  strip_prefix d (s +++ r) = option_map (fun x => x +++ r) (strip_prefix d s) /\
  (forall x, strip_prefix d s = Some x -> ends_blank x = true).
Proof.
  revert d. induction s as [|c s IH]; intros d Hs Hd; [done|]. destruct d as [|a d]; [by split; [done|intros x [= <-]]|].
  rewrite append_cons. cbn [strip_prefix]. destruct (Ascii.eqb_spec a c) as [->|]; [|by split].
  cbn [no_blank none_of] in Hd. apply andb_true_iff in Hd as [Hc Hd]. destruct s as [|c' s].
  - exfalso. cbn in Hs, Hc. unfold is_blank in Hs. rewrite orb_false_r, Hs in Hc. done.
  - apply IH; done.
Qed.

Lemma at_directive_blank d s r : ends_blank s = true -> no_blank d = true ->
  at_directive d (s +++ r) = at_directive d s.
Proof.
  intros Hs Hd. destruct (strip_prefix_blank d s r Hs Hd) as [E1 E2]. unfold at_directive. rewrite E1.
  destruct (strip_prefix d s) as [x|]; [|done]. cbn. specialize (E2 x eq_refl). by destruct x.
Qed.

Lemma at_comment_other c p : Ascii.eqb c "/" = false -> at_comment (String c p) = false.
Proof. destruct p; [done|]. cbn. by intros ->. Qed.

Lemma at_comment_blank s r : ends_blank s = true -> at_comment (s +++ r) = at_comment s.
Proof.
  destruct s as [|c [|c' s]]; [done| |done]. intros Hs. cbn in Hs. rewrite append_cons, append_empty.
  cbn. destruct r as [|c' r]; [done|]. unfold is_blank in Hs. destruct (Ascii.eqb_spec c "/"); [by subst|done].
Qed.

(** The search for [@end] passes over [s]. *)
Definition passes (s : string) : Prop :=
  forall n d r, 0 < d -> String.length (s +++ r) < n ->
    exists n', String.length r < n' /\ find_matching_end n d (s +++ r) = find_matching_end n' d r.

Lemma passes_append s t : passes s -> passes t -> passes (s +++ t).
Proof.
  intros Hs Ht n d r Hd Hn. rewrite append_assoc in *. destruct (Hs n d (t +++ r) Hd Hn) as (n1 & H1 & ->).
  apply Ht; done.
Qed.

Lemma passes_empty : passes EmptyString.
Proof. intros n d r Hd Hn. by exists n. Qed.

Lemma plain_cons c s : plain (String c s) = true -> ends_blank (String c s) = true -> forall r,
  at_comment (String c (s +++ r)) = false /\ Ascii.eqb c quote = false /\
  at_directive "@repeat" (String c (s +++ r)) = false /\ at_directive "@end" (String c (s +++ r)) = false /\
  plain s = true /\ (s = EmptyString \/ ends_blank s = true).
Proof.
  intros Hp He r. cbn [plain] in Hp. apply andb_true_iff in Hp as [Hp H5]. apply andb_true_iff in Hp as [Hp H4].
  apply andb_true_iff in Hp as [Hp H3]. apply andb_true_iff in Hp as [H1 H2]. rewrite negb_true_iff in *.
  rewrite <- append_cons, at_comment_blank, !at_directive_blank by done.
  split_and!; [done..|]. destruct s; [by left|by right].
Qed.

Lemma passes_line s : plain s = true -> ends_blank s = true -> passes s.
Proof.
  induction s as [|c s IH]; intros Hp He; [done|]. intros n d r Hd Hn.
  destruct (plain_cons c s Hp He r) as (H1 & H2 & H3 & H4 & Hp' & He').
  rewrite append_cons in *. destruct n as [|n]; [lia|]. cbn [find_matching_end]. rewrite H1, H2, H3, H4.
  cbn [String.length] in Hn. destruct He' as [->|He'].
  - rewrite append_empty in *. exists n. split; [lia|done].
  - apply IH; [done|done|done|lia].
Qed.

Lemma passes_newline : passes line_end.
Proof. by apply passes_line. Qed.

Lemma drop_while_none f s c r :
  string_forall f s = true -> f c = false -> drop_while f (s +++ String c r) = String c r.
Proof.
  intros Hs Hc. induction s as [|a s IH]; [rewrite append_empty; cbn; by rewrite Hc|].
  rewrite append_cons. cbn in *. apply andb_true_iff in Hs as [-> Hs]. by apply IH.
Qed.

Lemma skip_comment_line s r : none_of [newline] s = true -> skip_comment (s +++ line_end +++ r) = (line_end +++ r).
Proof.
  intros Hs. unfold skip_comment. apply drop_while_none; [|done].
  induction s as [|a s IH]; [done|]. cbn [none_of List.existsb string_forall] in *.
  apply andb_true_iff in Hs as [Ha Hs]. by rewrite orb_false_r in Ha; rewrite Ha, IH.
Qed.

Lemma passes_comment s : none_of [newline] s = true -> passes ("//" +++ s +++ line_end).
Proof.
  intros Hs n d r Hd Hn. rewrite !append_assoc in *. destruct n as [|n]; [lia|].
  change ("//" +++ s +++ line_end +++ r) with (String "/" (String "/" (s +++ line_end +++ r))) in *.
  change (find_matching_end (S n) d (String "/" (String "/" (s +++ line_end +++ r)))) with
    (find_matching_end n d (skip_comment (String "/" (String "/" (s +++ line_end +++ r))))).
  assert (skip_comment (String "/" (String "/" (s +++ line_end +++ r))) = (line_end +++ r)) as ->.
  { unfold skip_comment. cbn [drop_while]. by apply skip_comment_line. }
  apply passes_newline; [done|]. cbn [String.length] in Hn. rewrite !length_append in *. cbn in *. lia.
Qed.

Lemma skip_literal_close s r : none_of [newline; quote; backslash] s = true ->
  skip_literal (s +++ one_quote +++ r) = (one_quote +++ r).
Proof.
  induction s as [|a s IH]; [done|]. intros Hs. cbn [none_of List.existsb] in Hs.
  apply andb_true_iff in Hs as [Ha Hs]. rewrite append_cons. cbn [skip_literal].
  destruct (Ascii.eqb a newline); [done|]. destruct (Ascii.eqb a quote); [done|].
  destruct (Ascii.eqb a backslash); [done|]. by apply IH.
Qed.

Lemma passes_literal s : none_of [newline; quote; backslash] s = true -> passes (one_quote +++ s +++ one_quote).
Proof.
  intros Hs n d r Hd Hn. rewrite !append_assoc in *. destruct n as [|n]; [lia|].
  change (one_quote +++ s +++ one_quote +++ r) with (String quote (s +++ one_quote +++ r)) in *.
  cbn [find_matching_end]. rewrite at_comment_other by done. rewrite Ascii.eqb_refl, skip_literal_close by done. exists n. split; [|done].
  cbn [String.length] in Hn. rewrite !length_append in Hn. lia.
Qed.

Lemma digit_in_line c : isdigit c = true ->
  Ascii.eqb c "/" = false /\ Ascii.eqb c quote = false /\ Ascii.eqb c "@" = false /\ is_blank c = false.
Proof.
  intros H. split_and!; [apply Ascii.eqb_neq; intros ->; done..|]. unfold is_blank.
  apply orb_false_iff. split; apply Ascii.eqb_neq; intros ->; done.
Qed.

Lemma plain_digits ds : all_digits ds = true -> plain (ds +++ line_end) = true /\ ends_blank (ds +++ line_end) = true.
Proof.
  induction ds as [|c ds IH]; intros H; [done|]. cbn [all_digits] in H. apply andb_true_iff in H as [Hc Hds].
  destruct (IH Hds) as [H1 H2]. destruct (digit_in_line c Hc) as (E1 & E2 & E3 & _). rewrite append_cons.
  split.
  - cbn [plain]. rewrite H1, E2. unfold at_directive. cbn [strip_prefix]. rewrite (Ascii.eqb_sym "@" c), E3.
    destruct (ds +++ line_end); [done|]. cbn [at_comment]. by rewrite E1.
  - destruct (ds +++ line_end) eqn:E; [done|]. exact H2.
Qed.

Lemma passes_directive ds : all_digits ds = true -> forall b, passes b ->
  passes ("@repeat " +++ ds +++ line_end +++ b +++ "@end" +++ line_end).
Proof.
  intros Hds b Hb n d r Hd Hn. destruct (plain_digits ds Hds) as [Hp He].
  assert (passes (" " +++ ds +++ line_end)) as Hline.
  { apply passes_line; [|by destruct ds].
    change (" " +++ ds +++ line_end) with (String " " (ds +++ line_end)). cbn [plain]. rewrite Hp.
    destruct (ds +++ line_end); done. }
  rewrite !append_assoc in *. destruct n as [|n]; [lia|].
  change (find_matching_end (S n) d ("@repeat " +++ ds +++ line_end +++ b +++ "@end" +++ line_end +++ r)) with
    (find_matching_end n (S d) (" " +++ ds +++ line_end +++ b +++ "@end" +++ line_end +++ r)).
  destruct (Hline n (S d) (b +++ "@end" +++ line_end +++ r)) as (n1 & Hn1 & E1);
    [lia|rewrite !length_append in *; cbn [String.length] in *; lia|].
  rewrite !append_assoc in E1. rewrite E1.
  destruct (Hb n1 (S d) ("@end" +++ line_end +++ r)) as (n2 & Hn2 & ->); [lia|done|].
  destruct n2 as [|n2]; [lia|]. destruct d as [|d]; [lia|].
  change (find_matching_end (S n2) (S (S d)) ("@end" +++ line_end +++ r)) with
    (find_matching_end n2 (S d) (line_end +++ r)).
  apply passes_newline; [done|]. rewrite length_append in Hn2. cbn [String.length] in *. lia.
Qed.

Lemma passes_render limits t : source_ok limits t -> passes (render t).
Proof.
  induction t as [|s k IH|s k IH|s k IH|ds b IHb k IH]; cbn [source_ok render]; intros H; [apply passes_empty|..].
  - destruct H as (H1 & H2 & H3). apply passes_append; [by apply passes_line|auto].
  - destruct H as (H1 & H2). rewrite <- (append_assoc s), <- (append_assoc "//").
    apply passes_append; [by apply passes_comment|auto].
  - destruct H as (H1 & H2). rewrite <- (append_assoc s), <- (append_assoc one_quote).
    apply passes_append; [by apply passes_literal|auto].
  - destruct H as (_ & H1 & _ & _ & H2 & H3).
    rewrite <- (append_assoc "@end"), <- (append_assoc (render b)), <- (append_assoc line_end),
      <- (append_assoc ds), <- (append_assoc "@repeat ").
    apply passes_append; [apply passes_directive; auto|auto].
Qed.

(** *** Substitution *)

Lemma directive_idx p : at_directive "IDX" p = true -> exists r, p = String "I" (String "D" (String "X" r)).
Proof. intros H. apply directive_prefix in H as [r ->]. by exists r. Qed.

Lemma replace_idx_step idx prev c p :
  replace_idx idx prev (String c p) =
    if match prev with None => true | Some b => negb (is_word_char b) end && at_directive "IDX" (String c p)
    then idx +++ replace_idx idx (Some "X"%char) (drop_text 2 p)
    else String c (replace_idx idx (Some c) p).
Proof.
  destruct p as [|c1 [|c2 p]]; [| |done]; cbn [replace_idx drop_text].
  - destruct (_ && at_directive "IDX" (String c EmptyString)) eqn:E; [|done].
    apply andb_true_iff in E as [_ [r [=]]%directive_idx].
  - destruct (_ && at_directive "IDX" (String c (String c1 EmptyString))) eqn:E; [|done].
    apply andb_true_iff in E as [_ [r [=]]%directive_idx].
Qed.

Lemma find_idx_replace idx prev p :
  match find_idx prev p with
  | Some (b, rest) => replace_idx idx prev p = (b +++ idx +++ replace_idx idx (Some "X"%char) rest) /\
      String.length rest + 3 <= String.length p
  | None => replace_idx idx prev p = p
  end.
Proof.
  revert prev. induction p as [|c p IH]; intros prev; [done|]. rewrite replace_idx_step. cbn [find_idx].
  destruct (_ && at_directive "IDX" (String c p)) eqn:E.
  - apply andb_true_iff in E as [_ [r [= -> ->]]%directive_idx]. split; [done|cbn; lia].
  - specialize (IH (Some c)). destruct (find_idx (Some c) p) as [[b rest]|]; cbn [option_map fst snd].
    + destruct IH as [-> Hl]. cbn. split; [done|lia].
    + by rewrite IH.
Qed.

Lemma digits_value_grows ds v : (0 <= v)%Z -> all_digits ds = true -> (v <= digits_value ds v)%Z.
Proof.
  revert v. induction ds as [|c ds IH]; intros v Hv Hd; cbn in *; [lia|].
  apply andb_true_iff in Hd as [Hc Hd]. rewrite Hc. unfold isdigit, in_codes in Hc.
  specialize (IH (10 * v + (code c - 48))%Z ltac:(lia) Hd). lia.
Qed.

Section Fits.
Context (src : string) (limits : RepeatLimits).
Notation append := (sb_append_limited src limits).
Definition fits (s : string) : Prop := (Z.of_nat (String.length s) <= repeat_max_bytes limits)%Z.

Lemma fits_append s t : fits (s +++ t) -> fits s.
Proof using Type. unfold fits. rewrite length_append. lia. Qed.

Lemma append_fits out s pos : fits (out +++ s) -> append out s pos = Done (out +++ s).
Proof using Type.
  unfold fits, sb_append_limited. intros H. rewrite length_append in H.
  destruct (is_empty_string s) eqn:E; [destruct s; [by rewrite append_nil_r|done]|].
  destruct (Z.ltb_spec (repeat_max_bytes limits) (Z.of_nat (String.length out))); [lia|].
  destruct (Z.ltb_spec (repeat_max_bytes limits - Z.of_nat (String.length out)) (Z.of_nat (String.length s))); [lia|done].
Qed.

Lemma substitute_loop_replace n sb prev p idx pos :
  String.length p < n -> fits (sb +++ replace_idx (idx_text idx) prev p) ->
  substitute_loop src limits n sb prev p idx pos = Done (sb +++ replace_idx (idx_text idx) prev p).
Proof using Type.
  revert sb prev p. induction n as [|n IH]; intros sb prev p Hn Hf; [lia|]. cbn [substitute_loop].
  destruct (is_empty_string p) eqn:E; [destruct p; [by rewrite append_nil_r|done]|].
  pose proof (find_idx_replace (idx_text idx) prev p) as H. destruct (find_idx prev p) as [[b rest]|].
  - destruct H as [E1 Hl]. rewrite E1 in *. rewrite <- !append_assoc in *. unfold mbind, Outcome_bind.
    rewrite append_fits by (by do 2 eapply fits_append). rewrite append_fits by (by eapply fits_append).
    apply IH; [lia|done].
  - rewrite H in *. by apply append_fits.
Qed.

Lemma substitute_all_copies sb b first count pos :
  fits (sb +++ fold_right (fun i r => replace_idx (idx_text i) None b +++ r) EmptyString (List.seq first count)) ->
  substitute_all src limits sb b first count pos =
    Done (sb +++ fold_right (fun i r => replace_idx (idx_text i) None b +++ r) EmptyString (List.seq first count)).
Proof using Type.
  revert sb first. induction count as [|count IH]; intros sb first Hf; cbn [List.seq fold_right substitute_all] in *;
    [by rewrite append_nil_r|].
  rewrite <- append_assoc in *. unfold substitute_idx, mbind, Outcome_bind.
  rewrite substitute_loop_replace by (try lia; by eapply fits_append). by apply IH.
Qed.

(** *** Directives *)

Lemma scan_count_digits ds v c r :
  (0 <= v)%Z -> all_digits ds = true -> isdigit c = false -> (digits_value ds v <= SIZE_MAX)%Z ->
  scan_count (ds +++ String c r) v false = (digits_value ds v, false, String c r).
Proof using Type.
  intros Hv Hds Hc. revert v Hv. induction ds as [|a ds IH]; intros v Hv Hm.
  - rewrite append_empty. cbn. by rewrite Hc.
  - rewrite append_cons. cbn [all_digits] in Hds. apply andb_true_iff in Hds as [Ha Hds].
    cbn [scan_count digits_value] in *. rewrite Ha in *.
    assert (0 <= code a - 48 <= 9)%Z as Hr by (unfold isdigit, in_codes in Ha; lia).
    assert (v * 10 + (code a - 48) <= digits_value ds (v * 10 + (code a - 48)))%Z as Hmono.
    { apply digits_value_grows; [lia|done]. }
    replace (10 * v + (code a - 48))%Z with (v * 10 + (code a - 48))%Z in * by lia.
    destruct (Z.ltb_spec (Z.quot (SIZE_MAX - (code a - 48)) 10) v) as [Hlt|_]; [|apply IH; [done|lia|done]].
    exfalso. rewrite Z.quot_div_nonneg in Hlt by (unfold SIZE_MAX, UINT64_MAX in *; lia).
    pose proof (Z.div_mod (SIZE_MAX - (code a - 48)) 10 ltac:(lia)).
    pose proof (Z.mod_pos_bound (SIZE_MAX - (code a - 48)) 10 ltac:(lia)). lia.
Qed.

Lemma read_directive_render ds b r pos :
  (repeat_max_count limits <= SIZE_MAX)%Z -> source_ok limits (SRepeat ds b SEnd) ->
  exists bpos epos,
    read_directive src limits ("@repeat " +++ ds +++ line_end +++ render b +++ "@end" +++ line_end +++ r) pos =
      Done (mkDirective (count_of ds) (render b) bpos ("@end" +++ line_end +++ r) epos).
Proof using Type.
  intros Hmax (Hne & Hds & Hcount & _ & Hb & _). unfold read_directive.
  set (rest := render b +++ "@end" +++ line_end +++ r).
  change (drop_text 7 ("@repeat " +++ ds +++ line_end +++ rest)) with (String " " (ds +++ line_end +++ rest)).
  assert (skip_hspace (String " " (ds +++ line_end +++ rest)) = (ds +++ line_end +++ rest) /\
          starts_with_digit (ds +++ line_end +++ rest) = true) as [Eh Hd].
  { destruct ds as [|c ds]; [done|]. cbn [all_digits] in Hds. apply andb_true_iff in Hds as [Hc _].
    rewrite append_cons. split; [|done]. unfold skip_hspace. cbn [drop_while].
    replace (Ascii.eqb c " " || Ascii.eqb c "009") with false; [done|].
    symmetry. apply orb_false_iff. split; apply Ascii.eqb_neq; intros ->; done. }
  rewrite Eh, Hd. cbn [negb]. change (line_end +++ rest) with (String newline rest).
  rewrite scan_count_digits by (try done; unfold SIZE_MAX in *; lia).
  destruct (Z.eqb_spec (digits_value ds 0) 0); [lia|]. cbn [orb].
  destruct (Z.ltb_spec (repeat_max_count limits) (digits_value ds 0)); [lia|].
  change (skip_newline (skip_hspace (String newline rest))) with rest.
  destruct (passes_render limits b Hb (S (String.length rest)) 1 ("@end" +++ line_end +++ r)) as (m & Hm & E); [lia|unfold rest; lia|].
  change (render b +++ "@end" +++ line_end +++ r) with rest in E. rewrite E.
  destruct m as [|m]; [lia|].
  change (find_matching_end (S m) 1 ("@end" +++ line_end +++ r)) with (Some ("@end" +++ line_end +++ r)).
  cbv iota beta. unfold rest at 1. rewrite between_append. by eexists _, _.
Qed.

(** The text [s] is expanded to [o]. *)
Definition emits (body : string -> nat -> option (Outcome string)) (s o : string) : Prop :=
  forall n r pos out, String.length (s +++ r) < n -> fits (out +++ o) ->
    exists n' pos', String.length r < n' /\
      region_loop src limits body n (s +++ r) pos out = region_loop src limits body n' r pos' (out +++ o).

Section Body.
Context (body : string -> nat -> option (Outcome string)).

Lemma emits_empty : emits body EmptyString EmptyString.
Proof using Type. intros n r pos out Hn Hf. exists n, pos. rewrite append_nil_r. by split. Qed.

Lemma emits_append s1 o1 s2 o2 : emits body s1 o1 -> emits body s2 o2 -> emits body (s1 +++ s2) (o1 +++ o2).
Proof using Type.
  intros H1 H2 n r pos out Hn Hf. rewrite <- append_assoc in Hf |- *. rewrite append_assoc in Hn |- *.
  destruct (H1 n (s2 +++ r) pos out Hn) as (n1 & pos1 & Hn1 & ->); [by eapply fits_append|].
  destruct (H2 n1 r pos1 (out +++ o1) Hn1 Hf) as (n2 & pos2 & Hn2 & ->). by exists n2, pos2.
Qed.

(** One copied part. *)
Lemma emits_copied s : s <> EmptyString -> (forall r, skip_copied (s +++ r) = Some r) -> emits body s s.
Proof using Type.
  intros Hne Hs n r pos out Hn Hf. destruct n as [|n]; [lia|]. cbn [region_loop].
  destruct (is_empty_string (s +++ r)) eqn:E; [by destruct s|]. rewrite Hs, between_append, append_fits by done.
  exists n, (pos + String.length s). split; [|done]. rewrite length_append in Hn.
  destruct s; [done|]. cbn in Hn. lia.
Qed.

Lemma emits_line s : plain s = true -> ends_blank s = true -> emits body s s.
Proof using Type.
  induction s as [|c s IH]; intros Hp He; [done|]. intros n r pos out Hn Hf.
  destruct (plain_cons c s Hp He r) as (H1 & H2 & H3 & _ & Hp' & He').
  assert (skip_copied (String c (s +++ r)) = Some (s +++ r)) as Hskip.
  { cbn [skip_copied]. by rewrite H1, H2, H3. }
  change (String c s) with (String c EmptyString +++ s) in Hf |- *. rewrite <- append_assoc in Hf |- *.
  rewrite append_assoc. change (String c EmptyString +++ s +++ r) with (String c (s +++ r)).
  rewrite append_cons in Hn. destruct n as [|n]; [lia|]. cbn [region_loop is_empty_string]. rewrite Hskip.
  change (String c (s +++ r)) with (String c EmptyString +++ (s +++ r)). rewrite between_append.
  rewrite append_fits by (by eapply fits_append). cbn [String.length] in Hn.
  destruct He' as [->|He'].
  - rewrite append_empty, append_nil_r in *. eexists n, _. split; [lia|reflexivity].
  - apply IH; [done|done|lia|done].
Qed.

Lemma emits_comment s : none_of [newline] s = true -> emits body ("//" +++ s +++ line_end) ("//" +++ s +++ line_end).
Proof using Type.
  intros Hs n r pos out Hn Hf. set (p := ("//" +++ s) +++ line_end +++ r).
  assert (("//" +++ s +++ line_end) +++ r = p) as Ep by (unfold p; by rewrite !append_assoc).
  rewrite Ep in *. clear Ep. assert (fits ((out +++ "//" +++ s) +++ line_end)) as Hf'.
  { by rewrite !append_assoc. }
  assert (skip_copied p = Some (line_end +++ r)) as Hskip.
  { change (Some (skip_comment ("//" +++ s +++ line_end +++ r)) = Some (line_end +++ r)). f_equal.
    change (skip_comment ("//" +++ s +++ line_end +++ r)) with (skip_comment (s +++ line_end +++ r)).
    by apply skip_comment_line. }
  destruct n as [|n]; [lia|]. cbn [region_loop]. change (is_empty_string p) with false. cbv iota.
  rewrite Hskip. unfold p at 1 2. rewrite between_append, append_fits by exact (fits_append _ _ Hf').
  replace (out +++ "//" +++ s +++ line_end) with ((out +++ "//" +++ s) +++ line_end) by (by rewrite !append_assoc).
  apply emits_line; [done|done| |exact Hf'].
  unfold p in Hn. rewrite !length_append in *. cbn [String.length] in *. lia.
Qed.

Lemma emits_literal s : none_of [newline; quote; backslash] s = true ->
  emits body (one_quote +++ s +++ one_quote) (one_quote +++ s +++ one_quote).
Proof using Type.
  intros Hs. apply emits_copied; [done|]. intros r. rewrite !append_assoc.
  change (one_quote +++ s +++ one_quote +++ r) with (String quote (s +++ one_quote +++ r)).
  cbn [skip_copied]. rewrite at_comment_other by done. rewrite Ascii.eqb_refl. by rewrite skip_literal_close.
Qed.

Lemma emits_repeat ds b :
  (repeat_max_count limits <= SIZE_MAX)%Z -> source_ok limits (SRepeat ds b SEnd) ->
  (forall bpos, body (render b) bpos = Some (Done (expansion b))) ->
  emits body ("@repeat " +++ ds +++ line_end +++ render b +++ "@end" +++ line_end)
    (copies (count_of ds) (expansion b)).
Proof using Type.
  intros Hmax Hok Hb n r pos out Hn Hf.
  destruct (read_directive_render ds b r pos Hmax Hok) as (bpos & epos & Hd).
  rewrite !append_assoc in *. destruct n as [|n]; [lia|].
  set (p := "@repeat " +++ ds +++ line_end +++ render b +++ "@end" +++ line_end +++ r) in *.
  cbn [region_loop]. change (is_empty_string p) with false. change (skip_copied p) with (@None string). cbv iota.
  rewrite Hd. cbn [dir_body dir_body_pos dir_count]. rewrite Hb.
  rewrite (substitute_all_copies out (expansion b) 0 (count_of ds) pos) by exact Hf.
  change (after_directive _) with r.
  eexists n, _. split; [|reflexivity]. unfold p in Hn. rewrite !length_append in Hn. cbn [String.length] in Hn. lia.
Qed.
End Body.

Lemma emits_source levels t :
  (repeat_max_count limits <= SIZE_MAX)%Z -> source_ok limits t -> nesting t <= levels ->
  emits (fun b bpos => match levels with O => None | S l => region src limits l b bpos EmptyString end)
    (render t) (expansion t).
Proof using Type.
  intros Hmax. revert levels. induction t as [|s k IH|s k IH|s k IH|ds b IHb k IH]; intros levels;
    cbn [source_ok render expansion nesting]; intros H Hl; [apply emits_empty|..].
  - destruct H as (H1 & H2 & H3). apply emits_append; [by apply emits_line|auto].
  - destruct H as (H1 & H2). rewrite <- !(append_assoc s), <- !(append_assoc "//").
    apply emits_append; [by apply emits_comment|auto].
  - destruct H as (H1 & H2). rewrite <- !(append_assoc s), <- !(append_assoc one_quote).
    apply emits_append; [by apply emits_literal|auto].
  - destruct H as (H1 & H2 & H3 & H4 & H5 & H6).
    rewrite <- (append_assoc "@end"), <- (append_assoc (render b)), <- (append_assoc line_end),
      <- (append_assoc ds), <- (append_assoc "@repeat ").
    apply emits_append; [|apply IH; [done|lia]]. apply emits_repeat;
      [done|exact (conj H1 (conj H2 (conj H3 (conj H4 (conj H5 I)))))|].
    intros bpos. destruct levels as [|l]; [lia|].
    assert (String.length (render b +++ EmptyString) < S (String.length (render b))) as Hn by (rewrite append_nil_r; lia).
    destruct (IHb l H5 ltac:(lia) (S (String.length (render b))) EmptyString bpos EmptyString Hn) as (n' & pos' & Hn' & E).
    { rewrite append_empty. exact H4. }
    rewrite append_nil_r, append_empty in E. destruct l; cbn [region]; rewrite E; (destruct n'; [cbn in Hn'; lia|done]).
Qed.

Lemma region_render levels t pos :
  (repeat_max_count limits <= SIZE_MAX)%Z -> source_ok limits t -> nesting t <= levels -> fits (expansion t) ->
  region src limits levels (render t) pos EmptyString = Some (Done (expansion t)).
Proof using Type.
  intros Hmax Hok Hl Hf.
  assert (String.length (render t +++ EmptyString) < S (String.length (render t))) as Hn by (rewrite append_nil_r; lia).
  destruct (emits_source levels t Hmax Hok Hl (S (String.length (render t))) EmptyString pos EmptyString Hn) as (n' & pos' & Hn' & E).
  { by rewrite append_empty. }
  rewrite append_nil_r, append_empty in E. destruct levels; cbn [region]; rewrite E; (destruct n'; [cbn in Hn'; lia|done]).
Qed.
End Fits.

(** ** Results *)

(** C30: on every source the stack machine terminates within its rounds, with
    the outcome of the recursive reference (the text or the refusal with its
    line) or at a use of an address of the frame stack that is no longer valid.
    It has the outcome of the reference if [realloc] moves no block, and if
    directives nest at most seven deep. *)
Theorem expand_region_recursive src limits moves :
  exists r, region src limits (String.length src) src 0 EmptyString = Some r /\ r <> Dangling /\
    (expand_region src limits moves src = Some r \/ expand_region src limits moves src = Some Dangling) /\
    ((forall cap, moves cap = false) \/ region src limits 7 src 0 EmptyString <> None ->
     expand_region src limits moves src = Some r).
Proof.
  destruct (region_total src limits (String.length src) src 0 EmptyString (le_n _)) as (r & Hr & Hd).
  exists r. split_and!; [done|done|by apply (expand_region_or_dangles src limits moves (String.length src))|].
  intros [Hm|Hseven].
  - by apply (expand_region_simulates src limits moves (String.length src)); [left|].
  - destruct (region src limits 7 src 0 EmptyString) as [r'|] eqn:E; [|done].
    assert (expand_region src limits (fun _ => false) src = Some r) as H1
      by (apply (expand_region_simulates src limits (fun _ => false) (String.length src)); [by left|done]).
    assert (expand_region src limits (fun _ => false) src = Some r') as H2
      by (apply (expand_region_simulates src limits (fun _ => false) 7); [by left|done]).
    rewrite H1 in H2. injection H2 as <-. by apply (expand_region_simulates src limits moves 7); [right|].
Qed.

Lemma contains_append pat s t : contains pat t = true -> contains pat (s +++ t) = true.
Proof.
  intros H. induction s as [|c s IH]; [done|]. rewrite append_cons. cbn [contains].
  by destruct (strip_prefix pat _).
Qed.

Lemma no_directive limits t : source_ok limits t -> contains "@repeat" (render t) = false -> expansion t = render t.
Proof.
  assert (forall s t, contains "@repeat" (s +++ t) = false -> contains "@repeat" t = false) as Happ.
  { intros s t' H. destruct (contains "@repeat" t') eqn:E; [|done]. by rewrite contains_append in H. }
  induction t as [|s k IH|s k IH|s k IH|ds b _ k _]; cbn [source_ok render expansion]; intros Hok H; [done|..].
  - by rewrite IH; [|apply Hok|eapply Happ].
  - by rewrite IH; [|apply Hok|do 3 eapply Happ].
  - by rewrite IH; [|apply Hok|do 3 eapply Happ].
  - done.
Qed.

(** C31: the text of every structured source whose counts and expansions are
    within the limits is expanded to what the source stands for, if [realloc]
    moves no block or directives nest at most seven deep: every body is copied
    once per count, with each [IDX] that stands alone replaced by the number of
    the copy, inner repetitions first, and comments, literals and other lines
    are kept.  Otherwise this is the result or an invalid address is used. *)
Theorem repeat_expansion limits moves t :
  (repeat_max_count limits <= SIZE_MAX)%Z -> source_ok limits t ->
  (Z.of_nat (String.length (expansion t)) <= repeat_max_bytes limits)%Z ->
  let result := jz_repeat_expand (render t) limits moves in
  ((forall cap, moves cap = false) \/ nesting t <= 7 -> result = Some (Done (expansion t))) /\
  (result = Some (Done (expansion t)) \/ result = Some Dangling).
Proof.
  intros Hmax Hok Hf result. subst result. unfold jz_repeat_expand. destruct (contains _ _) eqn:E.
  - split; [intros Hm; apply (expand_region_simulates _ _ _ (nesting t)); [done|]|apply (expand_region_or_dangles _ _ _ (nesting t)); [|done]];
      by apply region_render.
  - rewrite (no_directive limits) by done. split; [done|by left].
Qed.

Definition sample_source : Source :=
  SComment " a test" (SRepeat "2" (SLine "a_IDX = IDX;
" (SRepeat "3" (SLiteral "@end" (SLine " IDX
" SEnd)) SEnd)) (SLine "end
" SEnd)).

Lemma repeat_expansion_witness :
  jz_repeat_expand (render sample_source) default_limits (fun _ => true) = Some (Done (expansion sample_source)).
Proof.
  refine (proj1 (repeat_expansion default_limits (fun _ => true) sample_source _ _ _) _).
  - vm_compute. discriminate.
  - cbn. split_and!; try done; vm_compute; discriminate.
  - vm_compute. discriminate.
  - right. vm_compute. lia.
Defined.

(** *** Addresses into the stack *)

Definition nested_source (n : nat) : Source := Nat.iter n (fun b => SRepeat "1" b SEnd) (SLine "x " SEnd).

(** With eight directives inside each other, the growth of the stack leaves
    the frames' output addresses in the old block: when [realloc] moves blocks,
    the expansion of a correct source reads freed memory, and otherwise it
    succeeds. *)
Theorem repeat_dangles :
  source_ok default_limits (nested_source 8) /\
  jz_repeat_expand (render (nested_source 8)) default_limits (fun _ => true) = Some Dangling /\
  jz_repeat_expand (render (nested_source 8)) default_limits (fun _ => false) = Some (Done "x "%string).
Proof.
  split; [|by split; vm_compute]. cbn [source_ok nested_source Nat.iter nat_rect].
  split_and!; try done; vm_compute; discriminate.
Qed.

(** A directive in a block comment is expanded, or refused. *)
Example block_comment_refused :
  jz_repeat_expand "/* see @repeat */" default_limits (fun _ => false) =
    Some (Refused (mkRepeatDiag RPT_COUNT_INVALID 1)).
Proof. reflexivity. Qed.
