(* ===== verification/NetGraph.v ===== *)
(** * Nets: [compiler/src/sem/driver_net.c], with the collectors of
    [driver_comb.c]

    Every port, wire, register and latch of a module gets a net; the alias
    statements of its blocks merge nets; then drivers and sinks are recorded.
    Declarations and statements are compared as pointers, so nets hold their
    addresses.  Memory suffices. *)

From S2P Require Import Prelude CString Ast SymTab.

Local Open Scope nat_scope.

(** ** Declarations an expression names *)

Definition signal_kinds : list JZSymbolKind := [JZ_SYM_PORT; JZ_SYM_WIRE; JZ_SYM_REGISTER].

(** The declaration of [name], if it has one of the [kinds]. *)
Definition declared (kinds : list JZSymbolKind) (scope : JZModuleScope) (name : option string) : list Address :=
  match name with
  | Some name =>
      match module_scope_lookup scope name with
      | Some (mkSymbol _ kind (Some _) addr) => if bool_decide (kind ∈ kinds) then [addr] else []
      | _ => []
      end
  | None => []
  end.

Fixpoint sem_comb_collect_targets_from_lhs (scope : JZModuleScope) (lhs : JZASTNode) : list Address :=
  match lhs with
  | mkNode JZ_AST_EXPR_CONCAT _ _ _ _ _ cs => flat_map (sem_comb_collect_targets_from_lhs scope) cs
  | mkNode JZ_AST_EXPR_SLICE _ _ _ _ _ (base :: _) =>
      if node_is JZ_AST_EXPR_IDENTIFIER base
      then declared (JZ_SYM_LATCH :: signal_kinds) scope (ast_name base) else []
  | mkNode JZ_AST_EXPR_IDENTIFIER _ name _ _ _ _ => declared signal_kinds scope name
  | _ => []
  end.

(** The text before the first dot, copied into a buffer of 256 characters. *)
Definition port_of_qualified (name : option string) : option string :=
  match name with
  | Some name =>
      let port := take_while (fun c => negb (Ascii.eqb c ".")) name in
      if (0 <? String.length port) && (String.length port <? String.length name) &&
         (String.length port <? 256)
      then Some port else None
  | None => None
  end.

Fixpoint sem_comb_collect_sources_from_expr (scope : JZModuleScope) (expr : JZASTNode) : list Address :=
  match expr with
  | mkNode ty _ name _ _ _ cs =>
      match ty with
      | JZ_AST_EXPR_IDENTIFIER => declared signal_kinds scope name
      | JZ_AST_EXPR_BUS_ACCESS => declared signal_kinds scope name
      | JZ_AST_EXPR_QUALIFIED_IDENTIFIER => declared signal_kinds scope (port_of_qualified name)
      | JZ_AST_EXPR_SLICE | JZ_AST_EXPR_CONCAT | JZ_AST_EXPR_UNARY | JZ_AST_EXPR_BINARY
      | JZ_AST_EXPR_TERNARY | JZ_AST_EXPR_BUILTIN_CALL =>
          flat_map (sem_comb_collect_sources_from_expr scope) cs
      | _ => []
      end
  end.

Definition sem_net_bus_port_decl_from_expr (scope : JZModuleScope) (expr : JZASTNode) : option Address :=
  let name :=
    match ast_type expr with
    | JZ_AST_EXPR_BUS_ACCESS => ast_name expr
    | JZ_AST_EXPR_QUALIFIED_IDENTIFIER => port_of_qualified (ast_name expr)
    | _ => None
    end in
  name ← name;
  sym ← module_scope_lookup_kind scope name JZ_SYM_PORT;
  node ← sym_node sym;
  if field_is "BUS" (ast_block_kind node) then Some (sym_addr sym) else None.

(** ** The graph *)

Record JZAliasEdge := mkAliasEdge { lhs_decl : Address; rhs_decl : Address; alias_stmt : Address }.

Record JZNet := mkNet {
  atoms : list Address;
  driver_stmts : list Address;
  sink_stmts : list Address;
  alias_edges : list JZAliasEdge
}.

Record JZNetBinding := mkBinding { decl : Address; net_ix : nat }.

(** The two buffers the functions pass around. *)
Record NetGraph := mkGraph { nets : list JZNet; bindings : list JZNetBinding }.

Definition empty_net : JZNet := mkNet [] [] [] [].

Definition sem_net_find_binding (bindings : list JZNetBinding) (d : Address) : option JZNetBinding :=
  List.find (fun b => bool_decide (decl b = d)) bindings.

Definition update_net (ix : nat) (f : JZNet -> JZNet) (g : NetGraph) : NetGraph :=
  mkGraph (alter f ix (nets g)) (bindings g).

Definition add_alias (e : JZAliasEdge) (n : JZNet) : JZNet :=
  mkNet (atoms n) (driver_stmts n) (sink_stmts n) (alias_edges n ++ [e]).
Definition add_driver (stmt : Address) (n : JZNet) : JZNet :=
  mkNet (atoms n) (driver_stmts n ++ [stmt]) (sink_stmts n) (alias_edges n).
Definition add_sink (stmt : Address) (n : JZNet) : JZNet :=
  mkNet (atoms n) (driver_stmts n) (sink_stmts n ++ [stmt]) (alias_edges n).

(** The buffers of [other], moved to the end of those of [root]. *)
Definition absorb (other root : JZNet) : JZNet :=
  mkNet (atoms root ++ atoms other) (driver_stmts root ++ driver_stmts other)
    (sink_stmts root ++ sink_stmts other) (alias_edges root ++ alias_edges other).

Definition sem_net_merge (a_ix b_ix : nat) (g : NetGraph) : NetGraph :=
  if a_ix =? b_ix then g
  else
    let root_ix := if a_ix <? b_ix then a_ix else b_ix in
    let other_ix := if a_ix <? b_ix then b_ix else a_ix in
    match nets g !! other_ix with
    | None => g
    | Some other =>
        mkGraph (<[other_ix := empty_net]> (alter (absorb other) root_ix (nets g)))
          (map (fun b => if net_ix b =? other_ix then mkBinding (decl b) root_ix else b) (bindings g))
    end.

Definition add_symbol (g : NetGraph) (sym : JZSymbol) : NetGraph :=
  match sym with
  | mkSymbol (Some _) kind (Some _) addr =>
      if bool_decide (kind ∈ JZ_SYM_LATCH :: signal_kinds) then
        mkGraph (nets g ++ [mkNet [addr] [] [] []]) (bindings g ++ [mkBinding addr (length (nets g))])
      else g
  | _ => g
  end.

Definition sem_net_build_initial_for_module (scope : JZModuleScope) : NetGraph :=
  fold_left add_symbol (scope_symbols scope) (mkGraph [] []).

(** ** Aliases *)

Definition is_alias_op (op : option string) : bool :=
  field_is "ALIAS" op || field_is "ALIAS_Z" op || field_is "ALIAS_S" op.

(** [strncmp(op, prefix, strlen(prefix)) == 0]. *)
Definition op_starts (prefix : string) (op : option string) : bool :=
  match op with
  | Some op => match strip_prefix prefix op with Some _ => true | None => false end
  | None => false
  end.

Definition alias_pair (stmt l r : Address) (g : NetGraph) : NetGraph :=
  match sem_net_find_binding (bindings g) l, sem_net_find_binding (bindings g) r with
  | Some lb, Some rb =>
      let root_ix := if net_ix lb <? net_ix rb then net_ix lb else net_ix rb in
      sem_net_merge (net_ix lb) (net_ix rb) (update_net root_ix (add_alias (mkAliasEdge l r stmt)) g)
  | _, _ => g
  end.

Section Aliases.
Variables (scope : JZModuleScope) (is_sync : bool).

Definition alias_assign (pos : Address) (op : option string) (cs : list JZASTNode) (g : NetGraph) : NetGraph :=
  match cs with
  | lhs :: rhs :: _ =>
      if is_sync || negb (is_alias_op op) then g
      else
        fold_left (fun g l =>
          fold_left (fun g r => alias_pair pos l r g) (sem_comb_collect_sources_from_expr scope rhs) g)
          (sem_comb_collect_targets_from_lhs scope lhs) g
  | _ => g
  end.

(** The statements of [block] are its children. *)
Fixpoint sem_net_collect_aliases_in_block (pos : Address) (block : JZASTNode) (g : NetGraph) : NetGraph :=
  match block with
  | mkNode _ _ _ _ _ _ stmts =>
      each_child (fun i stmt g =>
        let here := pos ++ [i] in
        match stmt with
        | mkNode ty _ _ op _ _ cs =>
            match ty with
            | JZ_AST_STMT_ASSIGN => alias_assign here op cs g
            | JZ_AST_STMT_IF | JZ_AST_STMT_ELIF | JZ_AST_FEATURE_GUARD =>
                match cs with
                | [] => g
                | _ :: bodies =>
                    each_child (fun j c g => sem_net_collect_aliases_in_block (here ++ [j]) c g) 1 bodies g
                end
            | JZ_AST_STMT_ELSE | JZ_AST_STMT_SELECT | JZ_AST_STMT_CASE | JZ_AST_STMT_DEFAULT =>
                each_child (fun j c g => sem_net_collect_aliases_in_block (here ++ [j]) c g) 0 cs g
            | _ => g
            end
        end) 0 stmts g
  end.
End Aliases.

(** ** Drivers and sinks *)

(** Records [stmt] with the net of a declaration. *)
Definition record_use (add : Address -> JZNet -> JZNet) (stmt : Address) (g : NetGraph) (d : Address) :
    NetGraph :=
  match sem_net_find_binding (bindings g) d with
  | Some b => update_net (net_ix b) (add stmt) g
  | None => g
  end.

Section Usage.
Variable scope : JZModuleScope.

(** The declarations [sem_net_mark_expr_sinks] finds; [NULL] for its statement
    stands for the expression, whose address the caller then gives. *)
Fixpoint sem_net_mark_expr_sinks (stmt : Address) (expr : JZASTNode) (g : NetGraph) : NetGraph :=
  match expr with
  | mkNode ty _ name _ _ _ cs =>
      match ty with
      | JZ_AST_EXPR_IDENTIFIER =>
          fold_left (record_use add_sink stmt) (declared (JZ_SYM_LATCH :: signal_kinds) scope name) g
      | JZ_AST_EXPR_BUS_ACCESS | JZ_AST_EXPR_QUALIFIED_IDENTIFIER =>
          fold_left (record_use add_sink stmt) (option_list (sem_net_bus_port_decl_from_expr scope expr)) g
      | JZ_AST_EXPR_SLICE | JZ_AST_EXPR_CONCAT | JZ_AST_EXPR_UNARY | JZ_AST_EXPR_BINARY
      | JZ_AST_EXPR_TERNARY | JZ_AST_EXPR_BUILTIN_CALL =>
          fold_left (fun g c => sem_net_mark_expr_sinks stmt c g) cs g
      | _ => g
      end
  end.

Fixpoint sem_net_mark_lvalue_drivers (stmt : Address) (expr : JZASTNode) (g : NetGraph) : NetGraph :=
  match expr with
  | mkNode ty _ name _ _ _ cs =>
      match ty with
      | JZ_AST_EXPR_CONCAT => fold_left (fun g c => sem_net_mark_lvalue_drivers stmt c g) cs g
      | JZ_AST_EXPR_SLICE =>
          match cs with base :: _ => sem_net_mark_lvalue_drivers stmt base g | [] => g end
      | JZ_AST_EXPR_IDENTIFIER =>
          fold_left (record_use add_driver stmt) (declared (JZ_SYM_LATCH :: signal_kinds) scope name) g
      | JZ_AST_EXPR_BUS_ACCESS | JZ_AST_EXPR_QUALIFIED_IDENTIFIER =>
          fold_left (record_use add_driver stmt) (option_list (sem_net_bus_port_decl_from_expr scope expr)) g
      | _ => g
      end
  end.

Definition usage_of_assign (is_sync : bool) (pos : Address) (op : option string) (cs : list JZASTNode)
    (g : NetGraph) : NetGraph :=
  match cs with
  | lhs :: rhs :: more =>
      let is_alias := is_alias_op op && negb is_sync in
      let is_drive := op_starts "DRIVE" op in
      let g :=
        if is_alias then g
        else sem_net_mark_lvalue_drivers pos (if is_drive then rhs else lhs) g in
      let g := sem_net_mark_expr_sinks pos (if is_drive then lhs else rhs) g in
      let g := sem_net_mark_expr_sinks pos rhs g in
      match more with
      | guard :: _ => if field_is "RECEIVE_LATCH" op then sem_net_mark_expr_sinks pos guard g else g
      | [] => g
      end
  | _ => g
  end.

Fixpoint sem_net_collect_usage_for_stmt (is_sync : bool) (pos : Address) (stmt : JZASTNode) (g : NetGraph) :
    NetGraph :=
  match stmt with
  | mkNode ty _ _ op _ _ cs =>
      match ty with
      | JZ_AST_SYNC_PARAM => fold_left (fun g c => sem_net_mark_expr_sinks pos c g) cs g
      | JZ_AST_STMT_ASSIGN => usage_of_assign is_sync pos op cs g
      | JZ_AST_STMT_IF | JZ_AST_STMT_ELIF | JZ_AST_STMT_SELECT =>
          match cs with
          | [] => g
          | cond :: bodies =>
              each_child (fun j c g => sem_net_collect_usage_for_stmt is_sync (pos ++ [j]) c g) 1 bodies
                (sem_net_mark_expr_sinks pos cond g)
          end
      | JZ_AST_STMT_ELSE | JZ_AST_STMT_CASE | JZ_AST_STMT_DEFAULT =>
          each_child (fun j c g => sem_net_collect_usage_for_stmt is_sync (pos ++ [j]) c g) 0 cs g
      | JZ_AST_FEATURE_GUARD =>
          match cs with
          | [] => g
          | _ :: branches =>
              each_child (fun j branch g =>
                match branch with
                | mkNode _ _ _ _ _ _ bcs =>
                    each_child (fun k c g =>
                      sem_net_collect_usage_for_stmt is_sync (pos ++ [j; k]) c g) 0 bcs g
                end) 1 branches g
          end
      | _ => g
      end
  end.

Definition sem_net_collect_usage_in_block (is_sync : bool) (pos : Address) (block : JZASTNode) (g : NetGraph) :
    NetGraph :=
  each_child (fun i c g => sem_net_collect_usage_for_stmt is_sync (pos ++ [i]) c g) 0 (ast_children block) g.

(** ** Instances *)

(** What a BUS signal lets the holder of a role do: read, write. *)
Definition sem_bus_signal_access_dirs_flow (bus_dir role : string) : bool * bool :=
  if String.eqb bus_dir "INOUT" then (true, true)
  else
    let is_source := String.eqb role "SOURCE" in
    let is_target := String.eqb role "TARGET" in
    if negb is_source && negb is_target then (false, false)
    else if String.eqb bus_dir "OUT" then (negb is_source, is_source)
    else if String.eqb bus_dir "IN" then (is_source, negb is_source)
    else (false, false).

(** [%127s]: the next word, cut at 127 characters, and the rest. *)
Definition scan_word (s : string) : string * string :=
  let s := drop_while isspace s in
  let word := truncate 127 (take_while (fun c => negb (isspace c)) s) in
  (word, drop_text (String.length word) s).

Definition sem_bus_binding_access_dirs (project_symbols : list JZSymbol) (bind : JZASTNode) : bool * bool :=
  match ast_text bind with
  | Some text =>
      let '(bus_id, text) := scan_word text in
      let '(role, _) := scan_word text in
      if is_empty_string bus_id || is_empty_string role then (false, false)
      else
        match project_lookup project_symbols bus_id JZ_SYM_BUS with
        | Some (mkSymbol _ _ (Some node) _) =>
            fold_left (fun acc d =>
              match ast_block_kind d with
              | Some dir =>
                  if node_is JZ_AST_BUS_DECL d then
                    let '(r, w) := sem_bus_signal_access_dirs_flow dir role in
                    (fst acc || r, snd acc || w)
                  else acc
              | None => acc
              end) (ast_children node) (false, false)
        | _ => (false, false)
        end
  | None => (false, false)
  end.

Definition sem_net_collect_instance_usage (project_symbols : list JZSymbol) (pos : Address) (inst : JZASTNode)
    (g : NetGraph) : NetGraph :=
  if negb (node_is JZ_AST_MODULE_INSTANCE inst) then g
  else
    fold_left (fun g bind =>
      match ast_block_kind bind, ast_children bind with
      | Some dir, rhs :: _ =>
          if negb (node_is JZ_AST_PORT_DECL bind) then g
          else if String.eqb dir "BUS" then
            let '(readable, writable) := sem_bus_binding_access_dirs project_symbols bind in
            let g := if writable : bool then sem_net_mark_lvalue_drivers pos rhs g else g in
            if readable : bool then sem_net_mark_expr_sinks pos rhs g else g
          else
            let g := if String.eqb dir "OUT" || String.eqb dir "INOUT"
                     then sem_net_mark_lvalue_drivers pos rhs g else g in
            if String.eqb dir "IN" then sem_net_mark_expr_sinks pos rhs g else g
      | _, _ => g
      end) (ast_children inst) g.
End Usage.

(** ** The whole module *)

(** A block of statements, and whether it is SYNCHRONOUS. *)
Definition code_block (n : JZASTNode) : option bool :=
  if negb (node_is JZ_AST_BLOCK n) then None
  else if field_is "ASYNCHRONOUS" (ast_block_kind n) then Some false
  else if field_is "SYNCHRONOUS" (ast_block_kind n) then Some true
  else None.

Definition cdc_clock_sinks (scope : JZModuleScope) (pos : Address) (blk : JZASTNode) (g : NetGraph) : NetGraph :=
  if negb (node_is JZ_AST_BLOCK blk && field_is "CDC" (ast_block_kind blk)) then g
  else
    each_child (fun j cdc g =>
      match ast_children cdc with
      | _ :: src_clk :: _ :: dst_clk :: _ =>
          if negb (node_is JZ_AST_CDC_DECL cdc) then g
          else
            sem_net_mark_expr_sinks scope (pos ++ [j; 3]) dst_clk
              (sem_net_mark_expr_sinks scope (pos ++ [j; 1]) src_clk g)
      | _ => g
      end) 0 (ast_children blk) g.

(** The instances of a module: its children, and those of the branches of its
    feature guards, which are [guarded]. *)
Definition each_instance {S} (f : bool -> Address -> JZASTNode -> S -> S) (pos : Address) (module : JZASTNode)
    (s : S) : S :=
  each_child (fun i child s =>
    if node_is JZ_AST_FEATURE_GUARD child then
      each_child (fun j branch s =>
        each_child (fun k inst s =>
          if node_is JZ_AST_MODULE_INSTANCE inst then f true (pos ++ [i; j; k]) inst s else s)
          0 (ast_children branch) s)
        1 (tail (ast_children child)) s
    else if node_is JZ_AST_MODULE_INSTANCE child then f false (pos ++ [i]) child s
    else s) 0 (ast_children module) s.

Definition sem_net_build_module_graph (scope : JZModuleScope) (project_symbols : list JZSymbol) : NetGraph :=
  let cs := ast_children (scope_node scope) in
  let pos i := scope_addr scope ++ [i] in
  let g := sem_net_build_initial_for_module scope in
  let g :=
    each_child (fun i c g =>
      match code_block c with
      | Some is_sync => sem_net_collect_aliases_in_block scope is_sync (pos i) c g
      | None => g
      end) 0 cs g in
  let g :=
    each_child (fun i c g =>
      match code_block c with
      | Some is_sync => sem_net_collect_usage_in_block scope is_sync (pos i) c g
      | None => g
      end) 0 cs g in
  let g := each_child (fun i c g => cdc_clock_sinks scope (pos i) c g) 0 cs g in
  each_instance (fun _ pos inst g => sem_net_collect_instance_usage scope project_symbols pos inst g)
    (scope_addr scope) (scope_node scope) g.
