(* ===== verification/NetSpec.v ===== *)
(** * Nets are the classes of declarations that aliases connect *)

From stdpp Require Import relations.
From S2P Require Import Prelude CString Ast SymTab NetGraph.

Local Open Scope nat_scope.

Definition net_of (g : NetGraph) (d : Address) : option nat :=
  net_ix <$> sem_net_find_binding (bindings g) d.

(** The parts of a statement that the alias pass treats as blocks. *)
Definition parts (s : JZASTNode) : list JZASTNode :=
  match ast_type s with
  | JZ_AST_STMT_IF | JZ_AST_STMT_ELIF | JZ_AST_FEATURE_GUARD => tail (ast_children s)
  | JZ_AST_STMT_ELSE | JZ_AST_STMT_SELECT | JZ_AST_STMT_CASE | JZ_AST_STMT_DEFAULT => ast_children s
  | _ => []
  end.

(** The statements the pass visits in a block: its children, and the children
    of the parts of those.  The parts of control flow are its statements, so
    that of these the pass visits the children only. *)
Inductive visited : JZASTNode -> JZASTNode -> Prop :=
  | visited_own block s : s ∈ ast_children block -> visited block s
  | visited_part block c d s : c ∈ ast_children block -> d ∈ parts c -> visited d s -> visited block s.

(** [s] is an alias statement between [l] and [r]. *)
Definition alias_of (scope : JZModuleScope) (s : JZASTNode) (l r : Address) : Prop :=
  ast_type s = JZ_AST_STMT_ASSIGN /\ is_alias_op (ast_block_kind s) = true /\
  exists lhs rhs more, ast_children s = lhs :: rhs :: more /\
    l ∈ sem_comb_collect_targets_from_lhs scope lhs /\
    r ∈ sem_comb_collect_sources_from_expr scope rhs.

Definition aliased (scope : JZModuleScope) (l r : Address) : Prop :=
  exists block s, block ∈ ast_children (scope_node scope) /\ code_block block = Some false /\
    visited block s /\ alias_of scope s l r.

Definition is_signal (scope : JZModuleScope) (d : Address) : Prop :=
  exists name kind node, mkSymbol (Some name) kind (Some node) d ∈ scope_symbols scope /\
    kind ∈ JZ_SYM_LATCH :: signal_kinds.

(** ** Bindings *)

Lemma find_binding_spec bs d b : sem_net_find_binding bs d = Some b -> b ∈ bs /\ decl b = d.
Proof.
  intros H. apply List.find_some in H as [H1 H2]. split; [by apply list_elem_of_In|].
  by apply bool_decide_eq_true in H2.
Qed.

Lemma net_of_bound g d : d ∈ map decl (bindings g) <-> is_Some (net_of g d).
Proof.
  unfold net_of. rewrite fmap_is_Some. split.
  - intros (b & -> & Hb)%list_elem_of_fmap. unfold sem_net_find_binding.
    destruct (List.find _ _) eqn:E; [done|]. eapply List.find_none in E; [|by apply list_elem_of_In].
    by rewrite bool_decide_eq_false in E.
  - intros [b (Hb & <-)%find_binding_spec]. by apply list_elem_of_fmap_2.
Qed.

Lemma find_rebound h bs d : (forall b, decl (h b) = decl b) ->
  sem_net_find_binding (map h bs) d = h <$> sem_net_find_binding bs d.
Proof.
  intros Hh. unfold sem_net_find_binding. induction bs as [|b bs IH]; [done|]. cbn.
  rewrite Hh. by destruct (bool_decide _).
Qed.

(** ** Merging *)

Definition edge_in (es : list JZAliasEdge) (l r : Address) : Prop :=
  exists e, e ∈ es /\ lhs_decl e = l /\ rhs_decl e = r.

Lemma edge_in_app es1 es2 l r : edge_in (es1 ++ es2) l r <-> edge_in es1 l r \/ edge_in es2 l r.
Proof. unfold edge_in. setoid_rewrite elem_of_app. naive_solver. Qed.

Lemma edge_in_one l r stmt x y : edge_in [mkAliasEdge l r stmt] x y <-> x = l /\ y = r.
Proof. unfold edge_in. setoid_rewrite list_elem_of_singleton. naive_solver. Qed.

Lemma some_and {A} (a : A) (P : A -> Prop) : (exists x, Some a = Some x /\ P x) <-> P a.
Proof. naive_solver. Qed.

(** What holds when the aliases of [R] have been processed: [D] are the bound
    declarations, in order. *)
Record classes (D : list Address) (R : Address -> Address -> Prop) (g : NetGraph) : Prop := {
  cl_bound : map decl (bindings g) = D;
  cl_distinct : NoDup D;
  cl_same : forall l r, R l r -> net_of g l = net_of g r;
  cl_conn : forall d1 d2 i, net_of g d1 = Some i -> net_of g d2 = Some i -> rtsc R d1 d2;
  cl_atoms : forall d i, (exists n, nets g !! i = Some n /\ d ∈ atoms n) <-> net_of g d = Some i;
  cl_edges : forall l r i, (exists n, nets g !! i = Some n /\ edge_in (alias_edges n) l r) <->
      R l r /\ net_of g l = Some i }.

Lemma classes_iff D R R' g : (forall l r, R l r <-> R' l r) -> classes D R g -> classes D R' g.
Proof.
  intros HR [H1 H2 H3 H4 H5 H6]. split; [done|done| | |done|].
  - intros l r H. apply H3, HR, H.
  - intros d1 d2 i Hd1 Hd2. eapply rtc_subrel; [|by eapply H4]. intros x y [?|?]; [left|right]; by apply HR.
  - intros l r i. by rewrite <- HR.
Qed.

(** The graph after the alias of two different nets: [other] is emptied into
    [root]. *)
Definition redirect (root other i : nat) : nat := if i =? other then root else i.

Lemma redirect_eq root other i j : redirect root other i = j <-> (i <> other /\ i = j) \/ (i = other /\ j = root).
Proof. unfold redirect. destruct (Nat.eqb_spec i other); naive_solver. Qed.

Lemma net_of_merge root other d ns g :
  net_of (mkGraph ns (map (fun b => if net_ix b =? other then mkBinding (decl b) root else b) (bindings g))) d =
  redirect root other <$> net_of g d.
Proof.
  unfold net_of. cbn [bindings]. rewrite find_rebound by (intros b; by destruct (net_ix b =? other)).
  destruct (sem_net_find_binding _ _) as [b|]; [|done]. cbn. unfold redirect. by destruct (_ =? _).
Qed.

Lemma decls_rebound (c : JZNetBinding -> bool) root bs :
  map decl (map (fun b => if c b then mkBinding (decl b) root else b) bs) = map decl bs.
Proof. rewrite map_map. apply map_ext. intros b. by destruct (c b). Qed.

Lemma merged_lookup (root other : nat) (e : JZNet -> JZNet) (ns : list JZNet) nr no i : root <> other ->
  ns !! root = Some nr -> ns !! other = Some no ->
  <[other := empty_net]> (alter (absorb no) root (alter e root ns)) !! i =
  if decide (i = other) then Some empty_net
  else if decide (i = root) then Some (absorb no (e nr)) else ns !! i.
Proof.
  intros Hne Hr Ho. destruct (decide (i = other)) as [->|Hi].
  - apply list_lookup_insert_eq. rewrite !length_alter. by eapply lookup_lt_Some.
  - rewrite list_lookup_insert_ne by done. destruct (decide (i = root)) as [->|Hi'].
    + by rewrite !list_lookup_alter_eq, Hr.
    + by rewrite !list_lookup_alter_ne.
Qed.

Section AliasStep.
Context (D : list Address) (R : Address -> Address -> Prop) (g : NetGraph) (Hg : classes D R g).
Context (stmt l r : Address).

Definition plus (l r : Address) : Address -> Address -> Prop := fun x y => R x y \/ (x = l /\ y = r).

Lemma plus_mono x y : rtsc R x y -> rtsc (plus l r) x y.
Proof. apply rtc_subrel. intros a b [?|?]; [left|right]; by left. Qed.

Lemma plus_pair : rtsc (plus l r) l r.
Proof. apply rtsc_lr. by right. Qed.

Lemma rtsc_sym {A} (S : A -> A -> Prop) x y : rtsc S x y -> rtsc S y x.
Proof. induction 1 as [|a b c [H|H] _ IH]; [done| |]; (eapply rtc_trans; [exact IH|]); [by apply rtsc_rl|by apply rtsc_lr]. Qed.

Lemma net_exists d i : net_of g d = Some i -> exists n, nets g !! i = Some n.
Proof using Hg. intros (n & Hn & _)%(cl_atoms _ _ _ Hg). eauto. Qed.

Lemma alias_pair_same i : net_of g l = Some i -> net_of g r = Some i ->
  classes D (plus l r) (update_net i (add_alias (mkAliasEdge l r stmt)) g).
Proof using Hg.
  intros Hl Hr. destruct Hg as [H1 H2 H3 H4 H5 H6].
  assert (forall d, net_of (update_net i (add_alias (mkAliasEdge l r stmt)) g) d = net_of g d) as E by done.
  split; [done|done| | | |].
  - intros x y [H|[-> ->]]; rewrite !E; [by apply H3|by rewrite Hl, Hr].
  - intros x y j. rewrite !E. intros Hx Hy. apply plus_mono. by eapply H4.
  - intros d j. rewrite E, <- H5. cbn. rewrite list_lookup_alter. destruct (decide (i = j)) as [<-|]; [|done].
    destruct (nets g !! i); cbn; naive_solver.
  - intros x y j. rewrite E. cbn. rewrite list_lookup_alter. unfold plus.
    destruct (decide (i = j)) as [<-|Hij].
    + destruct (net_exists l i Hl) as [n Hn]. pose proof (H6 x y i) as A. rewrite Hn in A |- *. cbn.
      rewrite some_and in A |- *. cbn. rewrite edge_in_app, edge_in_one, A.
      split; [intros [?|[-> ->]]; auto; tauto|tauto].
    + rewrite H6. split; [tauto|]. intros [[H|[-> ->]] Hx]; [tauto|congruence].
Qed.

(** Merging [other] into [root], the nets of [l] and [r] in some order. *)
Variables (root other : nat) (nr no : JZNet).
Hypotheses (Hne : root <> other) (Hr : nets g !! root = Some nr) (Ho : nets g !! other = Some no).
Hypothesis Hlr : (net_of g l = Some root /\ net_of g r = Some other) \/
                 (net_of g l = Some other /\ net_of g r = Some root).

Let e := mkAliasEdge l r stmt.
Let merged := mkGraph (<[other := empty_net]> (alter (absorb no) root (alter (add_alias e) root (nets g))))
  (map (fun b => if net_ix b =? other then mkBinding (decl b) root else b) (bindings g)).

Lemma merged_conn x : net_of g x = Some root \/ net_of g x = Some other -> rtsc (plus l r) x l.
Proof using Hg Hlr.
  intros Hx. assert (net_of g x = net_of g l \/ net_of g x = net_of g r) as [H|H].
  { destruct Hlr as [[-> ->]|[-> ->]], Hx; auto. }
  - apply plus_mono. destruct Hlr as [[Hl _]|[Hl _]]; rewrite Hl in H; by eapply (cl_conn _ _ _ Hg).
  - eapply rtc_trans; [|by apply rtsc_sym, plus_pair]. apply plus_mono.
    destruct Hlr as [[_ Hl]|[_ Hl]]; rewrite Hl in H; by eapply (cl_conn _ _ _ Hg).
Qed.

Lemma net_of_merged d j : net_of merged d = Some j <->
  (net_of g d = Some j /\ j <> other) \/ (net_of g d = Some other /\ j = root).
Proof using Type.
  unfold merged. rewrite net_of_merge, fmap_Some. split.
  - intros (i & Hi & Hj). symmetry in Hj. apply redirect_eq in Hj as [[H ->]|[-> ->]]; auto.
  - intros [[H Hj]|[H ->]]; [exists j|exists other]; (split; [done|]); symmetry; apply redirect_eq; auto.
Qed.

Lemma alias_pair_merged : classes D (plus l r) merged.
Proof using Hg Hne Hr Ho Hlr.
  pose proof net_of_merged as E. pose proof Hg as [H1 H2 H3 H4 H5 H6]. split.
  - unfold merged. cbn. by rewrite decls_rebound.
  - done.
  - intros x y [H|[-> ->]]; unfold merged; rewrite !net_of_merge; [by rewrite (H3 _ _ H)|].
    unfold redirect. destruct Hlr as [[-> ->]|[-> ->]]; cbn; rewrite Nat.eqb_refl; by destruct (Nat.eqb_spec root other).
  - intros x y j Hx%E Hy%E. destruct Hx as [[Hx Hj]|[Hx ->]], Hy as [[Hy Hj']|[Hy Hroot]]; try rewrite Hroot in *.
    + apply plus_mono. by eapply H4.
    + eapply rtc_trans; [by apply merged_conn; auto|]. apply rtsc_sym, merged_conn; auto.
    + eapply rtc_trans; [by apply merged_conn; auto|]. apply rtsc_sym, merged_conn; auto.
    + apply plus_mono. by eapply H4.
  - intros d j. rewrite E. unfold merged. cbn [nets]. rewrite (merged_lookup _ _ _ _ _ _ j Hne Hr Ho).
    pose proof (H5 d root) as Ar. pose proof (H5 d other) as Ao. rewrite Hr in Ar. rewrite Ho in Ao.
    rewrite some_and in Ar, Ao. destruct (decide (j = other)) as [->|].
    { rewrite some_and. cbn. rewrite elem_of_nil. naive_solver. }
    destruct (decide (j = root)) as [->|]; [|rewrite H5; naive_solver].
    rewrite some_and. cbn. rewrite elem_of_app, Ar, Ao. naive_solver.
  - intros x y j. rewrite E. unfold merged. cbn [nets]. rewrite (merged_lookup _ _ _ _ _ _ j Hne Hr Ho).
    pose proof (H6 x y root) as Ar. pose proof (H6 x y other) as Ao. rewrite Hr in Ar. rewrite Ho in Ao.
    rewrite some_and in Ar, Ao. unfold plus. destruct (decide (j = other)) as [->|].
    { rewrite some_and. cbn. split; [by intros (? & ?%elem_of_nil & _)|naive_solver]. }
    destruct (decide (j = root)) as [->|].
    + rewrite some_and. unfold e. cbn. rewrite !edge_in_app, edge_in_one, Ar, Ao.
      split; [intros [[?|[-> ->]]|?]; destruct Hlr; naive_solver|naive_solver].
    + rewrite H6. split; [tauto|]. intros [[H|[-> ->]] [[Hx _]|[Hx ?]]]; [tauto|tauto| |done]. destruct Hlr; naive_solver.
Qed.
End AliasStep.

(** One pair of an alias statement. *)
Lemma alias_pair_classes D R g stmt l r : classes D R g -> l ∈ D -> r ∈ D ->
  classes D (plus R l r) (alias_pair stmt l r g).
Proof.
  intros Hg Hl Hr. rewrite <- (cl_bound _ _ _ Hg), net_of_bound in Hl, Hr.
  destruct Hl as [i Hl], Hr as [j Hr]. pose proof Hl as Hl'. pose proof Hr as Hr'.
  unfold net_of in Hl', Hr'. unfold alias_pair.
  destruct (sem_net_find_binding _ l) as [lb|]; [|done]. destruct (sem_net_find_binding _ r) as [rb|]; [|done].
  cbn in Hl', Hr'. injection Hl' as ->. injection Hr' as ->. unfold sem_net_merge.
  destruct (net_exists _ _ _ Hg l i Hl) as [ni Hi], (net_exists _ _ _ Hg r j Hr) as [nj Hj].
  destruct (Nat.eqb_spec i j) as [->|Hij]; [rewrite Nat.ltb_irrefl; by apply alias_pair_same|].
  cbn [update_net nets bindings].
  destruct (Nat.ltb_spec i j); rewrite list_lookup_alter_ne by lia.
  - rewrite Hj. by eapply (alias_pair_merged _ _ _ Hg _ _ _ i j); eauto.
  - rewrite Hi. by eapply (alias_pair_merged _ _ _ Hg _ _ _ j i); eauto.
Qed.

(** ** The pass *)

Lemma declared_signal scope kinds name d : kinds ⊆ JZ_SYM_LATCH :: signal_kinds ->
  d ∈ declared kinds scope name -> is_signal scope d.
Proof.
  intros Hk. destruct name as [name|]; [|by intros ?%elem_of_nil]. cbn. unfold module_scope_lookup.
  destruct (List.find _ _) as [[nm kind [node|] addr]|] eqn:E; try by intros ?%elem_of_nil.
  case_bool_decide as Hkind; [|by intros ?%elem_of_nil]. intros ->%list_elem_of_singleton.
  apply List.find_some in E as [E1 E2]. destruct nm as [nm|]; [|done].
  exists nm, kind, node. split; [by apply list_elem_of_In|by apply Hk].
Qed.

Lemma targets_signal scope lhs d : d ∈ sem_comb_collect_targets_from_lhs scope lhs -> is_signal scope d.
Proof.
  revert d. induction lhs as [ty loc name bk text width cs IH] using JZASTNode_ind'. intros d.
  destruct ty; cbn; try by intros ?%elem_of_nil.
  - apply declared_signal. set_solver.
  - intros (c & Hc & Hd)%list_elem_of_In%in_flat_map. rewrite List.Forall_forall in IH.
    by eapply IH, list_elem_of_In.
  - destruct cs as [|base cs]; [by intros ?%elem_of_nil|]. destruct (node_is _ _); [|by intros ?%elem_of_nil].
    by apply declared_signal.
Qed.

Lemma sources_signal scope expr d : d ∈ sem_comb_collect_sources_from_expr scope expr -> is_signal scope d.
Proof.
  revert d. induction expr as [ty loc name bk text width cs IH] using JZASTNode_ind'. intros d.
  assert (forall nm, d ∈ declared signal_kinds scope nm -> is_signal scope d) as Hd.
  { intros nm. apply declared_signal. set_solver. }
  assert (d ∈ flat_map (sem_comb_collect_sources_from_expr scope) cs -> is_signal scope d) as Hcs.
  { intros (c & Hc & Hc')%list_elem_of_In%in_flat_map. rewrite List.Forall_forall in IH.
    by eapply IH, list_elem_of_In. }
  destruct ty; cbn; first [exact Hcs|apply Hd|by intros ?%elem_of_nil].
Qed.

Section Pass.
Context (scope : JZModuleScope) (D : list Address).
Hypothesis HD : forall d, is_signal scope d -> d ∈ D.

Definition joined (P Q : Address -> Address -> Prop) : Address -> Address -> Prop := fun l r => P l r \/ Q l r.

(** [f] processes the aliases of [P]. *)
Definition extends (P : Address -> Address -> Prop) (f : NetGraph -> NetGraph) : Prop :=
  forall R g, classes D R g -> classes D (joined R P) (f g).

Lemma extends_iff P Q f : (forall l r, P l r <-> Q l r) -> extends P f -> extends Q f.
Proof. intros H Hf R g Hg. eapply classes_iff; [|by apply Hf]. intros l r. unfold joined. by rewrite H. Qed.

Lemma extends_ext P f h : (forall g, f g = h g) -> extends P f -> extends P h.
Proof. intros H Hf R g Hg. rewrite <- H. by apply Hf. Qed.

Lemma extends_id (P : Address -> Address -> Prop) : (forall l r, ~ P l r) -> extends P (fun g => g).
Proof. intros H R g Hg. eapply classes_iff; [|exact Hg]. intros l r. specialize (H l r). unfold joined. tauto. Qed.

Lemma extends_comp P Q f h : extends P f -> extends Q h -> extends (joined P Q) (fun g => h (f g)).
Proof.
  intros Hf Hh R g Hg. eapply classes_iff; [|by apply Hh, Hf]. intros l r. unfold joined. tauto.
Qed.

Lemma extends_fold {A} (P : A -> Address -> Address -> Prop) (f : NetGraph -> A -> NetGraph) xs :
  (forall a, a ∈ xs -> extends (P a) (fun g => f g a)) ->
  extends (fun l r => exists a, a ∈ xs /\ P a l r) (fun g => fold_left f xs g).
Proof.
  induction xs as [|a xs IH]; intros H.
  - apply extends_id. by intros l r (? & ?%elem_of_nil & _).
  - cbn. eapply extends_iff; [|eapply (extends_comp (P a) _ (fun g => f g a));
      [apply H; by left|apply IH; intros; apply H; by right]].
    intros l r. unfold joined. setoid_rewrite elem_of_cons. naive_solver.
Qed.

Lemma extends_each (P : JZASTNode -> Address -> Address -> Prop) f cs : forall i,
  (forall i c, c ∈ cs -> extends (P c) (f i c)) ->
  extends (fun l r => exists c, c ∈ cs /\ P c l r) (each_child f i cs).
Proof.
  induction cs as [|c cs IH]; intros i H.
  - apply extends_id. by intros l r (? & ?%elem_of_nil & _).
  - cbn. eapply extends_iff; [|eapply (extends_comp (P c) _ (f i c));
      [apply H; by left|apply IH; intros; apply H; by right]].
    intros l r. unfold joined. setoid_rewrite elem_of_cons. naive_solver.
Qed.

Lemma alias_assign_extends is_sync pos s :
  extends (fun l r => is_sync = false /\ alias_of scope s l r)
    (fun g => if node_is JZ_AST_STMT_ASSIGN s then
                alias_assign scope is_sync pos (ast_block_kind s) (ast_children s) g else g).
Proof using HD.
  unfold alias_of, node_is. case_bool_decide as Hs; [|by apply extends_id; intros l r (_ & ? & _)].
  unfold alias_assign. destruct (ast_children s) as [|lhs [|rhs more]].
  - apply extends_id. by intros l r (_ & _ & _ & ? & ? & ? & ? & _).
  - apply extends_id. by intros l r (_ & _ & _ & ? & ? & ? & ? & _).
  - destruct is_sync; [by apply extends_id; intros l r (? & _)|].
    destruct (is_alias_op _); cbn [orb negb]; [|by apply extends_id; intros l r (_ & _ & ? & _)].
    eapply extends_iff; [|apply (extends_fold (fun l x y => exists r, r ∈ sem_comb_collect_sources_from_expr scope rhs /\ x = l /\ y = r));
      intros l Hl; apply (extends_fold (fun r x y => x = l /\ y = r)); intros r Hr R g Hg].
    + intros x y. cbn. split.
      * intros (l & Hl & r & Hr & -> & ->). split_and!; [done..|]. by exists lhs, rhs, more.
      * intros (_ & _ & _ & lhs' & rhs' & more' & [= <- <- <-] & Hl & Hr). eauto 10.
    + apply alias_pair_classes; [done| |]; apply HD; [by eapply targets_signal|by eapply sources_signal].
Qed.

(** What the pass does with a statement of a block. *)
Definition block_step (is_sync : bool) (pos : Address) (i : nat) (s : JZASTNode) (g : NetGraph) : NetGraph :=
  match ast_type s with
  | JZ_AST_STMT_ASSIGN => alias_assign scope is_sync (pos ++ [i]) (ast_block_kind s) (ast_children s) g
  | _ => each_child (fun j c g => sem_net_collect_aliases_in_block scope is_sync ((pos ++ [i]) ++ [j]) c g)
           (length (ast_children s) - length (parts s)) (parts s) g
  end.

Lemma collect_block_steps is_sync pos b g :
  sem_net_collect_aliases_in_block scope is_sync pos b g = each_child (block_step is_sync pos) 0 (ast_children b) g.
Proof.
  destruct b as [? ? ? ? ? ? stmts]. cbn [sem_net_collect_aliases_in_block ast_children].
  apply each_child_ext. intros i [ty ? ? op ? ? cs] h. unfold block_step, parts. cbn.
  destruct ty; try done; cbn [ast_children];
    first [by rewrite Nat.sub_diag|destruct cs as [|c cs]; [done|]]; cbn [tail];
    by replace (length (c :: cs) - length cs) with 1 by (cbn [length]; lia).
Qed.

Definition processes (is_sync : bool) (b : JZASTNode) : Prop := forall pos,
  extends (fun l r => is_sync = false /\ exists s, visited b s /\ alias_of scope s l r)
    (sem_net_collect_aliases_in_block scope is_sync pos b).

Lemma visited_inv b s : visited b s <->
  s ∈ ast_children b \/ exists c d, c ∈ ast_children b /\ d ∈ parts c /\ visited d s.
Proof.
  split; [intros []; eauto 10|]. intros [H|(c & d & Hc & Hd & H)]; [by apply visited_own|by eapply visited_part].
Qed.

Lemma parts_children s : forall d, d ∈ parts s -> d ∈ ast_children s.
Proof.
  intros d. unfold parts. destruct (ast_type s), (ast_children s); cbn; try (by intros ?%elem_of_nil); auto;
    intros ?; by right.
Qed.

Lemma block_extends is_sync b : processes is_sync b /\ Forall (processes is_sync) (ast_children b).
Proof using HD.
  induction b as [ty loc name bk text width cs IH] using JZASTNode_ind'.
  cbn [ast_children]. split; [|eapply List.Forall_impl; [|exact IH]; by intros c []].
  intros pos. eapply extends_iff with (P := fun l r => exists c, c ∈ cs /\
    ((is_sync = false /\ alias_of scope c l r) \/
     exists d, d ∈ parts c /\ is_sync = false /\ exists s, visited d s /\ alias_of scope s l r)).
  { intros l r. setoid_rewrite (visited_inv (mkNode ty loc name bk text width cs)). cbn [ast_children]. split.
    - intros (c & Hc & [[? ?]|(d & Hd & ? & s & Hs & ?)]); (split; [done|]); [exists c; split; [by left|done]|].
      exists s. split; [right; by exists c, d|done].
    - intros (? & s & [Hs|(c & d & Hc & Hd & Hs)] & ?); [exists s; split; [done|by left]|].
      exists c. split; [done|]. right. exists d. split_and!; [done|done|]. by exists s. }
  eapply (extends_ext _ (each_child (block_step is_sync pos) 0 cs)); [intros g; by rewrite collect_block_steps|].
  apply extends_each. intros i c Hc. rewrite Forall_forall in IH. destruct (IH c Hc) as [_ Hcs]. unfold block_step.
  destruct (decide (ast_type c = JZ_AST_STMT_ASSIGN)) as [Ec|Ec].
  - eapply extends_ext; [|eapply extends_iff; [|apply (alias_assign_extends is_sync (pos ++ [i]) c)]].
    + intros g. cbn. unfold node_is. by rewrite bool_decide_eq_true_2, Ec.
    + intros l r. unfold parts. rewrite Ec. setoid_rewrite elem_of_nil. naive_solver.
  - eapply extends_ext; [|eapply extends_iff; [|eapply (extends_each _ _ (parts c))]].
    + intros g. by destruct (ast_type c).
    + intros l r. cbn. split; [intros H; right; exact H|]. intros [(_ & ? & _)|H]; [done|exact H].
    + intros j d Hd. rewrite Forall_forall in Hcs. apply Hcs. by apply parts_children.
Qed.
End Pass.

(** ** The first graph *)

Definition signal_decl (s : JZSymbol) : list Address :=
  match s with
  | mkSymbol (Some _) kind (Some _) addr =>
      if bool_decide (kind ∈ JZ_SYM_LATCH :: signal_kinds) then [addr] else []
  | _ => []
  end.

Definition signal_decls (scope : JZModuleScope) : list Address := flat_map signal_decl (scope_symbols scope).

Lemma signal_decls_spec scope d : d ∈ signal_decls scope <-> is_signal scope d.
Proof.
  unfold signal_decls. rewrite list_elem_of_In, in_flat_map. split.
  - intros ([[name|] kind [node|] addr] & Hs & Hd); try done. cbn in Hd. case_bool_decide; [|done].
    destruct Hd as [->|[]]. exists name, kind, node. by rewrite list_elem_of_In.
  - intros (name & kind & node & Hs & Hk). exists (mkSymbol (Some name) kind (Some node) d).
    rewrite <- list_elem_of_In. split; [done|]. cbn. rewrite bool_decide_eq_true_2 by done. by left.
Qed.

Definition graph_of (ds : list Address) : NetGraph :=
  mkGraph (map (fun d => mkNet [d] [] [] []) ds) (imap (fun i d => mkBinding d i) ds).

Lemma add_symbols ss : forall ds, fold_left add_symbol ss (graph_of ds) = graph_of (ds ++ flat_map signal_decl ss).
Proof.
  induction ss as [|[[name|] kind [node|] addr] ss IH]; intros ds;
    cbn [fold_left flat_map signal_decl add_symbol]; rewrite ?app_nil_r; try done; [|apply IH..].
  destruct (bool_decide _); [|apply IH]. rewrite app_assoc, <- IH. f_equal. unfold graph_of. cbn.
  rewrite map_app, imap_app, length_map. cbn. by rewrite Nat.add_0_r.
Qed.

Lemma initial_graph scope : sem_net_build_initial_for_module scope = graph_of (signal_decls scope).
Proof. apply (add_symbols _ []). Qed.

Lemma find_numbered ds d : NoDup ds -> forall k i,
  net_ix <$> sem_net_find_binding (imap (fun i d => mkBinding d (k + i)) ds) d = Some i <->
  exists j, i = k + j /\ ds !! j = Some d.
Proof.
  induction 1 as [|d' ds Hd' _ IH]; intros k i; [cbn; naive_solver|]. cbn. case_bool_decide as Hd.
  - subst d'. cbn. split.
    + intros [= <-]. exists 0. split; [lia|done].
    + intros ([|j] & -> & Hj); [done|]. cbn in Hj. exfalso. apply Hd'. by apply list_elem_of_lookup_2 in Hj.
  - unfold sem_net_find_binding in IH. specialize (IH (S k) i).
    erewrite imap_ext in IH; [rewrite IH|intros; cbn; by rewrite Nat.add_succ_r].
    split; intros (j & -> & Hj); [exists (S j); split; [lia|done]|].
    destruct j as [|j]; [by injection Hj|]. exists j. split; [lia|done].
Qed.

Lemma classes_initial scope : NoDup (signal_decls scope) ->
  classes (signal_decls scope) (fun _ _ => False) (sem_net_build_initial_for_module scope).
Proof.
  intros Hnd. rewrite initial_graph. set (ds := signal_decls scope) in *.
  assert (forall d i, net_of (graph_of ds) d = Some i <-> ds !! i = Some d) as E.
  { intros d i. unfold net_of. rewrite (find_numbered ds d Hnd 0 i). naive_solver. }
  assert (forall i, nets (graph_of ds) !! i = (fun d => mkNet [d] [] [] []) <$> ds !! i) as En by
    (intros i; apply list_lookup_fmap).
  split; [|done|done| | |].
  - cbn. generalize ds as xs, 0 as k. clear. intros xs k.
    change (map decl (imap (fun i d => mkBinding d i) xs)) with (decl <$> imap (fun i d => mkBinding d i) xs).
    rewrite fmap_imap. apply list_eq. intros i. rewrite list_lookup_imap. by destruct (xs !! i).
  - intros d1 d2 i H1%E H2%E. rewrite H1 in H2. injection H2 as ->. reflexivity.
  - intros d i. rewrite E, En. destruct (ds !! i) as [d'|]; cbn.
    + rewrite some_and. cbn. rewrite list_elem_of_singleton. naive_solver.
    + naive_solver.
  - intros l r i. rewrite En. destruct (ds !! i) as [d'|]; cbn.
    + rewrite some_and. cbn. split; [by intros (? & ?%elem_of_nil & _)|tauto].
    + naive_solver.
Qed.

(** ** Uses *)

(** What drivers and sinks do not change. *)
Definition skeleton (g : NetGraph) := (map (fun n => (atoms n, alias_edges n)) (nets g), bindings g).

Lemma skeleton_classes D R g h : skeleton g = skeleton h -> classes D R g -> classes D R h.
Proof.
  unfold skeleton. intros [= Hn Hb] [H1 H2 H3 H4 H5 H6].
  assert (forall d, net_of h d = net_of g d) as E by (intros d; unfold net_of; by rewrite Hb).
  assert (forall i (P : list Address * list JZAliasEdge -> Prop),
    (exists n, nets h !! i = Some n /\ P (atoms n, alias_edges n)) <->
    (exists n, nets g !! i = Some n /\ P (atoms n, alias_edges n))) as Hi.
  { intros i P. assert ((fun n => (atoms n, alias_edges n)) <$> nets h !! i =
                        (fun n => (atoms n, alias_edges n)) <$> nets g !! i) as Hl.
    { transitivity (map (fun n => (atoms n, alias_edges n)) (nets h) !! i);
        [symmetry; apply list_lookup_fmap|]. rewrite <- Hn. apply list_lookup_fmap. }
    destruct (nets h !! i), (nets g !! i); cbn in Hl; try done.
    rewrite !some_and. by injection Hl as -> ->. }
  split.
  - by rewrite <- Hb.
  - done.
  - intros l r HR. rewrite !E. by apply H3.
  - intros d1 d2 i. rewrite !E. apply H4.
  - intros d i. rewrite E, <- H5. apply (Hi i (fun p => d ∈ p.1)).
  - intros l r i. rewrite E, <- H6. apply (Hi i (fun p => edge_in p.2 l r)).
Qed.

Lemma skeleton_update f i g : (forall n, atoms (f n) = atoms n /\ alias_edges (f n) = alias_edges n) ->
  skeleton (update_net i f g) = skeleton g.
Proof.
  intros Hf. unfold skeleton, update_net. cbn. f_equal. generalize (nets g) as ns.
  revert i. intros i ns. revert i. induction ns as [|n ns IH]; intros i; [done|]. destruct i as [|i]; cbn.
  - by destruct (Hf n) as [-> ->].
  - f_equal. apply IH.
Qed.

Lemma skeleton_use add stmt g d : add = add_driver \/ add = add_sink ->
  skeleton (record_use add stmt g d) = skeleton g.
Proof.
  intros Ha. unfold record_use. destruct (sem_net_find_binding _ _); [|done].
  apply skeleton_update. by destruct Ha as [-> | ->].
Qed.

Lemma skeleton_fold {A} (f : NetGraph -> A -> NetGraph) xs g :
  (forall g a, a ∈ xs -> skeleton (f g a) = skeleton g) -> skeleton (fold_left f xs g) = skeleton g.
Proof.
  revert g. induction xs as [|a xs IH]; intros g H; [done|]. cbn. rewrite IH.
  - apply H. by left.
  - intros. apply H. by right.
Qed.

Lemma skeleton_each f cs : forall i g,
  (forall i c g, c ∈ cs -> skeleton (f i c g) = skeleton g) -> skeleton (each_child f i cs g) = skeleton g.
Proof.
  induction cs as [|c cs IH]; intros i g H; [done|]. cbn. rewrite IH.
  - apply H. by left.
  - intros. apply H. by right.
Qed.

#[local] Hint Extern 2 (skeleton (fold_left _ _ _) = _) => apply skeleton_fold : skel.
#[local] Hint Extern 2 (skeleton (each_child _ _ _ _) = _) => apply skeleton_each : skel.
#[local] Hint Resolve skeleton_use : skel.

Lemma skeleton_sinks scope stmt expr : forall g, skeleton (sem_net_mark_expr_sinks scope stmt expr g) = skeleton g.
Proof.
  induction expr as [ty loc name bk text width cs IH] using JZASTNode_ind'. intros g.
  rewrite Forall_forall in IH. destruct ty; cbn; auto with skel.
Qed.

Lemma skeleton_drivers scope stmt expr : forall g,
  skeleton (sem_net_mark_lvalue_drivers scope stmt expr g) = skeleton g.
Proof.
  induction expr as [ty loc name bk text width cs IH] using JZASTNode_ind'. intros g.
  rewrite Forall_forall in IH. destruct ty; cbn; auto with skel.
  destruct cs as [|base cs]; [done|]. apply IH. by left.
Qed.
#[local] Hint Rewrite skeleton_sinks skeleton_drivers : skel.

Lemma skeleton_assign scope is_sync pos op cs g : skeleton (usage_of_assign scope is_sync pos op cs g) = skeleton g.
Proof.
  destruct cs as [|lhs [|rhs more]]; [done..|]. cbn.
  destruct (is_alias_op op && negb is_sync), (op_starts _ _), more; try destruct (field_is _ _);
    autorewrite with skel; done.
Qed.

Lemma skeleton_usage scope is_sync s :
  (forall pos g, skeleton (sem_net_collect_usage_for_stmt scope is_sync pos s g) = skeleton g) /\
  Forall (fun c => forall pos g, skeleton (sem_net_collect_usage_for_stmt scope is_sync pos c g) = skeleton g)
    (ast_children s).
Proof.
  induction s as [ty loc name bk text width cs IH] using JZASTNode_ind'.
  assert (Forall (fun c => forall pos g, skeleton (sem_net_collect_usage_for_stmt scope is_sync pos c g) = skeleton g) cs)
    as Hcs by (eapply List.Forall_impl; [|exact IH]; by intros c []).
  split; [|done]. rewrite Forall_forall in IH, Hcs. intros pos g.
  destruct ty; cbn; try done; try (by apply skeleton_assign); try (by apply skeleton_each; auto);
    try (destruct cs as [|c cs]; [done|]; rewrite skeleton_each;
           [apply skeleton_sinks|intros; apply Hcs; by right]).
  - destruct cs as [|c cs]; [done|]. apply skeleton_each. intros j [? ? ? ? ? ? bcs] h Hb.
    destruct (IH _ ltac:(by right)) as [_ Hbs]. cbn in Hbs. rewrite Forall_forall in Hbs.
    by apply skeleton_each; auto.
  - apply skeleton_fold. intros. by rewrite skeleton_sinks.
Qed.

Lemma skeleton_block scope is_sync pos b g : skeleton (sem_net_collect_usage_in_block scope is_sync pos b g) = skeleton g.
Proof. apply skeleton_each. intros. apply skeleton_usage. Qed.

Lemma skeleton_instance scope syms pos inst g : skeleton (sem_net_collect_instance_usage scope syms pos inst g) = skeleton g.
Proof.
  unfold sem_net_collect_instance_usage. destruct (negb _); [done|]. apply skeleton_fold. intros h bind _.
  destruct (ast_block_kind bind) as [dir|]; [|done]. destruct (ast_children bind) as [|rhs cs]; [done|].
  destruct (negb _); [done|]. destruct (String.eqb dir "BUS").
  - destruct (sem_bus_binding_access_dirs _ _) as [[] []]; autorewrite with skel; done.
  - destruct (_ || _), (String.eqb dir "IN"); autorewrite with skel; done.
Qed.

Lemma skeleton_cdc scope pos blk g : skeleton (cdc_clock_sinks scope pos blk g) = skeleton g.
Proof.
  unfold cdc_clock_sinks. destruct (negb _); [done|]. apply skeleton_each. intros j c h _.
  destruct (ast_children c) as [|? [|? [|? [|? ?]]]]; try done. destruct (negb _); [done|]. by autorewrite with skel.
Qed.

Lemma skeleton_instances f pos m g : (forall b p c g, skeleton (f b p c g) = skeleton g) ->
  skeleton (each_instance f pos m g) = skeleton g.
Proof.
  intros Hf. apply skeleton_each. intros i c h _. destruct (node_is _ c).
  - apply skeleton_each. intros j b h' _. apply skeleton_each. intros k x h'' _. by destruct (node_is _ x).
  - by destruct (node_is _ c).
Qed.

(** ** Results *)

Definition graph_scope (scope : JZModuleScope) : Prop := NoDup (signal_decls scope).

Lemma build_classes scope syms : graph_scope scope ->
  classes (signal_decls scope) (aliased scope) (sem_net_build_module_graph scope syms).
Proof.
  intros Hs. unfold sem_net_build_module_graph. eapply skeleton_classes.
  { symmetry. rewrite skeleton_instances by (intros; apply skeleton_instance).
    rewrite skeleton_each by (intros; apply skeleton_cdc).
    apply skeleton_each. intros i c g _. destruct (code_block c); [apply skeleton_block|done]. }
  eapply classes_iff; [|eapply (extends_each (signal_decls scope)
    (fun c l r => code_block c = Some false /\ exists s, visited c s /\ alias_of scope s l r));
    [|by apply classes_initial]].
  - intros l r. unfold joined, aliased. split.
    + intros [[]|(c & Hc & Hb & s & Hv & Ha)]. by exists c, s.
    + intros (c & s & Hc & Hb & Hv & Ha). right. exists c. split_and!; [done|done|]. by exists s.
  - intros i c _. destruct (code_block c) as [is_sync|] eqn:Hb.
    + eapply extends_iff; [|apply (block_extends scope (signal_decls scope)); intros d; apply signal_decls_spec].
      intros l r. cbn. naive_solver.
    + apply extends_id. by intros l r [? _].
Qed.

(** C33: in the graph of a module every signal has exactly one net, which lists
    it; two signals share a net exactly if alias statements of ASYNCHRONOUS
    blocks connect them; and a net's alias edges are those statements' pairs. *)
Theorem nets_are_alias_classes scope syms : graph_scope scope ->
  let g := sem_net_build_module_graph scope syms in
  (forall d, is_signal scope d <-> exists i, net_of g d = Some i) /\
  (forall d i, net_of g d = Some i <-> exists n, nets g !! i = Some n /\ d ∈ atoms n) /\
  (forall d1 d2, is_signal scope d1 -> is_signal scope d2 ->
     net_of g d1 = net_of g d2 <-> rtsc (aliased scope) d1 d2) /\
  (forall l r i, (exists n e, nets g !! i = Some n /\ e ∈ alias_edges n /\ lhs_decl e = l /\ rhs_decl e = r) <->
     aliased scope l r /\ net_of g l = Some i).
Proof.
  intros Hs g. pose proof (build_classes scope syms Hs) as Hg. fold g in Hg.
  assert (forall d, is_signal scope d <-> exists i, net_of g d = Some i) as Hsig.
  { intros d. rewrite <- signal_decls_spec, <- (cl_bound _ _ _ Hg), net_of_bound. done. }
  split_and!.
  - exact Hsig.
  - intros d i. by rewrite (cl_atoms _ _ _ Hg).
  - intros d1 d2 H1 _. split.
    + intros E. apply Hsig in H1 as [i H1]. eapply (cl_conn _ _ _ Hg); [exact H1|by rewrite <- E].
    + clear H1. induction 1 as [|a b c [H|H] _ IH]; [done| |]; rewrite <- IH.
      * by apply (cl_same _ _ _ Hg).
      * symmetry. by apply (cl_same _ _ _ Hg).
  - intros l r i. rewrite <- (cl_edges _ _ _ Hg). unfold edge_in. naive_solver.
Qed.

(** *** A module with two aliases *)

Definition node0 (ty : JZASTNodeType) (name kind : option string) (cs : list JZASTNode) : JZASTNode :=
  mkNode ty (mkLoc 1 1) name kind None None cs.

Definition ident (name : string) : JZASTNode := node0 JZ_AST_EXPR_IDENTIFIER (Some name) None [].

Definition assign (op lhs rhs : string) : JZASTNode :=
  node0 JZ_AST_STMT_ASSIGN None (Some op) [ident lhs; ident rhs].

Definition async (stmts : list JZASTNode) : JZASTNode :=
  node0 JZ_AST_BLOCK None (Some "ASYNCHRONOUS"%string) stmts.

(** A scope whose signals are the wires [names], declared in a first child. *)
Definition wires (names : list string) (blocks : list JZASTNode) : JZModuleScope :=
  let decls := map (fun n => node0 JZ_AST_WIRE_DECL (Some n) None []) names in
  mkScope (Some "m"%string)
    (node0 JZ_AST_MODULE (Some "m"%string) None (node0 JZ_AST_WIRE_BLOCK None None decls :: blocks)) [0]
    (imap (fun i n => mkSymbol (Some n) JZ_SYM_WIRE (Some (node0 JZ_AST_WIRE_DECL (Some n) None [])) [0; 0; i]) names).

Definition two_aliases : JZModuleScope :=
  wires ["a"; "b"; "c"; "d"]%string [async [assign "ALIAS" "d" "b"; assign "RECEIVE" "b" "c"; assign "ALIAS" "a" "d"]].

Lemma nets_are_alias_classes_witness : graph_scope two_aliases /\
  (net_of (sem_net_build_module_graph two_aliases []) [0; 0; 0] =
   net_of (sem_net_build_module_graph two_aliases []) [0; 0; 1] <->
   rtsc (aliased two_aliases) [0; 0; 0] [0; 0; 1]) /\
  map (net_of (sem_net_build_module_graph two_aliases [])) [[0; 0; 0]; [0; 0; 1]; [0; 0; 2]; [0; 0; 3]] =
    [Some 0; Some 0; Some 2; Some 0].
Proof.
  assert (graph_scope two_aliases) as H by (unfold graph_scope; vm_compute; repeat constructor; set_solver).
  split; [exact H|split; [|reflexivity]].
  apply (nets_are_alias_classes two_aliases [] H); apply signal_decls_spec; vm_compute; set_solver.
Defined.

(** Of two alias statements in the branches of an IF, only the one that is
    nested twice merges nets. *)
Example branch_alias_level :
  let branch := node0 JZ_AST_STMT_IF None None [ident "c"; assign "ALIAS" "a" "b";
    node0 JZ_AST_STMT_IF None None [ident "c"; assign "ALIAS" "c" "d"]] in
  map (net_of (sem_net_build_module_graph (wires ["a"; "b"; "c"; "d"]%string [async [branch]]) []))
    [[0; 0; 0]; [0; 0; 1]; [0; 0; 2]; [0; 0; 3]] = [Some 0; Some 1; Some 2; Some 2].
Proof. reflexivity. Qed.
