(* ===== verification/Comb.v ===== *)
(** * Combinational loops: [compiler/src/sem/driver_comb.c]

    The analysis of one ASYNCHRONOUS block.  A path is the list of the
    dependencies, edges between nets, that one choice of branches adds; the
    statements are walked with the list of all paths so far, which is replaced
    by one path with all edges when it grows beyond 256.  Memory suffices, and
    sizes do not overflow [size_t]. *)

From S2P Require Import Prelude CString Ast SymTab NetGraph.

Local Open Scope nat_scope.

Record JZCombEdge := mkEdge { src_net_ix : nat; dst_net_ix : nat }.

#[export] Instance JZCombEdge_eq_dec : EqDecision JZCombEdge.
Proof. solve_decision. Defined.

(** [JZCombPathState]. *)
Definition Path : Type := list JZCombEdge.

(** ** Collapsing *)

Definition COMB_MAX_PATHS : nat := 256.

Definition same_edge (e f : JZCombEdge) : bool :=
  (src_net_ix e =? src_net_ix f) && (dst_net_ix e =? dst_net_ix f).

(** Keeps the first of equal edges, by search in what has been kept. *)
Fixpoint dedup_scan (kept edges : Path) : Path :=
  match edges with
  | [] => kept
  | e :: edges => dedup_scan (if existsb (fun k => same_edge k e) kept then kept else kept ++ [e]) edges
  end.

(** The same with a bitmap of [n * n] bits, held in bytes. *)
Fixpoint dedup_bitmap (n : nat) (seen : list Z) (kept edges : Path) : Path :=
  match edges with
  | [] => kept
  | e :: edges =>
      let key := src_net_ix e * n + dst_net_ix e in
      let byte_ix := key / 8 in
      let bit := Z.shiftl 1 (Z.of_nat (key mod 8)) in
      let byte := nth byte_ix seen 0%Z in
      if (Z.land byte bit =? 0)%Z
      then dedup_bitmap n (<[byte_ix := Z.lor byte bit]> seen) (kept ++ [e]) edges
      else dedup_bitmap n seen kept edges
  end.

Definition max_step (m : nat) (e : JZCombEdge) : nat :=
  let m := if m <? src_net_ix e then src_net_ix e else m in
  if m <? dst_net_ix e then dst_net_ix e else m.

Definition max_net (edges : Path) : nat := fold_left max_step edges 0.

Definition dedup (edges : Path) : Path :=
  if length edges <=? 1 then edges
  else
    let n := max_net edges + 1 in
    if (Z.of_nat n <=? 4096)%Z
    then dedup_bitmap n (replicate ((n * n + 7) / 8) 0%Z) [] edges
    else dedup_scan [] edges.

Definition sem_comb_collapse_paths (paths : list Path) : list Path :=
  match paths with
  | [] | [_] => paths
  | _ => [dedup (concat paths)]
  end.

Definition limit_paths (paths : list Path) : list Path :=
  if COMB_MAX_PATHS <? length paths then sem_comb_collapse_paths paths else paths.

(** ** Statements *)

Definition Walk : Type := list Path -> list Path.

(** Every path is continued by each branch, and by itself if [keep]. *)
Definition split_paths (branches : list Walk) (keep : bool) (paths : list Path) : list Path :=
  limit_paths
    (flat_map (fun base => flat_map (fun branch => branch [base]) branches ++ (if keep then [base] else [])) paths).

Definition sem_comb_analyze_if_branch_body (walk : JZASTNode -> Walk) (stmt : JZASTNode) : Walk :=
  fun paths =>
    match stmt with
    | mkNode ty _ _ _ _ _ cs =>
        match ty with
        | JZ_AST_STMT_IF | JZ_AST_STMT_ELIF =>
            match cs with
            | [] => paths
            | _ :: body => fold_left (fun ps c => walk c ps) body paths
            end
        | JZ_AST_STMT_ELSE => fold_left (fun ps c => walk c ps) cs paths
        | _ => paths
        end
    end.

(** What a label of a SELECT does, if its body is not empty. *)
Definition select_branch (walk : JZASTNode -> Walk) (label : JZASTNode) : list Walk :=
  match label with
  | mkNode ty _ _ _ _ _ cs =>
      let body :=
        match ty with
        | JZ_AST_STMT_CASE => match cs with [] => cs | _ :: body => body end
        | _ => cs
        end in
      match body with
      | [] => []
      | _ => [fun paths => fold_left (fun ps c => walk c ps) body paths]
      end
  end.

Definition has_default (labels : list JZASTNode) : bool := existsb (node_is JZ_AST_STMT_DEFAULT) labels.

Section Analyze.
Variables (scope : JZModuleScope) (g : NetGraph).

Definition net_count : nat := length (nets g).

(** The edges of one target and one source. *)
Definition pair_edge (is_drive : bool) (l r : Address) : Path :=
  match sem_net_find_binding (bindings g) l, sem_net_find_binding (bindings g) r with
  | Some lb, Some rb =>
      let src := if is_drive then net_ix lb else net_ix rb in
      let dst := if is_drive then net_ix rb else net_ix lb in
      if (net_count <=? src) || (net_count <=? dst) then [] else [mkEdge src dst]
  | _, _ => []
  end.

Definition assign_edges (op : option string) (cs : list JZASTNode) : Path :=
  match cs with
  | lhs :: rhs :: _ =>
      if is_alias_op op then []
      else
        flat_map (fun l =>
          flat_map (pair_edge (op_starts "DRIVE" op) l) (sem_comb_collect_sources_from_expr scope rhs))
          (sem_comb_collect_targets_from_lhs scope lhs)
  | _ => []
  end.

Definition sem_comb_record_edges_for_assign (op : option string) (cs : list JZASTNode) : Walk :=
  map (fun path => path ++ assign_edges op cs).

Fixpoint sem_comb_analyze_stmt (stmt : JZASTNode) : Walk :=
  match stmt with
  | mkNode ty _ _ op _ _ cs =>
      match ty with
      | JZ_AST_STMT_ASSIGN => sem_comb_record_edges_for_assign op cs
      | JZ_AST_STMT_IF => split_paths [sem_comb_analyze_if_branch_body sem_comb_analyze_stmt stmt] true
      | JZ_AST_STMT_SELECT =>
          match cs with
          | _ :: ((_ :: _) as labels) =>
              split_paths (flat_map (select_branch sem_comb_analyze_stmt) labels) (negb (has_default labels))
          | _ => fun paths => paths
          end
      | JZ_AST_BLOCK => fold_left (fun ps c => sem_comb_analyze_stmt c ps) cs
      | _ => fun paths => paths
      end
  end.

Definition sem_comb_analyze_if_chain (branches : list JZASTNode) : Walk :=
  match last branches with
  | None => fun paths => paths
  | Some stmt =>
      split_paths (map (sem_comb_analyze_if_branch_body sem_comb_analyze_stmt) branches)
        (negb (node_is JZ_AST_STMT_ELSE stmt))
  end.

(** The ELIF and ELSE statements that continue a chain, and what follows. *)
Fixpoint chain_rest (stmts : list JZASTNode) : list JZASTNode * list JZASTNode :=
  match stmts with
  | s :: rest =>
      if node_is JZ_AST_STMT_ELIF s then let '(more, rest) := chain_rest rest in (s :: more, rest)
      else if node_is JZ_AST_STMT_ELSE s then ([s], rest)
      else ([], stmts)
  | [] => ([], [])
  end.

(** The statements of an ASYNCHRONOUS block; every round takes at least one. *)
Fixpoint analyze_statements (n : nat) (stmts : list JZASTNode) : Walk :=
  fun paths =>
    match n, stmts with
    | S n', s :: rest =>
        if node_is JZ_AST_STMT_IF s then
          let '(more, rest) := chain_rest rest in
          analyze_statements n' rest (sem_comb_analyze_if_chain (s :: more) paths)
        else analyze_statements n' rest (sem_comb_analyze_stmt s paths)
    | _, _ => paths
    end.

Definition analyze_block (block : JZASTNode) : Walk :=
  analyze_statements (length (ast_children block)) (ast_children block).
End Analyze.

(** ** Search *)

(** The arrays of the adjacency lists.  The entries of [adj_dst] are not
    initialised; those read have been written. *)
Record Adjacency := mkAdjacency { adj_offset : list nat; adj_dst : list nat }.

Section Graph.
Variables (edges : Path) (net_count : nat).

Definition adj_count : list nat :=
  fold_left (fun count e => if src_net_ix e <? net_count then alter S (src_net_ix e) count else count)
    edges (replicate net_count 0).

Definition offsets : list nat :=
  fold_left (fun off i => <[i + 1 := nth i off 0 + nth i adj_count 0]> off) (seq 0 net_count)
    (replicate (net_count + 1) 0).

Definition fill_step (st : list nat * list nat) (e : JZCombEdge) : list nat * list nat :=
  let '(dsts, count) := st in
  let s := src_net_ix e in
  if s <? net_count
  then (<[nth s offsets 0 + nth s count 0 := dst_net_ix e]> dsts, alter S s count)
  else st.

Definition adjacency : Adjacency :=
  mkAdjacency offsets (fst (fold_left fill_step edges (replicate (length edges) 0, replicate net_count 0))).

(** The entries from [adj_offset[v]] up to [adj_offset[v + 1]]. *)
Definition neighbours (adj : Adjacency) (v : nat) : list nat :=
  let from := nth v (adj_offset adj) 0 in
  map (fun ni => nth ni (adj_dst adj) 0) (seq from (nth (v + 1) (adj_offset adj) 0 - from)).

(** *** Cycles: a net is white (0), on the stack (1) or done (2) *)

Inductive Scan := CycleFound | Push (w : nat) | Exhausted.

Fixpoint scan_neighbours (color ws : list nat) : Scan :=
  match ws with
  | [] => Exhausted
  | w :: ws =>
      if net_count <=? w then scan_neighbours color ws
      else if nth w color 0 =? 1 then CycleFound
      else if nth w color 0 =? 0 then Push w
      else scan_neighbours color ws
  end.

(** The rounds of the loop from a start: whether there is a cycle, and the
    colours.  [None] when the rounds do not suffice, or when the stack grows
    beyond its array of [net_count] entries. *)
Fixpoint dfs (n : nat) (adj : Adjacency) (color stack : list nat) : option (bool * list nat) :=
  match n with
  | O => None
  | S n' =>
      match stack with
      | [] => Some (false, color)
      | v :: stack' =>
          match scan_neighbours color (neighbours adj v) with
          | CycleFound => Some (true, color)
          | Push w =>
              if net_count <=? length stack then None
              else dfs n' adj (<[w := 1]> color) (w :: stack)
          | Exhausted => dfs n' adj (<[v := 2]> color) stack'
          end
      end
  end.

Fixpoint dfs_starts (adj : Adjacency) (starts color : list nat) : option bool :=
  match starts with
  | [] => Some false
  | start :: starts =>
      if negb (nth start color 0 =? 0) then dfs_starts adj starts color
      else if nth (start + 1) (adj_offset adj) 0 =? nth start (adj_offset adj) 0
      then dfs_starts adj starts (<[start := 2]> color)
      else
        r ← dfs (2 * net_count + 1) adj (<[start := 1]> color) [start];
        let '(cycle, color) := r in
        if cycle : bool then Some true else dfs_starts adj starts color
  end.

Definition sem_comb_edgeset_has_cycle : option bool :=
  if (length edges =? 0) || (net_count =? 0) then Some false
  else dfs_starts adjacency (seq 0 net_count) (replicate net_count 0).

(** *** Reachability *)

(** A pass over the neighbours of a net: whether [dst] was found, the visited
    nets and the stack; [None] when the stack outgrows its array. *)
Fixpoint push_unvisited (dst : nat) (ws : list nat) (visited : list bool) (stack : list nat) :
    option (bool * list bool * list nat) :=
  match ws with
  | [] => Some (false, visited, stack)
  | w :: ws =>
      if net_count <=? w then push_unvisited dst ws visited stack
      else if w =? dst then Some (true, visited, stack)
      else if nth w visited false then push_unvisited dst ws visited stack
      else if net_count <=? length stack then None
      else push_unvisited dst ws (<[w := true]> visited) (w :: stack)
  end.

Fixpoint reach (n : nat) (adj : Adjacency) (dst : nat) (visited : list bool) (stack : list nat) : option bool :=
  match n, stack with
  | _, [] => Some false
  | O, _ => None
  | S n', v :: stack =>
      r ← push_unvisited dst (neighbours adj v) visited stack;
      let '(found, visited, stack) := r in
      if found : bool then Some true else reach n' adj dst visited stack
  end.

Definition sem_comb_reachable_in_edgeset (src dst : nat) : option bool :=
  if (length edges =? 0) || (net_count =? 0) then Some false
  else if (net_count <=? src) || (net_count <=? dst) then Some false
  else
    let adj := adjacency in
    r ← push_unvisited dst (neighbours adj src) (replicate net_count false) [];
    let '(found, visited, stack) := r in
    if found : bool then Some true else reach net_count adj dst visited stack.
End Graph.

(** ** Verdicts *)

Definition sem_comb_union_has_cycle (paths : list Path) (net_count : nat) : option bool :=
  if net_count =? 0 then Some false
  else sem_comb_edgeset_has_cycle (concat paths) net_count.

Fixpoint any_path (paths : list Path) (net_count : nat) : option bool :=
  match paths with
  | [] => Some false
  | p :: paths =>
      if length p =? 0 then any_path paths net_count
      else
        c ← sem_comb_edgeset_has_cycle p net_count;
        if c : bool then Some true else any_path paths net_count
  end.

Definition sem_comb_any_path_has_cycle (paths : list Path) (net_count : nat) : option bool :=
  if net_count =? 0 then Some false else any_path paths net_count.

Inductive CombRule := COMB_LOOP_UNCONDITIONAL | COMB_LOOP_CONDITIONAL_SAFE.

(** What is reported for a block, from the paths through it. *)
Definition comb_verdict (paths : list Path) (net_count : nat) : option (option CombRule) :=
  any ← sem_comb_any_path_has_cycle paths net_count;
  if any : bool then Some (Some COMB_LOOP_UNCONDITIONAL)
  else
    union ← sem_comb_union_has_cycle paths net_count;
    if union : bool then Some (Some COMB_LOOP_CONDITIONAL_SAFE) else Some None.
