(* ===== verification/CombGraph.v ===== *)
(** * The searches of the combinational check

    The adjacency arrays hold the neighbours in the order of the edges; the
    depth-first search finds a cycle exactly if there is one, and the
    reachability search a path; both end, and neither stack outgrows its array. *)

From stdpp Require Import relations.
From S2P Require Import Prelude CString Ast SymTab NetGraph Comb.

Local Open Scope nat_scope.

(** Edges between nets below [n]. *)
Definition edge_rel (edges : Path) (n v w : nat) : Prop := mkEdge v w ∈ edges /\ v < n /\ w < n.

(** ** Adjacency arrays *)

Definition from_net (v : nat) (edges : Path) : Path := List.filter (fun e => src_net_ix e =? v) edges.

Lemma from_net_cons v e edges :
  from_net v (e :: edges) = if src_net_ix e =? v then e :: from_net v edges else from_net v edges.
Proof. done. Qed.

Fixpoint before_net (v : nat) (edges : Path) : nat :=
  match v with O => 0 | S u => before_net u edges + length (from_net u edges) end.

Lemma before_net_cons v e edges :
  before_net v (e :: edges) = before_net v edges + (if src_net_ix e <? v then 1 else 0).
Proof.
  induction v as [|v IH]; [done|]. cbn [before_net]. rewrite IH, from_net_cons.
  destruct (Nat.eqb_spec (src_net_ix e) v), (Nat.ltb_spec (src_net_ix e) v), (Nat.ltb_spec (src_net_ix e) (S v));
    cbn [length]; lia.
Qed.

Lemma before_net_length v edges : before_net v edges <= length edges.
Proof.
  assert (before_net v [] = 0) as H0 by (induction v as [|v IH]; [done|]; cbn [before_net]; by rewrite IH).
  induction edges as [|e edges IH]; [by rewrite H0|].
  rewrite before_net_cons. cbn [length]. destruct (_ <? _); lia.
Qed.

Lemma before_net_mono u v edges : u < v -> before_net u edges + length (from_net u edges) <= before_net v edges.
Proof. induction v as [|v IH]; [lia|]. cbn [before_net]. destruct (Nat.eq_dec u v) as [->|]; lia. Qed.

Lemma nth_alter v s (l : list nat) : s < length l ->
  nth v (alter S s l) 0 = nth v l 0 + (if v =? s then 1 else 0).
Proof.
  intros Hs. rewrite !nth_lookup, list_lookup_alter.
  destruct (Nat.eqb_spec v s) as [->|]; [|rewrite decide_False by done; lia].
  rewrite decide_True by done. destruct (l !! s) eqn:E; [cbn; lia|]. apply lookup_ge_None in E. lia.
Qed.

Lemma nth_insert {A} (d : A) v i x (l : list A) : i < length l -> nth v (<[i := x]> l) d = if v =? i then x else nth v l d.
Proof.
  intros Hi. rewrite !nth_lookup. destruct (Nat.eqb_spec v i) as [->|].
  - by rewrite list_lookup_insert_eq.
  - by rewrite list_lookup_insert_ne.
Qed.

Lemma nth_replicate {A} (x : A) n v : nth v (replicate n x) x = x.
Proof. revert v. induction n as [|n IH]; intros [|v]; cbn; auto. Qed.

Lemma nth_map_seq (f : nat -> nat) from len k : k < len -> nth k (map f (seq from len)) 0 = f (from + k).
Proof. revert from k. induction len as [|len IH]; intros from [|k] Hk; cbn; [lia..|by rewrite Nat.add_0_r|].
  rewrite IH by lia. f_equal. lia. Qed.

Section Adjacency.
Context (edges : Path) (n : nat).

Lemma adj_count_spec v : v < n -> nth v (adj_count edges n) 0 = length (from_net v edges).
Proof.
  intros Hv. unfold adj_count.
  assert (forall es count, length count = n ->
    nth v (fold_left (fun count e => if src_net_ix e <? n then alter S (src_net_ix e) count else count) es count) 0 =
    nth v count 0 + length (from_net v es)) as H.
  { induction es as [|e es IH]; intros count Hc; cbn [fold_left]; [cbn; lia|].
    rewrite from_net_cons. destruct (Nat.ltb_spec (src_net_ix e) n) as [He|He].
    - rewrite IH by (by rewrite length_alter). rewrite nth_alter by lia.
      rewrite (Nat.eqb_sym v). destruct (_ =? _); cbn [length]; lia.
    - rewrite IH by done. destruct (Nat.eqb_spec (src_net_ix e) v); [lia|done]. }
  rewrite H by apply length_replicate. by rewrite nth_replicate.
Qed.

Lemma offsets_spec v : v <= n -> nth v (offsets edges n) 0 = before_net v edges.
Proof.
  unfold offsets.
  assert (forall k, k <= n -> forall off,
    off = fold_left (fun off i => <[i + 1 := nth i off 0 + nth i (adj_count edges n) 0]> off) (seq 0 k)
            (replicate (n + 1) 0) ->
    length off = n + 1 /\ forall v, v <= k -> nth v off 0 = before_net v edges) as H.
  { induction k as [|k IH]; intros Hk off ->.
    - split; [apply length_replicate|]. intros w Hw. replace w with 0 by lia. cbn [seq fold_left]. by rewrite nth_replicate.
    - rewrite seq_S, Nat.add_0_l, fold_left_app. cbn [fold_left]. destruct (IH ltac:(lia) _ eq_refl) as [Hl Hv'].
      set (off := fold_left _ (seq 0 k) _) in *. split; [by rewrite length_insert|].
      intros w Hw. rewrite Nat.add_1_r, nth_insert by lia. destruct (Nat.eqb_spec w (S k)) as [->|]; [|apply Hv'; lia].
      cbn [before_net]. rewrite Hv' by lia. by rewrite adj_count_spec by lia. }
  intros Hv. by apply (H n (le_n _) _ eq_refl).
Qed.

(** After the edges [done], the part of each list that is filled. *)
Record filled (done : Path) (st : list nat * list nat) : Prop := {
  fl_dsts : length st.1 = length edges;
  fl_count : length st.2 = n;
  fl_counted : forall v, v < n -> nth v st.2 0 = length (from_net v done);
  fl_entry : forall v k, v < n -> k < length (from_net v done) ->
    nth (before_net v edges + k) st.1 0 = nth k (map dst_net_ix (from_net v done)) 0 }.

Lemma from_net_app v es1 es2 : from_net v (es1 ++ es2) = from_net v es1 ++ from_net v es2.
Proof. apply List.filter_app. Qed.

Lemma filled_step done e rest st : done ++ e :: rest = edges -> filled done st ->
  filled (done ++ [e]) (fill_step edges n st e).
Proof.
  intros He [H1 H2 H3 H4]. destruct st as [dsts count]. cbn [fst snd] in *. set (s := src_net_ix e).
  assert (forall v, from_net v (done ++ [e]) = from_net v done ++ (if s =? v then [e] else [])) as F by
    (intros v; rewrite from_net_app; cbn; fold s; by destruct (s =? v)).
  assert (fill_step edges n (dsts, count) e = if s <? n
    then (<[nth s (offsets edges n) 0 + nth s count 0 := dst_net_ix e]> dsts, alter S s count)
    else (dsts, count)) as -> by done.
  destruct (Nat.ltb_spec s n) as [Hs|Hs].
  2: { assert (forall v, v < n -> from_net v (done ++ [e]) = from_net v done) as F'.
       { intros v Hv. rewrite F. destruct (Nat.eqb_spec s v); [lia|apply app_nil_r]. }
       split; cbn; [done|done| |]; intros v *.
       - intros Hv. rewrite F' by done. auto.
       - intros Hv. rewrite F' by done. auto. }
  assert (forall v, length (from_net v done) + (if s =? v then 1 else 0) <= length (from_net v edges)) as Hle.
  { intros v. rewrite <- He, from_net_app, length_app. cbn. fold s. destruct (s =? v); cbn [length]; lia. }
  assert (before_net s edges + length (from_net s done) < length edges) as Hr.
  { pose proof (before_net_length (S s) edges) as Hb. cbn [before_net] in Hb.
    specialize (Hle s). rewrite Nat.eqb_refl in Hle. lia. }
  split; cbn.
  - by rewrite length_insert.
  - by rewrite length_alter.
  - intros v Hv. rewrite F, nth_alter, length_app, H3, (Nat.eqb_sym v) by lia. by destruct (s =? v).
  - intros v k Hv. rewrite F, H3, offsets_spec by lia. intros Hk. rewrite nth_insert by lia.
    destruct (Nat.eqb_spec (before_net v edges + k) (before_net s edges + length (from_net s done))) as [Hix|Hix].
    + assert (v = s) as ->.
      { destruct (Nat.lt_trichotomy v s) as [H|[H|H]]; [|done|]; pose proof (Hle v) as Lv; pose proof (Hle s) as Ls;
          rewrite Nat.eqb_refl in Ls; rewrite length_app in Hk; destruct (Nat.eqb_spec s v); try lia; cbn in Hk.
        - pose proof (before_net_mono v s edges H). lia.
        - pose proof (before_net_mono s v edges H). lia. }
      rewrite Nat.eqb_refl, map_app. rewrite app_nth2; rewrite length_map; [|lia].
      replace (k - length (from_net s done)) with 0 by lia. done.
    + destruct (Nat.eqb_spec s v) as [<-|Hne]; [|rewrite app_nil_r in *; by apply H4].
      rewrite length_app in Hk. cbn in Hk. rewrite map_app, app_nth1 by (rewrite length_map; lia). apply H4; lia.
Qed.

Lemma adjacency_filled : filled edges (fold_left (fill_step edges n) edges (replicate (length edges) 0, replicate n 0)).
Proof.
  assert (forall rest done st, done ++ rest = edges -> filled done st -> filled edges (fold_left (fill_step edges n) rest st)) as H.
  { induction rest as [|e rest IH]; intros done st He Hst; [by rewrite app_nil_r in He; subst done|].
    apply (IH (done ++ [e])); [by rewrite <- app_assoc|]. by apply (filled_step done e rest). }
  apply (H edges []); [done|]. split; cbn; [apply length_replicate|apply length_replicate|intros; apply nth_replicate|lia].
Qed.

Lemma neighbours_spec v : v < n -> neighbours (adjacency edges n) v = map dst_net_ix (from_net v edges).
Proof.
  intros Hv. unfold neighbours, adjacency. cbn [adj_offset adj_dst]. rewrite !offsets_spec, Nat.add_1_r by lia.
  cbn [before_net]. rewrite Nat.add_comm, Nat.add_sub. destruct adjacency_filled as [_ _ _ H].
  apply (nth_ext _ _ 0 0); rewrite !length_map, length_seq; [done|]. intros k Hk.
  rewrite nth_map_seq by done. by apply H.
Qed.

Lemma neighbours_edge v w : v < n -> w < n -> w ∈ neighbours (adjacency edges n) v <-> edge_rel edges n v w.
Proof.
  intros Hv Hw. rewrite neighbours_spec by done. unfold edge_rel, from_net. rewrite list_elem_of_fmap. split.
  - intros ([s d] & -> & [He Hs]%list_elem_of_In%filter_In). cbn in *. apply Nat.eqb_eq in Hs as ->.
    by rewrite list_elem_of_In.
  - intros [He _]. exists (mkEdge v w). split; [done|]. rewrite list_elem_of_In, filter_In, <- list_elem_of_In.
    cbn. by rewrite Nat.eqb_refl.
Qed.
End Adjacency.

(** ** The search for cycles *)

Definition cyclic (edges : Path) (n : nat) : Prop := exists v, tc (edge_rel edges n) v v.

(** The nets that are not visited yet. *)
Definition white (color : list nat) : nat := length (List.filter (fun c => c =? 0) color).

Lemma white_gray w (color : list nat) : w < length color -> nth w color 0 = 0 ->
  S (white (<[w := 1]> color)) = white color.
Proof.
  revert w. induction color as [|c color IH]; intros [|w] Hw Hc; cbn in Hw, Hc; [lia..| |].
  - subst c. done.
  - change (<[S w := 1]> (c :: color)) with (c :: <[w := 1]> color). unfold white in *. cbn.
    destruct (c =? 0); cbn; by rewrite <- (IH w) by (done || lia).
Qed.

Lemma white_black v (color : list nat) : nth v color 0 = 1 -> white (<[v := 2]> color) = white color.
Proof.
  revert v. induction color as [|c color IH]; intros [|v] Hc; cbn in Hc; [done..| |].
  - subst c. done.
  - change (<[S v := 2]> (c :: color)) with (c :: <[v := 2]> color). unfold white in *. cbn.
    by destruct (c =? 0); cbn; rewrite IH.
Qed.

Lemma white_le color : white color <= length color.
Proof. apply filter_length_le. Qed.

Lemma distinct_below (l : list nat) n : NoDup l -> (forall x, x ∈ l -> x < n) -> length l <= n.
Proof.
  intros Hn Hl. rewrite <- (length_seq n 0). apply submseteq_length, NoDup_submseteq; [done|].
  intros x Hx%Hl. apply elem_of_seq. lia.
Qed.

Section Dfs.
Context (edges : Path) (n : nat).
Notation E := (edge_rel edges n).
Notation adj := (adjacency edges n).

Lemma scan_spec color ws :
  match scan_neighbours n color ws with
  | CycleFound => exists w, w ∈ ws /\ w < n /\ nth w color 0 = 1
  | Push w => w ∈ ws /\ w < n /\ nth w color 0 = 0
  | Exhausted => forall w, w ∈ ws -> w < n -> nth w color 0 <> 0 /\ nth w color 0 <> 1
  end.
Proof.
  induction ws as [|w ws IH]; cbn; [by intros w ?%elem_of_nil|].
  destruct (Nat.leb_spec n w) as [Hw|Hw].
  { destruct (scan_neighbours n color ws); [destruct IH as (x & ? & ?); exists x; set_solver|set_solver|].
    intros x [-> |Hx]%elem_of_cons; [lia|auto]. }
  destruct (Nat.eqb_spec (nth w color 0) 1); [exists w; set_solver|].
  destruct (Nat.eqb_spec (nth w color 0) 0); [set_solver|].
  destruct (scan_neighbours n color ws); [destruct IH as (x & ? & ?); exists x; set_solver|set_solver|].
  intros x [-> |Hx]%elem_of_cons; auto.
Qed.

(** Each net on the stack was reached by an edge from the one below it. *)
Fixpoint linked (stack : list nat) : Prop :=
  match stack with
  | v :: (u :: _) as stack' => E u v /\ linked stack'
  | _ => True
  end.

Lemma linked_reaches w v stack : linked (v :: stack) -> w ∈ v :: stack -> rtc E w v.
Proof.
  revert v. induction stack as [|u stack IH]; intros v Hl [-> |Hw]%elem_of_cons; try done; [by apply elem_of_nil in Hw|].
  destruct Hl as [He Hl]. eapply rtc_r; [|exact He]. by apply IH.
Qed.

(** The state of the search.  A net that is done starts no infinite path. *)
Record searching (color stack : list nat) : Prop := {
  sg_length : length color = n;
  sg_gray : forall v, nth v color 0 = 1 <-> v ∈ stack;
  sg_distinct : NoDup stack;
  sg_linked : linked stack;
  sg_done : forall v, nth v color 0 <> 0 -> nth v color 0 <> 1 -> Acc (flip E) v }.

Lemma coloured_below color v : length color = n -> nth v color 0 <> 0 -> v < n.
Proof. intros <- Hv. destruct (Nat.lt_ge_cases v (length color)); [done|]. by rewrite nth_overflow in Hv. Qed.

Lemma searching_stack color stack v : searching color stack -> v ∈ stack -> v < n.
Proof. intros [H1 H2 _ _ _] Hv%H2. apply (coloured_below color); [done|lia]. Qed.

Lemma searching_room color stack w : searching color stack -> w < n -> nth w color 0 = 0 -> length stack < n.
Proof.
  intros Hs Hw Hc. assert (NoDup (w :: stack)) as Hn.
  { constructor; [|by destruct Hs]. intros H%(sg_gray _ _ Hs). lia. }
  assert (forall x, x ∈ w :: stack -> x ∈ seq 0 n) as Hin.
  { intros x [-> |Hx]%elem_of_cons; apply elem_of_seq; [lia|]. apply (searching_stack color stack) in Hx; [lia|done]. }
  apply (distinct_below _ n) in Hn; [cbn in Hn; lia|]. intros x Hx%Hin. apply elem_of_seq in Hx. lia.
Qed.

Lemma searching_push color stack v w : searching color (v :: stack) -> w ∈ neighbours adj v -> w < n ->
  nth w color 0 = 0 -> searching (<[w := 1]> color) (w :: v :: stack).
Proof.
  intros Hs Hnb Hw Hc. assert (v < n) as Hv by (eapply searching_stack; [exact Hs|by left]).
  destruct Hs as [H1 H2 H3 H4 H5]. assert (w ∉ v :: stack) as Hnew by (intros ?%H2; lia). split.
  - by rewrite length_insert.
  - intros x. rewrite nth_insert, (elem_of_cons _ x w) by lia. destruct (Nat.eqb_spec x w) as [->|]; [naive_solver|].
    rewrite H2. naive_solver.
  - by constructor.
  - split; [|done]. by apply neighbours_edge.
  - intros x. rewrite nth_insert by lia. destruct (Nat.eqb_spec x w); [done|apply H5].
Qed.

Lemma searching_pop color stack v : searching color (v :: stack) ->
  (forall w, w ∈ neighbours adj v -> w < n -> nth w color 0 <> 0 /\ nth w color 0 <> 1) ->
  searching (<[v := 2]> color) stack.
Proof.
  intros Hs Hnb. assert (v < n) as Hv by (eapply searching_stack; [exact Hs|by left]).
  destruct Hs as [H1 H2 H3 H4 H5]. apply NoDup_cons in H3 as [H3 H3']. split.
  - by rewrite length_insert.
  - intros x. rewrite nth_insert by lia. destruct (Nat.eqb_spec x v) as [->|]; [naive_solver|].
    rewrite H2, elem_of_cons. naive_solver.
  - done.
  - destruct stack; [done|apply H4].
  - intros x. rewrite nth_insert by lia. destruct (Nat.eqb_spec x v) as [->|]; [|apply H5].
    intros _ _. constructor. intros w Hw. pose proof Hw as (_ & _ & Hwn).
    apply (neighbours_edge edges n v w Hv Hwn) in Hw. apply H5; by apply Hnb.
Qed.

Lemma searching_cycle color stack v w : searching color (v :: stack) -> w ∈ neighbours adj v -> w < n ->
  nth w color 0 = 1 -> cyclic edges n.
Proof.
  intros Hs Hnb Hw Hc. assert (v < n) as Hv by (eapply searching_stack; [exact Hs|by left]).
  exists w. eapply tc_rtc_l; [|apply tc_once; by apply (neighbours_edge edges n v w)].
  eapply linked_reaches; [by apply Hs|]. by apply Hs.
Qed.

Lemma dfs_correct m : forall color stack, searching color stack -> 2 * white color + length stack < m ->
  exists cycle color', dfs n m adj color stack = Some (cycle, color') /\
    if cycle : bool then cyclic edges n
    else searching color' [] /\ (forall v, nth v color 0 <> 0 -> nth v color' 0 <> 0).
Proof.
  induction m as [|m IH]; intros color stack Hs Hm; [lia|]. cbn [dfs]. destruct stack as [|v stack]; [by exists false, color|].
  pose proof (scan_spec color (neighbours adj v)) as Hscan.
  destruct (scan_neighbours n color (neighbours adj v)) as [|w|].
  - destruct Hscan as (w & Hnb & Hw & Hc). exists true, color. split; [done|]. by eapply searching_cycle.
  - destruct Hscan as (Hnb & Hw & Hc). pose proof (searching_room _ _ w Hs Hw Hc) as Hroom.
    destruct (Nat.leb_spec n (length (v :: stack))); [lia|].
    pose proof (white_gray w color ltac:(by rewrite (sg_length _ _ Hs)) Hc) as Hwh.
    destruct (IH _ _ (searching_push _ _ _ _ Hs Hnb Hw Hc)) as (cycle & color' & E & H'); [cbn [length] in *; lia|].
    exists cycle, color'. split; [exact E|]. destruct cycle; [done|]. destruct H' as [H' Hk]. split; [done|].
    intros x Hx. apply Hk. rewrite nth_insert by (by rewrite (sg_length _ _ Hs)). by destruct (x =? w).
  - assert (v < n) as Hv by (eapply searching_stack; [exact Hs|by left]).
    assert (nth v color 0 = 1) as Hc by (apply (sg_gray _ _ Hs); by left).
    destruct (IH _ _ (searching_pop _ _ _ Hs Hscan)) as (cycle & color' & E & H').
    { rewrite white_black by done. cbn [length] in Hm. lia. }
    exists cycle, color'. split; [exact E|]. destruct cycle; [done|]. destruct H' as [H' Hk]. split; [done|].
    intros x Hx. apply Hk. rewrite nth_insert by (by rewrite (sg_length _ _ Hs)). by destruct (x =? v).
Qed.

Lemma searching_start color start : searching color [] -> start < n -> nth start color 0 = 0 ->
  searching (<[start := 1]> color) [start].
Proof.
  intros [H1 H2 H3 H4 H5] Hn Hc. split.
  - by rewrite length_insert.
  - intros x. rewrite nth_insert, list_elem_of_singleton by lia. destruct (Nat.eqb_spec x start) as [->|]; [by split|].
    rewrite H2. split; [by intros ?%elem_of_nil|done].
  - apply NoDup_singleton.
  - done.
  - intros x. rewrite nth_insert by lia. destruct (Nat.eqb_spec x start); [done|apply H5].
Qed.

Lemma searching_isolated color start : searching color [] -> start < n ->
  neighbours adj start = [] -> searching (<[start := 2]> color) [].
Proof.
  intros [H1 H2 H3 H4 H5] Hn Hnb. split; [by rewrite length_insert| |done|done|].
  - intros x. rewrite nth_insert by lia. destruct (Nat.eqb_spec x start) as [->|]; [|apply H2].
    split; [done|by intros ?%elem_of_nil].
  - intros x. rewrite nth_insert by lia. destruct (Nat.eqb_spec x start) as [->|]; [|apply H5].
    intros _ _. constructor. intros w Hw. pose proof Hw as (_ & _ & Hwn).
    apply (neighbours_edge edges n start w Hn Hwn) in Hw. rewrite Hnb in Hw. by apply elem_of_nil in Hw.
Qed.

Lemma all_done_acyclic color : searching color [] -> (forall v, v < n -> nth v color 0 <> 0) -> ~ cyclic edges n.
Proof.
  intros Hs Hall [v Hv]. assert (v < n) as Hvn by (inversion Hv as [? ? (_ & ? & _)|? ? ? (_ & ? & _)]; subst; done).
  assert (nth v color 0 <> 1) as H1 by (intros ?%(sg_gray _ _ Hs)%elem_of_nil; done).
  pose proof (sg_done _ _ Hs v (Hall v Hvn) H1) as Ha. clear - Ha Hv.
  induction Ha as [v _ IH]. inversion Hv as [? ? He|? u ? He Ht]; subst.
  - eapply (IH v He). by apply tc_once.
  - eapply (IH u He). eapply tc_r; [exact Ht|exact He].
Qed.

Lemma dfs_starts_correct starts : forall color, searching color [] ->
  (forall v, v ∈ starts -> v < n) -> (forall v, v < n -> v ∉ starts -> nth v color 0 <> 0) ->
  exists cycle, dfs_starts n adj starts color = Some cycle /\ (cycle = true <-> cyclic edges n).
Proof.
  induction starts as [|start starts IH]; intros color Hs Hlt Hcol; cbn [dfs_starts].
  - exists false. split; [done|]. split; [done|]. intros Hc. exfalso. eapply all_done_acyclic; [exact Hs| |exact Hc].
    intros v Hv. apply Hcol; [done|by intros ?%elem_of_nil].
  - assert (start < n) as Hst by (apply Hlt; by left).
    assert (forall color', searching color' [] -> (forall v, nth v color 0 <> 0 -> nth v color' 0 <> 0) ->
      nth start color' 0 <> 0 -> exists cycle, dfs_starts n adj starts color' = Some cycle /\ (cycle = true <-> cyclic edges n)) as Hnext.
    { intros color' Hs' Hk Hc. apply IH; [done|intros v Hv; apply Hlt; by right|]. intros v Hv Hv'.
      destruct (decide (v = start)) as [->|]; [done|]. apply Hk, Hcol; [done|]. rewrite elem_of_cons. tauto. }
    destruct (Nat.eqb_spec (nth start color 0) 0) as [Hc|Hc]; [|by apply Hnext].
    assert (forall x (v : nat), nth v color 0 <> 0 -> x <> 0 -> nth v (<[start := x]> color) 0 <> 0) as Hins.
    { intros x v Hv Hx. rewrite nth_insert by (by rewrite (sg_length _ _ Hs)). by destruct (v =? start). }
    cbn [negb adj_offset adjacency]. destruct (Nat.eqb_spec (nth (start + 1) (offsets edges n) 0) (nth start (offsets edges n) 0)) as [Eo|_].
    + apply Hnext; [|by auto|by rewrite nth_insert, Nat.eqb_refl by (by rewrite (sg_length _ _ Hs))].
      apply searching_isolated; [done|done|]. unfold neighbours. cbn [adj_offset adjacency]. by rewrite Eo, Nat.sub_diag.
    + pose proof (white_gray start color ltac:(by rewrite (sg_length _ _ Hs)) Hc) as Hwh.
      pose proof (white_le color) as Hle. rewrite (sg_length _ _ Hs) in Hle.
      destruct (dfs_correct (2 * n + 1) _ _ (searching_start _ _ Hs Hst Hc)) as (cycle & color' & -> & H'); [cbn [length]; lia|].
      cbn [mbind option_bind]. destruct cycle; [by exists true|]. destruct H' as [Hs' Hk]. apply Hnext; [done| |].
      * intros v Hv. apply Hk. auto.
      * apply Hk. by rewrite nth_insert, Nat.eqb_refl by (by rewrite (sg_length _ _ Hs)).
Qed.

Lemma cyclic_nil : edges = [] \/ n = 0 -> ~ cyclic edges n.
Proof.
  intros H [v Hv]. assert (v < n /\ exists e, e ∈ edges) as [Hn [e He]].
  { inversion Hv as [? ? (? & ? & _)|? ? ? (? & ? & _)]; subst; eauto. }
  destruct H as [->| ->]; [by apply elem_of_nil in He|lia].
Qed.
End Dfs.

(** The search ends, its stack fits, and it finds a cycle if there is one. *)
Lemma edgeset_has_cycle_correct edges n :
  exists cycle, sem_comb_edgeset_has_cycle edges n = Some cycle /\ (cycle = true <-> cyclic edges n).
Proof.
  unfold sem_comb_edgeset_has_cycle. destruct (Nat.eqb_spec (length edges) 0) as [H0|_]; cbn [orb].
  { exists false. split; [done|]. split; [done|]. intros Hc. exfalso. apply (cyclic_nil edges n); [|done].
    left. by apply length_zero_iff_nil. }
  destruct (Nat.eqb_spec n 0) as [H0|_].
  { exists false. split; [done|]. split; [done|]. intros Hc. exfalso. apply (cyclic_nil edges n); auto. }
  apply dfs_starts_correct.
  - split; [apply length_replicate| |constructor|done|]; intros v; rewrite nth_replicate; [|done].
    split; [done|by intros ?%elem_of_nil].
  - intros v Hv%elem_of_seq. lia.
  - intros v Hv Hv'. exfalso. apply Hv', elem_of_seq. lia.
Qed.

(** ** The search for a path *)

Definition unvisited (visited : list bool) : nat := length (List.filter negb visited).

Lemma unvisited_set w (visited : list bool) : w < length visited -> nth w visited false = false ->
  S (unvisited (<[w := true]> visited)) = unvisited visited.
Proof.
  revert w. induction visited as [|b visited IH]; intros [|w] Hw Hb; cbn in Hw, Hb; [lia..| |].
  - subst b. done.
  - change (<[S w := true]> (b :: visited)) with (b :: <[w := true]> visited). unfold unvisited in *. cbn.
    destruct b; cbn; by rewrite <- (IH w) by (done || lia).
Qed.

Lemma visited_below visited v n : length visited = n -> nth v visited false = true -> v < n.
Proof. intros <- Hv. destruct (Nat.lt_ge_cases v (length visited)); [done|]. by rewrite nth_overflow in Hv. Qed.

Lemma tc_below edges n v w : tc (edge_rel edges n) v w -> v < n /\ w < n.
Proof. induction 1 as [v w (_ & ? & ?)|v u w (_ & ? & _) _ [_ ?]]; done. Qed.

Section Reach.
Context (edges : Path) (n src dst : nat).
Notation E := (edge_rel edges n).
Notation adj := (adjacency edges n).

(** The stack holds different visited nets. *)
Record stacked (visited : list bool) (stack : list nat) : Prop := {
  sk_length : length visited = n;
  sk_distinct : NoDup stack;
  sk_visited : forall v, v ∈ stack -> nth v visited false = true }.

(** After a pass over [ws] that does not find the target. *)
Record passed (ws : list nat) (visited visited' : list bool) (stack stack' : list nat) : Prop := {
  pa_stacked : stacked visited' stack';
  pa_keeps : forall v, nth v visited false = true -> nth v visited' false = true;
  pa_new : forall v, nth v visited' false = true -> nth v visited false = true \/ (v ∈ ws /\ v <> dst /\ v ∈ stack');
  pa_stack : forall v, v ∈ stack -> v ∈ stack';
  pa_all : forall w, w ∈ ws -> w < n -> nth w visited' false = true /\ w <> dst;
  pa_count : unvisited visited' + length stack' = unvisited visited + length stack }.

Lemma passed_skip w ws visited visited' stack stack' :
  (w < n -> nth w visited false = true /\ w <> dst) ->
  passed ws visited visited' stack stack' -> passed (w :: ws) visited visited' stack stack'.
Proof.
  intros Hw [H1 H2 H3 H4 H5 H6]. split; [done|done| |done| |done].
  - intros v Hv. destruct (H3 v Hv) as [?|(? & ? & ?)]; [by left|right]. split_and!; [by right|done|done].
  - intros x [->|Hx]%elem_of_cons Hn; [|by apply H5]. destruct (Hw Hn). split; [by apply H2|done].
Qed.

Lemma passed_push w ws visited visited' stack stack' : stacked visited stack ->
  w < n -> w <> dst -> nth w visited false = false ->
  passed ws (<[w := true]> visited) visited' (w :: stack) stack' -> passed (w :: ws) visited visited' stack stack'.
Proof.
  intros Hs Hw Hd Hf [H1 H2 H3 H4 H5 H6]. pose proof (sk_length _ _ Hs) as Hl.
  assert (forall v, nth v (<[w := true]> visited) false = if v =? w then true else nth v visited false) as Hn
    by (intros v; apply nth_insert; lia).
  split.
  - done.
  - intros v Hv. apply H2. rewrite Hn. by destruct (v =? w).
  - intros v Hv. destruct (H3 v Hv) as [Hv'|(? & ? & ?)]; [|by right; split_and!; [right|..]].
    rewrite Hn in Hv'. destruct (Nat.eqb_spec v w) as [->|]; [|by left].
    right. split_and!; [by left|done|]. apply H4. by left.
  - intros v Hv. apply H4. by right.
  - intros x [->|Hx]%elem_of_cons Hn'; [|by apply H5]. split; [|done]. apply H2. by rewrite Hn, Nat.eqb_refl.
  - rewrite H6. rewrite <- (unvisited_set w visited) by (done || lia). cbn [length]. lia.
Qed.

Lemma push_correct ws : forall visited stack, stacked visited stack ->
  exists found visited' stack', push_unvisited n dst ws visited stack = Some (found, visited', stack') /\
    if found : bool then dst ∈ ws /\ dst < n else passed ws visited visited' stack stack'.
Proof.
  induction ws as [|w ws IH]; intros visited stack Hs; cbn [push_unvisited].
  { exists false, visited, stack. split; [done|]. split; try done; intros v *; [by left|by intros ?%elem_of_nil]. }
  assert (forall r, (exists found visited' stack', r = Some (found, visited', stack') /\
      if found : bool then dst ∈ ws /\ dst < n else passed ws visited visited' stack stack') ->
    (w < n -> nth w visited false = true /\ w <> dst) ->
    exists found visited' stack', r = Some (found, visited', stack') /\
      if found : bool then dst ∈ w :: ws /\ dst < n else passed (w :: ws) visited visited' stack stack') as Hskip.
  { intros r (found & visited' & stack' & -> & H) Hw. exists found, visited', stack'. split; [done|].
    destruct found; [destruct H; split; [by right|done]|by apply passed_skip]. }
  destruct (Nat.leb_spec n w) as [Hn|Hn]; [apply Hskip; [exact (IH _ _ Hs)|lia]|].
  destruct (Nat.eqb_spec w dst) as [->|Hd]; [exists true, visited, stack; repeat split; [by left|done]|].
  destruct (nth w visited false) eqn:Ew; [apply Hskip; [exact (IH _ _ Hs)|done]|].
  assert (length stack < n) as Hroom.
  { assert (NoDup (w :: stack)) as Hnd.
    { constructor; [|apply Hs]. intros H%(sk_visited _ _ Hs). congruence. }
    apply (distinct_below _ n) in Hnd; [cbn in Hnd; lia|]. intros x [->|Hx]%elem_of_cons; [done|].
    eapply visited_below; [by apply Hs|by apply Hs]. }
  destruct (Nat.leb_spec n (length stack)); [lia|].
  assert (stacked (<[w := true]> visited) (w :: stack)) as Hs'.
  { destruct Hs as [H1 H2 H3]. split; [by rewrite length_insert| |].
    - constructor; [|done]. intros Hw%H3. congruence.
    - intros v Hv. rewrite nth_insert by lia. destruct (Nat.eqb_spec v w); [done|]. apply H3.
      by apply elem_of_cons in Hv as [?|?]. }
  destruct (IH _ _ Hs') as (found & visited' & stack' & -> & H'). exists found, visited', stack'. split; [done|].
  destruct found; [destruct H'; split; [by right|done]|by apply passed_push].
Qed.

(** Between the passes: what is visited can be reached, and all neighbours of
    the source and of what has been popped are visited. *)
Record reaching (visited : list bool) (stack : list nat) : Prop := {
  re_stacked : stacked visited stack;
  re_reached : forall v, nth v visited false = true -> tc E src v;
  re_closed : forall v w, v = src \/ (nth v visited false = true /\ v ∉ stack) -> E v w ->
    nth w visited false = true /\ w <> dst }.

Lemma reaching_closed visited : reaching visited [] -> ~ tc E src dst.
Proof.
  intros [H1 H2 H3] Hr. assert (forall v, tc E src v -> nth v visited false = true /\ v <> dst) as H.
  { apply tc_ind_r; [intros v Hv; eapply H3; [by left|done]|]. intros v w _ Hw [IH _].
    eapply H3; [right; split; [exact IH|by intros ?%elem_of_nil]|done]. }
  by apply (H dst).
Qed.

Lemma reach_correct m : forall visited stack, reaching visited stack ->
  unvisited visited + length stack <= m ->
  exists found, reach n m adj dst visited stack = Some found /\ (found = true <-> tc E src dst).
Proof.
  assert (forall visited, reaching visited [] -> exists found, Some false = Some found /\ (found = true <-> tc E src dst)) as Hnil.
  { intros visited Hv. exists false. split; [done|]. split; [done|]. intros Hr. exfalso. by eapply reaching_closed. }
  induction m as [|m IH]; intros visited [|v stack] Hr Hm; cbn [reach]; [by eapply Hnil|cbn in Hm; lia|by eapply Hnil|].
  destruct Hr as [Hs Hreach Hclosed].
  assert (nth v visited false = true) as Hvis by (apply Hs; by left).
  assert (v < n) as Hv by (eapply visited_below; [by apply Hs|done]).
  assert (stacked visited stack) as Hs'.
  { destruct Hs as [H1 H2 H3]. split; [done|by apply NoDup_cons in H2 as [_ ?]|]. intros x Hx. apply H3. by right. }
  destruct (push_correct (neighbours adj v) visited stack Hs') as (found & visited' & stack' & -> & H').
  cbn [mbind option_bind]. destruct found.
  - exists true. split; [done|]. split; [|done]. intros _. destruct H' as [H' Hd].
    eapply tc_r; [by apply Hreach|]. by apply neighbours_edge.
  - destruct H' as [P1 P2 P3 P4 P5 P6]. apply IH; [|cbn [length] in Hm; lia]. split; [done| |].
    + intros x Hx. destruct (P3 x Hx) as [Hx'|(Hnb & _ & Hst)]; [by apply Hreach|].
      eapply tc_r; [by apply Hreach|]. apply neighbours_edge; [done| |done].
      eapply visited_below; [by apply P1|done].
    + intros x w Hx Hw. assert (v ∉ stack) as Hvs by (by apply sk_distinct, NoDup_cons in Hs as [? _]).
      destruct (decide (x = v)) as [->|Hxv].
      * pose proof Hw as (_ & _ & Hwn). apply P5; [by apply neighbours_edge|done].
      * assert (x = src \/ (nth x visited false = true /\ x ∉ v :: stack)) as Hx'.
        { destruct Hx as [->|[Hx Hx']]; [by left|right]. destruct (P3 x Hx) as [?|(_ & _ & ?)]; [|done].
          split; [done|]. rewrite elem_of_cons. intros [?|?%P4]; done. }
        destruct (Hclosed x w Hx' Hw) as [Hvw ?]. split; [by apply P2|done].
Qed.

(** The search ends, its stack fits, and it finds the target if a path of at
    least one edge leads to it. *)
Lemma reachable_correct :
  exists found, sem_comb_reachable_in_edgeset edges n src dst = Some found /\ (found = true <-> tc E src dst).
Proof.
  assert (forall b, b = false -> ~ tc E src dst -> exists found, Some b = Some found /\ (found = true <-> tc E src dst)) as Hno.
  { intros b -> Hr. exists false. split; [done|]. split; [done|tauto]. }
  unfold sem_comb_reachable_in_edgeset. destruct (Nat.eqb_spec (length edges) 0) as [H0|_]; cbn [orb].
  { apply Hno; [done|]. apply length_zero_iff_nil in H0. intros Hr.
    assert (exists e, e ∈ edges) as [e He] by (inversion Hr as [? ? (? & _)|? ? ? (? & _)]; eauto).
    rewrite H0 in He. by apply elem_of_nil in He. }
  destruct (Nat.eqb_spec n 0) as [H0|_]; [apply Hno; [done|]; intros Hr%tc_below; lia|]. cbn [orb].
  destruct (Nat.leb_spec n src) as [Hs|Hs]; [apply Hno; [done|]; intros Hr%tc_below; lia|].
  destruct (Nat.leb_spec n dst) as [Hd|Hd]; [apply Hno; [done|]; intros Hr%tc_below; lia|]. cbn [orb].
  assert (stacked (replicate n false) []) as Hst.
  { split; [apply length_replicate|constructor|by intros v ?%elem_of_nil]. }
  destruct (push_correct (neighbours adj src) _ _ Hst) as (found & visited & stack & -> & H').
  cbn [mbind option_bind]. destruct found.
  - exists true. split; [done|]. split; [|done]. intros _. apply tc_once. destruct H' as [H' _]. by apply neighbours_edge.
  - destruct H' as [P1 P2 P3 P4 P5 P6]. apply reach_correct.
    + split; [done| |].
      * intros x Hx. destruct (P3 x Hx) as [Hx'|(Hnb & _ & _)]; [by rewrite nth_replicate in Hx'|].
        apply tc_once, neighbours_edge; [done| |done]. eapply visited_below; [by apply P1|done].
      * intros x w Hx Hw. assert (x = src) as ->.
        { destruct Hx as [?|[Hx Hx']]; [done|]. destruct (P3 x Hx) as [Hv|(_ & _ & ?)]; [|done].
          by rewrite nth_replicate in Hv. }
        pose proof Hw as (_ & _ & Hwn). apply P5; [by apply neighbours_edge|done].
    + rewrite P6. unfold unvisited. pose proof (filter_length_le negb (replicate n false)) as Hle.
      rewrite length_replicate in Hle. cbn [length]. lia.
Qed.
End Reach.
