(* ===== verification/CombPaths.v ===== *)
(** * The paths of the combinational check are the ways through a block

    A way through a list of statements takes one branch of every conditional.
    Where the walk handles all statements, its paths cover the ways, consist of
    them, and up to 256 are exactly them. *)

From stdpp Require Import relations.
From S2P Require Import Prelude CString Ast SymTab NetGraph Comb CombGraph.

Local Open Scope nat_scope.

(** ** Removing duplicates *)

Lemma land_bit_zero b k : (0 <= k)%Z -> (Z.land b (Z.shiftl 1 k) =? 0)%Z = negb (Z.testbit b k).
Proof.
  intros Hk. assert (forall j, (0 <= j)%Z -> Z.testbit (Z.shiftl 1 k) j = (j =? k)%Z) as Hb.
  { intros j Hj. rewrite Z.shiftl_mul_pow2, Z.mul_1_l by done. destruct (Z.eqb_spec j k) as [->|].
    - by apply Z.pow2_bits_true.
    - apply Z.pow2_bits_false. lia. }
  destruct (Z.testbit b k) eqn:E; cbn [negb].
  - apply Z.eqb_neq. intros H. assert (Z.testbit (Z.land b (Z.shiftl 1 k)) k = false) as H' by (by rewrite H, Z.testbit_0_l).
    by rewrite Z.land_spec, E, Hb, Z.eqb_refl in H'.
  - apply Z.eqb_eq, Z.bits_inj'. intros j Hj. rewrite Z.land_spec, Hb, Z.testbit_0_l by done.
    destruct (Z.eqb_spec j k) as [->|]; [by rewrite E|apply andb_false_r].
Qed.

Lemma lor_bit b k j : (0 <= k)%Z -> (0 <= j)%Z ->
  Z.testbit (Z.lor b (Z.shiftl 1 k)) j = Z.testbit b j || (j =? k)%Z.
Proof.
  intros Hk Hj. rewrite Z.lor_spec, Z.shiftl_mul_pow2, Z.mul_1_l by done. f_equal. destruct (Z.eqb_spec j k) as [->|].
  - by apply Z.pow2_bits_true.
  - apply Z.pow2_bits_false. lia.
Qed.

Lemma same_edge_spec e f : same_edge e f = true <-> e = f.
Proof.
  unfold same_edge. rewrite andb_true_iff, !Nat.eqb_eq. destruct e, f; cbn. naive_solver.
Qed.

Section Bitmap.
Context (n : nat).

Definition edge_key (e : JZCombEdge) : nat := src_net_ix e * n + dst_net_ix e.
Definition small (e : JZCombEdge) : Prop := src_net_ix e < n /\ dst_net_ix e < n.

Definition seen_key (seen : list Z) (key : nat) : bool :=
  Z.testbit (nth (key / 8) seen 0%Z) (Z.of_nat (key mod 8)).

Lemma edge_key_inj e f : small e -> small f -> edge_key e = edge_key f -> e = f.
Proof.
  intros [_ He] [_ Hf] H. destruct e as [s d], f as [s' d']. unfold edge_key in H. cbn in *.
  destruct (Nat.div_mod_unique n s s' d d') as [-> ->]; [lia..|done].
Qed.

Lemma edge_key_fits e : small e -> edge_key e / 8 < (n * n + 7) / 8.
Proof.
  intros [Hs Hd]. assert (edge_key e < n * n) as H by (unfold edge_key; nia).
  apply Nat.Div0.div_lt_upper_bound. pose proof (Nat.div_mod_eq (n * n + 7) 8).
  pose proof (Nat.mod_upper_bound (n * n + 7) 8). lia.
Qed.

Lemma seen_key_set seen key key' : key / 8 < length seen ->
  seen_key (<[key / 8 := Z.lor (nth (key / 8) seen 0%Z) (Z.shiftl 1 (Z.of_nat (key mod 8)))]> seen) key' =
  seen_key seen key' || (key' =? key).
Proof.
  intros Hl. unfold seen_key. rewrite nth_insert by done.
  pose proof (Nat.div_mod_eq key 8). pose proof (Nat.div_mod_eq key' 8).
  destruct (Nat.eqb_spec (key' / 8) (key / 8)) as [E|E].
  - rewrite lor_bit, E by lia. f_equal.
    destruct (Nat.eqb_spec key' key), (Z.eqb_spec (Z.of_nat (key' mod 8)) (Z.of_nat (key mod 8))); congruence || lia.
  - destruct (Nat.eqb_spec key' key); [congruence|]. by rewrite orb_false_r.
Qed.

Lemma dedup_bitmap_scan edges : forall seen kept, Forall small edges -> Forall small kept ->
  length seen = (n * n + 7) / 8 ->
  (forall e, small e -> seen_key seen (edge_key e) = existsb (fun k => same_edge k e) kept) ->
  dedup_bitmap n seen kept edges = dedup_scan kept edges.
Proof.
  induction edges as [|e edges IH]; intros seen kept He Hk Hl Hs; [done|].
  apply Forall_cons in He as [He Hes]. cbn [dedup_bitmap dedup_scan]. fold (edge_key e).
  rewrite land_bit_zero by lia. fold (seen_key seen (edge_key e)). rewrite Hs by done.
  destruct (existsb _ kept); cbn [negb]; [by apply IH|]. apply IH; [done| |by rewrite length_insert|].
  - apply Forall_app. by split; [|constructor].
  - intros f Hf. rewrite seen_key_set by (rewrite Hl; by apply edge_key_fits).
    rewrite Hs, existsb_app by done. cbn. rewrite orb_false_r. f_equal.
    destruct (Nat.eqb_spec (edge_key f) (edge_key e)) as [E|E].
    + symmetry. apply same_edge_spec. by apply edge_key_inj.
    + symmetry. apply not_true_iff_false. rewrite same_edge_spec. congruence.
Qed.
End Bitmap.

Lemma dedup_scan_elem edges e : forall kept, e ∈ dedup_scan kept edges <-> e ∈ kept \/ e ∈ edges.
Proof.
  induction edges as [|f edges IH]; intros kept; cbn [dedup_scan].
  - rewrite elem_of_nil. tauto.
  - rewrite IH, elem_of_cons. destruct (existsb _ kept) eqn:E.
    + apply existsb_exists in E as (k & Hk%list_elem_of_In & ->%same_edge_spec). naive_solver.
    + rewrite elem_of_app, list_elem_of_singleton. tauto.
Qed.

Lemma max_step_bounds m e : m <= max_step m e /\ src_net_ix e <= max_step m e /\ dst_net_ix e <= max_step m e.
Proof.
  unfold max_step. cbv zeta. destruct (Nat.ltb_spec m (src_net_ix e));
    match goal with |- context [?a <? ?b] => destruct (Nat.ltb_spec a b) end; lia.
Qed.

Lemma max_net_small edges : Forall (small (max_net edges + 1)) edges.
Proof.
  assert (forall es m, m <= fold_left max_step es m /\ Forall (small (fold_left max_step es m + 1)) es) as H.
  { induction es as [|e es IH]; intros m; cbn [fold_left]; [by split|].
    destruct (IH (max_step m e)) as [H1 H2], (max_step_bounds m e) as (H3 & H4 & H5).
    split; [lia|]. constructor; [split; lia|exact H2]. }
  apply (H edges 0).
Qed.

(** The bitmap keeps what the scan keeps, and both the same set of edges. *)
Lemma dedup_is_scan edges : 1 < length edges -> dedup edges = dedup_scan [] edges.
Proof.
  intros Hl. unfold dedup. destruct (Nat.leb_spec (length edges) 1); [lia|]. destruct (_ <=? _)%Z; [|done].
  apply dedup_bitmap_scan; [apply max_net_small|constructor|apply length_replicate|].
  intros e _. unfold seen_key. by rewrite nth_replicate, Z.testbit_0_l.
Qed.

Lemma dedup_elem edges e : e ∈ dedup edges <-> e ∈ edges.
Proof.
  destruct (Nat.le_gt_cases (length edges) 1) as [H|H].
  - unfold dedup. destruct (Nat.leb_spec (length edges) 1); [done|lia].
  - rewrite dedup_is_scan, dedup_scan_elem, elem_of_nil by done. tauto.
Qed.

(** ** Ways through statements *)

Definition is_nil {A} (l : list A) : bool := match l with [] => true | _ => false end.

(** The statements of a branch of an IF chain. *)
Definition branch_body (s : JZASTNode) : list JZASTNode :=
  match ast_type s with
  | JZ_AST_STMT_IF | JZ_AST_STMT_ELIF => tail (ast_children s)
  | JZ_AST_STMT_ELSE => ast_children s
  | _ => []
  end.

(** Those of a label of a SELECT. *)
Definition label_body (s : JZASTNode) : list JZASTNode :=
  match ast_type s with JZ_AST_STMT_CASE => tail (ast_children s) | _ => ast_children s end.

Definition labels (s : JZASTNode) : list JZASTNode := tail (ast_children s).

Definition ends_in_else (chain : list JZASTNode) : bool :=
  match last chain with Some s => node_is JZ_AST_STMT_ELSE s | None => false end.

Section Ways.
Context (scope : JZModuleScope) (g : NetGraph).

(** The edges of one way through a list of statements: an IF chain takes one of
    its branches, or none if it has no ELSE; a SELECT takes one label, or none
    if it has no DEFAULT; a feature guard one of its branches or none. *)
Inductive way : list JZASTNode -> Path -> Prop :=
  | way_nil : way [] []
  | way_assign s rest es : ast_type s = JZ_AST_STMT_ASSIGN -> way rest es ->
      way (s :: rest) (assign_edges scope g (ast_block_kind s) (ast_children s) ++ es)
  | way_branch s rest more rest' branch es1 es2 : ast_type s = JZ_AST_STMT_IF ->
      chain_rest rest = (more, rest') -> branch ∈ s :: more ->
      way (branch_body branch) es1 -> way rest' es2 -> way (s :: rest) (es1 ++ es2)
  | way_no_branch s rest more rest' es : ast_type s = JZ_AST_STMT_IF ->
      chain_rest rest = (more, rest') -> ends_in_else (s :: more) = false ->
      way rest' es -> way (s :: rest) es
  | way_label s rest label es1 es2 : ast_type s = JZ_AST_STMT_SELECT -> label ∈ labels s ->
      way (label_body label) es1 -> way rest es2 -> way (s :: rest) (es1 ++ es2)
  | way_no_label s rest es : ast_type s = JZ_AST_STMT_SELECT -> has_default (labels s) = false ->
      way rest es -> way (s :: rest) es
  | way_block s rest es1 es2 : ast_type s = JZ_AST_BLOCK ->
      way (ast_children s) es1 -> way rest es2 -> way (s :: rest) (es1 ++ es2)
  | way_guarded s rest branch es1 es2 : ast_type s = JZ_AST_FEATURE_GUARD -> branch ∈ tail (ast_children s) ->
      way (ast_children branch) es1 -> way rest es2 -> way (s :: rest) (es1 ++ es2)
  | way_not_guarded s rest es : ast_type s = JZ_AST_FEATURE_GUARD -> way rest es -> way (s :: rest) es
  | way_other s rest es :
      ast_type s ∉ [JZ_AST_STMT_ASSIGN; JZ_AST_STMT_IF; JZ_AST_STMT_SELECT; JZ_AST_BLOCK; JZ_AST_FEATURE_GUARD] ->
      way rest es -> way (s :: rest) es.

(** ** The statements the walk handles *)

(** Inside other statements it takes an IF alone, ignoring ELIF and ELSE, and
    everywhere it ignores feature guards; a SELECT with a DEFAULT whose labels
    are all empty ends all paths. *)
Fixpoint handled (s : JZASTNode) : bool :=
  match s with
  | mkNode ty _ _ _ _ _ cs =>
      match ty with
      | JZ_AST_STMT_IF => match cs with [] => true | _ :: body => forallb handled body end
      | JZ_AST_STMT_SELECT =>
          match cs with
          | [] => true
          | _ :: labels =>
              forallb (fun l => match l with
                                | mkNode JZ_AST_STMT_CASE _ _ _ _ _ (_ :: body) => forallb handled body
                                | mkNode _ _ _ _ _ _ body => forallb handled body
                                end) labels &&
              (negb (has_default labels) || negb (forallb (fun l => is_nil (label_body l)) labels))
          end
      | JZ_AST_BLOCK => forallb handled cs
      | JZ_AST_STMT_ELIF | JZ_AST_STMT_ELSE | JZ_AST_FEATURE_GUARD => false
      | _ => true
      end
  end.

(** At the top of a block, ELIF and ELSE are handled too. *)
Definition handled_top (s : JZASTNode) : bool :=
  match ast_type s with
  | JZ_AST_STMT_ELIF | JZ_AST_STMT_ELSE => forallb handled (branch_body s)
  | _ => handled s
  end.

(** The number of ways through a handled statement, empty labels aside. *)
Definition sum (l : list nat) : nat := fold_right plus 0 l.
Definition product (l : list nat) : nat := fold_right mult 1 l.

Fixpoint choices (s : JZASTNode) : nat :=
  match s with
  | mkNode ty _ _ _ _ _ cs =>
      match ty with
      | JZ_AST_STMT_IF =>
          match cs with [] => 2 | _ :: body => product (map choices body) + 1 end
      | JZ_AST_STMT_SELECT =>
          match cs with
          | [] => 1
          | _ :: labels =>
              sum (map (fun l => match l with
                                 | mkNode JZ_AST_STMT_CASE _ _ _ _ _ ([] | [_]) => 0
                                 | mkNode JZ_AST_STMT_CASE _ _ _ _ _ (_ :: body) => product (map choices body)
                                 | mkNode _ _ _ _ _ _ [] => 0
                                 | mkNode _ _ _ _ _ _ body => product (map choices body)
                                 end) labels) + (if has_default labels then 0 else 1)
          end
      | JZ_AST_BLOCK => product (map choices cs)
      | _ => 1
      end
  end.

Definition body_choices (body : list JZASTNode) : nat := product (map choices body).

Definition chain_choices (chain : list JZASTNode) : nat :=
  sum (map (fun s => body_choices (branch_body s)) chain) + (if ends_in_else chain then 0 else 1).

Fixpoint block_choices (n : nat) (stmts : list JZASTNode) : nat :=
  match n, stmts with
  | S n', s :: rest =>
      if node_is JZ_AST_STMT_IF s then
        let '(more, rest) := chain_rest rest in chain_choices (s :: more) * block_choices n' rest
      else choices s * block_choices n' rest
  | _, _ => 1
  end.

(** ** What a walk does with paths *)

(** [W] holds of the edges of the ways the walk follows, of which there are at
    most [k]. *)
Definition covers (f : Walk) (W : Path -> Prop) : Prop := forall paths p es,
  p ∈ paths -> W es -> exists q, q ∈ f paths /\ p ++ es ⊆ q.

Definition sound (f : Walk) (W : Path -> Prop) : Prop := forall paths q, q ∈ f paths ->
  (exists p es, p ∈ paths /\ W es) /\
  forall e, e ∈ q -> exists p es, p ∈ paths /\ W es /\ e ∈ p ++ es.

Definition exact (f : Walk) (W : Path -> Prop) (k : nat) : Prop := forall paths,
  k * length paths <= COMB_MAX_PATHS ->
  length (f paths) <= k * length paths /\
  forall q, q ∈ f paths -> exists p es, p ∈ paths /\ W es /\ q = p ++ es.

Record follows (f : Walk) (W : Path -> Prop) (k : nat) : Prop := {
  fo_covers : covers f W;
  fo_sound : sound f W;
  fo_exact : exact f W k;
  fo_some : exists es, W es;
  fo_positive : 0 < k }.

Definition then_way (W V : Path -> Prop) : Path -> Prop :=
  fun es => exists es1 es2, W es1 /\ V es2 /\ es = es1 ++ es2.

Definition stays (es : Path) : Prop := es = [].

Lemma follows_iff f W V k : (forall es, W es <-> V es) -> follows f W k -> follows f V k.
Proof.
  intros H [H1 H2 H3 H4 H5]. split; [| | | |done].
  - intros paths p es Hp Hes. apply H1; [done|by apply H].
  - intros paths q Hq. destruct (H2 paths q Hq) as [(p & es & ? & ?%H) He]. split; [by exists p, es|].
    intros e (p' & es' & ? & ?%H & ?)%He. by exists p', es'.
  - intros paths Hk. destruct (H3 paths Hk) as [Hl Hq]. split; [done|].
    intros q (p & es & ? & ?%H & ?)%Hq. by exists p, es.
  - destruct H4 as [es ?%H]. by exists es.
Qed.

Lemma follows_id : follows (fun paths => paths) stays 1.
Proof.
  split; [| | |by exists []|lia].
  - intros paths p es Hp ->. exists p. by rewrite app_nil_r.
  - intros paths q Hq. split; [by exists q, []|]. intros e He. exists q, []. by rewrite app_nil_r.
  - intros paths _. split; [lia|]. intros q Hq. exists q, []. by rewrite app_nil_r.
Qed.

Lemma follows_map edges : follows (map (fun p => p ++ edges)) (fun es => es = edges) 1.
Proof.
  split; [| | |by exists edges|lia].
  - intros paths p es Hp ->. exists (p ++ edges). split; [|done]. by apply (list_elem_of_fmap_2 (fun p => p ++ edges)).
  - intros paths q (p & -> & Hp)%list_elem_of_fmap. split; [by exists p, edges|]. intros e He. by exists p, edges.
  - intros paths _. rewrite length_map, Nat.mul_1_l. split; [done|]. intros q (p & -> & Hp)%list_elem_of_fmap. by exists p, edges.
Qed.

Lemma follows_then f h W V k l : follows f W k -> follows h V l ->
  follows (fun paths => h (f paths)) (then_way W V) (k * l).
Proof.
  intros [F1 F2 F3 [w Fw] F5] [H1 H2 H3 [v Hv] H5]. split; [| | |by exists (w ++ v), w, v|nia].
  - intros paths p es Hp (es1 & es2 & Hw & Hv' & ->).
    destruct (F1 _ _ _ Hp Hw) as (q & Hq & Hpq), (H1 _ _ _ Hq Hv') as (r & Hr & Hqr).
    exists r. split; [done|]. rewrite app_assoc. set_solver.
  - intros paths r Hr. destruct (H2 _ _ Hr) as [(q & es2 & Hq & Hes2) He]. destruct (F2 _ _ Hq) as [(p & es1 & Hp & Hes1) _].
    split; [exists p, (es1 ++ es2); split; [done|by exists es1, es2]|].
    intros e (q' & es2' & Hq' & Hes2' & [He'|He']%elem_of_app)%He.
    + destruct (F2 _ _ Hq') as [_ He1]. destruct (He1 e He') as (p' & es1' & Hp' & Hes1' & Hin).
      exists p', (es1' ++ es2). split_and!; [done|by exists es1', es2|]. rewrite app_assoc, elem_of_app. by left.
    + destruct (F2 _ _ Hq') as [(p' & es1' & Hp' & Hes1') _].
      exists p', (es1' ++ es2'). split_and!; [done|by exists es1', es2'|]. rewrite !elem_of_app. auto.
  - intros paths Hk. assert (k * length paths <= k * l * length paths) as Hkl by (apply Nat.mul_le_mono_r; nia).
    destruct (F3 paths) as [L1 Q1]; [lia|]. pose proof (Nat.mul_le_mono_l _ _ l L1) as L1'.
    assert (l * (k * length paths) = k * l * length paths) as El by nia.
    destruct (H3 (f paths)) as [L2 Q2]; [lia|]. split; [lia|].
    intros r Hr. destruct (Q2 r Hr) as (q & es2 & Hq & Hes2 & ->), (Q1 q Hq) as (p & es1 & Hp & Hes1 & ->).
    exists p, (es1 ++ es2). split_and!; [done|by exists es1, es2|]. by rewrite app_assoc.
Qed.

(** Branches, each with its ways. *)
Inductive branches_follow : list Walk -> (Path -> Prop) -> nat -> Prop :=
  | bf_nil W : (forall es, ~ W es) -> branches_follow [] W 0
  | bf_cons b bs U W V k l : (forall es, U es <-> W es \/ V es) -> follows b W k -> branches_follow bs V l ->
      branches_follow (b :: bs) U (k + l).

Definition branch_paths (bs : list Walk) (base : Path) : list Path := flat_map (fun b => b [base]) bs.

Lemma branches_covers bs W k base es : branches_follow bs W k -> W es ->
  exists q, q ∈ branch_paths bs base /\ base ++ es ⊆ q.
Proof.
  induction 1 as [W HW|b bs U W V k l HU Hb _ IH]; [by intros ?%HW|].
  unfold branch_paths. cbn [flat_map]. setoid_rewrite elem_of_app. intros [HW|HV]%HU.
  - destruct (fo_covers _ _ _ Hb [base] base es) as (q & Hq & Hs); [by left|done|]. exists q. auto.
  - destruct (IH HV) as (q & Hq & Hs). exists q. auto.
Qed.

Lemma branches_sound bs W k base q : branches_follow bs W k -> q ∈ branch_paths bs base ->
  (exists es, W es) /\ forall e, e ∈ q -> exists es, W es /\ e ∈ base ++ es.
Proof.
  induction 1 as [W HW|b bs U W V k l HU Hb _ IH]; [by intros ?%elem_of_nil|].
  unfold branch_paths. cbn [flat_map]. setoid_rewrite HU. intros [Hq|Hq]%elem_of_app.
  - destruct (fo_sound _ _ _ Hb _ _ Hq) as [(p & es & _ & Hes) He]. split; [by exists es; left|].
    intros e (p' & es' & ->%list_elem_of_singleton & ? & ?)%He. exists es'. split; [by left|done].
  - destruct (IH Hq) as [[es Hes] He]. split; [by exists es; right|].
    intros e (es' & ? & ?)%He. exists es'. split; [by right|done].
Qed.

Lemma branches_exact bs W k base : branches_follow bs W k -> k <= COMB_MAX_PATHS ->
  length (branch_paths bs base) <= k /\
  forall q, q ∈ branch_paths bs base -> exists es, W es /\ q = base ++ es.
Proof.
  induction 1 as [W HW|b bs U W V k l HU Hb _ IH]; intros Hk; [split; [done|by intros q ?%elem_of_nil]|].
  unfold branch_paths. cbn [flat_map]. destruct IH as [IHl IHq]; [lia|].
  destruct (fo_exact _ _ _ Hb [base]) as [Hl Hq]; [cbn [length]; lia|]. cbn [length] in Hl. split.
  - rewrite length_app. unfold branch_paths in IHl. lia.
  - intros q [H|H]%elem_of_app.
    + destruct (Hq q H) as (p & es & ->%list_elem_of_singleton & ? & ->). exists es. split; [apply HU; by left|done].
    + destruct (IHq q H) as (es & ? & ->). exists es. split; [apply HU; by right|done].
Qed.

Lemma branches_some bs W k : branches_follow bs W k -> 0 < k -> exists es, W es.
Proof.
  intros [|b bs' U W' V k' l HU Hb _] Hk; [lia|]. destruct (fo_some _ _ _ Hb) as [es Hes]. exists es. apply HU. by left.
Qed.

(** *** The limit *)

Lemma limit_covers paths q : q ∈ paths -> exists q', q' ∈ limit_paths paths /\ q ⊆ q'.
Proof.
  intros Hq. unfold limit_paths, sem_comb_collapse_paths. destruct (_ <? _); [|by exists q].
  destruct paths as [|p1 [|p2 ps]]; [by exists q..|]. exists (dedup (concat (p1 :: p2 :: ps))).
  split; [by left|]. intros e He. apply dedup_elem. apply list_elem_of_In, in_concat. exists q.
  by rewrite <- !list_elem_of_In.
Qed.

Lemma limit_sound paths q' : q' ∈ limit_paths paths ->
  (exists q, q ∈ paths) /\ forall e, e ∈ q' -> exists q, q ∈ paths /\ e ∈ q.
Proof.
  unfold limit_paths, sem_comb_collapse_paths. intros Hq.
  assert (q' ∈ paths -> (exists q, q ∈ paths) /\ forall e, e ∈ q' -> exists q, q ∈ paths /\ e ∈ q) as Hid by
    (intros H; split; [by exists q'|]; intros e He; by exists q').
  destruct (_ <? _); [|auto]. destruct paths as [|p1 [|p2 ps]]; [auto..|].
  apply list_elem_of_singleton in Hq as ->. split; [exists p1; by left|]. intros e He.
  rewrite dedup_elem, list_elem_of_In in He. apply in_concat in He as (q & Hq & He). exists q. by rewrite !list_elem_of_In.
Qed.

Lemma limit_exact paths : length paths <= COMB_MAX_PATHS -> limit_paths paths = paths.
Proof. intros H. unfold limit_paths. destruct (Nat.ltb_spec COMB_MAX_PATHS (length paths)); [lia|done]. Qed.

Definition kept (keep : bool) : nat := if keep then 1 else 0.

Lemma follows_split bs W k keep : branches_follow bs W k -> 0 < k + kept keep ->
  follows (split_paths bs keep) (fun es => W es \/ (keep = true /\ es = [])) (k + kept keep).
Proof.
  intros Hb Hpos. split; [| | | |done].
  - intros paths p es Hp Hes.
    assert (exists q, q ∈ branch_paths bs p ++ (if keep then [p] else []) /\ p ++ es ⊆ q) as (q & Hq & Hs).
    { destruct Hes as [Hes|[-> ->]].
      - destruct (branches_covers bs W k p es Hb Hes) as (q & Hq & Hs). exists q. split; [apply elem_of_app; by left|done].
      - exists p. split; [apply elem_of_app; right; by left|by rewrite app_nil_r]. }
    destruct (limit_covers (flat_map (fun base => branch_paths bs base ++ (if keep then [base] else [])) paths) q)
      as (q' & Hq' & Hs').
    { apply list_elem_of_In, in_flat_map. exists p. by rewrite <- !list_elem_of_In. }
    exists q'. split; [done|]. by etrans.
  - intros paths q' Hq'. destruct (limit_sound _ _ Hq') as [[q0 H0] He].
    assert (forall q, q ∈ flat_map (fun base => branch_paths bs base ++ (if keep then [base] else [])) paths ->
      exists p, p ∈ paths /\ (exists es, W es \/ (keep = true /\ es = [])) /\
        forall e, e ∈ q -> exists es, (W es \/ (keep = true /\ es = [])) /\ e ∈ p ++ es) as Hin.
    { intros q (p & Hp & Hq)%list_elem_of_In%in_flat_map. rewrite <- list_elem_of_In in Hp, Hq.
      exists p. split; [done|]. apply elem_of_app in Hq as [Hq|Hq].
      - destruct (branches_sound bs W k p q Hb Hq) as [[es Hes] Hes']. split; [exists es; by left|].
        intros e (es' & ? & ?)%Hes'. exists es'. split; [by left|done].
      - destruct keep; [|by apply elem_of_nil in Hq]. apply list_elem_of_singleton in Hq as ->.
        split; [exists []; by right|]. intros e Hep. exists []. split; [by right|by rewrite app_nil_r]. }
    split.
    + destruct (Hin q0 H0) as (p & Hp & [es Hes] & _). by exists p, es.
    + intros e (q & Hq & Heq)%He. destruct (Hin q Hq) as (p & Hp & _ & Hes).
      destruct (Hes e Heq) as (es & ? & ?). by exists p, es.
  - intros paths Hk. unfold split_paths. destruct (decide (paths = [])) as [->|Hne].
    { cbn. split; [lia|]. by intros q ?%elem_of_nil. }
    assert (k + kept keep <= COMB_MAX_PATHS) as Hk1.
    { destruct paths as [|p0 ps]; [done|]. cbn [length] in Hk. nia. }
    assert (length (flat_map (fun base => branch_paths bs base ++ (if keep then [base] else [])) paths) <=
      (k + kept keep) * length paths) as Hl.
    { clear -Hb Hk1. induction paths as [|p ps IH]; [cbn; lia|]. cbn [flat_map length]. rewrite !length_app.
      destruct (branches_exact bs W k p Hb) as [Hl _]; [unfold kept in Hk1; lia|].
      assert (length (if keep then [p] else []) = kept keep) as -> by (by destruct keep). nia. }
    fold branch_paths. change (fun base => flat_map (fun branch : Walk => branch [base]) bs ++ (if keep then [base] else []))
      with (fun base => branch_paths bs base ++ (if keep then [base] else [])).
    rewrite limit_exact by (etrans; [exact Hl|exact Hk]). split; [done|].
    intros q (p & Hp & Hq)%list_elem_of_In%in_flat_map. rewrite <- list_elem_of_In in Hp, Hq.
    destruct (branches_exact bs W k p Hb) as [_ Hex]; [unfold kept in Hk1; lia|].
    apply elem_of_app in Hq as [Hq|Hq].
    + destruct (Hex q Hq) as (es & ? & ->). exists p, es. split_and!; [done|by left|done].
    + destruct keep; [|by apply elem_of_nil in Hq]. apply list_elem_of_singleton in Hq as ->.
      exists p, []. split_and!; [done|by right|by rewrite app_nil_r].
  - destruct keep; [exists []; by right|]. destruct (branches_some bs W k Hb) as [es Hes]; [cbn in Hpos; lia|].
    exists es. by left.
Qed.

(** ** Handled statements *)

Lemma follows_ext f h W k : (forall paths, f paths = h paths) -> follows f W k -> follows h W k.
Proof.
  intros H [H1 H2 H3 H4 H5]. split; [| | |done|done].
  - intros paths p es. rewrite <- H. apply H1.
  - intros paths q. rewrite <- H. apply H2.
  - intros paths Hk. rewrite <- H. by apply H3.
Qed.

(** A way that adds nothing is covered by every other. *)
Lemma follows_weaken f W V k : (forall es, W es -> V es) -> (forall es, V es -> W es \/ es = []) ->
  follows f W k -> follows f V k.
Proof.
  intros HWV HVW [H1 H2 H3 [w Hw] H5]. split; [| | |exists w; auto|done].
  - intros paths p es Hp [Hes| ->]%HVW; [by apply H1|].
    destruct (H1 paths p w Hp Hw) as (q & Hq & Hs). exists q. split; [done|]. set_solver.
  - intros paths q Hq. destruct (H2 _ _ Hq) as [(p & es & ? & ?) He]. split; [exists p, es; auto|].
    intros e (p' & es' & ? & ? & ?)%He. exists p', es'. auto.
  - intros paths Hk. destruct (H3 paths Hk) as [Hl Hq]. split; [done|].
    intros q (p & es & ? & ? & ?)%Hq. exists p, es. auto.
Qed.

Lemma way_nil_inv es : way [] es -> es = [].
Proof. by inversion 1. Qed.

Lemma way_cons s rest es : (ast_type s = JZ_AST_STMT_IF -> chain_rest rest = ([], rest)) ->
  way (s :: rest) es <-> then_way (way [s]) (way rest) es.
Proof.
  intros Hrest. split.
  - intros H. inversion H as [|? ? es0 Hty Hr|? ? more rest' b es1 es2 Hty Hc Hb H1 H2|? ? more rest' es0 Hty Hc He H2|
      ? ? l es1 es2 Hty Hl H1 H2|? ? es0 Hty Hd H2|? ? es1 es2 Hty H1 H2|? ? b es1 es2 Hty Hb H1 H2|? ? es0 Hty H2|? ? es0 Hty H2]; subst.
    + exists (assign_edges scope g (ast_block_kind s) (ast_children s)), es0. split_and!; [|done|done].
      rewrite <- (app_nil_r (assign_edges _ _ _ _)). apply way_assign; [done|constructor].
    + rewrite Hrest in Hc by done. injection Hc as <- <-. exists es1, es2. split_and!; [|done|done].
      rewrite <- (app_nil_r es1). by eapply way_branch; eauto using way_nil.
    + rewrite Hrest in Hc by done. injection Hc as <- <-. exists [], es. split_and!; [|done|done].
      by eapply way_no_branch; eauto using way_nil.
    + exists es1, es2. split_and!; [|done|done]. rewrite <- (app_nil_r es1). by eapply way_label; eauto using way_nil.
    + exists [], es. split_and!; [|done|done]. by eapply way_no_label; eauto using way_nil.
    + exists es1, es2. split_and!; [|done|done]. rewrite <- (app_nil_r es1). by eapply way_block; eauto using way_nil.
    + exists es1, es2. split_and!; [|done|done]. rewrite <- (app_nil_r es1). by eapply way_guarded; eauto using way_nil.
    + exists [], es. split_and!; [|done|done]. by eapply way_not_guarded; eauto using way_nil.
    + exists [], es. split_and!; [|done|done]. by eapply way_other; eauto using way_nil.
  - intros (e1 & e2 & H & Hr & ->).
    inversion H as [|? ? es0 Hty Hn|? ? more rest' b es1 es2 Hty Hc Hb H1 Hn|? ? more rest' es0 Hty Hc He Hn|
      ? ? l es1 es2 Hty Hl H1 Hn|? ? es0 Hty Hd Hn|? ? es1 es2 Hty H1 Hn|? ? b es1 es2 Hty Hb H1 Hn|? ? es0 Hty Hn|? ? es0 Hty Hn]; subst;
      try (injection Hc as <- <-); apply way_nil_inv in Hn; subst; rewrite ?app_nil_r.
    + by apply way_assign.
    + eapply way_branch; [done|by apply Hrest|done|done|done].
    + eapply way_no_branch; [done|by apply Hrest|done|done].
    + by eapply way_label.
    + by eapply way_no_label.
    + by eapply way_block.
    + by eapply way_guarded.
    + by eapply way_not_guarded.
    + by eapply way_other.
Qed.

Definition walk_body (body : list JZASTNode) : Walk :=
  fun paths => fold_left (fun ps c => sem_comb_analyze_stmt scope g c ps) body paths.

Definition walked (s : JZASTNode) : Prop :=
  handled s = true -> follows (sem_comb_analyze_stmt scope g s) (way [s]) (choices s).

Lemma handled_chain_rest s rest : handled s = true -> chain_rest (s :: rest) = ([], s :: rest).
Proof. destruct s as [ty ? ? ? ? ? ?]. cbn. unfold node_is. cbn. by destruct ty. Qed.

Lemma handled_body_rest body : forallb handled body = true -> chain_rest body = ([], body).
Proof. destruct body as [|s rest]; [done|]. cbn [forallb]. intros [Hs _]%andb_true_iff. by apply handled_chain_rest. Qed.

Lemma follows_body body : Forall walked body -> forallb handled body = true ->
  follows (walk_body body) (way body) (body_choices body).
Proof.
  induction body as [|s body IH]; intros Hw Hh.
  - eapply follows_iff; [|apply follows_id]. intros es. split; [intros ->; constructor|apply way_nil_inv].
  - apply Forall_cons in Hw as [Hs Hw]. cbn [forallb] in Hh. apply andb_true_iff in Hh as [Hhs Hh].
    eapply follows_iff; [|eapply (follows_then _ (walk_body body)); [by apply Hs|by apply IH]].
    intros es. symmetry. apply way_cons. intros _. by apply handled_body_rest.
Qed.

Lemma branch_walk s paths :
  sem_comb_analyze_if_branch_body (sem_comb_analyze_stmt scope g) s paths = walk_body (branch_body s) paths.
Proof. destruct s as [ty ? ? ? ? ? cs]. unfold walk_body, branch_body. cbn. by destruct ty, cs. Qed.

Lemma select_walk l : select_branch (sem_comb_analyze_stmt scope g) l =
  if is_nil (label_body l) then [] else [walk_body (label_body l)].
Proof. destruct l as [ty ? ? ? ? ? cs]. unfold walk_body, label_body. cbn. by destruct ty, cs as [|c [|c' cs]]. Qed.

Lemma if_ways s es : ast_type s = JZ_AST_STMT_IF -> way [s] es <-> way (branch_body s) es \/ es = [].
Proof.
  intros Hs. split.
  - inversion 1; subst; try congruence.
    + match goal with H : chain_rest [] = _ |- _ => injection H as <- <- end.
      match goal with H : _ ∈ [_] |- _ => apply list_elem_of_singleton in H as -> end.
      match goal with H : way [] _ |- _ => apply way_nil_inv in H as -> end. rewrite app_nil_r. by left.
    + match goal with H : chain_rest [] = _ |- _ => injection H as <- <- end. right. by apply way_nil_inv.
    + match goal with H : ast_type s ∉ _ |- _ => exfalso; apply H; rewrite Hs; set_solver end.
  - intros [H| ->].
    + rewrite <- (app_nil_r es). eapply way_branch; [done|done|by left|done|constructor].
    + eapply way_no_branch; [done|done| |constructor]. unfold ends_in_else, node_is. cbn. by rewrite Hs.
Qed.

Lemma select_ways s es : ast_type s = JZ_AST_STMT_SELECT ->
  way [s] es <-> (exists l, l ∈ labels s /\ way (label_body l) es) \/ (has_default (labels s) = false /\ es = []).
Proof.
  intros Hs. split.
  - inversion 1; subst; try congruence.
    + match goal with H : way [] _ |- _ => apply way_nil_inv in H as -> end. rewrite app_nil_r. left. eauto.
    + match goal with H : way [] _ |- _ => apply way_nil_inv in H as -> end. by right.
    + match goal with H : ast_type s ∉ _ |- _ => exfalso; apply H; rewrite Hs; set_solver end.
  - intros [(l & Hl & H)|[Hd ->]].
    + rewrite <- (app_nil_r es). eapply way_label; [done|done|done|constructor].
    + eapply way_no_label; [done|done|constructor].
Qed.

Lemma block_ways s es : ast_type s = JZ_AST_BLOCK -> way [s] es <-> way (ast_children s) es.
Proof.
  intros Hs. split.
  - inversion 1; subst; try congruence.
    + match goal with H : way [] _ |- _ => apply way_nil_inv in H as -> end. by rewrite app_nil_r.
    + match goal with H : ast_type s ∉ _ |- _ => exfalso; apply H; rewrite Hs; set_solver end.
  - intros H. rewrite <- (app_nil_r es). eapply way_block; [done|done|constructor].
Qed.

Lemma assign_ways s es : ast_type s = JZ_AST_STMT_ASSIGN ->
  way [s] es <-> es = assign_edges scope g (ast_block_kind s) (ast_children s).
Proof.
  intros Hs. split.
  - inversion 1; subst; try congruence.
    + match goal with H : way [] _ |- _ => apply way_nil_inv in H as -> end. by rewrite app_nil_r.
    + match goal with H : ast_type s ∉ _ |- _ => exfalso; apply H; rewrite Hs; set_solver end.
  - intros ->. rewrite <- (app_nil_r (assign_edges _ _ _ _)). apply way_assign; [done|constructor].
Qed.

Definition label_choices (l : JZASTNode) : nat := if is_nil (label_body l) then 0 else body_choices (label_body l).

Lemma branches_follow_iff bs W V k : (forall es, W es <-> V es) -> branches_follow bs W k -> branches_follow bs V k.
Proof.
  intros H Hbf. revert H. destruct Hbf as [W' HW|b bs' U W' V' k' l HU Hb Hbs]; intros H.
  - constructor. intros es Hes%H. by apply HW in Hes.
  - eapply bf_cons; [|exact Hb|exact Hbs]. intros es. by rewrite <- H.
Qed.

Lemma select_follows ls : Forall (fun l => Forall walked (label_body l)) ls ->
  forallb (fun l => forallb handled (label_body l)) ls = true ->
  branches_follow (flat_map (select_branch (sem_comb_analyze_stmt scope g)) ls)
    (fun es => exists l, l ∈ ls /\ is_nil (label_body l) = false /\ way (label_body l) es)
    (sum (map label_choices ls)).
Proof.
  induction ls as [|l ls IH]; intros Hw Hh.
  - constructor. by intros es (l & ?%elem_of_nil & _).
  - apply Forall_cons in Hw as [Hl Hw]. cbn [forallb] in Hh. apply andb_true_iff in Hh as [Hhl Hh].
    cbn [flat_map map sum fold_right]. rewrite select_walk. unfold label_choices at 1.
    destruct (is_nil (label_body l)) eqn:E; cbn [app].
    + eapply branches_follow_iff; [|by apply IH]. intros es. split.
      * intros (l' & Hl' & H). exists l'. split; [by right|done].
      * intros (l' & [-> |Hl']%elem_of_cons & En & H); [congruence|by exists l'].
    + eapply bf_cons; [|by apply follows_body|by apply IH]. intros es. split.
      * intros (l' & [-> |Hl']%elem_of_cons & En & H); [by left|right; by exists l'].
      * intros [H|(l' & Hl' & H)]; [exists l; split; [by left|done]|exists l'; split; [by right|done]].
Qed.

Lemma forallb_same {A} (f h : A -> bool) l : (forall x, f x = h x) -> forallb f l = forallb h l.
Proof. intros H. induction l as [|x l IH]; [done|]. cbn. by rewrite H, IH. Qed.

Lemma handled_label l : match l with
    | mkNode JZ_AST_STMT_CASE _ _ _ _ _ (_ :: body) => forallb handled body
    | mkNode _ _ _ _ _ _ body => forallb handled body
    end = forallb handled (label_body l).
Proof. destruct l as [ty ? ? ? ? ? [|c cs]]; by destruct ty. Qed.

Lemma choices_label l : match l with
    | mkNode JZ_AST_STMT_CASE _ _ _ _ _ ([] | [_]) => 0
    | mkNode JZ_AST_STMT_CASE _ _ _ _ _ (_ :: body) => product (map choices body)
    | mkNode _ _ _ _ _ _ [] => 0
    | mkNode _ _ _ _ _ _ body => product (map choices body)
    end = label_choices l.
Proof. destruct l as [ty ? ? ? ? ? [|c [|c' cs]]]; by destruct ty. Qed.

Lemma label_body_children l c : c ∈ label_body l -> c ∈ ast_children l.
Proof. destruct l as [ty ? ? ? ? ? [|c' cs]]; destruct ty; cbn; auto; intros ?; by right. Qed.

Lemma label_choices_positive ls l : l ∈ ls -> is_nil (label_body l) = false -> Forall walked (label_body l) ->
  forallb handled (label_body l) = true -> 0 < sum (map label_choices ls).
Proof.
  intros Hl E Hw Hh. pose proof (fo_positive _ _ _ (follows_body _ Hw Hh)) as Hpos.
  clear Hw Hh. induction ls as [|l' ls IH]; [by apply elem_of_nil in Hl|]. cbn [map sum fold_right].
  apply elem_of_cons in Hl as [-> |Hl].
  - unfold label_choices at 1. rewrite E. lia.
  - specialize (IH Hl). unfold sum in IH. lia.
Qed.

Lemma walked_select s : ast_type s = JZ_AST_STMT_SELECT ->
  Forall (fun l => Forall walked (label_body l)) (labels s) -> walked s.
Proof.
  destruct s as [ty loc name bk text width cs]. cbn. intros -> Hw Hh. unfold labels in Hw. cbn in Hw.
  assert (labels (mkNode JZ_AST_STMT_SELECT loc name bk text width cs) = [] ->
    follows (fun paths => paths) (way [mkNode JZ_AST_STMT_SELECT loc name bk text width cs]) 1) as Hnone.
  { intros El. eapply follows_iff; [|apply follows_id]. intros es. rewrite select_ways, El by done. cbn.
    split; [by right|]. intros [(l & ?%elem_of_nil & _)|[_ ?]]; done. }
  destruct cs as [|c [|l0 ls0]]; [by apply Hnone..|]. clear Hnone. set (ls := l0 :: ls0) in *.
  cbn [handled] in Hh. cbn [tail] in Hw. apply andb_true_iff in Hh as [Hh Hd].
  rewrite (forallb_same _ (fun l => forallb handled (label_body l)) ls handled_label) in Hh.
  cbn [choices]. erewrite map_ext by (intros l; apply choices_label).
  assert (0 < sum (map label_choices ls) + kept (negb (has_default ls))) as Hpos.
  { destruct (has_default ls); cbn [negb kept orb] in *; [|lia]. apply negb_true_iff in Hd.
    apply not_true_iff_false in Hd. rewrite forallb_forall in Hd.
    destruct (List.existsb (fun l => negb (is_nil (label_body l))) ls) eqn:E.
    - apply existsb_exists in E as (l & Hl & Hn). rewrite <- list_elem_of_In in Hl. apply negb_true_iff in Hn.
      rewrite Forall_forall in Hw. rewrite forallb_forall in Hh.
      pose proof (label_choices_positive ls l Hl Hn (Hw l Hl)) as H.
      rewrite list_elem_of_In in Hl. specialize (H (Hh l Hl)). lia.
    - exfalso. apply Hd. intros l Hl. destruct (is_nil (label_body l)) eqn:En; [done|].
      rewrite <- not_true_iff_false, existsb_exists in E. destruct E. exists l. by rewrite En. }
  pose proof (follows_split _ _ _ _ (select_follows ls Hw Hh) Hpos) as Hf.
  replace (kept (negb (has_default ls))) with (if has_default ls then 0 else 1) in Hf by (by destruct (has_default ls)).
  eapply follows_weaken; [| |eapply follows_ext; [|exact Hf]].
  - intros es. rewrite select_ways by done. unfold labels. cbn [ast_children tail].
    intros [(l & Hl & _ & Hes)|[Hk ->]]; [left; eauto|right]. split; [by apply negb_true_iff|done].
  - intros es. rewrite select_ways by done. unfold labels. cbn [ast_children tail].
    intros [(l & Hl & Hes)|[Hk ->]]; [|by right]. destruct (is_nil (label_body l)) eqn:En; [|left; left; eauto].
    destruct (label_body l); [|done]. right. by apply way_nil_inv.
  - done.
Qed.

Lemma walked_if s : ast_type s = JZ_AST_STMT_IF -> Forall walked (branch_body s) -> walked s.
Proof.
  intros Hs Hw Hh.
  assert (forallb handled (branch_body s) = true /\ choices s = body_choices (branch_body s) + 0 + kept true) as [Hb ->].
  { destruct s as [ty loc name bk text width cs]. cbn in Hs. subst ty. unfold branch_body in *. cbn in *.
    destruct cs as [|c cs]; [done|]. split; [done|]. by rewrite Nat.add_0_r. }
  assert (branches_follow [walk_body (branch_body s)] (fun es => way (branch_body s) es) (body_choices (branch_body s) + 0)) as Hf.
  { eapply (bf_cons _ _ _ _ (fun _ => False)); [|by apply follows_body|by constructor; intros es []]. intros es. tauto. }
  eapply follows_iff; [|eapply follows_ext; [|apply (follows_split _ _ _ true Hf); cbn; lia]].
  - intros es. rewrite if_ways by done. split; [intros [H|[_ H]]; auto|intros [H|H]; auto].
  - intros paths. destruct s as [ty loc name bk text width cs]. cbn in Hs. subst ty. cbn [sem_comb_analyze_stmt].
    unfold split_paths. f_equal. apply flat_map_ext. intros base. f_equal. cbn [flat_map]. by rewrite branch_walk.
Qed.

Lemma walked_all s : walked s /\ Forall walked (ast_children s).
Proof.
  induction s as [ty loc name bk text width cs IH] using JZASTNode_ind'.
  assert (Forall walked cs) as Hcs by (eapply List.Forall_impl; [|exact IH]; by intros c []).
  split; [|done]. set (s := mkNode ty loc name bk text width cs).
  destruct (decide (ty = JZ_AST_STMT_ASSIGN)) as [->|H1].
  { intros _. eapply follows_iff; [|eapply follows_ext; [|apply follows_map]]; [|done].
    intros es. by rewrite assign_ways. }
  destruct (decide (ty = JZ_AST_STMT_IF)) as [->|H2].
  { apply walked_if; [done|]. unfold branch_body. cbn. by destruct Hcs. }
  destruct (decide (ty = JZ_AST_STMT_SELECT)) as [->|H3].
  { apply walked_select; [done|]. unfold labels. cbn. apply Forall_forall. intros l Hl.
    assert (l ∈ cs) as Hl' by (destruct cs; [done|by right]). rewrite Forall_forall in IH.
    destruct (IH l Hl') as [_ Hch]. rewrite Forall_forall in Hch. apply Forall_forall. intros c Hc.
    by apply Hch, label_body_children. }
  destruct (decide (ty = JZ_AST_BLOCK)) as [->|H4].
  { intros Hh. eapply follows_iff; [|apply (follows_body cs Hcs Hh)]. intros es. by rewrite block_ways. }
  intros Hh. assert (ty <> JZ_AST_FEATURE_GUARD) as H5 by (intros ->; done).
  assert (choices s = 1) as -> by (cbn; by destruct ty).
  eapply follows_iff; [|eapply follows_ext; [|apply follows_id]].
  - intros es. split; [intros ->; apply way_other; [set_solver|constructor]|].
    inversion 1; subst; cbn in *; try congruence. by apply way_nil_inv.
  - intros paths. cbn. by destruct ty.
Qed.

Lemma all_walked body : Forall walked body.
Proof. apply Forall_forall. intros s _. apply walked_all. Qed.

(** ** Blocks *)

Lemma chain_follows chain : forallb (fun s => forallb handled (branch_body s)) chain = true ->
  branches_follow (map (sem_comb_analyze_if_branch_body (sem_comb_analyze_stmt scope g)) chain)
    (fun es => exists b, b ∈ chain /\ way (branch_body b) es) (sum (map (fun s => body_choices (branch_body s)) chain)).
Proof.
  induction chain as [|s chain IH]; intros Hh.
  - constructor. by intros es (b & ?%elem_of_nil & _).
  - cbn [forallb] in Hh. apply andb_true_iff in Hh as [Hs Hh]. cbn [map sum fold_right]. eapply bf_cons; [| |by apply IH].
    2: { eapply follows_ext; [|by apply follows_body; [apply all_walked|exact Hs]]. intros paths. by rewrite branch_walk. }
    intros es. split.
    + intros (b & [-> |Hb]%elem_of_cons & H); [by left|right; by exists b].
    + intros [H|(b & Hb & H)]; [exists s; split; [by left|done]|exists b; split; [by right|done]].
Qed.

Lemma branch_handled s : handled_top s = true -> forallb handled (branch_body s) = true.
Proof.
  destruct s as [ty ? ? ? ? ? cs]. unfold handled_top, branch_body. cbn. destruct ty; try done. by destruct cs.
Qed.

Lemma chain_rest_parts stmts : stmts = (chain_rest stmts).1 ++ (chain_rest stmts).2.
Proof.
  induction stmts as [|s rest IH]; [done|]. cbn. destruct (node_is JZ_AST_STMT_ELIF s).
  - destruct (chain_rest rest). cbn in *. by f_equal.
  - by destruct (node_is JZ_AST_STMT_ELSE s).
Qed.

Lemma chain_walk s more : forallb handled_top (s :: more) = true ->
  follows (sem_comb_analyze_if_chain scope g (s :: more))
    (fun es => (exists b, b ∈ s :: more /\ way (branch_body b) es) \/ (ends_in_else (s :: more) = false /\ es = []))
    (chain_choices (s :: more)).
Proof.
  intros Hh. set (chain := s :: more) in *.
  assert (forallb (fun s => forallb handled (branch_body s)) chain = true) as Hb.
  { rewrite forallb_forall in Hh |- *. intros x Hx. by apply branch_handled, Hh. }
  assert (0 < sum (map (fun s => body_choices (branch_body s)) chain) + kept (negb (ends_in_else chain))) as Hpos.
  { pose proof (fo_positive _ _ _ (follows_body (branch_body s) (all_walked _) (branch_handled s
      ltac:(by apply andb_true_iff in Hh as [? _])))) as H. unfold chain. cbn [map sum fold_right]. lia. }
  pose proof (follows_split _ _ _ _ (chain_follows chain Hb) Hpos) as Hf.
  unfold chain_choices. replace (if ends_in_else chain then 0 else 1) with (kept (negb (ends_in_else chain)))
    by (by destruct (ends_in_else chain)).
  eapply follows_iff; [|eapply follows_ext; [|exact Hf]].
  - intros es. cbn. by rewrite negb_true_iff.
  - intros paths. unfold sem_comb_analyze_if_chain, ends_in_else.
    destruct (last chain) as [l|] eqn:El; [done|]. by apply last_None in El.
Qed.

Lemma chain_ways s rest es : ast_type s = JZ_AST_STMT_IF ->
  way (s :: rest) es <->
  then_way (fun es => (exists b, b ∈ s :: (chain_rest rest).1 /\ way (branch_body b) es) \/
                      (ends_in_else (s :: (chain_rest rest).1) = false /\ es = []))
    (way (chain_rest rest).2) es.
Proof.
  intros Hs. destruct (chain_rest rest) as [more rest'] eqn:Ec. cbn [fst snd]. split.
  - inversion 1; subst; try congruence.
    + match goal with H : chain_rest rest = _ |- _ => rewrite Ec in H; injection H as -> -> end.
      exists es1, es2. split_and!; [left; eauto|done|done].
    + match goal with H : chain_rest rest = _ |- _ => rewrite Ec in H; injection H as -> -> end.
      exists [], es. split_and!; [by right|done|done].
    + match goal with H : ast_type s ∉ _ |- _ => exfalso; apply H; rewrite Hs; set_solver end.
  - intros (e1 & e2 & [(b & Hb & H1)|[He ->]] & H2 & ->); [by eapply way_branch|by eapply way_no_branch].
Qed.

Lemma statements_follow n : forall stmts, length stmts <= n -> forallb handled_top stmts = true ->
  follows (analyze_statements scope g n stmts) (way stmts) (block_choices n stmts).
Proof.
  induction n as [|n IH]; intros [|s rest] Hn Hh; cbn [length] in Hn; [|lia| |];
    try (eapply follows_iff; [|apply follows_id]; intros es; split; [intros ->; constructor|apply way_nil_inv]).
  cbn [analyze_statements block_choices]. unfold node_is. case_bool_decide as Hs.
  - pose proof (chain_rest_parts rest) as Ep. pose proof (chain_ways s rest) as Hc.
    destruct (chain_rest rest) as [more rest']. cbn [fst snd] in *. subst rest.
    change (s :: more ++ rest') with ((s :: more) ++ rest') in Hh. rewrite forallb_app in Hh.
    apply andb_true_iff in Hh as [Hm Hr]. rewrite length_app in Hn.
    eapply follows_iff; [intros es; symmetry; by apply Hc|].
    eapply follows_ext; [|eapply (follows_then _ (analyze_statements scope g n rest')); [by apply chain_walk|apply IH; [lia|done]]].
    done.
  - cbn [forallb] in Hh. apply andb_true_iff in Hh as [Hs' Hr].
    eapply follows_iff; [intros es; symmetry; apply way_cons; intros ?; done|].
    eapply follows_ext; [|eapply (follows_then (sem_comb_analyze_stmt scope g s) (analyze_statements scope g n rest)); [|apply IH; [lia|done]]];
      [done|].
    unfold handled_top in Hs'. destruct (decide (handled s = true)) as [Hy|Hy]; [by apply walked_all|].
    assert (ast_type s = JZ_AST_STMT_ELIF \/ ast_type s = JZ_AST_STMT_ELSE) as Ht
      by (destruct (ast_type s); auto; congruence).
    assert (choices s = 1) as -> by (destruct s; cbn in *; by destruct Ht as [-> | ->]).
    eapply follows_iff; [|eapply follows_ext; [|apply follows_id]].
    + intros es. split; [intros ->; apply way_other; [destruct Ht as [-> | ->]; set_solver|constructor]|].
      inversion 1; subst; try (destruct Ht; congruence). by apply way_nil_inv.
    + intros paths. destruct s; cbn in *; by destruct Ht as [-> | ->].
Qed.
End Ways.
