(* ===== verification/CombSummary.v ===== *)
(** * Combinational summaries of modules: [compiler/src/sem/driver_comb.c]

    An instance lets signals pass from its input to its output ports.  Which
    ones is the summary of its module, built when it is first asked for and
    kept in a cache.  The code holds the address of a cache slot while it
    builds the summaries of the module's own instances, which adds slots:
    [moves n] says whether adding a slot to [n] others moves the cache.  An
    address is the block it was taken in and the index; using it in a later
    block is the outcome [Dangling].  [Stuck] is a search without result, which
    [CombGraph] excludes. *)

From S2P Require Import Prelude CString Util Ast SymTab NetGraph Comb.

Local Open Scope nat_scope.

(** The fields the code reads of the port declarations are their names. *)
Record JZCombPortEdge := mkPortEdge { in_port : option string; out_port : option string; conditional : bool }.

Inductive CacheState := COMB_CACHE_PENDING | COMB_CACHE_DONE | COMB_CACHE_IN_PROGRESS | COMB_CACHE_OPAQUE.

Record JZModuleCombCache := mkSlot { module_node : Address; slot_edges : list JZCombPortEdge; slot_state : CacheState }.

Record CombCache := mkCache { slots : list JZModuleCombCache; cache_block : nat }.

Inductive CombOutcome (A : Type) := Ok (a : A) (c : CombCache) | Dangling | Stuck.
Arguments Ok {A}. Arguments Dangling {A}. Arguments Stuck {A}.

Definition CM (A : Type) : Type := CombCache -> CombOutcome A.

#[export] Instance CM_ret : MRet CM := fun A a c => Ok a c.
#[export] Instance CM_bind : MBind CM := fun A B f m c =>
  match m c with Ok a c => f a c | Dangling => Dangling | Stuck => Stuck end.

Definition search {A} (r : option A) : CM A := fun c => match r with Some a => Ok a c | None => Stuck end.

(** ** Slots *)

Record SlotRef := mkRef { ref_block : nat; ref_index : nat }.

(** [slot->...]. *)
Definition read_slot (r : SlotRef) : CM JZModuleCombCache := fun c =>
  if ref_block r =? cache_block c then
    match slots c !! ref_index r with Some s => Ok s c | None => Dangling end
  else Dangling.

Definition write_slot (r : SlotRef) (f : JZModuleCombCache -> JZModuleCombCache) : CM unit := fun c =>
  if ref_block r =? cache_block c then Ok () (mkCache (alter f (ref_index r) (slots c)) (cache_block c))
  else Dangling.

Definition set_state (st : CacheState) (s : JZModuleCombCache) : JZModuleCombCache :=
  mkSlot (module_node s) (slot_edges s) st.

Fixpoint find_index (key : Address) (ss : list JZModuleCombCache) : option nat :=
  match ss with
  | [] => None
  | s :: ss => if bool_decide (module_node s = key) then Some 0 else S <$> find_index key ss
  end.

(** ** Paths through instances *)

Definition sem_comb_add_edge_to_paths (src dst : nat) (cond : bool) (paths : list Path) : list Path :=
  let edge := mkEdge src dst in
  if cond then
    match paths with
    | [] => paths
    | _ => limit_paths (flat_map (fun p => [p ++ [edge]; p]) paths)
    end
  else map (fun p => p ++ [edge]) paths.

Definition sem_comb_find_instance_binding (inst : JZASTNode) (port_name : string) : option JZASTNode :=
  List.find (fun b => node_is JZ_AST_PORT_DECL b && field_is port_name (ast_name b)) (ast_children inst).

(** The expression bound to a port. *)
Definition bound_expr (inst : JZASTNode) (port : option string) : option JZASTNode :=
  name ← port;
  bind ← sem_comb_find_instance_binding inst name;
  head (ast_children bind).

Section Outer.
Variables (outer_scope : JZModuleScope) (outer : NetGraph).

Definition net_of_decl (d : Address) : option nat :=
  match sem_net_find_binding (bindings outer) d with
  | Some b => if net_count outer <=? net_ix b then None else Some (net_ix b)
  | None => None
  end.

(** The edges of one port pair of an instance, in the order they are added. *)
Definition instance_pair_edges (inst : JZASTNode) (pe : JZCombPortEdge) : Path :=
  match bound_expr inst (in_port pe), bound_expr inst (out_port pe) with
  | Some in_rhs, Some out_rhs =>
      flat_map (fun s =>
        match net_of_decl s with
        | Some src =>
            flat_map (fun d => match net_of_decl d with Some dst => [mkEdge src dst] | None => [] end)
              (sem_comb_collect_targets_from_lhs outer_scope out_rhs)
        | None => []
        end) (sem_comb_collect_sources_from_expr outer_scope in_rhs)
  | _, _ => []
  end.

Definition add_port_edges (extra_conditional : bool) (inst : JZASTNode) (pes : list JZCombPortEdge) (paths : list Path) :
    list Path :=
  fold_left (fun paths pe =>
    fold_left (fun paths e =>
      sem_comb_add_edge_to_paths (src_net_ix e) (dst_net_ix e) (conditional pe || extra_conditional) paths)
      (instance_pair_edges inst pe) paths) pes paths.
End Outer.

(** ** Ports *)

(** The declarations of the PORT blocks that have one of the directions. *)
Definition module_ports (scope : JZModuleScope) (dirs : list string) : list (Address * JZASTNode) :=
  concat (imap (fun ci pb =>
    if node_is JZ_AST_PORT_BLOCK pb then
      concat (imap (fun pi p =>
        match ast_block_kind p with
        | Some dir =>
            if node_is JZ_AST_PORT_DECL p && existsb (String.eqb dir) dirs
            then [(scope_addr scope ++ [ci; pi], p)] else []
        | None => []
        end) (ast_children pb))
    else []) (ast_children (scope_node scope))).

(** How many of the paths lead from one net to another. *)
Fixpoint reachable_in (paths : list Path) (net_count src dst : nat) : option nat :=
  match paths with
  | [] => Some 0
  | p :: paths =>
      r ← (if length p =? 0 then Some false else sem_comb_reachable_in_edgeset p net_count src dst);
      n ← reachable_in paths net_count src dst;
      Some (if r : bool then S n else n)
  end.

Definition port_edge (g : NetGraph) (paths : list Path) (i o : Address * JZASTNode) : option (list JZCombPortEdge) :=
  if bool_decide (fst i = fst o) then Some []
  else
    match net_of_decl g (fst i), net_of_decl g (fst o) with
    | Some src, Some dst =>
        n ← reachable_in paths (net_count g) src dst;
        Some (if n =? 0 then []
              else [mkPortEdge (ast_name (snd i)) (ast_name (snd o)) (n <? length paths)])
    | _, _ => Some []
    end.

(** The edges between all pairs of ports. *)
Fixpoint collect {A} (f : A -> option (list JZCombPortEdge)) (l : list A) : option (list JZCombPortEdge) :=
  match l with
  | [] => Some []
  | a :: l => es ← f a; es' ← collect f l; Some (es ++ es')
  end.

Definition port_edges (scope : JZModuleScope) (g : NetGraph) (paths : list Path) : option (list JZCombPortEdge) :=
  let ins := module_ports scope ["IN"; "INOUT"]%string in
  let outs := module_ports scope ["OUT"; "INOUT"]%string in
  collect (fun i => collect (port_edge g paths i) outs) ins.

(** ** Building summaries *)

Definition is_async (n : JZASTNode) : bool :=
  node_is JZ_AST_BLOCK n && field_is "ASYNCHRONOUS" (ast_block_kind n).

Definition async_blocks (m : JZASTNode) : list JZASTNode := List.filter is_async (ast_children m).

Section Summaries.
Variables (moves : nat -> bool) (module_scopes : list JZModuleScope) (project_symbols : list JZSymbol).

Definition sem_comb_cache_slot (key : Address) : CM SlotRef := fun c =>
  match find_index key (slots c) with
  | Some i => Ok (mkRef (cache_block c) i) c
  | None =>
      let n := length (slots c) in
      let block := if moves n then S (cache_block c) else cache_block c in
      Ok (mkRef block n) (mkCache (slots c ++ [mkSlot key [] COMB_CACHE_PENDING]) block)
  end.

(** The scope of the module an instance is of. *)
Definition instance_scope (inst : JZASTNode) : option JZModuleScope :=
  name ← ast_text inst;
  sym ← project_lookup_module_or_blackbox project_symbols name;
  _ ← sym_node sym;
  find_module_scope_for_node module_scopes (sym_addr sym).

(** The instances of a module in order, with whether a feature guard holds them. *)
Definition instances (m : JZASTNode) : list (bool * JZASTNode) :=
  each_instance (fun guarded _ inst l => l ++ [(guarded, inst)]) [] m [].

Section Inject.
(** [sem_comb_module_port_edges]. *)
Variable module_port_edges : JZModuleScope -> CM (list JZCombPortEdge).

Definition sem_comb_inject_edges_for_instance (outer_scope : JZModuleScope) (outer : NetGraph)
    (extra_conditional : bool) (inst : JZASTNode) (paths : list Path) : CM (list Path) :=
  match instance_scope inst with
  | None => mret paths
  | Some target =>
      pes ← module_port_edges target;
      mret (add_port_edges outer_scope outer extra_conditional inst pes paths)
  end.

Fixpoint inject_instances (outer_scope : JZModuleScope) (outer : NetGraph) (insts : list (bool * JZASTNode))
    (paths : list Path) : CM (list Path) :=
  match insts with
  | [] => mret paths
  | (guarded, inst) :: insts =>
      paths ← sem_comb_inject_edges_for_instance outer_scope outer guarded inst paths;
      inject_instances outer_scope outer insts paths
  end.

Definition sem_comb_inject_all_instance_edges (outer_scope : JZModuleScope) (outer : NetGraph) (paths : list Path) :
    CM (list Path) :=
  inject_instances outer_scope outer (instances (scope_node outer_scope)) paths.

(** The summary of a module that is not a blackbox, while its slot is in
    progress.  The slot is written twice at the end, with nothing in between. *)
Definition summarise (slot : SlotRef) (scope : JZModuleScope) : CM unit :=
  let g := sem_net_build_module_graph scope project_symbols in
  paths ← sem_comb_inject_all_instance_edges scope g [[]];
  let paths := fold_left (fun paths blk => analyze_block scope g blk paths) (async_blocks (scope_node scope)) paths in
  es ← search (port_edges scope g paths);
  write_slot slot (fun s => mkSlot (module_node s) (slot_edges s ++ es) COMB_CACHE_DONE).
End Inject.

(** The edges of the summary of a module, which [build] builds if need be.  A
    module in progress, or opaque, has none. *)
Definition sem_comb_module_port_edges (build : SlotRef -> JZModuleScope -> CM unit) (child : JZModuleScope) :
    CM (list JZCombPortEdge) :=
  slot ← sem_comb_cache_slot (scope_addr child);
  s ← read_slot slot;
  _ ← match slot_state s with
      | COMB_CACHE_PENDING => build slot child
      | _ => mret ()
      end;
  s ← read_slot slot;
  mret (match slot_state s with COMB_CACHE_DONE => slot_edges s | _ => [] end).

(** [levels]: how many levels the depth counter still allows. *)
Fixpoint sem_comb_build_summary (levels : nat) (slot : SlotRef) (scope : JZModuleScope) : CM unit :=
  match levels with
  | O => write_slot slot (set_state COMB_CACHE_OPAQUE)
  | S levels =>
      _ ← write_slot slot (set_state COMB_CACHE_IN_PROGRESS);
      if node_is JZ_AST_BLACKBOX (scope_node scope) then write_slot slot (set_state COMB_CACHE_OPAQUE)
      else summarise (sem_comb_module_port_edges (sem_comb_build_summary levels)) slot scope
  end.

Definition SEM_RECURSION_DEPTH : nat := Z.to_nat (jz_input_limit_value JZ_LIMIT_SEM_RECURSION_DEPTH).

(** ** Checks *)

Record CombReport := mkCombReport { report_loc : JZLocation; report_rule : CombRule }.

Definition check_block (scope : JZModuleScope) (g : NetGraph) (blk : JZASTNode) : CM (list CombReport) :=
  paths ← sem_comb_inject_all_instance_edges
            (sem_comb_module_port_edges (sem_comb_build_summary SEM_RECURSION_DEPTH)) scope g [[]];
  v ← search (comb_verdict (analyze_block scope g blk paths) (net_count g));
  mret (match v with Some rule => [mkCombReport (ast_loc blk) rule] | None => [] end).

Fixpoint check_blocks (scope : JZModuleScope) (g : NetGraph) (blks : list JZASTNode) : CM (list CombReport) :=
  match blks with
  | [] => mret []
  | blk :: blks => r ← check_block scope g blk; rs ← check_blocks scope g blks; mret (r ++ rs)
  end.

Definition sem_check_combinational_loops_for_module (scope : JZModuleScope) (g : NetGraph) : CM (list CombReport) :=
  check_blocks scope g (async_blocks (scope_node scope)).

(** The loop checks of [sem_build_net_graphs], whose other rules read the same
    nets. *)
Fixpoint check_modules (scopes : list JZModuleScope) : CM (list CombReport) :=
  match scopes with
  | [] => mret []
  | scope :: scopes =>
      r ← (if node_is JZ_AST_BLACKBOX (scope_node scope) then mret []
           else sem_check_combinational_loops_for_module scope (sem_net_build_module_graph scope project_symbols));
      rs ← check_modules scopes;
      mret (r ++ rs)
  end.
End Summaries.

Definition sem_build_net_graphs (moves : nat -> bool) (module_scopes : list JZModuleScope)
    (project_symbols : list JZSymbol) : CombOutcome (list CombReport) :=
  check_modules moves module_scopes project_symbols module_scopes (mkCache [] 0).
