(* ===== verification/CombMemo.v ===== *)
(** * The cache of summaries is transparent

    Where modules do not contain themselves and the cache does not move, the
    check with the cache gives what a plain recursion over the hierarchy gives. *)

From stdpp Require Import relations.
From S2P Require Import Prelude CString Util Ast SymTab NetGraph Comb CombGraph CombSummary.

Local Open Scope nat_scope.

(** ** The recursion without a cache *)

Section Reference.
Context (module_scopes : list JZModuleScope) (project_symbols : list JZSymbol).

Section Inject.
Context (summary : JZModuleScope -> option (list JZCombPortEdge)).

Fixpoint inject_plain (outer_scope : JZModuleScope) (outer : NetGraph) (insts : list (bool * JZASTNode))
    (paths : list Path) : option (list Path) :=
  match insts with
  | [] => Some paths
  | (guarded, inst) :: insts =>
      match instance_scope module_scopes project_symbols inst with
      | None => inject_plain outer_scope outer insts paths
      | Some target =>
          pes ← summary target;
          inject_plain outer_scope outer insts (add_port_edges outer_scope outer guarded inst pes paths)
      end
  end.

Definition summary_from (scope : JZModuleScope) : option (list JZCombPortEdge) :=
  let g := sem_net_build_module_graph scope project_symbols in
  paths ← inject_plain scope g (instances (scope_node scope)) [[]];
  port_edges scope g
    (fold_left (fun paths blk => analyze_block scope g blk paths) (async_blocks (scope_node scope)) paths).
End Inject.

Fixpoint summary_plain (n : nat) (scope : JZModuleScope) : option (list JZCombPortEdge) :=
  match n with
  | O => None
  | S n =>
      if node_is JZ_AST_BLACKBOX (scope_node scope) then Some [] else summary_from (summary_plain n) scope
  end.

Fixpoint check_blocks_plain (n : nat) (scope : JZModuleScope) (g : NetGraph) (blks : list JZASTNode) :
    option (list CombReport) :=
  match blks with
  | [] => Some []
  | blk :: blks =>
      paths ← inject_plain (summary_plain n) scope g (instances (scope_node scope)) [[]];
      v ← comb_verdict (analyze_block scope g blk paths) (net_count g);
      rs ← check_blocks_plain n scope g blks;
      Some (match v with Some rule => [mkCombReport (ast_loc blk) rule] | None => [] end ++ rs)
  end.

Fixpoint check_modules_plain (n : nat) (scopes : list JZModuleScope) : option (list CombReport) :=
  match scopes with
  | [] => Some []
  | scope :: scopes =>
      r ← (if node_is JZ_AST_BLACKBOX (scope_node scope) then Some []
           else check_blocks_plain n scope (sem_net_build_module_graph scope project_symbols)
                  (async_blocks (scope_node scope)));
      rs ← check_modules_plain n scopes;
      Some (r ++ rs)
  end.

(** ** Hierarchies *)

(** Different scopes have different modules, and an instance's module has a
    smaller rank than the module it is in; ranks stay below [n]. *)
Record hierarchy (rank : Address -> nat) (n : nat) : Prop := {
  hi_distinct : forall s1 s2, s1 ∈ module_scopes -> s2 ∈ module_scopes -> scope_addr s1 = scope_addr s2 -> s1 = s2;
  hi_rank : forall s guarded inst t, s ∈ module_scopes -> (guarded, inst) ∈ instances (scope_node s) ->
    instance_scope module_scopes project_symbols inst = Some t -> rank (scope_addr t) < rank (scope_addr s);
  hi_bound : forall s, s ∈ module_scopes -> rank (scope_addr s) < n }.

Lemma instance_scope_in inst t : instance_scope module_scopes project_symbols inst = Some t -> t ∈ module_scopes.
Proof.
  unfold instance_scope. intros (name & _ & (sym & _ & (node & _ & H)%bind_Some)%bind_Some)%bind_Some.
  apply List.find_some in H as [H _]. by apply list_elem_of_In.
Qed.

(** ** The searches succeed *)

Lemma reachable_in_total paths n src dst : is_Some (reachable_in paths n src dst).
Proof.
  induction paths as [|p paths [k IH]]; cbn [reachable_in]; [by eexists|].
  destruct (length p =? 0); cbn; [rewrite IH; by eexists|].
  destruct (reachable_correct p n src dst) as (b & -> & _). cbn. rewrite IH. by eexists.
Qed.

Lemma collect_total {A} (f : A -> option (list JZCombPortEdge)) l :
  (forall a, is_Some (f a)) -> is_Some (collect f l).
Proof.
  intros Hf. induction l as [|a l [es IH]]; cbn; [by eexists|]. destruct (Hf a) as [es' ->]. cbn. rewrite IH. by eexists.
Qed.

Lemma port_edges_total scope g paths : is_Some (port_edges scope g paths).
Proof.
  apply collect_total. intros i. apply collect_total. intros o. unfold port_edge.
  case_bool_decide; [by eexists|]. destruct (net_of_decl g i.1), (net_of_decl g o.1); try by eexists.
  destruct (reachable_in_total paths (net_count g) n n0) as [k ->]. by eexists.
Qed.

Lemma any_path_total paths n : is_Some (any_path paths n).
Proof.
  induction paths as [|p paths IH]; cbn [any_path]; [by eexists|]. destruct (_ =? _); [done|].
  destruct (edgeset_has_cycle_correct p n) as ([] & -> & _); cbn; [by eexists|done].
Qed.

Lemma comb_verdict_total paths n : is_Some (comb_verdict paths n).
Proof.
  unfold comb_verdict, sem_comb_any_path_has_cycle, sem_comb_union_has_cycle.
  destruct (n =? 0); [by eexists|]. destruct (any_path_total paths n) as [[] ->]; cbn; [by eexists|].
  destruct (edgeset_has_cycle_correct (concat paths) n) as ([] & -> & _); by eexists.
Qed.

Section Ranked.
Context (rank : Address -> nat) (levels : nat) (Hier : hierarchy rank levels).

Lemma inject_plain_same f h s outer insts paths : s ∈ module_scopes ->
  (forall x, x ∈ insts -> x ∈ instances (scope_node s)) ->
  (forall t, t ∈ module_scopes -> rank (scope_addr t) < rank (scope_addr s) -> f t = h t) ->
  inject_plain f s outer insts paths = inject_plain h s outer insts paths.
Proof using Hier.
  intros Hs Hin Hfh. revert paths. induction insts as [|[guarded inst] insts IH]; intros paths; [done|].
  cbn [inject_plain]. destruct (instance_scope _ _ inst) as [t|] eqn:Et.
  - rewrite (Hfh t); [|by eapply instance_scope_in|]. 2: { eapply hi_rank; [exact Hier|exact Hs|apply Hin; by left|done]. }
    destruct (h t); cbn; [|done]. apply IH. intros x Hx. apply Hin. by right.
  - apply IH. intros x Hx. apply Hin. by right.
Qed.

(** The summary does not depend on how many levels more are allowed. *)
Lemma summary_plain_enough n : forall m s, s ∈ module_scopes -> rank (scope_addr s) < n -> rank (scope_addr s) < m ->
  summary_plain n s = summary_plain m s.
Proof using Hier.
  induction n as [|n IH]; intros [|m] s Hs Hn Hm; [lia..|]. cbn [summary_plain]. destruct (node_is _ _); [done|].
  unfold summary_from. erewrite inject_plain_same; [done|exact Hs|done|]. intros t Ht Hlt. apply IH; [done|lia..].
Qed.

Definition summary_of (s : JZModuleScope) : option (list JZCombPortEdge) := summary_plain levels s.

Lemma summary_of_unfold s : s ∈ module_scopes ->
  summary_of s = if node_is JZ_AST_BLACKBOX (scope_node s) then Some [] else summary_from summary_of s.
Proof using Hier.
  intros Hs. pose proof (hi_bound _ _ Hier s Hs) as Hb. unfold summary_of at 1.
  rewrite (summary_plain_enough levels (S levels)) by (done || lia). done.
Qed.

(** ** The cache *)

(** The slot of a module has its summary. *)
Definition right (slot : JZModuleCombCache) : Prop := forall s, s ∈ module_scopes -> scope_addr s = module_node slot ->
  (slot_state slot = COMB_CACHE_DONE /\ summary_of s = Some (slot_edges slot)) \/
  (slot_state slot = COMB_CACHE_OPAQUE /\ summary_of s = Some []).

Definition right_below (r : nat) (c : CombCache) : Prop :=
  forall slot, slot ∈ slots c -> rank (module_node slot) < r -> right slot.

Definition grows (c c' : CombCache) : Prop :=
  cache_block c' = cache_block c /\ exists new, slots c' = slots c ++ new /\ forall slot, slot ∈ new -> right slot.

Lemma grows_refl c : grows c c.
Proof. split; [done|]. exists []. rewrite app_nil_r. split; [done|]. by intros ? ?%elem_of_nil. Qed.

Lemma grows_trans c1 c2 c3 : grows c1 c2 -> grows c2 c3 -> grows c1 c3.
Proof.
  intros [H1 (n1 & E1 & R1)] [H2 (n2 & E2 & R2)]. split; [congruence|]. exists (n1 ++ n2).
  rewrite app_assoc, <- E1. split; [done|]. intros slot [?|?]%elem_of_app; auto.
Qed.

Lemma grows_right r c c' : right_below r c -> grows c c' -> right_below r c'.
Proof. intros H [_ (new & E & Hnew)] slot. rewrite E. intros [Hs|Hs]%elem_of_app Hr; auto. Qed.

(** [m] adds summaries to the cache and returns what [v] is. *)
Definition yields {A} (m : CM A) (c : CombCache) (v : option A) : Prop :=
  exists a c', m c = Ok a c' /\ v = Some a /\ grows c c'.

Lemma yields_bind {A B} (m : CM A) (f : A -> CM B) c v w : yields m c v ->
  (forall a c', v = Some a -> grows c c' -> yields (f a) c' (w a)) -> yields (m ≫= f) c (v ≫= w).
Proof.
  intros (a & c' & Em & -> & Hg) Hf. destruct (Hf a c' eq_refl Hg) as (b & c'' & Ef & Ew & Hg').
  exists b, c''. unfold mbind, CM_bind. rewrite Em. split; [done|]. split; [done|]. by eapply grows_trans.
Qed.

Lemma yields_ret {A} (a : A) c : yields (mret a) c (Some a).
Proof. exists a, c. split; [done|]. split; [done|]. apply grows_refl. Qed.

Lemma yields_search {A} (r : option A) c : is_Some r -> yields (search r) c r.
Proof. intros [a ->]. apply (yields_ret a). Qed.

Lemma right_done s es : s ∈ module_scopes -> summary_of s = Some es -> right (mkSlot (scope_addr s) es COMB_CACHE_DONE).
Proof using Hier.
  intros Hs He s' Hs' E. left. split; [done|]. cbn in *. by rewrite (hi_distinct _ _ Hier s' s Hs' Hs E).
Qed.

Lemma right_opaque s es : s ∈ module_scopes -> summary_of s = Some [] -> right (mkSlot (scope_addr s) es COMB_CACHE_OPAQUE).
Proof using Hier.
  intros Hs He s' Hs' E. right. split; [done|]. cbn in *. by rewrite (hi_distinct _ _ Hier s' s Hs' Hs E).
Qed.

Definition still : nat -> bool := fun _ => false.

(** [build] fills the slot of [s], the last one, and may add others. *)
Definition builds (build : SlotRef -> JZModuleScope -> CM unit) (s : JZModuleScope) : Prop := forall c pre,
  slots c = pre ++ [mkSlot (scope_addr s) [] COMB_CACHE_PENDING] -> right_below (rank (scope_addr s)) c ->
  exists c', build (mkRef (cache_block c) (length pre)) s c = Ok () c' /\ cache_block c' = cache_block c /\
    exists slot new, slots c' = pre ++ slot :: new /\ module_node slot = scope_addr s /\ right slot /\
      forall x, x ∈ new -> right x.

Lemma find_index_spec key ss :
  match find_index key ss with
  | Some i => exists s, ss !! i = Some s /\ module_node s = key
  | None => forall s, s ∈ ss -> module_node s <> key
  end.
Proof.
  induction ss as [|s ss IH]; cbn; [by intros s ?%elem_of_nil|]. case_bool_decide as Hk; [by exists s|].
  destruct (find_index key ss); cbn; [done|]. intros x [-> |Hx]%elem_of_cons; auto.
Qed.

Lemma lookup_mid {A} (pre new : list A) x : (pre ++ x :: new) !! length pre = Some x.
Proof. by apply list_lookup_middle. Qed.

Lemma right_result slot s : s ∈ module_scopes -> module_node slot = scope_addr s -> right slot ->
  summary_of s = Some (match slot_state slot with COMB_CACHE_DONE => slot_edges slot | _ => [] end).
Proof. intros Hs Hm Hr. by destruct (Hr s Hs) as [[-> ?]|[-> ?]]. Qed.

Lemma right_settled slot s : s ∈ module_scopes -> module_node slot = scope_addr s -> right slot ->
  slot_state slot <> COMB_CACHE_PENDING.
Proof. intros Hs Hm Hr. by destruct (Hr s Hs) as [[-> ?]|[-> ?]]. Qed.

Lemma port_edges_yield build t c : t ∈ module_scopes -> builds build t -> right_below (S (rank (scope_addr t))) c ->
  yields (sem_comb_module_port_edges still build t) c (summary_of t).
Proof.
  intros Ht Hb Hc. unfold yields, sem_comb_module_port_edges, sem_comb_cache_slot, mbind, CM_bind, mret, CM_ret.
  pose proof (find_index_spec (scope_addr t) (slots c)) as Hf. destruct (find_index _ _) as [i|].
  - destruct Hf as (slot & Hi & Hm). unfold read_slot. cbn [ref_block ref_index]. rewrite Nat.eqb_refl, Hi.
    assert (right slot) as Hr.
    { apply Hc; [by eapply list_elem_of_lookup_2|rewrite Hm; lia]. }
    pose proof (right_settled slot t Ht Hm Hr) as Hs. pose proof (right_result slot t Ht Hm Hr) as Hres.
    destruct (slot_state slot) eqn:Es; try done; rewrite Nat.eqb_refl, Hi, Es; eexists _, c; by split_and!; [..|apply grows_refl].
  - cbn [still]. set (c1 := mkCache _ _). assert (cache_block c1 = cache_block c) as Hb1 by done.
    assert (slots c1 = slots c ++ [mkSlot (scope_addr t) [] COMB_CACHE_PENDING]) as Hs1 by done.
    clearbody c1. unfold read_slot at 1. cbn [ref_block ref_index].
    rewrite Hb1, Nat.eqb_refl, Hs1, lookup_mid. cbn [slot_state].
    destruct (Hb c1 (slots c) Hs1) as (c' & E & Hblk & slot & new & Hsl & Hm & Hr & Hnew).
    { intros x. rewrite Hs1. intros [Hx|Hx]%elem_of_app Hlt; [apply Hc; [done|lia]|].
      apply list_elem_of_singleton in Hx as ->. cbn in Hlt. lia. }
    rewrite Hb1 in E, Hblk. rewrite E. unfold read_slot. cbn [ref_block ref_index].
    rewrite Hblk, Nat.eqb_refl, Hsl, lookup_mid.
    eexists _, c'. split_and!; [done|by apply right_result|]. split; [done|]. exists (slot :: new). split; [done|].
    intros x [-> |Hx]%elem_of_cons; auto.
Qed.

Lemma inject_yield pe s outer insts c : s ∈ module_scopes ->
  (forall x, x ∈ insts -> x ∈ instances (scope_node s)) -> right_below (rank (scope_addr s)) c ->
  (forall t c, t ∈ module_scopes -> rank (scope_addr t) < rank (scope_addr s) ->
     right_below (rank (scope_addr s)) c -> yields (pe t) c (summary_of t)) ->
  forall paths, yields (inject_instances module_scopes project_symbols pe s outer insts paths) c
                  (inject_plain summary_of s outer insts paths).
Proof using Hier.
  intros Hs Hin Hc Hpe. revert c Hc. induction insts as [|[guarded inst] insts IH]; intros c Hc paths; [apply yields_ret|].
  cbn [inject_instances inject_plain]. unfold sem_comb_inject_edges_for_instance.
  assert (forall x, x ∈ insts -> x ∈ instances (scope_node s)) as Hin' by (intros x Hx; apply Hin; by right).
  destruct (instance_scope _ _ inst) as [t|] eqn:Et; [|by apply IH].
  assert (t ∈ module_scopes) as Ht by (by eapply instance_scope_in).
  assert (rank (scope_addr t) < rank (scope_addr s)) as Hlt by (eapply hi_rank; [exact Hier|done|apply Hin; by left|done]).
  destruct (Hpe t c Ht Hlt Hc) as (es & c' & E & Es & Hg). rewrite Es. cbn [mbind option_bind].
  destruct (IH Hin' c' (grows_right _ _ _ Hc Hg) (add_port_edges s outer guarded inst es paths)) as (r & c'' & E' & Er & Hg').
  exists r, c''. split_and!; [|done|by eapply grows_trans].
  unfold mbind, CM_bind in *. by rewrite E.
Qed.

Lemma write_last c pre s new f :
  slots c = pre ++ s :: new ->
  write_slot (mkRef (cache_block c) (length pre)) f c = Ok () (mkCache (pre ++ f s :: new) (cache_block c)).
Proof.
  intros E. unfold write_slot. cbn [ref_block ref_index]. rewrite Nat.eqb_refl, E.
  assert (alter f (length pre) (pre ++ s :: new) = pre ++ f s :: new) as ->; [|done].
  clear E. induction pre as [|x pre IH]; [done|]. cbn. f_equal. apply IH.
Qed.

Lemma builds_all n : forall s, s ∈ module_scopes -> rank (scope_addr s) < n ->
  builds (sem_comb_build_summary still module_scopes project_symbols n) s.
Proof using Hier.
  induction n as [|n IH]; intros s Hs Hn c pre Hc Hr; [lia|]. cbn [sem_comb_build_summary].
  unfold mbind at 1, CM_bind at 1. rewrite (write_last c pre _ [] _ Hc). cbn [set_state module_node slot_edges].
  set (c1 := mkCache _ _). assert (cache_block c1 = cache_block c) as Hb1 by done.
  assert (slots c1 = pre ++ [mkSlot (scope_addr s) [] COMB_CACHE_IN_PROGRESS]) as Hs1 by done.
  clearbody c1. rewrite <- Hb1. pose proof (summary_of_unfold s Hs) as Hsum.
  destruct (node_is JZ_AST_BLACKBOX (scope_node s)).
  - rewrite (write_last c1 pre _ [] _ Hs1). eexists. split; [reflexivity|]. split; [done|].
    eexists _, []. split_and!; [reflexivity|done|by apply right_opaque|by intros x ?%elem_of_nil].
  - assert (right_below (rank (scope_addr s)) c1) as Hr1.
    { intros x. rewrite Hs1. intros [Hx|Hx]%elem_of_app Hlt.
      - apply Hr; [rewrite Hc; apply elem_of_app; by left|done].
      - apply list_elem_of_singleton in Hx as ->. cbn in Hlt. lia. }
    unfold summarise. set (g := sem_net_build_module_graph s project_symbols).
    destruct (inject_yield (sem_comb_module_port_edges still (sem_comb_build_summary still module_scopes project_symbols n))
      s g (instances (scope_node s)) c1 Hs ltac:(done) Hr1) with (paths := [@nil JZCombEdge])
      as (paths & c2 & Ei & Ep & Hblk & new & Hsl & Hnew).
    { intros t c0 Ht Hlt Hc0. apply port_edges_yield; [done|apply IH; [done|lia]|].
      intros x Hx Hxr. apply Hc0; [done|lia]. }
    unfold mbind at 1, CM_bind at 1, sem_comb_inject_all_instance_edges. rewrite Ei.
    unfold summary_from in Hsum. fold g in Hsum. rewrite Ep in Hsum. cbn [mbind option_bind] in Hsum.
    set (final := fold_left _ _ paths) in *.
    destruct (port_edges_total s g final) as [es Ees]. rewrite Ees in Hsum |- *.
    unfold mbind, CM_bind. cbn [search]. rewrite Hs1, <- app_assoc in Hsl. rewrite <- Hblk, (write_last c2 pre _ new _ Hsl).
    eexists. split; [reflexivity|]. split; [done|]. cbn [module_node slot_edges app].
    eexists _, new. split_and!; [reflexivity|done|by apply right_done|done].
Qed.

(** All slots are right. *)
Definition all_right (c : CombCache) : Prop := forall slot, slot ∈ slots c -> right slot.

Lemma all_right_grows c c' : all_right c -> grows c c' -> all_right c'.
Proof. intros H [_ (new & E & Hnew)] slot. rewrite E. intros [?|?]%elem_of_app; auto. Qed.

Lemma inject_all_yield n s outer c : s ∈ module_scopes -> levels <= n -> all_right c ->
  forall paths, yields (sem_comb_inject_all_instance_edges module_scopes project_symbols
      (sem_comb_module_port_edges still (sem_comb_build_summary still module_scopes project_symbols n)) s outer paths) c
    (inject_plain summary_of s outer (instances (scope_node s)) paths).
Proof using Hier.
  intros Hs Hn Hc. apply inject_yield; [done|done|by intros x Hx _; apply Hc|].
  intros t c0 Ht Hlt Hc0. apply port_edges_yield; [done| |intros x Hx Hxr; apply Hc0; [done|lia]].
  apply builds_all; [done|]. pose proof (hi_bound _ _ Hier t Ht). lia.
Qed.
End Ranked.
End Reference.

Lemma check_blocks_yield scopes syms rank s g blks : hierarchy scopes syms rank SEM_RECURSION_DEPTH -> s ∈ scopes ->
  forall c, all_right scopes syms SEM_RECURSION_DEPTH c ->
  yields scopes syms SEM_RECURSION_DEPTH (check_blocks still scopes syms s g blks) c
    (check_blocks_plain scopes syms SEM_RECURSION_DEPTH s g blks).
Proof.
  intros Hier Hs. induction blks as [|blk blks IH]; intros c Hc; [apply yields_ret|].
  cbn [check_blocks check_blocks_plain]. unfold check_block.
  pose proof (inject_all_yield scopes syms rank _ Hier SEM_RECURSION_DEPTH s g c Hs (le_n _) Hc [[]]) as Hi.
  destruct Hi as (paths & c1 & Ei & Ep & Hg). change (inject_plain scopes syms (summary_plain scopes syms SEM_RECURSION_DEPTH) s g
    (instances (scope_node s)) [[]] = Some paths) in Ep. rewrite Ep. cbn [mbind option_bind].
  destruct (comb_verdict_total (analyze_block s g blk paths) (net_count g)) as [v Ev]. rewrite Ev. cbn [mbind option_bind].
  destruct (IH c1 (all_right_grows _ _ _ _ _ Hc Hg)) as (rs & c2 & Er & Eq & Hg'). rewrite Eq. cbn [mbind option_bind].
  eexists _, c2. split_and!; [|reflexivity|by eapply grows_trans].
  unfold mbind, CM_bind, mret, CM_ret. rewrite Ei. unfold search. by rewrite Ev, Er.
Qed.

Lemma check_modules_yield scopes syms rank : hierarchy scopes syms rank SEM_RECURSION_DEPTH ->
  forall todo c, (forall s, s ∈ todo -> s ∈ scopes) -> all_right scopes syms SEM_RECURSION_DEPTH c ->
  yields scopes syms SEM_RECURSION_DEPTH (check_modules still scopes syms todo) c
    (check_modules_plain scopes syms SEM_RECURSION_DEPTH todo).
Proof.
  intros Hier. induction todo as [|s todo IH]; intros c Hin Hc; [apply yields_ret|].
  cbn [check_modules check_modules_plain]. unfold sem_check_combinational_loops_for_module.
  assert (s ∈ scopes) as Hs by (apply Hin; by left). set (g := sem_net_build_module_graph s syms).
  assert (yields scopes syms SEM_RECURSION_DEPTH
    (if node_is JZ_AST_BLACKBOX (scope_node s) then mret [] else check_blocks still scopes syms s g (async_blocks (scope_node s))) c
    (if node_is JZ_AST_BLACKBOX (scope_node s) then Some [] else
       check_blocks_plain scopes syms SEM_RECURSION_DEPTH s g (async_blocks (scope_node s)))) as (r & c1 & E & Ep & Hg).
  { destruct (node_is _ _); [apply yields_ret|by eapply check_blocks_yield]. }
  rewrite Ep. cbn [mbind option_bind].
  destruct (IH c1) as (rs & c2 & E' & Ep' & Hg'); [intros x Hx; apply Hin; by right|by eapply all_right_grows|].
  rewrite Ep'. cbn [mbind option_bind]. eexists _, c2. split_and!; [|reflexivity|by eapply grows_trans].
  unfold mbind, CM_bind, mret, CM_ret in *. by rewrite E, E'.
Qed.
