(* ===== verification/CombSpec.v ===== *)
(** * What the combinational check promises *)

From stdpp Require Import relations.
From S2P Require Import Prelude CString Util Ast SymTab NetGraph NetSpec Comb CombGraph CombPaths CombSummary CombMemo.

Local Open Scope nat_scope.

(** ** Searches *)

(** C32: for every list of edges and number of nets, both searches end within
    their rounds and their stacks' arrays; one finds a cycle exactly if there is
    one, the other finds the target exactly if a path of at least one edge leads
    there. *)
Theorem comb_searches_correct edges n :
  (exists cycle, sem_comb_edgeset_has_cycle edges n = Some cycle /\
     (cycle = true <-> exists v, tc (edge_rel edges n) v v)) /\
  forall src dst, exists found, sem_comb_reachable_in_edgeset edges n src dst = Some found /\
     (found = true <-> tc (edge_rel edges n) src dst).
Proof. split; [apply edgeset_has_cycle_correct|intros; apply reachable_correct]. Qed.

(** ** Verdicts *)

Lemma tc_subrel {A} (R S : A -> A -> Prop) x y : (forall x y, R x y -> S x y) -> tc R x y -> tc S x y.
Proof. intros H. apply (tc_congruence (fun x => x)). exact H. Qed.

Lemma edge_rel_mono p q n v w : p ⊆ q -> edge_rel p n v w -> edge_rel q n v w.
Proof. intros H (He & ? & ?). split_and!; auto. Qed.

Lemma cyclic_mono p q n : p ⊆ q -> cyclic p n -> cyclic q n.
Proof. intros H [v Hv]. exists v. eapply tc_subrel; [|exact Hv]. intros x y. by apply edge_rel_mono. Qed.

Lemma any_path_correct paths n :
  exists b, any_path paths n = Some b /\ (b = true <-> exists p, p ∈ paths /\ cyclic p n).
Proof.
  induction paths as [|p paths (b & IH & Hb)]; cbn [any_path].
  { exists false. split; [done|]. split; [done|]. by intros (p & ?%elem_of_nil & _). }
  assert (exists c, (if length p =? 0 then Some false else sem_comb_edgeset_has_cycle p n) = Some c /\ (c = true <-> cyclic p n))
    as (c & Ec & Hc).
  { destruct (Nat.eqb_spec (length p) 0) as [H0|_]; [|apply edgeset_has_cycle_correct].
    exists false. split; [done|]. split; [done|]. intros Hc. exfalso. eapply cyclic_nil; [|exact Hc]. left.
    by apply length_zero_iff_nil. }
  destruct (length p =? 0).
  - injection Ec as <-. exists b. split; [done|]. rewrite Hb. split; intros (q & Hq & Hcy).
    + exists q. split; [by right|done].
    + apply elem_of_cons in Hq as [-> |Hq]; [by apply Hc in Hcy|by exists q].
  - rewrite Ec. cbn. destruct c.
    + exists true. split; [done|]. split; [|done]. intros _. exists p. split; [by left|by apply Hc].
    + exists b. split; [done|]. rewrite Hb. split; intros (q & Hq & Hcy).
      * exists q. split; [by right|done].
      * apply elem_of_cons in Hq as [-> |Hq]; [by apply Hc in Hcy|by exists q].
Qed.

Lemma comb_verdict_correct paths n : exists v, comb_verdict paths n = Some v /\
  (v = Some COMB_LOOP_UNCONDITIONAL <-> exists p, p ∈ paths /\ cyclic p n) /\
  (v = None <-> ~ cyclic (concat paths) n).
Proof.
  assert (forall p, p ∈ paths -> cyclic p n -> cyclic (concat paths) n) as Hsub.
  { intros p Hp. apply cyclic_mono. intros e He. apply list_elem_of_In, in_concat. exists p.
    by rewrite <- !list_elem_of_In. }
  unfold comb_verdict, sem_comb_any_path_has_cycle, sem_comb_union_has_cycle. destruct (Nat.eqb_spec n 0) as [->|_].
  { exists None. split; [done|]. assert (forall p, ~ cyclic p 0) as H0 by (intros p; apply cyclic_nil; by right).
    split; [split; [done|]; intros (p & _ & H); by apply H0 in H|]. split; [intros _; apply H0|done]. }
  destruct (any_path_correct paths n) as (any & -> & Ha). cbn [mbind option_bind]. destruct any.
  - exists (Some COMB_LOOP_UNCONDITIONAL). split; [done|]. split; [by rewrite <- Ha|]. split; [done|].
    intros H. destruct (proj1 Ha eq_refl) as (p & Hp & Hc). by apply Hsub in Hc.
  - assert (~ exists p, p ∈ paths /\ cyclic p n) as Hn by (rewrite <- Ha; done).
    destruct (edgeset_has_cycle_correct (concat paths) n) as (union & -> & Hu). cbn [mbind option_bind]. destruct union.
    + exists (Some COMB_LOOP_CONDITIONAL_SAFE). split; [done|]. split; [by split|]. split; [done|].
      intros H. by destruct (H (proj1 Hu eq_refl)).
    + exists None. split; [done|]. split; [by split|]. split; [|done]. intros _ Hc. by apply Hu in Hc.
Qed.

(** The edges of all ways through the statements after the paths [ps]. *)
Definition possible (scope : JZModuleScope) (g : NetGraph) (stmts : list JZASTNode) (ps : list Path) (v w : nat) : Prop :=
  v < net_count g /\ w < net_count g /\
  exists p es, p ∈ ps /\ way scope g stmts es /\ mkEdge v w ∈ p ++ es.

(** C8: for a block of statements the walk handles, after any paths [ps]: nothing
    is reported exactly if the edges of all ways together have no cycle; if one
    way has a cycle, the loop is reported as unconditional; and if there are at
    most 256 ways, then only if one has a cycle. *)
Theorem async_block_verdict scope g blk ps : forallb handled_top (ast_children blk) = true ->
  exists v, comb_verdict (analyze_block scope g blk ps) (net_count g) = Some v /\
    (v = None <-> ~ exists x, tc (possible scope g (ast_children blk) ps) x x) /\
    (forall p es, p ∈ ps -> way scope g (ast_children blk) es -> cyclic (p ++ es) (net_count g) ->
       v = Some COMB_LOOP_UNCONDITIONAL) /\
    (block_choices (length (ast_children blk)) (ast_children blk) * length ps <= COMB_MAX_PATHS ->
       v = Some COMB_LOOP_UNCONDITIONAL ->
       exists p es, p ∈ ps /\ way scope g (ast_children blk) es /\ cyclic (p ++ es) (net_count g)).
Proof.
  intros Hh. pose proof (statements_follow scope g _ _ (le_n _) Hh) as [Hcov Hsound Hexact _ _].
  fold (analyze_block scope g blk) in Hcov, Hsound, Hexact. set (paths := analyze_block scope g blk ps).
  destruct (comb_verdict_correct paths (net_count g)) as (v & Ev & Hun & Hnone). exists v. split_and!; [done| | |].
  - rewrite Hnone. apply not_iff_compat.
    assert (forall x y, edge_rel (concat paths) (net_count g) x y <-> possible scope g (ast_children blk) ps x y) as Hrel.
    { intros x y. unfold edge_rel, possible. split.
      - intros (He & ? & ?). split_and!; [done..|]. apply list_elem_of_In, in_concat in He as (q & Hq & He).
        apply list_elem_of_In in Hq, He. destruct (Hsound ps q Hq) as [_ Hin]. by apply Hin.
      - intros (? & ? & p & es & Hp & Hes & He). split_and!; [|done..].
        destruct (Hcov ps p es Hp Hes) as (q & Hq & Hs). apply list_elem_of_In, in_concat. exists q.
        rewrite <- !list_elem_of_In. auto. }
    split; intros [x Hx]; exists x; (eapply tc_subrel; [|exact Hx]); intros y z; by apply Hrel.
  - intros p es Hp Hes Hc. apply Hun. destruct (Hcov ps p es Hp Hes) as (q & Hq & Hs). exists q. split; [done|].
    by eapply cyclic_mono.
  - intros Hk Hv. apply Hun in Hv as (q & Hq & Hc). destruct (Hexact ps Hk) as [_ H].
    destruct (H q Hq) as (p & es & Hp & Hes & ->). by exists p, es.
Qed.

Definition loop_scope : JZModuleScope := wires ["a"; "b"; "c"; "d"]%string [].

Definition cond_if (body : list JZASTNode) : JZASTNode := node0 JZ_AST_STMT_IF None None (ident "d" :: body).
Definition else_branch (body : list JZASTNode) : JZASTNode := node0 JZ_AST_STMT_ELSE None None body.
Definition select (labels : list JZASTNode) : JZASTNode := node0 JZ_AST_STMT_SELECT None None (ident "d" :: labels).
Definition default (body : list JZASTNode) : JZASTNode := node0 JZ_AST_STMT_DEFAULT None None body.
Definition receive (lhs rhs : string) : JZASTNode := assign "RECEIVE" lhs rhs.

Definition loop_net : NetGraph := sem_net_build_module_graph loop_scope [].

Definition verdict_of (stmts : list JZASTNode) : option (option CombRule) :=
  comb_verdict (analyze_block loop_scope loop_net (async stmts) [[]]) 4.

(** A loop that needs both branches is safe, one in a single branch is not. *)
Example branch_loops :
  map verdict_of [[cond_if [receive "a" "b"]; else_branch [receive "b" "a"]];
                  [cond_if [receive "a" "b"; receive "b" "a"]];
                  [receive "a" "b"; receive "b" "c"]] =
  [Some (Some COMB_LOOP_CONDITIONAL_SAFE); Some (Some COMB_LOOP_UNCONDITIONAL); Some None].
Proof. vm_compute. reflexivity. Qed.

Lemma async_block_verdict_witness :
  let stmts := [cond_if [receive "a" "b"]; else_branch [receive "b" "a"]] in
  forallb handled_top stmts = true /\ block_choices 2 stmts * 1 <= COMB_MAX_PATHS /\
  ~ exists p es, p ∈ [[]] /\ way loop_scope loop_net stmts es /\ cyclic (p ++ es) 4.
Proof.
  intros stmts. split; [reflexivity|split; [apply Nat.leb_le; reflexivity|]].
  destruct (async_block_verdict loop_scope loop_net (async stmts) [[]] eq_refl) as (v & Ev & _ & Hun & _).
  intros (p & es & Hp & Hes & Hc). specialize (Hun p es Hp Hes Hc).
  assert (comb_verdict (analyze_block loop_scope loop_net (async stmts) [[]]) (net_count loop_net) =
    Some (Some COMB_LOOP_CONDITIONAL_SAFE)) as E by (vm_compute; reflexivity).
  rewrite E in Ev. injection Ev as <-. discriminate Hun.
Defined.

(** ** What the check does not see *)

(** One way through the statements is a loop. *)
Definition looping (stmts : list JZASTNode) : Prop :=
  exists es, way loop_scope loop_net stmts es /\ cyclic es 4.

Definition loop_a : list JZASTNode := [receive "a" "b"; receive "b" "a"].

Lemma loop_a_cyclic : cyclic [mkEdge 1 0; mkEdge 0 1] 4.
Proof.
  exists 0. apply (tc_l _ 0 1 0); [|apply tc_once]; (split; [vm_compute; set_solver|lia]).
Qed.

Lemma receive_way l r rest e es : assign_edges loop_scope loop_net (Some "RECEIVE"%string) [ident l; ident r] = [e] ->
  way loop_scope loop_net rest es -> way loop_scope loop_net (receive l r :: rest) (e :: es).
Proof.
  intros E H. pose proof (way_assign loop_scope loop_net (receive l r) rest es eq_refl H) as Hw.
  change (ast_block_kind (receive l r)) with (Some "RECEIVE"%string) in Hw.
  change (ast_children (receive l r)) with [ident l; ident r] in Hw. by rewrite E in Hw.
Qed.

Lemma loop_a_way : way loop_scope loop_net loop_a [mkEdge 1 0; mkEdge 0 1].
Proof. do 2 (apply receive_way; [vm_compute; reflexivity|]). constructor. Qed.

Definition empty_default : list JZASTNode := select [default []] :: loop_a.
Definition nested_else : list JZASTNode := [cond_if [cond_if []; else_branch loop_a]].
Definition guarded_loop : list JZASTNode :=
  [node0 JZ_AST_FEATURE_GUARD None None [ident "d"; node0 JZ_AST_BLOCK None None loop_a]].

(** Nothing is reported for three blocks with a way that is a loop: after a
    SELECT whose only label is an empty DEFAULT, in the ELSE of an IF inside
    another statement, and in a feature guard. *)
Theorem comb_check_misses :
  (looping empty_default /\ verdict_of empty_default = Some None) /\
  (looping nested_else /\ verdict_of nested_else = Some None) /\
  (looping guarded_loop /\ verdict_of guarded_loop = Some None).
Proof.
  split_and!; try (vm_compute; reflexivity); exists [mkEdge 1 0; mkEdge 0 1]; (split; [|apply loop_a_cyclic]).
  - apply (way_label _ _ _ loop_a (default []) []); [done|by left|constructor|apply loop_a_way].
  - apply (way_branch loop_scope loop_net (cond_if [cond_if []; else_branch loop_a]) [] [] []
      (cond_if [cond_if []; else_branch loop_a]) [mkEdge 1 0; mkEdge 0 1] []); [done|done|by left| |constructor].
    apply (way_branch loop_scope loop_net (cond_if []) [else_branch loop_a] [else_branch loop_a] []
      (else_branch loop_a) [mkEdge 1 0; mkEdge 0 1] []); [done|done|right; by left|apply loop_a_way|constructor].
  - apply (way_guarded loop_scope loop_net _ [] (node0 JZ_AST_BLOCK None None loop_a) [mkEdge 1 0; mkEdge 0 1] []);
      [done|by left|apply loop_a_way|constructor].
Qed.

(** A value that depends on itself through a condition is not reported. *)
Example condition_loop_missed :
  verdict_of [node0 JZ_AST_STMT_IF None None [ident "a"; receive "a" "b"]; else_branch [receive "a" "c"]] = Some None.
Proof. vm_compute. reflexivity. Qed.

(** ** Summaries *)

(** C34: if no module contains itself, the hierarchy is no deeper than the limit on
    the recursion and the cache does not move, the check with its cache ends and reports what the recursion over the hierarchy without a
    cache reports. *)
Theorem summaries_cached scopes syms rank : hierarchy scopes syms rank SEM_RECURSION_DEPTH ->
  exists reports c, sem_build_net_graphs still scopes syms = Ok reports c /\
    check_modules_plain scopes syms SEM_RECURSION_DEPTH scopes = Some reports.
Proof.
  intros Hier. destruct (check_modules_yield scopes syms rank Hier scopes (mkCache [] 0)) as (rs & c & E & Ep & _).
  - done.
  - by intros slot ?%elem_of_nil.
  - by exists rs, c.
Qed.

(** A module with the ports [x] and [y], and an instance of it between two nets. *)
Definition port (dir name : string) : JZASTNode := node0 JZ_AST_PORT_DECL (Some name) (Some dir) [].

Definition module_scope (ix : nat) (name : string) (items : list JZASTNode) : JZModuleScope :=
  mkScope (Some name) (node0 JZ_AST_MODULE (Some name) None (node0 JZ_AST_PORT_BLOCK None None [port "IN" "x"; port "OUT" "y"] :: items))
    [ix] [mkSymbol (Some "x"%string) JZ_SYM_PORT (Some (port "IN" "x")) [ix; 0; 0];
          mkSymbol (Some "y"%string) JZ_SYM_PORT (Some (port "OUT" "y")) [ix; 0; 1]].

Definition instance (module x y : string) : JZASTNode :=
  mkNode JZ_AST_MODULE_INSTANCE (mkLoc 1 1) (Some "u"%string) None (Some module) None
    [node0 JZ_AST_PORT_DECL (Some "x"%string) (Some "IN"%string) [ident x];
     node0 JZ_AST_PORT_DECL (Some "y"%string) (Some "OUT"%string) [ident y]].

(** [top] holds a [mid], which holds a [leaf]; [top] closes a loop around both. *)
Definition three_levels : list JZModuleScope :=
  [module_scope 0 "top" [instance "mid" "x" "y"; async [receive "x" "y"]];
   module_scope 1 "mid" [instance "leaf" "x" "y"; async []];
   module_scope 2 "leaf" [async [receive "y" "x"]]].

Definition three_symbols : list JZSymbol :=
  map (fun s => mkSymbol (scope_name s) JZ_SYM_MODULE (Some (scope_node s)) (scope_addr s)) three_levels.

Definition three_rank (a : Address) : nat := match a with [ix] => 2 - ix | _ => 0 end.

Lemma three_hierarchy : hierarchy three_levels three_symbols three_rank SEM_RECURSION_DEPTH.
Proof.
  assert (forall s, s ∈ three_levels -> three_rank (scope_addr s) <= 2) as Hle.
  { intros s Hs. repeat (apply elem_of_cons in Hs as [-> |Hs]; [vm_compute; lia|]). by apply elem_of_nil in Hs. }
  split.
  - intros s1 s2 H1 H2. repeat (apply elem_of_cons in H1 as [-> |H1]); try (by apply elem_of_nil in H1);
      repeat (apply elem_of_cons in H2 as [-> |H2]); try (by apply elem_of_nil in H2); done.
  - intros s guarded inst t Hs Hi Ht. repeat (apply elem_of_cons in Hs as [-> |Hs]); try (by apply elem_of_nil in Hs);
      (apply elem_of_cons in Hi as [[= -> ->]|Hi] || (vm_compute in Hi; by apply elem_of_nil in Hi)); try (by apply elem_of_nil in Hi);
      vm_compute in Ht; injection Ht as <-; vm_compute; lia.
  - intros s Hs%Hle. assert (2 < SEM_RECURSION_DEPTH) by (apply Nat.ltb_lt; vm_compute; reflexivity). lia.
Qed.

Lemma summaries_cached_witness :
  hierarchy three_levels three_symbols three_rank SEM_RECURSION_DEPTH /\
  exists c, sem_build_net_graphs still three_levels three_symbols =
    Ok [mkCombReport (mkLoc 1 1) COMB_LOOP_UNCONDITIONAL] c.
Proof.
  split; [exact three_hierarchy|].
  destruct (summaries_cached three_levels three_symbols three_rank three_hierarchy) as (reports & c & E & Ep).
  assert (check_modules_plain three_levels three_symbols SEM_RECURSION_DEPTH three_levels =
    Some [mkCombReport (mkLoc 1 1) COMB_LOOP_UNCONDITIONAL]) as Er by (vm_compute; reflexivity).
  rewrite Er in Ep. injection Ep as <-. exists c. exact E.
Defined.

(** When adding the second slot moves the cache, the check of a hierarchy of
    three levels uses the old address of the first; when no slot moves, it
    finds the loop that closes through two instances. *)
Theorem summary_dangles :
  sem_build_net_graphs (fun n => n =? 1) three_levels three_symbols = Dangling /\
  exists c, sem_build_net_graphs still three_levels three_symbols = Ok [mkCombReport (mkLoc 1 1) COMB_LOOP_UNCONDITIONAL] c.
Proof. split; [vm_compute; reflexivity|]. eexists. vm_compute. reflexivity. Qed.

(** ** The summary of a module without instances *)

(** One way through each block. *)
Fixpoint blocks_way (scope : JZModuleScope) (g : NetGraph) (blks : list JZASTNode) : Path -> Prop :=
  match blks with
  | [] => stays
  | blk :: blks => then_way (way scope g (ast_children blk)) (blocks_way scope g blks)
  end.

Definition all_handled (blks : list JZASTNode) : bool := forallb (fun b => forallb handled_top (ast_children b)) blks.

Definition blocks_choices (blks : list JZASTNode) : nat :=
  product (map (fun b => block_choices (length (ast_children b)) (ast_children b)) blks).

Lemma blocks_follow scope g blks : all_handled blks = true ->
  follows (fun paths => fold_left (fun paths blk => analyze_block scope g blk paths) blks paths)
    (blocks_way scope g blks) (blocks_choices blks).
Proof.
  induction blks as [|blk blks IH]; intros Hh; [apply follows_id|].
  apply andb_true_iff in Hh as [Hb Hh].
  apply (follows_then (analyze_block scope g blk) (fun paths => fold_left _ blks paths)); [|by apply IH].
  exact (statements_follow scope g (length (ast_children blk)) (ast_children blk) (le_n _) Hb).
Qed.

Lemma reachable_in_spec paths n src dst : exists k, reachable_in paths n src dst = Some k /\ k <= length paths /\
  (0 < k <-> exists p, p ∈ paths /\ tc (edge_rel p n) src dst) /\
  (k < length paths <-> exists p, p ∈ paths /\ ~ tc (edge_rel p n) src dst).
Proof.
  induction paths as [|p paths (k & IH & Hle & H0 & Hlt)]; cbn [reachable_in].
  { exists 0. split; [done|]. split; [done|]. 
    split; (split; [cbn; lia|by intros (p & ?%elem_of_nil & _)]). }
  assert (exists r, (if length p =? 0 then Some false else sem_comb_reachable_in_edgeset p n src dst) = Some r /\
    (r = true <-> tc (edge_rel p n) src dst)) as (r & -> & Hr).
  { destruct (Nat.eqb_spec (length p) 0) as [E|_]; [|apply reachable_correct]. exists false. split; [done|].
    split; [done|]. intros Ht. exfalso. apply length_zero_iff_nil in E as ->.
    inversion Ht as [? ? (? & _)|? ? ? (? & _)]; subst; by eapply elem_of_nil. }
  rewrite IH. cbn [mbind option_bind]. eexists. split; [reflexivity|]. cbn [length].
  assert (r = false <-> ~ tc (edge_rel p n) src dst) as Hr' by (rewrite <- Hr; by destruct r).
  setoid_rewrite elem_of_cons. destruct r.
  - assert (tc (edge_rel p n) src dst) as Ht by (by apply Hr). split; [lia|]. split.
    + split; [intros _; exists p; auto|lia].
    + rewrite <- Nat.succ_lt_mono, Hlt. split; [intros (q & ? & ?); eauto|]. intros (q & [-> |?] & ?); [done|eauto].
  - assert (~ tc (edge_rel p n) src dst) as Ht by (by apply Hr'). split; [lia|]. split.
    + rewrite H0. split; [intros (q & ? & ?); eauto|]. intros (q & [-> |?] & ?); [done|eauto].
    + split; [intros _; exists p; auto|lia].
Qed.

Lemma collect_elem {A} (f : A -> option (list JZCombPortEdge)) l es : collect f l = Some es ->
  forall pe, pe ∈ es <-> exists a es', a ∈ l /\ f a = Some es' /\ pe ∈ es'.
Proof.
  revert es. induction l as [|a l IH]; intros es; cbn [collect].
  - intros [= <-] pe. split; [by intros ?%elem_of_nil|by intros (a & ? & ?%elem_of_nil & _)].
  - intros (e1 & E1 & (e2 & E2 & [= <-])%bind_Some)%bind_Some pe. rewrite elem_of_app, (IH e2 E2). split.
    + intros [H|(b & es' & Hb & H)]; [exists a, e1; split; [by left|done]|exists b, es'; split; [by right|done]].
    + intros (b & es' & [-> |Hb]%elem_of_cons & Ef & H); [left; congruence|right; eauto].
Qed.

Definition port_nets (g : NetGraph) (scope : JZModuleScope) (i o : Address * JZASTNode) (src dst : nat) : Prop :=
  i ∈ module_ports scope ["IN"; "INOUT"]%string /\ o ∈ module_ports scope ["OUT"; "INOUT"]%string /\
  fst i <> fst o /\ net_of_decl g (fst i) = Some src /\ net_of_decl g (fst o) = Some dst.

Lemma port_edge_elem scope g paths es : port_edges scope g paths = Some es -> forall pe, pe ∈ es <->
  exists i o src dst, port_nets g scope i o src dst /\
    (exists p, p ∈ paths /\ tc (edge_rel p (net_count g)) src dst) /\
    exists c, pe = mkPortEdge (ast_name (snd i)) (ast_name (snd o)) c /\
      (c = true <-> exists p, p ∈ paths /\ ~ tc (edge_rel p (net_count g)) src dst).
Proof.
  intros E pe. rewrite (collect_elem _ _ _ E). split.
  - intros (i & es1 & Hi & E1 & H1). apply (collect_elem _ _ _ E1) in H1 as (o & es2 & Ho & E2 & H2).
    unfold port_edge in E2. case_bool_decide as Hne; [injection E2 as <-; by apply elem_of_nil in H2|].
    destruct (net_of_decl g i.1) as [src|] eqn:Es; [|injection E2 as <-; by apply elem_of_nil in H2].
    destruct (net_of_decl g o.1) as [dst|] eqn:Ed; [|injection E2 as <-; by apply elem_of_nil in H2].
    destruct (reachable_in_spec paths (net_count g) src dst) as (k & Ek & _ & H0 & Hlt). rewrite Ek in E2. cbn [mbind option_bind] in E2.
    destruct (k =? 0) eqn:Ek0; injection E2 as <-; [by apply elem_of_nil in H2|]. apply Nat.eqb_neq in Ek0.
    apply list_elem_of_singleton in H2 as ->. exists i, o, src, dst. split; [done|]. split.
    + apply H0. lia.
    + eexists. split; [reflexivity|]. by rewrite Nat.ltb_lt.
  - intros (i & o & src & dst & (Hi & Ho & Hne & Es & Ed) & Hp & c & -> & Hc).
    destruct (reachable_in_spec paths (net_count g) src dst) as (k & Ek & _ & H0 & Hlt).
    assert (port_edge g paths i o = Some [mkPortEdge (ast_name (snd i)) (ast_name (snd o)) c]) as Eo.
    { unfold port_edge. rewrite bool_decide_eq_false_2, Es, Ed, Ek by done. cbn [mbind option_bind]. apply H0 in Hp.
      destruct (Nat.eqb_spec k 0); [lia|]. do 3 f_equal. rewrite <- Hlt in Hc.
      destruct c; [by apply Nat.ltb_lt, Hc|]. apply Nat.ltb_ge. destruct (Nat.lt_ge_cases k (length paths)); [|done].
      by assert (false = true) by (by apply Hc). }
    destruct (collect_total (port_edge g paths i) (module_ports scope ["OUT"; "INOUT"]%string)) as [es1 E1].
    { intros o'. unfold port_edge. case_bool_decide; [by eexists|]. destruct (net_of_decl g i.1), (net_of_decl g o'.1); try by eexists.
      destruct (reachable_in_total paths (net_count g) n n0) as [k' ->]. by eexists. }
    exists i, es1. split_and!; [done|done|]. apply (collect_elem _ _ _ E1). eexists o, _. split_and!; [done|exact Eo|by left].
Qed.

(** C35: for a module without instances whose statements the walk handles: if
    some way connects an input to an output port, the summary has an edge for
    them; and with at most 256 ways, only then, marked as conditional only if
    some way does not connect them. *)
Theorem leaf_summary scopes syms n scope : instances (scope_node scope) = [] ->
  node_is JZ_AST_BLACKBOX (scope_node scope) = false ->
  all_handled (async_blocks (scope_node scope)) = true ->
  let g := sem_net_build_module_graph scope syms in
  let leads es src dst := tc (edge_rel es (net_count g)) src dst in
  exists edges, summary_plain scopes syms (S n) scope = Some edges /\
    (forall i o src dst es, port_nets g scope i o src dst -> blocks_way scope g (async_blocks (scope_node scope)) es ->
       leads es src dst -> exists c, mkPortEdge (ast_name (snd i)) (ast_name (snd o)) c ∈ edges) /\
    (blocks_choices (async_blocks (scope_node scope)) <= COMB_MAX_PATHS -> forall pe, pe ∈ edges ->
       exists i o src dst es, port_nets g scope i o src dst /\
         blocks_way scope g (async_blocks (scope_node scope)) es /\ leads es src dst /\
         in_port pe = ast_name (snd i) /\ out_port pe = ast_name (snd o) /\
         (conditional pe = true -> exists es', blocks_way scope g (async_blocks (scope_node scope)) es' /\ ~ leads es' src dst)).
Proof.
  intros Hi Hb Hh g leads. pose proof (blocks_follow scope g _ Hh) as [Hcov _ Hex _ _].
  set (paths := fold_left (fun paths blk => analyze_block scope g blk paths) (async_blocks (scope_node scope)) [[]]).
  destruct (port_edges_total scope g paths) as [edges E]. exists edges. split_and!.
  - cbn [summary_plain]. rewrite Hb. unfold summary_from. fold g. rewrite Hi. exact E.
  - intros i o src dst es Hn Hes Hl.
    destruct (Hcov [[]] [] es) as (q & Hq & Hs); [by left|done|].
    assert (exists p, p ∈ paths /\ tc (edge_rel p (net_count g)) src dst) as Hp.
    { exists q. split; [done|]. eapply tc_subrel; [|exact Hl]. intros x y. by apply edge_rel_mono. }
    assert (forall Q : Prop, (Q \/ ~ Q) -> exists c : bool, c = true <-> Q) as Hdec.
    { intros Q [HQ|HQ]; [by exists true|exists false]. split; [done|]. intros ?. by destruct HQ. }
    destruct (reachable_in_spec paths (net_count g) src dst) as (k & _ & _ & _ & Hlt).
    destruct (Hdec (exists p, p ∈ paths /\ ~ tc (edge_rel p (net_count g)) src dst)) as [c Hc].
    { rewrite <- Hlt. lia. }
    exists c. apply (port_edge_elem scope g paths edges E). exists i, o, src, dst. split; [done|]. split; [done|]. by exists c.
  - intros Hk pe Hpe. apply (port_edge_elem scope g paths edges E) in Hpe as (i & o & src & dst & Hn & (p & Hp & Hl) & c & -> & Hc).
    destruct (Hex [[]]) as [_ Hq]; [cbn [length]; lia|].
    destruct (Hq p Hp) as (p0 & es & ->%list_elem_of_singleton & Hes & ->).
    exists i, o, src, dst, es. split_and!; [done|done|done|done|done|]. cbn. intros ->.
    destruct (proj1 Hc eq_refl) as (p' & Hp' & Hn'). destruct (Hq p' Hp') as (p0' & es' & ->%list_elem_of_singleton & Hes' & ->).
    by exists es'.
Qed.

Definition leaf : JZModuleScope := module_scope 2 "leaf" [async [receive "y" "x"]].

Lemma leaf_summary_witness :
  summary_plain three_levels three_symbols 1 leaf = Some [mkPortEdge (Some "x"%string) (Some "y"%string) false] /\
  exists es, blocks_way leaf (sem_net_build_module_graph leaf three_symbols) (async_blocks (scope_node leaf)) es /\
    exists src dst, tc (edge_rel es 2) src dst.
Proof.
  assert (summary_plain three_levels three_symbols 1 leaf = Some [mkPortEdge (Some "x"%string) (Some "y"%string) false]) as E
    by (vm_compute; reflexivity).
  split; [exact E|].
  destruct (leaf_summary three_levels three_symbols 0 leaf eq_refl eq_refl eq_refl) as (edges & Ee & _ & H).
  rewrite E in Ee. injection Ee as <-.
  assert (blocks_choices (async_blocks (scope_node leaf)) <= COMB_MAX_PATHS) as Hk by (apply Nat.leb_le; vm_compute; reflexivity).
  destruct (H Hk _ (list_elem_of_here _ _)) as (i & o & src & dst & es & _ & Hw & Hl & _). exists es. split; [exact Hw|].
  exists src, dst. exact Hl.
Defined.
