(* ===== verification/Excl.v ===== *)
(** * Exclusive assignments: [compiler/src/sem/driver_flow.c], with the resolution of BUS signals of [driver.c]

    The analysis walks the statements of a block with a list of path states and
    records, in each, what has been assigned so far; after an IF chain or a
    SELECT the records of all branches are merged into the path.  Reports are
    values, in the order of the calls.  Memory suffices, and sizes do not
    overflow [size_t].  A pointer to a declaration is compared, never followed
    after the analysis: see [Decl]. *)

From S2P Require Import Prelude CString Digits Util Ast SymTab Literal NetGraph Comb.

Local Open Scope Z_scope.

(** ** Constant bounds *)

Fixpoint number_in (base : Z) (s : string) (v : Z) : option Z :=
  match s with
  | EmptyString => Some v
  | String c s' =>
      match nibble_of c with
      | Some d => if d <? base then number_in base s' (base * v + d) else None
      | None => None
      end
  end.

(** [strtol(s, &end, 0)] when it reads all of [s]: the prefixes of C choose the
    base. *)
Definition strtol0 (s : string) : option Z :=
  let '(neg, s) := sign_prefix (drop_while isspace s) in
  v ← match s with
      | String "0" (String x ((String _ _) as s')) => if is_letter "x" x then number_in 16 s' 0 else number_in 8 s 0
      | String "0" _ => number_in 8 s 0
      | String _ _ => number_in 10 s 0
      | EmptyString => None
      end;
  Some (Z.max (- LLONG_MAX - 1) (Z.min LLONG_MAX (if neg : bool then - v else v))).

(** Signed overflow, undefined in C, wraps around here. *)
Fixpoint sem_try_const_eval_ast_expr (expr : JZASTNode) : option Z :=
  match expr with
  | mkNode JZ_AST_EXPR_LITERAL _ _ _ (Some text) _ _ => strtol0 text
  | mkNode JZ_AST_EXPR_BINARY _ _ (Some op) _ _ (l :: r :: _) =>
      lv ← sem_try_const_eval_ast_expr l;
      rv ← sem_try_const_eval_ast_expr r;
      if String.eqb op "ADD" then Some (i64 (lv + rv))
      else if String.eqb op "SUB" then Some (i64 (lv - rv))
      else if String.eqb op "MUL" then Some (i64 (lv * rv))
      else if String.eqb op "DIV" then if rv =? 0 then None else Some (i64 (Z.quot lv rv))
      else if String.eqb op "MOD" then if rv =? 0 then None else Some (i64 (Z.rem lv rv))
      else None
  | _ => None
  end.

(** ** Targets *)

(** A declaration of the module is known by its place in the tree; a signal of a
    BUS port by the name of the node that
    [sem_bus_get_or_create_signal_decl] keeps for it: that function returns the
    node of an equal name if there is one. *)
Inductive Decl :=
  | NodeDecl (addr : Address) (node : JZASTNode)
  | BusSignalDecl (name : string).

Definition same_decl (d e : Decl) : bool :=
  match d, e with
  | NodeDecl a _, NodeDecl b _ => bool_decide (a = b)
  | BusSignalDecl n, BusSignalDecl m => String.eqb n m
  | _, _ => false
  end.

Definition decl_name (d : Decl) : option string :=
  match d with NodeDecl _ node => ast_name node | BusSignalDecl name => Some name end.

Definition decl_block_kind (d : Decl) : option string :=
  match d with NodeDecl _ node => ast_block_kind node | BusSignalDecl _ => None end.

Record JZAssignRange := mkRange { has_range : bool; range_lsb : Z; range_msb : Z }.

Definition no_range : JZAssignRange := mkRange false 0 0.

Record JZAssignTargetEntry := mkEntry {
  entry_decl : Decl;
  entry_is_register : bool;
  entry_range : JZAssignRange;
  entry_is_nested : bool;
  entry_can_drive_z : bool
}.

Definition sem_excl_add_target_from_symbol (sym : option JZSymbol) (range : JZAssignRange) (is_sync is_nested : bool) :
    list JZAssignTargetEntry :=
  match sym with
  | Some (mkSymbol _ kind (Some node) addr) =>
      if (if is_sync then bool_decide (kind = JZ_SYM_REGISTER)
          else bool_decide (kind ∈ [JZ_SYM_PORT; JZ_SYM_WIRE; JZ_SYM_REGISTER; JZ_SYM_LATCH]))
      then [mkEntry (NodeDecl addr node) (bool_decide (kind ∈ [JZ_SYM_REGISTER; JZ_SYM_LATCH])) range is_nested false]
      else []
  | _ => []
  end.

Definition literal_bound (n : JZASTNode) : option Z :=
  if node_is JZ_AST_EXPR_LITERAL n then text ← ast_text n; parse_simple_nonnegative_int text else None.

(** The bounds of a slice: two literals, or else two constant expressions. *)
Definition slice_range (cs : list JZASTNode) : JZAssignRange :=
  match cs with
  | _ :: msb :: lsb :: _ =>
      let literal := (m ← literal_bound msb; l ← literal_bound lsb;
                      if l <=? m then Some (mkRange true l m) else None) in
      let folded := (m ← sem_try_const_eval_ast_expr msb; l ← sem_try_const_eval_ast_expr lsb;
                     if (0 <=? m) && (0 <=? l) && (l <=? m) then Some (mkRange true (u32 l) (u32 m)) else None) in
      match literal with
      | Some r => r
      | None => match folded with Some r => r | None => no_range end
      end
  | _ => no_range
  end.

(** ** BUS signals *)

(** The rounds of the scan: the value, whether a digit was seen and whether a
    number is refused for its sign or its size; [None] at another character. *)
Fixpoint scan_decl_int (s : string) (value : Z) (saw_digit saw_sign refused : bool) : option (Z * bool * bool) :=
  match s with
  | EmptyString => Some (value, saw_digit, refused)
  | String c s' =>
      if isspace c || Ascii.eqb c "_" then scan_decl_int s' value saw_digit saw_sign refused
      else if negb saw_digit && negb saw_sign && (Ascii.eqb c "-" || Ascii.eqb c "+")
      then scan_decl_int s' value saw_digit true (refused || Ascii.eqb c "-")
      else
        match decimal_digit c with
        | None => None
        | Some d =>
            if (UINT_MAX / 10 <? value) || (value =? UINT_MAX / 10) && (UINT_MAX mod 10 <? d)
            then scan_decl_int s' value true saw_sign true
            else scan_decl_int s' (value * 10 + d) true saw_sign refused
        end
  end.

(** [Some] value where the code returns 1. *)
Definition eval_simple_positive_decl_int (s : string) : option Z :=
  match scan_decl_int s 0 false false false with
  | Some (value, true, false) => if value =? 0 then None else Some value
  | _ => None
  end.

(** Digits only; the value wraps around. *)
Fixpoint index_digits (s : string) (v : Z) : option Z :=
  match s with
  | EmptyString => Some v
  | String c s' => d ← decimal_digit c; index_digits s' (u32 (v * 10 + d))
  end.

Definition sem_eval_simple_index_literal (idx : JZASTNode) : option Z :=
  match idx with
  | mkNode JZ_AST_EXPR_LITERAL _ _ _ (Some text) _ _ =>
      match drop_while (fun c => Ascii.eqb c " " || (code c =? 9)) text with
      | EmptyString => None
      | p => index_digits p 0
      end
  | mkNode (JZ_AST_EXPR_IDENTIFIER | JZ_AST_EXPR_QUALIFIED_IDENTIFIER) _ (Some name) _ _ _ _ =>
      eval_simple_positive_decl_int name
  | _ => None
  end.

(** [sem_bus_signal_access_dirs]: read, write. *)
Definition sem_bus_signal_access_dirs (bus_dir role : string) : bool * bool :=
  if String.eqb bus_dir "INOUT" then (true, true)
  else
    let is_source := String.eqb role "SOURCE" in
    let is_target := String.eqb role "TARGET" in
    if negb is_source && negb is_target then (false, false)
    else if String.eqb bus_dir "OUT" then (negb is_source, is_source)
    else if String.eqb bus_dir "IN" then (is_source, negb is_source)
    else (false, false).

Definition sem_parse_bus_port_meta (decl : JZASTNode) : option (string * string) :=
  text ← ast_text decl;
  let '(bus_id, text) := scan_word text in
  let '(role, _) := scan_word text in
  if is_empty_string bus_id || is_empty_string role then None else Some (bus_id, role).

(** [index_value] is known if it is [Some]. *)
Record JZBusAccessInfo := mkBusInfo {
  port_decl : JZASTNode;
  signal_decl : option JZASTNode;
  signal_name : string;
  bus_count : Z;
  is_array : bool;
  has_index : bool;
  is_wildcard : bool;
  index_value : option Z;
  bus_readable : bool;
  bus_writable : bool
}.

(** What an expression names: port, signal, index, and whether it is a wildcard. *)
Definition bus_parts (expr : JZASTNode) : option (string * string * option JZASTNode * bool) :=
  match expr with
  | mkNode JZ_AST_EXPR_BUS_ACCESS _ (Some port) kind (Some signal) _ cs =>
      Some (port, signal, head cs, field_is "WILDCARD" kind)
  | mkNode JZ_AST_EXPR_QUALIFIED_IDENTIFIER _ (Some full) _ _ _ _ =>
      match split_at "." full with
      | Some ((String _ _) as port, (String _ _) as signal) =>
          match split_at "." signal with
          | Some _ => None
          | None => Some (truncate 255 port, signal, None, false)
          end
      | _ => None
      end
  | _ => None
  end.

Section Analysis.
Context (scope : JZModuleScope) (project_symbols : list JZSymbol).
(** [sem_eval_width_expr_at_loc] and the width that [infer_expr_type] finds, 0
    if it is unknown. *)
Context (eval_width_expr : string -> JZLocation -> option Z) (infer_width : JZASTNode -> Z).

(** [sem_resolve_bus_access] without a diagnostics list. *)
Definition sem_resolve_bus_access (expr : JZASTNode) : option JZBusAccessInfo :=
  match bus_parts expr with
  | None => None
  | Some (port, signal, index_expr, wildcard) =>
      port_sym ← module_scope_lookup_kind scope port JZ_SYM_PORT;
      node ← sym_node port_sym;
      if negb (field_is "BUS" (ast_block_kind node)) then None
      else
        let unresolved := mkBusInfo node None "" 0 false false false None false false in
        match sem_parse_bus_port_meta node with
        | None => Some unresolved
        | Some (bus_id, role) =>
            match project_lookup project_symbols bus_id JZ_SYM_BUS with
            | Some (mkSymbol _ _ (Some bus_def) _) =>
                let signal := truncate 127 signal in
                match List.find (fun d => node_is JZ_AST_BUS_DECL d && field_is signal (ast_name d)) (ast_children bus_def) with
                | None => Some (mkBusInfo node None signal 0 false false false None false false)
                | Some decl =>
                    let count := (w ← ast_width node; eval_width_expr w (ast_loc node)) in
                    let index := (i ← index_expr; if wildcard : bool then None else sem_eval_simple_index_literal i) in
                    let '(r, w) := sem_bus_signal_access_dirs (default ""%string (ast_block_kind decl)) role in
                    Some (mkBusInfo node (Some decl) signal (default 1 count) (bool_decide (is_Some count))
                            (bool_decide (is_Some index_expr) || wildcard) wildcard index r w)
                end
            | _ => Some unresolved
            end
        end
  end.

(** The name of the node, in a buffer of 256 characters. *)
Definition bus_signal_name (port : string) (index : option Z) (signal : string) : string :=
  truncate 255
    match index with
    | Some i => port +:+ "[" +:+ print_decimal i +:+ "]." +:+ signal
    | None => port +:+ "." +:+ signal
    end.

Definition bus_targets (lhs : JZASTNode) (is_sync is_nested : bool) : list JZAssignTargetEntry :=
  match sem_resolve_bus_access lhs with
  | Some info =>
      match signal_decl info, ast_name (port_decl info) with
      | Some _, Some port =>
          if is_sync then []
          else
            let entry index := mkEntry (BusSignalDecl (bus_signal_name port index (signal_name info))) false no_range is_nested false in
            if is_wildcard info && (0 <? bus_count info) then map (fun i => entry (Some (Z.of_nat i))) (seq 0 (Z.to_nat (bus_count info)))
            else
              match index_value info with
              | Some i => if has_index info then [entry (Some i)] else [entry None]
              | None => [entry None]
              end
      | _, _ => []
      end
  | None => []
  end.

Fixpoint sem_excl_collect_targets_from_lhs (is_sync is_nested : bool) (lhs : JZASTNode) : list JZAssignTargetEntry :=
  match lhs with
  | mkNode ty _ name _ _ _ cs =>
      match ty with
      | JZ_AST_EXPR_CONCAT => flat_map (sem_excl_collect_targets_from_lhs is_sync is_nested) cs
      | JZ_AST_EXPR_SLICE =>
          match cs with
          | mkNode JZ_AST_EXPR_IDENTIFIER _ (Some base) _ _ _ _ :: _ =>
              sem_excl_add_target_from_symbol (module_scope_lookup scope base) (slice_range cs) is_sync is_nested
          | _ => []
          end
      | JZ_AST_EXPR_IDENTIFIER =>
          match name with
          | Some name => sem_excl_add_target_from_symbol (module_scope_lookup scope name) no_range is_sync is_nested
          | None => []
          end
      | JZ_AST_EXPR_BUS_ACCESS | JZ_AST_EXPR_QUALIFIED_IDENTIFIER => bus_targets lhs is_sync is_nested
      | _ => []
      end
  end.

(** ** High impedance *)

(** A [z] after the base letter; a literal that ends at its tick has none. *)
Fixpoint sem_flow_expr_contains_z_literal (expr : JZASTNode) : bool :=
  match expr with
  | mkNode JZ_AST_EXPR_LITERAL _ _ _ (Some text) _ _ =>
      match split_at "'" text with
      | Some (_, String _ value) => negb (string_forall (fun c => negb (is_letter "z" c)) value)
      | _ => false
      end
  | mkNode _ _ _ _ _ _ cs => existsb sem_flow_expr_contains_z_literal cs
  end.

Fixpoint sem_flow_lhs_targets_decl (name : string) (lhs : JZASTNode) : bool :=
  match lhs with
  | mkNode JZ_AST_EXPR_IDENTIFIER _ n _ _ _ _ => field_is name n
  | mkNode JZ_AST_EXPR_SLICE _ _ _ _ _ (base :: _) => sem_flow_lhs_targets_decl name base
  | mkNode JZ_AST_EXPR_CONCAT _ _ _ _ _ cs => existsb (sem_flow_lhs_targets_decl name) cs
  | _ => false
  end.

Definition is_drive_op (op : option string) : bool := op_starts "DRIVE" op.

Fixpoint has_z_assignment (name : string) (node : JZASTNode) : bool :=
  match node with
  | mkNode ty _ _ op _ _ cs =>
      match ty, cs with
      | JZ_AST_STMT_ASSIGN, lhs :: rhs :: _ =>
          negb (is_alias_op op) && sem_flow_lhs_targets_decl name (if is_drive_op op then rhs else lhs) &&
          sem_flow_expr_contains_z_literal rhs
      | _, _ => false
      end || existsb (has_z_assignment name) cs
  end.

Definition sem_flow_node_has_z_assignment_to_decl (node : JZASTNode) (d : Decl) : bool :=
  match decl_name d with Some name => has_z_assignment name node | None => false end.

(** ** Records *)

Record JZAssignRecord := mkRecord { rec_entry : JZAssignTargetEntry; partial : bool }.

Record JZPathState := mkPath { assigns : list JZAssignRecord; branch_base : nat }.

Inductive FlowRule :=
  | SYNC_ROOT_AND_CONDITIONAL_ASSIGN | SYNC_MULTI_ASSIGN_SAME_REG_BITS | ASSIGN_SLICE_OVERLAP
  | ASSIGN_SHADOWING | ASSIGN_MULTIPLE_SAME_BITS | ASSIGN_INDEPENDENT_IF_SELECT
  | ASSIGN_MULTIPLE_SAME_BITS_FALLBACK | SEM_RECURSION_DEPTH_LIMIT_EXCEEDED
  | SEM_BRANCH_STATE_LIMIT_EXCEEDED | WARN_DEAD_CODE_UNREACHABLE | MEM_WARN_DEAD_CODE_ACCESS.

(** A rule broken at a place, or [ASYNC_UNDEFINED_PATH_NO_DRIVER] of a
    declaration. *)
Inductive FlowReport := Report (rule : FlowRule) (loc : JZLocation) | Undriven (d : Decl).

Definition ranges_overlap (r e : JZAssignRange) : bool :=
  negb (has_range r) || negb (has_range e) ||
  negb ((range_msb e <? range_lsb r) || (range_msb r <? range_lsb e)).

(** Whether the new entry [e] is reported because of [r]. *)
Definition clashes (is_sync : bool) (r e : JZAssignTargetEntry) : bool :=
  same_decl (entry_decl r) (entry_decl e) && Bool.eqb (entry_is_register r) (entry_is_register e) &&
  ranges_overlap (entry_range r) (entry_range e) &&
  negb (negb is_sync && (entry_can_drive_z r || entry_can_drive_z e)).

Fixpoint first_clash (is_sync : bool) (e : JZAssignTargetEntry) (ri : nat) (records : list JZAssignRecord) :
    option (nat * JZAssignTargetEntry) :=
  match records with
  | [] => None
  | r :: records =>
      if clashes is_sync (rec_entry r) e then Some (ri, rec_entry r) else first_clash is_sync e (S ri) records
  end.

Definition clash_rule (is_sync : bool) (path_base ri : nat) (r e : JZAssignTargetEntry) : FlowRule :=
  let root_and_conditional := xorb (entry_is_nested r) (entry_is_nested e) in
  if is_sync && entry_is_register e then
    if root_and_conditional then SYNC_ROOT_AND_CONDITIONAL_ASSIGN else SYNC_MULTI_ASSIGN_SAME_REG_BITS
  else if has_range (entry_range r) && has_range (entry_range e) then ASSIGN_SLICE_OVERLAP
  else if negb is_sync then
    if root_and_conditional then ASSIGN_SHADOWING
    else if negb (entry_is_nested r) && negb (entry_is_nested e) then ASSIGN_MULTIPLE_SAME_BITS
    else if (path_base <=? ri)%nat then ASSIGN_MULTIPLE_SAME_BITS
    else ASSIGN_INDEPENDENT_IF_SELECT
  else ASSIGN_MULTIPLE_SAME_BITS_FALLBACK.

Fixpoint sem_excl_record_assignment_in_path (is_sync : bool) (loc : JZLocation) (entries : list JZAssignTargetEntry)
    (path : JZPathState) : JZPathState * list FlowReport :=
  match entries with
  | [] => (path, [])
  | e :: entries =>
      let reports :=
        match first_clash is_sync e 0 (assigns path) with
        | Some (ri, r) => [Report (clash_rule is_sync (branch_base path) ri r e) loc]
        | None => []
        end in
      let '(path, rest) :=
        sem_excl_record_assignment_in_path is_sync loc entries
          (mkPath (assigns path ++ [mkRecord e false]) (branch_base path)) in
      (path, reports ++ rest)
  end.

Definition sem_excl_clone_path_state (src : JZPathState) : JZPathState :=
  mkPath (assigns src) (length (assigns src)).

(** ** Walks *)

Definition FlowWalk : Type := list JZPathState -> list JZPathState * list FlowReport.

Definition idle : FlowWalk := fun paths => (paths, []).

Definition refuse (rule : FlowRule) (loc : JZLocation) : FlowWalk := fun paths => (paths, [Report rule loc]).

Definition then_walk (f h : FlowWalk) : FlowWalk := fun paths =>
  let '(paths, r1) := f paths in
  let '(paths, r2) := h paths in
  (paths, r1 ++ r2).

Fixpoint each_path (f : JZPathState -> JZPathState * list FlowReport) (paths : list JZPathState) :
    list JZPathState * list FlowReport :=
  match paths with
  | [] => ([], [])
  | p :: paths =>
      let '(p, r) := f p in
      let '(paths, rs) := each_path f paths in
      (p :: paths, r ++ rs)
  end.

Definition decl_in_records (d : Decl) (recs : list JZAssignRecord) : bool :=
  existsb (fun r => same_decl (entry_decl (rec_entry r)) d) recs.

(** What a branch adds to a clone of [base]. *)
Definition branch_records (base : JZPathState) (branch : FlowWalk) : list JZAssignRecord * list FlowReport :=
  let '(results, reports) := branch [sem_excl_clone_path_state base] in
  (flat_map (fun br => drop (length (assigns base)) (assigns br)) results, reports).

(** The flag stays set, and is set where not every branch assigns the
    declaration; the branch of the record itself does. *)
Definition mark_partial (covered : bool) (branches : list (list JZAssignRecord)) (r : JZAssignRecord) : JZAssignRecord :=
  mkRecord (rec_entry r)
    (partial r || negb covered || negb (forallb (decl_in_records (entry_decl (rec_entry r))) branches)).

Definition split_path (covered : bool) (branches : list FlowWalk) (base : JZPathState) :
    JZPathState * list FlowReport :=
  let results := map (branch_records base) branches in
  let added := map fst results in
  (mkPath (assigns base ++ map (mark_partial covered added) (concat added)) (branch_base base),
   concat (map snd results)).

Definition split_walk (covered : bool) (branches : list FlowWalk) (loc : JZLocation) : FlowWalk := fun paths =>
  if jz_input_limit_value JZ_LIMIT_SEM_BRANCH_STATES <?
     Z.of_nat (length branches * (if (length paths =? 0)%nat then 1 else length paths))
  then refuse SEM_BRANCH_STATE_LIMIT_EXCEEDED loc paths
  else each_path (split_path covered branches) paths.

(** ** SELECT labels *)

Definition label_value (label : JZASTNode) : option Z :=
  match label with
  | mkNode JZ_AST_STMT_CASE _ _ _ _ _ (mkNode JZ_AST_EXPR_LITERAL _ _ _ (Some text) _ _ :: _) =>
      parse_literal_unsigned_value text
  | _ => None
  end.

Fixpoint cases_cover (total : Z) (seen : list bool) (covered : Z) (labels : list JZASTNode) : bool :=
  match labels with
  | [] => false
  | label :: labels =>
      match label_value label with
      | Some v =>
          if (total <=? v) || nth (Z.to_nat v) seen false then cases_cover total seen covered labels
          else if covered + 1 =? total then true
          else cases_cover total (<[Z.to_nat v := true]> seen) (covered + 1) labels
      | None => cases_cover total seen covered labels
      end
  end.

Definition sem_dead_select_cases_exhaustive (select_stmt : JZASTNode) : bool :=
  match select_stmt with
  | mkNode JZ_AST_STMT_SELECT _ _ _ _ _ (selector :: ((_ :: _) as labels)) =>
      let w := infer_width selector in
      if (w =? 0) || (20 <? w) then false
      else cases_cover (2 ^ w) (replicate (Z.to_nat (2 ^ w)) false) 0 labels
  | _ => false
  end.

(** The body of a label, without the value of a CASE. *)
Definition arm_body (label : JZASTNode) : list JZASTNode :=
  match label with
  | mkNode JZ_AST_STMT_CASE _ _ _ _ _ cs => tail cs
  | mkNode _ _ _ _ _ _ cs => cs
  end.

(** ** Statements *)

Section Kind.
Context (is_sync : bool).

Definition assign_entries (is_nested : bool) (op : option string) (cs : list JZASTNode) : list JZAssignTargetEntry :=
  match cs with
  | lhs :: rhs :: _ =>
      if is_alias_op op then []
      else
        let can_drive_z := sem_flow_expr_contains_z_literal rhs in
        map (fun e => mkEntry (entry_decl e) (entry_is_register e) (entry_range e) (entry_is_nested e)
                        (can_drive_z || sem_flow_node_has_z_assignment_to_decl (scope_node scope) (entry_decl e)))
          (sem_excl_collect_targets_from_lhs is_sync is_nested (if is_drive_op op then rhs else lhs))
  | _ => []
  end.

Definition no_loc : JZLocation := mkLoc 0 0.

(** A statement, with what is done for an IF chain and for a SELECT. *)
Fixpoint sem_excl_analyze_stmt (chain : list JZASTNode -> JZLocation -> nat -> FlowWalk)
    (select : JZASTNode -> nat -> FlowWalk) (nesting_depth : nat) (stmt : JZASTNode) : FlowWalk :=
  match stmt with
  | mkNode ty loc _ op _ _ cs =>
      match ty with
      | JZ_AST_STMT_ASSIGN =>
          each_path (sem_excl_record_assignment_in_path is_sync loc (assign_entries (0 <? nesting_depth)%nat op cs))
      | JZ_AST_STMT_IF => chain [stmt] no_loc nesting_depth
      | JZ_AST_STMT_SELECT => select stmt nesting_depth
      | JZ_AST_BLOCK =>
          fold_right then_walk idle (map (sem_excl_analyze_stmt chain select (S nesting_depth)) cs)
      | _ => idle
      end
  end.

(** The statements of a block; every round takes at least one. *)
Fixpoint block_statements (chain : list JZASTNode -> FlowWalk) (stmt : JZASTNode -> FlowWalk) (n : nat)
    (stmts : list JZASTNode) : FlowWalk :=
  match n, stmts with
  | S n', s :: rest =>
      if node_is JZ_AST_STMT_IF s then
        let '(more, rest) := chain_rest rest in
        then_walk (chain (s :: more)) (block_statements chain stmt n' rest)
      else then_walk (stmt s) (block_statements chain stmt n' rest)
  | _, _ => idle
  end.

(** The statements of a branch of an IF chain. *)
Definition if_body (stmt : JZASTNode) : list JZASTNode :=
  match stmt with
  | mkNode (JZ_AST_STMT_IF | JZ_AST_STMT_ELIF) _ _ _ _ _ cs => tail cs
  | mkNode JZ_AST_STMT_ELSE _ _ _ _ _ cs => cs
  | _ => []
  end.

(** The three functions that count their depth. *)
Record Walkers := mkWalkers {
  walk_block : JZLocation -> nat -> list JZASTNode -> FlowWalk;
  walk_chain : list JZASTNode -> JZLocation -> nat -> FlowWalk;
  walk_select : JZASTNode -> nat -> FlowWalk
}.

(** [below] has the functions one level deeper, unless the counter refuses. *)
Definition sem_excl_analyze_block (below : option Walkers) (loc : JZLocation) (nesting_depth : nat)
    (stmts : list JZASTNode) : FlowWalk :=
  match below with
  | None => refuse SEM_RECURSION_DEPTH_LIMIT_EXCEEDED loc
  | Some w =>
      block_statements (fun chain => walk_chain w chain loc nesting_depth)
        (sem_excl_analyze_stmt (walk_chain w) (walk_select w) nesting_depth) (length stmts) stmts
  end.

Definition sem_excl_analyze_if_chain (below : option Walkers) (chain : list JZASTNode) (loc : JZLocation)
    (nesting_depth : nat) : FlowWalk :=
  match below with
  | None => refuse SEM_RECURSION_DEPTH_LIMIT_EXCEEDED loc
  | Some w =>
      let has_else := match last chain with Some s => node_is JZ_AST_STMT_ELSE s | None => false end in
      split_walk has_else
        (map (fun stmt =>
          match if_body stmt with
          | [] => idle
          | body => walk_block w no_loc (S nesting_depth) body
          end) chain) loc
  end.

Definition sem_excl_analyze_select (below : option Walkers) (select_stmt : JZASTNode) (nesting_depth : nat) :
    FlowWalk :=
  match ast_children select_stmt with
  | _ :: ((_ :: _) as labels) =>
      match below with
      | None => refuse SEM_RECURSION_DEPTH_LIMIT_EXCEEDED (ast_loc select_stmt)
      | Some w =>
          split_walk (has_default labels || sem_dead_select_cases_exhaustive select_stmt)
            (map (fun label =>
              fold_right then_walk idle
                (map (sem_excl_analyze_stmt (walk_chain w) (walk_select w) (S nesting_depth)) (arm_body label)))
              (List.filter (fun label => (0 <? length (arm_body label))%nat) labels)) (ast_loc select_stmt)
      end
  | _ => idle
  end.

(** [levels] is what the depth counter still allows. *)
Fixpoint walkers (levels : nat) : Walkers :=
  let below := match levels with O => None | S levels => Some (walkers levels) end in
  mkWalkers (sem_excl_analyze_block below) (sem_excl_analyze_if_chain below) (sem_excl_analyze_select below).
End Kind.

(** ** Nets without a driver on some path *)

(** The declarations that are no registers, each once. *)
Definition assigned_decls (paths : list JZPathState) : list Decl :=
  fold_left (fun decls r =>
    let d := entry_decl (rec_entry r) in
    if entry_is_register (rec_entry r) || existsb (fun e => same_decl e d) decls then decls else decls ++ [d])
    (flat_map assigns paths) [].

Fixpoint sem_expr_contains_name (name : string) (expr : JZASTNode) : bool :=
  match expr with
  | mkNode ty _ n _ _ _ cs =>
      match ty with
      | JZ_AST_EXPR_IDENTIFIER => field_is name n
      | JZ_AST_EXPR_SLICE | JZ_AST_EXPR_CONCAT | JZ_AST_EXPR_UNARY | JZ_AST_EXPR_BINARY
      | JZ_AST_EXPR_TERNARY | JZ_AST_EXPR_BUILTIN_CALL => existsb (sem_expr_contains_name name) cs
      | _ => false
      end
  end.

Fixpoint sem_block_reads_name (name : string) (node : JZASTNode) : bool :=
  match node with
  | mkNode ty _ _ _ _ _ cs =>
      match ty, cs with
      | JZ_AST_STMT_ASSIGN, _ :: rhs :: _ => sem_expr_contains_name name rhs || existsb (sem_block_reads_name name) cs
      | (JZ_AST_STMT_IF | JZ_AST_STMT_ELIF | JZ_AST_STMT_SELECT), cond :: body =>
          sem_expr_contains_name name cond || existsb (sem_block_reads_name name) body
      | _, _ => existsb (sem_block_reads_name name) cs
      end
  end.

Definition driven_on_path (d : Decl) (path : JZPathState) : bool :=
  existsb (fun r => same_decl (entry_decl (rec_entry r)) d && negb (entry_is_register (rec_entry r)) && negb (partial r))
    (assigns path).

Definition sem_excl_check_async_undefined_paths (block : JZASTNode) (paths : list JZPathState) : list FlowReport :=
  flat_map (fun d =>
    match decl_name d with
    | None => []
    | Some name =>
        let is_out_or_inout_port := field_is "OUT" (decl_block_kind d) || field_is "INOUT" (decl_block_kind d) in
        if negb is_out_or_inout_port && negb (sem_block_reads_name name block) then []
        else if forallb (driven_on_path d) paths then [] else [Undriven d]
    end) (assigned_decls paths).

(** The depth counter is 0 between blocks. *)
Definition SEM_FLOW_LEVELS : nat := Z.to_nat (jz_input_limit_value JZ_LIMIT_SEM_RECURSION_DEPTH).

Definition check_code_block (is_sync : bool) (block : JZASTNode) : list FlowReport :=
  let '(paths, reports) :=
    walk_block (walkers is_sync SEM_FLOW_LEVELS) (ast_loc block) 0 (ast_children block) [mkPath [] 0] in
  reports ++ (if is_sync then [] else sem_excl_check_async_undefined_paths block paths).

Definition exclusive_check_module : list FlowReport :=
  flat_map (fun child => match code_block child with Some is_sync => check_code_block is_sync child | None => [] end)
    (ast_children (scope_node scope)).

End Analysis.

(** [sem_check_exclusive_assignments], for a PROJECT. *)
Definition sem_check_exclusive_assignments (eval_width_expr : JZModuleScope -> string -> JZLocation -> option Z)
    (infer_width : JZModuleScope -> JZASTNode -> Z) (module_scopes : list JZModuleScope)
    (project_symbols : list JZSymbol) : list FlowReport :=
  flat_map (fun scope => exclusive_check_module scope project_symbols (eval_width_expr scope) (infer_width scope))
    module_scopes.
