(* ===== verification/ExclWays.v ===== *)
(** * The analysis of exclusive assignments follows the ways through a block

    A way takes one branch of every IF chain and one label of every SELECT; it
    assigns the targets of the assignments on it, in order.  [exact] says of a
    walk that the records it adds are the targets of its ways, that it reports
    something exactly if two targets of a way clash, or one clashes with a
    record before, and that a declaration all ways assign has a record that is
    not partial; unless a limit is reported. *)

From stdpp Require Import sets.
From S2P Require Import Prelude CString Util Ast SymTab NetGraph Comb CombPaths Excl.

Local Open Scope nat_scope.

(** ** Targets *)

(** An entry, nested or not. *)
Definition forget (e : JZAssignTargetEntry) : JZAssignTargetEntry :=
  mkEntry (entry_decl e) (entry_is_register e) (entry_range e) false (entry_can_drive_z e).

Lemma clashes_forget sync r e : clashes sync (forget r) (forget e) = clashes sync r e.
Proof. done. Qed.

Lemma same_decl_refl d : same_decl d d = true.
Proof. destruct d; cbn; [by apply bool_decide_eq_true|apply String.eqb_refl]. Qed.

Lemma same_decl_sym d e : same_decl d e = true -> same_decl e d = true.
Proof.
  destruct d, e; cbn; try done; [intros H%bool_decide_eq_true; by apply bool_decide_eq_true|].
  intros ->%String.eqb_eq. apply String.eqb_refl.
Qed.

Lemma same_decl_trans d e f : same_decl d e = true -> same_decl e f = true -> same_decl d f = true.
Proof.
  destruct d, e, f; cbn; try done.
  - intros ->%bool_decide_eq_true. done.
  - intros ->%String.eqb_eq. done.
Qed.

(** Whether an entry assigns the net [d], and whether a record counts as
    driving it. *)
Definition writes (d : Decl) (e : JZAssignTargetEntry) : bool :=
  same_decl (entry_decl e) d && negb (entry_is_register e).

Definition drives (d : Decl) (r : JZAssignRecord) : bool := writes d (rec_entry r) && negb (partial r).

Section Ways.
Context (scope : JZModuleScope) (project_symbols : list JZSymbol).
Context (eval_width_expr : string -> JZLocation -> option Z) (infer_width : JZASTNode -> Z).
Context (is_sync : bool).

Notation entries := (assign_entries scope project_symbols eval_width_expr is_sync).
Notation exhaustive := (sem_dead_select_cases_exhaustive infer_width).

Lemma add_target_forget sym r n :
  map forget (sem_excl_add_target_from_symbol sym r is_sync n) = sem_excl_add_target_from_symbol sym r is_sync false.
Proof. destruct sym as [[? ? [?|] ?]|]; cbn; [|done..]. by destruct (if is_sync then _ else _). Qed.

Lemma bus_targets_forget lhs n :
  map forget (bus_targets scope project_symbols eval_width_expr lhs is_sync n) =
  bus_targets scope project_symbols eval_width_expr lhs is_sync false.
Proof.
  unfold bus_targets. destruct (sem_resolve_bus_access _ _ _ _) as [info|]; [|done].
  destruct (signal_decl info), (ast_name (port_decl info)); try done. destruct is_sync; [done|].
  destruct (_ && _); [by rewrite map_map|]. destruct (index_value info); [|done]. by destruct (has_index info).
Qed.

Lemma targets_forget lhs n :
  map forget (sem_excl_collect_targets_from_lhs scope project_symbols eval_width_expr is_sync n lhs) =
  sem_excl_collect_targets_from_lhs scope project_symbols eval_width_expr is_sync false lhs.
Proof.
  induction lhs as [ty loc name bk text width cs IH] using JZASTNode_ind'. cbn.
  destruct ty; try done; try apply bus_targets_forget.
  - destruct name; [apply add_target_forget|done].
  - induction IH as [|c cs Hc _ IH]; [done|]. cbn. by rewrite map_app, Hc, IH.
  - destruct cs as [|[ty ? [b|] ? ? ? ?] cs]; [done| |by destruct ty].
    destruct ty; try done. apply add_target_forget.
Qed.

Lemma entries_forget n op cs : map forget (entries n op cs) = entries false op cs.
Proof.
  destruct cs as [|lhs [|rhs cs]]; [done..|]. unfold assign_entries. destruct (is_alias_op op); [done|].
  rewrite <- (targets_forget _ n), !map_map. done.
Qed.

(** ** Ways *)

(** A SELECT may do nothing when its labels do not cover the selector, or a
    DEFAULT or the last label has no body; a CASE without a body shares that of
    the label after it. *)
Definition may_skip (s : JZASTNode) : bool :=
  (negb (has_default (labels s)) && negb (exhaustive s)) ||
  existsb (fun l => node_is JZ_AST_STMT_DEFAULT l && is_nil (arm_body l)) (labels s) ||
  match last (labels s) with Some l => is_nil (arm_body l) | None => false end.

Inductive way : list JZASTNode -> list JZAssignTargetEntry -> Prop :=
  | way_nil : way [] []
  | way_assign s rest es : ast_type s = JZ_AST_STMT_ASSIGN -> way rest es ->
      way (s :: rest) (entries false (ast_block_kind s) (ast_children s) ++ es)
  | way_branch s rest more rest' branch es1 es2 : ast_type s = JZ_AST_STMT_IF ->
      chain_rest rest = (more, rest') -> branch ∈ s :: more ->
      way (if_body branch) es1 -> way rest' es2 -> way (s :: rest) (es1 ++ es2)
  | way_no_branch s rest more rest' es : ast_type s = JZ_AST_STMT_IF ->
      chain_rest rest = (more, rest') -> ends_in_else (s :: more) = false ->
      way rest' es -> way (s :: rest) es
  | way_label s rest label es1 es2 : ast_type s = JZ_AST_STMT_SELECT -> label ∈ labels s -> arm_body label <> [] ->
      way (arm_body label) es1 -> way rest es2 -> way (s :: rest) (es1 ++ es2)
  | way_skip s rest es : ast_type s = JZ_AST_STMT_SELECT -> may_skip s = true ->
      way rest es -> way (s :: rest) es
  | way_block s rest es1 es2 : ast_type s = JZ_AST_BLOCK ->
      way (ast_children s) es1 -> way rest es2 -> way (s :: rest) (es1 ++ es2)
  | way_guarded s rest branch es1 es2 : ast_type s = JZ_AST_FEATURE_GUARD -> branch ∈ tail (ast_children s) ->
      way (ast_children branch) es1 -> way rest es2 -> way (s :: rest) (es1 ++ es2)
  | way_not_guarded s rest es : ast_type s = JZ_AST_FEATURE_GUARD -> way rest es -> way (s :: rest) es
  | way_other s rest es :
      ast_type s ∉ [JZ_AST_STMT_ASSIGN; JZ_AST_STMT_IF; JZ_AST_STMT_SELECT; JZ_AST_BLOCK; JZ_AST_FEATURE_GUARD] ->
      way rest es -> way (s :: rest) es.

(** What the analysis handles: no feature guards, and ELIF and ELSE only where
    it looks for them, which is not in the bodies of labels. *)
Fixpoint handled (alone : bool) (s : JZASTNode) : bool :=
  match s with
  | mkNode ty _ _ _ _ _ cs =>
      match ty with
      | JZ_AST_STMT_IF => match cs with [] => true | _ :: body => forallb (handled false) body end
      | JZ_AST_STMT_ELIF => negb alone && match cs with [] => true | _ :: body => forallb (handled false) body end
      | JZ_AST_STMT_ELSE => negb alone && forallb (handled false) cs
      | JZ_AST_STMT_SELECT =>
          match cs with
          | [] => true
          | _ :: labels =>
              forallb (fun l => match l with
                                | mkNode JZ_AST_STMT_CASE _ _ _ _ _ [] => true
                                | mkNode JZ_AST_STMT_CASE _ _ _ _ _ (_ :: body) => forallb (handled true) body
                                | mkNode _ _ _ _ _ _ body => forallb (handled true) body
                                end) labels
          end
      | JZ_AST_BLOCK => forallb (handled true) cs
      | JZ_AST_FEATURE_GUARD => false
      | _ => true
      end
  end.

Definition then_way (V W : list JZAssignTargetEntry -> Prop) (es : list JZAssignTargetEntry) : Prop :=
  exists e1 e2, V e1 /\ W e2 /\ es = e1 ++ e2.

Definition chain_way (chain : list JZASTNode) (es : list JZAssignTargetEntry) : Prop :=
  (exists b, b ∈ chain /\ way (if_body b) es) \/ (ends_in_else chain = false /\ es = []).

Definition select_way (s : JZASTNode) (es : list JZAssignTargetEntry) : Prop :=
  (exists l, l ∈ List.filter (fun l => 0 <? length (arm_body l)) (labels s) /\ way (arm_body l) es) \/
  (may_skip s = true /\ es = []).

Lemma excl_way_nil es : way [] es -> es = [].
Proof. by inversion 1. Qed.

Lemma way_if s rest es : ast_type s = JZ_AST_STMT_IF ->
  way (s :: rest) es <-> then_way (chain_way (s :: (chain_rest rest).1)) (way (chain_rest rest).2) es.
Proof.
  intros Hs. destruct (chain_rest rest) as [more rest'] eqn:Ec. cbn [fst snd]. split.
  - inversion 1; subst; try congruence.
    + match goal with H : chain_rest rest = _ |- _ => rewrite Ec in H; injection H as -> -> end.
      exists es1, es2. split_and!; [left; eauto|done|done].
    + match goal with H : chain_rest rest = _ |- _ => rewrite Ec in H; injection H as -> -> end.
      exists [], es. split_and!; [by right|done|done].
    + match goal with H : ast_type s ∉ _ |- _ => exfalso; apply H; rewrite Hs; set_solver end.
  - intros (e1 & e2 & [(b & Hb & H1)|[He ->]] & H2 & ->); [by eapply way_branch|by eapply way_no_branch].
Qed.

Lemma excl_way_cons s rest es : ast_type s <> JZ_AST_STMT_IF ->
  way (s :: rest) es <-> then_way (way [s]) (way rest) es.
Proof.
  intros Hs. split.
  - inversion 1; subst; try congruence.
    + exists (entries false (ast_block_kind s) (ast_children s) ++ []), es0. rewrite app_nil_r.
      split_and!; [rewrite <- (app_nil_r (entries _ _ _)); by apply way_assign; [|constructor]|done|done].
    + exists (es1 ++ []), es2. rewrite app_nil_r. split_and!; [|done|done].
      rewrite <- (app_nil_r es1). eapply way_label; [done..|constructor].
    + exists [], es. split_and!; [apply way_skip; [done..|constructor]|done|done].
    + exists (es1 ++ []), es2. rewrite app_nil_r. split_and!; [|done|done].
      rewrite <- (app_nil_r es1). eapply way_block; [done..|constructor].
    + exists (es1 ++ []), es2. rewrite app_nil_r. split_and!; [|done|done].
      rewrite <- (app_nil_r es1). eapply way_guarded; [done..|constructor].
    + exists [], es. split_and!; [apply way_not_guarded; [done|constructor]|done|done].
    + exists [], es. split_and!; [apply way_other; [done|constructor]|done|done].
  - intros (e1 & e2 & H1 & H2 & ->). inversion H1; subst; try congruence;
      match goal with H : way [] _ |- _ => apply excl_way_nil in H as -> end; rewrite ?app_nil_r.
    + by apply way_assign.
    + by eapply way_label.
    + by apply way_skip.
    + by apply way_block.
    + by eapply way_guarded.
    + by apply way_not_guarded.
    + by apply way_other.
Qed.

Lemma way_select s es : ast_type s = JZ_AST_STMT_SELECT -> way [s] es <-> select_way s es.
Proof.
  intros Hs. split.
  - inversion 1; subst; try congruence;
      match goal with H : way [] _ |- _ => apply excl_way_nil in H as -> end.
    + left. exists label. rewrite app_nil_r. split; [|done].
      apply list_elem_of_In, filter_In. split; [by apply list_elem_of_In|].
      apply Nat.ltb_lt. destruct (arm_body label); [done|cbn; lia].
    + by right.
    + match goal with H : ast_type s ∉ _ |- _ => exfalso; apply H; rewrite Hs; set_solver end.
  - intros [(l & [Hl Hb]%list_elem_of_In%filter_In & Hw)|[Hm ->]].
    + rewrite <- (app_nil_r es). eapply way_label; [done|by apply list_elem_of_In| |done|constructor].
      intros E. by rewrite E in Hb.
    + apply way_skip; [done|done|constructor].
Qed.

(** ** Exclusive ways *)

Fixpoint exclusive (es : list JZAssignTargetEntry) : Prop :=
  match es with
  | [] => True
  | e :: es => (forall x, x ∈ es -> clashes is_sync e x = false) /\ exclusive es
  end.

(** No record clashes with an entry. *)
Definition apart (rs : list JZAssignRecord) (es : list JZAssignTargetEntry) : Prop :=
  forall r e, r ∈ rs -> e ∈ es -> clashes is_sync (rec_entry r) e = false.

Lemma exclusive_app a b :
  exclusive (a ++ b) <-> exclusive a /\ exclusive b /\ forall x y, x ∈ a -> y ∈ b -> clashes is_sync x y = false.
Proof. induction a as [|e a IH]; cbn; [set_solver|]. rewrite IH. set_solver. Qed.

Lemma apart_app rs es1 es2 : apart rs (es1 ++ es2) <-> apart rs es1 /\ apart rs es2.
Proof. unfold apart. set_solver. Qed.

Lemma apart_app_l rs1 rs2 es : apart (rs1 ++ rs2) es <-> apart rs1 es /\ apart rs2 es.
Proof. unfold apart. set_solver. Qed.

Lemma first_clash_none e rs : forall i, first_clash is_sync e i rs = None <-> forall r, r ∈ rs -> clashes is_sync (rec_entry r) e = false.
Proof.
  induction rs as [|r rs IH]; intros i; cbn [first_clash]; [set_solver|].
  destruct (clashes is_sync (rec_entry r) e) eqn:E; [|rewrite IH; set_solver].
  split; [done|]. intros H. by rewrite H in E by left.
Qed.

(** ** What a walk does *)

Definition is_limit (r : FlowReport) : Prop :=
  match r with
  | Report (SEM_RECURSION_DEPTH_LIMIT_EXCEEDED | SEM_BRANCH_STATE_LIMIT_EXCEEDED) _ => True
  | _ => False
  end.

Definition limited (rs : list FlowReport) : Prop := exists r, r ∈ rs /\ is_limit r.

Lemma limited_app r1 r2 : limited (r1 ++ r2) <-> limited r1 \/ limited r2.
Proof. unfold limited. set_solver. Qed.

Record outcome (W : list JZAssignTargetEntry -> Prop) (before added : list JZAssignRecord) (rs : list FlowReport) : Prop := {
  oc_added e : (exists r, r ∈ added /\ forget (rec_entry r) = e) <-> (exists es, W es /\ e ∈ es);
  oc_reports : rs = [] <-> forall es, W es -> exclusive es /\ apart before es;
  oc_driven d : existsb (drives d) added = false -> exists es, W es /\ forall e, e ∈ es -> writes d e = false
}.

Record exact (w : FlowWalk) (W : list JZAssignTargetEntry -> Prop) : Prop := {
  ex_way : exists es, W es;
  ex_run p : exists added rs, w [p] = ([mkPath (assigns p ++ added) (branch_base p)], rs) /\
    (limited rs \/ outcome W (assigns p) added rs)
}.

Lemma exact_iff w V W : (forall es, V es <-> W es) -> exact w V -> exact w W.
Proof.
  intros H [[es Hes] Hrun]. split; [exists es; by apply H|]. intros p.
  destruct (Hrun p) as (added & rs & E & Ho). exists added, rs. split; [done|].
  destruct Ho as [Hl|[Ha Hr Hd]]; [by left|right]. split.
  - intros e. rewrite Ha. by setoid_rewrite H.
  - rewrite Hr. by setoid_rewrite H.
  - intros d Hn. destruct (Hd d Hn) as (es' & ? & ?). exists es'. by rewrite <- H.
Qed.

Lemma exact_ext w v W : (forall ps, w ps = v ps) -> exact w W -> exact v W.
Proof. intros H [Hw Hr]. split; [done|]. intros p. rewrite <- H. apply Hr. Qed.

Lemma exact_idle : exact idle (fun es => es = []).
Proof.
  split; [by eexists|]. intros [a b]. exists [], []. cbn. rewrite app_nil_r. split; [done|right]. split.
  - intros e. split; [by intros (r & Hr%elem_of_nil & _)|by intros (es & -> & He%elem_of_nil)].
  - split; [|done]. intros _ es ->. split; [done|]. by intros r e _ He%elem_of_nil.
  - intros d _. exists []. split; [done|]. by intros e He%elem_of_nil.
Qed.

Lemma existsb_false {A} (f : A -> bool) l : existsb f l = false <-> forall x, x ∈ l -> f x = false.
Proof.
  induction l as [|x l IH]; cbn; [set_solver|]. rewrite orb_false_iff, IH. set_solver.
Qed.

Lemma exact_then w1 w2 W1 W2 : exact w1 W1 -> exact w2 W2 -> exact (then_walk w1 w2) (then_way W1 W2).
Proof.
  intros [[es1 H1] Hr1] [[es2 H2] Hr2]. split; [exists (es1 ++ es2), es1, es2; done|]. intros p.
  destruct (Hr1 p) as (a1 & r1 & E1 & O1). unfold then_walk. rewrite E1.
  destruct (Hr2 (mkPath (assigns p ++ a1) (branch_base p))) as (a2 & r2 & E2 & O2). cbn [assigns branch_base] in E2, O2.
  rewrite E2. exists (a1 ++ a2), (r1 ++ r2). rewrite <- app_assoc. split; [done|]. rewrite limited_app.
  destruct O1 as [|[A1 R1 D1]]; [by left; left|]. destruct O2 as [|[A2 R2 D2]]; [by left; right|]. right. split.
  - intros e. setoid_rewrite elem_of_app. split.
    + intros (r & [Hr|Hr] & <-).
      * destruct (proj1 (A1 _) (ex_intro _ r (conj Hr eq_refl))) as (e1 & ? & ?).
        exists (e1 ++ es2). split; [by exists e1, es2|set_solver].
      * destruct (proj1 (A2 _) (ex_intro _ r (conj Hr eq_refl))) as (e2 & ? & ?).
        exists (es1 ++ e2). split; [by exists es1, e2|set_solver].
    + intros (? & (e1 & e2 & Hw1 & Hw2 & ->) & [He|He]%elem_of_app).
      * destruct (proj2 (A1 e) (ex_intro _ e1 (conj Hw1 He))) as (r & ? & ?). eauto.
      * destruct (proj2 (A2 e) (ex_intro _ e2 (conj Hw2 He))) as (r & ? & ?). eauto.
  - assert (forall e2, (forall e1, W1 e1 -> forall x y, x ∈ e1 -> y ∈ e2 -> clashes is_sync x y = false) <-> apart a1 e2) as Ha.
    { intros e2. split.
      - intros H r y Hr Hy. destruct (proj1 (A1 _) (ex_intro _ r (conj Hr eq_refl))) as (e1 & Hw & Hx).
        rewrite <- (clashes_forget _ (rec_entry r)). rewrite clashes_forget. rewrite <- (H e1 Hw _ y Hx Hy). done.
      - intros H e1 Hw x y Hx Hy. destruct (proj2 (A1 x) (ex_intro _ e1 (conj Hw Hx))) as (r & Hr & <-).
        rewrite <- (H r y Hr Hy). done. }
    split.
    + intros [-> ->]%app_eq_nil es (e1 & e2 & Hw1 & Hw2 & ->).
      destruct (proj1 R1 eq_refl e1 Hw1) as [X1 P1]. destruct (proj1 R2 eq_refl e2 Hw2) as [X2 [P2 P3]%apart_app_l].
      rewrite exclusive_app, apart_app. split_and!; try done. by apply Ha.
    + intros H.
      assert (r1 = []) as ->.
      { apply R1. intros e1 Hw1. destruct (H (e1 ++ es2)) as [(? & _)%exclusive_app [? _]%apart_app]; [by exists e1, es2|done]. }
      apply R2. intros e2 Hw2. rewrite apart_app_l, <- Ha.
      destruct (H (es1 ++ e2)) as [(_ & ? & _)%exclusive_app [_ ?]%apart_app]; [by exists es1, e2|].
      split_and!; try done. intros e1 Hw1. destruct (H (e1 ++ e2)) as [(_ & _ & ?)%exclusive_app _]; [by exists e1, e2|done].
  - intros d. rewrite existsb_app. intros [Hn1 Hn2]%orb_false_iff.
    destruct (D1 d Hn1) as (e1 & Hw1 & Hd1). destruct (D2 d Hn2) as (e2 & Hw2 & Hd2).
    exists (e1 ++ e2). split; [by exists e1, e2|set_solver].
Qed.

(** ** Assignments *)

Lemma record_run loc es : forall p, exists rs,
  sem_excl_record_assignment_in_path is_sync loc es p =
    (mkPath (assigns p ++ map (fun e => mkRecord e false) es) (branch_base p), rs) /\
  ~ limited rs /\ (rs = [] <-> exclusive (map forget es) /\ apart (assigns p) es).
Proof.
  induction es as [|e es IH]; intros p; cbn [sem_excl_record_assignment_in_path].
  { exists []. destruct p. cbn. rewrite app_nil_r. split_and!; [done|unfold limited; set_solver|].
    split; [|done]. intros _. split; [done|]. intros r x _ Hx. set_solver. }
  destruct (IH (mkPath (assigns p ++ [mkRecord e false]) (branch_base p))) as (rs & -> & Hl & Hrs).
  cbn [assigns branch_base] in *. eexists. split; [by rewrite <- app_assoc|].
  assert (apart [mkRecord e false] es <-> forall x, x ∈ map forget es -> clashes is_sync (forget e) x = false) as Hone.
  { unfold apart. split.
    - intros H x (y & -> & Hy)%list_elem_of_fmap. rewrite clashes_forget. exact (H (mkRecord e false) y ltac:(by left) Hy).
    - intros H r y ->%list_elem_of_singleton Hy. rewrite <- clashes_forget. apply H. by apply (list_elem_of_fmap_2 forget). }
  split.
  - rewrite limited_app. intros [H|H]; [|done].
    destruct (first_clash _ _ _ _) as [[ri r]|]; destruct H as (x & Hx & Hlim); [|set_solver].
    apply list_elem_of_singleton in Hx as ->. unfold clash_rule in Hlim. cbn in Hlim. by repeat case_match.
  - assert (apart (assigns p) (e :: es) <-> (forall r, r ∈ assigns p -> clashes is_sync (rec_entry r) e = false) /\ apart (assigns p) es)
      as Hsplit by (unfold apart; set_solver).
    rewrite Hsplit, <- (first_clash_none e (assigns p) 0). cbn [map exclusive]. rewrite <- Hone.
    rewrite apart_app_l in Hrs. destruct (first_clash is_sync e 0 (assigns p)) as [[ri r]|]; cbn [app]; [|tauto].
    split; [done|]. by intros [_ [? _]].
Qed.

Lemma exact_assign loc n op cs :
  exact (each_path (sem_excl_record_assignment_in_path is_sync loc (entries n op cs))) (fun es => es = entries false op cs).
Proof.
  split; [by eexists|]. intros p. cbn [each_path].
  destruct (record_run loc (entries n op cs) p) as (rs & -> & Hl & Hrs). eexists _, rs.
  split; [by rewrite app_nil_r|]. right. rewrite <- (entries_forget n). split.
  - intros e. split.
    + intros (r & (x & -> & Hx)%list_elem_of_fmap & <-). eexists. split; [done|]. by apply (list_elem_of_fmap_2 forget).
    + intros (es & -> & (x & -> & Hx)%list_elem_of_fmap). exists (mkRecord x false). split; [|done].
      by apply (list_elem_of_fmap_2 (fun e => mkRecord e false)).
  - rewrite Hrs. assert (apart (assigns p) (entries n op cs) <-> apart (assigns p) (map forget (entries n op cs))) as Ha.
    { unfold apart. split; intros H r e Hr.
      - intros (x & -> & Hx)%list_elem_of_fmap. exact (H r x Hr Hx).
      - intros He. exact (H r (forget e) Hr ltac:(by apply (list_elem_of_fmap_2 forget))). }
    rewrite Ha. split; [by intros H es ->|]. intros H. by apply H.
  - intros d Hd. eexists. split; [done|]. rewrite existsb_false in Hd. intros e (x & -> & Hx)%list_elem_of_fmap.
    specialize (Hd (mkRecord x false) ltac:(by apply (list_elem_of_fmap_2 (fun e => mkRecord e false)))).
    unfold drives in Hd. cbn in Hd. by rewrite andb_true_r in Hd.
Qed.

(** ** Branches *)

Lemma exists_or_all {A} (P Q : A -> Prop) (xs : list A) :
  (forall x, x ∈ xs -> P x \/ Q x) -> (exists x, x ∈ xs /\ P x) \/ (forall x, x ∈ xs -> Q x).
Proof.
  induction xs as [|x xs IH]; intros H; [right; set_solver|].
  destruct (H x ltac:(by left)) as [Hx|Hx]; [left; set_solver|].
  destruct IH as [(y & ? & ?)|Hy]; [set_solver|left; exists y; set_solver|right; set_solver].
Qed.

Lemma elem_of_concat_map {A B} (f : A -> list B) (xs : list A) y : y ∈ concat (map f xs) <-> exists x, x ∈ xs /\ y ∈ f x.
Proof. induction xs as [|x xs IH]; cbn; [set_solver|]. rewrite elem_of_app, IH. set_solver. Qed.

Lemma concat_map_nil {A B} (f : A -> list B) (xs : list A) : concat (map f xs) = [] <-> forall x, x ∈ xs -> f x = [].
Proof.
  induction xs as [|x xs IH]; cbn; [set_solver|]. split.
  - intros [? ?]%app_eq_nil. set_solver.
  - intros H. rewrite H by left. apply IH. set_solver.
Qed.

Lemma branch_records_run w W p : exact w W -> exists added rs, branch_records p w = (added, rs) /\
  (limited rs \/ outcome W (assigns p) added rs).
Proof.
  intros [_ Hr]. destruct (Hr (sem_excl_clone_path_state p)) as (added & rs & E & Ho). exists added, rs.
  unfold branch_records. rewrite E. cbn. rewrite app_nil_r, drop_app_length. done.
Qed.

(** A path from which one of the branches [xs] is taken, or none. *)
Lemma exact_split {A} (f : A -> FlowWalk) (W : A -> list JZAssignTargetEntry -> Prop) (skip covered : bool) loc xs :
  (forall x, x ∈ xs -> exact (f x) (W x)) -> (covered = false \/ xs = [] -> skip = true) ->
  exact (split_walk covered (map f xs) loc) (fun es => (exists x, x ∈ xs /\ W x es) \/ (skip = true /\ es = [])).
Proof.
  intros Hx Hskip. split.
  { destruct xs as [|x xs]; [exists []; right; auto|]. destruct (ex_way _ _ (Hx x ltac:(by left))) as [es Hes].
    exists es. left. exists x. split; [by left|done]. }
  intros p. unfold split_walk. case_match.
  { exists [], [Report SEM_BRANCH_STATE_LIMIT_EXCEEDED loc]. destruct p. cbn. rewrite app_nil_r. split; [done|left].
    eexists. split; [by left|done]. }
  cbn [each_path split_path]. unfold split_path. rewrite !map_map.
  set (add := fun x => fst (branch_records p (f x))). set (rep := fun x => snd (branch_records p (f x))).
  eexists _, (concat (map rep xs)). split; [by rewrite app_nil_r|].
  destruct (exists_or_all (fun x => limited (rep x)) (fun x => outcome (W x) (assigns p) (add x) (rep x)) xs) as [(x & Hin & r & Hr & Hl)|Ho].
  { intros x Hin. destruct (branch_records_run (f x) (W x) p (Hx x Hin)) as (a & rs & E & Ho).
    unfold add, rep. by rewrite E. }
  { left. exists r. split; [|done]. apply elem_of_concat_map. by exists x. }
  right. split.
  - intros e. split.
    + intros (r & (q & -> & (x & Hin & Hq)%elem_of_concat_map)%list_elem_of_fmap & <-).
      destruct (proj1 (oc_added _ _ _ _ (Ho x Hin) _) (ex_intro _ q (conj Hq eq_refl))) as (es & ? & ?).
      exists es. split; [left; by exists x|done].
    + intros (es & [(x & Hin & Hw)|[_ ->]] & He); [|by apply elem_of_nil in He].
      destruct (proj2 (oc_added _ _ _ _ (Ho x Hin) e) (ex_intro _ es (conj Hw He))) as (q & Hq & <-).
      eexists. split; [apply list_elem_of_fmap_2, elem_of_concat_map; by exists x|done].
  - rewrite concat_map_nil. split.
    + intros Hz es [(x & Hin & Hw)|[_ ->]]; [by apply (oc_reports _ _ _ _ (Ho x Hin)); [apply Hz|]|].
      split; [done|]. by intros r e _ He%elem_of_nil.
    + intros Hz x Hin. apply (oc_reports _ _ _ _ (Ho x Hin)). intros es Hw. apply Hz. left. by exists x.
  - intros d Hd.
    destruct (exists_or_all (fun x => existsb (drives d) (add x) = false) (fun x => existsb (drives d) (add x) = true) xs)
      as [(x & Hin & Hn)|Hall]; [intros x _; destruct (existsb (drives d) (add x)); auto| |].
    + destruct (oc_driven _ _ _ _ (Ho x Hin) d Hn) as (es & ? & ?). exists es. split; [left; by exists x|done].
    + exists []. split; [right|by intros e He%elem_of_nil]. split; [|done]. apply Hskip.
      destruct xs as [|x xs]; [by right|left]. destruct covered; [exfalso|done].
      pose proof (Hall x ltac:(by left)) as Hdx. apply existsb_exists in Hdx as (r & Hr%list_elem_of_In & Hdr).
      rewrite existsb_false in Hd. specialize (Hd (mark_partial true (map add (x :: xs)) r)).
      unfold drives in Hd, Hdr. apply andb_true_iff in Hdr as [Hw Hp]. cbn [mark_partial rec_entry partial] in Hd.
      rewrite Hw in Hd. apply negb_true_iff in Hp. rewrite Hp in Hd. cbn [orb negb andb] in Hd.
      assert (forallb (decl_in_records (entry_decl (rec_entry r))) (map add (x :: xs)) = true) as Hin.
      { apply forallb_forall. intros l (y & <- & Hy)%in_map_iff. apply list_elem_of_In in Hy.
        specialize (Hall y Hy). apply existsb_exists in Hall as (q & Hq & Hdq). apply existsb_exists. exists q. split; [done|].
        unfold drives, writes in Hdq, Hw. apply andb_true_iff in Hdq as [[Hdq _]%andb_true_iff _].
        apply andb_true_iff in Hw as [Hw _]. eapply same_decl_trans; [exact Hdq|by apply same_decl_sym]. }
      rewrite Hin in Hd. discriminate Hd. apply list_elem_of_fmap_2. apply elem_of_concat_map. exists x. split; [by left|done].
Qed.

(** ** Statements *)

Notation analyze_stmt := (sem_excl_analyze_stmt scope project_symbols eval_width_expr is_sync).
Notation level n := (walkers scope project_symbols eval_width_expr infer_width is_sync n).


Lemma chain_rest_alone rest : forallb (handled true) rest = true -> chain_rest rest = ([], rest).
Proof.
  destruct rest as [|s rest]; [done|]. cbn. intros [Hs _]%andb_true_iff. unfold node_is.
  destruct s as [ty ? ? ? ? ? cs]. cbn in *. by destruct ty.
Qed.

Lemma excl_way_alone s rest es : forallb (handled true) rest = true ->
  way (s :: rest) es <-> then_way (way [s]) (way rest) es.
Proof.
  intros Hr. destruct (decide (ast_type s = JZ_AST_STMT_IF)) as [Hs|Hs]; [|by apply excl_way_cons].
  rewrite (way_if s rest) by done. rewrite (chain_rest_alone rest Hr). cbn [fst snd].
  unfold then_way. setoid_rewrite (way_if s []); [|done]. cbn [chain_rest fst snd]. split.
  - intros (e1 & e2 & H1 & H2 & ->). exists e1, e2. split_and!; [|done..].
    exists e1, []. rewrite app_nil_r. split_and!; [done|constructor|done].
  - intros (? & e2 & (e1 & e3 & H1 & ->%excl_way_nil & ->) & H2 & ->). exists e1, e2. by rewrite app_nil_r.
Qed.

Lemma handled_weaken s : handled true s = true -> handled false s = true.
Proof. destruct s as [ty ? ? ? ? ? cs]. by destruct ty. Qed.

(** The statements of the body of a label or of a nested block, one by one. *)
Lemma exact_all (f : JZASTNode -> FlowWalk) stmts : (forall s, s ∈ stmts -> exact (f s) (way [s])) ->
  forallb (handled true) stmts = true -> exact (fold_right then_walk idle (map f stmts)) (way stmts).
Proof.
  induction stmts as [|s stmts IH]; intros Hf Hh; cbn [map fold_right].
  { eapply exact_iff; [|apply exact_idle]. intros es. split; [intros ->; constructor|apply excl_way_nil]. }
  cbn in Hh. apply andb_true_iff in Hh as [_ Hh]. eapply exact_iff; [intros es; symmetry; by apply excl_way_alone|].
  apply exact_then; [apply Hf; by left|]. apply IH; [|done]. intros x Hx. apply Hf. by right.
Qed.

Definition chain_exact (chain : list JZASTNode -> JZLocation -> nat -> FlowWalk) : Prop :=
  forall c loc n, c <> [] -> forallb (fun s => forallb (handled false) (if_body s)) c = true -> exact (chain c loc n) (chain_way c).

Definition select_exact (select : JZASTNode -> nat -> FlowWalk) : Prop :=
  forall s n, ast_type s = JZ_AST_STMT_SELECT -> handled false s = true -> exact (select s n) (way [s]).

Lemma if_body_handled s : handled false s = true -> forallb (handled false) (if_body s) = true.
Proof. destruct s as [ty ? ? ? ? ? cs]. cbn. destruct ty; try done; destruct cs; done. Qed.

Lemma stmt_exact chain select s : chain_exact chain -> select_exact select ->
  forall n, handled true s = true \/ (ast_type s <> JZ_AST_STMT_IF /\ handled false s = true) ->
  exact (analyze_stmt chain select n s) (way [s]).
Proof.
  intros Hc Hsel. induction s as [ty loc name bk text width cs IH] using JZASTNode_ind'. intros n Hh.
  assert (handled false (mkNode ty loc name bk text width cs) = true) as Hf
    by (destruct Hh as [?%handled_weaken|[_ ?]]; done).
  set (s := mkNode ty loc name bk text width cs) in *.
  assert (ast_type s ∉ [JZ_AST_STMT_ASSIGN; JZ_AST_STMT_IF; JZ_AST_STMT_SELECT; JZ_AST_BLOCK; JZ_AST_FEATURE_GUARD] ->
    analyze_stmt chain select n s = idle -> exact (analyze_stmt chain select n s) (way [s])) as Hother.
  { intros Ht ->. eapply exact_iff; [|apply exact_idle]. intros es. split.
    - intros ->. apply way_other; [done|constructor].
    - inversion 1; subst; try (exfalso; apply Ht; match goal with H : ast_type s = _ |- _ => rewrite H end; set_solver).
      by apply excl_way_nil. }
  destruct (decide (ty = JZ_AST_STMT_ASSIGN)) as [->|Na].
  { eapply exact_iff; [|apply exact_assign]. intros es. split.
    - intros ->. rewrite <- (app_nil_r (entries _ _ _)). by apply (way_assign s); [|constructor].
    - inversion 1; subst; try discriminate.
      + match goal with H : way [] _ |- _ => apply excl_way_nil in H as -> end. by rewrite app_nil_r.
      + match goal with H : ast_type s ∉ _ |- _ => exfalso; apply H; cbn; set_solver end. }
  destruct (decide (ty = JZ_AST_STMT_IF)) as [->|Ni].
  { eapply exact_iff; [|apply (Hc [s] no_loc n); [done|cbn; rewrite andb_true_r; by apply (if_body_handled s)]].
    intros es. rewrite (way_if s []) by done. cbn [chain_rest fst snd]. split.
    - intros H. exists es, []. rewrite app_nil_r. split_and!; [done|constructor|done].
    - intros (e1 & e2 & H & ->%excl_way_nil & ->). by rewrite app_nil_r. }
  destruct (decide (ty = JZ_AST_STMT_SELECT)) as [->|Ns]; [by apply Hsel|].
  destruct (decide (ty = JZ_AST_BLOCK)) as [->|Nb].
  { eapply exact_iff; [|apply (exact_all _ cs)].
    - intros es. split.
      + intros H. rewrite <- (app_nil_r es). by apply (way_block s); [|exact H|constructor].
      + inversion 1; subst; try discriminate.
        * match goal with H : way [] _ |- _ => apply excl_way_nil in H as -> end. by rewrite app_nil_r.
        * match goal with H : ast_type s ∉ _ |- _ => exfalso; apply H; cbn; set_solver end.
    - intros x Hx. rewrite Forall_forall in IH. apply (IH x Hx). left. cbn in Hf. rewrite forallb_forall in Hf.
      apply Hf. by apply list_elem_of_In.
    - exact Hf. }
  destruct (decide (ty = JZ_AST_FEATURE_GUARD)) as [->|Ng]; [discriminate Hf|].
  apply Hother; [cbn; set_solver|]. cbn. by destruct ty.
Qed.

Lemma select_labels_handled s l : ast_type s = JZ_AST_STMT_SELECT -> handled false s = true -> l ∈ labels s ->
  forallb (handled true) (arm_body l) = true.
Proof.
  destruct s as [ty ? ? ? ? ? cs]. cbn. intros ->. destruct cs as [|c ls]; [set_solver|]. intros Hh Hl%list_elem_of_In.
  cbn in Hl. rewrite forallb_forall in Hh. specialize (Hh l Hl). destruct l as [ty ? ? ? ? ? body]. cbn.
  destruct ty; try done. by destruct body.
Qed.

Lemma block_exact chain stmt n : forall stmts, length stmts <= n ->
  (forall c, c <> [] -> forallb (fun s => forallb (handled false) (if_body s)) c = true -> exact (chain c) (chain_way c)) ->
  (forall s, ast_type s <> JZ_AST_STMT_IF -> handled false s = true -> exact (stmt s) (way [s])) ->
  forallb (handled false) stmts = true -> exact (block_statements chain stmt n stmts) (way stmts).
Proof.
  induction n as [|n IH]; intros [|s rest] Hn Hc Hs Hh; cbn [length] in Hn; [|lia| |];
    try (eapply exact_iff; [|apply exact_idle]; intros es; split; [intros ->; constructor|apply excl_way_nil]).
  cbn [block_statements]. unfold node_is. case_bool_decide as Ht.
  - pose proof (chain_rest_parts rest) as Ep. pose proof (way_if s rest) as Hw.
    destruct (chain_rest rest) as [more rest']. cbn [fst snd] in *. subst rest.
    change (s :: more ++ rest') with ((s :: more) ++ rest') in Hh. rewrite forallb_app in Hh.
    apply andb_true_iff in Hh as [Hm Hr]. rewrite length_app in Hn.
    eapply exact_iff; [intros es; symmetry; by apply Hw|]. apply exact_then; [|apply IH; [lia|done..]].
    apply Hc; [done|]. rewrite forallb_forall in Hm |- *. intros x Hx. by apply if_body_handled, Hm.
  - cbn [forallb] in Hh. apply andb_true_iff in Hh as [Hh Hr].
    eapply exact_iff; [intros es; symmetry; by apply excl_way_cons|]. apply exact_then; [by apply Hs|apply IH; [lia|done..]].
Qed.

(** ** There is a way *)

Lemma way_exists_list n : forall stmts, length stmts <= n ->
  Forall (fun s => (exists es, way [s] es) /\ exists es, way (if_body s) es) stmts -> exists es, way stmts es.
Proof.
  induction n as [|n IH]; intros [|s rest] Hn Hf; cbn [length] in Hn; [|lia| |]; try (exists []; exact way_nil).
  apply Forall_cons in Hf as [[[e1 H1] [e2 H2]] Hf]. destruct (decide (ast_type s = JZ_AST_STMT_IF)) as [Hs|Hs].
  - pose proof (chain_rest_parts rest) as Ep. destruct (chain_rest rest) as [more rest'] eqn:Ec. cbn [fst snd] in Ep.
    rewrite Ep in Hf. apply Forall_app in Hf as [_ Hf]. rewrite Ep, length_app in Hn.
    destruct (IH rest' ltac:(lia) Hf) as [e3 H3]. exists (e2 ++ e3).
    exact (way_branch s rest more rest' s e2 e3 Hs Ec ltac:(by left) H2 H3).
  - destruct (IH rest ltac:(lia) Hf) as [e3 H3]. exists (e1 ++ e3). apply excl_way_cons; [done|]. by exists e1, e3.
Qed.

Lemma select_has_way s : ast_type s = JZ_AST_STMT_SELECT ->
  (forall l, l ∈ labels s -> exists es, way (arm_body l) es) -> exists es, way [s] es.
Proof.
  intros Hs Hl. destruct (may_skip s) eqn:Em; [exists []; apply way_skip; [done|done|constructor]|].
  unfold may_skip in Em. apply orb_false_iff in Em as [Em Elast]. apply orb_false_iff in Em as [Em _].
  destruct (last (labels s)) as [l|] eqn:El.
  - apply last_Some_elem_of in El. destruct (Hl l El) as [es Hes]. exists (es ++ []).
    eapply way_label; [done|exact El|by intros E; rewrite E in Elast|done|constructor].
  - apply last_None in El. rewrite El in Em. destruct s as [ty ? ? ? ? ? cs]. cbn in Hs, El. subst ty.
    destruct cs as [|c [|c' cs]]; done.
Qed.

Lemma way_exists s : (exists es, way [s] es) /\ (exists es, way (if_body s) es) /\ exists es, way (arm_body s) es.
Proof.
  induction s as [ty loc name bk text width cs IH] using JZASTNode_ind'.
  assert (Forall (fun s => (exists es, way [s] es) /\ exists es, way (if_body s) es) cs) as Hcs
    by (eapply Forall_impl; [exact IH|]; by intros x (? & ? & _)).
  assert (Forall (fun s => (exists es, way [s] es) /\ exists es, way (if_body s) es) (tail cs)) as Htl
    by (destruct Hcs; [constructor|done]).
  pose proof (way_exists_list _ cs (le_n _) Hcs) as Hw. pose proof (way_exists_list _ (tail cs) (le_n _) Htl) as Hwt.
  assert (exists es, way [] es) as Hnil by (exists []; constructor).
  split; [|split; cbn; destruct ty; assumption].
  set (s := mkNode ty loc name bk text width cs).
  destruct (decide (ty = JZ_AST_STMT_ASSIGN)) as [->|Na]; [eexists; apply (way_assign s); [done|constructor]|].
  destruct (decide (ty = JZ_AST_STMT_IF)) as [->|Ni].
  { destruct Hwt as [es Hes]. exists (es ++ []). exact (way_branch s [] [] [] s es [] eq_refl eq_refl ltac:(by left) Hes way_nil). }
  destruct (decide (ty = JZ_AST_STMT_SELECT)) as [->|Ns].
  { apply select_has_way; [done|]. intros l Hl. rewrite Forall_forall in IH. apply (IH l).
    cbn in Hl. destruct cs; [by apply elem_of_nil in Hl|by right]. }
  destruct (decide (ty = JZ_AST_BLOCK)) as [->|Nb].
  { destruct Hw as [es Hes]. eexists. eapply (way_block s); [done|exact Hes|constructor]. }
  destruct (decide (ty = JZ_AST_FEATURE_GUARD)) as [->|Ng]; [eexists; apply (way_not_guarded s); [done|constructor]|].
  eexists. apply (way_other s); [cbn; set_solver|constructor].
Qed.

Lemma block_way_exists stmts : exists es, way stmts es.
Proof.
  apply (way_exists_list _ _ (le_n _)), Forall_forall. intros s _. by destruct (way_exists s) as (? & ? & _).
Qed.

Lemma chain_way_exists c : c <> [] -> exists es, chain_way c es.
Proof.
  destruct c as [|s c]; [done|]. intros _. destruct (way_exists s) as (_ & [es Hes] & _). exists es. left.
  exists s. split; [by left|done].
Qed.

(** ** The whole analysis *)

Lemma exact_refuse_level W loc : (exists es, W es) -> exact (refuse SEM_RECURSION_DEPTH_LIMIT_EXCEEDED loc) W.
Proof.
  intros H. split; [done|]. intros [a b]. eexists [], _. cbn. rewrite app_nil_r. split; [done|left].
  eexists. split; [by left|done].
Qed.

Lemma chain_level n : (forall loc d stmts, forallb (handled false) stmts = true -> exact (walk_block (level n) loc d stmts) (way stmts)) ->
  chain_exact (walk_chain (level (S n))).
Proof.
  intros Hb c loc d Hne Hc. cbn [walkers walk_chain sem_excl_analyze_if_chain].
  eapply exact_iff; [|apply (exact_split _ (fun s => way (if_body s)) (negb (ends_in_else c)))].
  - intros es. unfold chain_way. by rewrite negb_true_iff.
  - intros s Hs. rewrite forallb_forall in Hc. specialize (Hc s ltac:(by apply list_elem_of_In)).
    destruct (if_body s) as [|b body] eqn:Eb; [|by apply Hb].
    eapply exact_iff; [|apply exact_idle]. intros es. split; [intros ->; constructor|apply excl_way_nil].
  - unfold ends_in_else. intros [E|E]; [by rewrite E|done].
Qed.

Lemma select_level n : chain_exact (walk_chain (level n)) -> select_exact (walk_select (level n)) ->
  select_exact (walk_select (level (S n))).
Proof.
  intros Hc Hsel s d Hs Hh. eapply exact_iff; [intros es; symmetry; by apply way_select|].
  assert (labels s = [] -> exact idle (select_way s)) as Hnone.
  { intros E. eapply exact_iff; [|apply exact_idle]. intros es. unfold select_way, may_skip. rewrite E. cbn.
    split; [intros ->; right|intros [(l & Hl & _)|[_ ?]]; [by apply elem_of_nil in Hl|done]].
    split; [|done]. destruct s as [ty ? ? ? ? ? [|c [|c' cs]]]; cbn in *; subst ty; done. }
  pose proof (select_labels_handled s) as Hl.
  destruct s as [ty loc name bk text width cs]. cbn [ast_type] in Hs. subst ty.
  cbn [walkers walk_select sem_excl_analyze_select ast_children]. destruct cs as [|c [|l ls]]; [by apply Hnone..|].
  set (s := mkNode _ loc name bk text width (c :: l :: ls)) in *. cbn [ast_loc].
  apply (exact_split _ (fun l => way (arm_body l)) (may_skip s)).
  - intros x [Hx%list_elem_of_In _]%list_elem_of_In%filter_In. specialize (Hl x eq_refl Hh Hx).
    apply exact_all; [|done]. intros y Hy. apply stmt_exact; [done|done|left].
    rewrite forallb_forall in Hl. apply Hl. by apply list_elem_of_In.
  - unfold may_skip. change (labels s) with (l :: ls). intros [[H1 H2]%orb_false_iff|E].
    + by rewrite H1, H2.
    + apply orb_true_iff. right. destruct (last (l :: ls)) as [x|] eqn:El; [|by apply last_None in El].
      apply last_Some_elem_of in El. apply list_elem_of_In in El. destruct (arm_body x) eqn:Ex; [done|exfalso].
      assert (x ∈ @nil JZASTNode) as Hx; [|by apply elem_of_nil in Hx]. rewrite <- E. apply list_elem_of_In, filter_In.
      split; [done|]. by rewrite Ex.
Qed.

Lemma levels_exact n :
  (forall loc d stmts, forallb (handled false) stmts = true -> exact (walk_block (level n) loc d stmts) (way stmts)) /\
  chain_exact (walk_chain (level n)) /\ select_exact (walk_select (level n)).
Proof.
  induction n as [|n (IHb & IHc & IHs)].
  - split_and!.
    + intros loc d stmts _. apply exact_refuse_level, block_way_exists.
    + intros c loc d Hne _. by apply exact_refuse_level, chain_way_exists.
    + intros s d Hs Hh. destruct (way_exists s) as (Hw & _). cbn [walkers walk_select]. unfold sem_excl_analyze_select.
      destruct s as [ty ? ? ? ? ? [|c [|l ls]]]; [..|by apply exact_refuse_level];
        (cbn in Hs; subst ty; eapply exact_iff; [|apply exact_idle]; intros es; split;
          [intros ->; apply way_skip; [done|done|constructor]|
           intros [(x & Hx & _)|[_ ->]]%way_select; [by apply elem_of_nil in Hx|done|done]]).
  - split_and!; [|by apply chain_level|by apply select_level].
    intros loc d stmts Hh. cbn [walkers walk_block sem_excl_analyze_block]. apply block_exact; [done|..|done].
    + intros c Hne Hc. by apply IHc.
    + intros s Hne Hs. apply stmt_exact; [done|done|by right].
Qed.
End Ways.
