(* ===== verification/ExclSpec.v ===== *)
(** * What the analysis of exclusive assignments promises

    The Exclusive Assignment Rule: on every way through a block, no bit of a
    declaration is assigned twice.  Then nets without a driver, and what the
    checks miss. *)

From stdpp Require Import sets.
From S2P Require Import Prelude CString Util Ast SymTab Literal NetGraph NetSpec Comb CombPaths Excl ExclWays.

Local Open Scope Z_scope.

#[local] Opaque SEM_FLOW_LEVELS.

(** ** Bits *)

(** An assignment of a whole declaration covers all its bits. *)
Definition covers (e : JZAssignTargetEntry) (bit : Z) : Prop :=
  has_range (entry_range e) = true -> range_lsb (entry_range e) <= bit <= range_msb (entry_range e).

Definition same_bit (e1 e2 : JZAssignTargetEntry) : Prop :=
  same_decl (entry_decl e1) (entry_decl e2) = true /\ entry_is_register e1 = entry_is_register e2 /\
  exists bit, covers e1 bit /\ covers e2 bit.

(** In an ASYNCHRONOUS block, assignments that may release a net share it. *)
Definition may_share (is_sync : bool) (e1 e2 : JZAssignTargetEntry) : Prop :=
  is_sync = false /\ (entry_can_drive_z e1 = true \/ entry_can_drive_z e2 = true).

Definition assigned_once (is_sync : bool) (es : list JZAssignTargetEntry) : Prop :=
  forall (i j : nat) e1 e2, (i < j)%nat -> es !! i = Some e1 -> es !! j = Some e2 -> same_bit e1 e2 -> may_share is_sync e1 e2.

Definition valid_range (e : JZAssignTargetEntry) : bool :=
  negb (has_range (entry_range e)) || (range_lsb (entry_range e) <=? range_msb (entry_range e)).

Lemma overlap_bit e1 e2 : valid_range e1 = true -> valid_range e2 = true ->
  ranges_overlap (entry_range e1) (entry_range e2) = true <-> exists bit, covers e1 bit /\ covers e2 bit.
Proof.
  unfold valid_range, ranges_overlap, covers. destruct (entry_range e1) as [[] l1 m1], (entry_range e2) as [[] l2 m2]; cbn; intros H1 H2.
  - rewrite negb_true_iff, orb_false_iff, !Z.ltb_ge. apply Z.leb_le in H1, H2. split.
    + intros [? ?]. exists (Z.max l1 l2). lia.
    + intros (bit & Ha & Hb). specialize (Ha eq_refl). specialize (Hb eq_refl). lia.
  - split; [|done]. intros _. exists l1. apply Z.leb_le in H1. split; [lia|done].
  - split; [|done]. intros _. exists l2. apply Z.leb_le in H2. split; [done|lia].
  - split; [|done]. intros _. by exists 0.
Qed.

Lemma clashes_bit sync e1 e2 : valid_range e1 = true -> valid_range e2 = true ->
  clashes sync e1 e2 = false <-> (same_bit e1 e2 -> may_share sync e1 e2).
Proof.
  intros H1 H2. unfold clashes, same_bit, may_share. rewrite <- (overlap_bit e1 e2 H1 H2).
  split.
  - intros H (Hs & Hr & Ho). rewrite Hs, Hr, eqb_reflx, Ho in H. cbn in H.
    apply negb_false_iff, andb_true_iff in H as [Hy%negb_true_iff Hz%orb_true_iff]. done.
  - intros H. destruct (_ && _) eqn:E; [exfalso|done]. rewrite !andb_true_iff in E. destruct E as [[[Hs Hr%eqb_prop] Ho] Hz].
    destruct H as [-> Hz']; [done|]. destruct Hz' as [Hz'|Hz']; rewrite Hz' in Hz; rewrite ?orb_true_r in Hz; discriminate Hz.
Qed.

Lemma exclusive_once sync es : Forall (fun e => valid_range e = true) es ->
  exclusive sync es <-> assigned_once sync es.
Proof.
  induction 1 as [|e es He Hes IH]; cbn [exclusive].
  { split; [|done]. intros _ i j e1 e2 _ H1 _. by rewrite lookup_nil in H1. }
  rewrite IH. rewrite Forall_forall in Hes. split.
  - intros [Hx Hr] [|i] [|j] e1 e2 Hij H1 H2; cbn in H1, H2; [lia| |lia|].
    + injection H1 as <-. apply list_elem_of_lookup_2 in H2. apply clashes_bit; auto.
    + apply (Hr i j); [lia|done..].
  - intros H. split.
    + intros x Hx. apply clashes_bit; [done|by apply Hes|]. apply list_elem_of_lookup_1 in Hx as [j Hj].
      apply (H 0%nat (S j)); [lia|done..].
    + intros i j e1 e2 Hij H1 H2. apply (H (S i) (S j)); [lia|done..].
Qed.

(** ** The rule *)

Section Block.
Context (scope : JZModuleScope) (project_symbols : list JZSymbol).
Context (eval_width_expr : string -> JZLocation -> option Z) (infer_width : JZASTNode -> Z).

(** The targets of all assignments below a node. *)
Fixpoint tree_entries (is_sync : bool) (node : JZASTNode) : list JZAssignTargetEntry :=
  match node with
  | mkNode ty _ _ op _ _ cs =>
      (match ty with
       | JZ_AST_STMT_ASSIGN => assign_entries scope project_symbols eval_width_expr is_sync false op cs
       | _ => []
       end) ++ flat_map (tree_entries is_sync) cs
  end.

(** The bounds of slices fit [unsigned]. *)
Definition bounds_fit (is_sync : bool) (stmts : list JZASTNode) : bool :=
  forallb valid_range (flat_map (tree_entries is_sync) stmts).

Notation way := (way scope project_symbols eval_width_expr infer_width).

Lemma tree_children sync s c e : c ∈ ast_children s -> e ∈ tree_entries sync c -> e ∈ tree_entries sync s.
Proof.
  destruct s as [ty ? ? ? ? ? cs]. cbn. intros Hc He. apply elem_of_app. right.
  apply list_elem_of_In, in_flat_map. exists c. split; by apply list_elem_of_In.
Qed.

Lemma if_body_child s c : c ∈ if_body s -> c ∈ ast_children s.
Proof.
  clear. destruct s as [ty ? ? ? ? ? cs]. assert (c ∈ tail cs -> c ∈ cs) by (destruct cs; [done|by right]).
  cbn. destruct ty; try done; by intros ?%elem_of_nil.
Qed.

Lemma arm_body_child s c : c ∈ arm_body s -> c ∈ ast_children s.
Proof.
  clear. destruct s as [ty ? ? ? ? ? cs]. assert (c ∈ tail cs -> c ∈ cs) by (destruct cs; [done|by right]).
  cbn. by destruct ty.
Qed.

Lemma way_entries sync stmts es : way sync stmts es -> forall e, e ∈ es -> exists s, s ∈ stmts /\ e ∈ tree_entries sync s.
Proof.
  induction 1 as [|s rest es Hs _ IH|s rest more rest' b es1 es2 Hs Ec Hb _ IH1 _ IH2|s rest more rest' es Hs Ec _ _ IH
    |s rest l es1 es2 Hs Hl _ _ IH1 _ IH2|s rest es Hs _ _ IH|s rest es1 es2 Hs _ IH1 _ IH2|s rest b es1 es2 Hs Hb _ IH1 _ IH2
    |s rest es Hs _ IH|s rest es Hs _ IH]; intros e He.
  - by apply elem_of_nil in He.
  - apply elem_of_app in He as [He|He]; [|set_solver]. exists s. split; [by left|].
    destruct s. cbn in *. subst. by apply elem_of_app; left.
  - pose proof (chain_rest_parts rest) as Ep. rewrite Ec in Ep. cbn in Ep. apply elem_of_app in He as [He|He].
    + destruct (IH1 e He) as (x & Hx & Hin). exists b. split; [set_solver|]. eapply tree_children; [by apply if_body_child|done].
    + destruct (IH2 e He) as (x & Hx & Hin). exists x. split; [set_solver|done].
  - pose proof (chain_rest_parts rest) as Ep. rewrite Ec in Ep. cbn in Ep.
    destruct (IH e He) as (x & Hx & Hin). exists x. split; [set_solver|done].
  - apply elem_of_app in He as [He|He]; [|set_solver]. destruct (IH1 e He) as (x & Hx & Hin). exists s. split; [by left|].
    eapply tree_children; [|eapply tree_children; [by apply arm_body_child|done]].
    destruct s as [ty ? ? ? ? ? [|y cs]]; cbn in *; set_solver.
  - set_solver.
  - apply elem_of_app in He as [He|He]; [|set_solver]. destruct (IH1 e He) as (x & Hx & Hin). exists s. split; [by left|].
    by eapply tree_children.
  - apply elem_of_app in He as [He|He]; [|set_solver]. destruct (IH1 e He) as (x & Hx & Hin). exists s. split; [by left|].
    eapply tree_children; [|by eapply tree_children]. destruct s as [ty ? ? ? ? ? [|y cs]]; cbn in *; set_solver.
  - set_solver.
  - set_solver.
Qed.

Lemma way_valid sync stmts es : bounds_fit sync stmts = true -> way sync stmts es ->
  Forall (fun e => valid_range e = true) es.
Proof.
  intros Hb Hw. apply Forall_forall. intros e He. destruct (way_entries _ _ _ Hw e He) as (s & Hs & Hin).
  unfold bounds_fit in Hb. rewrite forallb_forall in Hb. apply Hb, in_flat_map. exists s. split; by apply list_elem_of_In.
Qed.

(** The reports of the walk over a block. *)
Definition exclusive_reports (is_sync : bool) (block : JZASTNode) : list FlowReport :=
  snd (walk_block (walkers scope project_symbols eval_width_expr infer_width is_sync SEM_FLOW_LEVELS) (ast_loc block) 0
         (ast_children block) [mkPath [] 0]).

Lemma block_run is_sync block : forallb (handled false) (ast_children block) = true ->
  exists added, walk_block (walkers scope project_symbols eval_width_expr infer_width is_sync SEM_FLOW_LEVELS)
      (ast_loc block) 0 (ast_children block) [mkPath [] 0] = ([mkPath added 0], exclusive_reports is_sync block) /\
    (limited (exclusive_reports is_sync block) \/
     outcome is_sync (way is_sync (ast_children block)) [] added (exclusive_reports is_sync block)).
Proof.
  intros Hh. destruct (levels_exact scope project_symbols eval_width_expr infer_width is_sync SEM_FLOW_LEVELS) as (Hb & _ & _).
  destruct (ex_run _ _ _ (Hb (ast_loc block) 0%nat _ Hh) (mkPath [] 0)) as (added & rs & E & Ho).
  exists added. unfold exclusive_reports. rewrite E. done.
Qed.
End Block.

(** C7: for a block the analysis handles, whose bounds fit, it reports nothing
    exactly if on every way through the block no bit is assigned twice, unless
    an assignment may release it in an ASYNCHRONOUS block; apart from limits
    that the code reports. *)
Theorem exclusive_check_exact scope syms eval_width infer_width is_sync block :
  forallb (handled false) (ast_children block) = true ->
  bounds_fit scope syms eval_width is_sync (ast_children block) = true ->
  let reports := exclusive_reports scope syms eval_width infer_width is_sync block in
  let once := forall es, way scope syms eval_width infer_width is_sync (ast_children block) es -> assigned_once is_sync es in
  (reports = [] -> once) /\ (once -> reports = [] \/ limited reports).
Proof.
  intros Hh Hb reports once. destruct (block_run scope syms eval_width infer_width is_sync block Hh) as (added & _ & Ho).
  fold reports in Ho. split.
  - intros E. destruct Ho as [(r & Hr & _)|Ho]; [rewrite E in Hr; by apply elem_of_nil in Hr|].
    intros es Hes. apply exclusive_once; [by eapply way_valid|]. by apply (oc_reports _ _ _ _ _ Ho).
  - intros H. destruct Ho as [Hl|Ho]; [by right|left]. apply (oc_reports _ _ _ _ _ Ho). intros es Hes. split.
    + apply exclusive_once; [by eapply way_valid|]. by apply H.
    + by intros r e Hr%elem_of_nil.
Qed.

(** ** Nets without a driver *)

Definition undriven_reports scope syms eval_width infer_width (block : JZASTNode) : list FlowReport :=
  sem_excl_check_async_undefined_paths block
    (fst (walk_block (walkers scope syms eval_width infer_width false SEM_FLOW_LEVELS) (ast_loc block) 0
            (ast_children block) [mkPath [] 0])).

Lemma check_code_block_parts scope syms eval_width infer_width block :
  check_code_block scope syms eval_width infer_width false block =
  exclusive_reports scope syms eval_width infer_width false block ++ undriven_reports scope syms eval_width infer_width block.
Proof. unfold check_code_block, exclusive_reports, undriven_reports. by destruct (walk_block _ _ _ _ _). Qed.

(** OUT and INOUT ports, and what the block reads. *)
Definition observable (d : Decl) (block : JZASTNode) : bool :=
  field_is "OUT" (decl_block_kind d) || field_is "INOUT" (decl_block_kind d) ||
  match decl_name d with Some name => sem_block_reads_name name block | None => false end.

Lemma assigned_decls_elem paths d : d ∈ assigned_decls paths ->
  exists r, r ∈ flat_map assigns paths /\ entry_decl (rec_entry r) = d /\ entry_is_register (rec_entry r) = false.
Proof.
  unfold assigned_decls. generalize (flat_map assigns paths). intros rs.
  assert (forall decls, d ∈ fold_left (fun decls r =>
    let d := entry_decl (rec_entry r) in
    if entry_is_register (rec_entry r) || existsb (fun e => same_decl e d) decls then decls else decls ++ [d]) rs decls ->
    d ∈ decls \/ exists r, r ∈ rs /\ entry_decl (rec_entry r) = d /\ entry_is_register (rec_entry r) = false) as H.
  { induction rs as [|r rs IH]; intros decls Hd; cbn [fold_left] in Hd; [by left|].
    destruct (IH _ Hd) as [Hin|(q & ? & ?)]; [|right; exists q; split; [by right|done]].
    cbn zeta in Hin. destruct (entry_is_register (rec_entry r)) eqn:Er; cbn [orb] in Hin; [by left|].
    destruct (existsb _ decls); [by left|]. apply elem_of_app in Hin as [?|Hin]; [by left|].
    apply list_elem_of_singleton in Hin as ->.
    right. exists r. split; [by left|done]. }
  intros Hd. destruct (H [] Hd) as [?%elem_of_nil|?]; done.
Qed.

Lemma undriven_report block added d : Undriven d ∈ sem_excl_check_async_undefined_paths block [mkPath added 0] ->
  observable d block = true /\ existsb (drives d) added = false /\
  exists r, r ∈ added /\ entry_decl (rec_entry r) = d /\ entry_is_register (rec_entry r) = false.
Proof.
  intros Hd. apply list_elem_of_In, in_flat_map in Hd as (d' & Hin & Hd).
  apply list_elem_of_In, assigned_decls_elem in Hin. cbn [flat_map assigns] in Hin. rewrite app_nil_r in Hin.
  assert (d = d' /\ observable d' block = true /\ existsb (drives d') added = false) as (-> & ? & ?); [|done].
  unfold observable. destruct (decl_name d') as [name|]; [|destruct Hd]. cbn zeta in Hd.
  destruct (field_is "OUT" _ || field_is "INOUT" _), (sem_block_reads_name name block);
    cbn [negb andb orb forallb driven_on_path] in Hd |- *; try by destruct Hd.
  all: change (driven_on_path d' (mkPath added 0)) with (existsb (drives d') added) in Hd; rewrite andb_true_r in Hd;
    destruct (existsb (drives d') added); [by destruct Hd|destruct Hd as [Hd|[]]; by injection Hd as <-].
Qed.

(** C36: in a block the analysis handles (without feature guards, and with ELIF
    and ELSE only where it looks for them) and about which no limit is reported, a
    net that is reported to have no driver on some path can be observed, is
    assigned on some way through the block, and is not assigned at all on
    another. *)
Theorem undriven_reports_real scope syms eval_width infer_width block d :
  forallb (handled false) (ast_children block) = true ->
  ~ limited (exclusive_reports scope syms eval_width infer_width false block) ->
  Undriven d ∈ undriven_reports scope syms eval_width infer_width block ->
  observable d block = true /\
  (exists es e, way scope syms eval_width infer_width false (ast_children block) es /\ e ∈ es /\ writes d e = true) /\
  (exists es, way scope syms eval_width infer_width false (ast_children block) es /\ forall e, e ∈ es -> writes d e = false).
Proof.
  intros Hh Hl Hd. destruct (block_run scope syms eval_width infer_width false block Hh) as (added & E & [?|Ho]); [done|].
  unfold undriven_reports in Hd. rewrite E in Hd. apply undriven_report in Hd as (Hobs & Hdr & r & Hr & Er & Hreg).
  split_and!; [done| |by apply (oc_driven _ _ _ _ _ Ho)].
  destruct (proj1 (oc_added _ _ _ _ _ Ho (forget (rec_entry r))) (ex_intro _ r (conj Hr eq_refl))) as (es & Hes & Hin).
  exists es, (forget (rec_entry r)). split_and!; [done|done|]. unfold writes. cbn. rewrite Er, Hreg, same_decl_refl. done.
Qed.

(** ** Examples *)

Definition literal (text : string) : JZASTNode :=
  mkNode JZ_AST_EXPR_LITERAL (mkLoc 1 1) None None (Some text) None [].

Definition bits (name msb lsb : string) : JZASTNode :=
  node0 JZ_AST_EXPR_SLICE None None [ident name; literal msb; literal lsb].

(** [target <= source]. *)
Definition receive (target source : JZASTNode) : JZASTNode :=
  node0 JZ_AST_STMT_ASSIGN None (Some "RECEIVE"%string) [target; source].

Definition if_ (cond : string) (body : list JZASTNode) : JZASTNode := node0 JZ_AST_STMT_IF None None (ident cond :: body).
Definition else_ (body : list JZASTNode) : JZASTNode := node0 JZ_AST_STMT_ELSE None None body.
Definition case_ (value : string) (body : list JZASTNode) : JZASTNode :=
  node0 JZ_AST_STMT_CASE None None (literal value :: body).
Definition default_ (body : list JZASTNode) : JZASTNode := node0 JZ_AST_STMT_DEFAULT None None body.
Definition select_ (selector : string) (arms : list JZASTNode) : JZASTNode :=
  node0 JZ_AST_STMT_SELECT None None (ident selector :: arms).

(** A module with the output port [y] and the wires [a], [b] and [c]. *)
Definition port_y : JZASTNode := node0 JZ_AST_PORT_DECL (Some "y"%string) (Some "OUT"%string) [].

Definition y : Decl := NodeDecl [0; 0; 0]%nat port_y.

Definition module_y (block : JZASTNode) : JZModuleScope :=
  let wire n i := mkSymbol (Some n) JZ_SYM_WIRE (Some (node0 JZ_AST_WIRE_DECL (Some n) None [])) [0; 1; i]%nat in
  mkScope (Some "m"%string) (node0 JZ_AST_MODULE (Some "m"%string) None [block]) [0%nat]
    [mkSymbol (Some "y"%string) JZ_SYM_PORT (Some port_y) [0; 0; 0]%nat; wire "a"%string 0%nat; wire "b"%string 1%nat; wire "c"%string 2%nat].

Definition no_width : string -> JZLocation -> option Z := fun _ _ => None.
Definition bool_width : JZASTNode -> Z := fun _ => 1.

(** Without BUS ports or array counts. *)
Definition reports_of (block : JZASTNode) : list FlowReport :=
  check_code_block (module_y block) [] no_width bool_width false block.

Definition way_of (block : JZASTNode) : list JZAssignTargetEntry -> Prop :=
  way (module_y block) [] no_width bool_width false (ast_children block).

Definition ya : JZASTNode := receive (ident "y") (ident "a").
Definition yb : JZASTNode := receive (ident "y") (ident "b").

Definition disjoint_slices : JZASTNode :=
  async [if_ "c" [receive (bits "y" "3" "0") (ident "a")]; else_ [receive (bits "y" "3" "2") (ident "b")];
         receive (bits "y" "7" "4") (ident "a")].

Lemma exclusive_check_exact_witness :
  forallb (handled false) (ast_children disjoint_slices) = true /\
  bounds_fit (module_y disjoint_slices) [] no_width false (ast_children disjoint_slices) = true /\
  forall es, way_of disjoint_slices es -> assigned_once false es.
Proof.
  split; [vm_compute; reflexivity|]. split; [vm_compute; reflexivity|].
  apply (exclusive_check_exact (module_y disjoint_slices) [] no_width bool_width false disjoint_slices);
    vm_compute; reflexivity.
Defined.

(** Slices that overlap, and assignments of a whole in a branch and after it. *)
Example overlaps_reported :
  reports_of (async [receive (bits "y" "3" "0") (ident "a"); receive (bits "y" "7" "3") (ident "b")]) =
    [Report ASSIGN_SLICE_OVERLAP (mkLoc 1 1)] /\
  reports_of (async [if_ "c" [ya]; else_ [yb]; ya]) = [Report ASSIGN_SHADOWING (mkLoc 1 1)].
Proof. split; vm_compute; reflexivity. Qed.

Definition partly_driven : JZASTNode := async [if_ "c" [ya]].

Lemma undriven_reports_real_witness :
  undriven_reports (module_y partly_driven) [] no_width bool_width partly_driven = [Undriven y] /\
  exists es, way_of partly_driven es /\ forall e, e ∈ es -> writes y e = false.
Proof.
  split; [vm_compute; reflexivity|].
  apply (undriven_reports_real (module_y partly_driven) [] no_width bool_width partly_driven y).
  - vm_compute. reflexivity.
  - intros (r & Hr & _). apply elem_of_nil in Hr. exact Hr.
  - assert (undriven_reports (module_y partly_driven) [] no_width bool_width partly_driven = [Undriven y]) as -> by (vm_compute; reflexivity).
    left.
Defined.

(** ** What the checks miss *)

(** [y] is driven in the one branch, in the other only under a condition. *)
Definition nested_if : JZASTNode := async [if_ "c" [ya]; else_ [if_ "b" [yb]]].

(** The DEFAULT does nothing. *)
Definition empty_default : JZASTNode := async [select_ "c" [case_ "0" [ya]; default_ []]].

(** One bit in the one branch, another in the other. *)
Definition half_driven : JZASTNode :=
  async [if_ "c" [receive (bits "y" "0" "0") (ident "a")]; else_ [receive (bits "y" "1" "1") (ident "a")]].

(** Two assignments in an ELSE under a CASE. *)
Definition else_in_case : JZASTNode :=
  async [select_ "c" [case_ "0" [if_ "b" [ya]; else_ [ya; yb]]; default_ [ya]]].

(** In four blocks the check reports nothing: two leave the output port [y]
    without a driver on some way, one leaves bit 1 of it, and one assigns it
    twice on a way. *)
Theorem flow_check_misses :
  (reports_of nested_if = [] /\ exists es, way_of nested_if es /\ Forall (fun e => writes y e = false) es) /\
  (reports_of empty_default = [] /\ exists es, way_of empty_default es /\ Forall (fun e => writes y e = false) es) /\
  (reports_of half_driven = [] /\ exists es, way_of half_driven es /\ Forall (fun e => ~ covers e 1) es) /\
  (reports_of else_in_case = [] /\ exists es, way_of else_in_case es /\ ~ assigned_once false es).
Proof.
  split_and!; try (vm_compute; reflexivity).
  - exists []. split; [|constructor].
    eapply (way_branch _ _ _ _ _ _ _ _ _ (else_ [if_ "b" [yb]]) [] []); [done|reflexivity|right; left| |apply way_nil].
    eapply way_no_branch; [done|reflexivity|reflexivity|apply way_nil].
  - exists []. split; [|constructor]. apply way_skip; [done|vm_compute; reflexivity|apply way_nil].
  - eexists. split.
    + eapply (way_branch _ _ _ _ _ _ _ _ _ (if_ "c" [receive (bits "y" "0" "0") (ident "a")])); [done|reflexivity|left| |apply way_nil].
      eapply way_assign; [done|apply way_nil].
    + vm_compute. repeat constructor. intros H. destruct (H eq_refl) as [_ H']. by apply H'.
  - eexists. split.
    + eapply (way_label _ _ _ _ _ _ _ (case_ "0" [if_ "b" [ya]; else_ [ya; yb]])); [done|left|done| |apply way_nil].
      eapply (way_branch _ _ _ _ _ _ _ _ _ (else_ [ya; yb])); [done|reflexivity|right; left| |apply way_nil].
      eapply way_assign; [done|]. eapply way_assign; [done|apply way_nil].
    + intros H. destruct (H 0%nat 1%nat _ _ ltac:(lia) eq_refl eq_refl) as [_ [H'|H']]; [|done|done].
      split_and!; [reflexivity|reflexivity|]. exists 0. split; intros ?; discriminate.
Qed.
