(* ===== verification/DeadCode.v ===== *)
(** * Dead code: [compiler/src/sem/driver_flow.c]

    The branches of IF chains and the DEFAULT of SELECT statements that cannot
    be chosen, at the top of a block; and the proof that they cannot. *)

From S2P Require Import Prelude CString Digits Util Ast SymTab Literal NetGraph NetSpec Comb CombPaths Excl.

Local Open Scope Z_scope.

(** ** The check *)

(** [sem_expr_is_const_zero_literal]: the value is known, and is zero. *)
Definition sem_expr_is_const_zero_literal (expr : JZASTNode) : bool * bool :=
  match expr with
  | mkNode JZ_AST_EXPR_LITERAL _ _ _ (Some text) _ _ => sem_literal_is_const_zero text
  | _ => (false, false)
  end.

Definition always_false (stmt : JZASTNode) : bool :=
  match stmt with
  | mkNode (JZ_AST_STMT_IF | JZ_AST_STMT_ELIF) _ _ _ _ _ (cond :: _) =>
      let '(zero, known) := sem_expr_is_const_zero_literal cond in zero && known
  | _ => false
  end.

Definition always_true (stmt : JZASTNode) : bool :=
  match stmt with
  | mkNode (JZ_AST_STMT_IF | JZ_AST_STMT_ELIF) _ _ _ _ _ (cond :: _) =>
      let '(zero, known) := sem_expr_is_const_zero_literal cond in negb zero && known
  | _ => false
  end.

(** Whether a branch is not reachable, after a branch that is always taken if
    [prior_true]. *)
Definition unreachable (prior_true : bool) (stmt : JZASTNode) : bool :=
  match ast_type stmt with
  | JZ_AST_STMT_IF | JZ_AST_STMT_ELIF => always_false stmt || prior_true
  | JZ_AST_STMT_ELSE => prior_true
  | _ => false
  end.

(** The branches of a chain that are not reachable. *)
Fixpoint dead_branches (prior_true : bool) (chain : list JZASTNode) : list JZASTNode :=
  match chain with
  | [] => []
  | stmt :: chain =>
      (if unreachable prior_true stmt then [stmt] else []) ++ dead_branches (prior_true || always_true stmt) chain
  end.

Section Dead.
Context (scope : JZModuleScope) (infer_width : JZASTNode -> Z).
(** Whether a slice or a qualified name is an access of a memory port, by
    [sem_match_mem_port_slice] and [sem_match_mem_port_qualified_ident]. *)
Context (mem_access : JZASTNode -> bool).

Fixpoint sem_dead_scan_node_for_mem_access (node : JZASTNode) : list FlowReport :=
  match node with
  | mkNode ty loc _ _ _ _ cs =>
      (match ty with
       | JZ_AST_EXPR_SLICE | JZ_AST_EXPR_QUALIFIED_IDENTIFIER =>
           if mem_access node then [Report MEM_WARN_DEAD_CODE_ACCESS loc] else []
       | _ => []
       end) ++ flat_map sem_dead_scan_node_for_mem_access cs
  end.

(** The nodes in the order in which they leave the stack: the last child first. *)
Fixpoint popped (node : JZASTNode) : list JZASTNode :=
  match node with
  | mkNode _ _ _ _ _ _ cs => node :: fold_left (fun acc c => popped c ++ acc) cs []
  end.

Definition is_flow_statement (node : JZASTNode) : bool :=
  bool_decide (ast_type node ∈ [JZ_AST_STMT_ASSIGN; JZ_AST_STMT_IF; JZ_AST_STMT_ELIF; JZ_AST_STMT_ELSE;
                                JZ_AST_STMT_SELECT; JZ_AST_STMT_CASE; JZ_AST_STMT_DEFAULT]).

Fixpoint mark_nodes (warned : bool) (nodes : list JZASTNode) : list FlowReport :=
  match nodes with
  | [] => []
  | node :: nodes =>
      let warn := negb warned && is_flow_statement node in
      (if warn then [Report WARN_DEAD_CODE_UNREACHABLE (ast_loc node)] else []) ++
      sem_dead_scan_node_for_mem_access node ++ mark_nodes (warned || warn) nodes
  end.

Definition sem_dead_mark_unreachable_branch_body (stmt : JZASTNode) : list FlowReport :=
  mark_nodes false (popped stmt).

(** The arrays hold 64 branches; the others are not looked at. *)
Definition sem_dead_check_if_chain (chain : list JZASTNode) : list FlowReport :=
  flat_map (fun stmt =>
    flat_map sem_dead_mark_unreachable_branch_body
      (if node_is JZ_AST_STMT_ELSE stmt then ast_children stmt else tail (ast_children stmt)))
    (dead_branches false (take 64 chain)).

Definition sem_dead_check_select (select_stmt : JZASTNode) : list FlowReport :=
  if sem_dead_select_cases_exhaustive infer_width select_stmt then
    match List.find (node_is JZ_AST_STMT_DEFAULT) (tail (ast_children select_stmt)) with
    | Some branch => flat_map sem_dead_mark_unreachable_branch_body (ast_children branch)
    | None => []
    end
  else [].

(** Every round takes at least one statement. *)
Fixpoint dead_statements (n : nat) (stmts : list JZASTNode) : list FlowReport :=
  match n, stmts with
  | S n', s :: rest =>
      if node_is JZ_AST_STMT_IF s then
        let '(more, rest) := chain_rest rest in
        sem_dead_check_if_chain (s :: more) ++ dead_statements n' rest
      else (if node_is JZ_AST_STMT_SELECT s then sem_dead_check_select s else []) ++ dead_statements n' rest
  | _, _ => []
  end.

Definition sem_check_dead_code_for_block (block : JZASTNode) : list FlowReport :=
  dead_statements (length (ast_children block)) (ast_children block).

Definition dead_code_module : list FlowReport :=
  flat_map (fun child => match code_block child with Some _ => sem_check_dead_code_for_block child | None => [] end)
    (ast_children (scope_node scope)).
End Dead.

Definition sem_check_dead_code (infer_width : JZModuleScope -> JZASTNode -> Z)
    (mem_access : JZModuleScope -> JZASTNode -> bool) (module_scopes : list JZModuleScope) : list FlowReport :=
  flat_map (fun scope => dead_code_module scope (infer_width scope) (mem_access scope)) module_scopes.

(** ** Soundness *)

Fixpoint count_true (l : list bool) : nat :=
  match l with [] => 0 | b :: l => (if b then 1 else 0) + count_true l end.

Lemma count_true_le l : (count_true l <= length l)%nat.
Proof. induction l as [|[] l IH]; cbn; lia. Qed.

Lemma count_true_insert l : forall i, (i < length l)%nat -> nth i l false = false ->
  count_true (<[i := true]> l) = S (count_true l).
Proof.
  induction l as [|b l IH]; intros [|i] Hi Hb; cbn in Hi, Hb |- *; [lia..|by subst b|].
  change (list_insert i true l) with (<[i := true]> l). rewrite IH by (done || lia). lia.
Qed.

Lemma count_true_full l : count_true l = length l -> forall i, (i < length l)%nat -> nth i l false = true.
Proof.
  induction l as [|b l IH]; intros Hc i Hi; cbn in Hc, Hi; [lia|]. pose proof (count_true_le l) as Hle.
  destruct b; [|cbn in Hc; lia]. destruct i as [|i]; [done|]. cbn. apply IH; lia.
Qed.

Lemma count_true_none n : count_true (replicate n false) = 0%nat.
Proof. induction n; done. Qed.

Lemma read_unsigned_nonneg skip s : forall v b w c, 0 <= v -> read_unsigned skip s v b = Some (w, c) -> 0 <= w.
Proof.
  induction s as [|a s IH]; intros v b w c Hv; cbn [read_unsigned]; [by intros [= <- _]|].
  destruct (skip a); [by apply IH|]. destruct (decimal_digit a) as [d|] eqn:Ed; [|done].
  apply decimal_bounds in Ed. destruct (_ || _); [done|]. apply IH. lia.
Qed.

Lemma read_digits_nonneg base digit s : 0 <= base -> (forall c d, digit c = Some d -> 0 <= d) ->
  forall v b w c, 0 <= v -> read_digits base digit s v b = Some (w, c) -> 0 <= w.
Proof.
  intros Hbase Hd. induction s as [|a s IH]; intros v b w c Hv; cbn [read_digits]; [by intros [= <- _]|].
  destruct (Ascii.eqb a "_"); [by apply IH|]. destruct (digit a) as [d|] eqn:Ed; [|done]. apply Hd in Ed.
  destruct (_ <? v); [done|]. apply IH. pose proof (Z.mul_nonneg_nonneg v base Hv Hbase). lia.
Qed.

Lemma label_value_nonneg l v : label_value l = Some v -> 0 <= v.
Proof.
  destruct l as [ty ? ? ? ? ? [|[ty' ? ? ? [text|] ? ?] ?]]; cbn; destruct ty; try done; destruct ty'; try done.
  unfold parse_literal_unsigned_value, parse_simple_nonnegative_int.
  destruct (read_unsigned isspace text 0 false) as [[w []]|] eqn:E.
  { intros [= <-]. by eapply read_unsigned_nonneg in E. }
  all: destruct (CString.split_at _ _) as [[[|? ?] [|base digits]]|]; try done;
    destruct (is_empty_string digits); try done;
    repeat (match goal with |- context [is_letter ?a ?b] => destruct (is_letter a b) end); try done;
    match goal with |- context [read_digits ?b ?f ?s 0 false] => destruct (read_digits b f s 0 false) as [[w' []]|] eqn:E' end; try done;
    intros [= <-]; eapply read_digits_nonneg in E'; try done; try lia.
  all: intros c d; first [intros ?%decimal_bounds; lia|intros ?%nibble_bounds; lia|unfold binary_digit; intros; repeat case_match; simplify_eq; lia].
Qed.

Lemma cases_cover_sound total ls : forall seen covered,
  Z.of_nat (length seen) = total -> Z.of_nat (count_true seen) = covered -> cases_cover total seen covered ls = true ->
  forall v, 0 <= v < total -> nth (Z.to_nat v) seen false = true \/ exists l, l ∈ ls /\ label_value l = Some v.
Proof.
  induction ls as [|l ls IH]; intros seen covered Hlen Hc; cbn [cases_cover]; [done|].
  assert (forall seen' covered', Z.of_nat (length seen') = total -> Z.of_nat (count_true seen') = covered' ->
    cases_cover total seen' covered' ls = true -> forall v, 0 <= v < total ->
    nth (Z.to_nat v) seen' false = true \/ exists x, x ∈ l :: ls /\ label_value x = Some v) as IH'.
  { intros s' c' H1 H2 H3 v Hv. destruct (IH s' c' H1 H2 H3 v Hv) as [?|(x & ? & ?)]; [by left|]. right. exists x. split; [by right|done]. }
  destruct (label_value l) as [w|] eqn:Ew; [|by apply IH']. pose proof (label_value_nonneg l w Ew) as Hw.
  destruct (Z.leb_spec total w) as [Ht|Ht]; cbn [orb]; [by apply IH'|].
  destruct (nth (Z.to_nat w) seen false) eqn:En; [by apply IH'|].
  assert (forall v, 0 <= v -> nth (Z.to_nat v) (<[Z.to_nat w := true]> seen) false = true ->
    nth (Z.to_nat v) seen false = true \/ exists x, x ∈ l :: ls /\ label_value x = Some v) as Hins.
  { intros v Hv. destruct (decide (v = w)) as [->|Hne]; [intros _; right; exists l; split; [by left|done]|].
    rewrite !nth_lookup, list_lookup_insert_ne by lia. by left. }
  pose proof (count_true_insert seen (Z.to_nat w) ltac:(lia) En) as Hci.
  destruct (Z.eqb_spec (covered + 1) total) as [Hf|_].
  - intros _ v Hv. apply Hins; [lia|]. apply count_true_full; rewrite length_insert; lia.
  - intros H v Hv. destruct (IH' (<[Z.to_nat w := true]> seen) (covered + 1) ltac:(by rewrite length_insert) ltac:(lia) H v Hv) as [Hn|?]; [|by right].
    apply Hins; [lia|done].
Qed.

(** Whether a branch is taken when it is reached, for an evaluation of
    conditions. *)
Definition branch_taken (holds : JZASTNode -> bool) (stmt : JZASTNode) : bool :=
  match stmt with
  | mkNode (JZ_AST_STMT_IF | JZ_AST_STMT_ELIF) _ _ _ _ _ (cond :: _) => holds cond
  | mkNode JZ_AST_STMT_ELSE _ _ _ _ _ _ => true
  | _ => false
  end.

(** Literals that are known to be zero or not evaluate that way. *)
Definition respects_literals (holds : JZASTNode -> bool) : Prop :=
  forall cond zero, sem_expr_is_const_zero_literal cond = (zero, true) -> holds cond = negb zero.

Lemma always_true_taken holds s : respects_literals holds -> always_true s = true -> branch_taken holds s = true.
Proof.
  intros H. destruct s as [ty ? ? ? ? ? [|cond cs]]; cbn; destruct ty; try done;
    destruct (sem_expr_is_const_zero_literal cond) as [zero []] eqn:E; rewrite ?andb_false_r; try done;
    rewrite (H cond zero E), andb_true_r; done.
Qed.

Lemma always_false_taken holds s : respects_literals holds -> always_false s = true -> branch_taken holds s = false.
Proof.
  intros H. destruct s as [ty ? ? ? ? ? [|cond cs]]; cbn; destruct ty; try done;
    destruct (sem_expr_is_const_zero_literal cond) as [zero []] eqn:E; rewrite ?andb_false_r; try done;
    rewrite (H cond zero E), andb_true_r; intros ->; done.
Qed.

Lemma dead_branches_sound b chain : forall prior, b ∈ dead_branches prior chain ->
  exists pre post, chain = pre ++ b :: post /\
    forall holds, respects_literals holds -> Forall (fun s => branch_taken holds s = false) pre ->
      branch_taken holds b = true -> prior = true.
Proof.
  induction chain as [|s chain IH]; intros prior Hb; cbn [dead_branches] in Hb; [by apply elem_of_nil in Hb|].
  apply elem_of_app in Hb as [Hb|Hb].
  - destruct (unreachable prior s) eqn:Eu; [|by apply elem_of_nil in Hb]. apply list_elem_of_singleton in Hb as ->.
    exists [], chain. split; [done|]. intros holds Hl _ Ht. unfold unreachable in Eu.
    destruct (ast_type s); try done; apply orb_true_iff in Eu as [Ef|?]; try done;
      rewrite (always_false_taken holds s Hl Ef) in Ht; discriminate Ht.
  - destruct (IH _ Hb) as (pre & post & -> & H). exists (s :: pre), post. split; [done|]. intros holds Hl Hf Ht.
    apply Forall_cons in Hf as [Hs Hf]. specialize (H holds Hl Hf Ht). apply orb_true_iff in H as [?|Ha]; [done|].
    rewrite (always_true_taken holds s Hl Ha) in Hs. discriminate Hs.
Qed.

(** C37: a SELECT whose cases count as exhaustive has a literal for every value
    of its selector, so its DEFAULT is never chosen; and a branch of an IF
    chain that is reported as dead is not taken at its place, however the
    conditions evaluate that are no literals. *)
Theorem dead_code_unreachable infer_width :
  (forall s selector ls, ast_children s = selector :: ls -> sem_dead_select_cases_exhaustive infer_width s = true ->
     forall v, 0 <= v < 2 ^ infer_width selector -> exists l, l ∈ ls /\ label_value l = Some v) /\
  (forall chain b, b ∈ dead_branches false (take 64 chain) -> exists pre post, chain = pre ++ b :: post /\
     forall holds, respects_literals holds ->
       ~ (Forall (fun s => branch_taken holds s = false) pre /\ branch_taken holds b = true)).
Proof.
  split.
  - intros s selector ls Hc He v Hv. destruct s as [ty ? ? ? ? ? cs]. cbn in Hc. subst cs. cbn in He.
    destruct ty; try done. destruct ls as [|l ls]; [done|]. destruct (_ || _); [done|].
    assert (0 < 2 ^ infer_width selector) as Hpos by lia.
    eapply cases_cover_sound in He; [|by rewrite length_replicate, Z2Nat.id by lia| |exact Hv].
    + destruct He as [He|?]; [|done]. rewrite nth_lookup in He. destruct (replicate _ _ !! _) as [x|] eqn:E; [|discriminate He].
      apply lookup_replicate_1 in E as [-> _]. discriminate He.
    + by rewrite count_true_none.
  - intros chain b Hb. destruct (dead_branches_sound _ _ _ Hb) as (pre & post & E & H).
    exists pre, (post ++ drop 64 chain). split.
    + rewrite <- (take_drop 64 chain) at 1. rewrite E. by rewrite <- app_assoc.
    + intros holds Hl [Hf Ht]. specialize (H holds Hl Hf Ht). discriminate H.
Qed.

Example dead_default :
  let arm text := mkNode JZ_AST_STMT_CASE (mkLoc 1 1) None None None None
    [mkNode JZ_AST_EXPR_LITERAL (mkLoc 1 1) None None (Some text) None []; assign "RECEIVE" "y" "a"] in
  sem_check_dead_code_for_block (fun _ => 1) (fun _ => false)
    (async [node0 JZ_AST_STMT_SELECT None None [ident "c"; arm "1'b0"%string; arm "1"%string;
              node0 JZ_AST_STMT_DEFAULT None None [assign "RECEIVE" "y" "a"]]]) =
  [Report WARN_DEAD_CODE_UNREACHABLE (mkLoc 1 1)].
Proof. vm_compute. reflexivity. Qed.

Definition two_cases : JZASTNode :=
  let arm text := mkNode JZ_AST_STMT_CASE (mkLoc 1 1) None None None None
    [mkNode JZ_AST_EXPR_LITERAL (mkLoc 1 1) None None (Some text) None []; assign "RECEIVE" "y" "a"] in
  node0 JZ_AST_STMT_SELECT None None [ident "c"; arm "1'b0"%string; arm "1"%string].

Lemma dead_code_unreachable_witness :
  sem_dead_select_cases_exhaustive (fun _ => 1) two_cases = true /\
  exists l, l ∈ tail (ast_children two_cases) /\ label_value l = Some 1.
Proof.
  assert (sem_dead_select_cases_exhaustive (fun _ => 1) two_cases = true) as H by (vm_compute; reflexivity).
  split; [exact H|].
  apply (proj1 (dead_code_unreachable (fun _ => 1)) two_cases (ident "c") (tail (ast_children two_cases)) eq_refl H 1). lia.
Defined.
