(* ===== verification/Template.v ===== *)
(** * Template expansion: [compiler/src/sem/template_expand.c]

    Every [@apply] in a module is replaced by copies of the body of its
    template, in which parameters, [IDX] and the names of scratch wires are
    substituted; the scratch wires become wires of the module, and the template
    definitions are removed.  The tree is rebuilt instead of mutated; what
    changes in a definition is written back to the registry.  Bodies contain no
    declarations.  Memory suffices, sizes do not overflow [size_t] nor call
    sites [int]; [rand] is a parameter.  Two things are undefined in C
    ([Undefined]): a template with more than 64 parameters reads beyond an array,
    and a count may overflow.  One runs forever ([Endless]): [clog2] of more than
    2^62 doubles a power of two until it is 0. *)

From S2P Require Import Prelude CString Util Ast SymTab ConstEval Repeat.

Local Open Scope Z_scope.

(** ** Whole words *)

Definition boundary (c : option ascii) : bool :=
  match c with Some c => negb (is_word_char c) | None => true end.

Definition first_char (s : string) : option ascii :=
  match s with String c _ => Some c | EmptyString => None end.

(** [prev] is the character before [s]; the next [skip] characters belong to an
    occurrence of [old], which is written if [copy]. *)
Fixpoint replace_from (old new_str : string) (prev : option ascii) (skip : nat) (copy : bool) (s : string) : string :=
  match s with
  | EmptyString => EmptyString
  | String c s' =>
      match skip with
      | S skip =>
          let rest := replace_from old new_str (Some c) skip copy s' in
          if copy then String c rest else rest
      | O =>
          match strip_prefix old s with
          | Some after =>
              if boundary prev && boundary (first_char after)
              then new_str +:+ replace_from old new_str (Some c) (pred (String.length old)) false s'
              else String c (replace_from old new_str (Some c) (pred (String.length old)) true s')
          | None => String c (replace_from old new_str (Some c) O true s')
          end
      end
  end.

Definition string_replace_whole_word (src old new_str : string) : string :=
  if is_empty_string old then src else replace_from old new_str None O true src.

(** Whether [old] occurs as a whole word. *)
Fixpoint word_from (old : string) (prev : option ascii) (skip : nat) (s : string) : bool :=
  match s with
  | EmptyString => false
  | String c s' =>
      match skip with
      | S skip => word_from old (Some c) skip s'
      | O =>
          match strip_prefix old s with
          | Some after =>
              boundary prev && boundary (first_char after) || word_from old (Some c) (pred (String.length old)) s'
          | None => word_from old (Some c) O s'
          end
      end
  end.

(** ** Constants *)

(** [parse_int_str]: the whole of [s] is a number. *)
Definition parse_int_str (s : string) : option Z :=
  let '(_, digits) := sign_prefix (drop_while isspace s) in
  if negb (is_empty_string digits) && string_forall isdigit digits then Some (strtol10 s) else None.

(** [prev] is the character before [s]; [skip] counts those of a prefix. *)
Fixpoint strip_config (prev : option ascii) (skip : nat) (s : string) : string :=
  match s with
  | EmptyString => EmptyString
  | String c s' =>
      match skip with
      | S skip => strip_config (Some c) skip s'
      | O =>
          let dotted :=
            if boundary prev then
              match strip_prefix "CONFIG" s with
              | Some r =>
                  match drop_while isspace r with
                  | String "." r => Some (String.length s - String.length (drop_while isspace r))%nat
                  | _ => None
                  end
              | None => None
              end
            else None in
          match dotted with
          | Some n => strip_config (Some c) (pred n) s'
          | None => String c (strip_config (Some c) O s')
          end
      end
  end.

Definition strip_config_prefix (expr : string) : string := strip_config None O expr.

Definition add_const_def (decl : JZASTNode) : list JZConstDef :=
  match ast_name decl, ast_text decl with
  | Some name, Some text => [mkConstDef (Some name) (Some (strip_config_prefix text))]
  | _, _ => []
  end.

(** The definitions below a node, with the places where the depth counter
    refuses. *)
Fixpoint gather_const_defs (levels : nat) (node : JZASTNode) : list JZConstDef * list JZLocation :=
  match levels with
  | O => ([], [ast_loc node])
  | S levels =>
      let own :=
        match ast_type node with
        | JZ_AST_CONFIG_BLOCK | JZ_AST_CONST_BLOCK =>
            flat_map (fun c => if node_is JZ_AST_CONST_DECL c then add_const_def c else []) (ast_children node)
        | _ => []
        end in
      let below := map (gather_const_defs levels) (ast_children node) in
      (own ++ flat_map fst below, flat_map snd below)
  end.

Definition const_name (d : JZConstDef) : string := default ""%string (def_name d).

(** The table for count expressions, unless the evaluation of the constants is
    undefined in C, or runs out of fuel (which it does not). *)
Inductive ConstTable := Table (consts : list (string * Z)) | TableUndefined | TableOutOfFuel.

Definition collect_consts (defs : list JZConstDef) : ConstTable :=
  match defs with
  | [] => Table []
  | _ =>
      let r := jz_const_eval_all defs (replicate (length defs) 0) in
      if eo_stuck r then TableOutOfFuel
      else if eo_undefined r then TableUndefined
      else if eo_code r =? 0 then
        Table (imap (fun i d => (const_name d, value_of (eo_env r) (Z.of_nat i))) defs)
      else
        Table (flat_map (fun d => match def_expr d with
                                  | Some e => match parse_int_str e with Some v => [(const_name d, v)] | None => [] end
                                  | None => []
                                  end) defs)
  end.

Definition lookup_const (consts : list (string * Z)) (name : string) : option Z :=
  snd <$> List.find (fun c => String.eqb (fst c) name) consts.

(** ** Count expressions *)

(** The value, or none (the code returns 0); or the code never ends; or signed
    arithmetic overflows, which is undefined; or there were not enough rounds. *)
Inductive CountResult := Count (v : Z) | NoCount | CountsForever | CountOverflows | CountOutOfFuel.

Definition count_of (v : option Z) : CountResult := match v with Some v => Count v | None => NoCount end.

Definition or_else (a b : CountResult) : CountResult := match a with NoCount => b | _ => a end.

Definition count_binary (op : Z -> Z -> Z) (l r : CountResult) : CountResult :=
  match l, r with
  | Count lv, Count rv => if in_llong (op lv rv) then Count (op lv rv) else CountOverflows
  | Count _, _ => r
  | _, _ => l
  end.

(** Whether a closing parenthesis in [s] matches the first one before the end. *)
Fixpoint closes_early (depth : Z) (s : string) : bool :=
  match s with
  | EmptyString => false
  | String c s' =>
      if Ascii.eqb c "(" then closes_early (depth + 1) s'
      else if Ascii.eqb c ")" then ((depth - 1 =? 0) && negb (is_empty_string s')) || closes_early (depth - 1) s'
      else closes_early depth s'
  end.

(** The text inside parentheses that wrap the whole. *)
Definition unwrapped (expr : string) : option string :=
  match expr with
  | String "(" rest =>
      let len := String.length expr in
      match drop_text (len - 1) expr with
      | String ")" EmptyString =>
          if (2 <=? len)%nat && negb (closes_early 0 (truncate (len - 1) expr)) then Some (truncate (len - 2) rest)
          else None
      | _ => None
      end
  | _ => None
  end.

(** The argument of [clog2( ... )] when that is all of the expression: [p] is
    the text after the opening parenthesis.  White space after the closing one
    makes the argument end before the last character, not before that one. *)
Fixpoint closing (depth : Z) (arg p : string) : option string :=
  match p with
  | EmptyString => None
  | String c p' =>
      if Ascii.eqb c "(" then closing (depth + 1) (arg +:+ String c EmptyString) p'
      else if Ascii.eqb c ")" then
        if depth =? 1 then
          match drop_while isspace p', p' with
          | EmptyString, EmptyString => Some arg
          | EmptyString, _ => Some (arg +:+ ")" +:+ truncate (String.length p' - 1) p')
          | _, _ => None
          end
        else closing (depth - 1) (arg +:+ String c EmptyString) p'
      else closing depth (arg +:+ String c EmptyString) p'
  end.

Definition clog2_argument (expr : string) : option string :=
  match strip_prefix "clog2" expr with
  | Some p => match drop_while isspace p with String "(" p => closing 1 "" p | _ => None end
  | None => None
  end.

(** Past the largest power of two [probe], shifted on, is never as large as
    [v]. *)
Definition clog2_value (v : Z) : CountResult :=
  if v <=? 0 then NoCount
  else if v =? 1 then Count 1
  else if 2 ^ 62 <? v then CountsForever
  else Count (Z.log2_up v).

(** The index of the last [op] outside parentheses, the first character only
    if [at_start]. *)
Fixpoint last_op (op : ascii) (at_start : bool) (depth : Z) (i : nat) (s : string) : option nat :=
  match s with
  | EmptyString => None
  | String c s' =>
      let depth' := if Ascii.eqb c "(" then depth + 1 else if Ascii.eqb c ")" then depth - 1 else depth in
      match last_op op true depth' (S i) s' with
      | Some j => Some j
      | None => if (depth =? 0) && Ascii.eqb c op && at_start then Some i else None
      end
  end.

Section Count.
Context (consts : list (string * Z)).

(** Every call is for a shorter text. *)
Fixpoint eval_count (n : nat) (expr : string) : CountResult :=
  match n with
  | O => CountOutOfFuel
  | S n =>
      let expr := drop_while isspace expr in
      let binary op f at_start :=
        match last_op op at_start 0 0 expr with
        | Some i => count_binary f (eval_count n (truncate i expr)) (eval_count n (drop_text (S i) expr))
        | None => NoCount
        end in
      if is_empty_string expr then NoCount
      else
        or_else (match unwrapped expr with Some inner => eval_count n inner | None => NoCount end)
        (or_else (count_of (parse_int_str expr))
        (or_else (count_of (lookup_const consts expr))
        (or_else (count_of (match strip_prefix "CONFIG." expr with Some name => lookup_const consts name | None => None end))
        (or_else (match clog2_argument expr with
                  | Some arg => match eval_count n arg with Count v => clog2_value v | r => r end
                  | None => NoCount
                  end)
        (or_else (binary "+"%char Z.add true)
        (or_else (binary "-"%char Z.sub false)
                 (binary "*"%char Z.mul true)))))))
  end.

Definition eval_count_expr (expr : string) : CountResult := eval_count (S (String.length expr)) expr.
End Count.

Definition template_width_expr_needs_apply_context (expr : string) (params : list string) : bool :=
  contains "widthof(" expr || contains "clog2(" expr || contains "IDX" expr ||
  existsb (fun name => negb (is_empty_string name) && word_from name None O expr) params.

(** ** Substitution *)

(** [%d]. *)
Definition print_int (v : Z) : string := if v <? 0 then "-" +:+ print_decimal (- v) else print_decimal v.

Record Subst := mkSubst {
  sub_params : list (string * JZASTNode);
  sub_idx : option Z;
  sub_template : string;
  sub_callsite : Z;
  sub_iteration : Z;
  sub_scratch : list (string * string)
}.

(** A scratch wire of an iteration, in a buffer of 512 characters. *)
Definition mangled (template scratch : string) (callsite : Z) (iteration : Z) (suffix : string) : string :=
  truncate 511 (template +:+ "__" +:+ scratch +:+ "__" +:+ print_int callsite +:+ "_" +:+ print_int iteration +:+ "_" +:+ suffix).

Definition arg_text (arg : JZASTNode) : string :=
  match ast_name arg with
  | Some name => name
  | None => default "0"%string (ast_text arg)
  end.

Section Substitute.
Context (sub : Subst).

(** One parameter after the other, then [IDX]. *)
Definition substitute_text (s : string) : string :=
  let s := fold_left (fun s p => string_replace_whole_word s (fst p) (arg_text (snd p))) (sub_params sub) s in
  match sub_idx sub with Some i => string_replace_whole_word s "IDX" (print_int i) | None => s end.

Definition find_param (name : string) : option JZASTNode :=
  snd <$> List.find (fun p => String.eqb name (fst p)) (sub_params sub).

Definition find_scratch (name : string) : option string :=
  (fun s => mangled (sub_template sub) (fst s) (sub_callsite sub) (i32 (sub_iteration sub)) (snd s)) <$>
  List.find (fun s => String.eqb name (fst s)) (sub_scratch sub).

(** The first parameter [p] for which [name] is [p.field], with the field. *)
Definition find_qualified (name : string) : option (JZASTNode * string) :=
  match List.find (fun p => match strip_prefix (fst p) name with Some (String "." _) => true | _ => false end) (sub_params sub) with
  | Some (p, arg) => match strip_prefix p name with Some (String _ field) => Some (arg, field) | _ => None end
  | None => None
  end.

(** What an access of a parameter's member becomes. *)
Inductive Qualified := Renamed (name : string) | Access (ty : JZASTNodeType) (name : string) (children : list JZASTNode) | Same.

Definition qualify (arg : JZASTNode) (field : string) : Qualified :=
  match arg with
  | mkNode JZ_AST_EXPR_IDENTIFIER _ (Some name) _ _ _ _ => Renamed (name +:+ "." +:+ field)
  | mkNode JZ_AST_EXPR_SLICE _ _ _ _ _ (mkNode JZ_AST_EXPR_IDENTIFIER _ (Some name) _ _ _ _ :: msb :: _) =>
      Access JZ_AST_EXPR_BUS_ACCESS name [msb]
  | mkNode ((JZ_AST_EXPR_BUS_ACCESS | JZ_AST_EXPR_INDEXED_MEMBER_ACCESS | JZ_AST_EXPR_INSTANCE_PORT_ACCESS) as ty) _ (Some name) _ _ _ cs =>
      Access ty name cs
  | _ => Same
  end.

Definition is_access (ty : JZASTNodeType) : bool :=
  bool_decide (ty ∈ [JZ_AST_EXPR_BUS_ACCESS; JZ_AST_EXPR_INDEXED_MEMBER_ACCESS; JZ_AST_EXPR_INSTANCE_PORT_ACCESS]).

(** The new name of a node that is not replaced. *)
Definition rename (ty : JZASTNodeType) (name : option string) : option string :=
  match name with
  | None => None
  | Some n =>
      if is_access ty then
        match List.find (fun p => String.eqb n (fst p) && bool_decide (is_Some (ast_name (snd p)))) (sub_params sub) with
        | Some (_, arg) => ast_name arg
        | None => name
        end
      else if bool_decide (ty ∈ [JZ_AST_EXPR_IDENTIFIER; JZ_AST_EXPR_QUALIFIED_IDENTIFIER]) then name
      else match find_scratch n with Some m => Some m | None => name end
  end.

(** The node, with the places where the depth counter refuses. *)
Fixpoint substitute_in_node (levels : nat) (node : JZASTNode) : JZASTNode * list JZLocation :=
  match levels with
  | O => (node, [ast_loc node])
  | S levels =>
      match node with
      | mkNode ty loc name bk text width cs =>
          let width := substitute_text <$> width in
          let text := if bool_decide (ty = JZ_AST_TEMPLATE_APPLY) then text else substitute_text <$> text in
          let inside ty name text cs :=
            let results := map (substitute_in_node levels) cs in
            (mkNode ty loc name bk text width (map fst results), concat (map snd results)) in
          match ty, name with
          | JZ_AST_EXPR_IDENTIFIER, Some n =>
              match (if String.eqb n "IDX" then sub_idx sub else None) with
              | Some i => (mkNode JZ_AST_EXPR_LITERAL loc None bk (Some (print_int i)) width cs, [])
              | None =>
                  match find_param n with
                  | Some arg =>
                      (mkNode (ast_type arg) loc (ast_name arg) (ast_block_kind arg) (ast_text arg) (ast_width arg)
                         (ast_children arg), [])
                  | None =>
                      match find_scratch n with
                      | Some m => (mkNode ty loc (Some m) bk text width cs, [])
                      | None => inside ty name text cs
                      end
                  end
              end
          | JZ_AST_EXPR_QUALIFIED_IDENTIFIER, Some n =>
              match find_qualified n with
              | Some (arg, field) =>
                  match qualify arg field with
                  | Renamed m => (mkNode ty loc (Some m) bk text width cs, [])
                  | Access ty m cs => inside ty (Some m) (Some (truncate 255 field)) cs
                  | Same => (mkNode ty loc name bk text width cs, [])
                  end
              | None => inside ty name text cs
              end
          | _, _ => inside ty (rename ty name) text cs
          end
      end
  end.
End Substitute.

(** ** The registry *)

(** The scope of a file-scoped template is [None]; modules do not nest, so a
    module is known by its place among the children of the root. *)
Record TemplateEntry := mkTemplate { def_node : JZASTNode; scope_module : option nat }.

Record ApplyLimits := mkApplyLimits { apply_max_count : Z; apply_max_growth : Z }.

Inductive TemplateRule :=
  | TEMPLATE_EXPANSION_DEPTH_LIMIT_EXCEEDED | TEMPLATE_DUP_NAME | TEMPLATE_DUP_PARAM
  | TEMPLATE_SCRATCH_SHADOW | TEMPLATE_SCRATCH_WIDTH_INVALID | TEMPLATE_RESET_LOGIC_FORBIDDEN
  | TEMPLATE_EXTERNAL_REF | TEMPLATE_UNDEFINED | TEMPLATE_ARG_COUNT_MISMATCH
  | TEMPLATE_COUNT_NOT_NONNEG_INT | TEMPLATE_APPLY_COUNT_LIMIT_EXCEEDED
  | TEMPLATE_EXPANSION_GROWTH_LIMIT_EXCEEDED.

Record TemplateReport := mkTemplateReport { tr_rule : TemplateRule; tr_loc : JZLocation }.

(** [depth_failed] and [depth_reported] are the static variables; [rand_calls]
    counts the calls of [rand]. *)
Record ExpandContext := mkExpand {
  templates : list TemplateEntry;
  consts : list (string * Z);
  limits : ApplyLimits;
  scratch_wires : list JZASTNode;
  apply_counter : Z;
  total_growth : Z;
  rand_calls : nat;
  depth_failed : bool;
  depth_reported : bool;
  reports : list TemplateReport
}.

(** [Endless] where the code never ends. *)
Inductive TemplateOutcome (A : Type) := Expanded (a : A) (c : ExpandContext) | Undefined | Endless | OutOfFuel.
Arguments Expanded {A}. Arguments Undefined {A}. Arguments Endless {A}. Arguments OutOfFuel {A}.

Definition XM (A : Type) : Type := ExpandContext -> TemplateOutcome A.

#[export] Instance XM_ret : MRet XM := fun A a c => Expanded a c.
#[export] Instance XM_bind : MBind XM := fun A B f m c =>
  match m c with Expanded a c => f a c | Undefined => Undefined | Endless => Endless | OutOfFuel => OutOfFuel end.

Definition get {A} (f : ExpandContext -> A) : XM A := fun c => Expanded (f c) c.

Definition undefined {A} : XM A := fun _ => Undefined.
Definition endless {A} : XM A := fun _ => Endless.
Definition out_of_fuel {A} : XM A := fun _ => OutOfFuel.

Definition evaluate_count (expr : string) : XM (option Z) :=
  cs ← get consts;
  match eval_count_expr cs expr with
  | Count v => mret (Some v)
  | NoCount => mret None
  | CountsForever => endless
  | CountOverflows => undefined
  | CountOutOfFuel => out_of_fuel
  end.

Definition report_rules (rs : list TemplateReport) : XM unit := fun c =>
  Expanded () (mkExpand (templates c) (consts c) (limits c) (scratch_wires c) (apply_counter c) (total_growth c)
                 (rand_calls c) (depth_failed c) (depth_reported c) (reports c ++ rs)).

Definition report_rule (loc : JZLocation) (rule : TemplateRule) : XM unit := report_rules [mkTemplateReport rule loc].

(** The refusals of the depth counter: the first is reported. *)
Definition refuse_depth (places : list JZLocation) : XM unit := fun c =>
  match places with
  | [] => Expanded () c
  | loc :: _ =>
      Expanded () (mkExpand (templates c) (consts c) (limits c) (scratch_wires c) (apply_counter c) (total_growth c)
                     (rand_calls c) true true
                     (reports c ++ if depth_reported c then []
                                   else [mkTemplateReport TEMPLATE_EXPANSION_DEPTH_LIMIT_EXCEEDED loc]))
  end.

Definition add_template (t : TemplateEntry) : XM unit := fun c =>
  Expanded () (mkExpand (templates c ++ [t]) (consts c) (limits c) (scratch_wires c) (apply_counter c) (total_growth c)
                 (rand_calls c) (depth_failed c) (depth_reported c) (reports c)).

Definition with_children (n : JZASTNode) (cs : list JZASTNode) : JZASTNode :=
  mkNode (ast_type n) (ast_loc n) (ast_name n) (ast_block_kind n) (ast_text n) (ast_width n) cs.

#[export] Instance JZLocation_eq_dec : EqDecision JZLocation.
Proof. solve_decision. Defined.

(** An entry points to its definition, which the expansion of a module changes
    in place; a definition is known by module, name and location. *)
Definition is_definition (scope : nat) (def : JZASTNode) (t : TemplateEntry) : bool :=
  bool_decide (scope_module t = Some scope) && bool_decide (ast_name (def_node t) = ast_name def) &&
  bool_decide (ast_loc (def_node t) = ast_loc def).

Definition update_definition (scope : nat) (def : JZASTNode) : XM unit := fun c =>
  Expanded () (mkExpand (map (fun t => if is_definition scope def t then mkTemplate def (scope_module t) else t) (templates c))
                 (consts c) (limits c) (scratch_wires c) (apply_counter c) (total_growth c)
                 (rand_calls c) (depth_failed c) (depth_reported c) (reports c)).

Definition set_scratch_wires (ws : list JZASTNode) : XM unit := fun c =>
  Expanded () (mkExpand (templates c) (consts c) (limits c) ws (apply_counter c) (total_growth c)
                 (rand_calls c) (depth_failed c) (depth_reported c) (reports c)).

Definition add_growth (g : Z) : XM unit := fun c =>
  Expanded () (mkExpand (templates c) (consts c) (limits c) (scratch_wires c) (apply_counter c) (total_growth c + g)
                 (rand_calls c) (depth_failed c) (depth_reported c) (reports c)).

(** [ctx->apply_counter++]. *)
Definition next_callsite : XM Z := fun c =>
  Expanded (apply_counter c)
    (mkExpand (templates c) (consts c) (limits c) (scratch_wires c) (apply_counter c + 1) (total_growth c)
       (rand_calls c) (depth_failed c) (depth_reported c) (reports c)).

(** ** Rules on definitions *)

Definition is_param (n : JZASTNode) : bool := node_is JZ_AST_TEMPLATE_PARAM n.
Definition is_scratch (n : JZASTNode) : bool := node_is JZ_AST_SCRATCH_DECL n.

Definition node_name (n : JZASTNode) : string := default ""%string (ast_name n).

(** What follows the last parameter, or the last with a name. *)
Fixpoint after_last (f : JZASTNode -> bool) (cs : list JZASTNode) : list JZASTNode :=
  match cs with
  | [] => []
  | c :: cs => if existsb f cs then after_last f cs else if f c then cs else c :: cs
  end.

Definition named (n : JZASTNode) : bool := bool_decide (is_Some (ast_name n)).

(** At most 64 of them. *)
Definition reg_params (def : JZASTNode) : list string :=
  take 64 (map node_name (List.filter (fun c => is_param c && named c) (ast_children def))).

Definition reg_scratches (body : list JZASTNode) : list JZASTNode := List.filter (fun c => is_scratch c && named c) body.

Definition scratch_names (body : list JZASTNode) : list string := take 64 (map node_name (reg_scratches body)).

(** A report for each pair of equal parameters. *)
Fixpoint duplicate_params (cs : list JZASTNode) : list TemplateReport :=
  match cs with
  | [] => []
  | c :: cs =>
      flat_map (fun d => if is_param c && is_param d && named c && named d && String.eqb (node_name c) (node_name d)
                         then [mkTemplateReport TEMPLATE_DUP_PARAM (ast_loc d)] else []) cs ++
      duplicate_params cs
  end.

Fixpoint shadowing_scratches (params earlier : list string) (ss : list JZASTNode) : list TemplateReport :=
  match ss with
  | [] => []
  | s :: ss =>
      let shadow := mkTemplateReport TEMPLATE_SCRATCH_SHADOW (ast_loc s) in
      (if existsb (String.eqb (node_name s)) params then [shadow] else []) ++
      (if existsb (String.eqb (node_name s)) earlier then [shadow] else []) ++
      shadowing_scratches params (earlier ++ [node_name s]) ss
  end.

Definition scratch_width_reports (params : list string) (s : JZASTNode) : XM (list TemplateReport) :=
  match ast_width s with
  | Some w =>
      let invalid := [mkTemplateReport TEMPLATE_SCRATCH_WIDTH_INVALID (ast_loc s)] in
      if existsb (String.eqb w) params then mret invalid
      else
        value ← evaluate_count w;
        match value with
        | None => mret (if template_width_expr_needs_apply_context w params then [] else invalid)
        | Some v => mret (if v <=? 0 then invalid else [])
        end
  | None => mret []
  end.

Fixpoint all_reports {A} (f : A -> XM (list TemplateReport)) (l : list A) : XM (list TemplateReport) :=
  match l with
  | [] => mret []
  | x :: l => r ← f x; rs ← all_reports f l; mret (r ++ rs)
  end.

Definition same_text (a b : option string) : bool := bool_decide (a = b).

(** Equal but for their locations. *)
Fixpoint ast_nodes_equal (a b : JZASTNode) : bool :=
  match a, b with
  | mkNode ty _ name bk text width cs, mkNode ty' _ name' bk' text' width' cs' =>
      bool_decide (ty = ty') && same_text name name' && same_text bk bk' && same_text text text' && same_text width width' &&
      (fix go cs cs' :=
         match cs, cs' with
         | [], [] => true
         | c :: cs, c' :: cs' => ast_nodes_equal c c' && go cs cs'
         | _, _ => false
         end) cs cs'
  end.

Fixpoint expr_is_literal_like (e : JZASTNode) : bool :=
  match e with
  | mkNode (JZ_AST_EXPR_LITERAL | JZ_AST_EXPR_SPECIAL_DRIVER) _ _ _ _ _ _ => true
  | mkNode JZ_AST_EXPR_CONCAT _ _ _ _ _ ((_ :: _) as cs) => forallb expr_is_literal_like cs
  | _ => false
  end.

Section Idents.
Context (cs : list (string * Z)) (params scratches : list string).

Definition is_allowed_template_ident (has_idx : bool) (name : string) : bool :=
  has_idx && String.eqb name "IDX" || existsb (String.eqb name) params || existsb (String.eqb name) scratches ||
  bool_decide (is_Some (lookup_const cs name)).

(** The name a node refers to, of those that are checked. *)
Definition checked_name (n : JZASTNode) : option string :=
  if node_is JZ_AST_EXPR_IDENTIFIER n || is_access (ast_type n) then ast_name n else None.

Fixpoint refs_only_allowed (n : JZASTNode) : bool :=
  match n with
  | mkNode _ _ _ _ _ _ children =>
      match checked_name n with Some name => is_allowed_template_ident true name | None => true end &&
      forallb refs_only_allowed children
  end.

Fixpoint validate_template_body_refs (has_idx : bool) (n : JZASTNode) : list TemplateReport :=
  match n with
  | mkNode ty loc _ _ _ _ children =>
      if bool_decide (ty ∈ [JZ_AST_SCRATCH_DECL; JZ_AST_TEMPLATE_PARAM]) then []
      else
        match checked_name n with
        | Some name => if is_allowed_template_ident has_idx name then [] else [mkTemplateReport TEMPLATE_EXTERNAL_REF loc]
        | None => []
        end ++ flat_map (validate_template_body_refs has_idx) children
  end.

Definition branch_cond (b : JZASTNode) : list JZASTNode :=
  match ast_type b with JZ_AST_STMT_IF | JZ_AST_STMT_ELIF => take 1 (ast_children b) | _ => [] end.

Definition branch_stmts (b : JZASTNode) : list JZASTNode :=
  match ast_type b with JZ_AST_STMT_IF | JZ_AST_STMT_ELIF => tail (ast_children b) | _ => ast_children b end.

(** Two branches assign the same left-hand side, one of them a literal. *)
Definition differing (a b : JZASTNode) : bool :=
  match a, b with
  | mkNode JZ_AST_STMT_ASSIGN _ _ _ _ _ (la :: ra :: _), mkNode JZ_AST_STMT_ASSIGN _ _ _ _ _ (lb :: rb :: _) =>
      ast_nodes_equal la lb && xorb (expr_is_literal_like ra) (expr_is_literal_like rb)
  | _, _ => false
  end.

Fixpoint differing_branches (chain : list JZASTNode) : bool :=
  match chain with
  | [] => false
  | b :: chain =>
      existsb (fun s => existsb (fun b' => existsb (differing s) (branch_stmts b')) chain) (branch_stmts b) ||
      differing_branches chain
  end.

Definition if_chain_has_reset_style_logic (chain : list JZASTNode) : bool :=
  forallb refs_only_allowed (flat_map branch_cond chain) && differing_branches chain.

(** The branches that follow an IF; unlike elsewhere, an ELSE does not end them. *)
Fixpoint more_branches (stmts : list JZASTNode) : list JZASTNode :=
  match stmts with
  | s :: rest => if node_is JZ_AST_STMT_ELIF s || node_is JZ_AST_STMT_ELSE s then s :: more_branches rest else []
  | [] => []
  end.

(** Every child is visited once: as a part of a chain, or on its own. *)
Fixpoint reset_logic_reports (n : JZASTNode) : list TemplateReport :=
  match n with
  | mkNode _ _ _ _ _ _ children =>
      (fix go cs :=
         match cs with
         | [] => []
         | c :: cs =>
             (if node_is JZ_AST_STMT_IF c && if_chain_has_reset_style_logic (c :: more_branches cs)
              then [mkTemplateReport TEMPLATE_RESET_LOGIC_FORBIDDEN (ast_loc c)] else []) ++
             reset_logic_reports c ++ go cs
         end) children
  end.
End Idents.

Definition register_template (def : JZASTNode) (scope : option nat) : XM unit :=
  ts ← get templates;
  if existsb (fun t => bool_decide (scope_module t = scope) && named (def_node t) && named def &&
                       String.eqb (node_name (def_node t)) (node_name def)) ts
  then report_rule (ast_loc def) TEMPLATE_DUP_NAME
  else
    cs ← get consts;
    let params := reg_params def in
    let body := after_last (fun c => is_param c && named c) (ast_children def) in
    widths ← all_reports (scratch_width_reports params) (List.filter is_scratch (ast_children def));
    _ ← report_rules (duplicate_params (ast_children def) ++ shadowing_scratches params [] (reg_scratches body) ++ widths ++
                      reset_logic_reports cs params (scratch_names body) def);
    add_template (mkTemplate def scope).

Definition template_named (name : string) (t : TemplateEntry) : bool := field_is name (ast_name (def_node t)).

(** The one of the module, or else the last of the file. *)
Definition find_template (ts : list TemplateEntry) (name : string) (scope : nat) : option TemplateEntry :=
  match List.find (fun t => template_named name t && bool_decide (scope_module t = Some scope)) ts with
  | Some t => Some t
  | None => List.find (fun t => template_named name t && bool_decide (scope_module t = None)) (rev ts)
  end.

(** The templates below a node, and the refusals of the depth counter. *)
Fixpoint collect_templates (levels : nat) (scope : option nat) (node : JZASTNode) : XM unit :=
  match levels with
  | O => refuse_depth [ast_loc node]
  | S levels =>
      if node_is JZ_AST_TEMPLATE_DEF node then register_template node scope
      else fold_left (fun m c => _ ← m; collect_templates levels scope c) (ast_children node) (mret ())
  end.

(** ** Application *)

Definition is_module_scope_identifier_decl (ty : JZASTNodeType) : bool :=
  bool_decide (ty ∈ [JZ_AST_CONST_DECL; JZ_AST_PORT_DECL; JZ_AST_WIRE_DECL; JZ_AST_REGISTER_DECL; JZ_AST_LATCH_DECL;
                     JZ_AST_MEM_DECL; JZ_AST_MUX_DECL; JZ_AST_BUS_DECL; JZ_AST_CDC_DECL; JZ_AST_INSTANTIATION;
                     JZ_AST_MODULE_INSTANCE]).

Fixpoint module_scope_has_identifier_named (name : string) (node : JZASTNode) : bool :=
  match node with
  | mkNode ty _ n _ _ _ cs =>
      is_module_scope_identifier_decl ty && field_is name n || existsb (module_scope_has_identifier_named name) cs
  end.

(** The limit of the depth counter, for the whole pass. *)
Definition TEMPLATE_LEVELS : nat := Z.to_nat (jz_input_limit_value JZ_LIMIT_TEMPLATE_EXPAND_DEPTH).

Section Expand.
Context (rand : nat -> Z).

Definition suffix_chars : string := "abcdefghijklmnopqrstuvwxyzABCDEFGHIJKLMNOPQRSTUVWXYZ0123456789".

Fixpoint random_chars (n : nat) (call : nat) : string :=
  match n with
  | O => EmptyString
  | S n =>
      match String.get (Z.to_nat (rand call mod 62)) suffix_chars with
      | Some c => String c (random_chars n (S call))
      | None => EmptyString
      end
  end.

Definition generate_random_suffix : XM string := fun c =>
  Expanded (random_chars 6 (rand_calls c))
    (mkExpand (templates c) (consts c) (limits c) (scratch_wires c) (apply_counter c) (total_growth c)
       (rand_calls c + 6) (depth_failed c) (depth_reported c) (reports c)).

Fixpoint suffixes (names : list string) : XM (list (string * string)) :=
  match names with
  | [] => mret []
  | n :: names => s ← generate_random_suffix; rest ← suffixes names; mret ((n, s) :: rest)
  end.

(** What an application works with: the template, the body and the arguments. *)
Record Application := mkApplication {
  ap_template : string;
  ap_body : list JZASTNode;
  ap_params : list (string * JZASTNode);
  ap_has_idx : bool;
  ap_callsite : Z
}.

(** The substitution of an iteration; the index is an [int] in the body and a
    [long] in widths of scratch wires. *)
Definition iteration_subst (ap : Application) (i : Z) (scratch : list (string * string)) : Subst :=
  mkSubst (ap_params ap) (if ap_has_idx ap then Some i else None) (ap_template ap) (ap_callsite ap) i scratch.

Definition scratch_wire (ap : Application) (i : Z) (scratch : string * string) : list JZASTNode :=
  match List.find (fun c => is_scratch c && field_is (fst scratch) (ast_name c)) (ap_body ap) with
  | Some def =>
      [mkNode JZ_AST_WIRE_DECL (ast_loc def)
         (Some (mangled (ap_template ap) (fst scratch) (ap_callsite ap) i (snd scratch))) None None
         (substitute_text (iteration_subst ap i []) <$> ast_width def) []]
  | None => []
  end.

(** The statements of a body. *)
Definition body_stmts (body : list JZASTNode) : list JZASTNode :=
  List.filter (fun c => negb (is_scratch c) && negb (is_param c)) body.

(** Those the growth counts: a scratch wire without a name is one. *)
Definition counted_stmts (body : list JZASTNode) : list JZASTNode :=
  List.filter (fun c => negb (is_scratch c && named c) && negb (is_param c)) body.

(** The copies of the statements of a body, until the depth counter has refused. *)
Fixpoint clone_body (levels : nat) (sub : Subst) (stmts : list JZASTNode) : XM (option (list JZASTNode)) :=
  match stmts with
  | [] => mret (Some [])
  | s :: stmts =>
      let '(clone, refused) := substitute_in_node sub levels s in
      _ ← refuse_depth refused;
      failed ← get depth_failed;
      if failed : bool then mret None
      else rest ← clone_body levels sub stmts; mret (cons clone <$> rest)
  end.

Fixpoint iterate (levels : nat) (ap : Application) (n : nat) (i : Z) : XM (option (list JZASTNode)) :=
  match n with
  | O => mret (Some [])
  | S n =>
      scratch ← suffixes (scratch_names (ap_body ap));
      ws ← get scratch_wires;
      _ ← set_scratch_wires (ws ++ flat_map (scratch_wire ap i) scratch);
      copy ← clone_body levels (iteration_subst ap (i32 i) scratch) (body_stmts (ap_body ap));
      match copy with
      | None => mret None
      | Some copy => rest ← iterate levels ap n (i + 1); mret (app copy <$> rest)
      end
  end.

(** The statements that replace an application; [None] where the code returns
    -1.  [module] is the module as it was: bodies have no declarations. *)
Definition expand_apply (levels : nat) (scope : nat) (module apply : JZASTNode) : XM (option (list JZASTNode)) :=
  match ast_name apply with
  | None => mret None
  | Some name =>
      let remove rule := _ ← report_rule (ast_loc apply) rule; mret (Some []) in
      ts ← get templates;
      match find_template ts name scope with
      | None => remove TEMPLATE_UNDEFINED
      | Some t =>
          let def := def_node t in
          let body := after_last is_param (ast_children def) in
          let params := map node_name (List.filter is_param (ast_children def)) in
          let args := ast_children apply in
          _ ← report_rules (flat_map (fun s => if module_scope_has_identifier_named (node_name s) module
                                               then [mkTemplateReport TEMPLATE_SCRATCH_SHADOW (ast_loc apply)] else [])
                              (reg_scratches body));
          if negb (length args =? length params)%nat then remove TEMPLATE_ARG_COUNT_MISMATCH
          else if (64 <? length params)%nat then undefined
          else
            cs ← get consts;
            lim ← get limits;
            count ← (match ast_text apply with Some text => evaluate_count text | None => mret (Some 1) end);
            match count with
            | None => remove TEMPLATE_COUNT_NOT_NONNEG_INT
            | Some count =>
                if count <? 0 then remove TEMPLATE_COUNT_NOT_NONNEG_INT
                else if apply_max_count lim <? count then remove TEMPLATE_APPLY_COUNT_LIMIT_EXCEEDED
                else
                  let names := scratch_names body in
                  let growth := Z.min SIZE_MAX (count * Z.of_nat (length names + length (counted_stmts body))) in
                  total ← get total_growth;
                  if (0 <? count) && ((apply_max_growth lim <? growth) || (apply_max_growth lim - growth <? total))
                  then remove TEMPLATE_EXPANSION_GROWTH_LIMIT_EXCEEDED
                  else
                    let has_idx := bool_decide (is_Some (ast_text apply)) in
                    _ ← add_growth growth;
                    _ ← report_rules (flat_map (validate_template_body_refs cs params names has_idx) (body_stmts body));
                    callsite ← next_callsite;
                    iterate levels (mkApplication (node_name def) body (combine params args) has_idx callsite)
                      (Z.to_nat count) 0
            end
      end
  end.

(** The children of a node, from some child on; [done] are those before.  After
    an application the code looks again at the same place, unless the number of
    children is the same.  [live] makes the changed children visible. *)
Fixpoint expand_children (expand : (list JZASTNode -> XM unit) -> JZASTNode -> XM (JZASTNode * bool))
    (apply : JZASTNode -> XM (option (list JZASTNode))) (live : list JZASTNode -> XM unit)
    (n : nat) (done cs : list JZASTNode) : XM (list JZASTNode * bool) :=
  match cs with
  | [] => mret ([], true)
  | c :: rest =>
      match n with
      | O => out_of_fuel
      | S n =>
          if node_is JZ_AST_TEMPLATE_APPLY c then
            stmts ← apply c;
            match stmts with
            | None => mret (c :: rest, false)
            | Some stmts =>
                _ ← live (done ++ stmts ++ rest);
                match stmts with
                | [s] =>
                    '(rest, ok) ← expand_children expand apply live n (done ++ [s]) rest;
                    mret (s :: rest, ok)
                | _ => expand_children expand apply live n done (stmts ++ rest)
                end
            end
          else
            '(c, ok) ← expand (fun cs => live (done ++ with_children c cs :: rest)) c;
            if ok : bool then
              '(rest, ok) ← expand_children expand apply live n (done ++ [c]) rest;
              mret (c :: rest, ok)
            else mret (c :: rest, false)
      end
  end.

(** A round per child that there is and that the growth still allowed adds. *)
Definition children_fuel (cs : list JZASTNode) : XM nat :=
  lim ← get limits;
  total ← get total_growth;
  mret (length cs + Z.to_nat (apply_max_growth lim - total))%nat.

Fixpoint expand_applies_in_node (levels : nat) (scope : nat) (module : JZASTNode) (live : list JZASTNode -> XM unit)
    (node : JZASTNode) : XM (JZASTNode * bool) :=
  match levels with
  | O => _ ← refuse_depth [ast_loc node]; mret (node, false)
  | S levels =>
      let live cs :=
        _ ← live cs;
        if node_is JZ_AST_TEMPLATE_DEF node then update_definition scope (with_children node cs) else mret () in
      n ← children_fuel (ast_children node);
      '(cs, ok) ← expand_children (expand_applies_in_node levels scope module) (expand_apply levels scope module) live n []
                    (ast_children node);
      mret (with_children node cs, ok)
  end.

(** ** The pass *)

Fixpoint remove_template_defs (levels : nat) (node : JZASTNode) : JZASTNode * list JZLocation :=
  match levels with
  | O => (node, [ast_loc node])
  | S levels =>
      match node with
      | mkNode ty loc name bk text width cs =>
          let results := map (remove_template_defs levels) (List.filter (fun c => negb (node_is JZ_AST_TEMPLATE_DEF c)) cs) in
          (mkNode ty loc name bk text width (map fst results), concat (map snd results))
      end
  end.

(** Into the first WIRE block, or a new one at the end. *)
Fixpoint insert_wires (loc : JZLocation) (wires cs : list JZASTNode) : list JZASTNode :=
  match cs with
  | [] => [mkNode JZ_AST_WIRE_BLOCK loc None (Some "WIRE"%string) None None wires]
  | c :: cs =>
      if node_is JZ_AST_WIRE_BLOCK c then with_children c (ast_children c ++ wires) :: cs
      else c :: insert_wires loc wires cs
  end.

Definition insert_scratch_wires (module : JZASTNode) (wires : list JZASTNode) : JZASTNode :=
  match wires with
  | [] => module
  | _ => with_children module (insert_wires (ast_loc module) wires (ast_children module))
  end.

Definition expand_module (i : nat) (module : JZASTNode) : XM JZASTNode :=
  _ ← set_scratch_wires [];
  '(module, _) ← expand_applies_in_node TEMPLATE_LEVELS i module (fun _ => mret ()) module;
  ws ← get scratch_wires;
  mret (insert_scratch_wires module ws).

Fixpoint expand_modules (i : nat) (cs : list JZASTNode) : XM (list JZASTNode) :=
  match cs with
  | [] => mret []
  | c :: cs =>
      c ← (if node_is JZ_AST_MODULE c then expand_module i c else mret c);
      cs ← expand_modules (S i) cs;
      mret (c :: cs)
  end.

(** [collect_templates] from the root, which is a level of its own. *)
Definition collect_root (root : JZASTNode) : XM unit :=
  let collect scope := collect_templates (pred TEMPLATE_LEVELS) scope in
  if node_is JZ_AST_TEMPLATE_DEF root then register_template root None
  else each_child (fun i c m => _ ← m; collect (if node_is JZ_AST_MODULE c then Some i else None) c) 0
         (ast_children root) (mret ()).

Definition initial (lim : ApplyLimits) (cs : list (string * Z)) : ExpandContext :=
  mkExpand [] cs lim [] 0 0 0 false false [].

Definition jz_template_expand (root : JZASTNode) (lim : ApplyLimits) : TemplateOutcome JZASTNode :=
  let '(defs, refused) := gather_const_defs TEMPLATE_LEVELS root in
  match collect_consts defs with
  | TableUndefined => Undefined
  | TableOutOfFuel => OutOfFuel
  | Table cs =>
      (_ ← refuse_depth refused;
       _ ← collect_root root;
       cs ← expand_modules 0 (ast_children root);
       let '(root, refused) := remove_template_defs TEMPLATE_LEVELS (with_children root cs) in
       _ ← refuse_depth refused;
       mret root) (initial lim cs)
  end.
End Expand.
