(* ===== verification/TemplateSpec.v ===== *)
(** * What template expansion promises

    The pass ends, within the growth it allows; the scratch wires of a module
    have names of their own; substitution is simultaneous and changes nothing
    else, as long as names do not clash.  The end shows where it departs from
    its description. *)

From stdpp Require Import sets.
From S2P Require Import Prelude CString Digits Util Ast ConstEval ConstEvalTotal Repeat Template.

Local Open Scope Z_scope.

(** ** Count expressions *)

Lemma drop_while_short f s : (String.length (drop_while f s) <= String.length s)%nat.
Proof. induction s as [|c s IH]; cbn; [done|]. destruct (f c); cbn; lia. Qed.

Lemma truncate_bound n s : (String.length (truncate n s) <= n)%nat.
Proof. revert s. induction n as [|n IH]; intros [|c s]; cbn; [lia..|]. specialize (IH s). lia. Qed.

Lemma drop_text_short n s : String.length (drop_text n s) = (String.length s - n)%nat.
Proof. revert s. induction n as [|n IH]; intros [|c s]; cbn; [done..|]. apply IH. Qed.

Lemma last_op_index op at_start depth i s j : last_op op at_start depth i s = Some j -> (i <= j < i + String.length s)%nat.
Proof.
  revert at_start depth i. induction s as [|c s IH]; intros at_start depth i; [done|]. cbn [last_op String.length].
  destruct (last_op _ _ _ (S i) s) as [k|] eqn:E; [intros [= <-]; apply IH in E; lia|]. destruct (_ && _); [|done]. intros [= <-]. lia.
Qed.

Lemma unwrapped_text s inner : unwrapped s = Some inner -> exists r, s = String "(" r /\ inner = truncate (String.length s - 2) r.
Proof.
  unfold unwrapped. intros H. destruct s as [|[[] [] [] [] [] [] [] []] r]; try discriminate H.
  destruct (drop_text _ _) as [|[[] [] [] [] [] [] [] []] [|? ?]]; try discriminate H.
  destruct (_ && _); [|discriminate H]. injection H as <-. by exists r.
Qed.

Lemma unwrapped_short s inner : unwrapped s = Some inner -> (String.length inner < String.length s)%nat.
Proof.
  intros (r & -> & ->)%unwrapped_text.
  pose proof (truncate_bound (String.length (String "(" r) - 2) r). cbn [String.length] in *. lia.
Qed.

Lemma closing_short p : forall depth arg r, closing depth arg p = Some r ->
  (String.length r < String.length arg + String.length p)%nat.
Proof.
  assert (forall (a : string) (c : ascii), String.length (a ++ String c EmptyString) = S (String.length a)) as Happ.
  { intros a c. rewrite length_append. cbn. lia. }
  induction p as [|c p IH]; intros depth arg r; [done|]. cbn [closing String.length].
  destruct (Ascii.eqb c "("); [intros H%IH; rewrite Happ in H; lia|]. destruct (Ascii.eqb c ")").
  - destruct (depth =? 1); [|intros H%IH; rewrite Happ in H; lia].
    destruct (drop_while isspace p) as [|? ?]; [|done]. destruct p as [|d p]; [intros [= <-]; lia|].
    pose proof (truncate_bound (String.length (String d p) - 1) (String d p)) as Hb.
    generalize dependent (truncate (String.length (String d p) - 1) (String d p)). intros q Hb E. injection E as <-.
    rewrite length_append, append_cons. cbn [String.length] in *. change ("" ++ q)%string with q. lia.
  - intros H%IH. rewrite Happ in H. lia.
Qed.

Lemma clog2_argument_short s arg : clog2_argument s = Some arg -> (String.length arg < String.length s)%nat.
Proof.
  unfold clog2_argument. destruct (strip_prefix "clog2" s) as [p|] eqn:E; [|done]. apply strip_prefix_spec in E as ->.
  pose proof (drop_while_short isspace p). intros H'.
  destruct (drop_while isspace p) as [|[[] [] [] [] [] [] [] []] q]; try discriminate H'.
  apply closing_short in H'. rewrite length_append. cbn [String.length] in *. lia.
Qed.

(** The rounds suffice: every call is for a shorter text. *)
Lemma eval_count_rounds consts n : forall e, (String.length e < n)%nat -> eval_count consts n e <> CountOutOfFuel.
Proof.
  assert (forall a b, a <> CountOutOfFuel -> b <> CountOutOfFuel -> or_else a b <> CountOutOfFuel) as Hor by (by intros []).
  assert (forall f a b, a <> CountOutOfFuel -> b <> CountOutOfFuel -> count_binary f a b <> CountOutOfFuel) as Hbin.
  { intros f [] []; try done. cbn. by destruct (in_llong _). }
  assert (forall v, count_of v <> CountOutOfFuel) as Hof by (by intros []).
  induction n as [|n IH]; intros e Hn; [lia|]. cbn [eval_count]. pose proof (drop_while_short isspace e).
  generalize dependent (drop_while isspace e). intros s Hs. assert (String.length s <= n)%nat by lia. clear e Hn Hs.
  destruct (is_empty_string s) eqn:Es; [done|]. assert (0 < String.length s)%nat by (destruct s; [done|cbn; lia]).
  assert (forall op f b, match last_op op b 0 0 s with
    | Some i => count_binary f (eval_count consts n (truncate i s)) (eval_count consts n (drop_text (S i) s))
    | None => NoCount end <> CountOutOfFuel) as Hop.
  { intros op f b. destruct (last_op op b 0 0 s) as [i|] eqn:E; [|done]. apply last_op_index in E.
    apply Hbin; apply IH; [pose proof (truncate_bound i s)|rewrite drop_text_short]; lia. }
  apply Hor. { destruct (unwrapped s) eqn:E; [|done]. apply IH. apply unwrapped_short in E. lia. }
  apply Hor; [apply Hof|]. apply Hor; [apply Hof|]. apply Hor; [apply Hof|]. apply Hor; [|by apply Hor; [|apply Hor]].
  destruct (clog2_argument s) as [arg|] eqn:E; [|done]. apply clog2_argument_short in E.
  assert (eval_count consts n arg <> CountOutOfFuel) as Ha by (apply IH; lia).
  destruct (eval_count consts n arg) as [v| | | |]; try done. unfold clog2_value. by repeat case_match.
Qed.

(** Only [clog2] counts forever. *)
Lemma contains_within pat a u b : contains pat u = true -> contains pat (a ++ u ++ b) = true.
Proof.
  intros Hu. assert (contains pat (u ++ b) = true) as H.
  { induction u as [|c u IH]; cbn [contains] in Hu.
    - destruct (strip_prefix pat "") as [r|] eqn:E; [|done]. apply strip_prefix_spec in E. destruct pat; [|done]. by destruct b.
    - rewrite append_cons. cbn [contains]. destruct (strip_prefix pat (String c u)) as [r|] eqn:E.
      + apply strip_prefix_spec in E. rewrite <- append_cons, E, append_assoc.
        by rewrite (proj2 (strip_prefix_spec pat (pat ++ (r ++ b)) (r ++ b)) eq_refl).
      + destruct (strip_prefix pat (String c (u ++ b))); [done|]. by apply IH. }
  clear Hu. induction a as [|c a IH]; [done|]. rewrite append_cons. cbn [contains]. by destruct (strip_prefix _ _).
Qed.

Lemma truncate_drop n s : (truncate n s ++ drop_text n s)%string = s.
Proof. revert s. induction n as [|n IH]; intros [|c s]; [done..|]. cbn [truncate drop_text]. by rewrite append_cons, IH. Qed.

Lemma contains_truncate pat n s : contains pat s = false -> contains pat (truncate n s) = false.
Proof.
  intros H. destruct (contains pat (truncate n s)) eqn:E; [|done]. apply (contains_within _ "" _ (drop_text n s)) in E.
  rewrite append_empty, truncate_drop in E. congruence.
Qed.

Lemma contains_drop pat n s : contains pat s = false -> contains pat (drop_text n s) = false.
Proof.
  intros H. destruct (contains pat (drop_text n s)) eqn:E; [|done]. apply (contains_within _ (truncate n s) _ "") in E.
  rewrite append_nil_r, truncate_drop in E. congruence.
Qed.

Lemma contains_drop_while pat f s : contains pat s = false -> contains pat (drop_while f s) = false.
Proof.
  induction s as [|c s IH]; [done|]. cbn [drop_while]. intros H. destruct (f c); [|done]. apply IH.
  apply (contains_drop pat 1 (String c s)) in H. exact H.
Qed.

Lemma forever_clog2 consts n : forall e, contains "clog2" e = false -> eval_count consts n e <> CountsForever.
Proof.
  assert (forall a b, a <> CountsForever -> b <> CountsForever -> or_else a b <> CountsForever) as Hor by (by intros []).
  assert (forall f a b, a <> CountsForever -> b <> CountsForever -> count_binary f a b <> CountsForever) as Hbin.
  { intros f [] []; try done. cbn. by destruct (in_llong _). }
  assert (forall v, count_of v <> CountsForever) as Hof by (by intros []).
  induction n as [|n IH]; intros e He; [done|]. cbn [eval_count]. apply (contains_drop_while _ isspace) in He.
  generalize dependent (drop_while isspace e). clear e. intros s Hs. destruct (is_empty_string s); [done|].
  assert (forall op f b, match last_op op b 0 0 s with
    | Some i => count_binary f (eval_count consts n (truncate i s)) (eval_count consts n (drop_text (S i) s))
    | None => NoCount end <> CountsForever) as Hop.
  { intros op f b. destruct (last_op op b 0 0 s) as [i|]; [|done]. apply Hbin; apply IH; [by apply contains_truncate|by apply contains_drop]. }
  apply Hor.
  { destruct (unwrapped s) as [inner|] eqn:E; [|done]. apply IH.
    assert (exists r, s = String "(" r /\ inner = truncate (String.length s - 2) r) as (r & -> & ->) by (by apply unwrapped_text).
    apply contains_truncate. exact (contains_drop _ 1 _ Hs). }
  apply Hor; [apply Hof|]. apply Hor; [apply Hof|]. apply Hor; [apply Hof|]. apply Hor; [|by apply Hor; [|apply Hor]].
  unfold clog2_argument. destruct (strip_prefix "clog2" s) as [p|] eqn:E; [|done]. apply strip_prefix_spec in E as ->.
  pose proof (contains_within "clog2" "" "clog2" p eq_refl) as Hc. rewrite append_empty in Hc. congruence.
Qed.

(** ** Termination *)

(** What every step keeps: the growth stays within its limit, which is no
    [SIZE_MAX], and only grows. *)
Definition within (c : ExpandContext) : Prop :=
  total_growth c <= apply_max_growth (limits c) /\ apply_max_growth (limits c) < SIZE_MAX.

Definition grows (c c' : ExpandContext) (n : Z) : Prop :=
  limits c' = limits c /\ total_growth c + n <= total_growth c'.

Lemma growth_refl c : grows c c 0.
Proof. split; [done|lia]. Qed.

Lemma growth_trans c1 c2 c3 n m : grows c1 c2 n -> grows c2 c3 m -> grows c1 c3 (n + m).
Proof. intros [H1 ?] [H2 ?]. split; [congruence|lia]. Qed.

(** From [c] the computation does not run out of fuel, and yields [Q]. *)
Definition ends {A} (m : XM A) (c : ExpandContext) (Q : A -> ExpandContext -> Prop) : Prop :=
  match m c with
  | Expanded a c' => within c' /\ grows c c' 0 /\ Q a c'
  | Undefined | Endless => True
  | OutOfFuel => False
  end.

Lemma ends_ret {A} (a : A) c (Q : A -> ExpandContext -> Prop) : within c -> Q a c -> ends (mret a) c Q.
Proof. intros H HQ. split_and!; [done|apply growth_refl|done]. Qed.

Lemma ends_bind {A B} (m : XM A) (f : A -> XM B) c P Q :
  ends m c P -> (forall a c', within c' -> grows c c' 0 -> P a c' -> ends (f a) c' Q) -> ends (m ≫= f) c Q.
Proof.
  unfold ends, mbind, XM_bind. destruct (m c) as [a c'| | |]; [|done..]. intros (Hw & Hg & HP) Hf.
  specialize (Hf a c' Hw Hg HP). destruct (f a c') as [b c''| | |]; [|done..]. destruct Hf as (? & Hg' & ?).
  split_and!; [done|exact (growth_trans c c' c'' 0 0 Hg Hg')|done].
Qed.

Lemma ends_get {A} (f : ExpandContext -> A) c Q : within c -> Q (f c) c -> ends (get f) c Q.
Proof. intros H HQ. split_and!; [done|apply growth_refl|done]. Qed.

(** The steps that leave limits and growth alone. *)
Definition steady {A} (m : XM A) : Prop :=
  forall c, match m c with
            | Expanded _ c' => limits c' = limits c /\ total_growth c' = total_growth c
            | Undefined | Endless => True
            | OutOfFuel => False
            end.

Lemma ends_steady {A} (m : XM A) c : steady m -> within c -> ends m c (fun _ c' => total_growth c' = total_growth c).
Proof.
  intros Hm Hw. specialize (Hm c). unfold ends. destruct (m c) as [a c'| | |]; [|done..]. destruct Hm as [Hl Ht].
  unfold within, grows in *. rewrite Hl, Ht. split_and!; [lia|lia|done|lia|done].
Qed.

Lemma steady_ret {A} (a : A) : steady (mret a).
Proof. by intros c. Qed.

Lemma steady_bind {A B} (m : XM A) (f : A -> XM B) : steady m -> (forall a, steady (f a)) -> steady (m ≫= f).
Proof.
  intros Hm Hf c. specialize (Hm c). unfold mbind, XM_bind. destruct (m c) as [a c'| | |]; [|done..].
  specialize (Hf a c'). destruct (f a c') as [b c''| | |]; [|done..]. destruct Hm, Hf. split; congruence.
Qed.

Lemma steady_get {A} (f : ExpandContext -> A) : steady (get f).
Proof. by intros c. Qed.

Lemma steady_undefined {A} : steady (@undefined A).
Proof. by intros c. Qed.

Lemma steady_count expr : steady (evaluate_count expr).
Proof.
  apply steady_bind; [apply steady_get|]. intros cs. pose proof (eval_count_rounds cs (S (String.length expr)) expr ltac:(lia)) as H.
  unfold eval_count_expr. by destruct (eval_count _ _ _).
Qed.

Lemma steady_report rs : steady (report_rules rs).
Proof. by intros c. Qed.

Lemma steady_refuse ps : steady (refuse_depth ps).
Proof. intros c. by destruct ps. Qed.

Lemma steady_add t : steady (add_template t).
Proof. by intros c. Qed.

Lemma steady_wires ws : steady (set_scratch_wires ws).
Proof. by intros c. Qed.

Lemma steady_callsite : steady next_callsite.
Proof. by intros c. Qed.

Lemma steady_suffix rand : steady (generate_random_suffix rand).
Proof. by intros c. Qed.

Create HintDb expand.
#[export] Hint Resolve steady_ret steady_bind steady_get steady_undefined steady_count steady_report steady_refuse steady_add
  steady_wires steady_callsite steady_suffix : expand.

Lemma steady_suffixes rand names : steady (suffixes rand names).
Proof. induction names as [|n names IH]; cbn [suffixes]; auto 6 with expand. Qed.

Lemma steady_widths params l : steady (all_reports (scratch_width_reports params) l).
Proof.
  induction l as [|s l IH]; cbn [all_reports]; [auto with expand|]. apply steady_bind; [|auto with expand].
  unfold scratch_width_reports. destruct (ast_width s); [|auto with expand]. destruct (existsb _ _); [auto with expand|].
  apply steady_bind; [auto with expand|]. intros []; auto with expand.
Qed.

#[export] Hint Resolve steady_widths : expand.

Lemma steady_register def scope : steady (register_template def scope).
Proof.
  unfold register_template. apply steady_bind; [auto with expand|]. intros ts.
  destruct (existsb _ ts); [apply steady_report|]. apply steady_bind; [auto with expand|]. intros cs.
  apply steady_bind; auto with expand.
Qed.

Lemma steady_each_child (f : nat -> JZASTNode -> XM unit) cs : (forall i c, steady (f i c)) ->
  forall i m, steady m -> steady (each_child (fun i c m => _ ← m; f i c) i cs m).
Proof. intros Hf. induction cs as [|c cs IH]; intros i m Hm; cbn [each_child]; auto with expand. Qed.

Lemma steady_collect levels : forall scope node, steady (collect_templates levels scope node).
Proof.
  induction levels as [|levels IH]; intros scope node; cbn [collect_templates]; [apply steady_refuse|].
  destruct (node_is _ _); [apply steady_register|].
  assert (forall cs m, steady m -> steady (fold_left (fun m c => _ ← m; collect_templates levels scope c) cs m)) as H.
  { induction cs as [|c cs IHcs]; intros m Hm; cbn [fold_left]; auto with expand. }
  apply H, steady_ret.
Qed.

Lemma steady_collect_root root : steady (collect_root root).
Proof.
  unfold collect_root. destruct (node_is _ _); [apply steady_register|].
  apply (steady_each_child (fun i c => collect_templates (pred TEMPLATE_LEVELS) (if node_is JZ_AST_MODULE c then Some i else None) c));
    [|apply steady_ret]. intros i c. apply steady_collect.
Qed.

Lemma steady_clone levels sub stmts : steady (clone_body levels sub stmts).
Proof.
  induction stmts as [|s stmts IH]; cbn [clone_body]; [auto with expand|]. destruct (substitute_in_node sub levels s) as [clone refused].
  apply steady_bind; [auto with expand|]. intros _. apply steady_bind; [auto with expand|]. intros []; auto with expand.
Qed.

Lemma clone_length levels sub stmts : forall c es c', clone_body levels sub stmts c = Expanded (Some es) c' -> length es = length stmts.
Proof.
  induction stmts as [|s stmts IH]; intros c es c'; cbn [clone_body]; [by intros [= <- _]|].
  destruct (substitute_in_node sub levels s) as [clone refused]. unfold mbind, XM_bind, get.
  destruct (refuse_depth refused c) as [? c1| | |]; [|done..]. destruct (depth_failed c1); [done|].
  destruct (clone_body levels sub stmts c1) as [[rest|] c2| | |] eqn:E; [|done..].
  intros [= <- _]. cbn. f_equal. by eapply IH.
Qed.

Lemma iterate_ends rand levels ap n : forall i c, within c ->
  ends (iterate rand levels ap n i) c (fun r c' => total_growth c' = total_growth c /\
    forall es, r = Some es -> length es = (n * length (body_stmts (ap_body ap)))%nat).
Proof.
  induction n as [|n IH]; intros i c Hw; cbn [iterate].
  { apply ends_ret; [done|]. split; [done|]. by intros es [= <-]. }
  eapply ends_bind; [apply ends_steady; [apply steady_suffixes|done]|]. intros scratch c1 Hw1 _ Ht1.
  eapply ends_bind; [apply ends_steady; [apply steady_get|done]|]. intros ws c2 Hw2 _ Ht2.
  eapply ends_bind; [apply ends_steady; [apply steady_wires|done]|]. intros u c3 Hw3 _ Ht3.
  unfold ends, mbind, XM_bind, mret, XM_ret.
  pose proof (steady_clone levels (iteration_subst ap (i32 i) scratch) (body_stmts (ap_body ap)) c3) as Hs.
  destruct (clone_body _ _ _ c3) as [[es|] c4| | |] eqn:Ec; [| |done..]; destruct Hs as [Hl Ht4].
  2: { unfold within, grows in *. rewrite Hl, Ht4. split_and!; [lia|lia|done|lia|lia|done]. }
  assert (within c4) as Hw4 by (unfold within in *; rewrite Hl, Ht4; lia).
  specialize (IH (i + 1) c4 Hw4). unfold ends in IH. destruct (iterate rand levels ap n (i + 1) c4) as [r c5| | |]; [|done..].
  destruct IH as (Hw5 & Hg5 & Ht5 & Hlen). unfold grows in *. destruct Hg5 as [Hl5 _]. split_and!; [done|congruence|lia|lia|].
  intros es' Hes. destruct r as [rest|]; [|done]. cbn in Hes. injection Hes as <-. rewrite length_app, (Hlen rest eq_refl).
  rewrite (clone_length _ _ _ _ _ _ Ec). lia.
Qed.

Lemma body_stmts_counted body : (length (body_stmts body) <= length (counted_stmts body))%nat.
Proof.
  unfold body_stmts, counted_stmts. induction body as [|c body IH]; [done|]. cbn.
  destruct (is_scratch c), (is_param c), (named c); cbn; lia.
Qed.

Lemma ends_get_bind {A B} (f : ExpandContext -> A) (k : A -> XM B) c Q : ends (k (f c)) c Q -> ends (get f ≫= k) c Q.
Proof. done. Qed.

(** A steady step, after which the rest must end. *)
Lemma ends_then {A B} (m : XM A) (k : A -> XM B) c Q : steady m -> within c ->
  (forall a c', within c' -> limits c' = limits c -> total_growth c' = total_growth c -> ends (k a) c' Q) ->
  ends (m ≫= k) c Q.
Proof.
  intros Hm Hw Hk. specialize (Hm c). unfold ends, mbind, XM_bind. destruct (m c) as [a c'| | |]; [|done..].
  destruct Hm as [Hl Ht]. assert (within c') as Hw' by (unfold within in *; rewrite Hl, Ht; lia).
  specialize (Hk a c' Hw' Hl Ht). unfold ends in Hk. destruct (k a c') as [b c''| | |]; [|done..].
  destruct Hk as (? & Hg & ?). split_and!; [done|unfold grows in *; rewrite <- Hl, <- Ht; exact Hg|done].
Qed.

Lemma ends_weaken {A} (m : XM A) c (P Q : A -> ExpandContext -> Prop) :
  ends m c P -> (forall a c', P a c' -> Q a c') -> ends m c Q.
Proof. unfold ends. destruct (m c); [|done..]. intros (? & ? & HP) HPQ. split_and!; [done|done|by apply HPQ]. Qed.

(** An application replaces itself by at most as many statements as it adds to
    the growth. *)
Definition pays (c : ExpandContext) (r : option (list JZASTNode)) (c' : ExpandContext) : Prop :=
  forall es, r = Some es -> total_growth c + Z.of_nat (length es) <= total_growth c'.

Lemma remove_pays loc rule c0 c : within c -> total_growth c0 = total_growth c ->
  ends (_ ← report_rule loc rule; mret (Some [])) c (pays c0).
Proof.
  intros Hw Ht. apply ends_then; [apply steady_report|done|]. intros u c' Hw' Hl Ht'. apply ends_ret; [done|].
  intros es [= <-]. cbn. lia.
Qed.

Lemma expand_apply_ends rand levels scope module apply c : within c ->
  ends (expand_apply rand levels scope module apply) c (pays c).
Proof.
  intros Hw. unfold expand_apply. destruct (ast_name apply) as [name|]; [|by apply ends_ret].
  apply ends_get_bind. destruct (find_template _ name scope) as [t|]; [|by apply remove_pays].
  set (body := after_last is_param (ast_children (def_node t))).
  apply ends_then; [apply steady_report|done|]. intros u1 c1 Hw1 Hl1 Ht1.
  destruct (negb _); [by apply remove_pays|]. destruct (64 <? _)%nat; [done|].
  apply ends_get_bind, ends_get_bind.
  apply ends_then; [destruct (ast_text apply); auto with expand|done|]. intros value c1' Hw1' Hl1' Ht1'.
  assert (limits c1' = limits c) as Hl by congruence. assert (total_growth c1' = total_growth c) as Ht by congruence.
  rewrite <- Hl1'. generalize (consts c1). intros cs. clear dependent c1. rename c1' into c1, Hw1' into Hw1, Hl into Hl1, Ht into Ht1.
  destruct value as [count|]; [|by apply remove_pays].
  destruct (Z.ltb_spec count 0) as [|Hc]; [by apply remove_pays|]. destruct (_ <? count); [by apply remove_pays|].
  cbv zeta. apply ends_get_bind.
  set (k := count * Z.of_nat (length (scratch_names body) + length (counted_stmts body))).
  destruct (_ && _) eqn:Eg; [by apply remove_pays|].
  assert (Z.min SIZE_MAX k = k /\ total_growth c1 + k <= apply_max_growth (limits c1)) as [Emin Hk].
  { unfold within in Hw1. destruct (Z.ltb_spec 0 count) as [Hp|Hp].
    - cbn [andb] in Eg. apply orb_false_iff in Eg as [E1%Z.ltb_ge E2%Z.ltb_ge]. lia.
    - assert (count = 0) as Hz by lia. assert (k = 0) as Ek by (unfold k; rewrite Hz; lia). assert (0 <= SIZE_MAX) by done. lia. }
  rewrite Emin. assert (0 <= k) as Hk0 by (unfold k; apply Z.mul_nonneg_nonneg; lia).
  eapply ends_bind with (P := fun _ c' => limits c' = limits c1 /\ total_growth c' = total_growth c1 + k).
  { unfold ends, add_growth, within, grows in *. cbn. split_and!; [lia|lia|done|lia|done|done]. }
  intros u2 c2 Hw2 _ [Hl2 Ht2]. apply ends_then; [apply steady_report|done|]. intros u3 c3 Hw3 Hl3 Ht3.
  apply ends_then; [apply steady_callsite|done|]. intros callsite c4 Hw4 Hl4 Ht4.
  eapply ends_weaken; [by apply iterate_ends|]. intros r c' [Ht' Hlen] es Hes. rewrite (Hlen es Hes).
  rewrite Nat2Z.inj_mul, Z2Nat.id by done. cbn [ap_body]. pose proof (body_stmts_counted body) as Hb.
  assert (count * Z.of_nat (length (body_stmts body)) <= k) by (unfold k; apply Z.mul_le_mono_nonneg_l; lia). lia.
Qed.

Lemma steady_update scope def : steady (update_definition scope def).
Proof. by intros c. Qed.

Lemma expand_children_ends expand apply :
  (forall live n c, (forall cs, steady (live cs)) -> within c -> ends (expand live n) c (fun _ _ => True)) ->
  (forall a c, within c -> ends (apply a) c (pays c)) ->
  forall n live done cs c, (forall cs, steady (live cs)) -> within c ->
  (length cs + Z.to_nat (apply_max_growth (limits c) - total_growth c) <= n)%nat ->
  ends (expand_children expand apply live n done cs) c (fun _ _ => True).
Proof.
  intros Hexp Happ n. induction n as [|n IH]; intros live before [|x rest] c Hlive Hw Hn; cbn [expand_children]; cbn in Hn;
    try by apply ends_ret.
  { lia. }
  assert (forall c', grows c c' 0 -> (length rest + Z.to_nat (apply_max_growth (limits c') - total_growth c') <= n)%nat) as Hrest.
  { intros c' [Hl ?]. rewrite Hl. lia. }
  destruct (node_is JZ_AST_TEMPLATE_APPLY x).
  - eapply ends_bind; [by apply Happ|]. intros [es|] c1 Hw1 Hg Hp; [|by apply ends_ret].
    specialize (Hp es eq_refl) as Hp. apply ends_then; [apply Hlive|done|]. intros u c2 Hw2 Hl2 Ht2. unfold grows in Hg.
    rewrite <- Hl2, <- Ht2 in Hg. rewrite <- Ht2 in Hp.
    assert (ends (expand_children expand apply live n before (es ++ rest)) c2 (fun _ _ => True)) as Hagain.
    { apply IH; [done|done|]. destruct Hg as [Hl ?]. rewrite Hl, length_app. unfold within in *. rewrite Hl in Hw2. lia. }
    destruct es as [|s [|s2 es]]; [exact Hagain| |exact Hagain].
    eapply ends_bind; [by apply IH; [| |apply Hrest]|]. intros [rest' ok] c3 Hw3 _ _. by apply ends_ret.
  - eapply ends_bind; [apply Hexp; [intros; apply Hlive|done]|]. intros [y ok] c1 Hw1 Hg _. destruct ok; [|by apply ends_ret].
    eapply ends_bind; [by apply IH; [| |apply Hrest]|]. intros [rest' ok] c2 Hw2 _ _. by apply ends_ret.
Qed.

Lemma ends_fuel {B} cs (k : nat -> XM B) c Q :
  ends (k (length cs + Z.to_nat (apply_max_growth (limits c) - total_growth c))%nat) c Q -> ends (children_fuel cs ≫= k) c Q.
Proof. done. Qed.

#[export] Hint Resolve steady_update : expand.

Lemma expand_applies_ends rand scope module levels : forall live node c, (forall cs, steady (live cs)) -> within c ->
  ends (expand_applies_in_node rand levels scope module live node) c (fun _ _ => True).
Proof.
  induction levels as [|levels IH]; intros live node c Hlive Hw; cbn [expand_applies_in_node].
  { apply ends_then; [apply steady_refuse|done|]. intros u c1 Hw1 _ _. by apply ends_ret. }
  apply ends_fuel. eapply ends_bind with (P := fun _ _ => True).
  - eapply (expand_children_ends (expand_applies_in_node rand levels scope module));
      [apply IH|intros; by apply expand_apply_ends| |done|done].
    intros cs. apply steady_bind; [apply Hlive|]. intros _. destruct (node_is _ _); auto with expand.
  - intros [cs' ok] c1 Hw1 _ _. by apply ends_ret.
Qed.

Lemma expand_modules_ends rand cs : forall i c, within c -> ends (expand_modules rand i cs) c (fun _ _ => True).
Proof.
  induction cs as [|x cs IH]; intros i c Hw; cbn [expand_modules]; [by apply ends_ret|].
  eapply ends_bind with (P := fun _ _ => True).
  - destruct (node_is _ _); [|by apply ends_ret]. unfold expand_module. apply ends_then; [apply steady_wires|done|].
    intros u c1 Hw1 _ _. eapply ends_bind; [by apply expand_applies_ends; [intros; apply steady_ret|]|]. intros [m ok] c2 Hw2 _ _.
    apply ends_get_bind. by apply ends_ret.
  - intros y c1 Hw1 _ _. eapply ends_bind; [by apply IH|]. intros ys c2 Hw2 _ _. by apply ends_ret.
Qed.

(** ** Endless counts *)

Section Finite.
Context (table : list (string * Z)).

(** A count or width whose evaluation ends. *)
Definition ends_count (expr : option string) : bool :=
  match expr with
  | Some e => match eval_count_expr table e with CountsForever => false | _ => true end
  | None => true
  end.

(** The counts of all applications below a node. *)
Fixpoint applies_end (n : JZASTNode) : bool :=
  match n with
  | mkNode ty _ _ _ text _ kids =>
      (if bool_decide (ty = JZ_AST_TEMPLATE_APPLY) then ends_count text else true) && forallb applies_end kids
  end.

(** The widths of the scratch wires of all templates below a node. *)
Fixpoint widths_end (n : JZASTNode) : bool :=
  match n with
  | mkNode ty _ _ _ _ _ kids =>
      (if bool_decide (ty = JZ_AST_TEMPLATE_DEF)
       then forallb (fun c => if is_scratch c then ends_count (ast_width c) else true) kids else true) &&
      forallb widths_end kids
  end.

Definition safe (c : ExpandContext) : Prop :=
  consts c = table /\ Forall (fun t => applies_end (def_node t) = true) (templates c).

(** Does not run forever, and yields [Q]. *)
Definition finite {A} (m : XM A) (Q : A -> Prop) : Prop :=
  forall c, safe c -> match m c with Expanded a c' => safe c' /\ Q a | Endless => False | _ => True end.

Lemma finite_ret {A} (a : A) (Q : A -> Prop) : Q a -> finite (mret a) Q.
Proof. by intros HQ c Hc. Qed.

Lemma finite_bind {A B} (m : XM A) (f : A -> XM B) P Q : finite m P -> (forall a, P a -> finite (f a) Q) -> finite (m ≫= f) Q.
Proof.
  intros Hm Hf c Hc. specialize (Hm c Hc). unfold mbind, XM_bind. destruct (m c) as [a c'| | |]; [|done..].
  destruct Hm as [Hc' HP]. by apply Hf.
Qed.

Lemma finite_get {A} (f : ExpandContext -> A) : finite (get f) (fun a => exists c, safe c /\ a = f c).
Proof. intros c Hc. split; [done|]. by exists c. Qed.

(** Steps that change neither constants nor templates. *)
Definition plain {A} (m : XM A) : Prop :=
  forall c, match m c with Expanded _ c' => consts c' = consts c /\ templates c' = templates c | Endless => False | _ => True end.

Lemma finite_plain {A} (m : XM A) : plain m -> finite m (fun _ => True).
Proof.
  intros Hm c [Hc Ht]. specialize (Hm c). destruct (m c) as [a c'| | |]; [|done..]. destruct Hm as [Ec Et].
  split; [|done]. split; congruence.
Qed.

Lemma finite_then {A B} (m : XM A) (f : A -> XM B) Q : plain m -> (forall a, finite (f a) Q) -> finite (m ≫= f) Q.
Proof. intros Hm Hf. eapply finite_bind; [by apply finite_plain|]. by intros a _. Qed.

Lemma plain_ret {A} (a : A) : plain (mret a).
Proof. by intros c. Qed.
Lemma plain_bind {A B} (m : XM A) (f : A -> XM B) : plain m -> (forall a, plain (f a)) -> plain (m ≫= f).
Proof.
  intros Hm Hf c. specialize (Hm c). unfold mbind, XM_bind. destruct (m c) as [a c'| | |]; [|done..].
  specialize (Hf a c'). destruct (f a c') as [b c''| | |]; [|done..]. destruct Hm, Hf. split; congruence.
Qed.
Lemma plain_get {A} (f : ExpandContext -> A) : plain (get f).
Proof. by intros c. Qed.
Lemma plain_report rs : plain (report_rules rs).
Proof. by intros c. Qed.
Lemma plain_refuse ps : plain (refuse_depth ps).
Proof. intros c. by destruct ps. Qed.
Lemma plain_wires ws : plain (set_scratch_wires ws).
Proof. by intros c. Qed.
Lemma plain_growth g : plain (add_growth g).
Proof. by intros c. Qed.
Lemma plain_callsite : plain next_callsite.
Proof. by intros c. Qed.
Lemma plain_suffix rand : plain (generate_random_suffix rand).
Proof. by intros c. Qed.
Hint Resolve plain_ret plain_bind plain_get plain_report plain_refuse plain_wires plain_growth plain_callsite plain_suffix : expand.

Lemma plain_suffixes rand names : plain (suffixes rand names).
Proof. induction names as [|n names IH]; cbn [suffixes]; auto 6 with expand. Qed.

Lemma finite_count expr : ends_count (Some expr) = true -> finite (evaluate_count expr) (fun _ => True).
Proof.
  intros He c Hc. unfold evaluate_count, mbind, XM_bind, get. rewrite (proj1 Hc). unfold ends_count in He.
  by destruct (eval_count_expr table expr).
Qed.

(** *** Substitution *)

Lemma applies_end_children n : applies_end n = true -> forallb applies_end (ast_children n) = true.
Proof. destruct n. cbn. by intros [_ ?]%andb_true_iff. Qed.

Lemma applies_end_with n kids : applies_end n = true -> forallb applies_end kids = true -> applies_end (with_children n kids) = true.
Proof. destruct n. cbn. intros [-> _]%andb_true_iff ->. done. Qed.

Lemma forallb_In {A} (f : A -> bool) l x : forallb f l = true -> In x l -> f x = true.
Proof. rewrite forallb_forall. auto. Qed.

Lemma forallb_filter {A} (f g : A -> bool) l : forallb f l = true -> forallb f (List.filter g l) = true.
Proof. rewrite !forallb_forall. intros H x [Hx _]%filter_In. by apply H. Qed.

Definition sub_ends (sub : Subst) : Prop := forall p, In p (sub_params sub) -> applies_end (snd p) = true.

Lemma find_param_ends sub name arg : sub_ends sub -> find_param sub name = Some arg -> applies_end arg = true.
Proof.
  intros Hs. unfold find_param. destruct (List.find _ _) as [p|] eqn:E; [|done]. intros [= <-]. apply List.find_some in E as [Hp _].
  by apply Hs.
Qed.

Lemma find_qualified_ends sub name arg field : sub_ends sub -> find_qualified sub name = Some (arg, field) -> applies_end arg = true.
Proof.
  intros Hs. unfold find_qualified. destruct (List.find _ _) as [[p a]|] eqn:E; [|done]. destruct (strip_prefix p name) as [[|c f]|]; [done| |done].
  intros [= <- <-]. apply List.find_some in E as [Hp _]. exact (Hs _ Hp).
Qed.

Lemma qualify_ends arg field ty m kids : applies_end arg = true -> qualify arg field = Access ty m kids ->
  bool_decide (ty = JZ_AST_TEMPLATE_APPLY) = false /\ forallb applies_end kids = true.
Proof.
  intros Ha. destruct arg as [aty aloc aname abk atext awidth akids]. cbn in Ha. apply andb_true_iff in Ha as [_ Hk].
  unfold qualify. intros Hq. repeat case_match; try discriminate Hq; injection Hq as <- <- <-; (split; [done|]); try done.
  subst. cbn in Hk |- *. apply andb_true_iff in Hk as [_ Hk]. by apply andb_true_iff in Hk as [-> _].
Qed.

Lemma substitute_ends sub levels : sub_ends sub -> forall node, applies_end node = true ->
  applies_end (fst (substitute_in_node sub levels node)) = true.
Proof.
  intros Hs. induction levels as [|levels IH]; intros node Hn; [done|].
  assert (forall kids, forallb applies_end kids = true -> forallb applies_end (map fst (map (substitute_in_node sub levels) kids)) = true) as Hmap.
  { intros kids Hk. rewrite map_map. apply forallb_forall. intros x Hx. apply in_map_iff in Hx as (y & <- & Hy).
    apply IH. exact (forallb_In _ _ _ Hk Hy). }
  destruct node as [ty loc name bk text width kids]. cbn [substitute_in_node].
  pose proof (applies_end_children _ Hn) as Hk. cbn in Hk.
  assert (forall name' text' width', applies_end (mkNode ty loc name' bk
    (if bool_decide (ty = JZ_AST_TEMPLATE_APPLY) then text else text') width' (map fst (map (substitute_in_node sub levels) kids))) = true) as Hinside.
  { intros name' text' width'. cbn in Hn |- *. apply andb_true_iff in Hn as [Hn _]. rewrite Hmap by done.
    destruct (bool_decide _); [by rewrite Hn|done]. }
  destruct ty; cbn [fst]; try (apply Hinside); try (destruct name; apply Hinside).
  - destruct name as [n|]; [|apply Hinside].
    destruct (if String.eqb n "IDX" then sub_idx sub else None); [cbn; by rewrite Hk|].
    destruct (find_param sub n) as [arg|] eqn:Ea; [by apply (find_param_ends sub n) in Ea; destruct arg|].
    destruct (find_scratch sub n); [cbn; by rewrite Hk|apply Hinside].
  - destruct name as [n|]; [|apply Hinside]. destruct (find_qualified sub n) as [[arg field]|] eqn:Eq; [|apply Hinside].
    apply find_qualified_ends in Eq; [|done]. destruct (qualify arg field) as [m|qty m qkids|] eqn:Ek; [cbn; by rewrite Hk| |cbn; by rewrite Hk].
    apply qualify_ends in Ek as [Hty Hq]; [|done]. cbn. rewrite Hty. by apply Hmap.
Qed.

(** *** Application *)

Lemma finite_clone levels sub stmts : sub_ends sub -> forallb applies_end stmts = true ->
  finite (clone_body levels sub stmts) (fun r => forall es, r = Some es -> forallb applies_end es = true).
Proof.
  intros Hs. induction stmts as [|s stmts IH]; cbn [clone_body forallb]; intros Hst; [by apply finite_ret; intros es [= <-]|].
  apply andb_true_iff in Hst as [Hs1 Hst]. pose proof (substitute_ends sub levels Hs s Hs1) as Hc.
  destruct (substitute_in_node sub levels s) as [clone refused]. apply finite_then; [apply plain_refuse|]. intros _.
  apply finite_then; [apply plain_get|]. intros []; [by apply finite_ret|].
  eapply finite_bind; [by apply IH|]. intros [rest|] Hrest; apply finite_ret; [|done]. intros es [= <-]. cbn in Hc |- *.
  by rewrite Hc, (Hrest rest eq_refl).
Qed.

Lemma finite_iterate rand levels ap n : forallb applies_end (ap_body ap) = true ->
  (forall p, In p (ap_params ap) -> applies_end (snd p) = true) -> forall i,
  finite (iterate rand levels ap n i) (fun r => forall es, r = Some es -> forallb applies_end es = true).
Proof.
  intros Hb Hp. induction n as [|n IH]; intros i; cbn [iterate]; [by apply finite_ret; intros es [= <-]|].
  apply finite_then; [apply plain_suffixes|]. intros scratch. apply finite_then; [apply plain_get|]. intros ws.
  apply finite_then; [apply plain_wires|]. intros _.
  eapply finite_bind; [apply finite_clone; [exact Hp|by apply forallb_filter]|]. intros [copy|] Hc; [|by apply finite_ret].
  eapply finite_bind; [apply IH|]. intros [rest|] Hr; apply finite_ret; [|done]. intros es [= <-].
  by rewrite forallb_app, (Hc copy eq_refl), (Hr rest eq_refl).
Qed.

Lemma after_last_ends f kids : forallb applies_end kids = true -> forallb applies_end (after_last f kids) = true.
Proof.
  induction kids as [|c kids IH]; [done|]. cbn [after_last forallb]. intros [Hc Hk]%andb_true_iff.
  destruct (existsb _ _); [by apply IH|]. destruct (f c); cbn; by rewrite ?Hc.
Qed.

Lemma found_in ts name scope t : find_template ts name scope = Some t -> In t ts.
Proof.
  unfold find_template. destruct (List.find _ ts) as [t'|] eqn:E.
  - intros [= ->]. by apply List.find_some in E as [? _].
  - intros E'%List.find_some. apply in_rev, E'.
Qed.

Lemma finite_remove loc rule (Q : option (list JZASTNode) -> Prop) : Q (Some []) ->
  finite (_ ← report_rule loc rule; mret (Some [])) Q.
Proof. intros HQ. apply finite_then; [apply plain_report|]. intros _. by apply finite_ret. Qed.

Definition ends_all (r : option (list JZASTNode)) : Prop := forall es, r = Some es -> forallb applies_end es = true.

Lemma finite_expand_apply rand levels scope module apply : applies_end apply = true -> node_is JZ_AST_TEMPLATE_APPLY apply = true ->
  finite (expand_apply rand levels scope module apply) ends_all.
Proof.
  intros Ha Hty. assert (ends_all (Some [])) as Hnil by (by intros es [= <-]).
  assert (ends_count (ast_text apply) = true) as Htext.
  { destruct apply as [ty loc name bk text width kids]. unfold node_is in Hty. cbn in Ha, Hty |- *. rewrite Hty in Ha.
    by apply andb_true_iff in Ha as [? _]. }
  unfold expand_apply. destruct (ast_name apply) as [name|]; [|by apply finite_ret].
  eapply finite_bind; [apply finite_get|]. intros l (c & [_ Hts] & ->).
  destruct (find_template (templates c) name scope) as [t|] eqn:Et; [|by apply finite_remove]. apply found_in in Et.
  rewrite List.Forall_forall in Hts. pose proof (applies_end_children _ (Hts _ Et)) as Hdef. clear c Hts Et.
  apply finite_then; [apply plain_report|]. intros _. destruct (negb _); [by apply finite_remove|].
  destruct (64 <? _)%nat; [by intros c|]. do 2 (apply finite_then; [apply plain_get|]; intros ?).
  eapply finite_bind with (P := fun _ => True).
  { destruct (ast_text apply) as [text|]; [by apply finite_count|by apply finite_ret]. }
  intros [count|] _; [|by apply finite_remove]. destruct (count <? 0); [by apply finite_remove|].
  destruct (_ <? count); [by apply finite_remove|]. cbv zeta. apply finite_then; [apply plain_get|]. intros total.
  destruct (_ && _); [by apply finite_remove|]. apply finite_then; [apply plain_growth|]. intros _.
  apply finite_then; [apply plain_report|]. intros _. apply finite_then; [apply plain_callsite|]. intros callsite.
  apply finite_iterate; cbn [ap_body ap_params]; [by apply after_last_ends|].
  intros [p arg] Hin. apply in_combine_r in Hin. cbn. exact (forallb_In _ _ _ (applies_end_children _ Ha) Hin).
Qed.

Lemma finite_update scope def : applies_end def = true -> finite (update_definition scope def) (fun _ => True).
Proof.
  intros Hd c [Hc Ht]. cbn. split; [|done]. split; [done|]. apply List.Forall_forall. intros t Hin. cbn in Hin.
  apply in_map_iff in Hin as (u & <- & Hu). rewrite List.Forall_forall in Ht. destruct (is_definition _ _ _); [done|by apply Ht].
Qed.

(** A step that is told the children of a node. *)
Definition finite_live (live : list JZASTNode -> XM unit) : Prop :=
  forall kids, forallb applies_end kids = true -> finite (live kids) (fun _ => True).

Lemma finite_expand_children expand apply :
  (forall live n, finite_live live -> applies_end n = true -> finite (expand live n) (fun r => applies_end (fst r) = true)) ->
  (forall a, applies_end a = true -> node_is JZ_AST_TEMPLATE_APPLY a = true -> finite (apply a) ends_all) ->
  forall n live before kids, finite_live live -> forallb applies_end before = true -> forallb applies_end kids = true ->
  finite (expand_children expand apply live n before kids) (fun r => forallb applies_end (fst r) = true).
Proof.
  intros He Ha n. induction n as [|n IH]; intros live before [|x rest] Hl Hb Hk; cbn [expand_children]; try (by apply finite_ret); [done|].
  cbn in Hk. apply andb_true_iff in Hk as [Hx Hrest]. destruct (node_is _ x) eqn:Ex.
  - eapply finite_bind; [by apply Ha|]. intros [es|] Hes; [|by apply finite_ret; cbn; rewrite Hx]. specialize (Hes es eq_refl).
    eapply finite_bind; [apply Hl; by rewrite !forallb_app, Hb, Hes|]. intros _ _.
    assert (finite (expand_children expand apply live n before (es ++ rest)) (fun r => forallb applies_end (fst r) = true)) as Hagain
      by (apply IH; [done|done|by rewrite forallb_app, Hes]).
    destruct es as [|s [|s2 es]]; [exact Hagain| |exact Hagain]. cbn in Hes. apply andb_true_iff in Hes as [Hs _].
    eapply finite_bind; [apply IH; [done|by rewrite forallb_app, Hb; cbn; rewrite Hs|done]|]. intros [r ok] Hr. apply finite_ret. cbn in *.
    by rewrite Hs.
  - eapply finite_bind.
    { apply He; [|done]. intros kids Hkids. apply Hl. rewrite forallb_app, Hb. cbn [forallb andb]. by rewrite applies_end_with, Hrest. }
    intros [y []] Hy; cbn in Hy; [|by apply finite_ret; cbn; rewrite Hy].
    eapply finite_bind; [apply IH; [done|by rewrite forallb_app, Hb; cbn; rewrite Hy|done]|]. intros [r ok] Hr. apply finite_ret. cbn in *.
    by rewrite Hy.
Qed.

Lemma finite_expand_applies rand scope module levels : forall live node, finite_live live -> applies_end node = true ->
  finite (expand_applies_in_node rand levels scope module live node) (fun r => applies_end (fst r) = true).
Proof.
  induction levels as [|levels IH]; intros live node Hl Hn; cbn [expand_applies_in_node].
  { apply finite_then; [apply plain_refuse|]. intros _. by apply finite_ret. }
  apply finite_then; [unfold children_fuel; apply plain_bind; [apply plain_get|intros; apply plain_bind; [apply plain_get|intros; apply plain_ret]]|].
  intros n. eapply finite_bind.
  - eapply (finite_expand_children (expand_applies_in_node rand levels scope module));
      [apply IH|intros; by apply finite_expand_apply| |done|by apply applies_end_children].
    intros kids Hk. eapply finite_bind; [by apply Hl|]. intros _ _. destruct (node_is _ _); [|by apply finite_ret].
    apply finite_update. by apply applies_end_with.
  - intros [kids ok] Hk. apply finite_ret. by apply applies_end_with.
Qed.

(** *** The pass *)

Lemma finite_modules rand kids : forallb applies_end kids = true -> forall i, finite (expand_modules rand i kids) (fun _ => True).
Proof.
  induction kids as [|x kids IH]; cbn [expand_modules forallb]; intros Hk i; [by apply finite_ret|].
  apply andb_true_iff in Hk as [Hx Hk]. eapply finite_bind with (P := fun _ => True).
  - destruct (node_is _ _); [|by apply finite_ret]. unfold expand_module. apply finite_then; [apply plain_wires|]. intros _.
    eapply finite_bind; [by apply finite_expand_applies; [intros ? _; apply finite_ret|]|]. intros [m ok] _.
    apply finite_then; [apply plain_get|]. intros ws. by apply finite_ret.
  - intros y _. eapply finite_bind; [by apply IH|]. intros ys _. by apply finite_ret.
Qed.

Lemma finite_widths params l : forallb (fun c => ends_count (ast_width c)) l = true ->
  finite (all_reports (scratch_width_reports params) l) (fun _ => True).
Proof.
  induction l as [|s l IH]; cbn [all_reports forallb]; intros Hl; [by apply finite_ret|]. apply andb_true_iff in Hl as [Hs Hl].
  eapply finite_bind with (P := fun _ => True).
  - unfold scratch_width_reports. destruct (ast_width s) as [w|]; [|by apply finite_ret]. destruct (existsb _ _); [by apply finite_ret|].
    eapply finite_bind; [by apply finite_count|]. intros [] _; by apply finite_ret.
  - intros r _. eapply finite_bind; [by apply IH|]. intros rs _. by apply finite_ret.
Qed.

Lemma finite_register def scope : node_is JZ_AST_TEMPLATE_DEF def = true -> applies_end def = true -> widths_end def = true ->
  finite (register_template def scope) (fun _ => True).
Proof.
  intros Hty Ha Hw. unfold register_template. apply finite_then; [apply plain_get|]. intros ts.
  destruct (existsb _ ts); [apply finite_plain, plain_report|]. apply finite_then; [apply plain_get|]. intros l. cbv zeta.
  eapply finite_bind; [apply finite_widths|].
  - destruct def as [ty loc name bk text width kids]. unfold node_is in Hty. cbn in Hw, Hty |- *. rewrite Hty in Hw.
    apply andb_true_iff in Hw as [Hw _]. clear - Hw. induction kids as [|c kids IH]; [done|]. cbn in Hw |- *.
    apply andb_true_iff in Hw as [Hc Hk]. destruct (is_scratch c); cbn; [by rewrite Hc, IH|by apply IH].
  - intros widths _. apply finite_then; [apply plain_report|]. intros _ c [Hc Ht]. split; [|done]. split; [done|].
    apply List.Forall_app. by split; [|constructor].
Qed.

Lemma widths_end_children n : widths_end n = true -> forallb widths_end (ast_children n) = true.
Proof. destruct n. cbn. by intros [_ ?]%andb_true_iff. Qed.

Lemma finite_collect levels : forall scope node, applies_end node = true -> widths_end node = true ->
  finite (collect_templates levels scope node) (fun _ => True).
Proof.
  induction levels as [|levels IH]; intros scope node Ha Hw; cbn [collect_templates]; [apply finite_plain, plain_refuse|].
  destruct (node_is _ _) eqn:Ety; [by apply finite_register|].
  pose proof (applies_end_children _ Ha) as Hka. pose proof (widths_end_children _ Hw) as Hkw.
  assert (forall l m, forallb applies_end l = true -> forallb widths_end l = true -> finite m (fun _ => True) ->
    finite (fold_left (fun m c => _ ← m; collect_templates levels scope c) l m) (fun _ : unit => True)) as H.
  { induction l as [|c l IHl]; intros m Hla Hlw Hm; [done|]. cbn in Hla, Hlw |- *. apply andb_true_iff in Hla as [? ?], Hlw as [? ?].
    apply IHl; [done|done|]. eapply finite_bind; [exact Hm|]. intros _ _. by apply IH. }
  apply H; [done|done|by apply finite_ret].
Qed.

Lemma finite_collect_root root : applies_end root = true -> widths_end root = true -> finite (collect_root root) (fun _ => True).
Proof.
  intros Ha Hw. unfold collect_root. destruct (node_is _ _) eqn:Ety; [by apply finite_register|].
  pose proof (applies_end_children _ Ha) as Hka. pose proof (widths_end_children _ Hw) as Hkw.
  assert (forall l i m, forallb applies_end l = true -> forallb widths_end l = true -> finite m (fun _ => True) ->
    finite (each_child (fun i c m => _ ← m; collect_templates (pred TEMPLATE_LEVELS) (if node_is JZ_AST_MODULE c then Some i else None) c) i l m)
      (fun _ : unit => True)) as H.
  { induction l as [|c l IHl]; intros i m Hla Hlw Hm; [done|]. cbn [each_child]. cbn in Hla, Hlw. apply andb_true_iff in Hla as [? ?], Hlw as [? ?].
    apply IHl; [done|done|]. eapply finite_bind; [exact Hm|]. intros _ _. by apply finite_collect. }
  apply H; [done|done|by apply finite_ret].
Qed.
End Finite.

(** No definition of a template below a node. *)
Fixpoint no_defs (n : JZASTNode) : bool :=
  match n with
  | mkNode _ _ _ _ _ _ cs => forallb (fun c => negb (node_is JZ_AST_TEMPLATE_DEF c) && no_defs c) cs
  end.

Lemma remove_defs_type levels n : ast_type (fst (remove_template_defs levels n)) = ast_type n.
Proof. destruct levels, n; done. Qed.

Lemma remove_no_defs levels : forall n, snd (remove_template_defs levels n) = [] -> no_defs (fst (remove_template_defs levels n)) = true.
Proof.
  induction levels as [|levels IH]; intros n; cbn [remove_template_defs]; [done|].
  destruct n as [ty loc name bk text width cs]. cbn. intros Hr. apply forallb_forall. intros m Hm.
  rewrite map_map in Hm. apply in_map_iff in Hm as (x & <- & Hx). rewrite andb_true_iff. split.
  - apply filter_In in Hx as [_ Hx]. unfold node_is in *. by rewrite remove_defs_type.
  - apply IH. assert (forall ls : list (list JZLocation), concat ls = [] -> forall l, In l ls -> l = []) as Hc.
    { clear. intros ls Hls l Hl. destruct l as [|y l]; [done|]. assert (In y (concat ls)) as Hy.
      { apply in_concat. exists (y :: l). split; [done|by left]. }
      by rewrite Hls in Hy. }
    apply (Hc _ Hr), in_map, in_map, Hx.
Qed.

Lemma table_in_fuel defs : collect_consts defs <> TableOutOfFuel.
Proof.
  unfold collect_consts. destruct defs as [|d defs]; [done|].
  destruct (const_eval_all_total (d :: defs) (replicate (length (d :: defs)) 0)) as [-> _]; [by rewrite length_replicate|].
  destruct (eo_undefined _); [done|]. by destruct (_ =? 0).
Qed.

Lemma expansion_ends rand root refused lim cs : 0 <= apply_max_growth lim < SIZE_MAX ->
  ends (_ ← refuse_depth refused; _ ← collect_root root; cs ← expand_modules rand 0 (ast_children root);
    let '(root, refused) := remove_template_defs TEMPLATE_LEVELS (with_children root cs) in
    _ ← refuse_depth refused; mret root) (initial lim cs) (fun root' c => depth_failed c = false -> no_defs root' = true).
Proof.
  intros Hlim. apply ends_then; [apply steady_refuse|unfold within; cbn; lia|]. intros u1 c1 Hw1 _ _.
  apply ends_then; [apply steady_collect_root|done|]. intros u2 c2 Hw2 _ _.
  eapply ends_bind; [by apply expand_modules_ends|]. intros cs' c3 Hw3 _ _.
  destruct (remove_template_defs _ _) as [root' places] eqn:Er.
  pose proof (remove_no_defs TEMPLATE_LEVELS (with_children root cs')) as Hno. rewrite Er in Hno. cbn in Hno.
  destruct places as [|loc places]; [apply ends_ret; auto|].
  eapply ends_bind with (P := fun _ c => depth_failed c = true); [by unfold ends, within, grows, refuse_depth in *; cbn; split_and!; [lia|lia|done|lia|]|].
  intros u4 c4 Hw4 _ Hf. apply ends_ret; [done|]. congruence.
Qed.

(** C38: the expansion ends.  The growth it may add bounds how often a list of
    statements is looked at again, and the depth counter bounds the rest, so the
    rounds always suffice; the only evaluation that may not end is that of
    [clog2] of a number above 2^62 in a count or in the width of a scratch wire
    ([Endless]), and if no count and no such width of the tree has one, the
    expansion is not endless.  When it ends with a tree, the growth has stayed
    within its limit and, unless the depth counter refused somewhere, no
    definition of a template is left below the root. *)
Theorem template_expansion_terminates rand root lim : 0 <= apply_max_growth lim < SIZE_MAX ->
  let result := jz_template_expand rand root lim in
  result <> OutOfFuel /\
  ((forall table, collect_consts (fst (gather_const_defs TEMPLATE_LEVELS root)) = Table table ->
      applies_end table root = true /\ widths_end table root = true) -> result <> Endless) /\
  (forall table e, contains "clog2" e = false -> ends_count table (Some e) = true) /\
  (forall root' c, result = Expanded root' c ->
    0 <= total_growth c <= apply_max_growth lim /\ (depth_failed c = false -> no_defs root' = true)).
Proof.
  intros Hlim result. subst result. unfold jz_template_expand.
  assert (forall table e, contains "clog2" e = false -> ends_count table (Some e) = true) as Hclog2.
  { intros table e He. pose proof (forever_clog2 table (S (String.length e)) e He) as H. unfold ends_count, eval_count_expr.
    by destruct (eval_count table _ e). }
  destruct (gather_const_defs TEMPLATE_LEVELS root) as [defs refused]. cbn [fst].
  pose proof (table_in_fuel defs) as Hfuel. destruct (collect_consts defs) as [cs| |]; [|done..]. split_and!; [| |done|].
  2: { intros Hends. destruct (Hends cs eq_refl) as [Ha Hw]. intros E.
    assert (finite cs (_ ← refuse_depth refused; _ ← collect_root root; cs ← expand_modules rand 0 (ast_children root);
      let '(root, refused) := remove_template_defs TEMPLATE_LEVELS (with_children root cs) in
      _ ← refuse_depth refused; mret root) (fun _ => True)) as Hf.
    { apply finite_then; [apply plain_refuse|]. intros _. eapply finite_bind; [by apply finite_collect_root|]. intros _ _.
      eapply finite_bind; [by apply finite_modules, applies_end_children|]. intros kids _. destruct (remove_template_defs _ _).
      apply finite_then; [apply plain_refuse|]. intros _. by apply finite_ret. }
    specialize (Hf (initial lim cs) ltac:(by split)). by rewrite E in Hf. }
  all: pose proof (expansion_ends rand root refused lim cs Hlim) as He; unfold ends in He.
  { intros E. by rewrite E in He. }
  intros root' c E. rewrite E in He. destruct He as ([Hw _] & [Hl Ht] & HQ). rewrite Hl in Hw. cbn in *. split; [lia|done].
Qed.

(** ** Scratch wires have names of their own *)

Definition no_underscore : string -> bool := string_forall (fun c => negb (Ascii.eqb c "_")).

Lemma no_underscore_cut u b v : no_underscore u = true -> u <> (b ++ String "_" v)%string.
Proof. intros Hu ->. revert Hu. unfold no_underscore. induction b as [|c b IH]; [done|]. cbn. intros [_ ?]%andb_true_iff. by apply IH. Qed.

(** The text after the last underscore is determined. *)
Lemma last_underscore a b u v : no_underscore u = true -> no_underscore v = true ->
  (a ++ String "_" u = b ++ String "_" v)%string -> a = b /\ u = v.
Proof.
  intros Hu Hv. revert b. induction a as [|c a IH]; intros [|d b]; rewrite ?append_cons, ?append_empty.
  - by intros [= ->].
  - intros [= _ E]. by apply no_underscore_cut in E.
  - intros [= _ E]. symmetry in E. by apply no_underscore_cut in E.
  - intros [= -> E]. by destruct (IH b E) as [-> ->].
Qed.

Definition digit (d : Z) : ascii := ascii_of_nat (Z.to_nat (48 + d)).

Lemma digit_spec d : 0 <= d < 10 -> code (digit d) = 48 + d /\ isdigit (digit d) = true /\ Ascii.eqb (digit d) "_" = false.
Proof.
  intros H. assert (d = 0 \/ d = 1 \/ d = 2 \/ d = 3 \/ d = 4 \/ d = 5 \/ d = 6 \/ d = 7 \/ d = 8 \/ d = 9) as E by lia.
  repeat (destruct E as [->|E]; [done|]). by subst d.
Qed.

Lemma decimal_digits_value fuel : forall n acc, 0 <= n < 2 ^ Z.of_nat fuel ->
  digits_value (decimal_digits fuel n acc) 0 = digits_value acc n.
Proof.
  induction fuel as [|fuel IH]; intros n acc Hn; cbn [decimal_digits].
  { f_equal. cbn in Hn. lia. }
  change (ascii_of_nat (Z.to_nat (48 + n mod 10))) with (digit (n mod 10)).
  destruct (digit_spec (n mod 10) ltac:(apply Z.mod_pos_bound; lia)) as (Hc & Hd & _).
  assert (forall v, digits_value (String (digit (n mod 10)) acc) v = digits_value acc (10 * v + n mod 10)) as Hstep.
  { intros v. cbn. rewrite Hd, Hc. f_equal. lia. }
  pose proof (Z.div_mod n 10 ltac:(done)). pose proof (Z.mod_pos_bound n 10 ltac:(lia)). destruct (Z.ltb_spec n 10); rewrite ?Hstep.
  - f_equal. rewrite Z.mod_small; lia.
  - rewrite IH, Hstep by (rewrite Nat2Z.inj_succ, Z.pow_succ_r in Hn by lia; lia). f_equal. lia.
Qed.

Lemma decimal_digits_plain fuel : forall n acc, 0 <= n -> no_underscore acc = true -> no_underscore (decimal_digits fuel n acc) = true.
Proof.
  induction fuel as [|fuel IH]; intros n acc Hn Hacc; cbn [decimal_digits]; [done|].
  change (ascii_of_nat (Z.to_nat (48 + n mod 10))) with (digit (n mod 10)).
  assert (no_underscore (String (digit (n mod 10)) acc) = true) as Hacc'.
  { unfold no_underscore. cbn. destruct (digit_spec (n mod 10) ltac:(apply Z.mod_pos_bound; lia)) as (_ & _ & ->). exact Hacc. }
  destruct (n <? 10); [done|]. apply IH; [|done]. apply Z.div_pos; lia.
Qed.

Lemma print_int_inj n m : 0 <= n -> 0 <= m -> print_int n = print_int m -> n = m.
Proof.
  assert (forall n, 0 <= n -> digits_value (print_int n) 0 = n) as H.
  { intros k Hk. unfold print_int. destruct (Z.ltb_spec k 0); [lia|]. unfold print_decimal. rewrite decimal_digits_value; [done|].
    split; [done|]. pose proof (Z.log2_nonneg k). rewrite Nat2Z.inj_add, Z2Nat.id by done. destruct (Z.eq_dec k 0) as [->|]; [done|].
    change (Z.of_nat 1) with 1. rewrite Z.add_1_r. apply Z.log2_spec. lia. }
  intros Hn Hm E. by rewrite <- (H n Hn), <- (H m Hm), E.
Qed.

Lemma print_int_plain n : 0 <= n -> no_underscore (print_int n) = true.
Proof. intros Hn. unfold print_int. destruct (Z.ltb_spec n 0); [lia|]. by apply decimal_digits_plain. Qed.

(** What a name is made of: template and scratch wire, call site, iteration
    and suffix. *)
Record WireKey := mkKey { key_names : string; key_callsite : Z; key_iteration : Z; key_suffix : string }.

Definition key_ok (k : WireKey) : Prop :=
  0 <= key_callsite k /\ 0 <= key_iteration k /\ no_underscore (key_suffix k) = true.

Definition key_name (k : WireKey) : string :=
  (key_names k ++ "__" ++ print_int (key_callsite k) ++ "_" ++ print_int (key_iteration k) ++ "_" ++ key_suffix k)%string.

Lemma key_name_inj k k' : key_ok k -> key_ok k' -> key_name k = key_name k' -> k = k'.
Proof.
  destruct k as [n c i x], k' as [n' c' i' x']. unfold key_ok, key_name. cbn [key_names key_callsite key_iteration key_suffix].
  intros (Hc & Hi & Hx) (Hc' & Hi' & Hx') E.
  assert (forall (n : string) pc pi x, (n ++ "__" ++ pc ++ "_" ++ pi ++ "_" ++ x = (((n ++ "_") ++ String "_" pc) ++ String "_" pi) ++ String "_" x)%string)
    as Hsplit by (intros; by rewrite !append_assoc).
  rewrite !Hsplit in E. apply last_underscore in E as [E ->]; [|done|done].
  apply last_underscore in E as [E Ei]; [|by apply print_int_plain..]. apply print_int_inj in Ei as ->; [|done..].
  apply last_underscore in E as [E Ec]; [|by apply print_int_plain..]. apply print_int_inj in Ec as ->; [|done..].
  by apply (last_underscore n n' "" "") in E as [-> _].
Qed.

Lemma truncate_full n s : (String.length (truncate n s) < n)%nat -> truncate n s = s.
Proof.
  revert n. induction s as [|c s IH]; intros [|n]; cbn; intros H; [done|done|lia|]. f_equal. apply IH. lia.
Qed.

Lemma append_cancel a s t : (a ++ s)%string = (a ++ t)%string -> s = t.
Proof. induction a as [|c a IH]; [done|]. rewrite !append_cons. intros [= E]. by apply IH. Qed.

(** What a computation from [c] leads to, if it yields something. *)
Definition leads {A} (m : XM A) (c : ExpandContext) (Q : A -> ExpandContext -> Prop) : Prop :=
  match m c with Expanded a c' => Q a c' | _ => True end.

Lemma leads_bind {A B} (m : XM A) (f : A -> XM B) c (P : A -> ExpandContext -> Prop) Q :
  leads m c P -> (forall a c', P a c' -> leads (f a) c' Q) -> leads (m ≫= f) c Q.
Proof. unfold leads, mbind, XM_bind. destruct (m c) as [a c'| | |]; [|done..]. intros HP Hf. by apply Hf. Qed.

(** The part of the context that matters here. *)
Definition view (c : ExpandContext) := (templates c, scratch_wires c, apply_counter c).

Definition quiet {A} (m : XM A) : Prop := forall c, leads m c (fun _ c' => view c' = view c).

Lemma quiet_ret {A} (a : A) : quiet (mret a).
Proof. by intros c. Qed.

Lemma quiet_bind {A B} (m : XM A) (f : A -> XM B) : quiet m -> (forall a, quiet (f a)) -> quiet (m ≫= f).
Proof.
  intros Hm Hf c. eapply leads_bind; [apply Hm|]. intros a c' Hv. specialize (Hf a c'). unfold leads in *.
  destruct (f a c'); congruence.
Qed.

Lemma quiet_get {A} (f : ExpandContext -> A) : quiet (get f).
Proof. by intros c. Qed.

Lemma quiet_report rs : quiet (report_rules rs).
Proof. by intros c. Qed.

Lemma quiet_refuse ps : quiet (refuse_depth ps).
Proof. intros c. by destruct ps. Qed.

Lemma quiet_count expr : quiet (evaluate_count expr).
Proof. intros c. unfold leads, evaluate_count, mbind, XM_bind, get. by destruct (eval_count_expr _ _). Qed.

#[export] Hint Resolve quiet_ret quiet_bind quiet_get quiet_report quiet_refuse quiet_count : expand.

Lemma quiet_clone levels sub stmts : quiet (clone_body levels sub stmts).
Proof.
  induction stmts as [|s stmts IH]; cbn [clone_body]; [auto with expand|]. destruct (substitute_in_node sub levels s) as [clone refused].
  apply quiet_bind; [auto with expand|]. intros _. apply quiet_bind; [auto with expand|]. intros []; auto with expand.
Qed.

(** A quiet step, after which the rest must lead to [Q]. *)
Lemma leads_then {A B} (m : XM A) (k : A -> XM B) c Q : quiet m ->
  (forall a c', view c' = view c -> leads (k a) c' Q) -> leads (m ≫= k) c Q.
Proof. intros Hm Hk. by eapply leads_bind. Qed.

Lemma random_chars_plain rand n : forall call, no_underscore (random_chars rand n call) = true.
Proof.
  assert (forall i c, String.get i suffix_chars = Some c -> Ascii.eqb c "_" = false) as Hget.
  { intros i c. do 62 (destruct i as [|i]; [by intros [= <-]|]). done. }
  induction n as [|n IH]; intros call; cbn [random_chars]; [done|]. destruct (String.get _ _) as [c|] eqn:E; [|done].
  unfold no_underscore. cbn. rewrite (Hget _ _ E). apply IH.
Qed.

Lemma suffixes_lead rand names : forall c,
  leads (suffixes rand names) c (fun r c' => view c' = view c /\ map fst r = names /\ Forall (fun s => no_underscore (snd s) = true) r).
Proof.
  induction names as [|n names IH]; intros c; cbn [suffixes]; [done|].
  eapply leads_bind with (P := fun s c' => view c' = view c /\ no_underscore s = true).
  { split; [done|]. apply random_chars_plain. }
  intros s c1 [Hv1 Hs]. eapply leads_bind; [apply IH|]. intros r c2 (Hv2 & Hn & Hr).
  unfold leads, mret, XM_ret. split_and!; [congruence|cbn; congruence|by constructor].
Qed.

(** The scratch wires have keys, each of its own, from call sites before
    [site], or from iterations before [i] of [site]. *)
Definition keyed (site i : Z) (ws : list JZASTNode) : Prop :=
  exists ks, map node_name ws = map (fun k => truncate 511 (key_name k)) ks /\ NoDup ks /\
    Forall (fun k => key_ok k /\ (key_callsite k < site \/ key_callsite k = site /\ key_iteration k < i)) ks.

Lemma keyed_nil site i : keyed site i [].
Proof. exists []. split_and!; [done|apply NoDup_nil_2|done]. Qed.

Lemma keyed_later site i site' i' ws : keyed site i ws -> site < site' \/ site = site' /\ i <= i' -> keyed site' i' ws.
Proof.
  intros (ks & Hn & Hd & Hf) Hle. exists ks. split_and!; [done|done|]. eapply Forall_impl; [exact Hf|]. cbn. intros k [Hk Hb].
  split; [done|lia].
Qed.

Lemma keyed_distinct site i ws : keyed site i ws -> Forall (fun w => (String.length (node_name w) < 511)%nat) ws ->
  NoDup (map node_name ws).
Proof.
  intros (ks & Hn & Hd & Hf) Hlen. rewrite Hn. apply (NoDup_fmap_2_strong (fun k => truncate 511 (key_name k))); [|done].
  assert (forall k, k ∈ ks -> key_ok k /\ truncate 511 (key_name k) = key_name k) as Hk.
  { intros k Hk. rewrite Forall_forall in Hf. split; [by apply Hf|]. apply truncate_full.
    assert (In (truncate 511 (key_name k)) (map node_name ws)) as Hin.
    { rewrite Hn. apply in_map_iff. exists k. split; [done|by apply list_elem_of_In]. }
    apply in_map_iff in Hin as (w & <- & Hw). rewrite Forall_forall in Hlen. by apply Hlen, list_elem_of_In. }
  intros k k' Hin Hin' E. destruct (Hk k Hin) as [? E1], (Hk k' Hin') as [? E2]. rewrite E1, E2 in E. by apply key_name_inj.
Qed.

(** The scratch names of the bodies of the templates are distinct; a repeated
    one is reported when the template is registered. *)
Definition distinct_scratches (ts : list TemplateEntry) : Prop :=
  forall t, In t ts -> NoDup (scratch_names (after_last is_param (ast_children (def_node t)))).

Definition scratch_key (ap : Application) (i : Z) (s : string * string) : WireKey :=
  mkKey (ap_template ap ++ "__" ++ fst s) (ap_callsite ap) i (snd s).

Lemma scratch_wire_named ap i s : In (fst s) (scratch_names (ap_body ap)) ->
  map node_name (scratch_wire ap i s) = [truncate 511 (key_name (scratch_key ap i s))].
Proof.
  intros Hin. unfold scratch_wire. destruct (List.find _ _) as [def|] eqn:E.
  - cbn. unfold mangled, key_name, scratch_key. cbn. by rewrite !append_assoc.
  - exfalso. unfold scratch_names, reg_scratches in Hin. assert (forall l : list string, In (fst s) (take 64 l) -> In (fst s) l) as Htake.
    { intros l Hl. rewrite <- (take_drop 64 l). apply in_or_app. by left. }
    apply Htake, in_map_iff in Hin as (n & Hn & Hf).
    apply filter_In in Hf as [Hn1 [Hn2 Hn3]%andb_true_iff]. pose proof (List.find_none _ _ E n Hn1) as Hno. cbn in Hno.
    rewrite Hn2 in Hno. unfold named, node_name, field_is in *. destruct (ast_name n); [|done]. cbn in Hn. rewrite Hn, String.eqb_refl in Hno. done.
Qed.

Lemma keyed_iteration ap i ws scratch : 0 <= ap_callsite ap -> 0 <= i -> keyed (ap_callsite ap) i ws ->
  map fst scratch = scratch_names (ap_body ap) -> NoDup (map fst scratch) -> Forall (fun s => no_underscore (snd s) = true) scratch ->
  keyed (ap_callsite ap) (i + 1) (ws ++ flat_map (scratch_wire ap i) scratch).
Proof.
  intros Hs Hi (ks & Hn & Hd & Hf) Hnames Hnd Hplain. exists (ks ++ map (scratch_key ap i) scratch). split_and!.
  - rewrite !map_app, Hn. f_equal.
    assert (forall s, In s scratch -> In (fst s) (scratch_names (ap_body ap))) as Hin by (intros; rewrite <- Hnames; by apply in_map).
    clear - Hin. induction scratch as [|s scratch IH]; [done|]. cbn [flat_map map]. rewrite map_app, scratch_wire_named by (apply Hin; by left).
    cbn. f_equal. apply IH. intros. apply Hin. by right.
  - apply NoDup_app. split_and!; [done| |].
    + rewrite Forall_forall in Hf. intros k Hk Hk'. apply list_elem_of_In, in_map_iff in Hk' as (s & <- & _). destruct (Hf _ Hk) as [_ Hb].
      cbn in Hb. lia.
    + clear - Hnd. induction scratch as [|s scratch IH]; [apply NoDup_nil_2|]. cbn in *. apply NoDup_cons in Hnd as [Hni Hnd].
      apply NoDup_cons. split; [|by apply IH]. intros Hk. apply list_elem_of_In, in_map_iff in Hk as (s' & E & Hs').
      apply Hni, list_elem_of_In, in_map_iff. exists s'. split; [|done]. unfold scratch_key in E. injection E as E _.
      by apply append_cancel in E; injection E.
  - apply Forall_app. split.
    + eapply Forall_impl; [exact Hf|]. cbn. intros k [Hk Hb]. split; [done|lia].
    + apply Forall_forall. rewrite Forall_forall in Hplain. intros k Hk. apply list_elem_of_In, in_map_iff in Hk as (s & <- & Hin).
      split; [|cbn; lia]. split_and!; [done|done|]. by apply Hplain, list_elem_of_In.
Qed.

Lemma iterate_leads rand levels ap n : 0 <= ap_callsite ap -> NoDup (scratch_names (ap_body ap)) -> forall i c, 0 <= i ->
  keyed (ap_callsite ap) i (scratch_wires c) ->
  leads (iterate rand levels ap n i) c (fun _ c' => templates c' = templates c /\ apply_counter c' = apply_counter c /\
    keyed (ap_callsite ap + 1) 0 (scratch_wires c')).
Proof.
  intros Hs Hnd. induction n as [|n IH]; intros i c Hi Hk; cbn [iterate].
  { split_and!; [done|done|]. eapply keyed_later; [exact Hk|lia]. }
  eapply leads_bind; [apply suffixes_lead|]. intros scratch c1 (Hv1 & Hn & Hp). injection Hv1 as Ht1 Hw1 Hc1.
  eapply leads_bind with (P := fun ws c' => ws = scratch_wires c1 /\ c' = c1); [done|]. intros ? ? [-> ->].
  eapply leads_bind with (P := fun _ c' => templates c' = templates c /\ apply_counter c' = apply_counter c /\
    keyed (ap_callsite ap) (i + 1) (scratch_wires c')).
  { split_and!; [done|done|]. cbn. apply keyed_iteration; rewrite ?Hw1, ?Hn; done. }
  intros u c2 (Ht2 & Hc2 & Hk2). apply leads_then; [apply quiet_clone|]. intros copy c3 Hv3. injection Hv3 as Ht3 Hw3 Hc3.
  rewrite <- Hw3 in Hk2. destruct copy as [copy|].
  - eapply leads_bind; [apply (IH (i + 1)); [lia|done]|]. cbn. intros r c4 (Ht4 & Hc4 & Hk4). split_and!; [congruence|congruence|done].
  - split_and!; [congruence|congruence|]. eapply keyed_later; [exact Hk2|lia].
Qed.

Section Distinct.
Context (ts : list TemplateEntry) (distinct : distinct_scratches ts).
Context (scope : nat) (elsewhere : Forall (fun t => scope_module t <> Some scope) ts).

Definition sited (c : ExpandContext) : Prop :=
  templates c = ts /\ 0 <= apply_counter c /\ keyed (apply_counter c) 0 (scratch_wires c).

Definition sites {A} (m : XM A) : Prop := forall c, sited c -> leads m c (fun _ c' => sited c').

Lemma sites_quiet {A} (m : XM A) : quiet m -> sites m.
Proof.
  intros Hm c Hc. specialize (Hm c). unfold leads in *. destruct (m c) as [a c'| | |]; [|done..]. unfold sited in *.
  injection Hm as Ht Hw Ha. by rewrite Ht, Hw, Ha.
Qed.

Lemma sites_bind {A B} (m : XM A) (f : A -> XM B) : sites m -> (forall a, sites (f a)) -> sites (m ≫= f).
Proof. intros Hm Hf c Hc. eapply leads_bind; [by apply Hm|]. intros a c'. apply Hf. Qed.

Lemma sites_remove loc rule : sites (_ ← report_rule loc rule; mret (Some (@nil JZASTNode))).
Proof. apply sites_quiet. unfold report_rule. auto with expand. Qed.

Lemma sites_add_growth g : sites (add_growth g).
Proof. intros c Hc. exact Hc. Qed.

Lemma quiet_sites_then {A B} (m : XM A) (f : A -> XM B) : quiet m -> (forall a, sites (f a)) -> sites (m ≫= f).
Proof. intros Hm. by apply sites_bind, sites_quiet. Qed.

Lemma template_found name from t : find_template ts name from = Some t -> In t ts.
Proof.
  unfold find_template. destruct (List.find _ ts) as [t'|] eqn:E.
  - intros [= ->]. by apply List.find_some in E as [? _].
  - intros E'%List.find_some. apply in_rev, E'.
Qed.

Lemma sites_expand_apply rand levels module apply : sites (expand_apply rand levels scope module apply).
Proof using Type distinct.
  intros c Hc. unfold expand_apply. destruct (ast_name apply) as [name|]; [|done].
  eapply leads_bind with (P := fun l c' => l = ts /\ sited c'); [by destruct Hc|]. clear c Hc. intros l c [-> Hc]. revert c Hc.
  destruct (find_template ts name scope) as [t|] eqn:Et; [|apply sites_remove]. apply template_found, distinct in Et as Hnd.
  apply quiet_sites_then; [auto with expand|]. intros _. destruct (negb _); [apply sites_remove|].
  destruct (64 <? _)%nat; [by intros c|]. do 2 (apply quiet_sites_then; [auto with expand|]; intros ?).
  apply quiet_sites_then; [destruct (ast_text apply); auto with expand|]. intros [count|]; [|apply sites_remove].
  destruct (count <? 0); [apply sites_remove|]. destruct (_ <? count); [apply sites_remove|].
  cbv zeta. apply quiet_sites_then; [auto with expand|]. intros total. destruct (_ && _); [apply sites_remove|].
  apply sites_bind; [apply sites_add_growth|]. intros _. apply quiet_sites_then; [auto with expand|]. intros _ c (Ht & Ha & Hk).
  eapply leads_bind with (P := fun callsite c' => callsite = apply_counter c /\ apply_counter c' = apply_counter c + 1 /\
    templates c' = templates c /\ scratch_wires c' = scratch_wires c); [done|]. intros callsite c1 (-> & Ha1 & Ht1 & Hw1).
  match goal with |- leads (iterate _ _ ?ap ?n _) _ _ => pose proof (iterate_leads rand levels ap n Ha Hnd 0 c1 ltac:(done)) as Hi end.
  cbn in Hi. rewrite Hw1 in Hi. specialize (Hi Hk). unfold leads in *. destruct (iterate _ _ _ _ _ c1) as [r c2| | |]; [|done..].
  destruct Hi as (Ht2 & Ha2 & Hk2). unfold sited. rewrite Ht2, Ha2, Ha1, Ht1. split_and!; [done|lia|done].
Qed.

Lemma sites_update def : sites (update_definition scope def).
Proof using Type elsewhere.
  intros c (Ht & Hc). split; [|exact Hc]. cbn. rewrite Ht. clear - elsewhere. induction ts as [|t l IH]; [done|].
  apply Forall_cons in elsewhere as [Hn Hl]. cbn. rewrite IH by done. f_equal. unfold is_definition. by rewrite bool_decide_false.
Qed.

Lemma sites_expand_children expand apply :
  (forall live n, (forall cs, sites (live cs)) -> sites (expand live n)) -> (forall a, sites (apply a)) ->
  forall n live before cs, (forall cs, sites (live cs)) -> sites (expand_children expand apply live n before cs).
Proof.
  intros He Ha n. induction n as [|n IH]; intros live before [|x rest] Hl; cbn [expand_children]; try (by intros c).
  destruct (node_is _ _).
  - apply sites_bind; [apply Ha|]. intros [es|]; [|by intros c]. apply sites_bind; [apply Hl|]. intros _.
    destruct es as [|s [|s2 es]]; [by apply IH| |by apply IH]. apply sites_bind; [by apply IH|]. intros [? ?]. by intros c.
  - apply sites_bind; [apply He; intros; apply Hl|]. intros [y []]; [|by intros c].
    apply sites_bind; [by apply IH|]. intros [? ?]. by intros c.
Qed.

Lemma sites_expand_applies rand module levels : forall live node, (forall cs, sites (live cs)) ->
  sites (expand_applies_in_node rand levels scope module live node).
Proof using Type distinct elsewhere.
  induction levels as [|levels IH]; intros live node Hl; cbn [expand_applies_in_node].
  { apply sites_quiet. auto with expand. }
  apply quiet_sites_then.
  { unfold children_fuel. auto with expand. }
  intros n. apply sites_bind; [|intros [? ?]; by intros c].
  apply (sites_expand_children (expand_applies_in_node rand levels scope module)); [apply IH|intros; apply sites_expand_apply|].
  intros cs. apply sites_bind; [apply Hl|]. intros _. destruct (node_is _ _); [apply sites_update|by intros c].
Qed.
End Distinct.

(** The wires go to the end of the first WIRE block of the module, which is
    added if there is none. *)
Lemma insert_wires_first loc wires cs : exists pre b post old,
  insert_wires loc wires cs = pre ++ b :: post /\ Forall (fun x => node_is JZ_AST_WIRE_BLOCK x = false) pre /\
  node_is JZ_AST_WIRE_BLOCK b = true /\ ast_children b = old ++ wires.
Proof.
  induction cs as [|x cs (pre & b & post & old & E & Hpre & Hb & Hw)]; cbn.
  - by exists [], (mkNode JZ_AST_WIRE_BLOCK loc None (Some "WIRE"%string) None None wires), [], [].
  - destruct (node_is JZ_AST_WIRE_BLOCK x) eqn:Ex.
    + exists [], (with_children x (ast_children x ++ wires)), cs, (ast_children x). by destruct x.
    + exists (x :: pre), b, post, old. rewrite E. split_and!; [done|by constructor|done|done].
Qed.

(** C39: the scratch wires of the applications of a module become wires with
    names of their own, whatever the random suffixes are, for template, call site
    and iteration are part of the name; and they are declared in the module, at the
    end of its first WIRE block.  It is so if the scratch wires of every template
    have different names, no template belongs to the module itself (one that does
    may be expanded itself) and no name fills its buffer of 512 characters,
    where the end is cut off. *)
Theorem scratch_wires_distinct rand i module c module' c' :
  distinct_scratches (templates c) -> Forall (fun t => scope_module t <> Some i) (templates c) -> 0 <= apply_counter c ->
  expand_module rand i module c = Expanded module' c' ->
  Forall (fun w => (String.length (node_name w) < 511)%nat) (scratch_wires c') ->
  NoDup (map node_name (scratch_wires c')) /\
  (scratch_wires c' <> [] -> exists pre b post old,
     ast_children module' = pre ++ b :: post /\ Forall (fun x => node_is JZ_AST_WIRE_BLOCK x = false) pre /\
     node_is JZ_AST_WIRE_BLOCK b = true /\ ast_children b = old ++ scratch_wires c').
Proof.
  intros Hd Helse Ha He Hlen. unfold expand_module in He.
  assert (leads (expand_applies_in_node rand TEMPLATE_LEVELS i module (fun _ => mret ()) module)
    (mkExpand (templates c) (consts c) (limits c) [] (apply_counter c) (total_growth c) (rand_calls c) (depth_failed c)
       (depth_reported c) (reports c)) (fun _ c' => sited (templates c) c')) as Hs.
  { apply sites_expand_applies; [done|done|intros ? ? Hc; exact Hc|]. split_and!; [done|done|apply keyed_nil]. }
  unfold leads, mbind, XM_bind, set_scratch_wires in *.
  destruct (expand_applies_in_node _ _ _ _ _ _ _) as [[m ok] c1| | |]; [|discriminate He..].
  injection He as <- <-. destruct Hs as (_ & _ & Hk). split; [by eapply keyed_distinct|]. clear. intros Hne.
  unfold insert_scratch_wires. destruct (scratch_wires c1) as [|w0 ws]; [done|].
  destruct (insert_wires_first (ast_loc m) (w0 :: ws) (ast_children m)) as (pre & b & post & old & E & H).
  exists pre, b, post, old. rewrite <- E. split; [by destruct m|done].
Qed.

(** ** Substitution in texts *)

Definition is_word : string -> bool := string_forall is_word_char.
Definition at_boundary (s : string) : bool := boundary (first_char s).

(** The words of a text and the characters between them. *)
Fixpoint tokens (s : string) : list string :=
  match s with
  | EmptyString => []
  | String c s =>
      match tokens s with
      | t :: ts => if is_word_char c && negb (at_boundary t) then String c t :: ts else String c EmptyString :: t :: ts
      | [] => [String c EmptyString]
      end
  end.

Fixpoint text_of (ts : list string) : string :=
  match ts with [] => EmptyString | t :: ts => (t ++ text_of ts)%string end.

Lemma text_of_app ts ts' : text_of (ts ++ ts') = (text_of ts ++ text_of ts')%string.
Proof. induction ts as [|t ts IH]; [done|]. cbn. by rewrite IH, append_assoc. Qed.

Lemma text_of_tokens s : text_of (tokens s) = s.
Proof.
  induction s as [|c s IH]; [done|]. cbn [tokens]. destruct (tokens s) as [|t ts]; [by rewrite <- IH|].
  destruct (_ && _); cbn in *; by rewrite <- IH.
Qed.

Lemma tokens_head s : match tokens s with [] => s = EmptyString | t :: _ => first_char t = first_char s end.
Proof. destruct s as [|c s]; [done|]. cbn [tokens]. destruct (tokens s) as [|t ts]; [done|]. by destruct (_ && _). Qed.

Lemma tokens_other c s : is_word_char c = false -> tokens (String c s) = String c "" :: tokens s.
Proof. intros Hc. cbn [tokens]. rewrite Hc. by destruct (tokens s). Qed.

Lemma tokens_word w s : w <> EmptyString -> is_word w = true -> at_boundary s = true -> tokens (w ++ s) = w :: tokens s.
Proof.
  intros Hne Hw Hs. induction w as [|c w IH]; [done|]. unfold is_word in *. cbn in Hw. apply andb_true_iff in Hw as [Hc Hw].
  rewrite append_cons. cbn [tokens]. destruct w as [|d w].
  - rewrite append_empty. pose proof (tokens_head s) as Hh. destruct (tokens s) as [|t ts]; [done|]. unfold at_boundary in *.
    by rewrite Hh, Hs, andb_comm.
  - rewrite IH by done. cbn in Hw. apply andb_true_iff in Hw as [Hd _]. unfold at_boundary. cbn. by rewrite Hc, Hd.
Qed.

(** Texts are words and single characters in turn. *)
Lemma token_ind (P : string -> Prop) : P EmptyString ->
  (forall c s, is_word_char c = false -> P s -> P (String c s)) ->
  (forall w s, w <> EmptyString -> is_word w = true -> at_boundary s = true -> P s -> P (w ++ s)%string) -> forall s, P s.
Proof.
  intros H0 H1 H2. assert (forall s, exists w r, s = (w ++ r)%string /\ is_word w = true /\ at_boundary r = true) as Hcut.
  { induction s as [|c s (w & r & -> & Hw & Hr)]; [by exists "", ""|]. destruct (is_word_char c) eqn:Hc.
    - exists (String c w), r. unfold is_word in *. cbn. by rewrite Hc.
    - exists "", (String c (w ++ r)%string). unfold at_boundary. cbn. by rewrite Hc. }
  enough (forall n s, (String.length s < n)%nat -> P s) by eauto. induction n as [|n IH]; [lia|]. intros s Hs.
  destruct (Hcut s) as (w & r & -> & Hw & Hr). rewrite length_append in Hs. destruct w as [|c w].
  - rewrite append_empty. destruct r as [|c r]; [done|]. apply H1; [by apply negb_true_iff|]. apply IH. cbn in Hs. lia.
  - apply H2; [done|done|done|]. apply IH. cbn in Hs. lia.
Qed.

Section Replace.
Context (old new_str : string) (old_some : old <> EmptyString) (old_word : is_word old = true).

Notation replaced := (replace_from old new_str).

Definition after_word (prev : option ascii) : Prop := boundary prev = false.

Lemma replaced_skip u : forall prev copy s, after_word prev -> is_word u = true ->
  exists prev', after_word prev' /\
    replaced prev (String.length u) copy (u ++ s) = ((if copy then u else "") ++ replaced prev' O true s)%string.
Proof.
  induction u as [|c u IH]; intros prev copy s Hp Hu.
  - exists prev. split; [done|]. rewrite append_empty. cbn [String.length]. destruct copy; rewrite append_empty; [done|]. by destruct s.
  - unfold is_word in Hu. cbn in Hu. apply andb_true_iff in Hu as [Hc Hu].
    destruct (IH (Some c) copy s) as (prev' & Hp' & E); [unfold after_word; cbn; by rewrite Hc|done|]. exists prev'. split; [done|].
    rewrite append_cons. cbn. rewrite E. by destruct copy.
Qed.

Lemma old_cons : exists o old', old = String o old'.
Proof using Type old_some. clear old_word. destruct old as [|o old']; [done|]. by exists o, old'. Qed.

Lemma replaced_boundary prev s : at_boundary s = true -> replaced prev O true s = replaced None O true s.
Proof using Type old_some old_word.
  destruct s as [|c s]; [done|]. intros Hs. cbn. destruct old as [|o old']; [done|]. unfold is_word in old_word. cbn in old_word.
  apply andb_true_iff in old_word as [Ho _]. cbn. destruct (Ascii.eqb o c) eqn:E; [|done]. apply Ascii.eqb_eq in E as ->.
  unfold at_boundary in Hs. cbn in Hs. by rewrite Ho in Hs.
Qed.

(** A word at the start of [w ++ s] is a part of [w]. *)
Lemma word_prefix u w s r : is_word u = true -> at_boundary s = true -> (w ++ s = u ++ r)%string ->
  exists w2, w = (u ++ w2)%string /\ r = (w2 ++ s)%string.
Proof.
  clear. revert w. induction u as [|c u IH]; intros w Hu Hs E; [by exists w|]. unfold is_word in Hu. cbn in Hu.
  apply andb_true_iff in Hu as [Hc Hu]. rewrite append_cons in E. destruct w as [|d w].
  - rewrite append_empty in E. subst s. unfold at_boundary in Hs. cbn in Hs. by rewrite Hc in Hs.
  - rewrite append_cons in E. injection E as -> E. destruct (IH w Hu Hs E) as (w2 & -> & ->). by exists w2.
Qed.

Lemma word_app u v : is_word (u ++ v)%string = is_word u && is_word v.
Proof. clear. unfold is_word. induction u as [|c u IH]; [done|]. rewrite append_cons. cbn. by rewrite IH, andb_assoc. Qed.

Lemma replaced_inside n : forall w prev s, (String.length w <= n)%nat -> after_word prev -> is_word w = true -> at_boundary s = true ->
  replaced prev O true (w ++ s) = (w ++ replaced None O true s)%string.
Proof using Type old_some old_word.
  induction n as [|n IH]; intros [|c w] prev s Hn Hp Hw Hs; rewrite ?append_empty; try by apply replaced_boundary; cbn in Hn.
  { cbn in Hn. lia. }
  cbn in Hn. rewrite !append_cons. cbn [replace_from]. destruct (strip_prefix old _) as [after|] eqn:E.
  - unfold after_word in Hp. rewrite Hp. cbn [andb]. apply strip_prefix_spec in E. rewrite <- append_cons in E.
    apply word_prefix in E as (w2 & E & _); [|done|done]. destruct old_cons as (o & old' & Eo). rewrite Eo, append_cons in E. injection E as -> ->.
    replace (pred (String.length old)) with (String.length old') by (by rewrite Eo). rewrite append_assoc. unfold is_word in Hw. cbn in Hw. apply andb_true_iff in Hw as [Ho Hw].
    change (is_word (old' ++ w2) = true) in Hw. rewrite word_app in Hw. apply andb_true_iff in Hw as [Ho' Hw2].
    destruct (replaced_skip old' (Some o) true (w2 ++ s)) as (prev' & Hp' & Es); [unfold after_word; cbn; by rewrite Ho|done|].
    rewrite Es, IH; [by rewrite append_assoc| |done|done|done]. rewrite length_append in Hn. lia.
  - unfold is_word in Hw. cbn in Hw. apply andb_true_iff in Hw as [Hc Hw]. rewrite IH; [done|lia|unfold after_word; cbn; by rewrite Hc|done|done].
Qed.

Lemma replaced_word w s : w <> EmptyString -> is_word w = true -> at_boundary s = true ->
  replaced None O true (w ++ s) = ((if String.eqb w old then new_str else w) ++ replaced None O true s)%string.
Proof using Type old_some old_word.
  intros Hne Hw Hs. destruct w as [|c w]; [done|]. rewrite append_cons. cbn [replace_from].
  assert (is_word_char c = true /\ is_word w = true) as [Hc Hw'] by (unfold is_word in *; cbn in Hw; by apply andb_true_iff in Hw).
  assert (after_word (Some c)) as Hp by (unfold after_word; cbn; by rewrite Hc).
  destruct (strip_prefix old _) as [after|] eqn:E.
  - apply strip_prefix_spec in E. rewrite <- append_cons in E. apply word_prefix in E as (w2 & E & ->); [|done|done].
    destruct old_cons as (o & old' & Eo). rewrite Eo, append_cons in E. injection E as -> ->. rewrite word_app in Hw'.
    apply andb_true_iff in Hw' as [Ho Hw2]. replace (pred (String.length old)) with (String.length old') by (by rewrite Eo).
    rewrite append_assoc. destruct w2 as [|d w2].
    + rewrite !append_empty, append_nil_r, <- Eo, String.eqb_refl. unfold at_boundary in Hs. rewrite Hs. cbn [boundary andb].
      destruct (replaced_skip old' (Some o) false s) as (prev' & _ & ->); [done|done|]. by rewrite append_empty, replaced_boundary.
    + assert (is_word_char d = true) as Hd by (unfold is_word in Hw2; cbn in Hw2; by apply andb_true_iff in Hw2 as [? _]).
      cbn [boundary first_char]. rewrite append_cons at 1. cbn [first_char boundary]. rewrite Hd. cbn [negb andb].
      destruct (replaced_skip old' (Some o) true (String d w2 ++ s)) as (prev' & Hp' & ->); [done|done|].
      rewrite (replaced_inside _ (String d w2)) by done. rewrite <- append_assoc, Eo.
      destruct (String.eqb_spec (String o (old' ++ String d w2)) (String o old')) as [Eq|_]; [|by rewrite append_cons].
      exfalso. injection Eq as Eq. apply (f_equal String.length) in Eq. rewrite length_append in Eq. cbn in Eq. lia.
  - rewrite (replaced_inside (String.length w) w) by done. destruct (String.eqb_spec (String c w) old) as [Eq|_]; [|done].
    exfalso. rewrite <- append_cons, Eq in E. assert (strip_prefix old (old ++ s) = Some s) as E' by (by apply strip_prefix_spec). congruence.
Qed.

Definition replace_token (t : string) : list string := if String.eqb t old then tokens new_str else [t].

Lemma tokens_join w s : is_word w = true -> w <> EmptyString -> at_boundary s = true ->
  tokens ((if String.eqb w old then new_str else w) ++ s) = replace_token w ++ tokens s.
Proof.
  clear old_word old_some. intros Hw Hne Hs. unfold replace_token. destruct (String.eqb w old); [|by apply tokens_word].
  assert (forall u, tokens (u ++ s) = tokens u ++ tokens s) as H; [|apply H].
  apply token_ind; [done| |].
  - intros c u Hc IH. rewrite append_cons, !tokens_other, IH by done. done.
  - intros u v Hune Hu Hv IH. rewrite append_assoc. rewrite (tokens_word u v) by done. rewrite tokens_word, IH; [done|done|done|].
    destruct v; [by rewrite append_empty|done].
Qed.

(** Replacing rewrites the words that are [old], and nothing else. *)
Lemma tokens_replace s : tokens (replaced None O true s) = flat_map replace_token (tokens s) /\
  (at_boundary s = true -> at_boundary (replaced None O true s) = true).
Proof using Type old_some old_word.
  revert s. apply token_ind; [done| |].
  - intros c s Hc [IH _].
    assert (replaced None O true (String c s) = String c (replaced (Some c) O true s)) as E.
    { cbn [replace_from]. destruct (strip_prefix old _) as [after|] eqn:E; [|done]. exfalso. apply strip_prefix_spec in E.
      destruct old as [|o old']; [done|]. rewrite append_cons in E. injection E as -> _. unfold is_word in old_word. cbn in old_word.
      by rewrite Hc in old_word. }
    assert (replaced (Some c) O true s = replaced None O true s) as E2.
    { clear E. destruct s as [|d s]; [done|]. cbn. by rewrite Hc. }
    rewrite E, E2, !tokens_other, IH by done. split.
    + cbn. unfold replace_token. destruct (String.eqb_spec (String c "") old) as [Eq|_]; [|done].
      exfalso. rewrite <- Eq in old_word. unfold is_word in old_word. cbn in old_word. by rewrite Hc in old_word.
    + intros _. unfold at_boundary. cbn. by rewrite Hc.
  - intros w s Hne Hw Hs [IH Hb]. rewrite replaced_word, tokens_join, IH by auto. rewrite (tokens_word w s) by done. split; [done|].
    destruct w as [|c w]; [done|]. unfold at_boundary. rewrite append_cons. cbn. unfold is_word in Hw. cbn in Hw.
    apply andb_true_iff in Hw as [-> _]. done.
Qed.
End Replace.

(** What substitution replaces in a text, in order. *)
Definition replacements (sub : Subst) : list (string * string) :=
  map (fun p => (fst p, arg_text (snd p))) (sub_params sub) ++
  match sub_idx sub with Some i => [("IDX"%string, print_int i)] | None => [] end.

(** Names are words, and none occurs in what an earlier one is replaced by. *)
Fixpoint hygienic (rs : list (string * string)) : bool :=
  match rs with
  | [] => true
  | (old, new_str) :: rs =>
      negb (is_empty_string old) && is_word old &&
      forallb (fun r => negb (existsb (String.eqb (fst r)) (tokens new_str))) rs && hygienic rs
  end.

Definition replacement (rs : list (string * string)) (t : string) : option string :=
  snd <$> List.find (fun r => String.eqb t (fst r)) rs.

Lemma substitute_text_fold sub s :
  substitute_text sub s = fold_left (fun s r => string_replace_whole_word s (fst r) (snd r)) (replacements sub) s.
Proof.
  unfold substitute_text, replacements. rewrite fold_left_app.
  assert (forall ps s, fold_left (fun s p => string_replace_whole_word s (fst p) (arg_text (snd p))) ps s =
    fold_left (fun s r => string_replace_whole_word s (fst r) (snd r)) (map (fun p => (fst p, arg_text (snd p))) ps) s) as Hm.
  { induction ps as [|p ps IH]; intros u; [done|]. cbn. apply IH. }
  rewrite Hm. by destruct (sub_idx sub).
Qed.

Definition token_after (rs : list (string * string)) (t : string) : list string :=
  match replacement rs t with Some new_str => tokens new_str | None => [t] end.

Lemma flat_map_twice {A B C} (f : B -> list C) (g : A -> list B) l :
  flat_map f (flat_map g l) = flat_map (fun x => flat_map f (g x)) l.
Proof. induction l as [|x l IH]; [done|]. cbn. by rewrite flat_map_app, IH. Qed.

Lemma tokens_fold rs : hygienic rs = true -> forall s,
  tokens (fold_left (fun s r => string_replace_whole_word s (fst r) (snd r)) rs s) = flat_map (token_after rs) (tokens s).
Proof.
  induction rs as [|[old new_str] rs IH]; cbn [hygienic fold_left]; intros Hh s.
  { induction (tokens s) as [|t ts IH]; [done|]. cbn. by rewrite <- IH. }
  apply andb_true_iff in Hh as [[[Hne Hw]%andb_true_iff Hno]%andb_true_iff Hh].
  rewrite IH by done. cbn [fst snd]. unfold string_replace_whole_word. apply negb_true_iff in Hne. rewrite Hne.
  assert (old <> EmptyString) as Hne' by (intros ->; done). destruct (tokens_replace old new_str Hne' Hw s) as [-> _].
  rewrite flat_map_twice. apply flat_map_ext. intros t. unfold replace_token, token_after at 2, replacement. cbn [List.find fst].
  destruct (String.eqb t old); [|cbn; by rewrite app_nil_r]. cbn [snd fmap option_fmap option_map].
  assert (forall t, In t (tokens new_str) -> token_after rs t = [t]) as Hkeep.
  { intros u Hu. unfold token_after, replacement. destruct (List.find _ rs) as [r|] eqn:E; [|done]. apply List.find_some in E as [Hr Eu].
    apply String.eqb_eq in Eu as ->. rewrite forallb_forall in Hno. specialize (Hno r Hr). apply negb_true_iff in Hno.
    exfalso. assert (existsb (String.eqb (fst r)) (tokens new_str) = true) as Hex; [|congruence].
    apply existsb_exists. exists (fst r). split; [done|apply String.eqb_refl]. }
  clear - Hkeep. induction (tokens new_str) as [|u us IHu]; [done|]. cbn. rewrite Hkeep by (by left). cbn. f_equal. apply IHu.
  intros v Hv. apply Hkeep. by right.
Qed.

(** C40: in a text, substitution replaces the words that are parameters, and
    [IDX], all at once, and keeps every other character, as long as no name
    occurs in what an earlier one is replaced by. *)
Theorem substitution_simultaneous sub s : hygienic (replacements sub) = true ->
  substitute_text sub s = text_of (map (fun t => default t (replacement (replacements sub) t)) (tokens s)).
Proof.
  intros Hh. rewrite <- (text_of_tokens (substitute_text sub s)), substitute_text_fold, tokens_fold by done.
  induction (tokens s) as [|t ts IH]; [done|]. cbn. rewrite text_of_app, IH. f_equal. unfold token_after.
  destruct (replacement _ t); cbn; [apply text_of_tokens|apply append_nil_r].
Qed.

Definition some_subst : Subst :=
  mkSubst [("w", mkNode JZ_AST_EXPR_IDENTIFIER (mkLoc 1 1) (Some "width"%string) None None None []);
           ("n", mkNode JZ_AST_EXPR_LITERAL (mkLoc 1 1) None None (Some "4'd3"%string) None [])]%string (Some 2) "t" 0 2 [].

Lemma substitution_simultaneous_witness :
  hygienic (replacements some_subst) = true /\
  text_of (map (fun t => default t (replacement (replacements some_subst) t)) (tokens "w*n+IDX-wn")) = "width*4'd3+2-wn"%string /\
  substitute_text some_subst "w*n+IDX-wn" = "width*4'd3+2-wn"%string.
Proof.
  split_and!; [reflexivity|reflexivity|]. exact (substitution_simultaneous some_subst "w*n+IDX-wn" eq_refl).
Defined.


(** ** Where expansion departs from its description *)

Definition at_ (line : Z) : JZLocation := mkLoc line 1.
Definition ident (name : string) : JZASTNode := mkNode JZ_AST_EXPR_IDENTIFIER (at_ 1) (Some name) None None None [].
Definition param (name : string) : JZASTNode := mkNode JZ_AST_TEMPLATE_PARAM (at_ 1) (Some name) None None None [].
Definition assign (l r : JZASTNode) : JZASTNode := mkNode JZ_AST_STMT_ASSIGN (at_ 1) None None (Some "="%string) None [l; r].
Definition apply_ (name : string) (args : list JZASTNode) : JZASTNode :=
  mkNode JZ_AST_TEMPLATE_APPLY (at_ 2) (Some name) None None None args.
Definition template_ (name : string) (cs : list JZASTNode) : JZASTNode :=
  mkNode JZ_AST_TEMPLATE_DEF (at_ 3) (Some name) None None None cs.
Definition block_ (cs : list JZASTNode) : JZASTNode := mkNode JZ_AST_BLOCK (at_ 4) None (Some "ASYNCHRONOUS"%string) None None cs.
Definition module_ (cs : list JZASTNode) : JZASTNode := mkNode JZ_AST_MODULE (at_ 5) (Some "m"%string) None None None cs.
Definition root_ (cs : list JZASTNode) : JZASTNode := mkNode JZ_AST_PROJECT (at_ 6) None None None None cs.

Definition subst_with (params : list (string * JZASTNode)) : Subst := mkSubst params None "t" 0 0 [].

(** The children of the module's block, and the rules reported. *)
Definition expanded (root : JZASTNode) : option (list JZASTNode * list TemplateRule) :=
  match jz_template_expand (fun _ => 0) root (mkApplyLimits 100 1000) with
  | Expanded (mkNode _ _ _ _ _ _ (mkNode _ _ _ _ _ _ (mkNode _ _ _ _ _ _ cs :: _) :: _)) c => Some (cs, map tr_rule (reports c))
  | _ => None
  end.

Definition scratch_ (name : string) : JZASTNode := mkNode JZ_AST_SCRATCH_DECL (at_ 1) (Some name) None None (Some "8"%string) [].
Definition if_ (cond : string) (cs : list JZASTNode) : JZASTNode :=
  mkNode JZ_AST_STMT_IF (at_ 7) None None None None (ident cond :: cs).

(** The number of wires of the module, and the rules reported. *)
Definition wires_of (root : JZASTNode) : option (nat * list TemplateRule) :=
  match jz_template_expand (fun _ => 0) root (mkApplyLimits 100 1000) with
  | Expanded (mkNode _ _ _ _ _ _ (m :: _)) c =>
      Some (length (flat_map ast_children (List.filter (node_is JZ_AST_WIRE_BLOCK) (ast_children m))), map tr_rule (reports c))
  | _ => None
  end.

(** Copies [p] to [q] through a scratch wire. *)
Definition through : JZASTNode :=
  template_ "through" [param "p"; param "q"; scratch_ "s"; assign (ident "s") (ident "p"); assign (ident "q") (ident "s")].

(** Copies [p] to [q], and by [through] to [r]. *)
Definition both : JZASTNode :=
  template_ "both" [param "p"; param "q"; param "r"; assign (ident "q") (ident "p"); apply_ "through" [ident "p"; ident "r"]].

Definition applied_twice : JZASTNode :=
  block_ [apply_ "both" [ident "a"; ident "b"; ident "c"]; apply_ "both" [ident "d"; ident "e"; ident "f"]].

(** Substitution in texts takes the base of a literal for a name, and
    replaces the parameters one after the other, so that an argument that is
    named as a later parameter is replaced again.  A template whose body is one
    IF with an application inside is not expanded to the end: what replaces an
    application as one statement is not looked at, and the tree keeps an
    application; with a second statement in the body it does not.  A template
    of the file with an application in its body makes scratch wires for each of
    its own applications; one of a module is expanded itself, once, so that its
    applications share the wire, which is reported as a foreign name. *)
Theorem template_expansion_misses :
  substitute_text (subst_with [("b1", ident "x")]) "1'b1" = "1'x"%string /\
  substitute_text (subst_with [("a", ident "b"); ("b", ident "c")]) "a+b" = "c+c"%string /\
  expanded (root_ [module_ [block_ [apply_ "outer" [ident "y"; ident "z"]]];
                   template_ "outer" [param "p"; param "q"; if_ "p" [apply_ "inner" [ident "p"; ident "q"]]];
                   template_ "inner" [param "p"; param "q"; assign (ident "p") (ident "q")]]) =
    Some ([if_ "y" [apply_ "inner" [ident "y"; ident "z"]]], []) /\
  expanded (root_ [module_ [block_ [apply_ "outer" [ident "y"; ident "z"]]];
                   template_ "outer" [param "p"; param "q"; assign (ident "p") (ident "q"); if_ "p" [apply_ "inner" [ident "p"; ident "q"]]];
                   template_ "inner" [param "p"; param "q"; assign (ident "p") (ident "q")]]) =
    Some ([assign (ident "y") (ident "z"); if_ "y" [assign (ident "y") (ident "z")]], []) /\
  wires_of (root_ [module_ [applied_twice]; both; through]) = Some (2%nat, []) /\
  wires_of (root_ [module_ [both; applied_twice]; through]) =
    Some (1%nat, [TEMPLATE_EXTERNAL_REF; TEMPLATE_EXTERNAL_REF; TEMPLATE_EXTERNAL_REF; TEMPLATE_EXTERNAL_REF]).
Proof. split_and!; vm_compute; reflexivity. Qed.

Definition twice (name : string) : JZASTNode := mkNode JZ_AST_TEMPLATE_APPLY (at_ 2) (Some name) None (Some "2"%string) None [].
Definition with_scratch : JZASTNode := template_ "t" [scratch_ "s"; assign (ident "s") (ident "z"); assign (ident "y") (ident "s")].
Definition some_limits : ApplyLimits := mkApplyLimits 100 1000.

Lemma template_expansion_terminates_witness :
  jz_template_expand (fun _ => 0) (root_ [module_ [block_ [twice "t"]]; with_scratch]) some_limits <> OutOfFuel /\
  jz_template_expand (fun _ => 0) (root_ [module_ [block_ [twice "t"]]; with_scratch]) some_limits <> Endless.
Proof.
  destruct (template_expansion_terminates (fun _ => 0) (root_ [module_ [block_ [twice "t"]]; with_scratch]) some_limits
    ltac:(done)) as (H1 & H2 & _). split; [exact H1|]. apply H2. intros table E. vm_compute in E. injection E as <-.
  split; vm_compute; reflexivity.
Defined.

Definition some_context : ExpandContext :=
  mkExpand [mkTemplate with_scratch None] [] some_limits [] 0 0 0 false false [].

Definition distinct_wires (m : TemplateOutcome JZASTNode) : Prop :=
  match m with Expanded _ c => length (scratch_wires c) = 2%nat /\ NoDup (map node_name (scratch_wires c)) | _ => False end.

Lemma scratch_wires_distinct_witness : distinct_wires (expand_module (fun _ => 0) 0 (module_ [block_ [twice "t"]]) some_context).
Proof.
  unfold distinct_wires. destruct (expand_module _ _ _ _) as [m c| | |] eqn:E; [|vm_compute in E; discriminate E..].
  split; [by vm_compute in E; injection E as _ <-|].
  apply (scratch_wires_distinct (fun _ => 0) 0 (module_ [block_ [twice "t"]]) some_context m c); [|by repeat constructor|done|exact E|].
  - intros t [<-|[]]. vm_compute. repeat constructor. by intros ?%elem_of_nil.
  - vm_compute in E. injection E as _ <-. vm_compute. repeat constructor.
Defined.
